(* ===== verification/_CoqProject ===== *)
-Q . S2P
Prelude.v
ChunkedVector.v
Fork.v
Rlp.v
Writer.v
Receipt.v
Contracts.v
Chain.v
CreateAddress.v
TriePath.v
Mpt.v
Bal.v
Jumpdest.v
AnalysisCache.v
EvmMem.v
Accounts.v
Keccak.v
Storages.v
Transient.v
Journal.v
StateDb.v
HostProofs.v
Frames.v
U256.v
Alu.v
Zevm.v
Sample.v
EvmFrame.v
EvmOps.v
EvmRun.v
Machine.v
StateRoot.v
RootSpec.v
RootEncode.v
RootTags.v
RootShape.v
RootBuild.v
RootEval.v
RootTrie.v
RootSound.v
RootWorld.v
WorldRoot.v
Ssz.v
Transactions.v
Consensus.v
Payload.v
IntrinsicGas.v
BalEncode.v
Block.v
BlockSample.v
BlockGas.v
BlockLimit.v
Keeps.v
Run.v
RunGas.v
