(* ===== verification/Prelude.v ===== *)
(** * Verification of the ziskethone stateless Ethereum guest (src/cpp-guest)

    The guest is a program run inside a zero-knowledge VM.  It reads one buffer: the
    header inputs of a block, its transactions, the code it may run, the headers of
    its ancestors and a witness of the part of the world state it touches.  It checks
    the input, executes the block and outputs a root that commits to it.  Nothing of
    the input is trusted; whatever is wrong ends the program ([zeg::fatal]).

    ** How the program is modelled

    Code becomes functions.  A routine that may call [zeg::fatal] returns [res]
    ([Ok] or [Fatal] with the message); the host's methods are in a state monad over
    the host object ([StateDb.M]), the block's in one over the object with its totals
    ([Block.B]), an opcode handler is one over the frame and the host ([Zevm.H]).
    Byte buffers are [list byte]; a w-bit integer is a [Z] with its wrap-around
    written out ([u32], [u64], [u256]); an address or a 32-byte word is the number its
    big-endian bytes denote, except in the interpreter, whose words are the code's
    four limbs.  Vectors are lists, read and written by [vec_get] and [vec_set], which
    fail out of range; hash tables are [gmap]s, so the seed of the tables, which only
    picks buckets, disappears.

    Parameters stand for code that is not in the repository: sha256, the precompiles,
    signature recovery, evmone's state-gas bookkeeping.  keccak256 is a parameter of
    everything that hashes; [Keccak] models the code that computes it, over a parameter
    for the Keccak-f precompile, and runs it with the permutation of FIPS 202.  A hash
    function with 256-bit results has collisions, so no theorem assumes that it has
    none or offers "or it has one" as a way out: a theorem that needs two hashes to
    tell their inputs apart assumes it of two finite lists of byte strings that it
    names ([collision_free]: the nodes of the witness and those of the world, the
    nodes of two tries, the Merkle inputs of two blocks), which is decided by
    evaluation on a concrete input.  What else is assumed of a parameter (a 256-bit
    result, the root of the empty trie, gas within what was given) is a hypothesis of
    the theorem too, and the theorem's witness discharges it for a toy function.

    ** The parts, from the bottom

    - [Prelude]: [res], [vec_get], machine integers, big- and little-endian bytes,
      buffers, the tactics and hints the files share.
    - [ChunkedVector]: the vector of chunks (chunked_vector.hpp), proved to be a list, as
      which the journal, the trie nodes and the logs are modelled.
    - [Keccak]: the Keccak-256 sponge and the memo of its permutation
      (keccak_zisk.cpp, keccakf_cache.hpp).
    - [Fork]: the fork ids, header field counts and EVM revisions (fork.hpp).
    - [Rlp]: encoders, in-place writers, decoder (rlp.hpp, rlp.cpp).  [Writer]: the
      cursor combinators of the exact-size encoders.  [Receipt]: receipts and the
      logs bloom (receipt.cpp, bloom.cpp).
    - [Contracts]: the checked stream readers (stream.hpp) and the code table
      (contracts.cpp).  [Chain]: block headers, ancestor records, BLOCKHASH
      (block_header.cpp, previous_blocks.cpp).  [CreateAddress]: create_address.cpp.
    - [TriePath]: packed nibble paths and hex prefix (trie_node.hpp, hex_prefix.cpp).
      [Mpt]: the one-shot trie (mpt.cpp).
    - [Bal], [BalEncode]: recording, encoding and hash of the EIP-7928 access list
      (block_access_list.cpp).
    - [Accounts], [Storages], [Transient]: the tables and maps of the state
      (accounts.cpp, storages.cpp, transient_storage.cpp, warm_keys.hpp).  [Journal]:
      the undo log (journal.cpp).
    - [StateDb]: the EVM host (zisk_state_db.cpp): callbacks, frames, SELFDESTRUCT,
      checkpoints, with the VM as a parameter.  [HostProofs] and [Frames] prove it.
    - [EvmMem], [Jumpdest], [U256], [Zevm]: the interpreter (src/zevm): memory manager,
      jump-target bitset, 256-bit words, opcode handlers, loop and frames; the machine
      ties it to the host.  [Alu] proves the arithmetic; [EvmFrame], [EvmOps],
      [EvmRun] and [Machine] prove handlers, loop and machine.  [Sample] is a small
      world to run them on.
    - [AnalysisCache]: the cache of jump-target bitsets (analysis_cache.hpp, w_prepare of
      zevm.cpp); it shows that a frame reads the bitset of its own code, which is what
      [Zevm] computes at the start of a frame.
    - [StateRoot]: the world-state trie (state_root.cpp): the walk that builds tables
      and nodes from the witness, and the incremental re-evaluation.  [RootSpec] says
      what a witness means; [RootEncode], [RootTags], [RootShape], [RootBuild],
      [RootEval], [RootTrie], [RootSound] and [RootWorld] prove the walks against it
      and against the Yellow Paper's tries; [WorldRoot] states the results.
    - [Ssz], [Payload]: SSZ Merkleization and the public output (ssz.cpp,
      new_payload_request.cpp).
    - [Transactions], [IntrinsicGas]: envelopes, signatures, the transactions root,
      intrinsic gas (transactions.cpp, intrinsic_gas.cpp).
    - [Consensus]: header inputs, fork schedule, blob fee, header checks
      (consensus_info.cpp, fork_schedule.hpp, fake_exponential.cpp, run.cpp).
    - [Block]: the block pipeline (zisk_state_db.cpp from execute_block on,
      eip6110_deposit.cpp).  [BlockSample], [BlockGas] and [BlockLimit] run and prove
      its gas and ether rules.  [Keeps]: what execution never does to the tables.
    - [Run]: the entry point [run] (run.cpp) that composes all of it.  [RunGas]: the gas
      of an accepted block.

    Interfaces between parts are classes: [JournaledVM] (what the host relies on its
    VM for, discharged by the interpreter in [EvmRun]), [FrameVM] and [ChildCall] (the
    interpreter and the host's calls, which discharge each other in [Machine]),
    [HostGas] (the gas rules of the precompiles), [FixedFork] (a VM leaves the fork
    alone; the interpreter does), [Reads] (a converter of an RLP item reads only its
    canonical encoding).

    ** What is shown

    - The whole program: an accepted input proves a state transition, from the world
      the parent's state root commits to, to the world the new header's state root
      commits to, with the interpreter of src/zevm as the VM ([run_proves_transition]);
      execution keeps tables and journal well typed ([execution_keeps_types]); the gas
      of the header is within its limit when no transaction's frame returns more gas
      than it got or a negative refund counter ([run_gas_within_limit]); the public
      output binds every field of the block ([output_binds_block]).
    - The interpreter halts on every input within its gas and its bounds: an access of
      the operand stack, the memory, the code or the jump bitset out of range is an
      error of the model and never happens ([interpreter_halts]); a failed call leaves
      no trace in the journaled state, and a failed create only the caller's nonce and
      the warm address ([call_is_atomic], [create_is_atomic]), while the marks of
      created accounts, which are not journaled, stay ([failed_create_keeps_mark]); the
      nesting of frames is bounded
      ([nesting_is_bounded]); opcodes compute their definitions modulo 2^256; memory
      refines independent byte arrays; the jump-target bitset is exact.
    - The witness cannot lie ([witness_rows_agree]); the incremental root is the
      root from scratch ([incremental_root]) and the root of the post-block world
      ([new_root_of_world]); its only failure is a missing sibling; the one-shot trie
      is the Yellow Paper's and binds its entries.
    - Blocks and transactions: exact charges, refunds and fees ([upfront_exact],
      [settlement_exact]), the block gas limit ([block_gas_within_limit]), header rules
      ([header_follows_parent]), canonical envelopes and binding signatures, exact and
      canonical access lists.
    - Codecs: RLP round trips and canonicity, receipts, bloom, hex prefix, SSZ.
    - Hashing and storage: the hash is the reference sponge whatever the untrusted
      executor answers ([hash_exact]), and with an honest one no state is permuted twice
      ([permuted_once]); running frames read their own analysis through eviction
      ([frames_read_their_analysis]); the chunked vector is a list ([vector_is_list]).

    ** Fuel and bounds

    Recursion that is not structural has fuel that is proved to suffice or is a bound
    the code itself has.  The interpreter's loop has one round per unit of gas and one
    more, and every round but the last spends gas; frames nest 1025 deep, and the
    depth check stops them at 1024.  The trie builder has 65 levels for 64-nibble
    keys; the witness walks have 131 levels, two tries of 64 branches, which
    [build_walk_stops] shows to be enough.  [fake_exponential] has 2^66 rounds, never
    reached on 64-bit inputs ([fake_exponential_total]).  Loops over RLP items have as
    many rounds as bytes, the access-list walk as many as rows, the progressive SSZ
    trees as many as chunks, rollback as many as entries; the sponge has more rounds than
    bytes, eviction as many as slots, truncation one more than elements.

    ** What is not modelled

    The adapter to evmone (src/evmc2_evmone.cpp), the other VM the guest can be built
    with; the ZisK runtime, its precompile wrappers and assembly (zisk/), except the
    software big-integer backend and the Keccak sponge: the value opcodes are proved for
    that backend, not for the arithmetic precompiles the guest build can use in its
    place; the overflow of the five-byte RLP header buffer on payloads of 2^32 bytes or
    more; the transaction arena and the
    seeded hash of the tables; heap marks, debug dumps and the ZEG_STAGE selector of
    run(); pointer-equality shortcuts of the host; main.cpp and the C interface; the Rust
    tools, patches and scripts around the guest.  Gas amounts that the code keeps in int64 and proves
    small by its checks are integers without a width where no wrap-around can occur.
    Forks before Berlin are not accepted by the guest. *)

From stdpp Require Import base numbers list strings gmap.
From coqutil Require Export Byte.
From coqutil Require Import Z.ZLib Z.bitblast.

Set Default Proof Using "Type".
#[export] Set Default Goal Selector "!".

Declare Scope zeg_scope.
Delimit Scope zeg_scope with zeg.
Open Scope Z_scope.

(** ** Errors: [zeg::fatal] aborts the guest, every fallible routine
    returns a [res]. *)

Inductive res (A : Type) : Type :=
| Ok (a : A)
| Fatal (msg : string).
Arguments Ok {A} a.
Arguments Fatal {A} msg.

#[export] Instance res_ret : MRet res := λ A a, Ok a.
#[export] Instance res_bind : MBind res := λ A B f m,
  match m with
  | Ok a => f a
  | Fatal e => Fatal e
  end.
#[export] Instance res_fmap : FMap res := λ A B f m,
  match m with
  | Ok a => Ok (f a)
  | Fatal e => Fatal e
  end.

(** [fatal_if b msg] is the source's [if (b) fatal(msg)]. *)
Definition fatal_if (b : bool) (msg : string) : res unit :=
  if b then Fatal msg else Ok tt.

Definition is_ok {A} (r : res A) : bool :=
  match r with Ok _ => true | Fatal _ => false end.

(** ** Machine integers: a w-bit unsigned integer is a [Z] in [0, 2^w). *)

Definition u8 (z : Z) : Z := z mod 2 ^ 8.
Definition u16 (z : Z) : Z := z mod 2 ^ 16.
Definition u32 (z : Z) : Z := z mod 2 ^ 32.
Definition u64 (z : Z) : Z := z mod 2 ^ 64.
Definition u256 (z : Z) : Z := z mod 2 ^ 256.

Definition in_u64 (z : Z) : Prop := 0 ≤ z < 2 ^ 64.
Definition in_u256 (z : Z) : Prop := 0 ≤ z < 2 ^ 256.

#[export] Instance in_u64_dec z : Decision (in_u64 z).
Proof. unfold in_u64. apply _. Defined.
#[export] Instance in_u256_dec z : Decision (in_u256 z).
Proof. unfold in_u256. apply _. Defined.

(** [__builtin_popcountll] and [__builtin_ctzll] on a 64-bit word. *)
Fixpoint popcount_upto (n : nat) (z : Z) : Z :=
  match n with
  | O => 0
  | S n' => popcount_upto n' z + Z.b2z (Z.testbit z (Z.of_nat n'))
  end.
Definition popcount64 (z : Z) : Z := popcount_upto 64 z.

(** [__builtin_clzll v] for [v <> 0]. *)
Definition clz64 (v : Z) : Z := 63 - Z.log2 v.

(** ** Bytes *)

Abbreviation bytes := (list byte).
Abbreviation b2z := byte.unsigned.
Abbreviation z2b := byte.of_Z.

#[export] Instance byte_eq_dec : EqDecision byte.
Proof.
  intros x y. destruct (decide (b2z x = b2z y)) as [H|H].
  - left. by apply byte.unsigned_inj.
  - right. congruence.
Defined.

(** Big-endian value of a byte string, and the [n]-byte big-endian image of a
    number (the low [8 * n] bits). *)
Definition be_val (l : bytes) : Z := foldl (λ v b, 256 * v + b2z b) 0 l.

Fixpoint be_bytes (n : nat) (z : Z) : bytes :=
  match n with
  | O => []
  | S n' => be_bytes n' (z / 256) ++ [z2b z]
  end.

(** Little-endian value of a byte string ([memcpy] into a native integer) and
    the [n]-byte native image of a number. *)
Definition le_val (l : bytes) : Z := be_val (reverse l).
Definition le_bytes (n : nat) (z : Z) : bytes := reverse (be_bytes n z).

(** A byte-addressed buffer: reads and writes outside it are undefined
    behaviour in the source and an error here. *)
Definition mem_write (buf : bytes) (off : Z) (src : bytes) : res bytes :=
  if (0 <=? off) && (off + Z.of_nat (length src) <=? Z.of_nat (length buf)) then
    Ok (take (Z.to_nat off) buf ++ src ++ drop (Z.to_nat off + length src) buf)
  else Fatal "out-of-bounds write".

Definition mem_read (buf : bytes) (off : Z) (n : Z) : res bytes :=
  if (0 <=? off) && (0 <=? n) && (off + n <=? Z.of_nat (length buf)) then
    Ok (take (Z.to_nat n) (drop (Z.to_nat off) buf))
  else Fatal "out-of-bounds read".

(** A [std::vector] indexed with [operator[]]: an index past the end is
    undefined behaviour in the source and an error here. *)
Definition vec_get {A} (l : list A) (i : nat) : res A :=
  match l !! i with Some x => Ok x | None => Fatal "vector index out of range" end.

Definition vec_set {A} (l : list A) (i : nat) (x : A) : res (list A) :=
  match l !! i with Some _ => Ok (<[i := x]> l) | None => Fatal "vector index out of range" end.

(** ** Byte and big-endian lemmas *)

Lemma b2z_range b : 0 ≤ b2z b < 256.
Proof. apply byte.unsigned_range. Qed.

Lemma b2z_z2b z : b2z (z2b z) = z mod 256.
Proof. rewrite byte.unsigned_of_Z. done. Qed.

Lemma b2z_z2b_small z : 0 ≤ z < 256 → b2z (z2b z) = z.
Proof. intros. rewrite b2z_z2b. by apply Z.mod_small. Qed.

Lemma z2b_b2z b : z2b (b2z b) = b.
Proof. apply byte.of_Z_unsigned. Qed.

Lemma z2b_mod z : z2b (z mod 256) = z2b z.
Proof. apply byte.unsigned_inj. rewrite !b2z_z2b. apply Z.mod_mod. lia. Qed.

Lemma be_val_snoc l b : be_val (l ++ [b]) = 256 * be_val l + b2z b.
Proof. unfold be_val. by rewrite foldl_app. Qed.

Lemma foldl_be_shift l v :
  foldl (λ v b, 256 * v + b2z b) v l = v * 256 ^ Z.of_nat (length l) + be_val l.
Proof.
  induction l as [|b l IH] using rev_ind; [unfold be_val; simpl; lia|].
  rewrite be_val_snoc, foldl_app, length_app. simpl. rewrite IH.
  rewrite Nat2Z.inj_add, Z.pow_add_r by lia.
  change (256 ^ Z.of_nat 1) with 256. ring.
Qed.

Lemma be_val_cons b l :
  be_val (b :: l) = b2z b * 256 ^ Z.of_nat (length l) + be_val l.
Proof. unfold be_val at 1. cbn [foldl]. rewrite foldl_be_shift. f_equal. Qed.

Lemma be_val_app l1 l2 :
  be_val (l1 ++ l2) = be_val l1 * 256 ^ Z.of_nat (length l2) + be_val l2.
Proof. unfold be_val at 1. by rewrite foldl_app, foldl_be_shift. Qed.

Lemma pow256_pos n : 0 < 256 ^ Z.of_nat n.
Proof. apply Z.pow_pos_nonneg; lia. Qed.

Lemma pow256_S n : 256 ^ Z.of_nat (S n) = 256 * 256 ^ Z.of_nat n.
Proof. rewrite Nat2Z.inj_succ. apply Z.pow_succ_r. lia. Qed.

Lemma pow256_shiftr z n : z / 256 ^ Z.of_nat n = Z.shiftr z (8 * Z.of_nat n).
Proof.
  rewrite Z.shiftr_div_pow2 by lia. rewrite Z.pow_mul_r by lia. done.
Qed.

Lemma be_val_bound l : 0 ≤ be_val l < 256 ^ Z.of_nat (length l).
Proof.
  induction l as [|b l IH]; [unfold be_val; simpl; lia|].
  rewrite be_val_cons. cbn [length]. rewrite pow256_S.
  pose proof (b2z_range b). pose proof (pow256_pos (length l)). nia.
Qed.

Lemma length_be_bytes n z : length (be_bytes n z) = n.
Proof.
  revert z. induction n; intros; [done|]. cbn [be_bytes].
  rewrite length_app, IHn. simpl. lia.
Qed.

Lemma be_val_be_bytes n z : be_val (be_bytes n z) = z mod 256 ^ Z.of_nat n.
Proof.
  revert z. induction n as [|n IH]; intros z.
  - cbn. by rewrite Z.mod_1_r.
  - cbn [be_bytes]. rewrite be_val_snoc, IH, b2z_z2b, pow256_S.
    pose proof (pow256_pos n).
    rewrite Z.rem_mul_r by lia. lia.
Qed.

Lemma be_bytes_be_val l : be_bytes (length l) (be_val l) = l.
Proof.
  induction l as [|b l IH] using rev_ind; [done|].
  rewrite length_app, Nat.add_comm. cbn [length Nat.add be_bytes].
  rewrite be_val_snoc. pose proof (b2z_range b).
  replace ((256 * be_val l + b2z b) / 256) with (be_val l).
  - rewrite IH. f_equal. f_equal.
    rewrite <- z2b_mod, Z.add_comm, Z.mul_comm, Z.mod_add by lia.
    rewrite z2b_mod. apply z2b_b2z.
  - rewrite Z.mul_comm, Z.div_add_l by lia.
    rewrite (Z.div_small (b2z b)) by lia. lia.
Qed.

Lemma be_val_inj l1 l2 :
  length l1 = length l2 → be_val l1 = be_val l2 → l1 = l2.
Proof.
  intros Hl Hv. rewrite <- (be_bytes_be_val l1), <- (be_bytes_be_val l2).
  by rewrite Hl, Hv.
Qed.

Lemma be_val_be_bytes_small n z :
  0 ≤ z < 256 ^ Z.of_nat n → be_val (be_bytes n z) = z.
Proof. intros. rewrite be_val_be_bytes. by apply Z.mod_small. Qed.

Lemma be_bytes_unique n z l :
  length l = n → be_val l = z mod 256 ^ Z.of_nat n → l = be_bytes n z.
Proof.
  intros Hl Hv. apply be_val_inj; [by rewrite length_be_bytes|].
  by rewrite be_val_be_bytes.
Qed.

Lemma be_bytes_cons n z :
  be_bytes (S n) z = z2b (Z.shiftr z (8 * Z.of_nat n)) :: be_bytes n z.
Proof.
  symmetry. apply be_bytes_unique; [simpl; by rewrite length_be_bytes|].
  rewrite be_val_cons, length_be_bytes, be_val_be_bytes, b2z_z2b, <- pow256_shiftr.
  pose proof (pow256_pos n). rewrite pow256_S, (Z.mul_comm 256), Z.rem_mul_r; lia.
Qed.

Lemma be_bytes_hd_nonzero n z :
  256 ^ Z.of_nat n ≤ z < 256 ^ Z.of_nat (S n) →
  0 < b2z (hd Byte.x00 (be_bytes (S n) z)).
Proof.
  intros Hz. rewrite be_bytes_cons. cbn [hd]. rewrite <- pow256_shiftr.
  pose proof (pow256_pos n). rewrite pow256_S in Hz.
  assert (1 ≤ z / 256 ^ Z.of_nat n) by (apply Z.div_le_lower_bound; lia).
  assert (z / 256 ^ Z.of_nat n < 256) by (apply Z.div_lt_upper_bound; lia).
  rewrite b2z_z2b_small; lia.
Qed.

Lemma be_val_hd_bound b l :
  0 < b2z b → 256 ^ Z.of_nat (length l) ≤ be_val (b :: l).
Proof.
  intros. rewrite be_val_cons. pose proof (be_val_bound l).
  pose proof (pow256_pos (length l)). nia.
Qed.

Lemma be_val_zeros n l : be_val (replicate n Byte.x00 ++ l) = be_val l.
Proof.
  induction n as [|n IH]; [done|]. cbn [replicate app].
  rewrite be_val_cons, IH. change (b2z Byte.x00) with 0. lia.
Qed.

Lemma drop_be_bytes k n z : drop k (be_bytes (k + n) z) = be_bytes n z.
Proof.
  revert z. induction k as [|k IH]; intros z; [done|].
  cbn [Nat.add]. rewrite be_bytes_cons. apply IH.
Qed.

Lemma take_be_bytes k n z : take k (be_bytes (k + n) z) = be_bytes k (Z.shiftr z (8 * Z.of_nat n)).
Proof.
  revert z. induction n as [|n IH]; intros z.
  - rewrite Nat.add_0_r, Z.shiftr_0_r, firstn_all2; [done|by rewrite length_be_bytes].
  - rewrite Nat.add_succ_r. cbn [be_bytes].
    rewrite take_app_le by (rewrite length_be_bytes; lia). rewrite IH. f_equal.
    change 256 with (2 ^ 8). rewrite <- Z.shiftr_div_pow2 by lia.
    rewrite Z.shiftr_shiftr by lia. f_equal. lia.
Qed.

Lemma le_val_bound l : 0 ≤ le_val l < 256 ^ Z.of_nat (length l).
Proof. unfold le_val. rewrite <- length_reverse. apply be_val_bound. Qed.

Lemma length_le_bytes n z : length (le_bytes n z) = n.
Proof. unfold le_bytes. rewrite length_reverse. apply length_be_bytes. Qed.

(** Minimal big-endian representation of a non-negative number. *)
Definition be_width (v : Z) : nat :=
  if v =? 0 then 0 else S (Z.to_nat (Z.log2 v / 8)).
Definition be_trim (v : Z) : bytes := be_bytes (be_width v) v.

Lemma be_width_spec v w :
  256 ^ Z.of_nat w ≤ v < 256 ^ Z.of_nat (S w) → be_width v = S w.
Proof.
  intros [Hl Hu]. pose proof (pow256_pos w). unfold be_width.
  destruct (Z.eqb_spec v 0); [lia|]. assert (0 < v) by lia. pose proof (Z.log2_nonneg v).
  change 256 with (2 ^ 8) in Hl, Hu. rewrite <- !Z.pow_mul_r in Hl, Hu by lia.
  apply Z.log2_le_pow2 in Hl; [|lia]. apply Z.log2_lt_pow2 in Hu; [|lia].
  f_equal. apply Nat2Z.inj. rewrite Z2Nat.id by (apply Z.div_pos; lia).
  symmetry. apply Z.div_unique with (Z.log2 v - 8 * Z.of_nat w); lia.
Qed.

Lemma be_width_bounds v :
  0 < v → ∃ w, be_width v = S w ∧ 256 ^ Z.of_nat w ≤ v < 256 ^ Z.of_nat (S w).
Proof.
  intros Hv. set (w := Z.to_nat (Z.log2 v / 8)). exists w.
  assert (Hb : 256 ^ Z.of_nat w ≤ v < 256 ^ Z.of_nat (S w)).
  { pose proof (Z.log2_spec v Hv) as [H1 H2]. pose proof (Z.log2_nonneg v).
    subst w. rewrite Nat2Z.inj_succ, Z2Nat.id by (apply Z.div_pos; lia).
    change 256 with (2 ^ 8). rewrite <- !Z.pow_mul_r by (try apply Z.le_le_succ_r; try apply Z.div_pos; lia).
    pose proof (Z.div_mod (Z.log2 v) 8). pose proof (Z.mod_pos_bound (Z.log2 v) 8). split.
    - etrans; [|exact H1]. apply Z.pow_le_mono_r; lia.
    - eapply Z.lt_le_trans; [exact H2|]. apply Z.pow_le_mono_r; lia. }
  split; [by apply be_width_spec|done].
Qed.

Lemma be_width_le n v : 0 ≤ v < 256 ^ Z.of_nat n → (be_width v ≤ n)%nat.
Proof.
  intros Hv. destruct (Z.eq_dec v 0) as [->|]; [cbn; lia|].
  destruct (be_width_bounds v) as (w & -> & Hw & _); [lia|].
  apply Nat.nlt_ge. intros ?.
  assert (256 ^ Z.of_nat n ≤ 256 ^ Z.of_nat w) by (apply Z.pow_le_mono_r; lia). lia.
Qed.

Lemma be_val_trim v : 0 ≤ v → be_val (be_trim v) = v.
Proof.
  intros Hv. destruct (Z.eq_dec v 0) as [->|]; [done|].
  destruct (be_width_bounds v) as (w & Hw & Hb); [lia|].
  unfold be_trim. rewrite Hw. apply be_val_be_bytes_small. lia.
Qed.

Lemma be_trim_hd v : 0 < v → 0 < b2z (hd Byte.x00 (be_trim v)).
Proof.
  intros Hv. destruct (be_width_bounds v Hv) as (w & Hw & Hb).
  unfold be_trim. rewrite Hw. by apply be_bytes_hd_nonzero.
Qed.

Lemma be_trim_unique l :
  (l ≠ [] → 0 < b2z (hd Byte.x00 l)) → be_trim (be_val l) = l.
Proof.
  intros Hl. destruct l as [|b l]; [done|]. specialize (Hl ltac:(done)). simpl in Hl.
  unfold be_trim. rewrite (be_width_spec _ (length l)).
  - change (S (length l)) with (length (b :: l)). apply be_bytes_be_val.
  - split; [by apply be_val_hd_bound|]. apply (be_val_bound (b :: l)).
Qed.

(** [(v << n) | b] is [v * 2^n + b] when [b] fits [n] bits. *)
Lemma lor_shiftl n v b :
  0 ≤ n → 0 ≤ b < 2 ^ n → Z.lor (Z.shiftl v n) b = v * 2 ^ n + b.
Proof.
  intros Hn Hb. rewrite Z.or_to_plus; [by rewrite Z.shiftl_mul_pow2|].
  apply Z.bits_inj'. intros i Hi. rewrite Z.land_spec, Z.bits_0.
  destruct (Z.ltb_spec i n) as [H8|H8].
  - by rewrite Z.shiftl_spec_low.
  - rewrite <- (Z.mod_small b (2 ^ n)), Z.mod_pow2_bits_high by lia. apply andb_false_r.
Qed.

Lemma lor_shiftl8 v b : 0 ≤ b < 256 → Z.lor (Z.shiftl v 8) b = 256 * v + b.
Proof. intros. rewrite lor_shiftl by (simpl; lia). lia. Qed.

Lemma lor_shiftl4 v b : 0 ≤ b < 16 → Z.lor (Z.shiftl v 4) b = 16 * v + b.
Proof. intros. rewrite lor_shiftl by (simpl; lia). lia. Qed.

(** ** Lists *)

Lemma take_drop_prefix {A} n (l : list A) : l = take n l ++ drop (length (take n l)) l.
Proof.
  rewrite length_take. destruct (Nat.le_ge_cases n (length l)) as [H|H].
  - rewrite Nat.min_l by done. by rewrite take_drop.
  - rewrite Nat.min_r, firstn_all2, skipn_all by done. by rewrite app_nil_r.
Qed.

(** ** Buffers *)

Lemma mem_write_ok buf off src :
  0 ≤ off → off + Z.of_nat (length src) ≤ Z.of_nat (length buf) →
  mem_write buf off src =
    Ok (take (Z.to_nat off) buf ++ src ++ drop (Z.to_nat off + length src) buf).
Proof.
  intros. unfold mem_write.
  rewrite (proj2 (Z.leb_le 0 off)), (proj2 (Z.leb_le _ _)); [done|lia|lia].
Qed.

Lemma mem_write_length buf off src buf' :
  mem_write buf off src = Ok buf' → length buf' = length buf.
Proof.
  unfold mem_write. case_match eqn:E; [|done].
  apply andb_true_iff in E as [E1%Z.leb_le E2%Z.leb_le].
  intros [= <-]. rewrite !length_app, length_take, length_drop. lia.
Qed.

Lemma mem_write_app buf off a b :
  mem_write buf off (a ++ b) =
    (buf' ← mem_write buf off a; mem_write buf' (off + Z.of_nat (length a)) b).
Proof.
  assert (Hw : ∀ o l, mem_write buf o l =
    if (0 <=? o) && (o + Z.of_nat (length l) <=? Z.of_nat (length buf)) then
      Ok (take (Z.to_nat o) buf ++ l ++ drop (Z.to_nat o + length l) buf)
    else Fatal "out-of-bounds write") by done.
  rewrite !Hw, length_app. clear Hw.
  destruct (Z.leb_spec 0 off); cbn [andb]; [|done].
  destruct (Z.leb_spec (off + Z.of_nat (length a)) (Z.of_nat (length buf))) as [Ha|Ha];
    cbn [mbind res_bind].
  - unfold mem_write. rewrite !length_app, length_take, length_drop.
    rewrite (proj2 (Z.leb_le 0 _)) by lia. cbn [andb].
    replace (Z.of_nat (Z.to_nat off `min` length buf + (length a + (length buf - (Z.to_nat off + length a)))))
      with (Z.of_nat (length buf)) by lia.
    replace (off + Z.of_nat (length a + length b))
      with (off + Z.of_nat (length a) + Z.of_nat (length b)) by lia.
    case_match; [|done]. f_equal.
    assert (Hl : length (take (Z.to_nat off) buf ++ a) = Z.to_nat (off + Z.of_nat (length a)))
      by (rewrite length_app, length_take; lia).
    rewrite !app_assoc, <- Hl, take_app_length. rewrite <- !app_assoc. do 3 f_equal.
    rewrite app_assoc, drop_app_ge by lia. rewrite drop_drop. f_equal. lia.
  - rewrite (proj2 (Z.leb_gt _ _)) by lia. done.
Qed.

(** The bytes [buf[s, e)]. *)
Definition slice (buf : bytes) (s e : Z) : bytes :=
  take (Z.to_nat (e - s)) (drop (Z.to_nat s) buf).

Lemma length_slice buf s e :
  0 ≤ s ≤ e → e ≤ Z.of_nat (length buf) → length (slice buf s e) = Z.to_nat (e - s).
Proof. intros. unfold slice. rewrite length_take, length_drop. lia. Qed.

(** Writing just below [s] prepends to the slice that starts at [s]. *)
Lemma slice_here l1 l e : e = Z.of_nat (length l1) → slice (l1 ++ l) 0 e = l1.
Proof. intros ->. unfold slice. rewrite Z.sub_0_r, Nat2Z.id. apply take_app_length. Qed.

Lemma slice_all l e : e = Z.of_nat (length l) → slice l 0 e = l.
Proof. intros He. rewrite <- (app_nil_r l) at 1. by apply slice_here. Qed.

Lemma slice_skip l1 l s e :
  Z.of_nat (length l1) ≤ s →
  slice (l1 ++ l) s e = slice l (s - Z.of_nat (length l1)) (e - Z.of_nat (length l1)).
Proof.
  intros Hs. unfold slice. rewrite drop_app_ge by lia. f_equal; [lia|]. f_equal. lia.
Qed.

Lemma mem_write_front buf s e src :
  Z.of_nat (length src) ≤ s ≤ e → e ≤ Z.of_nat (length buf) →
  ∃ buf', mem_write buf (s - Z.of_nat (length src)) src = Ok buf' ∧
          length buf' = length buf ∧
          slice buf' (s - Z.of_nat (length src)) e = src ++ slice buf s e.
Proof.
  intros Hs He. eexists. split; [apply mem_write_ok; lia|].
  set (off := Z.to_nat (s - Z.of_nat (length src))).
  split; [rewrite !length_app, length_take, length_drop; lia|].
  unfold slice. fold off.
  rewrite drop_app_ge by (rewrite length_take; lia).
  rewrite length_take, (Nat.min_l off) by lia. rewrite Nat.sub_diag, drop_0.
  rewrite take_app_ge by lia. f_equal. f_equal; [lia|]. f_equal. lia.
Qed.

(** Writing at [e] appends to the slice that ends at [e]. *)
Lemma mem_write_back buf s e src :
  0 ≤ s ≤ e → e + Z.of_nat (length src) ≤ Z.of_nat (length buf) →
  ∃ buf', mem_write buf e src = Ok buf' ∧ length buf' = length buf ∧
          slice buf' s (e + Z.of_nat (length src)) = slice buf s e ++ src.
Proof.
  intros Hs He. eexists. split; [apply mem_write_ok; lia|].
  split; [rewrite !length_app, length_take, length_drop; lia|].
  unfold slice. rewrite drop_app_le by (rewrite length_take; lia).
  rewrite app_assoc, take_app_le
    by (rewrite length_app, length_drop, length_take; lia).
  rewrite firstn_all2 by (rewrite length_app, length_drop, length_take; lia).
  f_equal. rewrite skipn_firstn_comm. f_equal. lia.
Qed.

(** ** Lists and vectors *)

Lemma filter_ext_in {A} (P Q : A → Prop) `{∀ x, Decision (P x), ∀ x, Decision (Q x)}
    (l : list A) :
  (∀ x, x ∈ l → P x ↔ Q x) → filter P l = filter Q l.
Proof.
  induction l as [|x l IH]; intros HPQ; [done|].
  rewrite !filter_cons, IH by (intros; apply HPQ; by right).
  specialize (HPQ x (list_elem_of_here _ _)). repeat case_decide; tauto.
Qed.

(** A read inside its buffer. *)
Lemma mem_read_run buf off n :
  0 ≤ off → 0 ≤ n → off + n ≤ Z.of_nat (length buf) →
  mem_read buf off n = Ok (take (Z.to_nat n) (drop (Z.to_nat off) buf)).
Proof.
  intros. unfold mem_read. rewrite !(proj2 (Z.leb_le _ _)) by lia. done.
Qed.

Lemma vec_get_Ok {A} (l : list A) i x : vec_get l i = Ok x ↔ l !! i = Some x.
Proof. unfold vec_get. destruct (l !! i); naive_solver. Qed.

Lemma vec_set_Ok {A} (l l' : list A) i x :
  vec_set l i x = Ok l' ↔ (i < length l)%nat ∧ l' = <[i := x]> l.
Proof.
  unfold vec_set. rewrite <- lookup_lt_is_Some. unfold is_Some.
  destruct (l !! i); naive_solver.
Qed.

(** ** The error monad *)

Lemma Ok_inj {A} (x y : A) : Ok x = Ok y → x = y.
Proof. by intros [= ->]. Qed.

Lemma fatal_if_Ok b msg x : fatal_if b msg = Ok x ↔ b = false.
Proof. destruct x. by destruct b. Qed.

Lemma bind_Ok {A B} (m : res A) (f : A → res B) b :
  (m ≫= f) = Ok b ↔ ∃ a, m = Ok a ∧ f a = Ok b.
Proof. destruct m; simpl; naive_solver. Qed.

Lemma res_bind_ext {A B} (r : res A) (f g : A → res B) : (∀ x, f x = g x) → (x ← r; f x) = (x ← r; g x).
Proof. intros H. destruct r; [apply H|done]. Qed.

(** Case analysis on a monadic computation known to have succeeded. *)
Ltac ok_inv :=
  repeat match goal with
    | H : (_ ≫= _) = Ok _ |- _ =>
        apply bind_Ok in H; destruct H as (? & ? & H); cbn beta in H
    | H : fatal_if _ _ = Ok _ |- _ => apply fatal_if_Ok in H
    | x : unit |- _ => destruct x
    | x : _ * _ |- _ => destruct x; cbn beta iota in *
    | H : mret _ = Ok _ |- _ => unfold mret, res_ret in H
    | H : Ok _ = Ok _ |- _ => apply Ok_inj in H; try subst
    | H : (_, _) = (_, _) |- _ => apply pair_equal_spec in H as [? ?]; try subst
    | H : Fatal _ = Ok _ |- _ => discriminate H
    end.

Create HintDb zeg.
#[export] Hint Resolve b2z_range be_val_bound pow256_pos : zeg.
Create Rewrite HintDb zeg_len.
#[export] Hint Rewrite length_be_bytes @length_app @length_take @length_drop @length_replicate : zeg_len.

(** ** Hashes told apart

    [hash] is injective between two explicit lists of inputs: no member of the one
    has the hash of a different member of the other. *)
Definition collision_free (hash : bytes → Z) (A B : list bytes) : Prop :=
  ∀ x y, x ∈ A → y ∈ B → hash x = hash y → x = y.
(** Decided over the hashes, each computed once. *)
Definition hashed (hash : bytes → Z) : list bytes → list (Z * bytes) := map (λ x, (hash x, x)).
Definition told_apart (A B : list (Z * bytes)) : bool := forallb (λ a, forallb (λ b, negb (a.1 =? b.1) || bool_decide (a.2 = b.2)) B) A.
Lemma collision_free_check hash A B : told_apart (hashed hash A) (hashed hash B) = true ↔ collision_free hash A B.
Proof.
  unfold told_apart, hashed, collision_free. rewrite forallb_forall. setoid_rewrite forallb_forall. setoid_rewrite in_map_iff. split.
  - intros H x y Hx Hy E. specialize (H (hash x, x)). cbn in H. specialize (H ltac:(exists x; split; [done|by apply list_elem_of_In]) (hash y, y)).
    cbn in H. specialize (H ltac:(exists y; split; [done|by apply list_elem_of_In])). rewrite E, Z.eqb_refl in H. by apply bool_decide_eq_true in H.
  - intros H a (x & <- & Hx%list_elem_of_In) b (y & <- & Hy%list_elem_of_In). cbn. destruct (Z.eqb_spec (hash x) (hash y)); [|done].
    cbn. apply bool_decide_eq_true. by apply H.
Qed.
#[export] Instance collision_free_dec hash A B : Decision (collision_free hash A B).
Proof.
  refine (cast_if (decide (told_apart (hashed hash A) (hashed hash B) = true))).
  - abstract (by apply collision_free_check).
  - abstract (by rewrite <- collision_free_check).
Defined.
#[export] Instance collision_free_mono hash : Proper (flip (⊆) ==> flip (⊆) ==> impl) (collision_free hash).
Proof. intros A A' HA B B' HB H x y Hx Hy. apply H; [by apply HA|by apply HB]. Qed.
Lemma collision_free_sub hash A B A' B' : collision_free hash A B → A' ⊆ A → B' ⊆ B → collision_free hash A' B'.
Proof. intros H HA HB. by rewrite HA, HB. Qed.
Lemma collision_free_sym hash A B : collision_free hash A B → collision_free hash B A.
Proof. intros H x y Hx Hy E. symmetry. by apply H. Qed.
