(* ===== verification/ChunkedVector.v ===== *)
(** The vector that grows by chunks ([include/zeg/chunked_vector.hpp]): the journal, the
    trie nodes and the logs of a receipt are kept in it.

    A chunk is a list of cells, a cell [Some] an element or [None] raw memory; a [T*] is
    a chunk number with an offset, or null.  Sizes are below [kMax], or indexes of
    elements that exist, so no arithmetic wraps.  The vector is proved to be a list. *)

From stdpp Require Import base numbers list strings.
From S2P Require Import Prelude.

Module ChunkedVector.

Section Code.
Context {T : Type} (kFirst kMax : Z).

(** The [static_assert]s on the template arguments. *)
Definition is_pow2 (v : Z) : bool := (0 <? v) && (Z.land v (v - 1) =? 0).
Definition args_ok : bool := is_pow2 kFirst && (kFirst <=? kMax) && is_pow2 kMax && (kMax <? 2 ^ 64).

(** [while (v > 1) { v >>= 1; ++r; }] on a 64-bit value. *)
Fixpoint log2_loop (fuel : nat) (v r : Z) : Z :=
  match fuel with
  | O => r
  | S fuel => if 1 <? v then log2_loop fuel (Z.shiftr v 1) (r + 1) else r
  end.
Definition log2 (v : Z) : Z := log2_loop 64 v 0.

Definition kFirstLog : Z := log2 kFirst.
Definition kGrowing : Z := log2 (kMax / kFirst).
Definition kGrowCap : Z := kFirst * (Z.shiftl 1 kGrowing - 1).

Definition chunk_cap (k : Z) : Z := if k <? kGrowing then Z.shiftl kFirst k else kMax.

Definition locate (i : Z) : Z * Z :=
  if i <? kGrowCap then
    let q := Z.shiftr i kFirstLog + 1 in
    let k := 63 - clz64 q in
    (k, i - kFirst * (Z.shiftl 1 k - 1))
  else
    let j := i - kGrowCap in
    (kGrowing + j / kMax, j mod kMax).

Definition ptr : Type := option (Z * Z).
Definition ptr_add (p : ptr) (n : Z) : ptr := match p with Some (k, o) => Some (k, o + n) | None => None end.

Record CV := mkCV {
  chunks_ : list (list (option T));
  size_ : Z;
  cur_ : Z;
  begin_ : ptr;
  end_ : ptr;
  limit_ : ptr;
}.
Definition empty_cv : CV := mkCV [] 0 0 None None None.

(** [chunks_[k]], and the cell a pointer denotes. *)
Definition chunk (cv : CV) (k : Z) : res (list (option T)) :=
  if 0 <=? k then vec_get (chunks_ cv) (Z.to_nat k) else Fatal "chunk index out of range".
Definition chunk_ptr (cv : CV) (k : Z) : res ptr := _ ← chunk cv k; Ok (Some (k, 0)).

Definition load (cv : CV) (p : ptr) : res T :=
  match p with
  | Some (k, o) =>
      c ← chunk cv k;
      if 0 <=? o then
        match c !! Z.to_nat o with
        | Some (Some x) => Ok x
        | Some None => Fatal "read of raw memory"
        | None => Fatal "chunk offset out of range"
        end
      else Fatal "chunk offset out of range"
  | None => Fatal "null pointer"
  end.
Definition store (cv : CV) (p : ptr) (x : option T) : res CV :=
  match p with
  | Some (k, o) =>
      c ← chunk cv k;
      if 0 <=? o then
        c ← vec_set c (Z.to_nat o) x;
        Ok (mkCV (<[Z.to_nat k := c]> (chunks_ cv)) (size_ cv) (cur_ cv) (begin_ cv) (end_ cv) (limit_ cv))
      else Fatal "chunk offset out of range"
  | None => Fatal "null pointer"
  end.

Definition slot (cv : CV) (i : Z) : res ptr :=
  let '(k, off) := locate i in p ← chunk_ptr cv k; Ok (ptr_add p off).

Definition enter (cv : CV) (k : Z) (e : ptr) : res CV :=
  b ← chunk_ptr cv k;
  Ok (mkCV (chunks_ cv) (size_ cv) k b e (ptr_add b (chunk_cap k))).

Definition reset_cursor (cv : CV) : CV := mkCV (chunks_ cv) (size_ cv) 0 None None None.

(** The stolen-from vector becomes empty: (this, o). *)
Definition steal (o : CV) : CV * CV :=
  (mkCV (chunks_ o) (size_ o) (cur_ o) (begin_ o) (end_ o) (limit_ o),
   reset_cursor (mkCV [] 0 (cur_ o) (begin_ o) (end_ o) (limit_ o))).

Definition size (cv : CV) : Z := size_ cv.
Definition empty (cv : CV) : bool := size_ cv =? 0.
Definition get (cv : CV) (i : Z) : res T := p ← slot cv i; load cv p.

Definition back (cv : CV) : res T :=
  if bool_decide (end_ cv ≠ begin_ cv) then load cv (ptr_add (end_ cv) (-1))
  else
    p ← chunk_ptr cv (cur_ cv - 1);
    load cv (ptr_add p (chunk_cap (cur_ cv - 1) - 1)).

(** [Traits::allocate]: raw cells. *)
Definition grow (cv : CV) (k : Z) : CV :=
  mkCV (chunks_ cv ++ [replicate (Z.to_nat (chunk_cap k)) None])
    (size_ cv) (cur_ cv) (begin_ cv) (end_ cv) (limit_ cv).

Definition next_chunk (cv : CV) : res CV :=
  let k := if bool_decide (begin_ cv = None) then 0 else cur_ cv + 1 in
  let cv := if k =? Z.of_nat (length (chunks_ cv)) then grow cv k else cv in
  p ← chunk_ptr cv k;
  enter cv k p.

Definition emplace_back (cv : CV) (x : T) : res CV :=
  cv ← (if bool_decide (end_ cv = limit_ cv) then next_chunk cv else Ok cv);
  cv ← store cv (end_ cv) (Some x);
  Ok (mkCV (chunks_ cv) (size_ cv + 1) (cur_ cv) (begin_ cv) (ptr_add (end_ cv) 1) (limit_ cv)).

Definition prev_chunk (cv : CV) : res CV :=
  p ← chunk_ptr cv (cur_ cv - 1);
  enter cv (cur_ cv - 1) (ptr_add p (chunk_cap (cur_ cv - 1))).

Definition pop_back (cv : CV) : res CV :=
  cv ← (if bool_decide (end_ cv = begin_ cv) then prev_chunk cv else Ok cv);
  let cv := mkCV (chunks_ cv) (size_ cv - 1) (cur_ cv) (begin_ cv) (ptr_add (end_ cv) (-1)) (limit_ cv) in
  _ ← load cv (end_ cv);
  store cv (end_ cv) None.

(** [while (size_ > n) pop_back()], at most [fuel] times. *)
Fixpoint truncate_loop (fuel : nat) (cv : CV) (n : Z) : res CV :=
  match fuel with
  | O => Fatal "fuel"
  | S fuel => if n <? size_ cv then cv ← pop_back cv; truncate_loop fuel cv n else Ok cv
  end.
Definition truncate (cv : CV) (n : Z) : res CV := truncate_loop (S (Z.to_nat (size_ cv))) cv n.

Definition release (cv : CV) : res CV :=
  cv ← truncate cv 0;
  Ok (reset_cursor (mkCV [] (size_ cv) (cur_ cv) (begin_ cv) (end_ cv) (limit_ cv))).

(** [this = std::move(o)]: (this, o). *)
Definition move_assign (cv o : CV) : res (CV * CV) := _ ← release cv; Ok (steal o).

(** [for (const T& x : cv)]: the iterators read by index. *)
Fixpoint iterate (n : nat) (i : Z) (cv : CV) : res (list T) :=
  match n with
  | O => Ok []
  | S n => if i =? size_ cv then Ok [] else x ← get cv i; l ← iterate n (i + 1) cv; Ok (x :: l)
  end.
Definition elements (cv : CV) : res (list T) := iterate (Z.to_nat (size_ cv)) 0 cv.

End Code.
Arguments CV : clear implicits.
Arguments empty_cv {T}.

(** ** Powers of two *)

Lemma log2_loop_spec fuel v r : 0 < v < 2 ^ Z.of_nat fuel → log2_loop fuel v r = r + Z.log2 v.
Proof.
  revert v r. induction fuel as [|fuel IH]; intros v r Hv; [cbn in Hv; lia|]. cbn [log2_loop].
  rewrite Nat2Z.inj_succ, Z.pow_succ_r in Hv by lia.
  destruct (Z.ltb_spec 1 v).
  - rewrite Z.shiftr_div_pow2 by lia. change (2 ^ 1) with 2.
    pose proof (Z.div_le_lower_bound v 2 1). pose proof (Z.div_lt_upper_bound v 2 (2 ^ Z.of_nat fuel)).
    rewrite IH by lia. change 2 with (2 ^ 1) at 1. rewrite <- Z.shiftr_div_pow2, Z.log2_shiftr by lia.
    pose proof (Z.log2_pos v). lia.
  - replace v with 1 by lia. cbn. lia.
Qed.

Lemma is_pow2_spec v : is_pow2 v = true → v = 2 ^ Z.log2 v.
Proof.
  unfold is_pow2. intros [Hv Hl]%andb_prop. apply Z.ltb_lt in Hv. apply Z.eqb_eq in Hl.
  pose proof (Z.log2_spec v Hv) as [Hlo Hhi]. pose proof (Z.log2_nonneg v).
  destruct (decide (v = 2 ^ Z.log2 v)); [done|exfalso].
  assert (Ht : Z.testbit (Z.land v (v - 1)) (Z.log2 v) = true).
  { rewrite Z.land_spec, Z.bit_log2 by lia. cbn. replace (Z.log2 v) with (Z.log2 (v - 1)) at 1.
    - apply Z.bit_log2. assert (0 < 2 ^ Z.log2 v) by (apply Z.pow_pos_nonneg; lia). lia.
    - apply Z.log2_unique; [lia|]. rewrite Z.pow_succ_r in * by lia. lia. }
  rewrite Hl, Z.bits_0 in Ht. done.
Qed.

(** ** Chunks and indexes *)

Section Proofs.
Context {T : Type} (kFirst kMax : Z) (Hargs : args_ok kFirst kMax = true).

Abbreviation cap := (chunk_cap kFirst kMax).
Abbreviation growing := (kGrowing kFirst kMax).

Lemma args_facts : ∃ a, 0 ≤ a ∧ 0 ≤ growing ∧ kFirst = 2 ^ a ∧ kFirstLog kFirst = a ∧ kMax = kFirst * 2 ^ growing ∧ 0 < kFirst.
Proof using Hargs.
  unfold args_ok in Hargs. apply andb_prop in Hargs as [[[Hf Hle]%andb_prop Hm]%andb_prop Hlt].
  apply Z.leb_le in Hle. apply Z.ltb_lt in Hlt. apply is_pow2_spec in Hf as Hf', Hm as Hm'.
  unfold is_pow2 in Hf. apply andb_prop in Hf as [Hf%Z.ltb_lt _].
  pose proof (Z.log2_nonneg kFirst). pose proof (Z.log2_le_mono _ _ Hle).
  assert (Hq : kMax / kFirst = 2 ^ (Z.log2 kMax - Z.log2 kFirst)).
  { rewrite Hm', Hf' at 1. rewrite Z.pow_sub_r by lia. done. }
  assert (Hg : growing = Z.log2 kMax - Z.log2 kFirst).
  { unfold kGrowing, log2. rewrite Hq, log2_loop_spec; [rewrite Z.log2_pow2; lia|]. split.
    - apply Z.pow_pos_nonneg; lia.
    - apply Z.pow_lt_mono_r; try lia. apply (Z.le_lt_trans _ (Z.log2 kMax)); [lia|]. apply Z.log2_lt_pow2; lia. }
  exists (Z.log2 kFirst). split_and!; try lia.
  - unfold kFirstLog, log2. rewrite log2_loop_spec; [lia|]. change (2 ^ Z.of_nat 64) with (2 ^ 64). lia.
  - rewrite Hg. rewrite Hf' at 1. rewrite <- Z.pow_add_r by lia.
    replace (Z.log2 kFirst + (Z.log2 kMax - Z.log2 kFirst)) with (Z.log2 kMax) by lia. done.
Qed.

(** The index of the first element of chunk [k]. *)
Definition start (k : Z) : Z :=
  if k <=? growing then kFirst * (2 ^ k - 1) else kFirst * (2 ^ growing - 1) + (k - growing) * kMax.

Lemma start_0 : start 0 = 0.
Proof using Hargs.
  destruct args_facts as (a & _ & Hg & _). unfold start. rewrite (proj2 (Z.leb_le _ _)) by lia. cbn. lia.
Qed.

Lemma cap_pos k : 0 ≤ k → 0 < cap k.
Proof using Hargs.
  intros Hk. destruct args_facts as (a & _ & Hg & _ & _ & Hm & Hf). unfold chunk_cap.
  destruct (Z.ltb_spec k growing); [rewrite Z.shiftl_mul_pow2 by lia|rewrite Hm]; apply Z.mul_pos_pos; try lia;
    apply Z.pow_pos_nonneg; lia.
Qed.

Lemma start_succ k : 0 ≤ k → start (k + 1) = start k + cap k.
Proof using Hargs.
  intros Hk. destruct args_facts as (a & _ & Hg & _ & _ & Hm & Hf). unfold start, chunk_cap.
  destruct (Z.ltb_spec k growing).
  - rewrite !(proj2 (Z.leb_le _ _)) by lia. rewrite Z.shiftl_mul_pow2, Z.pow_add_r by lia. lia.
  - rewrite (proj2 (Z.leb_gt (k + 1) growing)) by lia. destruct (Z.leb_spec k growing); [|lia].
    replace k with growing by lia. lia.
Qed.

Lemma start_mono k k' : 0 ≤ k < k' → start k + cap k ≤ start k'.
Proof using Hargs.
  intros Hk. replace k' with (k + 1 + Z.of_nat (Z.to_nat (k' - k - 1))) by lia.
  induction (Z.to_nat (k' - k - 1)) as [|n IH].
  - rewrite Z.add_0_r, start_succ; lia.
  - rewrite Nat2Z.inj_succ. pose proof (cap_pos (k + 1 + Z.of_nat n)).
    pose proof (start_succ (k + 1 + Z.of_nat n)).
    replace (k + 1 + Z.succ (Z.of_nat n)) with (k + 1 + Z.of_nat n + 1) by lia. lia.
Qed.

Lemma start_nonneg k : 0 ≤ k → 0 ≤ start k.
Proof using Hargs.
  intros Hk. destruct (decide (k = 0)) as [->|]; [by rewrite start_0|].
  pose proof (start_mono 0 k). pose proof (cap_pos 0). rewrite start_0 in *. lia.
Qed.

(** A position lies in one chunk. *)
Lemma start_inj k o k' o' :
  0 ≤ k → 0 ≤ k' → 0 ≤ o < cap k → 0 ≤ o' < cap k' → start k + o = start k' + o' → k = k' ∧ o = o'.
Proof using Hargs.
  intros Hk Hk' Ho Ho' He. destruct (Z.lt_trichotomy k k') as [Hl|[<-|Hl]]; [|split; lia|].
  - pose proof (start_mono k k'). lia.
  - pose proof (start_mono k' k). lia.
Qed.

Lemma locate_spec i :
  0 ≤ i → let '(k, o) := locate kFirst kMax i in 0 ≤ k ∧ 0 ≤ o < cap k ∧ start k + o = i.
Proof using Hargs.
  intros Hi. destruct args_facts as (a & Ha & Hg & Hf & Hl & Hm & Hpos). unfold locate, kGrowCap.
  pose proof (Z.pow_pos_nonneg 2 growing ltac:(lia) Hg). rewrite Z.shiftl_1_l.
  destruct (Z.ltb_spec i (kFirst * (2 ^ growing - 1))) as [Hlt|Hge]; cbn zeta.
  - rewrite Hl, Z.shiftr_div_pow2, <- Hf by lia. set (q := i / kFirst + 1).
    assert (Hq : 0 ≤ i / kFirst < 2 ^ growing - 1) by (split; [apply Z.div_pos|apply Z.div_lt_upper_bound]; lia).
    assert (Hb : kFirst * (q - 1) ≤ i < kFirst * q).
    { pose proof (Z.div_mod i kFirst). pose proof (Z.mod_pos_bound i kFirst). unfold q. lia. }
    unfold clz64. replace (63 - (63 - Z.log2 q)) with (Z.log2 q) by lia.
    pose proof (Z.log2_nonneg q) as Hk. pose proof (Z.log2_spec q ltac:(unfold q; lia)) as [H1 H2].
    assert (Hkg : Z.log2 q < growing) by (apply Z.log2_lt_pow2; unfold q; lia).
    rewrite Z.shiftl_1_l. unfold start, chunk_cap. rewrite (proj2 (Z.leb_le _ _)), (proj2 (Z.ltb_lt _ _)) by lia.
    rewrite Z.shiftl_mul_pow2 by lia. rewrite Z.pow_succ_r in H2 by lia. split; [done|]. split; [nia|lia].
  - assert (0 < kMax) by (rewrite Hm; by apply Z.mul_pos_pos).
    set (j := i - _). assert (0 ≤ j / kMax) by (apply Z.div_pos; unfold j; lia).
    pose proof (Z.mod_pos_bound j kMax ltac:(done)). pose proof (Z.div_mod j kMax ltac:(lia)).
    split; [lia|]. unfold chunk_cap. rewrite (proj2 (Z.ltb_ge _ _)) by lia. split; [done|].
    unfold start. destruct (Z.leb_spec (growing + j / kMax) growing) as [Hle|Hgt]; [|unfold j in *; lia].
    replace (j / kMax) with 0 in * by lia. rewrite Z.add_0_r. unfold j in *. lia.
Qed.

(** ** Cells *)

(** Chunk [k] holds the positions from [start k] on. *)
Definition content (chs : list (list (option T))) (m : nat → option T) : Prop :=
  ∀ k c, chs !! k = Some c → length c = Z.to_nat (cap (Z.of_nat k)) ∧
    ∀ o, (o < length c)%nat → c !! o = Some (m (Z.to_nat (start (Z.of_nat k)) + o)%nat).

Definition in_range (cv : CV T) (k o : Z) : Prop := 0 ≤ k < Z.of_nat (length (chunks_ cv)) ∧ 0 ≤ o < cap k.

Lemma chunk_run (cv : CV T) k : 0 ≤ k < Z.of_nat (length (chunks_ cv)) →
  ∃ c, chunks_ cv !! Z.to_nat k = Some c ∧ chunk cv k = Ok c.
Proof.
  intros Hk. destruct (lookup_lt_is_Some_2 (chunks_ cv) (Z.to_nat k)) as [c Hc]; [lia|].
  exists c. split; [done|]. unfold chunk, vec_get. rewrite (proj2 (Z.leb_le 0 k)) by lia. by rewrite Hc.
Qed.

Lemma chunk_ptr_run (cv : CV T) k :
  0 ≤ k < Z.of_nat (length (chunks_ cv)) → chunk_ptr cv k = Ok (Some (k, 0)).
Proof. intros Hk. unfold chunk_ptr. destruct (chunk_run cv k Hk) as (c & _ & ->). done. Qed.

(** The cell of a pointer in range, by its position. *)
Lemma cell (cv : CV T) m k o :
  content (chunks_ cv) m → in_range cv k o →
  ∃ c, chunks_ cv !! Z.to_nat k = Some c ∧ chunk cv k = Ok c ∧ c !! Z.to_nat o = Some (m (Z.to_nat (start k + o))).
Proof using Hargs.
  intros Hc [Hk Ho]. destruct (chunk_run cv k Hk) as (c & Hl & Hr). exists c. split_and!; [done|done|].
  destruct (Hc _ _ Hl) as [Hlen Hcell]. rewrite Z2Nat.id in Hlen, Hcell by lia.
  rewrite Hcell by lia. do 2 f_equal. pose proof (start_nonneg k). lia.
Qed.

Lemma load_cell (cv : CV T) m k o x :
  content (chunks_ cv) m → in_range cv k o → m (Z.to_nat (start k + o)) = Some x →
  load cv (Some (k, o)) = Ok x.
Proof using Hargs.
  intros Hc Hr Hm. destruct (cell cv m k o Hc Hr) as (c & _ & Hk & Ho). destruct Hr as [_ Hr].
  unfold load. rewrite Hk. cbn. rewrite (proj2 (Z.leb_le 0 o)), Ho, Hm by lia. done.
Qed.

Lemma store_cell (cv : CV T) m m' k o x :
  content (chunks_ cv) m → in_range cv k o →
  m' (Z.to_nat (start k + o)) = x → (∀ j, j ≠ Z.to_nat (start k + o) → m' j = m j) →
  ∃ chs, store cv (Some (k, o)) x = Ok (mkCV chs (size_ cv) (cur_ cv) (begin_ cv) (end_ cv) (limit_ cv)) ∧
    content chs m' ∧ length chs = length (chunks_ cv).
Proof using Hargs.
  intros Hc Hr Hx Hm. destruct (cell cv m k o Hc Hr) as (c & Hl & Hk & Ho). destruct Hr as [Hr1 Hr2].
  exists (<[Z.to_nat k := <[Z.to_nat o := x]> c]> (chunks_ cv)). split_and!.
  - unfold store. rewrite Hk. cbn. rewrite (proj2 (Z.leb_le 0 o)) by lia. unfold vec_set. by rewrite Ho.
  - intros k' c' Hl'. pose proof (start_nonneg k ltac:(lia)) as Hs.
    pose proof (start_nonneg (Z.of_nat k') ltac:(lia)) as Hs'.
    destruct (decide (k' = Z.to_nat k)) as [->|Hne].
    + rewrite list_lookup_insert_eq in Hl' by lia. apply (inj Some) in Hl' as <-.
      destruct (Hc _ _ Hl) as [Hlen Hcell]. rewrite length_insert. split; [done|]. intros o' Ho'.
      rewrite Z2Nat.id in * by lia. destruct (decide (o' = Z.to_nat o)) as [->|Hoe].
      * rewrite list_lookup_insert_eq by done. rewrite <- Hx. do 2 f_equal. lia.
      * rewrite list_lookup_insert_ne by done. rewrite Hcell by done. f_equal. symmetry. apply Hm. lia.
    + rewrite list_lookup_insert_ne in Hl' by done. destruct (Hc _ _ Hl') as [Hlen Hcell]. split; [done|].
      intros o' Ho'. rewrite Hcell by done. f_equal. symmetry. apply Hm. intros He.
      destruct (start_inj (Z.of_nat k') (Z.of_nat o') k o); lia.
  - apply length_insert.
Qed.

Lemma content_grow (chs : list (list (option T))) (l : list T) :
  content chs (l !!.) → Z.of_nat (length l) ≤ start (Z.of_nat (length chs)) →
  content (chs ++ [replicate (Z.to_nat (cap (Z.of_nat (length chs)))) None]) (l !!.).
Proof using Hargs.
  intros Hc Hl k c Hk. apply lookup_app_Some in Hk as [Hk|[Hge Hk]]; [by apply Hc|].
  apply list_lookup_singleton_Some in Hk as [Hk <-]. replace k with (length chs) by lia.
  rewrite length_replicate. split; [done|]. intros o Ho. rewrite lookup_replicate_2 by done. f_equal.
  symmetry. apply lookup_ge_None_2. lia.
Qed.

(** ** The vector is a list *)

(** The cursor is in chunk [n] with [e] elements, or there is no chunk. *)
Definition cursor (cv : CV T) : Prop :=
  (cv = empty_cv) ∨
  ∃ e, 0 ≤ cur_ cv < Z.of_nat (length (chunks_ cv)) ∧ 0 ≤ e ≤ cap (cur_ cv) ∧
    begin_ cv = Some (cur_ cv, 0) ∧ end_ cv = Some (cur_ cv, e) ∧ limit_ cv = Some (cur_ cv, cap (cur_ cv)) ∧
    size_ cv = start (cur_ cv) + e.

Definition repr (cv : CV T) (l : list T) : Prop :=
  size_ cv = Z.of_nat (length l) ∧ content (chunks_ cv) (l !!.) ∧ cursor cv.

Lemma repr_empty : repr empty_cv [].
Proof. split_and!; [done|by intros ? ? ?|by left]. Qed.

(** Elements are in range. *)
Lemma repr_range cv l k o :
  repr cv l → 0 ≤ k → 0 ≤ o < cap k → start k + o < Z.of_nat (length l) → in_range cv k o.
Proof using Hargs.
  intros (Hs & _ & Hc) Hk Ho Hlt. split; [|done]. pose proof (start_nonneg k Hk).
  destruct Hc as [->|(e & Hcur & He & _ & _ & _ & Hsz)]; [cbn in Hs; lia|].
  destruct (decide (k ≤ cur_ cv)); [lia|]. pose proof (start_mono (cur_ cv) k). lia.
Qed.

Lemma get_repr cv l i x : repr cv l → 0 ≤ i → l !! Z.to_nat i = Some x → get kFirst kMax cv i = Ok x.
Proof using Hargs.
  intros Hr Hi Hx. unfold get, slot. pose proof (locate_spec i Hi) as Hl.
  destruct (locate kFirst kMax i) as [k o]. destruct Hl as (Hk & Ho & He).
  pose proof (lookup_lt_Some _ _ _ Hx). pose proof (repr_range cv l k o Hr Hk Ho ltac:(lia)) as Hin.
  rewrite chunk_ptr_run by apply Hin. cbn. apply (load_cell cv (l !!.)); [apply Hr|done|]. by rewrite Z.add_0_l, He.
Qed.

Lemma next_chunk_repr cv l :
  repr cv l → end_ cv = limit_ cv →
  ∃ cv', next_chunk kFirst kMax cv = Ok cv' ∧ repr cv' l ∧ end_ cv' ≠ limit_ cv'.
Proof using Hargs.
  intros (Hs & Hc & Hcur) He. unfold next_chunk.
  set (k := if bool_decide (begin_ cv = None) then 0 else cur_ cv + 1).
  assert (0 ≤ k ≤ Z.of_nat (length (chunks_ cv)) ∧ start k = Z.of_nat (length l)) as [Hk Hst].
  { unfold k. destruct Hcur as [->|(e & Hn & Hb & -> & Hend & Hlim & Hsz)].
    - rewrite bool_decide_eq_true_2 by done. cbn in Hs. rewrite <- Hs, start_0. cbn. lia.
    - rewrite bool_decide_eq_false_2 by done. rewrite Hend, Hlim in He. simplify_eq.
      rewrite start_succ by lia. lia. }
  clearbody k. pose proof (cap_pos k ltac:(lia)) as Hcap.
  assert (∃ chs, (if k =? Z.of_nat (length (chunks_ cv)) then grow kFirst kMax cv k else cv) =
    mkCV chs (size_ cv) (cur_ cv) (begin_ cv) (end_ cv) (limit_ cv) ∧
    content chs (l !!.) ∧ k < Z.of_nat (length chs)) as (chs & -> & Hc' & Hlen).
  { destruct (Z.eqb_spec k (Z.of_nat (length (chunks_ cv)))) as [->|].
    - eexists. split; [reflexivity|]. split; [apply content_grow; [done|lia]|]. rewrite length_app. cbn. lia.
    - exists (chunks_ cv). split; [by destruct cv|]. split; [done|lia]. }
  cbn zeta. unfold enter. rewrite chunk_ptr_run by (cbn; lia). cbn.
  eexists. split; [reflexivity|]. split; [|cbn; intros [=]; lia].
  split_and!; [done|done|]. right. exists 0. cbn. split_and!; try done; lia.
Qed.

Lemma emplace_repr cv l x :
  repr cv l → ∃ cv', emplace_back kFirst kMax cv x = Ok cv' ∧ repr cv' (l ++ [x]).
Proof using Hargs.
  intros Hr. unfold emplace_back.
  assert (∃ cv1, (if bool_decide (end_ cv = limit_ cv) then next_chunk kFirst kMax cv else Ok cv) = Ok cv1 ∧
    repr cv1 l ∧ end_ cv1 ≠ limit_ cv1) as (cv1 & -> & (Hs & Hc & Hcur) & Hne).
  { case_bool_decide as He; [by apply next_chunk_repr|]. by exists cv. }
  destruct Hcur as [->|(e & Hn & Hb & Hbeg & Hend & Hlim & Hsz)]; [done|].
  assert (e ≠ cap (cur_ cv1)) by (intros ->; congruence). cbn.
  assert (Hp : Z.to_nat (start (cur_ cv1) + e) = length l) by lia.
  destruct (store_cell cv1 (l !!.) ((l ++ [x]) !!.) (cur_ cv1) e (Some x)) as (chs & Hst & Hc' & Hlen).
  - done.
  - split; lia.
  - cbn. rewrite Hp. by apply list_lookup_middle.
  - intros j Hj. cbn. rewrite Hp in Hj. destruct (decide (j < length l)%nat); [by apply lookup_app_l|].
    rewrite !lookup_ge_None_2; [done|lia|]. rewrite length_app. cbn. lia.
  - rewrite Hend, Hst. cbn. eexists. split; [reflexivity|]. split_and!; cbn.
    + rewrite length_app. cbn. lia.
    + done.
    + right. exists (e + 1). cbn. rewrite Hend, Hlen. split_and!; try done; lia.
Qed.

(** The position before the cursor, and the cursor moved into its chunk. *)
Lemma prev_repr cv l :
  repr cv l → 0 < size_ cv →
  ∃ cv' e, (if bool_decide (end_ cv = begin_ cv) then prev_chunk kFirst kMax cv else Ok cv) = Ok cv' ∧
    repr cv' l ∧ 0 ≤ cur_ cv' < Z.of_nat (length (chunks_ cv')) ∧ 0 < e ≤ cap (cur_ cv') ∧
    begin_ cv' = Some (cur_ cv', 0) ∧ end_ cv' = Some (cur_ cv', e) ∧
    limit_ cv' = Some (cur_ cv', cap (cur_ cv')) ∧ size_ cv' = start (cur_ cv') + e.
Proof using Hargs.
  intros (Hs & Hc & Hcur) Hpos.
  destruct Hcur as [->|(e & Hn & Hb & Hbeg & Hend & Hlim & Hsz)]; [cbn in Hpos; lia|].
  case_bool_decide as He.
  - rewrite Hend, Hbeg in He. simplify_eq. rewrite Z.add_0_r in Hsz.
    assert (cur_ cv ≠ 0) by (intros H0; rewrite H0, start_0 in Hsz; lia).
    pose proof (start_succ (cur_ cv - 1) ltac:(lia)) as Hss. rewrite Z.sub_add in Hss.
    pose proof (cap_pos (cur_ cv - 1) ltac:(lia)).
    unfold prev_chunk, enter. rewrite chunk_ptr_run by lia. cbn.
    eexists _, (cap (cur_ cv - 1)). split; [reflexivity|]. cbn. split_and!; try done; try lia.
    split_and!; [done|done|]. right. exists (cap (cur_ cv - 1)). cbn. split_and!; try done; lia.
  - assert (e ≠ 0) by (intros ->; congruence). exists cv, e. split; [done|].
    split; [split_and!; [done|done|right; exists e; split_and!; try done; lia]|]. split_and!; try done; lia.
Qed.

Lemma back_repr cv l x : repr cv (l ++ [x]) → back kFirst kMax cv = Ok x.
Proof using Hargs.
  intros Hr. pose proof Hr as (Hs & Hc & Hcur). rewrite length_app in Hs. cbn in Hs. unfold back.
  assert (Hload : ∀ k o, 0 ≤ k → 0 ≤ o < cap k → start k + o = Z.of_nat (length l) → load cv (Some (k, o)) = Ok x).
  { intros k o Hk Ho He. apply (load_cell cv ((l ++ [x]) !!.)); [done| |].
    - apply (repr_range cv (l ++ [x])); [done..|]. rewrite length_app. cbn. lia.
    - cbn. rewrite He, Nat2Z.id. by apply list_lookup_middle. }
  destruct Hcur as [->|(e & Hn & Hb & Hbeg & Hend & Hlim & Hsz)]; [cbn in Hs; lia|].
  case_bool_decide as He.
  - assert (e ≠ 0) by (intros ->; congruence). rewrite Hend. cbn. apply Hload; lia.
  - rewrite Hend, Hbeg in He. simplify_eq.
    assert (cur_ cv ≠ 0) by (intros H0; rewrite H0, start_0 in Hsz; lia).
    pose proof (start_succ (cur_ cv - 1) ltac:(lia)) as Hss. rewrite Z.sub_add in Hss.
    pose proof (cap_pos (cur_ cv - 1) ltac:(lia)).
    rewrite chunk_ptr_run by lia. cbn. apply Hload; lia.
Qed.

Lemma pop_repr cv l x : repr cv (l ++ [x]) → ∃ cv', pop_back kFirst kMax cv = Ok cv' ∧ repr cv' l.
Proof using Hargs.
  intros Hr. unfold pop_back. destruct (prev_repr cv (l ++ [x])) as (cv1 & e & -> & Hr1 & Hn & Hb & Hbeg & Hend & Hlim & Hsz).
  { done. } { destruct Hr as (-> & _). rewrite length_app. cbn. lia. }
  destruct Hr1 as (Hs & Hc & _). rewrite length_app in Hs. cbn in Hs. cbn -[load store]. rewrite Hend. cbn -[load store].
  set (cv2 := mkCV _ _ _ _ _ _).
  assert (Hp : Z.to_nat (start (cur_ cv1) + (e + -1)) = length l) by lia.
  rewrite (load_cell cv2 ((l ++ [x]) !!.) (cur_ cv1) (e + -1) x); [|done|split; cbn; lia|cbn; rewrite Hp; by apply list_lookup_middle].
  cbn -[load store]. destruct (store_cell cv2 ((l ++ [x]) !!.) (l !!.) (cur_ cv1) (e + -1) None) as (chs & Hst & Hc' & Hlen).
  - done.
  - split; cbn; lia.
  - cbn. rewrite Hp. apply lookup_ge_None_2. lia.
  - intros j Hj. cbn. rewrite Hp in Hj. destruct (decide (j < length l)%nat); [symmetry; by apply lookup_app_l|].
    rewrite !lookup_ge_None_2; [done| |lia]. rewrite length_app. cbn. lia.
  - exists (mkCV chs (size_ cv2) (cur_ cv2) (begin_ cv2) (end_ cv2) (limit_ cv2)). split; [exact Hst|]. split_and!; cbn.
    + lia.
    + done.
    + right. exists (e + -1). cbn. rewrite Hlen. cbn. split_and!; try done; lia.
Qed.

Lemma truncate_loop_repr fuel cv l n :
  repr cv l → 0 ≤ n → (length l < fuel)%nat →
  ∃ cv', truncate_loop kFirst kMax fuel cv n = Ok cv' ∧ repr cv' (take (Z.to_nat n) l).
Proof using Hargs.
  revert cv l. induction fuel as [|fuel IH]; intros cv l Hr Hn Hf; [lia|]. cbn [truncate_loop].
  pose proof Hr as (Hs & _). destruct (Z.ltb_spec n (size_ cv)) as [Hlt|Hge].
  - destruct l as [|x l _] using rev_ind; [cbn in Hs; lia|]. rewrite length_app in *. cbn in Hs, Hf.
    destruct (pop_repr cv l x Hr) as (cv1 & Hp & Hr1). cbn -[pop_back]. rewrite Hp.
    destruct (IH cv1 l Hr1 Hn) as (cv2 & Ht & Hr2); [lia|]. exists cv2. split; [done|].
    rewrite take_app_le by lia. done.
  - exists cv. split; [done|]. rewrite firstn_all2 by lia. done.
Qed.

Lemma truncate_repr cv l n :
  repr cv l → 0 ≤ n → ∃ cv', truncate kFirst kMax cv n = Ok cv' ∧ repr cv' (take (Z.to_nat n) l).
Proof using Hargs. intros Hr Hn. apply truncate_loop_repr; [done..|]. destruct Hr as (-> & _). lia. Qed.

Lemma release_repr cv l : repr cv l → release kFirst kMax cv = Ok empty_cv.
Proof using Hargs.
  intros Hr. unfold release. destruct (truncate_repr cv l 0 Hr) as (cv' & Ht & Hs & _); [lia|].
  cbn -[truncate]. rewrite Ht. cbn. cbn in Hs. by rewrite Hs.
Qed.

Lemma iterate_repr cv l1 l2 :
  repr cv (l1 ++ l2) → iterate kFirst kMax (length l2) (Z.of_nat (length l1)) cv = Ok l2.
Proof using Hargs.
  revert l1. induction l2 as [|x l2 IH]; intros l1 Hr; [done|]. cbn [length iterate].
  pose proof Hr as (Hs & _). rewrite length_app in Hs. cbn in Hs.
  rewrite (proj2 (Z.eqb_neq _ _)) by lia.
  rewrite (get_repr cv (l1 ++ x :: l2) _ x) by (rewrite ?Nat2Z.id, ?list_lookup_middle; done || lia).
  cbn -[iterate]. specialize (IH (l1 ++ [x])). rewrite length_app, <- app_assoc in IH. cbn in IH.
  rewrite Nat2Z.inj_add in IH. change (Z.of_nat 1) with 1 in IH. rewrite IH by done. done.
Qed.

Lemma elements_repr cv l : repr cv l → elements kFirst kMax cv = Ok l.
Proof using Hargs.
  intros Hr. unfold elements. pose proof Hr as (-> & _). rewrite Nat2Z.id. exact (iterate_repr cv [] l Hr).
Qed.

Lemma move_repr cv l : repr cv l → move_assign kFirst kMax empty_cv cv = Ok (cv, empty_cv).
Proof using Hargs.
  intros Hr. unfold move_assign. rewrite (release_repr _ _ repr_empty). by destruct cv.
Qed.

End Proofs.

(** ** A program over the vector and over a list *)

Inductive op (T : Type) :=
| Push (x : T)
| Pop
| Truncate (n : Z)
| Release
| Move
| Get (i : Z)
| Back
| Size
| All.
Arguments Push {T} x.
Arguments Pop {T}.
Arguments Truncate {T} n.
Arguments Release {T}.
Arguments Move {T}.
Arguments Get {T} i.
Arguments Back {T}.
Arguments Size {T}.
Arguments All {T}.

(** What an operation returns: elements, or the size.  [Move] moves the vector into a
    fresh one, goes on with that, and returns the size of the old one. *)
Definition obs (T : Type) : Type := (list T * Z)%type.

Section Programs.
Context {T : Type} (kFirst kMax : Z).

Definition step (o : op T) (cv : CV T) : res (CV T * obs T) :=
  match o with
  | Push x => cv ← emplace_back kFirst kMax cv x; Ok (cv, ([], 0))
  | Pop => cv ← pop_back kFirst kMax cv; Ok (cv, ([], 0))
  | Truncate n => cv ← truncate kFirst kMax cv n; Ok (cv, ([], 0))
  | Release => cv ← release kFirst kMax cv; Ok (cv, ([], 0))
  | Move => '(cv, old) ← move_assign kFirst kMax empty_cv cv; Ok (cv, ([], size old))
  | Get i => x ← get kFirst kMax cv i; Ok (cv, ([x], 0))
  | Back => x ← back kFirst kMax cv; Ok (cv, ([x], 0))
  | Size => Ok (cv, ([], size cv))
  | All => l ← elements kFirst kMax cv; Ok (cv, (l, 0))
  end.

(** [None]: outside the operation's contract. *)
Definition spec (o : op T) (l : list T) : option (list T * obs T) :=
  match o with
  | Push x => Some (l ++ [x], ([], 0))
  | Pop => _ ← last l; Some (take (length l - 1) l, ([], 0))
  | Truncate n => if 0 <=? n then Some (take (Z.to_nat n) l, ([], 0)) else None
  | Release => Some ([], ([], 0))
  | Move => Some (l, ([], 0))
  | Get i => if 0 <=? i then x ← l !! Z.to_nat i; Some (l, ([x], 0)) else None
  | Back => x ← last l; Some (l, ([x], 0))
  | Size => Some (l, ([], Z.of_nat (length l)))
  | All => Some (l, (l, 0))
  end.

Fixpoint run (ops : list (op T)) (cv : CV T) : res (CV T * list (obs T)) :=
  match ops with
  | [] => Ok (cv, [])
  | o :: ops => '(cv, x) ← step o cv; '(cv, xs) ← run ops cv; Ok (cv, x :: xs)
  end.

Fixpoint spec_run (ops : list (op T)) (l : list T) : option (list T * list (obs T)) :=
  match ops with
  | [] => Some (l, [])
  | o :: ops => '(l, x) ← spec o l; '(l, xs) ← spec_run ops l; Some (l, x :: xs)
  end.

Context (Hargs : args_ok kFirst kMax = true).
Abbreviation repr := (repr kFirst kMax).

Lemma vec_step_refines o cv l l' x :
  repr cv l → spec o l = Some (l', x) → ∃ cv', step o cv = Ok (cv', x) ∧ repr cv' l'.
Proof using Hargs.
  intros Hr Ho. pose proof Hr as (Hs & _).
  destruct o as [y| |n| | |i| | |]; cbn [spec] in Ho; cbn [step].
  - injection Ho as <- <-. destruct (emplace_repr _ _ Hargs cv l y Hr) as (cv' & -> & H). by exists cv'.
  - destruct l as [|y l _] using rev_ind; [done|]. rewrite last_snoc in Ho. cbn in Ho. injection Ho as <- <-.
    destruct (pop_repr _ _ Hargs cv l y Hr) as (cv' & -> & H). exists cv'. split; [done|].
    rewrite length_app. cbn. rewrite Nat.add_sub, take_app_length. done.
  - destruct (Z.leb_spec 0 n); [|done]. injection Ho as <- <-.
    destruct (truncate_repr _ _ Hargs cv l n Hr) as (cv' & -> & H'); [done|]. by exists cv'.
  - injection Ho as <- <-. rewrite (release_repr _ _ Hargs cv l Hr). exists empty_cv. split; [done|]. apply repr_empty.
  - injection Ho as <- <-. rewrite (move_repr _ _ Hargs cv l Hr). by exists cv.
  - destruct (Z.leb_spec 0 i); [|done]. destruct (l !! Z.to_nat i) as [y|] eqn:Hy; [|done].
    cbn in Ho. injection Ho as <- <-. rewrite (get_repr _ _ Hargs cv l i y) by done. by exists cv.
  - destruct l as [|y l _] using rev_ind; [done|]. rewrite last_snoc in Ho. cbn in Ho. injection Ho as <- <-.
    rewrite (back_repr _ _ Hargs cv l y) by done. by exists cv.
  - injection Ho as <- <-. exists cv. unfold size. by rewrite Hs.
  - injection Ho as <- <-. rewrite (elements_repr _ _ Hargs cv l Hr). by exists cv.
Qed.

Lemma vec_run_refines ops cv l l' xs :
  repr cv l → spec_run ops l = Some (l', xs) → ∃ cv', run ops cv = Ok (cv', xs) ∧ repr cv' l'.
Proof using Hargs.
  revert cv l xs. induction ops as [|o ops IH]; intros cv l xs Hr Ho; cbn [spec_run run] in *.
  - injection Ho as <- <-. by exists cv.
  - destruct (spec o l) as [[l1 x]|] eqn:H1; [|done]. cbn in Ho.
    destruct (spec_run ops l1) as [[l2 ys]|] eqn:H2; [|done]. cbn in Ho. injection Ho as <- <-.
    destruct (vec_step_refines o cv l l1 x Hr H1) as (cv1 & -> & Hr1).
    destruct (IH cv1 l1 ys Hr1 H2) as (cv2 & Hr2 & Hr3). exists cv2. cbn. by rewrite Hr2.
Qed.

End Programs.

(** C26.  The chunked vector is a list: a program of pushes, pops, truncations, releases,
    moves and reads that respects the operations' contracts on a list runs on the vector
    without touching raw or foreign memory, returns the same values at every step, and
    leaves the same elements, for any sizes the [static_assert]s allow. *)
Theorem vector_is_list {T : Type} (kFirst kMax : Z) (ops : list (op T)) l xs :
  args_ok kFirst kMax = true → spec_run ops [] = Some (l, xs) →
  ∃ cv, run kFirst kMax ops empty_cv = Ok (cv, xs) ∧ elements kFirst kMax cv = Ok l.
Proof.
  intros Ha Hs. destruct (vec_run_refines kFirst kMax Ha ops empty_cv [] l xs) as (cv & Hr & Hc); [apply repr_empty|done|].
  exists cv. split; [done|]. by apply elements_repr.
Qed.

(** Chunks of 1, 2, 4, 4: pushes across chunks, a pop back over a chunk border. *)
Lemma vector_is_list_witness :
  ∃ cv, run 1 4 [Push 10; Push 11; Push 12; Push 13; Pop; Back; Get 1; Move; Push 14; Truncate 3; Size]
    empty_cv = Ok (cv, [([], 0); ([], 0); ([], 0); ([], 0); ([], 0); ([12], 0); ([11], 0); ([], 0); ([], 0);
      ([], 0); ([], 3)]) ∧ elements 1 4 cv = Ok [10; 11; 12].
Proof. apply (vector_is_list 1 4); reflexivity. Defined.

End ChunkedVector.
