(* ===== verification/Fork.v ===== *)
(** Hard forks ([include/zeg/fork.hpp]): the fork number of the input, the header
    layout and the EVM revision it selects. *)

From stdpp Require Import base numbers.
From S2P Require Import Prelude.

Module Fork.

(** [ForkId] is the number carried in the input. *)
Definition fk_Unknown : Z := 0.
Definition fk_Berlin : Z := 1.
Definition fk_London : Z := 2.
Definition fk_Paris : Z := 3.
Definition fk_Shanghai : Z := 4.
Definition fk_Cancun : Z := 5.
Definition fk_Prague : Z := 6.
Definition fk_Osaka : Z := 7.
Definition fk_Amsterdam : Z := 8.

Definition fork_field_count (f : Z) : Z :=
  if f =? fk_Berlin then 15 else if f =? fk_London then 16 else if f =? fk_Paris then 16
  else if f =? fk_Shanghai then 17 else if f =? fk_Cancun then 20 else if f =? fk_Prague then 21
  else if f =? fk_Osaka then 21 else if f =? fk_Amsterdam then 23 else 21.

(** The revisions the guest uses, in fork order; [rev_ge] compares the
    enumerators. *)
Inductive revision :=
| EVMC_BERLIN | EVMC_LONDON | EVMC_PARIS | EVMC_SHANGHAI | EVMC_CANCUN | EVMC_PRAGUE
| EVMC_OSAKA | EVMC_AMSTERDAM.
#[export] Instance revision_eq_dec : EqDecision revision.
Proof. solve_decision. Defined.
Definition rev_rank (r : revision) : Z :=
  match r with
  | EVMC_BERLIN => 8 | EVMC_LONDON => 9 | EVMC_PARIS => 10 | EVMC_SHANGHAI => 11
  | EVMC_CANCUN => 12 | EVMC_PRAGUE => 13 | EVMC_OSAKA => 14 | EVMC_AMSTERDAM => 15
  end.
Definition rev_ge (r r' : revision) : bool := rev_rank r' <=? rev_rank r.

Definition fork_to_revision (f : Z) : revision :=
  if f =? fk_Berlin then EVMC_BERLIN else if f =? fk_London then EVMC_LONDON
  else if f =? fk_Paris then EVMC_PARIS else if f =? fk_Shanghai then EVMC_SHANGHAI
  else if f =? fk_Cancun then EVMC_CANCUN else if f =? fk_Prague then EVMC_PRAGUE
  else if f =? fk_Osaka then EVMC_OSAKA else if f =? fk_Amsterdam then EVMC_AMSTERDAM
  else EVMC_PRAGUE.

Definition fork_from_field_count (fc : Z) : Z :=
  if fc =? 15 then fk_Berlin else if fc =? 16 then fk_London else if fc =? 17 then fk_Shanghai
  else if fc =? 20 then fk_Cancun else if fc =? 21 then fk_Prague
  else if fc =? 23 then fk_Amsterdam else fk_Prague.

End Fork.
