(* ===== verification/Rlp.v ===== *)
(** RLP (include/zeg/rlp.hpp, src/rlp.cpp): the allocating encoders, the
    in-place writers the state-root walk uses, and the canonical decoder.

    A [Bytes] / [BytesView] is a byte list; [evmc::uint256be] is a [Z] whose
    32-byte image is [be_bytes 32].  A routine that writes at [dst] inside a
    buffer takes the buffer and the offset and returns the new buffer and the
    number of bytes written. *)

From stdpp Require Import base numbers list strings.
From S2P Require Import Prelude.

Module Rlp.

(** ** Allocating encoders *)

Definition be_length_bytes (len : Z) : nat :=
  if len <=? 0xff then 1 else
  if len <=? 0xffff then 2 else
  if len <=? 0xffffff then 3 else 4.

Fixpoint append_be (out : bytes) (len : Z) (n : nat) : bytes :=
  match n with
  | O => out
  | S i => append_be (out ++ [z2b (Z.shiftr len (8 * Z.of_nat i))]) len i
  end.

Definition append_header (ShortBase LongBase : Z) (out : bytes) (payload_len : Z)
  : bytes :=
  if payload_len <=? 55 then out ++ [z2b (ShortBase + payload_len)]
  else
    let n := be_length_bytes payload_len in
    append_be (out ++ [z2b (LongBase + Z.of_nat n)]) payload_len n.

Definition len (l : bytes) : Z := Z.of_nat (length l).

Definition encode (data : bytes) : bytes :=
  if (len data =? 1) && (b2z (hd Byte.x00 data) <? 0x80) then [hd Byte.x00 data]
  else append_header 0x80 0xb7 [] (len data) ++ data.

Definition encode_u64 (v : Z) : bytes :=
  let be := be_bytes 8 v in
  let start := if v =? 0 then 8 else Z.shiftr (clz64 v) 3 in
  encode (drop (Z.to_nat start) be).

(** Native 8-byte load at [start]; the byte swap of a native load is the
    big-endian value of the same bytes. *)
Definition load_u64 (b : bytes) (start : Z) : Z :=
  le_val (take 8 (drop (Z.to_nat start) b)).
Definition builtin_bswap64 (w : Z) : Z := be_val (le_bytes 8 w).

Fixpoint u256_significant_start_loop (n : nat) (start : Z) (b : bytes) : Z :=
  match n with
  | O => start
  | S n' =>
      let w := load_u64 b start in
      if w =? 0 then u256_significant_start_loop n' (start + 8) b
      else start + Z.shiftr (clz64 (builtin_bswap64 w)) 3
  end.
Definition u256_significant_start (b : bytes) : Z :=
  u256_significant_start_loop 4 0 b.

Definition encode_u256 (v : Z) : bytes :=
  let b := be_bytes 32 v in
  encode (drop (Z.to_nat (u256_significant_start b)) b).

Definition encode_list (items : list bytes) : bytes :=
  let payload_len := foldl (λ acc it, acc + len it) 0 items in
  foldl (λ out it, out ++ it) (append_header 0xc0 0xf7 [] payload_len) items.

Definition encode_list_payload (payload : bytes) : bytes :=
  append_header 0xc0 0xf7 [] (len payload) ++ payload.

(** ** In-place writers *)

(** [n]: the number of bytes of [payload_len]; at most 8 for a [size_t]. *)
Fixpoint header_width (fuel : nat) (v : Z) (n : Z) : Z :=
  match fuel with
  | O => n
  | S f => if v =? 0 then n else header_width f (Z.shiftr v 8) (n + 1)
  end.

(** The header bytes.  The code writes them into a buffer of five, which a payload of
    2^32 bytes or more would overflow; no buffer of the guest is that long, and the
    theorems on encodings are for lengths below it. *)
Definition make_header (ShortBase LongBase : Z) (payload_len : Z) : bytes :=
  if payload_len <=? 55 then [z2b (ShortBase + payload_len)]
  else
    let n := header_width 8 (Z.shiftr payload_len 8) 1 in
    z2b (LongBase + n)
      :: map (λ k : nat, z2b (Z.shiftr payload_len (8 * (n - 1 - Z.of_nat k))))
             (seq 0 (Z.to_nat n)).

Definition item_size (payload_len : Z) : Z :=
  len (make_header 0x80 0xb7 payload_len) + payload_len.

Definition prepend (ShortBase LongBase : Z) (buf : bytes) (start end_ : Z)
  : res (bytes * Z) :=
  let l := end_ - start in
  if l <=? 55 then
    buf' ← mem_write buf (start - 1) [z2b (ShortBase + l)];
    mret (buf', start - 1)
  else
    let hdr := make_header ShortBase LongBase l in
    let n := len hdr in
    buf' ← mem_write buf (start - n) hdr;
    mret (buf', start - n).

Definition write_string (buf : bytes) (dst : Z) (src : bytes) : res (bytes * Z) :=
  if (len src =? 1) && (b2z (hd Byte.x00 src) <? 0x80) then
    buf' ← mem_write buf dst [hd Byte.x00 src];
    mret (buf', 1)
  else if len src <=? 55 then
    buf' ← mem_write buf dst [z2b (0x80 + len src)];
    buf'' ← mem_write buf' (dst + 1) src;
    mret (buf'', 1 + len src)
  else
    let hdr := make_header 0x80 0xb7 (len src) in
    let n := len hdr in
    buf' ← mem_write buf dst hdr;
    buf'' ← mem_write buf' (dst + n) src;
    mret (buf'', n + len src).

Definition write_u64 (buf : bytes) (dst : Z) (v : Z) : res (bytes * Z) :=
  let be := be_bytes 8 v in
  let start := if v =? 0 then 8 else Z.shiftr (clz64 v) 3 in
  write_string buf dst (drop (Z.to_nat start) be).

Definition write_u256 (buf : bytes) (dst : Z) (v : Z) : res (bytes * Z) :=
  let b := be_bytes 32 v in
  write_string buf dst (drop (Z.to_nat (u256_significant_start b)) b).

Definition prepend_list (buf : bytes) (start end_ : Z) : res (bytes * Z) :=
  prepend 0xc0 0xf7 buf start end_.

Definition prepend_string (buf : bytes) (start end_ : Z) : res (bytes * Z) :=
  if end_ - start =? 1 then
    b ← mem_read buf start 1;
    if b2z (hd Byte.x00 b) <? 0x80 then mret (buf, start)
    else prepend 0x80 0xb7 buf start end_
  else prepend 0x80 0xb7 buf start end_.

(** ** Decoder *)

Inductive ItemKind := String | List.

Record Item := mkItem { kind : ItemKind; raw : bytes; payload : bytes }.

#[export] Instance ItemKind_eq_dec : EqDecision ItemKind.
Proof. solve_decision. Defined.

(** [size_t v = (v << 8) | p[i]] over [n] bytes. *)
Definition read_be (p : bytes) (n : nat) : Z :=
  foldl (λ v b, Z.lor (u64 (Z.shiftl v 8)) (b2z b)) 0 (take n p).

(** The two long forms share their checks; [what] is "string" or "list". *)
Definition decode_long (k : ItemKind) (what : string) (len_of_len : Z) (data : bytes)
  : res Item :=
  _ ← fatal_if (len data <? 1 + len_of_len)
        ("rlp::decode_item: long " +:+ what +:+ " length truncated");
  _ ← fatal_if (b2z (nth 1 data Byte.x00) =? 0)
        ("rlp::decode_item: long " +:+ what +:+ " length has leading zero");
  let payload_len := read_be (drop 1 data) (Z.to_nat len_of_len) in
  _ ← fatal_if (payload_len <=? 55)
        ("rlp::decode_item: non-canonical long " +:+ what +:+ " (fits short form)");
  _ ← fatal_if (len data - (1 + len_of_len) <? payload_len)
        ("rlp::decode_item: long " +:+ what +:+ " body truncated");
  mret (mkItem k (take (Z.to_nat (1 + len_of_len + payload_len)) data)
                 (take (Z.to_nat payload_len) (drop (Z.to_nat (1 + len_of_len)) data))).

Definition decode_item (data : bytes) : res Item :=
  match data with
  | [] => Fatal "rlp::decode_item: empty input"
  | b0 :: _ =>
    let b := b2z b0 in
    if b <? 0x80 then mret (mkItem String (take 1 data) (take 1 data))
    else if b <=? 0xb7 then
      let payload_len := b - 0x80 in
      let total := 1 + payload_len in
      _ ← fatal_if (len data <? total) "rlp::decode_item: short string truncated";
      _ ← fatal_if ((payload_len =? 1) && (b2z (nth 1 data Byte.x00) <? 0x80))
            "rlp::decode_item: non-canonical single byte (0x81 form)";
      mret (mkItem String (take (Z.to_nat total) data)
                          (take (Z.to_nat payload_len) (drop 1 data)))
    else if b <=? 0xbf then decode_long String "string" (b - 0xb7) data
    else if b <=? 0xf7 then
      let payload_len := b - 0xc0 in
      let total := 1 + payload_len in
      _ ← fatal_if (len data <? total) "rlp::decode_item: short list truncated";
      mret (mkItem List (take (Z.to_nat total) data)
                        (take (Z.to_nat payload_len) (drop 1 data)))
    else decode_long List "list" (b - 0xf7) data
  end.

(** [ListIter]: the state is the remaining payload. *)
Definition has_next (remaining : bytes) : bool := negb (len remaining =? 0).

Definition next (remaining : bytes) : res (Item * bytes) :=
  if len remaining =? 0 then Fatal "rlp::ListIter::next: payload exhausted"
  else
    it ← decode_item remaining;
    mret (it, drop (length (raw it)) remaining).

(** The callers' loop [while (it.has_next()) f(it.next())]. *)
Fixpoint drain (fuel : nat) (remaining : bytes) : res (list Item) :=
  match fuel with
  | O => mret []
  | S f =>
      if has_next remaining then
        '(it, rest) ← next remaining;
        its ← drain f rest;
        mret (it :: its)
      else mret []
  end.
Definition all_items (p : bytes) : res (list Item) := drain (length p) p.

Definition as_u256 (it : Item) : res Z :=
  _ ← fatal_if (bool_decide (kind it ≠ String)) "rlp::as_u256: expected RLP string";
  _ ← fatal_if (32 <? len (payload it)) "rlp::as_u256: payload > 32 bytes";
  _ ← fatal_if (negb (len (payload it) =? 0) && (b2z (hd Byte.x00 (payload it)) =? 0))
        "rlp::as_u256: non-canonical integer (leading zero)";
  mret (be_val (replicate (32 - length (payload it)) Byte.x00 ++ payload it)).

Definition as_u64 (it : Item) : res Z :=
  _ ← fatal_if (bool_decide (kind it ≠ String)) "rlp::as_u64: expected RLP string";
  _ ← fatal_if (8 <? len (payload it)) "rlp::as_u64: payload > 8 bytes";
  _ ← fatal_if (negb (len (payload it) =? 0) && (b2z (hd Byte.x00 (payload it)) =? 0))
        "rlp::as_u64: non-canonical integer (leading zero)";
  mret (read_be (payload it) (length (payload it))).

(** ** Sanity runs *)

Example encode_dog : encode (map z2b [100; 111; 103]) = map z2b [0x83; 100; 111; 103].
Proof. reflexivity. Qed.
Example encode_u64_0 : encode_u64 0 = [z2b 0x80].
Proof. reflexivity. Qed.
Example encode_u64_1024 : encode_u64 1024 = map z2b [0x82; 4; 0].
Proof. reflexivity. Qed.
Example encode_u256_1024 : encode_u256 1024 = map z2b [0x82; 4; 0].
Proof. vm_compute. reflexivity. Qed.
Example long_header : take 3 (encode (replicate 1000 Byte.x01)) = map z2b [0xb9; 3; 232].
Proof. vm_compute. reflexivity. Qed.

(** ** Headers *)

Lemma append_be_spec n l out : append_be out l n = out ++ be_bytes n l.
Proof.
  revert out. induction n as [|n IH]; intros out; [by rewrite app_nil_r|].
  cbn [append_be]. rewrite IH, <- app_assoc, be_bytes_cons. done.
Qed.

Lemma be_length_bytes_spec p :
  0 < p < 2 ^ 32 →
  ∃ w, be_length_bytes p = S w ∧ (w < 4)%nat ∧
       256 ^ Z.of_nat w ≤ p < 256 ^ Z.of_nat (S w).
Proof.
  intros Hp. unfold be_length_bytes.
  destruct (Z.leb_spec p 0xff); [exists 0%nat; simpl; lia|].
  destruct (Z.leb_spec p 0xffff); [exists 1%nat; simpl; lia|].
  destruct (Z.leb_spec p 0xffffff); [exists 2%nat; simpl; lia|].
  exists 3%nat; simpl; lia.
Qed.

Lemma be_length_bytes_unique p w :
  0 < p < 2 ^ 32 → 256 ^ Z.of_nat w ≤ p < 256 ^ Z.of_nat (S w) →
  be_length_bytes p = S w.
Proof.
  intros Hp Hw. destruct (be_length_bytes_spec p Hp) as (w' & -> & _ & Hw').
  f_equal. destruct (Nat.lt_trichotomy w w') as [Hlt|[->|Hlt]]; [|done|].
  - assert (256 ^ Z.of_nat (S w) ≤ 256 ^ Z.of_nat w') by (apply Z.pow_le_mono_r; lia).
    lia.
  - assert (256 ^ Z.of_nat (S w') ≤ 256 ^ Z.of_nat w) by (apply Z.pow_le_mono_r; lia).
    lia.
Qed.

(** The header, whatever writes it. *)
Definition header (S_ L_ : Z) (p : Z) : bytes := append_header S_ L_ [] p.

Lemma header_short S_ L_ p : p ≤ 55 → header S_ L_ p = [z2b (S_ + p)].
Proof. intros. unfold header, append_header. by rewrite (proj2 (Z.leb_le _ _)). Qed.

Lemma header_long S_ L_ p :
  55 < p →
  header S_ L_ p =
    z2b (L_ + Z.of_nat (be_length_bytes p)) :: be_bytes (be_length_bytes p) p.
Proof.
  intros. unfold header, append_header. rewrite (proj2 (Z.leb_gt _ _)) by done.
  by rewrite append_be_spec.
Qed.

Lemma header_width_spec p :
  0 ≤ p < 2 ^ 32 →
  header_width 8 (Z.shiftr p 8) 1 = Z.of_nat (be_length_bytes p).
Proof.
  intros Hp. unfold be_length_bytes. cbn [header_width].
  rewrite !Z.shiftr_div_pow2 by lia. rewrite !Z.div_div by lia.
  change (2 ^ 8) with 256.
  repeat (match goal with
          | |- context [Z.leb p ?c] => destruct (Z.leb_spec p c)
          | |- context [Z.eqb (p / ?c) 0] =>
              let H := fresh in
              assert (p / c = 0 ↔ p < c) as H by
                (split; [intros; apply Z.nle_gt; intros ?;
                         assert (1 ≤ p / c) by (apply Z.div_le_lower_bound; lia); lia
                        |intros; apply Z.div_small; lia]);
              destruct (Z.eqb_spec (p / c) 0); rewrite H in *; clear H
          end; try lia; try reflexivity).
Qed.

Lemma map_shiftr_be_bytes p n :
  map (λ k : nat, z2b (Z.shiftr p (8 * (Z.of_nat n - 1 - Z.of_nat k)))) (seq 0 n)
  = be_bytes n p.
Proof.
  induction n as [|n IH]; [done|]. rewrite be_bytes_cons, <- IH.
  cbn [seq map]. f_equal; [do 2 f_equal; lia|].
  rewrite <- seq_shift, map_map. apply map_ext. intros k. do 2 f_equal. lia.
Qed.

Lemma make_header_spec S_ L_ p :
  0 ≤ p < 2 ^ 32 → make_header S_ L_ p = header S_ L_ p.
Proof.
  intros Hp. unfold make_header. destruct (Z.leb_spec p 55).
  - by rewrite header_short.
  - rewrite header_long, header_width_spec, Nat2Z.id by lia. f_equal.
    apply map_shiftr_be_bytes.
Qed.

Lemma header_length S_ L_ p :
  0 ≤ p < 2 ^ 32 → (1 ≤ length (header S_ L_ p) ≤ 5)%nat.
Proof.
  intros Hp. destruct (Z_le_gt_dec p 55).
  - rewrite header_short by lia. simpl. lia.
  - rewrite header_long by lia. destruct (be_length_bytes_spec p) as (w & -> & ? & _); [lia|].
    cbn [length]. rewrite length_be_bytes. lia.
Qed.

(** ** Reading a big-endian length *)

Lemma read_be_all l : (length l ≤ 8)%nat → read_be l (length l) = be_val l.
Proof.
  unfold read_be. rewrite firstn_all.
  induction l as [|b l IH] using rev_ind; [done|].
  rewrite length_app. cbn [length]. intros Hl. rewrite foldl_app, be_val_snoc. cbn [foldl].
  rewrite IH by lia. pose proof (b2z_range b). pose proof (be_val_bound l) as Hb.
  assert (256 ^ Z.of_nat (length l) ≤ 256 ^ 7) by (apply Z.pow_le_mono_r; lia).
  unfold u64. rewrite Z.mod_small; [by apply lor_shiftl8|].
  rewrite Z.shiftl_mul_pow2 by lia. simpl in *. lia.
Qed.

Lemma read_be_take l n : (n ≤ 8)%nat → read_be l n = be_val (take n l).
Proof.
  intros Hn. rewrite <- read_be_all by (rewrite length_take; lia).
  unfold read_be. by rewrite firstn_all.
Qed.

(** ** Decoding what was encoded *)

Lemma len_app l1 l2 : len (l1 ++ l2) = len l1 + len l2.
Proof. unfold len. rewrite length_app. lia. Qed.

Lemma len_nonneg l : 0 ≤ len l.
Proof. unfold len. lia. Qed.

(** A long header followed by its payload passes every check of the long form. *)
Lemma decode_long_header k what (b : byte) (p rest : bytes) :
  55 < len p < 2 ^ 32 →
  let w := be_length_bytes (len p) in
  let h := b :: be_bytes w (len p) in
  decode_long k what (Z.of_nat w) (h ++ p ++ rest) = Ok (mkItem k (h ++ p) p).
Proof.
  intros Hp w h. destruct (be_length_bytes_spec (len p)) as (w' & Hw & Hw4 & Hr); [lia|].
  assert (Hh : length h = S w) by (subst h; cbn; by rewrite length_be_bytes).
  assert (Hnz : 0 < b2z (nth 1 (h ++ p ++ rest) Byte.x00)).
  { subst h w. rewrite Hw. pose proof (be_bytes_hd_nonzero w' (len p) Hr) as H.
    rewrite be_bytes_cons in H |- *. exact H. }
  assert (Hrd : read_be (drop 1 (h ++ p ++ rest)) (Z.to_nat (Z.of_nat w)) = len p).
  { rewrite Nat2Z.id, read_be_take by (subst w; lia). subst h. cbn [app skipn]. rewrite drop_0.
    rewrite take_app_le by (rewrite length_be_bytes; lia).
    rewrite firstn_all2 by (rewrite length_be_bytes; lia).
    apply be_val_be_bytes_small. subst w. rewrite Hw. lia. }
  clearbody h. unfold decode_long, fatal_if. rewrite Hrd.
  assert (Hlen : len (h ++ p ++ rest) = 1 + Z.of_nat w + len p + len rest)
    by (rewrite !len_app; unfold len at 1; rewrite Hh; lia).
  pose proof (len_nonneg rest).
  rewrite (proj2 (Z.ltb_ge _ _)), (proj2 (Z.eqb_neq _ _)) by lia.
  rewrite (proj2 (Z.leb_gt _ _)), (proj2 (Z.ltb_ge _ _)) by lia.
  cbn [mbind res_bind mret res_ret]. do 2 f_equal; [rewrite app_assoc|].
  - rewrite take_app_length' by (rewrite length_app, Hh; unfold len; lia). done.
  - rewrite drop_app_length' by (rewrite Hh; lia).
    by rewrite take_app_length' by (unfold len; lia).
Qed.

Lemma b2z_header_long L_ p :
  0 ≤ L_ ≤ 247 → 0 < p < 2 ^ 32 →
  b2z (z2b (L_ + Z.of_nat (be_length_bytes p))) = L_ + Z.of_nat (be_length_bytes p)
  ∧ (1 ≤ be_length_bytes p ≤ 4)%nat.
Proof.
  intros HL Hp. destruct (be_length_bytes_spec p) as (w & Hw & ? & _); [lia|].
  rewrite b2z_z2b_small; lia.
Qed.

Ltac cmp := repeat match goal with
  | |- context [?a <? ?b] =>
      first [rewrite (proj2 (Z.ltb_lt a b)) by lia | rewrite (proj2 (Z.ltb_ge a b)) by lia]
  | |- context [?a <=? ?b] =>
      first [rewrite (proj2 (Z.leb_le a b)) by lia | rewrite (proj2 (Z.leb_gt a b)) by lia]
  | |- context [?a =? ?b] =>
      first [rewrite (proj2 (Z.eqb_eq a b)) by lia | rewrite (proj2 (Z.eqb_neq a b)) by lia]
  end.

(** The two header bases of an item kind. *)
Definition short_base (k : ItemKind) : Z := match k with String => 0x80 | List => 0xc0 end.
Definition long_base (k : ItemKind) : Z := match k with String => 0xb7 | List => 0xf7 end.

(** The encoding of a payload of either kind. *)
Definition enc (k : ItemKind) (p : bytes) : bytes :=
  match k with String => encode p | List => encode_list_payload p end.

(** The single bytes that encode as themselves. *)
Definition bare (k : ItemKind) (p : bytes) : Prop :=
  k = String ∧ len p = 1 ∧ b2z (hd Byte.x00 p) < 0x80.

#[export] Instance bare_dec k p : Decision (bare k p).
Proof. unfold bare. apply _. Defined.

Lemma enc_header k p :
  ¬ bare k p → enc k p = header (short_base k) (long_base k) (len p) ++ p.
Proof.
  intros Hb. destruct k; [|done]. unfold enc, encode.
  destruct ((len p =? 1) && (b2z (hd Byte.x00 p) <? 128)) eqn:E; [|done].
  apply andb_true_iff in E as [E1%Z.eqb_eq E2%Z.ltb_lt]. by destruct Hb.
Qed.

Lemma enc_bare p : bare String p → enc String p = p.
Proof.
  intros (_ & Hl & Hb). unfold enc, encode.
  rewrite (proj2 (Z.eqb_eq _ _)), (proj2 (Z.ltb_lt _ _)) by done. cbn [andb].
  destruct p as [|b [|]]; cbn in *; unfold len in *; simpl in *; (done || lia).
Qed.

Lemma decode_short_header (k : ItemKind) (p rest : bytes) :
  len p ≤ 55 → ¬ bare k p →
  let h := [z2b (short_base k + len p)] in
  decode_item (h ++ p ++ rest) = Ok (mkItem k (h ++ p) p).
Proof.
  intros Hp Hc h. pose proof (len_nonneg p). pose proof (len_nonneg rest).
  assert (Hlen : len (h ++ p ++ rest) = 1 + len p + len rest)
    by (rewrite !len_app; unfold h, len; simpl; lia).
  assert (Hraw : take (Z.to_nat (1 + len p)) (h ++ p ++ rest) = h ++ p).
  { rewrite app_assoc. apply take_app_length'. rewrite length_app. unfold len. simpl. lia. }
  assert (Hpay : take (Z.to_nat (len p)) (drop 1 (h ++ p ++ rest)) = p).
  { simpl. rewrite drop_0, take_app_length'; [done|]. unfold len. lia. }
  assert (Hnth : nth 1 (h ++ p ++ rest) Byte.x00 = nth 0 (p ++ rest) Byte.x00) by done.
  assert (Hb : ∃ t, h ++ p ++ rest = z2b (short_base k + len p) :: t) by (by eexists).
  clearbody h. destruct Hb as [t Ht]. rewrite Ht in *.
  unfold decode_item. destruct k; cbn [short_base] in *;
    rewrite b2z_z2b_small by lia; rewrite Hlen; cmp; unfold fatal_if.
  - replace (0x80 + len p - 0x80) with (len p) by lia. rewrite Hraw, Hpay, Hnth.
    destruct ((len p =? 1) && (b2z (nth 0 (p ++ rest) Byte.x00) <? 0x80)) eqn:E; [|done].
    exfalso. apply andb_true_iff in E as [E1%Z.eqb_eq E2%Z.ltb_lt]. apply Hc.
    destruct p as [|x p]; [unfold len in E1; simpl in E1; lia|done].
  - replace (0xc0 + len p - 0xc0) with (len p) by lia. by rewrite Hraw, Hpay.
Qed.

(** Decoding an encoded item returns it and consumes exactly its encoding. *)
Lemma decode_enc k p rest :
  len p < 2 ^ 32 → decode_item (enc k p ++ rest) = Ok (mkItem k (enc k p) p).
Proof.
  intros Hp. destruct (decide (bare k p)) as [Hb|Hb].
  - destruct k; [|by destruct Hb]. rewrite enc_bare by done.
    destruct Hb as (_ & Hl & Hb). destruct p as [|b [|]]; unfold len in Hl; simpl in Hl; try lia.
    simpl in *. unfold decode_item. by cmp.
  - rewrite enc_header by done. destruct (Z_le_gt_dec (len p) 55) as [Hs|Hs].
    + rewrite header_short by done. rewrite <- app_assoc. by apply decode_short_header.
    + pose proof (decode_long_header k (if decide (k = String) then "string" else "list")
        (z2b (long_base k + Z.of_nat (be_length_bytes (len p)))) p rest) as H.
      rewrite header_long, <- app_assoc by lia. rewrite <- H by lia. clear H.
      destruct (b2z_header_long (long_base k) (len p)) as [Hv ?]; [destruct k; cbn; lia|lia|].
      unfold decode_item. cbn [app]. rewrite Hv.
      destruct k; cbn [long_base]; cmp; rewrite Z.add_simpl_l; done.
Qed.

(** ** Integers *)

Lemma trim_start n v :
  0 ≤ v < 256 ^ Z.of_nat n → drop (n - be_width v) (be_bytes n v) = be_trim v.
Proof.
  intros Hv. pose proof (be_width_le n v Hv).
  replace n with ((n - be_width v) + be_width v)%nat at 2 by lia.
  apply drop_be_bytes.
Qed.

Lemma clz64_start v :
  0 < v < 2 ^ 64 → Z.shiftr (clz64 v) 3 = 8 - Z.of_nat (be_width v).
Proof.
  intros Hv. unfold clz64, be_width. rewrite (proj2 (Z.eqb_neq _ _)) by lia.
  pose proof (Z.log2_nonneg v). assert (Z.log2 v < 64) by (apply Z.log2_lt_pow2; lia).
  rewrite Z.shiftr_div_pow2 by lia. change (2 ^ 3) with 8.
  rewrite Nat2Z.inj_succ, Z2Nat.id by (apply Z.div_pos; lia).
  Z.div_mod_to_equations. lia.
Qed.

Lemma u64_bytes v :
  in_u64 v →
  drop (Z.to_nat (if v =? 0 then 8 else Z.shiftr (clz64 v) 3)) (be_bytes 8 v) = be_trim v.
Proof.
  intros Hv. unfold in_u64 in Hv. rewrite <- (trim_start 8 v) by (simpl; lia). f_equal.
  destruct (Z.eqb_spec v 0) as [->|]; [done|]. rewrite clz64_start by lia. lia.
Qed.

Lemma bswap_load l : length l = 8%nat → builtin_bswap64 (le_val l) = be_val l.
Proof.
  intros Hl. unfold builtin_bswap64, le_bytes, le_val.
  replace 8%nat with (length (reverse l)) by (rewrite length_reverse; done).
  by rewrite be_bytes_be_val, reverse_involutive.
Qed.

Lemma le_val_zero l : length l = 8%nat → le_val l = 0 ↔ be_val l = 0.
Proof.
  intros Hl. rewrite <- (bswap_load l) by done. split; [by intros ->|].
  intros H. apply (f_equal (be_bytes 8)) in H. unfold builtin_bswap64 in H.
  replace 8%nat with (length (le_bytes 8 (le_val l))) in H at 1
    by (unfold le_bytes; by rewrite length_reverse, length_be_bytes).
  rewrite be_bytes_be_val in H. unfold le_bytes, le_val in *.
  apply (f_equal reverse) in H. rewrite reverse_involutive in H.
  apply (f_equal be_val) in H. rewrite be_val_be_bytes_small in H; [exact H|].
  pose proof (be_val_bound (reverse l)) as Hb. rewrite length_reverse, Hl in Hb. done.
Qed.

Lemma u256_significant_start_loop_spec n v :
  (n ≤ 4)%nat → 0 ≤ v < 256 ^ Z.of_nat (8 * n) →
  u256_significant_start_loop n (32 - 8 * Z.of_nat n) (be_bytes 32 v)
  = 32 - Z.of_nat (be_width v).
Proof.
  induction n as [|n IH]; intros Hn Hv.
  { simpl in Hv. assert (v = 0) as -> by lia. done. }
  set (L := Z.shiftr v (8 * Z.of_nat (8 * n))).
  assert (HL : L = v / 256 ^ Z.of_nat (8 * n)) by (by rewrite pow256_shiftr).
  pose proof (pow256_pos (8 * n)).
  assert (Hlr : 0 ≤ L < 2 ^ 64).
  { rewrite HL. split; [apply Z.div_pos; lia|]. apply Z.div_lt_upper_bound; [lia|].
    replace (Z.of_nat (8 * S n)) with (Z.of_nat (8 * n) + 8) in Hv by lia.
    rewrite Z.pow_add_r in Hv by lia. simpl (256 ^ 8) in Hv. lia. }
  assert (Hld : ∃ l, length l = 8%nat ∧ be_val l = L ∧
                load_u64 (be_bytes 32 v) (32 - 8 * Z.of_nat (S n)) = le_val l).
  { exists (be_bytes 8 L). rewrite length_be_bytes, be_val_be_bytes_small by (simpl; lia).
    split; [done|]. split; [done|]. unfold load_u64.
    replace 32%nat with (Z.to_nat (32 - 8 * Z.of_nat (S n)) + (8 + 8 * n))%nat by lia.
    by rewrite drop_be_bytes, take_be_bytes. }
  destruct Hld as (l & Hl & Hbe & Hld).
  cbn [u256_significant_start_loop]. rewrite Hld.
  destruct (Z.eqb_spec (le_val l) 0) as [H0|H0].
  - rewrite le_val_zero, Hbe in H0 by done.
    replace (32 - 8 * Z.of_nat (S n) + 8) with (32 - 8 * Z.of_nat n) by lia.
    apply IH; [lia|]. split; [lia|]. apply Z.nle_gt. intros ?.
    assert (1 ≤ L) by (rewrite HL; apply Z.div_le_lower_bound; lia). lia.
  - rewrite le_val_zero, Hbe in H0 by done.
    rewrite bswap_load, Hbe, clz64_start by (done || lia).
    destruct (be_width_bounds L) as (w & Hw & Hwl & Hwu); [lia|]. rewrite Hw.
    rewrite (be_width_spec v (w + 8 * n)); [lia|].
    rewrite <- Nat.add_succ_l, !Nat2Z.inj_add, !Z.pow_add_r by lia.
    pose proof (Z.div_mod v (256 ^ Z.of_nat (8 * n))).
    pose proof (Z.mod_pos_bound v (256 ^ Z.of_nat (8 * n))). nia.
Qed.

Lemma u256_bytes v :
  in_u256 v →
  drop (Z.to_nat (u256_significant_start (be_bytes 32 v))) (be_bytes 32 v) = be_trim v.
Proof.
  intros Hv. unfold in_u256 in Hv. unfold u256_significant_start.
  assert (Hv' : 0 ≤ v < 256 ^ Z.of_nat 32) by (simpl; lia).
  pose proof (u256_significant_start_loop_spec 4 v ltac:(lia) Hv') as H.
  change (32 - 8 * Z.of_nat 4) with 0 in H. rewrite H.
  rewrite <- (trim_start 32 v) by done. f_equal. pose proof (be_width_le 32 v Hv'). lia.
Qed.

(** ** In-place writers write the encoding *)

Lemma write_string_spec buf dst src :
  len src < 2 ^ 32 →
  write_string buf dst src =
    (buf' ← mem_write buf dst (encode src); mret (buf', len (encode src))).
Proof.
  intros Hl. pose proof (len_nonneg src). unfold write_string, encode.
  destruct ((len src =? 1) && (b2z (hd Byte.x00 src) <? 0x80)); [done|].
  fold (header 0x80 0xb7 (len src)). destruct (Z.leb_spec (len src) 55).
  - rewrite header_short, mem_write_app by done. cbn [length Z.of_nat].
    destruct (mem_write buf dst _); cbn [mbind res_bind]; [|done].
    change (Z.of_nat 1) with 1.
    destruct (mem_write _ _ _); cbn [mbind res_bind mret res_ret]; [|done]. by rewrite len_app.
  - rewrite make_header_spec, mem_write_app by lia. fold (len (header 0x80 0xb7 (len src))).
    destruct (mem_write buf dst _); cbn; [|done].
    destruct (mem_write _ _ _); cbn; [|done]. by rewrite len_app.
Qed.

Lemma write_u64_spec buf dst v :
  in_u64 v →
  write_u64 buf dst v =
    (buf' ← mem_write buf dst (encode_u64 v); mret (buf', len (encode_u64 v))).
Proof.
  intros Hv. unfold write_u64, encode_u64. rewrite u64_bytes by done.
  apply write_string_spec. unfold len, be_trim. rewrite length_be_bytes.
  pose proof (be_width_le 8 v ltac:(unfold in_u64 in Hv; simpl; lia)). lia.
Qed.

Lemma write_u256_spec buf dst v :
  in_u256 v →
  write_u256 buf dst v =
    (buf' ← mem_write buf dst (encode_u256 v); mret (buf', len (encode_u256 v))).
Proof.
  intros Hv. unfold write_u256, encode_u256. rewrite u256_bytes by done.
  apply write_string_spec. unfold len, be_trim. rewrite length_be_bytes.
  pose proof (be_width_le 32 v ltac:(unfold in_u256 in Hv; simpl; lia)). lia.
Qed.

Lemma prepend_spec S_ L_ buf start end_ :
  0 ≤ end_ - start < 2 ^ 32 →
  let h := header S_ L_ (end_ - start) in
  prepend S_ L_ buf start end_ =
    (buf' ← mem_write buf (start - len h) h; mret (buf', start - len h)).
Proof.
  intros Hl h. unfold prepend. destruct (Z.leb_spec (end_ - start) 55).
  - subst h. rewrite header_short by done. done.
  - rewrite make_header_spec by lia. done.
Qed.

(** Wrapping [buf[start, end)] leaves the wrapped item below it. *)
Lemma prepend_slice k buf start end_ :
  0 ≤ end_ - start < 2 ^ 32 → end_ ≤ len buf → ¬ bare k (slice buf start end_) →
  let item := enc k (slice buf start end_) in
  len item ≤ end_ → 0 ≤ start →
  ∃ buf' start',
    prepend (short_base k) (long_base k) buf start end_ = Ok (buf', start') ∧
    length buf' = length buf ∧ start' = end_ - len item ∧
    slice buf' start' end_ = item.
Proof.
  intros Hl He Hb item Hi Hs. subst item. rewrite enc_header in * by done.
  set (h := header (short_base k) (long_base k) (len (slice buf start end_))) in *.
  assert (Hsl : len (slice buf start end_) = end_ - start).
  { unfold len in *. rewrite length_slice by lia. lia. }
  rewrite len_app, Hsl in Hi.
  destruct (mem_write_front buf start end_ h) as (buf' & Hw & Hlen & Hsli);
    [unfold len in *; lia|unfold len in *; lia|].
  exists buf', (start - len h). rewrite prepend_spec by lia.
  replace (header (short_base k) (long_base k) (end_ - start)) with h
    by (subst h; by rewrite Hsl).
  cbn zeta. fold (len h) in Hw. rewrite Hw. cbn.
  repeat split; [done| |done]. rewrite len_app, Hsl. lia.
Qed.

(** ** Lists *)

Lemma encode_list_spec items : encode_list items = encode_list_payload (concat items).
Proof.
  assert (Hs : ∀ acc, foldl (λ acc it, acc + len it) acc items = acc + len (concat items)).
  { induction items as [|i l IH]; intros acc; [unfold len; simpl; lia|].
    cbn [foldl concat]. rewrite IH, len_app. lia. }
  assert (Ha : ∀ out, foldl (λ out it, out ++ it) out items = out ++ concat items).
  { clear Hs. induction items as [|i l IH]; intros out; [by rewrite app_nil_r|].
    cbn [foldl concat]. by rewrite IH, app_assoc. }
  unfold encode_list, encode_list_payload. by rewrite Hs, Ha.
Qed.

Lemma enc_nonempty k p : enc k p ≠ [].
Proof.
  destruct (decide (bare k p)) as [Hb|Hb].
  - destruct k; [|by destruct Hb]. rewrite enc_bare by done. destruct Hb as (_ & Hl & _).
    intros ->. done.
  - rewrite enc_header by done. unfold header, append_header.
    destruct (len p <=? 55); [done|]. by rewrite append_be_spec.
Qed.

Lemma next_enc k p rest :
  len p < 2 ^ 32 → next (enc k p ++ rest) = Ok (mkItem k (enc k p) p, rest).
Proof.
  intros Hp. unfold next. pose proof (enc_nonempty k p).
  destruct (enc k p ++ rest) eqn:E; [by apply app_nil in E as [? _]|].
  rewrite <- E. rewrite (proj2 (Z.eqb_neq _ _)).
  - rewrite decode_enc by done. cbn. by rewrite drop_app_length.
  - rewrite E. unfold len. simpl. lia.
Qed.

Lemma drain_enc fuel items :
  Forall (λ kp, len kp.2 < 2 ^ 32) items →
  (length (concat (map (λ kp, enc kp.1 kp.2) items)) ≤ fuel)%nat →
  drain fuel (concat (map (λ kp, enc kp.1 kp.2) items))
  = Ok (map (λ kp, mkItem kp.1 (enc kp.1 kp.2) kp.2) items).
Proof.
  revert fuel. induction items as [|[k p] items IH]; intros fuel HF Hfuel.
  { by destruct fuel. }
  inversion HF as [|? ? Hp HF']; subst. cbn [map concat fst snd] in *.
  pose proof (enc_nonempty k p). rewrite length_app in Hfuel.
  assert (0 < length (enc k p))%nat by (destruct (enc k p); [done|simpl; lia]).
  destruct fuel as [|fuel]; [lia|]. cbn [drain].
  unfold has_next. rewrite (proj2 (Z.eqb_neq _ _)) by (rewrite len_app; unfold len; lia).
  rewrite next_enc by done. cbn. rewrite IH; [done|done|lia].
Qed.

(** ** Only canonical encodings decode *)

Lemma decode_long_canonical k what w data it b t :
  data = b :: t → b2z b = long_base k + Z.of_nat (S w) → (w < 8)%nat →
  len data < 2 ^ 32 → decode_long k what (Z.of_nat (S w)) data = Ok it →
  kind it = k ∧ raw it = enc k (payload it) ∧
  data = raw it ++ drop (length (raw it)) data.
Proof.
  intros -> Hb Hw Hlen H. unfold decode_long in H. ok_inv.
  match goal with H : (len _ <? _) = false |- _ => apply Z.ltb_ge in H end.
  match goal with H : (_ =? 0) = false |- _ => apply Z.eqb_neq in H end.
  match goal with H : (_ <=? 55) = false |- _ => apply Z.leb_gt in H end.
  match goal with H : (_ - _ <? _) = false |- _ => apply Z.ltb_ge in H end.
  rewrite Nat2Z.id in *.
  destruct t as [|c t]; [unfold len in *; simpl in *; lia|].
  change (drop 1 (b :: c :: t)) with (c :: t) in *.
  change (nth 1 (b :: c :: t) Byte.x00) with c in *. rewrite read_be_take in * by lia.
  set (l := take (S w) (c :: t)) in *.
  assert (Hll : length l = S w) by (subst l; rewrite length_take; unfold len in *; simpl in *; lia).
  assert (Hcs : take (S w) (c :: t) ++ drop (S w) (c :: t) = c :: t) by apply take_drop.
  pose proof (be_val_bound l) as Hvb. pose proof (b2z_range c).
  set (pl := be_val l) in *. cbn [kind raw payload].
  assert (Hpl : 256 ^ Z.of_nat w ≤ pl < 256 ^ Z.of_nat (S w)).
  { rewrite Hll in Hvb. split; [|lia]. subst pl l. cbn [firstn].
    pose proof (be_val_hd_bound c (take w t)) as Hh.
    replace (length (take w t)) with w in Hh by (cbn in Hll; lia). apply Hh. lia. }
  assert (Hwid : be_length_bytes pl = S w) by (apply be_length_bytes_unique; lia).
  assert (Hpay : len (take (Z.to_nat pl) (drop (Z.to_nat (1 + Z.of_nat (S w))) (b :: c :: t))) = pl).
  { unfold len in *. rewrite length_take, length_drop. lia. }
  split; [done|]. split; [|apply take_drop_prefix].
  change (drop 0 (c :: t)) with (c :: t). fold l. fold pl.
  rewrite enc_header; [|intros (_ & Hl1 & _); lia].
  rewrite Hpay, header_long, Hwid by lia. rewrite <- Hb, z2b_b2z.
  replace (be_bytes (S w) pl) with l by (subst pl; rewrite <- Hll; symmetry; apply be_bytes_be_val).
  replace (Z.to_nat (1 + Z.of_nat (S w))) with (S (S w)) by lia.
  replace (Z.to_nat (1 + Z.of_nat (S w) + pl)) with (S (S w + Z.to_nat pl)) by lia.
  cbn [skipn]. change (S w + Z.to_nat pl)%nat with (S (w + Z.to_nat pl)). cbn [firstn app].
  f_equal. subst l. change (c :: take (w + Z.to_nat pl) t) with (take (S w + Z.to_nat pl) (c :: t)).
  rewrite <- take_take_drop. done.
Qed.

Lemma decode_item_canonical data it :
  len data < 2 ^ 32 → decode_item data = Ok it →
  raw it = enc (kind it) (payload it) ∧ data = raw it ++ drop (length (raw it)) data.
Proof.
  intros Hlen H. unfold decode_item in H. destruct data as [|b t]; [done|].
  pose proof (b2z_range b).
  destruct (Z.ltb_spec (b2z b) 0x80); [|destruct (Z.leb_spec (b2z b) 0xb7);
    [|destruct (Z.leb_spec (b2z b) 0xbf); [|destruct (Z.leb_spec (b2z b) 0xf7)]]].
  - ok_inv. split; [|done]. symmetry. by apply (enc_bare [b]).
  - ok_inv. match goal with H : (len _ <? _) = false |- _ => apply Z.ltb_ge in H end.
    change (drop 1 (b :: t)) with t. cbn [kind raw payload].
    split; [|apply take_drop_prefix].
    assert (Hp : len (take (Z.to_nat (b2z b - 0x80)) t) = b2z b - 0x80).
    { unfold len in *. rewrite length_take. simpl in *. lia. }
    rewrite enc_header.
    + rewrite Hp, header_short by lia. cbn [short_base].
      replace (0x80 + (b2z b - 0x80)) with (b2z b) by lia. rewrite z2b_b2z.
      by replace (Z.to_nat (1 + (b2z b - 0x80))) with (S (Z.to_nat (b2z b - 0x80))) by lia.
    + intros (_ & Hl & Hh). rewrite Hp in Hl. rewrite Hl in *.
      destruct t as [|c t]; [done|]. simpl in *.
      match goal with H : (_ <? _) = false |- _ => apply Z.ltb_ge in H end. lia.
  - edestruct (decode_long_canonical String "string" (Z.to_nat (b2z b - 0xb8))) as (-> & Hr);
      [done| | |exact Hlen| |]; [cbn; lia|lia| |exact Hr].
    rewrite <- H. f_equal. lia.
  - ok_inv. match goal with H : (len _ <? _) = false |- _ => apply Z.ltb_ge in H end.
    change (drop 1 (b :: t)) with t. cbn [kind raw payload].
    split; [|apply take_drop_prefix].
    assert (Hp : len (take (Z.to_nat (b2z b - 0xc0)) t) = b2z b - 0xc0).
    { unfold len in *. rewrite length_take. simpl in *. lia. }
    rewrite enc_header by (by intros []). rewrite Hp, header_short by lia. cbn [short_base].
    replace (0xc0 + (b2z b - 0xc0)) with (b2z b) by lia. rewrite z2b_b2z.
    by replace (Z.to_nat (1 + (b2z b - 0xc0))) with (S (Z.to_nat (b2z b - 0xc0))) by lia.
  - edestruct (decode_long_canonical List "list" (Z.to_nat (b2z b - 0xf8))) as (-> & Hr);
      [done| | |exact Hlen| |]; [cbn; lia|lia| |exact Hr].
    rewrite <- H. f_equal. lia.
Qed.

Lemma decode_item_raw_nonempty data it :
  len data < 2 ^ 32 → decode_item data = Ok it → raw it ≠ [].
Proof.
  intros Hl H. destruct (decode_item_canonical _ _ Hl H) as [-> _]. apply enc_nonempty.
Qed.

(** Draining never stops for lack of fuel: every item consumes a byte. *)
Lemma drain_concat fuel p its :
  len p < 2 ^ 32 → (length p ≤ fuel)%nat → drain fuel p = Ok its →
  p = concat (map raw its).
Proof.
  revert p its. induction fuel as [|fuel IH]; intros p its Hl Hf H.
  { destruct p; [|simpl in Hf; lia]. cbn in H. by ok_inv. }
  cbn [drain] in H. destruct (has_next p) eqn:Hn.
  - unfold next in H. destruct (len p =? 0); [done|]. ok_inv.
    match goal with H : decode_item p = Ok _ |- _ =>
      pose proof (decode_item_canonical _ _ Hl H) as [_ Hp];
      pose proof (decode_item_raw_nonempty _ _ Hl H) as Hne end.
    match goal with H : drain _ _ = Ok _ |- _ => apply IH in H as Hrest end.
    + cbn [map concat]. rewrite <- Hrest. exact Hp.
    + unfold len in *. rewrite length_drop. lia.
    + rewrite length_drop. destruct (raw i); [done|]. simpl. lia.
  - ok_inv. unfold has_next, len in Hn. destruct p; [done|].
    apply negb_false_iff, Z.eqb_eq in Hn. simpl in Hn. lia.
Qed.

(** ** Scalars *)

Lemma trim_len n v : 0 ≤ v < 256 ^ Z.of_nat n → len (be_trim v) ≤ Z.of_nat n.
Proof.
  intros Hv. pose proof (be_width_le n v Hv). unfold len, be_trim.
  rewrite length_be_bytes. lia.
Qed.

Lemma trim_canonical v :
  0 ≤ v → negb (len (be_trim v) =? 0) && (b2z (hd Byte.x00 (be_trim v)) =? 0) = false.
Proof.
  intros Hv. destruct (Z.eq_dec v 0) as [->|]; [done|].
  pose proof (be_trim_hd v ltac:(lia)). rewrite (proj2 (Z.eqb_neq (b2z _) _)) by lia.
  apply andb_false_r.
Qed.

Lemma as_u64_trim r v : in_u64 v → as_u64 (mkItem String r (be_trim v)) = Ok v.
Proof.
  intros Hv. unfold in_u64 in Hv. unfold as_u64. cbn [kind payload].
  pose proof (trim_len 8 v ltac:(simpl; lia)).
  rewrite trim_canonical by lia. rewrite (proj2 (Z.ltb_ge _ _)) by lia.
  rewrite bool_decide_false by (by intros []). cbn.
  rewrite read_be_all by (unfold len in *; lia). by rewrite be_val_trim by lia.
Qed.

Lemma as_u256_trim r v : in_u256 v → as_u256 (mkItem String r (be_trim v)) = Ok v.
Proof.
  intros Hv. unfold in_u256 in Hv. unfold as_u256. cbn [kind payload].
  pose proof (trim_len 32 v ltac:(simpl; lia)).
  rewrite trim_canonical by lia. rewrite (proj2 (Z.ltb_ge _ _)) by lia.
  rewrite bool_decide_false by (by intros []). cbn [fatal_if mbind res_bind mret res_ret].
  by rewrite be_val_zeros, be_val_trim by lia.
Qed.

Lemma canonical_payload p :
  negb (len p =? 0) && (b2z (hd Byte.x00 p) =? 0) = false → be_trim (be_val p) = p.
Proof.
  intros H. apply be_trim_unique. intros Hne. pose proof (b2z_range (hd Byte.x00 p)).
  apply andb_false_iff in H as [H|H%Z.eqb_neq]; [|lia].
  apply negb_false_iff, Z.eqb_eq in H. by destruct p.
Qed.

Lemma decode_as_u64 v rest :
  in_u64 v → (decode_item (encode (be_trim v) ++ rest) ≫= as_u64) = Ok v.
Proof.
  intros Hv. pose proof (trim_len 8 v ltac:(unfold in_u64 in Hv; simpl; lia)).
  change encode with (enc String).
  rewrite (decode_enc String (be_trim v) rest) by lia. by apply as_u64_trim.
Qed.

Lemma decode_as_u256 v rest :
  in_u256 v → (decode_item (encode (be_trim v) ++ rest) ≫= as_u256) = Ok v.
Proof.
  intros Hv. pose proof (trim_len 32 v ltac:(unfold in_u256 in Hv; simpl; lia)).
  change encode with (enc String).
  rewrite (decode_enc String (be_trim v) rest) by lia. by apply as_u256_trim.
Qed.

Lemma be_val_le p n : len p ≤ Z.of_nat n → 0 ≤ be_val p < 256 ^ Z.of_nat n.
Proof.
  intros Hp. pose proof (be_val_bound p).
  assert (256 ^ Z.of_nat (length p) ≤ 256 ^ Z.of_nat n)
    by (apply Z.pow_le_mono_r; unfold len in *; lia). lia.
Qed.

Lemma as_u64_canonical it v :
  as_u64 it = Ok v → in_u64 v ∧ encode (payload it) = encode_u64 v.
Proof.
  intros H. unfold as_u64 in H. ok_inv.
  match goal with H : (_ <? _) = false |- _ => apply Z.ltb_ge in H; rename H into Hl end.
  match goal with H : _ && _ = false |- _ => apply canonical_payload in H as Hc end.
  rewrite read_be_all by (unfold len in *; lia).
  assert (Hv : in_u64 (be_val (payload it))) by (apply (be_val_le _ 8); done).
  split; [done|]. unfold encode_u64. rewrite u64_bytes by done. by rewrite Hc.
Qed.

Lemma as_u256_canonical it v :
  as_u256 it = Ok v → in_u256 v ∧ encode (payload it) = encode_u256 v.
Proof.
  intros H. unfold as_u256 in H. ok_inv.
  match goal with H : (_ <? _) = false |- _ => apply Z.ltb_ge in H; rename H into Hl end.
  match goal with H : _ && _ = false |- _ => apply canonical_payload in H as Hc end.
  rewrite be_val_zeros.
  assert (Hv : in_u256 (be_val (payload it))) by (apply (be_val_le _ 32); done).
  split; [done|]. unfold encode_u256. rewrite u256_bytes by done. by rewrite Hc.
Qed.

Lemma prepend_string_slice buf start end_ :
  let p := slice buf start end_ in
  0 ≤ start → 0 ≤ end_ - start < 2 ^ 32 → end_ ≤ len buf → len (encode p) ≤ end_ →
  ∃ buf' s, prepend_string buf start end_ = Ok (buf', s) ∧ length buf' = length buf ∧
            s = end_ - len (encode p) ∧ slice buf' s end_ = encode p.
Proof.
  intros p Hs Hl He Hi. unfold prepend_string.
  assert (Hp : len p = end_ - start) by (subst p; unfold len in *; rewrite length_slice by lia; lia).
  destruct (Z.eqb_spec (end_ - start) 1) as [H1|H1].
  - assert (start + 1 ≤ Z.of_nat (length buf)) by (unfold len in *; lia).
    unfold mem_read. cmp. cbn [andb mbind res_bind].
    replace (take (Z.to_nat 1) (drop (Z.to_nat start) buf)) with p
      by (subst p; unfold slice; by rewrite H1).
    destruct (Z.ltb_spec (b2z (hd Byte.x00 p)) 0x80) as [Hb|Hb].
    + exists buf, start. assert (Hbare : bare String p) by (by rewrite H1 in Hp).
      change encode with (enc String) in *. rewrite enc_bare in * by done.
      rewrite Hp. replace (end_ - (end_ - start)) with start by lia.
      done.
    + apply (prepend_slice String); try done. intros (_ & _ & Hx). change (slice buf start end_) with p in Hx. lia.
  - apply (prepend_slice String); try done. intros (_ & Hx & _). change (slice buf start end_) with p in Hx. lia.
Qed.

(** ** Properties *)

(** C27. Decoding inverts encoding, for strings and lists alike, whatever
    follows in the buffer: the item returned carries the payload, and its raw
    view is exactly the encoding. *)
Theorem decode_encode (p rest : bytes) :
  len p < 2 ^ 32 →
  decode_item (encode p ++ rest) = Ok (mkItem String (encode p) p) ∧
  decode_item (encode_list_payload p ++ rest) = Ok (mkItem List (encode_list_payload p) p).
Proof. intros Hp. split; [apply (decode_enc String)|apply (decode_enc List)]; done. Qed.

Lemma decode_encode_witness :
  decode_item (encode [z2b 200] ++ [z2b 7]) = Ok (mkItem String (encode [z2b 200]) [z2b 200]).
Proof. apply (decode_encode [z2b 200] [z2b 7]). vm_compute. reflexivity. Defined.

(** C28. Only canonical encodings decode: an accepted item's raw bytes are the
    encoding of its payload and a prefix of the input, so no two byte strings
    decode to the same item. *)
Theorem decode_canonical (data : bytes) (it : Item) :
  len data < 2 ^ 32 → decode_item data = Ok it →
  raw it = match kind it with
           | String => encode (payload it)
           | List => encode_list_payload (payload it)
           end ∧
  data = raw it ++ drop (length (raw it)) data.
Proof. intros Hl H. by apply decode_item_canonical. Qed.

Lemma decode_canonical_witness :
  raw (mkItem String (map z2b [0x82; 1; 2]) (map z2b [1; 2])) = encode (map z2b [1; 2]).
Proof.
  apply (decode_canonical (map z2b [0x82; 1; 2; 9])
           (mkItem String (map z2b [0x82; 1; 2]) (map z2b [1; 2]))); vm_compute; reflexivity.
Defined.

(** Integer round trip: a 64-bit or 256-bit value encoded by [encode_u64] /
    [encode_u256] decodes back to itself, and conversely a value accepted by
    [as_u64] / [as_u256] has the payload's encoding as its only encoding. *)
Theorem uint_roundtrip (v : Z) (it : Item) (rest : bytes) :
  (in_u64 v → (decode_item (encode_u64 v ++ rest) ≫= as_u64) = Ok v) ∧
  (in_u256 v → (decode_item (encode_u256 v ++ rest) ≫= as_u256) = Ok v) ∧
  (as_u64 it = Ok v → in_u64 v ∧ encode (payload it) = encode_u64 v) ∧
  (as_u256 it = Ok v → in_u256 v ∧ encode (payload it) = encode_u256 v).
Proof.
  refine (conj _ (conj _ (conj _ _))).
  - intros Hv. unfold encode_u64. rewrite u64_bytes by done. by apply decode_as_u64.
  - intros Hv. unfold encode_u256. rewrite u256_bytes by done. by apply decode_as_u256.
  - apply as_u64_canonical.
  - apply as_u256_canonical.
Qed.

Lemma uint_roundtrip_witness :
  (decode_item (encode_u64 1024 ++ []) ≫= as_u64) = Ok 1024 ∧ in_u256 77.
Proof.
  split.
  - apply (uint_roundtrip 1024 (mkItem String [] []) []). vm_compute. split; congruence.
  - apply (uint_roundtrip 77 (mkItem String [z2b 77] [z2b 77]) []). vm_compute. reflexivity.
Defined.

(** A list round trip: wrapping encoded items and draining the list's
    payload with [ListIter] returns the items in order, and whenever a drain
    succeeds the items' raw bytes are the whole payload (so the loop ends by
    exhausting it, each step consuming at least one byte). *)
Theorem list_roundtrip (items : list (ItemKind * bytes)) (p rest : bytes) (its : list Item) :
  let encoded := map (λ kp, match kp.1 with
                            | String => encode kp.2
                            | List => encode_list_payload kp.2
                            end) items in
  (len (concat encoded) < 2 ^ 32 → Forall (λ kp, len kp.2 < 2 ^ 32) items →
   ∃ it, decode_item (encode_list encoded ++ rest) = Ok it ∧ kind it = List ∧
         all_items (payload it) = Ok (map (λ kp, mkItem kp.1 (enc kp.1 kp.2) kp.2) items)) ∧
  (len p < 2 ^ 32 → all_items p = Ok its → p = concat (map raw its)).
Proof.
  split.
  - intros Hl HF. rewrite encode_list_spec.
    eexists. split; [by apply (decode_enc List)|]. split; [done|]. by apply drain_enc.
  - intros Hl H. by apply (drain_concat (length p)).
Qed.

Lemma list_roundtrip_witness :
  map z2b [1; 0x82; 5; 6] = concat (map raw
    [mkItem String [z2b 1] [z2b 1]; mkItem String (map z2b [0x82; 5; 6]) (map z2b [5; 6])]).
Proof.
  apply (list_roundtrip [(String, [z2b 1])] (map z2b [1; 0x82; 5; 6]) []
    [mkItem String [z2b 1] [z2b 1]; mkItem String (map z2b [0x82; 5; 6]) (map z2b [5; 6])]);
    vm_compute; reflexivity.
Defined.

(** The allocation-free writers write exactly what the allocating encoders
    return, at the destination, and report its length. *)
Theorem writers_agree (buf src : bytes) (dst v : Z) :
  let write l := buf' ← mem_write buf dst l; mret (buf', len l) in
  (len src < 2 ^ 32 → write_string buf dst src = write (encode src)) ∧
  (in_u64 v → write_u64 buf dst v = write (encode_u64 v)) ∧
  (in_u256 v → write_u256 buf dst v = write (encode_u256 v)).
Proof.
  cbn zeta. refine (conj _ (conj _ _)).
  - apply write_string_spec.
  - apply write_u64_spec.
  - apply write_u256_spec.
Qed.

Lemma writers_agree_witness :
  write_string (replicate 4 Byte.x00) 1 (map z2b [9; 8]) =
  Ok (map z2b [0; 0x82; 9; 8], 3) ∧ write_u64 [Byte.x00] 0 5 = Ok ([z2b 5], 1).
Proof.
  split.
  - rewrite (proj1 (writers_agree (replicate 4 Byte.x00) (map z2b [9; 8]) 1 0)) by (vm_compute; reflexivity).
    vm_compute. reflexivity.
  - rewrite (proj1 (proj2 (writers_agree [Byte.x00] [] 0 5))) by (vm_compute; split; congruence).
    vm_compute. reflexivity.
Defined.

(** Backward headers: [prepend_list] and [prepend_string] leave, ending at
    [end_], the encoding of the bytes that were at [start, end_), and return
    where it starts, without touching the buffer's size. *)
Theorem prepend_wraps (buf : bytes) (start end_ : Z) :
  let p := slice buf start end_ in
  0 ≤ start → 0 ≤ end_ - start < 2 ^ 32 → end_ ≤ len buf →
  (len (encode_list_payload p) ≤ end_ →
   ∃ buf' s, prepend_list buf start end_ = Ok (buf', s) ∧ length buf' = length buf ∧
             s = end_ - len (encode_list_payload p) ∧
             slice buf' s end_ = encode_list_payload p) ∧
  (len (encode p) ≤ end_ →
   ∃ buf' s, prepend_string buf start end_ = Ok (buf', s) ∧ length buf' = length buf ∧
             s = end_ - len (encode p) ∧ slice buf' s end_ = encode p).
Proof.
  intros p Hs Hl He. split; intros Hi.
  - apply (prepend_slice List); try done. by intros [].
  - by apply prepend_string_slice.
Qed.

Lemma prepend_wraps_witness :
  ∃ buf' s, prepend_list (map z2b [0; 7; 8]) 1 3 = Ok (buf', s) ∧ s = 0.
Proof.
  destruct (prepend_wraps (map z2b [0; 7; 8]) 1 3) as [H _];
    [vm_compute; congruence|vm_compute; split; congruence|vm_compute; congruence|].
  destruct H as (b & s & H & _ & Hs & _); [vm_compute; congruence|].
  exists b, s. split; [exact H|]. rewrite Hs. reflexivity.
Defined.

End Rlp.
