(* ===== verification/Writer.v ===== *)
(** Sequential writers: the [p += write_...(p, ...)] pattern of the exact-size
    encoders.  A writer advances a pointer into a buffer; [emits w out] says it
    writes exactly [out] at the pointer. *)

From stdpp Require Import base numbers list strings gmap.
From S2P Require Import Prelude Rlp.

Module Writer.
Import Rlp.

(** The buffer and the write pointer. *)
Definition writer : Type := bytes * Z → res (bytes * Z).

Definition skip : writer := λ st, Ok st.
Definition seq (w1 w2 : writer) : writer := λ st, st ← w1 st; w2 st.
Fixpoint for_each {A} (f : A → writer) (l : list A) : writer :=
  match l with
  | [] => skip
  | x :: l => seq (f x) (for_each f l)
  end.

(** [memcpy(p, b); p += b.size()]. *)
Definition put (b : bytes) : writer := λ '(buf, p),
  buf ← mem_write buf p b; Ok (buf, p + len b).
(** [p += w(p, ...)] for a writer that returns the number of bytes written. *)
Definition advance (w : bytes → Z → res (bytes * Z)) : writer := λ '(buf, p),
  '(buf, n) ← w buf p; Ok (buf, p + n).

Definition emits (w : writer) (out : bytes) : Prop :=
  ∀ buf p, 0 ≤ p ≤ len buf → w (buf, p) = put out (buf, p).

Lemma emits_put b : emits (put b) b.
Proof. done. Qed.

Lemma emits_skip : emits skip [].
Proof.
  intros buf p Hp. unfold skip, put. rewrite mem_write_ok by (unfold len in *; simpl; lia).
  cbn. rewrite Nat.add_0_r, take_drop. by rewrite Z.add_0_r.
Qed.

Lemma emits_seq w1 w2 o1 o2 : emits w1 o1 → emits w2 o2 → emits (seq w1 w2) (o1 ++ o2).
Proof.
  intros H1 H2 buf p Hp. unfold seq. rewrite (H1 buf p Hp). unfold put.
  rewrite mem_write_app. destruct (mem_write buf p o1) as [buf1|] eqn:E; cbn; [|done].
  rewrite H2; [unfold put; fold (len o1); destruct (mem_write buf1 _ o2); cbn; [|done];
    by rewrite len_app, Z.add_assoc|].
  unfold mem_write in E. case_match eqn:Eb; [|done]. apply Ok_inj in E. subst buf1.
  apply andb_true_iff in Eb as [E1%Z.leb_le E2%Z.leb_le].
  unfold len in *. rewrite !length_app, length_take, length_drop. lia.
Qed.

(** Sequencing is associative. *)
Lemma emits_assoc w1 w2 w3 out : emits (seq (seq w1 w2) w3) out → emits (seq w1 (seq w2 w3)) out.
Proof.
  intros H buf p Hp. rewrite <- H by done. unfold seq.
  destruct (w1 (buf, p)); cbn; [|done]. by destruct (w2 _).
Qed.

Lemma emits_for_each {A} (f : A → writer) (o : A → bytes) l :
  (∀ x, x ∈ l → emits (f x) (o x)) → emits (for_each f l) (concat (map o l)).
Proof.
  induction l as [|x l IH]; intros Hf; cbn; [apply emits_skip|].
  apply emits_seq; [|apply IH]; intros; apply Hf; by constructor.
Qed.

Lemma emits_advance w out :
  (∀ buf p, w buf p = (buf' ← mem_write buf p out; mret (buf', len out))) → emits (advance w) out.
Proof.
  intros Hw buf p _. unfold advance, put. rewrite Hw. by destruct (mem_write buf p out).
Qed.

Lemma emits_string src :
  len src < 2 ^ 32 → emits (advance (λ buf p, write_string buf p src)) (encode src).
Proof. intros H. apply emits_advance. intros. by apply write_string_spec. Qed.

Lemma emits_u64 v : in_u64 v → emits (advance (λ buf p, write_u64 buf p v)) (encode_u64 v).
Proof. intros H. apply emits_advance. intros. by apply write_u64_spec. Qed.

(** [p += list_header(p, payload_len)]. *)
Definition list_header (payload_len : Z) : writer := put (make_header 0xc0 0xf7 payload_len).

(** A list header followed by its payload is the list. *)
Lemma emits_list payload n w :
  emits w payload → n = len payload → len payload < 2 ^ 32 →
  emits (seq (list_header n) w) (encode_list_payload payload).
Proof.
  intros Hw -> Hl. unfold list_header. pose proof (len_nonneg payload).
  rewrite make_header_spec by lia.
  change (encode_list_payload payload) with (enc List payload).
  rewrite enc_header by (by intros [? _]). apply emits_seq; [apply emits_put|done].
Qed.

(** Running a writer on a buffer of exactly the right size. *)
Lemma emits_exact w out n :
  emits w out → n = len out → w (replicate (Z.to_nat n) Byte.x00, 0) = Ok (out, n).
Proof.
  intros Hw ->. unfold len. rewrite Nat2Z.id.
  rewrite Hw by (unfold len; rewrite length_replicate; lia). unfold put.
  rewrite mem_write_ok by (rewrite ?length_replicate; lia). cbn.
  rewrite drop_ge by (rewrite length_replicate; lia). by rewrite app_nil_r.
Qed.

(** ** Sizes *)

Lemma len_be_bytes n z : len (be_bytes n z) = Z.of_nat n.
Proof. unfold len. by rewrite length_be_bytes. Qed.

Lemma item_size_spec p : 0 ≤ p < 2 ^ 32 → item_size p = len (header 0x80 0xb7 p) + p.
Proof. intros Hp. unfold item_size. by rewrite make_header_spec. Qed.

Lemma header_length_base S1 L1 S2 L2 p :
  0 ≤ p < 2 ^ 32 → len (header S1 L1 p) = len (header S2 L2 p).
Proof.
  intros Hp. unfold len. f_equal. destruct (Z_le_gt_dec p 55).
  - by rewrite !header_short by lia.
  - by rewrite !header_long by lia.
Qed.

Lemma item_size_list payload :
  len payload < 2 ^ 32 → item_size (len payload) = len (encode_list_payload payload).
Proof.
  intros Hl. pose proof (len_nonneg payload). rewrite item_size_spec by lia.
  change (encode_list_payload payload) with (enc List payload).
  rewrite enc_header by (by intros [? _]). rewrite len_app.
  by rewrite (header_length_base 0x80 0xb7 (short_base List) (long_base List)) by lia.
Qed.

Lemma item_size_string src :
  len src < 2 ^ 32 →
  (if (len src =? 1) && (b2z (hd Byte.x00 src) <? 0x80) then 1 else item_size (len src))
  = len (encode src).
Proof.
  intros Hl. pose proof (len_nonneg src). unfold encode.
  destruct ((len src =? 1) && (b2z (hd Byte.x00 src) <? 0x80)) eqn:E.
  - done.
  - rewrite item_size_spec by lia. fold (header 0x80 0xb7 (len src)). by rewrite len_app.
Qed.

End Writer.
