(* ===== verification/Receipt.v ===== *)
(** Transaction receipts ([include/zeg/receipt.hpp], [src/receipt.cpp]) and the
    logs bloom ([src/bloom.cpp]).  The exact-size receipt encoder is shown equal
    to the nested RLP definition, and the bloom to have no false negatives. *)

From stdpp Require Import base numbers list strings gmap.
From S2P Require Import Prelude Rlp Writer.

Module Receipt.
Import Rlp Writer.

(** ** Data *)

Record LogEntry := mkLog { log_address : Z; topics : list Z; data : bytes }.

(** [Transactions::Type]. *)
Inductive TxType := Legacy | AccessList | DynamicFee | Blob | SetCode | Osaka.
#[export] Instance TxType_eq_dec : EqDecision TxType.
Proof. solve_decision. Defined.
Definition tx_type_byte (t : TxType) : Z :=
  match t with Legacy => 0 | AccessList => 1 | DynamicFee => 2 | Blob => 3 | SetCode => 4 | Osaka => 5 end.

Record TxReceipt := mkReceipt {
  tx_type : TxType;
  status : bool;
  cumulative_gas_used : Z;
  logs_bloom : bytes;
  logs : list LogEntry }.

(** ** Encoding *)

Definition list_size (payload_len : Z) : Z := item_size payload_len.

Definition topics_payload (log : LogEntry) : Z := Z.of_nat (length (topics log)) * item_size 32.

Definition log_payload (log : LogEntry) : Z :=
  let data_size :=
    if (len (data log) =? 1) && (b2z (hd Byte.x00 (data log)) <? 0x80) then 1
    else item_size (len (data log)) in
  item_size 20 + list_size (topics_payload log) + data_size.

Definition write_log (log : LogEntry) : writer :=
  seq (list_header (log_payload log))
    (seq (advance (λ buf p, write_string buf p (be_bytes 20 (log_address log))))
    (seq (list_header (topics_payload log))
    (seq (for_each (λ t, advance (λ buf p, write_string buf p (be_bytes 32 t))) (topics log))
         (advance (λ buf p, write_string buf p (data log)))))).

(** A scratch buffer of 9 bytes, filled by [write_u64]. *)
Definition u64_scratch (v : Z) : res bytes :=
  '(buf, n) ← write_u64 (replicate 9 Byte.x00) 0 v;
  Ok (take (Z.to_nat n) buf).

Definition encode_receipt (r : TxReceipt) : res bytes :=
  let logs_payload := foldl (λ acc log, acc + list_size (log_payload log)) 0 (logs r) in
  status_buf ← u64_scratch (if status r then 1 else 0);
  cum_gas_buf ← u64_scratch (cumulative_gas_used r);
  let body_payload := len status_buf + len cum_gas_buf + item_size (len (logs_bloom r))
                      + list_size logs_payload in
  let typed := match tx_type r with Legacy => false | _ => true end in
  let size := (if typed then 1 else 0) + list_size body_payload in
  '(out, p) ← seq (if typed then put [z2b (tx_type_byte (tx_type r))] else skip)
    (seq (list_header body_payload)
    (seq (put status_buf)
    (seq (put cum_gas_buf)
    (seq (advance (λ buf p, write_string buf p (logs_bloom r)))
    (seq (list_header logs_payload)
         (for_each write_log (logs r)))))))
    (replicate (Z.to_nat size) Byte.x00, 0);
  _ ← fatal_if (negb (p =? len out)) "encode_receipt: size mismatch";
  Ok out.

(** ** Specification *)

Definition spec_log (log : LogEntry) : bytes :=
  encode_list [encode (be_bytes 20 (log_address log));
               encode_list (map (λ t, encode (be_bytes 32 t)) (topics log));
               encode (data log)].

Definition spec_receipt (r : TxReceipt) : bytes :=
  (match tx_type r with Legacy => [] | t => [z2b (tx_type_byte t)] end) ++
  encode_list [encode_u64 (if status r then 1 else 0); encode_u64 (cumulative_gas_used r);
               encode (logs_bloom r); encode_list (map spec_log (logs r))].

Lemma len_concat_map_const {A} (f : A → bytes) n l :
  (∀ x, x ∈ l → len (f x) = n) → len (concat (map f l)) = Z.of_nat (length l) * n.
Proof.
  induction l as [|x l IH]; intros Hf; [done|]. cbn [map concat length].
  rewrite len_app, IH by (intros; apply Hf; by right). rewrite Hf by by left. lia.
Qed.

Lemma len_encode_fixed n b : length b = n → (1 < n)%nat → Z.of_nat n < 2 ^ 32 →
  len (encode b) = item_size (Z.of_nat n).
Proof.
  intros Hb Hn Hlt. assert (Hl : len b = Z.of_nat n) by (unfold len; lia).
  rewrite <- item_size_string by lia. rewrite Hl.
  rewrite (proj2 (Z.eqb_neq _ _)) by lia. done.
Qed.

Lemma len_enc_ge k p : len p ≤ len (enc k p).
Proof.
  pose proof (len_nonneg p). destruct (decide (bare k p)) as [[-> Hb]|Hb].
  - rewrite enc_bare by done. lia.
  - rewrite enc_header, len_app by done.
    pose proof (len_nonneg (header (short_base k) (long_base k) (len p))). lia.
Qed.

Lemma len_concat_le x (l : list bytes) : x ∈ l → len x ≤ len (concat l).
Proof.
  induction l as [|y l IH]; [by intros ?%not_elem_of_nil|]. cbn [concat]. rewrite len_app.
  pose proof (len_nonneg y). pose proof (len_nonneg (concat l)).
  intros [->|H']%elem_of_cons; [lia|]. specialize (IH H'). lia.
Qed.

(** An item of an encoded list is no longer than the list. *)
Lemma len_item_le x items : x ∈ items → len x ≤ len (encode_list items).
Proof.
  intros Hx. rewrite encode_list_spec. etrans; [by apply len_concat_le|].
  apply (len_enc_ge List).
Qed.
Lemma len_payload_le items : len (concat items) ≤ len (encode_list items).
Proof. rewrite encode_list_spec. apply (len_enc_ge List). Qed.
Lemma len_string_le p : len p ≤ len (encode p).
Proof. apply (len_enc_ge String). Qed.

Lemma foldl_acc {A} (f : A → Z) l acc :
  foldl (λ a x, a + f x) acc l = acc + foldl (λ a x, a + f x) 0 l.
Proof.
  revert acc. induction l as [|x l IH]; intros acc; [cbn; lia|]. cbn [foldl].
  rewrite (IH (acc + f x)), (IH (0 + f x)). lia.
Qed.

(** A size loop adds up the encodings' lengths. *)
Lemma size_loop {A} (f : A → Z) (g : A → bytes) l :
  (∀ x, x ∈ l → f x = len (g x)) → foldl (λ a x, a + f x) 0 l = len (concat (map g l)).
Proof.
  induction l as [|x l IH]; intros Hf; [done|]. cbn [foldl map concat].
  rewrite foldl_acc, len_app, IH by (intros; apply Hf; by right).
  rewrite (Hf x) by by left. lia.
Qed.

(** ** The log encoder *)

Lemma topics_payload_spec log :
  topics_payload log = len (concat (map (λ t, encode (be_bytes 32 t)) (topics log))).
Proof.
  unfold topics_payload. symmetry. apply len_concat_map_const. intros t _.
  apply (len_encode_fixed 32); [apply length_be_bytes|lia..].
Qed.

Definition log_items (log : LogEntry) : list bytes :=
  [encode (be_bytes 20 (log_address log));
   encode_list (map (λ t, encode (be_bytes 32 t)) (topics log));
   encode (data log)].

Lemma log_spec log :
  len (spec_log log) < 2 ^ 32 →
  log_payload log = len (concat (log_items log)) ∧ emits (write_log log) (spec_log log).
Proof.
  intros Hl. change (spec_log log) with (encode_list (log_items log)) in *.
  pose proof (len_payload_le (log_items log)) as Hp.
  assert (Hd : len (data log) < 2 ^ 32).
  { pose proof (len_item_le (encode (data log)) (log_items log)) as H1.
    pose proof (len_string_le (data log)). specialize (H1 ltac:(set_solver)). lia. }
  assert (Ht : topics_payload log < 2 ^ 32).
  { pose proof (len_item_le (encode_list (map (λ t, encode (be_bytes 32 t)) (topics log)))
      (log_items log) ltac:(set_solver)).
    pose proof (len_payload_le (map (λ t, encode (be_bytes 32 t)) (topics log))).
    rewrite topics_payload_spec. lia. }
  assert (Hpay : log_payload log = len (concat (log_items log))).
  { unfold log_payload, list_size, log_items. cbn [concat]. rewrite app_nil_r, !len_app.
    rewrite item_size_string by done. rewrite (len_encode_fixed 20 (be_bytes 20 (log_address log))) by (rewrite ?length_be_bytes; lia).
    rewrite topics_payload_spec in *. rewrite item_size_list by done.
    change (Z.of_nat 20) with 20. rewrite encode_list_spec. lia. }
  split; [done|]. unfold write_log. rewrite encode_list_spec.
  apply emits_list; [|done|lia]. unfold log_items. cbn [concat]. rewrite app_nil_r.
  apply emits_seq; [apply emits_string; by rewrite len_be_bytes|].
  rewrite encode_list_spec.
  apply emits_assoc, emits_seq; [|by apply emits_string].
  rewrite topics_payload_spec in *. apply emits_list; [|done..].
  apply emits_for_each. intros t _. apply emits_string. by rewrite len_be_bytes.
Qed.

(** ** The receipt encoder *)

Lemma u64_scratch_spec v : in_u64 v → u64_scratch v = Ok (encode_u64 v) ∧ len (encode_u64 v) ≤ 9.
Proof.
  intros Hv.
  assert (Hlen : len (encode_u64 v) ≤ 9).
  { unfold encode_u64. rewrite u64_bytes by done. pose proof (trim_len 8 v Hv) as Ht.
    rewrite <- item_size_string by lia. pose proof (len_nonneg (be_trim v)).
    case_match; [lia|]. unfold item_size, make_header. rewrite (proj2 (Z.leb_le _ _)) by lia.
    unfold len at 1. simpl length. lia. }
  split; [|done]. unfold u64_scratch. rewrite write_u64_spec by done. unfold len in *.
  rewrite mem_write_ok by (rewrite ?length_replicate; lia). cbn [mbind res_bind mret res_ret].
  rewrite Nat2Z.id, Z2Nat.inj_0, take_0, app_nil_l. by rewrite take_app_length.
Qed.

Definition receipt_items (r : TxReceipt) : list bytes :=
  [encode_u64 (if status r then 1 else 0); encode_u64 (cumulative_gas_used r);
   encode (logs_bloom r); encode_list (map spec_log (logs r))].

(** The body writer emits the receipt list, given the two scratch encodings. *)
Lemma body_spec r :
  length (logs_bloom r) = 256%nat → len (encode_list (receipt_items r)) < 2 ^ 32 →
  let n := foldl (λ acc log, acc + list_size (log_payload log)) 0 (logs r) in
  let body := len (encode_u64 (if status r then 1 else 0)) + len (encode_u64 (cumulative_gas_used r))
              + item_size (len (logs_bloom r)) + list_size n in
  body = len (concat (receipt_items r)) ∧
  emits (seq (list_header body)
    (seq (put (encode_u64 (if status r then 1 else 0)))
    (seq (put (encode_u64 (cumulative_gas_used r)))
    (seq (advance (λ buf p, write_string buf p (logs_bloom r)))
    (seq (list_header n) (for_each write_log (logs r)))))))
    (encode_list (receipt_items r)).
Proof.
  intros Hb Hl n body.
  pose proof (len_payload_le (receipt_items r)) as Hp.
  pose proof (len_item_le (encode_list (map spec_log (logs r))) (receipt_items r)
    ltac:(set_solver)) as Hlogs.
  pose proof (len_payload_le (map spec_log (logs r))) as Hlp.
  assert (Hlog : ∀ log, log ∈ logs r → len (spec_log log) < 2 ^ 32).
  { intros log Hin. pose proof (len_item_le (spec_log log) (map spec_log (logs r))) as H1.
    rewrite list_elem_of_In in H1. specialize (H1 (in_map _ _ _ (proj1 (list_elem_of_In _ _) Hin))).
    lia. }
  assert (Hn : n = len (concat (map spec_log (logs r)))).
  { apply size_loop. intros log Hin. destruct (log_spec log (Hlog _ Hin)) as [-> _].
    unfold list_size. pose proof (len_payload_le (log_items log)).
    change (spec_log log) with (encode_list (log_items log)).
    specialize (Hlog _ Hin). change (spec_log log) with (encode_list (log_items log)) in Hlog.
    rewrite item_size_list by lia. by rewrite encode_list_spec. }
  assert (Hbody : body = len (concat (receipt_items r))).
  { unfold body, receipt_items, list_size. cbn [concat]. rewrite app_nil_r, !len_app.
    rewrite (len_encode_fixed 256 (logs_bloom r)) by (done || lia).
    replace (len (logs_bloom r)) with (Z.of_nat 256) by (unfold len; lia).
    rewrite Hn, item_size_list, encode_list_spec by lia. lia. }
  split; [done|]. rewrite encode_list_spec. apply emits_list; [|done|lia].
  unfold receipt_items. cbn [concat]. rewrite app_nil_r.
  apply emits_seq; [apply emits_put|]. apply emits_seq; [apply emits_put|].
  apply emits_seq; [apply emits_string; unfold len; rewrite Hb; lia|].
  rewrite encode_list_spec. apply emits_list; [|done|lia].
  apply emits_for_each. intros log Hin. by apply log_spec, Hlog.
Qed.

(** C30. The exact-size receipt encoder. For a receipt whose encoding is below
    4 GiB, [encode_receipt] sizes its buffer exactly, never runs out of it,
    never trips its size check, and returns the EIP-2718 / Yellow Paper
    encoding: the type byte of a typed transaction followed by the RLP list of
    status, cumulative gas, bloom and logs, each log the RLP list of address,
    topics and data. *)
Theorem encode_receipt_correct (r : TxReceipt) :
  length (logs_bloom r) = 256%nat → in_u64 (cumulative_gas_used r) →
  len (encode_list (receipt_items r)) < 2 ^ 32 →
  encode_receipt r = Ok (spec_receipt r).
Proof.
  intros Hb Hg Hl. unfold encode_receipt.
  assert (Hs : in_u64 (if status r then 1 else 0)) by (unfold in_u64; destruct (status r); lia).
  destruct (u64_scratch_spec _ Hs) as [-> _]. destruct (u64_scratch_spec _ Hg) as [-> _].
  cbn [mbind res_bind]. destruct (body_spec r Hb Hl) as [Hbody Hemit].
  set (n := foldl _ _ (logs r)) in *. set (body := _ + list_size n) in *. clearbody body.
  set (typed := match tx_type r with Legacy => false | _ => true end).
  assert (Hpre : emits (if typed then put [z2b (tx_type_byte (tx_type r))] else skip)
    (match tx_type r with Legacy => [] | t => [z2b (tx_type_byte t)] end)).
  { unfold typed. destruct (tx_type r); apply emits_skip || apply emits_put. }
  erewrite (emits_exact _ (spec_receipt r)); [|by apply emits_seq|].
  - cbn [mbind res_bind]. rewrite (proj2 (Z.eqb_eq _ _)); [done|].
    unfold spec_receipt. rewrite len_app. pose proof (len_payload_le (receipt_items r)).
    subst body. unfold list_size. rewrite item_size_list, <- encode_list_spec by lia.
    unfold typed. by destruct (tx_type r).
  - unfold spec_receipt. rewrite len_app. pose proof (len_payload_le (receipt_items r)).
    subst body. unfold list_size. rewrite item_size_list, <- encode_list_spec by lia.
    unfold typed. by destruct (tx_type r).
Qed.

Lemma encode_receipt_correct_witness :
  encode_receipt (mkReceipt DynamicFee true 21000 (replicate 256 Byte.x00)
    [mkLog 17 [1; 2] [Byte.x05]]) =
  Ok (spec_receipt (mkReceipt DynamicFee true 21000 (replicate 256 Byte.x00)
    [mkLog 17 [1; 2] [Byte.x05]])).
Proof.
  apply encode_receipt_correct.
  - reflexivity.
  - vm_compute. by split.
  - reflexivity.
Defined.

End Receipt.

(** ** The logs bloom ([include/zeg/bloom.hpp], [src/bloom.cpp]) *)
Module Bloom.
Section Bloom.
Context (keccak256 : bytes → Z).

(** One of the three bits of a hash, [i < 3]. *)
Definition bloom_position (h : bytes) (i : nat) : res Z :=
  hi ← vec_get h (i * 2); lo ← vec_get h (i * 2 + 1);
  let pair := Z.lor (Z.shiftl (b2z hi) 8) (b2z lo) in
  Ok (Z.land pair 0x07FF).

Definition bloom_set (bloom : bytes) (p : Z) : res bytes :=
  let byte_idx := Z.to_nat (256 - 1 - Z.shiftr p 3) in
  let bit_mask := Z.shiftl 1 (Z.land p 0x07) in
  b ← vec_get bloom byte_idx;
  vec_set bloom byte_idx (z2b (Z.lor (b2z b) bit_mask)).

Definition bloom_add (bloom data : bytes) : res bytes :=
  let h := be_bytes 32 (keccak256 data) in
  p0 ← bloom_position h 0; bloom ← bloom_set bloom p0;
  p1 ← bloom_position h 1; bloom ← bloom_set bloom p1;
  p2 ← bloom_position h 2; bloom_set bloom p2.

Definition bloom_or_into (dst src : bytes) : bytes :=
  zip_with (λ d s, z2b (Z.lor (b2z d) (b2z s))) dst src.

(** *** Specification: the bloom as a 2048-bit big-endian number *)

Lemma be_val_testbit l k :
  0 ≤ k →
  Z.testbit (be_val l) k =
  match l !! (length l - 1 - Z.to_nat (k / 8))%nat with
  | Some b => if k <? 8 * Z.of_nat (length l) then Z.testbit (b2z b) (k mod 8) else false
  | None => false
  end.
Proof.
  revert k. induction l as [|b l IH] using rev_ind; intros k Hk.
  - cbn. apply Z.testbit_0_l.
  - rewrite be_val_snoc, <- lor_shiftl8 by apply b2z_range. rewrite Z.lor_spec.
    rewrite Z.shiftl_spec, length_app by lia. cbn [length].
    pose proof (b2z_range b). destruct (Z_lt_ge_dec k 8) as [Hk8|Hk8].
    + rewrite (Z.testbit_neg_r _ (k - 8)) by lia. rewrite Z.div_small, Z.mod_small by lia.
      replace (length l + 1 - 1 - Z.to_nat 0)%nat with (length l) by (cbn; lia).
      rewrite list_lookup_middle by done. rewrite (proj2 (Z.ltb_lt _ _)) by lia. done.
    + rewrite (Z.bits_above_log2 (b2z b)); [|lia|].
      2:{ destruct (Z.eq_dec (b2z b) 0) as [->|]; [cbn; lia|].
          apply Z.log2_lt_pow2; [lia|]. apply (Z.lt_le_trans _ (2 ^ 8)); [lia|].
          apply Z.pow_le_mono_r; lia. }
      rewrite orb_false_r, IH by lia.
      assert (Hd : (k - 8) / 8 = k / 8 - 1)
        by (replace k with (k - 8 + 1 * 8) at 2 by lia; rewrite Z.div_add by lia; lia).
      assert (Hm : (k - 8) mod 8 = k mod 8) by (rewrite <- (Z.mod_add (k - 8) 1 8) by lia; f_equal; lia).
      assert (1 ≤ k / 8) by (apply Z.div_le_lower_bound; lia).
      rewrite Hd, Hm. destruct (Z.ltb_spec (k - 8) (8 * Z.of_nat (length l))) as [Hlt|Hge].
      * rewrite (proj2 (Z.ltb_lt k _)) by lia.
        replace (length l + 1 - 1 - Z.to_nat (k / 8))%nat
          with (length l - 1 - Z.to_nat (k / 8 - 1))%nat by lia.
        rewrite lookup_app_l; [done|]. assert (0 < length l)%nat by lia. lia.
      * rewrite (proj2 (Z.ltb_ge k _)) by lia. by destruct (_ !! _), (_ !! _).
Qed.

(** A bit of a 256-byte bloom. *)
Lemma bloom_testbit l k :
  length l = 256%nat → 0 ≤ k →
  Z.testbit (be_val l) k =
  if k <? 2048 then match l !! Z.to_nat (255 - k / 8) with
                    | Some b => Z.testbit (b2z b) (k mod 8) | None => false end
  else false.
Proof.
  intros Hl Hk. rewrite be_val_testbit, Hl by done. change (8 * Z.of_nat 256) with 2048.
  destruct (Z.ltb_spec k 2048) as [Hlt|]; [|by destruct (_ !! _)].
  assert (0 ≤ k / 8) by (apply Z.div_pos; lia).
  by replace (256 - 1 - Z.to_nat (k / 8))%nat with (Z.to_nat (255 - k / 8)) by lia.
Qed.

Lemma lor_byte_range x y : 0 ≤ x < 256 → 0 ≤ y < 256 → 0 ≤ Z.lor x y < 256.
Proof.
  intros Hx Hy. split; [apply Z.lor_nonneg; lia|].
  destruct (Z.eq_dec (Z.lor x y) 0) as [->|]; [lia|].
  apply (Z.log2_lt_pow2 _ 8); [pose proof (proj2 (Z.lor_nonneg x y)); lia|].
  rewrite Z.log2_lor by lia.
  assert (∀ z, 0 ≤ z < 256 → Z.log2 z < 8) as Hlog.
  { intros z Hz. destruct (Z.eq_dec z 0) as [->|]; [cbn; lia|]. apply Z.log2_lt_pow2; lia. }
  pose proof (Hlog x Hx). pose proof (Hlog y Hy). lia.
Qed.

Lemma bloom_set_spec l p :
  length l = 256%nat → 0 ≤ p < 2048 →
  ∃ l', bloom_set l p = Ok l' ∧ length l' = 256%nat ∧ be_val l' = Z.lor (be_val l) (2 ^ p).
Proof.
  intros Hl Hp. unfold bloom_set. change 7 with (Z.ones 3). rewrite Z.land_ones by lia.
  rewrite Z.shiftr_div_pow2 by lia. change (2 ^ 3) with 8. change (256 - 1) with 255.
  rewrite Z.shiftl_mul_pow2, Z.mul_1_l by (apply Z.mod_pos_bound; lia).
  pose proof (Z.mod_pos_bound p 8). assert (0 ≤ p / 8 < 256) by (split;
    [apply Z.div_pos; lia|apply Z.div_lt_upper_bound; lia]).
  destruct (lookup_lt_is_Some_2 l (Z.to_nat (255 - p / 8))) as [b Hb]; [lia|].
  unfold vec_get, vec_set. rewrite Hb. cbn [mbind res_bind]. eexists. split; [done|].
  split; [by rewrite length_insert|].
  assert (Hmask : 0 ≤ 2 ^ (p mod 8) < 256).
  { split; [apply Z.pow_nonneg; lia|]. apply (Z.pow_lt_mono_r 2 _ 8); lia. }
  pose proof (lor_byte_range _ _ (b2z_range b) Hmask) as Hlor.
  apply Z.bits_inj'. intros k Hk. rewrite Z.lor_spec, !bloom_testbit, Z.pow2_bits_eqb
    by (rewrite ?length_insert; lia).
  destruct (Z.ltb_spec k 2048) as [Hlt|]; [|rewrite (proj2 (Z.eqb_neq p k)) by lia; done].
  assert (0 ≤ k / 8 < 256) by (split; [apply Z.div_pos; lia|apply Z.div_lt_upper_bound; lia]).
  pose proof (Z.mod_pos_bound k 8). pose proof (Z.div_mod k 8). pose proof (Z.div_mod p 8).
  rewrite list_lookup_insert. case_decide as Hd.
  - destruct Hd as [Hd _]. assert (Heq : p / 8 = k / 8) by lia.
    rewrite <- Hd, Hb, b2z_z2b_small, Z.lor_spec, Z.pow2_bits_eqb by (done || lia).
    f_equal. destruct (Z.eqb_spec (p mod 8) (k mod 8)); destruct (Z.eqb_spec p k); lia.
  - rewrite (proj2 (Z.eqb_neq p k)), orb_false_r; [done|]. intros ->. apply Hd. lia.
Qed.

(** The bit positions of a datum: the low 11 bits of the first three 16-bit
    words of its hash. *)
Definition spec_position (data : bytes) (i : nat) : Z :=
  be_val (take 2 (drop (2 * i) (be_bytes 32 (keccak256 data)))) mod 2048.

Lemma bloom_position_spec data i :
  (i < 3)%nat →
  bloom_position (be_bytes 32 (keccak256 data)) i = Ok (spec_position data i) ∧
  0 ≤ spec_position data i < 2048.
Proof.
  intros Hi. unfold spec_position. split; [|apply Z.mod_pos_bound; lia].
  pose proof (length_be_bytes 32 (keccak256 data)) as Hl.
  set (h := be_bytes 32 (keccak256 data)) in *. clearbody h. unfold bloom_position, vec_get.
  destruct (lookup_lt_is_Some_2 h (i * 2)) as [a Ha]; [lia|].
  destruct (lookup_lt_is_Some_2 h (i * 2 + 1)) as [b Hb]; [lia|].
  rewrite Ha, Hb. cbn [mbind res_bind]. f_equal.
  rewrite lor_shiftl8 by apply b2z_range. change 0x07FF with (Z.ones 11).
  rewrite Z.land_ones by lia. change (2 ^ 11) with 2048. f_equal.
  rewrite Nat.mul_comm in Ha, Hb. rewrite (drop_S _ _ _ Ha).
  replace (S (2 * i)) with (2 * i + 1)%nat by lia. rewrite (drop_S _ _ _ Hb). done.
Qed.

(** C31. The logs bloom. Read as a 2048-bit big-endian number, [bloom_add] sets
    exactly the three Yellow Paper bits of the datum's hash and no other, and
    [bloom_or_into] is the bitwise or; so a bloom never loses a datum that was
    added to it. *)
Theorem bloom_correct (bloom src data : bytes) :
  length bloom = 256%nat → length src = 256%nat →
  ∃ b', bloom_add bloom data = Ok b' ∧ length b' = 256%nat ∧
    be_val b' = Z.lor (Z.lor (Z.lor (be_val bloom) (2 ^ spec_position data 0))
                   (2 ^ spec_position data 1)) (2 ^ spec_position data 2) ∧
    be_val (bloom_or_into bloom src) = Z.lor (be_val bloom) (be_val src).
Proof.
  intros Hb Hs. unfold bloom_add.
  destruct (bloom_position_spec data 0) as [-> H0]; [lia|]. cbn [mbind res_bind].
  destruct (bloom_set_spec bloom _ Hb H0) as (b0 & -> & Hb0 & E0). cbn [mbind res_bind].
  destruct (bloom_position_spec data 1) as [-> H1]; [lia|]. cbn [mbind res_bind].
  destruct (bloom_set_spec b0 _ Hb0 H1) as (b1 & -> & Hb1 & E1). cbn [mbind res_bind].
  destruct (bloom_position_spec data 2) as [-> H2]; [lia|]. cbn [mbind res_bind].
  destruct (bloom_set_spec b1 _ Hb1 H2) as (b2 & -> & Hb2 & E2).
  exists b2. split; [done|]. split; [done|]. split; [by rewrite E2, E1, E0|].
  apply Z.bits_inj'. intros k Hk. unfold bloom_or_into.
  rewrite Z.lor_spec, !bloom_testbit by (rewrite ?length_zip_with; lia).
  case_match; [|done]. rewrite lookup_zip_with.
  assert (0 ≤ k / 8) by (apply Z.div_pos; lia).
  destruct (lookup_lt_is_Some_2 bloom (Z.to_nat (255 - k / 8))) as [x Hx]; [lia|].
  destruct (lookup_lt_is_Some_2 src (Z.to_nat (255 - k / 8))) as [y Hy]; [lia|].
  rewrite Hx, Hy. cbn. rewrite b2z_z2b_small by (apply lor_byte_range; apply b2z_range).
  apply Z.lor_spec.
Qed.

End Bloom.

Lemma bloom_correct_witness :
  ∃ b', bloom_add (λ _, 2 ^ 255 + 5 * 2 ^ 240) (replicate 256 Byte.x00) [Byte.x01] = Ok b' ∧
    length b' = 256%nat.
Proof.
  destruct (bloom_correct (λ _, 2 ^ 255 + 5 * 2 ^ 240) (replicate 256 Byte.x00)
    (replicate 256 Byte.x00) [Byte.x01]) as (b' & H1 & H2 & _).
  - reflexivity.
  - reflexivity.
  - exists b'. split; [exact H1|exact H2].
Defined.

End Bloom.
