(* ===== verification/Contracts.v ===== *)
(** The input stream readers ([include/zeg/stream.hpp]) and the bytecode table
    ([include/zeg/contracts.hpp], [src/contracts.cpp]): parsing, runtime
    insertion of deployed code, and the end-of-transaction settlement that keeps
    only code an account still has.  The analysis handle of an entry belongs to
    the VM and is left out. *)

From stdpp Require Import base numbers list strings gmap.
From S2P Require Import Prelude Rlp.

Module Stream.
Import Rlp.

(** A cursor is the rest of the input; [stream_remaining] is its length. *)
Abbreviation cursor := bytes.

Definition stream_remaining (c : cursor) : Z := len c.

Definition read_u64_le (c : cursor) : res (Z * cursor) :=
  _ ← fatal_if (stream_remaining c <? 8) "stream: read_u64_le past end of input";
  Ok (le_val (take 8 c), drop 8 c).

Definition peek_u64_le (c : cursor) : res Z :=
  _ ← fatal_if (stream_remaining c <? 8) "stream: peek_u64_le past end of input";
  Ok (le_val (take 8 c)).

Definition advance_checked (n : Z) (c : cursor) : res cursor :=
  _ ← fatal_if (stream_remaining c <? n) "stream: advance past end of input";
  Ok (drop (Z.to_nat n) c).

Definition require_bytes (n : Z) (c : cursor) : res unit :=
  fatal_if (stream_remaining c <? n) "stream: fixed-field read past end of input".

Definition pad_of (consumed : Z) : Z := Z.land (8 - Z.land consumed 7) 7.

Definition align_to_u64 (consumed : Z) (c : cursor) : res cursor :=
  advance_checked (pad_of consumed) c.

(** Writing side, for the round trips. *)
Definition put_u64_le (v : Z) : bytes := le_bytes 8 v.
Definition put_padded (b : bytes) : bytes := b ++ replicate (Z.to_nat (pad_of (len b))) Byte.x00.

Lemma read_put_u64 v c : in_u64 v → read_u64_le (put_u64_le v ++ c) = Ok (v, c).
Proof.
  intros Hv. unfold read_u64_le, stream_remaining, put_u64_le.
  assert (Hl : length (le_bytes 8 v) = 8%nat) by (unfold le_bytes; by rewrite length_reverse, length_be_bytes).
  rewrite len_app. unfold len at 1. rewrite Hl. pose proof (len_nonneg c).
  rewrite (proj2 (Z.ltb_ge _ _)) by lia. cbn [fatal_if mbind res_bind].
  rewrite take_app_length', drop_app_length' by done. unfold le_val, le_bytes.
  by rewrite reverse_involutive, be_val_be_bytes_small by done.
Qed.

Lemma advance_app b c n : n = len b → advance_checked n (b ++ c) = Ok c.
Proof.
  intros ->. unfold advance_checked, stream_remaining. rewrite len_app.
  pose proof (len_nonneg c). rewrite (proj2 (Z.ltb_ge _ _)) by lia. cbn.
  unfold len. by rewrite Nat2Z.id, drop_app_length.
Qed.

Lemma pad_of_range n : 0 ≤ pad_of n < 8.
Proof. unfold pad_of. change 7 with (Z.ones 3). rewrite Z.land_ones by lia. apply Z.mod_pos_bound. lia. Qed.

Lemma pad_of_aligns n : (n + pad_of n) mod 8 = 0.
Proof.
  unfold pad_of. change 7 with (Z.ones 3). rewrite !Z.land_ones by lia. change (2 ^ 3) with 8.
  rewrite Zplus_mod_idemp_r. replace (n + (8 - n mod 8)) with (n - n mod 8 + 1 * 8) by lia.
  rewrite Z.mod_add by lia. by rewrite Zminus_mod_idemp_r, Z.sub_diag.
Qed.

End Stream.

Module Contracts.
Import Rlp Stream.

Record Contract := mkContract { hash : Z; code : bytes; staged : bool }.

(** [staged_]: the (entry, owner row) pairs of this transaction's insertions. *)
Record Contracts := mkContracts {
  contracts_ : list Contract;
  index_ : gmap Z nat;
  staged_ : list (nat * nat) }.
Definition contracts0 : Contracts := mkContracts [] ∅ [].

Definition emplace (h : Z) (i : nat) (m : gmap Z nat) : gmap Z nat :=
  match m !! h with Some _ => m | None => <[h := i]> m end.

Section Contracts.
Context (keccak256 : bytes → Z).

(** ** Parsing *)

Fixpoint parse_loop (count : nat) (t : Contracts) (c : cursor) : res (Contracts * cursor) :=
  match count with
  | O => Ok (t, c)
  | S count =>
      '(size, c) ← read_u64_le c;
      let code := take (Z.to_nat size) c in
      c ← advance_checked size c;
      c ← align_to_u64 size c;
      let h := keccak256 code in
      parse_loop count
        (mkContracts (contracts_ t ++ [mkContract h code false])
           (emplace h (length (contracts_ t)) (index_ t)) (staged_ t)) c
  end.

Definition parse (c : cursor) : res (Contracts * cursor) :=
  '(count, c) ← read_u64_le c;
  _ ← fatal_if (stream_remaining c / 8 <? count) "Contracts: count exceeds input size";
  parse_loop (Z.to_nat count) contracts0 c.

(** ** Lookup *)

Definition index_of (h : Z) (t : Contracts) : res nat :=
  match index_ t !! h with
  | Some i => Ok i
  | None => Fatal "Contracts::index_of: code hash not present in the table"
  end.
Definition has (h : Z) (t : Contracts) : bool :=
  match index_ t !! h with Some _ => true | None => false end.
Definition by_hash (h : Z) (t : Contracts) : res Contract :=
  i ← index_of h t; vec_get (contracts_ t) i.

(** ** Runtime insertion *)

Definition insert (h : Z) (cd : bytes) (owner : nat) (t : Contracts) : res Contracts :=
  match index_ t !! h with
  | Some i =>
      c ← vec_get (contracts_ t) i;
      Ok (if staged c then mkContracts (contracts_ t) (index_ t) (staged_ t ++ [(i, owner)]) else t)
  | None =>
      let i := length (contracts_ t) in
      Ok (mkContracts (contracts_ t ++ [mkContract h cd true]) (<[h := i]> (index_ t))
            (staged_ t ++ [(i, owner)]))
  end.

(** ** End of a transaction *)

(** First loop: keep the code an owner still has. *)
Fixpoint settle_keep (code_hash_at : nat → res Z) (l : list (nat * nat)) (cs : list Contract)
    : res (list Contract) :=
  match l with
  | [] => Ok cs
  | (i, owner) :: l =>
      c ← vec_get cs i;
      cs ← (if staged c then
              h ← code_hash_at owner;
              Ok (if h =? hash c then <[i := mkContract (hash c) (code c) false]> cs else cs)
            else Ok cs);
      settle_keep code_hash_at l cs
  end.

(** Second loop: forget the rest. *)
Fixpoint settle_drop (l : list (nat * nat)) (cs : list Contract) (m : gmap Z nat)
    : res (list Contract * gmap Z nat) :=
  match l with
  | [] => Ok (cs, m)
  | (i, _) :: l =>
      c ← vec_get cs i;
      if staged c then settle_drop l (<[i := mkContract (hash c) [] false]> cs) (delete (hash c) m)
      else settle_drop l cs m
  end.

Definition settle_staged (code_hash_at : nat → res Z) (t : Contracts) : res Contracts :=
  cs ← settle_keep code_hash_at (staged_ t) (contracts_ t);
  '(cs, m) ← settle_drop (staged_ t) cs (index_ t);
  Ok (mkContracts cs m []).

(** ** The table invariant: what a hash resolves to hashes to it *)

Record contracts_ok (t : Contracts) : Prop := {
  co_index : ∀ h i, index_ t !! h = Some i →
    ∃ c, contracts_ t !! i = Some c ∧ hash c = h ∧ keccak256 (code c) = h;
  co_staged : ∀ i owner, (i, owner) ∈ staged_ t → (i < length (contracts_ t))%nat;
  co_flag : ∀ i c, contracts_ t !! i = Some c → staged c = true → ∃ o, (i, o) ∈ staged_ t;
  co_staged_index : ∀ i c, contracts_ t !! i = Some c → staged c = true →
    index_ t !! hash c = Some i }.

Lemma contracts_ok_empty : contracts_ok contracts0.
Proof.
  split; intros *; cbn; rewrite ?lookup_empty; try done. intros []%not_elem_of_nil.
Qed.

Lemma by_hash_sound t h c :
  contracts_ok t → by_hash h t = Ok c → keccak256 (code c) = h.
Proof.
  intros Ht. unfold by_hash, index_of. destruct (index_ t !! h) as [i|] eqn:E; [|done]. cbn.
  intros Hc%vec_get_Ok. destruct (co_index _ Ht _ _ E) as (c' & ? & ? & ?). by simplify_eq.
Qed.

Lemma insert_ok h cd owner t :
  contracts_ok t → keccak256 cd = h → ∃ t', insert h cd owner t = Ok t' ∧ contracts_ok t' ∧
    ∃ c, by_hash h t' = Ok c ∧ keccak256 (code c) = h.
Proof.
  intros Ht Hk. unfold insert. destruct (index_ t !! h) as [i|] eqn:E.
  - destruct (co_index _ Ht _ _ E) as (c & Hc & Hh & Hkc).
    unfold vec_get. rewrite Hc. cbn. eexists. split; [done|].
    assert (Hby : ∀ t', index_ t' = index_ t → contracts_ t' = contracts_ t → by_hash h t' = Ok c).
    { intros t' Ei Ec. unfold by_hash, index_of, vec_get. by rewrite Ei, E; cbn; rewrite Ec, Hc. }
    destruct (staged c) eqn:Es; (split; [|by exists c; split; [apply Hby|]]); [|done].
    destruct Ht as [H1 H2 H3 H4]. split; cbn; auto.
    + intros j o [?|[= -> ->]%list_elem_of_singleton]%elem_of_app; [eauto|].
      by eapply lookup_lt_Some.
    + intros j c' Hj Hs. destruct (H3 j c' Hj Hs) as [o Ho]. exists o. set_solver.
  - eexists. split; [done|]. destruct Ht as [H1 H2 H3 H4]. split.
    + split; cbn.
      * intros h' j [[<- <-]|[Hne Hj]]%lookup_insert_Some.
        { eexists. by rewrite list_lookup_middle. }
        destruct (H1 _ _ Hj) as (c & Hc & ?). exists c. split; [by apply lookup_app_l_Some|done].
      * intros j o [Ho|[= -> ->]%list_elem_of_singleton]%elem_of_app; rewrite length_app; cbn;
          [apply H2 in Ho|]; lia.
      * intros j c [Hj|[? [Hj <-]%list_lookup_singleton_Some]]%lookup_app_Some Hs.
        { destruct (H3 j c Hj Hs) as [o Ho]. exists o. set_solver. }
        exists owner. assert (j = length (contracts_ t)) as -> by lia. set_solver.
      * intros j c [Hj|[? [Hj <-]%list_lookup_singleton_Some]]%lookup_app_Some Hs; cbn.
        { rewrite lookup_insert_ne; [auto|]. intros Heq. rewrite Heq, (H4 j c) in E; done. }
        rewrite lookup_insert_eq. f_equal. lia.
    + eexists. unfold by_hash, index_of, vec_get. cbn. rewrite lookup_insert_eq. cbn.
      by rewrite list_lookup_middle.
Qed.

Lemma parse_loop_ok n : ∀ t c t' c',
  contracts_ok t → staged_ t = [] → parse_loop n t c = Ok (t', c') →
  contracts_ok t' ∧ staged_ t' = [].
Proof.
  induction n as [|n IH]; intros t c t' c' Ht Hs Hp; cbn in Hp; [by simplify_eq|].
  ok_inv. eapply IH; [|..|exact Hp]; [|done]. clear IH Hp. destruct Ht as [C1 C2 C3 C4].
  assert (Hns : ∀ i c, contracts_ t !! i = Some c → staged c = true → False).
  { intros i c0 Hi Hst. destruct (C3 i c0 Hi Hst) as [o Ho]. rewrite Hs in Ho. by apply not_elem_of_nil in Ho. }
  split; cbn.
  - unfold emplace. intros h i Hi. destruct (index_ t !! keccak256 _) eqn:E;
      [|apply lookup_insert_Some in Hi as [[<- <-]|[_ Hi]];
        [eexists; by rewrite list_lookup_middle|]];
      destruct (C1 _ _ Hi) as (k & Hk & ?); exists k; (split; [by apply lookup_app_l_Some|done]).
  - intros i o Ho. rewrite Hs in Ho. by apply not_elem_of_nil in Ho.
  - intros i c0 [Hi|[? [? <-]%list_lookup_singleton_Some]]%lookup_app_Some Hst; [|done].
    by destruct (Hns _ _ Hi Hst).
  - intros i c0 [Hi|[? [? <-]%list_lookup_singleton_Some]]%lookup_app_Some Hst; [|done].
    by destruct (Hns _ _ Hi Hst).
Qed.

(** *** Settlement *)

(** Some owner recorded for entry [i] still has hash [h]. *)
Definition owned (f : nat → Z) (l : list (nat * nat)) (i : nat) (h : Z) : Prop :=
  Exists (λ p, p.1 = i ∧ f p.2 = h) l.
#[export] Instance owned_dec f l i h : Decision (owned f l i h).
Proof. unfold owned. apply _. Defined.

Lemma settle_keep_spec g f l : ∀ cs,
  (∀ p, p ∈ l → (p.1 < length cs)%nat ∧ g p.2 = Ok (f p.2)) →
  ∃ cs', settle_keep g l cs = Ok cs' ∧ length cs' = length cs ∧
    ∀ i c, cs !! i = Some c → cs' !! i =
      Some (mkContract (hash c) (code c) (staged c && negb (bool_decide (owned f l i (hash c))))).
Proof.
  induction l as [|[i o] l IH]; intros cs Hl.
  - exists cs. split; [done|]. split; [done|]. intros i c Hc. rewrite Hc. f_equal.
    rewrite bool_decide_eq_false_2 by (by intros ?%Exists_nil). rewrite andb_true_r. by destruct c.
  - destruct (Hl (i, o)) as [Hi Ho]; [by left|]. cbn in Hi, Ho.
    destruct (lookup_lt_is_Some_2 _ _ Hi) as [c Hc]. cbn [settle_keep]. unfold vec_get.
    rewrite Hc. cbn [mbind res_bind].
    set (cs1 := if staged c && (f o =? hash c) then <[i := mkContract (hash c) (code c) false]> cs else cs).
    assert (E : (if staged c then h ← g o; Ok (if h =? hash c
        then <[i := mkContract (hash c) (code c) false]> cs else cs) else Ok cs) = Ok cs1).
    { unfold cs1. destruct (staged c); [|done]. rewrite Ho. cbn [mbind res_bind andb].
      by destruct (f o =? hash c). }
    rewrite E. cbn [mbind res_bind].
    assert (Hlen : length cs1 = length cs) by (unfold cs1; destruct (_ && _); [by rewrite length_insert|done]).
    destruct (IH cs1) as (cs' & -> & Hl' & Hcs').
    { intros p Hp. rewrite Hlen. apply Hl. by right. }
    exists cs'. split; [done|]. split; [lia|]. intros j d Hd.
    destruct (decide (i = j)) as [<-|Hij].
    + rewrite Hc in Hd. injection Hd as <-.
      assert (H1 : cs1 !! i = Some (mkContract (hash c) (code c) (staged c && negb (f o =? hash c)))).
      { unfold cs1. destruct (staged c) eqn:Es, (f o =? hash c); cbn;
          rewrite ?list_lookup_insert_eq by done; rewrite ?Hc; f_equal; destruct c; cbn in *; congruence. }
      rewrite (Hcs' _ _ H1). cbn. do 2 f_equal. rewrite <- andb_assoc. f_equal.
      rewrite <- negb_orb. f_equal. unfold owned. apply eq_bool_prop_intro.
      rewrite orb_True, !bool_decide_spec, Exists_cons, Is_true_true, Z.eqb_eq. cbn. naive_solver.
    + assert (H1 : cs1 !! j = Some d) by (unfold cs1; destruct (_ && _); [by rewrite list_lookup_insert_ne|done]).
      rewrite (Hcs' _ _ H1). do 4 f_equal. apply bool_decide_ext. unfold owned.
      rewrite Exists_cons. cbn. naive_solver.
Qed.

Lemma settle_drop_spec l : ∀ cs m,
  (∀ p, p ∈ l → (p.1 < length cs)%nat) →
  (∀ i c, cs !! i = Some c → staged c = true → m !! hash c = Some i) →
  (∀ h i, m !! h = Some i → hash <$> cs !! i = Some h) →
  ∃ cs' m', settle_drop l cs m = Ok (cs', m') ∧ length cs' = length cs ∧
    (∀ i c, cs !! i = Some c → cs' !! i =
       Some (if staged c && bool_decide (i ∈ l.*1) then mkContract (hash c) [] false else c)) ∧
    (∀ h, m' !! h = match m !! h with
       | Some i => match cs !! i with
                   | Some c => if staged c && bool_decide (i ∈ l.*1) then None else Some i
                   | None => Some i end
       | None => None end).
Proof.
  induction l as [|[i o] l IH]; intros cs m Hl Hm Hmi.
  - exists cs, m. split; [done|]. split; [done|]. cbn. split.
    + intros j c Hj. by rewrite andb_false_r.
    + intros h. destruct (m !! h) as [j|]; [|done]. destruct (cs !! j); [by rewrite andb_false_r|done].
  - assert (Hi : (i < length cs)%nat) by (apply (Hl (i, o)); by left).
    destruct (lookup_lt_is_Some_2 _ _ Hi) as [c Hc]. cbn [settle_drop]. unfold vec_get.
    rewrite Hc. cbn [mbind res_bind].
    assert (Hl' : ∀ p, p ∈ l → (p.1 < length cs)%nat) by (intros; apply Hl; by right).
    destruct (staged c) eqn:Es.
    + set (cs1 := <[i := mkContract (hash c) [] false]> cs).
      destruct (IH cs1 (delete (hash c) m)) as (cs' & m' & -> & Hlen & Hcs & Hmap).
      { unfold cs1. by rewrite length_insert. }
      { unfold cs1. intros j d. rewrite list_lookup_insert. case_decide; [by intros [= <-]|].
        intros Hd Hs. rewrite lookup_delete_ne; [auto|]. intros Heq.
        pose proof (Hm j d Hd Hs) as Hj. rewrite <- Heq, (Hm i c Hc Es) in Hj. naive_solver. }
      { unfold cs1. intros h j [_ Hj]%lookup_delete_Some. rewrite list_lookup_insert.
        case_decide as Hd; [|by apply Hmi]. destruct Hd as [-> _].
        apply Hmi in Hj. by rewrite Hc in Hj. }
      exists cs', m'. split; [done|]. split; [unfold cs1 in Hlen; by rewrite length_insert in Hlen|].
      split.
      * intros j d Hd. destruct (decide (i = j)) as [<-|Hij].
        { simplify_eq. rewrite Es, bool_decide_eq_true_2 by (cbn; left).
          rewrite (Hcs i (mkContract (hash c) [] false)); [done|].
          unfold cs1. by rewrite list_lookup_insert_eq. }
        rewrite (Hcs j d) by (unfold cs1; by rewrite list_lookup_insert_ne).
        rewrite (bool_decide_ext _ (j ∈ ((i, o) :: l).*1)); [done|].
        cbn. rewrite elem_of_cons. naive_solver.
      * intros h. rewrite Hmap, lookup_delete. case_decide as Hh.
        { subst h. rewrite (Hm i c Hc Es), Hc, Es. cbn. by rewrite bool_decide_eq_true_2 by left. }
        destruct (m !! h) as [j|] eqn:Ej; [|done]. unfold cs1. rewrite list_lookup_insert.
        rewrite decide_False; [|intros [<- _]; apply Hmi in Ej; rewrite Hc in Ej; naive_solver].
        destruct (cs !! j) as [d|] eqn:Ed; [|done].
        rewrite (bool_decide_ext _ (j ∈ ((i, o) :: l).*1)); [done|].
        cbn. rewrite elem_of_cons. split; [naive_solver|]. intros [->|]; [|done].
        apply Hmi in Ej. rewrite Hc in Ej. naive_solver.
    + destruct (IH cs m Hl' Hm Hmi) as (cs' & m' & -> & Hlen & Hcs & Hmap).
      assert (Hext : ∀ j d, cs !! j = Some d →
        staged d && bool_decide (j ∈ l.*1) = staged d && bool_decide (j ∈ ((i, o) :: l).*1)).
      { intros j d Hd. destruct (staged d) eqn:Ed; [|done]. cbn. apply bool_decide_ext.
        rewrite elem_of_cons. split; [naive_solver|]. intros [->|]; [|done]. congruence. }
      exists cs', m'. split; [done|]. split; [done|]. split.
      * intros j d Hd. by rewrite <- Hext, (Hcs j d Hd).
      * intros h. rewrite Hmap. destruct (m !! h) as [j|]; [|done].
        destruct (cs !! j) as [d|] eqn:Ed; [|done]. by rewrite <- (Hext j d).
Qed.

(** A hash's entry after settlement: still there unless it was staged and no
    owner has it any more. *)
Definition survives (f : nat → Z) (t : Contracts) (i : nat) (c : Contract) : bool :=
  negb (staged c) || bool_decide (owned f (staged_ t) i (hash c)).

Lemma settle_spec g f t :
  contracts_ok t → (∀ p, p ∈ staged_ t → g p.2 = Ok (f p.2)) →
  ∃ t', settle_staged g t = Ok t' ∧ staged_ t' = [] ∧
    length (contracts_ t') = length (contracts_ t) ∧
    (∀ i c, contracts_ t !! i = Some c → contracts_ t' !! i =
       Some (if survives f t i c then mkContract (hash c) (code c) false
             else mkContract (hash c) [] false)) ∧
    (∀ h, index_ t' !! h = match index_ t !! h with
       | Some i => match contracts_ t !! i with
                   | Some c => if survives f t i c then Some i else None
                   | None => Some i end
       | None => None end).
Proof.
  intros Ht Hg. destruct Ht as [H1 H2 H3 H4]. unfold settle_staged, survives.
  destruct (settle_keep_spec g f (staged_ t) (contracts_ t)) as (cs1 & -> & Hl1 & Hcs1).
  { intros [i o] Hp. split; [by eapply H2|by apply Hg]. }
  cbn [mbind res_bind].
  assert (Hback : ∀ i d, cs1 !! i = Some d → ∃ c, contracts_ t !! i = Some c ∧
    d = mkContract (hash c) (code c)
          (staged c && negb (bool_decide (owned f (staged_ t) i (hash c))))).
  { intros i d Hd. destruct (lookup_lt_is_Some_2 (contracts_ t) i) as [c Hc].
    { apply lookup_lt_Some in Hd. lia. }
    exists c. split; [done|]. rewrite (Hcs1 _ _ Hc) in Hd. by injection Hd as <-. }
  destruct (settle_drop_spec (staged_ t) cs1 (index_ t)) as (cs' & m' & -> & Hl' & Hcs' & Hm').
  { intros [i o] Hp. rewrite Hl1. by eapply H2. }
  { intros i d Hd Hs. destruct (Hback _ _ Hd) as (c & Hc & ->). cbn in *.
    apply andb_true_iff in Hs as [Hs _]. eauto. }
  { intros h i Hi. destruct (H1 _ _ Hi) as (c & Hc & <- & _). by rewrite (Hcs1 _ _ Hc). }
  cbn [mbind res_bind]. eexists. split; [done|]. split; [done|]. cbn. split; [lia|].
  assert (Hin : ∀ i c, contracts_ t !! i = Some c → staged c = true → i ∈ (staged_ t).*1).
  { intros i c Hc Hs. destruct (H3 i c Hc Hs) as [o Ho]. by apply (list_elem_of_fmap_2 fst) in Ho. }
  split.
  - intros i c Hc. rewrite (Hcs' _ _ (Hcs1 _ _ Hc)). cbn. f_equal.
    destruct (staged c) eqn:Es; cbn; [|done].
    rewrite (bool_decide_eq_true_2 (i ∈ _)) by eauto. rewrite andb_true_r.
    by destruct (bool_decide (owned _ _ _ _)).
  - intros h. rewrite Hm'. destruct (index_ t !! h) as [i|] eqn:Ei; [|done].
    destruct (H1 _ _ Ei) as (c & Hc & _ & _). rewrite Hc, (Hcs1 _ _ Hc). cbn.
    destruct (staged c) eqn:Es; cbn; [|done].
    rewrite (bool_decide_eq_true_2 (i ∈ _)) by eauto. rewrite andb_true_r.
    by destruct (bool_decide (owned _ _ _ _)).
Qed.

Lemma settle_ok g f t t' :
  contracts_ok t → (∀ p, p ∈ staged_ t → g p.2 = Ok (f p.2)) →
  settle_staged g t = Ok t' → contracts_ok t'.
Proof.
  intros Ht Hg Hs. destruct (settle_spec g f t Ht Hg) as (t0 & E & Hst & Hlen & Hcs & Hm).
  rewrite Hs in E. injection E as <-. destruct Ht as [H1 H2 H3 H4].
  assert (Hback : ∀ i d, contracts_ t' !! i = Some d → staged d = false).
  { intros i d Hd. destruct (lookup_lt_is_Some_2 (contracts_ t) i) as [c Hc].
    { apply lookup_lt_Some in Hd. lia. }
    rewrite (Hcs _ _ Hc) in Hd. injection Hd as <-. by destruct (survives f t i c). }
  split.
  - intros h i. rewrite Hm. destruct (index_ t !! h) as [j|] eqn:Ej; [|done].
    destruct (H1 _ _ Ej) as (c & Hc & Hh & Hk). rewrite Hc.
    destruct (survives f t j c) eqn:Esv; [intros [= <-]|done].
    rewrite (Hcs _ _ Hc), Esv. by eexists.
  - rewrite Hst. by intros i o ?%not_elem_of_nil.
  - intros i c Hc Hs'. by rewrite (Hback _ _ Hc) in Hs'.
  - intros i c Hc Hs'. by rewrite (Hback _ _ Hc) in Hs'.
Qed.

(** The life of the table: code installed at run time under its own hash, and
    the settlements between transactions, with the account rows' code hashes of
    the moment. *)
Inductive op := OpInsert (cd : bytes) (owner : nat) | OpSettle (f : nat → Z).

Definition run_op (o : op) (t : Contracts) : res Contracts :=
  match o with
  | OpInsert cd owner => insert (keccak256 cd) cd owner t
  | OpSettle f => settle_staged (λ i, Ok (f i)) t
  end.
Fixpoint run_ops (l : list op) (t : Contracts) : res Contracts :=
  match l with
  | [] => Ok t
  | o :: l => t ← run_op o t; run_ops l t
  end.

Lemma run_ops_ok l : ∀ t, contracts_ok t → ∃ t', run_ops l t = Ok t' ∧ contracts_ok t'.
Proof.
  induction l as [|o l IH]; intros t Ht; [by exists t|]. cbn [run_ops].
  assert (∃ t', run_op o t = Ok t' ∧ contracts_ok t') as (t1 & -> & Ht1).
  { destruct o as [cd owner|f]; cbn.
    - destruct (insert_ok (keccak256 cd) cd owner t Ht eq_refl) as (t' & ? & ? & _). eauto.
    - destruct (settle_spec (λ i, Ok (f i)) f t Ht) as (t' & E & _); [done|].
      exists t'. split; [done|]. by apply (settle_ok (λ i, Ok (f i)) f t). }
  cbn. by apply IH.
Qed.

(** C32. Code lookups are sound. Whatever table the guest parses from its input
    and however deployments and settlements follow, every step succeeds and
    every code the table returns for a hash is a preimage of that hash: no input
    and no sequence of deployments makes the guest execute code that does not
    match the account's code hash. *)
Theorem code_lookup_sound (c c' : cursor) (t : Contracts) (l : list op) :
  parse c = Ok (t, c') →
  ∃ t', run_ops l t = Ok t' ∧ ∀ h k, by_hash h t' = Ok k → keccak256 (code k) = h.
Proof.
  intros Hp. assert (Ht : contracts_ok t).
  { unfold parse in Hp. ok_inv.
    by apply (parse_loop_ok _ _ _ _ _ contracts_ok_empty eq_refl) in Hp as [? _]. }
  destruct (run_ops_ok l t Ht) as (t' & ? & Ht'). exists t'. split; [done|].
  intros h k. by apply by_hash_sound.
Qed.

(** Settlement keeps exactly the live code. After [settle_staged] nothing
    is staged; code from the input or from earlier transactions is untouched;
    code deployed in this transaction still resolves iff some account it was
    installed on still has its hash, and then to the same bytes, otherwise the
    hash is unknown. *)
Theorem settle_exact (f : nat → Z) (t : Contracts) (h : Z) (i : nat) (k : Contract) :
  contracts_ok t → index_ t !! h = Some i → contracts_ t !! i = Some k →
  ∃ t', settle_staged (λ i, Ok (f i)) t = Ok t' ∧ contracts_ok t' ∧ staged_ t' = [] ∧
    (staged k = false ∨ owned f (staged_ t) i h → by_hash h t' = Ok (mkContract h (code k) false)) ∧
    (staged k = true → ¬ owned f (staged_ t) i h → has h t' = false).
Proof.
  intros Ht Hi Hk. destruct (settle_spec (λ i, Ok (f i)) f t Ht) as (t' & E & Hst & Hl & Hcs & Hm);
    [done|].
  exists t'. split; [done|]. split; [by apply (settle_ok (λ i, Ok (f i)) f t)|]. split; [done|].
  destruct (co_index _ Ht _ _ Hi) as (k' & Hk' & Hh & _). simplify_eq.
  specialize (Hm (hash k)). rewrite Hi, Hk in Hm. specialize (Hcs _ _ Hk).
  unfold survives in Hm, Hcs. unfold by_hash, index_of, has, vec_get. rewrite Hm.
  destruct (staged k) eqn:Es; cbn in *.
  - split; [intros [?|Ho]; [done|]|intros _ Ho].
    + rewrite bool_decide_eq_true_2 in * by done. cbn. by rewrite Hcs.
    + by rewrite bool_decide_eq_false_2.
  - split; [intros _; by rewrite Hcs|done].
Qed.

End Contracts.

(** A toy digest for the examples: the sum of the bytes. *)
Definition toy_hash (b : bytes) : Z := foldl (λ a x, a + b2z x) 0 b.

Lemma code_lookup_sound_witness :
  ∃ t t', parse toy_hash (put_u64_le 1 ++ put_u64_le 2 ++ put_padded [Byte.x01; Byte.x02]) = Ok (t, []) ∧
    run_ops toy_hash [OpInsert [Byte.x07] 0%nat; OpSettle (λ _, 7)] t = Ok t' ∧
    ∀ h k, by_hash h t' = Ok k → toy_hash (code k) = h.
Proof.
  eexists. destruct (code_lookup_sound toy_hash
    (put_u64_le 1 ++ put_u64_le 2 ++ put_padded [Byte.x01; Byte.x02]) []
    (mkContracts [mkContract 3 [Byte.x01; Byte.x02] false] {[3 := 0%nat]} [])
    [OpInsert [Byte.x07] 0%nat; OpSettle (λ _, 7)]) as (t' & H1 & H2).
  - vm_compute. reflexivity.
  - exists t'. split; [vm_compute; reflexivity|]. split; [exact H1|exact H2].
Defined.

Lemma settle_exact_witness :
  ∃ t', settle_staged (λ _, Ok 7)
          (mkContracts [mkContract 7 [Byte.x07] true] {[7 := 0%nat]} [(0%nat, 4%nat)]) = Ok t' ∧
    by_hash 7 t' = Ok (mkContract 7 [Byte.x07] false).
Proof.
  destruct (settle_exact toy_hash (λ _, 7)
    (mkContracts [mkContract 7 [Byte.x07] true] {[7 := 0%nat]} [(0%nat, 4%nat)]) 7 0
    (mkContract 7 [Byte.x07] true)) as (t' & H1 & _ & _ & H4 & _).
  - split; cbn.
    + intros h i [<- <-]%lookup_singleton_Some. by eexists.
    + intros i o [= -> ->]%list_elem_of_singleton. lia.
    + intros [|i] c; [|by destruct i]. intros [= <-] _. exists 4%nat. by left.
    + intros [|i] c; [|by destruct i]. by intros [= <-] _.
  - reflexivity.
  - reflexivity.
  - exists t'. split; [exact H1|]. apply H4. right. by left.
Defined.

End Contracts.
