(* ===== verification/Chain.v ===== *)
(** Block headers and the ancestor chain ([src/block_header.cpp],
    [src/previous_blocks.cpp] and their headers): the RLP of a header, the
    768-byte ancestor records of the input, the verification of the parent
    links, and the lookup behind BLOCKHASH.  keccak256 is a parameter. *)

From stdpp Require Import base numbers list strings gmap.
From S2P Require Import Prelude Fork Rlp Contracts.

Module Chain.
Import Fork Rlp Stream.

(** ** Headers *)

Record BlockHeader := mkHeader {
  parent_hash : Z;
  ommers_hash : Z;
  coinbase : Z;
  state_root : Z;
  transactions_root : Z;
  receipts_root : Z;
  logs_bloom : bytes;
  difficulty : Z;
  number : Z;
  gas_limit : Z;
  gas_used : Z;
  timestamp : Z;
  extra_data : bytes;
  prev_randao : Z;
  nonce : bytes;
  base_fee_per_gas : Z;
  withdrawals_root : Z;
  blob_gas_used : Z;
  excess_blob_gas : Z;
  parent_beacon_block_root : Z;
  requests_hash : Z;
  block_access_list_hash : Z;
  slot_number : Z;
  h_fork_id : Z }.

Definition encode_block_header_rlp (h : BlockHeader) : bytes :=
  let field_count := fork_field_count (h_fork_id h) in
  let payload :=
    encode (be_bytes 32 (parent_hash h)) ++
    encode (be_bytes 32 (ommers_hash h)) ++
    encode (be_bytes 20 (coinbase h)) ++
    encode (be_bytes 32 (state_root h)) ++
    encode (be_bytes 32 (transactions_root h)) ++
    encode (be_bytes 32 (receipts_root h)) ++
    encode (logs_bloom h) ++
    encode_u256 (difficulty h) ++
    encode_u64 (number h) ++
    encode_u64 (gas_limit h) ++
    encode_u64 (gas_used h) ++
    encode_u64 (timestamp h) ++
    encode (extra_data h) ++
    encode (be_bytes 32 (prev_randao h)) ++
    encode (nonce h) ++
    (if 16 <=? field_count then encode_u256 (base_fee_per_gas h) else []) ++
    (if 17 <=? field_count then encode (be_bytes 32 (withdrawals_root h)) else []) ++
    (if 20 <=? field_count then
       encode_u64 (blob_gas_used h) ++ encode_u64 (excess_blob_gas h) ++
       encode (be_bytes 32 (parent_beacon_block_root h)) else []) ++
    (if 21 <=? field_count then encode (be_bytes 32 (requests_hash h)) else []) ++
    (if 23 <=? field_count then
       encode (be_bytes 32 (block_access_list_hash h)) ++ encode_u64 (slot_number h) else []) in
  encode_list_payload payload.

(** ** Ancestor records *)

Definition kRecordSize : Z := 768.

(** A record's bytes; the accessors read fixed offsets. *)
Abbreviation View := bytes.

Definition field (off n : Z) (v : View) : bytes := slice v off (off + n).
Definition hash_at (off : Z) (v : View) : Z := be_val (field off 32 v).
Definition u64_at (off : Z) (v : View) : Z := le_val (field off 8 v).

Definition view_number (v : View) : Z := u64_at 472 v.
Definition view_parent_hash (v : View) : Z := hash_at 0 v.
Definition view_state_root (v : View) : Z := hash_at 88 v.
Definition view_field_count (v : View) : Z := le_val (field 84 4 v).
Definition view_extra_data_len (v : View) : Z := u64_at 504 v.
Definition view_extra_data (v : View) : bytes := field 512 (view_extra_data_len v) v.

Definition header_of_view (v : View) : BlockHeader :=
  mkHeader (view_parent_hash v) (hash_at 32 v) (be_val (field 64 20 v)) (view_state_root v)
    (hash_at 120 v) (hash_at 152 v) (field 184 256 v) (hash_at 440 v) (view_number v)
    (u64_at 480 v) (u64_at 488 v) (u64_at 496 v) (view_extra_data v) (hash_at 544 v)
    (field 576 8 v) (hash_at 584 v) (hash_at 616 v) (u64_at 648 v) (u64_at 656 v)
    (hash_at 664 v) (hash_at 696 v) (hash_at 728 v) (u64_at 760 v)
    (fork_from_field_count (view_field_count v)).

Record PreviousBlocks := mkBlocks { views_ : list View; hashes_ : list Z }.

Section Hash.
Context (keccak256 : bytes → Z).

Definition compute_block_header_hash (h : BlockHeader) : Z := keccak256 (encode_block_header_rlp h).
Definition compute_header_hash (v : View) : Z := compute_block_header_hash (header_of_view v).

(** The record loop: a record whose extra_data is too long is rejected before it
    is hashed. *)
Fixpoint read_records (n : nat) (records : bytes) : res (list View * list Z) :=
  match n with
  | O => Ok ([], [])
  | S n =>
      let v := take (Z.to_nat kRecordSize) records in
      _ ← fatal_if (32 <? view_extra_data_len v) "PreviousBlocks: ancestor extra_data_len > 32";
      '(vs, hs) ← read_records n (drop (Z.to_nat kRecordSize) records);
      Ok (v :: vs, compute_header_hash v :: hs)
  end.

(** Every adjacent pair: numbers descend by one, the parent hash matches.  The
    successor is the 64-bit [number() + 1]. *)
Fixpoint check_links (vs : list View) (hs : list Z) : res unit :=
  match vs, hs with
  | v :: ((v' :: _) as vs), _ :: ((h' :: _) as hs) =>
      _ ← fatal_if (negb (view_number v =? u64 (view_number v' + 1)))
            "PreviousBlocks: ancestor chain is not contiguous";
      _ ← fatal_if (negb (view_parent_hash v =? h'))
            "PreviousBlocks: ancestor chain parent_hash link broken";
      check_links vs hs
  | _, _ => Ok tt
  end.

Definition previous_blocks (c : cursor) : res (PreviousBlocks * cursor) :=
  '(count, c) ← read_u64_le c;
  _ ← fatal_if (stream_remaining c / kRecordSize <? count) "PreviousBlocks: count exceeds input size";
  _ ← fatal_if (256 <? count) "PreviousBlocks: more than 256 ancestor records";
  '(vs, hs) ← read_records (Z.to_nat count) c;
  c ← advance_checked (count * kRecordSize) c;
  _ ← check_links vs hs;
  Ok (mkBlocks vs hs, c).

End Hash.

(** Direct index: the record of [number] sits at [newest - number]. *)
Definition hash_of_number (number : Z) (t : PreviousBlocks) : option Z :=
  match views_ t with
  | [] => None
  | v0 :: _ =>
      let newest := view_number v0 in
      if newest <? number then None else
      let idx := newest - number in
      if Z.of_nat (length (views_ t)) <=? idx then None else
      match views_ t !! Z.to_nat idx, hashes_ t !! Z.to_nat idx with
      | Some v, Some h => if negb (view_number v =? number) then None else Some h
      | _, _ => None
      end
  end.

(** ** The header encoding determines the header's fields *)

(** The string payloads of a header's fields, as many as its fork has. *)
Definition all_fields (h : BlockHeader) : list bytes :=
  [be_bytes 32 (parent_hash h); be_bytes 32 (ommers_hash h); be_bytes 20 (coinbase h);
   be_bytes 32 (state_root h); be_bytes 32 (transactions_root h); be_bytes 32 (receipts_root h);
   logs_bloom h; be_trim (difficulty h); be_trim (number h); be_trim (gas_limit h);
   be_trim (gas_used h); be_trim (timestamp h); extra_data h; be_bytes 32 (prev_randao h); nonce h;
   be_trim (base_fee_per_gas h); be_bytes 32 (withdrawals_root h); be_trim (blob_gas_used h);
   be_trim (excess_blob_gas h); be_bytes 32 (parent_beacon_block_root h);
   be_bytes 32 (requests_hash h); be_bytes 32 (block_access_list_hash h); be_trim (slot_number h)].
Definition header_fields (h : BlockHeader) : list bytes :=
  take (Z.to_nat (fork_field_count (h_fork_id h))) (all_fields h).

Record header_wf (h : BlockHeader) : Prop := {
  hw_difficulty : in_u256 (difficulty h);
  hw_number : in_u64 (number h);
  hw_gas_limit : in_u64 (gas_limit h);
  hw_gas_used : in_u64 (gas_used h);
  hw_timestamp : in_u64 (timestamp h);
  hw_base_fee : in_u256 (base_fee_per_gas h);
  hw_blob_gas_used : in_u64 (blob_gas_used h);
  hw_excess : in_u64 (excess_blob_gas h);
  hw_slot : in_u64 (slot_number h);
  hw_bloom : length (logs_bloom h) = 256%nat;
  hw_extra : (length (extra_data h) ≤ 32)%nat;
  hw_nonce : length (nonce h) = 8%nat }.

Lemma encode_u64_trim v : in_u64 v → encode_u64 v = encode (be_trim v).
Proof. intros Hv. unfold encode_u64. by rewrite u64_bytes. Qed.
Lemma encode_u256_trim v : in_u256 v → encode_u256 v = encode (be_trim v).
Proof. intros Hv. unfold encode_u256. by rewrite u256_bytes. Qed.

Lemma fork_field_cases f :
  fork_field_count f ∈ [15; 16; 17; 20; 21; 23].
Proof. unfold fork_field_count. repeat case_match; set_solver. Qed.

Lemma encode_header_fields h :
  header_wf h → encode_block_header_rlp h = encode_list_payload (concat (map encode (header_fields h))).
Proof.
  intros [? ? ? ? ? ? ? ? ? _ _ _]. unfold encode_block_header_rlp, header_fields.
  rewrite !encode_u256_trim, !encode_u64_trim by done. f_equal.
  pose proof (fork_field_cases (h_fork_id h)) as Hc. rewrite !elem_of_cons in Hc.
  unfold all_fields.
  destruct Hc as [->|[->|[->|[->|[->|[->|Hc]]]]]]; [..|by apply elem_of_nil in Hc];
    match goal with |- context [Z.to_nat ?n] =>
      let k := eval vm_compute in (Z.to_nat n) in change (Z.to_nat n) with k end;
    cbn [take map concat Z.leb Z.compare Pos.compare Pos.compare_cont];
    rewrite ?app_nil_r, <- ?app_assoc; reflexivity.
Qed.

Lemma len_be_trim n v : 0 ≤ v < 256 ^ Z.of_nat n → (length (be_trim v) ≤ n)%nat.
Proof. intros Hv. unfold be_trim. rewrite length_be_bytes. by apply be_width_le. Qed.

Lemma header_fields_short h : header_wf h → Forall (λ f, len f ≤ 256) (header_fields h).
Proof.
  intros Hw. apply Forall_take. destruct Hw as [D N G U T B BG E S Hb He Hn].
  unfold in_u64, in_u256 in *.
  assert (T32 : ∀ v, 0 ≤ v < 2 ^ 256 → len (be_trim v) ≤ 256)
    by (intros v Hv; pose proof (len_be_trim 32 v Hv); unfold len; lia).
  assert (T8 : ∀ v, 0 ≤ v < 2 ^ 64 → len (be_trim v) ≤ 256)
    by (intros v Hv; pose proof (len_be_trim 8 v Hv); unfold len; lia).
  unfold all_fields. repeat (apply Forall_cons_2; [|]); try (by apply Forall_nil);
    try (unfold len; rewrite length_be_bytes; lia); auto; unfold len; lia.
Qed.

Lemma len_encode_bound p : len p ≤ 256 → len (encode p) ≤ 266.
Proof.
  intros Hp. unfold encode. destruct (_ && _); [unfold len; cbn; lia|].
  rewrite len_app. change (append_header 128 183 [] (len p)) with (header 128 183 (len p)).
  pose proof (len_nonneg p). pose proof (header_length 128 183 (len p) ltac:(lia)). unfold len at 1. lia.
Qed.

Lemma len_fields_bound fs :
  Forall (λ f, len f ≤ 256) fs → len (concat (map encode fs)) ≤ 266 * Z.of_nat (length fs).
Proof.
  induction 1 as [|f fs Hf HF IH]; [done|]. cbn [map concat]. rewrite len_app.
  pose proof (len_encode_bound f Hf). cbn [length]. lia.
Qed.

(** Two headers with the same encoding have the same fields. *)
Lemma header_fields_inj h h' :
  header_wf h → header_wf h' → encode_block_header_rlp h = encode_block_header_rlp h' →
  header_fields h = header_fields h'.
Proof.
  intros Hw Hw'. rewrite !encode_header_fields by done. intros E.
  assert (B : ∀ x, header_wf x → len (concat (map encode (header_fields x))) < 2 ^ 32).
  { intros x Hx. pose proof (len_fields_bound _ (header_fields_short x Hx)) as Hl.
    assert (length (header_fields x) ≤ 23)%nat by (unfold header_fields; rewrite length_take; cbn; lia). lia. }
  pose proof (decode_enc List (concat (map encode (header_fields h))) [] (B h Hw)) as D1.
  pose proof (decode_enc List (concat (map encode (header_fields h'))) [] (B h' Hw')) as D2.
  cbn [enc] in D1, D2. rewrite E in D1. rewrite D1 in D2. injection D2 as D2.
  assert (X : ∀ fs, Forall (λ f, len f ≤ 256) fs →
    all_items (concat (map encode fs)) = Ok (map (λ p, mkItem String (encode p) p) fs)).
  { intros fs HF. pose proof (drain_enc (length (concat (map encode fs))) (map (pair String) fs)) as Hd.
    rewrite !map_map in Hd. cbn [fst snd enc] in Hd. apply Hd; [|done].
    apply Forall_map. eapply Forall_impl; [exact HF|]. cbn. intros f Hf. lia. }
  pose proof (X _ (header_fields_short h Hw)) as X1. pose proof (X _ (header_fields_short h' Hw')) as X2.
  rewrite <- D2 in X2. rewrite X1 in X2. apply Ok_inj in X2.
  apply (f_equal (map payload)) in X2. by rewrite !map_map, !map_id in X2.
Qed.

Lemma be_trim_inj v v' : 0 ≤ v → 0 ≤ v' → be_trim v = be_trim v' → v = v'.
Proof. intros Hv Hv' E. rewrite <- (be_val_trim v Hv), <- (be_val_trim v' Hv'). by rewrite E. Qed.

Lemma same_encoding h h' :
  header_wf h → header_wf h' → in_u256 (parent_hash h) → in_u256 (parent_hash h') →
  encode_block_header_rlp h = encode_block_header_rlp h' →
  parent_hash h = parent_hash h' ∧ number h = number h'.
Proof.
  intros Hw Hw' Hp Hp' E. pose proof (header_fields_inj h h' Hw Hw' E) as F. unfold header_fields in F.
  assert (G : ∀ x, (15 ≤ Z.to_nat (fork_field_count (h_fork_id x)))%nat).
  { intros x. pose proof (fork_field_cases (h_fork_id x)) as Hc. rewrite !elem_of_cons in Hc.
    destruct Hc as [->|[->|[->|[->|[->|[->|Hc]]]]]]; [..|by apply elem_of_nil in Hc]; lia. }
  apply (f_equal (take 15)) in F. rewrite !take_take, !Nat.min_l in F by apply G. cbn [take all_fields] in F.
  pose proof (f_equal (λ l, nth 0 l []) F) as F1. pose proof (f_equal (λ l, nth 8 l []) F) as F9.
  cbn [nth] in F1, F9. split.
  - apply (f_equal be_val) in F1. by rewrite !be_val_be_bytes_small in F1.
  - apply be_trim_inj in F9; [done|apply Hw|apply Hw'].
Qed.

(** ** The verified chain *)

Lemma length_field off n v :
  0 ≤ off → 0 ≤ n → off + n ≤ len v → length (field off n v) = Z.to_nat n.
Proof. intros. unfold field. rewrite length_slice by (unfold len in *; lia). f_equal. lia. Qed.

Lemma u64_at_range off v : 0 ≤ off → off + 8 ≤ len v → in_u64 (u64_at off v).
Proof.
  intros Ho Hl. pose proof (le_val_bound (field off 8 v)) as H. rewrite length_field in H by lia. exact H.
Qed.
Lemma hash_at_range off v : 0 ≤ off → off + 32 ≤ len v → in_u256 (hash_at off v).
Proof.
  intros Ho Hl. pose proof (be_val_bound (field off 32 v)) as H. rewrite length_field in H by lia. exact H.
Qed.

(** A whole record with a legal extra_data length. *)
Definition view_ok (v : View) : Prop := len v = kRecordSize ∧ view_extra_data_len v ≤ 32.

Lemma view_header_wf v : view_ok v → header_wf (header_of_view v).
Proof.
  intros [Hl He]. change kRecordSize with 768 in Hl.
  assert (0 ≤ view_extra_data_len v) by (apply u64_at_range; lia).
  split; cbn; try (apply u64_at_range; lia); try (apply hash_at_range; lia);
    try (rewrite length_field; lia). unfold view_extra_data. rewrite length_field; lia.
Qed.

Section Verified.
Context (keccak256 : bytes → Z).
Abbreviation header_hash := (compute_header_hash keccak256).

Record valid_chain (t : PreviousBlocks) : Prop := {
  vc_hashes : hashes_ t = map header_hash (views_ t);
  vc_views : Forall view_ok (views_ t);
  vc_links i v v' : views_ t !! i = Some v → views_ t !! S i = Some v' →
    view_number v = u64 (view_number v' + 1) ∧ view_parent_hash v = header_hash v' }.

Lemma read_records_spec n : ∀ rec vs hs,
  Z.of_nat n * kRecordSize ≤ len rec → read_records keccak256 n rec = Ok (vs, hs) →
  hs = map header_hash vs ∧ Forall view_ok vs.
Proof.
  induction n as [|n IH]; intros rec vs hs Hl H; cbn [read_records] in H.
  { injection H as <- <-. done. }
  change kRecordSize with 768 in *. ok_inv.
  match goal with H : read_records _ _ _ = _ |- _ => apply IH in H as [-> HF] end.
  - split; [done|]. apply Forall_cons_2; [|done]. apply Z.ltb_ge in H0. split; [|done].
    unfold len in *. rewrite length_take. change kRecordSize with 768. lia.
  - unfold len in *. rewrite length_drop. change kRecordSize with 768. lia.
Qed.

Lemma check_links_spec vs :
  check_links vs (map header_hash vs) = Ok tt →
  ∀ i v v', vs !! i = Some v → vs !! S i = Some v' →
    view_number v = u64 (view_number v' + 1) ∧ view_parent_hash v = header_hash v'.
Proof.
  induction vs as [|a vs IH]; intros H i v v' Hi Hi'; [done|].
  destruct vs as [|b vs]; [done|]. cbn [map] in H. cbn [check_links] in H. ok_inv.
  apply negb_false_iff, Z.eqb_eq in H0. apply negb_false_iff, Z.eqb_eq in H1.
  destruct i as [|i]; [cbn in Hi, Hi'; by simplify_eq|]. by eapply IH.
Qed.

Lemma previous_blocks_valid c t c' : previous_blocks keccak256 c = Ok (t, c') → valid_chain t.
Proof.
  intros H. unfold previous_blocks in H. ok_inv.
  match goal with H : (_ <? _) = false |- _ => apply Z.ltb_ge in H end.
  match goal with H : read_records _ _ _ = Ok (?vs, ?hs) |- _ => apply read_records_spec in H as [-> HF] end.
  - match goal with H : check_links _ _ = Ok _ |- _ => pose proof (check_links_spec _ H) as HL end.
    split; cbn; done.
  - match goal with H : read_u64_le _ = Ok (?n, ?r) |- _ =>
      assert (0 ≤ n) by (unfold read_u64_le in H; ok_inv; apply le_val_bound) end.
    unfold stream_remaining in *. change kRecordSize with 768 in *.
    rewrite Z2Nat.id by done. pose proof (Z.mul_div_le (len l) 768 ltac:(lia)). lia.
Qed.

Lemma chain_view_ok t i v : valid_chain t → views_ t !! i = Some v → view_ok v.
Proof. intros Ht Hv. exact (Forall_lookup_1 _ _ _ _ (vc_views _ Ht) Hv). Qed.

Lemma chain_hash t i v : valid_chain t → views_ t !! i = Some v → hashes_ t !! i = Some (header_hash v).
Proof.
  intros Ht Hv. rewrite (vc_hashes _ Ht). change (map header_hash (views_ t)) with (header_hash <$> views_ t).
  by rewrite list_lookup_fmap, Hv.
Qed.



(** Two different inputs with the same hash. *)
Definition collision : Prop := ∃ x y, x ≠ y ∧ keccak256 x = keccak256 y.

Lemma same_hash v v' :
  view_ok v → view_ok v' → header_hash v = header_hash v' →
  (view_parent_hash v = view_parent_hash v' ∧ view_number v = view_number v') ∨ collision.
Proof.
  intros Hv Hv' E.
  destruct (decide (encode_block_header_rlp (header_of_view v) =
                    encode_block_header_rlp (header_of_view v'))) as [Ee|Ne].
  - left. apply (same_encoding _ _ (view_header_wf v Hv) (view_header_wf v' Hv')); [..|exact Ee];
      apply hash_at_range; try lia; [destruct Hv as [-> _]|destruct Hv' as [-> _]]; done.
  - right. by exists (encode_block_header_rlp (header_of_view v)),
      (encode_block_header_rlp (header_of_view v')).
Qed.

(** Chains that agree on the parent's hash agree all the way down. *)
Lemma chains_agree t t' i v v' w w' :
  valid_chain t → valid_chain t' →
  views_ t !! 0%nat = Some v → views_ t' !! 0%nat = Some v' → header_hash v = header_hash v' →
  views_ t !! i = Some w → views_ t' !! i = Some w' → header_hash w = header_hash w' ∨ collision.
Proof.
  intros Ht Ht' Hv Hv' E. revert w w'. induction i as [|i IH]; intros w w' Hw Hw'; [left; by simplify_eq|].
  destruct (lookup_lt_is_Some_2 (views_ t) i) as [x Hx]; [apply lookup_lt_Some in Hw; lia|].
  destruct (lookup_lt_is_Some_2 (views_ t') i) as [x' Hx']; [apply lookup_lt_Some in Hw'; lia|].
  destruct (IH x x' Hx Hx') as [Eh|]; [|by right].
  destruct (same_hash x x' (chain_view_ok _ _ _ Ht Hx) (chain_view_ok _ _ _ Ht' Hx') Eh) as [[Ep _]|]; [|by right].
  left. destruct (vc_links _ Ht i x w Hx Hw) as [_ <-]. destruct (vc_links _ Ht' i x' w' Hx' Hw') as [_ <-].
  done.
Qed.

(** What the lookup returns. *)
Lemma hash_of_number_inv t n h :
  valid_chain t → hash_of_number n t = Some h →
  ∃ v0 v, views_ t !! 0%nat = Some v0 ∧ n ≤ view_number v0 ∧
    views_ t !! Z.to_nat (view_number v0 - n) = Some v ∧ view_number v = n ∧ h = header_hash v.
Proof.
  intros Ht. unfold hash_of_number. destruct (views_ t) as [|v0 vs] eqn:Ev; [done|]. rewrite <- Ev.
  destruct (Z.ltb_spec (view_number v0) n) as [|Hn]; [done|].
  destruct (Z.leb_spec (Z.of_nat (length (views_ t))) (view_number v0 - n)); [done|].
  destruct (views_ t !! Z.to_nat (view_number v0 - n)) as [v|] eqn:Hv; [|done].
  rewrite (chain_hash _ _ _ Ht Hv). destruct (Z.eqb_spec (view_number v) n) as [En|]; [|done].
  intros [= <-]. exists v0, v. rewrite Ev at 1. done.
Qed.


End Verified.


(** A record of zeroes but for its number. *)
Definition sample_record (n : Z) : bytes :=
  replicate 472 Byte.x00 ++ le_bytes 8 n ++ replicate 288 Byte.x00.
Definition sample_input : bytes :=
  put_u64_le 2 ++ sample_record 100 ++ sample_record 99 ++ [Byte.x07].

Definition sample_chain (hash : bytes → Z) : PreviousBlocks :=
  mkBlocks [sample_record 100; sample_record 99]
    [compute_header_hash hash (sample_record 100); compute_header_hash hash (sample_record 99)].


(** C36.  BLOCKHASH cannot be forged: two accepted inputs whose newest record has
    the same hash (the committed parent hash) give the same answer for every
    block number they both answer, unless they exhibit a keccak256 collision. *)
Theorem blockhash_unforgeable keccak256 c1 t1 r1 c2 t2 r2 n h1 h2 :
  previous_blocks keccak256 c1 = Ok (t1, r1) → previous_blocks keccak256 c2 = Ok (t2, r2) →
  hashes_ t1 !! 0%nat = hashes_ t2 !! 0%nat →
  hash_of_number n t1 = Some h1 → hash_of_number n t2 = Some h2 →
  h1 = h2 ∨ ∃ x y, x ≠ y ∧ keccak256 x = keccak256 y.
Proof.
  intros H1 H2 E F1 F2. pose proof (previous_blocks_valid _ _ _ _ H1) as V1.
  pose proof (previous_blocks_valid _ _ _ _ H2) as V2.
  destruct (hash_of_number_inv _ _ _ _ V1 F1) as (a1 & v1 & Ha1 & _ & Hv1 & _ & ->).
  destruct (hash_of_number_inv _ _ _ _ V2 F2) as (a2 & v2 & Ha2 & _ & Hv2 & _ & ->).
  rewrite (chain_hash _ _ _ _ V1 Ha1), (chain_hash _ _ _ _ V2 Ha2) in E. injection E as E.
  destruct (same_hash keccak256 a1 a2 (chain_view_ok _ _ _ _ V1 Ha1) (chain_view_ok _ _ _ _ V2 Ha2) E)
    as [[_ En]|Hc]; [|by right].
  rewrite <- En in Hv2. exact (chains_agree keccak256 t1 t2 _ a1 a2 v1 v2 V1 V2 Ha1 Ha2 E Hv1 Hv2).
Qed.

Lemma blockhash_unforgeable_witness :
  (0 = 0 ∨ ∃ x y : bytes, x ≠ y ∧ (λ _, 0) x = (λ _, 0) y).
Proof.
  apply (blockhash_unforgeable (λ _, 0) sample_input (sample_chain (λ _, 0)) [Byte.x07]
    (sample_input ++ [Byte.x01]) (sample_chain (λ _, 0)) [Byte.x07; Byte.x01] 99 0 0);
    vm_compute; reflexivity.
Defined.

End Chain.
