(* ===== verification/CreateAddress.v ===== *)
(** Address derivation of CREATE and CREATE2 ([src/create_address.cpp]): the low
    20 bytes of a keccak hash; keccak256 is a parameter. *)

From stdpp Require Import base numbers list strings.
From S2P Require Import Prelude Rlp.

Module CreateAddress.
Import Rlp.

(** The hashed bytes. *)
Definition create_preimage (sender sender_nonce : Z) : bytes :=
  encode_list [encode (be_bytes 20 sender); encode_u64 sender_nonce].
Definition create2_preimage (sender salt init_hash : Z) : bytes :=
  [Byte.xff] ++ be_bytes 20 sender ++ be_bytes 32 salt ++ be_bytes 32 init_hash.

(** [memcpy(addr, h + 12, 20)]. *)
Definition low20 (h : Z) : Z := be_val (drop 12 (be_bytes 32 h)).

Section Derive.
Context (keccak256 : bytes → Z).

Definition compute_create_address (sender sender_nonce : Z) : Z :=
  low20 (keccak256 (create_preimage sender sender_nonce)).
Definition compute_create2_address (sender salt : Z) (init_code : bytes) : Z :=
  low20 (keccak256 (create2_preimage sender salt (keccak256 init_code))).

End Derive.

Lemma low20_range h : 0 ≤ low20 h < 2 ^ 160.
Proof.
  unfold low20. pose proof (be_val_bound (drop 12 (be_bytes 32 h))) as H.
  rewrite length_drop, length_be_bytes in H. exact H.
Qed.

Lemma be_bytes_inj n v v' :
  0 ≤ v < 256 ^ Z.of_nat n → 0 ≤ v' < 256 ^ Z.of_nat n → be_bytes n v = be_bytes n v' → v = v'.
Proof. intros Hv Hv' E. apply (f_equal be_val) in E. by rewrite !be_val_be_bytes_small in E. Qed.

Lemma len_trim_u64 v : in_u64 v → len (be_trim v) ≤ 8.
Proof. intros Hv. apply (trim_len 8). exact Hv. Qed.

Definition create_items (s n : Z) : list (ItemKind * bytes) := [(String, be_bytes 20 s); (String, be_trim n)].

Lemma create_preimage_items s n :
  in_u64 n → create_preimage s n = encode_list_payload (concat (map (λ kp, enc kp.1 kp.2) (create_items s n))).
Proof.
  intros Hn. unfold create_preimage. rewrite encode_list_spec. unfold encode_u64. by rewrite u64_bytes.
Qed.

Lemma create_items_len s n :
  in_u64 n → len (concat (map (λ kp, enc kp.1 kp.2) (create_items s n))) ≤ 40.
Proof.
  intros Hn. cbn [map concat create_items fst snd]. rewrite app_nil_r, len_app.
  assert (X : ∀ p, len p ≤ 20 → len (encode p) ≤ 1 + len p).
  { intros p Hp. unfold encode. destruct (_ && _); [unfold len in *; cbn; lia|]. rewrite len_app.
    change (append_header 128 183 [] (len p)) with (header 128 183 (len p)).
    rewrite header_short by lia. unfold len. cbn. lia. }
  pose proof (len_trim_u64 n Hn). pose proof (X (be_trim n) ltac:(lia)).
  assert (len (be_bytes 20 s) = 20) by (unfold len; by rewrite length_be_bytes).
  pose proof (X (be_bytes 20 s) ltac:(lia)). cbn [enc]. lia.
Qed.

Lemma create_decode s n :
  in_u64 n → (it ← decode_item (create_preimage s n); all_items (payload it)) =
    Ok (map (λ kp, mkItem kp.1 (enc kp.1 kp.2) kp.2) (create_items s n)).
Proof.
  intros Hn. pose proof (create_items_len s n Hn) as Hl. rewrite create_preimage_items by done.
  pose proof (decode_enc List (concat (map (λ kp, enc kp.1 kp.2) (create_items s n))) [] ltac:(lia)) as D.
  rewrite app_nil_r in D. cbn [enc] in D. rewrite D. cbn [mbind res_bind payload].
  apply drain_enc; [|done]. pose proof (len_trim_u64 n Hn).
  apply Forall_cons_2; [cbn [snd]; unfold len; rewrite length_be_bytes; lia|].
  apply Forall_cons_2; [cbn [snd]; lia|by apply Forall_nil].
Qed.

(** The first byte of a CREATE preimage is a list header. *)
Lemma create_preimage_head s n :
  in_u64 n → ∃ b t, create_preimage s n = b :: t ∧ b2z b < 0xf8.
Proof.
  intros Hn. rewrite create_preimage_items by done. pose proof (create_items_len s n Hn) as Hl.
  unfold encode_list_payload. set (p := concat _) in *.
  change (append_header 192 247 [] (len p)) with (header 192 247 (len p)).
  pose proof (len_nonneg p). rewrite header_short by lia. eexists _, _. split; [done|].
  rewrite b2z_z2b_small; lia.
Qed.

(** The derivations never hash the same bytes twice by accident: different
    (sender, nonce) pairs, different (sender, salt, code hash) triples, and a
    CREATE and a CREATE2, all have different preimages, so two creations share an
    address only through a collision of the truncated hash. *)
Theorem create_preimages_distinct s n s' n' salt ih salt' ih' :
  0 ≤ s < 2 ^ 160 → 0 ≤ s' < 2 ^ 160 → in_u64 n → in_u64 n' →
  in_u256 salt → in_u256 salt' → in_u256 ih → in_u256 ih' →
  (create_preimage s n = create_preimage s' n' ↔ s = s' ∧ n = n') ∧
  (create2_preimage s salt ih = create2_preimage s' salt' ih' ↔ s = s' ∧ salt = salt' ∧ ih = ih') ∧
  create_preimage s n ≠ create2_preimage s' salt' ih'.
Proof.
  intros Hs Hs' Hn Hn' Ht Ht' Hi Hi'. split_and!.
  - split; [|by intros [-> ->]]. intros E. pose proof (create_decode s n Hn) as D.
    rewrite E, create_decode in D by done. apply Ok_inj in D.
    pose proof (f_equal (λ l, payload (nth 0 l (mkItem String [] []))) D) as D1.
    pose proof (f_equal (λ l, payload (nth 1 l (mkItem String [] []))) D) as D2.
    cbn [map nth payload create_items snd] in D1, D2. split.
    + by apply (be_bytes_inj 20).
    + rewrite <- (be_val_trim n), <- (be_val_trim n') by (unfold in_u64 in *; lia). by rewrite D2.
  - split; [|by intros (-> & -> & ->)]. unfold create2_preimage. intros E.
    apply app_inj_1 in E as [_ E]; [|done].
    apply app_inj_1 in E as [E1 E]; [|by rewrite !length_be_bytes].
    apply app_inj_1 in E as [E2 E3]; [|by rewrite !length_be_bytes].
    split_and!; [by apply (be_bytes_inj 20)|by apply (be_bytes_inj 32)|by apply (be_bytes_inj 32)].
  - destruct (create_preimage_head s n Hn) as (b & t & -> & Hb). intros [= -> _]. done.
Qed.

Lemma create_preimages_distinct_witness :
  create_preimage 5 0 ≠ create_preimage 5 1 ∧ create_preimage 5 0 ≠ create2_preimage 5 0 0.
Proof.
  assert (A : 0 ≤ 5 < 2 ^ 160) by lia. assert (B0 : in_u64 0) by (vm_compute; intuition congruence).
  assert (B1 : in_u64 1) by (vm_compute; intuition congruence).
  assert (C0 : in_u256 0) by (vm_compute; intuition congruence).
  destruct (create_preimages_distinct 5 0 5 1 0 0 0 0 A A B0 B1 C0 C0 C0 C0) as (H & _ & N).
  split; [|exact N]. intros E. destruct (proj1 H E) as [_ X]. discriminate X.
Defined.

End CreateAddress.
