(* ===== verification/TriePath.v ===== *)
(** Trie paths: packed nibble sequences ([PackedPath], include/zeg/trie_node.hpp),
    the walk stack and key reconstruction of src/state_root.cpp, and the
    hex-prefix encoder (include/zeg/hex_prefix.hpp, src/hex_prefix.cpp).

    A nibble is a [Z] in [0, 16).  The abstract value of a packed path is its
    nibble list [pnibbles]; every operation is shown to act on that list. *)

From stdpp Require Import base numbers list strings.
From S2P Require Import Prelude Rlp.

Module TriePath.

(** ** Nibbles of a byte string *)

Definition hi_nib (b : byte) : Z := Z.shiftr (b2z b) 4.
Definition lo_nib (b : byte) : Z := Z.land (b2z b) 0x0f.

(** [to_nibbles] of src/mpt.cpp: high nibble first. *)
Definition to_nibbles (key : bytes) : list Z :=
  foldl (λ n b, n ++ [hi_nib b; lo_nib b]) [] key.

(** [nibble_at] of a 32-byte hash. *)
Definition nibble_at (key_hash : bytes) (i : nat) : Z :=
  let b := nth (i / 2) key_hash Byte.x00 in
  if (i mod 2 =? 0)%nat then hi_nib b else lo_nib b.

(** ** PackedPath *)

Definition kMaxNibbles : Z := 64.
Definition kCap : Z := 34.

Record PackedPath := mkPath {
  buf : bytes;
  start : Z;
  off : Z;
  plen : Z;
}.

(** The default-initialised path; the source leaves [buf] uninitialised. *)
Definition path_new (garbage : bytes) : PackedPath := mkPath garbage kCap 0 0.

Definition path_empty (p : PackedPath) : bool := plen p =? 0.
Definition path_bytes (p : PackedPath) : Z := (off p + plen p + 1) / 2.
Definition aligned_for_hp (p : PackedPath) : bool := off p =? Z.land (plen p) 1.

Definition buf_at (p : PackedPath) (i : Z) : byte := nth (Z.to_nat i) (buf p) Byte.x00.

Definition at_ (p : PackedPath) (i : Z) : Z :=
  let q := off p + i in
  let b := buf_at p (start p + q / 2) in
  if Z.land q 1 =? 0 then hi_nib b else lo_nib b.

Definition path_prepend (nib : Z) (p : PackedPath) : res PackedPath :=
  if negb (off p =? 0) then
    buf' ← mem_write (buf p) (start p)
             [z2b (Z.lor (Z.shiftl nib 4) (Z.land (b2z (buf_at p (start p))) 0x0f))];
    mret (mkPath buf' (start p) 0 (u8 (plen p + 1)))
  else
    _ ← fatal_if (start p =? 0) "PackedPath: prepend past the 64-nibble capacity";
    buf' ← mem_write (buf p) (start p - 1) [z2b (Z.land nib 0x0f)];
    mret (mkPath buf' (start p - 1) 1 (u8 (plen p + 1))).

Definition drop_front (k : Z) (p : PackedPath) : PackedPath :=
  let q := off p + k in
  mkPath (buf p) (u8 (start p + q / 2)) (Z.land q 1) (u8 (plen p - k)).

Definition assign (p : PackedPath) (src : bytes) (first_off n : Z) : res PackedPath :=
  _ ← fatal_if (kMaxNibbles <? n) "PackedPath: path longer than 64 nibbles";
  let nbytes := (first_off + n + 1) / 2 in
  s ← mem_read src 0 nbytes;
  buf' ← mem_write (buf p) (kCap - nbytes) s;
  mret (mkPath buf' (u8 (kCap - nbytes)) (u8 first_off) (u8 n)).

Definition path_from_key (garbage : bytes) (key_hash : bytes) (depth : Z) : res PackedPath :=
  _ ← fatal_if (kMaxNibbles <? depth) "path_from_key: trie depth beyond the 64-nibble key";
  assign (path_new garbage) (drop (Z.to_nat (depth / 2)) key_hash)
         (Z.land depth 1) (kMaxNibbles - depth).

(** ** Hex prefix *)

(** The [while (i < n)] loop over an accessor [nib]; [k] pairs remain. *)
Fixpoint hp_pairs (k : nat) (nib : Z → Z) (i : Z) (out : bytes) : bytes :=
  match k with
  | O => out
  | S k' =>
      let hi := Z.land (nib i) 0x0f in
      let lo := Z.land (nib (i + 1)) 0x0f in
      hp_pairs k' nib (i + 2) (out ++ [z2b (Z.lor (Z.shiftl hi 4) lo)])
  end.

Definition hp_slow (n : Z) (nib : Z → Z) (leaf_b : Z) : bytes :=
  if Z.land n 1 =? 1 then
    hp_pairs (Z.to_nat (n / 2)) nib 1
      [z2b (Z.lor (Z.lor leaf_b 0x10) (Z.land (nib 0) 0x0f))]
  else hp_pairs (Z.to_nat (n / 2)) nib 0 [z2b leaf_b].

Definition hex_prefix (path : PackedPath) (leaf : bool) : res bytes :=
  let n := plen path in
  _ ← fatal_if (kMaxNibbles <? n) "hex_prefix: path longer than 64 nibbles";
  let odd := Z.land n 1 =? 1 in
  let leaf_b := if leaf then 0x20 else 0x00 in
  if aligned_for_hp path then
    if odd then
      let rest := (n - 1) / 2 in
      tail ← mem_read (buf path) (start path + 1) rest;
      mret (z2b (Z.lor (Z.lor leaf_b 0x10) (Z.land (at_ path 0) 0x0f)) :: tail)
    else
      let rest := n / 2 in
      tail ← mem_read (buf path) (start path) rest;
      mret (z2b leaf_b :: tail)
  else mret (hp_slow n (at_ path) leaf_b).

(** The overload on one nibble per byte. *)
Definition hex_prefix_nibbles (nibbles : list Z) (leaf : bool) : res bytes :=
  let n := Z.of_nat (length nibbles) in
  _ ← fatal_if (kMaxNibbles <? n) "hex_prefix: path longer than 64 nibbles";
  let leaf_b := if leaf then 0x20 else 0x00 in
  mret (hp_slow n (λ i, nth (Z.to_nat i) nibbles 0) leaf_b).

(** ** WalkPath and key reconstruction (src/state_root.cpp) *)

Definition WalkPath := list Z.
Definition walk_max : Z := 64.
Definition walk_push (nibble : Z) (w : WalkPath) : WalkPath := w ++ [nibble].
Definition walk_pop (w : WalkPath) : WalkPath := removelast w.

Fixpoint pack_walked (i : nat) (walked : list Z) (out : bytes) : bytes :=
  match walked with
  | [] => out
  | x :: walked' =>
      let nib := Z.land x 0x0f in
      let j := (i / 2)%nat in
      let v := if (i mod 2 =? 1)%nat then Z.lor (b2z (nth j out Byte.x00)) nib
               else Z.shiftl nib 4 in
      pack_walked (S i) walked' (<[j := z2b v]> out)
  end.

(** The odd case's four-limb shift by one nibble and merge: [t] holds the
    suffix one nibble too far left, [out] the walked nibbles. *)
Definition shift_merge (out t : bytes) : bytes :=
  let w j := Rlp.builtin_bswap64 (Rlp.load_u64 t (8 * j)) in
  concat (imap (λ j x,
      le_bytes 8 (Z.lor (Rlp.load_u64 out (8 * Z.of_nat j)) (Rlp.builtin_bswap64 x)))
    [ Z.shiftr (w 0) 4;
      Z.lor (Z.shiftr (w 1) 4) (u64 (Z.shiftl (w 0) 60));
      Z.lor (Z.shiftr (w 2) 4) (u64 (Z.shiftl (w 1) 60));
      Z.lor (Z.shiftr (w 3) 4) (u64 (Z.shiftl (w 2) 60)) ]).

Definition pack_key_hash (walked : WalkPath) (suffix : PackedPath) : res bytes :=
  let d := Z.of_nat (length walked) in
  _ ← fatal_if (negb (d + plen suffix =? 64)) "state_root: leaf key path is not 64 nibbles";
  let out := pack_walked 0 walked (replicate 32 Byte.x00) in
  _ ← fatal_if (negb (off suffix =? 0)) "state_root: leaf suffix not byte-aligned";
  s ← mem_read (buf suffix) (start suffix) (path_bytes suffix);
  if Z.land d 1 =? 0 then mem_write out (d / 2) s
  else
    t ← mem_write (replicate 32 Byte.x00) (d / 2) s;
    mret (shift_merge out t).

Example hp_ex : hex_prefix_nibbles [1; 2; 3; 4; 5] false = Ok (map z2b [0x11; 0x23; 0x45]).
Proof. reflexivity. Qed.
Example hp_ex_leaf : hex_prefix_nibbles [0; 15; 1; 12; 11; 8] true = Ok (map z2b [0x20; 0x0f; 0x1c; 0xb8]).
Proof. reflexivity. Qed.
Example key_ex :
  (p ← path_from_key (replicate 34 Byte.x00) (be_bytes 32 (2^255 + 12345)) 0;
   q ← assign (path_new (replicate 34 Byte.x00)) (be_bytes 31 (12345 * 16 + 5)) 0 61;
   pack_key_hash [8; 0; 0] q) = Ok (be_bytes 32 (2^255 + 12345)).
Proof. vm_compute. reflexivity. Qed.

(** ** Nibble lists *)

Lemma hi_nib_div b : hi_nib b = b2z b / 16.
Proof. unfold hi_nib. by rewrite Z.shiftr_div_pow2. Qed.
Lemma lo_nib_mod b : lo_nib b = b2z b mod 16.
Proof. unfold lo_nib. change 0x0f with (Z.ones 4). by rewrite Z.land_ones. Qed.
Lemma land15 z : Z.land z 0x0f = z mod 16.
Proof. change 0x0f with (Z.ones 4). by rewrite Z.land_ones. Qed.
Lemma land1 z : Z.land z 1 = z mod 2.
Proof. change 1 with (Z.ones 1). by rewrite Z.land_ones. Qed.

Definition is_nibble (x : Z) : Prop := 0 ≤ x < 16.

Lemma hi_nib_range b : is_nibble (hi_nib b).
Proof. rewrite hi_nib_div. pose proof (b2z_range b). unfold is_nibble. Z.div_mod_to_equations. lia. Qed.
Lemma lo_nib_range b : is_nibble (lo_nib b).
Proof. rewrite lo_nib_mod. apply Z.mod_pos_bound. lia. Qed.

(** The byte with the given halves. *)
Definition pack2 (hi lo : Z) : byte := z2b (16 * hi + lo).

Lemma pack2_nibs b : pack2 (hi_nib b) (lo_nib b) = b.
Proof.
  unfold pack2. rewrite hi_nib_div, lo_nib_mod, <- Z.div_mod by lia. apply z2b_b2z.
Qed.
Lemma hi_pack2 h l : is_nibble h → is_nibble l → hi_nib (pack2 h l) = h.
Proof.
  unfold is_nibble. intros. rewrite hi_nib_div. unfold pack2. rewrite b2z_z2b_small by lia.
  rewrite Z.mul_comm, Z.div_add_l by lia. rewrite (Z.div_small l) by lia. lia.
Qed.
Lemma lo_pack2 h l : is_nibble h → is_nibble l → lo_nib (pack2 h l) = l.
Proof.
  unfold is_nibble. intros. rewrite lo_nib_mod. unfold pack2. rewrite b2z_z2b_small by lia.
  rewrite Z.add_comm, Z.mul_comm, Z.mod_add by lia. apply Z.mod_small. lia.
Qed.

Lemma to_nibbles_concat l : to_nibbles l = concat (map (λ b, [hi_nib b; lo_nib b]) l).
Proof.
  unfold to_nibbles. assert (H : ∀ acc, foldl (λ n b, n ++ [hi_nib b; lo_nib b]) acc l
    = acc ++ concat (map (λ b, [hi_nib b; lo_nib b]) l)); [|apply H].
  induction l as [|b l IH]; intros acc; [by rewrite app_nil_r|].
  cbn [foldl map concat]. by rewrite IH, app_assoc.
Qed.

Lemma to_nibbles_cons b l : to_nibbles (b :: l) = hi_nib b :: lo_nib b :: to_nibbles l.
Proof. by rewrite !to_nibbles_concat. Qed.
Lemma to_nibbles_app l1 l2 : to_nibbles (l1 ++ l2) = to_nibbles l1 ++ to_nibbles l2.
Proof. by rewrite !to_nibbles_concat, map_app, concat_app. Qed.
Lemma length_to_nibbles l : length (to_nibbles l) = (2 * length l)%nat.
Proof. induction l as [|b l IH]; [done|]. rewrite to_nibbles_cons. cbn [length]. lia. Qed.
Lemma drop_to_nibbles k l : drop (2 * k) (to_nibbles l) = to_nibbles (drop k l).
Proof.
  revert l. induction k as [|k IH]; intros l; [done|].
  destruct l as [|b l]; [by rewrite !drop_nil|].
  rewrite to_nibbles_cons. replace (2 * S k)%nat with (S (S (2 * k))) by lia. apply IH.
Qed.
Lemma take_to_nibbles k l : take (2 * k) (to_nibbles l) = to_nibbles (take k l).
Proof.
  revert l. induction k as [|k IH]; intros l; [done|].
  destruct l as [|b l]; [by rewrite !take_nil|].
  rewrite to_nibbles_cons. replace (2 * S k)%nat with (S (S (2 * k))) by lia.
  cbn [firstn]. by rewrite IH, to_nibbles_cons.
Qed.
Lemma to_nibbles_range l : Forall is_nibble (to_nibbles l).
Proof.
  induction l as [|b l IH]; [constructor|]. rewrite to_nibbles_cons.
  repeat constructor; auto using hi_nib_range, lo_nib_range; apply hi_nib_range || apply lo_nib_range.
Qed.
Lemma nth_to_nibbles l j :
  nth j (to_nibbles l) 0 =
    let b := nth (j / 2) l Byte.x00 in if (j mod 2 =? 0)%nat then hi_nib b else lo_nib b.
Proof.
  cbn zeta. revert j. induction l as [|b l IH]; intros j.
  { destruct j; cbn [nth]; [done|]. destruct (S j / 2)%nat; by destruct (_ =? 0)%nat. }
  rewrite to_nibbles_cons. destruct j as [|[|j]]; [done|done|].
  cbn [nth]. rewrite IH.
  replace (S (S j) / 2)%nat with (S (j / 2)) by (change (S (S j)) with (1 * 2 + j)%nat; rewrite Nat.div_add_l; lia).
  replace (S (S j) mod 2)%nat with (j mod 2)%nat; [done|].
  change (S (S j)) with (1 * 2 + j)%nat. rewrite Nat.add_comm, Nat.Div0.mod_add. done.
Qed.

(** Packing a nibble list two by two (an odd last nibble is dropped). *)
Fixpoint pack_nibs (ns : list Z) : bytes :=
  match ns with
  | a :: b :: ns' => pack2 a b :: pack_nibs ns'
  | _ => []
  end.

Lemma pack_to_nibbles l : pack_nibs (to_nibbles l) = l.
Proof.
  induction l as [|b l IH]; [done|]. rewrite to_nibbles_cons. cbn [pack_nibs].
  by rewrite IH, pack2_nibs.
Qed.

Lemma to_nibbles_inj l1 l2 : to_nibbles l1 = to_nibbles l2 → l1 = l2.
Proof. intros H. by rewrite <- (pack_to_nibbles l1), H, pack_to_nibbles. Qed.

Lemma to_pack_nibs k ns :
  Forall is_nibble ns → length ns = (2 * k)%nat → to_nibbles (pack_nibs ns) = ns.
Proof.
  revert ns. induction k as [|k IH]; intros ns HF Hl; [by destruct ns|].
  destruct ns as [|a [|b ns]]; simpl in Hl; try lia.
  inversion HF as [|? ? Ha HF']; inversion HF' as [|? ? Hb HF'']; subst.
  cbn [pack_nibs]. rewrite to_nibbles_cons, hi_pack2, lo_pack2, IH by (done || lia). done.
Qed.

(** ** PackedPath as a nibble list *)

Definition tail (p : PackedPath) : bytes := drop (Z.to_nat (start p)) (buf p).

Definition pnibbles (p : PackedPath) : list Z :=
  map (λ i : nat, at_ p (Z.of_nat i)) (seq 0 (Z.to_nat (plen p))).

(** The nibbles are anchored at the end of the 34-byte buffer. *)
Definition path_wf (p : PackedPath) : Prop :=
  length (buf p) = 34%nat ∧ (off p = 0 ∨ off p = 1) ∧ 0 ≤ plen p ∧ 0 ≤ start p ∧
  start p + path_bytes p = kCap.

Lemma path_bytes_cases p :
  path_wf p → off p + plen p + 1 = 2 * path_bytes p ∨ off p + plen p + 1 = 2 * path_bytes p + 1.
Proof. intros _. unfold path_bytes. Z.div_mod_to_equations. lia. Qed.

Lemma length_tail p : path_wf p → Z.of_nat (length (tail p)) = path_bytes p.
Proof.
  intros (Hl & Ho & Hp & Hs & He). unfold tail, kCap in *. rewrite length_drop.
  assert (0 ≤ path_bytes p) by (unfold path_bytes; Z.div_mod_to_equations; lia). lia.
Qed.

Lemma at_nth p i :
  path_wf p → 0 ≤ i →
  at_ p i = nth (Z.to_nat (off p + i)) (to_nibbles (tail p)) 0.
Proof.
  intros (Hl & Ho & Hp & Hs & He) Hi. rewrite nth_to_nibbles. cbn zeta.
  unfold at_, buf_at, tail. rewrite nth_skipn, land1.
  assert (Hq : 0 ≤ off p + i) by lia.
  replace (Z.to_nat (start p) + Z.to_nat (off p + i) / 2)%nat
    with (Z.to_nat (start p + (off p + i) / 2)).
  - destruct (Z.eqb_spec ((off p + i) mod 2) 0), (Nat.eqb_spec (Z.to_nat (off p + i) mod 2) 0); try done.
    + destruct n. apply Nat2Z.inj. rewrite Nat2Z.inj_mod, Z2Nat.id; done.
    + destruct n. rewrite <- (Z2Nat.id (off p + i)) by done. by rewrite <- (Nat2Z.inj_mod _ 2), e.
  - rewrite Z2Nat.inj_add by (try apply Z.div_pos; lia). f_equal.
    by rewrite Z2Nat.inj_div by lia.
Qed.

Lemma map_nth_seq {A} (l : list A) (d : A) k n :
  (k + n ≤ length l)%nat → map (λ i, nth (k + i) l d) (seq 0 n) = take n (drop k l).
Proof.
  intros H. apply list_eq. intros i. destruct (Nat.lt_ge_cases i n) as [Hi|Hi].
  - rewrite list_lookup_fmap, lookup_seq_lt by done. cbn [fmap option_fmap option_map Nat.add].
    rewrite lookup_take, decide_True, lookup_drop by done.
    destruct (nth_lookup_or_length l (k + i) d) as [->|]; [done|lia].
  - rewrite list_lookup_fmap, lookup_seq_ge by lia. cbn.
    rewrite lookup_take, decide_False by lia. done.
Qed.

Lemma pnibbles_spec p :
  path_wf p →
  pnibbles p = take (Z.to_nat (plen p)) (drop (Z.to_nat (off p)) (to_nibbles (tail p))).
Proof.
  intros Hwf. pose proof (length_tail p Hwf) as Ht. pose proof (path_bytes_cases p Hwf).
  pose proof Hwf as (Hl & Ho & Hp & Hs & He). unfold pnibbles.
  rewrite <- (map_nth_seq _ 0) by (rewrite length_to_nibbles; lia).
  apply map_ext. intros i. rewrite at_nth by (done || lia).
  f_equal. lia.
Qed.

Lemma length_pnibbles p : length (pnibbles p) = Z.to_nat (plen p).
Proof. unfold pnibbles. by rewrite length_map, length_seq. Qed.

Lemma path_new_wf g : length g = 34%nat → path_wf (path_new g) ∧ pnibbles (path_new g) = [].
Proof.
  intros Hg. split; [|done]. unfold path_wf, path_new, path_bytes. cbn. repeat split; (done || lia || auto).
Qed.

Lemma pnibbles_range p : path_wf p → Forall is_nibble (pnibbles p).
Proof.
  intros Hwf. rewrite pnibbles_spec by done.
  apply Forall_take, Forall_drop, to_nibbles_range.
Qed.

Lemma mod16_nibble z : is_nibble (z mod 16).
Proof. apply Z.mod_pos_bound. lia. Qed.

Lemma write_byte_tail b (i : Z) (c : byte) :
  0 ≤ i < Z.of_nat (length b) →
  ∃ b', mem_write b i [c] = Ok b' ∧ length b' = length b ∧
        drop (Z.to_nat i) b' = c :: drop (Z.to_nat i + 1) b.
Proof.
  intros Hi. eexists. split; [apply mem_write_ok; simpl; lia|].
  split; [rewrite !length_app, length_take, length_drop; simpl; lia|].
  rewrite drop_app_ge by (rewrite length_take; lia).
  rewrite length_take, Nat.min_l, Nat.sub_diag by lia. done.
Qed.

Lemma z2b_high_nibble nib b :
  z2b (Z.lor (Z.shiftl nib 4) (Z.land (b2z b) 0x0f)) = pack2 (nib mod 16) (lo_nib b).
Proof.
  pose proof (lo_nib_range b) as Hr. fold (lo_nib b). rewrite lor_shiftl4 by apply Hr.
  unfold pack2. rewrite <- z2b_mod, <- (z2b_mod (16 * (nib mod 16) + _)). f_equal.
  replace (16 * nib + lo_nib b) with (16 * (nib mod 16) + lo_nib b + nib / 16 * 256)
    by (pose proof (Z.div_mod nib 16); lia).
  apply Z.mod_add. lia.
Qed.

Lemma prepend_room nib p :
  path_wf p → (off p = 0 → 0 < start p) →
  ∃ p', path_prepend nib p = Ok p' ∧ path_wf p' ∧
        pnibbles p' = nib mod 16 :: pnibbles p ∧ plen p' = plen p + 1.
Proof.
  intros Hwf Hroom. pose proof (length_tail p Hwf) as Ht. pose proof (path_bytes_cases p Hwf).
  pose proof Hwf as (Hl & Ho & Hp & Hs & He). unfold kCap in He.
  assert (Hu : u8 (plen p + 1) = plen p + 1) by (apply Z.mod_small; simpl; lia).
  unfold path_prepend. destruct (Z.eqb_spec (off p) 0) as [H0|H0]; cbn [negb].
  - destruct (Z.eqb_spec (start p) 0); [lia|]. cbn [fatal_if mbind res_bind].
    destruct (write_byte_tail (buf p) (start p - 1) (z2b (Z.land nib 0x0f)))
      as (b' & -> & Hbl & Hbd); [lia|].
    eexists. split; [done|]. rewrite Hu.
    assert (Hwf' : path_wf (mkPath b' (start p - 1) 1 (plen p + 1))).
    { unfold path_wf, path_bytes in *. cbn [buf start off plen] in *. rewrite H0 in *.
      unfold kCap. repeat split; try lia. Z.div_mod_to_equations. lia. }
    split; [done|]. split; [|done]. rewrite !pnibbles_spec by done.
    unfold tail at 1. cbn [buf start off plen]. rewrite Hbd, to_nibbles_cons.
    replace (Z.to_nat (start p - 1) + 1)%nat with (Z.to_nat (start p)) by lia.
    rewrite land15, H0. replace (Z.to_nat (plen p + 1)) with (S (Z.to_nat (plen p))) by lia.
    change (Z.to_nat 1) with 1%nat. change (Z.to_nat 0) with 0%nat. cbn [skipn firstn].
    unfold tail. f_equal. change (z2b (nib mod 16)) with (pack2 0 (nib mod 16)).
    apply lo_pack2; [unfold is_nibble; lia|apply mod16_nibble].
  - destruct (write_byte_tail (buf p) (start p)
      (z2b (Z.lor (Z.shiftl nib 4) (Z.land (b2z (buf_at p (start p))) 0x0f))))
      as (b' & -> & Hbl & Hbd); [lia|]. cbn [mbind res_bind].
    eexists. split; [done|]. rewrite Hu. destruct Ho as [Ho|Ho]; [done|].
    assert (Hwf' : path_wf (mkPath b' (start p) 0 (plen p + 1))).
    { unfold path_wf, path_bytes in *. cbn [buf start off plen] in *. rewrite Ho in *.
      unfold kCap. repeat split; try lia. Z.div_mod_to_equations. lia. }
    split; [done|]. split; [|done]. rewrite !pnibbles_spec by done.
    unfold tail. cbn [buf start off plen]. rewrite Hbd, to_nibbles_cons, z2b_high_nibble.
    rewrite hi_pack2, lo_pack2 by (apply mod16_nibble || apply lo_nib_range).
    replace (Z.to_nat (plen p + 1)) with (S (Z.to_nat (plen p))) by lia.
    rewrite Ho. change (Z.to_nat 1) with 1%nat. change (Z.to_nat 0) with 0%nat.
    cbn [skipn firstn]. f_equal.
    destruct (drop (Z.to_nat (start p)) (buf p)) as [|c t] eqn:E.
    { exfalso. unfold tail in Ht. rewrite E in Ht. simpl in Ht. lia. }
    rewrite to_nibbles_cons. cbn [skipn].
    assert (Ht' : drop (Z.to_nat (start p) + 1) (buf p) = t).
    { rewrite <- drop_drop, E. done. }
    rewrite Ht'. do 2 f_equal. unfold buf_at.
    rewrite <- (Nat.add_0_r (Z.to_nat (start p))), <- nth_skipn. by rewrite E.
Qed.

Lemma prepend_nibbles nib p :
  path_wf p → plen p < 67 →
  ∃ p', path_prepend nib p = Ok p' ∧ path_wf p' ∧
        pnibbles p' = nib mod 16 :: pnibbles p ∧ plen p' = plen p + 1.
Proof.
  intros Hwf Hlt. apply prepend_room; [done|]. intros H0. pose proof (path_bytes_cases p Hwf).
  destruct Hwf as (_ & _ & _ & Hs & He). unfold kCap in He. lia.
Qed.
Lemma prepend_Ok nib p p' :
  path_wf p → path_prepend nib p = Ok p' → path_wf p' ∧ pnibbles p' = nib mod 16 :: pnibbles p.
Proof.
  intros Hwf E. destruct (prepend_room nib p Hwf) as (q & E' & Hq & Hn & _); [|rewrite E' in E; by simplify_eq].
  intros H0. destruct Hwf as (_ & _ & _ & Hs & _). unfold path_prepend in E. rewrite H0 in E. cbn in E.
  destruct (Z.eqb_spec (start p) 0); [done|lia].
Qed.

Lemma drop_front_nibbles k p :
  path_wf p → plen p ≤ 66 → 0 ≤ k ≤ plen p →
  path_wf (drop_front k p) ∧ pnibbles (drop_front k p) = drop (Z.to_nat k) (pnibbles p).
Proof.
  intros Hwf Hmax Hk. pose proof (path_bytes_cases p Hwf).
  pose proof Hwf as (Hl & Ho & Hp & Hs & He). unfold kCap in He.
  assert (Hq : 0 ≤ (off p + k) / 2 ≤ path_bytes p)
    by (unfold path_bytes; Z.div_mod_to_equations; lia).
  assert (Hu1 : u8 (start p + (off p + k) / 2) = start p + (off p + k) / 2)
    by (apply Z.mod_small; simpl; lia).
  assert (Hu2 : u8 (plen p - k) = plen p - k) by (apply Z.mod_small; simpl; lia).
  assert (Hwf' : path_wf (drop_front k p)).
  { unfold drop_front. rewrite Hu1, Hu2, land1. unfold path_wf, path_bytes, kCap in *.
    cbn [buf start off plen] in *. pose proof (Z.mod_pos_bound (off p + k) 2).
    repeat split; try lia. Z.div_mod_to_equations. lia. }
  split; [done|]. rewrite !pnibbles_spec by done. unfold drop_front, tail.
  rewrite Hu1, Hu2, land1. cbn [buf start off plen].
  rewrite Z2Nat.inj_add, <- drop_drop, <- drop_to_nibbles by lia.
  pose proof (Z.mod_pos_bound (off p + k) 2). pose proof (Z.div_mod (off p + k) 2).
  rewrite drop_drop, skipn_firstn_comm, drop_drop. f_equal; [lia|]. f_equal. lia.
Qed.

Lemma assign_nibbles p src o n :
  length (buf p) = 34%nat → 0 ≤ o ≤ 1 → 0 ≤ n ≤ 64 →
  (o + n + 1) / 2 ≤ Z.of_nat (length src) →
  ∃ p', assign p src o n = Ok p' ∧ path_wf p' ∧ plen p' = n ∧ off p' = o ∧
        pnibbles p' = take (Z.to_nat n) (drop (Z.to_nat o) (to_nibbles src)).
Proof.
  intros Hl Ho Hn Hsrc. unfold assign, kMaxNibbles.
  destruct (Z.ltb_spec 64 n); [lia|]. cbn [fatal_if mbind res_bind].
  set (nb := (o + n + 1) / 2) in *.
  assert (Hnb : 0 ≤ nb ≤ 33) by (subst nb; Z.div_mod_to_equations; lia).
  unfold mem_read. cbn [Z.leb Z.compare andb]. rewrite (proj2 (Z.leb_le 0 nb)), (proj2 (Z.leb_le (0 + nb) _)) by lia.
  cbn [andb mbind res_bind]. change (Z.to_nat 0) with 0%nat. rewrite drop_0.
  assert (Hs : length (take (Z.to_nat nb) src) = Z.to_nat nb) by (rewrite length_take; lia).
  unfold kCap. rewrite mem_write_ok by lia. cbn [mbind res_bind mret res_ret].
  eexists. split; [done|].
  rewrite Hs. replace (Z.to_nat (34 - nb) + Z.to_nat nb)%nat with (length (buf p)) by lia.
  rewrite skipn_all, app_nil_r.
  assert (u8 (34 - nb) = 34 - nb ∧ u8 o = o ∧ u8 n = n) as (-> & -> & ->)
    by (repeat split; apply Z.mod_small; simpl; lia).
  match goal with |- path_wf ?q ∧ _ => assert (Hwf : path_wf q) end.
  { unfold path_wf, path_bytes, kCap. cbn [buf start off plen]. fold nb.
    rewrite length_app, length_take, Hs. repeat split; lia. }
  split; [done|]. split; [done|]. split; [done|].
  rewrite pnibbles_spec by done. unfold tail. cbn [buf start off plen].
  rewrite drop_app_length' by (rewrite length_take; lia).
  rewrite <- take_to_nibbles, skipn_firstn_comm, take_take. f_equal.
  subst nb. Z.div_mod_to_equations. lia.
Qed.

Lemma path_from_key_nibbles g key depth :
  length g = 34%nat → length key = 32%nat → 0 ≤ depth ≤ 64 →
  ∃ p, path_from_key g key depth = Ok p ∧ path_wf p ∧ plen p = 64 - depth ∧
       pnibbles p = drop (Z.to_nat depth) (to_nibbles key).
Proof.
  intros Hg Hk Hd. unfold path_from_key, kMaxNibbles.
  destruct (Z.ltb_spec 64 depth); [lia|]. cbn [fatal_if mbind res_bind]. rewrite land1.
  pose proof (Z.mod_pos_bound depth 2). pose proof (Z.div_mod depth 2).
  destruct (assign_nibbles (path_new g) (drop (Z.to_nat (depth / 2)) key) (depth mod 2) (64 - depth))
    as (p & -> & Hwf & Hpl & _ & Hn); [done|lia|lia| |].
  { rewrite length_drop. Z.div_mod_to_equations. lia. }
  exists p. split; [done|]. split; [done|]. split; [done|]. rewrite Hn, <- drop_to_nibbles, drop_drop.
  rewrite firstn_all2 by (rewrite length_drop, length_to_nibbles; lia).
  f_equal. lia.
Qed.

(** ** Hex prefix against its specification *)

(** The hex-prefix encoding of the Yellow Paper (appendix C). *)
Definition hp_spec (ns : list Z) (leaf : bool) : bytes :=
  let f := if leaf then 2 else 0 in
  if Nat.odd (length ns) then pack2 (f + 1) (hd 0 ns) :: pack_nibs (tl ns)
  else pack2 f 0 :: pack_nibs ns.

(** Its inverse: the flags and the path. *)
Definition hp_decode (b : bytes) : option (list Z * bool) :=
  match b with
  | [] => None
  | c :: t =>
      let f := hi_nib c in
      if f =? 0 then Some (to_nibbles t, false)
      else if f =? 1 then Some (lo_nib c :: to_nibbles t, false)
      else if f =? 2 then Some (to_nibbles t, true)
      else if f =? 3 then Some (lo_nib c :: to_nibbles t, true)
      else None
  end.

Lemma hp_decode_spec ns leaf :
  Forall is_nibble ns → hp_decode (hp_spec ns leaf) = Some (ns, leaf).
Proof.
  intros HF. unfold hp_spec. assert (H0 : is_nibble 0) by (unfold is_nibble; lia).
  assert (Hf : ∀ z, 0 ≤ z < 4 → is_nibble z) by (unfold is_nibble; lia).
  destruct (Nat.odd (length ns)) eqn:E; unfold hp_decode.
  - destruct ns as [|a ns]; [done|]. inversion HF as [|? ? Ha HF']; subst. cbn [hd tl].
    rewrite hi_pack2, lo_pack2 by (done || (apply Hf; destruct leaf; lia)).
    apply Nat.odd_spec in E as [k Hk]. cbn [length] in Hk.
    rewrite (to_pack_nibs k) by (done || lia). by destruct leaf.
  - rewrite hi_pack2 by (done || (apply Hf; destruct leaf; lia)).
    assert (Nat.even (length ns) = true) as [k Hk]%Nat.even_spec
      by (rewrite <- Nat.negb_odd, E; done).
    rewrite (to_pack_nibs k) by done. by destruct leaf.
Qed.

Lemma length_pack_nibs ns : (length (pack_nibs ns) ≤ length ns / 2)%nat.
Proof.
  assert (H : ∀ n ns, (length ns ≤ n → 2 * length (pack_nibs ns) ≤ length ns)%nat).
  { induction n as [|n IH]; intros [|a [|b l]] Hl; cbn [pack_nibs length] in *; try lia.
    specialize (IH l). lia. }
  specialize (H (length ns) ns ltac:(lia)). apply Nat.div_le_lower_bound; lia.
Qed.

Lemma hp_spec_length ns leaf : (length ns ≤ 64)%nat → (length (hp_spec ns leaf) ≤ 33)%nat.
Proof.
  intros Hl. unfold hp_spec.
  assert (Hd : ∀ l : list Z, (length l ≤ 64 → length l / 2 ≤ 32)%nat)
    by (intros; apply Nat.Div0.div_le_upper_bound; lia).
  destruct (Nat.odd (length ns)); cbn [length].
  - pose proof (length_pack_nibs (tl ns)). pose proof (Hd (tl ns)).
    destruct ns; cbn [tl length] in *; lia.
  - pose proof (length_pack_nibs ns). pose proof (Hd ns Hl). lia.
Qed.

Lemma hp_pairs_spec k nib i out :
  hp_pairs k nib i out =
    out ++ pack_nibs (map (λ j : nat, nib (i + Z.of_nat j) mod 16) (seq 0 (2 * k))).
Proof.
  revert i out. induction k as [|k IH]; intros i out; [by rewrite app_nil_r|].
  cbn [hp_pairs]. rewrite IH, <- app_assoc. f_equal.
  replace (2 * S k)%nat with (S (S (2 * k))) by lia. cbn [seq map pack_nibs app].
  rewrite !land15, lor_shiftl4 by apply mod16_nibble. unfold pack2.
  change (Z.of_nat 0) with 0. change (Z.of_nat 1) with 1. rewrite Z.add_0_r. f_equal.
  rewrite <- !seq_shift, !map_map. f_equal. apply map_ext. intros j. do 2 f_equal. lia.
Qed.

Lemma hp_flag_odd (leaf : bool) x :
  z2b (Z.lor (Z.lor (if leaf then 0x20 else 0x00) 0x10) (Z.land x 0x0f))
  = pack2 ((if leaf then 2 else 0) + 1) (x mod 16).
Proof.
  rewrite land15. unfold pack2.
  replace (Z.lor (if leaf then 0x20 else 0x00) 0x10)
    with (Z.shiftl ((if leaf then 2 else 0) + 1) 4) by (by destruct leaf).
  by rewrite lor_shiftl4 by apply mod16_nibble.
Qed.

Lemma hp_flag_even (leaf : bool) :
  z2b (if leaf then 0x20 else 0x00) = pack2 (if leaf then 2 else 0) 0.
Proof. by destruct leaf. Qed.

Lemma odd_land n : 0 ≤ n → (Z.land n 1 =? 1) = Nat.odd (Z.to_nat n).
Proof.
  intros Hn. rewrite land1. rewrite <- (Z2Nat.id n) at 1 by done.
  generalize (Z.to_nat n). clear. intros n.
  rewrite <- Nat.negb_even. destruct (Nat.even n) eqn:E.
  - apply Nat.even_spec in E as [k ->]. cbn [negb]. apply Z.eqb_neq.
    rewrite Nat2Z.inj_mul, Z.mul_comm, Z.mod_mul; lia.
  - assert (Nat.odd n = true) as [k ->]%Nat.odd_spec by (by rewrite <- Nat.negb_even, E).
    cbn [negb]. apply Z.eqb_eq. rewrite Nat2Z.inj_add, Nat2Z.inj_mul.
    Z.div_mod_to_equations. lia.
Qed.

Lemma half_odd n : Nat.odd n = true → n = S (2 * (n / 2)).
Proof.
  intros [k ->]%Nat.odd_spec.
  rewrite <- (Nat.div_unique (2 * k + 1) 2 k 1); lia.
Qed.
Lemma half_even n : Nat.odd n = false → n = (2 * (n / 2))%nat.
Proof.
  intros E. assert (Nat.even n = true) as [k ->]%Nat.even_spec
    by (rewrite <- Nat.negb_odd, E; done).
  rewrite <- (Nat.div_unique (2 * k) 2 k 0); lia.
Qed.

Lemma hp_slow_spec (n : nat) nib (leaf : bool) :
  hp_slow (Z.of_nat n) nib (if leaf then 0x20 else 0x00)
  = hp_spec (map (λ j : nat, nib (Z.of_nat j) mod 16) (seq 0 n)) leaf.
Proof.
  unfold hp_slow, hp_spec. rewrite odd_land, Nat2Z.id, length_map, length_seq by lia.
  rewrite !hp_pairs_spec, hp_flag_odd, hp_flag_even.
  replace (Z.to_nat (Z.of_nat n / 2)) with (n / 2)%nat
    by (change 2 with (Z.of_nat 2); rewrite <- Nat2Z.inj_div; lia).
  destruct (Nat.odd n) eqn:E.
  - rewrite (half_odd n E) at 2 3. cbn [seq map hd tl app]. f_equal.
    rewrite <- seq_shift, map_map. f_equal. apply map_ext. intros j. do 2 f_equal. lia.
  - rewrite (half_even n E) at 2. cbn [app]. f_equal.
Qed.

Lemma at_range p i : is_nibble (at_ p i).
Proof. unfold at_. case_match; apply hi_nib_range || apply lo_nib_range. Qed.

Lemma map_at_mod p :
  map (λ j : nat, at_ p (Z.of_nat j) mod 16) (seq 0 (Z.to_nat (plen p))) = pnibbles p.
Proof.
  apply map_ext. intros j. apply Z.mod_small. apply at_range.
Qed.

Lemma pnibbles_aligned p :
  path_wf p → aligned_for_hp p = true →
  (Nat.odd (Z.to_nat (plen p)) = true →
   ∃ c t, tail p = c :: t ∧ off p = 1 ∧ Z.of_nat (length t) = (plen p - 1) / 2 ∧
          pnibbles p = lo_nib c :: to_nibbles t) ∧
  (Nat.odd (Z.to_nat (plen p)) = false →
   Z.of_nat (length (tail p)) = plen p / 2 ∧ pnibbles p = to_nibbles (tail p)).
Proof.
  intros Hwf Ha%Z.eqb_eq. pose proof Hwf as (Hl & Ho & Hp & Hs & He).
  pose proof (length_tail p Hwf) as Ht. rewrite pnibbles_spec by done.
  rewrite land1 in Ha. unfold path_bytes in Ht. split; intros E.
  - pose proof (half_odd _ E) as Hh. assert (Hm : plen p mod 2 = 1).
    { rewrite <- odd_land, land1 in E by done. by apply Z.eqb_eq. }
    rewrite Hm in Ha. rewrite Ha in *. destruct (tail p) as [|c t].
    { simpl in Ht. Z.div_mod_to_equations. lia. }
    exists c, t. cbn [length] in Ht. split; [done|]. split; [done|].
    split; [Z.div_mod_to_equations; lia|].
    rewrite to_nibbles_cons. change (Z.to_nat 1) with 1%nat. cbn [skipn].
    destruct (Z.to_nat (plen p)) eqn:En; [done|]. cbn [firstn]. f_equal.
    apply firstn_all2. rewrite length_to_nibbles. Z.div_mod_to_equations. lia.
  - assert (Hm : plen p mod 2 = 0).
    { rewrite <- odd_land, land1 in E by done. apply Z.eqb_neq in E.
      pose proof (Z.mod_pos_bound (plen p) 2). lia. }
    rewrite Hm in Ha. rewrite Ha in *. split; [Z.div_mod_to_equations; lia|].
    change (Z.to_nat 0) with 0%nat. rewrite drop_0.
    apply firstn_all2. rewrite length_to_nibbles. Z.div_mod_to_equations. lia.
Qed.

Lemma mem_read_tail p k rest :
  path_wf p → 0 ≤ k → 0 ≤ rest → k + rest = Z.of_nat (length (tail p)) →
  mem_read (buf p) (start p + k) rest = Ok (drop (Z.to_nat k) (tail p)).
Proof.
  intros Hwf Hk Hr Hsum. pose proof Hwf as (Hl & Ho & Hp & Hs & He). unfold tail in *.
  rewrite length_drop in Hsum. unfold mem_read, kCap in *.
  assert (0 ≤ path_bytes p) by (unfold path_bytes; Z.div_mod_to_equations; lia).
  rewrite (proj2 (Z.leb_le 0 (start p + k))), (proj2 (Z.leb_le 0 rest)), (proj2 (Z.leb_le _ _)) by lia.
  cbn [andb]. f_equal. rewrite firstn_all2 by (rewrite length_drop; lia).
  rewrite drop_drop. f_equal. lia.
Qed.

Lemma hex_prefix_spec p leaf :
  path_wf p → plen p ≤ 64 → hex_prefix p leaf = Ok (hp_spec (pnibbles p) leaf).
Proof.
  intros Hwf Hmax. pose proof Hwf as (Hl & Ho & Hp & Hs & He).
  unfold hex_prefix, kMaxNibbles. destruct (Z.ltb_spec 64 (plen p)); [lia|].
  cbn [fatal_if mbind res_bind]. destruct (aligned_for_hp p) eqn:Ha.
  - rewrite odd_land by done. destruct (pnibbles_aligned p Hwf Ha) as [Hodd Heven].
    unfold hp_spec. rewrite length_pnibbles.
    destruct (Nat.odd (Z.to_nat (plen p))) eqn:E.
    + destruct (Hodd eq_refl) as (c & t & Ht & Hoff & Hlt & Hn).
      pose proof (half_odd _ E).
      rewrite (mem_read_tail p 1) by (done || rewrite ?Ht; cbn [length]; lia).
      rewrite Ht, Hn. cbn. rewrite hp_flag_odd, pack_to_nibbles. do 3 f_equal.
      rewrite Z.mod_small by apply at_range. rewrite at_nth by (done || lia).
      rewrite Hoff, Ht, to_nibbles_cons. done.
    + destruct (Heven eq_refl) as [Hlt Hn]. rewrite <- (Z.add_0_r (start p)).
      rewrite (mem_read_tail p 0) by (done || Z.div_mod_to_equations; lia).
      change (Z.to_nat 0) with 0%nat. rewrite drop_0. cbn.
      rewrite hp_flag_even, Hn, pack_to_nibbles. done.
  - rewrite <- (Z2Nat.id (plen p)) at 1 by done. rewrite hp_slow_spec. do 2 f_equal.
    apply map_at_mod.
Qed.

Lemma hex_prefix_nibbles_spec ns leaf :
  Z.of_nat (length ns) ≤ 64 →
  hex_prefix_nibbles ns leaf = Ok (hp_spec (map (λ x, x mod 16) ns) leaf).
Proof.
  intros Hl. unfold hex_prefix_nibbles, kMaxNibbles.
  destruct (Z.ltb_spec 64 (Z.of_nat (length ns))); [lia|].
  cbn [fatal_if mbind res_bind]. rewrite hp_slow_spec. do 2 f_equal.
  pose proof (map_nth_seq ns 0 0 (length ns) ltac:(lia)) as H'.
  rewrite drop_0, firstn_all in H'. rewrite <- H' at 2. rewrite map_map. apply map_ext.
  intros j. by rewrite Nat2Z.id.
Qed.

(** ** Key reconstruction *)

Lemma to_nibbles_insert j c out :
  (j < length out)%nat →
  to_nibbles (<[j := c]> out) = <[(2 * j)%nat := hi_nib c]> (<[(2 * j + 1)%nat := lo_nib c]> (to_nibbles out)).
Proof.
  revert j. induction out as [|b out IH]; intros j Hj; [simpl in Hj; lia|].
  destruct j as [|j].
  { change (<[0%nat := c]> (b :: out)) with (c :: out). by rewrite !to_nibbles_cons. }
  change (<[S j := c]> (b :: out)) with (b :: <[j := c]> out).
  rewrite !to_nibbles_cons, IH by (simpl in Hj; lia).
  replace (2 * S j)%nat with (S (S (2 * j))) by lia.
  replace (S (S (2 * j)) + 1)%nat with (S (S (2 * j + 1))) by lia. done.
Qed.

Lemma lookup_nibbles_byte l j :
  (j < length l)%nat →
  to_nibbles l !! (2 * j)%nat = Some (hi_nib (nth j l Byte.x00)) ∧
  to_nibbles l !! (2 * j + 1)%nat = Some (lo_nib (nth j l Byte.x00)).
Proof.
  revert j. induction l as [|b l IH]; intros j Hj; [simpl in Hj; lia|].
  rewrite to_nibbles_cons. destruct j as [|j]; [done|].
  replace (2 * S j)%nat with (S (S (2 * j))) by lia.
  replace (S (S (2 * j)) + 1)%nat with (S (S (2 * j + 1))) by lia.
  apply IH. simpl in Hj. lia.
Qed.

(** One step of the walk's packing loop sets nibble [i]. *)
Lemma pack_step i x out :
  (i < 2 * length out)%nat →
  to_nibbles out !! i = Some 0 →
  (Nat.odd i = false → to_nibbles out !! S i = Some 0) →
  let j := (i / 2)%nat in
  let v := if (i mod 2 =? 1)%nat then Z.lor (b2z (nth j out Byte.x00)) (Z.land x 0x0f)
           else Z.shiftl (Z.land x 0x0f) 4 in
  to_nibbles (<[j := z2b v]> out) = <[i := x mod 16]> (to_nibbles out).
Proof.
  intros Hi H0 H1 j v. pose proof (mod16_nibble x) as Hx.
  assert (Hn0 : is_nibble 0) by (unfold is_nibble; lia).
  destruct (Nat.odd i) eqn:E.
  - pose proof (half_odd i E) as Hh. fold j in Hh.
    assert (Hj : (j < length out)%nat) by lia.
    destruct (lookup_nibbles_byte out j Hj) as [Hhi Hlo].
    rewrite Nat.add_1_r, <- Hh, H0 in Hlo. injection Hlo as Hlo.
    assert (Hv : z2b v = pack2 (hi_nib (nth j out Byte.x00)) (x mod 16)).
    { subst v. rewrite (proj2 (Nat.eqb_eq _ _)).
      - rewrite <- (pack2_nibs (nth j out Byte.x00)) at 1. rewrite <- Hlo. unfold pack2.
        pose proof (hi_nib_range (nth j out Byte.x00)) as Hr. unfold is_nibble in Hr.
        rewrite b2z_z2b_small, land15, Z.add_0_r by lia. f_equal.
        rewrite <- lor_shiftl4 by apply Hx. f_equal. rewrite Z.shiftl_mul_pow2 by lia. lia.
      - rewrite Hh. symmetry. apply (Nat.mod_unique _ 2 j 1); lia. }
    rewrite Hv, to_nibbles_insert, hi_pack2, lo_pack2 by (done || apply hi_nib_range).
    replace (2 * j + 1)%nat with i by lia.
    apply list_insert_id. rewrite list_lookup_insert_ne by lia. done.
  - pose proof (half_even i E) as Hh. fold j in Hh. assert (Hj : (j < length out)%nat) by lia.
    assert (Hv : z2b v = pack2 (x mod 16) 0).
    { subst v. rewrite (proj2 (Nat.eqb_neq _ _)).
      - rewrite land15, Z.shiftl_mul_pow2 by lia. unfold pack2. f_equal. lia.
      - rewrite Hh. rewrite (Nat.mul_comm 2), Nat.Div0.mod_mul. done. }
    rewrite Hv, to_nibbles_insert, hi_pack2, lo_pack2 by done.
    rewrite <- Hh. f_equal. apply list_insert_id. rewrite Nat.add_1_r. by apply H1.
Qed.

Lemma pack_walked_spec walked done out :
  length out = 32%nat → (length done + length walked ≤ 64)%nat →
  to_nibbles out = done ++ replicate (64 - length done) 0 →
  to_nibbles (pack_walked (length done) walked out)
  = done ++ map (λ x, x mod 16) walked ++ replicate (64 - length done - length walked) 0.
Proof.
  revert done out. induction walked as [|x w IH]; intros done out Hl Hle Hn.
  { cbn. by rewrite Nat.sub_0_r. }
  cbn [pack_walked length] in *.
  assert (Hz : ∀ i, (length done ≤ i < 64)%nat → to_nibbles out !! i = Some 0).
  { intros i Hi. rewrite Hn, lookup_app_r by lia. apply lookup_replicate_2. lia. }
  pose proof (pack_step (length done) x out) as Hs. cbn zeta in Hs.
  replace (S (length done)) with (length (done ++ [x mod 16])) by (rewrite length_app; simpl; lia).
  rewrite IH.
  - rewrite <- app_assoc. cbn [map app]. do 3 f_equal. rewrite length_app. f_equal. simpl. lia.
  - by rewrite length_insert.
  - rewrite length_app. simpl. lia.
  - rewrite Hs.
    + rewrite Hn, insert_app_r_alt, Nat.sub_diag by lia. rewrite <- app_assoc. f_equal.
      rewrite length_app. replace (64 - length done)%nat with (S (64 - (length done + 1))) by lia.
      done.
    + lia.
    + apply Hz. lia.
    + intros Ho. apply Hz. pose proof (half_even _ Ho). split; [lia|].
      destruct (decide (length done = 63)%nat) as [E|]; [by rewrite E in Ho|lia].
Qed.

(** Base-16 value of a nibble list. *)
Definition nib_val (ns : list Z) : Z := foldl (λ v n, 16 * v + n) 0 ns.

Lemma nib_val_snoc ns n : nib_val (ns ++ [n]) = 16 * nib_val ns + n.
Proof. unfold nib_val. by rewrite foldl_app. Qed.

Lemma be_val_nibbles l : be_val l = nib_val (to_nibbles l).
Proof.
  induction l as [|b l IH] using rev_ind; [done|].
  rewrite be_val_snoc, to_nibbles_app.
  change (to_nibbles [b]) with ([hi_nib b] ++ [lo_nib b]).
  rewrite app_assoc, !nib_val_snoc, <- IH, hi_nib_div, lo_nib_mod.
  pose proof (Z.div_mod (b2z b) 16). lia.
Qed.

(** The bytes one nibble to the right, as the 256-bit shift produces them. *)
Lemma shifted_nibbles t r :
  length t = 32%nat → length r = 32%nat → be_val r = be_val t / 16 →
  to_nibbles r = 0 :: take 63 (to_nibbles t).
Proof.
  intros Ht Hr Hv. set (N := 0 :: take 63 (to_nibbles t)).
  assert (HN : to_nibbles (pack_nibs N) = N).
  { apply (to_pack_nibs 32).
    - constructor; [unfold is_nibble; lia|]. apply Forall_take, to_nibbles_range.
    - subst N. cbn [length]. rewrite length_take, length_to_nibbles, Ht. done. }
  rewrite <- HN. f_equal. apply be_val_inj.
  - rewrite Hr. apply (f_equal length) in HN. rewrite length_to_nibbles in HN.
    subst N. cbn [length] in HN. rewrite length_take, length_to_nibbles, Ht in HN. lia.
  - rewrite Hv, !be_val_nibbles, HN. subst N.
    assert (Hs : ∃ n, to_nibbles t = take 63 (to_nibbles t) ++ [n] ∧ is_nibble n).
    { pose proof (to_nibbles_range t) as HF. rewrite <- (take_drop 63 (to_nibbles t)) in HF.
      assert (Hd : length (drop 63 (to_nibbles t)) = 1%nat)
        by (rewrite length_drop, length_to_nibbles, Ht; done).
      destruct (drop 63 (to_nibbles t)) as [|n [|]] eqn:E; try done.
      exists n. split; [rewrite <- E; symmetry; apply take_drop|].
      apply Forall_app in HF as [_ HF]. by inversion HF. }
    destruct Hs as (n & Hn & Hr'). rewrite Hn at 1. rewrite nib_val_snoc.
    rewrite Z.mul_comm, Z.div_add_l by lia. rewrite (Z.div_small n) by apply Hr'.
    unfold nib_val. cbn [foldl]. change (16 * 0 + 0) with 0. lia.
Qed.

Definition bor (a b : byte) : byte := z2b (Z.lor (b2z a) (b2z b)).

Lemma lor_bound a b n : 0 ≤ a < 2 ^ n → 0 ≤ b < 2 ^ n → 0 ≤ n → 0 ≤ Z.lor a b < 2 ^ n.
Proof.
  intros Ha Hb Hn. split; [apply Z.lor_nonneg; lia|].
  rewrite <- (Z.mod_small a (2 ^ n)), <- (Z.mod_small b (2 ^ n)) by done.
  rewrite <- !Z.land_ones, <- Z.land_lor_distr_l, Z.land_ones by done.
  apply Z.mod_pos_bound. lia.
Qed.

Lemma b2z_bor a b : b2z (bor a b) = Z.lor (b2z a) (b2z b).
Proof.
  unfold bor. apply b2z_z2b_small. pose proof (b2z_range a). pose proof (b2z_range b).
  apply (lor_bound _ _ 8); simpl; lia.
Qed.

Lemma be_val_bor a b :
  length a = length b → be_val (zip_with bor a b) = Z.lor (be_val a) (be_val b).
Proof.
  revert b. induction a as [|x a IH] using rev_ind; intros b Hl.
  { by destruct b. }
  destruct b as [|y b _] using rev_ind; [rewrite length_app in Hl; simpl in Hl; lia|].
  rewrite !length_app in Hl. simpl in Hl.
  rewrite zip_with_app by lia. cbn [zip_with]. rewrite !be_val_snoc, IH, b2z_bor by lia.
  pose proof (b2z_range x). pose proof (b2z_range y).
  rewrite <- !lor_shiftl8 by (done || apply (lor_bound _ _ 8); simpl; lia).
  rewrite Z.shiftl_lor, <- !Z.lor_assoc. f_equal. rewrite !Z.lor_assoc. f_equal. apply Z.lor_comm.
Qed.

Lemma zip_with_reverse {A B C} (f : A → B → C) a b :
  length a = length b → zip_with f (reverse a) (reverse b) = reverse (zip_with f a b).
Proof.
  revert b. induction a as [|x a IH]; intros [|y b] Hl; try done.
  simpl in Hl. rewrite !reverse_cons, zip_with_app by (rewrite !length_reverse; lia).
  cbn [zip_with]. by rewrite reverse_cons, IH by lia.
Qed.

(** ORing native words is ORing their bytes. *)
Lemma or_word a x :
  length a = 8%nat → in_u64 x →
  le_bytes 8 (Z.lor (le_val a) (Rlp.builtin_bswap64 x)) = zip_with bor a (be_bytes 8 x).
Proof.
  intros Ha Hx. unfold Rlp.builtin_bswap64, le_bytes, le_val.
  rewrite <- be_val_bor by (rewrite !length_reverse, length_be_bytes; done).
  rewrite zip_with_reverse by (by rewrite length_be_bytes).
  set (z := zip_with bor a (be_bytes 8 x)).
  assert (Hz : length (reverse z) = 8%nat)
    by (subst z; rewrite length_reverse, length_zip_with, length_be_bytes, Ha; done).
  replace 8%nat with (length (reverse z)). by rewrite be_bytes_be_val, reverse_involutive.
Qed.

(** The carry between two limbs of the 4-bit right shift. *)
Lemma limb_shift hi lo :
  in_u64 hi → in_u64 lo →
  Z.lor (Z.shiftr lo 4) (u64 (Z.shiftl hi 60)) = (hi mod 16) * 2 ^ 60 + lo / 16.
Proof.
  unfold in_u64. intros Hhi Hlo. rewrite Z.lor_comm, Z.shiftr_div_pow2 by lia.
  change (2 ^ 4) with 16. unfold u64. rewrite Z.shiftl_mul_pow2 by lia.
  change (2 ^ 64) with (16 * 2 ^ 60). rewrite Z.mul_mod_distr_r by lia.
  rewrite <- Z.shiftl_mul_pow2 by lia. rewrite lor_shiftl; [by rewrite Z.shiftl_mul_pow2 by lia|lia|].
  Z.div_mod_to_equations. lia.
Qed.

Lemma chunks_32 {A} (l : list A) :
  length l = 32%nat →
  l = take 8 l ++ take 8 (drop 8 l) ++ take 8 (drop 16 l) ++ take 8 (drop 24 l).
Proof.
  intros Hl. rewrite (firstn_all2 (n := 8) (drop 24 l)) by (rewrite length_drop; lia).
  replace 24%nat with (16 + 8)%nat by done. rewrite <- (drop_drop l 8 16), take_drop.
  replace 16%nat with (8 + 8)%nat by done. rewrite <- (drop_drop l 8 8), take_drop.
  by rewrite take_drop.
Qed.

Lemma load_chunk l j :
  length l = 32%nat → (j < 4)%nat →
  Rlp.builtin_bswap64 (Rlp.load_u64 l (8 * Z.of_nat j)) = be_val (take 8 (drop (8 * j) l)) ∧
  in_u64 (be_val (take 8 (drop (8 * j) l))).
Proof.
  intros Hl Hj. unfold Rlp.load_u64. replace (Z.to_nat (8 * Z.of_nat j)) with (8 * j)%nat by lia.
  assert (H8 : length (take 8 (drop (8 * j) l)) = 8%nat) by (rewrite length_take, length_drop; lia).
  rewrite Rlp.bswap_load by done. split; [done|].
  pose proof (be_val_bound (take 8 (drop (8 * j) l))) as Hb. rewrite H8 in Hb. apply Hb.
Qed.

Lemma shift_merge_spec out t :
  length out = 32%nat → length t = 32%nat →
  ∃ r, shift_merge out t = zip_with bor out r ∧ length r = 32%nat ∧ be_val r = be_val t / 16.
Proof.
  intros Ho Ht.
  destruct (load_chunk t 0 Ht ltac:(lia)) as [E0 R0]. destruct (load_chunk t 1 Ht ltac:(lia)) as [E1 R1].
  destruct (load_chunk t 2 Ht ltac:(lia)) as [E2 R2]. destruct (load_chunk t 3 Ht ltac:(lia)) as [E3 R3].
  change (Z.of_nat 0) with 0 in *. change (Z.of_nat 1) with 1 in *.
  change (Z.of_nat 2) with 2 in *. change (Z.of_nat 3) with 3 in *.
  cbn [Nat.mul Nat.add] in *. unfold shift_merge. rewrite E0, E1, E2, E3. rewrite !limb_shift by done.
  rewrite Z.shiftr_div_pow2 by lia. change (2 ^ 4) with 16.
  pose proof (chunks_32 t Ht) as Hct.
  set (w0 := be_val (take 8 (drop 0 t))) in *. set (w1 := be_val (take 8 (drop 8 t))) in *.
  set (w2 := be_val (take 8 (drop 16 t))) in *. set (w3 := be_val (take 8 (drop 24 t))) in *.
  set (x0 := w0 / 16). set (x1 := (w0 mod 16) * 2 ^ 60 + w1 / 16).
  set (x2 := (w1 mod 16) * 2 ^ 60 + w2 / 16). set (x3 := (w2 mod 16) * 2 ^ 60 + w3 / 16).
  assert (H : in_u64 x0 ∧ in_u64 x1 ∧ in_u64 x2 ∧ in_u64 x3).
  { unfold in_u64 in *. subst x0 x1 x2 x3. clearbody w0 w1 w2 w3.
    repeat split; Z.div_mod_to_equations; lia. }
  destruct H as (X0 & X1 & X2 & X3).
  exists (be_bytes 8 x0 ++ be_bytes 8 x1 ++ be_bytes 8 x2 ++ be_bytes 8 x3).
  split; [|split].
  - cbn [imap concat]. unfold Rlp.load_u64, compose.
    rewrite !or_word by (done || rewrite length_take, length_drop, Ho; reflexivity).
    rewrite app_nil_r. rewrite (chunks_32 out Ho) at 5.
    rewrite !zip_with_app by (rewrite length_take, ?length_drop, Ho, length_be_bytes; reflexivity). done.
  - rewrite !length_app, !length_be_bytes. done.
  - assert (Hbt : be_val t = w0 * 2 ^ 192 + (w1 * 2 ^ 128 + (w2 * 2 ^ 64 + w3))).
    { rewrite Hct, !be_val_app, !length_app, !length_take, !length_drop, Ht. done. }
    rewrite !be_val_app, !length_app, !length_be_bytes, !be_val_be_bytes_small, Hbt by assumption.
    change (256 ^ Z.of_nat (8 + (8 + 8))) with (2 ^ 192).
    change (256 ^ Z.of_nat (8 + 8)) with (2 ^ 128). change (256 ^ Z.of_nat 8) with (2 ^ 64).
    subst x0 x1 x2 x3. clearbody w0 w1 w2 w3. clear. symmetry.
    Z.div_mod_to_equations. lia.
Qed.

Lemma zip_bor_nibbles a b :
  length a = length b →
  to_nibbles (zip_with bor a b) = zip_with Z.lor (to_nibbles a) (to_nibbles b).
Proof.
  revert b. induction a as [|x a IH]; intros [|y b] Hl; try done. simpl in Hl.
  cbn [zip_with]. rewrite !to_nibbles_cons, IH by lia. cbn [zip_with]. unfold hi_nib, lo_nib.
  rewrite b2z_bor. f_equal; [by rewrite Z.shiftr_lor|]. f_equal. by rewrite Z.land_lor_distr_l.
Qed.

Lemma zip_lor_zeros a b :
  zip_with Z.lor (a ++ replicate (length b) 0) (replicate (length a) 0 ++ b) = a ++ b.
Proof.
  induction a as [|x a IH]; cbn [length replicate app zip_with].
  - induction b as [|y b IHb]; [done|]. cbn [length replicate zip_with]. by rewrite IHb, Z.lor_0_l.
  - by rewrite IH, Z.lor_0_r.
Qed.

Lemma to_nibbles_zeros n : to_nibbles (replicate n Byte.x00) = replicate (2 * n) 0.
Proof.
  induction n as [|n IH]; [done|]. cbn [replicate]. rewrite to_nibbles_cons, IH.
  by replace (2 * S n)%nat with (S (S (2 * n))) by lia.
Qed.

(** What both parities share: the walk is packed and the suffix is read whole. *)
Lemma pack_key_hash_cases walked suffix :
  path_wf suffix → off suffix = 0 → Z.of_nat (length walked) + plen suffix = 64 →
  let d2 := (length walked / 2)%nat in
  length (tail suffix) = (32 - d2)%nat ∧
  pnibbles suffix = take (Z.to_nat (plen suffix)) (to_nibbles (tail suffix)) ∧
  ∃ out, length out = 32%nat ∧
    to_nibbles out = map (λ x, x mod 16) walked ++ replicate (64 - length walked) 0 ∧
    pack_key_hash walked suffix =
      if Nat.odd (length walked) then
        t ← mem_write (replicate 32 Byte.x00) (Z.of_nat d2) (tail suffix);
        mret (shift_merge out t)
      else mem_write out (Z.of_nat d2) (tail suffix).
Proof.
  intros Hwf Ho Hs d2. pose proof (length_tail _ Hwf) as Ht.
  pose proof Hwf as (Hl & _ & Hp & Hst & _). unfold path_bytes in Ht. rewrite Ho in Ht.
  assert (Hd : Z.of_nat (length walked) / 2 = Z.of_nat d2)
    by (subst d2; change 2 with (Z.of_nat 2); by rewrite <- Nat2Z.inj_div).
  split; [Z.div_mod_to_equations; lia|]. split.
  { rewrite pnibbles_spec, Ho by done. change (Z.to_nat 0) with 0%nat. by rewrite drop_0. }
  pose proof (pack_walked_spec walked [] (replicate 32 Byte.x00) eq_refl ltac:(simpl; lia)
    (to_nibbles_zeros 32)) as Hw.
  exists (pack_walked 0 walked (replicate 32 Byte.x00)). split; [|split; [exact Hw|]].
  { apply (f_equal length) in Hw.
    rewrite length_to_nibbles, length_app, length_app, length_map, length_replicate in Hw.
    cbn [length] in Hw. lia. }
  unfold pack_key_hash. rewrite (proj2 (Z.eqb_eq _ 64) Hs), Ho.
  cbn [negb fatal_if mbind res_bind Z.eqb]. rewrite <- (Z.add_0_r (start suffix)).
  rewrite mem_read_tail by (done || unfold path_bytes; rewrite ?Ho; Z.div_mod_to_equations; lia).
  cbn [mbind res_bind]. change (Z.to_nat 0) with 0%nat. rewrite drop_0, Hd.
  pose proof (odd_land (Z.of_nat (length walked)) ltac:(lia)) as Hodd. rewrite Nat2Z.id in Hodd.
  rewrite <- Hodd, land1. pose proof (Z.mod_pos_bound (Z.of_nat (length walked)) 2 ltac:(lia)).
  destruct (Z.eqb_spec (Z.of_nat (length walked) mod 2) 0), (Z.eqb_spec (Z.of_nat (length walked) mod 2) 1);
    (done || lia).
Qed.

Lemma pack_key_hash_nibbles walked suffix :
  path_wf suffix → off suffix = 0 → Z.of_nat (length walked) + plen suffix = 64 →
  ∃ key, pack_key_hash walked suffix = Ok key ∧ length key = 32%nat ∧
         to_nibbles key = map (λ x, x mod 16) walked ++ pnibbles suffix.
Proof.
  intros Hwf Ho Hs. pose proof Hwf as (Hl & _ & Hp & Hst & _).
  destruct (pack_key_hash_cases walked suffix Hwf Ho Hs) as (Hlt & Hpn & out & Hlo & Hw & ->).
  set (d2 := (length walked / 2)%nat) in *. destruct (Nat.odd (length walked)) eqn:E.
  - pose proof (half_odd _ E) as Hh. fold d2 in Hh.
    rewrite mem_write_ok by (rewrite ?length_replicate; lia). cbn [mbind res_bind mret res_ret].
    rewrite Nat2Z.id, Hlt, (drop_ge (replicate 32 _)), app_nil_r, take_replicate, Nat.min_l
      by (rewrite ?length_replicate; lia).
    set (t := replicate d2 Byte.x00 ++ tail suffix).
    assert (Hlt' : length t = 32%nat) by (subst t; rewrite length_app, length_replicate; lia).
    destruct (shift_merge_spec out t Hlo Hlt') as (r & -> & Hr & Hv).
    eexists. split; [done|]. split; [rewrite length_zip_with; lia|].
    rewrite zip_bor_nibbles, (shifted_nibbles t r), Hw by lia. subst t.
    rewrite to_nibbles_app, to_nibbles_zeros, take_app_ge by (rewrite length_replicate; lia).
    rewrite length_replicate. replace (63 - 2 * d2)%nat with (Z.to_nat (plen suffix)) by lia.
    rewrite <- Hpn, app_comm_cons.
    change (0 :: replicate (2 * d2) 0) with (replicate (S (2 * d2)) 0). rewrite <- Hh.
    replace (64 - length walked)%nat with (length (pnibbles suffix)) by (rewrite length_pnibbles; lia).
    rewrite <- (length_map (λ x, x mod 16) walked). apply zip_lor_zeros.
  - pose proof (half_even _ E) as Hh. fold d2 in Hh.
    rewrite mem_write_ok by lia. eexists. split; [done|]. rewrite Nat2Z.id.
    split; [rewrite !length_app, length_take, length_drop; lia|].
    rewrite drop_ge, app_nil_r by lia.
    rewrite to_nibbles_app, <- take_to_nibbles, Hw, <- Hh.
    rewrite take_app_length' by (by rewrite length_map). f_equal. rewrite Hpn.
    symmetry. apply firstn_all2. rewrite length_to_nibbles. lia.
Qed.

(** ** Properties *)

(** C29. [PackedPath] is a nibble list: prepending (the fold on the way up) adds
    one nibble in front and never fails below the buffer's capacity, dropping
    removes nibbles from the front, and a key's path at [depth] is the key's
    nibbles from [depth] on; each operation keeps the packing invariant. *)
Theorem packed_path_refines_list (p : PackedPath) (g key : bytes) (nib k depth : Z) :
  (path_wf p → plen p < 67 →
   ∃ p', path_prepend nib p = Ok p' ∧ path_wf p' ∧ pnibbles p' = nib mod 16 :: pnibbles p) ∧
  (path_wf p → plen p ≤ 66 → 0 ≤ k ≤ plen p →
   path_wf (drop_front k p) ∧ pnibbles (drop_front k p) = drop (Z.to_nat k) (pnibbles p)) ∧
  (length g = 34%nat → length key = 32%nat → 0 ≤ depth ≤ 64 →
   ∃ p', path_from_key g key depth = Ok p' ∧ path_wf p' ∧
         pnibbles p' = map (nibble_at key) (seq (Z.to_nat depth) (Z.to_nat (64 - depth)))).
Proof.
  refine (conj _ (conj _ _)).
  - intros Hwf Hl. destruct (prepend_nibbles nib p Hwf Hl) as (p' & ? & ? & ? & _). eauto.
  - apply drop_front_nibbles.
  - intros Hg Hk Hd. destruct (path_from_key_nibbles g key depth Hg Hk Hd) as (p' & H & Hwf & _ & Hn).
    exists p'. split; [done|]. split; [done|]. rewrite Hn.
    rewrite <- (firstn_all2 (n := Z.to_nat (64 - depth)) (drop _ _))
      by (rewrite length_drop, length_to_nibbles; lia).
    rewrite <- (map_nth_seq _ 0) by (rewrite length_to_nibbles; lia).
    pose proof (fmap_add_seq (Z.to_nat depth) 0 (Z.to_nat (64 - depth))) as Hs.
    rewrite Nat.add_0_r in Hs. rewrite <- Hs.
    change (fmap (Nat.add (Z.to_nat depth)) (seq 0 (Z.to_nat (64 - depth))))
      with (map (Nat.add (Z.to_nat depth)) (seq 0 (Z.to_nat (64 - depth)))).
    rewrite map_map. apply map_ext. intros i. by rewrite nth_to_nibbles.
Qed.

Lemma packed_path_refines_list_witness :
  ∃ p', path_prepend 7 (path_new (replicate 34 Byte.x00)) = Ok p' ∧ pnibbles p' = [7].
Proof.
  destruct (packed_path_refines_list (path_new (replicate 34 Byte.x00)) [] [] 7 0 0) as [H _].
  destruct H as (p' & H1 & _ & H2); [apply path_new_wf; reflexivity|vm_compute; reflexivity|].
  exists p'. split; [exact H1|]. rewrite H2. reflexivity.
Defined.

(** Hex prefix: the packed encoder (its copying fast path as well as its
    shifting slow path) and the one-nibble-per-byte overload both compute the
    Yellow Paper encoding of the path, which fits the 33-byte result and from
    which path and leaf flag are recovered, so it is injective. *)
Theorem hex_prefix_correct (p : PackedPath) (ns : list Z) (leaf : bool) :
  path_wf p → plen p ≤ 64 → Forall is_nibble ns → (length ns ≤ 64)%nat →
  ∃ out out', hex_prefix p leaf = Ok out ∧ hex_prefix_nibbles ns leaf = Ok out' ∧
    out = hp_spec (pnibbles p) leaf ∧ out' = hp_spec ns leaf ∧
    (length out ≤ 33 ∧ length out' ≤ 33)%nat ∧
    hp_decode out = Some (pnibbles p, leaf) ∧ hp_decode out' = Some (ns, leaf).
Proof.
  intros Hwf Hp HF Hl. exists (hp_spec (pnibbles p) leaf), (hp_spec ns leaf).
  split; [by apply hex_prefix_spec|]. split.
  { rewrite hex_prefix_nibbles_spec by lia. do 2 f_equal.
    rewrite <- (map_id ns) at 2. apply map_ext_Forall.
    eapply Forall_impl; [exact HF|]. intros x Hx. by apply Z.mod_small. }
  split; [done|]. split; [done|]. split.
  { split; apply hp_spec_length; [rewrite length_pnibbles|]; lia. }
  split; apply hp_decode_spec; [by apply pnibbles_range|done].
Qed.

Lemma hex_prefix_correct_witness :
  ∃ out out', hex_prefix (path_new (replicate 34 Byte.x00)) true = Ok out ∧
    hex_prefix_nibbles [1; 2; 3] true = Ok out' ∧ hp_decode out' = Some ([1; 2; 3], true).
Proof.
  destruct (hex_prefix_correct (path_new (replicate 34 Byte.x00)) [1; 2; 3] true)
    as (o & o' & H1 & H2 & _ & _ & _ & _ & H3).
  - apply path_new_wf. reflexivity.
  - vm_compute. congruence.
  - repeat constructor; vm_compute; congruence.
  - simpl. lia.
  - exists o, o'. auto.
Defined.

(** Key reconstruction: for every 32-byte key and every depth, the walked
    nibbles plus the byte-aligned suffix the witness carries rebuild exactly
    that key, through the four-limb shift when the depth is odd. *)
Theorem pack_key_hash_inverts (key : bytes) (suffix : PackedPath) (d : nat) :
  length key = 32%nat → (d ≤ 64)%nat → path_wf suffix → off suffix = 0 →
  pnibbles suffix = drop d (to_nibbles key) →
  pack_key_hash (take d (to_nibbles key)) suffix = Ok key.
Proof.
  intros Hk Hd Hwf Ho Hn.
  assert (Hpl : plen suffix = 64 - Z.of_nat d).
  { apply (f_equal length) in Hn.
    rewrite length_pnibbles, length_drop, length_to_nibbles, Hk in Hn.
    destruct Hwf as (_ & _ & ? & _). lia. }
  assert (Hlw : length (take d (to_nibbles key)) = d)
    by (rewrite length_take, length_to_nibbles; lia).
  destruct (pack_key_hash_nibbles (take d (to_nibbles key)) suffix) as (k' & -> & _ & Hk');
    [done|done|lia|].
  f_equal. apply to_nibbles_inj. rewrite Hk', Hn. rewrite <- (take_drop d (to_nibbles key)) at 3.
  f_equal. rewrite <- (map_id (take d _)) at 2. apply map_ext_Forall.
  eapply Forall_impl; [apply Forall_take, to_nibbles_range|].
  intros x Hx. by apply Z.mod_small.
Qed.

Lemma pack_key_hash_inverts_witness :
  ∃ suffix, assign (path_new (replicate 34 Byte.x00)) (be_bytes 31 (12345 * 16 + 5)) 0 61 = Ok suffix ∧
  pack_key_hash [8; 0; 0] suffix = Ok (be_bytes 32 (2 ^ 255 + 12345)).
Proof.
  destruct (assign_nibbles (path_new (replicate 34 Byte.x00)) (be_bytes 31 (12345 * 16 + 5)) 0 61)
    as (p & H1 & Hwf & _ & Ho & Hn); [reflexivity|lia|lia|vm_compute; congruence|].
  exists p. split; [exact H1|].
  apply (pack_key_hash_inverts (be_bytes 32 (2 ^ 255 + 12345)) p 3); [reflexivity|lia|exact Hwf|exact Ho|].
  rewrite Hn. vm_compute. reflexivity.
Defined.

End TriePath.
