(* ===== verification/Mpt.v ===== *)
(** src/mpt.cpp: the one-shot Merkle Patricia trie of the block's transactions,
    receipts and withdrawals.  The builder sorts the entries and reads common
    prefixes and branch children off the sorted runs; it computes the Yellow
    Paper's trie, which looks at sets of entries. *)

From stdpp Require Import base numbers list sorting strings.
From S2P Require Import Prelude Rlp Writer TriePath.

Set Default Goal Selector "!".

Module Mpt.
Import Rlp Writer TriePath.

Section Mpt.
Context (keccak256 : bytes → Z).

(** ** The builder *)

Record PathEntry := mkEntry { path : list Z; value : bytes }.

Definition keccak256_bytes32 (b : bytes) : bytes := be_bytes 32 (keccak256 b).

Definition node_ref (node_rlp : bytes) : bytes :=
  if len node_rlp <? 32 then node_rlp else encode (keccak256_bytes32 node_rlp).

(** The leaf, written into a buffer of its exact size. *)
Definition str_size (d : bytes) : Z :=
  if (len d =? 1) && (b2z (hd Byte.x00 d) <? 0x80) then 1 else item_size (len d).
Definition build_leaf (rest : list Z) (v : bytes) : res bytes :=
  hp ← hex_prefix_nibbles rest true;
  let payload := str_size hp + str_size v in
  '(out, _) ← seq (put (make_header 0xc0 0xf7 payload))
                (seq (advance (λ buf p, write_string buf p hp))
                     (advance (λ buf p, write_string buf p v)))
                (replicate (Z.to_nat (item_size payload)) Byte.x00, 0);
  mret out.

(** [while (first.path[common] == last.path[common]) ++common], from the depth on. *)
Fixpoint lcp (a b : list Z) : list Z :=
  match a, b with
  | x :: a, y :: b => if x =? y then x :: lcp a b else []
  | _, _ => []
  end.

(** The run of entries that go on with [nib] at [depth]. *)
Fixpoint take_run (depth : nat) (nib : Z) (es : list PathEntry) : list PathEntry * list PathEntry :=
  match es with
  | e :: es' =>
      if (depth <? length (path e))%nat && (nth depth (path e) 0 =? nib) then
        let '(run, rest) := take_run depth nib es' in (e :: run, rest)
      else ([], es)
  | [] => ([], [])
  end.

(** The walk over the entries of a branch; a round consumes an entry at least. *)
Fixpoint fill_branch (build_node : list PathEntry → nat → res bytes) (rounds : nat) (depth : nat)
    (es : list PathEntry) (child_refs : list bytes) (value_slot : bytes) : res (list bytes * bytes) :=
  match rounds, es with
  | S rounds, e :: es =>
      if (length (path e) =? depth)%nat then
        fill_branch build_node rounds depth es child_refs (encode (value e))
      else
        let nib := nth depth (path e) 0 in
        let '(run, rest) := take_run depth nib es in
        child ← build_node (e :: run) (S depth);
        child_refs ← vec_set child_refs (Z.to_nat nib) (node_ref child);
        fill_branch build_node rounds depth rest child_refs value_slot
  | _, _ => Ok (child_refs, value_slot)
  end.

(** Every call goes deeper into the paths, so their length bounds the nesting. *)
Fixpoint build_node (fuel : nat) (entries : list PathEntry) (depth : nat) : res bytes :=
  match fuel with
  | O => Fatal "mpt: nested deeper than the paths"
  | S fuel =>
      match entries with
      | [] => Fatal "mpt: no entries"
      | [e] => build_leaf (drop depth (path e)) (value e)
      | first :: rest =>
          let ext := lcp (drop depth (path first)) (drop depth (path (List.last rest first))) in
          if (0 <? length ext)%nat then
            hp ← hex_prefix_nibbles ext false;
            child_rlp ← build_node fuel entries (depth + length ext);
            mret (encode_list [encode hp; node_ref child_rlp])
          else
            '(child_refs, value_slot) ←
              fill_branch (build_node fuel) (length entries) depth entries (replicate 16 [Byte.x80]) [Byte.x80];
            mret (encode_list (child_refs ++ [value_slot]))
      end
  end.

(** [std::vector]'s order on paths. *)
Fixpoint path_le (a b : list Z) : bool :=
  match a, b with
  | [], _ => true
  | _ :: _, [] => false
  | x :: a, y :: b => (x <? y) || ((x =? y) && path_le a b)
  end.
Definition entry_le (a b : PathEntry) : Prop := path_le (path a) (path b) = true.
#[global] Instance entry_le_dec a b : Decision (entry_le a b).
Proof. unfold entry_le. apply _. Defined.

(** The trie: the entries in insertion order. *)
Definition insert (key value : bytes) (entries_ : list (bytes * bytes)) : list (bytes * bytes) :=
  entries_ ++ [(key, value)].

Definition max_path (es : list PathEntry) : nat := max_list (map (λ e, length (path e)) es).
Definition root_hash (entries_ : list (bytes * bytes)) : res Z :=
  match entries_ with
  | [] => Ok (keccak256 [Byte.x80])
  | _ =>
      let pe := merge_sort entry_le (map (λ '(k, v), mkEntry (to_nibbles k) v) entries_) in
      root_rlp ← build_node (S (max_path pe)) pe 0;
      Ok (keccak256 root_rlp)
  end.

(** ** The Yellow Paper's trie (appendix D), on a set of pairs *)

Abbreviation kv := (list Z * bytes)%type.

Fixpoint lcp_all (ps : list (list Z)) : list Z :=
  match ps with
  | [] => []
  | [p] => p
  | p :: ps => lcp p (lcp_all ps)
  end.
(** The pairs below nibble [j], and the value of the pair that ends here. *)
Definition below (j : Z) (I : list kv) : list kv :=
  omap (λ '(p, v), match p with x :: p => if x =? j then Some (p, v) else None | [] => None end) I.
Fixpoint ending_or (slot : bytes) (I : list kv) : bytes :=
  match I with
  | [] => slot
  | ([], v) :: _ => encode v
  | _ :: J => ending_or slot J
  end.
Definition ending : list kv → bytes := ending_or [Byte.x80].

Definition child_ref (trie : list kv → bytes) (J : list kv) : bytes :=
  match J with [] => [Byte.x80] | _ => node_ref (trie J) end.
Fixpoint trie (n : nat) (I : list kv) : bytes :=
  match n with
  | O => []
  | S n =>
      match I with
      | [(p, v)] => encode_list [encode (hp_spec p true); encode v]
      | _ =>
          let c := lcp_all (map fst I) in
          if (0 <? length c)%nat then
            encode_list [encode (hp_spec c false); node_ref (trie n (map (λ '(p, v), (drop (length c) p, v)) I))]
          else
            encode_list (map (λ j, child_ref (trie n) (below j I)) (seqZ 0 16) ++ [ending I])
      end
  end.

(** ** The order on paths *)

Lemma path_le_refl a : path_le a a = true.
Proof. induction a as [|x a IH]; [done|]. cbn. by rewrite IH, Z.eqb_refl, orb_true_r. Qed.
Lemma path_le_total a b : path_le a b = true ∨ path_le b a = true.
Proof.
  revert b. induction a as [|x a IH]; intros [|y b]; cbn; auto.
  destruct (IH b); destruct (Z.ltb_spec x y), (Z.ltb_spec y x), (Z.eqb_spec x y), (Z.eqb_spec y x); cbn; auto; lia.
Qed.
Lemma path_le_trans a b c : path_le a b = true → path_le b c = true → path_le a c = true.
Proof.
  revert b c. induction a as [|x a IH]; intros [|y b] [|z c]; cbn; try done.
  rewrite !orb_true_iff, !andb_true_iff, !Z.ltb_lt, !Z.eqb_eq.
  intros [?|[-> ?]] [?|[-> ?]]; [left; lia|left; lia|left; lia|]. right. eauto.
Qed.
Lemma path_le_app p a b : path_le (p ++ a) (p ++ b) = path_le a b.
Proof. induction p as [|x p IH]; [done|]. cbn. by rewrite Z.ltb_irrefl, Z.eqb_refl. Qed.
Lemma path_le_head x a y b : path_le (x :: a) (y :: b) = true → x ≤ y.
Proof. cbn. rewrite orb_true_iff, andb_true_iff, Z.ltb_lt, Z.eqb_eq. lia. Qed.

(** ** Common prefixes *)

Lemma lcp_prefix a b : lcp a b `prefix_of` a ∧ lcp a b `prefix_of` b.
Proof.
  revert b. induction a as [|x a IH]; intros [|y b]; cbn; try (split; apply prefix_nil).
  destruct (Z.eqb_spec x y); [|split; apply prefix_nil]. subst. destruct (IH b).
  split; by apply prefix_cons.
Qed.
Lemma lcp_greatest k a b : k `prefix_of` a → k `prefix_of` b → k `prefix_of` lcp a b.
Proof.
  revert a b. induction k as [|x k IH]; [intros; apply prefix_nil|].
  intros [|y a] [|z b] Ha Hb; try (by apply prefix_nil_not in Ha); try (by apply prefix_nil_not in Hb).
  apply prefix_cons_inv_1 in Ha as Ex. apply prefix_cons_inv_1 in Hb as Ey. subst.
  apply prefix_cons_inv_2 in Ha, Hb. cbn. rewrite Z.eqb_refl. by apply prefix_cons, IH.
Qed.
(** What the ends of a sorted run share, all of it shares. *)
Lemma lcp_between a b c : path_le a b = true → path_le b c = true → lcp a c `prefix_of` b.
Proof.
  revert b c. induction a as [|x a IH]; intros [|y b] [|z c]; cbn; try (intros; by apply prefix_nil); try done.
  destruct (Z.eqb_spec x z); [|intros; apply prefix_nil]. subst.
  rewrite !orb_true_iff, !andb_true_iff, !Z.ltb_lt, !Z.eqb_eq.
  intros [?|[-> ?]] [?|[? ?]]; try lia. apply prefix_cons. by apply IH.
Qed.

Lemma lcp_all_cons p ps : ps ≠ [] → lcp_all (p :: ps) = lcp p (lcp_all ps).
Proof. by destruct ps. Qed.
Lemma lcp_all_prefix ps q : q ∈ ps → lcp_all ps `prefix_of` q.
Proof.
  induction ps as [|p ps IH]; [by intros ?%not_elem_of_nil|].
  destruct (decide (ps = [])) as [->|Hn]; [by intros ->%list_elem_of_singleton|].
  rewrite lcp_all_cons by done. destruct (lcp_prefix p (lcp_all ps)).
  intros [->|?]%elem_of_cons; [done|]. etrans; [done|]. by apply IH.
Qed.
Lemma lcp_all_greatest k ps : ps ≠ [] → (∀ q, q ∈ ps → k `prefix_of` q) → k `prefix_of` lcp_all ps.
Proof.
  induction ps as [|p ps IH]; [done|]. intros _ H. destruct (decide (ps = [])) as [->|Hn].
  - apply H. by left.
  - rewrite lcp_all_cons by done. apply lcp_greatest; [apply H; by left|]. apply IH; [done|]. intros q Hq. apply H. by right.
Qed.
Lemma prefix_antisym {A} (a b : list A) : a `prefix_of` b → b `prefix_of` a → a = b.
Proof. intros Ha Hb. by apply (anti_symm prefix). Qed.
Lemma lcp_all_unique k ps :
  ps ≠ [] → (∀ q, q ∈ ps → k `prefix_of` q) → (∀ k', (∀ q, q ∈ ps → k' `prefix_of` q) → k' `prefix_of` k) →
  lcp_all ps = k.
Proof.
  intros Hn Hk Hg. apply prefix_antisym; [|by apply lcp_all_greatest]. apply Hg. intros. by apply lcp_all_prefix.
Qed.
Lemma lcp_all_perm ps ps' : ps ≡ₚ ps' → lcp_all ps = lcp_all ps'.
Proof.
  intros Hp. destruct (decide (ps = [])) as [->|Hn]; [by apply Permutation_nil_l in Hp as ->|].
  assert (ps' ≠ []) by (intros ->; apply Hn; by apply Permutation_nil_r).
  apply lcp_all_unique; [done|intros q; rewrite Hp; by apply lcp_all_prefix|].
  intros k' Hk'. apply lcp_all_greatest; [done|]. intros q. rewrite <- Hp. apply Hk'.
Qed.

(** ** Sorted sets of pairs *)

Definition plt (x y : kv) : Prop := path_le x.1 y.1 = true ∧ x.1 ≠ y.1.
Definition sorted : list kv → Prop := StronglySorted plt.

Lemma last_cons_default {A} (z : A) I x : List.last (z :: I) x = List.last I z.
Proof.
  revert z x. induction I as [|w I IH]; intros z x; [done|].
  transitivity (List.last (w :: I) x); [done|]. by rewrite (IH w x), (IH w z).
Qed.

Lemma last_elem {A} (x : A) I : List.last I x ∈ x :: I.
Proof.
  revert x. induction I as [|z I IH]; intros x; [by left|]. rewrite last_cons_default. right. apply IH.
Qed.

Lemma sorted_first_last x I y :
  sorted (x :: I) → y ∈ x :: I →
  path_le x.1 y.1 = true ∧ path_le y.1 (List.last I x).1 = true.
Proof.
  revert x y. induction I as [|z I IH]; intros x y Hs Hy.
  - apply list_elem_of_singleton in Hy as ->. split; apply path_le_refl.
  - apply StronglySorted_inv in Hs as [Hs Hx]. apply Forall_cons in Hx as [[Hxz _] _].
    pose proof (last_cons_default z I x) as El.
    apply elem_of_cons in Hy as [->|Hy].
    + split; [apply path_le_refl|]. rewrite El. eapply path_le_trans; [exact Hxz|]. apply (IH z z Hs). by left.
    + rewrite El. destruct (IH z y Hs Hy) as [Hzy Hl]. split; [by eapply path_le_trans|done].
Qed.

Lemma lcp_ends x I :
  sorted (x :: I) → lcp x.1 (List.last I x).1 = lcp_all (map fst (x :: I)).
Proof.
  intros Hs. symmetry. apply lcp_all_unique; [done| |].
  - intros q (y & -> & Hy)%list_elem_of_fmap. destruct (sorted_first_last x I y Hs Hy). by apply lcp_between.
  - intros k Hk. apply lcp_greatest; apply Hk, list_elem_of_fmap; [exists x; split; [done|by left]|].
    exists (List.last I x). split; [done|]. apply last_elem.
Qed.

(** Dropping a shared prefix keeps the order. *)
Definition drop_all (k : nat) (I : list kv) : list kv := map (λ '(p, v), (drop k p, v)) I.
Lemma sorted_drop c I :
  (∀ x, x ∈ I → c `prefix_of` x.1) → sorted I → sorted (drop_all (length c) I).
Proof.
  intros Hc Hs. induction Hs as [|x I Hs IH Hx]; [constructor|]. cbn. constructor.
  - apply IH. intros y Hy. apply Hc. by right.
  - destruct x as [p v]. destruct (Hc (p, v)) as [p' Ep]; [by left|]. cbn in Ep. subst p.
    unfold drop_all. apply Forall_fmap. eapply Forall_impl; [apply Forall_and; split; [exact Hx|]|].
    { apply Forall_forall. intros y Hy. apply (Hc y). by right. }
    intros [q w] [[Hle Hne] [q' Eq]]. cbn in *. subst q. rewrite path_le_app in Hle.
    unfold plt. cbn. rewrite !drop_app_length. split; [done|]. intros ->. by apply Hne.
Qed.

(** ** Runs *)

Definition suf (d : nat) (e : PathEntry) : kv := (drop d (path e), value e).

Lemma suf_cons d e : (d < length (path e))%nat → suf d e = (nth d (path e) 0 :: drop (S d) (path e), value e).
Proof.
  intros H. unfold suf. f_equal. destruct (lookup_lt_is_Some_2 _ _ H) as [x Hx].
  rewrite (drop_S _ _ _ Hx). f_equal. symmetry. by apply nth_lookup_Some.
Qed.
Lemma suf_S d e : suf (S d) e = (λ '(p, v), (drop 1 p, v)) (suf d e).
Proof. unfold suf. by rewrite drop_drop, Nat.add_1_r. Qed.

(** The pairs of a run, and what is left after it. *)
Lemma take_run_spec d nib es run rest :
  take_run d nib es = (run, rest) →
  es = run ++ rest ∧
  Forall (λ e, (d < length (path e))%nat ∧ nth d (path e) 0 = nib) run ∧
  (∀ e r, rest = e :: r → ¬ ((d < length (path e))%nat ∧ nth d (path e) 0 = nib)).
Proof.
  revert run rest. induction es as [|e es IH]; intros run rest H; cbn [take_run] in H.
  { simplify_eq. by split_and!. }
  destruct ((d <? length (path e))%nat && _) eqn:E.
  - destruct (take_run d nib es) as [run' rest'] eqn:Er. simplify_eq.
    destruct (IH _ _ eq_refl) as (-> & Hr & Hn). split; [done|]. split; [|done].
    apply andb_true_iff in E as [?%Nat.ltb_lt ?%Z.eqb_eq]. by constructor.
  - simplify_eq. split; [done|]. split; [done|]. intros e' r [= <- <-] [H1 H2].
    apply andb_false_iff in E as [?%Nat.ltb_ge|?%Z.eqb_neq]; lia.
Qed.

(** Below a nibble, of a run and of the rest. *)
Lemma below_app j I I' : below j (I ++ I') = below j I ++ below j I'.
Proof. apply omap_app. Qed.
Lemma below_cons j x p v I :
  below j ((x :: p, v) :: I) = if x =? j then (p, v) :: below j I else below j I.
Proof. unfold below. cbn. by destruct (x =? j). Qed.
Lemma below_run d j es :
  Forall (λ e, (d < length (path e))%nat ∧ nth d (path e) 0 = j) es → below j (map (suf d) es) = map (suf (S d)) es.
Proof.
  induction 1 as [|e es [Hl Hn] _ IH]; [done|]. cbn [map]. rewrite suf_cons, below_cons, Hn, Z.eqb_refl, IH by done.
  done.
Qed.
Lemma below_other j k d es :
  j ≠ k → Forall (λ e, (d < length (path e))%nat ∧ nth d (path e) 0 = k) es → below j (map (suf d) es) = [].
Proof.
  intros Hjk. induction 1 as [|e es [Hl Hn] _ IH]; [done|]. cbn [map].
  rewrite suf_cons, below_cons by done. by destruct (Z.eqb_spec (nth d (path e) 0) j); [congruence|].
Qed.

(** In a sorted list no entry after a run goes on with its nibble, or ends. *)
Lemma after_run d nib e run rest :
  (d < length (path e))%nat → nth d (path e) 0 = nib → sorted (map (suf d) (e :: run ++ rest)) →
  (∀ e r, rest = e :: r → ¬ ((d < length (path e))%nat ∧ nth d (path e) 0 = nib)) →
  Forall (λ e, (d ≤ length (path e))%nat) rest →
  Forall (λ x, ∃ j p, x.1 = j :: p ∧ j ≠ nib) (map (suf d) rest).
Proof.
  intros Hd Hn Hs Hr Hl. destruct rest as [|e1 rest]; [constructor|].
  cbn [map] in Hs. rewrite map_app in Hs. apply StronglySorted_inv in Hs as [Hs He].
  apply Forall_app in He as [_ He]. apply Forall_cons in Hl as [Hl1 Hl].
  assert (Hs1 : sorted (map (suf d) (e1 :: rest))).
  { clear -Hs. induction run as [|r run IH]; [done|]. cbn in Hs. apply StronglySorted_inv in Hs as [Hs _]. auto. }
  assert (Hgt : ∀ x, plt (suf d e) x → ∃ j p, x.1 = j :: p ∧ nib ≤ j).
  { intros [[|j q] v] [Hle _]; rewrite suf_cons in Hle by done; cbn [fst] in Hle; [done|].
    apply path_le_head in Hle. exists j, q. split; [done|lia]. }
  cbn [map] in He, Hs1. apply Forall_cons in He as [He1 He].
  destruct (Hgt _ He1) as (j1 & p1 & Ep1 & Hj1).
  assert (Hd1 : (d < length (path e1))%nat).
  { unfold suf in Ep1. cbn in Ep1. apply (f_equal length) in Ep1. rewrite length_drop in Ep1. cbn in Ep1. lia. }
  assert (Hj1' : nib < j1).
  { specialize (Hr e1 rest eq_refl). rewrite suf_cons in Ep1 by done. injection Ep1 as Ej _. lia. }
  cbn [map]. constructor; [exists j1, p1; split; [done|lia]|].
  apply StronglySorted_inv in Hs1 as [_ Hs1]. eapply Forall_impl; [exact Hs1|].
  intros [[|j q] v] [Hle _]; rewrite Ep1 in Hle; cbn [fst] in Hle; [done|].
  apply path_le_head in Hle. exists j, q. split; [done|lia].
Qed.

Lemma ending_cons slot x I :
  ending_or slot (x :: I) = if decide (x.1 = []) then encode x.2 else ending_or slot I.
Proof. by destruct x as [[|??] v]. Qed.
Lemma ending_none slot I : Forall (λ x : kv, x.1 ≠ []) I → ending_or slot I = slot.
Proof.
  induction 1 as [|x I Hx _ IH]; [done|]. rewrite ending_cons. by case_decide.
Qed.
Lemma ending_app slot I J : Forall (λ x : kv, x.1 ≠ []) I → ending_or slot (I ++ J) = ending_or slot J.
Proof. induction 1 as [|x I Hx _ IH]; [done|]. cbn [app]. rewrite ending_cons. by case_decide. Qed.
Lemma below_none nib I : Forall (λ x : kv, ∃ j p, x.1 = j :: p ∧ j ≠ nib) I → below nib I = [].
Proof.
  induction 1 as [|[q v] I (j & p & Ej & Hj) _ IH]; [done|]. cbn in Ej. subst q.
  rewrite below_cons. by destruct (Z.eqb_spec j nib).
Qed.

Lemma suf_S_map d l : map (suf (S d)) l = drop_all 1 (map (suf d) l).
Proof. unfold drop_all. rewrite map_map. apply map_ext. apply suf_S. Qed.

Lemma sorted_app_inv I J : sorted (I ++ J) → sorted I ∧ sorted J.
Proof.
  induction I as [|x I IH]; intros H; [split; [constructor|done]|]. cbn in H.
  apply StronglySorted_inv in H as [H Hx]. destruct (IH H). split; [|done]. constructor; [done|].
  by apply Forall_app in Hx as [? _].
Qed.

(** The sixteen children and the value, read off the sorted entries. *)
Lemma fill_spec build (T : list kv → bytes) d rounds es refs slot :
  (length es ≤ rounds)%nat → sorted (map (suf d) es) →
  Forall (λ e, (d ≤ length (path e))%nat ∧ Forall is_nibble (path e)) es →
  (∀ es', es' ≠ [] → es' ⊆ es → sorted (map (suf (S d)) es') → Forall (λ e, (S d ≤ length (path e))%nat) es' →
     build es' (S d) = Ok (T (map (suf (S d)) es'))) →
  length refs = 16%nat →
  ∃ refs', fill_branch build rounds d es refs slot = Ok (refs', ending_or slot (map (suf d) es)) ∧
    length refs' = 16%nat ∧
    ∀ j, 0 ≤ j → refs' !! Z.to_nat j =
      match below j (map (suf d) es) with [] => refs !! Z.to_nat j | J => Some (node_ref (T J)) end.
Proof.
  revert es refs slot. induction rounds as [|rounds IH]; intros es refs slot Hr Hs Hl HT H16.
  { destruct es; [|cbn in Hr; lia]. by exists refs. }
  destruct es as [|e es]; [by exists refs|]. cbn [fill_branch]. cbn [length] in Hr.
  apply Forall_cons in Hl as [[Hd Hnib] Hl]. pose proof Hs as Hs0. cbn [map] in Hs.
  apply StronglySorted_inv in Hs as [Hs He]. cbn [map]. destruct (Nat.eqb_spec (length (path e)) d) as [Ed|Ed].
  - assert (Es : suf d e = ([], value e)) by (unfold suf; by rewrite drop_ge by lia).
    destruct (IH es refs (encode (value e))) as (refs' & -> & Hl' & Hj); [lia|done|done| |done|].
    { intros es' ? Hsub. apply HT; [done|]. intros x Hx. right. by apply Hsub. }
    exists refs'. rewrite Es, ending_cons, decide_True by done. rewrite ending_none; [done|].
    eapply Forall_impl; [exact He|]. rewrite Es. by intros x [_ Hne] ?%symmetry.
  - assert (Hd' : (d < length (path e))%nat) by lia.
    destruct (take_run d (nth d (path e) 0) es) as [run rest] eqn:Er. set (nib := nth d (path e) 0) in *.
    destruct (take_run_spec _ _ _ _ _ Er) as (-> & Hrun & Hrest). clear Er.
    assert (Hrun' : Forall (λ e, (d < length (path e))%nat ∧ nth d (path e) 0 = nib) (e :: run)) by (by constructor).
    assert (Hnb : 0 ≤ nib < 16).
    { eapply (Forall_lookup_1 _ _ d nib Hnib).
      destruct (lookup_lt_is_Some_2 _ _ Hd') as [x Hx]. rewrite Hx. f_equal. symmetry. by apply nth_lookup_Some. }
    apply Forall_app in Hl as [_ Hlrest].
    assert (Hafter := after_run d nib e run rest Hd' eq_refl Hs0 Hrest ltac:(eapply Forall_impl; [exact Hlrest|]; by intros ? [? _])).
    assert (Hs1 := sorted_app_inv (map (suf d) (e :: run)) (map (suf d) rest) ltac:(rewrite <- map_app; exact Hs0)).
    rewrite (HT (e :: run)); [|done|intros x Hx; apply elem_of_cons in Hx as [->|Hx]; [by left|right; apply elem_of_app; by left]| |].
    2:{ rewrite suf_S_map. apply (sorted_drop [nib]).
        - intros x (y & -> & Hy)%list_elem_of_fmap. eapply Forall_forall in Hrun' as [? ?]; [|exact Hy].
          rewrite suf_cons by done. cbn. exists (drop (S d) (path y)). cbn. congruence.
        - apply Hs1. }
    2:{ eapply Forall_impl; [exact Hrun'|]. intros ? [? _]. lia. }
    cbn [mbind res_bind]. unfold vec_set.
    destruct (lookup_lt_is_Some_2 refs (Z.to_nat nib)) as [old Hold]; [lia|]. rewrite Hold. cbn [mbind res_bind].
    destruct (IH rest (<[Z.to_nat nib := node_ref (T (map (suf (S d)) (e :: run)))]> refs) slot)
      as (refs' & -> & Hl' & Hj); [rewrite length_app in Hr; lia| |done| |by rewrite length_insert|].
    { apply Hs1. }
    { intros es' ? Hsub. apply HT; [done|]. intros x Hx. right. apply elem_of_app. right. by apply Hsub. }
    exists refs'. assert (Hne : suf d e :: map (suf d) (run ++ rest) = map (suf d) (e :: run) ++ map (suf d) rest) by (cbn; by rewrite map_app).
    rewrite Hne. split; [|split; [done|]].
    + f_equal. f_equal. rewrite ending_app; [done|]. apply Forall_fmap. eapply Forall_impl; [exact Hrun'|].
      intros y [Hy _] E. change ((suf d y).1 = []) in E. by rewrite suf_cons in E by done.
    + intros j Hj0. rewrite below_app, Hj by done. destruct (decide (j = nib)) as [->|Hjn].
      * rewrite (below_none nib) by done. rewrite (below_run d nib (e :: run)) by exact Hrun'.
        rewrite app_nil_r, list_lookup_insert_eq by lia. done.
      * rewrite (below_other j nib d (e :: run)) by done. cbn [app]. rewrite list_lookup_insert_ne by lia. done.
Qed.

(** ** Leaves *)

Definition small (e : PathEntry) : Prop :=
  Forall is_nibble (path e) ∧ (length (path e) ≤ 64)%nat ∧ len (value e) < 2 ^ 31.

Lemma hex_prefix_nibbles_ok ns leaf :
  Forall is_nibble ns → (length ns ≤ 64)%nat → hex_prefix_nibbles ns leaf = Ok (hp_spec ns leaf).
Proof.
  intros HF Hl. rewrite hex_prefix_nibbles_spec by lia. do 2 f_equal. rewrite <- (map_id ns) at 2.
  apply map_ext_Forall. eapply Forall_impl; [exact HF|]. intros x Hx. by apply Z.mod_small.
Qed.

Lemma len_encode_le b : len b < 2 ^ 32 → len (encode b) ≤ len b + 5.
Proof.
  intros Hb. rewrite <- item_size_string by done. pose proof (len_nonneg b). destruct (_ && _); [lia|].
  unfold item_size. rewrite make_header_spec by lia. pose proof (header_length 0x80 0xb7 (len b)). unfold len in *. lia.
Qed.

Lemma build_leaf_spec rest v :
  Forall is_nibble rest → (length rest ≤ 64)%nat → len v < 2 ^ 31 →
  build_leaf rest v = Ok (encode_list [encode (hp_spec rest true); encode v]).
Proof.
  intros HF Hl Hv. unfold build_leaf. rewrite hex_prefix_nibbles_ok by done. cbn [mbind res_bind].
  set (hp := hp_spec rest true).
  assert (Hhp : len hp ≤ 33) by (unfold hp, len; pose proof (hp_spec_length rest true Hl); lia).
  unfold str_size. rewrite !item_size_string by lia.
  assert (Hp : len (encode hp) + len (encode v) = len (encode hp ++ encode v)) by (by rewrite len_app).
  rewrite Hp. pose proof (len_encode_le hp ltac:(lia)). pose proof (len_encode_le v ltac:(lia)).
  pose proof (len_nonneg (encode hp ++ encode v)).
  rewrite (emits_exact _ (encode_list_payload (encode hp ++ encode v))).
  - rewrite encode_list_spec. cbn [concat]. by rewrite app_nil_r.
  - apply (emits_list (encode hp ++ encode v)); [|done|lia].
    apply emits_seq; apply emits_string; lia.
  - apply item_size_list. lia.
Qed.

(** ** The builder computes the trie *)

Lemma suf_add d k l : map (suf (d + k)) l = drop_all k (map (suf d) l).
Proof. unfold drop_all. rewrite map_map. apply map_ext. intros e. unfold suf. by rewrite drop_drop. Qed.

Lemma trie_many n x y I :
  trie (S n) (x :: y :: I) =
    let c := lcp_all (map fst (x :: y :: I)) in
    if (0 <? length c)%nat then
      encode_list [encode (hp_spec c false); node_ref (trie n (drop_all (length c) (x :: y :: I)))]
    else encode_list (map (λ j, child_ref (trie n) (below j (x :: y :: I))) (seqZ 0 16) ++ [ending (x :: y :: I)]).
Proof. by destruct x. Qed.

(** The encodings of all the nodes of the trie. *)
Fixpoint trie_nodes (n : nat) (I : list kv) : list bytes :=
  match n with
  | O => []
  | S n =>
      trie (S n) I ::
      match I with
      | [] | [_] => []
      | _ =>
          let c := lcp_all (map fst I) in
          if (0 <? length c)%nat then trie_nodes n (drop_all (length c) I)
          else concat (map (λ j, if decide (below j I = []) then [] else trie_nodes n (below j I)) (seqZ 0 16))
      end
  end.
Lemma node_first n I : (0 < n)%nat → trie n I ∈ trie_nodes n I.
Proof. destruct n; [lia|]. intros _. by left. Qed.
Lemma nodes_ext n x y I :
  let c := lcp_all (map fst (x :: y :: I)) in (0 < length c)%nat →
  trie_nodes n (drop_all (length c) (x :: y :: I)) ⊆ trie_nodes (S n) (x :: y :: I).
Proof. cbv zeta. intros Hc b Hb. cbn [trie_nodes]. right. by rewrite (proj2 (Nat.ltb_lt _ _) Hc). Qed.
Lemma nodes_branch n x y I j :
  length (lcp_all (map fst (x :: y :: I))) = 0%nat → 0 ≤ j < 16 → below j (x :: y :: I) ≠ [] →
  trie_nodes n (below j (x :: y :: I)) ⊆ trie_nodes (S n) (x :: y :: I).
Proof.
  intros Hc Hj Hne b Hb. cbn [trie_nodes]. right. rewrite Hc. cbn [Nat.ltb Nat.leb]. apply list_elem_of_In, in_concat.
  exists (trie_nodes n (below j (x :: y :: I))). split; [|by apply list_elem_of_In]. apply in_map_iff. exists j.
  rewrite decide_False by done. split; [done|]. apply list_elem_of_In, elem_of_seqZ. lia.
Qed.

Lemma build_spec fuel es d :
  es ≠ [] → sorted (map (suf d) es) → Forall small es → Forall (λ e, (d ≤ length (path e))%nat) es →
  Forall (λ e, (length (path e) - d < fuel)%nat) es →
  build_node fuel es d = Ok (trie fuel (map (suf d) es)).
Proof.
  revert es d. induction fuel as [|fuel IH]; intros es d Hne Hs Hsm Hd Hf.
  { destruct es; [done|]. apply Forall_cons in Hf as [? _]. lia. }
  destruct es as [|e [|e2 es]]; [done| |].
  { apply Forall_cons in Hsm as [(Hn & Hl & Hv) _]. cbn. apply build_leaf_spec; [by apply Forall_drop| |done].
    rewrite length_drop. lia. }
  cbn [build_node map]. rewrite trie_many. cbv zeta.
  set (all := e :: e2 :: es) in *. change (suf d e :: suf d e2 :: map (suf d) es) with (map (suf d) all).
  set (c := lcp_all (map fst (map (suf d) all))).
  assert (Hc : lcp (drop d (path e)) (drop d (path (List.last (e2 :: es) e))) = c).
  { transitivity (lcp (suf d e).1 (List.last (map (suf d) (e2 :: es)) (suf d e)).1);
      [|exact (lcp_ends (suf d e) (map (suf d) (e2 :: es)) Hs)]. f_equal.
    generalize (e2 :: es). intros l. clear. change (drop d (path (List.last l e))) with (suf d (List.last l e)).1. f_equal.
    revert e. induction l as [|z l IH]; intros e; [done|]. cbn [map]. rewrite !last_cons_default. apply IH. }
  rewrite Hc. assert (Hp : ∀ x, x ∈ map (suf d) all → c `prefix_of` x.1).
  { intros x Hx. apply lcp_all_prefix. apply list_elem_of_fmap. by exists x. }
  destruct (Nat.ltb_spec 0 (length c)) as [H0|H0].
  - assert (Hpe : ∀ x, x ∈ all → c `prefix_of` drop d (path x)).
    { intros x Hx. apply (Hp (suf d x)). apply list_elem_of_fmap. by exists x. }
    assert (Hcl : (∀ x, x ∈ all → length c ≤ length (path x) - d)%nat).
    { intros x Hx. pose proof (prefix_length _ _ (Hpe x Hx)) as Hpx. by rewrite length_drop in Hpx. }
    destruct (Forall_inv Hsm) as (Hn & Hl & _).
    assert (He0 : e ∈ all) by by left.
    rewrite hex_prefix_nibbles_ok.
    2:{ destruct (Hpe e He0) as [r Er]. apply (Forall_drop _ d) in Hn. rewrite Er in Hn. by apply Forall_app in Hn as [? _]. }
    2:{ specialize (Hcl e He0). lia. }
    cbn [mbind res_bind]. rewrite IH; [by rewrite suf_add|done| |done| |].
    + rewrite suf_add. by apply sorted_drop.
    + apply Forall_forall. intros x Hx. specialize (Hcl x Hx). lia.
    + apply Forall_forall. intros x Hx. specialize (Hcl x Hx).
      eapply Forall_forall in Hf; [|exact Hx]. cbn in Hf. lia.
  - destruct (fill_spec (build_node fuel) (trie fuel) d (length all) all (replicate 16 [Byte.x80]) [Byte.x80])
      as (refs' & -> & Hl' & Hj); [lia|done| | |by rewrite length_replicate|].
    { apply Forall_forall. intros x Hx. split; [by eapply Forall_forall in Hd|].
      by eapply Forall_forall in Hsm as (? & _); [|exact Hx]. }
    { intros es' Hne' Hsub Hs' Hd'. apply IH; [done|done| |done|].
      - apply Forall_forall. intros x Hx. eapply Forall_forall in Hsm; [exact Hsm|]. by apply Hsub.
      - apply Forall_forall. intros x Hx. eapply Forall_forall in Hd'; [|exact Hx].
        eapply Forall_forall in Hf; [|by apply Hsub]. cbn in *. lia. }
    cbn [mbind res_bind]. do 2 f_equal. unfold ending. f_equal.
    apply list_eq. intros i. destruct (decide (i < 16)%nat) as [Hi|Hi].
    + specialize (Hj (Z.of_nat i) ltac:(lia)). rewrite Nat2Z.id in Hj. rewrite Hj.
      rewrite list_lookup_fmap, lookup_seqZ_lt by lia. 
      change (0 + Z.of_nat i) with (Z.of_nat i). unfold child_ref. cbn [fmap option_fmap option_map].
      destruct (below _ _); [by apply lookup_replicate_2|done].
    + rewrite !lookup_ge_None_2; [done|rewrite length_fmap, length_seqZ; lia|lia].
Qed.

(** ** The trie is a function of the set *)

Lemma below_perm j I I' : I ≡ₚ I' → below j I ≡ₚ below j I'.
Proof. intros H. unfold below. by rewrite H. Qed.
Lemma below_nodup j I : NoDup (map fst I) → NoDup (map fst (below j I)).
Proof.
  induction I as [|[[|x p] v] I IH]; intros H; [done|..]; cbn [map fst] in H; apply NoDup_cons in H as [Hn H].
  - by apply IH.
  - rewrite below_cons. destruct (Z.eqb_spec x j); [|by apply IH]. subst. cbn [map fst].
    apply NoDup_cons. split; [|by apply IH]. intros (y & Ey & Hy)%list_elem_of_fmap. apply Hn.
    unfold below in Hy. apply list_elem_of_omap in Hy as ([[|x q] w] & Hq & E); [done|].
    destruct (Z.eqb_spec x j); [|done]. simplify_eq. cbn. apply list_elem_of_fmap. by exists (j :: q, w).
Qed.

Lemma ending_in slot I v : NoDup (map fst I) → ([], v) ∈ I → ending_or slot I = encode v.
Proof.
  induction I as [|[p w] I IH]; intros Hn Hv; [by apply not_elem_of_nil in Hv|].
  cbn [map fst] in Hn. apply NoDup_cons in Hn as [Hp Hn]. rewrite ending_cons. cbn.
  apply elem_of_cons in Hv as [[= <- <-]|Hv]; [done|]. case_decide; [|by apply IH]. subst.
  destruct Hp. apply list_elem_of_fmap. by exists ([], v).
Qed.
Lemma ending_cases I : (∃ v, ([], v) ∈ I) ∨ Forall (λ x : kv, x.1 ≠ []) I.
Proof.
  induction I as [|[p v] I [[w Hw]|IH]]; [by right|left; exists w; by right|].
  destruct p as [|x p]; [left; exists v; by left|right; by constructor].
Qed.
Lemma ending_perm slot I I' : I ≡ₚ I' → NoDup (map fst I) → ending_or slot I = ending_or slot I'.
Proof.
  intros Hp Hn. assert (Hn' : NoDup (map fst I')) by (by rewrite <- (Permutation_map fst Hp)).
  destruct (ending_cases I) as [[v Hv]|Hv].
  - rewrite (ending_in slot I v), (ending_in slot I' v) by (try done; by rewrite <- Hp). done.
  - rewrite !ending_none; [done| |done]. by rewrite <- Hp.
Qed.

Lemma drop_all_nodup c I :
  (∀ x, x ∈ I → c `prefix_of` x.1) → NoDup (map fst I) → NoDup (map fst (drop_all (length c) I)).
Proof.
  induction I as [|[p v] I IH]; intros Hc H; [done|]. cbn in *. apply NoDup_cons in H as [Hn H].
  apply NoDup_cons. split; [|apply IH; [|done]; intros y Hy; apply Hc; by right].
  intros (y & Ey & Hy)%list_elem_of_fmap. apply list_elem_of_fmap in Hy as ([q w] & -> & Hq). cbn in Ey.
  destruct (Hc (p, v)) as [p' Ep]; [by left|]. destruct (Hc (q, w)) as [q' Eq]; [by right|]. cbn in Ep, Eq. subst.
  rewrite !drop_app_length in Ey. subst. apply Hn. apply list_elem_of_fmap. by exists (c ++ q', w).
Qed.

Lemma trie_perm n I I' : I ≡ₚ I' → NoDup (map fst I) → trie n I = trie n I'.
Proof.
  revert I I'. induction n as [|n IH]; intros I I' Hp Hn; [done|].
  destruct I as [|x [|y I]].
  { by apply Permutation_nil_l in Hp as <-. }
  { by apply Permutation_singleton_l in Hp as <-. }
  pose proof (Permutation_length Hp) as Hlen. destruct I' as [|x' [|y' I']]; [done|done|]. rewrite !trie_many. cbv zeta.
  rewrite <- (lcp_all_perm (map fst (x :: y :: I)) (map fst (x' :: y' :: I'))) by (by apply Permutation_map).
  set (c := lcp_all _). destruct (0 <? length c)%nat.
  - do 4 f_equal. apply IH; [by apply Permutation_map|]. apply drop_all_nodup; [|done].
    intros z Hz. apply lcp_all_prefix, list_elem_of_fmap. by exists z.
  - do 2 f_equal; [|f_equal; by apply ending_perm]. apply map_ext. intros j.
    pose proof (below_perm j _ _ Hp) as Hb. pose proof (below_nodup j _ Hn) as Hbn.
    unfold child_ref. destruct (below j (x :: y :: I)) as [|b B] eqn:E.
    + by apply Permutation_nil_l in Hb as <-.
    + destruct (below j (x' :: y' :: I')) as [|b' B'] eqn:E'; [by apply Permutation_nil_r in Hb|].
      f_equal. by apply IH.
Qed.

(** ** The root *)

Definition as_pair (e : bytes * bytes) : kv := (to_nibbles e.1, e.2).

#[local] Instance entry_le_total : Total entry_le.
Proof. intros a b. apply path_le_total. Qed.
#[local] Instance entry_le_trans : Transitive entry_le.
Proof. intros a b c. apply path_le_trans. Qed.

Lemma strictly_sorted es :
  StronglySorted entry_le es → NoDup (map path es) → sorted (map (suf 0) es).
Proof.
  induction 1 as [|e es Hs IH He]; intros Hn; [constructor|]. cbn in Hn. apply NoDup_cons in Hn as [Hne Hn].
  cbn. constructor; [by apply IH|]. apply Forall_fmap, Forall_forall. intros x Hx.
  eapply Forall_forall in He; [|exact Hx]. split; [exact He|]. cbn. rewrite !drop_0. intros E. apply Hne.
  rewrite E. apply list_elem_of_fmap. by exists x.
Qed.

Definition trie_entries (entries_ : list (bytes * bytes)) : bytes :=
  match entries_ with
  | [] => [Byte.x80]
  | _ => trie (S (max_list (map (λ e, length (to_nibbles e.1)) entries_))) (map as_pair entries_)
  end.

Lemma max_list_perm l l' : l ≡ₚ l' → max_list l = max_list l'.
Proof. induction 1; cbn; lia. Qed.
Lemma max_list_in x l : x ∈ l → (x ≤ max_list l)%nat.
Proof. induction l as [|y l IH]; [by intros ?%not_elem_of_nil|]. intros [->|H]%elem_of_cons; cbn; [lia|]. specialize (IH H). lia. Qed.

Lemma nodup_pairs entries_ : NoDup (map fst entries_) → NoDup (map fst (map as_pair entries_)).
Proof.
  intros Hn. rewrite map_map. change (λ x : bytes * bytes, (as_pair x).1) with (λ x : bytes * bytes, to_nibbles x.1).
  rewrite <- (map_map fst to_nibbles). apply NoDup_fmap_2; [|done]. intros a b. apply to_nibbles_inj.
Qed.

Lemma root_hash_spec entries_ :
  NoDup (map fst entries_) → Forall (λ '(k, v), (length k ≤ 32)%nat ∧ len v < 2 ^ 31) entries_ →
  root_hash entries_ = Ok (keccak256 (trie_entries entries_)).
Proof.
  intros Hn Hs. destruct entries_ as [|e0 l]; [done|]. unfold root_hash, trie_entries.
  set (es := e0 :: l) in *. set (pe := map (λ '(k, v), mkEntry (to_nibbles k) v) es).
  pose proof (merge_sort_Permutation entry_le pe) as Hp.
  pose proof (StronglySorted_merge_sort entry_le pe) as Hss. set (so := merge_sort entry_le pe) in *.
  assert (Hpairs : map (suf 0) pe = map as_pair es).
  { unfold pe. rewrite map_map. apply map_ext. intros [k v]. unfold suf, as_pair. cbn. by rewrite drop_0. }
  assert (Hsuf : map (suf 0) so ≡ₚ map as_pair es) by (rewrite <- Hpairs; by apply Permutation_map).
  assert (Hlen : ∀ f : PathEntry → nat, max_list (map f so) = max_list (map f pe)) by (intros; by apply max_list_perm, Permutation_map).
  assert (Hpath : map path pe = map fst (map as_pair es)).
  { unfold pe. rewrite !map_map. apply map_ext. by intros []. }
  rewrite build_spec; [cbn [mbind res_bind]| | | | |].
  - do 2 f_equal. unfold max_path. rewrite Hlen. unfold pe at 1. rewrite map_map.
    rewrite (map_ext _ (λ e : bytes * bytes, length (to_nibbles e.1))) by (by intros []).
    apply trie_perm; [done|]. rewrite Hsuf. by apply nodup_pairs.
  - intros E. rewrite E in Hp. by apply Permutation_nil_l in Hp.
  - apply strictly_sorted; [done|]. rewrite Hp, Hpath. by apply nodup_pairs.
  - rewrite Hp. unfold pe. apply Forall_fmap. eapply Forall_impl; [exact Hs|]. intros [k v] [Hk Hv].
    split; [apply to_nibbles_range|]. cbn. rewrite length_to_nibbles. split; [lia|done].
  - apply Forall_forall. intros. lia.
  - apply Forall_forall. intros x Hx. unfold max_path.
    pose proof (max_list_in (length (path x)) (map (λ e, length (path e)) so)) as Hm.
    rewrite Nat.sub_0_r. apply Nat.lt_succ_r, Hm. apply list_elem_of_fmap. by exists x.
Qed.

(** C14.  The transaction, receipt and withdrawal roots are Merkle Patricia roots.
    For distinct keys of at most 32 bytes the builder always succeeds, and its
    root is the hash of the Yellow Paper's trie of the set of entries: sorting,
    reading shared prefixes off the first and last entry and children off the
    sorted runs lose nothing, whatever order the entries were inserted in. *)
Theorem mpt_root_correct entries_ entries_' :
  NoDup (map fst entries_) → Forall (λ '(k, v), (length k ≤ 32)%nat ∧ len v < 2 ^ 31) entries_ →
  entries_ ≡ₚ entries_' →
  root_hash entries_ = Ok (keccak256 (trie_entries entries_)) ∧ root_hash entries_' = root_hash entries_.
Proof.
  intros Hn Hs Hp. split; [by apply root_hash_spec|].
  rewrite !root_hash_spec; [|done|done|by rewrite <- (Permutation_map fst Hp)|by rewrite <- Hp].
  do 2 f_equal. unfold trie_entries. pose proof (Permutation_length Hp).
  destruct entries_ as [|e l], entries_' as [|e' l']; [done|done|done|].
  rewrite (max_list_perm _ _ (Permutation_map (λ e, length (to_nibbles e.1)) Hp)). symmetry.
  apply trie_perm; [by apply Permutation_map|by apply nodup_pairs].
Qed.

(** ** Reading nodes back *)

(** A list node determines its items. *)
Definition is_item (b : bytes) : Prop := ∃ k p, b = enc k p ∧ len p < 2 ^ 32.

Lemma item_head k p k' p' rest rest' :
  len p < 2 ^ 32 → len p' < 2 ^ 32 → enc k p ++ rest = enc k' p' ++ rest' → k = k' ∧ p = p' ∧ rest = rest'.
Proof.
  intros Hp Hp' E. pose proof (decode_enc k p rest Hp) as D. rewrite E, decode_enc in D by done.
  injection D as <- _ <-. by apply app_inv_head in E.
Qed.
Lemma item_nonempty k p : len p < 2 ^ 32 → enc k p ≠ [].
Proof. intros Hp E. pose proof (decode_enc k p [] Hp) as D. by rewrite E in D. Qed.
Lemma items_inj a b :
  Forall is_item a → Forall is_item b → concat a = concat b → a = b.
Proof.
  intros Ha. revert b. induction Ha as [|x a (k & p & -> & Hp) _ IH]; intros b Hb E.
  - destruct Hb as [|y b (k & p & -> & Hp) _]; [done|]. cbn in E. symmetry in E.
    apply app_eq_nil in E as [E _]. by apply item_nonempty in E.
  - destruct Hb as [|y b (k' & p' & -> & Hp') Hb]; cbn in E.
    + apply app_eq_nil in E as [E _]. by apply item_nonempty in E.
    + apply item_head in E as (-> & -> & E); [|done|done]. f_equal. by apply IH.
Qed.
Lemma list_inj a b :
  Forall is_item a → Forall is_item b → len (concat a) < 2 ^ 32 → len (concat b) < 2 ^ 32 →
  encode_list a = encode_list b → a = b.
Proof.
  intros Ha Hb La Lb E. rewrite !encode_list_spec in E. apply items_inj; [done|done|].
  change (enc List (concat a) = enc List (concat b)) in E.
  apply (item_head List (concat a) List (concat b) [] []); [done|done|by rewrite !app_nil_r].
Qed.

Lemma hp_spec_inj ns ns' l l' :
  Forall is_nibble ns → Forall is_nibble ns' → hp_spec ns l = hp_spec ns' l' → ns = ns' ∧ l = l'.
Proof.
  intros H H' E. pose proof (hp_decode_spec ns l H) as D. rewrite E, hp_decode_spec in D by done. by simplify_eq.
Qed.

Lemma string_item v : len v < 2 ^ 32 → is_item (encode v).
Proof. intros. by exists String, v. Qed.
Lemma string_inj v v' : len v < 2 ^ 32 → len v' < 2 ^ 32 → encode v = encode v' → v = v'.
Proof.
  intros Hv Hv' E. change (enc String v = enc String v') in E.
  apply (item_head String v String v' [] []); [done|done|by rewrite !app_nil_r].
Qed.

Lemma encode_u64_inj n n' : in_u64 n → in_u64 n' → encode_u64 n = encode_u64 n' → n = n'.
Proof.
  intros Hn Hn' E. unfold encode_u64 in E. rewrite !u64_bytes in E by done.
  pose proof (trim_len 8 n ltac:(unfold in_u64 in Hn; simpl; lia)). pose proof (trim_len 8 n' ltac:(unfold in_u64 in Hn'; simpl; lia)).
  apply string_inj in E; [|lia..]. apply (f_equal be_val) in E. unfold in_u64 in *. by rewrite !be_val_trim in E by lia.
Qed.
Lemma u256_item_trim n : in_u256 n → encode_u256 n = encode (be_trim n).
Proof. intros Hn. unfold encode_u256. by rewrite u256_bytes. Qed.
Lemma encode_u256_inj n n' : in_u256 n → in_u256 n' → encode_u256 n = encode_u256 n' → n = n'.
Proof.
  intros Hn Hn' E. rewrite !u256_item_trim in E by done.
  pose proof (trim_len 32 n ltac:(unfold in_u256 in Hn; simpl; lia)). pose proof (trim_len 32 n' ltac:(unfold in_u256 in Hn'; simpl; lia)).
  apply string_inj in E; [|lia..]. apply (f_equal be_val) in E. unfold in_u256 in *. by rewrite !be_val_trim in E by lia.
Qed.
Lemma encode_hash_inj h h' : in_u256 h → in_u256 h' → encode (be_bytes 32 h) = encode (be_bytes 32 h') → h = h'.
Proof.
  intros Hh Hh' E. apply string_inj in E; [|rewrite len_be_bytes; lia..]. apply (f_equal be_val) in E.
  by rewrite !be_val_be_bytes_small in E by (unfold in_u256 in *; lia).
Qed.

Lemma len_hp ns l : (length ns ≤ 64)%nat → len (hp_spec ns l) ≤ 33.
Proof. intros H. unfold len. pose proof (hp_spec_length ns l H). lia. Qed.

Lemma len_concat_const n l : Forall (λ x, len x ≤ n) l → len (concat l) ≤ n * Z.of_nat (length l).
Proof. induction 1 as [|x l Hx _ IH]; [unfold len; cbn [concat length]; lia|]. cbn [concat length]. rewrite len_app. lia. Qed.

(** A reference is an item of at most 33 bytes, and determines the node it stands for. *)
Definition is_list_node (b : bytes) : Prop := ∃ p, b = enc List p ∧ len p < 2 ^ 32.
Definition collision : Prop := ∃ x y, x ≠ y ∧ keccak256 x = keccak256 y.
Abbreviation collision_free := (collision_free keccak256).
Context (keccak_range : ∀ b, in_u256 (keccak256 b)).

Lemma hash_inj x y : keccak256_bytes32 x = keccak256_bytes32 y → keccak256 x = keccak256 y.
Proof.
  intros E. pose proof (keccak_range x) as Hx. pose proof (keccak_range y) as Hy. unfold keccak256_bytes32 in E.
  apply (f_equal be_val) in E. by rewrite !be_val_be_bytes_small in E by (unfold in_u256 in *; lia).
Qed.
Lemma len_hash x : len (keccak256_bytes32 x) = 32.
Proof. unfold keccak256_bytes32, len. by rewrite length_be_bytes. Qed.
Lemma hash_ref_head x : ∃ t, encode (keccak256_bytes32 x) = Byte.xa0 :: t ∧ len t = 32.
Proof.
  exists (keccak256_bytes32 x). split; [|apply len_hash]. unfold encode. rewrite len_hash. done.
Qed.

Lemma list_head p : len p < 2 ^ 32 → ∃ b t, enc List p = b :: t ∧ 0xc0 ≤ b2z b.
Proof.
  intros Hp. pose proof (len_nonneg p). rewrite enc_header by (by intros [? _]). destruct (Z_le_gt_dec (len p) 55).
  - rewrite header_short by done. eexists _, _. split; [done|]. cbn. rewrite b2z_z2b_small by lia. lia.
  - rewrite header_long by lia. eexists _, _. split; [done|].
    destruct (b2z_header_long (long_base List) (len p)) as [Hv ?]; [cbn; lia|lia|]. cbn in *. lia.
Qed.

Lemma node_ref_item b : is_list_node b → is_item (node_ref b) ∧ len (node_ref b) ≤ 33.
Proof.
  intros (p & -> & Hp). unfold node_ref. destruct (Z.ltb_spec (len (enc List p)) 32) as [Hl|Hl].
  - split; [by exists List, p|lia].
  - split; [apply string_item; rewrite len_hash; lia|].
    destruct (hash_ref_head (enc List p)) as (t & -> & Ht). unfold len in *. cbn [length]. lia.
Qed.
Lemma node_ref_not_empty b : is_list_node b → node_ref b ≠ [Byte.x80].
Proof.
  intros (p & -> & Hp). unfold node_ref. case_match.
  - destruct (list_head p Hp) as (c & t & -> & Hc). intros [= -> ->]. by vm_compute in Hc.
  - by destruct (hash_ref_head (enc List p)) as (t & -> & Ht).
Qed.
Lemma node_ref_inj b b' : is_list_node b → is_list_node b' → (keccak256 b = keccak256 b' → b = b') → node_ref b = node_ref b' → b = b'.
Proof.
  intros (p & -> & Hp) (p' & -> & Hp') Hinj. unfold node_ref.
  destruct (list_head p Hp) as (c & t & E & Hc). destruct (list_head p' Hp') as (c' & t' & E' & Hc').
  assert (Hx : ¬ 0xc0 ≤ b2z Byte.xa0) by (vm_compute; intros ?; congruence).
  destruct (_ <? 32), (_ <? 32); [done|..].
  - destruct (hash_ref_head (enc List p')) as (u & -> & _). rewrite E. intros [= -> _]. done.
  - destruct (hash_ref_head (enc List p)) as (u & -> & _). rewrite E'. intros [= <- _]. done.
  - intros Eh%string_inj; [|rewrite len_hash; lia..]. by apply Hinj, hash_inj.
Qed.

(** ** The trie determines the set *)

Definition kv_ok (n : nat) (x : kv) : Prop :=
  Forall is_nibble x.1 ∧ (length x.1 ≤ 64)%nat ∧ (length x.1 < n)%nat ∧ x.2 ≠ [] ∧ len x.2 < 2 ^ 31.

Lemma kv_ok_pos n I : I ≠ [] → Forall (kv_ok n) I → (0 < n)%nat.
Proof. destruct I as [|x I]; [done|]. intros _ (_ & _ & ? & _)%Forall_inv. lia. Qed.
Lemma kv_ok_below n j I : Forall (kv_ok (S n)) I → Forall (kv_ok n) (below j I).
Proof.
  intros H. apply Forall_forall. intros [q v] Hq. unfold below in Hq.
  apply list_elem_of_omap in Hq as ([[|x p] w] & Hin & E); [done|]. destruct (x =? j); simplify_eq.
  eapply Forall_forall in H as (Hn & H64 & Hl & Hv); [|exact Hin]. cbn in *. apply Forall_cons in Hn as [_ Hn].
  split; [done|]. cbn. split_and!; [lia|lia|tauto|tauto].
Qed.
Lemma kv_ok_drop n k I : (0 < k)%nat → Forall (λ x : kv, (k ≤ length x.1)%nat) I → Forall (kv_ok (S n)) I → Forall (kv_ok n) (drop_all k I).
Proof.
  intros Hk Hl H. apply Forall_fmap, Forall_forall. intros [p v] Hin.
  eapply Forall_forall in H as (Hn & H64 & Hl' & Hv); [|exact Hin]. eapply Forall_forall in Hl; [|exact Hin]. cbn in *.
  split; [by apply Forall_drop|]. cbn. rewrite length_drop. split_and!; [lia|lia|tauto|tauto].
Qed.

(** Items of a node. *)
Definition leaf_items (x : kv) : list bytes := [encode (hp_spec x.1 true); encode x.2].
Definition ext_items (n : nat) (c : list Z) (I : list kv) : list bytes :=
  [encode (hp_spec c false); node_ref (trie n (drop_all (length c) I))].
Definition branch_items (n : nat) (I : list kv) : list bytes :=
  map (λ j, child_ref (trie n) (below j I)) (seqZ 0 16) ++ [ending I].

Lemma ending_item I : Forall (λ x : kv, len x.2 < 2 ^ 31) I → is_item (ending I) ∧ len (ending I) < 2 ^ 31 + 6.
Proof.
  intros H. unfold ending. induction H as [|[p v] I Hv _ IH]; [split; [by exists String, []|done]|].
  rewrite ending_cons. case_decide; [|done]. cbn in *. split; [apply string_item; lia|].
  pose proof (len_encode_le v ltac:(lia)). lia.
Qed.

Lemma encode_list_node l : len (concat l) < 2 ^ 32 → is_list_node (encode_list l).
Proof. intros H. exists (concat l). by rewrite encode_list_spec. Qed.

Lemma leaf_items_ok n x : kv_ok n x → Forall is_item (leaf_items x) ∧ len (concat (leaf_items x)) < 2 ^ 32.
Proof.
  intros (Hn & H64 & _ & _ & Hv). pose proof (len_hp x.1 true H64). unfold leaf_items. split.
  - repeat constructor; apply string_item; lia.
  - cbn [concat]. rewrite !len_app. pose proof (len_encode_le (hp_spec x.1 true) ltac:(lia)).
    pose proof (len_encode_le x.2 ltac:(lia)). unfold len at 3. cbn [length]. lia.
Qed.

(** The three shapes of a node, with the items it encodes. *)
Inductive shape (n : nat) (I : list kv) : list bytes → Prop :=
| is_leaf x : I = [x] → shape n I (leaf_items x)
| is_ext c : c ≠ [] → Forall is_nibble c → (length c ≤ 64)%nat → (∀ x, x ∈ I → c `prefix_of` x.1) →
    NoDup (map fst (drop_all (length c) I)) → Forall (kv_ok n) (drop_all (length c) I) →
    trie_nodes n (drop_all (length c) I) ⊆ trie_nodes (S n) I →
    shape n I (ext_items n c I)
| is_branch : (∀ j, 0 ≤ j < 16 → below j I ≠ [] → trie_nodes n (below j I) ⊆ trie_nodes (S n) I) → shape n I (branch_items n I).

Definition node_view (n : nat) (I : list kv) (items : list bytes) : Prop :=
  trie (S n) I = encode_list items ∧ Forall is_item items ∧ len (concat items) < 2 ^ 32 ∧ shape n I items.

Lemma ext_view n c I :
  I ≠ [] → c ≠ [] → (∀ x, x ∈ I → c `prefix_of` x.1) → NoDup (map fst I) → Forall (kv_ok (S n)) I →
  (∀ J, J ≠ [] → NoDup (map fst J) → Forall (kv_ok n) J → is_list_node (trie n J)) →
  trie_nodes n (drop_all (length c) I) ⊆ trie_nodes (S n) I →
  Forall is_item (ext_items n c I) ∧ len (concat (ext_items n c I)) < 2 ^ 32 ∧ shape n I (ext_items n c I).
Proof.
  intros Hne Hc Hp Hn Hk IH Hsub. destruct I as [|x0 I0] eqn:EI; [done|]. rewrite <- EI in *.
  assert (H0 : x0 ∈ I) by (rewrite EI; by left).
  eapply Forall_forall in Hk as Hx0; [|exact H0]. destruct Hx0 as (Hn0 & H64 & _).
  destruct (Hp x0 H0) as [r Er]. rewrite Er in Hn0. apply Forall_app in Hn0 as [Hcn _].
  assert (Hcl : (length c ≤ 64)%nat) by (rewrite Er, length_app in H64; lia).
  assert (Hpos : (0 < length c)%nat) by (destruct c; [done|cbn; lia]).
  assert (Hd : NoDup (map fst (drop_all (length c) I))) by (by apply drop_all_nodup).
  assert (Hkd : Forall (kv_ok n) (drop_all (length c) I)).
  { apply kv_ok_drop; [done| |done]. apply Forall_forall. intros x Hx. by apply prefix_length, Hp. }
  destruct (node_ref_item (trie n (drop_all (length c) I))) as [Hi Hl]; [apply IH; [by rewrite EI|done|done]|].
  pose proof (len_hp c false Hcl). pose proof (len_encode_le (hp_spec c false) ltac:(lia)).
  split; [|split; [|by constructor]].
  - repeat constructor; [apply string_item; lia|done].
  - unfold ext_items. cbn [concat]. rewrite !len_app. unfold len at 3. cbn [length]. lia.
Qed.

Lemma child_ref_nonempty f J : J ≠ [] → child_ref f J = node_ref (f J).
Proof. by destruct J. Qed.
Lemma child_ref_item n j I :
  NoDup (map fst I) → Forall (kv_ok (S n)) I →
  (∀ J, J ≠ [] → NoDup (map fst J) → Forall (kv_ok n) J → is_list_node (trie n J)) →
  is_item (child_ref (trie n) (below j I)) ∧ len (child_ref (trie n) (below j I)) ≤ 33.
Proof.
  intros Hn Hk IH. unfold child_ref. destruct (below j I) as [|b B] eqn:E; [split; [by exists String, []|done]|].
  apply node_ref_item, IH; [done|rewrite <- E; by apply below_nodup|rewrite <- E; by apply kv_ok_below].
Qed.

Lemma branch_view n I :
  NoDup (map fst I) → Forall (kv_ok (S n)) I →
  (∀ J, J ≠ [] → NoDup (map fst J) → Forall (kv_ok n) J → is_list_node (trie n J)) →
  Forall is_item (branch_items n I) ∧ len (concat (branch_items n I)) < 2 ^ 32.
Proof.
  intros Hn Hk IH. destruct (ending_item I) as [He Hel].
  { eapply Forall_impl; [exact Hk|]. by intros x (_ & _ & _ & _ & ?). }
  unfold branch_items. split.
  - apply Forall_app. split; [|by constructor]. apply Forall_fmap, Forall_forall. intros j _. by apply child_ref_item.
  - rewrite concat_app, len_app. cbn [concat]. rewrite app_nil_r.
    assert (Hc : Forall (λ x, len x ≤ 33) (map (λ j, child_ref (trie n) (below j I)) (seqZ 0 16))).
    { apply Forall_fmap, Forall_forall. intros j _. by apply child_ref_item. }
    apply len_concat_const in Hc. rewrite length_map, length_seqZ in Hc. lia.
Qed.

Lemma node_view_of n I :
  I ≠ [] → NoDup (map fst I) → Forall (kv_ok (S n)) I →
  (∀ J, J ≠ [] → NoDup (map fst J) → Forall (kv_ok n) J → is_list_node (trie n J)) →
  ∃ items, node_view n I items.
Proof.
  intros Hne Hn Hk IH. destruct I as [|x [|y I]]; [done| |].
  - exists (leaf_items x). apply Forall_inv in Hk as Hx. destruct (leaf_items_ok _ _ Hx).
    split_and!; [by destruct x|done|done|by constructor].
  - unfold node_view. rewrite trie_many. cbv zeta. set (c := lcp_all _).
    destruct (Nat.ltb_spec 0 (length c)) as [Hc|Hc].
    + exists (ext_items n c (x :: y :: I)). split; [done|]. apply ext_view; [done|by destruct c; [cbn in Hc; lia|]| |done|done|done|by apply nodes_ext].
      intros z Hz. apply lcp_all_prefix, list_elem_of_fmap. by exists z.
    + exists (branch_items n (x :: y :: I)). destruct (branch_view n (x :: y :: I)); [done|done|done|].
      split_and!; [done|done|done|]. constructor. intros j Hj Hb. apply nodes_branch; [|done|done]. subst c. lia.
Qed.

(** Every node of such a set is a list. *)
Lemma trie_node n I : I ≠ [] → NoDup (map fst I) → Forall (kv_ok n) I → is_list_node (trie n I).
Proof.
  revert I. induction n as [|n IH]; intros I Hne Hn Hk.
  { destruct I; [done|]. apply Forall_inv in Hk as (_ & _ & ? & _). lia. }
  destruct (node_view_of n I Hne Hn Hk IH) as (items & -> & _ & Hl & _). by apply encode_list_node.
Qed.
Lemma trie_view n I : I ≠ [] → NoDup (map fst I) → Forall (kv_ok (S n)) I → ∃ items, node_view n I items.
Proof. intros. apply node_view_of; [done|done|done|apply trie_node]. Qed.

Lemma nth_map_seqZ (f : Z → bytes) n j : 0 ≤ j < n → nth (Z.to_nat j) (map f (seqZ 0 n)) [] = f j.
Proof.
  intros Hj. apply nth_lookup_Some. rewrite list_lookup_fmap, lookup_seqZ_lt by lia. cbn. f_equal. f_equal. lia.
Qed.

(** Two sets with the same trie have the same members, if the nodes of the tries
    are told apart by their hashes. *)
Lemma child_ref_inj n n' j I I' :
  NoDup (map fst I) → NoDup (map fst I') → Forall (kv_ok (S n)) I → Forall (kv_ok (S n')) I' →
  (below j I ≠ [] → below j I' ≠ [] → collision_free (trie_nodes n (below j I)) (trie_nodes n' (below j I'))) →
  child_ref (trie n) (below j I) = child_ref (trie n') (below j I') →
  (∀ J J', J ≠ [] → J' ≠ [] → NoDup (map fst J) → NoDup (map fst J') → Forall (kv_ok n) J → Forall (kv_ok n') J' →
     collision_free (trie_nodes n J) (trie_nodes n' J') → trie n J = trie n' J' → ∀ x, x ∈ J ↔ x ∈ J') →
  ∀ x, x ∈ below j I ↔ x ∈ below j I'.
Proof.
  intros Hn Hn' Hk Hk' Hcf E IH. pose proof (below_nodup j _ Hn) as Hb. pose proof (below_nodup j _ Hn') as Hb'.
  pose proof (kv_ok_below n j _ Hk) as Ho. pose proof (kv_ok_below n' j _ Hk') as Ho'. unfold child_ref in E.
  destruct (below j I) as [|b B], (below j I') as [|b' B'].
  - done.
  - symmetry in E. apply node_ref_not_empty in E; [done|]. by apply trie_node.
  - apply node_ref_not_empty in E; [done|]. by apply trie_node.
  - specialize (Hcf ltac:(done) ltac:(done)). apply node_ref_inj in E; [by apply IH|by apply trie_node|by apply trie_node|].
    apply Hcf; apply node_first; (eapply kv_ok_pos; [|eassumption]; done).
Qed.

Lemma below_in j p v I : (p, v) ∈ below j I ↔ (j :: p, v) ∈ I.
Proof.
  unfold below. rewrite list_elem_of_omap. split.
  - intros ([[|x q] w] & Hin & E); [done|]. destruct (Z.eqb_spec x j); by simplify_eq.
  - intros Hin. exists (j :: p, v). by rewrite Z.eqb_refl.
Qed.

Lemma ending_inj I I' :
  NoDup (map fst I) → NoDup (map fst I') → (∀ x, x ∈ I → x.2 ≠ [] ∧ len x.2 < 2 ^ 32) →
  (∀ x, x ∈ I' → x.2 ≠ [] ∧ len x.2 < 2 ^ 32) → ending I = ending I' → ∀ v, ([], v) ∈ I → ([], v) ∈ I'.
Proof.
  intros Hn Hn' Hv Hv' E v Hin. unfold ending in E. rewrite (ending_in _ I v) in E by done.
  destruct (Hv _ Hin) as [Hne Hl]. cbn in Hne, Hl.
  destruct (ending_cases I') as [[w Hw]|Hw].
  - destruct (Hv' _ Hw) as [_ Hl']. cbn in Hl'. rewrite (ending_in _ I' w) in E by done.
    by apply string_inj in E as ->.
  - rewrite ending_none in E by done. change [Byte.x80] with (encode []) in E.
    by apply string_inj in E; [..|unfold len; cbn; lia].
Qed.

Lemma prefix_drop_eq {A} (c p : list A) : c `prefix_of` p → p = c ++ drop (length c) p.
Proof. intros [r ->]. by rewrite drop_app_length. Qed.

Lemma trie_inj n n' I I' :
  I ≠ [] → I' ≠ [] → NoDup (map fst I) → NoDup (map fst I') → Forall (kv_ok n) I → Forall (kv_ok n') I' →
  collision_free (trie_nodes n I) (trie_nodes n' I') → trie n I = trie n' I' → ∀ x, x ∈ I ↔ x ∈ I'.
Proof.
  revert n' I I'. induction n as [|n IH]; intros n' I I' Hne Hne' Hn Hn' Hk Hk' Hcf E.
  { destruct I; [done|]. apply Forall_inv in Hk as (_ & _ & ? & _). lia. }
  destruct n' as [|n']. { destruct I'; [done|]. apply Forall_inv in Hk' as (_ & _ & ? & _). lia. }
  destruct (trie_view n I Hne Hn Hk) as (a & Ea & Ia & La & Sa).
  destruct (trie_view n' I' Hne' Hn' Hk') as (b & Eb & Ib & Lb & Sb).
  rewrite Ea, Eb in E. apply list_inj in E; [|done..]. clear Ea Eb Ia La Ib Lb.
  destruct Sa as [x EI|c Hc Hcn Hcl Hp Hd Hkd Hsub|Hsub], Sb as [x' EI'|c' Hc' Hcn' Hcl' Hp' Hd' Hkd' Hsub'|Hsub'];
    try (by apply (f_equal length) in E; unfold branch_items in E;
         rewrite length_app, length_map, length_seqZ in E).
  - subst. apply Forall_inv in Hk as (Hnx & H64 & _ & _ & Hv), Hk' as (Hnx' & H64' & _ & _ & Hv').
    unfold leaf_items in E. injection E as E1 E2. pose proof (len_hp x.1 true H64). pose proof (len_hp x'.1 true H64').
    apply string_inj in E1, E2; [|lia..]. apply hp_spec_inj in E1 as [E1 _]; [|done..].
    destruct x, x'. cbn in *. by subst.
  - subst. apply Forall_inv in Hk as (Hnx & H64 & _). injection E as E1 _.
    pose proof (len_hp x.1 true H64). pose proof (len_hp c' false Hcl').
    apply string_inj in E1; [|lia..]. by apply hp_spec_inj in E1 as [_ ?].
  - subst. apply Forall_inv in Hk' as (Hnx & H64 & _). injection E as E1 _.
    pose proof (len_hp x'.1 true H64). pose proof (len_hp c false Hcl).
    apply string_inj in E1; [|lia..]. by apply hp_spec_inj in E1 as [_ ?].
  - injection E as E1 E2. pose proof (len_hp c false Hcl). pose proof (len_hp c' false Hcl').
    apply string_inj in E1; [|lia..]. apply hp_spec_inj in E1 as [-> _]; [|done..].
    assert (Hm : ∀ J, J ≠ [] → drop_all (length c') J ≠ []) by (by intros []).
    pose proof (collision_free_sub _ _ _ _ _ Hcf Hsub Hsub') as Hcf'.
    pose proof (kv_ok_pos _ _ (Hm I Hne) Hkd). pose proof (kv_ok_pos _ _ (Hm I' Hne') Hkd').
    apply node_ref_inj in E2; [|apply trie_node; auto..|by apply Hcf'; apply node_first].
    pose proof (IH n' _ _ (Hm I Hne) (Hm I' Hne') Hd Hd' Hkd Hkd' Hcf' E2) as Hx.
    assert (Hmem : ∀ J, (∀ x, x ∈ J → c' `prefix_of` x.1) → ∀ p v,
      (p, v) ∈ J ↔ c' `prefix_of` p ∧ (drop (length c') p, v) ∈ drop_all (length c') J).
    { intros J HJ p v. split.
      - intros Hin. split; [apply (HJ _ Hin)|]. apply list_elem_of_fmap. by exists (p, v).
      - intros [Hpp ([q w] & Eq & Hin)%list_elem_of_fmap]. injection Eq as Eq ->.
        rewrite (prefix_drop_eq c' p Hpp). rewrite Eq. rewrite <- (prefix_drop_eq c' q); [done|]. apply (HJ _ Hin). }
    intros [p v]. rewrite (Hmem I), (Hmem I') by done. by rewrite Hx.
  - unfold branch_items in E. apply app_inj_2 in E as [E Ee]; [|done]. injection Ee as Ee.
    assert (Hall : ∀ j, 0 ≤ j < 16 → ∀ x, x ∈ below j I ↔ x ∈ below j I').
    { intros j Hj. apply (f_equal (λ l, nth (Z.to_nat j) l [])) in E. cbn beta in E.
      rewrite (nth_map_seqZ (λ j, child_ref (trie n) (below j I)) 16 j),
        (nth_map_seqZ (λ j, child_ref (trie n') (below j I')) 16 j) in E by lia.
      apply (child_ref_inj n n'); [done..| |done|intros J J'; apply IH].
      intros Hb Hb'. eapply collision_free_sub; [exact Hcf|by apply Hsub|by apply Hsub']. }
    assert (Hv : ∀ m J, Forall (kv_ok m) J → ∀ x, x ∈ J → x.2 ≠ [] ∧ len x.2 < 2 ^ 32).
    { intros m J HJ x Hx. eapply Forall_forall in HJ as (_ & _ & _ & ? & ?); [|exact Hx]. split; [done|lia]. }
    intros [[|j p] v].
    + split; apply ending_inj; eauto.
    + rewrite <- !below_in. assert (j ∈ seqZ 0 16 ∨ ¬ j ∈ seqZ 0 16) as [Hj|Hj] by (destruct (decide (j ∈ seqZ 0 16)); auto).
      * apply Hall. apply elem_of_seqZ in Hj. lia.
      * rewrite !below_in. rewrite elem_of_seqZ in Hj.
        split; intros Hin; exfalso; apply Hj.
        -- eapply Forall_forall in Hk as (Hnib & _); [|exact Hin]. cbn in Hnib. apply Forall_cons in Hnib as [Hj' _]. unfold is_nibble in Hj'. lia.
        -- eapply Forall_forall in Hk' as (Hnib & _); [|exact Hin]. cbn in Hnib. apply Forall_cons in Hnib as [Hj' _]. unfold is_nibble in Hj'. lia.
Qed.

Definition entry_ok (e : bytes * bytes) : Prop := (length e.1 ≤ 32)%nat ∧ e.2 ≠ [] ∧ len e.2 < 2 ^ 31.

Lemma entries_kv_ok l :
  Forall entry_ok l → Forall (kv_ok (S (max_list (map (λ e, length (to_nibbles e.1)) l)))) (map as_pair l).
Proof.
  intros H. apply Forall_fmap, Forall_forall. intros [k v] Hin.
  eapply Forall_forall in H as (Hk & Hv & Hl); [|exact Hin]. cbn in *.
  split; [apply to_nibbles_range|]. cbn. rewrite length_to_nibbles. split_and!; [lia| |done|done].
  apply Nat.lt_succ_r, max_list_in. apply list_elem_of_fmap. exists (k, v). split; [|done]. cbn. by rewrite length_to_nibbles.
Qed.
Lemma entries_node l : l ≠ [] → NoDup (map fst l) → Forall entry_ok l → is_list_node (trie_entries l).
Proof.
  intros Hne Hn Hk. unfold trie_entries. destruct l as [|e l0] eqn:E; [done|]. rewrite <- E in *.
  apply trie_node; [by rewrite E|by apply nodup_pairs|by apply entries_kv_ok].
Qed.

Lemma list_not_empty_string b : is_list_node b → b ≠ [Byte.x80].
Proof. intros (p & -> & Hp). destruct (list_head p Hp) as (c & t & -> & Hc). intros [= -> ->]. by vm_compute in Hc. Qed.

(** The nodes of the trie of a list of entries; the empty trie has the root node [0x80]. *)
Definition entry_nodes (l : list (bytes * bytes)) : list bytes :=
  match l with
  | [] => [[Byte.x80]]
  | _ => trie_nodes (S (max_list (map (λ e, length (to_nibbles e.1)) l))) (map as_pair l)
  end.
Lemma entry_root l : trie_entries l ∈ entry_nodes l.
Proof. destruct l as [|e l]; by left. Qed.
Lemma trie_entries_inj l l' :
  NoDup (map fst l) → NoDup (map fst l') → Forall entry_ok l → Forall entry_ok l' →
  collision_free (entry_nodes l) (entry_nodes l') → trie_entries l = trie_entries l' → l ≡ₚ l'.
Proof.
  intros Hn Hn' Hk Hk' Hcf E. destruct (decide (l = [])) as [->|Hl], (decide (l' = [])) as [->|Hl'].
  - done.
  - symmetry in E. by apply list_not_empty_string in E; [|apply entries_node].
  - by apply list_not_empty_string in E; [|apply entries_node].
  - unfold trie_entries, entry_nodes in *. destruct l as [|e l0] eqn:El; [done|]. destruct l' as [|e' l0'] eqn:El'; [done|].
    rewrite <- El, <- El' in *.
    assert (Hx : ∀ x, x ∈ map as_pair l ↔ x ∈ map as_pair l').
    { eapply trie_inj; [by rewrite El|by rewrite El'|by apply nodup_pairs|by apply nodup_pairs|by apply entries_kv_ok|by apply entries_kv_ok|exact Hcf|exact E]. }
    apply NoDup_Permutation; [by eapply NoDup_fmap_1|by eapply NoDup_fmap_1|].
    assert (Hm : ∀ m x, x ∈ m ↔ as_pair x ∈ map as_pair m).
    { intros m [k v]. rewrite list_elem_of_fmap. split; [by exists (k, v)|]. intros ([k' v'] & E' & Hin).
      unfold as_pair in E'. cbn in E'. injection E' as E1%to_nibbles_inj ->. by subst. }
    intros x. by rewrite (Hm l), (Hm l'), Hx.
Qed.

Lemma root_binding entries_ entries_' r :
  NoDup (map fst entries_) → NoDup (map fst entries_') → Forall entry_ok entries_ → Forall entry_ok entries_' →
  collision_free (entry_nodes entries_) (entry_nodes entries_') →
  root_hash entries_ = Ok r → root_hash entries_' = Ok r → entries_ ≡ₚ entries_'.
Proof.
  intros Hn Hn' Hk Hk' Hcf E E'.
  assert (Hw : ∀ l, Forall entry_ok l → Forall (λ '(k, v), (length k ≤ 32)%nat ∧ len v < 2 ^ 31) l).
  { intros l Hl. eapply Forall_impl; [exact Hl|]. by intros [k v] (? & _ & ?). }
  rewrite root_hash_spec in E, E' by auto. injection E as <-. injection E' as E'.
  apply trie_entries_inj; [done..|]. apply Hcf; [apply entry_root|apply entry_root|done].
Qed.

(** C38.  The roots bind their contents.  Two lists of entries with keys of at most
    32 bytes, each key once, and nonempty values of less than 2 GiB that get the
    same root hold the same entries, provided keccak256 tells the nodes of the two
    tries apart (both are finite lists of encodings, [entry_nodes]): a transaction,
    receipt or withdrawal list cannot be replaced under its root without two
    different nodes of these two tries that have one hash. *)
Theorem mpt_root_binding entries_ entries_' r :
  NoDup (map fst entries_) → NoDup (map fst entries_') → Forall entry_ok entries_ → Forall entry_ok entries_' →
  collision_free (entry_nodes entries_) (entry_nodes entries_') →
  root_hash entries_ = Ok r → root_hash entries_' = Ok r → entries_ ≡ₚ entries_'.
Proof. apply root_binding. Qed.

End Mpt.

(** Three transactions under their index keys, in another order. *)
Definition toy_hash (b : bytes) : Z := u256 (be_val b).
Definition sample : list (bytes * bytes) :=
  [(map z2b [0x80], map z2b [1; 2; 3]); (map z2b [1], map z2b [4]); (map z2b [0x81; 0x80], replicate 40 (z2b 7))].
Lemma sample_nodup : NoDup (map fst sample).
Proof. apply (bool_decide_unpack (NoDup (map fst sample))). by vm_compute. Qed.
Lemma sample_small : Forall (λ '(k, v), (length k ≤ 32)%nat ∧ len v < 2 ^ 31) sample.
Proof. repeat constructor; vm_compute; (lia || reflexivity). Qed.

Lemma mpt_root_correct_witness :
  root_hash toy_hash sample = Ok (toy_hash (trie_entries toy_hash sample)) ∧
  root_hash toy_hash (reverse sample) = root_hash toy_hash sample.
Proof.
  apply (mpt_root_correct toy_hash sample (reverse sample) sample_nodup sample_small). symmetry. apply reverse_Permutation.
Defined.

Lemma toy_range b : in_u256 (toy_hash b).
Proof. apply Z.mod_pos_bound. lia. Qed.
Lemma sample_entries : Forall entry_ok sample.
Proof. repeat constructor; vm_compute; (lia || reflexivity || discriminate). Qed.
(** The nodes of the sample are told apart, and the sample in another order has its root. *)
Lemma sample_nodes : collision_free toy_hash (entry_nodes toy_hash sample) (entry_nodes toy_hash (reverse sample)).
Proof. apply (bool_decide_unpack (collision_free _ _ _)). by vm_compute. Qed.
Lemma mpt_root_binding_witness :
  root_hash toy_hash (reverse sample) = root_hash toy_hash sample ∧ (length (entry_nodes toy_hash sample) = 5)%nat ∧ sample ≡ₚ reverse sample.
Proof.
  split; [by vm_compute|]. split; [by vm_compute|]. destruct (root_hash toy_hash sample) as [r|] eqn:E; [|by vm_compute in E].
  apply (mpt_root_binding toy_hash toy_range sample (reverse sample) r); [exact sample_nodup| |exact sample_entries| |exact sample_nodes|exact E|].
  - apply (bool_decide_unpack (NoDup (map fst (reverse sample)))). by vm_compute.
  - rewrite reverse_Permutation. exact sample_entries.
  - rewrite <- E. vm_compute. reflexivity.
Defined.

End Mpt.
