(* ===== verification/Bal.v ===== *)
(** EIP-7928 block access list ([include/zeg/block_access_list.hpp] and
    [src/block_access_list.cpp]): the change log with its singly linked
    per-field lists, the lazy period bookkeeping of accounts and slots, and the
    proof that the recorded changes are the ones the EIP defines: one per block
    access index at whose end the value differs from its value at the start. *)

From stdpp Require Import base numbers list strings gmap.
From S2P Require Import Prelude.

Module Bal.

(** ** Data *)

Definition kNone : Z := 2 ^ 32 - 1.

Record Change := mkChange { c_next : Z; c_index : Z; c_value : Z }.

Record List_ := mkList { l_head : Z; l_tail : Z }.
Definition list0 : List_ := mkList kNone kNone.

Record Account := mkAccount {
  a_accessed : bool;
  a_period : Z;
  a_pre_balance : Z;
  a_pre_nonce : Z;
  a_pre_code_hash : Z;
  a_balance : List_;
  a_nonce : List_;
  a_code : List_ }.
Definition account0 : Account := mkAccount false kNone 0 0 0 list0 list0 list0.

Record Slot := mkSlot {
  s_accessed : bool;
  s_period : Z;
  s_key : Z;
  s_pre : Z;
  s_changes : List_ }.
Definition slot0 : Slot := mkSlot false kNone 0 0 list0.

Record BlockAccessList := mkBal {
  index_ : Z;
  accounts_ : list Account;
  slots_ : list Slot;
  changes_ : list Change;
  accessed_accounts_ : Z;
  accessed_slots_ : Z }.

(** ** Operations *)

(** The constructor: one record per account row; [slots_] only reserved. *)
Definition make (account_capacity slot_capacity : nat) : BlockAccessList :=
  mkBal 0 (replicate account_capacity account0) [] [] 0 0.

Definition set_index (i : Z) (b : BlockAccessList) : BlockAccessList :=
  mkBal i (accounts_ b) (slots_ b) (changes_ b) (accessed_accounts_ b) (accessed_slots_ b).

Definition put_accounts (l : list Account) (b : BlockAccessList) : BlockAccessList :=
  mkBal (index_ b) l (slots_ b) (changes_ b) (accessed_accounts_ b) (accessed_slots_ b).
Definition put_slots (l : list Slot) (b : BlockAccessList) : BlockAccessList :=
  mkBal (index_ b) (accounts_ b) l (changes_ b) (accessed_accounts_ b) (accessed_slots_ b).
Definition put_changes (l : list Change) (b : BlockAccessList) : BlockAccessList :=
  mkBal (index_ b) (accounts_ b) (slots_ b) l (accessed_accounts_ b) (accessed_slots_ b).

Definition access_account (row : nat) (b : BlockAccessList) : res BlockAccessList :=
  a ← vec_get (accounts_ b) row;
  if a_accessed a then Ok b else
  Ok (mkBal (index_ b)
        (<[row := mkAccount true (a_period a) (a_pre_balance a) (a_pre_nonce a)
                    (a_pre_code_hash a) (a_balance a) (a_nonce a) (a_code a)]> (accounts_ b))
        (slots_ b) (changes_ b) (accessed_accounts_ b + 1) (accessed_slots_ b)).

Definition account_period_open (row : nat) (b : BlockAccessList) : res bool :=
  a ← vec_get (accounts_ b) row;
  Ok (a_period a =? index_ b).

(** [push]: append a change to the linked list [l] of the change log. *)
Definition push (l : List_) (index value : Z) (cs : list Change) : res (List_ * list Change) :=
  let id := u32 (Z.of_nat (length cs)) in
  let cs := cs ++ [mkChange kNone index value] in
  if l_tail l =? kNone then Ok (mkList id id, cs) else
  t ← vec_get cs (Z.to_nat (l_tail l));
  cs ← vec_set cs (Z.to_nat (l_tail l)) (mkChange id (c_index t) (c_value t));
  Ok (mkList (l_head l) id, cs).

(** [push] guarded by [if (changed)]. *)
Definition push_if (changed : bool) (l : List_) (index value : Z) (cs : list Change)
    : res (List_ * list Change) :=
  if changed then push l index value cs else Ok (l, cs).

(** [nonce_value]: the nonce as a 32-byte big-endian value; as a number it is
    the nonce itself (its low 64 bits). *)
Definition nonce_value (nonce : Z) : Z := u64 nonce.

Definition close_account (row : nat) (balance nonce code_hash : Z) (b : BlockAccessList)
    : res BlockAccessList :=
  a ← vec_get (accounts_ b) row;
  if a_period a =? kNone then Ok b else
  '(lb, cs) ← push_if (negb (balance =? a_pre_balance a)) (a_balance a) (a_period a) balance
                (changes_ b);
  '(ln, cs) ← push_if (negb (nonce =? a_pre_nonce a)) (a_nonce a) (a_period a)
                (nonce_value nonce) cs;
  '(lc, cs) ← push_if (negb (code_hash =? a_pre_code_hash a)) (a_code a) (a_period a)
                code_hash cs;
  Ok (put_changes cs (put_accounts
        (<[row := mkAccount (a_accessed a) kNone (a_pre_balance a) (a_pre_nonce a)
                    (a_pre_code_hash a) lb ln lc]> (accounts_ b)) b)).

Definition open_account (row : nat) (balance nonce code_hash : Z) (b : BlockAccessList)
    : res BlockAccessList :=
  b ← close_account row balance nonce code_hash b;
  a ← vec_get (accounts_ b) row;
  Ok (put_accounts
        (<[row := mkAccount (a_accessed a) (index_ b) balance nonce code_hash
                    (a_balance a) (a_nonce a) (a_code a)]> (accounts_ b)) b).

(** [Accounts::bal_before_write], with the row's current values. *)
Definition bal_before_write (row : nat) (balance nonce code_hash : Z) (b : BlockAccessList)
    : res BlockAccessList :=
  b ← access_account row b;
  o ← account_period_open row b;
  if (o : bool) then Ok b else open_account row balance nonce code_hash b.

(** [witness_slot]: the id is the caller's ([Storages::Mods::bal_id]); a new
    record is created when it is [kNone]. *)
Definition witness_slot (id key : Z) (b : BlockAccessList) : Z * BlockAccessList :=
  if id =? kNone then
    (u32 (Z.of_nat (length (slots_ b))),
     put_slots (slots_ b ++ [mkSlot false kNone key 0 list0]) b)
  else (id, b).

Definition slot (id : Z) (b : BlockAccessList) : res Slot := vec_get (slots_ b) (Z.to_nat id).

Definition access_slot (id : Z) (b : BlockAccessList) : res BlockAccessList :=
  s ← slot id b;
  if s_accessed s then Ok b else
  Ok (mkBal (index_ b) (accounts_ b)
        (<[Z.to_nat id := mkSlot true (s_period s) (s_key s) (s_pre s) (s_changes s)]> (slots_ b))
        (changes_ b) (accessed_accounts_ b) (accessed_slots_ b + 1)).

Definition close_slot (id current : Z) (b : BlockAccessList) : res BlockAccessList :=
  s ← slot id b;
  '(l, cs) ← push_if (negb (s_period s =? kNone) && negb (current =? s_pre s))
               (s_changes s) (s_period s) current (changes_ b);
  Ok (put_changes cs (put_slots
        (<[Z.to_nat id := mkSlot (s_accessed s) kNone (s_key s) (s_pre s) l]> (slots_ b)) b)).

Definition open_slot (id current : Z) (b : BlockAccessList) : res BlockAccessList :=
  s ← slot id b;
  if s_period s =? index_ b then Ok b else
  b' ← close_slot id current b;
  s' ← slot id b';
  Ok (put_slots
        (<[Z.to_nat id := mkSlot (s_accessed s') (index_ b') (s_key s') current
                            (s_changes s')]> (slots_ b')) b').

(** Walking a change list: [for (id = l.head; id != kNone; id = changes[id].next)].
    [fuel] bounds the walk by the size of the log. *)
Fixpoint walk (fuel : nat) (id : Z) (cs : list Change) : res (list (Z * Z)) :=
  if id =? kNone then Ok [] else
  match fuel with
  | O => Fatal "cyclic change list"
  | S fuel =>
      c ← vec_get cs (Z.to_nat id);
      rest ← walk fuel (c_next c) cs;
      Ok ((c_index c, c_value c) :: rest)
  end.

Definition changes_of (l : List_) (b : BlockAccessList) : res (list (Z * Z)) :=
  walk (length (changes_ b)) (l_head l) (changes_ b).

(** ** Safety: no operation leaves the record vectors or the log

    Tails point into the log, whatever its length; that is all an operation
    dereferences. *)

Definition tail_ok (cs : list Change) (l : List_) : Prop :=
  l_tail l = kNone ∨ (Z.to_nat (l_tail l) < length cs)%nat.

Definition account_ok (cs : list Change) (a : Account) : Prop :=
  tail_ok cs (a_balance a) ∧ tail_ok cs (a_nonce a) ∧ tail_ok cs (a_code a).

Record safe (n m : nat) (b : BlockAccessList) : Prop := {
  safe_accounts : (n ≤ length (accounts_ b))%nat;
  safe_slots : length (slots_ b) = m;
  safe_account_tails : Forall (account_ok (changes_ b)) (accounts_ b);
  safe_slot_tails : Forall (λ s, tail_ok (changes_ b) (s_changes s)) (slots_ b) }.

Lemma tail_ok_mono cs cs' l : (length cs ≤ length cs')%nat → tail_ok cs l → tail_ok cs' l.
Proof. unfold tail_ok. intuition lia. Qed.

Lemma account_ok_mono cs cs' a : (length cs ≤ length cs')%nat → account_ok cs a → account_ok cs' a.
Proof. unfold account_ok. intuition eauto using tail_ok_mono. Qed.

Lemma push_if_safe c l i v cs :
  tail_ok cs l →
  ∃ l' cs', push_if c l i v cs = Ok (l', cs') ∧ tail_ok cs' l' ∧ (length cs ≤ length cs')%nat.
Proof.
  intros Hl. destruct c; [|exists l, cs; auto with lia]. cbn. unfold push.
  assert (Hu : (Z.to_nat (u32 (Z.of_nat (length cs))) < length cs + 1)%nat).
  { unfold u32. pose proof (Z.mod_le (Z.of_nat (length cs)) (2 ^ 32)). lia. }
  destruct (Z.eqb_spec (l_tail l) kNone) as [|Hne].
  - eexists _, _. split; [done|]. unfold tail_ok. cbn. rewrite length_app. cbn. lia.
  - destruct Hl as [|Hl]; [done|]. unfold vec_get, vec_set.
    destruct (lookup_lt_is_Some_2 (cs ++ [mkChange kNone i v]) (Z.to_nat (l_tail l))) as [x Hx].
    { rewrite length_app. lia. }
    rewrite Hx. cbn. eexists _, _. split; [done|].
    unfold tail_ok. cbn. rewrite length_insert, length_app. cbn. lia.
Qed.

Lemma safe_put_account n m b row a cs :
  safe n m b → (length (changes_ b) ≤ length cs)%nat → account_ok cs a →
  safe n m (put_changes cs (put_accounts (<[row := a]> (accounts_ b)) b)).
Proof.
  intros [Hn Hm Ha Hs] Hle Hok. split; cbn; [by rewrite length_insert|done|..].
  - apply Forall_insert; [|done]. eapply Forall_impl; eauto using account_ok_mono.
  - eapply Forall_impl; eauto using tail_ok_mono.
Qed.

Lemma safe_put_slot n m b id s cs :
  safe n m b → (length (changes_ b) ≤ length cs)%nat → tail_ok cs (s_changes s) →
  safe n m (put_changes cs (put_slots (<[id := s]> (slots_ b)) b)).
Proof.
  intros [Hn Hm Ha Hs] Hle Hok. split; cbn; [done|by rewrite length_insert|..].
  - eapply Forall_impl; eauto using account_ok_mono.
  - apply Forall_insert; [|done]. eapply Forall_impl; eauto using tail_ok_mono.
Qed.

Lemma access_account_safe n m b row :
  safe n m b → (row < n)%nat → ∃ b', access_account row b = Ok b' ∧ safe n m b'.
Proof.
  intros Hb Hr. pose proof Hb as [Hn Hm Ha Hs].
  destruct (lookup_lt_is_Some_2 (accounts_ b) row) as [a Hra]; [lia|].
  unfold access_account, vec_get. rewrite Hra. cbn.
  destruct (a_accessed a); [by exists b|]. eexists. split; [done|].
  split; cbn; [by rewrite length_insert|done| |done].
  apply Forall_insert; [done|]. exact (Forall_lookup_1 _ _ _ _ Ha Hra).
Qed.

Lemma close_account_safe n m b row x y z :
  safe n m b → (row < n)%nat → ∃ b', close_account row x y z b = Ok b' ∧ safe n m b'.
Proof.
  intros Hb Hr. pose proof Hb as [Hn Hm Ha Hs].
  destruct (lookup_lt_is_Some_2 (accounts_ b) row) as [a Hra]; [lia|].
  destruct (Forall_lookup_1 _ _ _ _ Ha Hra) as (H1 & H2 & H3).
  unfold close_account, vec_get. rewrite Hra. cbn [mbind res_bind].
  case_match; [by exists b|].
  edestruct (push_if_safe (negb (x =? a_pre_balance a)) _ (a_period a) x _ H1)
    as (l1 & cs1 & -> & T1 & L1). cbn [mbind res_bind].
  edestruct (push_if_safe (negb (y =? a_pre_nonce a)) _ (a_period a) (nonce_value y) cs1
    (tail_ok_mono _ _ _ L1 H2)) as (l2 & cs2 & -> & T2 & L2). cbn [mbind res_bind].
  edestruct (push_if_safe (negb (z =? a_pre_code_hash a)) _ (a_period a) z cs2
    (tail_ok_mono _ _ _ L2 (tail_ok_mono _ _ _ L1 H3))) as (l3 & cs3 & -> & T3 & L3).
  cbn [mbind res_bind]. eexists. split; [done|]. apply safe_put_account; [done|lia|].
  split; [apply (tail_ok_mono cs1); [lia|done]|].
  split; [apply (tail_ok_mono cs2); [lia|done]|done].
Qed.

Lemma bal_before_write_safe n m b row x y z :
  safe n m b → (row < n)%nat → ∃ b', bal_before_write row x y z b = Ok b' ∧ safe n m b'.
Proof.
  intros Hb Hr. unfold bal_before_write.
  destruct (access_account_safe n m b row Hb Hr) as (b1 & -> & Hb1). cbn [mbind res_bind].
  pose proof (safe_accounts _ _ _ Hb1).
  destruct (lookup_lt_is_Some_2 (accounts_ b1) row) as [a Hra]; [lia|].
  unfold account_period_open, vec_get. rewrite Hra. cbn [mbind res_bind].
  case_match; [by exists b1|]. unfold open_account.
  destruct (close_account_safe n m b1 row x y z Hb1 Hr) as (b2 & -> & Hb2). cbn [mbind res_bind].
  pose proof (safe_accounts _ _ _ Hb2).
  destruct (lookup_lt_is_Some_2 (accounts_ b2) row) as [a2 Hra2]; [lia|].
  unfold vec_get. rewrite Hra2. cbn [mbind res_bind]. eexists. split; [done|].
  eapply (safe_put_account _ _ b2 _ _ (changes_ b2)); [done..|].
  pose proof (Forall_lookup_1 _ _ _ _ (safe_account_tails _ _ _ Hb2) Hra2) as (? & ? & ?).
  done.
Qed.

Lemma open_slot_safe n m b id cur :
  safe n m b → (Z.to_nat id < m)%nat → ∃ b', open_slot id cur b = Ok b' ∧ safe n m b'.
Proof.
  intros Hb Hid. pose proof Hb as [Hn Hm Ha Hs]. unfold open_slot, close_slot, slot, vec_get.
  destruct (lookup_lt_is_Some_2 (slots_ b) (Z.to_nat id)) as [s Hsl]; [lia|].
  rewrite Hsl. cbn [mbind res_bind]. case_match; [by exists b|].
  edestruct (push_if_safe (negb (s_period s =? kNone) && negb (cur =? s_pre s)) _ (s_period s) cur
    (changes_ b) (Forall_lookup_1 _ _ _ _ Hs Hsl)) as (l' & cs' & -> & T' & L').
  cbn [mbind res_bind put_changes put_slots slots_]. rewrite list_lookup_insert_eq by lia.
  cbn [mbind res_bind]. eexists. split; [done|].
  pose proof (safe_put_slot n m b (Z.to_nat id) (mkSlot (s_accessed s) kNone (s_key s) (s_pre s) l')
    cs' Hb L' T') as Hb'.
  eapply (safe_put_slot _ _ _ _ _ cs') in Hb'; [exact Hb'|done|done].
Qed.

(** ** Linked lists of the change log

    A field of the access list (an account's balance, nonce or code list, or a
    slot's list) owns the changes pushed to it. [own] names the owner of each
    entry of the log in push order; the list of a field links exactly its
    entries, in order. *)

Inductive Key := KBalance (row : nat) | KNonce (row : nat) | KCode (row : nat) | KSlot (id : nat).
#[export] Instance Key_eq_dec : EqDecision Key.
Proof. solve_decision. Defined.

Definition field (b : BlockAccessList) (k : Key) : option List_ :=
  match k with
  | KBalance row => a_balance <$> accounts_ b !! row
  | KNonce row => a_nonce <$> accounts_ b !! row
  | KCode row => a_code <$> accounts_ b !! row
  | KSlot id => s_changes <$> slots_ b !! id
  end.

Definition ids (k : Key) (own : list Key) : list nat :=
  filter (λ i, own !! i = Some k) (seq 0 (length own)).

Fixpoint seg (cs : list Change) (id : Z) (l : list nat) : Prop :=
  match l with
  | [] => id = kNone
  | i :: l => id = Z.of_nat i ∧ ∃ c, cs !! i = Some c ∧ seg cs (c_next c) l
  end.

Definition is_list (cs : list Change) (l : List_) (xs : list nat) : Prop :=
  seg cs (l_head l) xs ∧ l_tail l = from_option Z.of_nat kNone (last xs).

Definition payload (cs : list Change) : list (Z * Z) := (λ c, (c_index c, c_value c)) <$> cs.

(** The changes recorded for a field: its entries of the log. *)
Definition recorded (k : Key) (own : list Key) (cs : list Change) : list (Z * Z) :=
  omap (λ i, payload cs !! i) (ids k own).

Lemma ids_snoc k own k' :
  ids k (own ++ [k']) = ids k own ++ (if decide (k' = k) then [length own] else []).
Proof.
  unfold ids. rewrite length_app, seq_app, filter_app. simpl. f_equal.
  - apply filter_ext_in. intros i Hi%elem_of_seq.
    rewrite lookup_app_l by lia. done.
  - rewrite filter_cons, list_lookup_middle by done.
    repeat case_decide; simplify_eq; done.
Qed.

Lemma elem_of_ids k own i : i ∈ ids k own ↔ own !! i = Some k.
Proof.
  unfold ids. rewrite list_elem_of_filter, elem_of_seq.
  split; [naive_solver|]. intros H. pose proof (lookup_lt_Some _ _ _ H). split; [done|lia].
Qed.

Lemma ids_NoDup k own : NoDup (ids k own).
Proof. apply NoDup_filter, NoDup_seq. Qed.

Lemma seg_snoc_log cs c id l : seg cs id l → seg (cs ++ [c]) id l.
Proof.
  revert id. induction l as [|i l IH]; simpl; [done|].
  intros id (-> & x & Hx & Hs). split; [done|]. exists x.
  split; [by apply lookup_app_l_Some|auto].
Qed.

Lemma seg_update cs c id l t : t ∉ l → seg cs id l → seg (<[t := c]> cs) id l.
Proof.
  revert id. induction l as [|i l IH]; simpl; [done|].
  intros id Ht (-> & x & Hx & Hs). apply not_elem_of_cons in Ht as [? ?].
  split; [done|]. exists x. rewrite list_lookup_insert_ne by done. auto.
Qed.

(** Relinking the last node extends the segment by one. *)
Lemma seg_extend cs id l t c n :
  NoDup (l ++ [t]) → cs !! t = Some c → seg cs id (l ++ [t]) →
  (∃ c', cs !! n = Some c' ∧ c_next c' = kNone) → n ≠ t →
  seg (<[t := mkChange (Z.of_nat n) (c_index c) (c_value c)]> cs) id (l ++ [t] ++ [n]).
Proof.
  revert id. induction l as [|i l IH]; simpl; intros id Hnd Hc Hs (c' & Hn & Hnx) Hne.
  - destruct Hs as (-> & x & Hx & Hs). split; [done|].
    eexists. rewrite list_lookup_insert_eq by (by eapply lookup_lt_Some).
    split; [done|]. simpl. split; [done|]. exists c'.
    by rewrite list_lookup_insert_ne.
  - destruct Hs as (-> & x & Hx & Hs). apply NoDup_cons in Hnd as [Hi Hnd].
    split; [done|]. exists x.
    rewrite list_lookup_insert_ne; [|intros ->; set_solver].
    split; [done|]. apply IH; naive_solver.
Qed.

(** [push] appends one entry to its own list and leaves every other list and
    every recorded payload alone. *)
Lemma push_spec l index value cs xs :
  is_list cs l xs → NoDup xs → Forall (λ i, (i < length cs)%nat) xs →
  Z.of_nat (length cs) < kNone →
  ∃ l' cs', push l index value cs = Ok (l', cs') ∧
    is_list cs' l' (xs ++ [length cs]) ∧
    payload cs' = payload cs ++ [(index, value)] ∧
    (∀ l2 xs2, is_list cs l2 xs2 → (∀ i, i ∈ xs → i ∉ xs2) → is_list cs' l2 xs2).
Proof.
  intros [Hseg Htail] Hnd Hlt Hlen. unfold push.
  assert (Hu : u32 (Z.of_nat (length cs)) = Z.of_nat (length cs)).
  { unfold u32, kNone in *. apply Z.mod_small. lia. }
  rewrite Hu, Htail. clear Hu.
  destruct xs as [|t l0 _] using rev_ind.
  - cbn [last from_option]. rewrite Z.eqb_refl. eexists _, _. split; [done|].
    split; [split; simpl; [split; [done|]|done]|].
    { eexists. rewrite list_lookup_middle by done. done. }
    split; [unfold payload; by rewrite fmap_app|].
    intros l2 xs2 [? ?] _. split; [by apply seg_snoc_log|done].
  - rewrite last_snoc. cbn [from_option].
    assert (Ht : (t < length cs)%nat) by (apply Forall_app in Hlt as [_ Ht]; by inversion Ht).
    destruct (lookup_lt_is_Some_2 _ _ Ht) as [c Hc].
    rewrite (proj2 (Z.eqb_neq _ _)) by (unfold kNone in *; lia).
    assert (Hc' : (cs ++ [mkChange kNone index value]) !! t = Some c) by by apply lookup_app_l_Some.
    unfold vec_get, vec_set. rewrite Nat2Z.id, Hc'. cbn.
    eexists _, _. split; [done|]. split; [split; cbn|split].
    + rewrite <- app_assoc. apply seg_extend; [done|done| |eexists|lia].
      { by apply seg_snoc_log. }
      by rewrite list_lookup_middle.
    + by rewrite last_snoc.
    + unfold payload. rewrite list_fmap_insert. cbn.
      rewrite list_insert_id; [by rewrite fmap_app|].
      rewrite list_lookup_fmap, Hc'. done.
    + intros l2 xs2 [Hs2 ?] Hdisj. split; [|done].
      apply seg_update, seg_snoc_log; [|done]. apply Hdisj. set_solver.
Qed.

(** ** The log and its owners *)

Record log_ok (cs : list Change) (own : list Key) (fld : Key → option List_) : Prop := {
  log_length : length own = length cs;
  log_lists : ∀ k l, fld k = Some l → is_list cs l (ids k own);
  log_owned : ∀ k, k ∈ own → is_Some (fld k) }.

Definition put_field (k : Key) (l : List_) (fld : Key → option List_) : Key → option List_ :=
  λ k', if decide (k' = k) then Some l else fld k'.

Lemma recorded_snoc k own cs k' p cs' :
  length own = length cs → payload cs' = payload cs ++ [p] →
  recorded k (own ++ [k']) cs' =
  recorded k own cs ++ (if decide (k' = k) then [p] else []).
Proof.
  intros Hlen Hp. unfold recorded. rewrite ids_snoc, omap_app, Hp. f_equal.
  - apply list_omap_ext, Forall2_same_length_lookup_2; [done|].
    intros i x y Hx Hy. simplify_eq. rewrite lookup_app_l; [done|].
    apply list_elem_of_lookup_2, elem_of_ids, lookup_lt_Some in Hx.
    unfold payload. rewrite length_fmap. lia.
  - case_decide; [|done]. cbn. rewrite Hlen, list_lookup_middle; [done|].
    unfold payload. by rewrite length_fmap.
Qed.

Lemma push_if_ok c k l i v cs own fld :
  log_ok cs own fld → fld k = Some l → Z.of_nat (length cs) < kNone →
  ∃ l' cs' own', push_if c l i v cs = Ok (l', cs') ∧
    log_ok cs' own' (put_field k l' fld) ∧
    recorded k own' cs' = recorded k own cs ++ (if c then [(i, v)] else []) ∧
    (∀ k', k' ≠ k → recorded k' own' cs' = recorded k' own cs) ∧
    (length cs' ≤ S (length cs))%nat.
Proof.
  intros [Hlen Hlists Hown] Hk Hbound. destruct c; cbn.
  - destruct (push_spec l i v cs (ids k own)) as (l' & cs' & -> & Hl' & Hp & Hother);
      [auto|apply ids_NoDup| |done|].
    { apply Forall_forall. intros j Hj%elem_of_ids%lookup_lt_Some. lia. }
    assert (Hcs : length cs' = S (length cs)).
    { apply (f_equal length) in Hp. unfold payload in Hp.
      rewrite length_app, !length_fmap in Hp. simpl in Hp. lia. }
    exists l', cs', (own ++ [k]). split; [done|]. split; [split|split; [|split]].
    + rewrite length_app. simpl. lia.
    + unfold put_field. intros k' l2 Hl2. rewrite ids_snoc.
      case_decide as Hd; simplify_eq.
      * rewrite decide_True by done. by rewrite Hlen.
      * rewrite decide_False by done. rewrite app_nil_r. apply Hother; [auto|].
        intros j Hj%elem_of_ids Hj'%elem_of_ids. congruence.
    + intros k' [?|Hk'%list_elem_of_singleton]%elem_of_app; unfold put_field;
        case_decide; simplify_eq; eauto.
    + rewrite (recorded_snoc _ _ cs _ (i, v)) by done. by rewrite decide_True.
    + intros k' Hk'. rewrite (recorded_snoc _ _ cs _ (i, v)) by done.
      rewrite decide_False by done. by rewrite app_nil_r.
    + lia.
  - exists l, cs, own. rewrite app_nil_r. split; [done|]. split; [split|]; auto.
    + unfold put_field. intros k' l2. case_decide; naive_solver.
    + intros k' Hk'. unfold put_field. case_decide; naive_solver.
Qed.

(** The walk from a list's head returns the recorded changes. *)
Lemma walk_seg cs xs : ∀ id fuel,
  seg cs id xs → Forall (λ i, Z.of_nat i ≠ kNone) xs → (length xs ≤ fuel)%nat →
  walk fuel id cs = Ok (omap (λ i, payload cs !! i) xs).
Proof.
  induction xs as [|i xs IH]; intros id fuel Hs Hne Hf.
  - simpl in Hs. subst. destruct fuel; reflexivity.
  - destruct Hs as (-> & c & Hc & Hs). destruct fuel as [|fuel]; [simpl in Hf; lia|].
    inversion_clear Hne as [|?? Hi Hne']. cbn [walk].
    rewrite (proj2 (Z.eqb_neq _ _)) by done. rewrite Nat2Z.id.
    unfold vec_get. rewrite Hc. cbn. rewrite (IH _ fuel) by (simpl in Hf; auto with lia).
    cbn. unfold payload. rewrite list_lookup_fmap, Hc. done.
Qed.

Lemma changes_of_recorded b own k l :
  log_ok (changes_ b) own (field b) → field b k = Some l →
  Z.of_nat (length (changes_ b)) ≤ kNone →
  changes_of l b = Ok (recorded k own (changes_ b)).
Proof.
  intros [Hlen Hlists _] Hk Hb. destruct (Hlists _ _ Hk) as [Hs _].
  unfold changes_of. apply walk_seg; [done| |].
  - apply Forall_forall. intros i Hi%elem_of_ids%lookup_lt_Some. lia.
  - rewrite <- Hlen. unfold ids. rewrite <- (length_seq (length own) 0) at 2.
    apply length_filter.
Qed.

(** ** Cells: the lazy period bookkeeping of one field

    [(period, pre, rec)]: the open period, the value at its start and the
    changes recorded so far. *)

Definition cell : Type := Z * Z * list (Z * Z).

Definition cell_close (cur : Z) (c : cell) : cell :=
  let '(period, pre, rec) := c in
  (kNone, pre,
   rec ++ (if negb (period =? kNone) && negb (cur =? pre) then [(period, cur)] else [])).

Definition cell_open (index cur : Z) (c : cell) : cell :=
  let '(period, pre, rec) := c in
  if period =? index then c else (index, cur, (cell_close cur c).2).

(** The specification: the value of a field at the end of block access index
    [k], from the [(index, value)] log of the writes to it, and the changes
    EIP-7928 lists: one for every index at whose end the value is not the value
    at its start. *)
Definition value_after (init : Z) (log : list (Z * Z)) (k : Z) : Z :=
  foldl (λ v w, if w.1 <=? k then w.2 else v) init log.

Definition eip7928_changes (init : Z) (log : list (Z * Z)) (n : Z) : list (Z * Z) :=
  flat_map (λ k, if value_after init log k =? value_after init log (k - 1) then []
                 else [(k, value_after init log k)]) (seqZ 0 n).

Lemma value_after_const init log k1 k2 :
  Forall (λ w, w.1 ≤ k1) log → k1 ≤ k2 → value_after init log k2 = value_after init log k1.
Proof.
  intros Hl Hk. unfold value_after. revert init.
  induction Hl as [|w log Hw _ IH]; intros init; [done|]. simpl. rewrite IH.
  rewrite !(proj2 (Z.leb_le _ _)) by lia. done.
Qed.

Lemma value_after_snoc init log k w :
  value_after init (log ++ [w]) k = if w.1 <=? k then w.2 else value_after init log k.
Proof. unfold value_after. by rewrite foldl_app. Qed.

Lemma eip7928_changes_ext init log log' n :
  (∀ k, k < n → value_after init log k = value_after init log' k) →
  eip7928_changes init log n = eip7928_changes init log' n.
Proof.
  intros H. unfold eip7928_changes. rewrite !flat_map_concat_map. f_equal.
  apply map_ext_in. intros k Hk%list_elem_of_In%elem_of_seqZ. by rewrite !H by lia.
Qed.

Lemma eip7928_changes_S init log n :
  0 ≤ n →
  eip7928_changes init log (n + 1) = eip7928_changes init log n ++
    (if value_after init log n =? value_after init log (n - 1) then []
     else [(n, value_after init log n)]).
Proof.
  intros. unfold eip7928_changes. rewrite seqZ_app by lia.
  rewrite flat_map_app. f_equal. change (seqZ (0 + n) 1) with [0 + (0 + n)].
  cbn [flat_map]. by rewrite app_nil_r, !Z.add_0_l.
Qed.

Lemma eip7928_changes_const init log p n :
  Forall (λ w, w.1 ≤ p) log → 0 ≤ p < n →
  eip7928_changes init log n = eip7928_changes init log (p + 1).
Proof.
  intros Hl [Hp Hn]. replace n with (p + 1 + Z.of_nat (Z.to_nat (n - p - 1))) by lia.
  induction (Z.to_nat (n - p - 1)) as [|m IH]; [f_equal; lia|].
  rewrite Nat2Z.inj_succ, <- Z.add_1_r, Z.add_assoc, eip7928_changes_S, IH by lia.
  rewrite (value_after_const _ _ p (_ + _ + _)) by (done || lia).
  rewrite (value_after_const _ _ p (_ - 1)) by (done || lia).
  by rewrite Z.eqb_refl, app_nil_r.
Qed.

(** The invariant of a cell at block access index [idx]: nothing happened yet,
    or every period before the open one is recorded. *)
Definition cell_inv (idx : Z) (c : cell) (cur init : Z) (log : list (Z * Z)) : Prop :=
  let '(period, pre, rec) := c in
  (period = kNone ∧ rec = [] ∧ log = [] ∧ cur = init) ∨
  (0 ≤ period ≤ idx ∧ Forall (λ w, w.1 ≤ period) log ∧
   pre = value_after init log (period - 1) ∧ cur = value_after init log period ∧
   rec = eip7928_changes init log period).

Lemma cell_inv_mono idx idx' c cur init log :
  idx ≤ idx' → cell_inv idx c cur init log → cell_inv idx' c cur init log.
Proof. destruct c as [[??]?]. unfold cell_inv. intuition lia. Qed.

Lemma eip7928_changes_nil init n : eip7928_changes init [] n = [].
Proof.
  unfold eip7928_changes. induction (seqZ 0 n) as [|k l IH]; [done|].
  cbn [flat_map]. unfold value_after at 1 2. cbn [foldl]. by rewrite Z.eqb_refl.
Qed.

Lemma cell_open_inv idx c cur init log :
  0 ≤ idx < kNone → cell_inv idx c cur init log →
  cell_inv idx (cell_open idx cur c) cur init log ∧ (cell_open idx cur c).1.1 = idx.
Proof.
  destruct c as [[period pre] rec]. intros Hidx Hc. unfold cell_open.
  destruct (Z.eqb_spec period idx) as [->|Hne]; [done|]. split; [|done].
  right. destruct Hc as [(-> & -> & -> & ->)|(Hp & Hlog & -> & -> & ->)]; cbn.
  - split; [lia|]. repeat split; auto. by rewrite eip7928_changes_nil.
  - split; [lia|]. split; [eapply Forall_impl; [done|]; simpl; lia|].
    rewrite (value_after_const _ _ period (idx - 1)) by (done || lia).
    rewrite (value_after_const _ _ period idx) by (done || lia).
    repeat split; auto.
    rewrite (eip7928_changes_const _ _ period idx) by (done || lia).
    rewrite eip7928_changes_S by lia. f_equal.
    rewrite (proj2 (Z.eqb_neq _ _)) by (unfold kNone in *; lia). cbn.
    by destruct (_ =? _).
Qed.

Lemma cell_write_inv idx c cur init log v :
  0 ≤ idx < kNone → c.1.1 = idx → cell_inv idx c cur init log →
  cell_inv idx c v init (log ++ [(idx, v)]).
Proof.
  destruct c as [[period pre] rec]. cbn. intros Hidx -> Hc. right.
  destruct Hc as [(-> & _)|(Hp & Hlog & -> & -> & ->)]; [lia|].
  split; [done|]. split; [apply Forall_app; by repeat constructor|].
  rewrite !value_after_snoc. cbn. rewrite Z.leb_refl, (proj2 (Z.leb_gt _ _)) by lia.
  repeat split; auto. apply eip7928_changes_ext. intros k Hk.
  rewrite value_after_snoc. cbn. by rewrite (proj2 (Z.leb_gt _ _)) by lia.
Qed.

Lemma cell_close_inv idx c cur init log :
  0 ≤ idx < kNone → cell_inv idx c cur init log →
  (cell_close cur c).2 = eip7928_changes init log (idx + 1).
Proof.
  destruct c as [[period pre] rec]. intros Hidx Hc. unfold cell_close. cbn [snd].
  destruct Hc as [(-> & -> & -> & ->)|(Hp & Hlog & -> & -> & ->)].
  - by rewrite eip7928_changes_nil.
  - rewrite (eip7928_changes_const _ _ period (idx + 1)) by (done || lia).
    rewrite eip7928_changes_S by lia. f_equal.
    rewrite (proj2 (Z.eqb_neq _ _)) by lia. cbn. by destruct (_ =? _).
Qed.

(** ** The operations act on cells *)

Definition period_pre (b : BlockAccessList) (k : Key) : Z * Z :=
  match k with
  | KBalance row => from_option (λ a, (a_period a, a_pre_balance a)) (kNone, 0) (accounts_ b !! row)
  | KNonce row => from_option (λ a, (a_period a, a_pre_nonce a)) (kNone, 0) (accounts_ b !! row)
  | KCode row => from_option (λ a, (a_period a, a_pre_code_hash a)) (kNone, 0) (accounts_ b !! row)
  | KSlot id => from_option (λ s, (s_period s, s_pre s)) (kNone, 0) (slots_ b !! id)
  end.

Definition cell_of (b : BlockAccessList) (own : list Key) (k : Key) : cell :=
  (period_pre b k, recorded k own (changes_ b)).

Definition wf (b : BlockAccessList) (own : list Key) : Prop :=
  log_ok (changes_ b) own (field b).

Lemma log_ok_ext cs own fld fld' :
  (∀ k, fld k = fld' k) → log_ok cs own fld → log_ok cs own fld'.
Proof. intros E [? ? ?]. split; [done|..]; intros k; rewrite <- E; auto. Qed.

Definition shape (b b' : BlockAccessList) (n : nat) : Prop :=
  index_ b' = index_ b ∧ length (accounts_ b') = length (accounts_ b) ∧
  length (slots_ b') = length (slots_ b) ∧
  (length (changes_ b') ≤ n + length (changes_ b))%nat.

Lemma slot_lookup b id s : slots_ b !! id = Some s → slot (Z.of_nat id) b = Ok s.
Proof. intros Hs. unfold slot, vec_get. by rewrite Nat2Z.id, Hs. Qed.

Lemma close_slot_spec b own id cur :
  wf b own → (id < length (slots_ b))%nat → Z.of_nat (length (changes_ b)) < kNone →
  ∃ b' own', close_slot (Z.of_nat id) cur b = Ok b' ∧ wf b' own' ∧ shape b b' 1 ∧
    cell_of b' own' (KSlot id) = cell_close cur (cell_of b own (KSlot id)) ∧
    ∀ k, k ≠ KSlot id → cell_of b' own' k = cell_of b own k.
Proof.
  intros Hwf Hid Hb. destruct (lookup_lt_is_Some_2 _ _ Hid) as [s Hs].
  unfold close_slot. rewrite (slot_lookup _ _ _ Hs), Nat2Z.id. cbn [mbind res_bind].
  destruct (push_if_ok (negb (s_period s =? kNone) && negb (cur =? s_pre s)) (KSlot id)
              (s_changes s) (s_period s) cur _ own _ Hwf) as (l & cs & own' & -> & Hlog & Hrec & Hoth & Hle);
    [cbn; by rewrite Hs|done|].
  cbn [mbind res_bind]. eexists _, own'. split; [done|]. cbn. split; [|split; [|split]].
  - eapply log_ok_ext; [|exact Hlog]. intros k. unfold put_field.
    case_decide as Hk; [subst; cbn; by rewrite list_lookup_insert_eq|].
    destruct k as [| | |id']; cbn; try done. rewrite list_lookup_insert_ne; [done|congruence].
  - unfold shape. cbn. rewrite length_insert. auto.
  - unfold cell_of, period_pre. cbn. rewrite list_lookup_insert_eq by done.
    cbn. rewrite Hs, Hrec. done.
  - intros k Hk. unfold cell_of. cbn. rewrite (Hoth k Hk). f_equal.
    destruct k as [| | |id']; cbn; try done. rewrite list_lookup_insert_ne; [done|congruence].
Qed.

Lemma open_slot_spec b own id cur :
  wf b own → (id < length (slots_ b))%nat → Z.of_nat (length (changes_ b)) < kNone →
  ∃ b' own', open_slot (Z.of_nat id) cur b = Ok b' ∧ wf b' own' ∧ shape b b' 1 ∧
    cell_of b' own' (KSlot id) = cell_open (index_ b) cur (cell_of b own (KSlot id)) ∧
    ∀ k, k ≠ KSlot id → cell_of b' own' k = cell_of b own k.
Proof.
  intros Hwf Hid Hb. destruct (lookup_lt_is_Some_2 _ _ Hid) as [s Hs].
  unfold open_slot. rewrite (slot_lookup _ _ _ Hs). cbn [mbind res_bind].
  destruct (Z.eqb_spec (s_period s) (index_ b)) as [He|Hne].
  { exists b, own. split; [done|]. split; [done|]. split; [unfold shape; auto with lia|].
    split; [|done]. unfold cell_open, cell_of. cbn. rewrite Hs. cbn.
    by rewrite He, Z.eqb_refl. }
  destruct (close_slot_spec b own id cur) as (b' & own' & -> & Hwf' & Hsh & Hc & Hoth); [done..|].
  cbn [mbind res_bind].
  assert (Hid' : (id < length (slots_ b'))%nat) by (unfold shape in Hsh; lia).
  destruct (lookup_lt_is_Some_2 _ _ Hid') as [s' Hs'].
  rewrite (slot_lookup _ _ _ Hs'), Nat2Z.id. cbn [mbind res_bind].
  eexists _, own'. split; [done|]. split; [|split; [|split]].
  - eapply log_ok_ext; [|exact Hwf']. intros k. destruct k as [| | |id']; cbn; try done.
    rewrite list_lookup_insert. case_decide as Hd; [destruct Hd; subst; by rewrite Hs'|done].
  - unfold shape in *. cbn. rewrite length_insert. tauto.
  - unfold cell_open. unfold cell_of, period_pre in *. cbn in *.
    rewrite list_lookup_insert_eq by done. rewrite Hs in *. rewrite Hs' in *. cbn in *.
    rewrite (proj2 (Z.eqb_neq _ _)) by done. destruct Hsh as [Hi _].
    injection Hc as _ _ Hr. by rewrite Hi, Hr.
  - intros k Hk. rewrite <- Hoth by done. unfold cell_of. cbn. f_equal.
    destruct k as [| | |id']; cbn; try done. rewrite list_lookup_insert_ne; [done|congruence].
Qed.

Definition of_row (row : nat) (k : Key) : Prop :=
  k = KBalance row ∨ k = KNonce row ∨ k = KCode row.
#[export] Instance of_row_dec row k : Decision (of_row row k).
Proof. unfold of_row. apply _. Defined.

Lemma put_accounts_other b row a k :
  ¬ of_row row k →
  field (put_accounts (<[row := a]> (accounts_ b)) b) k = field b k ∧
  period_pre (put_accounts (<[row := a]> (accounts_ b)) b) k = period_pre b k.
Proof.
  intros Hk. unfold of_row in Hk.
  destruct k as [r|r|r|]; cbn; try done; rewrite list_lookup_insert_ne; naive_solver.
Qed.

Lemma close_account_spec b own row (vals : Key → Z) :
  wf b own → (row < length (accounts_ b))%nat → Z.of_nat (length (changes_ b)) + 2 < kNone →
  in_u64 (vals (KNonce row)) →
  ∃ b' own',
    close_account row (vals (KBalance row)) (vals (KNonce row)) (vals (KCode row)) b = Ok b' ∧
    wf b' own' ∧ shape b b' 3 ∧
    (∀ k, of_row row k → cell_of b' own' k = cell_close (vals k) (cell_of b own k)) ∧
    (∀ k, ¬ of_row row k → cell_of b' own' k = cell_of b own k).
Proof.
  intros Hwf Hrow Hb Hn. destruct (lookup_lt_is_Some_2 _ _ Hrow) as [a Ha].
  unfold close_account, vec_get. rewrite Ha. cbn [mbind res_bind].
  destruct (Z.eqb_spec (a_period a) kNone) as [He|Hne].
  { exists b, own. split; [done|]. split; [done|]. split; [unfold shape; auto with lia|].
    split; [|done]. intros k Hk. unfold cell_close, cell_of.
    destruct Hk as [->|[->| ->]]; cbn; rewrite Ha; cbn; by rewrite He, app_nil_r. }
  destruct (push_if_ok (negb (vals (KBalance row) =? a_pre_balance a)) (KBalance row)
     (a_balance a) (a_period a) (vals (KBalance row)) _ own _ Hwf)
     as (lb & cs1 & own1 & -> & Hlog1 & Hr1 & Ho1 & Hl1); [cbn; by rewrite Ha|lia|].
  cbn [mbind res_bind].
  destruct (push_if_ok (negb (vals (KNonce row) =? a_pre_nonce a)) (KNonce row)
     (a_nonce a) (a_period a) (nonce_value (vals (KNonce row))) _ own1 _ Hlog1)
     as (ln & cs2 & own2 & -> & Hlog2 & Hr2 & Ho2 & Hl2);
     [unfold put_field; rewrite decide_False by done; cbn; by rewrite Ha|lia|].
  cbn [mbind res_bind].
  destruct (push_if_ok (negb (vals (KCode row) =? a_pre_code_hash a)) (KCode row)
     (a_code a) (a_period a) (vals (KCode row)) _ own2 _ Hlog2)
     as (lc & cs3 & own3 & -> & Hlog3 & Hr3 & Ho3 & Hl3);
     [unfold put_field; rewrite !decide_False by done; cbn; by rewrite Ha|lia|].
  cbn [mbind res_bind]. eexists _, own3. split; [done|].
  split; [|split; [|split]].
  - eapply log_ok_ext; [|exact Hlog3]. intros k. unfold put_field.
    destruct (decide (of_row row k)) as [Hk|Hk].
    + destruct Hk as [->|[->| ->]]; repeat case_decide; simplify_eq; cbn;
        rewrite list_lookup_insert_eq by done; done.
    + rewrite !decide_False by (unfold of_row in Hk; tauto).
      symmetry. by apply (put_accounts_other b).
  - unfold shape. cbn. rewrite length_insert. repeat split; auto; lia.
  - assert (Hnv : nonce_value (vals (KNonce row)) = vals (KNonce row)) by by apply Z.mod_small.
    rewrite Hnv in *. intros k Hk. unfold cell_close, cell_of.
    destruct Hk as [->|[->| ->]]; cbn; rewrite Ha, list_lookup_insert_eq by done; cbn;
      rewrite (proj2 (Z.eqb_neq _ _)) by done; cbn; do 2 f_equal.
    + by rewrite Ho3, Ho2, Hr1.
    + by rewrite Ho3, Hr2, Ho1.
    + by rewrite Hr3, Ho2, Ho1.
  - intros k Hk. unfold cell_of. f_equal; [by apply (put_accounts_other b)|].
    cbn. unfold of_row in Hk. rewrite Ho3, Ho2, Ho1; tauto.
Qed.

Lemma open_account_spec b own row (vals : Key → Z) :
  wf b own → (row < length (accounts_ b))%nat → Z.of_nat (length (changes_ b)) + 2 < kNone →
  in_u64 (vals (KNonce row)) → account_period_open row b = Ok false →
  ∃ b' own',
    open_account row (vals (KBalance row)) (vals (KNonce row)) (vals (KCode row)) b = Ok b' ∧
    wf b' own' ∧ shape b b' 3 ∧
    (∀ k, of_row row k → cell_of b' own' k = cell_open (index_ b) (vals k) (cell_of b own k)) ∧
    (∀ k, ¬ of_row row k → cell_of b' own' k = cell_of b own k).
Proof.
  intros Hwf Hrow Hb Hn Hop.
  destruct (close_account_spec b own row vals) as (b' & own' & Hcl & Hwf' & Hsh & Hc & Hoth); [done..|].
  unfold open_account. rewrite Hcl. cbn [mbind res_bind].
  assert (Hrow' : (row < length (accounts_ b'))%nat) by (unfold shape in Hsh; lia).
  destruct (lookup_lt_is_Some_2 _ _ Hrow) as [a Ha].
  destruct (lookup_lt_is_Some_2 _ _ Hrow') as [a' Ha'].
  unfold vec_get. rewrite Ha'. cbn [mbind res_bind].
  eexists _, own'. split; [done|]. split; [|split; [|split]].
  - eapply log_ok_ext; [|exact Hwf']. intros k. destruct (decide (of_row row k)) as [Hk|Hk].
    + destruct Hk as [->|[->| ->]]; cbn; by rewrite Ha', list_lookup_insert_eq.
    + symmetry. by apply (put_accounts_other b').
  - unfold shape in *. cbn. rewrite length_insert. tauto.
  - unfold account_period_open, vec_get in Hop. rewrite Ha in Hop. cbn in Hop.
    injection Hop as Hop. destruct Hsh as [Hi _]. intros k Hk. specialize (Hc k Hk).
    unfold cell_open, cell_of in *.
    destruct Hk as [->|[->| ->]]; cbn in *; rewrite Ha in *; rewrite Ha' in *;
      rewrite list_lookup_insert_eq by done; cbn in *; rewrite Hop, Hi;
      injection Hc as _ _ Hr; by rewrite Hr.
  - intros k Hk. rewrite <- Hoth by done. unfold cell_of. f_equal.
    by apply (put_accounts_other b').
Qed.

Lemma access_account_spec b own row :
  wf b own → (row < length (accounts_ b))%nat →
  ∃ b', access_account row b = Ok b' ∧ wf b' own ∧ shape b b' 0 ∧
    ∀ k, cell_of b' own k = cell_of b own k.
Proof.
  intros Hwf Hrow. destruct (lookup_lt_is_Some_2 _ _ Hrow) as [a Ha].
  unfold access_account, vec_get. rewrite Ha. cbn [mbind res_bind].
  destruct (a_accessed a).
  { exists b. split; [done|]. split; [done|]. split; [unfold shape; auto with lia|done]. }
  eexists. split; [done|]. split; [|split].
  - eapply log_ok_ext; [|exact Hwf]. intros k. destruct k as [r|r|r|]; cbn; try done;
      rewrite list_lookup_insert; case_decide as Hd; try done; destruct Hd; subst; by rewrite Ha.
  - unfold shape. cbn. rewrite length_insert. auto.
  - intros k. unfold cell_of. cbn. f_equal. destruct k as [r|r|r|]; cbn; try done;
      rewrite list_lookup_insert; case_decide as Hd; try done; destruct Hd; subst; by rewrite Ha.
Qed.

Lemma access_slot_spec b own id :
  wf b own → (id < length (slots_ b))%nat →
  ∃ b', access_slot (Z.of_nat id) b = Ok b' ∧ wf b' own ∧ shape b b' 0 ∧
    ∀ k, cell_of b' own k = cell_of b own k.
Proof.
  intros Hwf Hid. destruct (lookup_lt_is_Some_2 _ _ Hid) as [s Hs].
  unfold access_slot. rewrite (slot_lookup _ _ _ Hs), Nat2Z.id. cbn [mbind res_bind].
  destruct (s_accessed s).
  { exists b. split; [done|]. split; [done|]. split; [unfold shape; auto with lia|done]. }
  eexists. split; [done|]. split; [|split].
  - eapply log_ok_ext; [|exact Hwf]. intros k. destruct k as [| | |r]; cbn; try done;
      rewrite list_lookup_insert; case_decide as Hd; try done; destruct Hd; subst; by rewrite Hs.
  - unfold shape. cbn. rewrite length_insert. auto.
  - intros k. unfold cell_of. cbn. f_equal. destruct k as [| | |r]; cbn; try done;
      rewrite list_lookup_insert; case_decide as Hd; try done; destruct Hd; subst; by rewrite Hs.
Qed.

Lemma bal_before_write_spec b own row (vals : Key → Z) :
  wf b own → (row < length (accounts_ b))%nat → Z.of_nat (length (changes_ b)) + 2 < kNone →
  in_u64 (vals (KNonce row)) →
  ∃ b' own',
    bal_before_write row (vals (KBalance row)) (vals (KNonce row)) (vals (KCode row)) b = Ok b' ∧
    wf b' own' ∧ shape b b' 3 ∧
    (∀ k, of_row row k → cell_of b' own' k = cell_open (index_ b) (vals k) (cell_of b own k)) ∧
    (∀ k, ¬ of_row row k → cell_of b' own' k = cell_of b own k).
Proof.
  intros Hwf Hrow Hb Hn. unfold bal_before_write.
  destruct (access_account_spec b own row) as (b1 & -> & Hwf1 & Hsh1 & Hc1); [done..|].
  cbn [mbind res_bind]. destruct Hsh1 as (Hi & Hna & Hns & Hlc).
  assert (Hrow1 : (row < length (accounts_ b1))%nat) by lia.
  destruct (lookup_lt_is_Some_2 _ _ Hrow1) as [a Ha].
  destruct (account_period_open row b1) as [o|] eqn:Ho;
    [|unfold account_period_open, vec_get in Ho; rewrite Ha in Ho; discriminate Ho].
  cbn [mbind res_bind]. destruct o.
  - exists b1, own. split; [done|]. split; [done|]. split; [unfold shape; lia|].
    split; [|auto]. intros k Hk. rewrite <- Hc1. unfold cell_open, cell_of.
    unfold account_period_open, vec_get in Ho. rewrite Ha in Ho. cbn in Ho. injection Ho as Ho.
    destruct Hk as [->|[->| ->]]; cbn; rewrite Ha; cbn; by rewrite <- Hi, Ho.
  - destruct (open_account_spec b1 own row vals) as (b' & own' & -> & Hwf' & Hsh & Hc & Hoth);
      [done|done|lia|done|done|].
    exists b', own'. split; [done|]. split; [done|]. split; [unfold shape in *; lia|].
    setoid_rewrite <- Hc1. rewrite <- Hi. done.
Qed.

(** ** Executions

    The operations the block performs on the access list, with the field values
    they act on: moving to the next block access index, creating a slot record,
    loading an account, reading a slot ([bal_slot]), the writes (a slot is accessed
    and then opened; an account write is also how the journal restores an account
    field), and a journal restore of a slot, which does not consult the list. *)

Inductive event :=
| EvIndex (i : Z)
| EvNewSlot (key : Z)
| EvLoad (row : nat)
| EvReadSlot (id : nat)
| EvSlot (id : nat) (v : Z)
| EvAccount (k : Key) (v : Z)
| EvRestoreSlot (id : nat) (v : Z).

Definition row_of (k : Key) : nat :=
  match k with KBalance r | KNonce r | KCode r | KSlot r => r end.
Definition is_account_key (k : Key) : bool :=
  match k with KSlot _ => false | _ => true end.

Definition upd (vals : Key → Z) (k : Key) (v : Z) : Key → Z :=
  λ k', if decide (k' = k) then v else vals k'.

Definition run_event (e : event) (st : BlockAccessList * (Key → Z))
    : res (BlockAccessList * (Key → Z)) :=
  let '(b, vals) := st in
  match e with
  | EvIndex i => Ok (set_index i b, vals)
  | EvNewSlot key => Ok ((witness_slot kNone key b).2, vals)
  | EvLoad row => b ← access_account row b; Ok (b, vals)
  | EvReadSlot id => b ← access_slot (Z.of_nat id) b; Ok (b, vals)
  | EvSlot id v =>
      b ← access_slot (Z.of_nat id) b;
      b ← open_slot (Z.of_nat id) (vals (KSlot id)) b; Ok (b, upd vals (KSlot id) v)
  | EvAccount k v =>
      let r := row_of k in
      b ← bal_before_write r (vals (KBalance r)) (vals (KNonce r)) (vals (KCode r)) b;
      Ok (b, upd vals k v)
  | EvRestoreSlot id v => Ok (b, upd vals (KSlot id) v)
  end.

Fixpoint run (evs : list event) (st : BlockAccessList * (Key → Z))
    : res (BlockAccessList * (Key → Z)) :=
  match evs with
  | [] => Ok st
  | e :: evs => st ← run_event e st; run evs st
  end.

(** Well-formed executions over [n] account rows and [m] slot records: indices
    grow and stay below [kNone], rows exist, nonces are 64-bit, and a slot is
    restored only at an index it was written at ([opened]). *)
Definition ev_ok (n m : nat) (idx : Z) (opened : list nat) (e : event) : bool :=
  match e with
  | EvIndex i => (idx <=? i) && (i <? kNone)
  | EvNewSlot _ => true
  | EvLoad row => bool_decide (row < n)%nat
  | EvReadSlot id | EvSlot id _ => bool_decide (id < m)%nat
  | EvAccount k v => is_account_key k && bool_decide (row_of k < n)%nat && bool_decide (in_u64 v ∨ k ≠ KNonce (row_of k))
  | EvRestoreSlot id _ => bool_decide (id ∈ opened)
  end.

Definition ev_index (idx : Z) (e : event) : Z :=
  match e with EvIndex i => i | _ => idx end.
Definition ev_slots (m : nat) (e : event) : nat :=
  match e with EvNewSlot _ => S m | _ => m end.
Definition ev_opened (idx : Z) (opened : list nat) (e : event) : list nat :=
  match e with
  | EvIndex i => if idx =? i then opened else []
  | EvSlot id _ => id :: opened
  | _ => opened
  end.

Fixpoint valid (n m : nat) (idx : Z) (opened : list nat) (evs : list event) : bool :=
  match evs with
  | [] => true
  | e :: evs =>
      ev_ok n m idx opened e &&
      valid n (ev_slots m e) (ev_index idx e) (ev_opened idx opened e) evs
  end.

(** The writes to field [k], each with the index it happened at. *)
Definition ev_log (k : Key) (idx : Z) (e : event) : list (Z * Z) :=
  match e with
  | EvSlot id v | EvRestoreSlot id v => if decide (k = KSlot id) then [(idx, v)] else []
  | EvAccount k' v => if decide (k = k') then [(idx, v)] else []
  | _ => []
  end.

Fixpoint log_of (k : Key) (idx : Z) (evs : list event) : list (Z * Z) :=
  match evs with
  | [] => []
  | e :: evs => ev_log k idx e ++ log_of k (ev_index idx e) evs
  end.

(** The final pass over one field: close its record and read its list. *)
Definition final_changes (k : Key) (st : BlockAccessList * (Key → Z)) : res (list (Z * Z)) :=
  let '(b, vals) := st in
  let r := row_of k in
  b ← (if is_account_key k
       then close_account r (vals (KBalance r)) (vals (KNonce r)) (vals (KCode r)) b
       else close_slot (Z.of_nat r) (vals k) b);
  match field b k with
  | Some l => changes_of l b
  | None => Fatal "no such record"
  end.

(** The state of an execution: every field's cell satisfies [cell_inv] for the
    writes logged so far. *)
Record exec_inv (n m : nat) (idx : Z) (opened : list nat) (b : BlockAccessList)
    (own : list Key) (vals init : Key → Z) (log : Key → list (Z * Z)) : Prop := {
  ei_index : index_ b = idx;
  ei_bound : 0 ≤ idx < kNone;
  ei_accounts : length (accounts_ b) = n;
  ei_slots : length (slots_ b) = m;
  ei_wf : wf b own;
  ei_cells : ∀ k, cell_inv idx (cell_of b own k) (vals k) (init k) (log k);
  ei_opened : ∀ id, id ∈ opened → (cell_of b own (KSlot id)).1.1 = idx;
  ei_nonces : ∀ r, (r < n)%nat → in_u64 (vals (KNonce r)) }.

(** A write to field [k] whose period was just opened. *)
Lemma cells_write b own b' own' vals init log idx k v :
  0 ≤ idx < kNone →
  (∀ k', cell_inv idx (cell_of b own k') (vals k') (init k') (log k')) →
  (∀ k', cell_of b' own' k' = cell_of b own k' ∨
         cell_of b' own' k' = cell_open idx (vals k') (cell_of b own k')) →
  (cell_of b' own' k).1.1 = idx →
  ∀ k', cell_inv idx (cell_of b' own' k') (upd vals k v k') (init k')
          (log k' ++ if decide (k' = k) then [(idx, v)] else []).
Proof.
  intros Hidx Hinv Hcells Hk k'.
  assert (Hc : cell_inv idx (cell_of b' own' k') (vals k') (init k') (log k')).
  { destruct (Hcells k') as [->| ->]; [auto|]. by apply cell_open_inv. }
  unfold upd. case_decide as Hd; [subst; by eapply cell_write_inv|by rewrite app_nil_r].
Qed.

Lemma cell_open_period idx cur c : (cell_open idx cur c).1.1 = idx.
Proof. destruct c as [[p q] r]. unfold cell_open. by destruct (Z.eqb_spec p idx). Qed.

Lemma witness_slot_inv n m idx opened b own vals init log key :
  exec_inv n m idx opened b own vals init log →
  exec_inv n (S m) idx opened (witness_slot kNone key b).2 own vals init log.
Proof.
  intros [Hi Hb Ha Hs [Hlen Hlists Hown] Hc Ho Hn]. unfold witness_slot.
  rewrite Z.eqb_refl. cbn [snd].
  assert (Hcell : ∀ k, cell_of (put_slots (slots_ b ++ [mkSlot false kNone key 0 list0]) b) own k
                       = cell_of b own k).
  { intros k. unfold cell_of. f_equal. destruct k as [| | |id]; cbn; try done.
    destruct (Nat.lt_trichotomy id (length (slots_ b))) as [?|[->|?]].
    - by rewrite lookup_app_l.
    - rewrite list_lookup_middle, (lookup_ge_None_2 (slots_ b)) by lia. done.
    - rewrite !lookup_ge_None_2; [done|lia|]. rewrite length_app. simpl. lia. }
  split; auto.
  - cbn. rewrite length_app. simpl. lia.
  - split; [done|intros k l Hk|intros k Hk].
    + destruct k as [| | |id]; try (by apply Hlists). cbn in Hk.
      apply fmap_Some in Hk as (s & Hs' & ->).
      apply lookup_app_Some in Hs' as [Hs'|[Hge Hs']].
      { apply Hlists. cbn. by rewrite Hs'. }
      apply list_lookup_singleton_Some in Hs' as [Heq <-].
      assert (Hids : ids (KSlot id) own = []).
      { apply elem_of_nil_inv. intros i Hi'%elem_of_ids%list_elem_of_lookup_2%Hown.
        cbn in Hi'. rewrite fmap_is_Some, lookup_lt_is_Some in Hi'. lia. }
      rewrite Hids. done.
    + apply Hown in Hk. destruct k as [| | |id]; cbn in *; try done.
      rewrite fmap_is_Some, lookup_lt_is_Some in *. rewrite length_app. lia.
  - intros k. rewrite Hcell. auto.
  - intros id Hid. rewrite Hcell. auto.
Qed.

Lemma run_event_inv e n m idx opened b own vals init log :
  exec_inv n m idx opened b own vals init log →
  ev_ok n m idx opened e = true → Z.of_nat (length (changes_ b)) + 2 < kNone →
  ∃ b' vals' own', run_event e (b, vals) = Ok (b', vals') ∧
    exec_inv n (ev_slots m e) (ev_index idx e) (ev_opened idx opened e) b' own' vals' init
      (λ k, log k ++ ev_log k idx e) ∧
    (length (changes_ b') ≤ 3 + length (changes_ b))%nat.
Proof.
  intros Hinv Hok Hlen.
  destruct Hinv as [Hi Hb Ha Hs Hwf Hc Ho Hn] eqn:Einv; clear Einv.
  destruct e as [i|key|row|id|id v|k v|id v]; cbn in Hok |- *.
  - apply andb_prop in Hok as [?%Z.leb_le ?%Z.ltb_lt].
    exists (set_index i b), vals, own. split; [done|]. split; [|cbn; lia].
    split; auto; [lia|..].
    + intros k. rewrite app_nil_r. change (cell_of (set_index i b) own k) with (cell_of b own k).
      by apply (cell_inv_mono idx).
    + destruct (Z.eqb_spec idx i) as [<-|?]; [exact Ho|]. by intros id ?%not_elem_of_nil.
  - eexists _, vals, own. split; [done|]. split; [|unfold witness_slot; rewrite Z.eqb_refl; cbn; lia].
    apply (witness_slot_inv _ _ _ _ _ _ _ _ _ key) in Hinv as [????? Hc' ??]. split; auto.
    intros k. rewrite app_nil_r. apply Hc'.
  - apply bool_decide_eq_true in Hok.
    destruct (access_account_spec b own row) as (b' & -> & Hwf' & Hsh & Hc'); [done|lia|].
    cbn. exists b', vals, own. split; [done|]. unfold shape in Hsh. split; [|lia].
    split; auto with lia; intros; rewrite ?app_nil_r, Hc'; auto.
  - apply bool_decide_eq_true in Hok.
    destruct (access_slot_spec b own id) as (b' & -> & Hwf' & Hsh & Hc'); [done|lia|].
    cbn. exists b', vals, own. split; [done|]. unfold shape in Hsh. split; [|lia].
    split; auto with lia; intros; rewrite ?app_nil_r, Hc'; auto.
  - apply bool_decide_eq_true in Hok.
    destruct (access_slot_spec b own id) as (b1 & -> & Hwf1 & Hsh1 & Hc1); [done|lia|]. cbn [mbind res_bind]. unfold shape in Hsh1.
    destruct (open_slot_spec b1 own id (vals (KSlot id))) as (b' & own' & -> & Hwf' & Hsh & Hck & Hoth);
      [done|lia..|].
    cbn. eexists b', _, own'. split; [done|]. unfold shape in Hsh. split; [|lia].
    rewrite Hc1 in Hck. assert (Hoth' : ∀ k, k ≠ KSlot id → cell_of b' own' k = cell_of b own k) by (intros; by rewrite Hoth, Hc1). clear Hoth. rename Hoth' into Hoth.
    replace (index_ b1) with idx in Hck by (symmetry; lia). split; auto with lia.
    + apply (cells_write b own); auto; [|rewrite Hck; apply cell_open_period].
      intros k'. destruct (decide (k' = KSlot id)) as [->|]; auto.
    + intros id' [->|Hid]%elem_of_cons; [rewrite Hck; apply cell_open_period|].
      destruct (decide (id' = id)) as [->|]; [rewrite Hck; apply cell_open_period|].
      rewrite Hoth by congruence. auto.
  - rewrite !andb_true_iff, !bool_decide_eq_true in Hok. destruct Hok as [[Hk Hr] Hv].
    destruct (bal_before_write_spec b own (row_of k) vals) as (b' & own' & -> & Hwf' & Hsh & Hck & Hoth);
      [done|lia|done|auto|].
    cbn. eexists b', _, own'. split; [done|]. unfold shape in Hsh. split; [|lia].
    rewrite Hi in Hck.
    assert (Hrow : of_row (row_of k) k) by (destruct k; unfold of_row; naive_solver).
    split; auto with lia.
    + apply (cells_write b own); auto; [|rewrite Hck by done; apply cell_open_period].
      intros k'. destruct (decide (of_row (row_of k) k')); auto.
    + intros id Hid. rewrite Hoth; [auto|]. unfold of_row. naive_solver.
    + intros r Hr'. unfold upd. case_decide as Hd; [|auto]. subst k. naive_solver.
  - apply bool_decide_eq_true in Hok. eexists b, _, own. split; [done|]. split; [|lia].
    split; auto. apply (cells_write b own); auto.
Qed.

Lemma run_inv evs : ∀ n m idx opened b own vals init log,
  exec_inv n m idx opened b own vals init log →
  valid n m idx opened evs = true →
  Z.of_nat (length (changes_ b)) + 3 * Z.of_nat (length evs) < kNone →
  ∃ b' vals' own' opened', run evs (b, vals) = Ok (b', vals') ∧
    exec_inv n (foldl ev_slots m evs) (foldl ev_index idx evs) opened' b' own' vals' init
      (λ k, log k ++ log_of k idx evs) ∧
    (length (changes_ b') ≤ 3 * length evs + length (changes_ b))%nat.
Proof.
  induction evs as [|e evs IH]; intros n m idx opened b own vals init log Hinv Hv Hb.
  - exists b, vals, own, opened. split; [done|]. split; [|lia].
    destruct Hinv. split; auto. intros k. cbn [log_of]. rewrite app_nil_r. auto.
  - cbn [valid length run foldl] in Hv, Hb |- *. apply andb_prop in Hv as [He Hv].
    destruct (run_event_inv e _ _ _ _ _ _ _ _ _ Hinv He) as (b1 & vals1 & own1 & Hr & Hinv1 & Hl1);
      [lia|].
    rewrite Hr. cbn [mbind res_bind].
    destruct (IH _ _ _ _ _ _ _ _ _ Hinv1 Hv) as (b' & vals' & own' & op' & Hr' & Hinv' & Hl'); [lia|].
    exists b', vals', own', op'. split; [done|]. split; [|lia].
    destruct Hinv' as [????? Hc ??]. split; auto.
    intros k. cbn [log_of]. rewrite app_assoc. apply Hc.
Qed.

Lemma make_inv n cap init :
  (∀ r, (r < n)%nat → in_u64 (init (KNonce r))) →
  exec_inv n 0 0 [] (make n cap) [] init init (λ _, []).
Proof.
  intros Hn. split; try done.
  - cbn. apply length_replicate.
  - split; [done|intros k l Hk|by intros k ?%not_elem_of_nil].
    destruct k; cbn in Hk; try (apply fmap_Some in Hk as (a & Ha & ->);
      apply lookup_replicate in Ha as [-> _]; done); done.
  - intros k. unfold cell_of. replace (period_pre (make n cap) k) with (kNone, 0); [by left|].
    destruct k as [r|r|r|]; cbn; try done;
      (destruct (replicate n account0 !! r) eqn:E; [|done]);
      apply lookup_replicate in E as [-> _]; done.
  - by intros id ?%not_elem_of_nil.
Qed.

Lemma final_changes_spec n m idx opened b own vals init log k :
  exec_inv n m idx opened b own vals init log →
  Z.of_nat (length (changes_ b)) + 3 < kNone →
  (row_of k < (if is_account_key k then n else m))%nat →
  final_changes k (b, vals) = Ok (eip7928_changes (init k) (log k) (idx + 1)).
Proof.
  intros [Hi Hb Ha Hs Hwf Hc Ho Hn] Hlen Hk. unfold final_changes.
  assert (H : ∃ b' own',
    (if is_account_key k then close_account (row_of k) (vals (KBalance (row_of k)))
        (vals (KNonce (row_of k))) (vals (KCode (row_of k))) b
     else close_slot (Z.of_nat (row_of k)) (vals k) b) = Ok b' ∧ wf b' own' ∧ shape b b' 3 ∧
     cell_of b' own' k = cell_close (vals k) (cell_of b own k) ∧ is_Some (field b' k)).
  { destruct (is_account_key k) eqn:Ek.
    - destruct (close_account_spec b own (row_of k) vals)
        as (b' & own' & H1 & H2 & H3 & H4 & _); [done|lia..|auto|].
      exists b', own'. split; [done|]. split; [done|]. split; [done|]. unfold shape in H3. split.
      + apply H4. destruct k; unfold of_row; naive_solver.
      + destruct k; cbn in *; try done;
          (rewrite fmap_is_Some, lookup_lt_is_Some; lia).
    - destruct k as [| | |id]; try done. cbn in Hk.
      destruct (close_slot_spec b own id (vals (KSlot id)))
        as (b' & own' & H1 & H2 & H3 & H4 & _); [done|lia..|].
      exists b', own'. split; [done|]. split; [done|]. unfold shape in *.
      split; [lia|]. split; [done|]. cbn. rewrite fmap_is_Some, lookup_lt_is_Some. lia. }
  destruct H as (b' & own' & -> & Hwf' & Hsh & Hcell & [l Hl]). cbn [mbind res_bind].
  unfold shape in Hsh. rewrite Hl, (changes_of_recorded b' own' k l) by (done || lia).
  f_equal. rewrite <- (cell_close_inv idx (cell_of b own k) (vals k)) by auto.
  by rewrite <- Hcell.
Qed.

(** C22. The EIP-7928 change lists are exact. For every well-formed sequence of
    access-list operations of a block (index changes, slot records, loads,
    slot reads, account and slot writes, which mark their record as accessed
    before they open it, interleaved over any fields, journal restores), indices
    growing and fewer than 2^32 changes in all, the operations succeed, and closing a field in the final pass leaves in its
    linked list exactly the changes the EIP defines: in index order, one
    [(index, value)] for every block access index at whose end the field's value
    differs from its value at that index's start, and nothing else. *)
Theorem bal_changes_exact (n cap : nat) (init : Key → Z) (evs : list event) (k : Key) :
  (∀ r, (r < n)%nat → in_u64 (init (KNonce r))) →
  valid n 0 0 [] evs = true →
  3 * Z.of_nat (length evs) + 3 < kNone →
  (row_of k < (if is_account_key k then n else foldl ev_slots 0%nat evs))%nat →
  ∃ st, run evs (make n cap, init) = Ok st ∧
    final_changes k st =
      Ok (eip7928_changes (init k) (log_of k 0 evs) (foldl ev_index 0 evs + 1)).
Proof.
  intros Hn Hv Hb Hk.
  destruct (run_inv evs _ _ _ _ _ _ _ _ _ (make_inv n cap init Hn) Hv)
    as (b & vals & own & opened & Hr & Hinv & Hl); [cbn; lia|].
  exists (b, vals). split; [done|]. cbn in Hl.
  apply (final_changes_spec _ _ _ _ _ _ _ _ _ _ Hinv); [lia|done].
Qed.

Lemma bal_changes_exact_witness :
  ∃ st, run [EvNewSlot 7; EvSlot 0 5; EvAccount (KNonce 1) 3; EvIndex 1; EvReadSlot 0; EvSlot 0 6;
             EvRestoreSlot 0 5; EvIndex 2; EvSlot 0 9; EvAccount (KNonce 1) 4]
          (make 2 4, λ _, 0) = Ok st ∧
    final_changes (KSlot 0) st = Ok [(0, 5); (2, 9)].
Proof.
  refine (bal_changes_exact 2 4 (λ _, 0)
    [EvNewSlot 7; EvSlot 0 5; EvAccount (KNonce 1) 3; EvIndex 1; EvReadSlot 0; EvSlot 0 6;
     EvRestoreSlot 0 5; EvIndex 2; EvSlot 0 9; EvAccount (KNonce 1) 4] (KSlot 0) _ _ _ _).
  - intros r _. split; [lia|reflexivity].
  - reflexivity.
  - reflexivity.
  - cbn. lia.
Defined.

End Bal.
