(* ===== verification/Jumpdest.v ===== *)
(** JUMPDEST analysis ([src/zevm/evm_state.cpp], [evm_state.hpp]): the bitset of
    valid jump targets, built 64 bytes of code at a time by a cursor that steps
    over PUSH data, and its probe. *)

From stdpp Require Import base numbers list.
From S2P Require Import Prelude.

Module Jumpdest.

(** ** The analysis *)

(** PUSH1..PUSH32 span their immediate bytes, everything else one byte. *)
Definition instr_width (op : Z) : nat :=
  if Z.land op 0xe0 =? 0x60 then Z.to_nat (op - 0x5e) else 1%nat.

Definition code_at (code : bytes) (p : nat) : Z := b2z (nth p code Byte.x00).

(** [while (p < gEnd)]: the word of one group and the cursor after it; every round
    advances the cursor, so 64 rounds cover a group. *)
Fixpoint walk_group (fuel : nat) (code : bytes) (gStart gEnd p : nat) (word : Z) : Z * nat :=
  match fuel with
  | O => (word, p)
  | S fuel =>
      if (p <? gEnd)%nat then
        let op := code_at code p in
        let word := if op =? 0x5b then Z.lor word (Z.shiftl 1 (Z.of_nat (p - gStart))) else word in
        walk_group fuel code gStart gEnd (p + instr_width op) word
      else (word, p)
  end.

(** The full groups from [g] on, then the trailing partial group. *)
Fixpoint walk_groups (n : nat) (code : bytes) (g p : nat) : list Z * nat :=
  match n with
  | O => ([], p)
  | S n =>
      let '(word, p) := walk_group 64 code (g * 64) (g * 64 + 64) p 0 in
      let '(out, p) := walk_groups n code (S g) p in
      (word :: out, p)
  end.

Definition build_jumpdest_bitset (code : bytes) : list Z :=
  let nFull := (length code / 64)%nat in
  let rem := (length code mod 64)%nat in
  let '(out, p) := walk_groups nFull code 0 0 in
  if (rem =? 0)%nat then out
  else out ++ [(walk_group 64 code (nFull * 64) (length code) p 0).1].

(** The probe of JUMP and JUMPI: past the code it is no target, and a word that the
    bitset does not hold must not be read. *)
Definition is_jumpdest (code : bytes) (bitset : list Z) (pos : Z) : res bool :=
  if pos <? Z.of_nat (length code) then
    w ← vec_get bitset (Z.to_nat (Z.shiftr pos 6));
    Ok (negb (Z.land (Z.shiftr w (Z.land pos 63)) 1 =? 0))
  else Ok false.

(** ** Instruction boundaries *)

(** The EVM's definition: the instruction PUSHn, of opcode 0x5f + n for n from 1 to
    32, is followed by n bytes of data, and no other instruction has any. *)
Definition immediate_bytes (op : Z) : nat :=
  if bool_decide (0x60 ≤ op ≤ 0x7f) then Z.to_nat (op - 0x5f) else 0%nat.
(** [p] is the position of an instruction: the first byte of the code is one, and so
    is the byte after the data of one. *)
Inductive boundary (code : bytes) : nat → Prop :=
| boundary_0 : boundary code 0
| boundary_next p b : boundary code p → code !! p = Some b → boundary code (p + 1 + immediate_bytes (b2z b)).

Definition valid_target (code : bytes) (p : nat) : Prop :=
  boundary code p ∧ code !! p = Some Byte.x5b.

Lemma instr_width_pos code p : (1 ≤ instr_width (code_at code p))%nat.
Proof.
  unfold code_at. generalize (nth p code Byte.x00). intros b.
  apply Nat.leb_le. by destruct b.
Qed.

(** The code's mask test finds PUSH1..PUSH32 and their widths. *)
Lemma instr_width_spec b : instr_width (b2z b) = (1 + immediate_bytes (b2z b))%nat.
Proof. by destruct b. Qed.
Lemma boundary_walk code p : boundary code p → (p < length code)%nat → boundary code (p + instr_width (code_at code p)).
Proof.
  intros Hb Hp. destruct (lookup_lt_is_Some_2 _ _ Hp) as [b Eb]. unfold code_at. rewrite (nth_lookup_Some _ _ _ _ Eb), instr_width_spec, Nat.add_assoc.
  by apply boundary_next.
Qed.

(** The chain of cursor positions. *)
Fixpoint pos_at (code : bytes) (n : nat) : nat :=
  match n with
  | O => 0%nat
  | S n => (pos_at code n + instr_width (code_at code (pos_at code n)))%nat
  end.

Lemma pos_at_mono code n m : (n < m)%nat → (pos_at code (S n) ≤ pos_at code m)%nat.
Proof.
  induction 1 as [|m Hm IH]; [done|]. pose proof (instr_width_pos code (pos_at code m)). cbn in *. lia.
Qed.

Lemma boundary_pos code p : boundary code p → ∃ n, p = pos_at code n.
Proof.
  induction 1 as [|p b Hp [n ->] Hb]; [by exists 0%nat|]. exists (S n). cbn [pos_at]. unfold code_at.
  by rewrite (nth_lookup_Some _ _ _ _ Hb), instr_width_spec, Nat.add_assoc.
Qed.

(** Past a boundary [p], the next one is after [p]'s instruction. *)
Lemma boundary_step code p q :
  boundary code p → boundary code q → (p < q)%nat → (p + instr_width (code_at code p) ≤ q)%nat.
Proof.
  intros [n ->]%boundary_pos [m ->]%boundary_pos Hlt.
  destruct (Nat.le_gt_cases m n) as [Hmn|Hnm]; [|by apply (pos_at_mono code n m)].
  exfalso. destruct (Nat.eq_dec m n) as [->|]; [lia|].
  pose proof (pos_at_mono code m n ltac:(lia)). cbn in *. lia.
Qed.

(** ** Correctness of the walk *)

(** The jump targets the word of a group has collected: those of [lo, hi). *)
Definition collects (code : bytes) (gStart lo hi : nat) (word word' : Z) : Prop :=
  ∀ i : nat, Z.testbit word' (Z.of_nat i) = true ↔
    Z.testbit word (Z.of_nat i) = true ∨
    (lo ≤ gStart + i < hi ∧ valid_target code (gStart + i))%nat.

Lemma code_at_5b code p : (p < length code)%nat → code_at code p = 0x5b ↔ code !! p = Some Byte.x5b.
Proof.
  intros Hp. destruct (lookup_lt_is_Some_2 _ _ Hp) as [b Hb]. unfold code_at.
  rewrite (nth_lookup_Some _ _ _ _ Hb), Hb. split; [|by intros [= ->]].
  intros E. f_equal. rewrite <- (z2b_b2z b), E. done.
Qed.

Lemma walk_group_spec fuel code gs ge p word word' p' :
  boundary code p → (gs ≤ p)%nat → (ge ≤ length code)%nat → (ge ≤ p + fuel)%nat →
  walk_group fuel code gs ge p word = (word', p') →
  boundary code p' ∧ (ge ≤ p')%nat ∧ (p ≤ p')%nat ∧ collects code gs p ge word word' ∧
  (∀ q, boundary code q → (p ≤ q < p')%nat → (q < ge)%nat).
Proof.
  revert p word. induction fuel as [|fuel IH]; intros p word Hb Hgs Hlen Hf H; cbn [walk_group] in H.
  { injection H as <- <-. split; [done|]. split; [lia|]. split; [done|]. split; [|lia].
    intros i. split; [by left|]. intros [|[]]; [done|lia]. }
  destruct (Nat.ltb_spec p ge) as [Hlt|Hge]; cycle 1.
  { injection H as <- <-. split; [done|]. split; [done|]. split; [done|]. split; [|lia].
    intros i. split; [by left|]. intros [|[]]; [done|lia]. }
  pose proof (instr_width_pos code p) as Hw.
  apply IH in H as (Hb' & Hge' & Hpp & Hc & Hq); [|by apply boundary_walk; [|lia]|lia|done|lia].
  split; [done|]. split; [done|]. split; [lia|]. split.
  - intros i. rewrite (Hc i). clear Hc Hq IH. split.
    + intros [Hbit|[Hr Hv]]; [|right; split; [lia|done]].
      destruct (Z.eqb_spec (code_at code p) 0x5b) as [E|]; [|by left].
      rewrite Z.lor_spec, Z.shiftl_1_l, Z.pow2_bits_eqb, orb_true_iff, Z.eqb_eq in Hbit by lia.
      destruct Hbit as [|Ei]; [by left|]. right. assert (i = (p - gs)%nat) as -> by lia.
      replace (gs + (p - gs))%nat with p by lia. split; [lia|]. split; [done|].
      apply code_at_5b; [lia|done].
    + intros [Hbit|[Hr Hv]].
      * left. destruct (code_at code p =? 0x5b); [|done]. rewrite Z.lor_spec, Hbit. done.
      * destruct (Nat.eq_dec (gs + i)%nat p) as [Ep|Hne].
        -- left. rewrite Ep in Hv. destruct Hv as [_ Hv]. apply code_at_5b in Hv; [|lia].
           rewrite Hv. cbn [Z.eqb Pos.eqb]. change (0x5b =? 0x5b) with true. cbv iota.
           rewrite Z.lor_spec, Z.shiftl_1_l, Z.pow2_bits_eqb by lia.
           replace (Z.of_nat (p - gs)) with (Z.of_nat i) by lia. rewrite Z.eqb_refl. apply orb_true_r.
        -- right. split; [|done]. pose proof (boundary_step code p (gs + i)%nat Hb (proj1 Hv) ltac:(lia)). lia.
  - intros q Hbq Hr. destruct (Nat.eq_dec q p) as [->|]; [done|].
    pose proof (boundary_step code p q Hb Hbq ltac:(lia)). apply Hq; [done|lia].
Qed.

(** Bit [i] of a word list. *)
Definition bit_of (out : list Z) (i : nat) : bool :=
  Z.testbit (nth (i / 64) out 0) (Z.of_nat (i mod 64)).

(** A group's word, from cursor [p] with no boundary between the group's start and
    [p]: its bits are exactly the group's jump targets. *)
Lemma group_exact code gs ge p word' p' :
  boundary code p → (gs ≤ p)%nat → (ge ≤ length code)%nat → (gs ≤ ge ≤ gs + 64)%nat →
  (∀ q, boundary code q → (gs ≤ q)%nat → (p ≤ q)%nat) →
  walk_group 64 code gs ge p 0 = (word', p') →
  boundary code p' ∧ (ge ≤ p')%nat ∧ (∀ q, boundary code q → (ge ≤ q)%nat → (p' ≤ q)%nat) ∧
  ∀ i, (i < 64)%nat → Z.testbit word' (Z.of_nat i) = true ↔
    ((gs + i < ge)%nat ∧ valid_target code (gs + i)%nat).
Proof.
  intros Hb Hgs Hlen Hge Hno H.
  destruct (walk_group_spec 64 code gs ge p 0 word' p' Hb Hgs Hlen ltac:(lia) H) as (Hb' & Hge' & Hpp & Hc & Hq).
  split; [done|]. split; [done|]. split.
  - intros q Hbq Hle. destruct (Nat.le_gt_cases p' q) as [|Hlt]; [done|]. exfalso.
    assert (p ≤ q)%nat by (apply Hno; [done|lia]). specialize (Hq q Hbq ltac:(lia)). lia.
  - intros i Hi. rewrite (Hc i), Z.bits_0. split.
    + intros [|[Hr Hv]]; [done|]. split; [lia|done].
    + intros [Hr Hv]. right. split; [|done]. split; [|lia]. apply Hno; [apply Hv|lia].
Qed.

Lemma bit_of_head word out i : (i < 64)%nat → bit_of (word :: out) i = Z.testbit word (Z.of_nat i).
Proof. intros Hi. unfold bit_of. by rewrite Nat.div_small, Nat.mod_small. Qed.

Lemma bit_of_tail word out j : bit_of (word :: out) (64 + j) = bit_of out j.
Proof.
  unfold bit_of. replace (64 + j)%nat with (j + 1 * 64)%nat by lia.
  rewrite Nat.div_add, Nat.Div0.mod_add, Nat.add_comm by done. done.
Qed.

Lemma walk_groups_cons n code g p :
  walk_groups (S n) code g p =
  (let '(word, p) := walk_group 64 code (g * 64) (g * 64 + 64) p 0 in
   let '(out, p) := walk_groups n code (S g) p in
   (word :: out, p)).
Proof. reflexivity. Qed.

Lemma walk_groups_spec n code g p out p' :
  boundary code p → (g * 64 ≤ p)%nat → ((g + n) * 64 ≤ length code)%nat →
  (∀ q, boundary code q → (g * 64 ≤ q)%nat → (p ≤ q)%nat) →
  walk_groups n code g p = (out, p') →
  boundary code p' ∧ ((g + n) * 64 ≤ p')%nat ∧
  (∀ q, boundary code q → ((g + n) * 64 ≤ q)%nat → (p' ≤ q)%nat) ∧ length out = n ∧
  ∀ i, (i < n * 64)%nat → bit_of out i = true ↔ valid_target code (g * 64 + i).
Proof.
  revert g p out p'. induction n as [|n IH]; intros g p out p' Hb Hg Hlen Hno H.
  { injection H as <- <-. rewrite Nat.add_0_r. split; [done|]. split; [done|]. split; [done|].
    split; [done|]. intros i Hi. lia. }
  rewrite walk_groups_cons in H.
  destruct (walk_group 64 code (g * 64) (g * 64 + 64) p 0) as [word p1] eqn:E1.
  destruct (walk_groups n code (S g) p1) as [out1 p2] eqn:E2. injection H as <- <-.
  destruct (group_exact code (g * 64) (g * 64 + 64) p word p1 Hb Hg ltac:(lia) ltac:(lia) Hno E1)
    as (Hb1 & Hp1 & Hno1 & Hw). clear E1.
  destruct (IH (S g) p1 out1 p2 Hb1 ltac:(lia) ltac:(lia)) as (Hb2 & Hp2 & Hno2 & Hl & Hbits).
  { intros q Hq Hle. apply Hno1; [done|lia]. }
  { exact E2. }
  replace (g + S n)%nat with (S g + n)%nat by lia.
  split; [exact Hb2|]. split; [exact Hp2|]. split; [exact Hno2|]. split; [by rewrite <- Hl|].
  intros i Hi. destruct (Nat.lt_ge_cases i 64) as [Hlt|Hge].
  - rewrite bit_of_head, Hw by exact Hlt. split; [by intros []|]. intros Hv. split; [lia|exact Hv].
  - replace i with (64 + (i - 64))%nat by lia. rewrite bit_of_tail, Hbits by lia.
    by replace (S g * 64 + (i - 64))%nat with (g * 64 + (64 + (i - 64)))%nat by lia.
Qed.

Lemma bitset_bits code i :
  (i < length code)%nat → bit_of (build_jumpdest_bitset code) i = true ↔ valid_target code i.
Proof.
  intros Hi. unfold build_jumpdest_bitset.
  pose proof (Nat.div_mod_eq (length code) 64) as D.
  pose proof (Nat.mod_upper_bound (length code) 64 ltac:(lia)) as M.
  set (n := (length code / 64)%nat) in *. set (rem := (length code mod 64)%nat) in *. clearbody n rem.
  destruct (walk_groups n code 0 0) as [out p] eqn:E.
  destruct (walk_groups_spec n code 0 0 out p (boundary_0 code) ltac:(lia) ltac:(lia) ltac:(lia) E)
    as (Hb & Hp & Hno & Hl & Hbits). cbn [Nat.mul Nat.add] in *.
  destruct (Nat.eqb_spec rem 0) as [->|Hr].
  { apply Hbits. lia. }
  destruct (walk_group 64 code (n * 64) (length code) p 0) as [word p'] eqn:E'. cbn [fst].
  destruct (group_exact code (n * 64) (length code) p word p' Hb Hp ltac:(lia) ltac:(lia) Hno E')
    as (_ & _ & _ & Hw).
  unfold bit_of. destruct (Nat.lt_ge_cases i (n * 64)) as [Hlt|Hge].
  - rewrite app_nth1; [by apply Hbits|]. rewrite Hl. apply Nat.Div0.div_lt_upper_bound. lia.
  - set (j := (i - n * 64)%nat). assert (Hj : (j < 64)%nat) by lia.
    assert (Ei : i = (n * 64 + j)%nat) by lia. rewrite Ei.
    rewrite Nat.div_add_l, (Nat.div_small j) by lia.
    rewrite (Nat.add_comm (n * 64) j) at 1. rewrite Nat.Div0.mod_add, Nat.mod_small by done.
    rewrite Nat.add_0_r, app_nth2, Hl, Nat.sub_diag by lia. cbn [nth]. rewrite Hw by done.
    split; [by intros []|]. intros. split; [lia|done].
Qed.

(** The bitset has a word for every 64 bytes of code, the last ones rounded up. *)
Lemma bitset_length code : (length code ≤ 64 * length (build_jumpdest_bitset code))%nat.
Proof.
  unfold build_jumpdest_bitset. pose proof (Nat.div_mod_eq (length code) 64) as D.
  pose proof (Nat.mod_upper_bound (length code) 64 ltac:(lia)) as M.
  set (n := (length code / 64)%nat) in *. set (rem := (length code mod 64)%nat) in *. clearbody n rem.
  destruct (walk_groups n code 0 0) as [out p] eqn:E.
  destruct (walk_groups_spec n code 0 0 out p (boundary_0 code) ltac:(lia) ltac:(lia) ltac:(lia) E)
    as (_ & _ & _ & Hl & _).
  destruct (Nat.eqb_spec rem 0); [|rewrite length_app; cbn [length]]; lia.
Qed.

(** A probe whose bitset covers the code reads a word of it. *)
Lemma is_jumpdest_run code bits pos :
  0 ≤ pos → Z.of_nat (length code) ≤ 64 * Z.of_nat (length bits) →
  is_jumpdest code bits pos = Ok ((pos <? Z.of_nat (length code)) && bit_of bits (Z.to_nat pos)).
Proof.
  intros Hpos Hl. unfold is_jumpdest. destruct (Z.ltb_spec pos (Z.of_nat (length code))) as [Hlt|]; [|done].
  assert (E1 : Z.to_nat (Z.shiftr pos 6) = (Z.to_nat pos / 64)%nat).
  { rewrite Z.shiftr_div_pow2, Z2Nat.inj_div by lia. done. }
  assert (E2 : Z.land pos 63 = Z.of_nat (Z.to_nat pos mod 64)).
  { change 63 with (Z.ones 6). rewrite Z.land_ones, Nat2Z.inj_mod, Z2Nat.id by lia. done. }
  assert (Hi : (Z.to_nat pos / 64 < length bits)%nat) by (apply Nat.Div0.div_lt_upper_bound; lia).
  destruct (lookup_lt_is_Some_2 _ _ Hi) as [w Hw]. unfold vec_get, bit_of.
  rewrite E1, E2, Hw, (nth_lookup_Some _ _ _ _ Hw). cbn [andb mbind res_bind]. f_equal. set (k := Z.of_nat _).
  change 1 with (Z.ones 1). rewrite Z.land_ones by lia. change (2 ^ 1) with 2.
  rewrite <- Z.bit0_mod, Z.shiftr_spec, Z.add_0_l by lia. by destruct (Z.testbit w k).
Qed.

(** C34. A position is accepted as a jump target exactly when it holds a JUMPDEST
    opcode at an instruction boundary, for any code and any position: the grouped
    walk agrees with stepping instruction by instruction from the start, where
    PUSH1 to PUSH32 carry 1 to 32 bytes of data and no other opcode carries any.
    The probe never reads outside the bitset. *)
Theorem jumpdest_exact code pos :
  0 ≤ pos →
  ∃ b, is_jumpdest code (build_jumpdest_bitset code) pos = Ok b ∧
    (b = true ↔ valid_target code (Z.to_nat pos)).
Proof.
  intros Hpos. eexists. split; [apply is_jumpdest_run; [done|]; pose proof (bitset_length code); lia|].
  destruct (Z.ltb_spec pos (Z.of_nat (length code))) as [Hlt|Hge]; cbn [andb].
  - apply bitset_bits. lia.
  - split; [done|]. intros [_ H%lookup_lt_Some]. lia.
Qed.

(** In PUSH1 0x5b JUMPDEST the data byte is no target; after PUSH32 and its 32 bytes
    of 0x5b the next byte is. *)
Lemma jumpdest_exact_witness :
  valid_target [Byte.x60; Byte.x5b; Byte.x5b] 2 ∧ ¬ valid_target [Byte.x60; Byte.x5b; Byte.x5b] 1 ∧
  valid_target (Byte.x7f :: replicate 33 Byte.x5b) 33 ∧ ¬ valid_target (Byte.x7f :: replicate 33 Byte.x5b) 32.
Proof.
  split; [|split; [|split]].
  - destruct (jumpdest_exact [Byte.x60; Byte.x5b; Byte.x5b] 2) as (b & [= <-] & H); [lia|by apply H].
  - destruct (jumpdest_exact [Byte.x60; Byte.x5b; Byte.x5b] 1) as (b & [= <-] & H); [lia|by intros ?%H].
  - destruct (jumpdest_exact (Byte.x7f :: replicate 33 Byte.x5b) 33) as (b & [= <-] & H); [lia|by apply H].
  - destruct (jumpdest_exact (Byte.x7f :: replicate 33 Byte.x5b) 32) as (b & [= <-] & H); [lia|by intros ?%H].
Defined.

End Jumpdest.
