(* ===== verification/AnalysisCache.v ===== *)
(** The cache of code analyses ([include/zeg/analysis_cache.hpp]) with the analysis of the
    interpreter ([w_prepare] of src/zevm/zevm.cpp): slots of one arena, handed out from a
    free list and then by evicting the least recently used slot that no frame has pinned.

    The arena is a list of 64-bit words, a handle an offset in it in bytes, or a block of
    the heap; [fields] holds the [analysis] field of each contract, the cell an [owner]
    pointer names.  A frame that runs is proved to see the analysis of its own code. *)

From stdpp Require Import base numbers list strings gmap.
From S2P Require Import Prelude Jumpdest.

Module AnalysisCache.

Record Slot := mkSlot {
  owner : option Z;
  pin : Z;
  in_lru : bool;
  lru_prev : Z;
  lru_next : Z;
  next_free : Z;
}.
Definition fresh_slot : Slot := mkSlot None 0 false (-1) (-1) (-1).

Definition with_owner (o : option Z) (s : Slot) : Slot :=
  mkSlot o (pin s) (in_lru s) (lru_prev s) (lru_next s) (next_free s).
Definition with_pin (n : Z) (s : Slot) : Slot :=
  mkSlot (owner s) n (in_lru s) (lru_prev s) (lru_next s) (next_free s).
Definition with_in_lru (b : bool) (s : Slot) : Slot :=
  mkSlot (owner s) (pin s) b (lru_prev s) (lru_next s) (next_free s).
Definition with_prev (i : Z) (s : Slot) : Slot :=
  mkSlot (owner s) (pin s) (in_lru s) i (lru_next s) (next_free s).
Definition with_next (i : Z) (s : Slot) : Slot :=
  mkSlot (owner s) (pin s) (in_lru s) (lru_prev s) i (next_free s).
Definition with_free (i : Z) (s : Slot) : Slot :=
  mkSlot (owner s) (pin s) (in_lru s) (lru_prev s) (lru_next s) i.

Inductive handle :=
| InArena (off : Z)
| OnHeap (block : nat).

Record Cache := mkCache {
  slot_bytes_ : Z;
  num_slots_ : Z;
  max_code_ : Z;
  oversize_ : list Z;
  arena_ : list Z;
  meta_ : list Slot;
  free_head_ : Z;
  lru_head_ : Z;
  lru_tail_ : Z;
  fields : gmap Z handle;
  heap : list (option (list Z));
}.

Definition with_oversize (l : list Z) (c : Cache) : Cache :=
  mkCache (slot_bytes_ c) (num_slots_ c) (max_code_ c) l (arena_ c) (meta_ c) (free_head_ c) (lru_head_ c)
    (lru_tail_ c) (fields c) (heap c).
Definition with_arena (l : list Z) (c : Cache) : Cache :=
  mkCache (slot_bytes_ c) (num_slots_ c) (max_code_ c) (oversize_ c) l (meta_ c) (free_head_ c) (lru_head_ c)
    (lru_tail_ c) (fields c) (heap c).
Definition with_meta (l : list Slot) (c : Cache) : Cache :=
  mkCache (slot_bytes_ c) (num_slots_ c) (max_code_ c) (oversize_ c) (arena_ c) l (free_head_ c) (lru_head_ c)
    (lru_tail_ c) (fields c) (heap c).
Definition with_free_head (i : Z) (c : Cache) : Cache :=
  mkCache (slot_bytes_ c) (num_slots_ c) (max_code_ c) (oversize_ c) (arena_ c) (meta_ c) i (lru_head_ c)
    (lru_tail_ c) (fields c) (heap c).
Definition with_head (i : Z) (c : Cache) : Cache :=
  mkCache (slot_bytes_ c) (num_slots_ c) (max_code_ c) (oversize_ c) (arena_ c) (meta_ c) (free_head_ c) i
    (lru_tail_ c) (fields c) (heap c).
Definition with_tail (i : Z) (c : Cache) : Cache :=
  mkCache (slot_bytes_ c) (num_slots_ c) (max_code_ c) (oversize_ c) (arena_ c) (meta_ c) (free_head_ c)
    (lru_head_ c) i (fields c) (heap c).
Definition with_fields (f : gmap Z handle) (c : Cache) : Cache :=
  mkCache (slot_bytes_ c) (num_slots_ c) (max_code_ c) (oversize_ c) (arena_ c) (meta_ c) (free_head_ c)
    (lru_head_ c) (lru_tail_ c) f (heap c).
Definition with_heap (h : list (option (list Z))) (c : Cache) : Cache :=
  mkCache (slot_bytes_ c) (num_slots_ c) (max_code_ c) (oversize_ c) (arena_ c) (meta_ c) (free_head_ c)
    (lru_head_ c) (lru_tail_ c) (fields c) h.

(** ** The state monad *)

Definition C (A : Type) : Type := Cache → res (A * Cache).
#[export] Instance C_ret : MRet C := λ A a c, Ok (a, c).
#[export] Instance C_bind : MBind C := λ A B f k c,
  match k c with
  | Ok (a, c) => f a c
  | Fatal e => Fatal e
  end.
Definition gets {A} (f : Cache → A) : C A := λ c, Ok (f c, c).
Definition modify (f : Cache → Cache) : C unit := λ c, Ok (tt, f c).
Definition fatal {A} (msg : string) : C A := λ _, Fatal msg.
Definition skip : C unit := mret tt.

(** [meta_[i]]: inside the array or an error. *)
Definition slot_at (c : Cache) (i : Z) : option Slot :=
  if 0 <=? i then meta_ c !! Z.to_nat i else None.
Definition meta (i : Z) : C Slot := λ c,
  match slot_at c i with Some s => Ok (s, c) | None => Fatal "meta_: out of range" end.
Definition meta_set (i : Z) (f : Slot → Slot) : C unit := λ c,
  match slot_at c i with
  | Some s => Ok (tt, with_meta (<[Z.to_nat i := f s]> (meta_ c)) c)
  | None => Fatal "meta_: out of range"
  end.

(** [*owner] *)
Definition field (o : Z) : C (option handle) := gets (λ c, fields c !! o).
Definition set_field (o : Z) (h : option handle) : C unit :=
  modify (λ c, with_fields (partial_alter (λ _, h) o (fields c)) c).

(** ** The interpreter's analysis *)

(** [w_prepare]: the bitset is written into the buffer, or into a new block. *)
Definition w_prepare (code : bytes) (out_buf : option Z) : C (option handle) :=
  if (length code =? 0)%nat then mret None
  else
    let bitset := Jumpdest.build_jumpdest_bitset code in
    match out_buf with
    | Some off => λ c,
        let w := Z.to_nat (off / 8) in
        if (w + length bitset <=? length (arena_ c))%nat then
          Ok (Some (InArena off),
              with_arena (take w (arena_ c) ++ bitset ++ drop (w + length bitset) (arena_ c)) c)
        else Fatal "write past the arena"
    | None => λ c, Ok (Some (OnHeap (length (heap c))), with_heap (heap c ++ [Some bitset]) c)
    end.

(** [w_release]: the block is freed. *)
Definition w_release (h : option handle) : C unit :=
  match h with
  | Some (OnHeap b) => modify (λ c, with_heap (<[b := None]> (heap c)) c)
  | Some (InArena _) => fatal "free of a slot"
  | None => skip
  end.

(** What a frame with [n] words of bitset reads through its handle. *)
Definition analysis_at (c : Cache) (h : handle) (n : nat) : option (list Z) :=
  match h with
  | InArena off =>
      let w := Z.to_nat (off / 8) in
      if (w + n <=? length (arena_ c))%nat then Some (take n (drop w (arena_ c))) else None
  | OnHeap b => mjoin (heap c !! b)
  end.

(** ** The LRU list *)

Definition lru_push_front (i : Z) : C unit :=
  head ← gets lru_head_;
  meta_set i (with_prev (-1));;
  meta_set i (with_next head);;
  (if 0 <=? head then meta_set head (with_prev i) else modify (with_tail i));;
  modify (with_head i);;
  meta_set i (with_in_lru true).

Definition lru_remove (i : Z) : C unit :=
  s ← meta i;
  if negb (in_lru s) then skip
  else
    (if 0 <=? lru_prev s then meta_set (lru_prev s) (with_next (lru_next s))
     else modify (with_head (lru_next s)));;
    (if 0 <=? lru_next s then meta_set (lru_next s) (with_prev (lru_prev s))
     else modify (with_tail (lru_prev s)));;
    meta_set i (with_in_lru false);;
    meta_set i (with_next (-1));;
    meta_set i (with_prev (-1)).

Definition lru_touch (i : Z) : C unit := lru_remove i;; lru_push_front i.

(** ** Slots *)

(** [for (i = lru_tail_; i >= 0; i = meta_[i].lru_prev)]: evict the first unpinned. *)
Fixpoint evict (fuel : nat) (i : Z) : C Z :=
  if i <? 0 then fatal "analysis cache: all slots pinned (arena too small for depth)"
  else
    match fuel with
    | O => fatal "fuel"
    | S fuel =>
        s ← meta i;
        if pin s =? 0 then
          lru_remove i;;
          match owner s with
          | Some o => set_field o None;; meta_set i (with_owner None)
          | None => skip
          end;;
          mret i
        else evict fuel (lru_prev s)
    end.

Definition alloc_slot : C Z :=
  i ← gets free_head_;
  if 0 <=? i then
    s ← meta i;
    modify (with_free_head (next_free s));;
    meta_set i (with_free (-1));;
    mret i
  else
    n ← gets num_slots_;
    t ← gets lru_tail_;
    evict (Z.to_nat n) t.

(** A block of the heap lies outside the arena, so its quotient is no slot. *)
Definition slot_of (c : Cache) (h : handle) : Z :=
  match h with
  | InArena off => off / slot_bytes_ c
  | OnHeap _ => num_slots_ c
  end.
Definition in_arena (c : Cache) (h : handle) : bool :=
  match h with
  | InArena off => (0 <=? off) && (off <? num_slots_ c * slot_bytes_ c)
  | OnHeap _ => false
  end.

(** ** The operations *)

Definition init_meta (n : nat) : list Slot :=
  (λ i : nat, with_free (if (S i <? n)%nat then Z.of_nat (S i) else -1) fresh_slot) <$> seq 0 n.

(** The constructor; the contracts' fields are null before. *)
Definition analysis_cache (arena_bytes slot_bytes max_code_size : Z) : res Cache :=
  let n := arena_bytes / slot_bytes in
  if n =? 0 then Fatal "analysis cache: arena smaller than one slot"
  else
    Ok (mkCache slot_bytes n max_code_size [] (replicate (Z.to_nat (n * slot_bytes / 8)) 0)
          (init_meta (Z.to_nat n)) 0 (-1) (-1) ∅ []).

Definition acquire_oversize (o : Z) (code : bytes) : C (option handle) :=
  h ← field o;
  match h with
  | None =>
      h ← w_prepare code None;
      set_field o h;;
      modify (λ c, with_oversize (oversize_ c ++ [o]) c);;
      field o
  | Some _ => mret h
  end.

(** The resident analysis of [o], pinned once more; a handle that is not the owner's is
    dropped. *)
Definition acquire_hit (o : Z) : C (option handle) :=
  h ← field o;
  match h with
  | None => mret None
  | Some h' =>
      i ← gets (λ c, slot_of c h');
      n ← gets num_slots_;
      mine ← (if (0 <=? i) && (i <? n) then s ← meta i; mret (bool_decide (owner s = Some o)) else mret false);
      if (mine : bool) then
        meta_set i (λ s, with_pin (u32 (pin s + 1)) s);;
        lru_touch i;;
        field o
      else set_field o None;; mret None
  end.

Definition acquire (o : Z) (code : bytes) : C (option handle) :=
  max ← gets max_code_;
  if max <? Z.of_nat (length code) then acquire_oversize o code
  else
    hit ← acquire_hit o;
    match hit with
    | Some h => mret (Some h)
    | None =>
        i ← alloc_slot;
        b ← gets slot_bytes_;
        h ← w_prepare code (Some (i * b));
        meta_set i (with_owner (Some o));;
        meta_set i (with_pin 1);;
        set_field o h;;
        lru_push_front i;;
        mret h
    end.

Definition release (h : option handle) : C unit :=
  match h with
  | None => skip
  | Some h =>
      inside ← gets (λ c, in_arena c h);
      if negb inside then skip
      else
        i ← gets (λ c, slot_of c h);
        s ← meta i;
        if 0 <? pin s then meta_set i (with_pin (pin s - 1)) else skip
  end.

Fixpoint release_all (owners : list Z) : C unit :=
  match owners with
  | [] => skip
  | o :: owners => h ← field o; w_release h;; set_field o None;; release_all owners
  end.
Definition release_oversize : C unit :=
  l ← gets oversize_; release_all l;; modify (with_oversize []).

(** [for (i = 0; i < num_slots_; ++i)] of [reset]. *)
Fixpoint reset_slots (n : nat) (i : Z) : C unit :=
  match n with
  | O => skip
  | S n =>
      s ← meta i;
      match owner s with
      | Some o => set_field o None;; meta_set i (with_owner None)
      | None => skip
      end;;
      meta_set i (with_pin 0);;
      meta_set i (with_in_lru false);;
      meta_set i (with_next (-1));;
      meta_set i (with_prev (-1));;
      total ← gets num_slots_;
      meta_set i (with_free (if i + 1 <? total then i + 1 else -1));;
      reset_slots n (i + 1)
  end.
Definition reset : C unit :=
  release_oversize;;
  n ← gets num_slots_;
  reset_slots (Z.to_nat n) 0;;
  modify (with_free_head 0);;
  modify (with_tail (-1));;
  modify (with_head (-1)).

(** ** Slots of the table *)

Definition slot_in (m : list Slot) (i : Z) : option Slot := if 0 <=? i then m !! Z.to_nat i else None.

Lemma slot_in_range m i : 0 ≤ i < Z.of_nat (length m) ↔ is_Some (slot_in m i).
Proof.
  unfold slot_in. destruct (Z.leb_spec 0 i); [rewrite lookup_lt_is_Some; lia|].
  split; [lia|by intros [? ?]].
Qed.

Lemma slot_in_alter m f i j :
  0 ≤ i → slot_in (alter f (Z.to_nat i) m) j = if decide (j = i) then f <$> slot_in m j else slot_in m j.
Proof.
  intros Hi. unfold slot_in. destruct (decide (j = i)) as [->|Hne].
  - rewrite (proj2 (Z.leb_le 0 i) Hi). apply list_lookup_alter_eq.
  - destruct (Z.leb_spec 0 j); [|done]. apply list_lookup_alter_ne. lia.
Qed.

Lemma meta_run c i s : slot_at c i = Some s → meta i c = Ok (s, c).
Proof. unfold meta. by intros ->. Qed.

Lemma meta_set_run c i f s :
  slot_at c i = Some s → meta_set i f c = Ok (tt, with_meta (alter f (Z.to_nat i) (meta_ c)) c).
Proof.
  intros H. unfold meta_set. rewrite H. do 3 f_equal. unfold slot_at in H.
  destruct (0 <=? i); [|done]. apply list_eq. intros j. destruct (decide (j = Z.to_nat i)) as [->|].
  - rewrite list_lookup_insert_eq, list_lookup_alter_eq, H by (by eapply lookup_lt_Some). done.
  - by rewrite list_lookup_insert_ne, list_lookup_alter_ne.
Qed.

(** ** The list threaded through the slots *)

(** What the list uses of a slot, and the rest. *)
Definition links (s : Slot) : bool * Z * Z := (in_lru s, lru_prev s, lru_next s).
Definition core (s : Slot) : option Z * Z * Z := (owner s, pin s, next_free s).

(** The slots [L] are chained: [p] before them and [q] after. *)
Fixpoint lseg (m : list Slot) (p : Z) (L : list Z) (q : Z) : Prop :=
  match L with
  | [] => True
  | i :: L' => links <$> slot_in m i = Some (true, p, hd q L') ∧ lseg m i L' q
  end.

Lemma lseg_app m p L1 L2 q : lseg m p (L1 ++ L2) q ↔ lseg m p L1 (hd q L2) ∧ lseg m (List.last L1 p) L2 q.
Proof.
  revert p. induction L1 as [|i L1 IH]; intros p; [cbn; tauto|]. cbn [lseg app].
  rewrite IH. replace (hd q (L1 ++ L2)) with (hd (hd q L2) L1) by (by destruct L1).
  replace (List.last (i :: L1) p) with (List.last L1 i); [tauto|].
  destruct L1 as [|j L1]; [done|]. cbn [List.last].
  clear. revert j. induction L1 as [|k L1 IH]; intros j; [done|]. cbn in *. apply IH.
Qed.

Lemma lseg_frame m m' p L q :
  (∀ j, j ∈ L → links <$> slot_in m' j = links <$> slot_in m j) → lseg m p L q → lseg m' p L q.
Proof.
  revert p. induction L as [|i L IH]; intros p Hf Hs; [done|]. destruct Hs as [Hi Hs]. split.
  - rewrite Hf; [done|left].
  - apply IH; [|done]. intros j Hj. apply Hf. by right.
Qed.

Lemma lseg_slot m p L q i : lseg m p L q → i ∈ L → ∃ s, slot_in m i = Some s ∧ in_lru s = true.
Proof.
  revert p. induction L as [|j L IH]; intros p Hs Hi; [by apply elem_of_nil in Hi|].
  destruct Hs as [Hj Hs]. apply elem_of_cons in Hi as [->|Hi]; [|by apply (IH j)].
  destruct (slot_in m j) as [s|]; [|done]. exists s. split; [done|]. cbn in Hj. by injection Hj.
Qed.

(** The last slot gets another successor, the first another predecessor. *)
Lemma lseg_set_next m p L j q q' :
  NoDup (L ++ [j]) → lseg m p (L ++ [j]) q → lseg (alter (with_next q') (Z.to_nat j) m) p (L ++ [j]) q'.
Proof.
  intros Hn Hs. destruct (lseg_slot m p _ q j Hs) as (s & Hj & _); [set_solver|].
  assert (0 ≤ j) by (apply (slot_in_range m); eauto).
  rewrite lseg_app in *. destruct Hs as [H1 H2]. cbn in *. destruct H2 as [H2 _]. split.
  - apply (lseg_frame m); [|done]. intros i Hi. rewrite slot_in_alter by done.
    rewrite decide_False; [done|]. intros ->. apply NoDup_app in Hn as (_ & Hn & _). apply (Hn j Hi). left.
  - rewrite slot_in_alter, decide_True by done. rewrite Hj in *. cbn in *. split; [|done].
    injection H2 as Hb Hp _. unfold links. cbn. by rewrite Hb, Hp.
Qed.

Lemma lseg_set_prev m p p' j L q :
  NoDup (j :: L) → lseg m p (j :: L) q → lseg (alter (with_prev p') (Z.to_nat j) m) p' (j :: L) q.
Proof.
  intros Hn Hs. destruct (lseg_slot m p _ q j Hs) as (s & Hj & _); [left|].
  assert (0 ≤ j) by (apply (slot_in_range m); eauto). destruct Hs as [H1 H2]. apply NoDup_cons in Hn as [Hn _]. split.
  - rewrite slot_in_alter, decide_True by done. rewrite Hj in *. cbn in *.
    injection H1 as Hb _ Hq. unfold links. cbn. by rewrite Hb, Hq.
  - apply (lseg_frame m); [|done]. intros i Hi. rewrite slot_in_alter by done. rewrite decide_False; [done|]. by intros ->.
Qed.

(** The table [m] with its two ends is the list [L]. *)
Definition lru (m : list Slot) (head tail : Z) (L : list Z) : Prop :=
  NoDup L ∧ lseg m (-1) L (-1) ∧ head = hd (-1) L ∧ tail = List.last L (-1) ∧
  ∀ i s, slot_in m i = Some s → in_lru s = bool_decide (i ∈ L).

(** Only links and ends differ. *)
Definition relinked (c c' : Cache) : Prop :=
  c' = with_tail (lru_tail_ c') (with_head (lru_head_ c') (with_meta (meta_ c') c)) ∧
  ∀ j, core <$> slot_at c' j = core <$> slot_at c j.

Lemma relinked_trans c1 c2 c3 : relinked c1 c2 → relinked c2 c3 → relinked c1 c3.
Proof.
  intros [H1 K1] [H2 K2]. split; [|intros j; by rewrite K2].
  rewrite H2, H1. reflexivity.
Qed.

(** Steps of the monad with a known result. *)
Lemma c_bind_run {A B} (k : C A) (g : A → C B) c a c' : k c = Ok (a, c') → (k ≫= g) c = g a c'.
Proof. intros H. unfold mbind, C_bind. by rewrite H. Qed.

Lemma slot_at_in c i : slot_at c i = slot_in (meta_ c) i.
Proof. done. Qed.

Lemma set_step {B} (k : C B) c i f s :
  slot_in (meta_ c) i = Some s →
  (meta_set i f;; k) c = k (with_meta (alter f (Z.to_nat i) (meta_ c)) c).
Proof. intros H. exact (c_bind_run _ (λ _, k) c tt _ (meta_set_run c i f s H)). Qed.

Lemma slot_in_nonneg m i s : slot_in m i = Some s → 0 ≤ i.
Proof. intros H. apply (slot_in_range m). eauto. Qed.

Definition linked_front (m : list Slot) (i head : Z) : list Slot :=
  alter (with_in_lru true) (Z.to_nat i)
    ((if 0 <=? head then alter (with_prev i) (Z.to_nat head) else id)
       (alter (with_next head) (Z.to_nat i) (alter (with_prev (-1)) (Z.to_nat i) m))).

Lemma push_front_run c i s :
  slot_in (meta_ c) i = Some s → (lru_head_ c < 0 ∨ is_Some (slot_in (meta_ c) (lru_head_ c))) →
  lru_push_front i c =
    Ok (tt, with_tail (if 0 <=? lru_head_ c then lru_tail_ c else i)
              (with_head i (with_meta (linked_front (meta_ c) i (lru_head_ c)) c))).
Proof.
  intros Hs Hh. pose proof (slot_in_nonneg _ _ _ Hs) as Hi. unfold lru_push_front, linked_front.
  rewrite (c_bind_run _ _ c (lru_head_ c) c) by done.
  rewrite (set_step _ _ _ _ s) by done.
  rewrite (set_step _ _ _ _ (with_prev (-1) s)) by (cbn; by rewrite slot_in_alter, decide_True, Hs by done).
  cbn [meta_ with_meta].
  set (m2 := alter (with_next _) _ _). set (c2 := with_meta m2 _).
  assert (Hi2 : is_Some (slot_in m2 i)).
  { unfold m2. rewrite !slot_in_alter, !decide_True, Hs by done. eauto. }
  destruct (Z.leb_spec 0 (lru_head_ c)) as [Hge|Hlt].
  - destruct Hh as [?|[t Ht]]; [lia|].
    assert (Hh2 : is_Some (slot_in m2 (lru_head_ c))).
    { unfold m2. rewrite !slot_in_alter by done. destruct (decide _); rewrite Ht; cbn; eauto. }
    destruct Hh2 as [t2 Ht2]. rewrite (set_step _ c2 _ _ t2) by exact Ht2. cbn [meta_ with_meta c2].
    rewrite (c_bind_run _ _ _ tt _ eq_refl).
    assert (Hi3 : is_Some (slot_in (alter (with_prev i) (Z.to_nat (lru_head_ c)) m2) i)).
    { rewrite slot_in_alter by done. destruct Hi2 as [? ->]. destruct (decide _); cbn; eauto. }
    destruct Hi3 as [s3 Hs3]. rewrite (meta_set_run _ _ _ s3) by exact Hs3. done.
  - rewrite (c_bind_run _ _ _ tt _ eq_refl). rewrite (c_bind_run _ _ _ tt _ eq_refl).
    destruct Hi2 as [s2 Hs2]. rewrite (meta_set_run _ _ _ s2) by exact Hs2. done.
Qed.

Lemma links_front m i head s j :
  slot_in m i = Some s → head ≠ i →
  links <$> slot_in (linked_front m i head) j =
    if decide (j = i) then Some (true, -1, head)
    else if decide (j = head) then links <$> (with_prev i <$> slot_in m j) else links <$> slot_in m j.
Proof.
  intros Hs Hne. pose proof (slot_in_nonneg _ _ _ Hs) as Hi. unfold linked_front.
  rewrite slot_in_alter by done. destruct (Z.leb_spec 0 head) as [Hge|Hlt]; cbn [id].
  - rewrite !slot_in_alter by done. destruct (decide (j = i)) as [->|].
    + rewrite decide_False by done. by rewrite Hs.
    + by destruct (decide (j = head)).
  - rewrite !slot_in_alter by done. destruct (decide (j = i)) as [->|]; [by rewrite Hs|].
    destruct (decide (j = head)) as [->|]; [|done]. unfold slot_in. by rewrite (proj2 (Z.leb_gt 0 head)).
Qed.

Lemma core_front m i head s j :
  slot_in m i = Some s → core <$> slot_in (linked_front m i head) j = core <$> slot_in m j.
Proof.
  intros Hs. pose proof (slot_in_nonneg _ _ _ Hs) as Hi. unfold linked_front.
  rewrite slot_in_alter by done. destruct (Z.leb_spec 0 head); cbn [id]; rewrite !slot_in_alter by done;
    repeat destruct (decide _); destruct (slot_in m j); done.
Qed.

Lemma in_lru_links m m' i s s' :
  slot_in m i = Some s → slot_in m' i = Some s' → links <$> slot_in m' i = links <$> slot_in m i → in_lru s' = in_lru s.
Proof. intros H1 H2. rewrite H1, H2. cbn. by intros [= ->]. Qed.

Lemma push_front_spec c i L :
  lru (meta_ c) (lru_head_ c) (lru_tail_ c) L → is_Some (slot_in (meta_ c) i) → i ∉ L →
  ∃ c', lru_push_front i c = Ok (tt, c') ∧ relinked c c' ∧
    lru (meta_ c') (lru_head_ c') (lru_tail_ c') (i :: L).
Proof.
  intros (Hn & Hs & Hh & Ht & Hin) [s Hi] Hni. pose proof (slot_in_nonneg _ _ _ Hi) as Hpos.
  eexists. split; [apply (push_front_run c i s Hi)|].
  { rewrite Hh. destruct L as [|x L]; [left; done|]. right. cbn.
    destruct (lseg_slot _ _ _ _ x Hs) as (? & -> & _); [left|eauto]. }
  assert (Hne : lru_head_ c ≠ i).
  { rewrite Hh. destruct L; cbn; [lia|]. intros ->. apply Hni. left. }
  assert (Hl : ∀ j, j ≠ i → j ≠ lru_head_ c →
    links <$> slot_in (linked_front (meta_ c) i (lru_head_ c)) j = links <$> slot_in (meta_ c) j).
  { intros j H1 H2. by rewrite (links_front _ _ _ s), !decide_False. }
  split; [split; [done|]; intros j; apply (core_front _ _ _ s _ Hi)|]. split_and!; cbn.
  - by constructor.
  - split; [by rewrite (links_front _ _ _ s), decide_True, Hh by done|].
    destruct L as [|x L]; [done|]. apply (lseg_set_prev _ _ i) in Hs; [|done].
    apply (lseg_frame (alter (with_prev i) (Z.to_nat x) (meta_ c))); [|done]. cbn in Hh.
    assert (0 ≤ x) by (destruct (lseg_slot _ _ _ _ x Hs) as (? & Hx & _); [left|by apply slot_in_nonneg in Hx]).
    intros j Hj. rewrite (links_front _ _ _ s), (decide_False (P := j = i)) by (done || (intros ->; done)).
    rewrite Hh, slot_in_alter by done. by destruct (decide (j = x)).
  - done.
  - rewrite Hh, Ht. destruct L as [|x L]; [done|]. cbn [hd].
    destruct (lseg_slot _ _ _ _ x Hs) as (? & Hx & _); [left|]. apply slot_in_nonneg in Hx.
    by rewrite (proj2 (Z.leb_le 0 x)).
  - intros j s' Hj. pose proof (links_front (meta_ c) i (lru_head_ c) s j Hi Hne) as Hlj. rewrite Hj in Hlj.
    destruct (decide (j = i)) as [->|Hji].
    + rewrite bool_decide_eq_true_2 by left. cbn in Hlj. by injection Hlj.
    + rewrite (bool_decide_ext (j ∈ i :: L) (j ∈ L)) by set_solver.
      destruct (decide (j = lru_head_ c)); destruct (slot_in (meta_ c) j) as [s0|] eqn:H0;
        cbn in Hlj; try done; injection Hlj as Hb _ _; rewrite Hb; by apply Hin.
Qed.

(** The neighbours' links bridged over a slot. *)
Definition bridge_prev (m : list Slot) (p q : Z) : list Slot :=
  if 0 <=? p then alter (with_next q) (Z.to_nat p) m else m.
Definition bridge_next (m : list Slot) (p q : Z) : list Slot :=
  if 0 <=? q then alter (with_prev p) (Z.to_nat q) m else m.
Definition unlinked (m : list Slot) (i p q : Z) : list Slot :=
  alter (with_prev (-1)) (Z.to_nat i) (alter (with_next (-1)) (Z.to_nat i)
    (alter (with_in_lru false) (Z.to_nat i) (bridge_next (bridge_prev m p q) p q))).

Lemma slot_bridge_prev m p q j :
  slot_in (bridge_prev m p q) j = if decide (j = p) then with_next q <$> slot_in m j else slot_in m j.
Proof.
  unfold bridge_prev. destruct (Z.leb_spec 0 p); [by apply slot_in_alter|].
  destruct (decide (j = p)) as [->|]; [|done]. unfold slot_in. by rewrite (proj2 (Z.leb_gt 0 p)).
Qed.

Lemma slot_bridge_next m p q j :
  slot_in (bridge_next m p q) j = if decide (j = q) then with_prev p <$> slot_in m j else slot_in m j.
Proof.
  unfold bridge_next. destruct (Z.leb_spec 0 q); [by apply slot_in_alter|].
  destruct (decide (j = q)) as [->|]; [|done]. unfold slot_in. by rewrite (proj2 (Z.leb_gt 0 q)).
Qed.

Lemma remove_run c i s :
  slot_in (meta_ c) i = Some s → in_lru s = true →
  (lru_prev s < 0 ∨ is_Some (slot_in (meta_ c) (lru_prev s))) →
  (lru_next s < 0 ∨ is_Some (slot_in (meta_ c) (lru_next s))) →
  lru_remove i c =
    Ok (tt, with_tail (if 0 <=? lru_next s then lru_tail_ c else lru_prev s)
      (with_head (if 0 <=? lru_prev s then lru_head_ c else lru_next s)
        (with_meta (unlinked (meta_ c) i (lru_prev s) (lru_next s)) c))).
Proof.
  intros Hi Hl Hp Hq. pose proof (slot_in_nonneg _ _ _ Hi) as Hpos. unfold lru_remove, unlinked.
  rewrite (c_bind_run _ _ c s c) by (by apply meta_run). rewrite Hl. cbn [negb].
  set (p := lru_prev s) in *. set (q := lru_next s) in *.
  assert (H1 : (if 0 <=? p then meta_set p (with_next q) else modify (with_head q)) c =
    Ok (tt, with_head (if 0 <=? p then lru_head_ c else q) (with_meta (bridge_prev (meta_ c) p q) c))).
  { unfold bridge_prev. destruct (Z.leb_spec 0 p); [|done]. destruct Hp as [?|[t Ht]]; [lia|].
    by rewrite (meta_set_run _ _ _ t). }
  rewrite (c_bind_run _ _ _ _ _ H1). set (c1 := with_head _ _).
  assert (H2 : (if 0 <=? q then meta_set q (with_prev p) else modify (with_tail p)) c1 =
    Ok (tt, with_tail (if 0 <=? q then lru_tail_ c else p) (with_meta (bridge_next (meta_ c1) p q) c1))).
  { unfold bridge_next. destruct (Z.leb_spec 0 q); [|done]. destruct Hq as [?|[t Ht]]; [lia|].
    assert (is_Some (slot_in (meta_ c1) q)) as [t1 Ht1].
    { cbn. rewrite slot_bridge_prev, Ht. destruct (decide _); cbn; eauto. }
    by rewrite (meta_set_run _ _ _ t1). }
  rewrite (c_bind_run _ _ _ _ _ H2). set (c2 := with_tail _ _). cbn [c1 meta_ with_head with_meta] in *.
  assert (is_Some (slot_in (meta_ c2) i)) as [t Ht].
  { cbn. rewrite slot_bridge_next, slot_bridge_prev, Hi. repeat destruct (decide _); cbn; eauto. }
  rewrite (set_step _ _ _ _ t) by done.
  rewrite (set_step _ _ _ _ (with_in_lru false t))
    by (cbn [meta_ with_meta]; by rewrite slot_in_alter, decide_True, Ht by done).
  rewrite (meta_set_run _ _ _ (with_next (-1) (with_in_lru false t))); [done|].
  cbn [meta_ with_meta]. rewrite slot_at_in. cbn [meta_ with_meta].
  by rewrite !slot_in_alter, !decide_True, Ht by done.
Qed.

Lemma core_unlinked m i p q j : 0 ≤ i → core <$> slot_in (unlinked m i p q) j = core <$> slot_in m j.
Proof.
  intros Hi. unfold unlinked. rewrite !slot_in_alter by done. rewrite slot_bridge_next, slot_bridge_prev.
  repeat destruct (decide _); destruct (slot_in m j); done.
Qed.

Lemma slot_unlinked m i p q j :
  0 ≤ i → slot_in (unlinked m i p q) j =
    if decide (j = i) then
      with_prev (-1) <$> (with_next (-1) <$> (with_in_lru false <$> slot_in (bridge_next (bridge_prev m p q) p q) j))
    else slot_in (bridge_next (bridge_prev m p q) p q) j.
Proof. intros Hi. unfold unlinked. rewrite !slot_in_alter by done. by destruct (decide (j = i)). Qed.

Lemma last_snoc_or (L : list Z) : L = [] ∨ ∃ L' x, L = L' ++ [x] ∧ List.last L (-1) = x.
Proof.
  destruct L as [|x L _] using rev_ind; [by left|]. right. exists L, x. split; [done|]. apply List.last_last.
Qed.

(** The first part of the list after the removal, and the second. *)
Lemma lseg_unlinked_front m i p q L1 :
  NoDup L1 → i ∉ L1 → q ∉ L1 → 0 ≤ i → p = List.last L1 (-1) → lseg m (-1) L1 i →
  lseg (unlinked m i p q) (-1) L1 q.
Proof.
  intros Hn Hi Hq Hpos -> Hs. destruct (last_snoc_or L1) as [->|(L & x & -> & Hx)]; [done|]. rewrite Hx.
  destruct (lseg_slot _ _ _ _ x Hs) as (t & Ht & _); [set_solver|]. apply slot_in_nonneg in Ht.
  apply (lseg_set_next _ _ _ _ _ q) in Hs; [|done]. apply (lseg_frame _ _ _ _ _) with (2 := Hs). intros j Hj.
  rewrite slot_unlinked by done. rewrite (decide_False (P := j = i)) by (intros ->; done).
  rewrite slot_bridge_next, decide_False by (intros ->; done).
  rewrite slot_bridge_prev, slot_in_alter by done. done.
Qed.

Lemma lseg_unlinked_back m i p q L2 :
  NoDup L2 → i ∉ L2 → p ∉ L2 → 0 ≤ i → q = hd (-1) L2 → lseg m i L2 (-1) →
  lseg (unlinked m i p q) p L2 (-1).
Proof.
  intros Hn Hi Hp Hpos -> Hs. destruct L2 as [|x L]; [done|]. cbn [hd].
  destruct (lseg_slot _ _ _ _ x Hs) as (t & Ht & _); [left|]. apply slot_in_nonneg in Ht.
  apply (lseg_set_prev _ _ p) in Hs; [|done]. apply (lseg_frame _ _ _ _ _) with (2 := Hs). intros j Hj.
  rewrite slot_unlinked by done. rewrite (decide_False (P := j = i)) by (intros ->; done).
  rewrite slot_bridge_next, slot_bridge_prev, slot_in_alter by done.
  rewrite (decide_False (P := j = p)) by (intros ->; done). done.
Qed.

Lemma lseg_nonneg m p L q i : lseg m p L q → i ∈ L → 0 ≤ i.
Proof. intros Hs Hi. destruct (lseg_slot _ _ _ _ i Hs Hi) as (s & Hi' & _). by apply slot_in_nonneg in Hi'. Qed.

Lemma last_in (L : list Z) : List.last L (-1) = -1 ∧ L = [] ∨ List.last L (-1) ∈ L.
Proof. destruct (last_snoc_or L) as [->|(L' & x & -> & ->)]; [by left|right; set_solver]. Qed.

Lemma hd_in (L : list Z) : hd (-1) L = -1 ∧ L = [] ∨ hd (-1) L ∈ L.
Proof. destruct L; [by left|right; left]. Qed.

Lemma last_app_hd (L1 L2 : list Z) d :
  List.last (L1 ++ L2) d = if decide (L2 = []) then List.last L1 d else List.last L2 d.
Proof.
  destruct L2 as [|x L2 _] using rev_ind; [by rewrite app_nil_r|].
  rewrite decide_False by (by destruct L2). by rewrite app_assoc, !List.last_last.
Qed.

Lemma in_lru_unlinked m i p q j s' :
  0 ≤ i → slot_in (unlinked m i p q) j = Some s' →
  if decide (j = i) then in_lru s' = false else ∃ s, slot_in m j = Some s ∧ in_lru s' = in_lru s.
Proof.
  intros Hi Hj. rewrite slot_unlinked, slot_bridge_next, slot_bridge_prev in Hj by done.
  destruct (slot_in m j) as [s|] eqn:Hs;
    destruct (decide (j = i)), (decide (j = q)), (decide (j = p)); cbn in Hj; try done;
    injection Hj as <-; try done; by exists s.
Qed.

Lemma remove_spec c i L1 L2 :
  lru (meta_ c) (lru_head_ c) (lru_tail_ c) (L1 ++ i :: L2) →
  ∃ c', lru_remove i c = Ok (tt, c') ∧ relinked c c' ∧
    lru (meta_ c') (lru_head_ c') (lru_tail_ c') (L1 ++ L2).
Proof.
  intros (Hn & Hs & Hh & Ht & Hin). pose proof Hs as Hs0. apply lseg_app in Hs as [Hs1 Hs2]. cbn in Hs1, Hs2.
  destruct Hs2 as [Hi Hs2]. destruct (slot_in (meta_ c) i) as [s|] eqn:Hsi; [|done].
  cbn in Hi. injection Hi as Hl Hp Hq. pose proof (slot_in_nonneg _ _ _ Hsi) as Hpos.
  apply NoDup_app in Hn as (Hn1 & Hd & Hn2). apply NoDup_cons in Hn2 as [Hi2 Hn2].
  assert (Hi1 : i ∉ L1) by (intros H; apply (Hd i H); left).
  set (p := List.last L1 (-1)) in *. set (q := hd (-1) L2) in *.
  assert (Hq1 : q ∉ L1).
  { destruct (hd_in L2) as [[H _]|H]; fold q in H.
    - rewrite H. intros Hm. apply (lseg_nonneg _ _ _ _ _ Hs1) in Hm. lia.
    - intros Hm. apply (Hd q Hm). by right. }
  assert (Hp2 : p ∉ L2).
  { destruct (last_in L1) as [[H _]|H]; fold p in H.
    - rewrite H. intros Hm. apply (lseg_nonneg _ _ _ _ _ Hs2) in Hm. lia.
    - intros Hm. apply (Hd p H). by right. }
  assert (Hex : ∀ j, j = -1 ∨ j ∈ L1 ++ i :: L2 → j < 0 ∨ is_Some (slot_in (meta_ c) j)).
  { intros j [->|Hj]; [by left|right]. destruct (lseg_slot _ _ _ _ j Hs0 Hj) as (? & -> & _). eauto. }
  eexists. split; [apply (remove_run c i s Hsi Hl); rewrite ?Hp, ?Hq; apply Hex|].
  { destruct (last_in L1) as [[H _]|H]; fold p in H; [by left|right; set_solver]. }
  { destruct (hd_in L2) as [[H _]|H]; fold q in H; [by left|right; set_solver]. }
  rewrite Hp, Hq. split; [split; [done|]; intros j; by apply core_unlinked|]. split_and!; cbn.
  - apply NoDup_app. split_and!; [done| |done]. intros x Hx. pose proof (Hd x Hx). set_solver.
  - apply lseg_app. split; [by apply lseg_unlinked_front|by apply lseg_unlinked_back].
  - rewrite Hh. destruct L1 as [|x L1]; [done|]. cbn [app hd].
    destruct (last_in (x :: L1)) as [[_ ?]|H]; [done|]. fold p in H. apply (lseg_nonneg _ _ _ _ _ Hs1) in H.
    by rewrite (proj2 (Z.leb_le 0 p)).
  - rewrite Ht, !last_app_hd, decide_False by done. destruct L2 as [|x L2]; [done|].
    cbn [hd q]. rewrite decide_False by done.
    assert (0 ≤ x) by (apply (lseg_nonneg _ _ _ _ x Hs2); left).
    rewrite (proj2 (Z.leb_le 0 x)) by done. done.
  - intros j s' Hj. pose proof (in_lru_unlinked _ _ _ _ _ _ Hpos Hj) as Hu.
    destruct (decide (j = i)) as [->|Hji].
    + rewrite bool_decide_eq_false_2; [done|]. clear -Hi1 Hi2. set_solver.
    + destruct Hu as (s0 & Hs0' & ->). rewrite (Hin j s0 Hs0'). apply bool_decide_ext. clear -Hji. set_solver.
Qed.

(** ** The sizes never change *)

Definition fixed (c c' : Cache) : Prop := max_code_ c' = max_code_ c ∧ num_slots_ c' = num_slots_ c.
Definition keeps {A} (k : C A) : Prop := ∀ c a c', k c = Ok (a, c') → fixed c c'.

Lemma sizes_bind {A B} (k : C A) (g : A → C B) : keeps k → (∀ a, keeps (g a)) → keeps (k ≫= g).
Proof.
  intros Hk Hg c b c' H. unfold mbind, C_bind in H. destruct (k c) as [[a c1]|] eqn:E; [|done].
  destruct (Hk c a c1 E) as [H1 H2]. destruct (Hg a c1 b c' H) as [H3 H4]. split; congruence.
Qed.
Lemma sizes_ret {A} (a : A) : keeps (mret a).
Proof. by intros c b c' [= _ <-]. Qed.
Lemma keeps_gets {A} (f : Cache → A) : keeps (gets f).
Proof. by intros c b c' [= _ <-]. Qed.
Lemma keeps_fatal {A} msg : keeps (@fatal A msg).
Proof. by intros c b c' H. Qed.
Lemma keeps_meta i : keeps (meta i).
Proof. intros c b c' H. unfold meta in H. destruct (slot_at c i); [|done]. by injection H as _ <-. Qed.
Lemma keeps_meta_set i f : keeps (meta_set i f).
Proof. intros c b c' H. unfold meta_set in H. destruct (slot_at c i); [|done]. by injection H as _ <-. Qed.
Lemma keeps_modify f : (∀ c, fixed c (f c)) → keeps (modify f).
Proof. intros Hf c b c' [= _ <-]. apply Hf. Qed.
Lemma keeps_prepare code b : keeps (w_prepare code b).
Proof.
  unfold w_prepare. destruct (length code =? 0)%nat; [apply sizes_ret|]. destruct b as [off|]; intros c a c' H.
  - cbn zeta in H. destruct (_ <=? _)%nat; [|done]. by injection H as _ <-.
  - by injection H as _ <-.
Qed.

Create HintDb cache_sizes discriminated.
#[local] Hint Resolve sizes_ret keeps_gets keeps_fatal keeps_meta keeps_meta_set keeps_prepare : cache_sizes.
Ltac sizes_step :=
  repeat first
    [ progress intros
    | apply sizes_bind
    | solve [auto with cache_sizes]
    | apply keeps_modify; by intros
    | progress cbn beta iota
    | match goal with |- keeps (match ?x with _ => _ end) => destruct x end
    | match goal with |- keeps (if ?x then _ else _) => destruct x end ].

Lemma keeps_touch i : keeps (lru_touch i).
Proof. unfold lru_touch, lru_remove, lru_push_front, skip. sizes_step. Qed.
Lemma keeps_field o : keeps (field o).
Proof. unfold field. sizes_step. Qed.
Lemma keeps_set_field o h : keeps (set_field o h).
Proof. unfold set_field. sizes_step. Qed.
Lemma keeps_push i : keeps (lru_push_front i).
Proof. unfold lru_push_front. sizes_step. Qed.
#[local] Hint Resolve keeps_touch keeps_field keeps_set_field keeps_push : cache_sizes.
Lemma keeps_evict fuel i : keeps (evict fuel i).
Proof.
  revert i. induction fuel as [|fuel IH]; intros i; cbn [evict]; [sizes_step|].
  unfold lru_remove, skip. sizes_step.
Qed.
#[local] Hint Resolve keeps_evict : cache_sizes.
Lemma keeps_alloc : keeps alloc_slot.
Proof. unfold alloc_slot. sizes_step. Qed.
Lemma keeps_oversize o code : keeps (acquire_oversize o code).
Proof. unfold acquire_oversize. sizes_step. Qed.
Lemma keeps_hit o : keeps (acquire_hit o).
Proof. unfold acquire_hit. sizes_step. Qed.
#[local] Hint Resolve keeps_alloc keeps_oversize keeps_hit : cache_sizes.
Lemma keeps_acquire o code : keeps (acquire o code).
Proof. unfold acquire. sizes_step. Qed.
Lemma keeps_release h : keeps (release h).
Proof. unfold release, skip. sizes_step. Qed.

Lemma keeps_release_all l : keeps (release_all l).
Proof. induction l as [|o l IH]; cbn [release_all]; unfold w_release, skip; sizes_step. Qed.
Lemma keeps_reset_slots k i : keeps (reset_slots k i).
Proof. revert i. induction k as [|k IH]; intros i; cbn [reset_slots]; unfold skip; sizes_step. Qed.
#[local] Hint Resolve keeps_release_all keeps_reset_slots : cache_sizes.
Lemma keeps_reset : keeps reset.
Proof. unfold reset, release_oversize. sizes_step. Qed.

(** ** The invariant *)

#[export] Instance handle_eq_dec : EqDecision handle.
Proof. solve_decision. Defined.

Section Invariant.
Context (code_of : Z → bytes) (code_nonempty : ∀ o, code_of o ≠ []).

(** The analysis of a contract's code. *)
Definition bitset (o : Z) : list Z := Jumpdest.build_jumpdest_bitset (code_of o).
Definition size_of (o : Z) : Z := Z.of_nat (length (code_of o)).

(** The free list. *)
Fixpoint fseg (m : list Slot) (h : Z) (F : list Z) : Prop :=
  match F with
  | [] => h = -1
  | i :: F => h = i ∧ ∃ o n nf, core <$> slot_in m i = Some (o, n, nf) ∧ fseg m nf F
  end.

(** Slots are [w] words, enough for the largest code. *)
Definition geometry (c : Cache) (w : Z) : Prop :=
  slot_bytes_ c = 8 * w ∧ 0 < w ∧ 0 ≤ max_code_ c ∧ (max_code_ c + 63) / 64 ≤ w ∧
  0 < num_slots_ c < 2 ^ 32 ∧ Z.of_nat (length (meta_ c)) = num_slots_ c ∧
  Z.of_nat (length (arena_ c)) = num_slots_ c * w.

Definition handle_of (w i : Z) : handle := InArena (i * (8 * w)).
Definition words (c : Cache) (w i : Z) (n : nat) : list Z := take n (drop (Z.to_nat (i * w)) (arena_ c)).
Definition pins (live : list (Z * handle)) (h : handle) : Z :=
  Z.of_nat (length (filter (λ p, p.2 = h) live)).

(** Every slot is reserved ([R]), free ([F]) or in use ([L], most recent first); [live]
    are the frames that run, with the handles they hold. *)
Record inv (c : Cache) (w : Z) (R F L : list Z) (live : list (Z * handle)) : Prop := {
  i_geo : geometry c w;
  i_lru : lru (meta_ c) (lru_head_ c) (lru_tail_ c) L;
  i_free : fseg (meta_ c) (free_head_ c) F;
  i_part : R ++ F ++ L ≡ₚ seqZ 0 (num_slots_ c);
  i_idle : ∀ i, i ∈ R ++ F → ∃ nf, core <$> slot_at c i = Some (None, 0, nf);
  i_used : ∀ i, i ∈ L → ∃ o n nf, core <$> slot_at c i = Some (Some o, n, nf) ∧
    fields c !! o = Some (handle_of w i) ∧ size_of o ≤ max_code_ c ∧ words c w i (length (bitset o)) = bitset o;
  i_pins : ∀ i o n nf, core <$> slot_at c i = Some (o, n, nf) → n = pins live (handle_of w i);
  i_fields : ∀ o h, fields c !! o = Some h →
    (∃ i n nf, i ∈ L ∧ h = handle_of w i ∧ core <$> slot_at c i = Some (Some o, n, nf)) ∨
    (∃ b, h = OnHeap b ∧ max_code_ c < size_of o ∧ heap c !! b = Some (Some (bitset o)) ∧ o ∈ oversize_ c);
  i_live : ∀ p, p ∈ live → fields c !! p.1 = Some p.2;
  i_over : ∀ o, o ∈ oversize_ c → max_code_ c < size_of o;
}.

Lemma length_walk_groups n code g p : length (Jumpdest.walk_groups n code g p).1 = n.
Proof.
  revert g p. induction n as [|n IH]; intros g p; [done|]. cbn [Jumpdest.walk_groups].
  destruct (Jumpdest.walk_group _ _ _ _ _ _) as [word p']. specialize (IH (S g) p').
  destruct (Jumpdest.walk_groups n code (S g) p') as [out q]. cbn in *. by rewrite IH.
Qed.

Lemma length_bitset o : Z.of_nat (length (bitset o)) = (size_of o + 63) / 64.
Proof.
  unfold bitset, size_of, Jumpdest.build_jumpdest_bitset. set (n := length (code_of o)).
  pose proof (length_walk_groups (n / 64) (code_of o) 0 0) as Hl.
  destruct (Jumpdest.walk_groups _ _ _ _) as [out p]. cbn [fst] in Hl.
  pose proof (Nat.div_mod_eq n 64) as Hd. pose proof (Nat.mod_upper_bound n 64).
  destruct (Nat.eqb_spec (n mod 64) 0).
  - apply Z.div_unique with 63; lia.
  - rewrite length_app. cbn [length]. apply Z.div_unique with (Z.of_nat (n mod 64) - 1); lia.
Qed.

Lemma bitset_fits c w o : geometry c w → size_of o ≤ max_code_ c → Z.of_nat (length (bitset o)) ≤ w.
Proof.
  intros (_ & _ & _ & Hw & _) Ho. rewrite length_bitset. etrans; [|exact Hw]. apply Z.div_le_mono; lia.
Qed.

(** Slots in use and idle ones are in range and distinct. *)
Lemma part_range c w R F L live i : inv c w R F L live → i ∈ R ++ F ++ L → 0 ≤ i < num_slots_ c.
Proof. intros Hv Hi. rewrite (i_part _ _ _ _ _ _ Hv) in Hi. apply elem_of_seqZ in Hi. lia. Qed.

Lemma part_nodup c w R F L live : inv c w R F L live → NoDup (R ++ F ++ L).
Proof. intros Hv. rewrite (i_part _ _ _ _ _ _ Hv). apply NoDup_seqZ. Qed.

Lemma core_slot c i x : core <$> slot_at c i = Some x → ∃ s, slot_at c i = Some s ∧ core s = x.
Proof. destruct (slot_at c i) as [s|]; [|done]. intros [= <-]. by exists s. Qed.

Lemma fseg_frame m m' h F :
  (∀ j, j ∈ F → core <$> slot_in m' j = core <$> slot_in m j) → fseg m h F → fseg m' h F.
Proof.
  revert h. induction F as [|i F IH]; intros h Hf Hs; [done|]. destruct Hs as (-> & o & n & nf & Hi & Hs).
  split; [done|]. exists o, n, nf. rewrite Hf by left. split; [done|]. apply IH; [|done].
  intros j Hj. apply Hf. by right.
Qed.

Lemma handle_of_inj w i j : 0 < w → handle_of w i = handle_of w j → i = j.
Proof. unfold handle_of. intros Hw [= H]. nia. Qed.

Lemma inv_relink_length c c' : relinked c c' → length (meta_ c') = length (meta_ c).
Proof.
  intros [_ Hcore]. apply Nat.le_antisymm; apply Nat.nlt_ge; intros Hlt;
    [pose proof (Hcore (Z.of_nat (length (meta_ c)))) as He|pose proof (Hcore (Z.of_nat (length (meta_ c')))) as He];
    unfold slot_at in He; rewrite (proj2 (Z.leb_le 0 _)), !Nat2Z.id in He by lia.
  - rewrite (lookup_ge_None_2 (meta_ c)) in He by lia. destruct (lookup_lt_is_Some_2 _ _ Hlt) as [? Hx]. by rewrite Hx in He.
  - rewrite (lookup_ge_None_2 (meta_ c')) in He by lia. destruct (lookup_lt_is_Some_2 _ _ Hlt) as [? Hx]. by rewrite Hx in He.
Qed.

Lemma relinked_same c c' : relinked c c' →
  slot_bytes_ c' = slot_bytes_ c ∧ num_slots_ c' = num_slots_ c ∧ max_code_ c' = max_code_ c ∧
  oversize_ c' = oversize_ c ∧ arena_ c' = arena_ c ∧ free_head_ c' = free_head_ c ∧ fields c' = fields c ∧
  heap c' = heap c.
Proof. intros [-> _]. done. Qed.

(** Moving slots around in the list changes nothing else. *)
Lemma inv_relink c c' w R F L L' live :
  inv c w R F L live → relinked c c' → lru (meta_ c') (lru_head_ c') (lru_tail_ c') L' → L' ≡ₚ L →
  inv c' w R F L' live.
Proof.
  intros [] [Hc Hcore] Hl Hp. rewrite Hc. cbn -[slot_at]. set (c0 := with_tail _ _).
  assert (Hcore' : ∀ j, core <$> slot_at c0 j = core <$> slot_at c j) by (intros j; rewrite <- Hcore, Hc; done).
  pose proof (inv_relink_length c c' (conj Hc Hcore)) as Hlen.
  constructor; cbn -[slot_at]; try setoid_rewrite Hcore'; try done.
  - destruct i_geo0 as (?&?&?&?&?&?&?). split_and!; cbn; try done; lia.
  - apply (fseg_frame (meta_ c)); [|done]. intros j _. apply Hcore'.
  - by rewrite Hp.
  - intros i Hi. apply i_used0. by rewrite <- Hp.
  - intros o h Ho. destruct (i_fields0 o h Ho) as [(i & n & nf & Hi & ?)|?]; [left|by right].
    exists i, n, nf. by rewrite Hp.
Qed.

Lemma lru_frame m m' h t L :
  (∀ j, links <$> slot_in m' j = links <$> slot_in m j) → lru m h t L → lru m' h t L.
Proof.
  intros Hf (Hn & Hs & Hh & Ht & Hin). split_and!; [done| |done..|].
  - apply (lseg_frame m); [|done]. intros j _. apply Hf.
  - intros i s Hi. specialize (Hf i). rewrite Hi in Hf. destruct (slot_in m i) as [s0|] eqn:H0; [|done].
    cbn in Hf. injection Hf as -> _ _. by apply Hin.
Qed.

Lemma meta_set_ext c i f g s : slot_at c i = Some s → f s = g s → meta_set i f c = meta_set i g c.
Proof. intros H Hf. unfold meta_set. by rewrite H, Hf. Qed.

Lemma length_alter_geo c w f i :
  geometry c w → geometry (with_meta (alter f i (meta_ c)) c) w.
Proof. intros (?&?&?&?&?&?&?). split_and!; cbn; rewrite ?length_alter; done || lia. Qed.

(** A new pin count for a slot in use, with the frames that explain it. *)
Lemma inv_set_pin c w R F L live live' i n :
  inv c w R F L live → i ∈ L → n = pins live' (handle_of w i) →
  (∀ j, j ≠ i → pins live' (handle_of w j) = pins live (handle_of w j)) →
  (∀ p, p ∈ live' → fields c !! p.1 = Some p.2) →
  inv (with_meta (alter (with_pin n) (Z.to_nat i) (meta_ c)) c) w R F L live'.
Proof.
  intros Hv Hi Hn Hother Hlive. set (c' := with_meta _ c).
  pose proof (part_range _ _ _ _ _ _ i Hv ltac:(set_solver)) as Hr.
  pose proof (part_nodup _ _ _ _ _ _ Hv) as Hnd.
  assert (Hcore : ∀ j, core <$> slot_at c' j =
    if decide (j = i) then core <$> (with_pin n <$> slot_at c j) else core <$> slot_at c j).
  { intros j. rewrite !slot_at_in. cbn. rewrite slot_in_alter by lia. by destruct (decide (j = i)). }
  assert (Hni : ∀ j, j ∈ R ++ F → j ≠ i).
  { intros j Hj ->. rewrite app_assoc in Hnd. apply NoDup_app in Hnd as (_ & Hd & _). by apply (Hd i). }
  destruct Hv. constructor; cbn -[slot_at].
  - by apply length_alter_geo.
  - apply (lru_frame (meta_ c)); [|done]. intros j. rewrite slot_in_alter by lia.
    destruct (decide (j = i)); [|done]. by destruct (slot_in (meta_ c) j).
  - apply (fseg_frame (meta_ c)); [|done]. intros j Hj. pose proof (Hcore j) as Hc. rewrite decide_False in Hc; [exact Hc|].
    apply Hni. set_solver.
  - done.
  - intros j Hj. rewrite Hcore, decide_False by (by apply Hni). by apply i_idle0.
  - intros j Hj. destruct (i_used0 j Hj) as (o & k & nf & Hs & ?). rewrite Hcore.
    destruct (decide (j = i)); [|by exists o, k, nf]. apply core_slot in Hs as (s & -> & [= Ho Hk Hnf]).
    exists o, n, nf. split; [|done]. unfold core. cbn. by rewrite Ho, Hnf.
  - intros j o k nf Hj. rewrite Hcore in Hj. destruct (decide (j = i)) as [->|Hne].
    + destruct (slot_at c i); [|done]. cbn in Hj. injection Hj as _ <- _. done.
    + rewrite Hother by done. by apply i_pins0 in Hj.
  - intros o h Ho. destruct (i_fields0 o h Ho) as [(j & k & nf & Hj & Hh & Hs)|?]; [left|by right].
    exists j, (if decide (j = i) then n else k), nf. split_and!; [done|done|].
    rewrite Hcore. destruct (decide (j = i)); [|done]. apply core_slot in Hs as (s & -> & [= Hso Hk Hnf]).
    unfold core. cbn. by rewrite Hso, Hnf.
  - done.
  - done.
Qed.

Lemma pins_cons o h live h' : pins ((o, h) :: live) h' = (if decide (h = h') then 1 else 0) + pins live h'.
Proof. unfold pins. rewrite filter_cons. cbn. destruct (decide (h = h')); cbn [length]; lia. Qed.

Lemma pins_bound live h : 0 ≤ pins live h ≤ Z.of_nat (length live).
Proof. unfold pins. pose proof (length_filter (λ p, p.2 = h) live). lia. Qed.

(** ** Taking and dropping pins *)

Lemma lru_touch_inv c w R F L live i :
  inv c w R F L live → i ∈ L → ∃ c' L', lru_touch i c = Ok (tt, c') ∧ inv c' w R F L' live ∧ fields c' = fields c.
Proof.
  intros Hv Hi. apply list_elem_of_split in Hi as (L1 & L2 & ->).
  destruct (remove_spec c i L1 L2 (i_lru _ _ _ _ _ _ Hv)) as (c1 & Hr1 & Hc1 & Hl1).
  assert (Hs : is_Some (slot_in (meta_ c1) i)).
  { pose proof (i_used _ _ _ _ _ _ Hv i ltac:(set_solver)) as (o & n & nf & Hs & _).
    pose proof (proj2 Hc1 i) as He. rewrite Hs in He. apply core_slot in He as (s & He & _).
    rewrite slot_at_in in He. eauto. }
  pose proof (part_nodup _ _ _ _ _ _ Hv) as Hnd. apply NoDup_app in Hnd as (_ & _ & Hnd).
  apply NoDup_app in Hnd as (_ & _ & Hnd). apply NoDup_app in Hnd as (_ & Hd & Hn2). apply NoDup_cons in Hn2 as [Hn2 _].
  destruct (push_front_spec c1 i (L1 ++ L2) Hl1 Hs) as (c2 & Hr2 & Hc2 & Hl2).
  { intros [H|H]%elem_of_app; [|done]. apply (Hd i H). left. }
  exists c2, (i :: L1 ++ L2). unfold lru_touch. rewrite (c_bind_run _ _ _ _ _ Hr1). split; [done|]. split.
  - apply (inv_relink c c2 w R F (L1 ++ i :: L2)); [done|by apply (relinked_trans c c1)|done|].
    by rewrite Permutation_middle.
  - rewrite (proj1 Hc2). cbn. by rewrite (proj1 Hc1).
Qed.

Lemma slot_of_handle c w i : geometry c w → slot_of c (handle_of w i) = i.
Proof. intros (Hb & Hw & _). cbn. rewrite Hb. apply Z.div_mul. lia. Qed.

Lemma hit_spec c w F L live o h :
  inv c w [] F L live → Z.of_nat (length live) < num_slots_ c → size_of o ≤ max_code_ c → fields c !! o = Some h →
  ∃ c' L', acquire_hit o c = Ok (Some h, c') ∧ inv c' w [] F L' ((o, h) :: live).
Proof.
  intros Hv Hlt Ho Hh. pose proof Hv as []. destruct (i_fields0 o h Hh) as [(i & n & nf & Hi & -> & Hs)|(b & -> & ? & _)]; [|lia].
  pose proof (part_range _ _ _ _ _ _ i Hv ltac:(set_solver)) as Hr.
  apply core_slot in Hs as (s & Hs & [= Hso Hsn Hsf]).
  assert (Hn : n = pins live (handle_of w i)) by (apply (i_pins0 i (Some o) n nf); rewrite Hs; cbn; unfold core; by rewrite Hso, Hsn, Hsf).
  unfold acquire_hit. rewrite (c_bind_run _ _ c _ c) by (unfold field, gets; by rewrite Hh). cbn beta iota.
  rewrite (c_bind_run _ _ c i c) by (unfold gets; by rewrite (slot_of_handle c w)).
  rewrite (c_bind_run _ _ c (num_slots_ c) c) by done.
  assert (Hmine : (if (0 <=? i) && (i <? num_slots_ c) then s ← meta i; mret (bool_decide (owner s = Some o)) else mret false) c =
    Ok (true, c)).
  { rewrite (proj2 (Z.leb_le 0 i)), (proj2 (Z.ltb_lt i _)) by lia. cbn [andb].
    rewrite (c_bind_run _ _ c s c) by (by apply meta_run). by rewrite bool_decide_eq_true_2. }
  rewrite (c_bind_run _ _ _ _ _ Hmine). cbn beta iota.
  pose proof (pins_bound live (handle_of w i)) as Hpb. destruct i_geo0 as (?&?&?&?&?&?&?).
  assert (Hpin : meta_set i (λ s, with_pin (u32 (pin s + 1)) s) c =
    Ok (tt, with_meta (alter (with_pin (1 + pins live (handle_of w i))) (Z.to_nat i) (meta_ c)) c)).
  { rewrite (meta_set_ext c i _ (with_pin (1 + pins live (handle_of w i))) s Hs); [by apply (meta_set_run _ _ _ s)|].
    f_equal. rewrite Hsn, Hn. unfold u32. rewrite Z.mod_small; lia. }
  rewrite (c_bind_run _ _ _ _ _ Hpin). set (c1 := with_meta _ c).
  assert (Hv1 : inv c1 w [] F L ((o, handle_of w i) :: live)).
  { apply (inv_set_pin c w [] F L live); [done|done| | |].
    - rewrite pins_cons, decide_True by done. done.
    - intros j Hj. rewrite pins_cons, decide_False; [lia|]. intros He. apply handle_of_inj in He; [congruence|lia].
    - intros p [->|Hp]%elem_of_cons; [done|by apply i_live0]. }
  destruct (lru_touch_inv c1 w [] F L _ i Hv1 Hi) as (c2 & L' & Ht & Hv2 & Hf). rewrite (c_bind_run _ _ _ _ _ Ht).
  exists c2, L'. split; [|done]. unfold field, gets. rewrite Hf. cbn. by rewrite Hh.
Qed.

Lemma release_spec c w F L live o h :
  inv c w [] F L ((o, h) :: live) → ∃ c', release (Some h) c = Ok (tt, c') ∧ inv c' w [] F L live.
Proof.
  intros Hv. pose proof Hv as []. pose proof (i_live0 (o, h) ltac:(left)) as Hh. cbn in Hh.
  unfold release. rewrite (c_bind_run _ _ c (in_arena c h) c) by done.
  destruct (i_fields0 o h Hh) as [(i & n & nf & Hi & -> & Hs)|(b & -> & ? & _)].
  - pose proof (part_range _ _ _ _ _ _ i Hv ltac:(set_solver)) as Hr. pose proof i_geo0 as (Hb & Hw & _).
    assert (Hin : in_arena c (handle_of w i) = true).
    { cbn. rewrite Hb. apply andb_true_intro. split; [apply Z.leb_le|apply Z.ltb_lt]; nia. }
    rewrite Hin. cbn [negb]. rewrite (c_bind_run _ _ c i c) by (unfold gets; by rewrite (slot_of_handle c w)).
    pose proof (i_pins0 i _ _ _ Hs) as Hn. apply core_slot in Hs as (s & Hs & [= Hso Hsn Hsf]).
    rewrite (c_bind_run _ _ c s c) by (by apply meta_run).
    rewrite pins_cons, decide_True in Hn by done. pose proof (pins_bound live (handle_of w i)).
    rewrite (proj2 (Z.ltb_lt 0 (pin s))) by lia.
    rewrite (meta_set_run _ _ _ s) by done. eexists. split; [reflexivity|].
    apply (inv_set_pin c w [] F L ((o, handle_of w i) :: live)); [done|done|lia| |].
    + intros j Hj. rewrite pins_cons, decide_False; [lia|]. intros He. apply handle_of_inj in He; [congruence|lia].
    + intros p Hp. apply i_live0. by right.
  - exists c. split; [done|]. constructor; try assumption. intros p Hp. apply i_live0. by right.
Qed.

(** ** A slot for a new analysis *)

(** A slot taken off the free list. *)
Lemma take_free c w i F L live :
  inv c w [] (i :: F) L live → ∃ c', alloc_slot c = Ok (i, c') ∧ inv c' w [i] F L live ∧ fields c' = fields c.
Proof.
  intros Hv. pose proof Hv as []. destruct i_free0 as (Hh & o & n & nf & Hi & Hf).
  pose proof (part_range _ _ _ _ _ _ i Hv ltac:(set_solver)) as Hr. pose proof (part_nodup _ _ _ _ _ _ Hv) as Hnd.
  cbn in Hnd. apply NoDup_cons in Hnd as [Hni Hnd].
  apply core_slot in Hi as (s & Hi & [= Hso Hsn Hsf]).
  unfold alloc_slot. rewrite (c_bind_run _ _ c (free_head_ c) c) by done. rewrite Hh, (proj2 (Z.leb_le 0 i)) by lia.
  rewrite (c_bind_run _ _ c s c) by (by apply meta_run). rewrite (c_bind_run _ _ c tt _ eq_refl).
  rewrite (set_step _ _ _ _ s) by exact Hi. eexists. split; [reflexivity|]. split; [|done].
  cbn [meta_ with_free_head with_meta]. set (m' := alter _ _ _). set (c' := with_meta m' _).
  assert (Hcore : ∀ j, core <$> slot_at c' j =
    if decide (j = i) then core <$> (with_free (-1) <$> slot_at c j) else core <$> slot_at c j).
  { intros j. rewrite !slot_at_in. cbn. unfold m'. rewrite slot_in_alter by lia. by destruct (decide (j = i)). }
  assert (HcoreL : ∀ j, j ∈ F ++ L → core <$> slot_at c' j = core <$> slot_at c j).
  { intros j Hj. rewrite Hcore, decide_False; [done|]. intros ->. done. }
  constructor; cbn -[slot_at]; try assumption.
  - by apply (length_alter_geo c w (with_free (-1)) (Z.to_nat i)).
  - apply (lru_frame (meta_ c)); [|done]. intros j. unfold m'. rewrite slot_in_alter by lia.
    destruct (decide (j = i)); [|done]. by destruct (slot_in (meta_ c) j).
  - apply (fseg_frame (meta_ c)); [|by rewrite Hsf]. intros j Hj. apply HcoreL. set_solver.
  - intros j Hj. destruct (i_idle0 j Hj) as (nf' & Hs). rewrite Hcore. destruct (decide (j = i)) as [->|]; [|by exists nf'].
    apply core_slot in Hs as (s' & -> & [= H1 H2 H3]). exists (-1). unfold core. cbn. by rewrite H1, H2.
  - intros j Hj. rewrite HcoreL by set_solver. by apply i_used0.
  - intros j o' k nf' Hj. rewrite Hcore in Hj. destruct (decide (j = i)) as [->|]; [|by apply i_pins0 in Hj].
    apply (i_pins0 i o' k (next_free s)). rewrite Hi in Hj |- *. cbn in *. unfold core in *. cbn in *. congruence.
  - intros o' h Ho. destruct (i_fields0 o' h Ho) as [(j & k & nf' & Hj & Hjh & Hs)|?]; [left|by right].
    exists j, k, nf'. rewrite HcoreL by set_solver. done.
Qed.

Lemma pins_pos live p : p ∈ live → 0 < pins live p.2.
Proof.
  intros Hp. induction live as [|[o h] live IH]; [by apply elem_of_nil in Hp|]. rewrite pins_cons.
  pose proof (pins_bound live p.2). apply elem_of_cons in Hp as [->|Hp]; [rewrite decide_True by done; lia|].
  specialize (IH Hp). destruct (decide (h = p.2)); lia.
Qed.

(** The least recently used slot gives up its owner. *)
Lemma inv_evict c c1 w F L1 i L2 live o :
  inv c w [] F (L1 ++ i :: L2) live → relinked c c1 → lru (meta_ c1) (lru_head_ c1) (lru_tail_ c1) (L1 ++ L2) →
  (∃ nf, core <$> slot_at c i = Some (Some o, 0, nf)) →
  inv (with_meta (alter (with_owner None) (Z.to_nat i) (meta_ c1)) (with_fields (delete o (fields c1)) c1))
    w [i] F (L1 ++ L2) live.
Proof.
  intros Hv Hrel Hl (nfi & Hi). set (c' := with_meta _ _). pose proof (proj2 Hrel) as Hcore1.
  destruct (relinked_same c c1 Hrel) as (Esb & Enum & Emax & Eover & Earena & Efree & Hf1 & Eheap).
  pose proof (part_range _ _ _ _ _ _ i Hv ltac:(set_solver)) as Hr. pose proof (part_nodup _ _ _ _ _ _ Hv) as Hnd.
  assert (Hperm : [i] ++ F ++ L1 ++ L2 ≡ₚ [] ++ F ++ L1 ++ i :: L2)
    by (cbn; rewrite !app_assoc; apply Permutation_middle).
  assert (Hni : i ∉ F ++ L1 ++ L2) by (rewrite <- Hperm in Hnd; cbn in Hnd; by apply NoDup_cons in Hnd as [? _]).
  assert (Hcore : ∀ j, core <$> slot_at c' j = if decide (j = i) then Some (None, 0, nfi) else core <$> slot_at c j).
  { intros j. rewrite slot_at_in. cbn. rewrite slot_in_alter by lia. specialize (Hcore1 j).
    destruct (decide (j = i)) as [->|]; [|exact Hcore1].
    rewrite Hi in Hcore1. apply core_slot in Hcore1 as (s & Hs & [= H1 H2 H3]). rewrite slot_at_in in Hs. rewrite Hs. cbn.
    unfold core. cbn. by rewrite H2, H3. }
  assert (HcoreL : ∀ j, j ∈ F ++ L1 ++ L2 → core <$> slot_at c' j = core <$> slot_at c j).
  { intros j Hj. rewrite Hcore, decide_False; [done|]. by intros ->. }
  pose proof Hv as []. pose proof (i_used0 i ltac:(set_solver)) as (o' & n' & nf' & Hi' & Hfo & _).
  rewrite Hi in Hi'. injection Hi' as <- _ _. pose proof (i_geo0) as (_ & Hw & _).
  pose proof (inv_relink_length c c1 Hrel) as Hlen.
  constructor; cbn -[slot_at].
  - destruct i_geo0 as (?&?&?&?&?&?&?).
    split_and!; cbn; rewrite ?length_alter, ?Esb, ?Enum, ?Emax, ?Earena; try done; lia.
  - apply (lru_frame (meta_ c1)); [|done]. intros j. rewrite slot_in_alter by lia.
    destruct (decide (j = i)); [|done]. by destruct (slot_in (meta_ c1) j).
  - rewrite Efree. apply (fseg_frame (meta_ c)); [|done]. intros j Hj. apply HcoreL. set_solver.
  - rewrite Enum. etrans; [exact Hperm|]. done.
  - intros j [->|Hj]%elem_of_cons; [exists nfi; by rewrite Hcore, decide_True|].
    rewrite HcoreL by set_solver. apply i_idle0. done.
  - intros j Hj. rewrite HcoreL by set_solver. destruct (i_used0 j ltac:(set_solver)) as (oj & nj & nfj & Hs & Hfj & Hsz & Hwd).
    exists oj, nj, nfj. unfold words. cbn. rewrite Hf1, Emax, Earena. split_and!; try done. rewrite lookup_delete_ne; [done|].
    intros ->. rewrite Hfo in Hfj. injection Hfj as He. apply Hni. replace i with j by nia. set_solver.
  - intros j oj nj nfj Hj. rewrite Hcore in Hj. destruct (decide (j = i)) as [->|]; [|by apply i_pins0 in Hj].
    injection Hj as _ <- _. by apply i_pins0 in Hi.
  - intros oj h Hoj. rewrite Hf1 in Hoj. apply lookup_delete_Some in Hoj as [Hne Hoj].
    destruct (i_fields0 oj h Hoj) as [(j & k & nf & Hj & Hjh & Hs)|Hh]; [left|right; by rewrite Emax, Eheap, Eover].
    assert (j ≠ i) by (intros ->; rewrite Hi in Hs; congruence).
    exists j, k, nf. rewrite HcoreL by set_solver. split_and!; [set_solver|done|done].
  - intros p Hp. rewrite Hf1. rewrite lookup_delete_ne; [by apply i_live0|]. intros He.
    pose proof (i_live0 p Hp) as Hfp. rewrite <- He, Hfo in Hfp. apply (inj Some) in Hfp.
    pose proof (pins_pos live p Hp) as Hpos. rewrite <- Hfp in Hpos. apply i_pins0 in Hi. lia.
  - by rewrite Emax, Eover.
Qed.

(** The loop from the tail finds an unpinned slot. *)
Lemma evict_spec fuel c w F L1 L2 live :
  inv c w [] F (L1 ++ L2) live → (length L1 ≤ fuel)%nat →
  (∃ i, i ∈ L1 ∧ ∃ o nf, core <$> slot_at c i = Some (o, 0, nf)) →
  ∃ i c' L', evict fuel (List.last L1 (-1)) c = Ok (i, c') ∧ inv c' w [i] F L' live ∧
    (∀ o, fields c !! o = None → fields c' !! o = None).
Proof.
  revert fuel L2. induction L1 as [|i L1 IH] using rev_ind; intros fuel L2 Hv Hf Hex.
  { destruct Hex as (i & Hi & _). by apply elem_of_nil in Hi. }
  rewrite length_app in Hf. cbn in Hf. destruct fuel as [|fuel]; [lia|]. rewrite List.last_last. cbn [evict].
  rewrite <- app_assoc in Hv. cbn [app] in Hv.
  pose proof (part_range _ _ _ _ _ _ i Hv ltac:(set_solver)) as Hr. rewrite (proj2 (Z.ltb_ge i 0)) by lia.
  destruct (i_used _ _ _ _ _ _ Hv i ltac:(set_solver)) as (o & n & nf & Hs & _).
  apply core_slot in Hs as (s & Hs & [= Hso Hsn Hsf]).
  rewrite (c_bind_run _ _ c s c) by (by apply meta_run). destruct (Z.eqb_spec (pin s) 0) as [Hz|Hnz].
  - destruct (remove_spec c i L1 L2 (i_lru _ _ _ _ _ _ Hv)) as (c1 & Hr1 & Hrel & Hl1).
    rewrite (c_bind_run _ _ _ _ _ Hr1), Hso.
    pose proof (proj2 Hrel i) as Hc1. rewrite Hs in Hc1. apply core_slot in Hc1 as (s1 & Hs1 & _).
    rewrite (c_bind_run _ _ c1 tt (with_meta (alter (with_owner None) (Z.to_nat i) (meta_ c1))
      (with_fields (delete o (fields c1)) c1))).
    2: { rewrite (c_bind_run _ _ c1 tt _ eq_refl).
         exact (meta_set_run (with_fields (delete o (fields c1)) c1) i _ s1 Hs1). }
    eexists i, _, (L1 ++ L2). split; [reflexivity|]. split.
    + apply (inv_evict c c1 w F L1 i L2 live o Hv Hrel Hl1). exists (next_free s). rewrite Hs. unfold core. cbn.
      by rewrite Hso, Hz.
    + intros o' Ho'. destruct (relinked_same c c1 Hrel) as (_&_&_&_&_&_&Ef&_). cbn. rewrite Ef.
      apply lookup_delete_None. by right.
  - assert (Hlast : lru_prev s = List.last L1 (-1)).
    { pose proof (i_lru _ _ _ _ _ _ Hv) as (_ & Hls & _). apply lseg_app in Hls as [_ [Hl _]].
      rewrite slot_at_in in Hs. rewrite Hs in Hl. cbn in Hl. by injection Hl. }
    rewrite Hlast. apply (IH fuel (i :: L2) Hv); [lia|].
    destruct Hex as (j & Hj & oj & nfj & Hjs). exists j. split; [|by exists oj, nfj].
    apply elem_of_app in Hj as [Hj|Hj]; [done|]. apply list_elem_of_singleton in Hj as ->.
    rewrite Hs in Hjs. cbn in Hjs. injection Hjs as _ Hp _. done.
Qed.

(** More slots in use than frames: one has no pin. *)
Lemma unpinned_slot c w L live :
  inv c w [] [] L live → (length live < length L)%nat →
  ∃ i, i ∈ L ∧ ∃ o nf, core <$> slot_at c i = Some (o, 0, nf).
Proof.
  intros Hv Hlt.
  destruct (decide (Exists (λ i, pins live (handle_of w i) = 0) L)) as [He|He].
  - apply Exists_exists in He as (i & Hi & Hp). exists i. split; [done|].
    destruct (i_used _ _ _ _ _ _ Hv i Hi) as (o & n & nf & Hs & _). exists (Some o), nf.
    by rewrite Hs, (i_pins _ _ _ _ _ _ Hv _ _ _ _ Hs), Hp.
  - exfalso. apply not_Exists_Forall in He; [|solve_decision].
    assert (Hsub : (handle_of w <$> L) ⊆ live.*2).
    { intros h (i & -> & Hi)%list_elem_of_fmap. rewrite Forall_forall in He. specialize (He i Hi).
      destruct (filter (λ p, p.2 = handle_of w i) live) as [|p l] eqn:Hf;
        [exfalso; apply He; unfold pins; by rewrite Hf|].
      assert (Hp : p ∈ filter (λ p, p.2 = handle_of w i) live) by (rewrite Hf; left).
      apply list_elem_of_filter in Hp as [Hp Hin]. rewrite <- Hp. by apply list_elem_of_fmap_2. }
    apply NoDup_submseteq, submseteq_length in Hsub.
    + rewrite !length_fmap in Hsub. lia.
    + apply NoDup_fmap_2_strong; [|by apply (i_lru _ _ _ _ _ _ Hv)].
      intros i j _ _ Heq. pose proof (i_geo _ _ _ _ _ _ Hv) as (_ & Hw & _). by apply (handle_of_inj w).
Qed.

(** A slot is always found while fewer frames run than there are slots. *)
Lemma alloc_spec c w F L live :
  inv c w [] F L live → Z.of_nat (length live) < num_slots_ c →
  ∃ i c' F' L', alloc_slot c = Ok (i, c') ∧ inv c' w [i] F' L' live ∧
    (∀ o, fields c !! o = None → fields c' !! o = None).
Proof.
  intros Hv Hlt. destruct F as [|i F].
  - unfold alloc_slot. rewrite (c_bind_run _ _ c (free_head_ c) c) by done.
    rewrite (i_free _ _ _ _ _ _ Hv). cbn beta iota. rewrite (proj2 (Z.leb_gt 0 (-1))) by lia.
    rewrite (c_bind_run _ _ c (num_slots_ c) c) by done. rewrite (c_bind_run _ _ c (lru_tail_ c) c) by done.
    pose proof (i_lru _ _ _ _ _ _ Hv) as (_ & _ & _ & -> & _).
    pose proof (i_part _ _ _ _ _ _ Hv) as Hp. cbn [app] in Hp.
    assert (HL : Z.of_nat (length L) = num_slots_ c).
    { pose proof (i_geo _ _ _ _ _ _ Hv) as (_ & _ & _ & _ & Hn & _). rewrite Hp, length_seqZ. lia. }
    destruct (evict_spec (Z.to_nat (num_slots_ c)) c w [] L [] live) as (i & c' & L' & Hr & Hv' & Hf).
    + by rewrite app_nil_r.
    + lia.
    + apply (unpinned_slot c w L live Hv). lia.
    + exists i, c', [], L'. done.
  - destruct (take_free c w i F L live Hv) as (c' & Hr & Hv' & Hf). exists i, c', F, L. split_and!; [done|done|].
    intros o Ho. by rewrite Hf.
Qed.

(** ** Filling a slot *)

(** Writing at most a slot's words into slot [i] leaves the other slots alone. *)
Definition written (A : list Z) (a : nat) (B : list Z) : list Z := take a A ++ B ++ drop (a + length B) A.

Lemma length_written A a B : (a + length B ≤ length A)%nat → length (written A a B) = length A.
Proof. intros H. unfold written. rewrite !length_app, length_take, length_drop. lia. Qed.

Lemma written_here A a B : (a + length B ≤ length A)%nat → take (length B) (drop a (written A a B)) = B.
Proof.
  intros H. unfold written. rewrite drop_app_length' by (rewrite length_take; lia). apply take_app_length.
Qed.

Lemma written_other A a B k n :
  (a + length B ≤ length A)%nat → (k + n ≤ a ∨ a + length B ≤ k)%nat →
  take n (drop k (written A a B)) = take n (drop k A).
Proof.
  intros H Hk. unfold written. destruct Hk as [Hk|Hk].
  - rewrite drop_app_le by (rewrite length_take; lia).
    rewrite take_app_le by (rewrite length_drop, length_take; lia).
    rewrite <- (take_drop a A) at 2. rewrite drop_app_le by (rewrite length_take; lia).
    rewrite take_app_le by (rewrite length_drop, length_take; lia). done.
  - rewrite app_assoc, drop_app_ge by (rewrite length_app, length_take; lia).
    rewrite length_app, length_take, drop_drop. do 2 f_equal. lia.
Qed.

(** The cache after the analysis is written and the slot is given to its owner. *)
Definition filled (c : Cache) (w i o : Z) : Cache :=
  with_fields (<[o := handle_of w i]> (fields c))
    (with_meta (alter (with_pin 1) (Z.to_nat i) (alter (with_owner (Some o)) (Z.to_nat i) (meta_ c)))
      (with_arena (written (arena_ c) (Z.to_nat (i * w)) (bitset o)) c)).

Lemma core_filled c w i o j s :
  slot_at c i = Some s →
  core <$> slot_at (filled c w i o) j =
    if decide (j = i) then Some (Some o, 1, next_free s) else core <$> slot_at c j.
Proof.
  intros Hs. pose proof Hs as Hs'. rewrite slot_at_in in Hs'. pose proof (slot_in_nonneg _ _ _ Hs') as Hi.
  rewrite !slot_at_in. cbn. rewrite !slot_in_alter by done. destruct (decide (j = i)) as [->|]; [|done].
  by rewrite Hs'.
Qed.

Lemma inv_fill c c' w i F L live o :
  inv c w [i] F L live → fields c !! o = None → size_of o ≤ max_code_ c →
  relinked (filled c w i o) c' → lru (meta_ c') (lru_head_ c') (lru_tail_ c') (i :: L) →
  inv c' w [] F (i :: L) ((o, handle_of w i) :: live).
Proof.
  intros Hv Ho Hsz Hrel Hl. pose proof Hv as [].
  destruct (i_idle0 i ltac:(left)) as (nfi & Hi). apply core_slot in Hi as (si & Hi & [= Hio Hip Hin]).
  destruct (relinked_same _ _ Hrel) as (Esb & Enum & Emax & Eover & Earena & Efree & Ef & Eheap).
  assert (Hcore : ∀ j, core <$> slot_at c' j = if decide (j = i) then Some (Some o, 1, next_free si) else core <$> slot_at c j).
  { intros j. rewrite (proj2 Hrel). by apply core_filled. }
  pose proof (part_range _ _ _ _ _ _ i Hv ltac:(left)) as Hr. pose proof (part_nodup _ _ _ _ _ _ Hv) as Hnd.
  cbn [app] in Hnd. apply NoDup_cons in Hnd as [Hni Hnd].
  assert (HcoreL : ∀ j, j ∈ F ++ L → core <$> slot_at c' j = core <$> slot_at c j).
  { intros j Hj. rewrite Hcore, decide_False; [done|]. by intros ->. }
  pose proof (bitset_fits c w o i_geo0 Hsz) as Hfit. pose proof (inv_relink_length _ _ Hrel) as Hlen. cbn in Hlen.
  rewrite !length_alter in Hlen. pose proof i_geo0 as (Gb & Gw & Gm & Gc & Gn & Gl & Ga).
  assert (Hbound : (Z.to_nat (i * w) + length (bitset o) ≤ length (arena_ c))%nat) by nia.
  cbn in Earena, Ef, Esb, Enum, Emax, Eover, Efree, Eheap.
  assert (Hfi : 0 = pins live (handle_of w i)).
  { apply (i_pins0 i None 0 nfi). rewrite Hi. cbn. unfold core. by rewrite Hio, Hip, Hin. }
  constructor.
  - split_and!; rewrite ?Esb, ?Emax, ?Enum, ?Earena, ?length_written; try done; lia.
  - done.
  - rewrite Efree. apply (fseg_frame (meta_ c)); [|done]. intros j Hj. apply HcoreL. set_solver.
  - rewrite Enum. rewrite <- i_part0. cbn. by rewrite Permutation_middle.
  - intros j Hj. rewrite HcoreL by set_solver. apply i_idle0. by right.
  - intros j [->|Hj]%elem_of_cons.
    + exists o, 1, (next_free si). rewrite Hcore, decide_True, Ef, lookup_insert_eq, Emax by done. split_and!; [done..|].
      unfold words. rewrite Earena. by apply written_here.
    + rewrite HcoreL by set_solver. destruct (i_used0 j Hj) as (oj & nj & nfj & Hsj & Hfj & Hsj' & Hwd).
      exists oj, nj, nfj. rewrite Ef, Emax. rewrite lookup_insert_ne by (intros ->; congruence).
      split_and!; [done..|]. rewrite <- Hwd at 2. unfold words. rewrite Earena. apply written_other; [done|].
      pose proof (bitset_fits c w oj i_geo0 Hsj').
      pose proof (part_range _ _ _ _ _ _ j Hv ltac:(right; set_solver)).
      assert (j ≠ i) by (intros ->; set_solver). nia.
  - intros j oj n nf Hj. rewrite Hcore in Hj. rewrite pins_cons. destruct (decide (j = i)) as [->|Hne].
    + injection Hj as _ <- _. rewrite decide_True by done. lia.
    + rewrite decide_False; [by apply i_pins0 in Hj|]. intros He. apply handle_of_inj in He; [congruence|done].
  - intros oj h Hoj. rewrite Ef in Hoj. apply lookup_insert_Some in Hoj as [[<- <-]|[Hne Hoj]].
    + left. exists i, 1, (next_free si). split_and!; [left|done|]. by rewrite Hcore, decide_True.
    + destruct (i_fields0 oj h Hoj) as [(j & k & nf & Hj & Hjh & Hs)|Hh]; [left|right; by rewrite Emax, Eheap, Eover].
      exists j, k, nf. rewrite HcoreL by set_solver. split_and!; [by right|done|done].
  - intros p [->|Hp]%elem_of_cons; rewrite Ef; [apply lookup_insert_eq|].
    pose proof (i_live0 p Hp) as Hlp. rewrite lookup_insert_ne by (intros ->; congruence). done.
  - by rewrite Emax, Eover.
Qed.

(** ** The operations keep the invariant *)

Lemma prepare_slot c w i F L live o :
  inv c w [i] F L live → size_of o ≤ max_code_ c →
  w_prepare (code_of o) (Some (i * (8 * w))) c =
    Ok (Some (handle_of w i), with_arena (written (arena_ c) (Z.to_nat (i * w)) (bitset o)) c).
Proof using code_nonempty.
  intros Hv Hsz. pose proof (i_geo _ _ _ _ _ _ Hv) as Hg. pose proof (bitset_fits c w o Hg Hsz) as Hfit.
  pose proof (part_range _ _ _ _ _ _ i Hv ltac:(left)) as Hr. destruct Hg as (Gb & Gw & Gm & Gc & Gn & Gl & Ga).
  unfold w_prepare. destruct (Nat.eqb_spec (length (code_of o)) 0) as [H0|_].
  { apply nil_length_inv in H0. by apply code_nonempty in H0. }
  cbn zeta beta. fold (bitset o). replace (i * (8 * w) / 8) with (i * w).
  - rewrite (proj2 (Nat.leb_le _ _)) by nia. done.
  - replace (i * (8 * w)) with (i * w * 8) by lia. by rewrite Z.div_mul.
Qed.

Lemma miss_spec c w F L live o :
  inv c w [] F L live → Z.of_nat (length live) < num_slots_ c → size_of o ≤ max_code_ c → fields c !! o = None →
  ∃ h c' F' L', acquire o (code_of o) c = Ok (Some h, c') ∧ inv c' w [] F' L' ((o, h) :: live).
Proof using code_nonempty.
  intros Hv Hlt Hsz Ho. unfold acquire. rewrite (c_bind_run _ _ c (max_code_ c) c) by done.
  unfold size_of in Hsz. rewrite (proj2 (Z.ltb_ge _ _)) by done.
  rewrite (c_bind_run _ _ c None c) by (unfold acquire_hit, mbind, C_bind, field, gets; by rewrite Ho).
  destruct (alloc_spec c w F L live Hv Hlt) as (i & c1 & F' & L' & Ha & Hv1 & Hf1).
  assert (Hmax : max_code_ c1 = max_code_ c) by (by apply (keeps_alloc c i c1)).
  rewrite (c_bind_run _ _ _ _ _ Ha). rewrite (c_bind_run _ _ c1 (slot_bytes_ c1) c1) by done.
  pose proof (i_geo _ _ _ _ _ _ Hv1) as (Gb & Gw & _). rewrite Gb.
  rewrite (c_bind_run _ _ _ _ _ (prepare_slot c1 w i F' L' live o Hv1 ltac:(unfold size_of; lia))).
  destruct (i_idle _ _ _ _ _ _ Hv1 i ltac:(left)) as (nfi & Hi). apply core_slot in Hi as (si & Hi & _).
  pose proof Hi as Hi'. rewrite slot_at_in in Hi'. pose proof (slot_in_nonneg _ _ _ Hi') as Hpos.
  rewrite (set_step _ _ _ _ si) by exact Hi'.
  rewrite (set_step _ _ _ _ (with_owner (Some o) si)) by (cbn; by rewrite slot_in_alter, decide_True, Hi' by done).
  rewrite (c_bind_run _ _ _ tt (filled c1 w i o)) by done.
  destruct (push_front_spec (filled c1 w i o) i L') as (c2 & Hp & Hrel & Hl).
  - cbn. apply (lru_frame (meta_ c1)); [|apply (i_lru _ _ _ _ _ _ Hv1)]. intros j. rewrite !slot_in_alter by done.
    destruct (decide (j = i)); [|done]. by destruct (slot_in (meta_ c1) j).
  - cbn. rewrite !slot_in_alter, !decide_True, Hi' by done. eauto.
  - pose proof (part_nodup _ _ _ _ _ _ Hv1) as Hnd. cbn [app] in Hnd. apply NoDup_cons in Hnd as [Hni _].
    intros Hm. apply Hni, elem_of_app. by right.
  - rewrite (c_bind_run _ _ _ _ _ Hp). exists (handle_of w i), c2, F', (i :: L'). split; [done|].
    apply (inv_fill c1); [done|by apply Hf1|unfold size_of; lia|done|done].
Qed.

Lemma oversize_spec c w F L live o :
  inv c w [] F L live → max_code_ c < size_of o →
  ∃ h c', acquire_oversize o (code_of o) c = Ok (Some h, c') ∧ inv c' w [] F L ((o, h) :: live).
Proof using code_nonempty.
  intros Hv Hsz. pose proof Hv as []. unfold acquire_oversize.
  rewrite (c_bind_run _ _ c (fields c !! o) c) by done. destruct (fields c !! o) as [h|] eqn:Ho.
  - exists h, c. split; [done|]. destruct (i_fields0 o h Ho) as [(i & n & nf & Hi & _ & Hs)|(b & -> & _)].
    { destruct (i_used0 i Hi) as (o' & n' & nf' & Hs' & _ & Hsz' & _). rewrite Hs in Hs'. injection Hs' as <- _ _. lia. }
    constructor; try assumption. intros p [->|Hp]%elem_of_cons; [done|by apply i_live0].
  - assert (Hp : w_prepare (code_of o) None c =
      Ok (Some (OnHeap (length (heap c))), with_heap (heap c ++ [Some (bitset o)]) c)).
    { unfold w_prepare. destruct (Nat.eqb_spec (length (code_of o)) 0) as [H0|_]; [|done].
      apply nil_length_inv in H0. by apply code_nonempty in H0. }
    rewrite (c_bind_run _ _ _ _ _ Hp). rewrite (c_bind_run _ _ _ tt _ eq_refl). rewrite (c_bind_run _ _ _ tt _ eq_refl).
    eexists (OnHeap (length (heap c))), _. split.
    { unfold field, gets. cbn. by rewrite lookup_partial_alter_eq. }
    change (partial_alter _ o _) with (<[o := OnHeap (length (heap c))]> (fields c)).
    constructor; cbn -[slot_at]; try assumption.
    + intros i Hi. destruct (i_used0 i Hi) as (o' & n & nf & Hs & Hf & ?). exists o', n, nf. split_and!; [done| |tauto..].
      rewrite lookup_insert_ne; [done|]. congruence.
    + intros o' h [[<- <-]|[Hne Hf]]%lookup_insert_Some.
      * right. exists (length (heap c)). split_and!; [done|done| |set_solver]. by apply list_lookup_middle.
      * destruct (i_fields0 o' h Hf) as [?|(b & -> & Hsz' & Hb & Hin)]; [by left|]. right. exists b.
        split_and!; [done|done| |set_solver]. rewrite lookup_app_l; [done|]. by eapply lookup_lt_Some.
    + intros p [->|Hp']%elem_of_cons; [apply lookup_insert_eq|].
      pose proof (i_live0 p Hp'). rewrite lookup_insert_ne; [done|]. congruence.
    + intros o' [Hin|Hin]%elem_of_app; [by apply i_over0|]. apply list_elem_of_singleton in Hin as ->. done.
Qed.

Lemma acquire_spec c w F L live o :
  inv c w [] F L live → Z.of_nat (length live) < num_slots_ c →
  ∃ h c' F' L', acquire o (code_of o) c = Ok (Some h, c') ∧ inv c' w [] F' L' ((o, h) :: live).
Proof using code_nonempty.
  intros Hv Hlt. destruct (decide (size_of o ≤ max_code_ c)) as [Hsz|Hsz].
  - destruct (fields c !! o) as [h|] eqn:Ho; [|by apply (miss_spec c w F L)].
    destruct (hit_spec c w F L live o h Hv Hlt Hsz Ho) as (c' & L' & Hr & Hv'). exists h, c', F, L'. split; [|done].
    unfold acquire. rewrite (c_bind_run _ _ c (max_code_ c) c) by done. unfold size_of in Hsz.
    rewrite (proj2 (Z.ltb_ge _ _)) by done. rewrite (c_bind_run _ _ _ _ _ Hr). done.
  - destruct (oversize_spec c w F L live o Hv ltac:(lia)) as (h & c' & Hr & Hv'). exists h, c', F, L. split; [|done].
    unfold acquire. rewrite (c_bind_run _ _ c (max_code_ c) c) by done. unfold size_of in Hsz.
    rewrite (proj2 (Z.ltb_lt _ _)) by lia. done.
Qed.

(** A frame reads the analysis of its code. *)
Lemma live_reads c w F L live o h :
  inv c w [] F L live → (o, h) ∈ live → analysis_at c h (length (bitset o)) = Some (bitset o).
Proof.
  intros Hv Hin. pose proof Hv as []. pose proof (i_live0 _ Hin) as Hf. cbn in Hf.
  destruct (i_fields0 o h Hf) as [(i & n & nf & Hi & -> & Hs)|(b & -> & _ & Hb & _)].
  - destruct (i_used0 i Hi) as (o' & n' & nf' & Hs' & _ & Hsz & Hw). rewrite Hs in Hs'. injection Hs' as <- _ _.
    pose proof (bitset_fits c w o i_geo0 Hsz). pose proof (part_range _ _ _ _ _ _ i Hv ltac:(set_solver)).
    destruct i_geo0 as (_ & Gw & _ & _ & _ & _ & Ga). unfold analysis_at, handle_of.
    replace (i * (8 * w)) with (i * w * 8) by lia. rewrite Z.div_mul by lia. cbn zeta.
    rewrite (proj2 (Nat.leb_le _ _)) by nia. f_equal. exact Hw.
  - cbn. by rewrite Hb.
Qed.

(** ** The constructor *)

Lemma lookup_init_meta n i :
  (i < n)%nat → init_meta n !! i = Some (with_free (if (S i <? n)%nat then Z.of_nat (S i) else -1) fresh_slot).
Proof. intros Hi. unfold init_meta. by rewrite list_lookup_fmap, lookup_seq_lt. Qed.

Lemma slot_init_meta n i : 0 ≤ i < Z.of_nat n →
  slot_in (init_meta n) i = Some (with_free (if i + 1 <? Z.of_nat n then i + 1 else -1) fresh_slot).
Proof.
  intros Hi. unfold slot_in. rewrite (proj2 (Z.leb_le 0 i)), lookup_init_meta by lia. do 2 f_equal.
  destruct (Nat.ltb_spec (S (Z.to_nat i)) n), (Z.ltb_spec (i + 1) (Z.of_nat n)); lia.
Qed.

Lemma length_init_meta n : length (init_meta n) = n.
Proof. unfold init_meta. by rewrite length_fmap, length_seq. Qed.

Lemma slot_init_inv n i s : slot_in (init_meta n) i = Some s →
  0 ≤ i < Z.of_nat n ∧ s = with_free (if i + 1 <? Z.of_nat n then i + 1 else -1) fresh_slot.
Proof.
  intros Hs. assert (Hr : 0 ≤ i < Z.of_nat n) by (rewrite <- (length_init_meta n); apply slot_in_range; eauto).
  split; [done|]. rewrite slot_init_meta in Hs by done. by injection Hs.
Qed.

Lemma fseg_init n k : 0 ≤ k ≤ Z.of_nat n →
  fseg (init_meta n) (if k <? Z.of_nat n then k else -1) (seqZ k (Z.of_nat n - k)).
Proof.
  intros Hk. remember (Z.to_nat (Z.of_nat n - k)) as d eqn:Hd. revert k Hk Hd.
  induction d as [|d IH]; intros k Hk Hd.
  - rewrite seqZ_nil by lia. cbn. rewrite (proj2 (Z.ltb_ge _ _)) by lia. done.
  - rewrite seqZ_cons by lia. cbn [fseg]. rewrite (proj2 (Z.ltb_lt _ _)) by lia. split; [done|].
    exists None, 0, (if k + 1 <? Z.of_nat n then k + 1 else -1). rewrite slot_init_meta by lia. split; [done|].
    replace (Z.pred (Z.of_nat n - k)) with (Z.of_nat n - Z.succ k) by lia. apply (IH (Z.succ k)); lia.
Qed.

(** A cache whose slots are fresh and whose fields are null. *)
Lemma inv_fresh c w n :
  geometry c w → num_slots_ c = Z.of_nat n → meta_ c = init_meta n → free_head_ c = 0 →
  lru_head_ c = -1 → lru_tail_ c = -1 → oversize_ c = [] → (∀ o, fields c !! o = None) →
  inv c w [] (seqZ 0 (Z.of_nat n)) [] [].
Proof.
  intros Hg Hn Hm Hf Hh Ht Ho Hfl.
  assert (Hs : ∀ i s, slot_at c i = Some s → 0 ≤ i < Z.of_nat n ∧ owner s = None ∧ pin s = 0 ∧ in_lru s = false).
  { intros i s Hs. rewrite slot_at_in, Hm in Hs. apply slot_init_inv in Hs as [? ->]. done. }
  constructor; try done.
  - rewrite Hh, Ht. split_and!; [constructor|done..|]. intros i s Hi. by apply (Hs i).
  - rewrite Hm, Hf. pose proof (fseg_init n 0 ltac:(lia)) as Hfs. rewrite Z.sub_0_r in Hfs.
    destruct Hg as (_ & _ & _ & _ & Gn & _). rewrite (proj2 (Z.ltb_lt _ _)) in Hfs by lia. done.
  - by rewrite Hn, app_nil_r.
  - intros i Hi. cbn in Hi. apply elem_of_seqZ in Hi. rewrite slot_at_in, Hm, slot_init_meta by lia. by eexists.
  - intros i Hi. by apply elem_of_nil in Hi.
  - intros i o k nf Hi. apply core_slot in Hi as (s & Hi & [= _ <- _]). by apply (Hs i) in Hi as (_ & _ & -> & _).
  - intros o h Hfo. by rewrite Hfl in Hfo.
  - intros p Hp. by apply elem_of_nil in Hp.
  - intros o Hin. rewrite Ho in Hin. by apply elem_of_nil in Hin.
Qed.

(** ** Block teardown *)

(** Freed fields only go from a handle to null. *)
Definition fewer (f f' : gmap Z handle) (gone : Z → Prop) : Prop :=
  ∀ o h, f' !! o = Some h → f !! o = Some h ∧ ¬ gone o.

Lemma release_all_spec owners c :
  (∀ o off, o ∈ owners → fields c !! o ≠ Some (InArena off)) →
  ∃ f' h', release_all owners c = Ok (tt, with_heap h' (with_fields f' c)) ∧
    fewer (fields c) f' (λ o, o ∈ owners).
Proof.
  revert c. induction owners as [|o owners IH]; intros c Hov; cbn [release_all].
  { exists (fields c), (heap c). split; [by destruct c|]. intros o h Ho. split; [done|]. by intros ?%elem_of_nil. }
  rewrite (c_bind_run _ _ c (fields c !! o) c) by done.
  assert (∃ h1, w_release (fields c !! o) c = Ok (tt, with_heap h1 c)) as (h1 & Hr).
  { destruct (fields c !! o) as [[off|b]|] eqn:Ho; cbn.
    - exfalso. by apply (Hov o off); [left|].
    - by eexists.
    - exists (heap c). by destruct c. }
  rewrite (c_bind_run _ _ _ _ _ Hr). rewrite (c_bind_run _ _ _ tt _ eq_refl).
  change (partial_alter (λ _, None) o (fields (with_heap h1 c))) with (delete o (fields c)).
  set (c1 := with_fields _ _). destruct (IH c1) as (f' & h' & Hrun & Hfew).
  { intros o' off Hin. cbn. intros [_ H]%lookup_delete_Some. by apply (Hov o' off); [right|]. }
  exists f', h'. split; [exact Hrun|]. intros o' h Ho'. apply Hfew in Ho' as [Ho' Hn].
  cbn in Ho'. apply lookup_delete_Some in Ho' as [Hne Ho']. split; [done|]. by intros [->|?]%elem_of_cons.
Qed.

(** A slot as the constructor leaves it. *)
Definition renewed (n i : Z) : Slot := with_free (if i + 1 <? n then i + 1 else -1) fresh_slot.

(** The body of the loop on one slot. *)
Lemma reset_slot_run k i c s :
  slot_at c i = Some s →
  reset_slots (S k) i c =
    reset_slots k (i + 1)
      (with_meta (<[Z.to_nat i := renewed (num_slots_ c) i]> (meta_ c))
        (with_fields (match owner s with Some o => delete o (fields c) | None => fields c end) c)).
Proof.
  intros Hs. pose proof Hs as Hs'. rewrite slot_at_in in Hs'. pose proof (slot_in_nonneg _ _ _ Hs') as Hi.
  cbn [reset_slots]. rewrite (c_bind_run _ _ c s c) by (by apply meta_run).
  set (f' := match owner s with Some o => delete o (fields c) | None => fields c end).
  set (c1 := with_meta (alter (with_owner None) (Z.to_nat i) (meta_ c)) (with_fields f' c)).
  assert (H1 : match owner s with Some o => set_field o None;; meta_set i (with_owner None) | None => skip end c = Ok (tt, c1)).
  { unfold c1, f'. destruct (owner s) as [o|] eqn:Ho.
    - rewrite (c_bind_run _ _ c tt _ eq_refl). exact (meta_set_run (with_fields (delete o (fields c)) c) i _ s Hs).
    - replace (alter (with_owner None) (Z.to_nat i) (meta_ c)) with (meta_ c); [by destruct c|]. apply list_eq. intros j.
      destruct (decide (j = Z.to_nat i)) as [->|]; [|by rewrite list_lookup_alter_ne].
      rewrite list_lookup_alter_eq. unfold slot_in in Hs'. rewrite (proj2 (Z.leb_le 0 i)) in Hs' by done. rewrite Hs'.
      cbn. f_equal. destruct s. cbn in Ho. by subst. }
  rewrite (c_bind_run _ _ _ _ _ H1).
  assert (Hs1 : slot_in (meta_ c1) i = Some (with_owner None s)) by (cbn; by rewrite slot_in_alter, decide_True, Hs' by done).
  rewrite (set_step _ _ _ _ _ Hs1).
  do 3 (erewrite set_step; [|cbn; rewrite !slot_in_alter, !decide_True, Hs' by done; reflexivity]).
  rewrite (c_bind_run (gets num_slots_) _ _ _ _ eq_refl).
  erewrite set_step; [|cbn; rewrite !slot_in_alter, !decide_True, Hs' by done; reflexivity].
  f_equal. cbn [meta_ with_meta c1 with_fields]. unfold with_meta, with_fields. cbn. f_equal.
  apply list_eq. intros j. unfold slot_in in Hs'. rewrite (proj2 (Z.leb_le 0 i)) in Hs' by done.
  destruct (decide (j = Z.to_nat i)) as [->|].
  - rewrite list_lookup_insert_eq by (by eapply lookup_lt_Some).
    rewrite !list_lookup_alter_eq, Hs'. done.
  - rewrite list_lookup_insert_ne by done. by rewrite !list_lookup_alter_ne.
Qed.

Lemma reset_slots_spec k i c :
  0 ≤ i → i + Z.of_nat k = num_slots_ c → Z.of_nat (length (meta_ c)) = num_slots_ c →
  (∀ j, 0 ≤ j < i → slot_at c j = Some (renewed (num_slots_ c) j)) →
  ∃ m' f', reset_slots k i c = Ok (tt, with_meta m' (with_fields f' c)) ∧
    length m' = length (meta_ c) ∧
    (∀ j, 0 ≤ j < num_slots_ c → slot_in m' j = Some (renewed (num_slots_ c) j)) ∧
    fewer (fields c) f' (λ o, ∃ j s, i ≤ j ∧ slot_at c j = Some s ∧ owner s = Some o).
Proof.
  revert i c. induction k as [|k IH]; intros i c Hi Hk Hlen Hdone.
  { exists (meta_ c), (fields c). split; [by destruct c|]. split_and!; [done|intros j Hj; apply Hdone; lia|].
    intros o h Ho. split; [done|]. intros (j & s & Hj & Hs & _). rewrite slot_at_in in Hs.
    pose proof (proj2 (slot_in_range (meta_ c) j) ltac:(eauto)). lia. }
  assert (is_Some (slot_at c i)) as [s Hs] by (rewrite slot_at_in; apply slot_in_range; lia).
  rewrite (reset_slot_run k i c s Hs). set (c1 := with_meta _ _).
  assert (Hs1 : ∀ j, slot_at c1 j = if decide (j = i) then Some (renewed (num_slots_ c) i) else slot_at c j).
  { intros j. rewrite !slot_at_in. cbn. unfold slot_in. destruct (Z.leb_spec 0 j).
    - destruct (decide (j = i)) as [->|]; [apply list_lookup_insert_eq; lia|apply list_lookup_insert_ne; lia].
    - rewrite decide_False by lia. done. }
  destruct (IH (i + 1) c1) as (m' & f' & Hr & Hlen' & Hall & Hfew).
  - lia.
  - cbn. lia.
  - cbn. by rewrite length_insert.
  - intros j Hj. rewrite Hs1. destruct (decide (j = i)) as [->|]; [done|]. apply Hdone. lia.
  - exists m', f'. split; [exact Hr|]. split_and!; [cbn in Hlen'; by rewrite length_insert in Hlen'|done|].
    intros o h Ho. apply Hfew in Ho as [Ho Hn]. cbn in Ho.
    assert (Hown : fields c !! o = Some h ∧ owner s ≠ Some o).
    { destruct (owner s) as [o'|]; [|done]. apply lookup_delete_Some in Ho as [? ?]. split; [done|congruence]. }
    destruct Hown as [Hfo Hso]. split; [done|]. intros (j & sj & Hj & Hsj & Hoj).
    destruct (decide (j = i)) as [->|]; [congruence|]. apply Hn. exists j, sj.
    split_and!; [lia| |done]. by rewrite Hs1, decide_False.
Qed.

Lemma reset_spec c w F L :
  inv c w [] F L [] → ∃ c' F', reset c = Ok (tt, c') ∧ inv c' w [] F' [] [] ∧
    (∀ o, fields c' !! o = None).
Proof.
  intros Hv. pose proof Hv as []. unfold reset, release_oversize.
  destruct (release_all_spec (oversize_ c) c) as (f1 & h1 & Hr1 & Hfew1).
  { intros o off Hin Ho. apply i_over0 in Hin. destruct (i_fields0 o _ Ho) as [(i & n & nf & Hi & _ & Hs)|(b & ? & _)]; [|done].
    destruct (i_used0 i Hi) as (o' & n' & nf' & Hs' & _ & Hsz & _). rewrite Hs in Hs'. injection Hs' as <- _ _. lia. }
  set (c1 := with_oversize [] (with_heap h1 (with_fields f1 c))).
  assert (H1 : (l ← gets oversize_; release_all l;; modify (with_oversize [])) c = Ok (tt, c1)).
  { rewrite (c_bind_run _ _ c _ c eq_refl). by rewrite (c_bind_run _ _ _ _ _ Hr1). }
  rewrite (c_bind_run _ _ _ _ _ H1). rewrite (c_bind_run _ _ c1 (num_slots_ c) c1) by done.
  pose proof i_geo0 as (Gb & Gw & Gm & Gc & Gn & Gl & Ga).
  destruct (reset_slots_spec (Z.to_nat (num_slots_ c)) 0 c1) as (m' & f' & Hr & Hlen & Hall & Hfew).
  { lia. } { cbn. lia. } { done. } { lia. }
  rewrite (c_bind_run _ _ _ _ _ Hr). eexists _, (seqZ 0 (Z.of_nat (Z.to_nat (num_slots_ c)))). split; [reflexivity|].
  assert (Hnone : ∀ o, f' !! o = None).
  { intros o. destruct (f' !! o) as [h|] eqn:Ho; [|done]. apply Hfew in Ho as [Ho Hn2]. cbn in Ho.
    apply Hfew1 in Ho as [Ho Hn1]. destruct (i_fields0 o h Ho) as [(i & n & nf & Hi & _ & Hs)|(b & _ & _ & _ & ?)]; [|done].
    apply core_slot in Hs as (s & Hs & [= Hso _ _]). exfalso. apply Hn2. exists i, s. split_and!; [|exact Hs|done].
    pose proof (part_range _ _ _ _ _ _ i Hv ltac:(set_solver)). lia. }
  cbn in Hlen. split; [|done]. apply (inv_fresh _ w (Z.to_nat (num_slots_ c))); cbn; try done; [|lia|].
  - split_and!; cbn; try done; lia.
  - apply list_eq. intros j. destruct (decide (j < Z.to_nat (num_slots_ c))%nat) as [Hj|Hj].
    + pose proof (Hall (Z.of_nat j) ltac:(cbn; lia)) as Ha. unfold slot_in in Ha.
      rewrite (proj2 (Z.leb_le 0 _)), Nat2Z.id in Ha by lia. rewrite Ha.
      pose proof (slot_init_meta (Z.to_nat (num_slots_ c)) (Z.of_nat j) ltac:(lia)) as Hi. unfold slot_in in Hi.
      rewrite (proj2 (Z.leb_le 0 _)), Nat2Z.id in Hi by lia. rewrite Hi. unfold renewed. cbn. by rewrite Z2Nat.id by lia.
    + rewrite !lookup_ge_None_2; [done|rewrite length_init_meta; lia|lia].
Qed.

End Invariant.

(** ** Frames over the cache *)

(** A frame acquires the analysis of its contract, runs, and releases it; frames nest.
    The cache is torn down between blocks, when no frame runs. *)
Inductive event :=
| Enter (o : Z)
| Leave
| Teardown.

Section Frames.
Context (code_of : Z → bytes).

Definition frames : Type := list (Z * option handle).

Definition step (e : event) (st : Cache * frames) : res (Cache * frames) :=
  let '(c, live) := st in
  match e, live with
  | Enter o, _ => '(h, c) ← acquire o (code_of o) c; Ok (c, (o, h) :: live)
  | Leave, (_, h) :: live => '(_, c) ← release h c; Ok (c, live)
  | Leave, [] => Fatal "no frame"
  | Teardown, _ => '(_, c) ← reset c; Ok (c, live)
  end.

Fixpoint run (es : list event) (st : Cache * frames) : res (Cache * frames) :=
  match es with
  | [] => Ok st
  | e :: es => st ← step e st; run es st
  end.

(** Frames nest at most [n] deep, and teardown finds none. *)
Fixpoint nested (n depth : nat) (es : list event) : bool :=
  match es with
  | [] => true
  | Enter _ :: es => (depth <? n)%nat && nested n (S depth) es
  | Leave :: es => match depth with O => false | S d => nested n d es end
  | Teardown :: es => (depth =? 0)%nat && nested n depth es
  end.

Lemma step_keeps e c live c' live' : step e (c, live) = Ok (c', live') → num_slots_ c' = num_slots_ c.
Proof.
  intros H. destruct e as [o| |]; cbn in H.
  - destruct (acquire o (code_of o) c) as [[h c1]|] eqn:Ha; [|done]. cbn in H. injection H as <- _.
    by apply keeps_acquire in Ha as [_ ?].
  - destruct live as [|[o h] live]; [done|]. destruct (release h c) as [[u c1]|] eqn:Hr; [|done]. cbn in H.
    injection H as <- _. by apply keeps_release in Hr as [_ ?].
  - destruct (reset c) as [[u c1]|] eqn:Hr; [|done]. cbn in H. injection H as <- _. by apply keeps_reset in Hr as [_ ?].
Qed.

Context (code_nonempty : ∀ o, code_of o ≠ []).

Lemma frames_inv es n c w F L live :
  inv code_of c w [] F L live → num_slots_ c = Z.of_nat n → nested n (length live) es = true →
  ∃ c' F' L' live', run es (c, prod_map id Some <$> live) = Ok (c', prod_map id Some <$> live') ∧
    inv code_of c' w [] F' L' live'.
Proof using code_nonempty.
  revert c F L live. induction es as [|e es IH]; intros c F L live Hv Hn Hd; [by exists c, F, L, live|].
  cbn [nested] in Hd. cbn [run]. destruct e as [o| |].
  - apply andb_prop in Hd as [Hlt%Nat.ltb_lt Hd].
    destruct (acquire_spec code_of code_nonempty c w F L live o Hv) as (h & c1 & F1 & L1 & Ha & Hv1); [lia|].
    assert (Hst : step (Enter o) (c, prod_map id Some <$> live) = Ok (c1, prod_map id Some <$> ((o, h) :: live)))
      by (cbn -[acquire]; by rewrite Ha).
    rewrite Hst. apply (IH c1 F1 L1 _ Hv1); [|done]. by rewrite (step_keeps _ _ _ _ _ Hst).
  - destruct live as [|[o h] live]; [done|]. cbn [length] in Hd.
    destruct (release_spec code_of code_nonempty c w F L live o h Hv) as (c1 & Hr & Hv1).
    assert (Hst : step Leave (c, prod_map id Some <$> ((o, h) :: live)) = Ok (c1, prod_map id Some <$> live))
      by (cbn -[release]; by rewrite Hr).
    rewrite Hst. apply (IH c1 F L live Hv1); [|done]. by rewrite (step_keeps _ _ _ _ _ Hst).
  - apply andb_prop in Hd as [H0%Nat.eqb_eq Hd]. apply nil_length_inv in H0 as ->.
    destruct (reset_spec code_of code_nonempty c w F L Hv) as (c1 & F1 & Hr & Hv1 & _).
    assert (Hst : step Teardown (c, prod_map id Some <$> []) = Ok (c1, prod_map id Some <$> []))
      by (cbn -[reset]; by rewrite Hr).
    rewrite Hst. apply (IH c1 F1 [] [] Hv1); [|done]. by rewrite (step_keeps _ _ _ _ _ Hst).
Qed.

End Frames.

Lemma cache_inv code_of n max c :
  (0 < n)%nat → Z.of_nat n < 2 ^ 32 → 0 < max →
  analysis_cache (Z.of_nat n * ((max + 63) / 64 * 8)) ((max + 63) / 64 * 8) max = Ok c →
  num_slots_ c = Z.of_nat n ∧ inv code_of c ((max + 63) / 64) [] (seqZ 0 (Z.of_nat n)) [] [].
Proof.
  intros Hn Hlt Hm. set (w := (max + 63) / 64).
  assert (Hw : 0 < w) by (apply Z.div_str_pos; lia).
  unfold analysis_cache. rewrite Z.div_mul by lia. rewrite (proj2 (Z.eqb_neq _ _)) by lia. cbn zeta.
  intros [= <-]. split; [done|]. apply (inv_fresh code_of _ w n); cbn; try done.
  - split_and!; cbn; try done; try lia.
    + rewrite length_init_meta. lia.
    + rewrite length_replicate, Z.mul_assoc, Z.div_mul by lia. lia.
  - by rewrite Nat2Z.id.
Qed.

(** C23.  A cache of [n] slots sized for the largest code serves any nesting of at most
    [n] frames, and any number of contracts, without failing: no slot is missing, no access
    leaves the arena or the slot table, and the frames that run hold handles through which
    each reads the jump-target bitset of its own code.  Eviction never takes the analysis
    of a frame that runs, whether its code fits a slot or not. *)
Theorem frames_read_their_analysis code_of n max c es :
  (∀ o, code_of o ≠ []) → (0 < n)%nat → Z.of_nat n < 2 ^ 32 → 0 < max →
  analysis_cache (Z.of_nat n * ((max + 63) / 64 * 8)) ((max + 63) / 64 * 8) max = Ok c →
  nested n 0 es = true →
  ∃ c' live, run code_of es (c, []) = Ok (c', live) ∧
    ∀ o h, (o, h) ∈ live → ∃ h', h = Some h' ∧
      analysis_at c' h' (length (Jumpdest.build_jumpdest_bitset (code_of o))) =
        Some (Jumpdest.build_jumpdest_bitset (code_of o)).
Proof.
  intros Hc Hn Hlt Hm Hcache Hd. destruct (cache_inv code_of n max c Hn Hlt Hm Hcache) as [Hs Hv].
  destruct (frames_inv code_of Hc es n c _ _ [] [] Hv Hs Hd) as (c' & F & L & live & Hr & Hv').
  exists c', (prod_map id Some <$> live). split; [done|].
  intros o h ((o' & h') & [= -> ->] & Hin)%list_elem_of_fmap. exists h'. split; [done|].
  exact (live_reads code_of Hc c' _ F L live o' h' Hv' Hin).
Qed.

(** Two slots of one word; contract [o] is one JUMPDEST after [o] bytes of other code.
    Contract 3 evicts contract 1, contract 70 does not fit a slot. *)
Definition sample_code (o : Z) : bytes := replicate (Z.to_nat (o mod 128)) Byte.x01 ++ [Byte.x5b].
Definition sample_events : list event :=
  [Enter 1; Leave; Enter 2; Enter 2; Leave; Leave; Enter 2; Enter 3; Leave; Enter 70].

Lemma frames_read_their_analysis_witness :
  ∃ c c' live, analysis_cache 16 8 64 = Ok c ∧ run sample_code sample_events (c, []) = Ok (c', live) ∧
    (∀ o h, (o, h) ∈ live → ∃ h', h = Some h' ∧
      analysis_at c' h' (length (Jumpdest.build_jumpdest_bitset (sample_code o))) =
        Some (Jumpdest.build_jumpdest_bitset (sample_code o))).
Proof.
  eexists. destruct (frames_read_their_analysis sample_code 2 64 (match analysis_cache 16 8 64 with Ok c => c | Fatal _ => mkCache 0 0 0 [] [] [] 0 0 0 ∅ [] end)
    sample_events) as (c' & live & Hr & Hl).
  - intros o. unfold sample_code. by destruct (replicate _ _).
  - lia.
  - lia.
  - lia.
  - reflexivity.
  - reflexivity.
  - exists c', live. split; [reflexivity|]. split; [exact Hr|exact Hl].
Defined.

(** The run above ends with contract 2 in slot 1, contract 70 on the heap, and contract 1
    evicted. *)
Example sample_run :
  match analysis_cache 16 8 64 with
  | Ok c =>
      match run sample_code sample_events (c, []) with
      | Ok (c', live) =>
          live = [(70, Some (OnHeap 0)); (2, Some (InArena 8))] ∧ fields c' !! 1 = None ∧
          fields c' !! 3 = Some (InArena 0) ∧ analysis_at c' (InArena 8) 1 = Some [4]
      | Fatal _ => False
      end
  | Fatal _ => False
  end.
Proof. vm_compute. auto. Qed.

End AnalysisCache.
