(* ===== verification/EvmMem.v ===== *)
(** EVM memory ([src/zevm/evm_mem.hpp], [evm_mem.cpp]): the process-wide manager
    that carves every frame's memory out of two arenas, picked by the parity of
    the call depth, and zeroes recycled bytes only when a frame grows over them.

    The manager refines a stack of independent byte arrays: a frame sees zeroes
    where it has not written, no frame writes into another one, and a frame's
    memory is back unchanged when its callee is gone. *)

From stdpp Require Import base numbers list strings gmap.
From S2P Require Import Prelude.

Module EvmMem.

(** ** State *)

Definition kMaxMemPerTx : Z := Z.shiftl 1 25.
Definition kMemBlockSize : Z := Z.shiftl 1 26.
Definition kMaxMemHandles : nat := 1025.
Definition kWord : Z := 32.

Inductive MemError := MemOk | OutOfGas.
Record MemGas := mkMemGas { err : MemError; gas : Z }.

#[global] Instance MemError_eq_dec : EqDecision MemError.
Proof. solve_decision. Defined.

(** [start_ptr] as the offset into the frame's zone. *)
Record MemHandle := mkHandle { start_ptr : Z; size_ : Z }.

(** An arena: absent offsets hold the zero of the BSS. *)
Abbreviation zone := (gmap Z byte).

Record EVMMem := mkMem {
  s_zone : zone * zone;
  s_handles : list MemHandle;
  s_cur : Z;
  s_firstClean : Z * Z }.

Definition initial : EVMMem := mkMem (∅, ∅) (replicate kMaxMemHandles (mkHandle 0 0)) (-1) (0, 0).

(** [x[z]] of a two-element array, [z] the parity of a depth. *)
Definition sel {A} (z : bool) (p : A * A) : A := if z then p.2 else p.1.
Definition upd {A} (z : bool) (v : A) (p : A * A) : A * A := if z then (p.1, v) else (v, p.2).

Definition peek (m : zone) (off : Z) : byte := default Byte.x00 (m !! off).

Fixpoint peeks (m : zone) (off : Z) (n : nat) : bytes :=
  match n with
  | O => []
  | S n => peek m off :: peeks m (off + 1) n
  end.
Fixpoint pokes (m : zone) (off : Z) (src : bytes) : zone :=
  match src with
  | [] => m
  | b :: src => pokes (<[off := b]> m) (off + 1) src
  end.

(** [memcpy] and [memset] within an arena; outside it the source has undefined
    behaviour. *)
Definition in_zone (off n : Z) : bool :=
  (0 <=? off) && (0 <=? n) && (off + n <=? kMemBlockSize).
Definition zone_read (m : zone) (off n : Z) : res bytes :=
  if in_zone off n then Ok (peeks m off (Z.to_nat n)) else Fatal "arena read out of bounds".
Definition zone_write (m : zone) (off : Z) (src : bytes) : res zone :=
  if in_zone off (Z.of_nat (length src)) then Ok (pokes m off src)
  else Fatal "arena write out of bounds".

(** [s_handles[i]]: a negative or too large index is undefined behaviour. *)
Definition handle (i : Z) (m : EVMMem) : res MemHandle :=
  if i <? 0 then Fatal "handle index out of range" else vec_get (s_handles m) (Z.to_nat i).
Definition set_handle (i : Z) (h : MemHandle) (m : EVMMem) : res EVMMem :=
  if i <? 0 then Fatal "handle index out of range" else
    hs ← vec_set (s_handles m) (Z.to_nat i) h;
    mret (mkMem (s_zone m) hs (s_cur m) (s_firstClean m)).

(** ** Operations *)

Definition round_up_word (n : Z) : Z := Z.ldiff (u64 (n + (kWord - 1))) (kWord - 1).
Definition mem_cost (words : Z) : Z := 3 * words + (words * words) / 512.

(** Where frame [s_cur] starts: in clean space, else above the frame two levels
    down, else at the start of the arena. *)
Definition frame_start (s_cur : Z) (m : EVMMem) : res Z :=
  let z := Z.odd s_cur in
  if sel z (s_firstClean m) <? kMemBlockSize - kMaxMemPerTx then mret (sel z (s_firstClean m))
  else if 2 <=? s_cur then h ← handle (s_cur - 2) m; mret (start_ptr h + size_ h)
  else mret 0.

Definition createMemory (m : EVMMem) : res (Z * EVMMem) :=
  let s_cur := s_cur m + 1 in
  let m := mkMem (s_zone m) (s_handles m) s_cur (s_firstClean m) in
  start ← frame_start s_cur m;
  m ← set_handle s_cur (mkHandle start 0) m;
  mret (s_cur, m).

Definition destroyMemory (m : EVMMem) : EVMMem :=
  mkMem (s_zone m) (s_handles m) (s_cur m - 1) (s_firstClean m).

Definition ensure (need_bytes g : Z) (m : EVMMem) : res (MemGas * EVMMem) :=
  h ← handle (s_cur m) m;
  if need_bytes <=? size_ h then mret (mkMemGas MemOk g, m) else
  let new_size := round_up_word need_bytes in
  if kMaxMemPerTx <? new_size then mret (mkMemGas OutOfGas g, m) else
  let z := Z.odd (s_cur m) in
  let off := start_ptr h in
  if kMemBlockSize <? off + new_size then mret (mkMemGas OutOfGas g, m) else
  let old_words := size_ h / kWord in
  let new_words := new_size / kWord in
  let delta := mem_cost new_words - mem_cost old_words in
  if g <? delta then mret (mkMemGas OutOfGas g, m) else
  let exp_start := off + size_ h in
  let exp_end := off + new_size in
  let dirty_end := Z.min exp_end (sel z (s_firstClean m)) in
  zn ← (if exp_start <? dirty_end then
          zone_write (sel z (s_zone m)) exp_start (replicate (Z.to_nat (dirty_end - exp_start)) Byte.x00)
        else mret (sel z (s_zone m)));
  let clean := if sel z (s_firstClean m) <? exp_end then exp_end else sel z (s_firstClean m) in
  m ← set_handle (s_cur m) (mkHandle off new_size)
        (mkMem (upd z zn (s_zone m)) (s_handles m) (s_cur m) (upd z clean (s_firstClean m)));
  mret (mkMemGas MemOk (g - delta), m).

(** [readBytes] also returns what it copied to [dst]. *)
Definition readBytes (addr len g : Z) (m : EVMMem) : res (MemGas * bytes * EVMMem) :=
  if len =? 0 then mret (mkMemGas MemOk g, [], m) else
  if (kMaxMemPerTx <? addr) || (kMaxMemPerTx <? len) then mret (mkMemGas OutOfGas g, [], m) else
  '(r, m) ← ensure (addr + len) g m;
  if decide (err r = MemOk) then
    h ← handle (s_cur m) m;
    bs ← zone_read (sel (Z.odd (s_cur m)) (s_zone m)) (start_ptr h + addr) len;
    mret (r, bs, m)
  else mret (r, [], m).

(** The store through [s_handles[s_cur].start_ptr + addr]. *)
Definition put_bytes (addr : Z) (src : bytes) (m : EVMMem) : res EVMMem :=
  h ← handle (s_cur m) m;
  let z := Z.odd (s_cur m) in
  zn ← zone_write (sel z (s_zone m)) (start_ptr h + addr) src;
  mret (mkMem (upd z zn (s_zone m)) (s_handles m) (s_cur m) (s_firstClean m)).

Definition writeBytes (addr : Z) (src : bytes) (g : Z) (m : EVMMem) : res (MemGas * EVMMem) :=
  let len := Z.of_nat (length src) in
  if len =? 0 then mret (mkMemGas MemOk g, m) else
  if (kMaxMemPerTx <? addr) || (kMaxMemPerTx <? len) then mret (mkMemGas OutOfGas g, m) else
  '(r, m) ← ensure (addr + len) g m;
  if decide (err r = MemOk) then m ← put_bytes addr src m; mret (r, m) else mret (r, m).

Definition expand (addr len g : Z) (m : EVMMem) : res (MemGas * EVMMem) :=
  if len =? 0 then mret (mkMemGas MemOk g, m) else
  if (kMaxMemPerTx <? addr) || (kMaxMemPerTx <? len) then mret (mkMemGas OutOfGas g, m) else
  ensure (addr + len) g m.

Definition writeByte (addr : Z) (value : byte) (g : Z) (m : EVMMem) : res (MemGas * EVMMem) :=
  if kMaxMemPerTx <? addr then mret (mkMemGas OutOfGas g, m) else
  '(r, m) ← ensure (addr + 1) g m;
  if decide (err r = MemOk) then m ← put_bytes addr [value] m; mret (r, m) else mret (r, m).

Definition size (m : EVMMem) : res Z := h ← handle (s_cur m) m; mret (size_ h).
Definition depth (m : EVMMem) : Z := s_cur m.

(** The raw pointer [data(addr)]: the bytes behind it, and a copy to it (the
    host's output into the caller's memory). *)
Definition data_read (addr n : Z) (m : EVMMem) : res bytes :=
  h ← handle (s_cur m) m;
  zone_read (sel (Z.odd (s_cur m)) (s_zone m)) (start_ptr h + addr) n.

(** ** Specification: a stack of byte arrays *)

(** The bytes of frame [k]. *)
Definition contents (m : EVMMem) (k : nat) : bytes :=
  match s_handles m !! k with
  | Some h => peeks (sel (Nat.odd k) (s_zone m)) (start_ptr h) (Z.to_nat (size_ h))
  | None => []
  end.
Definition frames (m : EVMMem) : list bytes := contents m <$> seq 0 (Z.to_nat (s_cur m + 1)).

Definition blen (l : bytes) : Z := Z.of_nat (length l).

(** Growing one array: to the next multiple of 32, with zeroes, for the price of
    the Yellow Paper; 32 MiB is out of reach. *)
Definition words_up (n : Z) : Z := (n + 31) / 32.
(** The Yellow Paper's C_mem: 3 gas per word and the square of the words by 512. *)
Definition yellow_cost (a : Z) : Z := 3 * a + a ^ 2 / 512.
Lemma mem_cost_yellow a : mem_cost a = yellow_cost a.
Proof. unfold mem_cost, yellow_cost. by rewrite Z.pow_2_r. Qed.
Definition grow (need g : Z) (l : bytes) : option (bytes * Z) :=
  if need <=? blen l then Some (l, g) else
  let w := words_up need in
  let delta := yellow_cost w - yellow_cost (blen l / 32) in
  if kMaxMemPerTx <? 32 * w then None
  else if g <? delta then None
  else Some (l ++ replicate (Z.to_nat (32 * w - blen l)) Byte.x00, g - delta).

Definition overwrite (addr : Z) (src l : bytes) : bytes :=
  take (Z.to_nat addr) l ++ src ++ drop (Z.to_nat addr + length src) l.

(** ** Arenas *)

Lemma length_peeks m off n : length (peeks m off n) = n.
Proof. revert off. induction n as [|n IH]; intros off; [done|]. cbn. by rewrite IH. Qed.

Lemma peeks_ext m m' off n :
  (∀ i, off ≤ i < off + Z.of_nat n → peek m' i = peek m i) → peeks m' off n = peeks m off n.
Proof.
  revert off. induction n as [|n IH]; intros off H; [done|]. cbn.
  rewrite (H off), (IH (off + 1)); [done|intros; apply H; lia|lia].
Qed.

Lemma peeks_app m off a b : peeks m off (a + b) = peeks m off a ++ peeks m (off + Z.of_nat a) b.
Proof.
  revert off. induction a as [|a IH]; intros off; cbn [Nat.add peeks app]; [by rewrite Z.add_0_r|].
  rewrite IH. do 2 f_equal. f_equal. lia.
Qed.

Lemma peeks_zero m off n :
  (∀ i, off ≤ i < off + Z.of_nat n → peek m i = Byte.x00) → peeks m off n = replicate n Byte.x00.
Proof.
  revert off. induction n as [|n IH]; intros off H; [done|]. cbn.
  rewrite (H off), (IH (off + 1)); [done|intros; apply H; lia|lia].
Qed.

Lemma peek_pokes_out m off src i :
  ¬ (off ≤ i < off + Z.of_nat (length src)) → peek (pokes m off src) i = peek m i.
Proof.
  revert m off. induction src as [|b src IH]; intros m off H; [done|]. cbn [pokes].
  rewrite IH by (cbn in H; lia). unfold peek. rewrite lookup_insert_ne; [done|cbn in H; lia].
Qed.

Lemma peeks_pokes m off src : peeks (pokes m off src) off (length src) = src.
Proof.
  revert m off. induction src as [|b src IH]; intros m off; [done|]. cbn [pokes peeks length].
  rewrite IH. rewrite peek_pokes_out by lia. unfold peek. by rewrite lookup_insert_eq.
Qed.

Lemma peek_pokes_zero m off n i :
  off ≤ i < off + Z.of_nat n → peek (pokes m off (replicate n Byte.x00)) i = Byte.x00.
Proof.
  revert m off. induction n as [|n IH]; intros m off H; [lia|]. cbn [replicate pokes].
  destruct (Z.eq_dec i off) as [->|Hne]; [|apply IH; lia].
  rewrite peek_pokes_out by lia. unfold peek. by rewrite lookup_insert_eq.
Qed.

(** Writing inside the first [n] bytes is [overwrite]. *)
Lemma peeks_overwrite m s n addr src :
  0 ≤ addr → addr + Z.of_nat (length src) ≤ Z.of_nat n →
  peeks (pokes m (s + addr) src) s n = overwrite addr src (peeks m s n).
Proof.
  intros Ha Hn. set (a := Z.to_nat addr). set (c := (n - a - length src)%nat).
  assert (En : n = (a + (length src + c))%nat) by lia.
  assert (Ea : s + addr = s + Z.of_nat a) by lia. unfold overwrite. fold a.
  rewrite Ea, En, !peeks_app.
  rewrite (peeks_ext m _ s a) by (intros; apply peek_pokes_out; lia).
  rewrite peeks_pokes.
  rewrite (peeks_ext m _ (s + Z.of_nat a + Z.of_nat (length src)) c)
    by (intros; apply peek_pokes_out; lia).
  rewrite take_app_length' by (by rewrite length_peeks). f_equal. f_equal.
  rewrite app_assoc, drop_app_length'; [done|]. by rewrite length_app, !length_peeks.
Qed.

Lemma sel_upd_eq {A} z (v : A) p : sel z (upd z v p) = v.
Proof. by destruct z. Qed.
Lemma sel_upd_ne {A} z z' (v : A) p : z' ≠ z → sel z' (upd z v p) = sel z' p.
Proof. by destruct z, z'. Qed.

(** ** Invariant *)

Definition alive (m : EVMMem) (k : nat) : Prop := Z.of_nat k ≤ s_cur m.
Definition last_byte (h : MemHandle) : Z := start_ptr h + size_ h.

Record inv (m : EVMMem) : Prop := {
  inv_len : length (s_handles m) = kMaxMemHandles;
  inv_cur : -1 ≤ s_cur m < Z.of_nat kMaxMemHandles;
  inv_clean z : 0 ≤ sel z (s_firstClean m) ≤ kMemBlockSize;
  inv_zero z i : sel z (s_firstClean m) ≤ i → peek (sel z (s_zone m)) i = Byte.x00;
  inv_frame k h : alive m k → s_handles m !! k = Some h →
    0 ≤ start_ptr h ∧ 0 ≤ size_ h ≤ kMaxMemPerTx ∧ (32 | size_ h) ∧
    last_byte h ≤ sel (Nat.odd k) (s_firstClean m);
  inv_order k h h' : alive m (S (S k)) → s_handles m !! k = Some h →
    s_handles m !! S (S k) = Some h' → last_byte h ≤ start_ptr h';
  inv_place k h : alive m k → s_handles m !! k = Some h →
    start_ptr h < kMemBlockSize - kMaxMemPerTx ∨
    ∃ k' h', k = S (S k') ∧ s_handles m !! k' = Some h' ∧ start_ptr h = last_byte h' }.

Lemma inv_handle m k : inv m → alive m k → ∃ h, s_handles m !! k = Some h.
Proof.
  intros Hi Hk. apply lookup_lt_is_Some. rewrite (inv_len _ Hi). pose proof (inv_cur _ Hi).
  unfold alive in Hk. lia.
Qed.

Lemma handle_Ok m k h : s_handles m !! k = Some h → handle (Z.of_nat k) m = Ok h.
Proof.
  intros H. unfold handle. destruct (Z.ltb_spec (Z.of_nat k) 0); [lia|]. rewrite Nat2Z.id.
  by apply vec_get_Ok.
Qed.

Lemma odd_of_nat k : Z.odd (Z.of_nat k) = Nat.odd k.
Proof.
  apply eq_true_iff_eq. rewrite Z.odd_spec, Nat.odd_spec. split.
  - intros [j Hj]. exists (Z.to_nat j). lia.
  - intros [j Hj]. exists (Z.of_nat j). lia.
Qed.

(** Live frames of one zone are stacked without overlap. *)
Lemma same_zone_disjoint m j k h h' :
  inv m → alive m k → (j < k)%nat → Nat.odd j = Nat.odd k →
  s_handles m !! j = Some h → s_handles m !! k = Some h' → last_byte h ≤ start_ptr h'.
Proof.
  intros Hi. revert k h'. induction k as [k IH] using lt_wf_ind. intros h' Hk Hjk Hodd Hj Hk'.
  destruct k as [|[|k]]; [lia| |].
  { assert (j = 0%nat) as -> by lia. done. }
  destruct (Nat.eq_dec j k) as [->|Hne]; [by eapply inv_order|].
  assert (Nat.odd (S (S k)) = Nat.odd k) as E by (by rewrite Nat.odd_succ_succ).
  assert (j ≠ S k). { intros ->. rewrite Nat.odd_succ, E, <- Nat.negb_odd in Hodd. by destruct (Nat.odd k). }
  assert (Hl : alive m k) by (unfold alive in *; lia).
  destruct (inv_handle m k Hi) as [h2 H2]; [done|].
  etrans; [apply (IH k ltac:(lia) h2); [done|lia|congruence|done|done]|].
  pose proof (inv_order _ Hi _ _ _ Hk H2 Hk'). destruct (inv_frame _ Hi _ _ Hl H2) as (? & ? & _).
  unfold last_byte in *. lia.
Qed.

(** The sizes of the frames of [k]'s zone below it. *)
Fixpoint psum (sz : nat → Z) (k : nat) : Z :=
  match k with
  | S (S k) => psum sz k + sz k
  | _ => 0
  end.
Definition fsize (m : EVMMem) (k : nat) : Z :=
  match s_handles m !! k with Some h => size_ h | None => 0 end.

(** A frame starts in the lower half of its zone, or right above such a chain. *)
Lemma start_bound m k h :
  inv m → alive m k → s_handles m !! k = Some h →
  start_ptr h < kMemBlockSize - kMaxMemPerTx + psum (fsize m) k.
Proof.
  intros Hi. revert h. induction k as [k IH] using lt_wf_ind. intros h Hk Hh.
  assert (P : ∀ j, (j ≤ k)%nat → 0 ≤ psum (fsize m) j).
  { induction j as [j IHj] using lt_wf_ind. intros Hj. destruct j as [|[|j]]; [done|done|]. cbn.
    assert (Hl : alive m j) by (unfold alive in *; lia).
    destruct (inv_handle m j Hi) as [hj Ej]; [done|].
    destruct (inv_frame _ Hi _ _ Hl Ej) as (_ & ? & _). unfold fsize at 2. rewrite Ej.
    specialize (IHj j ltac:(lia) ltac:(lia)). lia. }
  destruct (inv_place _ Hi k h Hk Hh) as [Hl|(k' & h' & -> & Hh' & E)].
  { specialize (P k ltac:(lia)). lia. }
  cbn. unfold fsize at 2. rewrite Hh', E. unfold last_byte.
  specialize (IH k' ltac:(lia) h' ltac:(unfold alive in *; lia) Hh'). lia.
Qed.

(** ** The current frame *)

(** The current frame is number [k] with handle [h]. *)
Definition current (m : EVMMem) (k : nat) (h : MemHandle) : Prop :=
  s_cur m = Z.of_nat k ∧ s_handles m !! k = Some h.

Lemma inv_current m : inv m → 0 ≤ s_cur m → ∃ k h, current m k h.
Proof.
  intros Hi Hc. destruct (inv_handle m (Z.to_nat (s_cur m)) Hi) as [h Hh]; [unfold alive; lia|].
  exists (Z.to_nat (s_cur m)), h. split; [lia|done].
Qed.

Lemma frames_current m k h :
  current m k h →
  frames m = (contents m <$> seq 0 k) ++ [peeks (sel (Nat.odd k) (s_zone m)) (start_ptr h) (Z.to_nat (size_ h))].
Proof.
  intros [Ec Hh]. unfold frames. rewrite Ec. replace (Z.to_nat (Z.of_nat k + 1)) with (S k) by lia.
  rewrite seq_S, fmap_app. cbn. unfold contents at 2. by rewrite Hh.
Qed.

(** A change of the current frame: its handle keeps the start, its zone changes
    only from there on. *)
Definition touch (z : bool) (k : nat) (h : MemHandle) (zn : zone) (clean : Z) (m : EVMMem) : EVMMem :=
  mkMem (upd z zn (s_zone m)) (<[k := h]> (s_handles m)) (s_cur m) (upd z clean (s_firstClean m)).

Lemma touch_below m k h0 h zn clean :
  inv m → current m k h0 →
  (∀ i, i < start_ptr h0 → peek zn i = peek (sel (Nat.odd k) (s_zone m)) i) →
  ∀ j, (j < k)%nat → contents (touch (Nat.odd k) k h zn clean m) j = contents m j.
Proof.
  intros Hi [Ec Hh] Hz j Hj. unfold contents. cbn. rewrite list_lookup_insert_ne by lia.
  destruct (s_handles m !! j) as [hj|] eqn:Ej; [|done].
  destruct (decide (Nat.odd j = Nat.odd k)) as [E|E]; [|by rewrite sel_upd_ne].
  rewrite E, sel_upd_eq. apply peeks_ext. intros i Hr. apply Hz.
  pose proof (same_zone_disjoint m j k hj h0 Hi ltac:(unfold alive; lia) Hj E Ej Hh).
  destruct (inv_frame _ Hi j hj ltac:(unfold alive; lia) Ej) as (_ & ? & _).
  unfold last_byte in *. lia.
Qed.

Lemma touch_current m k h0 h zn clean :
  inv m → current m k h0 → current (touch (Nat.odd k) k h zn clean m) k h.
Proof.
  intros Hi [Ec Hh]. split; [done|]. cbn. apply list_lookup_insert_eq. by eapply lookup_lt_Some.
Qed.

Lemma touch_frames m k h0 h zn clean :
  inv m → current m k h0 →
  (∀ i, i < start_ptr h0 → peek zn i = peek (sel (Nat.odd k) (s_zone m)) i) →
  frames (touch (Nat.odd k) k h zn clean m) =
    (contents m <$> seq 0 k) ++ [peeks zn (start_ptr h) (Z.to_nat (size_ h))].
Proof.
  intros Hi Hc Hz. rewrite (frames_current _ k h) by (by eapply touch_current).
  cbn. rewrite sel_upd_eq. f_equal. apply list_fmap_ext. intros i j [-> Hj]%lookup_seq.
  eapply touch_below; [done..|lia].
Qed.

Lemma touch_inv m k h0 h zn clean :
  inv m → current m k h0 →
  start_ptr h = start_ptr h0 → 0 ≤ size_ h ≤ kMaxMemPerTx → (32 | size_ h) →
  last_byte h ≤ clean ≤ kMemBlockSize → sel (Nat.odd k) (s_firstClean m) ≤ clean →
  (∀ i, clean ≤ i → peek zn i = Byte.x00) →
  inv (touch (Nat.odd k) k h zn clean m).
Proof.
  intros Hi [Ec Hh] Es Hs Hd Hl Hcl Hz.
  assert (Hup : ∀ z, sel z (s_firstClean m) ≤ sel z (upd (Nat.odd k) clean (s_firstClean m))).
  { intros z. destruct (decide (z = Nat.odd k)) as [->|]; [by rewrite sel_upd_eq|by rewrite sel_upd_ne]. }
  assert (Hlk : ∀ j x, alive m j → <[k := h]> (s_handles m) !! j = Some x →
    (j = k ∧ x = h) ∨ ((j < k)%nat ∧ s_handles m !! j = Some x)).
  { intros j x Hj Hx. destruct (Nat.eq_dec j k) as [->|Hne].
    - rewrite list_lookup_insert_eq in Hx by (by eapply lookup_lt_Some). left. by simplify_eq.
    - rewrite list_lookup_insert_ne in Hx by lia. right. unfold alive in Hj. split; [lia|done]. }
  split; cbn.
  - rewrite length_insert. apply Hi.
  - apply Hi.
  - intros z. destruct (decide (z = Nat.odd k)) as [->|]; [|rewrite sel_upd_ne by done; apply Hi].
    rewrite sel_upd_eq. pose proof (inv_clean _ Hi (Nat.odd k)). lia.
  - intros z i. destruct (decide (z = Nat.odd k)) as [->|]; [rewrite !sel_upd_eq; apply Hz|].
    rewrite !sel_upd_ne by done. apply Hi.
  - intros j x Hj H. destruct (Hlk j x Hj H) as [[-> ->]|[Hlt Hx]].
    + destruct (inv_frame _ Hi k h0 Hj Hh) as (? & _). rewrite sel_upd_eq, Es. split_and!; first [done|lia].
    + destruct (inv_frame _ Hi j x Hj Hx) as (? & ? & ? & ?). specialize (Hup (Nat.odd j)).
      split_and!; first [done|lia].
  - intros j x x' Hj Hx H. destruct (Hlk _ x' Hj H) as [[<- ->]|[Hlt Hx']].
    + rewrite list_lookup_insert_ne in Hx by lia. rewrite Es. by eapply inv_order.
    + rewrite list_lookup_insert_ne in Hx by lia. by eapply inv_order.
  - intros j x Hj H. destruct (Hlk j x Hj H) as [[-> ->]|[Hlt Hx]].
    + rewrite Es. destruct (inv_place _ Hi k h0 Hj Hh) as [|(k' & h' & -> & ? & ?)]; [by left|].
      right. exists k', h'. rewrite list_lookup_insert_ne by lia. auto.
    + destruct (inv_place _ Hi j x Hj Hx) as [|(k' & h' & -> & ? & ?)]; [by left|].
      right. exists k', h'. rewrite list_lookup_insert_ne by lia. auto.
Qed.

(** ** Frames in and out *)

(** The start of a new frame [k] is clean or above the frame two levels down. *)
Definition well_placed (m : EVMMem) (k : nat) (st : Z) : Prop :=
  0 ≤ st ≤ sel (Nat.odd k) (s_firstClean m) ∧
  (∀ k' h', k = S (S k') → s_handles m !! k' = Some h' → last_byte h' ≤ st) ∧
  (st < kMemBlockSize - kMaxMemPerTx ∨
    ∃ k' h', k = S (S k') ∧ s_handles m !! k' = Some h' ∧ st = last_byte h').

Lemma frame_start_spec m k c :
  inv m → Z.of_nat k = s_cur m + 1 →
  ∃ st, frame_start (Z.of_nat k) (mkMem (s_zone m) (s_handles m) c (s_firstClean m)) = Ok st ∧
    well_placed m k st.
Proof.
  intros Hi Hk. pose proof (inv_clean _ Hi (Nat.odd k)) as Hcl. unfold frame_start.
  cbn [s_firstClean]. rewrite odd_of_nat.
  assert (Hend : ∀ k' h', k = S (S k') → s_handles m !! k' = Some h' →
    0 ≤ last_byte h' ≤ sel (Nat.odd k) (s_firstClean m)).
  { intros k' h' E Hh'. destruct (inv_frame _ Hi k' h' ltac:(unfold alive; lia) Hh') as (? & ? & _ & ?).
    rewrite E, Nat.odd_succ_succ. unfold last_byte in *. lia. }
  destruct (Z.ltb_spec (sel (Nat.odd k) (s_firstClean m)) (kMemBlockSize - kMaxMemPerTx)) as [Hc|Hc].
  { eexists. split; [done|]. split; [lia|]. split; [|by left]. intros k' h' E Hh'. by eapply Hend. }
  destruct (Z.leb_spec 2 (Z.of_nat k)) as [H2|H2].
  - destruct (inv_handle m (k - 2) Hi) as [h Hh]; [unfold alive; lia|].
    replace (Z.of_nat k - 2) with (Z.of_nat (k - 2)) by lia. rewrite (handle_Ok _ _ h) by done.
    eexists. split; [done|]. assert (E : k = S (S (k - 2))) by lia.
    split; [by eapply Hend|]. split; [|right; by exists (k - 2)%nat, h].
    intros k' h' E' Hh'. assert (k' = (k - 2)%nat) as -> by lia. simplify_eq. unfold last_byte. lia.
  - exists 0. split; [done|]. split; [lia|]. split; [intros; lia|]. by left.
Qed.

(** Pushing an empty frame. *)
Definition push (k : nat) (st : Z) (m : EVMMem) : EVMMem :=
  mkMem (s_zone m) (<[k := mkHandle st 0]> (s_handles m)) (Z.of_nat k) (s_firstClean m).

Lemma push_inv m k st :
  inv m → Z.of_nat k = s_cur m + 1 → (k < kMaxMemHandles)%nat → well_placed m k st → inv (push k st m).
Proof.
  intros Hi Ek Hk (Hst & Hord & Hpl).
  assert (Hlen : (k < length (s_handles m))%nat) by (by rewrite (inv_len _ Hi)).
  assert (Hlk : ∀ j x, alive (push k st m) j → s_handles (push k st m) !! j = Some x →
    (j = k ∧ x = mkHandle st 0) ∨ (alive m j ∧ s_handles m !! j = Some x)).
  { intros j x Hj Hx. cbn in Hx. unfold alive in *. cbn in Hj. destruct (Nat.eq_dec j k) as [->|Hne].
    - rewrite list_lookup_insert_eq in Hx by done. left. by simplify_eq.
    - rewrite list_lookup_insert_ne in Hx by lia. right. split; [lia|done]. }
  split.
  - cbn. rewrite length_insert. apply Hi.
  - cbn. lia.
  - apply Hi.
  - apply Hi.
  - intros j x Hj H. destruct (Hlk j x Hj H) as [[-> ->]|[Hlt' Hx]]; [|by apply Hi].
    cbn. unfold last_byte. cbn. split_and!; try lia; [done|apply Z.divide_0_r].
  - intros j x x' Hj Hx H. cbn in Hx. destruct (Hlk _ x' Hj H) as [[E ->]|[Hlt' Hx']].
    + rewrite list_lookup_insert_ne in Hx by lia. cbn. by eapply Hord.
    + unfold alive in Hlt'. rewrite list_lookup_insert_ne in Hx by lia. by eapply inv_order.
  - intros j x Hj H. destruct (Hlk j x Hj H) as [[-> ->]|[Hlt' Hx]]; cbn.
    + destruct Hpl as [|(k' & h' & -> & ? & ?)]; [by left|]. right. exists k', h'.
      rewrite list_lookup_insert_ne by lia. auto.
    + destruct (inv_place _ Hi j x Hlt' Hx) as [|(k' & h' & -> & ? & ?)]; [by left|]. right.
      exists k', h'. unfold alive in Hlt'. rewrite list_lookup_insert_ne by lia. auto.
Qed.

Lemma createMemory_spec m :
  inv m → s_cur m + 1 < Z.of_nat kMaxMemHandles →
  ∃ m', createMemory m = Ok (s_cur m + 1, m') ∧ inv m' ∧ s_cur m' = s_cur m + 1 ∧
    frames m' = frames m ++ [[]].
Proof.
  intros Hi Hlt. pose proof (inv_cur _ Hi) as Hcur. set (k := Z.to_nat (s_cur m + 1)).
  assert (Ek : Z.of_nat k = s_cur m + 1) by lia.
  destruct (frame_start_spec m k (Z.of_nat k) Hi Ek) as (st & Est & Hst).
  assert (Hk : (k < length (s_handles m))%nat) by (rewrite (inv_len _ Hi); lia).
  exists (push k st m). split_and!; [|apply push_inv; [done|done|lia|done]|done|].
  - unfold createMemory. rewrite <- Ek, Est. cbn [mbind res_bind]. unfold set_handle.
    destruct (Z.ltb_spec (Z.of_nat k) 0); [lia|]. rewrite Nat2Z.id. cbn [s_handles].
    rewrite (proj2 (vec_set_Ok _ (<[k := mkHandle st 0]> (s_handles m)) _ _)) by done. done.
  - rewrite (frames_current _ k (mkHandle st 0)) by (split; [done|]; cbn; by apply list_lookup_insert_eq).
    unfold frames. fold k. f_equal. apply list_fmap_ext. intros i j [-> Hj]%lookup_seq. unfold contents.
    cbn. by rewrite list_lookup_insert_ne by lia.
Qed.

Lemma destroyMemory_spec m :
  inv m → 0 ≤ s_cur m →
  inv (destroyMemory m) ∧ frames (destroyMemory m) = removelast (frames m).
Proof.
  intros Hi Hc. destruct (inv_current m Hi Hc) as (k & h & Hk). split.
  - assert (A : ∀ j, alive (destroyMemory m) j → alive m j) by (unfold alive; cbn; lia).
    pose proof (inv_cur _ Hi). destruct Hi as [I1 I2 I3 I4 I5 I6 I7].
    split; cbn; [done|lia|done|done|..]; eauto.
  - rewrite (frames_current m k h Hk), removelast_last. unfold frames. cbn.
    rewrite (proj1 Hk). replace (Z.to_nat (Z.of_nat k - 1 + 1)) with k by lia. done.
Qed.

(** ** Growth *)

Lemma round_up_word_eq n : 0 ≤ n ≤ kMemBlockSize → round_up_word n = 32 * words_up n.
Proof.
  intros Hn. unfold round_up_word, u64, words_up, kWord. change kMemBlockSize with 67108864 in Hn.
  rewrite Z.mod_small by lia. change (32 - 1) with (Z.ones 5).
  rewrite Z.ldiff_ones_r by lia. rewrite Z.shiftl_mul_pow2, Z.shiftr_div_pow2 by lia.
  change (2 ^ 5) with 32. change (Z.ones 5) with 31. lia.
Qed.

Lemma words_up_bounds n : n ≤ 32 * words_up n < n + 32.
Proof. unfold words_up. Z.to_euclidean_division_equations. lia. Qed.

(** The bytes the manager exposes are zero, those below are kept. *)
Definition cleaned (zn : zone) (from upto clean : Z) : res zone :=
  let dirty_end := Z.min upto clean in
  if from <? dirty_end then zone_write zn from (replicate (Z.to_nat (dirty_end - from)) Byte.x00)
  else mret zn.

Lemma cleaned_spec zn from upto clean :
  0 ≤ from ≤ upto → clean ≤ kMemBlockSize → (∀ i, clean ≤ i → peek zn i = Byte.x00) →
  ∃ zn', cleaned zn from upto clean = Ok zn' ∧
    (∀ i, i < from → peek zn' i = peek zn i) ∧
    (∀ i, from ≤ i < upto ∨ clean ≤ i → peek zn' i = Byte.x00).
Proof.
  intros Hf Hc Hz. unfold cleaned. destruct (Z.ltb_spec from (Z.min upto clean)) as [Hlt|Hge].
  - unfold zone_write, in_zone. rewrite length_replicate.
    rewrite (proj2 (Z.leb_le 0 _)), (proj2 (Z.leb_le 0 _)), (proj2 (Z.leb_le _ _)) by lia.
    eexists. split; [done|]. split.
    + intros i Hi. apply peek_pokes_out. lia.
    + intros i Hi. destruct (decide (from ≤ i < Z.min upto clean)).
      * apply peek_pokes_zero. lia.
      * rewrite peek_pokes_out by (rewrite length_replicate; lia). apply Hz. lia.
  - eexists. split; [done|]. split; [done|]. intros i Hi. apply Hz. lia.
Qed.

(** [m] cannot grow its current frame to [n] bytes within the arena. *)
Definition exhausted (m : EVMMem) (k : nat) (n : Z) : Prop :=
  kMaxMemPerTx < psum (fsize m) k + n.

Definition of_grow (r : MemGas) (l : bytes) (g : Z) (o : option (bytes * Z)) (l' : bytes) : Prop :=
  match o with
  | Some (l1, g1) => r = mkMemGas MemOk g1 ∧ l' = l1
  | None => r = mkMemGas OutOfGas g ∧ l' = l
  end.

Lemma touch_zone_frames m k h n zn :
  inv m → current m k h → 0 ≤ size_ h ≤ n →
  (∀ i, i < last_byte h → peek zn i = peek (sel (Nat.odd k) (s_zone m)) i) →
  (∀ i, last_byte h ≤ i < start_ptr h + n → peek zn i = Byte.x00) →
  peeks zn (start_ptr h) (Z.to_nat n) =
    peeks (sel (Nat.odd k) (s_zone m)) (start_ptr h) (Z.to_nat (size_ h)) ++
    replicate (Z.to_nat (n - size_ h)) Byte.x00.
Proof.
  intros Hi Hc Hn Hlow Hnew. unfold last_byte in *.
  replace (Z.to_nat n) with (Z.to_nat (size_ h) + Z.to_nat (n - size_ h))%nat by lia.
  rewrite peeks_app. f_equal; [apply peeks_ext|apply peeks_zero]; intros i Hr; [apply Hlow|apply Hnew]; lia.
Qed.

(** The bytes of the current frame. *)
Definition top_bytes (m : EVMMem) (k : nat) (h : MemHandle) : bytes :=
  peeks (sel (Nat.odd k) (s_zone m)) (start_ptr h) (Z.to_nat (size_ h)).

Lemma grow_step m k h n :
  inv m → current m k h → size_ h ≤ n ≤ kMaxMemPerTx → (32 | n) → start_ptr h + n ≤ kMemBlockSize →
  let clean := sel (Nat.odd k) (s_firstClean m) in
  ∃ zn, cleaned (sel (Nat.odd k) (s_zone m)) (start_ptr h + size_ h) (start_ptr h + n) clean = Ok zn ∧
    let m' := touch (Nat.odd k) k (mkHandle (start_ptr h) n) zn
                (if clean <? start_ptr h + n then start_ptr h + n else clean) m in
    let l' := top_bytes m k h ++ replicate (Z.to_nat (n - size_ h)) Byte.x00 in
    inv m' ∧ top_bytes m' k (mkHandle (start_ptr h) n) = l' ∧
    frames m' = (contents m <$> seq 0 k) ++ [l'].
Proof.
  intros Hi Hc Hn Hd Hcap clean. pose proof Hc as [Ec Hh].
  destruct (inv_frame _ Hi k h ltac:(unfold alive; lia) Hh) as (Hs0 & Hs & _ & Hlast).
  pose proof (inv_clean _ Hi (Nat.odd k)) as Hcl.
  destruct (cleaned_spec (sel (Nat.odd k) (s_zone m)) (start_ptr h + size_ h) (start_ptr h + n) clean)
    as (zn & Ezn & Hlow & Hzero); [lia|lia|apply Hi|].
  exists zn. split; [done|]. cbv zeta. set (clean' := if clean <? _ then _ else _).
  assert (Hcl' : clean ≤ clean' ∧ start_ptr h + n ≤ clean' ≤ kMemBlockSize).
  { unfold clean'. fold clean in Hcl. destruct (Z.ltb_spec clean (start_ptr h + n)); lia. }
  assert (Epk : peeks zn (start_ptr h) (Z.to_nat n) =
    top_bytes m k h ++ replicate (Z.to_nat (n - size_ h)) Byte.x00).
  { apply touch_zone_frames; try done; [lia|]. intros i Hr. apply Hzero. left. done. }
  split_and!.
  - eapply touch_inv; try done; cbn; try lia; [unfold last_byte; cbn; lia|]. intros i Hr. apply Hzero. lia.
  - unfold top_bytes at 1. cbn. by rewrite sel_upd_eq.
  - rewrite (touch_frames m k h) by (try done; intros; apply Hlow; lia). cbn. by rewrite Epk.
Qed.

Lemma set_handle_touch m k h zn clean :
  inv m → s_cur m = Z.of_nat k → (k < kMaxMemHandles)%nat →
  set_handle (Z.of_nat k) h
    (mkMem (upd (Nat.odd k) zn (s_zone m)) (s_handles m) (Z.of_nat k) (upd (Nat.odd k) clean (s_firstClean m)))
  = Ok (touch (Nat.odd k) k h zn clean m).
Proof.
  intros Hi Ec Hk. unfold set_handle. destruct (Z.ltb_spec (Z.of_nat k) 0); [lia|]. rewrite Nat2Z.id.
  cbn [s_handles]. rewrite (proj2 (vec_set_Ok _ (<[k := h]> (s_handles m)) _ _)); [unfold touch; by rewrite Ec|].
  split; [|done]. by rewrite (inv_len _ Hi).
Qed.

(** What [ensure] leaves: the frames below as they were, and the current one
    grown as [grow] says. *)
Definition ensured (m : EVMMem) (k : nat) (h : MemHandle) (need g : Z) (r : MemGas) (m' : EVMMem) : Prop :=
  ∃ h', current m' k h' ∧ start_ptr h' = start_ptr h ∧ (err r = MemOk → need ≤ size_ h') ∧
    frames m' = (contents m <$> seq 0 k) ++ [top_bytes m' k h'] ∧
    of_grow r (top_bytes m k h) g (grow need g (top_bytes m k h)) (top_bytes m' k h').

Lemma ensured_same m k h need g r :
  current m k h → of_grow r (top_bytes m k h) g (grow need g (top_bytes m k h)) (top_bytes m k h) →
  (err r = MemOk → need ≤ size_ h) → ensured m k h need g r m.
Proof. intros Hc Hr Hn. exists h. split_and!; try done. by apply frames_current. Qed.

(** A branch that leaves the manager as it is. *)
Ltac keep := intros Hsame; eexists _, _; split; [reflexivity|]; split; [done|]; left; by apply Hsame.

Lemma ensure_spec m k h need g :
  inv m → current m k h → 0 ≤ need ≤ kMemBlockSize →
  ∃ r m', ensure need g m = Ok (r, m') ∧ inv m' ∧
    (ensured m k h need g r m' ∨
     (r = mkMemGas OutOfGas g ∧ m' = m ∧ size_ h < need ∧ exhausted m k (32 * words_up need))).
Proof.
  intros Hi Hc Hneed. pose proof Hc as [Ec Hh].
  destruct (inv_frame _ Hi k h ltac:(unfold alive; lia) Hh) as (Hs0 & Hs & _ & Hlast).
  assert (Hl : blen (top_bytes m k h) = size_ h) by (unfold blen, top_bytes; rewrite length_peeks; lia).
  pose proof (ensured_same m k h need g) as Hsame. pose proof (words_up_bounds need) as Hup.
  unfold ensured in *. unfold ensure. rewrite Ec, (handle_Ok m k h Hh). cbn [mbind res_bind].
  unfold grow in *. rewrite <- !mem_cost_yellow in *. rewrite Hl in *. revert Hsame.
  destruct (Z.leb_spec need (size_ h)) as [Hle|Hgt]; [keep|].
  rewrite round_up_word_eq by done.
  destruct (Z.ltb_spec kMaxMemPerTx (32 * words_up need)) as [Hmax|Hmax]; [keep|].
  rewrite odd_of_nat.
  destruct (Z.ltb_spec kMemBlockSize (start_ptr h + 32 * words_up need)) as [Hcap|Hcap].
  { intros _. eexists _, _. split; [done|]. split; [done|]. right. split_and!; try done.
    unfold exhausted. pose proof (start_bound m k h Hi ltac:(unfold alive; lia) Hh). lia. }
  replace (32 * words_up need / kWord) with (words_up need)
    by (unfold kWord; rewrite Z.mul_comm, Z.div_mul; lia).
  change kWord with 32. set (delta := mem_cost (words_up need) - mem_cost (size_ h / 32)).
  destruct (Z.ltb_spec g delta) as [Hg|Hg]; [keep|]. intros _.
  destruct (grow_step m k h (32 * words_up need) Hi Hc) as (zn & Ezn & Hi' & Htop & Hfr);
    [lia|by exists (words_up need); lia|lia|].
  unfold cleaned in Ezn. cbv zeta in Ezn. rewrite Ezn. cbn [mbind res_bind].
  rewrite set_handle_touch by (try done; eapply lookup_lt_Some in Hh; rewrite (inv_len _ Hi) in Hh; done).
  eexists _, _. split; [done|]. split; [done|]. left. eexists.
  split; [by eapply touch_current|]. cbn [start_ptr size_ err]. rewrite Hfr, Htop. split_and!; done || lia.
Qed.

(** ** Access *)

Lemma peeks_slice m s n addr len :
  0 ≤ addr → 0 ≤ len → addr + len ≤ Z.of_nat n →
  peeks m (s + addr) (Z.to_nat len) = take (Z.to_nat len) (drop (Z.to_nat addr) (peeks m s n)).
Proof.
  intros Ha Hl Hn. set (a := Z.to_nat addr). set (b := Z.to_nat len).
  replace n with (a + (b + (n - a - b)))%nat by lia. replace addr with (Z.of_nat a) by lia.
  rewrite !peeks_app. rewrite drop_app_length' by (by rewrite length_peeks).
  by rewrite take_app_length' by (by rewrite length_peeks).
Qed.

Lemma current_in_zone m k h addr n :
  inv m → current m k h → 0 ≤ addr → 0 ≤ n → addr + n ≤ size_ h →
  in_zone (start_ptr h + addr) n = true.
Proof.
  intros Hi [Ec Hh] Ha Hn Hs. destruct (inv_frame _ Hi k h ltac:(unfold alive; lia) Hh) as (? & _ & _ & Hl).
  pose proof (inv_clean _ Hi (Nat.odd k)). unfold in_zone, last_byte in *.
  rewrite (proj2 (Z.leb_le 0 _)), (proj2 (Z.leb_le 0 _)), (proj2 (Z.leb_le _ _)) by lia. done.
Qed.

Lemma current_read m k h addr len :
  inv m → current m k h → 0 ≤ addr → 0 ≤ len → addr + len ≤ size_ h →
  data_read addr len m = Ok (take (Z.to_nat len) (drop (Z.to_nat addr) (top_bytes m k h))).
Proof.
  intros Hi Hc Ha Hn Hs. pose proof Hc as [Ec Hh]. unfold data_read. rewrite Ec, (handle_Ok m k h Hh).
  cbn [mbind res_bind]. unfold zone_read. rewrite (current_in_zone m k h) by done.
  unfold top_bytes. by rewrite odd_of_nat, (peeks_slice _ _ (Z.to_nat (size_ h))) by lia.
Qed.

Lemma put_bytes_spec m k h addr src :
  inv m → current m k h → 0 ≤ addr → addr + blen src ≤ size_ h →
  ∃ m', put_bytes addr src m = Ok m' ∧ inv m' ∧
    frames m' = (contents m <$> seq 0 k) ++ [overwrite addr src (top_bytes m k h)].
Proof.
  intros Hi Hc Ha Hs. pose proof Hc as [Ec Hh]. unfold put_bytes, blen in *.
  rewrite Ec, (handle_Ok m k h Hh). cbn [mbind res_bind]. rewrite odd_of_nat.
  unfold zone_write. rewrite (current_in_zone m k h) by (done || lia). cbn [mbind res_bind].
  set (zn := pokes _ _ _). destruct (inv_frame _ Hi k h ltac:(unfold alive; lia) Hh) as (? & ? & ? & ?).
  assert (Et : mkMem (upd (Nat.odd k) zn (s_zone m)) (s_handles m) (Z.of_nat k) (s_firstClean m) =
    touch (Nat.odd k) k h zn (sel (Nat.odd k) (s_firstClean m)) m).
  { unfold touch. rewrite (list_insert_id _ _ _ Hh), Ec. f_equal.
    destruct (s_firstClean m). by destruct (Nat.odd k). }
  rewrite Et. eexists. split; [done|]. unfold last_byte in *. split.
  - eapply touch_inv; try done; [split; [done|apply Hi]|].
    intros i Hr. unfold zn. rewrite peek_pokes_out by lia. by apply Hi.
  - rewrite (touch_frames m k h) by (try done; intros; apply peek_pokes_out; lia). unfold zn, top_bytes.
    by rewrite peeks_overwrite by lia.
Qed.

(** ** The client's view *)

(** The bytes of the current frame, and the frames under it. *)
Definition top (m : EVMMem) : bytes := List.last (frames m) [].
Definition below (m : EVMMem) : list bytes := removelast (frames m).

(** A frame is live; the manager only grew or rewrote the current frame. *)
Definition ready (m : EVMMem) : Prop := inv m ∧ 0 ≤ s_cur m.
Record mem_le (m m' : EVMMem) : Prop := {
  ml_cur : s_cur m' = s_cur m;
  ml_below : below m' = below m;
  ml_size : blen (top m) ≤ blen (top m') }.
Definition covers (addr n : Z) (m : EVMMem) : Prop := n = 0 ∨ (0 ≤ addr ∧ 0 ≤ n ∧ addr + n ≤ blen (top m)).

#[global] Instance mem_le_preorder : PreOrder mem_le.
Proof.
  split; [by intros m|]. intros a b c [C1 B1 S1] [C2 B2 S2]. split; [congruence|congruence|lia].
Qed.

Lemma covers_le addr n m m' : mem_le m m' → covers addr n m → covers addr n m'.
Proof. intros [_ _ H] [->|Hc]; [by left|right; lia]. Qed.

Lemma current_view m k h :
  inv m → current m k h →
  top m = top_bytes m k h ∧ below m = contents m <$> seq 0 k ∧ blen (top m) = size_ h ∧
  0 ≤ size_ h ≤ kMaxMemPerTx ∧ (32 | size_ h).
Proof.
  intros Hi Hc. destruct Hc as [Ec Hh]. unfold top, below. rewrite (frames_current m k h) by done.
  rewrite last_last, removelast_last. fold (top_bytes m k h).
  destruct (inv_frame _ Hi k h ltac:(unfold alive; lia) Hh) as (_ & Hs & Hd & _).
  split_and!; try done; [|lia|lia]. unfold blen, top_bytes. rewrite length_peeks. lia.
Qed.

(** A new state whose current frame is [l] over the same frames. *)
Lemma view_of m m' k h l :
  inv m → current m k h → inv m' → s_cur m' = s_cur m →
  frames m' = (contents m <$> seq 0 k) ++ [l] → size_ h ≤ blen l →
  ready m' ∧ mem_le m m' ∧ top m' = l.
Proof.
  intros Hi Hc Hi' Ec' Hf Hl. destruct (current_view m k h Hi Hc) as (_ & Eb & Es & _).
  destruct Hc as [Ec _]. unfold ready, top, below in *. rewrite Hf, last_last.
  split; [split; [done|lia]|]. split; [|done]. split; [done| |].
  - unfold below. rewrite Hf, removelast_last. by rewrite Eb.
  - unfold top at 2. rewrite Hf, last_last. unfold top. lia.
Qed.

Lemma mem_cost_mono a b : 0 ≤ a ≤ b → 0 ≤ mem_cost a ≤ mem_cost b.
Proof.
  intros H. unfold mem_cost. pose proof (Z.div_pos (a * a) 512 ltac:(nia) ltac:(lia)).
  pose proof (Z.div_le_mono (a * a) (b * b) 512 ltac:(lia) ltac:(nia)). lia.
Qed.

Lemma grow_bounds need g l l' g' :
  0 ≤ g → grow need g l = Some (l', g') → 0 ≤ g' ≤ g ∧ blen l ≤ blen l' ∧ need ≤ blen l'.
Proof.
  intros Hg H. unfold grow in H. rewrite <- !mem_cost_yellow in H. destruct (Z.leb_spec need (blen l)); [simplify_eq; lia|].
  pose proof (words_up_bounds need) as Hw. repeat case_match; simplify_eq.
  repeat match goal with H : (_ <? _) = false |- _ => apply Z.ltb_ge in H end.
  assert (0 ≤ blen l / 32 ≤ words_up need).
  { unfold blen in *. split; [apply Z.div_pos; lia|]. apply Z.div_le_upper_bound; lia. }
  pose proof (mem_cost_mono (blen l / 32) (words_up need) ltac:(lia)).
  unfold blen in *. rewrite length_app, length_replicate. lia.
Qed.

(** Growth as its callers see it. *)
Lemma ensure_client need g m :
  ready m → 0 ≤ need ≤ kMemBlockSize → 0 ≤ g →
  ∃ r m', ensure need g m = Ok (r, m') ∧ ready m' ∧ mem_le m m' ∧ 0 ≤ gas r ≤ g ∧
    (err r = MemOk → need ≤ blen (top m')).
Proof.
  intros [Hi Hc] Hn Hg. destruct (inv_current m Hi Hc) as (k & h & Hk).
  destruct (current_view m k h Hi Hk) as (Et & _ & Es & _).
  destruct (ensure_spec m k h need g Hi Hk Hn) as (r & m' & E & Hi' & He).
  exists r, m'. split; [done|]. destruct He as [(h' & Hk' & _ & Hok & Hf & Hgr)|(-> & -> & _)].
  - destruct (grow need g (top_bytes m k h)) as [[l g']|] eqn:Eg; destruct Hgr as [-> Hl].
    + destruct (grow_bounds _ _ _ _ _ Hg Eg) as (? & Hle & ?). rewrite Hl in Hf. rewrite <- Et in Hle.
      destruct (view_of m m' k h l Hi Hk Hi' ltac:(destruct Hk, Hk'; congruence) Hf ltac:(lia))
        as (? & ? & ->). split_and!; done || (cbn; lia).
    + rewrite Hl in Hf.
      destruct (view_of m m' k h _ Hi Hk Hi' ltac:(destruct Hk, Hk'; congruence) Hf
        ltac:(rewrite <- Et; lia)) as (? & ? & _).
      split_and!; done || (cbn; lia).
  - split_and!; done || (cbn; lia).
Qed.

(** The operands' range checks, then the growth. *)
Lemma grow_to addr len g m :
  ready m → 0 ≤ addr → 0 < len → 0 ≤ g → (kMaxMemPerTx <? addr) || (kMaxMemPerTx <? len) = false →
  ∃ r m', ensure (addr + len) g m = Ok (r, m') ∧ ready m' ∧ mem_le m m' ∧ 0 ≤ gas r ≤ g ∧
    (err r = MemOk → covers addr len m').
Proof.
  intros Hm Ha Hl Hg [Hb1%Z.ltb_ge Hb2%Z.ltb_ge]%orb_false_iff.
  change kMaxMemPerTx with 33554432 in *.
  destruct (ensure_client (addr + len) g m Hm) as (r & m' & ? & ? & ? & ? & Hok);
    [change kMemBlockSize with 67108864; lia|done|].
  exists r, m'. split_and!; try done; [lia|lia|]. intros E. right. specialize (Hok E). lia.
Qed.

Lemma expand_client addr len g m :
  ready m → 0 ≤ addr → 0 ≤ len → 0 ≤ g →
  ∃ r m', expand addr len g m = Ok (r, m') ∧ ready m' ∧ mem_le m m' ∧ 0 ≤ gas r ≤ g ∧
    (err r = MemOk → covers addr len m').
Proof.
  intros Hm Ha Hl Hg. unfold expand. destruct (Z.eqb_spec len 0) as [->|Hne].
  { eexists _, _. split; [done|]. split_and!; try done; cbn; lia || by left. }
  destruct (_ || _) eqn:Hb; [|apply grow_to; done || lia].
  eexists _, _. split; [done|]. split_and!; done || (cbn; lia).
Qed.

(** A store inside the current frame. *)
Definition within (addr n : Z) (m : EVMMem) : Prop := 0 ≤ addr ∧ 0 ≤ n ∧ addr + n ≤ blen (top m).

Lemma covers_within addr n m : covers addr n m → n ≠ 0 → within addr n m.
Proof. intros [->|H]; done. Qed.
Lemma within_le addr n m m' : mem_le m m' → within addr n m → within addr n m'.
Proof. intros [_ _ H] [? ?]. split; lia. Qed.
Lemma within_sub addr n m a k : within addr n m → 0 ≤ a → 0 ≤ k → a + k ≤ n → within (addr + a) k m.
Proof. unfold within. lia. Qed.

Lemma overwrite_length addr src l :
  0 ≤ addr → addr + blen src ≤ blen l → blen (overwrite addr src l) = blen l.
Proof. unfold blen, overwrite. rewrite !length_app, length_take, length_drop. lia. Qed.

Lemma put_client addr src m :
  ready m → within addr (blen src) m → ∃ m', put_bytes addr src m = Ok m' ∧ ready m' ∧ mem_le m m' ∧
    top m' = overwrite addr src (top m).
Proof.
  intros [Hi Hc] [Ha Hw]. destruct (inv_current m Hi Hc) as (k & h & Hk).
  destruct (current_view m k h Hi Hk) as (Et & Eb & Es & Hs & _).
  destruct (put_bytes_spec m k h addr src Hi Hk Ha ltac:(lia)) as (m' & E & Hi' & Hf).
  exists m'. split; [done|]. rewrite Et.
  assert (Ec : s_cur m' = s_cur m).
  { unfold put_bytes in E. destruct (handle _ _); [|done]. cbn in E. destruct (zone_write _ _ _); [|done].
    by injection E as <-. }
  destruct (view_of m m' k h _ Hi Hk Hi' Ec Hf) as (? & ? & ?); [|by split_and!].
  rewrite overwrite_length; [rewrite <- Et; lia|done|]. rewrite <- Et. lia.
Qed.

Lemma read_client addr n m :
  ready m → within addr n m →
  data_read addr n m = Ok (take (Z.to_nat n) (drop (Z.to_nat addr) (top m))).
Proof.
  intros [Hi Hc] (Ha & Hn & Hw). destruct (inv_current m Hi Hc) as (k & h & Hk).
  destruct (current_view m k h Hi Hk) as (Et & _ & Es & _). rewrite Et. apply current_read; done || lia.
Qed.

Lemma readBytes_client addr len g m :
  ready m → 0 ≤ addr → 0 ≤ len → 0 ≤ g →
  ∃ r bs m', readBytes addr len g m = Ok (r, bs, m') ∧ ready m' ∧ mem_le m m' ∧ 0 ≤ gas r ≤ g ∧
    (err r = MemOk → blen bs = len).
Proof.
  intros Hm Ha Hl Hg. unfold readBytes. destruct (Z.eqb_spec len 0) as [->|Hne].
  { eexists _, _, _. split; [done|]. split_and!; try done; cbn; lia. }
  destruct (_ || _) eqn:Hb.
  { eexists _, _, _. split; [done|]. split_and!; done || (cbn; lia). }
  destruct (grow_to addr len g m Hm Ha ltac:(lia) Hg Hb) as (r & m' & -> & Hm' & Hle & Hr & Hok).
  cbn [mbind res_bind]. destruct (decide (err r = MemOk)) as [E|E]; cycle 1.
  { eexists _, _, _. split; [done|]. split_and!; done || lia. }
  pose proof (covers_within _ _ _ (Hok E) Hne) as Hw.
  pose proof (read_client addr len m' Hm' Hw) as Hd. unfold data_read in Hd. unfold within in Hw.
  destruct (handle (s_cur m') m'); [|done]. cbn [mbind res_bind] in *. rewrite Hd. cbn.
  eexists _, _, _. split; [done|]. split_and!; try done; try lia.
  intros _. unfold blen in *. rewrite length_take, length_drop. lia.
Qed.

Lemma writeBytes_client addr src g m :
  ready m → 0 ≤ addr → 0 ≤ g →
  ∃ r m', writeBytes addr src g m = Ok (r, m') ∧ ready m' ∧ mem_le m m' ∧ 0 ≤ gas r ≤ g.
Proof.
  intros Hm Ha Hg. unfold writeBytes. fold (blen src). destruct (Z.eqb_spec (blen src) 0) as [E0|Hne].
  { eexists _, _. split; [done|]. split_and!; try done; cbn; lia. }
  destruct (_ || _) eqn:Hb.
  { eexists _, _. split; [done|]. split_and!; done || (cbn; lia). }
  destruct (grow_to addr (blen src) g m Hm Ha ltac:(unfold blen in *; lia) Hg Hb)
    as (r & m' & -> & Hm' & Hle & Hr & Hok).
  cbn [mbind res_bind]. destruct (decide (err r = MemOk)) as [E|E]; cycle 1.
  { eexists _, _. split; [done|]. split_and!; done || lia. }
  destruct (put_client addr src m' Hm' (covers_within _ _ _ (Hok E) Hne)) as (m2 & -> & ? & ? & _).
  cbn. eexists _, _. split; [done|]. split_and!; try done; [by etrans|lia|lia].
Qed.

Lemma writeByte_client addr v g m :
  ready m → 0 ≤ addr → 0 ≤ g →
  ∃ r m', writeByte addr v g m = Ok (r, m') ∧ ready m' ∧ mem_le m m' ∧ 0 ≤ gas r ≤ g.
Proof.
  intros Hm Ha Hg. unfold writeByte. destruct (kMaxMemPerTx <? addr) eqn:Hb.
  { eexists _, _. split; [done|]. split_and!; done || (cbn; lia). }
  destruct (grow_to addr 1 g m Hm Ha ltac:(lia) Hg) as (r & m' & -> & Hm' & Hle & Hr & Hok).
  { by rewrite Hb. }
  cbn [mbind res_bind]. destruct (decide (err r = MemOk)) as [E|E]; cycle 1.
  { eexists _, _. split; [done|]. split_and!; done || lia. }
  destruct (put_client addr [v] m' Hm') as (m2 & -> & ? & ? & _).
  { apply (covers_within addr 1); [by apply Hok|lia]. }
  cbn. eexists _, _. split; [done|]. split_and!; try done; [by etrans|lia|lia].
Qed.

Lemma size_client m : ready m → size m = Ok (blen (top m)).
Proof.
  intros [Hi Hc]. destruct (inv_current m Hi Hc) as (k & h & Hk).
  destruct (current_view m k h Hi Hk) as (_ & _ & -> & _). unfold size. destruct Hk as [Ec Hh].
  by rewrite Ec, (handle_Ok _ _ _ Hh).
Qed.

(** ** Refinement *)

(** What a client can do; the gas operations report the gas left and, for a read,
    the bytes. *)
Inductive mem_op :=
| Create
| Destroy
| Read (addr len g : Z)
| Write (addr : Z) (src : bytes) (g : Z)
| WriteByte (addr : Z) (value : byte) (g : Z)
| Expand (addr len g : Z)
| Size.

Definition out : Type := MemGas * bytes * Z.
Definition nothing : out := (mkMemGas MemOk 0, [], 0).

Definition cstep (o : mem_op) (m : EVMMem) : res (out * EVMMem) :=
  match o with
  | Create => '(d, m) ← createMemory m; mret (mkMemGas MemOk 0, [], d, m)
  | Destroy => mret (nothing, destroyMemory m)
  | Read addr len g => '(r, bs, m) ← readBytes addr len g m; mret (r, bs, 0, m)
  | Write addr src g => '(r, m) ← writeBytes addr src g m; mret (r, [], 0, m)
  | WriteByte addr v g => '(r, m) ← writeByte addr v g m; mret (r, [], 0, m)
  | Expand addr len g => '(r, m) ← expand addr len g m; mret (r, [], 0, m)
  | Size => n ← size m; mret (mkMemGas MemOk 0, [], n, m)
  end.

(** The live memory of the current frame's parity stays within 32 MiB. *)
Definition fits (fs : list bytes) (need : Z) : bool :=
  (need <=? blen (List.last fs [])) ||
  (psum (λ j, blen (nth j fs [])) (length fs - 1) + 32 * words_up need <=? kMaxMemPerTx).

Definition aaccess (fs : list bytes) (addr len g : Z) (read : bytes → bytes) (write : bytes → bytes)
    : option (out * list bytes) :=
  if (addr <? 0) || (len <? 0) || (length fs =? 0)%nat then None
  else if len =? 0 then Some (mkMemGas MemOk g, [], 0, fs)
  else if (kMaxMemPerTx <? addr) || (kMaxMemPerTx <? len) then Some (mkMemGas OutOfGas g, [], 0, fs)
  else if negb (fits fs (addr + len)) then None
  else match grow (addr + len) g (List.last fs []) with
       | None => Some (mkMemGas OutOfGas g, [], 0, fs)
       | Some (l, g') => Some (mkMemGas MemOk g', read l, 0, removelast fs ++ [write l])
       end.

(** Independent byte arrays, the last one active; [None] when there is no frame
    to act on, no room for another frame, or more live memory than an arena half. *)
Definition astep (o : mem_op) (fs : list bytes) : option (out * list bytes) :=
  match o with
  | Create => if (length fs <? kMaxMemHandles)%nat
              then Some (mkMemGas MemOk 0, [], Z.of_nat (length fs), fs ++ [[]]) else None
  | Destroy => if (length fs =? 0)%nat then None else Some (nothing, removelast fs)
  | Read addr len g =>
      aaccess fs addr len g (λ l, take (Z.to_nat len) (drop (Z.to_nat addr) l)) (λ l, l)
  | Write addr src g => aaccess fs addr (blen src) g (λ _, []) (overwrite addr src)
  | WriteByte addr v g => aaccess fs addr 1 g (λ _, []) (overwrite addr [v])
  | Expand addr len g => aaccess fs addr len g (λ _, []) (λ l, l)
  | Size => if (length fs =? 0)%nat then None
            else Some (mkMemGas MemOk 0, [], blen (List.last fs []), fs)
  end.

Lemma frames_top m k h :
  current m k h → List.last (frames m) [] = top_bytes m k h ∧
    removelast (frames m) = contents m <$> seq 0 k ∧ length (frames m) = S k.
Proof.
  intros Hc. rewrite (frames_current m k h Hc), last_last, removelast_last, length_app, length_fmap, length_seq.
  split_and!; [done|done|cbn; lia].
Qed.

Lemma psum_ext f g k : (∀ j, (j < k)%nat → f j = g j) → psum f k = psum g k.
Proof.
  induction k as [k IH] using lt_wf_ind. intros H. destruct k as [|[|k]]; [done|done|]. cbn.
  rewrite (IH k), (H k) by (intros; apply H || idtac; lia). done.
Qed.

Lemma fsize_frames m k h j :
  inv m → current m k h → (j < k)%nat → fsize m j = blen (nth j (frames m) []).
Proof.
  intros Hi Hc Hj. rewrite (frames_current m k h Hc), app_nth1 by (by rewrite length_fmap, length_seq).
  rewrite (nth_lookup_Some _ _ _ (contents m j)).
  - unfold fsize, contents, blen. destruct (inv_handle m j Hi) as [hj Hj']; [destruct Hc; unfold alive; lia|].
    rewrite Hj', length_peeks. destruct (inv_frame _ Hi j hj) as (_ & ? & _); [destruct Hc; unfold alive; lia|done|lia].
  - by rewrite list_lookup_fmap, lookup_seq_lt.
Qed.

Lemma fits_not_exhausted m k h need :
  inv m → current m k h → fits (frames m) need = true → size_ h < need →
  ¬ exhausted m k (32 * words_up need).
Proof.
  intros Hi Hc Hf Hn He. pose proof Hc as [Ec Hh].
  destruct (frames_top m k h Hc) as (El & _ & Elen). unfold fits, exhausted in *.
  rewrite El, Elen in Hf. apply orb_true_iff in Hf as [Hf%Z.leb_le|Hf%Z.leb_le].
  - unfold blen, top_bytes in Hf. rewrite length_peeks in Hf.
    destruct (inv_frame _ Hi k h ltac:(unfold alive; lia) Hh) as (_ & ? & _). lia.
  - replace (S k - 1)%nat with k in Hf by lia.
    rewrite (psum_ext _ (fsize m)) in Hf; [lia|]. intros j Hj. symmetry. by eapply fsize_frames.
Qed.

(** The growth part shared by every access. *)
Lemma access_refines m addr len g read write o fs' :
  inv m → len ≠ 0 → aaccess (frames m) addr len g read write = Some (o, fs') →
  (kMaxMemPerTx <? addr) || (kMaxMemPerTx <? len) = false →
  0 ≤ addr ∧ ∃ k r m1 h1, ensure (addr + len) g m = Ok (r, m1) ∧ inv m1 ∧ current m1 k h1 ∧
    ((err r = OutOfGas ∧ o = (r, [], 0) ∧ fs' = frames m1) ∨
     (err r = MemOk ∧ addr + len ≤ size_ h1 ∧ o = (r, read (top_bytes m1 k h1), 0) ∧
      fs' = (contents m1 <$> seq 0 k) ++ [write (top_bytes m1 k h1)])).
Proof.
  intros Hi Hl H Hb. unfold aaccess in H. rewrite Hb in H. apply orb_false_iff in Hb as [Hb1%Z.ltb_ge Hb2%Z.ltb_ge].
  destruct (Z.ltb_spec addr 0), (Z.ltb_spec len 0), (Nat.eqb_spec (length (frames m)) 0) as [|Hne]; try done.
  split; [done|]. rewrite (proj2 (Z.eqb_neq len 0) Hl) in H. cbn [orb] in H.
  destruct (inv_current m Hi) as (k & h & Hc).
  { unfold frames in Hne. rewrite length_fmap, length_seq in Hne. lia. }
  destruct (frames_top m k h Hc) as (El & Er & Elen). rewrite El, Er in H.
  destruct (fits (frames m) (addr + len)) eqn:Ef; [|done]. cbn [negb] in H.
  change kMaxMemPerTx with 33554432 in *. 
  destruct (ensure_spec m k h (addr + len) g Hi Hc) as (r & m1 & E1 & Hi1 & He).
  { change kMemBlockSize with 67108864. lia. }
  exists k, r, m1. destruct He as [(h1 & Hc1 & Hst & Hok & Hfr & Hg)|(-> & -> & Hlt & Hex)]; cycle 1.
  { by destruct (fits_not_exhausted m k h _ Hi Hc Ef Hlt). }
  exists h1. split; [done|]. split; [done|]. split; [done|].
  assert (Eb : contents m1 <$> seq 0 k = contents m <$> seq 0 k).
  { rewrite (frames_current m1 k h1 Hc1) in Hfr. by apply app_inj_2 in Hfr as [? _]. }
  destruct (grow (addr + len) g (top_bytes m k h)) as [[l g']|]; destruct Hg as [-> Hg]; injection H as <- <-.
  - right. rewrite Eb, Hg. cbn. split_and!; try done. by apply Hok.
  - left. rewrite Hfr, Hg, (frames_current m k h Hc). split_and!; done.
Qed.

Lemma aaccess_trivial fs addr len g read write o fs' :
  aaccess fs addr len g read write = Some (o, fs') →
  len = 0 → o = (mkMemGas MemOk g, [], 0) ∧ fs' = fs.
Proof. intros H ->. unfold aaccess in H. repeat case_match; by simplify_eq. Qed.

Lemma aaccess_far fs addr len g read write o fs' :
  aaccess fs addr len g read write = Some (o, fs') → len ≠ 0 →
  (kMaxMemPerTx <? addr) || (kMaxMemPerTx <? len) = true →
  o = (mkMemGas OutOfGas g, [], 0) ∧ fs' = fs.
Proof.
  intros H Hl Hb. unfold aaccess in H. rewrite Hb, (proj2 (Z.eqb_neq len 0) Hl) in H.
  case_match; by simplify_eq.
Qed.

(** The two ways out of an access before its growth, then the growth. *)
Ltac no_access H Hl Hb :=
  let E := fresh "E" in
  match type of H with aaccess _ _ ?len _ _ _ = _ =>
    destruct (Z.eqb_spec len 0) as [E|Hl];
      [destruct (aaccess_trivial _ _ _ _ _ _ _ _ H E) as [-> ->]; by eexists|]
  end;
  destruct (_ || _) eqn:Hb; [destruct (aaccess_far _ _ _ _ _ _ _ _ H Hl Hb) as [-> ->]; by eexists|].

Definition refines (o : mem_op) (m : EVMMem) : Prop := ∀ out fs',
  astep o (frames m) = Some (out, fs') → ∃ m', cstep o m = Ok (out, m') ∧ inv m' ∧ frames m' = fs'.

Lemma read_refines m addr len g : inv m → refines (Read addr len g) m.
Proof.
  intros Hi out fs' H. cbn [astep cstep] in *. unfold readBytes. no_access H Hl Hb.
  assert (0 ≤ len) by (unfold aaccess in H; destruct (Z.ltb_spec len 0); [by rewrite orb_true_r in H|done]).
  destruct (access_refines _ _ _ _ _ _ _ _ Hi Hl H Hb) as (Ha & k & r & m1 & h1 & -> & Hi1 & Hc & Hr).
  cbn [mbind res_bind]. destruct Hr as [(Er & -> & ->)|(Er & Hs & -> & ->)]; rewrite Er; [by eexists|].
  pose proof (current_read m1 k h1 addr len Hi1 Hc Ha ltac:(done) Hs) as Hd. unfold data_read in Hd.
  cbn. destruct (handle (s_cur m1) m1) as [h2|]; [|done]. cbn in Hd |- *. rewrite Hd. cbn.
  eexists. split; [done|]. split; [done|]. by apply frames_current.
Qed.

Lemma write_refines m addr src g : inv m → refines (Write addr src g) m.
Proof.
  intros Hi out fs' H. cbn [astep cstep] in *. unfold writeBytes. fold (blen src). no_access H Hl Hb.
  destruct (access_refines _ _ _ _ _ _ _ _ Hi Hl H Hb) as (Ha & k & r & m1 & h1 & -> & Hi1 & Hc & Hr).
  cbn [mbind res_bind]. destruct Hr as [(Er & -> & ->)|(Er & Hs & -> & ->)]; rewrite Er; [by eexists|].
  destruct (put_bytes_spec m1 k h1 addr src Hi1 Hc Ha Hs) as (m2 & Hp & Hi2 & Hf2).
  cbn. rewrite Hp. by eexists.
Qed.

Lemma write_byte_refines m addr v g : inv m → refines (WriteByte addr v g) m.
Proof.
  intros Hi out fs' H. cbn [astep cstep] in *. unfold writeByte. destruct (kMaxMemPerTx <? addr) eqn:Hb.
  { destruct (aaccess_far _ _ _ _ _ _ _ _ H ltac:(lia)) as [-> ->]; [by rewrite Hb|by eexists]. }
  destruct (access_refines m addr 1 g _ _ _ _ Hi ltac:(lia) H) as (Ha & k & r & m1 & h1 & -> & Hi1 & Hc & Hr).
  { by rewrite Hb. }
  cbn [mbind res_bind]. destruct Hr as [(Er & -> & ->)|(Er & Hs & -> & ->)]; rewrite Er; [by eexists|].
  destruct (put_bytes_spec m1 k h1 addr [v] Hi1 Hc Ha Hs) as (m2 & Hp & Hi2 & Hf2).
  cbn. rewrite Hp. by eexists.
Qed.

Lemma expand_refines m addr len g : inv m → refines (Expand addr len g) m.
Proof.
  intros Hi out fs' H. cbn [astep cstep] in *. unfold expand. no_access H Hl Hb.
  destruct (access_refines _ _ _ _ _ _ _ _ Hi Hl H Hb) as (Ha & k & r & m1 & h1 & -> & Hi1 & Hc & Hr).
  cbn [mbind res_bind]. destruct Hr as [(Er & -> & ->)|(Er & Hs & -> & ->)]; [by eexists|].
  eexists. split; [done|]. split; [done|]. by apply frames_current.
Qed.

Lemma size_refines m : inv m → refines Size m.
Proof.
  intros Hi out fs' H. cbn [astep cstep] in *.
  destruct (Nat.eqb_spec (length (frames m)) 0) as [|Hne]; [done|]. injection H as <- <-.
  destruct (inv_current m Hi) as (k & h & Hc).
  { unfold frames in Hne. rewrite length_fmap, length_seq in Hne. lia. }
  destruct (frames_top m k h Hc) as (-> & _).
  unfold size. destruct Hc as [Ec Hh]. rewrite Ec, (handle_Ok _ _ _ Hh). cbn. eexists. split; [|done].
  unfold blen, top_bytes. rewrite length_peeks.
  destruct (inv_frame _ Hi k h ltac:(unfold alive; lia) Hh) as (_ & ? & _). rewrite Z2Nat.id by lia. done.
Qed.

Lemma step_refines o m : inv m → refines o m.
Proof.
  intros Hi. destruct o as [| |addr len g|addr src g|addr v g|addr len g|];
    [| |by apply read_refines|by apply write_refines|by apply write_byte_refines|by apply expand_refines
    |by apply size_refines]; intros out fs' H; cbn [astep cstep] in *;
    assert (Elen : Z.of_nat (length (frames m)) = s_cur m + 1)
      by (unfold frames; rewrite length_fmap, length_seq; pose proof (inv_cur _ Hi); lia).
  - destruct (Nat.ltb_spec (length (frames m)) kMaxMemHandles) as [Hk|]; [|done]. injection H as <- <-.
    destruct (createMemory_spec m Hi) as (m' & Hm & Hi' & _ & Hf); [lia|]. rewrite Hm, Elen. by eexists.
  - destruct (Nat.eqb_spec (length (frames m)) 0) as [|Hne]; [done|]. injection H as <- <-.
    destruct (destroyMemory_spec m Hi); [lia|]. by eexists.
Qed.

(** Runs of operations. *)
Fixpoint crun (os : list mem_op) (m : EVMMem) : res (list out * EVMMem) :=
  match os with
  | [] => mret ([], m)
  | o :: os => '(x, m) ← cstep o m; '(xs, m) ← crun os m; mret (x :: xs, m)
  end.
Fixpoint arun (os : list mem_op) (fs : list bytes) : option (list out * list bytes) :=
  match os with
  | [] => Some ([], fs)
  | o :: os => '(x, fs) ← astep o fs; '(xs, fs) ← arun os fs; Some (x :: xs, fs)
  end.

Lemma inv_initial : inv initial.
Proof.
  split; cbn [s_handles s_cur s_firstClean s_zone initial].
  - apply length_replicate.
  - unfold kMaxMemHandles. lia.
  - by intros [].
  - by intros [] i _.
  - unfold alive. cbn [s_cur initial]. lia.
  - unfold alive. cbn [s_cur initial]. lia.
  - unfold alive. cbn [s_cur initial]. lia.
Qed.

Lemma run_refines os m outs fs' :
  inv m → arun os (frames m) = Some (outs, fs') →
  ∃ m', crun os m = Ok (outs, m') ∧ inv m' ∧ frames m' = fs'.
Proof.
  revert m outs fs'. induction os as [|o os IH]; intros m outs fs' Hi H; cbn in *.
  { injection H as <- <-. by eexists. }
  destruct (astep o (frames m)) as [[x fs1]|] eqn:E1; [|done]. cbn in H.
  destruct (step_refines o m Hi _ _ E1) as (m1 & -> & Hi1 & Hf1). rewrite <- Hf1 in H. cbn.
  destruct (arun os (frames m1)) as [[xs fs2]|] eqn:E2; [|done]. cbn in H. injection H as <- <-.
  destruct (IH m1 xs fs2 Hi1 E2) as (m2 & -> & Hi2 & Hf2). by eexists.
Qed.

(** C25.  The memory manager behaves as a stack of independent, zero-extended
    byte arrays: from the zeroed arenas, any run of frame pushes and pops, reads,
    writes, growths and size queries that the byte arrays allow (with the live
    memory of a parity within 32 MiB) never leaves an arena, gives the same
    bytes, gas and out-of-gas verdicts, and ends with the same frames.  In
    particular fresh memory reads as zero although arenas are recycled, and a
    frame's bytes survive everything its callees do. *)
Theorem memory_refines_byte_arrays os outs fs :
  arun os [] = Some (outs, fs) →
  ∃ m, crun os initial = Ok (outs, m) ∧ inv m ∧ frames m = fs.
Proof. intros H. by apply run_refines; [apply inv_initial|]. Qed.

(** Two frames deep: the child dirties its memory, dies, a second child sees
    zeroes, and the parent still reads what it wrote. *)
Definition sample_ops : list mem_op :=
  [Create; Write 3 [Byte.xaa; Byte.xbb] 100; Create; WriteByte 40 Byte.xff 50; Size; Destroy;
   Create; Read 32 16 50; Destroy; Read 0 8 10; Expand 64 1 2; Destroy].

Lemma memory_refines_byte_arrays_witness :
  ∃ m, crun sample_ops initial =
    Ok ([(mkMemGas MemOk 0, [], 0); (mkMemGas MemOk 97, [], 0); (mkMemGas MemOk 0, [], 1);
         (mkMemGas MemOk 44, [], 0); (mkMemGas MemOk 0, [], 64); nothing; (mkMemGas MemOk 0, [], 1);
         (mkMemGas MemOk 44, replicate 16 Byte.x00, 0); nothing;
         (mkMemGas MemOk 10, [Byte.x00; Byte.x00; Byte.x00; Byte.xaa; Byte.xbb; Byte.x00; Byte.x00; Byte.x00], 0);
         (mkMemGas OutOfGas 2, [], 0); nothing], m) ∧ inv m ∧ frames m = [].
Proof. apply memory_refines_byte_arrays. vm_compute. reflexivity. Defined.

End EvmMem.
