(* ===== verification/Accounts.v ===== *)
(** The account table ([include/zeg/accounts.hpp], [src/accounts.cpp]) and the
    node results it caches ([include/zeg/trie_node.hpp]).  A row holds the
    128-byte record of block-start values, the modification slot and the cached
    trie leaf; lookups go through an address index.  Addresses and 32-byte words
    are the numbers their big-endian bytes denote. *)

From stdpp Require Import base numbers list strings gmap.
From S2P Require Import Prelude TriePath Bal.

(** ** Node results ([trie_node.hpp]) *)
Module Node.
Import TriePath.

Inductive NodeR :=
| EmptyR
| HashR (hash : Z)
| ExtR (ext_nibbles : PackedPath) (hash : Z)
| AccountLeafR (path_nibbles : PackedPath) (account_idx : nat) (storage_root : Z)
| StorageLeafR (path_nibbles : PackedPath) (storage_idx : nat)
| PhantomLeafR (path_nibbles : PackedPath) (value_rlp : bytes).

Inductive NodeType :=
| NT_Empty | NT_Branch | NT_Account | NT_Storage | NT_Hash | NT_ExtensionHash
| NT_PhantomLeaf | NT_PoolHash | NT_Chain.

Record Child := mkChild { child_type : NodeType; child_idx : Z }.
Definition child0 : Child := mkChild NT_Empty 0.

Definition kEmptyTrieRoot : Z :=
  0x56e81f171bcc55a6ff8345e692c0f86e5b48e01b996cadc001622fb5e363b421.
Definition kEmptyCodeHash : Z :=
  0xc5d2460186f7233c927e7db2dcc703c0e500b653ca82273b7bfad8045d85a470.

Definition is_empty_account (nonce balance code_hash : Z) : bool :=
  if negb (nonce =? 0) then false else
  if negb (balance =? 0) then false else
  if negb (code_hash =? kEmptyCodeHash) then false else true.

Definition is_zero_value (v : Z) : bool := v =? 0.

End Node.

Module Accounts.
Import Node Bal.

Definition kRecordSize : Z := 128.
Definition kNoLink : Z := 2 ^ 64 - 1.

(** ** The record view *)

Definition kAddressOffset : Z := 0.
Definition kBalanceOffset : Z := 24.
Definition kNonceOffset : Z := 56.
Definition kCodeHashOffset : Z := 96.

(** [View]: the fields of one record, read at their offsets. *)
Definition view_address (data : bytes) : Z := be_val (slice data kAddressOffset (kAddressOffset + 20)).
Definition view_balance (data : bytes) : Z := be_val (slice data kBalanceOffset (kBalanceOffset + 32)).
Definition view_nonce (data : bytes) : Z := le_val (slice data kNonceOffset (kNonceOffset + 8)).
Definition view_code_hash (data : bytes) : Z := be_val (slice data kCodeHashOffset (kCodeHashOffset + 32)).

Record Mods := mkMods {
  balance_dirty : bool;
  nonce_dirty : bool;
  code_hash_dirty : bool;
  m_balance : Z;
  m_nonce : Z;
  m_code_hash : Z;
  last_tx_idx : Z }.
Definition mods0 : Mods := mkMods false false false 0 0 0 0.

Record LeafCache := mkLeafCache {
  cached : NodeR;
  addr_hash : Z;
  storage_root : Child;
  storage_empty : bool;
  next_sorted : Z;
  first_sorted_storage : Z }.
Definition leaf0 : LeafCache := mkLeafCache EmptyR 0 child0 true kNoLink kNoLink.

(** One row: [record_store_]'s slice, [mods_] and [leaf_] at the same index. *)
Record Row := mkRow { record : bytes; mods : Mods; leaf : LeafCache }.

Record Accounts := mkAccounts {
  capacity_ : Z;
  rows : list Row;
  index_ : gmap Z nat;
  bal_ : option BlockAccessList;
  first_sorted_ : Z }.
Definition accounts0 : Accounts := mkAccounts 0 [] ∅ None kNoLink.

Definition put_rows (l : list Row) (a : Accounts) : Accounts :=
  mkAccounts (capacity_ a) l (index_ a) (bal_ a) (first_sorted_ a).
Definition put_bal (b : option BlockAccessList) (a : Accounts) : Accounts :=
  mkAccounts (capacity_ a) (rows a) (index_ a) b (first_sorted_ a).

(** ** Building the table *)

Definition reserve (count : Z) (a : Accounts) : Accounts :=
  mkAccounts count (rows a) (index_ a) (bal_ a) (first_sorted_ a).

(** The four [memcpy]s of [append] into a zeroed record. *)
Definition make_record (address nonce balance code_hash : Z) : res bytes :=
  let rec := replicate (Z.to_nat kRecordSize) Byte.x00 in
  rec ← mem_write rec kAddressOffset (be_bytes 20 address);
  rec ← mem_write rec kBalanceOffset (be_bytes 32 balance);
  rec ← mem_write rec kNonceOffset (le_bytes 8 nonce);
  mem_write rec kCodeHashOffset (be_bytes 32 code_hash).

(** [unordered_map::emplace] keeps an existing entry. *)
Definition append (address nonce balance code_hash : Z) (a : Accounts) : res (nat * Accounts) :=
  let idx := length (rows a) in
  _ ← fatal_if (capacity_ a <=? Z.of_nat idx)
        "Accounts::append: more rows than reserve() allowed (numberOfAccounts overflow)";
  rec ← make_record address nonce balance code_hash;
  Ok (idx, mkAccounts (capacity_ a) (rows a ++ [mkRow rec mods0 leaf0])
             (match index_ a !! address with
              | Some _ => index_ a
              | None => <[address := idx]> (index_ a)
              end) (bal_ a) (first_sorted_ a)).

(** ** Reads by index *)

Definition row_at (idx : nat) (a : Accounts) : res Row := vec_get (rows a) idx.

Definition address_at (idx : nat) (a : Accounts) : res Z :=
  r ← row_at idx a; Ok (view_address (record r)).
Definition row_balance (r : Row) : Z :=
  if balance_dirty (mods r) then m_balance (mods r) else view_balance (record r).
Definition row_nonce (r : Row) : Z :=
  if nonce_dirty (mods r) then m_nonce (mods r) else view_nonce (record r).
Definition row_code_hash (r : Row) : Z :=
  if code_hash_dirty (mods r) then m_code_hash (mods r) else view_code_hash (record r).
Definition balance_at (idx : nat) (a : Accounts) : res Z := r ← row_at idx a; Ok (row_balance r).
Definition nonce_at (idx : nat) (a : Accounts) : res Z := r ← row_at idx a; Ok (row_nonce r).
Definition code_hash_at (idx : nat) (a : Accounts) : res Z := r ← row_at idx a; Ok (row_code_hash r).
Definition balance_orig_at (idx : nat) (a : Accounts) : res Z :=
  r ← row_at idx a; Ok (view_balance (record r)).
Definition nonce_orig_at (idx : nat) (a : Accounts) : res Z :=
  r ← row_at idx a; Ok (view_nonce (record r)).
Definition code_hash_orig_at (idx : nat) (a : Accounts) : res Z :=
  r ← row_at idx a; Ok (view_code_hash (record r)).

Definition fields_unchanged_at (idx : nat) (a : Accounts) : res bool :=
  no ← nonce_orig_at idx a; nc ← nonce_at idx a;
  bo ← balance_orig_at idx a; bc ← balance_at idx a;
  co ← code_hash_orig_at idx a; cc ← code_hash_at idx a;
  Ok ((no =? nc) && (bo =? bc) && (co =? cc)).

(** ** The cached trie leaf and the sorted links *)

Definition upd_row (f : Row → Row) (idx : nat) (a : Accounts) : res Accounts :=
  r ← row_at idx a; Ok (put_rows (<[idx := f r]> (rows a)) a).
Definition upd_leaf (f : LeafCache → LeafCache) : nat → Accounts → res Accounts :=
  upd_row (λ r, mkRow (record r) (mods r) (f (leaf r))).
Definition upd_mods (f : Mods → Mods) : nat → Accounts → res Accounts :=
  upd_row (λ r, mkRow (record r) (f (mods r)) (leaf r)).

Definition build_value (idx : nat) (nib : TriePath.PackedPath) (addr_hash : Z)
    (storage_root_child : Child) (storage_root : Z) (a : Accounts) : res (NodeR * Accounts) :=
  n ← nonce_orig_at idx a; b ← balance_orig_at idx a; c ← code_hash_orig_at idx a;
  let empty := storage_root =? kEmptyTrieRoot in
  node ← (if is_empty_account n b c then
            if empty then Ok EmptyR
            else Fatal "state_root: empty account with non-empty storage (EIP-7610) unsupported"
          else Ok (AccountLeafR nib idx storage_root));
  a ← upd_leaf (λ lc, mkLeafCache node addr_hash storage_root_child empty
                        (next_sorted lc) (first_sorted_storage lc)) idx a;
  Ok (node, a).

Definition update_value (idx : nat) (nib : TriePath.PackedPath) (storage_root : Z) (a : Accounts)
    : res (NodeR * Accounts) :=
  n ← nonce_at idx a; b ← balance_at idx a; c ← code_hash_at idx a;
  let node := if is_empty_account n b c then EmptyR else AccountLeafR nib idx storage_root in
  a ← upd_leaf (λ lc, mkLeafCache node (addr_hash lc) (Accounts.storage_root lc) (storage_empty lc)
                        (next_sorted lc) (first_sorted_storage lc)) idx a;
  Ok (node, a).

Definition cached_at (idx : nat) (a : Accounts) : res NodeR :=
  r ← row_at idx a; Ok (cached (leaf r)).
Definition storage_root_child_at (idx : nat) (a : Accounts) : res Child :=
  r ← row_at idx a; Ok (storage_root (leaf r)).
Definition block_start_storage_empty_at (idx : nat) (a : Accounts) : res bool :=
  r ← row_at idx a; Ok (storage_empty (leaf r)).
Definition addr_hash_at (idx : nat) (a : Accounts) : res Z :=
  r ← row_at idx a; Ok (addr_hash (leaf r)).

Definition set_sorted_links (idx : nat) (next first_storage : Z) : Accounts → res Accounts :=
  upd_leaf (λ lc, mkLeafCache (cached lc) (addr_hash lc) (storage_root lc) (storage_empty lc)
                    next first_storage) idx.
Definition next_sorted_at (idx : nat) (a : Accounts) : res Z :=
  r ← row_at idx a; Ok (next_sorted (leaf r)).
Definition first_sorted_storage_at (idx : nat) (a : Accounts) : res Z :=
  r ← row_at idx a; Ok (first_sorted_storage (leaf r)).
Definition set_first_sorted (idx : Z) (a : Accounts) : Accounts :=
  mkAccounts (capacity_ a) (rows a) (index_ a) (bal_ a) idx.

(** ** Lookup *)

Definition index_of (addr : Z) (a : Accounts) : res nat :=
  match index_ a !! addr with
  | Some i => Ok i
  | None => Fatal "state key not in witness: account"
  end.
Definition contains (addr : Z) (a : Accounts) : bool :=
  match index_ a !! addr with Some _ => true | None => false end.

(** ** Warm/cold tracking *)

Definition with_last (m : Mods) (tx_idx : Z) : Mods :=
  mkMods (balance_dirty m) (nonce_dirty m) (code_hash_dirty m) (m_balance m) (m_nonce m)
    (m_code_hash m) tx_idx.
Definition mark_touched_at (idx : nat) (tx_idx : Z) : Accounts → res Accounts :=
  upd_mods (λ m, if last_tx_idx m <? tx_idx then with_last m tx_idx else m) idx.
Definition is_warm_at (idx : nat) (tx_idx : Z) (a : Accounts) : res bool :=
  r ← row_at idx a; Ok (last_tx_idx (mods r) =? tx_idx).
Definition last_tx_idx_at (idx : nat) (a : Accounts) : res Z :=
  r ← row_at idx a; Ok (last_tx_idx (mods r)).
Definition set_warm_at (idx : nat) (tx_idx : Z) : Accounts → res Accounts :=
  upd_mods (λ m, with_last m tx_idx) idx.

(** ** Access-list hooks *)

Definition set_block_access_list (b : BlockAccessList) (a : Accounts) : Accounts :=
  put_bal (Some b) a.

(** [if (bal_) bal_->access_account(idx)]. *)
Definition bal_access_at (idx : nat) (a : Accounts) : res Accounts :=
  match bal_ a with
  | None => Ok a
  | Some b => b ← access_account idx b; Ok (put_bal (Some b) a)
  end.

(** [if (bal_) bal_before_write(idx)]. *)
Definition bal_write_at (idx : nat) (a : Accounts) : res Accounts :=
  match bal_ a with
  | None => Ok a
  | Some b =>
      bv ← balance_at idx a; nv ← nonce_at idx a; cv ← code_hash_at idx a;
      b ← bal_before_write idx bv nv cv b;
      Ok (put_bal (Some b) a)
  end.

(** ** Writes by index *)

Definition set_balance_at (idx : nat) (v tx_idx : Z) (a : Accounts) : res Accounts :=
  a ← bal_write_at idx a;
  upd_mods (λ m, mkMods true (nonce_dirty m) (code_hash_dirty m) v (m_nonce m)
                   (m_code_hash m) tx_idx) idx a.
Definition set_nonce_at (idx : nat) (v tx_idx : Z) (a : Accounts) : res Accounts :=
  a ← bal_write_at idx a;
  upd_mods (λ m, mkMods (balance_dirty m) true (code_hash_dirty m) (m_balance m) v
                   (m_code_hash m) tx_idx) idx a.
Definition set_code_hash_at (idx : nat) (v tx_idx : Z) (a : Accounts) : res Accounts :=
  a ← bal_write_at idx a;
  upd_mods (λ m, mkMods (balance_dirty m) (nonce_dirty m) true (m_balance m) (m_nonce m)
                   v tx_idx) idx a.

(** ** Accesses by address *)

(** The common part of the touching readers: row, warm mark, access-list mark. *)
Definition touch (addr tx_idx : Z) (a : Accounts) : res (nat * Accounts) :=
  i ← index_of addr a;
  a ← mark_touched_at i tx_idx a;
  a ← bal_access_at i a;
  Ok (i, a).
Definition balance (addr tx_idx : Z) (a : Accounts) : res (Z * Accounts) :=
  '(i, a) ← touch addr tx_idx a; v ← balance_at i a; Ok (v, a).
Definition nonce (addr tx_idx : Z) (a : Accounts) : res (Z * Accounts) :=
  '(i, a) ← touch addr tx_idx a; v ← nonce_at i a; Ok (v, a).
Definition code_hash (addr tx_idx : Z) (a : Accounts) : res (Z * Accounts) :=
  '(i, a) ← touch addr tx_idx a; v ← code_hash_at i a; Ok (v, a).

Definition set_balance (addr v tx_idx : Z) (a : Accounts) : res Accounts :=
  i ← index_of addr a; set_balance_at i v tx_idx a.
Definition set_nonce (addr v tx_idx : Z) (a : Accounts) : res Accounts :=
  i ← index_of addr a; set_nonce_at i v tx_idx a.
Definition set_code_hash (addr v tx_idx : Z) (a : Accounts) : res Accounts :=
  i ← index_of addr a; set_code_hash_at i v tx_idx a.

(** ** The record layout *)

Lemma le_val_le_bytes8 z : in_u64 z → le_val (le_bytes 8 z) = z.
Proof.
  intros Hz. unfold le_val, le_bytes. rewrite reverse_involutive.
  by apply be_val_be_bytes_small.
Qed.

Lemma record_layout address nonce balance code_hash :
  make_record address nonce balance code_hash =
  Ok (be_bytes 20 address ++ replicate 4 Byte.x00 ++ be_bytes 32 balance ++ le_bytes 8 nonce ++
      replicate 32 Byte.x00 ++ be_bytes 32 code_hash).
Proof.
  unfold make_record, le_bytes.
  remember (be_bytes 20 address) as A eqn:EA. remember (be_bytes 32 balance) as B eqn:EB.
  remember (reverse (be_bytes 8 nonce)) as N eqn:EN. remember (be_bytes 32 code_hash) as C eqn:EC.
  apply (f_equal length) in EA, EB, EN, EC. rewrite ?length_reverse, length_be_bytes in *.
  repeat (destruct A as [|? A]; try discriminate EA).
  repeat (destruct B as [|? B]; try discriminate EB).
  repeat (destruct N as [|? N]; try discriminate EN).
  repeat (destruct C as [|? C]; try discriminate EC).
  reflexivity.
Qed.

(** Reading a record back gives the fields [append] stored. *)
Lemma record_roundtrip address nonce balance code_hash rec :
  0 ≤ address < 2 ^ 160 → in_u64 nonce → in_u256 balance → in_u256 code_hash →
  make_record address nonce balance code_hash = Ok rec →
  view_address rec = address ∧ view_nonce rec = nonce ∧ view_balance rec = balance ∧
  view_code_hash rec = code_hash.
Proof.
  rewrite record_layout. intros Ha Hn Hb Hc <-%Ok_inj.
  split; [|split; [|split]];
    unfold view_address, view_nonce, view_balance, view_code_hash, kAddressOffset, kBalanceOffset,
      kNonceOffset, kCodeHashOffset;
    rewrite ?slice_skip by (autorewrite with zeg_len; rewrite ?length_le_bytes; lia);
    autorewrite with zeg_len; rewrite ?length_le_bytes; cbn [Z.of_nat Z.sub].
  - rewrite slice_here by (by autorewrite with zeg_len). by apply be_val_be_bytes_small.
  - rewrite slice_here by (by rewrite length_le_bytes). by apply le_val_le_bytes8.
  - rewrite slice_here by (by autorewrite with zeg_len). by apply be_val_be_bytes_small.
  - rewrite slice_all by (by autorewrite with zeg_len). by apply be_val_be_bytes_small.
Qed.

(** ** Behaviour of the writes *)

Definition bal_ok (n : nat) (ob : option BlockAccessList) : Prop :=
  match ob with Some b => ∃ m, safe n m b | None => True end.
(** The index points each address to a row of that address. *)
Definition index_ok (a : Accounts) : Prop :=
  ∀ addr i, index_ a !! addr = Some i →
    ∃ r, rows a !! i = Some r ∧ view_address (record r) = addr.

Record acc_ok (a : Accounts) : Prop := {
  acc_bal : bal_ok (length (rows a)) (bal_ a);
  acc_index : index_ok a }.

(** The access list is there or not on both sides. *)
Definition bal_sim (o o' : option BlockAccessList) : Prop := is_Some o ↔ is_Some o'.
#[global] Instance bal_sim_equivalence : Equivalence bal_sim.
Proof. unfold bal_sim. split; [done|by intros ???|intros ???; tauto]. Qed.

Lemma bal_write_at_spec i a :
  acc_ok a → (i < length (rows a))%nat →
  ∃ ob, bal_write_at i a = Ok (put_bal ob a) ∧ bal_ok (length (rows a)) ob ∧ bal_sim (bal_ a) ob.
Proof.
  intros [Hok _] Hi. unfold bal_write_at, bal_ok, bal_sim in *.
  destruct a as [cap rs ix [b|] fs]; cbn in *; [|by exists None].
  destruct Hok as [m Hb]. destruct (lookup_lt_is_Some_2 _ _ Hi) as [r Hr].
  unfold balance_at, nonce_at, code_hash_at, row_at, vec_get. cbn. rewrite Hr. cbn.
  destruct (bal_before_write_safe _ _ b i (row_balance r) (row_nonce r) (row_code_hash r) Hb Hi)
    as (b' & -> & Hb'). cbn. exists (Some b'). cbn. split; [done|]. by split; [exists m|].
Qed.

Lemma bal_access_at_spec i a :
  acc_ok a → (i < length (rows a))%nat →
  ∃ ob, bal_access_at i a = Ok (put_bal ob a) ∧ bal_ok (length (rows a)) ob ∧ bal_sim (bal_ a) ob.
Proof.
  intros [Hok _] Hi. unfold bal_access_at, bal_ok, bal_sim in *.
  destruct a as [cap rs ix [b|] fs]; cbn in *; [|by exists None].
  destruct Hok as [m Hb].
  destruct (access_account_safe _ _ b i Hb Hi) as (b' & -> & Hb'). cbn.
  exists (Some b'). cbn. split; [done|]. by split; [exists m|].
Qed.

(** ** Equivalence: what execution can observe of the table, the access list and
    the dirty flags apart.  [ex] marks the addresses whose warmth is never looked
    up (the precompiles, which are always warm). *)

Section Equiv.
Context (ex : Z → bool).

Record row_equiv (r r' : Row) : Prop := {
  re_record : record r = record r';
  re_leaf : leaf r = leaf r';
  re_balance : row_balance r = row_balance r';
  re_nonce : row_nonce r = row_nonce r';
  re_code_hash : row_code_hash r = row_code_hash r';
  re_last : ex (view_address (record r)) = false → last_tx_idx (mods r) = last_tx_idx (mods r') }.

Record equiv (a a' : Accounts) : Prop := {
  eq_capacity : capacity_ a = capacity_ a';
  eq_index : index_ a = index_ a';
  eq_first : first_sorted_ a = first_sorted_ a';
  eq_bal : bal_sim (bal_ a) (bal_ a');
  eq_rows : Forall2 row_equiv (rows a) (rows a') }.

#[global] Instance row_equiv_equivalence : Equivalence row_equiv.
Proof.
  split; [done|..].
  - intros x y [Hr ? ? ? ? Hl]. split; auto. rewrite <- Hr. intros. symmetry. auto.
  - intros x y z [Hr ? ? ? ? Hl] [Hr' ? ? ? ? Hl']. split; try congruence.
    intros He. rewrite Hl by done. apply Hl'. by rewrite <- Hr.
Qed.

#[global] Instance equiv_equivalence : Equivalence equiv.
Proof.
  split; [done|..].
  - intros x y [? ? ? ? ?]. split; by symmetry.
  - intros x y z [? ? ? ? ?] [? ? ? ? ?]. split; by etrans.
Qed.

(** A write of one row, up to the access list. *)
Record writes (f : Row → Row) (i : nat) (a a' : Accounts) : Prop := {
  wr_capacity : capacity_ a' = capacity_ a;
  wr_index : index_ a' = index_ a;
  wr_first : first_sorted_ a' = first_sorted_ a;
  wr_bal : bal_sim (bal_ a) (bal_ a');
  wr_rows : rows a' = alter f i (rows a);
  wr_ok : acc_ok a' }.

Definition keeps_record (f : Row → Row) : Prop := ∀ r, record (f r) = record r.

Lemma index_ok_alter f i a a' :
  keeps_record f → index_ok a → index_ a' = index_ a → rows a' = alter f i (rows a) → index_ok a'.
Proof.
  intros Hf Ha Hi Hr addr j. rewrite Hi, Hr. intros Hj.
  destruct (Ha _ _ Hj) as (r & Hrj & <-). rewrite list_lookup_alter.
  case_decide; [subst; rewrite Hrj; exists (f r); split; [done|by rewrite Hf]|eauto].
Qed.

Lemma upd_row_writes f i a :
  keeps_record f → acc_ok a → (i < length (rows a))%nat →
  ∃ a', upd_row f i a = Ok a' ∧ writes f i a a'.
Proof.
  intros Hf [Hb Hx] Hi. destruct (lookup_lt_is_Some_2 _ _ Hi) as [r Hr].
  assert (Hrows : <[i := f r]> (rows a) = alter f i (rows a)).
  { apply list_eq. intros j. rewrite list_lookup_alter, list_lookup_insert.
    destruct (decide (i = j)) as [->|]; [by rewrite Hr, decide_True|rewrite decide_False; tauto]. }
  unfold upd_row, row_at, vec_get. rewrite Hr. cbn. eexists. split; [done|].
  rewrite Hrows. split; try done. split; [cbn; by rewrite length_alter|].
  by apply (index_ok_alter f i a).
Qed.

Lemma bal_then_writes f i a :
  keeps_record f → acc_ok a → (i < length (rows a))%nat →
  ∃ a', (a ← bal_write_at i a; upd_row f i a) = Ok a' ∧ writes f i a a'.
Proof.
  intros Hf Hok Hi. destruct (bal_write_at_spec i a Hok Hi) as (ob & -> & Hob & Hsim). cbn.
  destruct (upd_row_writes f i (put_bal ob a)) as (a' & -> & Hw);
    [done|destruct Hok; by split|done|].
  exists a'. split; [done|]. destruct Hw as [? ? ? Hs ? ?]. split; try done. by etrans.
Qed.

(** The row functions of the writes. *)
Definition w_balance (v t : Z) (r : Row) : Row :=
  let m := mods r in
  mkRow (record r) (mkMods true (nonce_dirty m) (code_hash_dirty m) v (m_nonce m) (m_code_hash m) t)
    (leaf r).
Definition w_nonce (v t : Z) (r : Row) : Row :=
  let m := mods r in
  mkRow (record r) (mkMods (balance_dirty m) true (code_hash_dirty m) (m_balance m) v (m_code_hash m) t)
    (leaf r).
Definition w_code_hash (v t : Z) (r : Row) : Row :=
  let m := mods r in
  mkRow (record r) (mkMods (balance_dirty m) (nonce_dirty m) true (m_balance m) (m_nonce m) v t)
    (leaf r).
Definition w_warm (t : Z) (r : Row) : Row := mkRow (record r) (with_last (mods r) t) (leaf r).
Definition w_touch (t : Z) (r : Row) : Row :=
  mkRow (record r) (if last_tx_idx (mods r) <? t then with_last (mods r) t else mods r) (leaf r).

Lemma set_balance_at_writes i v t a :
  acc_ok a → (i < length (rows a))%nat →
  ∃ a', set_balance_at i v t a = Ok a' ∧ writes (w_balance v t) i a a'.
Proof. by apply bal_then_writes. Qed.
Lemma set_nonce_at_writes i v t a :
  acc_ok a → (i < length (rows a))%nat →
  ∃ a', set_nonce_at i v t a = Ok a' ∧ writes (w_nonce v t) i a a'.
Proof. by apply bal_then_writes. Qed.
Lemma set_code_hash_at_writes i v t a :
  acc_ok a → (i < length (rows a))%nat →
  ∃ a', set_code_hash_at i v t a = Ok a' ∧ writes (w_code_hash v t) i a a'.
Proof. by apply bal_then_writes. Qed.
Lemma set_warm_at_writes i t a :
  acc_ok a → (i < length (rows a))%nat →
  ∃ a', set_warm_at i t a = Ok a' ∧ writes (w_warm t) i a a'.
Proof. by apply upd_row_writes. Qed.
Lemma mark_touched_at_writes i t a :
  acc_ok a → (i < length (rows a))%nat →
  ∃ a', mark_touched_at i t a = Ok a' ∧ writes (w_touch t) i a a'.
Proof. by apply upd_row_writes. Qed.

Lemma writes_proper f i a a' b b' :
  (∀ r r', row_equiv r r' → row_equiv (f r) (f r')) →
  writes f i a a' → writes f i b b' → equiv a b → equiv a' b'.
Proof.
  intros Hf [? ? ? Ha Hr _] [? ? ? Hb Hr' _] [? ? ? Hab Hrows].
  split; try congruence; [unfold bal_sim in *; tauto|]. rewrite Hr, Hr'. by apply Forall2_alter; auto.
Qed.

(** Undoing a write: the second write brings row [i] back. *)
Lemma writes_undo f g i a b c r :
  rows a !! i = Some r → row_equiv (g (f r)) r → writes f i a b → writes g i b c → equiv c a.
Proof.
  intros Hi Hfg [? ? ? Hb Hr _] [? ? ? Hb' Hr' _].
  split; try congruence; [unfold bal_sim in *; tauto|]. rewrite Hr', Hr.
  apply Forall2_same_length_lookup.
  rewrite !length_alter. split; [done|]. intros j x y. rewrite !list_lookup_alter.
  rewrite (decide_True (P := i = i)) by done.
  destruct (decide (i = j)) as [<-|]; [rewrite Hi; cbn|]; intros; by simplify_eq.
Qed.

(** A write the equivalence does not see. *)
Lemma writes_silent f i a b r :
  rows a !! i = Some r → row_equiv (f r) r → writes f i a b → equiv b a.
Proof.
  intros Hi Hf [? ? ? Hb Hr _]. split; try congruence; [unfold bal_sim in *; tauto|].
  rewrite Hr. apply Forall2_same_length_lookup. rewrite length_alter. split; [done|].
  intros j x y. rewrite list_lookup_alter.
  destruct (decide (i = j)) as [<-|]; [rewrite Hi; cbn|]; intros; by simplify_eq.
Qed.

End Equiv.

End Accounts.
