(* ===== verification/Keccak.v ===== *)
(** Keccak-256 as the guest computes it: the sponge of [zisk/keccak_zisk.cpp] over the
    memo of the Keccak-f permutation ([include/zeg/keccakf_cache.hpp]).  The memo asks
    the executor, which is not trusted, where a state was filed.

    The permutation itself is a precompile of the VM and a parameter here, and so is
    the executor.  The reference is the padded sponge of the Keccak submission; the
    last module runs the code with the permutation of FIPS 202. *)

From stdpp Require Import base numbers list strings gmap.
From S2P Require Import Prelude Accounts.

Module Keccak.

(** ** The memo of the permutation *)

Definition kLanes : nat := 25.
Definition kNotFound : Z := 2 ^ 64 - 1.
Definition kEntries : Z := 262144.

Record Entry := mkEntry { in_ : list Z; out : list Z }.

(** The table lies in zeroed memory. *)
Definition zero_entry : Entry := mkEntry (replicate kLanes 0) (replicate kLanes 0).

(** What the guest can ask of the executor, and what the executor sees: its answer to
    a lookup is any number, and it may remember whatever it likes. *)
Class Executor (E : Type) := {
  get_index : list Z → E → Z * E;
  set_index : Z → E → E;
  permuted : list Z → E → E;
}.

Record Memo (E : Type) := mkMemo { g_table : gmap Z Entry; g_used : Z; executor : E }.
Arguments mkMemo {E} _ _ _.
Arguments g_table {E} _.
Arguments g_used {E} _.
Arguments executor {E} _.

Definition initial {E} (e : E) : Memo E := mkMemo ∅ 0 e.

Definition K (E A : Type) : Type := Memo E → res (A * Memo E).
#[export] Instance K_ret {E} : MRet (K E) := λ A a m, Ok (a, m).
#[export] Instance K_bind {E} : MBind (K E) := λ A B f k m,
  match k m with
  | Ok (a, m) => f a m
  | Fatal e => Fatal e
  end.

(** [g_table[i]], inside the array or an error. *)
Definition table_get {E} (i : Z) : K E Entry := λ m,
  if (0 <=? i) && (i <? kEntries) then Ok (default zero_entry (g_table m !! i), m)
  else Fatal "g_table: out of range".
Definition table_set {E} (i : Z) (e : Entry) : K E unit := λ m,
  if (0 <=? i) && (i <? kEntries) then Ok (tt, mkMemo (<[i := e]> (g_table m)) (g_used m) (executor m))
  else Fatal "g_table: out of range".
Definition used {E} : K E Z := λ m, Ok (g_used m, m).
Definition publish {E} : K E unit := λ m, Ok (tt, mkMemo (g_table m) (g_used m + 1) (executor m)).
Definition lift {E A} (r : res A) : K E A := λ m, match r with Ok a => Ok (a, m) | Fatal e => Fatal e end.

Section Memo.
Context (zkvm_keccak_f1600 : list Z → list Z) {E : Type} {X : Executor E}.

Definition syscall_keccakf (state : list Z) : K E (list Z) := λ m,
  Ok (zkvm_keccak_f1600 state, mkMemo (g_table m) (g_used m) (permuted state (executor m))).

Definition fcall_set_index (index : Z) : K E unit := λ m,
  Ok (tt, mkMemo (g_table m) (g_used m) (set_index index (executor m))).

(** The answer arrives in a 64-bit register. *)
Definition fcall_get_index (state : list Z) : K E Z := λ m,
  let '(index, e) := get_index state (executor m) in
  Ok (u64 index, mkMemo (g_table m) (g_used m) e).

(** The entry a lookup answer points at, if it is in range and holds [state]. *)
Definition probe (index n : Z) (state : list Z) : K E (option Entry) :=
  if index <? n then
    e ← table_get index; mret (if bool_decide (in_ e = state) then Some e else None)
  else mret None.

Definition zisk_keccakf (state : list Z) : K E (list Z) :=
  index ← fcall_get_index state;
  n ← used;
  hit ← probe index n state;
  match hit with
  | Some e => mret (out e)
  | None =>
      if n =? kEntries then syscall_keccakf state
      else
        e ← table_get n;
        table_set n (mkEntry state (out e));;
        fcall_set_index n;;
        state ← syscall_keccakf state;
        e ← table_get n;
        table_set n (mkEntry (in_ e) state);;
        publish;;
        mret state
  end.

(** ** The sponge *)

Definition word_size : nat := 8.
Definition hash_size : nat := 32.
Definition block_size : nat := 136.
Definition rate_words : nat := 17.

(** The 8 bytes at [p] as a lane, and [n] lanes seen as bytes. *)
Definition load_lane (p : bytes) : res Z := l ← mem_read p 0 8; Ok (le_val l).
Definition lanes_of (n : nat) (l : bytes) : list Z := le_val <$> reshape (replicate n word_size) l.
Definition bytes_of (state : list Z) : bytes := mjoin (le_bytes word_size <$> state).

(** [state[i] ^= v] *)
Definition xor_lane (state : list Z) (i : nat) (v : Z) : res (list Z) :=
  x ← vec_get state i; vec_set state i (Z.lxor x v).

(** [for (i = 0; i < n; ++i) state[i] ^= load_lane(data)], from lane [i] on. *)
Fixpoint absorb_words (n i : nat) (state : list Z) (data : bytes) : res (list Z * bytes) :=
  match n with
  | O => Ok (state, data)
  | S n =>
      v ← load_lane data;
      state ← xor_lane state i v;
      absorb_words n (S i) state (drop word_size data)
  end.

(** [while (size >= block_size)] *)
Fixpoint absorb_blocks (fuel : nat) (state : list Z) (data : bytes) : K E (list Z * bytes) :=
  match fuel with
  | O => lift (Fatal "fuel")
  | S fuel =>
      if (block_size <=? length data)%nat then
        '(state, data) ← lift (absorb_words (block_size / word_size) 0 state data);
        state ← zisk_keccakf state;
        absorb_blocks fuel state data
      else mret (state, data)
  end.

(** [while (size >= word_size)]: the state, [state_iter] and the bytes left. *)
Fixpoint absorb_rest (fuel : nat) (state : list Z) (state_iter : nat) (data : bytes) :
    res (list Z * nat * bytes) :=
  match fuel with
  | O => Fatal "fuel"
  | S fuel =>
      if (word_size <=? length data)%nat then
        v ← load_lane data;
        state ← xor_lane state state_iter v;
        absorb_rest fuel state (S state_iter) (drop word_size data)
      else Ok (state, state_iter, data)
  end.

(** The trailing bytes and the domain byte, in the bytes of a u64. *)
Definition last_word (data : bytes) : res Z :=
  let word := replicate word_size Byte.x00 in
  word ← (if (0 <? length data)%nat then mem_write word 0 data else Ok word);
  word ← mem_write word (Z.of_nat (length data)) [Byte.x01];
  Ok (le_val word).

Definition first_block (data : bytes) : K E (list Z * bytes) :=
  if (block_size <=? length data)%nat then
    block ← lift (mem_read data 0 (Z.of_nat block_size));
    state ← zisk_keccakf (lanes_of rate_words block ++ replicate (kLanes - rate_words) 0);
    mret (state, drop block_size data)
  else mret (replicate kLanes 0, data).

Definition keccak256_compute (data : bytes) : K E bytes :=
  '(state, data) ← first_block data;
  '(state, data) ← absorb_blocks (S (length data)) state data;
  '(state, state_iter, data) ← lift (absorb_rest (S (length data)) state 0 data);
  word ← lift (last_word data);
  state ← lift (xor_lane state state_iter word);
  state ← lift (xor_lane state (block_size / word_size - 1) 0x8000000000000000);
  state ← zisk_keccakf state;
  mret (take hash_size (bytes_of state)).

(** The digest, as the number its bytes denote. *)
Definition ethash_keccak256 (data : bytes) : K E Z :=
  hash ← keccak256_compute data; mret (be_val hash).

(** A sequence of permutations, and of hashes, on one memo. *)
Fixpoint permutations (states : list (list Z)) : K E (list (list Z)) :=
  match states with
  | [] => mret []
  | s :: states => o ← zisk_keccakf s; os ← permutations states; mret (o :: os)
  end.

Fixpoint hashes (msgs : list bytes) : K E (list Z) :=
  match msgs with
  | [] => mret []
  | d :: msgs => h ← ethash_keccak256 d; hs ← hashes msgs; mret (h :: hs)
  end.

End Memo.

(** ** The reference: pad10*1 and the sponge *)

Definition pad (msg : bytes) : bytes :=
  let q := (block_size - length msg mod block_size)%nat in
  msg ++ match q with
         | 1%nat => [Byte.x81]
         | _ => Byte.x01 :: replicate (q - 2) Byte.x00 ++ [Byte.x80]
         end.

Section Spec.
Context (f : list Z → list Z).

Definition absorb (state : list Z) (block : bytes) : list Z :=
  f (zip_with Z.lxor state (lanes_of rate_words block ++ replicate (kLanes - rate_words) 0)).

Definition sponge (msg : bytes) : list Z :=
  let p := pad msg in
  foldl absorb (replicate kLanes 0) (reshape (replicate (length p / block_size) block_size) p).

Definition keccak256 (msg : bytes) : Z := be_val (take hash_size (bytes_of (sponge msg))).
End Spec.

(** ** The memo returns the permutation's output, whatever it is told *)

Section Sound.
Context (f : list Z → list Z) {E : Type} {X : Executor E}.

(** Every entry in range was written by a run of the permutation. *)
Definition memo_ok (m : Memo E) : Prop :=
  0 ≤ g_used m ≤ kEntries ∧
  ∀ i, 0 ≤ i < g_used m → ∃ e, g_table m !! i = Some e ∧ out e = f (in_ e).

Lemma initial_ok (e : E) : memo_ok (initial e).
Proof. split; cbn; [unfold kEntries; lia|]. intros. lia. Qed.

(** [yields k a]: from any sound memo [k] returns [a] and leaves a sound memo. *)
Definition yields {A} (k : K E A) (a : A) : Prop :=
  ∀ m, memo_ok m → ∃ m', k m = Ok (a, m') ∧ memo_ok m'.

Lemma yields_ret {A} (a : A) : yields (mret a) a.
Proof. intros m Hm. by exists m. Qed.

Lemma yields_lift {A} (r : res A) a : r = Ok a → yields (lift r) a.
Proof. intros -> m Hm. by exists m. Qed.

Lemma yields_bind {A B} (k : K E A) (g : A → K E B) a b :
  yields k a → yields (g a) b → yields (k ≫= g) b.
Proof.
  intros Hk Hg m Hm. destruct (Hk m Hm) as (m1 & Hr & Hm1).
  destruct (Hg m1 Hm1) as (m2 & Hr2 & Hm2). exists m2. split; [|done].
  unfold mbind, K_bind. by rewrite Hr.
Qed.

Lemma table_get_in (i : Z) (m : Memo E) :
  0 ≤ i < kEntries → table_get i m = Ok (default zero_entry (g_table m !! i), m).
Proof. intros. unfold table_get. rewrite (proj2 (Z.leb_le 0 i)), (proj2 (Z.ltb_lt _ _)) by lia. done. Qed.

Lemma table_set_in (i : Z) e (m : Memo E) :
  0 ≤ i < kEntries → table_set i e m = Ok (tt, mkMemo (<[i := e]> (g_table m)) (g_used m) (executor m)).
Proof. intros. unfold table_set. rewrite (proj2 (Z.leb_le 0 i)), (proj2 (Z.ltb_lt _ _)) by lia. done. Qed.

(** What the probe accepts holds the state and its image. *)
Lemma probe_run (index : Z) state (m : Memo E) :
  memo_ok m → 0 ≤ index →
  (probe index (g_used m) state m = Ok (None, m)) ∨
  (∃ e, probe index (g_used m) state m = Ok (Some e, m) ∧ out e = f state).
Proof.
  intros [Hu Ht] Hi. unfold probe. destruct (Z.ltb_spec index (g_used m)); [|by left].
  unfold mbind, K_bind. rewrite table_get_in by lia.
  destruct (Ht index) as (e & He & Ho); [lia|]. rewrite He. cbn.
  destruct (bool_decide_reflect (in_ e = state)) as [<-|]; [right; by exists e|by left].
Qed.

(** The memo after a miss with room left. *)
Definition filed (m : Memo E) (state : list Z) (x : E) : Memo E :=
  mkMemo (<[g_used m := mkEntry state (f state)]> (g_table m)) (g_used m + 1)
    (permuted state (set_index (g_used m) x)).

Lemma filed_ok m state x : memo_ok m → g_used m < kEntries → memo_ok (filed m state x).
Proof.
  intros [Hu Ht] Hlt. split; cbn; [lia|]. intros i Hi.
  destruct (decide (i = g_used m)) as [->|]; [exists (mkEntry state (f state)); by rewrite lookup_insert_eq|].
  rewrite lookup_insert_ne by done. apply Ht. lia.
Qed.

Lemma zisk_keccakf_cases state (m : Memo E) :
  memo_ok m →
  let '(i, x) := get_index state (executor m) in
  let m0 := mkMemo (g_table m) (g_used m) x in
  zisk_keccakf f state m =
    match probe (u64 i) (g_used m) state m0 with
    | Ok (Some e, _) => Ok (out e, m0)
    | _ => if g_used m =? kEntries then
             Ok (f state, mkMemo (g_table m) (g_used m) (permuted state x))
           else Ok (f state, filed m state x)
    end.
Proof.
  intros Hm. destruct (get_index state (executor m)) as [i x] eqn:Hg. cbn zeta.
  set (m0 := mkMemo (g_table m) (g_used m) x).
  assert (Hm0 : memo_ok m0) by exact Hm.
  unfold zisk_keccakf. unfold mbind at 1, K_bind at 1. unfold fcall_get_index. rewrite Hg.
  fold m0. unfold mbind at 1, K_bind at 1, used. unfold mbind at 1, K_bind at 1. change (g_used m0) with (g_used m).
  destruct (probe_run (u64 i) state m0 Hm0) as [Hp|(e & Hp & Ho)]; [apply Z.mod_pos_bound; lia| |];
    change (g_used m0) with (g_used m) in Hp; rewrite Hp; [|done].
  destruct (Z.eqb_spec (g_used m) kEntries); [done|].
  destruct Hm as [Hu _]. unfold mbind, K_bind.
  rewrite table_get_in by lia. rewrite table_set_in by lia. cbn -[table_get table_set].
  rewrite table_get_in by lia. rewrite table_set_in by lia. cbn.
  rewrite lookup_insert_eq, insert_insert_eq. done.
Qed.

Lemma zisk_keccakf_yields state : yields (zisk_keccakf f state) (f state).
Proof.
  intros m Hm. pose proof (zisk_keccakf_cases state m Hm) as Hr.
  destruct (get_index state (executor m)) as [i x]. cbn zeta in Hr.
  set (m0 := mkMemo (g_table m) (g_used m) x) in *.
  assert (Hm0 : memo_ok m0) by exact Hm.
  destruct (probe_run (u64 i) state m0 Hm0) as [Hp|(e & Hp & Ho)]; [apply Z.mod_pos_bound; lia| |];
    change (g_used m0) with (g_used m) in Hp; rewrite Hp in Hr.
  - destruct (Z.eqb_spec (g_used m) kEntries).
    + eexists. split; [exact Hr|]. exact Hm.
    + eexists. split; [exact Hr|]. apply filed_ok; [done|]. destruct Hm. lia.
  - exists m0. rewrite Hr, Ho. done.
Qed.

End Sound.

(** ** Lanes and blocks *)

(** XOR of the first lanes of a state. *)
Fixpoint xor_lanes (state L : list Z) : list Z :=
  match state, L with
  | x :: state, y :: L => Z.lxor x y :: xor_lanes state L
  | _, _ => state
  end.

Lemma length_xor_lanes state L : length (xor_lanes state L) = length state.
Proof. revert L. induction state as [|x state IH]; intros [|y L]; cbn; auto. Qed.

Lemma xor_lanes_zeros state L n : xor_lanes state (L ++ replicate n 0) = xor_lanes state L.
Proof.
  revert L n. induction state as [|x state IH]; intros [|y L] n; cbn; try done.
  - destruct n as [|n]; cbn; [done|]. rewrite Z.lxor_0_r. f_equal. etrans; [apply (IH [] n)|]. by destruct state.
  - f_equal. apply IH.
Qed.

Lemma xor_lanes_zip state L :
  (length L ≤ length state)%nat →
  zip_with Z.lxor state (L ++ replicate (length state - length L) 0) = xor_lanes state L.
Proof.
  revert L. induction state as [|x state IH]; intros [|y L] Hl; cbn in *; try done; try lia.
  - rewrite Z.lxor_0_r. f_equal. specialize (IH []). cbn in IH. rewrite Nat.sub_0_r in IH.
    rewrite IH by lia. by destruct state.
  - f_equal. apply IH. lia.
Qed.

Lemma xor_lane_run state i x v :
  state !! i = Some x → xor_lane state i v = Ok (<[i := Z.lxor x v]> state).
Proof. intros H. unfold xor_lane, vec_get, vec_set. rewrite H. done. Qed.

(** The next lane of a state whose first lanes are done. *)
Lemma xor_lane_snoc state L v :
  (length L < length state)%nat → xor_lane (xor_lanes state L) (length L) v = Ok (xor_lanes state (L ++ [v])).
Proof.
  intros Hl.
  assert (∃ x, xor_lanes state L !! length L = Some x ∧
    <[length L := Z.lxor x v]> (xor_lanes state L) = xor_lanes state (L ++ [v])) as (x & Hx & Hs).
  { revert L Hl. induction state as [|x state IH]; intros [|y L] Hl; cbn in *; try lia.
    - exists x. by destruct state.
    - destruct (IH L) as (z & Hz & Hs); [lia|]. exists z. split; [done|]. f_equal. exact Hs. }
  by rewrite (xor_lane_run _ _ _ _ Hx), Hs.
Qed.

(** A lane that gets two values. *)
Lemma xor_lane_last state L v c :
  (length L < length state)%nat →
  xor_lane (xor_lanes state (L ++ [v])) (length L) c = Ok (xor_lanes state (L ++ [Z.lxor v c])).
Proof.
  intros Hl.
  assert (∃ x, xor_lanes state (L ++ [v]) !! length L = Some x ∧
    <[length L := Z.lxor x c]> (xor_lanes state (L ++ [v])) = xor_lanes state (L ++ [Z.lxor v c])) as (x & Hx & Hs).
  { revert L Hl. induction state as [|x state IH]; intros [|y L] Hl; cbn in *; try lia.
    - exists (Z.lxor x v). rewrite Z.lxor_assoc. by destruct state.
    - destruct (IH L) as (z & Hz & Hs); [lia|]. exists z. split; [done|]. f_equal. exact Hs. }
  by rewrite (xor_lane_run _ _ _ _ Hx), Hs.
Qed.

Lemma length_lanes_of n l : length (lanes_of n l) = n.
Proof. unfold lanes_of. by rewrite length_fmap, length_reshape, length_replicate. Qed.

Lemma lanes_of_S n l : lanes_of (S n) l = le_val (take word_size l) :: lanes_of n (drop word_size l).
Proof. done. Qed.

Lemma lanes_of_add n k l : lanes_of (n + k) l = lanes_of n l ++ lanes_of k (drop (n * word_size) l).
Proof.
  revert l. induction n as [|n IH]; intros l; [done|].
  cbn [Nat.add]. rewrite !lanes_of_S, IH, drop_drop. done.
Qed.

Lemma lanes_of_app n l r : (n * word_size ≤ length l)%nat → lanes_of n (l ++ r) = lanes_of n l.
Proof.
  revert l. induction n as [|n IH]; intros l Hl; [done|]. cbn [Nat.mul] in Hl. rewrite !lanes_of_S.
  rewrite take_app_le, drop_app_le by lia. rewrite IH; [done|]. rewrite length_drop. lia.
Qed.

Lemma le_val_zero_bytes n : le_val (replicate n Byte.x00) = 0.
Proof.
  unfold le_val. rewrite reverse_replicate, <- (app_nil_r (replicate n Byte.x00)), be_val_zeros. done.
Qed.

Lemma lanes_of_zeros n k : lanes_of n (replicate k Byte.x00) = replicate n 0.
Proof.
  revert k. induction n as [|n IH]; intros k; [done|].
  rewrite lanes_of_S, take_replicate, drop_replicate, IH, le_val_zero_bytes. done.
Qed.

Lemma reshape_add {A} (n k m : nat) (l : list A) :
  reshape (replicate (n + k) m) l = reshape (replicate n m) l ++ reshape (replicate k m) (drop (n * m) l).
Proof.
  revert l. induction n as [|n IH]; intros l; [done|]. cbn. rewrite IH, drop_drop. done.
Qed.

Lemma reshape_app {A} (n m : nat) (l r : list A) :
  (n * m ≤ length l)%nat → reshape (replicate n m) (l ++ r) = reshape (replicate n m) l.
Proof.
  revert l. induction n as [|n IH]; intros l Hl; [done|]. cbn in *.
  rewrite take_app_le, drop_app_le by lia. rewrite IH; [done|]. rewrite length_drop. lia.
Qed.

(** ** The loops of the sponge *)

Lemma div_drop {A} (n : nat) (l : list A) :
  (0 < n)%nat → (n ≤ length l)%nat → (length l / n = S (length (drop n l) / n))%nat.
Proof.
  intros Hn Hl. rewrite length_drop. replace (length l) with (length l - n + 1 * n)%nat at 1 by lia.
  rewrite Nat.div_add by lia. lia.
Qed.

Lemma load_lane_run data : (word_size ≤ length data)%nat → load_lane data = Ok (le_val (take word_size data)).
Proof.
  intros H. unfold load_lane, mem_read, word_size in *. cbn [andb].
  rewrite (proj2 (Z.leb_le (0 + 8) _)) by lia. done.
Qed.

Lemma absorb_words_run n L state data :
  (n * word_size ≤ length data)%nat → (length L + n ≤ length state)%nat →
  absorb_words n (length L) (xor_lanes state L) data =
    Ok (xor_lanes state (L ++ lanes_of n data), drop (n * word_size) data).
Proof.
  revert L data. induction n as [|n IH]; intros L data Hd Hs; cbn [absorb_words].
  { cbn. by rewrite app_nil_r. }
  cbn [Nat.mul] in Hd. rewrite load_lane_run by lia. unfold mbind, res_bind.
  rewrite xor_lane_snoc by lia.
  replace (S (length L)) with (length (L ++ [le_val (take word_size data)])) by (rewrite length_app; cbn; lia).
  rewrite IH by (rewrite ?length_drop, ?length_app; cbn [length]; lia).
  rewrite lanes_of_S, <- app_assoc, drop_drop. done.
Qed.

Lemma absorb_rest_words fuel state i data :
  (length data < fuel * word_size)%nat →
  absorb_rest fuel state i data =
    ('(state, rest) ← absorb_words (length data / word_size) i state data;
     Ok (state, (i + length data / word_size)%nat, rest)).
Proof.
  revert state i data. induction fuel as [|fuel IH]; intros state i data Hf; [lia|]. cbn [absorb_rest].
  destruct (Nat.leb_spec word_size (length data)) as [Hd|Hd].
  - assert (Hq : (length data / word_size = S (length (drop word_size data) / word_size))%nat)
      by (apply div_drop; [unfold word_size; lia|done]).
    rewrite Hq. cbn [absorb_words]. unfold mbind, res_bind.
    destruct (load_lane data) as [v|]; [|done]. destruct (xor_lane state i v) as [state'|]; [|done].
    rewrite IH by (rewrite length_drop; cbn [Nat.mul] in Hf; lia). unfold mbind, res_bind.
    destruct (absorb_words _ _ _ _) as [[? ?]|]; [|done]. by rewrite Nat.add_succ_r.
  - rewrite (Nat.div_small (length data)) by done. cbn. by rewrite Nat.add_0_r.
Qed.

Lemma last_word_run t :
  (length t < word_size)%nat →
  last_word t = Ok (le_val (t ++ Byte.x01 :: replicate (word_size - 1 - length t) Byte.x00)).
Proof.
  unfold word_size. intros Ht. unfold last_word.
  assert (H : (if (0 <? length t)%nat then mem_write (replicate word_size Byte.x00) 0 t
               else Ok (replicate word_size Byte.x00)) = Ok (t ++ replicate (word_size - length t) Byte.x00)).
  { destruct (Nat.ltb_spec 0 (length t)) as [H0|H0].
    - unfold mem_write, word_size. rewrite length_replicate. change (0 <=? 0) with true. cbn [andb].
      rewrite (proj2 (Z.leb_le _ _)) by lia. cbn [Z.to_nat take app]. rewrite drop_replicate. done.
    - destruct t; [done|cbn in H0; lia]. }
  rewrite H. unfold mbind, res_bind. unfold mem_write. rewrite length_app, length_replicate.
  rewrite (proj2 (Z.leb_le 0 _)), (proj2 (Z.leb_le _ _)) by (unfold word_size; cbn [length]; lia).
  rewrite Nat2Z.id, take_app_length, <- drop_drop, drop_app_length, drop_replicate.
  cbn [andb app length]. replace (word_size - length t - 1)%nat with (8 - 1 - length t)%nat by (unfold word_size; lia). done.
Qed.

(** The terminator sets the top bit of the last lane, which the message and the domain
    byte leave clear. *)
Lemma le_val_top l b :
  length l = 7%nat → b2z b < 128 →
  Z.lxor (le_val (l ++ [b])) 0x8000000000000000 = le_val (l ++ [z2b (b2z b + 128)]).
Proof.
  intros Hl Hb. pose proof (b2z_range b). pose proof (le_val_bound l) as Hv. rewrite Hl in Hv.
  unfold le_val in *. rewrite !reverse_app. cbn [reverse rev_append app]. rewrite !be_val_cons, length_reverse, Hl.
  rewrite b2z_z2b_small by lia. change (256 ^ Z.of_nat 7) with (2 ^ 56) in *.
  set (v := b2z b * 2 ^ 56 + be_val (reverse l)).
  assert (0 ≤ v < 2 ^ 63) by (unfold v; lia).
  rewrite Z.lxor_comm, <- Z.add_nocarry_lxor; [unfold v; lia|].
  change 0x8000000000000000 with (2 ^ 63). apply Z.bits_inj'. intros n Hn.
  rewrite Z.land_spec, Z.bits_0, Z.pow2_bits_eqb by lia.
  destruct (Z.eqb_spec 63 n) as [<-|]; [|done]. rewrite andb_true_l.
  apply Z.bits_above_log2; [lia|]. destruct (decide (v = 0)) as [->|]; [done|]. apply Z.log2_lt_pow2; lia.
Qed.

(** ** The padded last block *)

(** The message's tail with the domain byte, zero-filled, before the terminator. *)
Definition tail_block (r : bytes) : bytes := r ++ Byte.x01 :: replicate (135 - length r) Byte.x00.
Definition last_block (r : bytes) : bytes :=
  r ++ match (136 - length r)%nat with
       | 1%nat => [Byte.x81]
       | q => Byte.x01 :: replicate (q - 2) Byte.x00 ++ [Byte.x80]
       end.

Lemma block_split r :
  (length r < block_size)%nat →
  ∃ p b, length p = 135%nat ∧ b2z b < 128 ∧ tail_block r = p ++ [b] ∧ last_block r = p ++ [z2b (b2z b + 128)].
Proof.
  unfold block_size. intros Hr. unfold tail_block, last_block.
  destruct (decide (length r = 135%nat)) as [H|H].
  - exists r, Byte.x01. by rewrite H.
  - exists (r ++ Byte.x01 :: replicate (134 - length r) Byte.x00), Byte.x00. split_and!; [|done| |].
    + rewrite length_app. cbn [length]. rewrite length_replicate. lia.
    + rewrite <- app_assoc. cbn [app]. replace (135 - length r)%nat with (134 - length r + 1)%nat by lia.
      by rewrite replicate_add.
    + destruct (136 - length r)%nat as [|[|q]] eqn:Hq; [lia|lia|].
      rewrite <- app_assoc. cbn [app]. by replace (134 - length r)%nat with (S (S q) - 2)%nat by lia.
Qed.

(** The lanes of the tail: its whole words, the word with the domain byte, zeros. *)
Lemma tail_lanes r w :
  (w * 8 ≤ length r < w * 8 + 8)%nat → (length r < 136)%nat →
  let t := drop (w * word_size) r in
  lanes_of rate_words (tail_block r) =
    (lanes_of w r ++ [le_val (t ++ Byte.x01 :: replicate (word_size - 1 - length t) Byte.x00)])
      ++ replicate (16 - w) 0.
Proof.
  intros Hw Hr t. unfold rate_words, word_size.
  assert (Ht : length t = (length r - w * 8)%nat) by (unfold t, word_size; by rewrite length_drop).
  replace 17%nat with (w + (1 + (16 - w)))%nat by lia. unfold tail_block.
  rewrite !lanes_of_add, lanes_of_app by (unfold word_size; lia). rewrite <- app_assoc. f_equal.
  rewrite drop_app_le by (unfold word_size; lia). fold t. unfold word_size. cbn [Nat.mul Nat.add].
  replace (135 - length r)%nat with (8 - 1 - length t + (16 - w) * 8)%nat by lia.
  rewrite replicate_add, app_comm_cons, app_assoc.
  assert (Hv : length (t ++ Byte.x01 :: replicate (8 - 1 - length t) Byte.x00) = 8%nat)
    by (rewrite length_app; cbn [length]; rewrite length_replicate; lia).
  rewrite lanes_of_app by (unfold word_size; lia). rewrite drop_app_length' by done.
  rewrite lanes_of_zeros, lanes_of_S. unfold word_size. rewrite firstn_all2 by lia. done.
Qed.

Lemma lanes_of_block p c :
  length p = 135%nat → lanes_of rate_words (p ++ [c]) = lanes_of 16 p ++ [le_val (drop 128 p ++ [c])].
Proof.
  intros Hp. change rate_words with (16 + 1)%nat. rewrite lanes_of_add, lanes_of_app by (unfold word_size; lia).
  f_equal. rewrite drop_app_le by (unfold word_size; lia). rewrite lanes_of_S. unfold word_size.
  rewrite firstn_all2; [done|]. rewrite length_app, length_drop. cbn [length]. lia.
Qed.

(** The code's steps on the last block XOR the padded block into the state. *)
Lemma finish_run state r :
  length state = kLanes → (length r < block_size)%nat →
  ∃ i data word state1 state2,
    absorb_rest (S (length r)) state 0 r = Ok (state1, i, data) ∧ last_word data = Ok word ∧
    xor_lane state1 i word = Ok state2 ∧
    xor_lane state2 (block_size / word_size - 1) 0x8000000000000000 =
      Ok (xor_lanes state (lanes_of rate_words (last_block r))).
Proof.
  intros Hs Hr. set (w := (length r / word_size)%nat).
  assert (Hw : (w * 8 ≤ length r < w * 8 + 8)%nat).
  { pose proof (Nat.div_mod_eq (length r) 8). pose proof (Nat.mod_upper_bound (length r) 8).
    unfold w, word_size. lia. }
  pose proof (tail_lanes r w Hw Hr) as Hl. cbn zeta in Hl. unfold block_size, kLanes in *.
  set (t := drop (w * word_size) r) in *.
  assert (Ht : length t = (length r - w * 8)%nat) by (unfold t, word_size; by rewrite length_drop).
  eexists w, t, _, (xor_lanes state (lanes_of w r)), (xor_lanes state (lanes_of rate_words (tail_block r))).
  split_and!.
  - rewrite absorb_rest_words by (unfold word_size; lia). fold w.
    pose proof (absorb_words_run w [] state r) as Ha. cbn [length] in Ha.
    replace (xor_lanes state []) with state in Ha by (by destruct state).
    rewrite Ha by (unfold word_size; lia). done.
  - apply last_word_run. unfold word_size. lia.
  - rewrite Hl, xor_lanes_zeros. rewrite <- (length_lanes_of w r) at 2.
    apply xor_lane_snoc. rewrite length_lanes_of. lia.
  - destruct (block_split r Hr) as (p & b & Hp & Hb & -> & ->).
    rewrite !lanes_of_block by done. rewrite <- le_val_top by (rewrite ?length_drop; lia).
    rewrite <- (length_lanes_of 16 p) at 2. apply xor_lane_last. rewrite length_lanes_of. lia.
Qed.

(** ** The sponge of the code is the reference *)

Section Correct.
Context (f : list Z → list Z) {E : Type} {X : Executor E}.
Context (f_lanes : ∀ s, length s = kLanes → length (f s) = kLanes).

Lemma absorb_xor state block : length state = kLanes →
  absorb f state block = f (xor_lanes state (lanes_of rate_words block)).
Proof.
  intros Hs. unfold absorb. rewrite <- (xor_lanes_zip state), length_lanes_of, Hs; [done|].
  rewrite length_lanes_of, Hs. unfold rate_words, kLanes. lia.
Qed.

Lemma length_absorb state block : length state = kLanes → length (absorb f state block) = kLanes.
Proof. intros Hs. rewrite absorb_xor by done. apply f_lanes. by rewrite length_xor_lanes. Qed.

Lemma length_absorb_all state blocks :
  length state = kLanes → length (foldl (absorb f) state blocks) = kLanes.
Proof. revert state. induction blocks; intros; cbn; auto using length_absorb. Qed.

Lemma first_block_yields data :
  yields f (first_block f data)
    (if (block_size <=? length data)%nat then
       (absorb f (replicate kLanes 0) (take block_size data), drop block_size data)
     else (replicate kLanes 0, data)).
Proof.
  unfold first_block. destruct (Nat.leb_spec block_size (length data)) as [Hd|Hd]; [|apply yields_ret].
  eapply yields_bind.
  { apply yields_lift. unfold mem_read. unfold block_size in *.
    rewrite (proj2 (Z.leb_le (0 + Z.of_nat 136) _)) by lia. reflexivity. }
  eapply yields_bind; [apply zisk_keccakf_yields|].
  exact (yields_ret f (_, _)).
Qed.

Lemma absorb_blocks_yields fuel state data :
  length state = kLanes → (length data < fuel * block_size)%nat →
  let k := (length data / block_size)%nat in
  yields f (absorb_blocks f fuel state data)
    (foldl (absorb f) state (reshape (replicate k block_size) data), drop (k * block_size) data).
Proof.
  revert state data. induction fuel as [|fuel IH]; intros state data Hs Hf k; [lia|]. cbn [absorb_blocks].
  subst k. destruct (Nat.leb_spec block_size (length data)) as [Hd|Hd].
  - assert (Hq : (length data / block_size = S (length (drop block_size data) / block_size))%nat)
      by (apply div_drop; [unfold block_size; lia|done]).
    rewrite Hq. cbn [replicate reshape foldl Nat.mul]. rewrite <- drop_drop.
    eapply yields_bind.
    { apply yields_lift. pose proof (absorb_words_run 17 [] state data) as Ha. cbn [length] in Ha.
      replace (xor_lanes state []) with state in Ha by (by destruct state).
      apply Ha; unfold word_size, block_size, kLanes in *; lia. }
    eapply yields_bind; [apply zisk_keccakf_yields|]. cbn [app].
    replace (lanes_of 17 data) with (lanes_of rate_words (take block_size data)).
    + rewrite <- absorb_xor by done. change (17 * word_size)%nat with block_size.
      apply IH; [by apply length_absorb|]. rewrite length_drop. cbn [Nat.mul] in Hf. lia.
    + transitivity (lanes_of 17 (take block_size data ++ drop block_size data)); [|by rewrite take_drop].
      symmetry. apply lanes_of_app. rewrite length_take. unfold rate_words, word_size, block_size in *. lia.
  - rewrite (Nat.div_small (length data)) by done. apply yields_ret.
Qed.

(** First block and loop together. *)
Lemma absorb_full_yields data :
  let k := (length data / block_size)%nat in
  yields f ('(state, data) ← first_block f data; absorb_blocks f (S (length data)) state data)
    (foldl (absorb f) (replicate kLanes 0) (reshape (replicate k block_size) data), drop (k * block_size) data).
Proof.
  intros k. eapply yields_bind; [apply first_block_yields|].
  destruct (Nat.leb_spec block_size (length data)) as [Hd|Hd].
  - assert (Hq : (k = S (length (drop block_size data) / block_size))%nat)
      by (apply div_drop; [unfold block_size; lia|done]).
    rewrite Hq. cbn [replicate reshape foldl Nat.mul]. rewrite <- drop_drop.
    apply absorb_blocks_yields; [by apply length_absorb|]. unfold block_size. lia.
  - apply absorb_blocks_yields; [done|]. unfold block_size. lia.
Qed.

(** The padded message is the full blocks and the padded last one. *)
Lemma pad_blocks msg :
  let k := (length msg / block_size)%nat in
  reshape (replicate (length (pad msg) / block_size) block_size) (pad msg) =
    reshape (replicate k block_size) msg ++ [last_block (drop (k * block_size) msg)].
Proof.
  intros k. set (r := drop (k * block_size) msg).
  pose proof (Nat.div_mod_eq (length msg) block_size) as Hdm. fold k in Hdm.
  pose proof (Nat.mod_upper_bound (length msg) block_size) as Hm.
  assert (Hr : length r = (length msg mod block_size)%nat) by (unfold r; rewrite length_drop; lia).
  assert (Hp : pad msg = take (k * block_size) msg ++ last_block r).
  { unfold pad, last_block. rewrite Hr, (app_assoc (take _ msg) r). unfold r. rewrite take_drop.
    f_equal. unfold block_size. by destruct (136 - length msg mod 136)%nat as [|[|q]]. }
  assert (Hlb : length (last_block r) = block_size).
  { destruct (block_split r) as (p & b & Hl & _ & _ & ->); [unfold block_size in *; lia|].
    rewrite length_app, Hl. done. }
  assert (Hk : length (take (k * block_size) msg) = (k * block_size)%nat) by (rewrite length_take; lia).
  assert (Hlen : (length (pad msg) / block_size = k + 1)%nat).
  { rewrite Hp, length_app, Hk, Hlb. unfold block_size.
    replace (k * 136 + 136)%nat with ((k + 1) * 136)%nat by lia. by apply Nat.div_mul. }
  rewrite Hlen, reshape_add, Hp. rewrite reshape_app by lia. f_equal.
  - rewrite <- (take_drop (k * block_size) msg) at 2. rewrite reshape_app by lia. done.
  - rewrite drop_app_length' by done. cbn [replicate reshape]. rewrite firstn_all2 by lia. done.
Qed.

(** The rest of [keccak256_compute]. *)
Definition finish (state : list Z) (data : bytes) : K E bytes :=
  '(state, state_iter, data) ← lift (absorb_rest (S (length data)) state 0 data);
  word ← lift (last_word data);
  state ← lift (xor_lane state state_iter word);
  state ← lift (xor_lane state (block_size / word_size - 1) 0x8000000000000000);
  state ← zisk_keccakf f state;
  mret (take hash_size (bytes_of state)).

Lemma finish_yields state r :
  length state = kLanes → (length r < block_size)%nat →
  yields f (finish state r) (take hash_size (bytes_of (absorb f state (last_block r)))).
Proof.
  intros Hs Hr. destruct (finish_run state r Hs Hr) as (i & t & word & s1 & s2 & H1 & H2 & H3 & H4).
  eapply yields_bind; [by apply yields_lift|].
  eapply yields_bind; [by apply yields_lift|].
  eapply yields_bind; [by apply yields_lift|].
  eapply yields_bind; [by apply yields_lift|].
  eapply yields_bind; [apply zisk_keccakf_yields|].
  rewrite <- absorb_xor by done. apply yields_ret.
Qed.

Lemma compute_yields data :
  yields f (keccak256_compute f data) (take hash_size (bytes_of (sponge f data))).
Proof.
  unfold sponge. cbn zeta. rewrite pad_blocks, foldl_app. cbn [foldl].
  set (k := (length data / block_size)%nat). set (r := drop (k * block_size) data).
  set (S0 := foldl _ _ _).
  assert (Hr : (length r < block_size)%nat).
  { unfold r. rewrite length_drop. pose proof (Nat.div_mod_eq (length data) block_size) as Hd.
    pose proof (Nat.mod_upper_bound (length data) block_size). fold k in Hd. unfold block_size in *. lia. }
  intros m Hm. destruct (absorb_full_yields data m Hm) as (m1 & Hr1 & Hm1).
  destruct (finish_yields S0 r) with m1 as (m2 & Hr2 & Hm2); [by apply length_absorb_all|done|done|].
  exists m2. split; [|done]. fold k r S0 in Hr1. unfold keccak256_compute.
  revert Hr1. unfold mbind at 1 2, K_bind at 1 2.
  destruct (first_block f data m) as [[[sa da] ma]|]; [|done]. intros Hr1.
  unfold mbind at 1, K_bind at 1. rewrite Hr1. exact Hr2.
Qed.

(** The hash, and a run of hashes on one memo. *)
Lemma ethash_yields data : yields f (ethash_keccak256 f data) (keccak256 f data).
Proof. eapply yields_bind; [apply compute_yields|]. apply yields_ret. Qed.

Lemma hashes_yields msgs : yields f (hashes f msgs) (keccak256 f <$> msgs).
Proof.
  induction msgs as [|d msgs IH]; [apply yields_ret|].
  eapply yields_bind; [apply ethash_yields|]. eapply yields_bind; [exact IH|]. apply yields_ret.
Qed.

End Correct.

(** ** With the executor the code is written for, a state is permuted once *)

(** The documented executor: [filed_at] is the map it keeps.  A lookup answers from it
    and [kNotFound] otherwise; a permutation that follows [set_index] is filed. *)
Class HonestExecutor (E : Type) {X : Executor E} := {
  filed_at : E → list Z → option Z;
  get_answers : ∀ s e, (get_index s e).1 = default kNotFound (filed_at e s);
  get_keeps : ∀ s e t, filed_at (get_index s e).2 t = filed_at e t;
  set_files : ∀ i s e t,
    filed_at (permuted s (set_index i e)) t = if decide (t = s) then Some i else filed_at e t;
}.

Section Honest.
Context (f : list Z → list Z) {E : Type} {X : Executor E} {H : HonestExecutor E}.

(** The executor's map is the index of the table, and [seen] are the states in it. *)
Definition in_step (m : Memo E) (seen : gset (list Z)) : Prop :=
  memo_ok f m ∧ g_used m = Z.of_nat (size seen) ∧
  ∀ s, if decide (s ∈ seen) then
         ∃ i e, filed_at (executor m) s = Some i ∧ 0 ≤ i < g_used m ∧ g_table m !! i = Some e ∧ in_ e = s
       else filed_at (executor m) s = None.

Lemma in_step_mem m seen s : in_step m seen → s ∈ seen →
  ∃ i e, filed_at (executor m) s = Some i ∧ 0 ≤ i < g_used m ∧ g_table m !! i = Some e ∧ in_ e = s.
Proof. intros (_ & _ & Hs) Hin. specialize (Hs s). by rewrite decide_True in Hs. Qed.

Lemma in_step_not m seen s : in_step m seen → s ∉ seen → filed_at (executor m) s = None.
Proof. intros (_ & _ & Hs) Hin. specialize (Hs s). by rewrite decide_False in Hs. Qed.

(** A lookup leaves the two in step. *)
Lemma in_step_get m seen s :
  in_step m seen → in_step (mkMemo (g_table m) (g_used m) (get_index s (executor m)).2) seen.
Proof.
  intros (Hm & Hu & Hs). split_and!; [exact Hm|exact Hu|]. intros t. cbn. rewrite get_keeps. apply Hs.
Qed.

Lemma in_step_file m seen s :
  in_step m seen → s ∉ seen → g_used m < kEntries → in_step (filed f m s (executor m)) ({[s]} ∪ seen).
Proof.
  intros Hst Hn Hlt. pose proof Hst as (Hm & Hu & _). split_and!.
  - by apply filed_ok.
  - cbn. rewrite size_union, size_singleton by set_solver. lia.
  - intros t. cbn [filed executor g_table g_used]. rewrite set_files. assert (0 ≤ g_used m) by apply Hm.
    destruct (decide (t = s)) as [->|Hne].
    + rewrite decide_True by set_solver. exists (g_used m), (mkEntry s (f s)).
      rewrite lookup_insert_eq. split_and!; (done || lia).
    + destruct (decide (t ∈ {[s]} ∪ seen)) as [Hin|Hin].
      * destruct (in_step_mem m seen t Hst) as (i & e & Hi & Hb & He & Hs); [clear -Hin Hne; set_solver|].
        exists i, e. rewrite lookup_insert_ne by lia. split_and!; (done || lia).
      * apply (in_step_not m seen t Hst). set_solver.
Qed.

Lemma probe_hit (m : Memo E) j e s :
  0 ≤ j < g_used m → g_used m ≤ kEntries → g_table m !! j = Some e → in_ e = s →
  probe j (g_used m) s m = Ok (Some e, m).
Proof.
  intros Hj Hu He Hs. unfold probe. rewrite (proj2 (Z.ltb_lt _ _)) by lia.
  unfold mbind, K_bind. rewrite table_get_in by lia. rewrite He. cbn.
  by rewrite bool_decide_eq_true_2.
Qed.

Lemma probe_out (m : Memo E) j s : g_used m ≤ j → probe j (g_used m) s m = Ok (None, m).
Proof. intros Hj. unfold probe. by rewrite (proj2 (Z.ltb_ge _ _)). Qed.

(** A state seen before is answered from the table. *)
Lemma honest_hit m seen s :
  in_step m seen → s ∈ seen → ∃ m', zisk_keccakf f s m = Ok (f s, m') ∧ in_step m' seen.
Proof.
  intros Hst Hin. pose proof Hst as (Hm & Hu & _). pose proof Hm as [Hr Ht].
  pose proof (zisk_keccakf_cases f s m Hm) as Hz. pose proof (in_step_get m seen s Hst) as Hg.
  pose proof (get_answers s (executor m)) as Ha.
  destruct (get_index s (executor m)) as [i x]. cbn [fst snd] in *. cbn zeta in Hz.
  destruct (in_step_mem m seen s Hst Hin) as (j & e & Hj & Hb & He & Hs).
  rewrite Hj in Ha. cbn in Ha. subst i.
  assert (Hju : u64 j = j) by (apply Z.mod_small; unfold kEntries in Hr; lia).
  rewrite Hju in Hz. set (m0 := mkMemo (g_table m) (g_used m) x) in *.
  pose proof (probe_hit m0 j e s Hb (proj2 Hr) He Hs) as Hp.
  change (g_used m0) with (g_used m) in Hp. rewrite Hp in Hz.
  destruct (Ht j Hb) as (e' & He' & Ho). rewrite He in He'. apply (inj Some) in He' as <-.
  exists m0. by rewrite Hz, Ho, Hs.
Qed.

(** A new state is permuted and filed. *)
Lemma honest_miss m seen s :
  in_step m seen → s ∉ seen → g_used m < kEntries →
  ∃ m', zisk_keccakf f s m = Ok (f s, m') ∧ in_step m' ({[s]} ∪ seen).
Proof.
  intros Hst Hin Hlt. pose proof Hst as (Hm & Hu & _).
  pose proof (zisk_keccakf_cases f s m Hm) as Hz. pose proof (in_step_get m seen s Hst) as Hg.
  pose proof (get_answers s (executor m)) as Ha. rewrite (in_step_not m seen s Hst Hin) in Ha.
  destruct (get_index s (executor m)) as [i x]. cbn [fst snd] in *. cbn zeta in Hz.
  change (i = kNotFound) in Ha. subst i.
  set (m0 := mkMemo (g_table m) (g_used m) x) in *.
  assert (Hnf : g_used m0 ≤ u64 kNotFound).
  { change (u64 kNotFound) with (2 ^ 64 - 1). change (g_used m0) with (g_used m).
    unfold kEntries in Hlt. lia. }
  pose proof (probe_out m0 _ s Hnf) as Hp. change (g_used m0) with (g_used m) in Hp. rewrite Hp in Hz.
  rewrite (proj2 (Z.eqb_neq _ _)) in Hz by lia.
  exists (filed f m0 s x). split; [exact Hz|]. apply (in_step_file m0 seen s Hg Hin Hlt).
Qed.

Lemma honest_step m seen s :
  in_step m seen → Z.of_nat (size ({[s]} ∪ seen)) ≤ kEntries →
  ∃ m', zisk_keccakf f s m = Ok (f s, m') ∧ in_step m' ({[s]} ∪ seen).
Proof.
  intros Hst Hsz. destruct (decide (s ∈ seen)) as [Hin|Hin].
  - replace ({[s]} ∪ seen) with seen by (clear -Hin; set_solver). by apply honest_hit.
  - apply honest_miss; [done..|]. destruct Hst as (_ & -> & _).
    rewrite size_union, size_singleton in Hsz by (clear -Hin; set_solver). lia.
Qed.

Lemma honest_steps states m seen :
  in_step m seen → Z.of_nat (size (list_to_set states ∪ seen)) ≤ kEntries →
  ∃ m', permutations f states m = Ok (f <$> states, m') ∧ in_step m' (list_to_set states ∪ seen).
Proof.
  revert m seen. induction states as [|s states IH]; intros m seen Hst Hsz; cbn [list_to_set] in *.
  - exists m. split; [done|]. by rewrite union_empty_l_L.
  - assert (size ({[s]} ∪ seen) ≤ size ({[s]} ∪ list_to_set states ∪ seen))%nat
      by (apply subseteq_size; set_solver).
    destruct (honest_step m seen s Hst) as (m1 & Hr1 & Hst1); [lia|].
    replace ({[s]} ∪ list_to_set states ∪ seen) with (list_to_set states ∪ ({[s]} ∪ seen)) in * by set_solver.
    destruct (IH m1 _ Hst1) as (m2 & Hr2 & Hst2); [done|].
    exists m2. split; [|done]. cbn [permutations]. unfold mbind, K_bind. by rewrite Hr1, Hr2.
Qed.

End Honest.

(** ** The permutation of FIPS 202

    Theta, rho, pi, chi and iota over lanes [A!(x + 5 y)], 24 rounds. *)
Module Fips202.

Definition lane (A : list Z) (x y : nat) : Z := nth (x mod 5 + 5 * (y mod 5)) A 0.
Definition grid (g : nat → nat → Z) : list Z :=
  y ← seq 0 5; x ← seq 0 5; [g x y].
Definition rotl (v : Z) (n : Z) : Z := Z.lor (u64 (Z.shiftl v n)) (Z.shiftr v (64 - n)).

Definition theta (A : list Z) : list Z :=
  let c := (λ x, foldl (λ v y, Z.lxor v (lane A x y)) 0 (seq 0 5)) <$> seq 0 5 in
  let d := (λ x, Z.lxor (nth ((x + 4) mod 5) c 0) (rotl (nth ((x + 1) mod 5) c 0) 1)) <$> seq 0 5 in
  grid (λ x y, Z.lxor (lane A x y) (nth x d 0)).

(** Offset [(t + 1) (t + 2) / 2] at the t-th point of the walk [(x, y) -> (y, 2x + 3y)]. *)
Fixpoint offsets (n t x y : nat) : list (nat * nat * Z) :=
  match n with
  | O => []
  | S n => (x, y, Z.of_nat (((t + 1) * (t + 2)) / 2 mod 64)) :: offsets n (S t) y ((2 * x + 3 * y) mod 5)
  end.
Definition offset (x y : nat) : Z :=
  match list_find (λ p, p.1 = (x, y)) (offsets 24 0 1 0) with Some (_, (_, n)) => n | None => 0 end.

Definition rho (A : list Z) : list Z := grid (λ x y, rotl (lane A x y) (offset x y)).
Definition pi (A : list Z) : list Z := grid (λ x y, lane A (x + 3 * y) x).
Definition chi (A : list Z) : list Z :=
  grid (λ x y, Z.lxor (lane A x y) (Z.ldiff (lane A (x + 2) y) (lane A (x + 1) y))).

(** The bits of the round constants come from an 8-bit LFSR. *)
Definition lfsr_step (r : Z) : Z :=
  let r := Z.shiftl r 1 in if Z.testbit r 8 then Z.lxor r 0x171 else r.
Fixpoint round_constant (bits : list Z) (r : Z) : Z * Z :=
  match bits with
  | [] => (0, r)
  | b :: bits =>
      let '(c, r') := round_constant bits (lfsr_step r) in
      (if Z.testbit r 0 then Z.lor c (Z.shiftl 1 b) else c, r')
  end.

Fixpoint rounds (n : nat) (r : Z) (A : list Z) : list Z :=
  match n with
  | O => A
  | S n =>
      let '(c, r) := round_constant [0; 1; 3; 7; 15; 31; 63] r in
      match chi (pi (rho (theta A))) with
      | [] => []
      | a :: A => rounds n r (Z.lxor a c :: A)
      end
  end.

Definition keccak_f1600 (A : list Z) : list Z := rounds 24 1 A.
End Fips202.

(** ** The results *)

Lemma length_grid g : length (Fips202.grid g) = kLanes.
Proof. reflexivity. Qed.

Lemma length_rounds n r A : length A = kLanes → length (Fips202.rounds n r A) = kLanes.
Proof.
  revert r A. induction n as [|n IH]; intros r A HA; [done|]. cbn [Fips202.rounds].
  destruct (Fips202.round_constant _ r) as [c r'].
  pose proof (length_grid (λ x y, Z.lxor (Fips202.lane (Fips202.pi (Fips202.rho (Fips202.theta A))) x y)
    (Z.ldiff (Fips202.lane (Fips202.pi (Fips202.rho (Fips202.theta A))) (x + 2) y)
      (Fips202.lane (Fips202.pi (Fips202.rho (Fips202.theta A))) (x + 1) y)))) as Hg.
  unfold Fips202.chi. destruct (Fips202.grid _) as [|a A']; [done|]. by apply IH.
Qed.

(** An executor that answers every lookup with the first entry. *)
#[local] Instance hostile : Executor unit := {|
  get_index := λ _ e, (0, e); set_index := λ _ e, e; permuted := λ _ e, e |}.

(** C7.  Whatever the executor answers to the lookups of the permutation memo, a run of
    hashes on one memo returns, for each message, the reference: the sponge of rate 136
    over the message padded with pad10*1 and the Keccak domain bit.  No access leaves the
    state, the table or the message, and no loop fails to end.  The permutation is any
    function that keeps the 25 lanes. *)
Theorem hash_exact (f : list Z → list Z) {E : Type} {X : Executor E} (e : E) (msgs : list bytes) :
  (∀ s, length s = kLanes → length (f s) = kLanes) →
  ∃ m, hashes f msgs (initial e) = Ok (keccak256 f <$> msgs, m).
Proof.
  intros Hf. destruct (hashes_yields f Hf msgs (initial e)) as (m & Hr & _); [apply initial_ok|].
  by exists m.
Qed.

(** With the permutation of FIPS 202 and the hostile executor: the digests of the empty
    string and of the RLP of the empty string, the root of the empty trie. *)
Lemma hash_exact_witness :
  ∃ m, hashes Fips202.keccak_f1600 [[]; [Byte.x80]; []] (initial tt) =
    Ok ([0xc5d2460186f7233c927e7db2dcc703c0e500b653ca82273b7bfad8045d85a470; Node.kEmptyTrieRoot;
         0xc5d2460186f7233c927e7db2dcc703c0e500b653ca82273b7bfad8045d85a470], m).
Proof.
  assert (Hv : keccak256 Fips202.keccak_f1600 <$> [[]; [Byte.x80]; []] =
    [0xc5d2460186f7233c927e7db2dcc703c0e500b653ca82273b7bfad8045d85a470; Node.kEmptyTrieRoot;
     0xc5d2460186f7233c927e7db2dcc703c0e500b653ca82273b7bfad8045d85a470]) by (vm_compute; reflexivity).
  rewrite <- Hv. apply (hash_exact Fips202.keccak_f1600 tt). exact (length_rounds 24 1).
Defined.

(** An executor as documented: its map, and the index announced for the next permutation. *)
#[local] Instance documented : Executor (gmap (list Z) Z * option Z) := {|
  get_index := λ s e, (default kNotFound (e.1 !! s), e);
  set_index := λ i e, (e.1, Some i);
  permuted := λ s e, (match e.2 with Some i => <[s := i]> e.1 | None => e.1 end, None) |}.

#[local] Instance documented_honest : HonestExecutor (gmap (list Z) Z * option Z).
Proof.
  apply (Build_HonestExecutor _ _ (λ e s, e.1 !! s)).
  - done.
  - done.
  - intros i s e t. cbn. destruct (decide (t = s)) as [->|]; [apply lookup_insert_eq|by apply lookup_insert_ne].
Defined.

(** With an executor that answers as documented, a sequence of permutations files
    each distinct state exactly once, so repeated states are not permuted again, as long
    as the distinct states fit the table. *)
Theorem permuted_once (f : list Z → list Z) {E : Type} {X : Executor E} {H : HonestExecutor E}
    (e : E) (states : list (list Z)) :
  (∀ s, filed_at e s = None) →
  Z.of_nat (size (list_to_set states : gset (list Z))) ≤ kEntries →
  ∃ m, permutations f states (initial e) = Ok (f <$> states, m) ∧
    g_used m = Z.of_nat (size (list_to_set states : gset (list Z))).
Proof.
  intros He Hsz. destruct (honest_steps f states (initial e) ∅) as (m & Hr & _ & Hu & _).
  - split_and!; [apply initial_ok|done|]. intros s. rewrite decide_False by set_solver. apply He.
  - by rewrite union_empty_r_L.
  - exists m. rewrite union_empty_r_L in Hu. done.
Qed.

Lemma permuted_once_witness :
  ∃ m, permutations (fmap Z.succ) [[1]; [2]; [1]; [1]] (initial (∅, None)) = Ok ([[2]; [3]; [2]; [2]], m) ∧
    g_used m = 2.
Proof.
  exact (permuted_once (fmap Z.succ) (∅ : gmap (list Z) Z, None) [[1]; [2]; [1]; [1]]
    (λ s, eq_refl) ltac:(vm_compute; discriminate)).
Defined.

End Keccak.
