(* ===== verification/Storages.v ===== *)
(** The storage-slot table ([include/zeg/storages.hpp], [src/storages.cpp]):
    rows with an 88-byte record of block-start values, the modification slot with
    the per-transaction original, the cached trie leaf, the (address, position)
    index, the per-address slot lists and the one-entry lookup cache. *)

From stdpp Require Import base numbers list strings gmap.
From S2P Require Import Prelude TriePath Bal Accounts.

Module Storages.
Import Node.

Definition kRecordSize : Z := 88.
Definition kNoLink : Z := 2 ^ 64 - 1.

Definition kAddressOffset : Z := 0.
Definition kPositionOffset : Z := 24.
Definition kValueOffset : Z := 56.

(** [View]: the fields of one record, read at their offsets. *)
Definition view_address (data : bytes) : Z := be_val (slice data kAddressOffset (kAddressOffset + 20)).
Definition view_position (data : bytes) : Z := be_val (slice data kPositionOffset (kPositionOffset + 32)).
Definition view_value (data : bytes) : Z := be_val (slice data kValueOffset (kValueOffset + 32)).

Record Mods := mkMods {
  dirty : bool;
  m_value : Z;
  last_tx_idx : Z;
  tx_original : Z;
  bal_id : Z }.
Definition mods0 : Mods := mkMods false 0 0 0 Bal.kNone.

Record LeafCache := mkLeafCache { cached : NodeR; pos_hash : Z; next_sorted : Z }.
Definition leaf0 : LeafCache := mkLeafCache EmptyR 0 kNoLink.

Record Row := mkRow { record : bytes; mods : Mods; leaf : LeafCache }.

(** [last_idx_]: [npos] is [None]. *)
Record Storages := mkStorages {
  capacity_ : Z;
  rows : list Row;
  index_ : gmap (Z * Z) nat;
  last_addr_ : Z;
  last_pos_ : Z;
  last_idx_ : option nat;
  last_valid_ : bool;
  addr_slots_ : gmap Z (list nat) }.
Definition storages0 : Storages := mkStorages 0 [] ∅ 0 0 (Some 0%nat) false ∅.

Definition put_rows (l : list Row) (s : Storages) : Storages :=
  mkStorages (capacity_ s) l (index_ s) (last_addr_ s) (last_pos_ s) (last_idx_ s)
    (last_valid_ s) (addr_slots_ s).

(** ** Building the table *)

Definition reserve (count : Z) (s : Storages) : Storages :=
  mkStorages count (rows s) (index_ s) (last_addr_ s) (last_pos_ s) (last_idx_ s)
    false (addr_slots_ s).

Definition make_record (address position value : Z) : res bytes :=
  let rec := replicate (Z.to_nat kRecordSize) Byte.x00 in
  rec ← mem_write rec kAddressOffset (be_bytes 20 address);
  rec ← mem_write rec kPositionOffset (be_bytes 32 position);
  mem_write rec kValueOffset (be_bytes 32 value).

Definition slots_of (addr : Z) (s : Storages) : list nat := default [] (addr_slots_ s !! addr).

Definition append (address position value : Z) (s : Storages) : res (nat * Storages) :=
  let idx := length (rows s) in
  _ ← fatal_if (capacity_ s <=? Z.of_nat idx)
        "Storages::append: more rows than reserve() allowed (numberOfStorages overflow)";
  rec ← make_record address position value;
  Ok (idx, mkStorages (capacity_ s) (rows s ++ [mkRow rec mods0 leaf0])
             (match index_ s !! (address, position) with
              | Some _ => index_ s
              | None => <[(address, position) := idx]> (index_ s)
              end)
             (last_addr_ s) (last_pos_ s) (last_idx_ s) false
             (<[address := slots_of address s ++ [idx]]> (addr_slots_ s))).

(** ** Reads by index *)

Definition row_at (idx : nat) (s : Storages) : res Row := vec_get (rows s) idx.

Definition address_at (idx : nat) (s : Storages) : res Z :=
  r ← row_at idx s; Ok (view_address (record r)).
Definition position_at (idx : nat) (s : Storages) : res Z :=
  r ← row_at idx s; Ok (view_position (record r)).
Definition row_value (r : Row) : Z :=
  if dirty (mods r) then m_value (mods r) else view_value (record r).
Definition value_at (idx : nat) (s : Storages) : res Z := r ← row_at idx s; Ok (row_value r).
Definition value_orig_at (idx : nat) (s : Storages) : res Z :=
  r ← row_at idx s; Ok (view_value (record r)).
Definition value_unchanged_at (idx : nat) (s : Storages) : res bool :=
  o ← value_orig_at idx s; v ← value_at idx s; Ok (o =? v).
Definition tx_original_at (idx : nat) (s : Storages) : res Z :=
  r ← row_at idx s; Ok (tx_original (mods r)).
Definition last_tx_idx_at (idx : nat) (s : Storages) : res Z :=
  r ← row_at idx s; Ok (last_tx_idx (mods r)).
Definition is_warm_at (idx : nat) (tx_idx : Z) (s : Storages) : res bool :=
  r ← row_at idx s; Ok (last_tx_idx (mods r) =? tx_idx).
Definition bal_id_at (idx : nat) (s : Storages) : res Z :=
  r ← row_at idx s; Ok (bal_id (mods r)).

(** ** The cached trie leaf and the sorted link *)

Definition upd_row (f : Row → Row) (idx : nat) (s : Storages) : res Storages :=
  r ← row_at idx s; Ok (put_rows (<[idx := f r]> (rows s)) s).
Definition upd_leaf (f : LeafCache → LeafCache) : nat → Storages → res Storages :=
  upd_row (λ r, mkRow (record r) (mods r) (f (leaf r))).

Definition build_value (idx : nat) (nib : TriePath.PackedPath) (pos_hash : Z) (s : Storages)
    : res (NodeR * Storages) :=
  v ← value_orig_at idx s;
  let node := if is_zero_value v then EmptyR else StorageLeafR nib idx in
  s ← upd_leaf (λ lc, mkLeafCache node pos_hash (next_sorted lc)) idx s;
  Ok (node, s).

Definition update_value (idx : nat) (nib : TriePath.PackedPath) (s : Storages)
    : res (NodeR * Storages) :=
  v ← value_at idx s;
  let node := if is_zero_value v then EmptyR else StorageLeafR nib idx in
  s ← upd_leaf (λ lc, mkLeafCache node (pos_hash lc) (next_sorted lc)) idx s;
  Ok (node, s).

Definition cached_at (idx : nat) (s : Storages) : res NodeR :=
  r ← row_at idx s; Ok (cached (leaf r)).
Definition pos_hash_at (idx : nat) (s : Storages) : res Z :=
  r ← row_at idx s; Ok (pos_hash (leaf r)).
Definition set_next_sorted (idx : nat) (next : Z) : Storages → res Storages :=
  upd_leaf (λ lc, mkLeafCache (cached lc) (pos_hash lc) next) idx.
Definition next_sorted_at (idx : nat) (s : Storages) : res Z :=
  r ← row_at idx s; Ok (next_sorted (leaf r)).

(** ** Lookup *)

(** [find], with its one-entry cache of the last question and answer. *)
Definition find (addr position : Z) (s : Storages) : option nat * Storages :=
  if last_valid_ s && ((last_pos_ s =? position) && (last_addr_ s =? addr))
  then (last_idx_ s, s)
  else
    let idx := index_ s !! (addr, position) in
    (idx, mkStorages (capacity_ s) (rows s) (index_ s) addr position idx true (addr_slots_ s)).

Definition index_of (addr position : Z) (s : Storages) : res nat :=
  match index_ s !! (addr, position) with
  | Some i => Ok i
  | None => Fatal "Storages::index_of: (address, position) not present in the table"
  end.
Definition contains (addr position : Z) (s : Storages) : bool :=
  match index_ s !! (addr, position) with Some _ => true | None => false end.

(** ** Writes and warm/cold tracking by index *)

Definition upd_mods (f : Row → Mods) : nat → Storages → res Storages :=
  upd_row (λ r, mkRow (record r) (f r) (leaf r)).

Definition set_value_at (idx : nat) (v tx_idx : Z) : Storages → res Storages :=
  upd_mods (λ r, mkMods true v tx_idx (tx_original (mods r)) (bal_id (mods r))) idx.

(** The first touch in a transaction snapshots the current value. *)
Definition mark_touched_at (idx : nat) (tx_idx : Z) : Storages → res Storages :=
  upd_mods (λ r, let m := mods r in
    if last_tx_idx m <? tx_idx
    then mkMods (dirty m) (m_value m) tx_idx (row_value r) (bal_id m)
    else m) idx.

Definition set_warm_at (idx : nat) (tx_idx : Z) : Storages → res Storages :=
  upd_mods (λ r, let m := mods r in
    mkMods (dirty m) (m_value m) tx_idx (tx_original m) (bal_id m)) idx.

(** Assignment through the reference [bal_id_at] returns. *)
Definition set_bal_id_at (idx : nat) (id : Z) : Storages → res Storages :=
  upd_mods (λ r, let m := mods r in
    mkMods (dirty m) (m_value m) (last_tx_idx m) (tx_original m) id) idx.

(** ** Accesses by key *)

Definition value (addr position tx_idx : Z) (s : Storages) : res (Z * Storages) :=
  i ← index_of addr position s;
  s ← mark_touched_at i tx_idx s;
  v ← value_at i s;
  Ok (v, s).

Definition set_value (addr position v tx_idx : Z) (s : Storages) : res Storages :=
  i ← index_of addr position s;
  set_value_at i v tx_idx s.

(** ** The lookup cache *)

(** The cached answer is the index's. *)
Definition cache_ok (s : Storages) : Prop :=
  last_valid_ s = true → last_idx_ s = index_ s !! (last_addr_ s, last_pos_ s).

(** [find] answers as the index does, keeps the cache coherent and changes
    nothing else. *)
Lemma find_spec addr position s :
  cache_ok s →
  let '(r, s') := find addr position s in
  r = index_ s !! (addr, position) ∧ cache_ok s' ∧ rows s' = rows s ∧ index_ s' = index_ s ∧
  addr_slots_ s' = addr_slots_ s ∧ capacity_ s' = capacity_ s.
Proof.
  intros Hc. unfold find. destruct (last_valid_ s) eqn:Hv; cbn;
    [destruct (Z.eqb_spec (last_pos_ s) position) as [<-|]; cbn;
     [destruct (Z.eqb_spec (last_addr_ s) addr) as [<-|]; cbn|]|];
    repeat split; auto; by intros _.
Qed.

(** ** Row writes *)

Definition writes (f : Row → Row) (i : nat) (s s' : Storages) : Prop :=
  s' = put_rows (alter f i (rows s)) s.

Lemma upd_slot_writes f i s :
  (i < length (rows s))%nat → upd_row f i s = Ok (put_rows (alter f i (rows s)) s).
Proof.
  intros Hi. destruct (lookup_lt_is_Some_2 _ _ Hi) as [r Hr].
  unfold upd_row, row_at, vec_get. rewrite Hr. cbn. do 2 f_equal.
  apply list_eq. intros j. rewrite list_lookup_alter, list_lookup_insert.
  destruct (decide (i = j)) as [->|].
  - by rewrite Hr, decide_True.
  - rewrite decide_False; tauto.
Qed.

(** ** Equivalence in transaction [T]

    What execution can observe: the values, the warmth, and the transaction's
    original value of the slots that are warm in [T].  The lookup cache and the
    access-list ids are not part of it. *)

Record row_equiv (T : Z) (r r' : Row) : Prop := {
  re_record : record r = record r';
  re_leaf : leaf r = leaf r';
  re_value : row_value r = row_value r';
  re_last : last_tx_idx (mods r) = last_tx_idx (mods r');
  re_original : last_tx_idx (mods r) = T → tx_original (mods r) = tx_original (mods r') }.

Record equiv (T : Z) (s s' : Storages) : Prop := {
  eq_capacity : capacity_ s = capacity_ s';
  eq_index : index_ s = index_ s';
  eq_slots : addr_slots_ s = addr_slots_ s';
  eq_rows : Forall2 (row_equiv T) (rows s) (rows s') }.

#[global] Instance row_equiv_equivalence T : Equivalence (row_equiv T).
Proof.
  split; [done|..].
  - intros x y [? ? ? Hl Ho]. split; auto. rewrite <- Hl. intros. symmetry. auto.
  - intros x y z [? ? ? Hl Ho] [? ? ? Hl' Ho']. split; try congruence.
    intros HT. rewrite Ho by done. apply Ho'. congruence.
Qed.

#[global] Instance equiv_equivalence T : Equivalence (equiv T).
Proof.
  split; [done|..].
  - intros x y [? ? ? ?]. split; by symmetry.
  - intros x y z [? ? ? ?] [? ? ? ?]. split; try congruence. by etrans.
Qed.

Lemma alter_equiv T f i s s' :
  (∀ r r', rows s !! i = Some r → row_equiv T r r' → row_equiv T (f r) (f r')) →
  equiv T s s' → equiv T (put_rows (alter f i (rows s)) s) (put_rows (alter f i (rows s')) s').
Proof.
  intros Hf [? ? ? Hr]. split; auto. cbn.
  apply Forall2_same_length_lookup. rewrite !length_alter.
  split; [by eapply Forall2_length|]. intros j x y. rewrite !list_lookup_alter.
  destruct (decide (i = j)) as [<-|].
  - intros (r & E & ->)%fmap_Some (r' & E' & ->)%fmap_Some.
    apply (Hf r r'); [done|]. by eapply Forall2_lookup_lr.
  - intros. by eapply Forall2_lookup_lr.
Qed.

Lemma alter_undo T f g i s r :
  rows s !! i = Some r → row_equiv T (g (f r)) r →
  equiv T (put_rows (alter g i (alter f i (rows s))) s) s.
Proof.
  intros Hi Hfg. split; auto. cbn. apply Forall2_same_length_lookup. rewrite !length_alter.
  split; [done|]. intros j x y. rewrite !list_lookup_alter.
  rewrite (decide_True (P := i = i)) by done.
  destruct (decide (i = j)) as [<-|]; [rewrite Hi; cbn|]; intros; by simplify_eq.
Qed.

(** The row functions of the four row writes. *)
Definition w_value (v t : Z) (r : Row) : Row :=
  mkRow (record r) (mkMods true v t (tx_original (mods r)) (bal_id (mods r))) (leaf r).
Definition w_warm (t : Z) (r : Row) : Row :=
  let m := mods r in
  mkRow (record r) (mkMods (dirty m) (m_value m) t (tx_original m) (bal_id m)) (leaf r).
Definition w_touch (t : Z) (r : Row) : Row :=
  let m := mods r in
  mkRow (record r)
    (if last_tx_idx m <? t then mkMods (dirty m) (m_value m) t (row_value r) (bal_id m) else m)
    (leaf r).

Lemma set_value_at_writes i v t s :
  (i < length (rows s))%nat → set_value_at i v t s = Ok (put_rows (alter (w_value v t) i (rows s)) s).
Proof. apply upd_slot_writes. Qed.
Lemma slot_set_warm_writes i t s :
  (i < length (rows s))%nat → set_warm_at i t s = Ok (put_rows (alter (w_warm t) i (rows s)) s).
Proof. apply upd_slot_writes. Qed.
Lemma slot_mark_touched_writes i t s :
  (i < length (rows s))%nat → mark_touched_at i t s = Ok (put_rows (alter (w_touch t) i (rows s)) s).
Proof. apply upd_slot_writes. Qed.

(** ** Building the table: the index and the per-address lists are exact *)

Record table_ok (s : Storages) : Prop := {
  ok_length : Z.of_nat (length (rows s)) ≤ capacity_ s;
  ok_index : ∀ a p i, index_ s !! (a, p) = Some i →
    ∃ r, rows s !! i = Some r ∧ view_address (record r) = a ∧ view_position (record r) = p;
  ok_rows : ∀ i r, rows s !! i = Some r →
    is_Some (index_ s !! (view_address (record r), view_position (record r)));
  ok_slots : ∀ a i, i ∈ slots_of a s ↔
    ∃ r, rows s !! i = Some r ∧ view_address (record r) = a;
  ok_cache : cache_ok s }.

Lemma slot_record_layout address position value :
  make_record address position value =
  Ok (be_bytes 20 address ++ replicate 4 Byte.x00 ++ be_bytes 32 position ++ be_bytes 32 value).
Proof.
  unfold make_record.
  remember (be_bytes 20 address) as A eqn:EA. remember (be_bytes 32 position) as B eqn:EB.
  remember (be_bytes 32 value) as C eqn:EC.
  apply (f_equal length) in EA, EB, EC. rewrite length_be_bytes in *.
  repeat (destruct A as [|? A]; try discriminate EA).
  repeat (destruct B as [|? B]; try discriminate EB).
  repeat (destruct C as [|? C]; try discriminate EC).
  reflexivity.
Qed.

Lemma slot_record_roundtrip address position value :
  0 ≤ address < 2 ^ 160 → in_u256 position → in_u256 value →
  ∃ rec, make_record address position value = Ok rec ∧
    view_address rec = address ∧ view_position rec = position ∧ view_value rec = value.
Proof.
  rewrite slot_record_layout. intros Ha Hp Hv. eexists. split; [done|].
  split; [|split]; unfold view_address, view_position, view_value, kAddressOffset,
    kPositionOffset, kValueOffset;
    rewrite ?slice_skip by (autorewrite with zeg_len; lia); autorewrite with zeg_len;
    cbn [Z.of_nat Z.sub].
  - rewrite slice_here by (by autorewrite with zeg_len). by apply be_val_be_bytes_small.
  - rewrite slice_here by (by autorewrite with zeg_len). by apply be_val_be_bytes_small.
  - rewrite slice_all by (by autorewrite with zeg_len). by apply be_val_be_bytes_small.
Qed.

Lemma table_ok_empty n : 0 ≤ n → table_ok (reserve n storages0).
Proof.
  intros Hn. split; [cbn; lia|..].
  - intros a p i Hi. cbn in Hi. by rewrite lookup_empty in Hi.
  - intros i r Hr. cbn in Hr. discriminate Hr.
  - intros a i. unfold slots_of. cbn. rewrite lookup_empty. cbn. split; [by intros ?%not_elem_of_nil|].
    intros (r & Hr & _). discriminate Hr.
  - by intros [=].
Qed.

(** The bookkeeping of [append] around the new record. *)
Lemma append_table_ok s address position rec :
  table_ok s → Z.of_nat (length (rows s)) < capacity_ s →
  view_address rec = address → view_position rec = position →
  table_ok (mkStorages (capacity_ s) (rows s ++ [mkRow rec mods0 leaf0])
    (match index_ s !! (address, position) with
     | Some _ => index_ s
     | None => <[(address, position) := length (rows s)]> (index_ s)
     end)
    (last_addr_ s) (last_pos_ s) (last_idx_ s) false
    (<[address := slots_of address s ++ [length (rows s)]]> (addr_slots_ s))).
Proof.
  intros [Hlen Hidx Hrows Hslots Hcache] Hcap Ha Hp. split; cbn.
  - rewrite length_app. cbn. lia.
  - intros a p i Hi.
    assert (Hcase : index_ s !! (a, p) = Some i ∨ (a, p, i) = (address, position, length (rows s))).
    { destruct (index_ s !! (address, position)); [by left|].
      apply lookup_insert_Some in Hi as [[[= <- <-] <-]|[_ ?]]; auto. }
    destruct Hcase as [Hi'|[= -> -> ->]].
    + destruct (Hidx _ _ _ Hi') as (r & Hr & ? & ?). exists r.
      split; [by apply lookup_app_l_Some|done].
    + eexists. split; [by apply list_lookup_middle|done].
  - intros i r [Hr|[_ [_ <-]%list_lookup_singleton_Some]]%lookup_app_Some.
    + apply Hrows in Hr. destruct (index_ s !! (address, position)); [done|].
      by apply lookup_insert_is_Some'; right.
    + cbn. rewrite Ha, Hp. destruct (index_ s !! (address, position)) eqn:E; [by rewrite E|].
      by rewrite lookup_insert_eq.
  - intros a i. unfold slots_of at 1. cbn. rewrite lookup_insert.
    case_decide as Hd; [subst a; cbn; rewrite elem_of_app, list_elem_of_singleton|].
    + rewrite Hslots. setoid_rewrite lookup_app_Some. split.
      * intros [(r & Hr & ?)| ->]; [by exists r; auto|].
        exists (mkRow rec mods0 leaf0). by rewrite Nat.sub_diag; auto.
      * intros (r & [Hr|[? [? <-]%list_lookup_singleton_Some]] & ?); [left; by exists r|right; lia].
    + change (default [] (addr_slots_ s !! a)) with (slots_of a s).
      rewrite Hslots. setoid_rewrite lookup_app_Some. split.
      * intros (r & Hr & ?). exists r. auto.
      * intros (r & [Hr|[? [? <-]%list_lookup_singleton_Some]] & ?); [by exists r|].
        cbn in *. congruence.
  - by intros [=].
Qed.

(** Appending a storage row. On a well-formed table with a free reserved
    row, [append] succeeds, returns the next index and keeps the table
    well-formed (the index, the per-address slot lists and the lookup cache
    describe exactly the rows); the new row reads back the key and value it was
    given, older rows keep their values, and [find] and [slots_of] see it.  On a
    full table [append] aborts. *)
Theorem storages_append_exact (s : Storages) (address position v : Z) :
  table_ok s → 0 ≤ address < 2 ^ 160 → in_u256 position → in_u256 v →
  (Z.of_nat (length (rows s)) < capacity_ s →
    ∃ s', append address position v s = Ok (length (rows s), s') ∧ table_ok s' ∧
      address_at (length (rows s)) s' = Ok address ∧
      position_at (length (rows s)) s' = Ok position ∧
      value_at (length (rows s)) s' = Ok v ∧
      (∀ i, (i < length (rows s))%nat → value_at i s' = value_at i s) ∧
      (find address position s').1 =
        Some (default (length (rows s)) (find address position s).1) ∧
      slots_of address s' = slots_of address s ++ [length (rows s)]) ∧
  (capacity_ s ≤ Z.of_nat (length (rows s)) → is_ok (append address position v s) = false).
Proof.
  intros Hok Ha Hp Hv. unfold append. split; intros Hcap.
  - rewrite (proj2 (Z.leb_gt _ _)) by done. cbn [fatal_if mbind res_bind].
    destruct (slot_record_roundtrip address position v Ha Hp Hv) as (rec & -> & Va & Vp & Vv).
    cbn [mbind res_bind]. pose proof (append_table_ok s address position rec Hok Hcap Va Vp) as Hok'.
    eexists. split; [done|]. split; [exact Hok'|].
    unfold address_at, position_at, value_at, row_at, vec_get. cbn.
    rewrite list_lookup_middle by done. cbn. unfold row_value. cbn. rewrite Va, Vp, Vv.
    do 3 (split; [done|]).
    split; [intros i Hi; by rewrite lookup_app_l|].
    split; [|unfold slots_of at 1; cbn; by rewrite lookup_insert_eq].
    pose proof (find_spec address position s (ok_cache _ Hok)) as Hf.
    destruct (find address position s) as [i s1]. destruct Hf as [-> _].
    cbn. destruct (index_ s !! (address, position)) eqn:E; cbn; [by rewrite E|].
    by rewrite lookup_insert_eq.
  - rewrite (proj2 (Z.leb_le _ _)) by done. done.
Qed.

Lemma storages_append_exact_witness :
  ∃ s', append 5 7 9 (reserve 1 storages0) = Ok (0%nat, s') ∧ value_at 0 s' = Ok 9.
Proof.
  destruct (storages_append_exact (reserve 1 storages0) 5 7 9) as [H _].
  - apply table_ok_empty. lia.
  - lia.
  - unfold in_u256. lia.
  - unfold in_u256. lia.
  - destruct H as (s' & H1 & _ & _ & _ & H5 & _); [reflexivity|].
    exists s'. split; [exact H1|exact H5].
Defined.

End Storages.
