(* ===== verification/Transient.v ===== *)
(** The dynamic per-block maps next to the tables: EIP-1153 transient storage
    ([include/zeg/transient_storage.hpp], [src/transient_storage.cpp]) and the
    warmth of keys without a table row ([include/zeg/warm_keys.hpp]). *)

From stdpp Require Import base numbers list strings gmap.
From S2P Require Import Prelude.

Module TransientStorage.

Abbreviation Map := (gmap (Z * Z) Z).

(** [map_], empty only between [release] and [init]; using it in between is
    undefined behaviour in the source. *)
Record TransientStorage := mkTransient { map_ : Map }.

Definition get (addr position : Z) (t : TransientStorage) : Z :=
  match map_ t !! (addr, position) with Some v => v | None => 0 end.

Record PreviousState := mkPrev { was_present : bool; prev_value : Z }.

Definition set (addr position value : Z) (t : TransientStorage)
    : PreviousState * TransientStorage :=
  match map_ t !! (addr, position) with
  | None => (mkPrev false 0, mkTransient (<[(addr, position) := value]> (map_ t)))
  | Some old => (mkPrev true old, mkTransient (<[(addr, position) := value]> (map_ t)))
  end.

Definition restore (addr position : Z) (was_present : bool) (old_value : Z)
    (t : TransientStorage) : TransientStorage :=
  if was_present then mkTransient (<[(addr, position) := old_value]> (map_ t))
  else mkTransient (delete (addr, position) (map_ t)).

(** [reset]: [release] then [init]. *)
Definition reset (t : TransientStorage) : TransientStorage := mkTransient ∅.

Definition size (t : TransientStorage) : nat := base.size (map_ t).

(** Restoring what [set] returned gives the map back exactly, absent entries
    included. *)
Lemma restore_set addr position v t :
  let '(p, t') := set addr position v t in
  restore addr position (was_present p) (prev_value p) t' = t.
Proof.
  destruct t as [m]. unfold set. cbn. destruct (m !! (addr, position)) eqn:E; cbn; f_equal.
  - rewrite insert_insert_eq. by apply insert_id.
  - by apply delete_insert_id.
Qed.

End TransientStorage.

Module WarmKeys.

Record WarmKeys := mkWarmKeys { accounts_ : gmap Z Z; slots_ : gmap (Z * Z) Z }.
Definition warm0 : WarmKeys := mkWarmKeys ∅ ∅.

Definition account (addr : Z) (w : WarmKeys) : Z :=
  match accounts_ w !! addr with Some v => v | None => 0 end.

Definition set_account (addr tx_idx : Z) (w : WarmKeys) : WarmKeys :=
  if tx_idx =? 0 then mkWarmKeys (delete addr (accounts_ w)) (slots_ w)
  else mkWarmKeys (<[addr := tx_idx]> (accounts_ w)) (slots_ w).

Definition slot (addr key : Z) (w : WarmKeys) : Z :=
  match slots_ w !! (addr, key) with Some v => v | None => 0 end.

Definition set_slot (addr key tx_idx : Z) (w : WarmKeys) : WarmKeys :=
  if tx_idx =? 0 then mkWarmKeys (accounts_ w) (delete (addr, key) (slots_ w))
  else mkWarmKeys (accounts_ w) (<[(addr, key) := tx_idx]> (slots_ w)).

(** Two states are equivalent when every key has the same warmth. *)
#[global] Instance warm_equiv : Equiv WarmKeys := λ w w',
  (∀ a, account a w = account a w') ∧ (∀ a k, slot a k w = slot a k w').

#[global] Instance warm_equivalence : Equivalence (≡@{WarmKeys}).
Proof. split; [done|by intros x y [? ?]|intros x y z [A B] [C D]; split; intros; congruence]. Qed.

Lemma account_set_account a a' v w :
  account a (set_account a' v w) = if decide (a = a') then v else account a w.
Proof.
  unfold account, set_account. destruct (Z.eqb_spec v 0) as [->|]; cbn; case_decide; subst;
    by rewrite ?lookup_delete_eq, ?lookup_insert_eq, ?lookup_delete_ne, ?lookup_insert_ne.
Qed.

Lemma slot_set_slot a k a' k' v w :
  slot a k (set_slot a' k' v w) = if decide ((a, k) = (a', k')) then v else slot a k w.
Proof.
  unfold slot, set_slot. destruct (Z.eqb_spec v 0) as [->|]; cbn; case_decide as E;
    try (injection E as -> ->);
    by rewrite ?lookup_delete_eq, ?lookup_insert_eq, ?lookup_delete_ne, ?lookup_insert_ne.
Qed.

Lemma slot_set_account a k a' v w : slot a k (set_account a' v w) = slot a k w.
Proof. unfold slot, set_account. by destruct (v =? 0). Qed.

Lemma account_set_slot a a' k' v w : account a (set_slot a' k' v w) = account a w.
Proof. unfold account, set_slot. by destruct (v =? 0). Qed.

#[global] Instance set_account_proper a v : Proper ((≡) ==> (≡)) (set_account a v).
Proof.
  intros w w' [Ha Hs]. split; intros.
  - by rewrite !account_set_account, Ha.
  - by rewrite !slot_set_account, Hs.
Qed.

#[global] Instance set_slot_proper a k v : Proper ((≡) ==> (≡)) (set_slot a k v).
Proof.
  intros w w' [Ha Hs]. split; intros.
  - by rewrite !account_set_slot, Ha.
  - by rewrite !slot_set_slot, Hs.
Qed.

Lemma set_account_undo a v w : set_account a (account a w) (set_account a v w) ≡ w.
Proof.
  split; intros; rewrite ?account_set_account, ?slot_set_account; [|done].
  repeat case_decide; by subst.
Qed.

Lemma set_slot_undo a k v w : set_slot a k (slot a k w) (set_slot a k v w) ≡ w.
Proof.
  split; intros; rewrite ?account_set_slot, ?slot_set_slot; [done|].
  repeat case_decide; by simplify_eq.
Qed.

End WarmKeys.
