(* ===== verification/Journal.v ===== *)
(** The undo log ([include/zeg/journal.hpp], [src/journal.cpp]): one stack of
    checkpoint markers and write records, each holding what a write replaced.
    Rollback pops the stack down to a marker and applies every record backwards. *)

From stdpp Require Import base numbers list strings gmap.
From S2P Require Import Prelude Bal Accounts Storages Transient.

Module Journal.
Import Accounts.Accounts Storages.Storages TransientStorage WarmKeys.

(** ** Data *)

Inductive Entry :=
| CheckpointMarker
| NonceEntry (idx : nat) (old_value old_last_tx_idx : Z)
| BalanceEntry (idx : nat) (old_value old_last_tx_idx : Z)
| CodeHashEntry (idx : nat) (old_value old_last_tx_idx : Z)
| StorageEntry (idx : nat) (old_value old_last_tx_idx : Z)
| AccountWarmEntry (idx : nat) (old_last_tx_idx : Z)
| StorageWarmEntry (idx : nat) (old_last_tx_idx : Z)
| TransientEntry (address position : Z) (was_present : bool) (old_value : Z)
| WarmKeyAccountEntry (address old_last_tx_idx : Z)
| WarmKeySlotEntry (address position old_last_tx_idx : Z)
| PendingDestructEntry (idx : nat) (was_already_present : bool).

(** [entries_], oldest first. *)
Abbreviation Journal := (list Entry).
Abbreviation Checkpoint := nat.

(** The state [rollback] writes through its reference arguments. *)
Record World := mkWorld {
  accounts : Accounts;
  storages : Storages;
  warm_keys : WarmKeys;
  transient : TransientStorage;
  pending_destruct : gset nat }.

Definition put_accounts (a : Accounts) (w : World) : World :=
  mkWorld a (storages w) (warm_keys w) (transient w) (pending_destruct w).
Definition put_storages (s : Storages) (w : World) : World :=
  mkWorld (accounts w) s (warm_keys w) (transient w) (pending_destruct w).
Definition put_warm_keys (k : WarmKeys) (w : World) : World :=
  mkWorld (accounts w) (storages w) k (transient w) (pending_destruct w).
Definition put_transient (t : TransientStorage) (w : World) : World :=
  mkWorld (accounts w) (storages w) (warm_keys w) t (pending_destruct w).
Definition put_pending (p : gset nat) (w : World) : World :=
  mkWorld (accounts w) (storages w) (warm_keys w) (transient w) p.

(** ** Operations *)

Definition checkpoint (j : Journal) : Checkpoint * Journal :=
  let j := j ++ [CheckpointMarker] in ((length j - 1)%nat, j).

Definition log_nonce (idx : nat) (old_value old_last_tx_idx : Z) (j : Journal) : Journal :=
  j ++ [NonceEntry idx old_value old_last_tx_idx].
Definition log_balance (idx : nat) (old_value old_last_tx_idx : Z) (j : Journal) : Journal :=
  j ++ [BalanceEntry idx old_value old_last_tx_idx].
Definition log_code_hash (idx : nat) (old_value old_last_tx_idx : Z) (j : Journal) : Journal :=
  j ++ [CodeHashEntry idx old_value old_last_tx_idx].
Definition log_storage (idx : nat) (old_value old_last_tx_idx : Z) (j : Journal) : Journal :=
  j ++ [StorageEntry idx old_value old_last_tx_idx].
Definition log_account_warm (idx : nat) (old_last_tx_idx : Z) (j : Journal) : Journal :=
  j ++ [AccountWarmEntry idx old_last_tx_idx].
Definition log_storage_warm (idx : nat) (old_last_tx_idx : Z) (j : Journal) : Journal :=
  j ++ [StorageWarmEntry idx old_last_tx_idx].
Definition log_transient (address position : Z) (was_present : bool) (old_value : Z)
    (j : Journal) : Journal :=
  j ++ [TransientEntry address position was_present old_value].
Definition log_warm_key_account (address old_last_tx_idx : Z) (j : Journal) : Journal :=
  j ++ [WarmKeyAccountEntry address old_last_tx_idx].
Definition log_warm_key_slot (address position old_last_tx_idx : Z) (j : Journal) : Journal :=
  j ++ [WarmKeySlotEntry address position old_last_tx_idx].
Definition log_pending_destruct (idx : nat) (was_already_present : bool) (j : Journal) : Journal :=
  j ++ [PendingDestructEntry idx was_already_present].
Definition release (j : Journal) : Journal := [].

(** The visitor of [rollback]. *)
Definition undo (e : Entry) (w : World) : res World :=
  match e with
  | CheckpointMarker => Ok w
  | NonceEntry idx v l => a ← set_nonce_at idx v l (accounts w); Ok (put_accounts a w)
  | BalanceEntry idx v l => a ← set_balance_at idx v l (accounts w); Ok (put_accounts a w)
  | CodeHashEntry idx v l => a ← set_code_hash_at idx v l (accounts w); Ok (put_accounts a w)
  | StorageEntry idx v l => s ← set_value_at idx v l (storages w); Ok (put_storages s w)
  | AccountWarmEntry idx l =>
      a ← Accounts.set_warm_at idx l (accounts w); Ok (put_accounts a w)
  | StorageWarmEntry idx l => s ← set_warm_at idx l (storages w); Ok (put_storages s w)
  | TransientEntry a p b v => Ok (put_transient (restore a p b v (transient w)) w)
  | WarmKeyAccountEntry a l => Ok (put_warm_keys (set_account a l (warm_keys w)) w)
  | WarmKeySlotEntry a p l => Ok (put_warm_keys (set_slot a p l (warm_keys w)) w)
  | PendingDestructEntry idx b =>
      Ok (if negb b then put_pending (pending_destruct w ∖ {[idx]}) w else w)
  end.

(** The pop loop; it runs at most once per entry. *)
Fixpoint rollback_loop (fuel : nat) (cp : Checkpoint) (j : Journal) (w : World)
    : res (Journal * World) :=
  if (cp <? length j)%nat then
    match fuel, last j with
    | S fuel, Some e => w ← undo e w; rollback_loop fuel cp (removelast j) w
    | _, _ => Fatal "rollback: out of fuel"
    end
  else Ok (j, w).

Definition rollback (cp : Checkpoint) (j : Journal) (w : World) : res (Journal * World) :=
  match j !! cp with
  | Some CheckpointMarker => rollback_loop (length j) cp j w
  | _ => Fatal "Journal::rollback: invalid checkpoint"
  end.

(** ** Rollback is the undo of the popped entries, newest first *)

Fixpoint undo_all (es : list Entry) (w : World) : res World :=
  match es with
  | [] => Ok w
  | e :: es => w ← undo e w; undo_all es w
  end.

Lemma undo_all_app es1 es2 w :
  undo_all (es1 ++ es2) w = undo_all es1 w ≫= undo_all es2.
Proof.
  revert w. induction es1 as [|e es1 IH]; intros w; [done|]. cbn.
  destruct (undo e w); cbn; [apply IH|done].
Qed.

Lemma rollback_loop_spec es : ∀ fuel cp j w,
  length j = cp → (length es ≤ fuel)%nat →
  rollback_loop fuel cp (j ++ es) w = (w' ← undo_all (reverse es) w; Ok (j, w')).
Proof.
  induction es as [|e es IH] using rev_ind; intros fuel cp j w Hj Hf.
  - rewrite app_nil_r. destruct fuel; cbn [rollback_loop]; by rewrite Hj, Nat.ltb_irrefl.
  - rewrite length_app in Hf. cbn in Hf. destruct fuel as [|fuel]; [lia|].
    cbn [rollback_loop]. rewrite !length_app, (proj2 (Nat.ltb_lt _ _)) by (cbn; lia).
    rewrite app_assoc, last_snoc, removelast_last, reverse_snoc. cbn.
    destruct (undo e w); cbn; [|done]. apply IH; [done|lia].
Qed.

Lemma rollback_spec j es w :
  rollback (length j) (j ++ CheckpointMarker :: es) w =
  (w' ← undo_all (reverse es) w; Ok (j, w')).
Proof.
  unfold rollback. rewrite list_lookup_middle by done.
  rewrite (rollback_loop_spec (CheckpointMarker :: es)); [|done|rewrite length_app; lia].
  rewrite reverse_cons, undo_all_app.
  destruct (undo_all (reverse es) w); done.
Qed.

(** ** Equivalence of worlds in transaction [T]; the warmth of the addresses in
    [ex] is not looked up. *)

Section Rollback.
Context (ex : Z → bool).

Record world_equiv (T : Z) (w w' : World) : Prop := {
  we_accounts : Accounts.equiv ex (accounts w) (accounts w');
  we_storages : Storages.equiv T (storages w) (storages w');
  we_warm : warm_keys w ≡ warm_keys w';
  we_transient : transient w = transient w';
  we_pending : pending_destruct w = pending_destruct w' }.

#[global] Instance world_equivalence T : Equivalence (world_equiv T).
Proof.
  split; [done|..].
  - intros x y [? ? ? ? ?]. split; by symmetry.
  - intros x y z [? ? ? ? ?] [? ? ? ? ?]. split; by etrans.
Qed.

(** An entry that can be undone in [w]: its row exists; a storage record is
    undone while its slot is warm in [T], a storage warmth record leads out of
    [T]. *)
Definition undo_ok (T : Z) (e : Entry) (w : World) : Prop :=
  match e with
  | NonceEntry i _ _ | BalanceEntry i _ _ | CodeHashEntry i _ _ | AccountWarmEntry i _ =>
      (i < length (Accounts.rows (accounts w)))%nat
  | StorageEntry i _ _ => ∃ r, Storages.rows (storages w) !! i = Some r ∧
      last_tx_idx (Storages.mods r) = T
  | StorageWarmEntry i l => (i < length (Storages.rows (storages w)))%nat ∧ l ≠ T
  | _ => True
  end.

Lemma account_undo_proper (op : Accounts → res Accounts) f i a b :
  (∀ a, acc_ok a → (i < length (Accounts.rows a))%nat → ∃ a', op a = Ok a' ∧ Accounts.writes f i a a') →
  (∀ r r', Accounts.row_equiv ex r r' → Accounts.row_equiv ex (f r) (f r')) →
  acc_ok a → acc_ok b → Accounts.equiv ex a b → (i < length (Accounts.rows a))%nat →
  ∃ a' b', op a = Ok a' ∧ op b = Ok b' ∧ Accounts.equiv ex a' b' ∧ acc_ok a' ∧ acc_ok b'.
Proof.
  intros Hop Hf Ha Hb Hab Hi.
  assert (Hi' : (i < length (Accounts.rows b))%nat).
  { destruct Hab as [_ _ _ _ Hr]. apply Forall2_length in Hr. lia. }
  destruct (Hop a Ha Hi) as (a' & Ea & Wa). destruct (Hop b Hb Hi') as (b' & Eb & Wb).
  exists a', b'. split; [done|]. split; [done|].
  split; [by eapply (writes_proper ex f i a a' b b')|].
  split; [apply Wa|apply Wb].
Qed.

Lemma row_equiv_balance v t r r' :
  Accounts.row_equiv ex r r' → Accounts.row_equiv ex (w_balance v t r) (w_balance v t r').
Proof. intros []. by split. Qed.
Lemma row_equiv_nonce v t r r' :
  Accounts.row_equiv ex r r' → Accounts.row_equiv ex (w_nonce v t r) (w_nonce v t r').
Proof. intros []. by split. Qed.
Lemma row_equiv_code_hash v t r r' :
  Accounts.row_equiv ex r r' → Accounts.row_equiv ex (w_code_hash v t r) (w_code_hash v t r').
Proof. intros []. by split. Qed.
Lemma row_equiv_warm t r r' :
  Accounts.row_equiv ex r r' → Accounts.row_equiv ex (Accounts.w_warm t r) (Accounts.w_warm t r').
Proof. intros []. by split. Qed.

(** Undoing an entry respects the equivalence. *)
Lemma undo_proper T e w w' :
  acc_ok (accounts w) → acc_ok (accounts w') → world_equiv T w w' → undo_ok T e w →
  ∃ u u', undo e w = Ok u ∧ undo e w' = Ok u' ∧ world_equiv T u u' ∧
    acc_ok (accounts u) ∧ acc_ok (accounts u').
Proof.
  intros Ha Ha' [Ea Es Ew Et Ep] Hok.
  destruct e as [|i v l|i v l|i v l|i v l|i l|i l|a p b v|a l|a p l|i b]; cbn in Hok |- *.
  - by exists w, w'.
  - destruct (account_undo_proper (set_nonce_at i v l) (w_nonce v l) i (accounts w) (accounts w'))
      as (x & y & -> & -> & ? & ? & ?); eauto using set_nonce_at_writes, row_equiv_nonce.
    by eexists _, _.
  - destruct (account_undo_proper (set_balance_at i v l) (w_balance v l) i (accounts w) (accounts w'))
      as (x & y & -> & -> & ? & ? & ?); eauto using set_balance_at_writes, row_equiv_balance.
    by eexists _, _.
  - destruct (account_undo_proper (set_code_hash_at i v l) (w_code_hash v l) i (accounts w) (accounts w'))
      as (x & y & -> & -> & ? & ? & ?); eauto using set_code_hash_at_writes, row_equiv_code_hash.
    by eexists _, _.
  - destruct Hok as (r & Hr & Hl). pose proof (lookup_lt_Some _ _ _ Hr) as Hi.
    pose proof (Forall2_length _ _ _ (Storages.eq_rows _ _ _ Es)) as Hlen.
    rewrite !set_value_at_writes by lia. cbn. eexists _, _.
    do 2 (split; [done|]). split; [|done]. split; auto. apply alter_equiv; [|done].
    intros r0 r' Hr0 [? ? ? ? Ho]. simplify_eq. split; auto.
  - destruct (account_undo_proper (Accounts.set_warm_at i l) (Accounts.w_warm l) i (accounts w) (accounts w'))
      as (x & y & -> & -> & ? & ? & ?); eauto using Accounts.set_warm_at_writes, row_equiv_warm.
    by eexists _, _.
  - destruct Hok as (Hi & Hl).
    pose proof (Forall2_length _ _ _ (Storages.eq_rows _ _ _ Es)) as Hlen.
    rewrite !slot_set_warm_writes by lia. cbn. eexists _, _.
    do 2 (split; [done|]). split; [|done]. split; auto. apply alter_equiv; [|done].
    intros r0 r' Hr0 [? ? ? ? ?]. split; auto. cbn. intros ?. congruence.
  - eexists _, _. do 2 (split; [done|]). split; [|done]. split; cbn; auto; by rewrite Et.
  - eexists _, _. do 2 (split; [done|]). split; [|done]. split; cbn; auto; by apply set_account_proper.
  - eexists _, _. do 2 (split; [done|]). split; [|done]. split; cbn; auto; by apply set_slot_proper.
  - destruct b; eexists _, _; (do 2 (split; [done|])); (split; [|done]); split; cbn; auto; by rewrite Ep.
Qed.

Lemma undo_ok_equiv T e w w' : world_equiv T w w' → undo_ok T e w → undo_ok T e w'.
Proof.
  intros [[_ _ _ _ Ea] Es _ _ _]. apply Forall2_length in Ea.
  destruct Es as [_ _ _ Er]. destruct e; cbn; try lia; try done.
  - intros (r & Hr & Hl). destruct (Forall2_lookup_l _ _ _ _ _ Er Hr) as (r' & Hr' & [_ _ _ ? _]).
    exists r'. split; [done|congruence].
  - apply Forall2_length in Er. lia.
Qed.

(** The entries [es], newest first, can be undone one after the other. *)
Fixpoint undoable (T : Z) (es : list Entry) (w : World) : Prop :=
  match es with
  | [] => True
  | e :: es => undo_ok T e w ∧ ∀ u, undo e w = Ok u → undoable T es u
  end.

Lemma undo_all_proper T es : ∀ w w',
  acc_ok (accounts w) → acc_ok (accounts w') → world_equiv T w w' → undoable T es w →
  undoable T es w' ∧ ∃ u u', undo_all es w = Ok u ∧ undo_all es w' = Ok u' ∧ world_equiv T u u' ∧
    acc_ok (accounts u) ∧ acc_ok (accounts u').
Proof.
  induction es as [|e es IH]; intros w w' Ha Ha' Hw Hu; [by eauto 10|].
  destruct Hu as [He Hu].
  destruct (undo_proper T e w w') as (u & u' & E & E' & Huu & Hau & Hau'); [done..|].
  destruct (IH u u') as (Hun & v & v' & Ev & Ev' & Hvv & ? & ?); [done..|auto|].
  cbn. rewrite E, E'. cbn. split; [|by exists v, v'].
  split; [by eapply undo_ok_equiv|]. by intros ? [= <-].
Qed.

Lemma undoable_app T es1 es2 w u :
  undoable T es1 w → undo_all es1 w = Ok u → undoable T es2 u → undoable T (es1 ++ es2) w.
Proof.
  revert w. induction es1 as [|e es1 IH]; intros w H1 Hu H2; cbn in *; [by simplify_eq|].
  destruct H1 as [He H1]. split; [done|]. intros v Hv. rewrite Hv in Hu. cbn in Hu. eauto.
Qed.

Lemma undoable_app_inv T es1 es2 w u :
  undoable T (es1 ++ es2) w → undo_all es1 w = Ok u → undoable T es2 u.
Proof.
  revert w. induction es1 as [|e es1 IH]; intros w H1 Hu; cbn in *; [by simplify_eq|].
  destruct H1 as [He H1]. destruct (undo e w); cbn in Hu; [eauto|done].
Qed.

Lemma undo_all_ok T es w :
  acc_ok (accounts w) → undoable T es w →
  ∃ u, undo_all es w = Ok u ∧ acc_ok (accounts u).
Proof.
  intros Ha Hu. destruct (undo_all_proper T es w w) as (_ & u & _ & ? & _ & _ & ? & _); [done..|].
  eauto.
Qed.

(** ** Journaled execution

    [extends T s s']: from [s], execution in transaction [T] appended entries to
    the journal whose undo leads back to [s]. *)

Definition extends (T : Z) (s s' : Journal * World) : Prop :=
  acc_ok (accounts s.2) → acc_ok (accounts s'.2) ∧
  ∃ es u, s'.1 = s.1 ++ es ∧ undoable T (reverse es) s'.2 ∧
    undo_all (reverse es) s'.2 = Ok u ∧ world_equiv T u s.2.

#[global] Instance extends_preorder T : PreOrder (extends T).
Proof.
  split.
  - intros [j w] Ha. split; [done|]. exists [], w. by rewrite app_nil_r.
  - intros [j1 w1] [j2 w2] [j3 w3] H12 H23 Ha1.
    destruct (H12 Ha1) as (Ha2 & es1 & u1 & Ej2 & Hu1 & E1 & W1).
    destruct (H23 Ha2) as (Ha3 & es2 & u2 & Ej3 & Hu2 & E2 & W2). cbn in *.
    split; [done|].
    destruct (undo_all_ok T _ _ Ha3 Hu2) as (u2' & E2' & Hau2).
    rewrite E2 in E2'. apply Ok_inj in E2' as <-.
    destruct (undo_all_proper T (reverse es1) w2 u2) as (Hun & v & v' & Ev & Ev' & Hvv & _);
      [done|done|by symmetry|done|].
    rewrite E1 in Ev. apply Ok_inj in Ev as <-. subst.
    exists (es1 ++ es2), v'. rewrite app_assoc, reverse_app. split; [done|].
    split; [by eapply undoable_app|]. rewrite undo_all_app, E2. cbn.
    split; [done|]. etrans; [by symmetry|done].
Qed.

(** One journaled write. *)
Lemma extends_log T j w e w' :
  (acc_ok (accounts w) → acc_ok (accounts w') ∧ undo_ok T e w' ∧
     ∃ u, undo e w' = Ok u ∧ world_equiv T u w) →
  extends T (j, w) (j ++ [e], w').
Proof.
  intros H Ha. destruct (H Ha) as (? & Hok & u & Hu & Hw). split; [done|]. exists [e], u.
  cbn. rewrite Hu. cbn. auto.
Qed.

(** A change the equivalence does not see. *)
Lemma extends_silent T j w w' :
  (acc_ok (accounts w) → acc_ok (accounts w') ∧ world_equiv T w' w) → extends T (j, w) (j, w').
Proof. intros H Ha. destruct (H Ha). split; [done|]. exists [], w'. by rewrite app_nil_r. Qed.

Lemma extends_checkpoint T j w : extends T (j, w) ((checkpoint j).2, w).
Proof. apply extends_log. intros. split; [done|]. split; [done|]. by exists w. Qed.

(** Entries logged before the writes they record. *)
Lemma extends_logs T j w es w' :
  (acc_ok (accounts w) → acc_ok (accounts w') ∧ undoable T (reverse es) w' ∧
     ∃ u, undo_all (reverse es) w' = Ok u ∧ world_equiv T u w) →
  extends T (j, w) (j ++ es, w').
Proof. intros H Ha. destruct (H Ha) as (? & ? & u & ? & ?). split; [done|]. by exists es, u. Qed.

(** Rolling back to a checkpoint above the starting point stays an extension. *)
Lemma extends_rollback T j0 w0 cp j w j' w' :
  extends T (j0, w0) (j, w) → (length j0 ≤ cp)%nat → rollback cp j w = Ok (j', w') →
  extends T (j0, w0) (j', w').
Proof.
  intros Hext Hcp Hrb Ha. destruct (Hext Ha) as (Ha' & es & u & Ej & Hun & Eu & Hw). cbn in *.
  unfold rollback in Hrb. destruct (j !! cp) as [[]|] eqn:Hcpj; try done.
  subst j. rewrite lookup_app_r in Hcpj by done.
  destruct (list_elem_of_split_length _ _ _ Hcpj) as (es1 & es2 & -> & Hl).
  rewrite app_assoc in Hrb. rewrite (rollback_loop_spec _ _ cp) in Hrb;
    [|rewrite length_app; lia|rewrite !length_app; cbn; lia].
  rewrite reverse_app in Hun, Eu. set (k := reverse (CheckpointMarker :: es2)) in *.
  rewrite undo_all_app in Eu.
  destruct (undo_all k w) as [v|] eqn:Ev; cbn in Hrb, Eu; [|done].
  apply Ok_inj in Hrb. injection Hrb as <- <-.
  destruct (undo_all_ok T k w Ha') as (v' & Ev' & Hav).
  { clear -Hun. revert w Hun. induction k as [|e k IH]; intros w; cbn; [done|].
    intros [? ?]. eauto. }
  rewrite Ev in Ev'. apply Ok_inj in Ev' as <-.
  split; [done|]. exists es1, u. split; [done|].
  split; [by eapply undoable_app_inv|done].
Qed.

(** Rolling back to the checkpoint where execution started undoes all of it:
    rollback succeeds, the journal is what it was, the world is equivalent. *)
Lemma rollback_restores T j w j' w' :
  acc_ok (accounts w) → extends T ((checkpoint j).2, w) (j', w') →
  ∃ u, rollback (checkpoint j).1 j' w' = Ok (j, u) ∧ world_equiv T u w ∧ acc_ok (accounts u).
Proof.
  intros Ha Hext. destruct (Hext Ha) as (Ha' & es & u & Ej & Hun & Hu & Hw).
  cbn in *. subst j'. rewrite length_app, Nat.add_sub, <- app_assoc. cbn.
  destruct (undo_all_ok T _ _ Ha' Hun) as (u' & Hu' & Hau). rewrite Hu in Hu'.
  apply Ok_inj in Hu' as <-. exists u. by rewrite rollback_spec, Hu.
Qed.

End Rollback.
End Journal.
