(* ===== verification/StateDb.v ===== *)
(** The EVM host ([src/zisk_state_db.cpp], [include/zeg/zisk_state_db.hpp],
    [include/zeg/fork.hpp]): state reads and writes, warm/cold accesses, value
    transfer, SELFDESTRUCT, CALL and CREATE frames over the account and storage
    tables, the journal and the access list.  The VM that runs a frame is a
    parameter (the interpreter of [Zevm.v] instantiates it); the precompiles and
    the signature recovery behind them are code outside the repository's own
    sources, keccak is the library's: parameters too. *)

From stdpp Require Import base numbers list strings gmap.
From S2P Require Import Prelude Fork Rlp Receipt Contracts Chain Bal EvmMem Accounts Storages Transient Journal.

Module StateDb.
Import Rlp Receipt Fork Journal.

(** ** Messages and results (the evmc interface) *)

Inductive call_kind := CALL | DELEGATECALL | CALLCODE | CREATE | CREATE2.
Inductive status_code :=
| SUCCESS | FAILURE | REVERT | OUT_OF_GAS | INVALID_INSTRUCTION | UNDEFINED_INSTRUCTION
| STACK_OVERFLOW | STACK_UNDERFLOW | BAD_JUMP_DESTINATION | INVALID_MEMORY_ACCESS
| STATIC_MODE_VIOLATION | CONTRACT_VALIDATION_FAILURE | OTHER (code : Z).
Inductive access_status := ACCESS_COLD | ACCESS_WARM.
#[export] Instance status_eq_dec : EqDecision status_code.
Proof. solve_decision. Defined.

(** [evmc::StateGas]: the EIP-8037 reservoir. *)
Record StateGas := mkStateGas { sg_left : Z; sg_spilled : Z }.

Record message := mkMessage {
  kind : call_kind;
  is_static : bool;             (* flags & EVMC_STATIC *)
  delegated : bool;             (* flags & EVMC_DELEGATED *)
  depth : Z;
  gas : Z;
  msg_state_gas : Z;
  recipient : Z;
  sender : Z;
  input_data : bytes;
  value : Z;
  code_address : Z;
  msg_code : option bytes }.    (* msg.code, when set *)

Record Result := mkResult {
  r_status : status_code;
  gas_left : Z;
  gas_refund : Z;
  output : bytes;
  state_gas : StateGas }.

Definition success (r : Result) : bool := bool_decide (r_status r = SUCCESS).

(** ** State *)

(** [bal_pending_]: nothing pending, an address without a row, or a row. *)
Inductive Pending := kNoBalPending | kMissingRow | PendingRow (row : nat).

(** [evmc_tx_context], as far as the opcodes read it. *)
Record TxContext := mkTxContext {
  tx_gas_price : Z;
  tx_origin : Z;
  block_coinbase : Z;
  block_number : Z;
  block_timestamp : Z;
  block_gas_limit : Z;
  block_prev_randao : Z;
  chain_id : Z;
  block_base_fee : Z;
  blob_base_fee : Z;
  blob_hashes : list Z;
  block_slot_number : Z }.

(** The host object, and the process-wide EVM memory its VM uses. *)
Record StateDB := mkDB {
  world : World;
  journal_ : list Entry;
  contracts_ : Contracts.Contracts;
  tx_counter_ : Z;
  tx_receipts_ : list TxReceipt;
  in_system_call_ : bool;
  created_this_tx_idx_ : gset nat;
  storage_wiped_idx_ : gset nat;
  bal_pending_ : Pending;
  fork_id : Z;
  tx_context_ : TxContext;
  consensus_number : Z;
  previous_blocks_ : Chain.PreviousBlocks;
  evm_mem : EvmMem.EVMMem }.

Definition put_world (w : World) (s : StateDB) : StateDB :=
  mkDB w (journal_ s) (contracts_ s) (tx_counter_ s) (tx_receipts_ s) (in_system_call_ s)
    (created_this_tx_idx_ s) (storage_wiped_idx_ s) (bal_pending_ s) (fork_id s)
    (tx_context_ s) (consensus_number s) (previous_blocks_ s) (evm_mem s).
Definition put_journal (j : list Entry) (s : StateDB) : StateDB :=
  mkDB (world s) j (contracts_ s) (tx_counter_ s) (tx_receipts_ s) (in_system_call_ s)
    (created_this_tx_idx_ s) (storage_wiped_idx_ s) (bal_pending_ s) (fork_id s)
    (tx_context_ s) (consensus_number s) (previous_blocks_ s) (evm_mem s).
Definition put_contracts (c : Contracts.Contracts) (s : StateDB) : StateDB :=
  mkDB (world s) (journal_ s) c (tx_counter_ s) (tx_receipts_ s) (in_system_call_ s)
    (created_this_tx_idx_ s) (storage_wiped_idx_ s) (bal_pending_ s) (fork_id s)
    (tx_context_ s) (consensus_number s) (previous_blocks_ s) (evm_mem s).
Definition put_receipts (r : list TxReceipt) (s : StateDB) : StateDB :=
  mkDB (world s) (journal_ s) (contracts_ s) (tx_counter_ s) r (in_system_call_ s)
    (created_this_tx_idx_ s) (storage_wiped_idx_ s) (bal_pending_ s) (fork_id s)
    (tx_context_ s) (consensus_number s) (previous_blocks_ s) (evm_mem s).
Definition put_created (c : gset nat) (s : StateDB) : StateDB :=
  mkDB (world s) (journal_ s) (contracts_ s) (tx_counter_ s) (tx_receipts_ s) (in_system_call_ s)
    c (storage_wiped_idx_ s) (bal_pending_ s) (fork_id s)
    (tx_context_ s) (consensus_number s) (previous_blocks_ s) (evm_mem s).
Definition put_wiped (c : gset nat) (s : StateDB) : StateDB :=
  mkDB (world s) (journal_ s) (contracts_ s) (tx_counter_ s) (tx_receipts_ s) (in_system_call_ s)
    (created_this_tx_idx_ s) c (bal_pending_ s) (fork_id s)
    (tx_context_ s) (consensus_number s) (previous_blocks_ s) (evm_mem s).
Definition put_bal_pending (p : Pending) (s : StateDB) : StateDB :=
  mkDB (world s) (journal_ s) (contracts_ s) (tx_counter_ s) (tx_receipts_ s) (in_system_call_ s)
    (created_this_tx_idx_ s) (storage_wiped_idx_ s) p (fork_id s)
    (tx_context_ s) (consensus_number s) (previous_blocks_ s) (evm_mem s).
Definition put_mem (m : EvmMem.EVMMem) (s : StateDB) : StateDB :=
  mkDB (world s) (journal_ s) (contracts_ s) (tx_counter_ s) (tx_receipts_ s) (in_system_call_ s)
    (created_this_tx_idx_ s) (storage_wiped_idx_ s) (bal_pending_ s) (fork_id s)
    (tx_context_ s) (consensus_number s) (previous_blocks_ s) m.

(** ** The host monad: state passing with [fatal] *)

Definition M (A : Type) : Type := StateDB → res (A * StateDB).
#[export] Instance M_ret : MRet M := λ A a s, Ok (a, s).
#[export] Instance M_bind : MBind M := λ A B f m s,
  match m s with Ok (a, s) => f a s | Fatal e => Fatal e end.

Definition gets {A} (f : StateDB → A) : M A := λ s, Ok (f s, s).
Definition lift {A} (r : res A) : M A := λ s, match r with Ok a => Ok (a, s) | Fatal e => Fatal e end.
Definition modify (f : StateDB → StateDB) : M unit := λ s, Ok (tt, f s).
Definition fatal {A} (msg : string) : M A := λ _, Fatal msg.
Definition when (b : bool) (m : M unit) : M unit := if b then m else mret tt.

(** Reading and updating the tables, the journal. *)
Definition acc {A} (f : Accounts.Accounts → res A) : M A := λ s,
  match f (accounts (world s)) with Ok a => Ok (a, s) | Fatal e => Fatal e end.
Definition acc_upd (f : Accounts.Accounts → res Accounts.Accounts) : M unit := λ s,
  match f (accounts (world s)) with
  | Ok a => Ok (tt, put_world (put_accounts a (world s)) s)
  | Fatal e => Fatal e
  end.
Definition acc_run {A} (f : Accounts.Accounts → res (A * Accounts.Accounts)) : M A := λ s,
  match f (accounts (world s)) with
  | Ok (x, a) => Ok (x, put_world (put_accounts a (world s)) s)
  | Fatal e => Fatal e
  end.
Definition sto {A} (f : Storages.Storages → res A) : M A := λ s,
  match f (storages (world s)) with Ok a => Ok (a, s) | Fatal e => Fatal e end.
Definition sto_upd (f : Storages.Storages → res Storages.Storages) : M unit := λ s,
  match f (storages (world s)) with
  | Ok a => Ok (tt, put_world (put_storages a (world s)) s)
  | Fatal e => Fatal e
  end.
Definition log (f : list Entry → list Entry) : M unit := modify (λ s, put_journal (f (journal_ s)) s).

(** [bal_] is the access list the account table points to. *)
Definition bal_on : M bool :=
  gets (λ s, match Accounts.bal_ (accounts (world s)) with Some _ => true | None => false end).
Definition bal_run {A} (f : Bal.BlockAccessList → res (A * Bal.BlockAccessList)) : M A := λ s,
  match Accounts.bal_ (accounts (world s)) with
  | None => Fatal "null access list"
  | Some b =>
      match f b with
      | Ok (x, b) => Ok (x, put_world (put_accounts (Accounts.put_bal (Some b) (accounts (world s)))
                                         (world s)) s)
      | Fatal e => Fatal e
      end
  end.

(** ** Fork gates *)

Definition active_revision : M revision := gets (λ s, fork_to_revision (fork_id s)).
Definition is_amsterdam_or_later : M bool := gets (λ s, fk_Amsterdam <=? fork_id s).
Definition is_cancun_or_later : M bool := gets (λ s, rev_ge (fork_to_revision (fork_id s)) EVMC_CANCUN).
Definition is_london_or_later : M bool := gets (λ s, rev_ge (fork_to_revision (fork_id s)) EVMC_LONDON).

Definition kMaxCodeSize : Z := 0x6000.
Definition kMaxCodeSizeAmsterdam : Z := 0x10000.
Definition max_code_size : M Z :=
  a ← is_amsterdam_or_later; mret (if a : bool then kMaxCodeSizeAmsterdam else kMaxCodeSize).

Definition EMPTY_CODE_HASH : Z := Node.kEmptyCodeHash.
Definition kSystemAddress : Z := 0xfffffffffffffffffffffffffffffffffffffffe.
Definition kTransferEventTopic : Z :=
  0xddf252ad1be2c89b69c2b068fc378daa952ba7f163c4a11628f55a4df523b3ef.

(** ** SSTORE status *)

Inductive storage_status :=
| STORAGE_ASSIGNED | STORAGE_ADDED | STORAGE_DELETED | STORAGE_MODIFIED
| STORAGE_DELETED_ADDED | STORAGE_MODIFIED_DELETED | STORAGE_DELETED_RESTORED
| STORAGE_ADDED_DELETED | STORAGE_MODIFIED_RESTORED.

Definition compute_storage_status (original current new_value : Z) : storage_status :=
  if new_value =? current then STORAGE_ASSIGNED else
  if original =? current then
    if original =? 0 then STORAGE_ADDED else
    if new_value =? 0 then STORAGE_DELETED else STORAGE_MODIFIED
  else
  if negb (original =? 0) && (current =? 0) then
    if new_value =? original then STORAGE_DELETED_RESTORED else STORAGE_DELETED_ADDED
  else if negb (original =? 0) && (new_value =? 0) then STORAGE_MODIFIED_DELETED
  else if (original =? 0) && (new_value =? 0) then STORAGE_ADDED_DELETED
  else if original =? new_value then STORAGE_MODIFIED_RESTORED
  else STORAGE_ASSIGNED.

(** ** Rows and the pending access *)

Definition account_row (addr : Z) : M nat := acc (Accounts.index_of addr).

(** [storages_.find] with its cache update. *)
Definition storages_find (addr key : Z) : M (option nat) := λ s,
  let '(i, st) := Storages.find addr key (storages (world s)) in
  Ok (i, put_world (put_storages st (world s)) s).

Definition storage_row (addr key : Z) : M nat :=
  i ← storages_find addr key;
  match i with
  | Some i => mret i
  | None => fatal "state key not in witness: storage slot"
  end.

Definition pending_row (addr : Z) : M Pending :=
  c ← gets (λ s, Accounts.contains addr (accounts (world s)));
  if c : bool then i ← account_row addr; mret (PendingRow i) else mret kMissingRow.

Definition bal_commit_pending : M unit :=
  p ← gets bal_pending_;
  match p with
  | kNoBalPending => mret tt
  | kMissingRow => fatal "state key not in witness: BAL account"
  | PendingRow i =>
      _ ← acc_upd (Accounts.bal_access_at i);
      modify (put_bal_pending kNoBalPending)
  end.

Definition bal_load (addr : Z) : M unit :=
  i ← account_row addr; acc_upd (Accounts.bal_access_at i).

(** The slot record of a row, created on demand and marked accessed. *)
Definition bal_slot (idx : nat) : M Z :=
  id ← sto (Storages.bal_id_at idx);
  key ← sto (Storages.position_at idx);
  id ← bal_run (λ b, Ok (Bal.witness_slot id key b));
  _ ← sto_upd (Storages.set_bal_id_at idx id);
  _ ← bal_run (λ b, b ← Bal.access_slot id b; Ok (tt, b));
  mret id.

Definition tx_counter : M Z := gets tx_counter_.

(** ** Reads *)

Definition account_exists (addr : Z) : M bool :=
  _ ← bal_commit_pending;
  idx ← account_row addr;
  _ ← acc_upd (Accounts.bal_access_at idx);
  n ← acc (Accounts.nonce_at idx);
  if negb (n =? 0) then mret true else
  c ← acc (Accounts.code_hash_at idx);
  if negb (c =? EMPTY_CODE_HASH) then mret true else
  b ← acc (Accounts.balance_at idx);
  mret (negb (b =? 0)).

Definition get_storage (addr key : Z) : M Z :=
  _ ← bal_commit_pending;
  idx ← storage_row addr key;
  on ← bal_on;
  _ ← when on (_ ← bal_slot idx; mret tt);
  t ← tx_counter;
  _ ← sto_upd (Storages.mark_touched_at idx t);
  sto (Storages.value_at idx).

Definition get_transient_storage (addr key : Z) : M Z :=
  _ ← bal_commit_pending;
  gets (λ s, TransientStorage.get addr key (transient (world s))).

Definition get_balance (addr : Z) : M Z :=
  _ ← bal_commit_pending;
  t ← tx_counter; acc_run (Accounts.balance addr t).

Definition get_nonce (addr : Z) : M Z :=
  t ← tx_counter; acc_run (Accounts.nonce addr t).

Definition read_code_hash (addr : Z) : M Z :=
  t ← tx_counter; acc_run (Accounts.code_hash addr t).

Definition contract_by_hash (h : Z) : M Contracts.Contract :=
  c ← gets contracts_; lift (Contracts.by_hash h c).

Definition get_code_size (addr : Z) : M Z :=
  _ ← bal_commit_pending;
  h ← read_code_hash addr;
  if h =? EMPTY_CODE_HASH then mret 0 else
  c ← contract_by_hash h;
  mret (len (Contracts.code c)).

Definition get_code_hash (addr : Z) : M Z :=
  _ ← bal_commit_pending;
  e ← account_exists addr;
  if e : bool then read_code_hash addr else mret 0.

(** The bytes copied into a buffer of [buffer_size] bytes. *)
Definition copy_code (addr offset buffer_size : Z) : M bytes :=
  _ ← bal_commit_pending;
  h ← read_code_hash addr;
  if h =? EMPTY_CODE_HASH then mret [] else
  c ← contract_by_hash h;
  let code := Contracts.code c in
  if len code <=? offset then mret [] else
  let remaining := len code - offset in
  let n := if remaining <? buffer_size then remaining else buffer_size in
  mret (take (Z.to_nat n) (drop (Z.to_nat offset) code)).

(** [code_and_entry]: the code to run at an address; the empty hash has none. *)
Definition code_and_entry (addr : Z) : M bytes :=
  h ← read_code_hash addr;
  if h =? EMPTY_CODE_HASH then mret [] else
  c ← contract_by_hash h;
  mret (Contracts.code c).

(** ** Writes *)

(** ** Block context *)

Definition get_tx_context : M TxContext := _ ← bal_commit_pending; gets tx_context_.

Definition get_block_hash (n : Z) : M Z :=
  _ ← bal_commit_pending;
  current ← gets consensus_number;
  let diff := current - n in
  if (diff <? 1) || (256 <? diff) then mret 0 else
  blocks ← gets previous_blocks_;
  match Chain.hash_of_number n blocks with
  | Some h => mret h
  | None => fatal "get_block_hash: requested ancestor not in the verified block chain"
  end.


Definition set_storage (addr key v : Z) : M storage_status :=
  _ ← bal_commit_pending;
  idx ← storage_row addr key;
  original ← sto (Storages.tx_original_at idx);
  current ← sto (Storages.value_at idx);
  on ← bal_on;
  _ ← when on (id ← bal_slot idx; bal_run (λ b, b ← Bal.open_slot id current b; Ok (tt, b)));
  last ← sto (Storages.last_tx_idx_at idx);
  _ ← log (log_storage idx current last);
  t ← tx_counter;
  _ ← sto_upd (Storages.set_value_at idx v t);
  mret (compute_storage_status original current v).

Definition set_transient_storage (addr key v : Z) : M unit :=
  _ ← bal_commit_pending;
  prev ← (λ s, let '(p, t) := TransientStorage.set addr key v (transient (world s)) in
               Ok (p, put_world (put_transient t (world s)) s));
  log (log_transient addr key (TransientStorage.was_present prev) (TransientStorage.prev_value prev)).

(** The recurring pair [log_balance(idx, balance_at, last_tx_idx_at)]. *)
Definition log_old_balance (idx : nat) : M unit :=
  b ← acc (Accounts.balance_at idx); l ← acc (Accounts.last_tx_idx_at idx);
  log (log_balance idx b l).
Definition log_old_nonce (idx : nat) : M unit :=
  n ← acc (Accounts.nonce_at idx); l ← acc (Accounts.last_tx_idx_at idx);
  log (log_nonce idx n l).
Definition log_old_code_hash (idx : nat) : M unit :=
  c ← acc (Accounts.code_hash_at idx); l ← acc (Accounts.last_tx_idx_at idx);
  log (log_code_hash idx c l).

Definition set_balance_idx (idx : nat) (v : Z) : M unit :=
  t ← tx_counter; acc_upd (Accounts.set_balance_at idx v t).
Definition set_nonce_idx (idx : nat) (v : Z) : M unit :=
  t ← tx_counter; acc_upd (Accounts.set_nonce_at idx v t).
Definition set_code_hash_idx (idx : nat) (v : Z) : M unit :=
  t ← tx_counter; acc_upd (Accounts.set_code_hash_at idx v t).

(** Append to the current receipt's logs. *)
Definition push_log (l : LogEntry) (rs : list TxReceipt) : list TxReceipt :=
  match last rs with
  | Some r => removelast rs ++
      [mkReceipt (tx_type r) (status r) (cumulative_gas_used r) (logs_bloom r) (logs r ++ [l])]
  | None => rs
  end.

Definition emit_log (addr : Z) (data : bytes) (topics : list Z) : M unit :=
  _ ← bal_commit_pending;
  sys ← gets in_system_call_;
  if sys : bool then mret tt else
  rs ← gets tx_receipts_;
  match rs with
  | [] => fatal "back() of an empty receipt list"
  | _ => modify (put_receipts (push_log (mkLog addr topics data) rs))
  end.

Definition emit_transfer_log (from to v : Z) : M unit :=
  a ← is_amsterdam_or_later;
  if negb a || (from =? to) || (v =? 0) then mret tt else
  emit_log kSystemAddress (be_bytes 32 v) [kTransferEventTopic; from; to].

Definition transfer_value (from to v : Z) : M unit :=
  from_idx ← account_row from;
  to_idx ← account_row to;
  if decide (from_idx = to_idx) then mret tt else
  _ ← log_old_balance from_idx;
  _ ← log_old_balance to_idx;
  from_u ← acc (Accounts.balance_at from_idx);
  to_u ← acc (Accounts.balance_at to_idx);
  _ ← set_balance_idx from_idx (u256 (from_u - v));
  _ ← set_balance_idx to_idx (u256 (to_u + v));
  emit_transfer_log from to v.

(** Register a row for destruction at the end of the transaction. *)
Definition register_destruct (idx : nat) : M bool :=
  p ← gets (λ s, pending_destruct (world s));
  let inserted := bool_decide (idx ∉ p) in
  _ ← modify (λ s, put_world (put_pending ({[idx]} ∪ p) (world s)) s);
  _ ← log (log_pending_destruct idx (negb inserted));
  mret inserted.

Definition selfdestruct (addr beneficiary : Z) : M bool :=
  _ ← bal_commit_pending;
  src_idx ← account_row addr;
  created ← gets created_this_tx_idx_;
  cancun ← is_cancun_or_later;
  let same_tx_created := bool_decide (src_idx ∈ created) in
  let should_destroy := if cancun : bool then same_tx_created else true in
  if addr =? beneficiary then
    if should_destroy then
      a ← is_amsterdam_or_later;
      _ ← when (negb a) (_ ← log_old_balance src_idx; set_balance_idx src_idx 0);
      register_destruct src_idx
    else mret false
  else
    dst_idx ← account_row beneficiary;
    _ ← log_old_balance src_idx;
    _ ← log_old_balance dst_idx;
    src_u ← acc (Accounts.balance_at src_idx);
    dst_u ← acc (Accounts.balance_at dst_idx);
    _ ← set_balance_idx dst_idx (u256 (dst_u + src_u));
    _ ← set_balance_idx src_idx 0;
    _ ← emit_transfer_log addr beneficiary src_u;
    if should_destroy then register_destruct src_idx else mret false.

(** One slot of the end-of-transaction wipe. *)
Definition clear_slot (i : nat) : M unit :=
  cur ← sto (Storages.value_at i);
  if cur =? 0 then mret tt else
  on ← bal_on;
  id ← sto (Storages.bal_id_at i);
  _ ← when (on && negb (id =? Bal.kNone))
        (bal_run (λ b, b ← Bal.open_slot id cur b; Ok (tt, b)));
  last ← sto (Storages.last_tx_idx_at i);
  _ ← log (log_storage i cur last);
  t ← tx_counter;
  sto_upd (Storages.set_value_at i 0 t).

Fixpoint for_all (f : nat → M unit) (l : list nat) : M unit :=
  match l with
  | [] => mret tt
  | i :: l => _ ← f i; for_all f l
  end.

Definition clear_account_for_selfdestruct (src_idx : nat) : M unit :=
  a ← is_amsterdam_or_later;
  _ ← when (negb a) (_ ← log_old_balance src_idx; set_balance_idx src_idx 0);
  _ ← log_old_nonce src_idx;
  _ ← set_nonce_idx src_idx 0;
  _ ← log_old_code_hash src_idx;
  _ ← set_code_hash_idx src_idx EMPTY_CODE_HASH;
  addr ← acc (Accounts.address_at src_idx);
  l ← gets (λ s, Storages.slots_of addr (storages (world s)));
  _ ← for_all clear_slot l;
  modify (λ s, put_wiped ({[src_idx]} ∪ storage_wiped_idx_ s) s).

(** The set is visited in the order of its elements; every element's clear
    writes its own rows. *)
Definition apply_pending_destructs : M unit :=
  p ← gets (λ s, pending_destruct (world s));
  _ ← for_all clear_account_for_selfdestruct (elements p);
  modify (λ s, put_world (put_pending ∅ (world s)) s).

(** ** Warm/cold accesses *)

Section Host.

(** Code outside the repository's sources: keccak, the evmone precompiles, the
    signature recovery, the EIP-8037 state-gas charge and its price, and the VM
    ([vm] runs one frame: a message and its code, against the host state). *)
Context (keccak256 : bytes → Z).
Context (is_precompile : revision → Z → bool).
Context (call_precompile : revision → message → Result).
Context (ecrecover_address : Z → Z → Z → Z → option Z).
Context (state_gas_charge : StateGas → Z → Z → option (Z * StateGas)).
Context (COST_PER_STATE_BYTE : Z).
Context (vm : message → bytes → M Result).

Definition access_account (addr : Z) : M access_status :=
  _ ← bal_commit_pending;
  rev ← active_revision;
  on ← bal_on;
  if is_precompile rev addr then
    _ ← when on (p ← pending_row addr; modify (put_bal_pending p));
    mret ACCESS_WARM
  else
  known ← gets (λ s, Accounts.contains addr (accounts (world s)));
  t ← tx_counter;
  if negb known then
    last ← gets (λ s, WarmKeys.account addr (warm_keys (world s)));
    _ ← when (negb (last =? t))
          (_ ← log (log_warm_key_account addr last);
           modify (λ s, put_world (put_warm_keys (WarmKeys.set_account addr t (warm_keys (world s)))
                                     (world s)) s));
    _ ← when on (modify (put_bal_pending kMissingRow));
    mret (if last =? t then ACCESS_WARM else ACCESS_COLD)
  else
  idx ← account_row addr;
  was_warm ← acc (Accounts.is_warm_at idx t);
  _ ← when (negb was_warm)
        (l ← acc (Accounts.last_tx_idx_at idx); log (log_account_warm idx l));
  _ ← acc_upd (Accounts.mark_touched_at idx t);
  _ ← when on (modify (put_bal_pending (PendingRow idx)));
  mret (if was_warm : bool then ACCESS_WARM else ACCESS_COLD).

Definition access_storage (addr key : Z) : M access_status :=
  _ ← bal_commit_pending;
  found ← storages_find addr key;
  t ← tx_counter;
  match found with
  | None =>
      last ← gets (λ s, WarmKeys.slot addr key (warm_keys (world s)));
      _ ← when (negb (last =? t))
            (_ ← log (log_warm_key_slot addr key last);
             modify (λ s, put_world (put_warm_keys (WarmKeys.set_slot addr key t (warm_keys (world s)))
                                       (world s)) s));
      mret (if last =? t then ACCESS_WARM else ACCESS_COLD)
  | Some idx =>
      was_warm ← sto (Storages.is_warm_at idx t);
      _ ← when (negb was_warm)
            (l ← sto (Storages.last_tx_idx_at idx); log (log_storage_warm idx l));
      _ ← sto_upd (Storages.mark_touched_at idx t);
      mret (if was_warm : bool then ACCESS_WARM else ACCESS_COLD)
  end.

(** ** Checkpoints *)

Record Checkpoint := mkCheckpoint { journal_cp : nat; log_count : nat }.

Definition current_logs (rs : list TxReceipt) : nat :=
  match last rs with Some r => length (logs r) | None => 0%nat end.

Definition truncate_logs (n : nat) (rs : list TxReceipt) : list TxReceipt :=
  match last rs with
  | Some r => removelast rs ++
      [mkReceipt (tx_type r) (status r) (cumulative_gas_used r) (logs_bloom r) (take n (logs r))]
  | None => rs
  end.

Definition checkpoint : M Checkpoint := λ s,
  let '(cp, j) := Journal.checkpoint (journal_ s) in
  Ok (mkCheckpoint cp (current_logs (tx_receipts_ s)), put_journal j s).

Definition rollback (cp : Checkpoint) : M unit := λ s,
  match Journal.rollback (journal_cp cp) (journal_ s) (world s) with
  | Ok (j, w) =>
      Ok (tt, put_receipts (truncate_logs (log_count cp) (tx_receipts_ s))
                (put_world w (put_journal j s)))
  | Fatal e => Fatal e
  end.

(** ** Frames *)

(** [run_frame]: the VM, then the fate of the pending access. *)
Definition run_frame (msg : message) (code : bytes) : M Result :=
  r ← vm msg code;
  _ ← when (bool_decide (r_status r = SUCCESS) || bool_decide (r_status r = REVERT))
        bal_commit_pending;
  _ ← modify (put_bal_pending kNoBalPending);
  mret r.

Definition kEcrecoverGas : Z := 3000.

Definition no_output (st : status_code) (g : Z) (msg : message) : Result :=
  mkResult st g 0 [] (mkStateGas (msg_state_gas msg) 0).

Definition ecrecover_precompile (msg : message) : Result :=
  if gas msg <? kEcrecoverGas then no_output OUT_OF_GAS 0 msg else
  let left := gas msg - kEcrecoverGas in
  let input := take 128 (input_data msg ++ replicate 128 Byte.x00) in
  let v := be_val (slice input 32 64) in
  if negb ((v =? 27) || (v =? 28)) then no_output SUCCESS left msg else
  let recid := v - 27 in
  match ecrecover_address (be_val (slice input 0 32)) (be_val (slice input 64 96))
          (be_val (slice input 96 128)) recid with
  | None => no_output SUCCESS left msg
  | Some signer =>
      mkResult SUCCESS left 0 (replicate 12 Byte.x00 ++ be_bytes 20 signer)
        (mkStateGas (msg_state_gas msg) 0)
  end.

Definition call_precompile_dispatch (msg : message) : M Result :=
  if code_address msg =? 1 then mret (ecrecover_precompile msg)
  else rev ← active_revision; mret (call_precompile rev msg).

(** Code deposit of a successful CREATE; [None] when the frame can't pay. *)
Definition charge_code_deposit (r : Result) (amsterdam : bool) : option Result :=
  let size := len (output r) in
  if negb amsterdam then
    if gas_left r <? size * 200 then None
    else Some (mkResult (r_status r) (gas_left r - size * 200) (gas_refund r) (output r) (state_gas r))
  else
    let g := gas_left r - 6 * ((size + 31) / 32) in
    if g <? 0 then None else
    match state_gas_charge (state_gas r) g (size * COST_PER_STATE_BYTE) with
    | None => None
    | Some (g, sg) => Some (mkResult (r_status r) g (gas_refund r) (output r) sg)
    end.

Fixpoint any_slot_nonzero (l : list nat) (st : Storages.Storages) : res bool :=
  match l with
  | [] => Ok false
  | i :: l => v ← Storages.value_at i st;
              if negb (Node.is_zero_value v) then Ok true else any_slot_nonzero l st
  end.
Definition address_has_storage (addr : Z) : M bool :=
  sto (λ st, any_slot_nonzero (Storages.slots_of addr st) st).

Definition has_block_start_storage (idx : nat) : M bool :=
  w ← gets storage_wiped_idx_;
  if bool_decide (idx ∈ w) then mret false else
  e ← acc (Accounts.block_start_storage_empty_at idx);
  mret (negb e).

(** EIP-684 / EIP-7610 collision check, evaluated left to right. *)
Definition create_collides (new_addr : Z) (new_idx : nat) : M bool :=
  n ← acc (Accounts.nonce_at new_idx);
  if negb (n =? 0) then mret true else
  c ← acc (Accounts.code_hash_at new_idx);
  if negb (c =? EMPTY_CODE_HASH) then mret true else
  st ← address_has_storage new_addr;
  if st : bool then mret true else has_block_start_storage new_idx.

Definition init_create_account (new_addr : Z) (msg : message) : M bool :=
  new_idx ← account_row new_addr;
  collides ← create_collides new_addr new_idx;
  if collides : bool then mret false else
  _ ← log_old_nonce new_idx;
  _ ← set_nonce_idx new_idx 1;
  _ ← when (negb (value msg =? 0)) (transfer_value (sender msg) new_addr (value msg));
  mret true.

Definition register_deployed_code (new_addr : Z) (r : Result) : M unit :=
  new_idx ← acc (Accounts.index_of new_addr);
  let deployed_hash := keccak256 (output r) in
  _ ← when (0 <? len (output r))
        (c ← gets contracts_;
         c ← lift (Contracts.insert deployed_hash (output r) new_idx c);
         modify (put_contracts c));
  _ ← log_old_code_hash new_idx;
  set_code_hash_idx new_idx deployed_hash.

(** The checks on the returned code and the deposit, in the code's order. *)
Definition finish_create (msg : message) (new_addr : Z) (cp_after_bump : Checkpoint) (r : Result)
    : M Result :=
  limit ← max_code_size;
  london ← is_london_or_later;
  amsterdam ← is_amsterdam_or_later;
  if limit <? len (output r) then
    _ ← rollback cp_after_bump; mret (no_output OUT_OF_GAS 0 msg)
  else if london && match output r with b :: _ => b2z b =? 0xef | [] => false end then
    _ ← rollback cp_after_bump; mret (no_output CONTRACT_VALIDATION_FAILURE 0 msg)
  else
    match charge_code_deposit r amsterdam with
    | None => _ ← rollback cp_after_bump; mret (no_output OUT_OF_GAS 0 msg)
    | Some r =>
        _ ← register_deployed_code new_addr r;
        mret (mkResult (r_status r) (gas_left r) (gas_refund r) [] (state_gas r))
    end.

Definition UINT64_MAX : Z := 2 ^ 64 - 1.

(** The part of a CREATE that outlives its failure: the caller's nonce and the
    warmth of the new address.  Returns the new row. *)
Definition create_bump (msg : message) (sender_idx : nat) (sender_nonce_pre : Z) : M nat :=
  last ← acc (Accounts.last_tx_idx_at sender_idx);
  _ ← log (log_nonce sender_idx sender_nonce_pre last);
  _ ← set_nonce_idx sender_idx (sender_nonce_pre + 1);
  na_idx ← account_row (recipient msg);
  _ ← acc_upd (Accounts.bal_access_at na_idx);
  t ← tx_counter;
  warm ← acc (Accounts.is_warm_at na_idx t);
  _ ← when (negb warm) (l ← acc (Accounts.last_tx_idx_at na_idx); log (log_account_warm na_idx l));
  _ ← acc_upd (Accounts.mark_touched_at na_idx t);
  mret na_idx.

(** From the second checkpoint on. *)
Definition create_body (msg : message) (na_idx : nat) : M Result :=
  let new_addr := recipient msg in
  let init_code := match msg_code msg with Some c => c | None => input_data msg end in
  cp_after_bump ← checkpoint;
  fresh ← init_create_account new_addr msg;
  if negb fresh then
    _ ← rollback cp_after_bump; mret (no_output FAILURE 0 msg)
  else
  _ ← modify (λ s, put_created ({[na_idx]} ∪ created_this_tx_idx_ s) s);
  let create_msg := mkMessage (kind msg) (is_static msg) (delegated msg) (depth msg) (gas msg)
                      (msg_state_gas msg) new_addr (sender msg) [] (value msg) (code_address msg) (msg_code msg) in
  r ← run_frame create_msg init_code;
  if negb (success r) then _ ← rollback cp_after_bump; mret r
  else finish_create msg new_addr cp_after_bump r.

Definition call_create (msg : message) (cp : Checkpoint) : M Result :=
  sender_idx ← account_row (sender msg);
  sender_nonce_pre ← acc (Accounts.nonce_at sender_idx);
  if sender_nonce_pre =? UINT64_MAX then mret (no_output SUCCESS (gas msg) msg) else
  na_idx ← create_bump msg sender_idx sender_nonce_pre;
  create_body msg na_idx.

(** A frame's code has run: undo its writes unless it succeeded. *)
Definition settle_frame (cp : Checkpoint) (r : Result) : M Result :=
  _ ← when (negb (success r)) (rollback cp); mret r.

Definition call (msg : message) : M Result :=
  _ ← when (1024 <? depth msg) (fatal "call: depth > 1024");
  _ ← bal_commit_pending;
  rev ← active_revision;
  if negb (delegated msg) && is_precompile rev (code_address msg) then
    on ← bal_on;
    _ ← when on (bal_load (code_address msg));
    match kind msg with
    | CALL =>
        if negb (value msg =? 0) then
          pcp ← checkpoint;
          _ ← transfer_value (sender msg) (recipient msg) (value msg);
          r ← call_precompile_dispatch msg;
          settle_frame pcp r
        else call_precompile_dispatch msg
    | _ => call_precompile_dispatch msg
    end
  else
  cp ← checkpoint;
  match kind msg with
  | CALL =>
      _ ← when (negb (value msg =? 0)) (transfer_value (sender msg) (recipient msg) (value msg));
      code ← code_and_entry (code_address msg);
      r ← run_frame msg code;
      settle_frame cp r
  | CALLCODE | DELEGATECALL =>
      code ← code_and_entry (code_address msg);
      r ← run_frame msg code;
      settle_frame cp r
  | CREATE | CREATE2 => call_create msg cp
  end.

End Host.
End StateDb.
