(* ===== verification/HostProofs.v ===== *)
(** Every state change the host makes inside a frame is journaled, so reverting a
    frame restores the state it started from.  The proofs are compositional: a
    host action meets a specification [spec P m Q] when every run of it from a
    state in [P] extends the journal by entries whose undo leads back, and ends
    in [Q]. *)

From stdpp Require Import base numbers list strings gmap.
From S2P Require Import Prelude Fork Rlp Receipt Contracts Bal EvmMem Accounts Storages Transient Journal StateDb.

Module HostProofs.
Import Rlp Receipt Fork Journal StateDb.

(** ** Safety of the access-list operations, from their success *)

Lemma access_account_kept n m b b' row :
  Bal.safe n m b → Bal.access_account row b = Ok b' → Bal.safe n m b'.
Proof.
  intros [Hn Hm Ha Hs]. unfold Bal.access_account. intros H. ok_inv.
  match goal with H : vec_get _ _ = Ok _ |- _ => apply vec_get_Ok in H as Hr end.
  case_match; ok_inv; [done|]. split; cbn; [by rewrite length_insert|done| |done].
  apply Forall_insert; [done|]. exact (Forall_lookup_1 _ _ _ _ Ha Hr).
Qed.

Lemma witness_slot_kept n m b id key :
  Bal.safe n m b → ∃ m', Bal.safe n m' (Bal.witness_slot id key b).2.
Proof.
  intros [Hn Hm Ha Hs]. unfold Bal.witness_slot. case_match; [|by exists m].
  exists (S m). split; cbn; [done|rewrite length_app; cbn; lia|done|].
  apply Forall_app. split; [done|]. constructor; [by left|constructor].
Qed.

Lemma access_slot_kept n m b b' id :
  Bal.safe n m b → Bal.access_slot id b = Ok b' → Bal.safe n m b'.
Proof.
  intros [Hn Hm Ha Hs]. unfold Bal.access_slot, Bal.slot. intros H. ok_inv.
  match goal with H : vec_get _ _ = Ok _ |- _ => apply vec_get_Ok in H as Hr end.
  case_match; ok_inv; [done|]. split; cbn; [done|by rewrite length_insert|done|].
  apply Forall_insert; [done|]. exact (Forall_lookup_1 _ _ _ _ Hs Hr).
Qed.

Lemma open_slot_kept n m b b' id cur :
  Bal.safe n m b → Bal.open_slot id cur b = Ok b' → Bal.safe n m b'.
Proof.
  intros Hb H. destruct (Nat.lt_ge_cases (Z.to_nat id) m) as [Hlt|Hge].
  - destruct (Bal.open_slot_safe n m b id cur Hb Hlt) as (b1 & E & ?). congruence.
  - unfold Bal.open_slot, Bal.slot, vec_get in H.
    rewrite lookup_ge_None_2 in H by (rewrite (Bal.safe_slots _ _ _ Hb); done). done.
Qed.

(** ** Extension of host states *)

Section Host.
Context (is_precompile : revision → Z → bool).

Definition exempt (s : StateDB) : Z → bool := is_precompile (fork_to_revision (fork_id s)).

(** Row [i] is the row of [addr]. *)
Definition row_is (addr : Z) (i : nat) (s : StateDB) : Prop :=
  Accounts.index_ (accounts (world s)) !! addr = Some i.

(** Touching [addr] leaves its warmth as it is: the row is already warm, or its
    warmth is never looked up, or there is no row (and the touch aborts). *)
Definition warm_in (ex : Z → bool) (T : Z) (addr : Z) (a : Accounts.Accounts) : Prop :=
  ex addr = true ∨ ∀ i r, Accounts.index_ a !! addr = Some i → Accounts.rows a !! i = Some r →
    T ≤ Accounts.last_tx_idx (Accounts.mods r).
Definition acct_warm (addr : Z) (s : StateDB) : Prop :=
  warm_in (exempt s) (tx_counter_ s) addr (accounts (world s)).

(** No account cools down. *)
Definition warms (ex : Z → bool) (T : Z) (a a' : Accounts.Accounts) : Prop :=
  ∀ addr, warm_in ex T addr a → warm_in ex T addr a'.

Lemma warms_equiv ex T a a' :
  Accounts.acc_ok a → Accounts.equiv ex a' a → warms ex T a a'.
Proof.
  intros Ha [_ Hi _ _ Hr] addr [Hx|Hw]; [by left|].
  destruct (ex addr) eqn:Ex; [by left|]. right. intros i r' Hi' Hr'. rewrite Hi in Hi'.
  destruct (Forall2_lookup_l _ _ _ _ _ Hr Hr') as (r & Hl & Heq).
  destruct (Accounts.acc_index _ Ha _ _ Hi') as (r0 & Hr0 & Haddr). simplify_eq.
  rewrite (Accounts.re_last _ _ _ Heq); [by eapply Hw|].
  by rewrite (Accounts.re_record _ _ _ Heq).
Qed.

Lemma warms_writes ex T f i a a' :
  Accounts.writes f i a a' →
  (∀ r, Accounts.rows a !! i = Some r → T ≤ Accounts.last_tx_idx (Accounts.mods (f r))) →
  warms ex T a a'.
Proof.
  intros W Hf addr [Hx|Hw]; [by left|]. right. intros j r. rewrite (Accounts.wr_index _ _ _ _ W),
    (Accounts.wr_rows _ _ _ _ W). intros Hj. rewrite list_lookup_alter. case_decide as Hd; [|by apply Hw].
  subst. destruct (Accounts.rows a !! j) as [r0|] eqn:Hr; [|done]. intros [= <-]. by apply Hf.
Qed.

#[export] Instance warms_preorder ex T : PreOrder (warms ex T).
Proof. split; [by intros a addr|]. intros a b c H1 H2 addr H. by apply H2, H1. Qed.

(** The current receipt may have gained logs. *)
Definition receipts_ext (rs rs' : list TxReceipt) : Prop :=
  rs' = rs ∨ ∃ pre r more, rs = pre ++ [r] ∧
    rs' = pre ++ [mkReceipt (tx_type r) (status r) (cumulative_gas_used r) (logs_bloom r)
                    (logs r ++ more)].

(** The two sets of account rows that no rollback touches only grow. *)
Definition marks_grow (s s' : StateDB) : Prop :=
  created_this_tx_idx_ s ⊆ created_this_tx_idx_ s' ∧ storage_wiped_idx_ s ⊆ storage_wiped_idx_ s'.
#[export] Instance marks_grow_preorder : PreOrder marks_grow.
Proof. split; [by split|]. intros x y z [? ?] [? ?]. split; by etrans. Qed.

Record ext (s s' : StateDB) : Prop := {
  ext_tx : tx_counter_ s' = tx_counter_ s;
  ext_fork : fork_id s' = fork_id s;
  ext_receipts : receipts_ext (tx_receipts_ s) (tx_receipts_ s');
  ext_warm : Accounts.acc_ok (accounts (world s)) →
    warms (exempt s) (tx_counter_ s) (accounts (world s)) (accounts (world s'));
  ext_state : extends (exempt s) (tx_counter_ s) (journal_ s, world s) (journal_ s', world s');
  ext_mem : EvmMem.inv (evm_mem s) → EvmMem.inv (evm_mem s');
  ext_marks : marks_grow s s' }.

#[export] Instance receipts_ext_preorder : PreOrder receipts_ext.
Proof.
  split; [by left|]. intros x y z [->|(p & r & m & -> & ->)] [->|(p' & r' & m' & Hy & ->)];
    [by left|right; by exists p', r', m'|right; by exists p, r, m|].
  apply app_inj_2 in Hy as [-> [= <-]]; [|done]. right. exists p', r, (m ++ m'). cbn.
  by rewrite app_assoc.
Qed.

#[export] Instance ext_preorder : PreOrder ext.
Proof.
  split.
  - intros s. by split.
  - intros x y z [T1 F1 R1 W1 E1 M1 G1] [T2 F2 R2 W2 E2 M2 G2]. unfold exempt in *. rewrite T1, F1 in E2, W2.
    split; [congruence|congruence|by etrans| |by etrans|auto|by etrans].
    intros Ha. etrans; [by apply W1|]. apply W2. by apply E1.
Qed.

Definition spec {A} (P : StateDB → Prop) (m : M A) (Q : A → StateDB → Prop) : Prop :=
  ∀ s a s', P s → m s = Ok (a, s') → ext s s' ∧ Q a s'.
Definition any : StateDB → Prop := λ _, True.
Definition anyr {A} : A → StateDB → Prop := λ _ _, True.
Definition journaled {A} (m : M A) : Prop := spec any m anyr.

(** ** Rules *)

Lemma spec_bind {A B} P (m : M A) (k : A → M B) Q R :
  spec P m Q → (∀ a, spec (Q a) (k a) R) → spec P (m ≫= k) R.
Proof.
  intros Hm Hk s b s' HP H. unfold mbind, M_bind in H.
  destruct (m s) as [[a s1]|] eqn:E; [|done].
  destruct (Hm _ _ _ HP E) as [E1 HQ]. destruct (Hk a _ _ _ HQ H) as [E2 HR].
  split; [by etrans|done].
Qed.

Lemma spec_ret {A} P (a : A) (Q : A → StateDB → Prop) : (∀ s, P s → Q a s) → spec P (mret a) Q.
Proof. intros HQ s b s' HP [= <- <-]. split; [done|auto]. Qed.

Lemma spec_conseq {A} (P P' : StateDB → Prop) (m : M A) (Q Q' : A → StateDB → Prop) :
  spec P' m Q' → (∀ s, P s → P' s) → (∀ a s, Q' a s → Q a s) → spec P m Q.
Proof. intros Hm HP HQ s a s' Hs H. destruct (Hm s a s' (HP _ Hs) H). auto. Qed.

Lemma journaled_spec {A} P (m : M A) : journaled m → spec P m anyr.
Proof. intros Hm. by eapply spec_conseq. Qed.

Lemma journaled_bind {A B} (m : M A) (k : A → M B) :
  journaled m → (∀ a, journaled (k a)) → journaled (m ≫= k).
Proof. intros Hm Hk. eapply spec_bind; [exact Hm|]. intros a. apply journaled_spec, Hk. Qed.

Lemma journaled_ret {A} (a : A) : journaled (mret a).
Proof. by apply spec_ret. Qed.

Lemma journaled_fatal {A} e : journaled (fatal (A := A) e).
Proof. by intros s a s' _ [=]. Qed.

Lemma journaled_when b m : journaled m → journaled (when b m).
Proof. intros Hm. destruct b; [done|apply journaled_ret]. Qed.

(** An action that only reads. *)
Definition pure {A} (m : M A) : Prop := ∀ s a s', m s = Ok (a, s') → s' = s.

Lemma pure_spec {A} P (m : M A) : pure m → spec P m (λ _ s, P s).
Proof. intros Hm s a s' HP H. rewrite (Hm _ _ _ H). done. Qed.
Lemma pure_journaled {A} (m : M A) : pure m → journaled m.
Proof. intros Hm. eapply spec_conseq; [by apply (pure_spec any)|done|done]. Qed.

Lemma pure_gets {A} (f : StateDB → A) : pure (gets f).
Proof. by intros s a s' [= _ <-]. Qed.
Lemma pure_lift {A} (r : res A) : pure (lift r).
Proof. intros s a s'. unfold lift. destruct r; [by intros [= _ <-]|done]. Qed.
Lemma pure_acc {A} (f : Accounts.Accounts → res A) : pure (acc f).
Proof. intros s a s'. unfold acc. destruct (f _); [by intros [= _ <-]|done]. Qed.
Lemma pure_sto {A} (f : Storages.Storages → res A) : pure (sto f).
Proof. intros s a s'. unfold sto. destruct (f _); [by intros [= _ <-]|done]. Qed.

(** A change outside the world, the journal and the receipts. *)
Definition quiet (f : StateDB → StateDB) : Prop := ∀ s,
  world (f s) = world s ∧ journal_ (f s) = journal_ s ∧ tx_receipts_ (f s) = tx_receipts_ s ∧
  tx_counter_ (f s) = tx_counter_ s ∧ fork_id (f s) = fork_id s ∧ evm_mem (f s) = evm_mem s ∧
  marks_grow s (f s).

Lemma journaled_quiet f : quiet f → journaled (modify f).
Proof.
  intros Hf s a s' _ [= _ <-]. destruct (Hf s) as (Ew & Ej & Er & Et & Ef & Em & Hg).
  split; [|done]. split; [done|done|by rewrite Er|by rewrite Ew|by rewrite Ew, Ej|by rewrite Em|done].
Qed.

Lemma quiet_created i : quiet (λ s, put_created ({[i]} ∪ created_this_tx_idx_ s) s).
Proof. intros s. split_and!; try done. split; cbn; set_solver. Qed.
Lemma quiet_wiped i : quiet (λ s, put_wiped ({[i]} ∪ storage_wiped_idx_ s) s).
Proof. intros s. split_and!; try done. split; cbn; set_solver. Qed.

(** A change of the world alone. *)
Lemma ext_world s w :
  extends (exempt s) (tx_counter_ s) (journal_ s, world s) (journal_ s, w) →
  (Accounts.acc_ok (accounts (world s)) →
     warms (exempt s) (tx_counter_ s) (accounts (world s)) (accounts w)) →
  ext s (put_world w s).
Proof. by split. Qed.

Lemma ext_world_journal s w j :
  extends (exempt s) (tx_counter_ s) (journal_ s, world s) (j, w) →
  (Accounts.acc_ok (accounts (world s)) →
     warms (exempt s) (tx_counter_ s) (accounts (world s)) (accounts w)) →
  ext s (put_world w (put_journal j s)).
Proof. by split. Qed.

(** ** Silent steps: access-list bookkeeping, the lookup cache *)

Lemma silent_accounts s a' :
  (Accounts.acc_ok (accounts (world s)) →
     Accounts.acc_ok a' ∧ Accounts.equiv (exempt s) a' (accounts (world s))) →
  ext s (put_world (put_accounts a' (world s)) s).
Proof.
  intros H. apply ext_world.
  - apply extends_silent. intros Ha. destruct (H Ha) as [? ?]. split; [done|]. by split.
  - intros Ha. apply warms_equiv; [done|]. by apply H.
Qed.

Lemma silent_storages s st :
  Storages.equiv (tx_counter_ s) st (storages (world s)) →
  ext s (put_world (put_storages st (world s)) s).
Proof. intros H. apply ext_world; [|done]. apply extends_silent. intros Ha. split; [done|]. by split. Qed.

(** Replacing a present access list by a safe one. *)
Lemma put_bal_equiv ex a b b' :
  Accounts.bal_ a = Some b →
  (∀ m, Bal.safe (length (Accounts.rows a)) m b → ∃ m', Bal.safe (length (Accounts.rows a)) m' b') →
  Accounts.acc_ok a → Accounts.acc_ok (Accounts.put_bal (Some b') a) ∧
    Accounts.equiv ex (Accounts.put_bal (Some b') a) a.
Proof.
  intros Hb Hs [Hok Hi]. split.
  - split; [|done]. cbn. rewrite Hb in Hok. destruct Hok as [m Hm]. by apply (Hs m).
  - by split; cbn.
Qed.

Lemma journaled_bal_run {A} (f : Bal.BlockAccessList → res (A * Bal.BlockAccessList)) :
  (∀ n m b x b', Bal.safe n m b → f b = Ok (x, b') → ∃ m', Bal.safe n m' b') →
  journaled (bal_run f).
Proof.
  intros Hf s a s' _. unfold bal_run.
  destruct (Accounts.bal_ (accounts (world s))) as [b|] eqn:Eb; [|done].
  destruct (f b) as [[x b']|] eqn:Ef; [|done]. intros [= <- <-].
  split; [|done]. apply silent_accounts. apply (put_bal_equiv _ _ b); [done|].
  intros m Hm. by eapply Hf.
Qed.

Lemma journaled_bal_access i : journaled (acc_upd (Accounts.bal_access_at i)).
Proof.
  intros s a s' _. unfold acc_upd, Accounts.bal_access_at.
  destruct (Accounts.bal_ (accounts (world s))) as [b|] eqn:Eb.
  - destruct (Bal.access_account i b) as [b'|] eqn:E; [|done]. intros [= _ <-].
    split; [|done]. apply silent_accounts. apply (put_bal_equiv _ _ b); [done|].
    intros m Hm. exists m. by eapply access_account_kept.
  - intros [= _ <-]. split; [|done]. by apply silent_accounts.
Qed.

Lemma journaled_bal_commit : journaled bal_commit_pending.
Proof.
  unfold bal_commit_pending. apply journaled_bind; [apply pure_journaled, pure_gets|].
  intros []; [apply journaled_ret|apply journaled_fatal|].
  apply journaled_bind; [apply journaled_bal_access|]. intros _. by apply journaled_quiet.
Qed.

Lemma journaled_find addr key : journaled (storages_find addr key).
Proof.
  intros s a s' _. unfold storages_find.
  destruct (Storages.find addr key (storages (world s))) as [i st] eqn:E. intros [= _ <-].
  split; [|done]. apply silent_storages. unfold Storages.find in E. case_match; simplify_eq; by split.
Qed.

Lemma journaled_storage_row addr key : journaled (storage_row addr key).
Proof.
  unfold storage_row. apply journaled_bind; [apply journaled_find|].
  intros []; [apply journaled_ret|apply journaled_fatal].
Qed.

(** A storage row write the equivalence does not see. *)
Lemma silent_row_write s i f st' :
  Storages.upd_row f i (storages (world s)) = Ok st' →
  (∀ r, Storages.rows (storages (world s)) !! i = Some r →
     Storages.row_equiv (tx_counter_ s) (f r) r) →
  ext s (put_world (put_storages st' (world s)) s).
Proof.
  intros Hu Hf. apply silent_storages.
  destruct (Storages.rows (storages (world s)) !! i) as [r|] eqn:Hr; cycle 1.
  { unfold Storages.upd_row, Storages.row_at, vec_get in Hu. by rewrite Hr in Hu. }
  rewrite Storages.upd_slot_writes in Hu by (by eapply lookup_lt_Some). apply Ok_inj in Hu as <-.
  split; try done. cbn. apply Forall2_same_length_lookup. rewrite length_alter.
  split; [done|]. intros j x y. rewrite list_lookup_alter.
  destruct (decide (i = j)) as [<-|]; [rewrite Hr; cbn|]; intros; simplify_eq; (done || by apply Hf).
Qed.

Lemma journaled_set_bal_id i id : journaled (sto_upd (Storages.set_bal_id_at i id)).
Proof.
  intros s a s' _. unfold sto_upd.
  destruct (Storages.set_bal_id_at i id (storages (world s))) as [st|] eqn:E; [|done].
  intros [= _ <-]. split; [|done]. eapply silent_row_write; [exact E|]. intros r Hr. by split.
Qed.

Lemma journaled_bal_slot i : journaled (bal_slot i).
Proof.
  unfold bal_slot. apply journaled_bind; [apply pure_journaled, pure_sto|]. intros id.
  apply journaled_bind; [apply pure_journaled, pure_sto|]. intros key.
  apply journaled_bind.
  { apply journaled_bal_run. intros n m b x b' Hb [= E].
    destruct (witness_slot_kept n m b id key Hb) as [m' Hm']. rewrite E in Hm'. by exists m'. }
  intros id'. apply journaled_bind; [apply journaled_set_bal_id|]. intros _.
  apply journaled_bind; [|intros; apply journaled_ret].
  apply journaled_bal_run. intros n m b x b' Hb E. ok_inv.
  exists m. by eapply access_slot_kept.
Qed.

Lemma journaled_open_slot id cur :
  journaled (bal_run (λ b, b ← Bal.open_slot id cur b; Ok (tt, b))).
Proof.
  apply journaled_bal_run. intros n m b x b' Hb E. ok_inv. exists m. by eapply open_slot_kept.
Qed.

(** ** Journaled writes *)

Lemma ext_log_gen s e w' :
  (Accounts.acc_ok (accounts (world s)) →
     warms (exempt s) (tx_counter_ s) (accounts (world s)) (accounts w')) →
  (Accounts.acc_ok (accounts (world s)) → Accounts.acc_ok (accounts w') ∧
     undo_ok (tx_counter_ s) e w' ∧
     ∃ u, undo e w' = Ok u ∧ world_equiv (exempt s) (tx_counter_ s) u (world s)) →
  ext s (put_world w' (put_journal (journal_ s ++ [e]) s)).
Proof. intros Hw H. apply ext_world_journal; [by apply extends_log|done]. Qed.

(** The write is outside the accounts. *)
Lemma ext_log s e w' :
  accounts w' = accounts (world s) →
  (Accounts.acc_ok (accounts (world s)) → Accounts.acc_ok (accounts w') ∧
     undo_ok (tx_counter_ s) e w' ∧
     ∃ u, undo e w' = Ok u ∧ world_equiv (exempt s) (tx_counter_ s) u (world s)) →
  ext s (put_world w' (put_journal (journal_ s ++ [e]) s)).
Proof. intros Hw H. apply ext_log_gen; [by rewrite Hw|done]. Qed.

(** The generic journaled write of one account field: the entry holds the field's
    and the row's old values, the write sets the field at the current
    transaction. *)
Lemma ext_account_write s i r e a' (f g : Accounts.Row → Accounts.Row) (undo_f : Accounts.Accounts → res Accounts.Accounts) :
  Accounts.rows (accounts (world s)) !! i = Some r →
  (Accounts.acc_ok (accounts (world s)) → Accounts.writes f i (accounts (world s)) a') →
  (∀ w, undo e w = (a ← undo_f (accounts w); Ok (put_accounts a w))) →
  (∀ w, undo_ok (tx_counter_ s) e w ↔ (i < length (Accounts.rows (accounts w)))%nat) →
  (∀ a, Accounts.acc_ok a → (i < length (Accounts.rows a))%nat →
     ∃ a', undo_f a = Ok a' ∧ Accounts.writes g i a a') →
  Accounts.row_equiv (exempt s) (g (f r)) r →
  tx_counter_ s ≤ Accounts.last_tx_idx (Accounts.mods (f r)) →
  ext s (put_world (put_accounts a' (world s)) (put_journal (journal_ s ++ [e]) s)).
Proof.
  intros Hr Hw Hundo Hok Hg Heq Hlast. apply ext_log_gen.
  { intros Ha. eapply warms_writes; [by apply Hw|]. intros r0 Hr0. by simplify_eq. }
  intros Ha. specialize (Hw Ha).
  pose proof (lookup_lt_Some _ _ _ Hr) as Hi.
  assert (Hi' : (i < length (Accounts.rows a'))%nat)
    by (rewrite (Accounts.wr_rows _ _ _ _ Hw), length_alter; done).
  destruct (Hg a' (Accounts.wr_ok _ _ _ _ Hw) Hi') as (a2 & E2 & W2).
  split; [apply Hw|]. split; [by apply Hok|]. eexists. rewrite Hundo. cbn. rewrite E2. cbn.
  split; [done|]. split; try done. cbn. by eapply (Accounts.writes_undo _ f g i _ a' a2 r).
Qed.

(** Evaluation of the logging steps. *)
Lemma log_old_balance_run i s a s' :
  log_old_balance i s = Ok (a, s') → ∃ r, Accounts.rows (accounts (world s)) !! i = Some r ∧
    s' = put_journal (journal_ s ++ [BalanceEntry i (Accounts.row_balance r)
                                       (Accounts.last_tx_idx (Accounts.mods r))]) s.
Proof.
  unfold log_old_balance, log, log_balance, acc, modify, Accounts.balance_at,
    Accounts.last_tx_idx_at, Accounts.row_at, vec_get, mbind, M_bind.
  destruct (Accounts.rows (accounts (world s)) !! i) as [r|] eqn:E; cbn; [|done].
  rewrite E. cbn. intros [= <-]. by exists r.
Qed.
Lemma log_old_nonce_run i s a s' :
  log_old_nonce i s = Ok (a, s') → ∃ r, Accounts.rows (accounts (world s)) !! i = Some r ∧
    s' = put_journal (journal_ s ++ [NonceEntry i (Accounts.row_nonce r)
                                       (Accounts.last_tx_idx (Accounts.mods r))]) s.
Proof.
  unfold log_old_nonce, log, log_nonce, acc, modify, Accounts.nonce_at,
    Accounts.last_tx_idx_at, Accounts.row_at, vec_get, mbind, M_bind.
  destruct (Accounts.rows (accounts (world s)) !! i) as [r|] eqn:E; cbn; [|done].
  rewrite E. cbn. intros [= <-]. by exists r.
Qed.
Lemma log_old_code_hash_run i s a s' :
  log_old_code_hash i s = Ok (a, s') → ∃ r, Accounts.rows (accounts (world s)) !! i = Some r ∧
    s' = put_journal (journal_ s ++ [CodeHashEntry i (Accounts.row_code_hash r)
                                       (Accounts.last_tx_idx (Accounts.mods r))]) s.
Proof.
  unfold log_old_code_hash, log, log_code_hash, acc, modify, Accounts.code_hash_at,
    Accounts.last_tx_idx_at, Accounts.row_at, vec_get, mbind, M_bind.
  destruct (Accounts.rows (accounts (world s)) !! i) as [r|] eqn:E; cbn; [|done].
  rewrite E. cbn. intros [= <-]. by exists r.
Qed.

(** A table update that succeeded. *)
Lemma acc_upd_run f s a s' :
  acc_upd f s = Ok (a, s') → ∃ a', f (accounts (world s)) = Ok a' ∧
    s' = put_world (put_accounts a' (world s)) s.
Proof. unfold acc_upd. destruct (f _) as [a'|]; [|done]. intros [= _ <-]. by exists a'. Qed.
Lemma sto_upd_run f s a s' :
  sto_upd f s = Ok (a, s') → ∃ st, f (storages (world s)) = Ok st ∧
    s' = put_world (put_storages st (world s)) s.
Proof. unfold sto_upd. destruct (f _) as [a'|]; [|done]. intros [= _ <-]. by exists a'. Qed.

(** A monadic sequence that succeeded. *)
Lemma bind_run {A B} (m : M A) (k : A → M B) s b s' :
  (m ≫= k) s = Ok (b, s') → ∃ a s1, m s = Ok (a, s1) ∧ k a s1 = Ok (b, s').
Proof. unfold mbind, M_bind. destruct (m s) as [[a s1]|]; [eauto|done]. Qed.

Lemma spec_assoc {A B C} P (m : M A) (f : A → M B) (g : B → M C) Q :
  spec P ((m ≫= f) ≫= g) Q → spec P (m ≫= λ x, f x ≫= g) Q.
Proof.
  intros H s c s' HP Hr. apply (H s c s' HP). revert Hr. unfold mbind, M_bind.
  by destruct (m s) as [[a s1]|].
Qed.

(** [log; write; k]: the pair is one journaled step. *)
Lemma journaled_seq2 {A} (m1 m2 : M unit) (k : unit → M A) :
  journaled (_ ← m1; m2) → (∀ x, journaled (k x)) → journaled (_ ← m1; x ← m2; k x).
Proof. intros H Hk. apply spec_assoc. by apply (journaled_bind (_ ← m1; m2)). Qed.

Lemma row_equiv_undo_balance ex v t r :
  Accounts.row_equiv ex (Accounts.w_balance (Accounts.row_balance r)
    (Accounts.last_tx_idx (Accounts.mods r)) (Accounts.w_balance v t r)) r.
Proof. by split. Qed.
Lemma row_equiv_undo_nonce ex v t r :
  Accounts.row_equiv ex (Accounts.w_nonce (Accounts.row_nonce r)
    (Accounts.last_tx_idx (Accounts.mods r)) (Accounts.w_nonce v t r)) r.
Proof. by split. Qed.
Lemma row_equiv_undo_code_hash ex v t r :
  Accounts.row_equiv ex (Accounts.w_code_hash (Accounts.row_code_hash r)
    (Accounts.last_tx_idx (Accounts.mods r)) (Accounts.w_code_hash v t r)) r.
Proof. by split. Qed.

(** The write of a table operation known to have succeeded. *)
Lemma writes_of_Ok (op : Accounts.Accounts → res Accounts.Accounts) f i a a' :
  (Accounts.acc_ok a → (i < length (Accounts.rows a))%nat →
     ∃ x, op a = Ok x ∧ Accounts.writes f i a x) →
  op a = Ok a' → (i < length (Accounts.rows a))%nat →
  Accounts.acc_ok a → Accounts.writes f i a a'.
Proof.
  intros H E Hi Ha. destruct (H Ha Hi) as (x & Ex & Hx). rewrite E in Ex.
  by apply Ok_inj in Ex as <-.
Qed.

Lemma journaled_write_balance i v : journaled (_ ← log_old_balance i; set_balance_idx i v).
Proof.
  intros s x s' _ H. apply bind_run in H as (? & s1 & (r & Hr & ->)%log_old_balance_run & H).
  apply bind_run in H as (t & s2 & [= <- <-] & (a' & Ha' & ->)%acc_upd_run). cbn in *.
  split; [|done]. pose proof (lookup_lt_Some _ _ _ Hr) as Hi.
  eapply (ext_account_write s i r _ a' (Accounts.w_balance v (tx_counter_ s))
    (Accounts.w_balance (Accounts.row_balance r) _) (Accounts.set_balance_at i _ _)); try done.
  - eapply writes_of_Ok; [|done|done]. apply Accounts.set_balance_at_writes.
  - apply Accounts.set_balance_at_writes.
Qed.
Lemma journaled_write_nonce i v : journaled (_ ← log_old_nonce i; set_nonce_idx i v).
Proof.
  intros s x s' _ H. apply bind_run in H as (? & s1 & (r & Hr & ->)%log_old_nonce_run & H).
  apply bind_run in H as (t & s2 & [= <- <-] & (a' & Ha' & ->)%acc_upd_run). cbn in *.
  split; [|done]. pose proof (lookup_lt_Some _ _ _ Hr) as Hi.
  eapply (ext_account_write s i r _ a' (Accounts.w_nonce v (tx_counter_ s))
    (Accounts.w_nonce (Accounts.row_nonce r) _) (Accounts.set_nonce_at i _ _)); try done.
  - eapply writes_of_Ok; [|done|done]. apply Accounts.set_nonce_at_writes.
  - apply Accounts.set_nonce_at_writes.
Qed.
Lemma journaled_write_code_hash i v :
  journaled (_ ← log_old_code_hash i; set_code_hash_idx i v).
Proof.
  intros s x s' _ H. apply bind_run in H as (? & s1 & (r & Hr & ->)%log_old_code_hash_run & H).
  apply bind_run in H as (t & s2 & [= <- <-] & (a' & Ha' & ->)%acc_upd_run). cbn in *.
  split; [|done]. pose proof (lookup_lt_Some _ _ _ Hr) as Hi.
  eapply (ext_account_write s i r _ a' (Accounts.w_code_hash v (tx_counter_ s))
    (Accounts.w_code_hash (Accounts.row_code_hash r) _) (Accounts.set_code_hash_at i _ _)); try done.
  - eapply writes_of_Ok; [|done|done]. apply Accounts.set_code_hash_at_writes.
  - apply Accounts.set_code_hash_at_writes.
Qed.

(** ** Storage writes *)

(** Slot [i] holds value [v]. *)
Definition holds (i : nat) (v : Z) (s : StateDB) : Prop :=
  Storages.value_at i (storages (world s)) = Ok v.

Definition keeps {A} (P : StateDB → Prop) (m : M A) : Prop :=
  ∀ s a s', P s → m s = Ok (a, s') → P s'.

Lemma spec_keeps {A} P (m : M A) : journaled m → keeps P m → spec P m (λ _ s, P s).
Proof. intros Hj Hk s a s' HP H. split; [by apply (Hj s a s')|by eapply Hk]. Qed.

Lemma keeps_bind {A B} P (m : M A) (k : A → M B) :
  keeps P m → (∀ a, keeps P (k a)) → keeps P (m ≫= k).
Proof. intros Hm Hk s b s' HP H. apply bind_run in H as (a & s1 & H1 & H2). exact (Hk a _ _ _ (Hm _ _ _ HP H1) H2). Qed.
Lemma keeps_pure {A} P (m : M A) : pure m → keeps P m.
Proof. intros Hm s a s' HP H. by rewrite (Hm _ _ _ H). Qed.
Lemma keeps_ret {A} P (a : A) : keeps P (mret a).
Proof. by intros s b s' HP [= _ <-]. Qed.
Lemma keeps_when P b m : keeps P m → keeps P (when b m).
Proof. intros Hm. destruct b; [done|apply keeps_ret]. Qed.

Lemma bal_run_keeps {A} i v (f : Bal.BlockAccessList → res (A * Bal.BlockAccessList)) :
  keeps (holds i v) (bal_run f).
Proof.
  intros s a s' HP. unfold bal_run. destruct (Accounts.bal_ _); [|done].
  destruct (f _) as [[x b']|]; [|done]. by intros [= _ <-].
Qed.

Lemma set_bal_id_keeps i v j id : keeps (holds i v) (sto_upd (Storages.set_bal_id_at j id)).
Proof.
  intros s a s' HP (st & E & ->)%sto_upd_run. unfold holds in *. cbn.
  unfold Storages.set_bal_id_at, Storages.upd_mods, Storages.upd_row, Storages.value_at,
    Storages.row_at, vec_get in *. ok_inv. cbn. rewrite list_lookup_insert.
  destruct (Storages.rows (storages (world s)) !! i) as [ri|] eqn:Ei; [|done].
  destruct (Storages.rows (storages (world s)) !! j) as [rj|] eqn:Ej; [|done].
  simplify_eq. case_decide as Hd; [|done]. destruct Hd as [<- _]. by simplify_eq.
Qed.

Lemma bal_slot_keeps i v j : keeps (holds i v) (bal_slot j).
Proof.
  unfold bal_slot. apply keeps_bind; [apply keeps_pure, pure_sto|]. intros id.
  apply keeps_bind; [apply keeps_pure, pure_sto|]. intros key.
  apply keeps_bind; [apply bal_run_keeps|]. intros id'.
  apply keeps_bind; [apply set_bal_id_keeps|]. intros _.
  apply keeps_bind; [apply bal_run_keeps|]. intros _. apply keeps_ret.
Qed.

(** The journaled write of a slot whose value is known. *)
Lemma write_storage_spec i cur v {A} (k : M A) :
  journaled k →
  spec (holds i cur)
    (last ← sto (Storages.last_tx_idx_at i); _ ← log (log_storage i cur last);
     t ← tx_counter; _ ← sto_upd (Storages.set_value_at i v t); k) anyr.
Proof.
  intros Hk.
  assert (H : spec (holds i cur)
    (last ← sto (Storages.last_tx_idx_at i); _ ← log (log_storage i cur last);
     t ← tx_counter; sto_upd (Storages.set_value_at i v t)) anyr).
  { intros s x s' Hv H. unfold holds, Storages.value_at, Storages.row_at, vec_get in Hv.
    destruct (Storages.rows (storages (world s)) !! i) as [r|] eqn:Hr; [|done].
    injection Hv as Hv. pose proof (lookup_lt_Some _ _ _ Hr) as Hi.
    apply bind_run in H as (last & s1 & H1 & H). unfold sto, Storages.last_tx_idx_at,
      Storages.row_at, vec_get in H1. rewrite Hr in H1. injection H1 as <- <-.
    apply bind_run in H as (? & s2 & [= <- <-] & H).
    apply bind_run in H as (t & s3 & [= <- <-] & (st & Hst & ->)%sto_upd_run). cbn in *.
    rewrite Storages.set_value_at_writes in Hst by done. apply Ok_inj in Hst as <-.
    split; [|done]. refine (ext_log s _ (put_storages _ (world s)) eq_refl _). intros Ha. split; [done|].
    split.
    - cbn. rewrite list_lookup_alter, decide_True, Hr by done. by eexists.
    - cbn. rewrite Storages.set_value_at_writes by (cbn; by rewrite length_alter). cbn.
      eexists. split; [done|]. split; try done. cbn.
      apply (Storages.alter_undo _ _ _ _ (storages (world s)) r Hr). split; try done. }
  intros s x s' HP Hr. apply bind_run in Hr as (last & s1 & H1 & Hr).
  apply bind_run in Hr as (? & s2 & H2 & Hr). apply bind_run in Hr as (t & s3 & H3 & Hr).
  apply bind_run in Hr as (u & s4 & H4 & Hr).
  destruct (H s u s4 HP) as [E1 _].
  { unfold mbind, M_bind. by rewrite H1, H2, H3. }
  destruct (Hk _ _ _ I Hr) as [E2 _]. split; [by etrans|done].
Qed.

Lemma journaled_set_storage addr key v : journaled (set_storage addr key v).
Proof.
  unfold set_storage. apply journaled_bind; [apply journaled_bal_commit|]. intros _.
  apply journaled_bind; [apply journaled_storage_row|]. intros idx.
  apply journaled_bind; [apply pure_journaled, pure_sto|]. intros original.
  eapply (spec_bind _ _ _ (λ current, holds idx current)).
  { intros s cur s' _ H. rewrite (pure_sto _ _ _ _ H). split; [done|].
    unfold sto in H. unfold holds. destruct (Storages.value_at _ _); [|done]. by injection H as ->. }
  intros current. eapply spec_bind; [apply pure_spec, pure_gets|]. intros on.
  eapply spec_bind.
  { apply (spec_keeps (holds idx current)).
    - apply journaled_when, journaled_bind; [apply journaled_bal_slot|].
      intros id. apply journaled_open_slot.
    - apply keeps_when, keeps_bind; [apply bal_slot_keeps|]. intros id. apply bal_run_keeps. }
  intros ?. apply write_storage_spec, journaled_ret.
Qed.

Lemma journaled_clear_slot i : journaled (clear_slot i).
Proof.
  unfold clear_slot. eapply (spec_bind _ _ _ (λ current, holds i current)).
  { intros s cur s' _ H. rewrite (pure_sto _ _ _ _ H). split; [done|].
    unfold sto in H. unfold holds. destruct (Storages.value_at _ _); [|done]. by injection H as ->. }
  intros cur. case_match; [apply journaled_spec, journaled_ret|].
  eapply spec_bind; [apply pure_spec, pure_gets|]. intros on.
  eapply spec_bind; [apply pure_spec, pure_sto|]. intros id.
  eapply spec_bind.
  { apply (spec_keeps (holds i cur)).
    - apply journaled_when, journaled_open_slot.
    - apply keeps_when, bal_run_keeps. }
  intros u0 s x s' HP Hx. apply (write_storage_spec i cur 0 (mret tt) (journaled_ret _) s x s' HP).
  apply bind_run in Hx as (last & s1 & H1 & Hx). apply bind_run in Hx as (? & s2 & H2 & Hx).
  apply bind_run in Hx as (t & s3 & H3 & Hx). unfold mbind, M_bind. rewrite H1, H2, H3, Hx.
  by destruct x.
Qed.

(** ** Two balances logged, then written (in either order) *)

Definition old_balance (i : nat) (r : Accounts.Row) : Entry :=
  BalanceEntry i (Accounts.row_balance r) (Accounts.last_tx_idx (Accounts.mods r)).

Lemma ext_two_balances s i j ri rj x y vx vy a1 a2 :
  (Accounts.acc_ok (accounts (world s)) → i ≠ j) → (x = i ∧ y = j ∨ x = j ∧ y = i) →
  Accounts.rows (accounts (world s)) !! i = Some ri →
  Accounts.rows (accounts (world s)) !! j = Some rj →
  Accounts.set_balance_at x vx (tx_counter_ s) (accounts (world s)) = Ok a1 →
  Accounts.set_balance_at y vy (tx_counter_ s) a1 = Ok a2 →
  ext s (put_world (put_accounts a2 (world s))
           (put_journal (journal_ s ++ [old_balance i ri; old_balance j rj]) s)).
Proof.
  intros Hij Hxy Hi Hj E1 E2.
  pose proof (lookup_lt_Some _ _ _ Hi) as Li. pose proof (lookup_lt_Some _ _ _ Hj) as Lj.
  assert (HW : Accounts.acc_ok (accounts (world s)) →
    Accounts.writes (Accounts.w_balance vx (tx_counter_ s)) x (accounts (world s)) a1 ∧
    Accounts.writes (Accounts.w_balance vy (tx_counter_ s)) y a1 a2).
  { intros Ha. pose proof (writes_of_Ok _ _ x _ _ (Accounts.set_balance_at_writes x vx _ _) E1
      ltac:(naive_solver) Ha) as W1. split; [done|].
    apply (writes_of_Ok _ _ y _ _ (Accounts.set_balance_at_writes y vy _ _) E2); [|apply W1].
    rewrite (Accounts.wr_rows _ _ _ _ W1), length_alter. naive_solver. }
  apply ext_world_journal.
  2:{ intros Ha. destruct (HW Ha) as [W1 W2]. etrans; (eapply warms_writes; [done|]); cbn; lia. }
  apply extends_logs. intros Ha. specialize (Hij Ha). destruct (HW Ha) as [W1 W2].
  assert (L1 : length (Accounts.rows a1) = length (Accounts.rows (accounts (world s))))
    by (rewrite (Accounts.wr_rows _ _ _ _ W1); apply length_alter).
  assert (L2 : length (Accounts.rows a2) = length (Accounts.rows (accounts (world s))))
    by (rewrite (Accounts.wr_rows _ _ _ _ W2), length_alter; done).
  destruct (Accounts.set_balance_at_writes j (Accounts.row_balance rj)
    (Accounts.last_tx_idx (Accounts.mods rj)) a2 (Accounts.wr_ok _ _ _ _ W2) ltac:(lia))
    as (a3 & E3 & W3).
  assert (L3 : length (Accounts.rows a3) = length (Accounts.rows (accounts (world s))))
    by (rewrite (Accounts.wr_rows _ _ _ _ W3), length_alter; done).
  destruct (Accounts.set_balance_at_writes i (Accounts.row_balance ri)
    (Accounts.last_tx_idx (Accounts.mods ri)) a3 (Accounts.wr_ok _ _ _ _ W3) ltac:(lia))
    as (a4 & E4 & W4).
  split; [apply W2|]. cbn. rewrite E3. cbn. rewrite E4. cbn. split.
  { split; [lia|]. intros u [= <-]. cbn. split; [lia|done]. }
  eexists. split; [done|]. split; try done. cbn.
  destruct W1 as [? ? ? B1 R1 _], W2 as [? ? ? B2 R2 _], W3 as [? ? ? B3 R3 _], W4 as [? ? ? B4 R4 _].
  split; try congruence; [unfold Accounts.bal_sim in *; tauto|].
  rewrite R4, R3, R2, R1. apply Forall2_same_length_lookup. rewrite !length_alter.
  split; [done|]. intros k u v. rewrite !list_lookup_alter.
  destruct Hxy as [[-> ->]|[-> ->]]; repeat case_decide; subst; try done;
    rewrite ?Hi, ?Hj; cbn; intros; simplify_eq; by split.
Qed.

(** ** Logs *)

Lemma journaled_emit_log addr d ts : journaled (emit_log addr d ts).
Proof.
  unfold emit_log. apply journaled_bind; [apply journaled_bal_commit|]. intros _.
  apply journaled_bind; [apply pure_journaled, pure_gets|]. intros []; [apply journaled_ret|].
  intros s u s' _ H. apply bind_run in H as (rs & s1 & [= <- <-] & H).
  destruct (tx_receipts_ s) as [|r0 rs0] eqn:Er; [done|]. injection H as <- <-.
  split; [|done]. split; [done|done| |done|by cbn|done|done].
  cbn. right. rewrite Er. unfold push_log.
  destruct (exists_last (l := r0 :: rs0)) as (pre & r & E); [done|]. rewrite E.
  rewrite last_snoc, removelast_last. by exists pre, r, [mkLog addr ts d].
Qed.

Lemma journaled_emit_transfer_log f t v : journaled (emit_transfer_log f t v).
Proof.
  unfold emit_transfer_log. apply journaled_bind; [apply pure_journaled, pure_gets|]. intros a.
  case_match; [apply journaled_ret|apply journaled_emit_log].
Qed.

Lemma journaled_transfer_value f t v : journaled (transfer_value f t v).
Proof.
  unfold transfer_value. apply journaled_bind; [apply pure_journaled, pure_acc|]. intros i.
  apply journaled_bind; [apply pure_journaled, pure_acc|]. intros j.
  case_decide as Hij; [apply journaled_ret|]. intros s u s' _ H.
  apply bind_run in H as (? & s1 & (ri & Hi & ->)%log_old_balance_run & H).
  apply bind_run in H as (? & s2 & (rj & Hj & ->)%log_old_balance_run & H).
  apply bind_run in H as (bi & s3 & H3 & H). pose proof (pure_acc _ _ _ _ H3) as ->.
  apply bind_run in H as (bj & s4 & H4 & H). pose proof (pure_acc _ _ _ _ H4) as ->.
  apply bind_run in H as (? & s5 & H5 & H). apply bind_run in H as (? & s6 & H6 & H).
  apply bind_run in H5 as (? & ? & [= <- <-] & (a1 & E1 & ->)%acc_upd_run).
  apply bind_run in H6 as (? & ? & [= <- <-] & (a2 & E2 & ->)%acc_upd_run). cbn in *.
  destruct (journaled_emit_transfer_log f t v _ _ _ I H) as [E _]. split; [|done].
  etrans; [|exact E].
  pose proof (ext_two_balances s i j ri rj i j _ _ a1 a2 (λ _, Hij) ltac:(auto) Hi Hj E1 E2) as X.
  unfold old_balance in X. cbn in X |- *. rewrite <- app_assoc. exact X.
Qed.

(** ** The pending-destruct set, transient storage, rowless warmth *)

Lemma journaled_register_destruct i : journaled (register_destruct i).
Proof.
  intros s u s' _ H. unfold register_destruct in H.
  apply bind_run in H as (p & s1 & [= <- <-] & H). apply bind_run in H as (? & s2 & [= <- <-] & H).
  apply bind_run in H as (? & s3 & [= <- <-] & [= <- <-]). split; [|done].
  refine (ext_log s _ (put_pending _ (world s)) eq_refl _). intros Ha. split; [done|]. split; [done|].
  cbn. rewrite negb_involutive. eexists. split; [done|].
  case_bool_decide as Hin; split; try done; cbn; set_solver.
Qed.

Lemma journaled_set_transient addr key v : journaled (set_transient_storage addr key v).
Proof.
  unfold set_transient_storage. apply journaled_bind; [apply journaled_bal_commit|]. intros _.
  intros s u s' _ H. apply bind_run in H as (prev & s1 & H1 & [= <- <-]).
  pose proof (TransientStorage.restore_set addr key v (transient (world s))) as Hr.
  destruct (TransientStorage.set addr key v (transient (world s))) as [p t]. injection H1 as <- <-.
  split; [|done]. refine (ext_log s _ (put_transient t (world s)) eq_refl _). intros Ha.
  split; [done|]. split; [done|]. cbn. eexists. split; [done|]. split; try done.
Qed.

(** ** SELFDESTRUCT *)

Lemma account_row_spec P addr : spec P (account_row addr) (λ i s, P s ∧ row_is addr i s).
Proof.
  intros s i s' HP H. pose proof (pure_acc _ _ _ _ H) as ->. split; [done|]. split; [done|].
  unfold account_row, acc, Accounts.index_of in H. unfold row_is.
  destruct (Accounts.index_ _ !! addr); [|done]. by injection H as ->.
Qed.

Lemma row_is_inj addr addr' i s :
  Accounts.acc_ok (accounts (world s)) → row_is addr i s → row_is addr' i s → addr = addr'.
Proof.
  intros [_ Hi] H H'. destruct (Hi _ _ H) as (r & Hr & <-). destruct (Hi _ _ H') as (r' & Hr' & <-).
  by simplify_eq.
Qed.

(** The balance sweep of SELFDESTRUCT to another account. *)
Lemma sweep_spec {A} addr ben i (k : Z → M A) :
  addr ≠ ben → (∀ b, journaled (k b)) →
  spec (row_is addr i)
    (j ← account_row ben; _ ← log_old_balance i; _ ← log_old_balance j;
     bi ← acc (Accounts.balance_at i); bj ← acc (Accounts.balance_at j);
     _ ← set_balance_idx j (u256 (bj + bi)); _ ← set_balance_idx i 0; k bi) anyr.
Proof.
  intros Hne Hk s u s' Hrow H. apply bind_run in H as (j & s0 & H0 & H).
  destruct (account_row_spec (row_is addr i) ben _ _ _ Hrow H0) as (_ & _ & Hj').
  pose proof (pure_acc _ _ _ _ H0) as ->.
  apply bind_run in H as (? & s1 & (ri & Hi & ->)%log_old_balance_run & H).
  apply bind_run in H as (? & s2 & (rj & Hj & ->)%log_old_balance_run & H).
  apply bind_run in H as (bi & s3 & H3 & H). pose proof (pure_acc _ _ _ _ H3) as ->.
  apply bind_run in H as (bj & s4 & H4 & H). pose proof (pure_acc _ _ _ _ H4) as ->.
  apply bind_run in H as (? & s5 & H5 & H). apply bind_run in H as (? & s6 & H6 & H).
  apply bind_run in H5 as (? & ? & [= <- <-] & (a1 & E1 & ->)%acc_upd_run).
  apply bind_run in H6 as (? & ? & [= <- <-] & (a2 & E2 & ->)%acc_upd_run). cbn in *.
  destruct (Hk bi _ _ _ I H) as [E _]. split; [|done]. etrans; [|exact E].
  assert (Hij : Accounts.acc_ok (accounts (world s)) → i ≠ j).
  { intros Ha ->. by apply Hne, (row_is_inj addr ben j s). }
  pose proof (ext_two_balances s i j ri rj j i _ _ a1 a2 Hij ltac:(auto) Hi Hj E1 E2) as X.
  unfold old_balance in X. cbn in X |- *. rewrite <- app_assoc. exact X.
Qed.

Lemma journaled_selfdestruct addr ben : journaled (selfdestruct addr ben).
Proof.
  unfold selfdestruct. apply journaled_bind; [apply journaled_bal_commit|]. intros _.
  eapply spec_bind; [apply (account_row_spec any)|]. intros i.
  eapply spec_bind; [apply pure_spec, pure_gets|]. intros created.
  eapply spec_bind; [apply pure_spec, pure_gets|]. intros cancun. cbn beta zeta.
  destruct (Z.eqb_spec addr ben) as [_|Hne].
  - apply journaled_spec. case_match; [|apply journaled_ret].
    apply journaled_bind; [apply pure_journaled, pure_gets|]. intros am.
    apply journaled_bind; [apply journaled_when, journaled_write_balance|]. intros _.
    apply journaled_register_destruct.
  - eapply spec_conseq; [apply (sweep_spec addr ben i)|by intros s [_ ?]|done]; [done|].
    intros b. apply journaled_bind; [apply journaled_emit_transfer_log|]. intros _.
    case_match; [apply journaled_register_destruct|apply journaled_ret].
Qed.

Lemma journaled_for_all f l : (∀ i, journaled (f i)) → journaled (for_all f l).
Proof.
  intros Hf. induction l as [|i l IH]; [apply journaled_ret|].
  cbn. by apply journaled_bind.
Qed.

Lemma journaled_clear_account i : journaled (clear_account_for_selfdestruct i).
Proof.
  unfold clear_account_for_selfdestruct.
  apply journaled_bind; [apply pure_journaled, pure_gets|]. intros am.
  apply journaled_bind; [apply journaled_when, journaled_write_balance|]. intros _.
  apply journaled_seq2; [apply journaled_write_nonce|]. intros _.
  apply journaled_seq2; [apply journaled_write_code_hash|]. intros _.
  apply journaled_bind; [apply pure_journaled, pure_acc|]. intros addr.
  apply journaled_bind; [apply pure_journaled, pure_gets|]. intros l.
  apply journaled_bind; [apply journaled_for_all, journaled_clear_slot|]. intros _.
  apply journaled_quiet, quiet_wiped.
Qed.

(** ** Accesses and touching reads *)

Definition row_warm (i : nat) (s : StateDB) : Prop :=
  ∃ r, Storages.rows (storages (world s)) !! i = Some r ∧
    tx_counter_ s ≤ Storages.last_tx_idx (Storages.mods r).
Definition slot_warm (addr key : Z) (s : StateDB) : Prop :=
  ∀ i, (Storages.find addr key (storages (world s))).1 = Some i → row_warm i s.

(** Touching a warm account is silent. *)
Lemma touch_silent s addr i a' :
  acct_warm addr s →
  Accounts.touch addr (tx_counter_ s) (accounts (world s)) = Ok (i, a') →
  ext s (put_world (put_accounts a' (world s)) s).
Proof.
  intros Hw H. apply silent_accounts. intros Ha. unfold Accounts.touch, Accounts.index_of in H.
  destruct (Accounts.index_ (accounts (world s)) !! addr) as [k|] eqn:Ek; [|done].
  cbn [mbind res_bind] in H.
  destruct (Accounts.acc_index _ Ha _ _ Ek) as (r & Hr & Haddr).
  pose proof (lookup_lt_Some _ _ _ Hr) as Hk.
  destruct (Accounts.mark_touched_at_writes k (tx_counter_ s) _ Ha Hk) as (a1 & E1 & W1).
  rewrite E1 in H. cbn [mbind res_bind] in H.
  assert (Q1 : Accounts.equiv (exempt s) a1 (accounts (world s))).
  { eapply Accounts.writes_silent; [exact Hr| |exact W1]. unfold Accounts.w_touch.
    destruct Hw as [Hex|Hw].
    - split; cbn; [done|done|by case_match..|]. rewrite Haddr, Hex. done.
    - rewrite (proj2 (Z.ltb_ge _ _)) by (by eapply Hw). by destruct r. }
  destruct (Accounts.bal_access_at_spec k a1 (Accounts.wr_ok _ _ _ _ W1)) as (ob & E2 & Hob & Hsim).
  { rewrite (Accounts.wr_rows _ _ _ _ W1), length_alter. done. }
  rewrite E2 in H. cbn [mbind res_bind] in H. apply Ok_inj in H. injection H as _ <-. split.
  - split; [done|apply (Accounts.wr_ok _ _ _ _ W1)].
  - etrans; [|exact Q1]. split; cbn; try done.
Qed.

(** A touching read of a warm account. *)
Lemma touch_read_spec addr (f : nat → Accounts.Accounts → res Z) :
  spec (acct_warm addr)
    (t ← tx_counter; acc_run (λ a, '(i, a) ← Accounts.touch addr t a; v ← f i a; Ok (v, a))) anyr.
Proof.
  intros s u s' Hw H. apply bind_run in H as (t & s1 & [= <- <-] & H). unfold acc_run in H.
  destruct (Accounts.touch addr (tx_counter_ s) (accounts (world s))) as [[i a]|] eqn:E; [|done].
  cbn in H. destruct (f i a); cbn in H; [|done]. injection H as _ <-.
  split; [by eapply touch_silent|done].
Qed.

(** Steps that leave the rows, the index and the transaction as they are. *)
Record same_rows (s s' : StateDB) : Prop := {
  sr_rows : Accounts.rows (accounts (world s')) = Accounts.rows (accounts (world s));
  sr_index : Accounts.index_ (accounts (world s')) = Accounts.index_ (accounts (world s));
  sr_storages : storages (world s') = storages (world s);
  sr_tx : tx_counter_ s' = tx_counter_ s;
  sr_fork : fork_id s' = fork_id s }.

Lemma acct_warm_same addr s s' : same_rows s s' → acct_warm addr s → acct_warm addr s'.
Proof.
  intros [Hr Hi _ Ht Hf]. unfold acct_warm, warm_in, exempt. by rewrite Hr, Hi, Ht, Hf.
Qed.
Lemma slot_warm_same addr key s s' : same_rows s s' → slot_warm addr key s → slot_warm addr key s'.
Proof. intros [_ _ Hs Ht _]. unfold slot_warm, row_warm. by rewrite Hs, Ht. Qed.
Lemma row_warm_same i s s' : same_rows s s' → row_warm i s → row_warm i s'.
Proof. intros [_ _ Hs Ht _]. unfold row_warm. by rewrite Hs, Ht. Qed.

Lemma bal_access_same i s u s' :
  acc_upd (Accounts.bal_access_at i) s = Ok (u, s') → same_rows s s'.
Proof.
  intros (a & E & ->)%acc_upd_run. unfold Accounts.bal_access_at in E.
  destruct (Accounts.bal_ _); cbn in E; [destruct (Bal.access_account _ _); cbn in E; [|done]|];
    apply Ok_inj in E as <-; by split.
Qed.
Lemma bal_commit_same s u s' : bal_commit_pending s = Ok (u, s') → same_rows s s'.
Proof.
  unfold bal_commit_pending. intros H. apply bind_run in H as (p & s1 & [= <- <-] & H).
  destruct (bal_pending_ s); [by injection H as _ <-|done|].
  apply bind_run in H as (v & s2 & H2 & [= _ <-]). destruct (bal_access_same _ _ _ _ H2). by split.
Qed.
Lemma bal_run_same {A} (f : Bal.BlockAccessList → res (A * Bal.BlockAccessList)) s a s' :
  bal_run f s = Ok (a, s') → same_rows s s'.
Proof.
  unfold bal_run. destruct (Accounts.bal_ _); [|done].
  destruct (f _) as [[x b']|]; [|done]. by intros [= _ <-].
Qed.

Lemma commit_spec (P : StateDB → Prop) :
  (∀ s s', same_rows s s' → P s → P s') → spec P bal_commit_pending (λ _ s, P s).
Proof.
  intros HP. apply spec_keeps; [apply journaled_bal_commit|].
  intros s u s' Hs H. by eapply HP; [eapply bal_commit_same|].
Qed.

Lemma get_balance_spec addr : spec (acct_warm addr) (get_balance addr) anyr.
Proof.
  unfold get_balance. eapply spec_bind; [apply commit_spec, acct_warm_same|]. cbn; intros _.
  apply touch_read_spec.
Qed.
Lemma get_nonce_spec addr : spec (acct_warm addr) (get_nonce addr) anyr.
Proof. apply touch_read_spec. Qed.
Lemma read_code_hash_spec addr : spec (acct_warm addr) (read_code_hash addr) anyr.
Proof. apply touch_read_spec. Qed.

Lemma pure_contract h : pure (contract_by_hash h).
Proof.
  intros s a s' H. unfold contract_by_hash in H. apply bind_run in H as (c & s1 & [= <- <-] & H).
  by eapply pure_lift.
Qed.

Lemma code_and_entry_spec addr : spec (acct_warm addr) (code_and_entry addr) anyr.
Proof.
  unfold code_and_entry. eapply spec_bind; [apply read_code_hash_spec|]. intros h.
  case_match; [apply journaled_ret|].
  apply journaled_bind; [apply pure_journaled, pure_contract|]. intros; apply journaled_ret.
Qed.
Lemma get_code_size_spec addr : spec (acct_warm addr) (get_code_size addr) anyr.
Proof.
  unfold get_code_size. eapply spec_bind; [apply commit_spec, acct_warm_same|]. cbn; intros _.
  eapply spec_bind; [apply read_code_hash_spec|]. intros h. case_match; [apply journaled_ret|].
  apply journaled_bind; [apply pure_journaled, pure_contract|]. intros; apply journaled_ret.
Qed.
Lemma copy_code_spec addr off n : spec (acct_warm addr) (copy_code addr off n) anyr.
Proof.
  unfold copy_code. eapply spec_bind; [apply commit_spec, acct_warm_same|]. cbn; intros _.
  eapply spec_bind; [apply read_code_hash_spec|]. intros h. case_match; [apply journaled_ret|].
  apply journaled_bind; [apply pure_journaled, pure_contract|]. intros c. cbv zeta.
  case_match; apply journaled_ret.
Qed.

Lemma account_exists_spec (P : StateDB → Prop) addr :
  (∀ s s', same_rows s s' → P s → P s') → spec P (account_exists addr) (λ _ s, P s).
Proof.
  intros HP. unfold account_exists. eapply spec_bind; [by apply commit_spec|]. cbn; intros _.
  eapply spec_bind; [apply pure_spec, pure_acc|]. intros i.
  eapply spec_bind.
  { apply (spec_keeps P); [apply journaled_bal_access|].
    intros s u s' Hs H. by eapply HP; [eapply bal_access_same|]. }
  cbn; intros _. eapply spec_bind; [apply pure_spec, pure_acc|]. intros n.
  case_match; [by apply spec_ret|].
  eapply spec_bind; [apply pure_spec, pure_acc|]. intros c. case_match; [by apply spec_ret|].
  eapply spec_bind; [apply pure_spec, pure_acc|]. intros b. by apply spec_ret.
Qed.

Lemma journaled_account_exists addr : journaled (account_exists addr).
Proof. eapply spec_conseq; [by apply (account_exists_spec any)|done|done]. Qed.

Lemma get_code_hash_spec addr : spec (acct_warm addr) (get_code_hash addr) anyr.
Proof.
  unfold get_code_hash. eapply spec_bind; [apply commit_spec, acct_warm_same|]. cbn; intros _.
  eapply spec_bind; [apply account_exists_spec, acct_warm_same|]. intros [];
    [apply read_code_hash_spec|apply journaled_spec, journaled_ret].
Qed.

Lemma journaled_bal_load addr : journaled (bal_load addr).
Proof.
  unfold bal_load. apply journaled_bind; [apply pure_journaled, pure_acc|].
  intros i. apply journaled_bal_access.
Qed.

(** ** Storage reads *)

Lemma find_again addr key st :
  (Storages.find addr key (Storages.find addr key st).2).1 = (Storages.find addr key st).1.
Proof.
  unfold Storages.find. destruct (Storages.last_valid_ st && _) eqn:E; cbn; [by rewrite E|].
  by rewrite !Z.eqb_refl.
Qed.

Lemma find_rows addr key st : Storages.rows (Storages.find addr key st).2 = Storages.rows st.
Proof. unfold Storages.find. by case_match. Qed.

Lemma storage_row_spec addr key :
  spec (slot_warm addr key) (storage_row addr key) (λ i s, row_warm i s).
Proof.
  intros s i s' Hw H. split; [by eapply journaled_storage_row|].
  unfold storage_row in H. apply bind_run in H as (o & s1 & H1 & H).
  unfold storages_find in H1. specialize (Hw i). unfold row_warm in *.
  pose proof (find_rows addr key (storages (world s))) as Hr.
  destruct (Storages.find addr key (storages (world s))) as [j st]. injection H1 as <- <-.
  cbn in *. destruct j; [|done]. injection H as -> <-. cbn. rewrite Hr. auto.
Qed.

Lemma set_bal_id_keeps_warm i j id : keeps (row_warm i) (sto_upd (Storages.set_bal_id_at j id)).
Proof.
  intros s a s' (r & Hr & Ht) (st & E & ->)%sto_upd_run.
  unfold Storages.set_bal_id_at, Storages.upd_mods, Storages.upd_row, Storages.row_at, vec_get in E.
  ok_inv. destruct (Storages.rows (storages (world s)) !! j) as [rj|] eqn:Ej; [|done].
  simplify_eq. unfold row_warm. cbn. rewrite list_lookup_insert.
  case_decide as Hd; [|by exists r]. destruct Hd as [<- _]. simplify_eq. by eexists.
Qed.

Lemma bal_slot_keeps_warm i j : keeps (row_warm i) (bal_slot j).
Proof.
  unfold bal_slot. apply keeps_bind; [apply keeps_pure, pure_sto|]. intros id.
  apply keeps_bind; [apply keeps_pure, pure_sto|]. intros key.
  apply keeps_bind; [intros ????; eauto using row_warm_same, bal_run_same|]. intros id'.
  apply keeps_bind; [apply set_bal_id_keeps_warm|]. intros _.
  apply keeps_bind; [intros ????; eauto using row_warm_same, bal_run_same|]. intros _.
  apply keeps_ret.
Qed.

Lemma get_storage_spec addr key : spec (slot_warm addr key) (get_storage addr key) anyr.
Proof.
  unfold get_storage. eapply spec_bind; [apply commit_spec, slot_warm_same|]. cbn; intros _.
  eapply spec_bind; [apply storage_row_spec|]. intros i. cbn beta.
  eapply spec_bind; [apply pure_spec, pure_gets|]. intros on.
  eapply spec_bind.
  { apply (spec_keeps (row_warm i)).
    - apply journaled_when, journaled_bind; [apply journaled_bal_slot|]. intros; apply journaled_ret.
    - apply keeps_when, keeps_bind; [apply bal_slot_keeps_warm|]. intros; apply keeps_ret. }
  intros _ s v s' (r & Hr & Ht) H. apply bind_run in H as (t & s1 & [= <- <-] & H).
  apply bind_run in H as (u & s2 & (st & Hst & ->)%sto_upd_run & H).
  rewrite (pure_sto _ _ _ _ H). split; [|done]. eapply silent_row_write; [exact Hst|].
  intros r' Hr'. simplify_eq. cbn. rewrite (proj2 (Z.ltb_ge _ _)) by done. by destruct r.
Qed.

(** ** Warm/cold accesses *)

(** A touched row is warm. *)
Lemma mark_touched_warm addr s s' i t a' :
  Accounts.mark_touched_at i t (accounts (world s)) = Ok a' →
  accounts (world s') = a' → tx_counter_ s' = t → row_is addr i s → acct_warm addr s'.
Proof.
  intros Ha' <- <- Hrow. right. intros j rj Hj Hrj. unfold row_is in *.
  unfold Accounts.mark_touched_at, Accounts.upd_mods, Accounts.upd_row, Accounts.row_at, vec_get in Ha'.
  destruct (Accounts.rows (accounts (world s)) !! i) as [r|] eqn:Hr; [|done].
  apply Ok_inj in Ha'. rewrite <- Ha' in Hrj, Hj. cbn in Hrj, Hj. simplify_eq.
  rewrite list_lookup_insert_eq in Hrj by (by eapply lookup_lt_Some). injection Hrj as <-. cbn.
  case_match eqn:E; cbn; [lia|by apply Z.ltb_ge].
Qed.

(** Warming a cold account row. *)
Lemma warm_account_spec addr i t :
  spec (λ s, tx_counter_ s = t ∧ row_is addr i s)
    (was_warm ← acc (Accounts.is_warm_at i t);
     _ ← when (negb was_warm) (l ← acc (Accounts.last_tx_idx_at i); log (log_account_warm i l));
     _ ← acc_upd (Accounts.mark_touched_at i t);
     mret was_warm)
    (λ _ s, acct_warm addr s).
Proof.
  intros s a s' [<- Hrow] H. apply bind_run in H as (w & s1 & H1 & H).
  unfold acc, Accounts.is_warm_at, Accounts.row_at, vec_get in H1.
  destruct (Accounts.rows (accounts (world s)) !! i) as [r|] eqn:Hr; [|done].
  injection H1 as <- <-. pose proof (lookup_lt_Some _ _ _ Hr) as Hi.
  apply bind_run in H as (u & s2 & H2 & H).
  apply bind_run in H as (u' & s3 & (a' & Ha' & ->)%acc_upd_run & [= _ <-]).
  unfold when in H2. destruct (Z.eqb_spec (Accounts.last_tx_idx (Accounts.mods r)) (tx_counter_ s))
    as [El|Hne]; cbn [negb] in H2.
  - injection H2 as _ <-. split; [|by eapply mark_touched_warm].
    apply silent_accounts. intros Ha.
    pose proof (writes_of_Ok _ _ i _ _ (Accounts.mark_touched_at_writes i _ _) Ha' Hi Ha) as W.
    split; [apply W|]. eapply Accounts.writes_silent; [exact Hr| |exact W].
    unfold Accounts.w_touch. rewrite El, Z.ltb_irrefl. by destruct r.
  - apply bind_run in H2 as (l & s4 & H4 & [= _ <-]).
    unfold acc, Accounts.last_tx_idx_at, Accounts.row_at, vec_get in H4. rewrite Hr in H4.
    injection H4 as <- <-. cbn in Ha'. split; [|by eapply (mark_touched_warm addr s)].
    eapply (ext_account_write s i r _ a' (Accounts.w_touch (tx_counter_ s))
      (Accounts.w_warm (Accounts.last_tx_idx (Accounts.mods r))) (Accounts.set_warm_at i _)); try done.
    + eapply writes_of_Ok; [apply Accounts.mark_touched_at_writes|done|done].
    + apply Accounts.set_warm_at_writes.
    + unfold Accounts.w_touch. split; cbn; try done; by case_match.
    + cbn. case_match eqn:E; cbn; [lia|by apply Z.ltb_ge].
Qed.

(** Recording the warmth of an address or a slot without a row. *)
Lemma journaled_warm_key_account addr last t :
  spec (λ s, WarmKeys.account addr (warm_keys (world s)) = last)
    (_ ← log (log_warm_key_account addr last);
     modify (λ s, put_world (put_warm_keys (WarmKeys.set_account addr t (warm_keys (world s)))
                               (world s)) s)) anyr.
Proof.
  intros s u s' <- H. apply bind_run in H as (? & s1 & [= _ <-] & [= _ <-]). split; [|done].
  refine (ext_log s _ (put_warm_keys _ (world s)) eq_refl _). intros Ha. split; [done|]. split; [done|].
  cbn. eexists. split; [done|]. split; try done. cbn. apply WarmKeys.set_account_undo.
Qed.
Lemma journaled_warm_key_slot addr key last t :
  spec (λ s, WarmKeys.slot addr key (warm_keys (world s)) = last)
    (_ ← log (log_warm_key_slot addr key last);
     modify (λ s, put_world (put_warm_keys (WarmKeys.set_slot addr key t (warm_keys (world s)))
                               (world s)) s)) anyr.
Proof.
  intros s u s' <- H. apply bind_run in H as (? & s1 & [= _ <-] & [= _ <-]). split; [|done].
  refine (ext_log s _ (put_warm_keys _ (world s)) eq_refl _). intros Ha. split; [done|]. split; [done|].
  cbn. eexists. split; [done|]. split; try done. cbn. apply WarmKeys.set_slot_undo.
Qed.

Lemma spec_gets {A} (P : StateDB → Prop) (f : StateDB → A) :
  spec P (gets f) (λ a s, P s ∧ a = f s).
Proof. by intros s a s' HP [= <- <-]. Qed.

Lemma spec_pre {A} (P P' : StateDB → Prop) (m : M A) Q :
  spec P' m Q → (∀ s, P s → P' s) → spec P m Q.
Proof. intros Hm HP. by eapply spec_conseq. Qed.

Lemma spec_when P b m : spec P m anyr → spec P (when b m) anyr.
Proof. intros Hm. destruct b; [done|apply journaled_spec, journaled_ret]. Qed.

(** A pending-access mark. *)
Lemma pending_mark_keeps (P : StateDB → Prop) (b : bool) p :
  (∀ s s', same_rows s s' → P s → P s') →
  spec P (when b (modify (put_bal_pending p))) (λ _ s, P s).
Proof.
  intros HP. apply spec_keeps; [by apply journaled_when, journaled_quiet|].
  apply keeps_when. intros s u s' Hs [= _ <-]. by apply (HP s).
Qed.

Lemma spec_run {A} P (m m' : M A) Q : (∀ s, m s = m' s) → spec P m' Q → spec P m Q.
Proof. intros E H s a s' HP. rewrite E. by apply H. Qed.

(** Monad laws, run by run. *)
Lemma bind_assoc {A B C} (m : M A) (f : A → M B) (g : B → M C) s :
  (m ≫= λ x, f x ≫= g) s = ((m ≫= f) ≫= g) s.
Proof. unfold mbind, M_bind. by destruct (m s) as [[]|]. Qed.
Lemma bind_ext {A B} (m : M A) (k k' : A → M B) s :
  (∀ a s', k a s' = k' a s') → (m ≫= k) s = (m ≫= k') s.
Proof. intros H. unfold mbind, M_bind. by destruct (m s) as [[]|]. Qed.

(** Warming an account row, in continuation form. *)
Lemma warm_account_then {A} addr i t (k : bool → M A) R :
  (∀ w, spec (acct_warm addr) (k w) R) →
  spec (λ s, tx_counter_ s = t ∧ row_is addr i s)
    (was_warm ← acc (Accounts.is_warm_at i t);
     _ ← when (negb was_warm) (l ← acc (Accounts.last_tx_idx_at i); log (log_account_warm i l));
     _ ← acc_upd (Accounts.mark_touched_at i t);
     k was_warm) R.
Proof.
  intros Hk. eapply spec_run; [|eapply spec_bind; [apply warm_account_spec|exact Hk]].
  intros s. cbn beta. rewrite <- bind_assoc. apply bind_ext. intros w s1. rewrite <- bind_assoc.
  apply bind_ext. intros u s2. rewrite <- bind_assoc. by apply bind_ext.
Qed.

Lemma host_access_account_spec addr :
  spec any (access_account is_precompile addr) (λ _ s, acct_warm addr s).
Proof.
  unfold access_account. eapply spec_bind; [apply journaled_bal_commit|]. intros ?.
  eapply spec_bind; [apply spec_gets|]. intros rev.
  eapply spec_bind; [apply pure_spec, pure_gets|]. intros on. cbn beta.
  destruct (is_precompile rev addr) eqn:Hp.
  { apply (spec_pre _ (acct_warm addr)); [|intros s [_ ->]; by left].
    eapply spec_bind; [apply (spec_keeps (acct_warm addr))|intros; by apply spec_ret].
    - apply journaled_when. unfold pending_row.
      apply journaled_bind; [|intros; by apply journaled_quiet].
      apply journaled_bind; [apply pure_journaled, pure_gets|]. intros []; [|apply journaled_ret].
      apply journaled_bind; [apply pure_journaled, pure_acc|]. intros; apply journaled_ret.
    - apply keeps_when, keeps_bind; [apply keeps_pure|].
      + intros s p s' H. unfold pending_row in H. apply bind_run in H as (c & s1 & [= <- <-] & H).
        destruct (Accounts.contains _ _); [|by injection H].
        apply bind_run in H as (i & s2 & H2 & [= _ <-]). by eapply pure_acc.
      + intros p s u s' Hs [= _ <-]. by apply (acct_warm_same addr s). }
  eapply spec_bind; [apply spec_gets|]. intros known.
  eapply spec_bind; [apply spec_gets|]. intros t. cbn beta. destruct known; cbn [negb].
  - eapply spec_bind; [apply account_row_spec|]. intros i. cbn beta.
    apply (spec_pre _ (λ s, tx_counter_ s = t ∧ row_is addr i s)); [|by intros s ((_ & ->) & ?)].
    apply warm_account_then. intros w.
    eapply spec_bind; [apply pending_mark_keeps, acct_warm_same|].
    intros; by apply spec_ret.
  - apply (spec_pre _ (λ s, ∀ i, ¬ row_is addr i s)).
    2:{ intros s [[_ Hc] _] i Hi. unfold Accounts.contains, row_is in *. by rewrite Hi in Hc. }
    eapply spec_bind; [apply spec_gets|]. intros last. cbn beta.
    assert (Hsame : ∀ s s', same_rows s s' → (∀ i, ¬ row_is addr i s) → ∀ i, ¬ row_is addr i s').
    { intros s s' [_ Hi _ _ _] H i. unfold row_is. rewrite Hi. apply H. }
    eapply spec_bind with (Q := λ _ s, ∀ i, ¬ row_is addr i s).
    { intros s u s' [Hn Hl] H. split.
      - revert H. apply (spec_when _ _ _ (journaled_warm_key_account addr last t)). done.
      - unfold when in H. case_match; [|by injection H as _ <-].
        apply bind_run in H as (? & s1 & [= _ <-] & [= _ <-]). done. }
    intros _. eapply spec_bind; [by apply pending_mark_keeps|]. cbn. intros _.
    apply spec_ret. intros s Hs. right. intros i r Hi. by destruct (Hs i).
Qed.

Lemma find_alter addr key f i st :
  (Storages.find addr key (Storages.put_rows (alter f i (Storages.rows st)) st)).1 =
  (Storages.find addr key st).1.
Proof. unfold Storages.find. cbn. by case_match. Qed.

(** Warming a cold slot. *)
Lemma warm_slot_spec addr key i t :
  spec (λ s, tx_counter_ s = t ∧ (Storages.find addr key (storages (world s))).1 = Some i)
    (was_warm ← sto (Storages.is_warm_at i t);
     _ ← when (negb was_warm) (l ← sto (Storages.last_tx_idx_at i); log (log_storage_warm i l));
     _ ← sto_upd (Storages.mark_touched_at i t);
     mret (if was_warm : bool then ACCESS_WARM else ACCESS_COLD))
    (λ _ s, slot_warm addr key s).
Proof.
  intros s a s' [<- Hfind] H. apply bind_run in H as (w & s1 & H1 & H).
  unfold sto, Storages.is_warm_at, Storages.row_at, vec_get in H1.
  destruct (Storages.rows (storages (world s)) !! i) as [r|] eqn:Hr; [|done].
  injection H1 as <- <-. pose proof (lookup_lt_Some _ _ _ Hr) as Hi.
  apply bind_run in H as (u & s2 & H2 & H).
  apply bind_run in H as (u' & s3 & (st & Hst & ->)%sto_upd_run & [= _ <-]).
  assert (Hwarm : ∀ s', st = storages (world s') → tx_counter_ s' = tx_counter_ s →
    storages (world s2) = storages (world s) → slot_warm addr key s').
  { intros s' -> Et E2 j Hj. rewrite E2, Storages.slot_mark_touched_writes in Hst by done.
    apply Ok_inj in Hst. unfold row_warm. rewrite <- Hst in *. rewrite find_alter in Hj.
    simplify_eq. cbn. rewrite list_lookup_alter, decide_True, Hr by done. eexists. split; [done|].
    unfold Storages.w_touch. cbn. rewrite Et. case_match eqn:E; cbn; [lia|by apply Z.ltb_ge]. }
  unfold when in H2. destruct (Z.eqb_spec (Storages.last_tx_idx (Storages.mods r)) (tx_counter_ s))
    as [El|Hne]; cbn [negb] in H2.
  - injection H2 as _ <-. split; [|by apply Hwarm].
    eapply silent_row_write; [exact Hst|]. intros r' Hr'. simplify_eq. cbn.
    rewrite El, Z.ltb_irrefl. by destruct r.
  - apply bind_run in H2 as (l & s4 & H4 & [= _ <-]).
    unfold sto, Storages.last_tx_idx_at, Storages.row_at, vec_get in H4. rewrite Hr in H4.
    injection H4 as <- <-. cbn in Hst. split; [|by apply Hwarm].
    rewrite Storages.slot_mark_touched_writes in Hst by done. apply Ok_inj in Hst as <-.
    refine (ext_log s _ (put_storages _ (world s)) eq_refl _). intros Ha. split; [done|]. split.
    + cbn. rewrite length_alter. done.
    + cbn. rewrite Storages.slot_set_warm_writes by (cbn; by rewrite length_alter). cbn.
      eexists. split; [done|]. split; try done. cbn.
      apply (Storages.alter_undo _ _ _ _ (storages (world s)) r Hr).
      unfold Storages.w_touch. split; cbn; try done; by case_match.
Qed.

Lemma access_storage_spec addr key :
  spec any (access_storage addr key) (λ _ s, slot_warm addr key s).
Proof.
  unfold access_storage. eapply spec_bind; [apply journaled_bal_commit|]. intros ?.
  eapply spec_bind with (Q := λ o s, (Storages.find addr key (storages (world s))).1 = o).
  { intros s o s' _ H. split; [by eapply journaled_find|]. unfold storages_find in H.
    pose proof (find_again addr key (storages (world s))) as Ha.
    destruct (Storages.find addr key (storages (world s))) as [j st]. by injection H as <- <-. }
  intros o. eapply spec_bind; [apply spec_gets|]. intros t. cbn beta. destruct o as [i|].
  - eapply spec_pre; [apply warm_slot_spec|]. by intros s [? ->].
  - eapply spec_bind; [apply spec_gets|]. intros last. cbn beta.
    eapply spec_bind with (Q := λ _ s, (Storages.find addr key (storages (world s))).1 = None).
    { intros s u s' [[Hn _] Hl] H. split.
      - revert H. by apply (spec_when _ _ _ (journaled_warm_key_slot addr key last t)).
      - unfold when in H. case_match; [|by injection H as _ <-].
        by apply bind_run in H as (? & s1 & [= _ <-] & [= _ <-]). }
    intros _. apply spec_ret. intros s Hs i Hi. by rewrite Hs in Hi.
Qed.

End Host.
End HostProofs.
