(* ===== verification/Frames.v ===== *)
(** CALL and CREATE frames: a frame only extends the journal, and a frame that
    does not succeed leaves the world, the journal and the logs as it found
    them.  The VM is any interpreter that reaches the state through journaled
    host operations ([JournaledVM]). *)

From stdpp Require Import base numbers list strings gmap.
From S2P Require Import Prelude Fork Rlp Receipt Contracts Bal EvmMem Accounts Storages Transient Journal StateDb HostProofs.

Module Frames.
Import Rlp Receipt Fork Journal StateDb HostProofs.

Section Live.
Context (is_precompile : revision → Z → bool).

(** The account table and the memory manager are well formed and the accounts
    [addrs] are warm. *)
Definition live (addrs : list Z) (s : StateDB) : Prop :=
  Accounts.acc_ok (accounts (world s)) ∧ Forall (λ a, acct_warm is_precompile a s) addrs ∧
  EvmMem.inv (evm_mem s).

Lemma live_ext addrs s s' : ext is_precompile s s' → live addrs s → live addrs s'.
Proof.
  intros [Ht Hf _ Hw He Hm] (Ha & Hall & Hi). split; [apply He, Ha|]. split; [|auto]. eapply Forall_impl; [exact Hall|].
  intros a H. unfold acct_warm in *. unfold exempt in *. rewrite Hf, Ht. by apply Hw.
Qed.

Lemma live_in addrs a s : a ∈ addrs → live addrs s → acct_warm is_precompile a s.
Proof. intros Hin (_ & H & _). by eapply (proj1 (Forall_forall _ _)) in H. Qed.

Lemma live_incl addrs addrs' s : addrs' ⊆ addrs → live addrs s → live addrs' s.
Proof.
  intros Hs (Ha & H & Hi). split; [done|]. split; [|done]. apply Forall_forall. intros a Hin.
  eapply (proj1 (Forall_forall _ _)) in H; [exact H|]. by apply Hs.
Qed.

(** Frame rule: what is warm stays warm across any journaled action. *)
Lemma spec_live {A} addrs P (m : M A) Q :
  spec is_precompile P m Q →
  spec is_precompile (λ s, live addrs s ∧ P s) m (λ a s, live addrs s ∧ Q a s).
Proof.
  intros Hm s a s' [Hl HP] H. destruct (Hm s a s' HP H) as [He HQ].
  split; [done|]. split; [by eapply live_ext|done].
Qed.

Lemma live_journaled {A} addrs (m : M A) :
  journaled is_precompile m → spec is_precompile (live addrs) m (λ _ s, live addrs s).
Proof.
  intros Hm s a s' Hl H. destruct (Hm s a s' I H) as [He _]. split; [done|by eapply live_ext].
Qed.

Lemma live_warm_op {A} addrs addr (m : M A) :
  addr ∈ addrs → spec is_precompile (acct_warm is_precompile addr) m anyr →
  spec is_precompile (live addrs) m (λ _ s, live addrs s).
Proof.
  intros Hin Hm s a s' Hl H. destruct (Hm s a s' (live_in _ _ _ Hin Hl) H) as [He _].
  split; [done|by eapply live_ext].
Qed.

End Live.

(** What the host relies on the VM for: run on a frame whose recipient is warm,
    with gas to spend, it changes the state by journaled host operations only. *)
Class JournaledVM (is_precompile : revision → Z → bool) (vm : message → bytes → M Result) : Prop :=
  vm_journaled msg code : 0 ≤ gas msg → 0 ≤ msg_state_gas msg →
    spec is_precompile (live is_precompile [recipient msg]) (vm msg code) anyr.

Section Frames.
Context (is_precompile : revision → Z → bool).
Abbreviation ext := (ext is_precompile).
Abbreviation spec := (spec is_precompile).
Abbreviation journaled := (journaled is_precompile).
Abbreviation live := (live is_precompile).

(** ** Rollback *)

(** The journaled state of [s'] is that of [s]: every read of an account, a slot, a
    transient slot, the logs or the journal gives the same.  Two sets of account rows
    are not journaled: the rows created in this transaction, which SELFDESTRUCT reads,
    and the rows whose storage was wiped.  Of those it only says that they did not
    shrink. *)
Record restored (s s' : StateDB) : Prop := {
  rs_tx : tx_counter_ s' = tx_counter_ s;
  rs_fork : fork_id s' = fork_id s;
  rs_receipts : tx_receipts_ s' = tx_receipts_ s;
  rs_journal : journal_ s' = journal_ s;
  rs_world : world_equiv (exempt is_precompile s) (tx_counter_ s) (world s') (world s);
  rs_ok : Accounts.acc_ok (accounts (world s'));
  rs_mem : EvmMem.inv (evm_mem s) → EvmMem.inv (evm_mem s');
  rs_marks : marks_grow s s' }.

Lemma restored_ext s s' : restored s s' → ext s s'.
Proof.
  intros [Ht Hf Hr Hj Hw Ha' Hm Hg]. split; [done|done|by rewrite Hr| | |done|done].
  - intros Ha. apply warms_equiv; [done|apply Hw].
  - rewrite Hj. by apply extends_silent.
Qed.

Lemma restored_trans s1 s2 s3 : restored s1 s2 → restored s2 s3 → restored s1 s3.
Proof.
  intros [Ht Hf Hr Hj Hw Ha Hm Hg] [Ht' Hf' Hr' Hj' Hw' Ha' Hm' Hg']. split; try congruence; [|auto|by etrans].
  unfold exempt in *. rewrite Ht, Hf in Hw'. by etrans.
Qed.

Lemma truncate_ext rs rs' : receipts_ext rs rs' → truncate_logs (current_logs rs) rs' = rs.
Proof.
  intros [->|(pre & r & more & -> & ->)]; unfold truncate_logs, current_logs.
  - destruct (last rs) as [r|] eqn:E; [|done]. apply last_Some in E as [l ->].
    rewrite removelast_last, take_ge by lia. by destruct r.
  - rewrite !last_snoc, removelast_last. cbn. rewrite take_app_length. by destruct r.
Qed.

(** The checkpoint taken at [s], and the state right after taking it. *)
Definition cp_of (s : StateDB) : Checkpoint :=
  mkCheckpoint (Journal.checkpoint (journal_ s)).1 (current_logs (tx_receipts_ s)).
Definition marked (s : StateDB) : StateDB := put_journal (Journal.checkpoint (journal_ s)).2 s.

Lemma checkpoint_run s : checkpoint s = Ok (cp_of s, marked s).
Proof. done. Qed.

Lemma ext_marked s : ext s (marked s).
Proof. split; try done. cbn. by apply extends_checkpoint. Qed.

(** Rolling back to a checkpoint taken at [s] restores [s]; it never fails. *)
Lemma rollback_to s s2 :
  Accounts.acc_ok (accounts (world s)) → ext (marked s) s2 →
  ∃ s3, rollback (cp_of s) s2 = Ok (tt, s3) ∧ restored s s3.
Proof.
  intros Ha [Ht Hf Hr _ He Hm Hg]. cbn in *. unfold rollback, cp_of.
  destruct (rollback_restores _ _ _ _ _ _ Ha He) as (u & Hu & Hw & Hau).
  cbn in Hu |- *. rewrite Hu. eexists. split; [done|]. split; cbn; auto. by apply truncate_ext.
Qed.

Lemma rollback_marks cp s u s' : rollback cp s = Ok (u, s') → marks_grow s s'.
Proof. intros H. unfold rollback in H. repeat case_match; by simplify_eq. Qed.

(** ** Frame bodies: a run that succeeds extends the marked state, any other run
    is rolled back to the state before the mark; no run takes a mark away. *)
Definition body (sc : StateDB) (P : StateDB → Prop) (m : M Result) : Prop :=
  ∀ s r s', ext (marked sc) s → P s → m s = Ok (r, s') → marks_grow s s' ∧
    ((success r = true ∧ ext (marked sc) s') ∨ (success r = false ∧ restored sc s')).

Lemma body_bind {A} sc P (m : M A) (k : A → M Result) Q :
  spec P m Q → (∀ a, body sc (Q a) (k a)) → body sc P (m ≫= k).
Proof.
  intros Hm Hk s r s' H0 HP H. apply bind_run in H as (a & s1 & H1 & H2).
  destruct (Hm _ _ _ HP H1) as [H01 HQ]. destruct (Hk a s1 r s') as [Hg Hr]; [by etrans|done|done|].
  split; [etrans; [apply H01|done]|done].
Qed.

Lemma body_pre sc (P P' : StateDB → Prop) m : body sc P' m → (∀ s, P s → P' s) → body sc P m.
Proof. intros Hm HP s r s' H0 Hs. by apply Hm, HP. Qed.

(** A failing exit. *)
Lemma body_rollback sc P r :
  Accounts.acc_ok (accounts (world sc)) → success r = false →
  body sc P (_ ← rollback (cp_of sc); mret r).
Proof.
  intros Ha Hf s r' s' H0 _ H. apply bind_run in H as (u & s1 & H1 & [= <- <-]).
  split; [by eapply rollback_marks|].
  destruct (rollback_to sc s Ha H0) as (s3 & E & Hr). rewrite H1 in E. simplify_eq. by right.
Qed.

(** A successful exit. *)
Lemma body_ret sc P r : success r = true → body sc P (mret r).
Proof. intros Hr s r' s' H0 _ [= <- <-]. split; [done|by left]. Qed.

Lemma body_settle sc P r :
  Accounts.acc_ok (accounts (world sc)) → body sc P (settle_frame (cp_of sc) r).
Proof.
  intros Ha. unfold settle_frame. destruct (success r) eqn:Hr; cbn [negb when].
  - by apply body_ret.
  - by apply body_rollback.
Qed.

(** A checkpointed body as a whole. *)
Lemma checkpoint_body addrs (m : Checkpoint → M Result) :
  (∀ sc, live addrs sc → body sc (live addrs) (m (cp_of sc))) →
  ∀ s r s', live addrs s → (cp ← checkpoint; m cp) s = Ok (r, s') →
    ext s s' ∧ (success r = false → restored s s').
Proof.
  intros Hm s r s' Hl H. apply bind_run in H as (cp & s1 & [= <- <-] & H).
  assert (Hl1 : live addrs (marked s)) by (eapply live_ext; [apply ext_marked|done]).
  destruct (Hm s Hl (marked s) r s') as [_ [[Hr He]|[Hr He]]]; [done|done|done| |].
  - split; [|congruence]. etrans; [apply ext_marked|done].
  - split; [by apply restored_ext|done].
Qed.

Section Calls.
Context (keccak256 : bytes → Z).
Context (call_precompile : revision → message → Result).
Context (ecrecover_address : Z → Z → Z → Z → option Z).
Context (state_gas_charge : StateGas → Z → Z → option (Z * StateGas)).
Context (COST_PER_STATE_BYTE : Z).
Context (vm : message → bytes → M Result) {HVM : JournaledVM is_precompile vm}.

Abbreviation call := (StateDb.call keccak256 is_precompile call_precompile ecrecover_address
  state_gas_charge COST_PER_STATE_BYTE vm).
Abbreviation call_create := (StateDb.call_create keccak256 state_gas_charge COST_PER_STATE_BYTE vm).
Abbreviation create_body := (StateDb.create_body keccak256 state_gas_charge COST_PER_STATE_BYTE vm).
Abbreviation run_frame := (StateDb.run_frame vm).

Lemma run_frame_spec msg code addrs :
  0 ≤ gas msg → 0 ≤ msg_state_gas msg → recipient msg ∈ addrs → spec (live addrs) (run_frame msg code) (λ _ s, live addrs s).
Proof.
  intros Hg Hsg Hin s r s' Hl H.
  assert (He : ext s s'); [|split; [done|by eapply live_ext]].
  unfold StateDb.run_frame in H. apply bind_run in H as (r1 & s1 & H1 & H).
  destruct (vm_journaled (is_precompile := is_precompile) msg code Hg Hsg s r1 s1) as [E1 _]; [|done|].
  { eapply live_incl; [|done]. set_solver. }
  etrans; [exact E1|]. eapply (journaled_bind is_precompile); [..|exact H]; [| |done].
  - apply journaled_when, journaled_bal_commit.
  - intros ?. apply journaled_bind; [by apply journaled_quiet|]. intros; apply journaled_ret.
Qed.

(** The common tail of CALL, CALLCODE and DELEGATECALL. *)
Lemma code_frame_body sc addrs msg :
  0 ≤ gas msg → 0 ≤ msg_state_gas msg → Accounts.acc_ok (accounts (world sc)) → recipient msg ∈ addrs → code_address msg ∈ addrs →
  body sc (live addrs)
    (code ← code_and_entry (code_address msg); r ← run_frame msg code; settle_frame (cp_of sc) r).
Proof.
  intros Hg Hsg Ha Hr Hc. eapply body_bind; [eapply live_warm_op; [exact Hc|apply code_and_entry_spec]|].
  intros code. eapply body_bind; [by apply (run_frame_spec _ _ addrs)|].
  intros r. by apply body_settle.
Qed.

Lemma pure_precompile msg :
  pure (call_precompile_dispatch call_precompile ecrecover_address msg).
Proof.
  unfold call_precompile_dispatch. case_match; [by intros s a s' [= _ <-]|].
  intros s a s' Hr. by apply bind_run in Hr as (rev & s1 & [= <- <-] & [= _ <-]).
Qed.

(** The access-list bookkeeping of a call's entry restores trivially. *)
Lemma bal_access_restored i s u s' :
  Accounts.acc_ok (accounts (world s)) →
  acc_upd (Accounts.bal_access_at i) s = Ok (u, s') → restored s s'.
Proof.
  intros Ha (a & E & ->)%acc_upd_run. unfold Accounts.bal_access_at in E.
  destruct (Accounts.bal_ (accounts (world s))) as [b|] eqn:Eb; cbn in E.
  - destruct (Bal.access_account i b) as [b'|] eqn:Eb'; cbn in E; [|done]. apply Ok_inj in E as <-.
    destruct (put_bal_equiv (exempt is_precompile s) _ _ b' Eb) as [Hok Heq]; [|done|].
    { intros m Hm. exists m. by eapply access_account_kept. }
    by split; cbn.
  - apply Ok_inj in E as <-. by split; cbn.
Qed.

Lemma bal_commit_restored s u s' :
  Accounts.acc_ok (accounts (world s)) → bal_commit_pending s = Ok (u, s') → restored s s'.
Proof.
  intros Ha H. unfold bal_commit_pending in H. apply bind_run in H as (p & s1 & [= <- <-] & H).
  destruct (bal_pending_ s); [by injection H as _ <-|done|].
  apply bind_run in H as (v & s2 & H2 & [= _ <-]).
  destruct (bal_access_restored _ _ _ _ Ha H2). by split.
Qed.

Lemma bal_load_restored a s u s' :
  Accounts.acc_ok (accounts (world s)) → bal_load a s = Ok (u, s') → restored s s'.
Proof.
  intros Ha H. unfold bal_load in H. apply bind_run in H as (i & s1 & H1 & H).
  pose proof (pure_acc _ _ _ _ H1) as ->. by eapply bal_access_restored.
Qed.

Lemma restored_refl s : Accounts.acc_ok (accounts (world s)) → restored s s.
Proof. by split. Qed.

(** A message call that is not a CREATE: its state effects are journaled, and a
    call that does not succeed restores the state. *)
Definition is_create (k : call_kind) : bool :=
  match k with CREATE | CREATE2 => true | _ => false end.

Definition atomic {A} (P : StateDB → Prop) (m : M A) (ok : A → bool) : Prop :=
  ∀ s a s', P s → m s = Ok (a, s') → ext s s' ∧ (ok a = false → restored s s').

(** A step that restores trivially, before an atomic one. *)
Lemma atomic_silent {A B} addrs (m : M A) (k : A → M B) ok :
  (∀ s a s', live addrs s → m s = Ok (a, s') → restored s s') →
  (∀ a, atomic (live addrs) (k a) ok) → atomic (live addrs) (m ≫= k) ok.
Proof.
  intros Hm Hk s b s' Hl H. apply bind_run in H as (a & s1 & H1 & H2).
  specialize (Hm _ _ _ Hl H1). pose proof (restored_ext _ _ Hm) as He.
  destruct (Hk a s1 b s' (live_ext _ _ _ _ He Hl) H2) as [He' Hr].
  split; [by etrans|]. intros Hb. eapply restored_trans; [done|auto].
Qed.

Lemma atomic_pure {A} addrs (m : M A) ok : pure m → atomic (live addrs) m ok.
Proof.
  intros Hm s a s' [Ha _] H. rewrite (Hm _ _ _ H). split; [done|]. intros _. by apply restored_refl.
Qed.

Lemma precompile_atomic addrs msg :
  atomic (live addrs)
    (on ← bal_on; _ ← when on (bal_load (code_address msg));
     match kind msg with
     | CALL =>
         if negb (value msg =? 0) then
           pcp ← checkpoint;
           _ ← transfer_value (sender msg) (recipient msg) (value msg);
           r ← call_precompile_dispatch call_precompile ecrecover_address msg;
           settle_frame pcp r
         else call_precompile_dispatch call_precompile ecrecover_address msg
     | _ => call_precompile_dispatch call_precompile ecrecover_address msg
     end) success.
Proof.
  apply atomic_silent; [intros s a s' [Ha _] [= _ <-]; by apply restored_refl|]. intros on.
  apply atomic_silent.
  { intros s a s' [Ha _] H. destruct on; [by eapply bal_load_restored|].
    injection H as _ <-. by apply restored_refl. }
  intros _. destruct (kind msg); try apply atomic_pure, pure_precompile.
  destruct (negb _); [|apply atomic_pure, pure_precompile].
  intros s r s' Hl H.
  refine (checkpoint_body addrs (λ pcp, _ ← transfer_value _ _ _; r ← _; settle_frame pcp r) _ s r s' Hl H).
  intros sc [Ha _]. eapply body_bind; [apply live_journaled, journaled_transfer_value|].
  intros ?. eapply body_bind; [apply pure_spec, pure_precompile|]. intros r0. by apply body_settle.
Qed.

Lemma call_atomic msg :
  0 ≤ gas msg → 0 ≤ msg_state_gas msg → is_create (kind msg) = false →
  atomic (live [recipient msg; code_address msg]) (call msg) success.
Proof.
  intros Hg Hsg Hk. unfold StateDb.call.
  apply atomic_silent; [intros s a s' [Ha _] H|].
  { unfold when in H. case_match; [done|]. injection H as _ <-. by apply restored_refl. }
  intros _. apply atomic_silent; [intros s a s' [Ha _] H; by eapply bal_commit_restored|].
  intros _. apply atomic_silent; [intros s a s' [Ha _] [= _ <-]; by apply restored_refl|].
  intros rev. destruct (negb (delegated msg) && _); [apply precompile_atomic|].
  intros s r s' Hl H.
  eapply (checkpoint_body [recipient msg; code_address msg]); [|exact Hl|exact H].
  intros sc [Ha _]. cbn beta.
  destruct (kind msg); try done; try (apply code_frame_body; [done|done|done|set_solver|set_solver]).
  eapply body_bind; [apply live_journaled, journaled_when, journaled_transfer_value|].
  intros ?. apply code_frame_body; [done|done|done|set_solver|set_solver].
Qed.

(** ** CREATE *)

Lemma pure_bind {A B} (m : M A) (k : A → M B) : pure m → (∀ a, pure (k a)) → pure (m ≫= k).
Proof.
  intros Hm Hk s b s' H. apply bind_run in H as (a & s1 & H1 & H2).
  rewrite (Hk _ _ _ _ H2). by apply (Hm s a).
Qed.
Lemma pure_ret {A} (a : A) : pure (mret a).
Proof. by intros s b s' [= _ <-]. Qed.

Lemma pure_create_collides a i : pure (create_collides a i).
Proof.
  unfold create_collides. apply pure_bind; [apply pure_acc|]. intros n. case_match; [apply pure_ret|].
  apply pure_bind; [apply pure_acc|]. intros c. case_match; [apply pure_ret|].
  apply pure_bind; [apply pure_sto|]. intros []; [apply pure_ret|].
  unfold has_block_start_storage. apply pure_bind; [apply pure_gets|]. intros w.
  case_match; [apply pure_ret|]. apply pure_bind; [apply pure_acc|]. intros; apply pure_ret.
Qed.

Lemma journaled_init_create a msg : journaled (init_create_account a msg).
Proof.
  unfold init_create_account. apply journaled_bind; [apply pure_journaled, pure_acc|]. intros i.
  apply journaled_bind; [apply pure_journaled, pure_create_collides|]. intros []; [apply journaled_ret|].
  apply journaled_seq2; [apply journaled_write_nonce|]. intros _.
  apply journaled_bind; [apply journaled_when, journaled_transfer_value|]. intros; apply journaled_ret.
Qed.

Lemma journaled_register_code a r : journaled (register_deployed_code keccak256 a r).
Proof.
  unfold register_deployed_code. apply journaled_bind; [apply pure_journaled, pure_acc|]. intros i.
  cbn zeta. apply journaled_bind; [|intros _; apply journaled_write_code_hash].
  apply journaled_when, journaled_bind; [apply pure_journaled, pure_gets|]. intros c.
  apply journaled_bind; [apply pure_journaled, pure_lift|]. intros c'. by apply journaled_quiet.
Qed.

Lemma finish_create_body sc P msg a r :
  Accounts.acc_ok (accounts (world sc)) → success r = true →
  body sc P (finish_create keccak256 state_gas_charge COST_PER_STATE_BYTE msg a (cp_of sc) r).
Proof.
  intros Ha Hr. unfold finish_create.
  eapply body_bind; [apply pure_spec, pure_bind; [apply pure_gets|intros; apply pure_ret]|]. intros limit.
  eapply body_bind; [apply pure_spec, pure_gets|]. intros london.
  eapply body_bind; [apply pure_spec, pure_gets|]. intros am. cbn beta.
  destruct (limit <? _); [by apply body_rollback|].
  destruct (london && _); [by apply body_rollback|].
  destruct (charge_code_deposit _ _ r am) as [r'|] eqn:Ed; [|by apply body_rollback].
  eapply body_bind; [apply journaled_spec, journaled_register_code|]. intros ?. apply body_ret.
  assert (r_status r' = r_status r) as E.
  { clear -Ed. unfold charge_code_deposit in Ed. repeat case_match; simplify_eq; done. }
  unfold success in *. cbn. by rewrite E.
Qed.

(** From the init frame on. *)
Lemma init_frame_body sc addrs msg a m c :
  0 ≤ gas m → 0 ≤ msg_state_gas m → recipient m ∈ addrs → Accounts.acc_ok (accounts (world sc)) →
  body sc (live addrs) (r ← run_frame m c;
    if negb (success r) then _ ← rollback (cp_of sc); mret r
    else finish_create keccak256 state_gas_charge COST_PER_STATE_BYTE msg a (cp_of sc) r).
Proof.
  intros Hg Hsg Hin Ha. eapply body_bind; [by apply run_frame_spec|]. intros r'.
  destruct (success r') eqn:Hs; cbn [negb]; [by apply finish_create_body|by apply body_rollback].
Qed.

Lemma create_body_atomic addrs msg i :
  0 ≤ gas msg → 0 ≤ msg_state_gas msg → recipient msg ∈ addrs →
  atomic (live addrs) (create_body msg i) success.
Proof.
  intros Hg Hsg Hin s r s' Hl H. unfold StateDb.create_body in H. cbv zeta in H.
  eapply (checkpoint_body addrs); [|exact Hl|exact H]. intros sc [Ha _]. cbn beta.
  eapply body_bind; [apply live_journaled, journaled_init_create|]. intros fresh. cbn beta.
  destruct fresh; cbn [negb]; [|by apply body_rollback].
  eapply body_bind; [apply live_journaled, journaled_quiet, quiet_created|]. intros ?. cbn zeta beta.
  by apply init_frame_body.
Qed.

Lemma init_create_collision a msg s s' : init_create_account a msg s = Ok (false, s') → s' = s.
Proof.
  intros H. unfold init_create_account in H. apply bind_run in H as (i & s1 & H1 & H).
  pose proof (pure_acc _ _ _ _ H1) as ->. apply bind_run in H as (c & s2 & H2 & H).
  pose proof (pure_create_collides _ _ _ _ _ H2) as ->. destruct c; [by injection H|].
  by do 3 (apply bind_run in H as (? & ? & _ & H)).
Qed.

(** The created-this-transaction mark: a collision leaves the set alone, and once the
    init frame has started the new row is in it, whatever becomes of the frame. *)
Lemma create_body_marks addrs msg j s r s' :
  0 ≤ gas msg → 0 ≤ msg_state_gas msg → recipient msg ∈ addrs → live addrs s →
  create_body msg j s = Ok (r, s') →
  created_this_tx_idx_ s' = created_this_tx_idx_ s ∨ j ∈ created_this_tx_idx_ s'.
Proof.
  intros Hg Hsg Hin Hl H. unfold StateDb.create_body in H. cbv zeta in H.
  apply bind_run in H as (cp & s1 & [= <- <-] & H). apply bind_run in H as (fresh & s2 & H2 & H).
  destruct fresh; cbn [negb] in H.
  - right. apply bind_run in H as (u & s3 & [= _ <-] & H).
    destruct (journaled_init_create _ _ _ _ _ I H2) as [E2 _].
    destruct (journaled_quiet is_precompile _ (quiet_created j) s2 tt _ I eq_refl) as [E3 _].
    eapply init_frame_body in H as [[Hm _] _]; [|done|done|exact Hin|apply Hl|by etrans|].
    + apply Hm. cbn. set_solver.
    + eapply live_ext; [|exact Hl]. etrans; [apply ext_marked|]. by etrans.
  - left. apply init_create_collision in H2 as ->. apply bind_run in H as (u & s3 & H3 & [= _ <-]).
    unfold rollback in H3. repeat case_match; by simplify_eq.
Qed.

(** The nonce bump and the warming persist; both are journaled. *)
Definition warm_new (addr : Z) : M nat :=
  na ← account_row addr;
  _ ← acc_upd (Accounts.bal_access_at na);
  t ← tx_counter;
  w ← acc (Accounts.is_warm_at na t);
  _ ← when (negb w) (l ← acc (Accounts.last_tx_idx_at na); log (log_account_warm na l));
  _ ← acc_upd (Accounts.mark_touched_at na t);
  mret na.

Lemma create_bump_run msg i n s :
  Accounts.nonce_at i (accounts (world s)) = Ok n →
  create_bump msg i n s =
    (_ ← (_ ← log_old_nonce i; set_nonce_idx i (n + 1)); warm_new (recipient msg)) s.
Proof.
  intros Hn. rewrite <- bind_assoc. unfold log_old_nonce. rewrite <- bind_assoc. symmetry.
  unfold mbind at 1, M_bind at 1, acc at 1. rewrite Hn. unfold create_bump. rewrite <- bind_assoc. done.
Qed.

Lemma warm_new_spec addr :
  spec any (warm_new addr) (λ _ s, acct_warm is_precompile addr s).
Proof.
  unfold warm_new. eapply (spec_bind _ _ _ _ (λ i s, row_is addr i s)).
  { eapply spec_conseq; [apply (account_row_spec is_precompile any)|done|]. by intros ?? []. }
  intros i. eapply spec_bind with (Q := λ _ s, row_is addr i s).
  { apply spec_keeps; [apply journaled_bal_access|].
    intros s u s' Hr H%bal_access_same. unfold row_is in *. by rewrite (sr_index _ _ H). }
  intros _. eapply spec_bind; [apply spec_gets|]. intros t. cbn beta.
  eapply spec_pre; [apply (warm_account_then is_precompile addr)|by intros s [? ->]].
  intros w. by apply spec_ret.
Qed.

Lemma create_bump_spec msg i n :
  spec (λ s, live [] s ∧ Accounts.nonce_at i (accounts (world s)) = Ok n)
    (create_bump msg i n) (λ _ s, live [recipient msg] s).
Proof.
  intros s a s' [Hl Hn]. rewrite create_bump_run by done. revert s a s' Hl Hn.
  assert (X : spec (live []) (_ ← (_ ← log_old_nonce i; set_nonce_idx i (n + 1));
    warm_new (recipient msg)) (λ _ s, live [recipient msg] s)).
  { eapply spec_bind; [apply live_journaled, journaled_write_nonce|]. cbn. intros _.
    eapply spec_conseq; [apply (spec_live is_precompile []), warm_new_spec|done|].
    intros ? s [(Ha & _ & Hi) ?]. split; [done|]. split; [by constructor|done]. }
  intros s a s' Hl _. by apply X.
Qed.

(** The state of a failed CREATE: the one right after the caller's nonce bump and
    the warming of the new address ([s1] is the state the frame starts from), but for
    the created-this-transaction marks: they are those before on a collision, and
    with the new row once an init frame has started. *)
Definition create_failed (msg : message) (s1 s' : StateDB) : Prop :=
  ∃ i n j s2, Accounts.index_of (sender msg) (accounts (world s1)) = Ok i ∧
    Accounts.nonce_at i (accounts (world s1)) = Ok n ∧
    create_bump msg i n (marked s1) = Ok (j, s2) ∧ restored s2 s' ∧
    (created_this_tx_idx_ s' = created_this_tx_idx_ s2 ∨ j ∈ created_this_tx_idx_ s').

Lemma call_create_run msg s r s' :
  0 ≤ gas msg → 0 ≤ msg_state_gas msg → live [] s → call_create msg (cp_of s) (marked s) = Ok (r, s') →
  ext s s' ∧ (success r = false → create_failed msg s s').
Proof.
  intros Hg Hsg Hl H. unfold StateDb.call_create in H. apply bind_run in H as (i & s1 & H1 & H).
  pose proof (pure_acc _ _ _ _ H1) as ->. apply bind_run in H as (n & s2 & H2 & H).
  pose proof (pure_acc _ _ _ _ H2) as ->. unfold account_row, acc in H1, H2. cbn in H1, H2.
  destruct (Accounts.index_of _ _) as [i'|] eqn:Hi; [|done]. injection H1 as ->.
  destruct (Accounts.nonce_at _ _) as [n'|] eqn:Hn; [|done]. injection H2 as ->.
  destruct (n =? UINT64_MAX).
  { injection H as <- <-. split; [apply ext_marked|done]. }
  apply bind_run in H as (j & s3 & H3 & H).
  destruct (create_bump_spec msg i n (marked s) j s3) as [E3 L3]; [|done|].
  { split; [|done]. eapply live_ext; [apply ext_marked|done]. }
  destruct (create_body_atomic [recipient msg] msg j Hg Hsg ltac:(set_solver) s3 r s' L3 H) as [E4 Hr].
  split; [etrans; [apply ext_marked|]; by etrans|].
  intros Hf. exists i, n, j, s3. split_and!; auto.
  eapply create_body_marks; [done|done| |exact L3|exact H]. set_solver.
Qed.

(** A CREATE message: its state effects are journaled, and its failure leaves
    what [create_failed] says. *)
Lemma create_atomic msg s r s' :
  0 ≤ gas msg → 0 ≤ msg_state_gas msg → is_create (kind msg) = true → live [] s → call msg s = Ok (r, s') →
  ext s s' ∧ (success r = false →
    restored s s' ∨ ∃ s1, restored s s1 ∧ create_failed msg s1 s').
Proof.
  intros Hg Hsg Hk Hl H. unfold StateDb.call in H. apply bind_run in H as (u & s0 & H0 & H).
  unfold when in H0. destruct (1024 <? _); [done|]. injection H0 as _ <-.
  apply bind_run in H as (u' & s1 & H1 & H).
  pose proof (bal_commit_restored _ _ _ (proj1 Hl) H1) as R1.
  assert (L1 : live [] s1) by (eapply live_ext; [by apply restored_ext|done]).
  apply bind_run in H as (rev & s2 & [= <- <-] & H).
  destruct (negb (delegated msg) && _).
  - destruct (precompile_atomic [] msg s1 r s' L1 H) as [E2 Hr].
    split; [etrans; [by apply restored_ext|done]|]. intros Hf. left.
    eapply restored_trans; [done|auto].
  - apply bind_run in H as (cp & s3 & [= <- <-] & H).
    destruct (call_create_run msg s1 r s') as [E2 Hr]; [done|done|done|by destruct (kind msg)|].
    split; [etrans; [by apply restored_ext|done]|]. intros Hf. right. eauto.
Qed.

End Calls.

End Frames.
End Frames.
