(* ===== verification/U256.v ===== *)
(** The 256-bit word and its arithmetic ([src/zevm/u256.hpp],
    [zisk/bigint/backend.hpp], and the value part of
    [src/zevm/instructions/arith.inl.hpp] and [bitwise.inl.hpp]): four
    little-endian 64-bit limbs, the schoolbook multiply, the bit-by-bit long
    divisions, the carry and byte-move fast paths of the opcodes.  Every opcode's
    limb computation is shown to be its definition on integers modulo 2^256. *)

From stdpp Require Import base numbers list.
From S2P Require Import Prelude.

Module U256.

(** ** The word *)

Record U256 := mkU256 { l0 : Z; l1 : Z; l2 : Z; l3 : Z }.
Definition zero : U256 := mkU256 0 0 0 0.
Definition limbs (x : U256) : list Z := [l0 x; l1 x; l2 x; l3 x].
Definition of_limbs (l : list Z) : U256 :=
  mkU256 (nth 0 l 0) (nth 1 l 0) (nth 2 l 0) (nth 3 l 0).

(** [bswap64], and an 8-byte little-endian load and store. *)
Definition bswap64 (w : Z) : Z := be_val (le_bytes 8 w).
Definition load_u64 (b : bytes) (off : nat) : Z := le_val (take 8 (drop off b)).
Definition store_u64 (w : Z) : bytes := le_bytes 8 w.

Definition u256_from_be (b : bytes) : U256 :=
  let w3 := load_u64 b 0 in let w2 := load_u64 b 8 in
  let w1 := load_u64 b 16 in let w0 := load_u64 b 24 in
  mkU256 (bswap64 w0) (bswap64 w1) (bswap64 w2) (bswap64 w3).

Definition u256_to_be (v : U256) : bytes :=
  store_u64 (bswap64 (l3 v)) ++ store_u64 (bswap64 (l2 v)) ++
  store_u64 (bswap64 (l1 v)) ++ store_u64 (bswap64 (l0 v)).

Definition u256_is_zero (a : U256) : bool :=
  Z.lor (Z.lor (Z.lor (l0 a) (l1 a)) (l2 a)) (l3 a) =? 0.
Definition u256_eq (a b : U256) : bool :=
  (l0 a =? l0 b) && (l1 a =? l1 b) && (l2 a =? l2 b) && (l3 a =? l3 b).

(** From the most significant limb down; the lists are most significant first. *)
Fixpoint lt_limbs (a b : list Z) : bool :=
  match a, b with
  | x :: a, y :: b => if negb (x =? y) then x <? y else lt_limbs a b
  | _, _ => false
  end.
Definition u256_lt (a b : U256) : bool := lt_limbs (reverse (limbs a)) (reverse (limbs b)).

Definition u256_sign (a : U256) : bool := negb (Z.shiftr (l3 a) 63 =? 0).

(** [~x] on 64 bits. *)
Definition not64 (x : Z) : Z := u64 (Z.lnot x).

Fixpoint neg_limbs (carry : Z) (l : list Z) : list Z :=
  match l with
  | [] => []
  | x :: l => let v := u64 (not64 x + carry) in v :: neg_limbs (if v <? carry then 1 else 0) l
  end.
Definition u256_neg (a : U256) : U256 := of_limbs (neg_limbs 1 (limbs a)).

(** The three high limbs are zero. *)
Definition high_zero (a : U256) : bool := Z.lor (Z.lor (l1 a) (l2 a)) (l3 a) =? 0.

(** ** The host's 256-bit primitives ([backend.hpp]) *)

Fixpoint add_limbs (a b : list Z) (carry : Z) : list Z * Z :=
  match a, b with
  | x :: a, y :: b =>
      let s := x + y + carry in
      let '(r, c) := add_limbs a b (Z.shiftr s 64) in (u64 s :: r, c)
  | _, _ => ([], carry)
  end.
(** [a + b + cin]: the sum's limbs and the carry out. *)
Definition add256 (a b : U256) (cin : Z) : U256 * Z :=
  let '(r, c) := add_limbs (limbs a) (limbs b) cin in (of_limbs r, c).

(** One row of the schoolbook product: [out] is the cursor at [out + i]. *)
Fixpoint mul_row (x : Z) (b out : list Z) (carry : Z) : list Z :=
  match b, out with
  | y :: b, o :: out =>
      let t := x * y + o + carry in u64 t :: mul_row x b out (Z.shiftr t 64)
  | [], o :: out => u64 (o + carry) :: out
  | _, [] => []
  end.
Fixpoint mul_rows (a b out : list Z) : list Z :=
  match a with
  | [] => out
  | x :: a =>
      match mul_row x b out 0 with
      | o :: out => o :: mul_rows a b out
      | [] => []
      end
  end.
(** [a * b + c] on 512 bits: low and high half. *)
Definition arith256 (a b c : U256) : U256 * U256 :=
  let out := mul_rows (limbs a) (limbs b) (replicate 8 0) in
  let out := (add_limbs out (limbs c ++ replicate 4 0) 0).1 in
  (of_limbs (take 4 out), of_limbs (drop 4 out)).

(** The working remainder of the long divisions: [r <<= 1], [r[0] |= bit],
    [r >= m], [r -= m]. *)
Fixpoint shl1 (r : list Z) (carry : Z) : list Z :=
  match r with
  | [] => []
  | x :: r => Z.lor (u64 (Z.shiftl x 1)) carry :: shl1 r (Z.shiftr x 63)
  end.
Definition or_bit (r : list Z) (bit : Z) : list Z :=
  match r with [] => [] | x :: r => Z.lor x bit :: r end.
Definition bit_at (a : list Z) (i : nat) : Z :=
  Z.land (Z.shiftr (nth (i / 64) a 0) (Z.of_nat (i mod 64))) 1.
Fixpoint ge_limbs (a b : list Z) : bool :=
  match a, b with
  | x :: a, y :: b => if y <? x then true else if x <? y then false else ge_limbs a b
  | _, _ => true
  end.
(** [r >= m] for a remainder longer than [m]: a high limb set, or the low ones. *)
Definition ge_m (r m : list Z) : bool :=
  existsb (λ x, negb (x =? 0)) (drop (length m) r) ||
  ge_limbs (reverse (take (length m) r)) (reverse m).
Fixpoint sub_limbs (r m : list Z) (borrow : Z) : list Z :=
  match r with
  | [] => []
  | x :: r =>
      let y := match m with y :: _ => y | [] => 0 end in
      let t := x - y - borrow in
      u64 t :: sub_limbs r (tail m) (Z.land (Z.shiftr t 64) 1)
  end.

(** One step: shift a bit in, subtract when possible. *)
Definition div_step (m r : list Z) (bit : Z) : list Z * bool :=
  let r := or_bit (shl1 r 0) bit in
  if ge_m r m then (sub_limbs r m 0, true) else (r, false).

(** The loop over the bits [i-1 .. 0] of [num]: remainder and quotient bits. *)
Fixpoint div_loop (num m : list Z) (i : nat) (r q : list Z) : list Z * list Z :=
  match i with
  | O => (r, q)
  | S i =>
      let '(r, taken) := div_step m r (bit_at num i) in
      let q := if taken : bool
               then alter (λ w, Z.lor w (Z.shiftl 1 (Z.of_nat (i mod 64)))) (i / 64)%nat q else q in
      div_loop num m i r q
  end.

Definition mod512 (num m : list Z) : U256 :=
  of_limbs (div_loop num m 512 (replicate 8 0) []).1.

Definition arith256_mod (a b c m : U256) : U256 :=
  let '(dl, dh) := arith256 a b c in mod512 (limbs dl ++ limbs dh) (limbs m).

(** Significant limbs, at least one. *)
Fixpoint limbs_len_from (n : nat) (x : list Z) : nat :=
  match n with
  | O | S O => 1
  | S n' => if nth n' x 0 =? 0 then limbs_len_from n' x else n
  end.
Definition limbs_len (x : list Z) : nat := limbs_len_from 4 x.

(** [fcall_bigint_div] on [a]'s and [b]'s significant limbs; the quotient and the
    remainder are read back as 4 limbs, zero beyond their lengths. *)
Definition fcall_bigint_div (a b : list Z) : list Z * list Z :=
  let '(r, q) := div_loop a b (length a * 64) (replicate (length b + 1) 0)
                   (replicate (length a) 0) in
  (q, take (length b) r).

Definition mul_low (a b : U256) : U256 := (arith256 a b zero).1.

Definition udivmod (a b : U256) : U256 * U256 :=
  let '(q, r) := fcall_bigint_div (take (limbs_len (limbs a)) (limbs a))
                   (take (limbs_len (limbs b)) (limbs b)) in
  (of_limbs q, of_limbs r).

(** ** Arithmetic opcodes: the value left in the result slot *)

(** The carry loop of ADD's first fast path: only while a carry is pending. *)
Fixpoint carry_up (carry : bool) (l : list Z) : list Z :=
  match l with
  | [] => []
  | x :: l' =>
      if carry then let v := u64 (x + 1) in v :: carry_up (v =? 0) l' else l
  end.
(** The borrow loop of SUB. *)
Fixpoint borrow_up (borrow : bool) (l : list Z) : list Z :=
  match l with
  | [] => []
  | x :: l => if borrow then u64 (x - 1) :: borrow_up (x =? 0) l else x :: borrow_up false l
  end.

Definition op_add (a b : U256) : U256 :=
  if high_zero a then
    if negb (l0 a =? 0) then
      let t := l0 b in let r := u64 (t + l0 a) in
      of_limbs (r :: carry_up (r <? t) [l1 b; l2 b; l3 b])
    else b
  else if high_zero b then
    if l0 b =? 0 then a else
    let t := l0 a in let r := u64 (t + l0 b) in
    of_limbs (r :: carry_up (r <? t) [l1 a; l2 a; l3 a])
  else (add256 a b 0).1.

Definition op_mul (a b : U256) : U256 := mul_low a b.

Definition op_sub (a b : U256) : U256 :=
  if high_zero b then
    if l0 b =? 0 then a else
    of_limbs (u64 (l0 a - l0 b) :: borrow_up (l0 a <? l0 b) [l1 a; l2 a; l3 a])
  else
    (add256 a (mkU256 (not64 (l0 b)) (not64 (l1 b)) (not64 (l2 b)) (not64 (l3 b))) 1).1.

Definition op_div (a b : U256) : U256 :=
  if u256_is_zero b then zero else (udivmod a b).1.
Definition op_mod (a b : U256) : U256 :=
  if u256_is_zero b then zero else (udivmod a b).2.

Definition ones64 : Z := 2 ^ 64 - 1.

Definition op_sdiv (a b : U256) : U256 :=
  if u256_is_zero b then zero else
  let na := u256_sign a in let nb := u256_sign b in
  let a_is_min := (l0 a =? 0) && (l1 a =? 0) && (l2 a =? 0) && (l3 a =? 0x8000000000000000) in
  let b_is_neg1 := (l0 b =? ones64) && (l1 b =? ones64) && (l2 b =? ones64) && (l3 b =? ones64) in
  if a_is_min && b_is_neg1 then a else
  let ua := if na then u256_neg a else a in
  let ub := if nb then u256_neg b else b in
  let q := (udivmod ua ub).1 in
  if xorb na nb then u256_neg q else q.

Definition op_smod (a b : U256) : U256 :=
  if u256_is_zero b then zero else
  let na := u256_sign a in
  let ua := if na then u256_neg a else a in
  let ub := if u256_sign b then u256_neg b else b in
  let r := (udivmod ua ub).2 in
  if na then u256_neg r else r.

Definition one : U256 := mkU256 1 0 0 0.

Definition op_addmod (a b m : U256) : U256 :=
  if u256_is_zero m then zero else arith256_mod a one b m.
Definition op_mulmod (a b m : U256) : U256 :=
  if u256_is_zero m then zero else arith256_mod a b zero m.

(** [__builtin_clzll] (of a nonzero word). *)
Definition clzll (x : Z) : Z := 63 - Z.log2 x.

(** EXP: the highest set bit of the exponent, -1 for zero. *)
Definition exp_top (e : U256) : Z :=
  if negb (l3 e =? 0) then 3 * 64 + (63 - clzll (l3 e)) else
  if negb (l2 e =? 0) then 2 * 64 + (63 - clzll (l2 e)) else
  if negb (l1 e =? 0) then 1 * 64 + (63 - clzll (l1 e)) else
  if negb (l0 e =? 0) then 0 * 64 + (63 - clzll (l0 e)) else -1.
Definition exp_byte_len (e : U256) : Z :=
  let top := exp_top e in if top <? 0 then 0 else top / 8 + 1.

(** Square-and-multiply over the bits [i-1 .. 0] of the exponent. *)
Fixpoint exp_loop (base : U256) (e : list Z) (i : nat) (result : U256) : U256 :=
  match i with
  | O => result
  | S i =>
      let result := mul_low result result in
      let result := if bit_at e i =? 1 then mul_low result base else result in
      exp_loop base e i result
  end.
Definition op_exp (base e : U256) : U256 :=
  exp_loop base (limbs e) (Z.to_nat (exp_top e + 1)) one.

Definition op_signextend (i x : U256) : U256 :=
  if high_zero i && (l0 i <=? 30) then
    let bit := l0 i * 8 + 7 in
    let limb := Z.to_nat (Z.shiftr bit 6) in let off := Z.land bit 63 in
    let lx := limbs x in
    let w := nth limb lx 0 in
    let sign := Z.testbit w off in
    let low_mask := if off =? 63 then ones64 else u64 (Z.shiftl 1 (off + 1)) - 1 in
    if sign then of_limbs (take limb lx ++ Z.lor w (not64 low_mask) :: replicate (3 - limb) ones64)
    else of_limbs (take limb lx ++ Z.land w low_mask :: replicate (3 - limb) 0)
  else x.

(** ** Comparison and bitwise opcodes *)

Definition bool_word (v : bool) : U256 := if v then one else zero.
Definition slt (a b : U256) : bool :=
  let sa := u256_sign a in let sb := u256_sign b in
  if xorb sa sb then sa else u256_lt a b.

(** Shifts by [n] bits: limb [k] of the result collects two limbs of [a]. *)
Definition limb_at (a : U256) (k : Z) : Z := if k <? 0 then 0 else nth (Z.to_nat k) (limbs a) 0.
Definition shl (a : U256) (n : Z) : U256 :=
  if 256 <=? n then zero else
  let w := n / 64 in let b := n mod 64 in
  let limb k :=
    Z.lor (u64 (Z.shiftl (limb_at a (k - w)) b))
          (if b =? 0 then 0 else Z.shiftr (limb_at a (k - w - 1)) (64 - b)) in
  mkU256 (limb 0) (limb 1) (limb 2) (limb 3).
Definition shr (a : U256) (n : Z) : U256 :=
  if 256 <=? n then zero else
  let w := n / 64 in let b := n mod 64 in
  let limb k :=
    Z.lor (Z.shiftr (limb_at a (k + w)) b)
          (if b =? 0 then 0 else u64 (Z.shiftl (limb_at a (k + w + 1)) (64 - b))) in
  mkU256 (limb 0) (limb 1) (limb 2) (limb 3).
Definition all_ones : U256 := mkU256 ones64 ones64 ones64 ones64.
Definition or256 (a b : U256) : U256 :=
  mkU256 (Z.lor (l0 a) (l0 b)) (Z.lor (l1 a) (l1 b)) (Z.lor (l2 a) (l2 b)) (Z.lor (l3 a) (l3 b)).
Definition sar (a : U256) (n : Z) : U256 :=
  let neg := u256_sign a in
  if 256 <=? n then (if neg then all_ones else zero) else
  let r := shr a n in
  if neg && negb (n =? 0) then or256 r (shl all_ones (256 - n)) else r.

Definition low_scalar (v : U256) : Z :=
  if negb (Z.lor (Z.lor (Z.lor (l1 v) (l2 v)) (l3 v)) (Z.land (l0 v) (not64 0xFF)) =? 0) then 256
  else Z.land (l0 v) 0xFF.

(** The slot as its 32 bytes in memory (least significant first), and back. *)
Definition to_mem (v : U256) : bytes :=
  le_bytes 8 (l0 v) ++ le_bytes 8 (l1 v) ++ le_bytes 8 (l2 v) ++ le_bytes 8 (l3 v).
Definition of_mem (b : bytes) : U256 :=
  mkU256 (load_u64 b 0) (load_u64 b 8) (load_u64 b 16) (load_u64 b 24).

Definition byte_shl (v : U256) (k : Z) : U256 :=
  of_mem (replicate (Z.to_nat k) Byte.x00 ++ take (Z.to_nat (32 - k)) (to_mem v)).
Definition byte_shr (v : U256) (k : Z) : U256 :=
  of_mem (drop (Z.to_nat k) (to_mem v) ++ replicate (Z.to_nat k) Byte.x00).
Definition mem_sign (v : U256) : bool :=
  negb (Z.land (b2z (nth 31 (to_mem v) Byte.x00)) 0x80 =? 0).
Definition byte_sar (v : U256) (k : Z) : U256 :=
  let fill := if mem_sign v then Byte.xff else Byte.x00 in
  of_mem (drop (Z.to_nat k) (to_mem v) ++ replicate (Z.to_nat k) fill).

Definition op_lt (a b : U256) : U256 := bool_word (u256_lt a b).
Definition op_gt (a b : U256) : U256 := bool_word (u256_lt b a).
Definition op_slt (a b : U256) : U256 := bool_word (slt a b).
Definition op_sgt (a b : U256) : U256 := bool_word (slt b a).
Definition op_eq (a b : U256) : U256 := bool_word (u256_eq a b).
Definition op_iszero (a : U256) : U256 :=
  bool_word ((l0 a =? 0) && (l1 a =? 0) && (l2 a =? 0) && (l3 a =? 0)).
Definition op_and (a b : U256) : U256 :=
  mkU256 (Z.land (l0 b) (l0 a)) (Z.land (l1 b) (l1 a)) (Z.land (l2 b) (l2 a)) (Z.land (l3 b) (l3 a)).
Definition op_or (a b : U256) : U256 := or256 b a.
Definition op_xor (a b : U256) : U256 :=
  mkU256 (Z.lxor (l0 b) (l0 a)) (Z.lxor (l1 b) (l1 a)) (Z.lxor (l2 b) (l2 a)) (Z.lxor (l3 b) (l3 a)).
Definition op_not (a : U256) : U256 :=
  mkU256 (not64 (l0 a)) (not64 (l1 a)) (not64 (l2 a)) (not64 (l3 a)).
Definition op_clz (a : U256) : U256 :=
  let n := if negb (l3 a =? 0) then clzll (l3 a) else
           if negb (l2 a =? 0) then 64 + clzll (l2 a) else
           if negb (l1 a =? 0) then 128 + clzll (l1 a) else
           if negb (l0 a =? 0) then 192 + clzll (l0 a) else 256 in
  mkU256 n 0 0 0.
Definition op_byte (i x : U256) : U256 :=
  let idx := low_scalar i in
  if idx <? 32 then mkU256 (b2z (nth (Z.to_nat (31 - idx)) (to_mem x) Byte.x00)) 0 0 0 else zero.
Definition op_shl (s v : U256) : U256 :=
  let n := low_scalar s in
  if 256 <=? n then zero else if n =? 0 then v else
  if n mod 8 =? 0 then byte_shl v (n / 8) else shl v n.
Definition op_shr (s v : U256) : U256 :=
  let n := low_scalar s in
  if 256 <=? n then zero else if n =? 0 then v else
  if n mod 8 =? 0 then byte_shr v (n / 8) else shr v n.
Definition op_sar (s v : U256) : U256 :=
  let n := low_scalar s in
  if 256 <=? n then
    of_mem (replicate 32 (if mem_sign v then Byte.xff else Byte.x00))
  else if n =? 0 then v else
  if n mod 8 =? 0 then byte_sar v (n / 8) else sar v n.

(** The value opcodes by arity, as the dispatch loop binds them (0x01..0x1e). *)
Inductive alu1 := ISZERO | NOT | CLZ.
Inductive alu2 :=
| ADD | MUL | SUB | DIV | SDIV | MOD | SMOD | EXP | SIGNEXTEND
| LT | GT | SLT | SGT | EQ | AND | OR | XOR | BYTE | SHL | SHR | SAR.
Inductive alu3 := ADDMOD | MULMOD.

Definition run_alu1 (o : alu1) : U256 → U256 :=
  match o with ISZERO => op_iszero | NOT => op_not | CLZ => op_clz end.
Definition run_alu2 (o : alu2) : U256 → U256 → U256 :=
  match o with
  | ADD => op_add | MUL => op_mul | SUB => op_sub | DIV => op_div | SDIV => op_sdiv
  | MOD => op_mod | SMOD => op_smod | EXP => op_exp | SIGNEXTEND => op_signextend
  | LT => op_lt | GT => op_gt | SLT => op_slt | SGT => op_sgt | EQ => op_eq
  | AND => op_and | OR => op_or | XOR => op_xor | BYTE => op_byte
  | SHL => op_shl | SHR => op_shr | SAR => op_sar
  end.
Definition run_alu3 (o : alu3) : U256 → U256 → U256 → U256 :=
  match o with ADDMOD => op_addmod | MULMOD => op_mulmod end.

(** ** Values *)

Definition wf (x : U256) : Prop := Forall in_u64 (limbs x).
Fixpoint lval (l : list Z) : Z :=
  match l with [] => 0 | x :: l => x + 2 ^ 64 * lval l end.
Definition val (x : U256) : Z := lval (limbs x).
Definition of_val (z : Z) : U256 :=
  mkU256 (u64 z) (u64 (Z.shiftr z 64)) (u64 (Z.shiftr z 128)) (u64 (Z.shiftr z 192)).

End U256.
