(* ===== verification/Alu.v ===== *)
(** Correctness of the 256-bit arithmetic of [U256.v]: every limb routine computes
    its integer definition, and every arithmetic, comparison and bitwise opcode of
    the interpreter is its EVM definition modulo 2^256. *)

From stdpp Require Import base numbers list.
From coqutil Require Import Z.ZLib Z.bitblast.
From S2P Require Import Prelude U256.

Module Alu.
Import U256.

(** ** Limb lists *)

Definition B : Z := 2 ^ 64.
Definition wfl (l : list Z) : Prop := Forall in_u64 l.
Definition Bn (n : nat) : Z := B ^ Z.of_nat n.

Lemma Bn_pos n : 0 < Bn n.
Proof. unfold Bn, B. apply Z.pow_pos_nonneg; lia. Qed.
Lemma Bn_S n : Bn (S n) = B * Bn n.
Proof. unfold Bn. rewrite Nat2Z.inj_succ, Z.pow_succ_r; lia. Qed.
Lemma Bn_2 n : Bn n = 2 ^ (64 * Z.of_nat n).
Proof. unfold Bn, B. rewrite <- Z.pow_mul_r by lia. f_equal. Qed.
Lemma Bn_add n m : Bn (n + m) = Bn n * Bn m.
Proof. unfold Bn. rewrite Nat2Z.inj_add, Z.pow_add_r; lia. Qed.

Lemma u64_range x : in_u64 (u64 x).
Proof. unfold in_u64, u64. apply Z.mod_pos_bound. lia. Qed.
Lemma u64_split x : x = B * Z.shiftr x 64 + u64 x.
Proof. unfold u64, B. rewrite Z.shiftr_div_pow2 by lia. apply Z.div_mod. lia. Qed.
Lemma u64_small x : in_u64 x → u64 x = x.
Proof. unfold in_u64, u64. intros. apply Z.mod_small. lia. Qed.

Lemma lval_app a b : lval (a ++ b) = lval a + Bn (length a) * lval b.
Proof.
  induction a as [|x a IH]; cbn [app lval length].
  - unfold Bn. cbn. lia.
  - rewrite IH, Bn_S. unfold B. ring.
Qed.

Lemma lval_bound l : wfl l → 0 ≤ lval l < Bn (length l).
Proof.
  induction 1 as [|x l Hx Hl IH]; cbn [lval length]; [unfold Bn; cbn; lia|].
  rewrite Bn_S. unfold in_u64, B in *. nia.
Qed.

Lemma lval_zeros n : lval (replicate n 0) = 0.
Proof. induction n as [|n IH]; cbn [replicate lval]; [done|]. rewrite IH. lia. Qed.

Lemma wfl_zeros n : wfl (replicate n 0).
Proof. apply Forall_replicate. unfold in_u64. lia. Qed.

Lemma lval_inj a b : length a = length b → wfl a → wfl b → lval a = lval b → a = b.
Proof.
  revert b. induction a as [|x a IH]; intros [|y b]; cbn [length lval]; try done.
  intros Hl Ha Hb E. inversion Ha as [|? ? Hx Ha']; inversion Hb as [|? ? Hy Hb']; subst.
  unfold in_u64 in *.
  assert (x = y ∧ lval a = lval b) as [-> E2] by (split; nia).
  f_equal. apply IH; [lia|done|done|done].
Qed.

Lemma lval_testbit l i :
  wfl l → Z.testbit (lval l) (Z.of_nat i) = Z.testbit (nth (i / 64) l 0) (Z.of_nat (i mod 64)).
Proof.
  intros H. revert i. induction H as [|x l Hx Hl IH]; intros i; cbn [lval].
  { rewrite Z.bits_0. destruct (i / 64)%nat; by rewrite Z.bits_0. }
  unfold in_u64 in Hx. rewrite Z.add_comm, Z.mul_comm.
  destruct (Nat.lt_ge_cases i 64) as [Hi|Hi].
  - rewrite Nat.div_small, Nat.mod_small by done. cbn [nth].
    rewrite <- (Z.mod_pow2_bits_low _ 64) by lia.
    rewrite Z.add_comm, Z.mod_add, Z.mod_small by lia. done.
  - assert (E : i = (64 + (i - 64))%nat) by lia. rewrite E at 2 3.
    set (k := (i - 64)%nat) in *. change (64 + k)%nat with (1 * 64 + k)%nat.
    rewrite Nat.div_add_l by done.
    replace ((1 * 64 + k) mod 64)%nat with (k mod 64)%nat by (by rewrite Nat.add_comm, Nat.Div0.mod_add).
    cbn [nth Nat.add]. rewrite <- IH. replace (Z.of_nat i) with (Z.of_nat (i - 64) + 64) by lia.
    rewrite <- Z.div_pow2_bits by lia. rewrite Z.div_add_l by lia.
    rewrite (Z.div_small x) by lia. by rewrite Z.add_0_r.
Qed.

(** Bits from the position on are those of the number. *)
Lemma bit_at_val a i : wfl a → bit_at a i = Z.b2z (Z.testbit (lval a) (Z.of_nat i)).
Proof.
  intros H. unfold bit_at. rewrite lval_testbit by done.
  change 1 with (Z.ones 1) at 1. rewrite Z.land_ones by lia.
  rewrite <- Z.bit0_mod, Z.shiftr_spec by lia. f_equal.
Qed.

(** ** Addition *)

Lemma add_limbs_spec a b c :
  length a = length b → wfl a → wfl b → 0 ≤ c ≤ 1 →
  let '(r, c') := add_limbs a b c in
  lval r + Bn (length a) * c' = lval a + lval b + c ∧ wfl r ∧ length r = length a ∧ 0 ≤ c' ≤ 1.
Proof.
  revert b c. induction a as [|x a IH]; intros [|y b] c; cbn [length]; try done.
  { intros _ _ _ Hc. cbn. unfold Bn. cbn. split; [lia|]. split; [constructor|]. split; [done|lia]. }
  intros Hl Ha Hb Hc. inversion Ha as [|? ? Hx Ha']; inversion Hb as [|? ? Hy Hb']; subst.
  cbn [add_limbs]. pose proof (u64_split (x + y + c)) as E. pose proof (u64_range (x + y + c)) as Hr.
  set (k := Z.shiftr (x + y + c) 64) in *. assert (Hk : 0 ≤ k ≤ 1).
  { unfold in_u64, B in *. lia. }
  specialize (IH b k ltac:(lia) Ha' Hb' Hk). destruct (add_limbs a b k) as [r c'].
  destruct IH as (IH & Hw & Hlen & Hc'). cbn [lval length]. rewrite Bn_S.
  split; [unfold B in *; nia|]. split; [by constructor|]. split; [lia|done].
Qed.

Lemma val_of_limbs l : (length l ≤ 4)%nat → val (of_limbs l) = lval l.
Proof.
  intros H. do 5 (destruct l as [|? l]; cbn in H |- *; [by lia|]). lia.
Qed.
Lemma wf_of_limbs l : wfl l → wf (of_limbs l).
Proof.
  intros H. assert (Hn : ∀ i, in_u64 (nth i l 0)).
  { induction H as [|x l Hx Hl IH]; intros [|i]; cbn; auto; unfold in_u64; lia. }
  unfold wf, of_limbs, limbs. do 4 (constructor; [apply Hn|]). constructor.
Qed.
Lemma of_limbs_limbs x : of_limbs (limbs x) = x.
Proof. by destruct x. Qed.
Lemma val_bound x : wf x → 0 ≤ val x < 2 ^ 256.
Proof. intros H. pose proof (lval_bound _ H) as Hb. rewrite Bn_2 in Hb. exact Hb. Qed.
Lemma val_inj x y : wf x → wf y → val x = val y → x = y.
Proof.
  intros Hx Hy E. rewrite <- (of_limbs_limbs x), <- (of_limbs_limbs y). f_equal.
  by apply lval_inj.
Qed.

Lemma wfl_limbs x : wf x → wfl (limbs x).
Proof. done. Qed.

Lemma lval_mod l n : wfl l → length l = n → lval l = lval l mod Bn n.
Proof. intros Hl <-. symmetry. apply Z.mod_small, lval_bound, Hl. Qed.

(** A list of [n] limbs whose value differs from [v] by a multiple of [Bn n]. *)
Lemma lval_mod_eq l n v k :
  wfl l → length l = n → lval l + Bn n * k = v → lval l = v mod Bn n.
Proof.
  intros Hl <- <-. rewrite Z.add_comm, Z.mul_comm, Z.add_comm, Z.mod_add by (pose proof (Bn_pos (length l)); lia).
  by apply lval_mod.
Qed.

Lemma Bn_4 : Bn 4 = 2 ^ 256.
Proof. done. Qed.

Lemma add256_spec a b cin :
  wf a → wf b → 0 ≤ cin ≤ 1 →
  wf (add256 a b cin).1 ∧ val (add256 a b cin).1 = (val a + val b + cin) mod 2 ^ 256.
Proof.
  intros Ha Hb Hc. unfold add256.
  pose proof (add_limbs_spec (limbs a) (limbs b) cin eq_refl Ha Hb Hc) as H.
  destruct (add_limbs _ _ _) as [r c]. destruct H as (E & Hw & Hl & _). cbn [fst].
  split; [by apply wf_of_limbs|]. rewrite val_of_limbs by (rewrite Hl; done).
  rewrite <- Bn_4. eapply lval_mod_eq; [done|done|exact E].
Qed.

(** ** Multiplication *)

Lemma mul_row_spec x b out c :
  in_u64 x → wfl b → wfl out → in_u64 c → (length b < length out)%nat → nth (length b) out 0 = 0 →
  lval (mul_row x b out c) = lval out + x * lval b + c ∧ wfl (mul_row x b out c) ∧
  length (mul_row x b out c) = length out ∧
  drop (S (length b)) (mul_row x b out c) = drop (S (length b)) out.
Proof.
  intros Hx Hb. revert out c. induction Hb as [|y b Hy Hb IH]; intros [|o out] c Ho Hc Hlen Hz;
    cbn [length nth mul_row] in *; try lia.
  - inversion Ho; subst. rewrite u64_small by done. cbn. split; [lia|]. split; [by constructor|done].
  - inversion Ho as [|? ? Ho1 Ho2]; subst.
    pose proof (u64_split (x * y + o + c)) as E. pose proof (u64_range (x * y + o + c)) as Hr.
    set (k := Z.shiftr (x * y + o + c) 64) in *.
    assert (Hk : in_u64 k).
    { unfold in_u64, B in *. assert (x * y ≤ (2 ^ 64 - 1) * (2 ^ 64 - 1)) by nia. nia. }
    destruct (IH out k Ho2 Hk ltac:(lia) Hz) as (Ev & Hw & Hl & Hd).
    cbn [lval length drop]. rewrite Ev, Hl. split; [unfold B in *; lia|].
    split; [by constructor|]. split; [done|exact Hd].
Qed.

Lemma mul_rows_spec a b out :
  wfl a → wfl b → wfl out → length out = (length a + length b)%nat →
  drop (length b) out = replicate (length a) 0 →
  lval (mul_rows a b out) = lval out + lval a * lval b ∧ wfl (mul_rows a b out) ∧
  length (mul_rows a b out) = length out.
Proof.
  intros Ha Hb. revert out. induction Ha as [|x a Hx Ha IH]; intros out Ho Hl Hd; cbn [mul_rows].
  { cbn. split; [lia|done]. }
  cbn [length replicate] in Hl, Hd.
  assert (Hz : nth (length b) out 0 = 0).
  { rewrite <- (Nat.add_0_r (length b)), <- nth_skipn. change (@skipn Z) with (@drop Z).
    by rewrite Hd. }
  destruct (mul_row_spec x b out 0 Hx Hb Ho ltac:(unfold in_u64; lia) ltac:(lia) Hz)
    as (Ev & Hw & Hlen & Hdr).
  destruct (mul_row x b out 0) as [|o out'] eqn:Er; cbn [length] in Hlen; [lia|].
  inversion Hw as [|? ? Hwo Hwo']; subst. cbn [drop] in Hdr.
  destruct (IH out' Hwo') as (Ev' & Hw' & Hl'); [lia| |].
  { rewrite Hdr. change (S (length b)) with (1 + length b)%nat. rewrite Nat.add_comm, <- drop_drop, Hd.
    done. }
  cbn [lval length] in *. split; [nia|]. split; [by constructor|lia].
Qed.

Lemma arith256_spec a b c :
  wf a → wf b → wf c →
  let '(dl, dh) := arith256 a b c in
  wf dl ∧ wf dh ∧ val dl + 2 ^ 256 * val dh = val a * val b + val c.
Proof.
  intros Ha Hb Hc. unfold arith256.
  destruct (mul_rows_spec (limbs a) (limbs b) (replicate 8 0) Ha Hb (wfl_zeros 8) eq_refl eq_refl)
    as (Ev & Hw & Hl). set (out := mul_rows _ _ _) in *. rewrite lval_zeros in Ev.
  assert (Hwc : wfl (limbs c ++ replicate 4 0)) by (apply Forall_app; split; [done|apply wfl_zeros]).
  pose proof (add_limbs_spec out (limbs c ++ replicate 4 0) 0 ltac:(rewrite Hl; done) Hw Hwc ltac:(lia)) as H.
  destruct (add_limbs out _ 0) as [r k]. destruct H as (E & Hr & Hlr & Hk). cbn [fst].
  rewrite lval_app, lval_zeros in E. change (lval (limbs c)) with (val c) in E.
  change (lval (limbs a)) with (val a) in Ev. change (lval (limbs b)) with (val b) in Ev.
  pose proof (val_bound _ Ha). pose proof (val_bound _ Hb). pose proof (val_bound _ Hc).
  rewrite Hl in E, Hlr. cbn [length] in Hlr.
  rewrite length_replicate, Bn_2 in E. change (64 * Z.of_nat 8) with 512 in E.
  assert (Hsplit : lval r = lval (take 4 r) + 2 ^ 256 * lval (drop 4 r)).
  { rewrite <- (take_drop 4 r) at 1. rewrite lval_app, length_take, Hlr. done. }
  assert (Ht : wfl (take 4 r)) by by apply Forall_take.
  assert (Hd : wfl (drop 4 r)) by by apply Forall_drop.
  split; [by apply wf_of_limbs|]. split; [by apply wf_of_limbs|].
  assert (E1 : val (of_limbs (take 4 r)) = lval (take 4 r))
    by (apply val_of_limbs; rewrite length_take; lia).
  assert (E2 : val (of_limbs (drop 4 r)) = lval (drop 4 r))
    by (apply val_of_limbs; rewrite length_drop, Hlr; done).
  rewrite E1, E2, <- Hsplit.
  pose proof (lval_bound r Hr) as Hb'. rewrite Hlr, length_replicate, Bn_2 in Hb'.
  change (64 * Z.of_nat 8) with 512 in Hb'.
  assert (val a * val b + val c < 2 ^ 512) by nia. nia.
Qed.

Lemma mul_low_spec a b :
  wf a → wf b → wf (mul_low a b) ∧ val (mul_low a b) = (val a * val b) mod 2 ^ 256.
Proof.
  intros Ha Hb. unfold mul_low. pose proof (arith256_spec a b zero Ha Hb (wfl_zeros 4)) as H.
  destruct (arith256 a b zero) as [dl dh]. destruct H as (Hl & Hh & E). cbn [fst].
  split; [done|]. change (val zero) with 0 in E. rewrite Z.add_0_r in E. rewrite <- E.
  rewrite Z.mul_comm, Z.mod_add, Z.mod_small by (done || by apply val_bound). done.
Qed.

(** ** Comparison *)

Lemma lval_reverse_cons x a : lval (reverse (x :: a)) = lval (reverse a) + Bn (length a) * x.
Proof. rewrite reverse_cons, lval_app, length_reverse. cbn. lia. Qed.

Lemma wfl_reverse a : wfl a → wfl (reverse a).
Proof. apply Forall_reverse. Qed.

Lemma lt_limbs_spec a b :
  length a = length b → wfl a → wfl b → lt_limbs a b = (lval (reverse a) <? lval (reverse b)).
Proof.
  revert b. induction a as [|x a IH]; intros [|y b]; try done.
  intros Hl Ha Hb. inversion Ha as [|? ? Hx Ha']; inversion Hb as [|? ? Hy Hb']; subst.
  cbn [lt_limbs length] in *. injection Hl as Hl. rewrite !lval_reverse_cons, <- Hl.
  pose proof (lval_bound _ (wfl_reverse _ Ha')) as Ba. pose proof (lval_bound _ (wfl_reverse _ Hb')) as Bb.
  rewrite length_reverse in Ba, Bb. rewrite <- Hl in Bb. set (N := Bn (length a)) in *.
  pose proof (Bn_pos (length a)).
  destruct (Z.eqb_spec x y) as [->|Hne]; cbn [negb].
  - rewrite IH by done. apply Bool.eq_iff_eq_true. rewrite !Z.ltb_lt. lia.
  - apply Bool.eq_iff_eq_true. rewrite !Z.ltb_lt. split; intros; nia.
Qed.

Lemma ge_limbs_spec a b :
  length a = length b → wfl a → wfl b → ge_limbs a b = (lval (reverse b) <=? lval (reverse a)).
Proof.
  revert b. induction a as [|x a IH]; intros [|y b]; try done.
  intros Hl Ha Hb. inversion Ha as [|? ? Hx Ha']; inversion Hb as [|? ? Hy Hb']; subst.
  cbn [ge_limbs length] in *. injection Hl as Hl. rewrite !lval_reverse_cons, <- Hl.
  pose proof (lval_bound _ (wfl_reverse _ Ha')) as Ba. pose proof (lval_bound _ (wfl_reverse _ Hb')) as Bb.
  rewrite length_reverse in Ba, Bb. rewrite <- Hl in Bb. set (N := Bn (length a)) in *.
  pose proof (Bn_pos (length a)).
  destruct (Z.ltb_spec y x); [symmetry; apply Z.leb_le; nia|].
  destruct (Z.ltb_spec x y); [symmetry; apply Z.leb_gt; nia|].
  assert (x = y) as -> by lia. rewrite IH by done.
  apply Bool.eq_iff_eq_true. rewrite !Z.leb_le. lia.
Qed.

Lemma some_nonzero l : wfl l → existsb (λ x, negb (x =? 0)) l = negb (lval l =? 0).
Proof.
  induction 1 as [|x l Hx Hl IH]; [done|]. cbn [existsb lval]. rewrite IH.
  pose proof (lval_bound l Hl) as [H0 _]. unfold in_u64 in Hx.
  destruct (Z.eqb_spec x 0), (Z.eqb_spec (lval l) 0); cbn;
    symmetry; rewrite ?negb_true_iff, ?negb_false_iff, ?Z.eqb_eq, ?Z.eqb_neq; lia.
Qed.

Lemma ge_m_spec r m :
  (length m ≤ length r)%nat → wfl r → wfl m → ge_m r m = (lval m <=? lval r).
Proof.
  intros Hl Hr Hm. unfold ge_m. rewrite some_nonzero by by apply Forall_drop.
  rewrite ge_limbs_spec by (rewrite ?length_reverse, ?length_take; try lia;
    apply wfl_reverse; (done || by apply Forall_take)).
  rewrite !reverse_involutive.
  assert (E : lval r = lval (take (length m) r) + Bn (length m) * lval (drop (length m) r)).
  { rewrite <- (take_drop (length m) r) at 1. rewrite lval_app, length_take_le by done. done. }
  pose proof (lval_bound _ Hm) as Bm.
  pose proof (lval_bound (take (length m) r) ltac:(by apply Forall_take)) as Bt.
  pose proof (lval_bound (drop (length m) r) ltac:(by apply Forall_drop)) as [Bd _].
  rewrite E. destruct (Z.eqb_spec (lval (drop (length m) r)) 0) as [->|Hd]; cbn [negb orb].
  - f_equal. lia.
  - symmetry. apply Z.leb_le. nia.
Qed.

(** ** The division step *)

Lemma u64_even x : u64 (2 * x) mod 2 = 0.
Proof.
  unfold u64. change (2 ^ 64) with (2 * 2 ^ 63). rewrite Z.mul_mod_distr_l, Z.mul_comm by lia.
  apply Z.mod_mul. lia.
Qed.

Lemma lor_low x c : 0 ≤ c ≤ 1 → Z.lor (u64 (Z.shiftl x 1)) c = u64 (2 * x) + c.
Proof.
  intros Hc. rewrite Z.shiftl_mul_pow2 by lia. replace (x * 2 ^ 1) with (2 * x) by lia.
  pose proof (u64_even x) as E. pose proof (Z.div_mod (u64 (2 * x)) 2 ltac:(lia)) as D.
  assert (E1 : u64 (2 * x) = Z.shiftl (u64 (2 * x) / 2) 1) by (rewrite Z.shiftl_mul_pow2; lia).
  rewrite E1 at 1. rewrite (lor_shiftl 1) by (change (2 ^ 1) with 2; lia). lia.
Qed.

Lemma shl1_spec r c :
  wfl r → 0 ≤ c ≤ 1 → wfl (shl1 r c) ∧ length (shl1 r c) = length r ∧
  lval (shl1 r c) = (2 * lval r + c) mod Bn (length r).
Proof.
  intros Hr. revert c. induction Hr as [|x r Hx Hr IH]; intros c Hc.
  { cbn. split; [constructor|]. split; [done|]. unfold Bn. cbn. by rewrite Z.mod_1_r. }
  cbn [shl1 length]. rewrite lor_low by done.
  assert (Hk : 0 ≤ Z.shiftr x 63 ≤ 1).
  { rewrite Z.shiftr_div_pow2 by lia. unfold in_u64 in Hx. split; [apply Z.div_pos; lia|].
    assert (x / 2 ^ 63 < 2); [|lia]. apply Z.div_lt_upper_bound; lia. }
  destruct (IH _ Hk) as (Hw & Hl & Ev).
  assert (Ex : 2 * x = B * Z.shiftr x 63 + u64 (2 * x)).
  { unfold u64, B. rewrite Z.shiftr_div_pow2 by lia.
    rewrite (Z.div_mod (2 * x) (2 ^ 64)) at 1 by lia. f_equal. f_equal.
    change (2 ^ 64) with (2 * 2 ^ 63). by rewrite Z.div_mul_cancel_l. }
  assert (Hu : in_u64 (u64 (2 * x) + c)).
  { pose proof (u64_even x). pose proof (u64_range (2 * x)) as [? ?].
    unfold in_u64 in *. change (2 ^ 64) with 18446744073709551616 in *. Z.to_euclidean_division_equations. lia. }
  split; [by constructor|]. split; [lia|]. cbn [lval].
  eapply (lval_mod_eq (u64 (2 * x) + c :: shl1 r (Z.shiftr x 63)) (S (length r)) _
    ((2 * lval r + Z.shiftr x 63) / Bn (length r))); [by constructor|cbn; lia|].
  cbn [lval]. rewrite Ev. pose proof (Bn_pos (length r)).
  pose proof (Z.div_mod (2 * lval r + Z.shiftr x 63) (Bn (length r)) ltac:(lia)) as D.
  rewrite Bn_S. set (q := (2 * lval r + Z.shiftr x 63) / Bn (length r)) in *.
  set (rm := (2 * lval r + Z.shiftr x 63) mod Bn (length r)) in *. cbn [lval]. unfold B in *. nia.
Qed.

Lemma or_bit_shl1 r bit : or_bit (shl1 r 0) bit = shl1 r bit.
Proof. destruct r as [|x r]; [done|]. cbn. by rewrite Z.lor_0_r. Qed.

Lemma borrow_bit t : - B ≤ t < B → Z.land (Z.shiftr t 64) 1 = - Z.shiftr t 64.
Proof.
  intros Ht. rewrite Z.shiftr_div_pow2 by lia. unfold B in *.
  assert (t / 2 ^ 64 = -1 ∨ t / 2 ^ 64 = 0) as [-> | ->]; [|done|done].
  assert (-1 ≤ t / 2 ^ 64) by (apply Z.div_le_lower_bound; lia).
  assert (t / 2 ^ 64 < 1) by (apply Z.div_lt_upper_bound; lia). lia.
Qed.

Lemma sub_limbs_spec r m c :
  wfl r → wfl m → (length m ≤ length r)%nat → 0 ≤ c ≤ 1 →
  wfl (sub_limbs r m c) ∧ length (sub_limbs r m c) = length r ∧
  lval (sub_limbs r m c) = (lval r - lval m - c) mod Bn (length r).
Proof.
  intros Hr. revert m c. induction Hr as [|x r Hx Hr IH]; intros m c Hm Hl Hc.
  { destruct m; [|cbn in Hl; lia]. cbn. unfold Bn. cbn. rewrite Z.mod_1_r. split; [constructor|done]. }
  cbn [sub_limbs length].
  assert (Hy : in_u64 (match m with y :: _ => y | [] => 0 end)).
  { destruct m; [unfold in_u64; lia|by inversion Hm]. }
  assert (Em : lval m = match m with y :: _ => y | [] => 0 end + B * lval (tail m)) by (by destruct m).
  set (y := match m with y :: _ => y | [] => 0 end) in *. set (t := x - y - c).
  assert (Ht : - B ≤ t < B) by (unfold t, in_u64, B in *; lia).
  rewrite borrow_bit by done. pose proof (u64_split t) as E.
  assert (Hk : 0 ≤ - Z.shiftr t 64 ≤ 1).
  { pose proof (u64_range t) as R. unfold in_u64, B in *. lia. }
  destruct (IH (tail m) (- Z.shiftr t 64)) as (Hw & Hlen & Ev); [by destruct m; [|inversion Hm]| |done|].
  { destruct m; cbn in *; lia. }
  split; [constructor; [apply u64_range|done]|]. split; [by rewrite Hlen|].
  eapply (lval_mod_eq (u64 t :: sub_limbs r (tail m) (- Z.shiftr t 64)) (S (length r)) _
    ((lval r - lval (tail m) - - Z.shiftr t 64) / Bn (length r)));
    [constructor; [apply u64_range|done]|cbn; lia|].
  cbn [lval]. rewrite Ev, Em. pose proof (Bn_pos (length r)).
  pose proof (Z.div_mod (lval r - lval (tail m) - - Z.shiftr t 64) (Bn (length r)) ltac:(lia)) as D.
  rewrite Bn_S. set (q := (lval r - lval (tail m) - - Z.shiftr t 64) / Bn (length r)) in *.
  set (rm := (lval r - lval (tail m) - - Z.shiftr t 64) mod Bn (length r)) in *.
  unfold B, t in *. nia.
Qed.

Lemma div_step_spec m r bit :
  wfl m → wfl r → (length m < length r)%nat → 0 ≤ bit ≤ 1 → 0 ≤ lval r < lval m →
  let '(r', taken) := div_step m r bit in
  wfl r' ∧ length r' = length r ∧ lval r' = (2 * lval r + bit) mod lval m ∧
  taken = (lval m <=? 2 * lval r + bit) ∧ (2 * lval r + bit) / lval m = Z.b2z taken.
Proof.
  intros Hm Hr Hl Hb Hlt. unfold div_step. rewrite or_bit_shl1.
  destruct (shl1_spec r bit Hr Hb) as (Hw & Hlen & Ev).
  pose proof (lval_bound _ Hm) as Bm.
  assert (Hfit : 2 * lval r + bit < Bn (length r)).
  { pose proof (Bn_pos (length m)).
    assert (Bn (length r) = Bn (length m) * (B * Bn (length r - length m - 1))) as ->.
    { rewrite <- Bn_S, <- Bn_add. f_equal. lia. }
    pose proof (Bn_pos (length r - length m - 1)). unfold B in *. nia. }
  rewrite Z.mod_small in Ev by lia. rewrite ge_m_spec by (done || lia). rewrite Ev.
  destruct (Z.leb_spec (lval m) (2 * lval r + bit)) as [Hge|Hge].
  - destruct (sub_limbs_spec (shl1 r bit) m 0 Hw Hm ltac:(lia) ltac:(lia)) as (Hw' & Hl' & Es).
    rewrite Es, Ev, Z.sub_0_r, Hlen. rewrite Z.mod_small by lia.
    assert (Hq : (2 * lval r + bit) / lval m = 1)
      by (symmetry; apply (Z.div_unique _ _ _ (2 * lval r + bit - lval m)); lia).
    split; [done|]. split; [congruence|]. split; [|done]. rewrite Z.mod_eq, Hq by lia. lia.
  - rewrite Z.mod_small, Z.div_small by lia. done.
Qed.

(** Bits above the current position. *)
Lemma shiftr_step N i :
  Z.shiftr N (Z.of_nat i) = 2 * Z.shiftr N (Z.of_nat (S i)) + Z.b2z (Z.testbit N (Z.of_nat i)).
Proof.
  rewrite Nat2Z.inj_succ, <- Z.add_1_r, <- Z.shiftr_shiftr by lia.
  rewrite (Z.div_mod (Z.shiftr N (Z.of_nat i)) 2) at 1 by lia.
  rewrite (Z.shiftr_div_pow2 (Z.shiftr N _) 1) by lia. f_equal.
  rewrite <- Z.bit0_mod. f_equal. rewrite Z.shiftr_spec by lia. f_equal.
Qed.

(** The remainder of the bit-by-bit division. *)
Lemma div_loop_rem num m i r q :
  wfl num → wfl m → wfl r → (length m < length r)%nat → 0 < lval m →
  lval r = Z.shiftr (lval num) (Z.of_nat i) mod lval m →
  let r' := (div_loop num m i r q).1 in
  wfl r' ∧ length r' = length r ∧ lval r' = lval num mod lval m.
Proof.
  intros Hn Hm. revert r q. induction i as [|i IH]; intros r q Hr Hl Hpos Er.
  { cbn. rewrite Er, Z.shiftr_0_r. done. }
  cbn [div_loop]. rewrite bit_at_val by done.
  set (bit := Z.b2z (Z.testbit (lval num) (Z.of_nat i))).
  assert (Hb : 0 ≤ bit ≤ 1) by (unfold bit; destruct (Z.testbit _ _); cbn; lia).
  assert (Hlt : 0 ≤ lval r < lval m) by (rewrite Er; apply Z.mod_pos_bound; lia).
  pose proof (div_step_spec m r bit Hm Hr Hl Hb Hlt) as H.
  destruct (div_step m r bit) as [r1 taken]. destruct H as (Hw1 & Hl1 & Ev1 & _).
  destruct (IH r1 (if taken then alter (λ w, Z.lor w (Z.shiftl 1 (Z.of_nat (i mod 64)))) (i / 64)%nat q
                   else q) Hw1 ltac:(lia) Hpos) as (? & ? & ?); [|split; [done|split; [lia|done]]].
  rewrite Ev1, Er, (shiftr_step _ i). fold bit.
  rewrite <- Z.add_mod_idemp_l, Z.mul_mod_idemp_r, Z.add_mod_idemp_l by lia. done.
Qed.

(** Setting a clear bit of the quotient. *)
Lemma set_bit_val q i :
  wfl q → (i / 64 < length q)%nat → Z.testbit (lval q) (Z.of_nat i) = false →
  let q' := alter (λ w, Z.lor w (Z.shiftl 1 (Z.of_nat (i mod 64)))) (i / 64)%nat q in
  wfl q' ∧ length q' = length q ∧ lval q' = lval q + 2 ^ Z.of_nat i.
Proof.
  intros Hq Hlen Hbit. cbn zeta. rewrite lval_testbit in Hbit by done.
  pose proof (Nat.mod_upper_bound i 64 ltac:(lia)) as Hmod.
  pose proof (Nat.div_mod_eq i 64) as Hi.
  set (k := (i / 64)%nat) in *. set (j := (i mod 64)%nat) in *. clearbody k j.
  destruct (lookup_lt_is_Some_2 q k Hlen) as [w Hw].
  rewrite (nth_lookup_Some q k 0 w Hw) in Hbit.
  assert (Hwr : in_u64 w) by (by eapply Forall_lookup_1).
  assert (Hor : Z.lor w (Z.shiftl 1 (Z.of_nat j)) = w + 2 ^ Z.of_nat j).
  { rewrite Z.shiftl_1_l. apply Z.or_to_plus. apply Z.bits_inj'. intros n Hn.
    rewrite Z.land_spec, Z.pow2_bits_eqb, Z.bits_0 by lia.
    destruct (Z.eqb_spec (Z.of_nat j) n) as [<-|]; [by rewrite Hbit|apply andb_false_r]. }
  assert (Hnew : in_u64 (w + 2 ^ Z.of_nat j)).
  { rewrite <- Hor. unfold in_u64. split; [apply Z.lor_nonneg; split; [apply Hwr|apply Z.shiftl_nonneg; lia]|].
    apply Z.log2_lt_cancel. rewrite Z.log2_lor by (try apply Hwr; apply Z.shiftl_nonneg; lia).
    rewrite Z.shiftl_1_l, !Z.log2_pow2 by lia. apply Z.max_lub_lt; [|lia].
    destruct (Z.eq_dec w 0) as [->|]; [cbn; lia|]. apply Z.log2_lt_pow2; unfold in_u64 in Hwr; lia. }
  assert (Hk : length (take k q) = k) by (rewrite length_take; lia).
  pose proof (take_drop_middle q k w Hw) as Eq.
  assert (Ea : alter (λ w, Z.lor w (Z.shiftl 1 (Z.of_nat j))) k q =
               take k q ++ (w + 2 ^ Z.of_nat j) :: drop (S k) q).
  { rewrite <- Eq at 1. rewrite <- Hk at 1. rewrite <- (Nat.add_0_r (length (take k q))), alter_app_r. cbn.
    by rewrite Hor. }
  rewrite Ea. rewrite <- Eq in Hq. apply Forall_app in Hq as [Hq1 Hq2].
  apply Forall_cons in Hq2 as [Hq3 Hq4].
  split; [apply Forall_app; split; [done|by constructor]|].
  split; [rewrite <- Eq at 3; rewrite !length_app; done|].
  rewrite <- Eq at 3. rewrite !lval_app. cbn [lval]. rewrite Hk.
  replace (2 ^ Z.of_nat i) with (Bn k * 2 ^ Z.of_nat j); [lia|].
  rewrite Bn_2, <- Z.pow_add_r by lia. f_equal. lia.
Qed.

(** The quotient of the bit-by-bit division. *)
Lemma div_loop_quo num m i r q :
  wfl num → wfl m → wfl r → wfl q → (length m < length r)%nat → 0 < lval m →
  (i ≤ 64 * length q)%nat →
  lval r = Z.shiftr (lval num) (Z.of_nat i) mod lval m →
  lval q = 2 ^ Z.of_nat i * (Z.shiftr (lval num) (Z.of_nat i) / lval m) →
  let q' := (div_loop num m i r q).2 in
  wfl q' ∧ length q' = length q ∧ lval q' = lval num / lval m.
Proof.
  intros Hn Hm. revert r q. induction i as [|i IH]; intros r q Hr Hq Hl Hpos Hi Er Eq.
  { cbn. rewrite Eq, Z.shiftr_0_r, Z.mul_1_l. done. }
  cbn [div_loop]. rewrite bit_at_val by done.
  set (bit := Z.b2z (Z.testbit (lval num) (Z.of_nat i))).
  assert (Hb : 0 ≤ bit ≤ 1) by (unfold bit; destruct (Z.testbit _ _); cbn; lia).
  assert (Hlt : 0 ≤ lval r < lval m) by (rewrite Er; apply Z.mod_pos_bound; lia).
  pose proof (div_step_spec m r bit Hm Hr Hl Hb Hlt) as H.
  destruct (div_step m r bit) as [r1 taken]. destruct H as (Hw1 & Hl1 & Ev1 & _ & Eq1).
  assert (Hr1 : lval r1 = Z.shiftr (lval num) (Z.of_nat i) mod lval m).
  { rewrite Ev1, Er, (shiftr_step _ i). fold bit.
    rewrite <- Z.add_mod_idemp_l, Z.mul_mod_idemp_r, Z.add_mod_idemp_l by lia. done. }
  assert (Hdiv : Z.shiftr (lval num) (Z.of_nat i) / lval m =
    2 * (Z.shiftr (lval num) (Z.of_nat (S i)) / lval m) + Z.b2z taken).
  { rewrite (shiftr_step _ i), <- Eq1, Er. fold bit.
    pose proof (Z.div_mod (Z.shiftr (lval num) (Z.of_nat (S i))) (lval m) ltac:(lia)) as D.
    set (S' := Z.shiftr (lval num) (Z.of_nat (S i))) in *. rewrite D at 1.
    replace (2 * (lval m * (S' / lval m) + S' mod lval m) + bit)
      with (2 * (S' / lval m) * lval m + (2 * (S' mod lval m) + bit)) by lia.
    by rewrite Z.div_add_l by lia. }
  assert (Hpow : 2 ^ Z.of_nat (S i) = 2 * 2 ^ Z.of_nat i)
    by (rewrite Nat2Z.inj_succ, Z.pow_succ_r; lia).
  destruct taken; cbn [Z.b2z] in Hdiv.
  - destruct (set_bit_val q i Hq) as (Hw2 & Hl2 & Ev2).
    + apply Nat.Div0.div_lt_upper_bound. lia.
    + rewrite Eq, Hpow. replace (2 * 2 ^ Z.of_nat i * _) with
        ((2 * (Z.shiftr (lval num) (Z.of_nat (S i)) / lval m)) * 2 ^ Z.of_nat i) by lia.
      rewrite Z.mul_pow2_bits by lia. rewrite Z.sub_diag. apply Z.testbit_even_0.
    + destruct (IH r1 _ Hw1 Hw2 ltac:(lia) Hpos ltac:(lia) Hr1) as (? & ? & ?).
      * rewrite Ev2, Eq, Hdiv, Hpow. lia.
      * split; [done|]. split; [lia|done].
  - apply (IH r1 q Hw1 Hq ltac:(lia) Hpos ltac:(lia) Hr1). rewrite Eq, Hdiv, Hpow. lia.
Qed.

Lemma low_part x lo hi N : x = lo + N * hi → 0 ≤ lo → 0 ≤ hi → 0 < N → x < N → lo = x.
Proof. intros -> ????. assert (hi = 0) as -> by nia. lia. Qed.

Lemma bigint_div_spec a b :
  wfl a → wfl b → 0 < lval b →
  let '(q, r) := fcall_bigint_div a b in
  wfl q ∧ length q = length a ∧ lval q = lval a / lval b ∧
  wfl r ∧ length r = length b ∧ lval r = lval a mod lval b.
Proof.
  intros Ha Hb Hpos. unfold fcall_bigint_div.
  pose proof (lval_bound _ Ha) as Ba.
  assert (Hs : Z.shiftr (lval a) (Z.of_nat (length a * 64)) = 0).
  { rewrite Z.shiftr_div_pow2 by lia. apply Z.div_small. rewrite Bn_2 in Ba.
    replace (Z.of_nat (length a * 64)) with (64 * Z.of_nat (length a)) by lia. done. }
  destruct (div_loop_rem a b (length a * 64) (replicate (length b + 1) 0) (replicate (length a) 0))
    as (Hw & Hl & Er); try done; [apply wfl_zeros|rewrite length_replicate; lia| |].
  { rewrite lval_zeros, Hs. by rewrite Z.mod_0_l by lia. }
  destruct (div_loop_quo a b (length a * 64) (replicate (length b + 1) 0) (replicate (length a) 0))
    as (Hwq & Hlq & Eq); try done; try apply wfl_zeros; try (rewrite length_replicate; lia).
  { rewrite lval_zeros, Hs. by rewrite Z.mod_0_l by lia. }
  { rewrite lval_zeros, Hs, Z.div_0_l by lia. lia. }
  destruct (div_loop _ _ _ _ _) as [r q]. cbn [fst snd] in *.
  rewrite length_replicate in Hl, Hlq.
  split; [done|]. split; [done|]. split; [done|]. split; [by apply Forall_take|].
  split; [rewrite length_take; lia|].
  assert (E : lval r = lval (take (length b) r) + Bn (length b) * lval (drop (length b) r)).
  { rewrite <- (take_drop (length b) r) at 1. rewrite lval_app, length_take_le by lia. done. }
  assert (Hd : wfl (drop (length b) r)) by by apply Forall_drop.
  pose proof (lval_bound _ Hb) as Bb. pose proof (lval_bound _ Hd) as [Bd _].
  pose proof (lval_bound (take (length b) r) ltac:(by apply Forall_take)) as [Bt _].
  pose proof (Z.mod_pos_bound (lval a) (lval b) Hpos). rewrite <- Er.
  apply (low_part _ _ _ _ E Bt Bd); lia.
Qed.

(** Dropping zero top limbs keeps the value. *)
Lemma limbs_len_spec x :
  wf x → let n := limbs_len (limbs x) in
  wfl (take n (limbs x)) ∧ lval (take n (limbs x)) = val x ∧ (n ≤ 4)%nat.
Proof.
  intros Hx. cbn zeta. split; [by apply Forall_take|]. destruct x as [a b c d].
  unfold limbs_len, val, limbs. cbn [l0 l1 l2 l3 limbs_len_from nth].
  destruct (Z.eqb_spec d 0) as [->|]; [|done]. destruct (Z.eqb_spec c 0) as [->|]; [|cbn; split; lia].
  destruct (Z.eqb_spec b 0) as [->|]; cbn; split; lia.
Qed.

Lemma udivmod_spec a b :
  wf a → wf b → val b ≠ 0 →
  let '(q, r) := udivmod a b in
  wf q ∧ val q = val a / val b ∧ wf r ∧ val r = val a mod val b.
Proof.
  intros Ha Hb Hne. unfold udivmod.
  destruct (limbs_len_spec a Ha) as (Wa & Ea & La). destruct (limbs_len_spec b Hb) as (Wb & Eb & Lb).
  pose proof (val_bound _ Hb).
  pose proof (bigint_div_spec _ _ Wa Wb ltac:(rewrite Eb; lia)) as H'.
  destruct (fcall_bigint_div _ _) as [q r]. destruct H' as (Wq & Lq & Eq & Wr & Lr & Er).
  rewrite length_take in Lq, Lr. rewrite Ea, Eb in *.
  split; [by apply wf_of_limbs|]. rewrite !val_of_limbs by lia.
  split; [done|]. split; [by apply wf_of_limbs|done].
Qed.

Lemma arith256_mod_spec a b c m :
  wf a → wf b → wf c → wf m → val m ≠ 0 →
  wf (arith256_mod a b c m) ∧ val (arith256_mod a b c m) = (val a * val b + val c) mod val m.
Proof.
  intros Ha Hb Hc Hm Hne. unfold arith256_mod. pose proof (arith256_spec a b c Ha Hb Hc) as H.
  destruct (arith256 a b c) as [dl dh]. destruct H as (Hl & Hh & E).
  set (num := limbs dl ++ limbs dh). assert (Hn : wfl num) by (by apply Forall_app).
  assert (En : lval num = val a * val b + val c).
  { unfold num. rewrite lval_app. change (lval (limbs dl)) with (val dl).
    change (lval (limbs dh)) with (val dh). change (Bn (length (limbs dl))) with (2 ^ 256). lia. }
  pose proof (val_bound _ Hm) as Bm. unfold mod512.
  destruct (div_loop_rem num (limbs m) 512 (replicate 8 0) []) as (Hw & Hlen & Er);
    [done|done|apply wfl_zeros|cbn; lia| | |].
  - change (lval (limbs m)) with (val m). lia.
  - rewrite lval_zeros. pose proof (lval_bound _ Hn) as Bnum. rewrite Bn_2 in Bnum.
    rewrite Z.shiftr_div_pow2, Z.div_small by (done || lia).
    rewrite Z.mod_0_l; [done|]. change (lval (limbs m)) with (val m). lia.
  - rewrite En in Er. change (lval (limbs m)) with (val m) in Er.
    set (r := (div_loop num (limbs m) 512 (replicate 8 0) []).1) in *. clearbody r.
    rewrite length_replicate in Hlen. split; [by apply wf_of_limbs|].
    assert (Esplit : lval r = lval (take 4 r) + 2 ^ 256 * lval (drop 4 r)).
    { rewrite <- (take_drop 4 r) at 1. rewrite lval_app, length_take_le by lia. done. }
    assert (Hof : val (of_limbs r) = lval (take 4 r)).
    { do 5 (destruct r as [|? r]; [done|]). done. }
    rewrite Hof. pose proof (Z.mod_pos_bound (val a * val b + val c) (val m) ltac:(lia)).
    pose proof (lval_bound (drop 4 r) ltac:(by apply Forall_drop)) as [Bd _].
    pose proof (lval_bound (take 4 r) ltac:(by apply Forall_take)) as [Bt _].
    rewrite <- Er. apply (low_part _ _ _ _ Esplit Bt Bd); lia.
Qed.

(** ** Value predicates and negation *)

Ltac limbs4 x := let a := fresh "a" in let b := fresh "b" in let c := fresh "c" in
  let d := fresh "d" in destruct x as [a b c d].

Lemma val_unfold x : val x = l0 x + 2 ^ 64 * l1 x + 2 ^ 128 * l2 x + 2 ^ 192 * l3 x.
Proof. unfold val, limbs. cbn [lval]. lia. Qed.
Lemma wf_inv x : wf x → in_u64 (l0 x) ∧ in_u64 (l1 x) ∧ in_u64 (l2 x) ∧ in_u64 (l3 x).
Proof. intros H. unfold wf, limbs in H. rewrite !Forall_cons in H. tauto. Qed.
Lemma wf_intro a b c d : in_u64 a → in_u64 b → in_u64 c → in_u64 d → wf (mkU256 a b c d).
Proof. intros. do 4 (constructor; [done|]). constructor. Qed.
Lemma in_u64_0 : in_u64 0.
Proof. unfold in_u64. lia. Qed.
Lemma wf_zero : wf zero.
Proof. by apply wf_intro. Qed.
Lemma wf_one : wf one.
Proof. by apply wf_intro. Qed.

Lemma lor_zero a b : 0 ≤ a → 0 ≤ b → (Z.lor a b =? 0) = (a =? 0) && (b =? 0).
Proof.
  intros Ha Hb. apply Bool.eq_iff_eq_true. rewrite andb_true_iff, !Z.eqb_eq. apply Z.lor_eq_0_iff.
Qed.

Lemma is_zero_spec x : wf x → u256_is_zero x = (val x =? 0).
Proof.
  intros (H0 & H1 & H2 & H3)%wf_inv. rewrite val_unfold. unfold in_u64, u256_is_zero in *.
  rewrite !lor_zero by (repeat (apply Z.lor_nonneg; split); lia).
  apply Bool.eq_iff_eq_true. rewrite !andb_true_iff, !Z.eqb_eq. lia.
Qed.

Lemma high_zero_spec x : wf x → high_zero x = (val x <? 2 ^ 64).
Proof.
  intros (H0 & H1 & H2 & H3)%wf_inv. rewrite val_unfold. unfold in_u64, high_zero in *.
  rewrite !lor_zero by (repeat (apply Z.lor_nonneg; split); lia).
  apply Bool.eq_iff_eq_true. rewrite !andb_true_iff, !Z.eqb_eq, Z.ltb_lt. lia.
Qed.

Lemma high_zero_val x : wf x → high_zero x = true → val x = l0 x.
Proof.
  intros Hx H. pose proof (wf_inv _ Hx) as (H0 & H1 & H2 & H3). rewrite high_zero_spec, Z.ltb_lt in H by done.
  rewrite val_unfold in *. unfold in_u64 in *. lia.
Qed.

Lemma eq_spec a b : wf a → wf b → u256_eq a b = (val a =? val b).
Proof.
  intros Ha Hb. apply Bool.eq_iff_eq_true. unfold u256_eq. rewrite !andb_true_iff, !Z.eqb_eq. split.
  - intros [[[E0 E1] E2] E3]. rewrite !val_unfold. congruence.
  - intros E%val_inj; [by subst|done|done].
Qed.

Lemma lt_spec a b : wf a → wf b → u256_lt a b = (val a <? val b).
Proof.
  intros Ha Hb. unfold u256_lt.
  rewrite lt_limbs_spec by (done || by apply wfl_reverse). by rewrite !reverse_involutive.
Qed.

Lemma sign_spec x : wf x → u256_sign x = (2 ^ 255 <=? val x).
Proof.
  intros (H0 & H1 & H2 & H3)%wf_inv. rewrite val_unfold. unfold u256_sign, in_u64 in *.
  rewrite Z.shiftr_div_pow2 by lia.
  apply Bool.eq_iff_eq_true. rewrite negb_true_iff, Z.eqb_neq, Z.leb_le.
  pose proof (Z.div_mod (l3 x) (2 ^ 63) ltac:(lia)) as D.
  pose proof (Z.mod_pos_bound (l3 x) (2 ^ 63) ltac:(lia)).
  assert (0 ≤ l3 x / 2 ^ 63) by (apply Z.div_pos; lia). split; intros; nia.
Qed.

Lemma not64_spec x : in_u64 x → not64 x = 2 ^ 64 - 1 - x.
Proof.
  intros H. unfold not64, in_u64, u64 in *. rewrite <- Z.sub_1_r || idtac.
  replace (Z.lnot x) with (- x - 1) by (unfold Z.lnot; lia).
  symmetry. apply (Z.mod_unique _ _ (-1)); lia.
Qed.

Lemma neg_limbs_spec c l :
  wfl l → 0 ≤ c ≤ 1 → wfl (neg_limbs c l) ∧ length (neg_limbs c l) = length l ∧
  lval (neg_limbs c l) = (c - 1 - lval l) mod Bn (length l).
Proof.
  intros Hl. revert c. induction Hl as [|x l Hx Hl IH]; intros c Hc.
  { cbn. unfold Bn. cbn. rewrite Z.mod_1_r. split; [constructor|done]. }
  cbn [neg_limbs length]. rewrite not64_spec by done. set (v := u64 (2 ^ 64 - 1 - x + c)).
  assert (Hv : in_u64 v) by apply u64_range.
  assert (Hk : ∃ k, 0 ≤ k ≤ 1 ∧ (if v <? c then 1 else 0) = k ∧ v = 2 ^ 64 * (1 - k) - 1 - x + c).
  { unfold in_u64 in *. destruct (Z.eq_dec (2 ^ 64 - 1 - x + c) (2 ^ 64)) as [E|E].
    - exists 1. unfold v. rewrite E. unfold u64. rewrite Z.mod_same by lia. split; [lia|].
      split; [by rewrite (proj2 (Z.ltb_lt 0 c)) by lia|lia].
    - exists 0. unfold v. rewrite u64_small by (unfold in_u64; lia).
      split; [lia|]. split; [|lia]. rewrite (proj2 (Z.ltb_ge _ _)) by lia. done. }
  destruct Hk as (k & Hk & -> & Ev). destruct (IH k Hk) as (Hw & Hlen & E).
  split; [by constructor|]. split; [lia|].
  eapply (lval_mod_eq (v :: neg_limbs k l) (S (length l)) _ ((k - 1 - lval l) / Bn (length l)));
    [by constructor|cbn; lia|].
  cbn [lval]. rewrite E, Ev, Bn_S. pose proof (Bn_pos (length l)).
  pose proof (Z.div_mod (k - 1 - lval l) (Bn (length l)) ltac:(lia)) as D.
  set (q := (k - 1 - lval l) / Bn (length l)) in *. set (rm := (k - 1 - lval l) mod Bn (length l)) in *.
  unfold B. nia.
Qed.

Lemma neg_spec x : wf x → wf (u256_neg x) ∧ val (u256_neg x) = (- val x) mod 2 ^ 256.
Proof.
  intros Hx. unfold u256_neg. destruct (neg_limbs_spec 1 (limbs x) Hx ltac:(lia)) as (Hw & Hl & E).
  split; [by apply wf_of_limbs|]. rewrite val_of_limbs by (rewrite Hl; done).
  rewrite E. change (lval (limbs x)) with (val x). change (Bn (length (limbs x))) with (2 ^ 256).
  by replace (1 - 1 - val x) with (- val x) by lia.
Qed.

(** ** ADD and SUB *)

Lemma carry_up_spec (c : bool) l :
  wfl l → wfl (carry_up c l) ∧ length (carry_up c l) = length l ∧
  lval (carry_up c l) = (lval l + Z.b2z c) mod Bn (length l).
Proof.
  intros Hl. revert c. induction Hl as [|x l Hx Hl IH]; intros c.
  { cbn. unfold Bn. cbn. rewrite Z.mod_1_r. split; [constructor|done]. }
  destruct c; cbn [carry_up].
  2:{ split; [by constructor|]. split; [done|]. rewrite Z.add_0_r. apply lval_mod; [by constructor|done]. }
  set (v := u64 (x + 1)). assert (Hv : in_u64 v) by apply u64_range.
  assert (Ev : v = x + 1 - 2 ^ 64 * Z.b2z (v =? 0)).
  { unfold in_u64 in Hx. destruct (Z.eq_dec x (2 ^ 64 - 1)) as [E|E].
    - unfold v. rewrite E. done.
    - unfold v. rewrite u64_small by (unfold in_u64; lia).
      rewrite (proj2 (Z.eqb_neq _ _)) by lia. cbn. lia. }
  destruct (IH (v =? 0)) as (Hw & Hlen & E). cbn [length].
  split; [by constructor|]. split; [lia|].
  eapply (lval_mod_eq (v :: carry_up (v =? 0) l) (S (length l)) _
    ((lval l + Z.b2z (v =? 0)) / Bn (length l))); [by constructor|cbn; lia|].
  cbn [lval]. rewrite E, Bn_S. pose proof (Bn_pos (length l)).
  pose proof (Z.div_mod (lval l + Z.b2z (v =? 0)) (Bn (length l)) ltac:(lia)) as D.
  set (q := (lval l + Z.b2z (v =? 0)) / Bn (length l)) in *.
  set (rm := (lval l + Z.b2z (v =? 0)) mod Bn (length l)) in *. unfold B. cbn [Z.b2z]. nia.
Qed.

Lemma borrow_up_spec (c : bool) l :
  wfl l → wfl (borrow_up c l) ∧ length (borrow_up c l) = length l ∧
  lval (borrow_up c l) = (lval l - Z.b2z c) mod Bn (length l).
Proof.
  intros Hl. revert c. induction Hl as [|x l Hx Hl IH]; intros c.
  { cbn. unfold Bn. cbn. rewrite Z.mod_1_r. split; [constructor|done]. }
  assert (Hv : ∃ v k, (if c then u64 (x - 1) else x) = v ∧ in_u64 v ∧ (if c then x =? 0 else false) = k ∧
    v = x - Z.b2z c + 2 ^ 64 * Z.b2z k).
  { destruct c; [|exists x, false; cbn; split; [done|]; split; [done|]; split; [done|lia]].
    exists (u64 (x - 1)), (x =? 0). split; [done|]. split; [apply u64_range|]. split; [done|].
    unfold in_u64 in Hx. destruct (Z.eqb_spec x 0) as [->|]; [done|].
    rewrite u64_small by (unfold in_u64; lia). cbn. lia. }
  destruct Hv as (v & k & E1 & Hv & E2 & Ev). destruct (IH k) as (Hw & Hlen & E).
  assert (Eb : borrow_up c (x :: l) = v :: borrow_up k l) by (destruct c; cbn; congruence).
  rewrite Eb. cbn [length]. split; [by constructor|]. split; [lia|].
  eapply (lval_mod_eq (v :: borrow_up k l) (S (length l)) _
    ((lval l - Z.b2z k) / Bn (length l))); [by constructor|cbn; lia|].
  cbn [lval]. rewrite E, Bn_S. pose proof (Bn_pos (length l)).
  pose proof (Z.div_mod (lval l - Z.b2z k) (Bn (length l)) ltac:(lia)) as D.
  set (q := (lval l - Z.b2z k) / Bn (length l)) in *.
  set (rm := (lval l - Z.b2z k) mod Bn (length l)) in *. unfold B. nia.
Qed.

(** What a value routine promises: the well-formed word of value [v]. *)
Definition denotes (x : U256) (v : Z) : Prop := wf x ∧ val x = v.

Lemma denotes_of_limbs l v : wfl l → (length l ≤ 4)%nat → lval l = v → denotes (of_limbs l) v.
Proof. intros Hw Hl <-. split; [by apply wf_of_limbs|by apply val_of_limbs]. Qed.

(** The small-operand addition: [t] is [big]'s low limb. *)
Lemma add_small big s :
  wf big → in_u64 s →
  denotes (of_limbs (u64 (l0 big + s) :: carry_up (u64 (l0 big + s) <? l0 big) [l1 big; l2 big; l3 big]))
    ((val big + s) mod 2 ^ 256).
Proof.
  intros Hb Hs. pose proof (wf_inv _ Hb) as (H0 & H1 & H2 & H3).
  set (r := u64 (l0 big + s)). assert (Hr : in_u64 r) by apply u64_range.
  assert (Er : r = l0 big + s - 2 ^ 64 * Z.b2z (r <? l0 big)).
  { unfold in_u64, r in *. pose proof (u64_split (l0 big + s)) as E. unfold B, in_u64 in *.
    destruct (Z.ltb_spec (u64 (l0 big + s)) (l0 big)); cbn; nia. }
  destruct (carry_up_spec (r <? l0 big) [l1 big; l2 big; l3 big]) as (Hw & Hl & E).
  { do 3 (constructor; [done|]). constructor. }
  apply denotes_of_limbs; [by constructor|cbn [length]; rewrite Hl; done|].
  assert (Eh : lval [l1 big; l2 big; l3 big] = l1 big + 2 ^ 64 * l2 big + 2 ^ 128 * l3 big) by (cbn [lval]; lia).
  set (hi := lval [l1 big; l2 big; l3 big]) in *. set (c := r <? l0 big) in *. cbn [length] in *.
  rewrite <- Bn_4. eapply (lval_mod_eq _ 4 _ ((hi + Z.b2z c) / Bn 3));
    [by constructor|cbn [length]; by rewrite Hl|].
  cbn [lval]. rewrite E, val_unfold.
  pose proof (Z.div_mod (hi + Z.b2z c) (Bn 3) ltac:(done)) as D.
  set (q := (hi + Z.b2z c) / Bn 3) in *. set (rm := (hi + Z.b2z c) mod Bn 3) in *.
  change (Bn 4) with (2 ^ 256). change (Bn 3) with (2 ^ 192) in *. lia.
Qed.

Lemma op_add_spec a b : wf a → wf b → denotes (op_add a b) ((val a + val b) mod 2 ^ 256).
Proof.
  intros Ha Hb. unfold op_add. destruct (high_zero a) eqn:Za.
  - pose proof (high_zero_val _ Ha Za) as Ea. destruct (Z.eqb_spec (l0 a) 0) as [E0|]; cbn [negb].
    + split; [done|]. rewrite Ea, E0, Z.add_0_l, Z.mod_small by by apply val_bound. done.
    + rewrite Ea, (Z.add_comm (l0 a) (val b)). apply add_small; [done|by apply wf_inv].
  - destruct (high_zero b) eqn:Zb.
    + pose proof (high_zero_val _ Hb Zb) as Eb. destruct (Z.eqb_spec (l0 b) 0) as [E0|].
      * split; [done|]. rewrite Eb, E0, Z.add_0_r, Z.mod_small by by apply val_bound. done.
      * rewrite Eb. apply add_small; [done|by apply wf_inv].
    + destruct (add256_spec a b 0 Ha Hb ltac:(lia)) as [? E]. split; [done|]. by rewrite E, Z.add_0_r.
Qed.

Lemma op_sub_spec a b : wf a → wf b → denotes (op_sub a b) ((val a - val b) mod 2 ^ 256).
Proof.
  intros Ha Hb. unfold op_sub. pose proof (wf_inv _ Ha) as (H0 & H1 & H2 & H3).
  destruct (high_zero b) eqn:Zb.
  - pose proof (high_zero_val _ Hb Zb) as Eb. rewrite Eb. destruct (Z.eqb_spec (l0 b) 0) as [E0|].
    { split; [done|]. rewrite E0, Z.sub_0_r, Z.mod_small by by apply val_bound. done. }
    assert (Hs : in_u64 (l0 b)) by by apply wf_inv.
    set (r := u64 (l0 a - l0 b)). assert (Hr : in_u64 r) by apply u64_range.
    assert (Er : r = l0 a - l0 b + 2 ^ 64 * Z.b2z (l0 a <? l0 b)).
    { unfold in_u64, r in *. pose proof (u64_split (l0 a - l0 b)) as E. unfold B, in_u64 in *.
      destruct (Z.ltb_spec (l0 a) (l0 b)); cbn; nia. }
    destruct (borrow_up_spec (l0 a <? l0 b) [l1 a; l2 a; l3 a]) as (Hw & Hl & E).
    { do 3 (constructor; [done|]). constructor. }
    apply denotes_of_limbs; [by constructor|cbn [length]; rewrite Hl; done|].
    assert (Eh : lval [l1 a; l2 a; l3 a] = l1 a + 2 ^ 64 * l2 a + 2 ^ 128 * l3 a) by (cbn [lval]; lia).
    set (hi := lval [l1 a; l2 a; l3 a]) in *. set (c := l0 a <? l0 b) in *. cbn [length] in *.
    rewrite <- Bn_4. eapply (lval_mod_eq _ 4 _ ((hi - Z.b2z c) / Bn 3));
      [by constructor|cbn [length]; by rewrite Hl|].
    cbn [lval]. rewrite E, val_unfold.
    pose proof (Z.div_mod (hi - Z.b2z c) (Bn 3) ltac:(done)) as D.
    set (q := (hi - Z.b2z c) / Bn 3) in *. set (rm := (hi - Z.b2z c) mod Bn 3) in *.
    change (Bn 4) with (2 ^ 256). change (Bn 3) with (2 ^ 192) in *. lia.
  - set (nb := mkU256 _ _ _ _). pose proof (wf_inv _ Hb) as (B0 & B1 & B2 & B3).
    assert (Hn : denotes nb (2 ^ 256 - 1 - val b)).
    { unfold nb. rewrite !not64_spec by done. unfold in_u64 in *. split; [apply wf_intro; unfold in_u64; lia|].
      rewrite !val_unfold. cbn [l0 l1 l2 l3]. lia. }
    destruct Hn as [Hn En]. destruct (add256_spec a nb 1 Ha Hn ltac:(lia)) as [? E].
    split; [done|]. rewrite E, En. replace (val a + (2 ^ 256 - 1 - val b) + 1)
      with (val a - val b + 1 * 2 ^ 256) by lia. by rewrite Z.mod_add by lia.
Qed.

(** ** Division and signed division *)

Lemma op_div_spec a b :
  wf a → wf b → denotes (op_div a b) (if val b =? 0 then 0 else val a / val b).
Proof.
  intros Ha Hb. unfold op_div. rewrite is_zero_spec by done.
  destruct (Z.eqb_spec (val b) 0); [by split; [apply wf_zero|]|].
  pose proof (udivmod_spec a b Ha Hb ltac:(done)) as H. destruct (udivmod a b). by destruct H as (? & ? & _).
Qed.
Lemma op_mod_spec a b :
  wf a → wf b → denotes (op_mod a b) (if val b =? 0 then 0 else val a mod val b).
Proof.
  intros Ha Hb. unfold op_mod. rewrite is_zero_spec by done.
  destruct (Z.eqb_spec (val b) 0); [by split; [apply wf_zero|]|].
  pose proof (udivmod_spec a b Ha Hb ltac:(done)) as H. destruct (udivmod a b). by destruct H as (_ & _ & ? & ?).
Qed.

(** Two's complement. *)
Definition signed (v : Z) : Z := if v <? 2 ^ 255 then v else v - 2 ^ 256.

Lemma abs_spec x :
  wf x → denotes (if u256_sign x then u256_neg x else x) (Z.abs (signed (val x))).
Proof.
  intros Hx. pose proof (val_bound _ Hx) as Bx. rewrite sign_spec by done. unfold signed.
  destruct (Z.ltb_spec (val x) (2 ^ 255)) as [H|H].
  - rewrite (proj2 (Z.leb_gt _ _)) by lia. split; [done|lia].
  - rewrite (proj2 (Z.leb_le _ _)) by lia. destruct (neg_spec x Hx) as [Hw E]. split; [done|]. rewrite E.
    symmetry. apply (Z.mod_unique _ _ (-1)); lia.
Qed.

Lemma sign_signed x : wf x → u256_sign x = (signed (val x) <? 0).
Proof.
  intros Hx. pose proof (val_bound _ Hx). rewrite sign_spec by done. unfold signed.
  destruct (Z.ltb_spec (val x) (2 ^ 255)); symmetry;
    [rewrite (proj2 (Z.leb_gt _ _)) by lia; apply Z.ltb_ge; lia
    |rewrite (proj2 (Z.leb_le _ _)) by lia; apply Z.ltb_lt; lia].
Qed.

Lemma signed_zero x : wf x → signed (val x) = 0 → val x = 0.
Proof. intros Hx%val_bound. unfold signed. case_match eqn:E; lia. Qed.

Lemma op_smod_spec a b :
  wf a → wf b →
  denotes (op_smod a b)
    (if val b =? 0 then 0 else Z.rem (signed (val a)) (signed (val b)) mod 2 ^ 256).
Proof.
  intros Ha Hb. unfold op_smod. rewrite is_zero_spec by done.
  destruct (Z.eqb_spec (val b) 0) as [|Hnz]; [by split; [apply wf_zero|]|].
  pose proof (abs_spec a Ha) as [Wa Ea]. pose proof (abs_spec b Hb) as [Wb Eb].
  set (ua := if u256_sign a then _ else _) in *. set (ub := if u256_sign b then _ else _) in *.
  assert (Hsb : signed (val b) ≠ 0) by (intros E; by apply Hnz, signed_zero).
  pose proof (udivmod_spec ua ub Wa Wb ltac:(rewrite Eb; lia)) as H. destruct (udivmod ua ub) as [q r].
  destruct H as (_ & _ & Wr & Er). cbn [snd]. rewrite Ea, Eb in Er.
  rewrite sign_signed by done. pose proof (val_bound _ Wr).
  rewrite <- Z.rem_mod_nonneg in Er by lia. 
  destruct (Z.ltb_spec (signed (val a)) 0) as [Hn|Hn].
  - destruct (neg_spec r Wr) as [Wn En]. split; [done|]. rewrite En, Er. f_equal.
    rewrite Z.rem_abs_r by lia. rewrite Z.abs_neq by lia. rewrite Z.rem_opp_l by lia. lia.
  - split; [done|]. rewrite <- (Z.mod_small (val r) (2 ^ 256)) by lia. rewrite Er. f_equal.
    rewrite Z.rem_abs_r by lia. by rewrite Z.abs_eq by lia.
Qed.

Lemma op_sdiv_spec a b :
  wf a → wf b →
  denotes (op_sdiv a b)
    (if val b =? 0 then 0 else Z.quot (signed (val a)) (signed (val b)) mod 2 ^ 256).
Proof.
  intros Ha Hb. unfold op_sdiv. rewrite is_zero_spec by done.
  destruct (Z.eqb_spec (val b) 0) as [|Hnz]; [by split; [apply wf_zero|]|].
  case_match eqn:Emin.
  { rewrite !andb_true_iff, !Z.eqb_eq in Emin. destruct Emin as [[[[A0 A1] A2] A3] [[[B0 B1] B2] B3]].
    split; [done|]. rewrite !val_unfold, A0, A1, A2, A3, B0, B1, B2, B3. done. }
  clear Emin. pose proof (abs_spec a Ha) as [Wa Ea]. pose proof (abs_spec b Hb) as [Wb Eb].
  set (ua := if u256_sign a then _ else _) in *. set (ub := if u256_sign b then _ else _) in *.
  assert (Hsb : signed (val b) ≠ 0) by (intros E; by apply Hnz, signed_zero).
  pose proof (udivmod_spec ua ub Wa Wb ltac:(rewrite Eb; lia)) as H. destruct (udivmod ua ub) as [q r].
  destruct H as (Wq & Eq & _ & _). cbn [fst]. rewrite Ea, Eb in Eq.
  rewrite !sign_signed by done. pose proof (val_bound _ Wq). pose proof (neg_spec q Wq) as [Wn En].
  rewrite <- Z.quot_div_nonneg in Eq by lia. set (x := signed (val a)) in *. set (y := signed (val b)) in *.
  destruct (Z.ltb_spec x 0), (Z.ltb_spec y 0); cbn [xorb].
  - split; [done|]. rewrite !Z.abs_neq, Z.quot_opp_opp in Eq by lia. by rewrite <- Eq, Z.mod_small.
  - split; [done|]. rewrite En, Eq, Z.abs_neq, Z.abs_eq, Z.quot_opp_l by lia. f_equal. lia.
  - split; [done|]. rewrite En, Eq, Z.abs_eq, Z.abs_neq, Z.quot_opp_r by lia. f_equal. lia.
  - split; [done|]. rewrite !Z.abs_eq in Eq by lia. by rewrite <- Eq, Z.mod_small.
Qed.

(** ** EXP *)

Lemma log2_top hi lo k :
  0 < hi → 0 ≤ k → 0 ≤ lo < 2 ^ k → Z.log2 (lo + 2 ^ k * hi) = k + Z.log2 hi.
Proof.
  intros Hh Hk Hl. apply Z.log2_unique; [pose proof (Z.log2_nonneg hi); lia|].
  destruct (Z.log2_spec hi Hh) as [L U]. pose proof (Z.log2_nonneg hi).
  replace (Z.succ (k + Z.log2 hi)) with (k + Z.succ (Z.log2 hi)) by lia.
  rewrite !Z.pow_add_r by lia. nia.
Qed.

Lemma exp_top_spec e : wf e → exp_top e = if val e =? 0 then -1 else Z.log2 (val e).
Proof.
  intros He. pose proof (wf_inv _ He) as (H0 & H1 & H2 & H3). rewrite val_unfold.
  unfold exp_top, clzll, in_u64 in *.
  destruct (Z.eqb_spec (l3 e) 0) as [->|N3]; cbn [negb].
  2:{ rewrite (proj2 (Z.eqb_neq _ _)) by lia.
      rewrite (log2_top (l3 e) (l0 e + 2 ^ 64 * l1 e + 2 ^ 128 * l2 e) 192) by lia. lia. }
  destruct (Z.eqb_spec (l2 e) 0) as [->|N2]; cbn [negb].
  2:{ rewrite (proj2 (Z.eqb_neq _ _)) by lia.
      rewrite Z.mul_0_r, Z.add_0_r, (log2_top (l2 e) (l0 e + 2 ^ 64 * l1 e) 128) by lia. lia. }
  destruct (Z.eqb_spec (l1 e) 0) as [->|N1]; cbn [negb].
  2:{ rewrite (proj2 (Z.eqb_neq _ _)) by lia.
      rewrite !Z.mul_0_r, !Z.add_0_r, (log2_top (l1 e) (l0 e) 64) by lia. lia. }
  rewrite !Z.mul_0_r, !Z.add_0_r. destruct (Z.eqb_spec (l0 e) 0); cbn [negb]; lia.
Qed.

Lemma exp_loop_spec base e i r :
  wf base → wf e → wf r → val r = val base ^ Z.shiftr (val e) (Z.of_nat i) mod 2 ^ 256 →
  denotes (exp_loop base (limbs e) i r) (val base ^ val e mod 2 ^ 256).
Proof.
  intros Hb He. revert r. induction i as [|i IH]; intros r Hr Er.
  { cbn [exp_loop]. split; [done|]. by rewrite Er, Z.shiftr_0_r. }
  cbn [exp_loop]. rewrite bit_at_val by done. change (lval (limbs e)) with (val e).
  pose proof (val_bound _ He).
  assert (0 ≤ Z.shiftr (val e) (Z.of_nat (S i))) by (apply Z.shiftr_nonneg; lia).
  destruct (mul_low_spec r r Hr Hr) as [Hs Es].
  assert (Es' : val (mul_low r r) = val base ^ (2 * Z.shiftr (val e) (Z.of_nat (S i))) mod 2 ^ 256).
  { rewrite Es, Er, <- Z.mul_mod, <- Z.pow_add_r by lia. f_equal. f_equal. lia. }
  destruct (Z.testbit (val e) (Z.of_nat i)) eqn:Eb; cbn [Z.b2z];
    [change (1 =? 1) with true|change (0 =? 1) with false]; cbv iota zeta.
  - destruct (mul_low_spec (mul_low r r) base Hs Hb) as [Hm Em]. apply IH; [done|].
    rewrite Em, Es', Z.mul_mod_idemp_l, (shiftr_step _ i), Eb, Z.pow_add_r, Z.pow_1_r by (cbn [Z.b2z]; lia). done.
  - apply IH; [done|]. rewrite Es', (shiftr_step _ i), Eb. cbn [Z.b2z]. by rewrite Z.add_0_r.
Qed.

Lemma op_exp_spec base e :
  wf base → wf e → denotes (op_exp base e) (val base ^ val e mod 2 ^ 256).
Proof.
  intros Hb He. unfold op_exp. apply exp_loop_spec; [done|done|apply wf_one|].
  rewrite exp_top_spec by done. pose proof (val_bound _ He).
  replace (Z.shiftr (val e) _) with 0; [done|]. symmetry.
  destruct (Z.eqb_spec (val e) 0) as [->|]; [done|].
  pose proof (Z.log2_nonneg (val e)). rewrite Z2Nat.id, Z.shiftr_div_pow2, Z.add_1_r by lia.
  apply Z.div_small. split; [lia|]. apply Z.log2_spec. lia.
Qed.

(** The byte length EXP's gas is charged by. *)
Lemma exp_byte_len_spec e : wf e → exp_byte_len e = (if val e =? 0 then 0 else Z.log2 (val e) / 8 + 1).
Proof.
  intros He. unfold exp_byte_len. rewrite exp_top_spec by done.
  destruct (Z.eqb_spec (val e) 0); [done|]. pose proof (Z.log2_nonneg (val e)).
  by rewrite (proj2 (Z.ltb_ge _ _)) by lia.
Qed.

(** ** Bits of a word *)

Lemma val_testbit x i :
  wf x → 0 ≤ i → Z.testbit (val x) i = Z.testbit (nth (Z.to_nat (i / 64)) (limbs x) 0) (i mod 64).
Proof.
  intros Hx Hi. rewrite <- (Z2Nat.id i) at 1 by lia. unfold val. rewrite lval_testbit by done.
  f_equal.
  - f_equal. rewrite Z2Nat.inj_div by lia. done.
  - rewrite Nat2Z.inj_mod, Z2Nat.id by lia. done.
Qed.

Lemma val_high_bits x i : wf x → 256 ≤ i → Z.testbit (val x) i = false.
Proof.
  intros Hx Hi. pose proof (val_bound _ Hx). destruct (Z.eq_dec (val x) 0) as [->|]; [apply Z.bits_0|].
  apply Z.bits_above_log2; [lia|]. assert (Z.log2 (val x) < 256); [|lia]. apply Z.log2_lt_pow2; lia.
Qed.

(** A bitwise operation limb by limb. *)
Lemma limbwise_spec (f : Z → Z → Z) (g : bool → bool → bool) a b :
  (∀ x y i, 0 ≤ i → Z.testbit (f x y) i = g (Z.testbit x i) (Z.testbit y i)) → g false false = false →
  (∀ x y, in_u64 x → in_u64 y → in_u64 (f x y)) →
  wf a → wf b →
  denotes (mkU256 (f (l0 a) (l0 b)) (f (l1 a) (l1 b)) (f (l2 a) (l2 b)) (f (l3 a) (l3 b)))
    (f (val a) (val b)).
Proof.
  intros Hf Hg Hr Ha Hb. pose proof (wf_inv _ Ha) as (A0 & A1 & A2 & A3).
  pose proof (wf_inv _ Hb) as (B0 & B1 & B2 & B3). set (x := mkU256 _ _ _ _).
  assert (Hx : wf x) by (apply wf_intro; auto). split; [done|]. apply Z.bits_inj'. intros i Hi.
  rewrite Hf by done. destruct (Z.lt_ge_cases i 256) as [Hlt|Hge].
  2:{ rewrite !val_high_bits by done. by rewrite Hg. }
  rewrite !val_testbit by done. assert (0 ≤ i mod 64) by (apply Z.mod_pos_bound; lia).
  assert (Hq : i / 64 = 0 ∨ i / 64 = 1 ∨ i / 64 = 2 ∨ i / 64 = 3).
  { assert (0 ≤ i / 64) by (apply Z.div_pos; lia). assert (i / 64 < 4) by (apply Z.div_lt_upper_bound; lia). lia. }
  destruct Hq as [->|[->|[->| ->]]]; cbn; by apply Hf.
Qed.

Lemma bitop_range f :
  (∀ x y, 0 ≤ x → 0 ≤ y → 0 ≤ f x y) →
  (∀ x y, 0 ≤ x → 0 ≤ y → Z.log2 (f x y) ≤ Z.max (Z.log2 x) (Z.log2 y)) →
  ∀ x y, in_u64 x → in_u64 y → in_u64 (f x y).
Proof.
  intros Hn Hl x y Hx Hy. unfold in_u64 in *. split; [apply Hn; lia|].
  assert (Hlog : ∀ z, 0 ≤ z < 2 ^ 64 → Z.log2 z < 64).
  { intros z Hz. destruct (Z.eq_dec z 0) as [->|]; [done|]. apply Z.log2_lt_pow2; lia. }
  specialize (Hl x y ltac:(lia) ltac:(lia)). pose proof (Hlog x Hx). pose proof (Hlog y Hy).
  destruct (Z.eq_dec (f x y) 0) as [->|]; [lia|]. apply Z.log2_lt_pow2; [|lia].
  specialize (Hn x y ltac:(lia) ltac:(lia)). lia.
Qed.

Lemma land_log2 x y : 0 ≤ x → 0 ≤ y → Z.log2 (Z.land x y) ≤ Z.max (Z.log2 x) (Z.log2 y).
Proof. intros. etrans; [by apply Z.log2_land|lia]. Qed.
Lemma lor_log2 x y : 0 ≤ x → 0 ≤ y → Z.log2 (Z.lor x y) ≤ Z.max (Z.log2 x) (Z.log2 y).
Proof. intros. by rewrite Z.log2_lor. Qed.

Lemma or256_spec a b : wf a → wf b → denotes (or256 a b) (Z.lor (val a) (val b)).
Proof.
  apply (limbwise_spec Z.lor orb); [intros; apply Z.lor_spec|done|].
  apply bitop_range; [intros; by apply Z.lor_nonneg|apply lor_log2].
Qed.
Lemma op_or_spec a b : wf a → wf b → denotes (op_or a b) (Z.lor (val a) (val b)).
Proof. intros. unfold op_or. rewrite Z.lor_comm. by apply or256_spec. Qed.
Lemma op_and_spec a b : wf a → wf b → denotes (op_and a b) (Z.land (val a) (val b)).
Proof.
  intros. rewrite Z.land_comm. apply (limbwise_spec Z.land andb); try done; [intros; apply Z.land_spec|].
  apply bitop_range; [intros; apply Z.land_nonneg; lia|apply land_log2].
Qed.
Lemma op_xor_spec a b : wf a → wf b → denotes (op_xor a b) (Z.lxor (val a) (val b)).
Proof.
  intros. rewrite Z.lxor_comm. apply (limbwise_spec Z.lxor xorb); try done; [intros; apply Z.lxor_spec|].
  apply bitop_range; [intros; apply Z.lxor_nonneg; lia|intros; by apply Z.log2_lxor].
Qed.
Lemma op_not_spec a : wf a → denotes (op_not a) (2 ^ 256 - 1 - val a).
Proof.
  intros Ha. pose proof (wf_inv _ Ha) as (A0 & A1 & A2 & A3). unfold op_not.
  rewrite !not64_spec by done. unfold in_u64 in *. split; [apply wf_intro; unfold in_u64; lia|].
  rewrite !val_unfold. cbn [l0 l1 l2 l3]. lia.
Qed.

Lemma bool_word_spec b : denotes (bool_word b) (Z.b2z b).
Proof. destruct b; (split; [by apply wf_one || apply wf_zero|done]). Qed.

Lemma slt_spec a b : wf a → wf b → slt a b = (signed (val a) <? signed (val b)).
Proof.
  intros Ha Hb. unfold slt. rewrite !sign_spec, lt_spec by done. unfold signed.
  pose proof (val_bound _ Ha). pose proof (val_bound _ Hb).
  destruct (Z.ltb_spec (val a) (2 ^ 255)), (Z.ltb_spec (val b) (2 ^ 255));
    [rewrite !(proj2 (Z.leb_gt _ _)) by lia
    |rewrite (proj2 (Z.leb_gt _ (val a))), (proj2 (Z.leb_le _ (val b))) by lia
    |rewrite (proj2 (Z.leb_le _ (val a))), (proj2 (Z.leb_gt _ (val b))) by lia
    |rewrite !(proj2 (Z.leb_le _ _)) by lia]; cbn [xorb];
    try done; symmetry; try (apply Z.ltb_lt; lia); try (apply Z.ltb_ge; lia);
    apply Bool.eq_iff_eq_true; rewrite !Z.ltb_lt; lia.
Qed.

Lemma op_iszero_spec a : wf a → denotes (op_iszero a) (Z.b2z (val a =? 0)).
Proof.
  intros Ha. unfold op_iszero. rewrite <- is_zero_spec by done.
  pose proof (wf_inv _ Ha) as (A0 & A1 & A2 & A3). unfold u256_is_zero, in_u64 in *.
  rewrite !lor_zero by (repeat (apply Z.lor_nonneg; split); lia). apply bool_word_spec.
Qed.

Lemma op_clz_spec a : wf a → denotes (op_clz a) (if val a =? 0 then 256 else 255 - Z.log2 (val a)).
Proof.
  intros Ha. pose proof (exp_top_spec a Ha) as E. unfold op_clz. set (n := if negb (l3 a =? 0) then _ else _).
  assert (En : n = 255 - exp_top a).
  { unfold n, exp_top, clzll. repeat case_match; lia. }
  rewrite E in En. assert (Hn : n = if val a =? 0 then 256 else 255 - Z.log2 (val a)) by (case_match; lia).
  assert (0 ≤ n ≤ 256).
  { rewrite Hn. pose proof (val_bound _ Ha). case_match eqn:Ez; [lia|]. apply Z.eqb_neq in Ez.
    pose proof (Z.log2_nonneg (val a)). assert (Z.log2 (val a) < 256) by (apply Z.log2_lt_pow2; lia). lia. }
  split; [apply wf_intro; try apply in_u64_0; unfold in_u64; lia|]. rewrite val_unfold, <- Hn. cbn. lia.
Qed.

(** ** Shifts by bits *)

(** Evaluate [limb_at] at a closed index. *)
Ltac limb_eval := repeat match goal with
  | |- context [limb_at ?a ?k] => let k' := eval cbv in k in lazymatch k' with
      | 0 => change (limb_at a k) with (l0 a) | 1 => change (limb_at a k) with (l1 a)
      | 2 => change (limb_at a k) with (l2 a) | 3 => change (limb_at a k) with (l3 a)
      | _ => change (limb_at a k) with 0 end
  end.

Lemma limb_at_range a k : wf a → in_u64 (limb_at a k).
Proof.
  intros Ha. unfold limb_at. case_match; [apply in_u64_0|]. pose proof (wf_inv _ Ha) as (A0 & A1 & A2 & A3).
  destruct (Z.to_nat k) as [|[|[|[|n]]]]; cbn; try done; apply in_u64_0 || (destruct n; apply in_u64_0).
Qed.

(** A limb shifted left: what stays, and what moves to the next limb. *)
Definition shl_lo (b x : Z) : Z := u64 (Z.shiftl x b).
Definition shl_hi (b x : Z) : Z := if b =? 0 then 0 else Z.shiftr x (64 - b).

Lemma shl_split b x :
  0 ≤ b < 64 → in_u64 x →
  x * 2 ^ b = 2 ^ 64 * shl_hi b x + shl_lo b x ∧ 0 ≤ shl_hi b x < 2 ^ b ∧
  ∃ k, shl_lo b x = k * 2 ^ b.
Proof.
  intros Hb Hx. unfold shl_hi, shl_lo, in_u64, u64 in *. rewrite Z.shiftl_mul_pow2 by lia.
  assert (HP : 2 ^ 64 = 2 ^ b * 2 ^ (64 - b)) by (rewrite <- Z.pow_add_r by lia; f_equal; lia).
  assert (0 < 2 ^ b) by (apply Z.pow_pos_nonneg; lia).
  assert (0 < 2 ^ (64 - b)) by (apply Z.pow_pos_nonneg; lia).
  destruct (Z.eqb_spec b 0) as [->|].
  { rewrite Z.mul_1_r, Z.mod_small by lia. split; [lia|]. split; [lia|]. exists x. lia. }
  rewrite Z.shiftr_div_pow2 by lia.
  pose proof (Z.div_mod x (2 ^ (64 - b)) ltac:(lia)) as D.
  pose proof (Z.mod_pos_bound x (2 ^ (64 - b)) ltac:(lia)) as M.
  assert (E : (x * 2 ^ b) mod 2 ^ 64 = (x mod 2 ^ (64 - b)) * 2 ^ b).
  { rewrite HP, (Z.mul_comm (2 ^ b)), Z.mul_mod_distr_r by lia. done. }
  rewrite E. split; [nia|]. split; [|by eexists].
  split; [apply Z.div_pos; lia|]. apply Z.div_lt_upper_bound; lia.
Qed.

Lemma shl_limb b x y :
  0 ≤ b < 64 → in_u64 x → in_u64 y →
  Z.lor (shl_lo b x) (shl_hi b y) = shl_lo b x + shl_hi b y ∧ in_u64 (shl_lo b x + shl_hi b y).
Proof.
  intros Hb Hx Hy. destruct (shl_split b x Hb Hx) as (_ & _ & k & Ek).
  destruct (shl_split b y Hb Hy) as (_ & Hh & _). rewrite Ek.
  split; [rewrite <- Z.shiftl_mul_pow2 by lia; rewrite lor_shiftl by lia; by rewrite Z.shiftl_mul_pow2 by lia|].
  pose proof (u64_range (Z.shiftl x b)) as R. fold (shl_lo b x) in R. rewrite Ek in R. unfold in_u64 in *.
  assert (HP : 2 ^ 64 = 2 ^ b * 2 ^ (64 - b)) by (rewrite <- Z.pow_add_r by lia; f_equal; lia).
  assert (0 < 2 ^ b) by (apply Z.pow_pos_nonneg; lia).
  assert (k < 2 ^ (64 - b)) by (apply (Z.mul_lt_mono_pos_r (2 ^ b)); lia).
  pose proof (Z.mul_le_mono_nonneg_r (k + 1) (2 ^ (64 - b)) (2 ^ b) ltac:(lia) ltac:(lia)). lia.
Qed.

Lemma shl_spec a n : wf a → 0 ≤ n < 256 → denotes (shl a n) ((val a * 2 ^ n) mod 2 ^ 256).
Proof.
  intros Ha Hn. unfold shl. rewrite (proj2 (Z.leb_gt _ _)) by lia.
  set (b := n mod 64). set (w := n / 64).
  assert (Hb : 0 ≤ b < 64) by (apply Z.mod_pos_bound; lia).
  assert (En : n = 64 * w + b) by (apply Z.div_mod; lia).
  assert (Hw : w = 0 ∨ w = 1 ∨ w = 2 ∨ w = 3).
  { assert (0 ≤ w) by (apply Z.div_pos; lia). assert (w < 4) by (apply Z.div_lt_upper_bound; lia). lia. }
  clearbody b w. cbn zeta. pose proof (wf_inv _ Ha) as (A0 & A1 & A2 & A3).
  assert (Hl : ∀ k, Z.lor (u64 (Z.shiftl (limb_at a (k - w)) b))
      (if b =? 0 then 0 else Z.shiftr (limb_at a (k - w - 1)) (64 - b)) =
    shl_lo b (limb_at a (k - w)) + shl_hi b (limb_at a (k - w - 1)) ∧
    in_u64 (shl_lo b (limb_at a (k - w)) + shl_hi b (limb_at a (k - w - 1)))).
  { intros k. apply shl_limb; [done|by apply limb_at_range..]. }
  rewrite !(proj1 (Hl _)). set (res := mkU256 _ _ _ _). assert (Hres : wf res) by (apply wf_intro; apply Hl).
  split; [done|]. pose proof (val_bound _ Hres) as Bres. clear Hl Hres. revert Bres. unfold res. clear res.
  rewrite val_unfold. cbn [l0 l1 l2 l3]. intros Bres. destruct (shl_split b (l0 a) Hb A0) as (E0 & H0 & _). destruct (shl_split b (l1 a) Hb A1) as (E1 & H1 & _).
  destruct (shl_split b (l2 a) Hb A2) as (E2 & H2 & _). destruct (shl_split b (l3 a) Hb A3) as (E3 & H3 & _).
  destruct (shl_split b 0 Hb in_u64_0) as (EZ & HZ & _).
  assert (Z0 : shl_lo b 0 = 0) by (unfold shl_lo; by rewrite Z.shiftl_0_l).
  assert (Z1 : shl_hi b 0 = 0) by (unfold shl_hi; rewrite Z.shiftr_0_l; by destruct (b =? 0)).
  unfold in_u64 in *.
  rewrite val_unfold, En, Z.pow_add_r by lia. set (P := 2 ^ b) in *.
  revert Bres. destruct Hw as [->|[->|[->| ->]]]; limb_eval; rewrite ?Z0, ?Z1; clearbody P; intros Bres.
  - apply (Z.mod_unique _ _ (shl_hi b (l3 a))); lia.
  - apply (Z.mod_unique _ _ (shl_hi b (l2 a) + l3 a * P)); lia.
  - apply (Z.mod_unique _ _ (shl_hi b (l1 a) + l2 a * P + 2 ^ 64 * (l3 a * P))); lia.
  - apply (Z.mod_unique _ _ (shl_hi b (l0 a) + l1 a * P + 2 ^ 64 * (l2 a * P) + 2 ^ 128 * (l3 a * P))); lia.
Qed.

(** A limb of the right shift: [P] times it is exact up to the bits dropped. *)
Lemma shr_limb b x y :
  0 ≤ b < 64 → in_u64 x → in_u64 y →
  let r := Z.lor (Z.shiftr x b) (if b =? 0 then 0 else u64 (Z.shiftl y (64 - b))) in
  in_u64 r ∧ 2 ^ b * r = x - x mod 2 ^ b + 2 ^ 64 * (y mod 2 ^ b).
Proof.
  intros Hb Hx Hy. cbn zeta. unfold in_u64 in *.
  destruct (Z.eqb_spec b 0) as [->|Hnz].
  { rewrite Z.lor_0_r, Z.shiftr_0_r, Z.pow_0_r, !Z.mod_1_r. lia. }
  assert (HP : 2 ^ 64 = 2 ^ b * 2 ^ (64 - b)) by (rewrite <- Z.pow_add_r by lia; f_equal; lia).
  assert (0 < 2 ^ b) by (apply Z.pow_pos_nonneg; lia).
  assert (0 < 2 ^ (64 - b)) by (apply Z.pow_pos_nonneg; lia).
  unfold u64. rewrite Z.shiftl_mul_pow2, Z.shiftr_div_pow2 by lia.
  assert (Em : (y * 2 ^ (64 - b)) mod 2 ^ 64 = y mod 2 ^ b * 2 ^ (64 - b))
    by (rewrite HP; by rewrite Z.mul_mod_distr_r by lia).
  pose proof (Z.mod_pos_bound y (2 ^ b) ltac:(lia)) as My. pose proof (Z.mod_pos_bound x (2 ^ b) ltac:(lia)) as Mx.
  pose proof (Z.div_mod x (2 ^ b) ltac:(lia)) as D.
  assert (Hq : 0 ≤ x / 2 ^ b < 2 ^ (64 - b)).
  { split; [apply Z.div_pos; lia|]. apply Z.div_lt_upper_bound; lia. }
  assert (Er : Z.lor (x / 2 ^ b) ((y * 2 ^ (64 - b)) mod 2 ^ 64) = y mod 2 ^ b * 2 ^ (64 - b) + x / 2 ^ b).
  { rewrite Em, Z.lor_comm, <- Z.shiftl_mul_pow2, lor_shiftl by lia. by rewrite Z.shiftl_mul_pow2 by lia. }
  rewrite Er. split; [|replace (x - x mod 2 ^ b) with (2 ^ b * (x / 2 ^ b)) by lia; rewrite HP; ring].
  rewrite HP.
  pose proof (Z.mul_le_mono_nonneg_r (y mod 2 ^ b + 1) (2 ^ b) (2 ^ (64 - b)) ltac:(lia) ltac:(lia)).
  pose proof (Z.mul_nonneg_nonneg (y mod 2 ^ b) (2 ^ (64 - b)) ltac:(lia) ltac:(lia)). lia.
Qed.

Lemma shr_spec a n : wf a → 0 ≤ n < 256 → denotes (shr a n) (val a / 2 ^ n).
Proof.
  intros Ha Hn. unfold shr. rewrite (proj2 (Z.leb_gt _ _)) by lia.
  set (b := n mod 64). set (w := n / 64).
  assert (Hb : 0 ≤ b < 64) by (apply Z.mod_pos_bound; lia).
  assert (En : n = 64 * w + b) by (apply Z.div_mod; lia).
  assert (Hw : w = 0 ∨ w = 1 ∨ w = 2 ∨ w = 3).
  { assert (0 ≤ w) by (apply Z.div_pos; lia). assert (w < 4) by (apply Z.div_lt_upper_bound; lia). lia. }
  clearbody b w. cbn zeta. pose proof (wf_inv _ Ha) as (A0 & A1 & A2 & A3).
  pose proof (λ k, shr_limb b (limb_at a (k + w)) (limb_at a (k + w + 1)) Hb
    (limb_at_range a _ Ha) (limb_at_range a _ Ha)) as Hl. cbn zeta in Hl.
  destruct (Hl 0) as [R0 E0]. destruct (Hl 1) as [R1 E1]. destruct (Hl 2) as [R2 E2]. destruct (Hl 3) as [R3 E3].
  set (r0 := Z.lor _ _) in *. set (r1 := Z.lor (Z.shiftr (limb_at a (1 + w)) b) _) in *.
  set (r2 := Z.lor (Z.shiftr (limb_at a (2 + w)) b) _) in *.
  set (r3 := Z.lor (Z.shiftr (limb_at a (3 + w)) b) _) in *. clear Hl. clearbody r0 r1 r2 r3.
  split; [by apply wf_intro|]. rewrite !val_unfold. cbn [l0 l1 l2 l3].
  assert (0 < 2 ^ b) by (apply Z.pow_pos_nonneg; lia).
  assert (HP : 2 ^ b ≤ 2 ^ 63) by (apply Z.pow_le_mono_r; lia).
  pose proof (Z.mod_pos_bound (l0 a) (2 ^ b) ltac:(lia)) as M0.
  pose proof (Z.mod_pos_bound (l1 a) (2 ^ b) ltac:(lia)) as M1.
  pose proof (Z.mod_pos_bound (l2 a) (2 ^ b) ltac:(lia)) as M2.
  pose proof (Z.mod_pos_bound (l3 a) (2 ^ b) ltac:(lia)) as M3.
  assert (MZ : 0 mod 2 ^ b = 0) by (apply Z.mod_0_l; lia). unfold in_u64 in *.
  rewrite En, Z.pow_add_r by lia. set (P := 2 ^ b) in *.
  destruct Hw as [->|[->|[->| ->]]]; revert E0 E1 E2 E3; limb_eval; rewrite ?MZ; clearbody P; intros E0 E1 E2 E3.
  - apply Z.div_unique with (r := l0 a mod P); lia.
  - apply Z.div_unique with (r := l0 a + 2 ^ 64 * (l1 a mod P)); lia.
  - apply Z.div_unique with (r := l0 a + 2 ^ 64 * l1 a + 2 ^ 128 * (l2 a mod P)); lia.
  - apply Z.div_unique with (r := l0 a + 2 ^ 64 * l1 a + 2 ^ 128 * l2 a + 2 ^ 192 * (l3 a mod P)); lia.
Qed.

Lemma wf_ones : wf all_ones.
Proof. by apply wf_intro. Qed.

Lemma sar_spec a n :
  wf a → 0 ≤ n < 256 → denotes (sar a n) ((signed (val a) / 2 ^ n) mod 2 ^ 256).
Proof.
  intros Ha Hn. unfold sar. rewrite (proj2 (Z.leb_gt _ _)) by lia. pose proof (val_bound _ Ha) as Ba.
  destruct (shr_spec a n Ha Hn) as [Hs Es]. rewrite sign_spec by done. unfold signed.
  pose proof (val_bound _ Hs) as Bs. rewrite Es in Bs.
  destruct (Z.ltb_spec (val a) (2 ^ 255)) as [Hp|Hp].
  { rewrite (proj2 (Z.leb_gt _ _)) by lia. cbn [andb]. split; [done|]. by rewrite Es, Z.mod_small. }
  rewrite (proj2 (Z.leb_le _ _)) by lia. cbn [andb].
  destruct (Z.eqb_spec n 0) as [->|Hnz]; cbn [negb].
  { split; [done|]. rewrite Es, Z.pow_0_r, !Z.div_1_r. apply (Z.mod_unique _ _ (-1)); lia. }
  destruct (shl_spec all_ones (256 - n) wf_ones ltac:(lia)) as [Hh Eh].
  destruct (or256_spec _ _ Hs Hh) as [Ho Eo]. split; [done|]. rewrite Eo, Es, Eh.
  assert (HN : 2 ^ 256 = 2 ^ n * 2 ^ (256 - n)) by (rewrite <- Z.pow_add_r by lia; f_equal; lia).
  assert (0 < 2 ^ n) by (apply Z.pow_pos_nonneg; lia).
  assert (0 < 2 ^ (256 - n)) by (apply Z.pow_pos_nonneg; lia).
  change (val all_ones) with (2 ^ 256 - 1).
  assert (Ehi : ((2 ^ 256 - 1) * 2 ^ (256 - n)) mod 2 ^ 256 = (2 ^ n - 1) * 2 ^ (256 - n)).
  { symmetry. apply (Z.mod_unique _ _ (2 ^ (256 - n) - 1)); nia. }
  assert (Hd : 0 ≤ val a / 2 ^ n < 2 ^ (256 - n)) by (split; [lia|apply Z.div_lt_upper_bound; lia]).
  rewrite Ehi, Z.lor_comm, <- Z.shiftl_mul_pow2, lor_shiftl by lia.
  replace (val a - 2 ^ 256) with (val a + (- 2 ^ (256 - n)) * 2 ^ n) by (rewrite HN; ring).
  rewrite Z.div_add by lia. apply (Z.mod_unique _ _ (-1)); [|rewrite HN; ring].
  left. rewrite HN.
  pose proof (Z.mul_nonneg_nonneg (2 ^ n - 1) (2 ^ (256 - n)) ltac:(lia) ltac:(lia)). lia.
Qed.

(** ** The word as bytes *)

Lemma le_val_app a b : le_val (a ++ b) = le_val a + 256 ^ Z.of_nat (length a) * le_val b.
Proof. unfold le_val. rewrite reverse_app, be_val_app, length_reverse. lia. Qed.
Lemma le_val_le_bytes n z : le_val (le_bytes n z) = z mod 256 ^ Z.of_nat n.
Proof. unfold le_val, le_bytes. rewrite reverse_involutive. apply be_val_be_bytes. Qed.
Lemma le_val_take k l :
  (k ≤ length l)%nat → le_val (take k l) = le_val l mod 256 ^ Z.of_nat k.
Proof.
  intros Hk. rewrite <- (take_drop k l) at 2. rewrite le_val_app, length_take_le by done.
  rewrite Z.mul_comm, Z.mod_add by (pose proof (pow256_pos k); lia).
  pose proof (le_val_bound (take k l)) as H. rewrite length_take_le in H by done. by rewrite Z.mod_small.
Qed.
Lemma le_val_drop k l :
  (k ≤ length l)%nat → le_val (drop k l) = le_val l / 256 ^ Z.of_nat k.
Proof.
  intros Hk. rewrite <- (take_drop k l) at 2. rewrite le_val_app, length_take_le by done.
  pose proof (le_val_bound (take k l)) as H. rewrite length_take_le in H by done.
  pose proof (pow256_pos k). rewrite Z.mul_comm, Z.div_add by lia. by rewrite Z.div_small.
Qed.

Lemma le_bytes_bswap x : in_u64 x → le_bytes 8 (bswap64 x) = be_bytes 8 x.
Proof.
  intros Hx. unfold bswap64, le_bytes.
  pose proof (be_bytes_be_val (reverse (be_bytes 8 x))) as E.
  rewrite length_reverse, length_be_bytes in E. by rewrite E, reverse_involutive.
Qed.

Lemma load_bswap l off :
  (off + 8 ≤ length l)%nat → bswap64 (load_u64 l off) = be_val (take 8 (drop off l)).
Proof.
  intros Hl. unfold bswap64, load_u64, le_bytes, le_val.
  assert (length (take 8 (drop off l)) = 8%nat) by (rewrite length_take, length_drop; lia).
  set (t := take 8 (drop off l)) in *. clearbody t.
  replace 8%nat with (length (reverse t)) by (by rewrite length_reverse).
  by rewrite be_bytes_be_val, reverse_involutive.
Qed.

Lemma be_val_u64 l : length l = 8%nat → in_u64 (be_val l).
Proof. intros H. pose proof (be_val_bound l) as B. rewrite H in B. exact B. Qed.

(** Loading 32 big-endian bytes, and storing them. *)
Lemma from_be_spec l : length l = 32%nat → denotes (u256_from_be l) (be_val l).
Proof.
  intros Hl. unfold u256_from_be. rewrite !load_bswap by lia.
  split.
  { apply wf_intro; apply be_val_u64; rewrite length_take, length_drop; lia. }
  rewrite val_unfold. cbn [l0 l1 l2 l3].
  assert (E : l = take 8 l ++ take 8 (drop 8 l) ++ take 8 (drop 16 l) ++ take 8 (drop 24 l)).
  { do 33 (destruct l as [|? l]; [done || (cbn in Hl; lia)|]). cbn in Hl. lia. }
  rewrite E at 5. rewrite !be_val_app, !length_app, !length_take, !length_drop, Hl. cbn [drop]. 
  change (Z.of_nat (8 `min` (32 - 8) + (8 `min` (32 - 16) + 8 `min` (32 - 24)))) with 24.
  change (Z.of_nat (8 `min` (32 - 16) + 8 `min` (32 - 24))) with 16.
  change (Z.of_nat (8 `min` (32 - 24))) with 8. rewrite drop_0.
  change (256 ^ 24) with (2 ^ 192). change (256 ^ 16) with (2 ^ 128). change (256 ^ 8) with (2 ^ 64). lia.
Qed.

Lemma to_be_spec x : wf x → u256_to_be x = be_bytes 32 (val x).
Proof.
  intros Hx. pose proof (wf_inv _ Hx) as (H0 & H1 & H2 & H3). unfold u256_to_be, store_u64.
  rewrite !le_bytes_bswap by done. apply be_val_inj.
  - by rewrite !length_app, !length_be_bytes.
  - rewrite !be_val_app, !length_app, !length_be_bytes, !be_val_be_bytes. unfold in_u64 in *.
    rewrite (Z.mod_small (l0 x)), (Z.mod_small (l1 x)), (Z.mod_small (l2 x)), (Z.mod_small (l3 x)) by done.
    rewrite Z.mod_small by (by apply val_bound). rewrite val_unfold.
    change (Z.of_nat (8 + (8 + 8))) with 24. change (Z.of_nat (8 + 8)) with 16. change (Z.of_nat 8) with 8.
    change (256 ^ 24) with (2 ^ 192). change (256 ^ 16) with (2 ^ 128). change (256 ^ 8) with (2 ^ 64). lia.
Qed.

Lemma length_to_mem x : length (to_mem x) = 32%nat.
Proof. unfold to_mem. by rewrite !length_app, !length_le_bytes. Qed.

Lemma to_mem_spec x : wf x → le_val (to_mem x) = val x.
Proof.
  intros Hx. pose proof (wf_inv _ Hx) as (H0 & H1 & H2 & H3). unfold to_mem, in_u64 in *.
  rewrite !le_val_app, !length_le_bytes, !le_val_le_bytes.
  rewrite (Z.mod_small (l0 x)), (Z.mod_small (l1 x)), (Z.mod_small (l2 x)), (Z.mod_small (l3 x)) by done.
  rewrite val_unfold. change (256 ^ Z.of_nat 8) with (2 ^ 64). lia.
Qed.

Lemma of_mem_spec l : length l = 32%nat → denotes (of_mem l) (le_val l).
Proof.
  intros Hl. unfold of_mem, load_u64.
  assert (Hr : ∀ k, (k + 8 ≤ 32)%nat → in_u64 (le_val (take 8 (drop k l)))).
  { intros k Hk. pose proof (le_val_bound (take 8 (drop k l))) as B.
    rewrite length_take, length_drop, Hl, Nat.min_l in B by lia. exact B. }
  split; [apply wf_intro; apply Hr; lia|]. rewrite val_unfold. cbn [l0 l1 l2 l3].
  assert (E : l = take 8 (drop 0 l) ++ take 8 (drop 8 l) ++ take 8 (drop 16 l) ++ take 8 (drop 24 l)).
  { do 33 (destruct l as [|? l]; [done || (cbn in Hl; lia)|]). cbn in Hl. lia. }
  rewrite E at 5. rewrite !le_val_app, !length_take, !length_drop, Hl.
  change (256 ^ Z.of_nat (8 `min` (32 - 0))) with (2 ^ 64).
  change (256 ^ Z.of_nat (8 `min` (32 - 8))) with (2 ^ 64).
  change (256 ^ Z.of_nat (8 `min` (32 - 16))) with (2 ^ 64). lia.
Qed.

Lemma le_val_zeros n : le_val (replicate n Byte.x00) = 0.
Proof.
  induction n as [|n IH]; [done|]. change (replicate (S n) Byte.x00) with ([Byte.x00] ++ replicate n Byte.x00).
  rewrite le_val_app, IH. done.
Qed.
Lemma le_val_ones n : le_val (replicate n Byte.xff) = 256 ^ Z.of_nat n - 1.
Proof.
  induction n as [|n IH]; [done|]. change (replicate (S n) Byte.xff) with ([Byte.xff] ++ replicate n Byte.xff).
  rewrite le_val_app, IH, pow256_S. change (le_val [Byte.xff]) with 255. cbn [length]. lia.
Qed.

Lemma pow256_2 k : 0 ≤ k → 256 ^ Z.of_nat (Z.to_nat k) = 2 ^ (8 * k).
Proof. intros. rewrite Z2Nat.id by done. change 256 with (2 ^ 8). by rewrite <- Z.pow_mul_r by lia. Qed.

Lemma byte_shl_spec v k :
  wf v → 0 ≤ k ≤ 32 → denotes (byte_shl v k) ((val v * 2 ^ (8 * k)) mod 2 ^ 256).
Proof.
  intros Hv Hk. unfold byte_shl. set (l := _ ++ _).
  assert (Hl : length l = 32%nat) by (unfold l; rewrite length_app, length_replicate, length_take, length_to_mem; lia).
  destruct (of_mem_spec l Hl) as [Hw E]. split; [done|]. rewrite E. unfold l.
  rewrite le_val_app, le_val_zeros, length_replicate, le_val_take, to_mem_spec by (rewrite ?length_to_mem; done || lia).
  rewrite !pow256_2 by lia. set (P := 2 ^ (8 * k)).
  assert (HP : 2 ^ 256 = P * 2 ^ (8 * (32 - k))) by (unfold P; rewrite <- Z.pow_add_r by lia; f_equal; lia).
  rewrite HP, (Z.mul_comm (val v)), Z.mul_mod_distr_l; [lia|apply Z.pow_nonzero; lia..].
Qed.

Lemma byte_shr_fill v k fill :
  wf v → 0 ≤ k ≤ 32 →
  denotes (of_mem (drop (Z.to_nat k) (to_mem v) ++ replicate (Z.to_nat k) fill))
    (val v / 2 ^ (8 * k) + 2 ^ (256 - 8 * k) * le_val (replicate (Z.to_nat k) fill)).
Proof.
  intros Hv Hk. set (l := _ ++ _).
  assert (Hl : length l = 32%nat) by (unfold l; rewrite length_app, length_replicate, length_drop, length_to_mem; lia).
  destruct (of_mem_spec l Hl) as [Hw E]. split; [done|]. rewrite E. unfold l.
  rewrite le_val_app, le_val_drop, to_mem_spec, length_drop, length_to_mem by (rewrite ?length_to_mem; done || lia).
  rewrite pow256_2 by lia. f_equal. f_equal.
  replace (Z.of_nat (32 - Z.to_nat k)) with (Z.of_nat (Z.to_nat (32 - k))) by lia.
  rewrite pow256_2 by lia. f_equal. lia.
Qed.

Lemma byte_shr_spec v k : wf v → 0 ≤ k ≤ 32 → denotes (byte_shr v k) (val v / 2 ^ (8 * k)).
Proof.
  intros Hv Hk. destruct (byte_shr_fill v k Byte.x00 Hv Hk) as [Hw E]. split; [done|].
  unfold byte_shr. rewrite E, le_val_zeros. lia.
Qed.

Lemma nth_mem x i :
  wf x → 0 ≤ i < 32 → b2z (nth (Z.to_nat i) (to_mem x) Byte.x00) = (val x / 2 ^ (8 * i)) mod 256.
Proof.
  intros Hx Hi. rewrite <- to_mem_spec by done. pose proof (length_to_mem x) as Hl.
  set (m := to_mem x) in *. clearbody m.
  destruct (lookup_lt_is_Some_2 m (Z.to_nat i)) as [b Hb]; [lia|].
  rewrite (nth_lookup_Some _ _ _ _ Hb). rewrite <- pow256_2 by lia.
  rewrite <- le_val_drop by lia. rewrite (drop_S m b (Z.to_nat i) Hb).
  change (b :: drop (S (Z.to_nat i)) m) with ([b] ++ drop (S (Z.to_nat i)) m).
  rewrite le_val_app. change (256 ^ Z.of_nat (length [b])) with 256.
  rewrite Z.mul_comm, Z.mod_add by lia. pose proof (b2z_range b).
  assert (E1 : le_val [b] = b2z b) by (unfold le_val, be_val; cbn; lia).
  rewrite E1, Z.mod_small by lia. done.
Qed.

Lemma mem_sign_spec v : wf v → mem_sign v = (2 ^ 255 <=? val v).
Proof.
  intros Hv. unfold mem_sign. change 31%nat with (Z.to_nat 31). rewrite nth_mem by (done || lia).
  pose proof (val_bound _ Hv) as B.
  assert (Hq : 0 ≤ val v / 2 ^ (8 * 31) < 256).
  { split; [apply Z.div_pos; lia|apply Z.div_lt_upper_bound; lia]. }
  rewrite Z.mod_small by done.
  replace (2 ^ 255 <=? val v) with (128 <=? val v / 2 ^ (8 * 31)).
  2:{ apply Bool.eq_iff_eq_true. rewrite !Z.leb_le.
      pose proof (Z.div_mod (val v) (2 ^ (8 * 31)) ltac:(lia)).
      pose proof (Z.mod_pos_bound (val v) (2 ^ (8 * 31)) ltac:(lia)). lia. }
  set (q := val v / 2 ^ (8 * 31)) in *. clearbody q.
  change 0x80 with (2 ^ 7). apply Bool.eq_iff_eq_true. rewrite negb_true_iff, Z.eqb_neq, Z.leb_le.
  assert (E : Z.land q (2 ^ 7) = if Z.testbit q 7 then 2 ^ 7 else 0).
  { apply Z.bits_inj'. intros n Hn. rewrite Z.land_spec, Z.pow2_bits_eqb by lia.
    destruct (Z.eqb_spec 7 n) as [<-|]; destruct (Z.testbit q 7);
      rewrite ?Z.pow2_bits_true, ?Z.pow2_bits_false, ?Z.bits_0, ?andb_false_r, ?andb_true_r by lia; done. }
  rewrite E, Z.testbit_eqb by lia.
  assert (Hd : q / 2 ^ 7 = 0 ∨ q / 2 ^ 7 = 1).
  { assert (0 ≤ q / 2 ^ 7) by (apply Z.div_pos; lia). assert (q / 2 ^ 7 < 2) by (apply Z.div_lt_upper_bound; lia). lia. }
  pose proof (Z.div_mod q (2 ^ 7) ltac:(lia)) as D. pose proof (Z.mod_pos_bound q (2 ^ 7) ltac:(lia)).
  destruct Hd as [Hd|Hd]; rewrite Hd in *;
    [change (0 mod 2 =? 1) with false|change (1 mod 2 =? 1) with true]; cbv iota; lia.
Qed.

Lemma byte_sar_spec v k :
  wf v → 0 ≤ k ≤ 32 → denotes (byte_sar v k) ((signed (val v) / 2 ^ (8 * k)) mod 2 ^ 256).
Proof.
  intros Hv Hk. unfold byte_sar. rewrite mem_sign_spec by done. pose proof (val_bound _ Hv) as B.
  destruct (byte_shr_fill v k (if 2 ^ 255 <=? val v then Byte.xff else Byte.x00) Hv Hk) as [Hw E].
  split; [done|]. pose proof (val_bound _ Hw) as B'. rewrite E in B' |- *. unfold signed.
  assert (HP : 2 ^ 256 = 2 ^ (256 - 8 * k) * 2 ^ (8 * k)) by (rewrite <- Z.pow_add_r by lia; f_equal; lia).
  assert (0 < 2 ^ (8 * k)) by (apply Z.pow_pos_nonneg; lia).
  destruct (Z.ltb_spec (val v) (2 ^ 255)) as [H1|H1].
  - rewrite (proj2 (Z.leb_gt _ _)) in * by lia. rewrite le_val_zeros, Z.mul_0_r, Z.add_0_r in *.
    by rewrite Z.mod_small.
  - rewrite (proj2 (Z.leb_le _ _)) in * by lia. rewrite le_val_ones, pow256_2 in * by lia.
    replace (val v - 2 ^ 256) with (val v + (- 2 ^ (256 - 8 * k)) * 2 ^ (8 * k)) by (rewrite HP; ring).
    rewrite Z.div_add by lia. apply (Z.mod_unique _ _ (-1)); [left; lia|]. rewrite HP. ring.
Qed.

(** ** Shift and byte opcodes *)

Lemma low_scalar_spec s : wf s → low_scalar s = if val s <? 256 then val s else 256.
Proof.
  intros Hs. pose proof (wf_inv _ Hs) as (H0 & H1 & H2 & H3). unfold low_scalar.
  change 0xFF with (Z.ones 8). rewrite (Z.land_ones (l0 s) 8) by lia. unfold in_u64 in *.
  assert (Eh : Z.land (l0 s) (not64 (Z.ones 8)) = l0 s - l0 s mod 2 ^ 8).
  { assert (En : not64 (Z.ones 8) = Z.shiftl (Z.ones 56) 8) by done. rewrite En.
    pose proof (Z.div_mod (l0 s) (2 ^ 8) ltac:(lia)) as D.
    replace (l0 s - l0 s mod 2 ^ 8) with (Z.shiftl (Z.shiftr (l0 s) 8) 8)
      by (rewrite Z.shiftl_mul_pow2, Z.shiftr_div_pow2; lia).
    assert (Eq : Z.shiftr (l0 s) 8 = Z.land (Z.shiftr (l0 s) 8) (Z.ones 56)).
    { rewrite Z.land_ones, Z.mod_small; [done| |lia]. rewrite Z.shiftr_div_pow2 by lia.
      split; [apply Z.div_pos; lia|apply Z.div_lt_upper_bound; lia]. }
    rewrite Eq. apply Z.bits_inj'. intros n Hn. rewrite Z.land_spec.
    destruct (Z.lt_ge_cases n 8); [rewrite !Z.shiftl_spec_low, andb_false_r; done|].
    rewrite !Z.shiftl_spec, Z.land_spec, Z.shiftr_spec by lia. by replace (n - 8 + 8) with n by lia. }
  rewrite Eh. pose proof (Z.mod_pos_bound (l0 s) (2 ^ 8) ltac:(lia)) as M.
  pose proof (Z.div_mod (l0 s) (2 ^ 8) ltac:(lia)) as D.
  assert (0 ≤ l0 s / 2 ^ 8) by (apply Z.div_pos; lia).
  rewrite !lor_zero by (repeat (apply Z.lor_nonneg; split); lia). rewrite val_unfold.
  match goal with |- context [negb ?c] => destruct c eqn:Ec end; cbn [negb].
  - rewrite !andb_true_iff, !Z.eqb_eq in Ec. rewrite (proj2 (Z.ltb_lt _ _)) by lia. lia.
  - rewrite (proj2 (Z.ltb_ge _ _)); [done|]. rewrite !andb_false_iff, !Z.eqb_neq in Ec.
    change (2 ^ 8) with 256 in *. nia.
Qed.

Lemma op_byte_spec i x :
  wf i → wf x →
  denotes (op_byte i x) (if val i <? 32 then (val x / 2 ^ (8 * (31 - val i))) mod 256 else 0).
Proof.
  intros Hi Hx. unfold op_byte. rewrite low_scalar_spec by done. pose proof (val_bound _ Hi).
  destruct (Z.ltb_spec (val i) 256) as [H1|H1].
  - destruct (Z.ltb_spec (val i) 32); [|by split; [apply wf_zero|]].
    rewrite nth_mem by (done || lia). pose proof (Z.mod_pos_bound (val x / 2 ^ (8 * (31 - val i))) 256 ltac:(lia)).
    split; [apply wf_intro; try apply in_u64_0; unfold in_u64; lia|]. rewrite val_unfold. cbn [l0 l1 l2 l3]. lia.
  - rewrite (proj2 (Z.ltb_ge (val i) 32)) by lia. cbn. by split; [apply wf_zero|].
Qed.

Lemma shift_cases n : n mod 8 = 0 → 0 ≤ n < 256 → 8 * (n / 8) = n ∧ 0 ≤ n / 8 ≤ 32.
Proof.
  intros Hm Hn. pose proof (Z.div_mod n 8 ltac:(lia)). split; [lia|].
  split; [apply Z.div_pos; lia|]. assert (n / 8 < 32); [|lia]. apply Z.div_lt_upper_bound; lia.
Qed.

Lemma op_shl_spec s v :
  wf s → wf v → denotes (op_shl s v) (if val s <? 256 then (val v * 2 ^ val s) mod 2 ^ 256 else 0).
Proof.
  intros Hs Hv. unfold op_shl. rewrite low_scalar_spec by done. pose proof (val_bound _ Hs).
  pose proof (val_bound _ Hv). destruct (Z.ltb_spec (val s) 256); [|by split; [apply wf_zero|]].
  rewrite (proj2 (Z.leb_gt _ _)) by lia. destruct (Z.eqb_spec (val s) 0) as [->|].
  { split; [done|]. rewrite Z.pow_0_r, Z.mul_1_r, Z.mod_small by lia. done. }
  destruct (Z.eqb_spec (val s mod 8) 0) as [E|]; [|apply shl_spec; [done|lia]].
  destruct (shift_cases _ E ltac:(lia)) as [E8 Hk]. rewrite <- E8 at 2. by apply byte_shl_spec.
Qed.
Lemma op_shr_spec s v :
  wf s → wf v → denotes (op_shr s v) (if val s <? 256 then val v / 2 ^ val s else 0).
Proof.
  intros Hs Hv. unfold op_shr. rewrite low_scalar_spec by done. pose proof (val_bound _ Hs).
  destruct (Z.ltb_spec (val s) 256); [|by split; [apply wf_zero|]].
  rewrite (proj2 (Z.leb_gt _ _)) by lia. destruct (Z.eqb_spec (val s) 0) as [->|].
  { split; [done|]. by rewrite Z.pow_0_r, Z.div_1_r. }
  destruct (Z.eqb_spec (val s mod 8) 0) as [E|]; [|apply shr_spec; [done|lia]].
  destruct (shift_cases _ E ltac:(lia)) as [E8 Hk]. rewrite <- E8 at 2. by apply byte_shr_spec.
Qed.
Lemma op_sar_spec s v :
  wf s → wf v →
  denotes (op_sar s v)
    (if val s <? 256 then (signed (val v) / 2 ^ val s) mod 2 ^ 256
     else if signed (val v) <? 0 then 2 ^ 256 - 1 else 0).
Proof.
  intros Hs Hv. unfold op_sar. rewrite low_scalar_spec by done. pose proof (val_bound _ Hs).
  pose proof (val_bound _ Hv) as B. destruct (Z.ltb_spec (val s) 256).
  - rewrite (proj2 (Z.leb_gt _ _)) by lia. destruct (Z.eqb_spec (val s) 0) as [->|].
    { split; [done|]. rewrite Z.pow_0_r, Z.div_1_r. unfold signed.
      destruct (Z.ltb_spec (val v) (2 ^ 255)); [by rewrite Z.mod_small|].
      apply (Z.mod_unique _ _ (-1)); lia. }
    destruct (Z.eqb_spec (val s mod 8) 0) as [E|]; [|apply sar_spec; [done|lia]].
    destruct (shift_cases _ E ltac:(lia)) as [E8 Hk]. rewrite <- E8 at 2. by apply byte_sar_spec.
  - change (256 <=? 256) with true. cbv iota. rewrite mem_sign_spec, <- sign_signed, sign_spec by done.
    destruct (2 ^ 255 <=? val v); apply of_mem_spec; done.
Qed.

(** Sign extension of the low [k + 1] bits. *)
Definition sext (k x : Z) : Z :=
  let r := x mod 2 ^ (k + 1) in if r <? 2 ^ k then r else r - 2 ^ (k + 1).

Lemma sign_fill w off :
  in_u64 w → 0 ≤ off < 64 →
  let mask := if off =? 63 then ones64 else u64 (Z.shiftl 1 (off + 1)) - 1 in
  Z.land w mask = w mod 2 ^ (off + 1) ∧
  Z.lor w (not64 mask) = w mod 2 ^ (off + 1) + (2 ^ 64 - 2 ^ (off + 1)) ∧
  Z.testbit w off = negb (w mod 2 ^ (off + 1) <? 2 ^ off).
Proof.
  intros Hw Ho. cbn zeta.
  assert (Em : (if off =? 63 then ones64 else u64 (Z.shiftl 1 (off + 1)) - 1) = Z.ones (off + 1)).
  { rewrite Z.ones_equiv. destruct (Z.eqb_spec off 63) as [->|]; [done|].
    rewrite Z.shiftl_1_l, u64_small; [lia|]. unfold in_u64.
    split; [apply Z.pow_nonneg; lia|apply Z.pow_lt_mono_r; lia]. }
  rewrite Em. assert (HP : 0 < 2 ^ off) by (apply Z.pow_pos_nonneg; lia).
  assert (HP1 : 2 ^ (off + 1) = 2 * 2 ^ off) by (rewrite Z.pow_add_r by lia; lia).
  assert (HQ : 2 ^ (off + 1) ≤ 2 ^ 64) by (apply Z.pow_le_mono_r; lia).
  assert (Hones : in_u64 (Z.ones (off + 1))) by (unfold in_u64; rewrite Z.ones_equiv; lia).
  split; [apply Z.land_ones; lia|]. split.
  - rewrite not64_spec, Z.ones_equiv by done.
    set (m := w mod 2 ^ (off + 1)). pose proof (Z.mod_pos_bound w (2 ^ (off + 1)) ltac:(lia)) as Hm. fold m in Hm.
    assert (HN : 2 ^ 64 - 1 - Z.pred (2 ^ (off + 1)) = (2 ^ (63 - off) - 1) * 2 ^ (off + 1)).
    { rewrite Z.mul_sub_distr_r, <- Z.pow_add_r by lia. replace (63 - off + (off + 1)) with 64 by lia. lia. }
    replace (2 ^ 64 - 2 ^ (off + 1)) with (2 ^ 64 - 1 - Z.pred (2 ^ (off + 1))) by lia. rewrite HN.
    replace (2 ^ (63 - off) - 1) with (Z.ones (63 - off)) by (rewrite Z.ones_equiv; lia).
    rewrite (Z.add_comm m), <- lor_shiftl, <- Z.shiftl_mul_pow2 by lia.
    apply Z.bits_inj'. intros n Hn. rewrite !Z.lor_spec. unfold m.
    destruct (Z.lt_ge_cases n (off + 1)) as [Hl|Hl].
    + rewrite Z.shiftl_spec_low, Z.mod_pow2_bits_low by lia. by rewrite orb_false_r.
    + rewrite Z.mod_pow2_bits_high, Z.shiftl_spec, orb_false_r by lia.
      destruct (Z.lt_ge_cases (n - (off + 1)) (63 - off)).
      * rewrite Z.ones_spec_low by lia. apply orb_true_r.
      * rewrite Z.ones_spec_high, orb_false_r by lia.
        destruct (Z.eq_dec w 0) as [->|]; [apply Z.bits_0|]. unfold in_u64 in Hw.
        apply Z.bits_above_log2; [lia|]. assert (Z.log2 w < 64) by (apply Z.log2_lt_pow2; lia). lia.
  - rewrite <- (Z.mod_pow2_bits_low w (off + 1)) by lia. set (m := w mod 2 ^ (off + 1)).
    pose proof (Z.mod_pos_bound w (2 ^ (off + 1)) ltac:(lia)) as Hm. fold m in Hm. clearbody m.
    rewrite Z.testbit_eqb by lia. destruct (Z.ltb_spec m (2 ^ off)); cbn [negb].
    + by rewrite Z.div_small by lia.
    + replace (m / 2 ^ off) with 1; [done|]. apply (Z.div_unique _ _ _ (m - 2 ^ off)); lia.
Qed.

(** The low [64 * k + off + 1] bits of [low + 2^(64 k) (w + 2^64 hi)]. *)
Lemma low_bits_split S w off low hi :
  0 < S → 0 ≤ off < 64 → in_u64 w → 0 ≤ low < S →
  (low + S * (w + 2 ^ 64 * hi)) mod (S * 2 ^ (off + 1)) = low + S * (w mod 2 ^ (off + 1)).
Proof.
  intros HS Ho Hw Hl. assert (HT : 0 < 2 ^ (off + 1)) by (apply Z.pow_pos_nonneg; lia).
  assert (HQ : 2 ^ 64 = 2 ^ (off + 1) * 2 ^ (63 - off)) by (rewrite <- Z.pow_add_r by lia; f_equal; lia).
  pose proof (Z.div_mod w (2 ^ (off + 1)) ltac:(lia)) as D.
  pose proof (Z.mod_pos_bound w (2 ^ (off + 1)) ltac:(lia)) as M. symmetry.
  apply (Z.mod_unique _ _ (w / 2 ^ (off + 1) + 2 ^ (63 - off) * hi)); [nia|].
  rewrite HQ. rewrite D at 1. ring.
Qed.

(** One limb position of the sign extension: [w] holds the sign bit, [low] is
    below it, [y] is the filled word. *)
Lemma sext_case V w S low hi off y :
  0 ≤ off < 64 → in_u64 w → 0 < S → 0 ≤ low < S → V = low + S * (w + 2 ^ 64 * hi) → wf y →
  val y = low + S * (if Z.testbit w off then w mod 2 ^ (off + 1) + (2 ^ 64 - 2 ^ (off + 1))
                     else w mod 2 ^ (off + 1))
          + (if Z.testbit w off then 2 ^ 256 - S * 2 ^ 64 else 0) →
  denotes y
    ((if V mod (S * 2 ^ (off + 1)) <? S * 2 ^ off then V mod (S * 2 ^ (off + 1))
      else V mod (S * 2 ^ (off + 1)) - S * 2 ^ (off + 1)) mod 2 ^ 256).
Proof.
  intros Ho Hw HS Hlow -> Hy Ey. split; [done|]. rewrite Ey, low_bits_split by done.
  assert (HT : 0 < 2 ^ off) by (apply Z.pow_pos_nonneg; lia).
  assert (HT1 : 2 ^ (off + 1) = 2 * 2 ^ off) by (rewrite Z.pow_add_r by lia; lia).
  pose proof (Z.mod_pos_bound w (2 ^ (off + 1)) ltac:(lia)) as M. pose proof (val_bound _ Hy) as By. rewrite Ey in By.
  destruct (sign_fill w off Hw Ho) as (_ & _ & Et). rewrite Et in By |- *. clear Et Ey.
  destruct (Z.ltb_spec (w mod 2 ^ (off + 1)) (2 ^ off)) as [Hlt|Hge]; cbn [negb] in By |- *.
  - pose proof (Z.mul_le_mono_nonneg_l (w mod 2 ^ (off + 1) + 1) (2 ^ off) S ltac:(lia) ltac:(lia)).
    rewrite (proj2 (Z.ltb_lt _ _)) by lia. rewrite (Z.mod_small (low + _)); lia.
  - pose proof (Z.mul_le_mono_nonneg_l (2 ^ off) (w mod 2 ^ (off + 1)) S ltac:(lia) ltac:(lia)).
    rewrite (proj2 (Z.ltb_ge _ _)) by lia. apply (Z.mod_unique _ _ (-1)); lia.
Qed.

Lemma op_signextend_spec i x :
  wf i → wf x →
  denotes (op_signextend i x)
    (if val i <=? 30 then sext (8 * val i + 7) (val x) mod 2 ^ 256 else val x).
Proof.
  intros Hi Hx. unfold op_signextend. pose proof (val_bound _ Hi) as Bi.
  destruct (high_zero i) eqn:Hz; cycle 1.
  { rewrite high_zero_spec, Z.ltb_ge in Hz by done. cbn [andb].
    rewrite (proj2 (Z.leb_gt _ _)) by lia. by split. }
  rewrite (high_zero_val i Hi Hz) in *. cbn [andb]. destruct (Z.leb_spec (l0 i) 30) as [H30|H30]; [|by split].
  set (bit := l0 i * 8 + 7). replace (8 * l0 i + 7) with bit by (unfold bit; lia).
  assert (Hbit : 0 ≤ bit < 256) by (unfold bit; lia). clearbody bit.
  change 63 with (Z.ones 6). rewrite Z.land_ones, Z.shiftr_div_pow2 by lia. change (2 ^ 6) with 64.
  set (off := bit mod 64). set (k := bit / 64).
  assert (Ho : 0 ≤ off < 64) by (apply Z.mod_pos_bound; lia).
  assert (Eb : bit = 64 * k + off) by (apply Z.div_mod; lia).
  assert (Hk : k = 0 ∨ k = 1 ∨ k = 2 ∨ k = 3).
  { assert (0 ≤ k) by (apply Z.div_pos; lia). assert (k < 4) by (apply Z.div_lt_upper_bound; lia). lia. }
  clearbody off k. change (Z.ones 6) with 63. pose proof (wf_inv _ Hx) as (H0 & H1 & H2 & H3).
  assert (HT : 0 < 2 ^ off) by (apply Z.pow_pos_nonneg; lia).
  assert (HT1 : 2 ^ (off + 1) = 2 * 2 ^ off) by (rewrite Z.pow_add_r by lia; lia).
  assert (HTle : 2 ^ (off + 1) ≤ 2 ^ 64) by (apply Z.pow_le_mono_r; lia).
  assert (EP1 : 2 ^ (bit + 1) = 2 ^ (64 * k) * 2 ^ (off + 1)) by (rewrite <- Z.pow_add_r by lia; f_equal; lia).
  assert (EP0 : 2 ^ bit = 2 ^ (64 * k) * 2 ^ off) by (rewrite <- Z.pow_add_r by lia; f_equal; lia).
  unfold sext. rewrite EP1, EP0, val_unfold. cbn zeta. clear EP1 EP0.
  destruct (sign_fill (l0 x) off H0 Ho) as (L0 & O0 & _). destruct (sign_fill (l1 x) off H1 Ho) as (L1 & O1 & _).
  destruct (sign_fill (l2 x) off H2 Ho) as (L2 & O2 & _). destruct (sign_fill (l3 x) off H3 Ho) as (L3 & O3 & _).
  assert (Hones : in_u64 ones64) by done.
  assert (Hrange : ∀ w, in_u64 w → in_u64 (w mod 2 ^ (off + 1)) ∧
    in_u64 (w mod 2 ^ (off + 1) + (2 ^ 64 - 2 ^ (off + 1)))).
  { intros w Hw. pose proof (Z.mod_pos_bound w (2 ^ (off + 1)) ltac:(lia)). unfold in_u64 in *. lia. }
  cbn zeta in *. set (mask := if off =? 63 then _ else _) in *. clearbody mask.
  unfold in_u64 in H0, H1, H2, H3.
  destruct Hk as [->|[->|[->| ->]]].
  - apply (sext_case _ (l0 x) 1 0 (l1 x + 2 ^ 64 * l2 x + 2 ^ 128 * l3 x) off); try lia; [done|..].
    all: change (Z.to_nat 0) with 0%nat; cbn [limbs nth take replicate Nat.sub app of_limbs].
    + case_match; [rewrite O0|rewrite L0]; apply wf_intro; auto using in_u64_0; by apply Hrange.
    + case_match; [rewrite O0|rewrite L0]; rewrite val_unfold; cbn [of_limbs nth l0 l1 l2 l3]; unfold ones64; lia.
  - apply (sext_case _ (l1 x) (2 ^ 64) (l0 x) (l2 x + 2 ^ 64 * l3 x) off); try lia; [done|..].
    all: change (Z.to_nat 1) with 1%nat; cbn [limbs nth take replicate Nat.sub app of_limbs].
    + case_match; [rewrite O1|rewrite L1]; apply wf_intro; auto using in_u64_0; by apply Hrange.
    + case_match; [rewrite O1|rewrite L1]; rewrite val_unfold; cbn [of_limbs nth l0 l1 l2 l3]; unfold ones64; lia.
  - apply (sext_case _ (l2 x) (2 ^ 128) (l0 x + 2 ^ 64 * l1 x) (l3 x) off); try lia; [done|..].
    all: change (Z.to_nat 2) with 2%nat; cbn [limbs nth take replicate Nat.sub app of_limbs].
    + case_match; [rewrite O2|rewrite L2]; apply wf_intro; auto using in_u64_0; by apply Hrange.
    + case_match; [rewrite O2|rewrite L2]; rewrite val_unfold; cbn [of_limbs nth l0 l1 l2 l3]; unfold ones64; lia.
  - apply (sext_case _ (l3 x) (2 ^ 192) (l0 x + 2 ^ 64 * l1 x + 2 ^ 128 * l2 x) 0 off); try lia; [done|..].
    all: change (Z.to_nat 3) with 3%nat; cbn [limbs nth take replicate Nat.sub app of_limbs].
    + case_match; [rewrite O3|rewrite L3]; apply wf_intro; auto using in_u64_0; by apply Hrange.
    + case_match; [rewrite O3|rewrite L3]; rewrite val_unfold; cbn [of_limbs nth l0 l1 l2 l3]; unfold ones64; lia.
Qed.

(** ** The opcodes *)

(** The Yellow Paper's definitions, on integers. *)
Definition spec_alu1 (o : alu1) (a : Z) : Z :=
  match o with
  | ISZERO => Z.b2z (a =? 0)
  | NOT => 2 ^ 256 - 1 - a
  | CLZ => if a =? 0 then 256 else 255 - Z.log2 a
  end.
Definition spec_alu2 (o : alu2) (a b : Z) : Z :=
  match o with
  | ADD => (a + b) mod 2 ^ 256
  | MUL => (a * b) mod 2 ^ 256
  | SUB => (a - b) mod 2 ^ 256
  | DIV => if b =? 0 then 0 else a / b
  | SDIV => if b =? 0 then 0 else Z.quot (signed a) (signed b) mod 2 ^ 256
  | MOD => if b =? 0 then 0 else a mod b
  | SMOD => if b =? 0 then 0 else Z.rem (signed a) (signed b) mod 2 ^ 256
  | EXP => a ^ b mod 2 ^ 256
  | SIGNEXTEND => if a <=? 30 then sext (8 * a + 7) b mod 2 ^ 256 else b
  | LT => Z.b2z (a <? b)
  | GT => Z.b2z (b <? a)
  | SLT => Z.b2z (signed a <? signed b)
  | SGT => Z.b2z (signed b <? signed a)
  | EQ => Z.b2z (a =? b)
  | AND => Z.land a b
  | OR => Z.lor a b
  | XOR => Z.lxor a b
  | BYTE => if a <? 32 then (b / 2 ^ (8 * (31 - a))) mod 256 else 0
  | SHL => if a <? 256 then (b * 2 ^ a) mod 2 ^ 256 else 0
  | SHR => if a <? 256 then b / 2 ^ a else 0
  | SAR => if a <? 256 then (signed b / 2 ^ a) mod 2 ^ 256
           else if signed b <? 0 then 2 ^ 256 - 1 else 0
  end.
Definition spec_alu3 (o : alu3) (a b m : Z) : Z :=
  match o with
  | ADDMOD => if m =? 0 then 0 else (a + b) mod m
  | MULMOD => if m =? 0 then 0 else (a * b) mod m
  end.

Lemma run_alu1_spec o a : wf a → denotes (run_alu1 o a) (spec_alu1 o (val a)).
Proof. destruct o; cbn; auto using op_iszero_spec, op_not_spec, op_clz_spec. Qed.

Lemma run_alu3_spec o a b m :
  wf a → wf b → wf m → denotes (run_alu3 o a b m) (spec_alu3 o (val a) (val b) (val m)).
Proof.
  intros Ha Hb Hm. destruct o; cbn [run_alu3 spec_alu3]; unfold op_addmod, op_mulmod;
    rewrite is_zero_spec by done; (destruct (Z.eqb_spec (val m) 0); [by split; [apply wf_zero|]|]).
  - destruct (arith256_mod_spec a one b m Ha wf_one Hb Hm ltac:(done)) as [? E]. split; [done|].
    rewrite E. change (val one) with 1. by rewrite Z.mul_1_r.
  - destruct (arith256_mod_spec a b zero m Ha Hb wf_zero Hm ltac:(done)) as [? E]. split; [done|].
    rewrite E. change (val zero) with 0. by rewrite Z.add_0_r.
Qed.

Lemma run_alu2_spec o a b :
  wf a → wf b → denotes (run_alu2 o a b) (spec_alu2 o (val a) (val b)).
Proof.
  intros Ha Hb. destruct o; cbn [run_alu2 spec_alu2];
    auto using op_add_spec, op_sub_spec, op_div_spec, op_sdiv_spec, op_mod_spec, op_smod_spec,
      op_exp_spec, op_signextend_spec, op_and_spec, op_or_spec, op_xor_spec, op_byte_spec,
      op_shl_spec, op_shr_spec, op_sar_spec.
  - by apply mul_low_spec.
  - unfold op_lt. rewrite lt_spec by done. apply bool_word_spec.
  - unfold op_gt. rewrite lt_spec by done. apply bool_word_spec.
  - unfold op_slt. rewrite slt_spec by done. apply bool_word_spec.
  - unfold op_sgt. rewrite slt_spec by done. apply bool_word_spec.
  - unfold op_eq. rewrite eq_spec by done. apply bool_word_spec.
Qed.

(** C24. Every two-operand value opcode of the interpreter (ADD to SAR), with its
    carry, borrow and byte-move fast paths, schoolbook multiply, bit-by-bit long
    division and square-and-multiply, leaves in the result slot a well-formed word
    whose value is the opcode's definition on 256-bit integers. *)
Theorem binary_opcodes_correct o a b :
  wf a → wf b → wf (run_alu2 o a b) ∧ val (run_alu2 o a b) = spec_alu2 o (val a) (val b).
Proof. apply run_alu2_spec. Qed.

Lemma binary_opcodes_correct_witness :
  val (run_alu2 SDIV (mkU256 (2 ^ 64 - 1000) ones64 ones64 ones64) (mkU256 7 0 0 0)) = 2 ^ 256 - 142.
Proof.
  assert (Ha : wf (mkU256 (2 ^ 64 - 1000) ones64 ones64 ones64)) by (apply wf_intro; vm_compute; intuition congruence).
  assert (Hb : wf (mkU256 7 0 0 0)) by (apply wf_intro; vm_compute; intuition congruence).
  destruct (binary_opcodes_correct SDIV _ _ Ha Hb) as [_ E]. refine (eq_trans E _). vm_compute. reflexivity.
Defined.

(** C33. The one- and three-operand value opcodes (ISZERO, NOT, CLZ; ADDMOD and
    MULMOD over the full 512-bit intermediate) compute their definitions. *)
Theorem unary_ternary_opcodes_correct o1 o3 a b m :
  wf a → wf b → wf m →
  (wf (run_alu1 o1 a) ∧ val (run_alu1 o1 a) = spec_alu1 o1 (val a)) ∧
  (wf (run_alu3 o3 a b m) ∧ val (run_alu3 o3 a b m) = spec_alu3 o3 (val a) (val b) (val m)).
Proof. intros. split; [by apply run_alu1_spec|by apply run_alu3_spec]. Qed.

Lemma unary_ternary_opcodes_correct_witness :
  val (run_alu3 MULMOD (mkU256 0 0 0 (2 ^ 63)) (mkU256 0 0 0 (2 ^ 63)) (mkU256 1000007 0 0 0))
    = (2 ^ 255 * 2 ^ 255) mod 1000007.
Proof.
  assert (Ha : wf (mkU256 0 0 0 (2 ^ 63))) by (apply wf_intro; vm_compute; intuition congruence).
  assert (Hm : wf (mkU256 1000007 0 0 0)) by (apply wf_intro; vm_compute; intuition congruence).
  destruct (unary_ternary_opcodes_correct ISZERO MULMOD _ _ _ Ha Ha Hm) as [_ [_ E]].
  refine (eq_trans E _). vm_compute. reflexivity.
Defined.

(** The wire conversions are exact inverses: 32 big-endian bytes load to the
    word of their value, and a word stores to the 32 big-endian bytes of its value. *)
Theorem wire_roundtrip b x :
  length b = 32%nat → wf x →
  wf (u256_from_be b) ∧ val (u256_from_be b) = be_val b ∧ u256_to_be (u256_from_be b) = b ∧
  u256_from_be (u256_to_be x) = x.
Proof.
  intros Hb Hx. destruct (from_be_spec b Hb) as [Hw Ev]. split; [done|]. split; [done|]. split.
  - rewrite to_be_spec, Ev by done. by rewrite <- Hb, be_bytes_be_val.
  - rewrite to_be_spec by done. destruct (from_be_spec (be_bytes 32 (val x))) as [Hw' Ev'];
      [by rewrite length_be_bytes|]. apply val_inj; [done|done|].
    rewrite Ev', be_val_be_bytes. apply Z.mod_small, val_bound, Hx.
Qed.

Lemma wire_roundtrip_witness :
  u256_to_be (u256_from_be (replicate 30 Byte.x00 ++ [Byte.x12; Byte.x34]))
    = replicate 30 Byte.x00 ++ [Byte.x12; Byte.x34].
Proof.
  apply (wire_roundtrip _ (mkU256 5 0 0 0)); [reflexivity|apply wf_intro; vm_compute; intuition congruence].
Defined.

End Alu.
