(* ===== verification/Zevm.v ===== *)
(** The interpreter ([src/zevm/zevm.cpp], [evm_state.hpp], [evm_state.cpp],
    [instructions/*.inl.hpp]): one frame's state, every opcode handler with its
    gas, stack and static-mode checks in the code's order, the dispatch table and
    loop, and the frame runner that is the host's VM.

    A handler is a computation over the frame, the host state and the process-wide
    EVM memory; it ends in [Next] (the code's [true], the loop goes on), [Halted]
    (the code's [false], the frame halts with its status set) or [Undefined]
    (an access outside the stack or the memory arenas, which the language leaves
    undefined; that it never happens is a theorem).  The stack is the
    list of the live slots, the top first: [R.top[k]] is element [k].  The advance
    of the stack pointer that the dispatch macros add after a handler is part of the
    handler here.

    Calls to the keccak library are a parameter; the host is [StateDb]. *)

From stdpp Require Import base numbers list strings gmap.
From S2P Require Import Prelude Fork Rlp Receipt Contracts Chain CreateAddress Bal Jumpdest EvmMem Accounts Storages Transient Journal StateDb U256.

Module Zevm.
Import Rlp Receipt Fork Journal StateDb U256.

(** ** The frame *)

Definition kStackLimit : nat := 1024.
Definition kMaxCallDepth : Z := 1024.

Record EvmState := mkEvm {
  code : bytes;
  jumpdestBitset : list Z;
  evmcMsg : message;
  rev : revision;
  pc : Z;
  stack : list U256;
  evm_gas : Z;
  evm_refund : Z;
  state_gas_left : Z;
  state_gas_spilled : Z;
  self_balance : option Z;     (* self_balance_be when self_balance_valid *)
  output_offset : Z;
  output_size : Z;
  returnData : bytes;          (* the output of returnDataOwner *)
  evm_status : status_code }.

Definition set_pc (x : Z) (f : EvmState) : EvmState :=
  mkEvm (code f) (jumpdestBitset f) (evmcMsg f) (rev f) x (stack f) (evm_gas f) (evm_refund f)
    (state_gas_left f) (state_gas_spilled f) (self_balance f) (output_offset f) (output_size f)
    (returnData f) (evm_status f).
Definition set_stack (x : list U256) (f : EvmState) : EvmState :=
  mkEvm (code f) (jumpdestBitset f) (evmcMsg f) (rev f) (pc f) x (evm_gas f) (evm_refund f)
    (state_gas_left f) (state_gas_spilled f) (self_balance f) (output_offset f) (output_size f)
    (returnData f) (evm_status f).
Definition set_gas (x : Z) (f : EvmState) : EvmState :=
  mkEvm (code f) (jumpdestBitset f) (evmcMsg f) (rev f) (pc f) (stack f) x (evm_refund f)
    (state_gas_left f) (state_gas_spilled f) (self_balance f) (output_offset f) (output_size f)
    (returnData f) (evm_status f).
Definition set_refund (x : Z) (f : EvmState) : EvmState :=
  mkEvm (code f) (jumpdestBitset f) (evmcMsg f) (rev f) (pc f) (stack f) (evm_gas f) x
    (state_gas_left f) (state_gas_spilled f) (self_balance f) (output_offset f) (output_size f)
    (returnData f) (evm_status f).
Definition set_state_gas (left spilled : Z) (f : EvmState) : EvmState :=
  mkEvm (code f) (jumpdestBitset f) (evmcMsg f) (rev f) (pc f) (stack f) (evm_gas f) (evm_refund f)
    left spilled (self_balance f) (output_offset f) (output_size f) (returnData f) (evm_status f).
Definition set_self_balance (x : option Z) (f : EvmState) : EvmState :=
  mkEvm (code f) (jumpdestBitset f) (evmcMsg f) (rev f) (pc f) (stack f) (evm_gas f) (evm_refund f)
    (state_gas_left f) (state_gas_spilled f) x (output_offset f) (output_size f) (returnData f)
    (evm_status f).
Definition set_output (off size : Z) (f : EvmState) : EvmState :=
  mkEvm (code f) (jumpdestBitset f) (evmcMsg f) (rev f) (pc f) (stack f) (evm_gas f) (evm_refund f)
    (state_gas_left f) (state_gas_spilled f) (self_balance f) off size (returnData f) (evm_status f).
Definition set_returnData (x : bytes) (f : EvmState) : EvmState :=
  mkEvm (code f) (jumpdestBitset f) (evmcMsg f) (rev f) (pc f) (stack f) (evm_gas f) (evm_refund f)
    (state_gas_left f) (state_gas_spilled f) (self_balance f) (output_offset f) (output_size f) x
    (evm_status f).
Definition set_status (x : status_code) (f : EvmState) : EvmState :=
  mkEvm (code f) (jumpdestBitset f) (evmcMsg f) (rev f) (pc f) (stack f) (evm_gas f) (evm_refund f)
    (state_gas_left f) (state_gas_spilled f) (self_balance f) (output_offset f) (output_size f)
    (returnData f) x.

(** [EvmState::reset], the memory frame apart.  The bitset is the one the analysis
    builds for the code, borrowed or own. *)
Definition reset (msg : message) (c : bytes) (r : revision) : EvmState :=
  mkEvm c (Jumpdest.build_jumpdest_bitset c) msg r 0 [] (gas msg) 0 (msg_state_gas msg) 0 None 0 0 []
    SUCCESS.

(** ** The handler monad *)

Inductive outcome (A : Type) := Next (a : A) | Halted | Undefined (what : string).
Arguments Next {A} a.
Arguments Halted {A}.
Arguments Undefined {A} what.

Definition H (A : Type) : Type := EvmState → M (outcome A * EvmState).
#[export] Instance H_ret : MRet H := λ A a f, mret (Next a, f).
#[export] Instance H_bind : MBind H := λ A B k m f, λ s,
  match m f s with
  | Ok (Next a, f, s) => k a f s
  | Ok (Halted, f, s) => Ok (Halted, f, s)
  | Ok (Undefined e, f, s) => Ok (Undefined e, f, s)
  | Fatal e => Fatal e
  end.

Definition getf {A} (g : EvmState → A) : H A := λ f, mret (Next (g f), f).
Definition modf (g : EvmState → EvmState) : H unit := λ f, mret (Next tt, g f).
(** [s.status = st; return false;] *)
Definition halt {A} (st : status_code) : H A := λ f, mret (Halted, set_status st f).
Definition undefined {A} (what : string) : H A := λ f, mret (Undefined what, f).
(** A host call. *)
Definition host {A} (m : M A) : H A := λ f s,
  match m s with Ok (a, s) => Ok (Next a, f, s) | Fatal e => Fatal e end.
(** An operation of the memory manager. *)
Definition mem {A} (op : EvmMem.EVMMem → res (A * EvmMem.EVMMem)) : H A := λ f s,
  match op (evm_mem s) with
  | Ok (a, m) => Ok (Next a, f, put_mem m s)
  | Fatal e => Ok (Undefined e, f, s)
  end.

(** [if (R.gas < c) { OUT_OF_GAS } R.gas -= c;] *)
Definition charge (c : Z) : H unit :=
  g ← getf evm_gas;
  if g <? c then halt OUT_OF_GAS else modf (set_gas (g - c)).

(** [depth_lt] and [stack_full], with the halt they guard. *)
Definition depth_lt (need : nat) (f : EvmState) : bool := (length (stack f) <? need)%nat.
Definition stack_full (f : EvmState) : bool := (kStackLimit <=? length (stack f))%nat.
Definition need (n : nat) : H unit :=
  b ← getf (depth_lt n); if b : bool then halt STACK_UNDERFLOW else mret tt.
Definition room : H unit :=
  b ← getf stack_full; if b : bool then halt STACK_OVERFLOW else mret tt.

(** [R.top[k]] and its store: only live slots may be touched. *)
Definition slot (k : nat) : H U256 :=
  st ← getf stack;
  match st !! k with Some v => mret v | None => undefined "stack slot out of range" end.
Definition set_slot (k : nat) (v : U256) : H unit :=
  st ← getf stack;
  if (k <? length st)%nat then modf (set_stack (<[k := v]> st))
  else undefined "stack slot out of range".
Definition drops (n : nat) : H unit := st ← getf stack; modf (set_stack (drop n st)).
Definition push (v : U256) : H unit := st ← getf stack; modf (set_stack (v :: st)).
(** [pops - 1] slots are dropped, the new top holds the result. *)
Definition leave (pops : nat) (v : U256) : H unit := _ ← drops pops; push v.

(** [s.code[p]] and a copy from [s.code + off]: only bytes of the code may be
    touched; a copy of no bytes touches none. *)
Definition code_byte (p : Z) : H byte :=
  c ← getf code;
  match Prelude.mem_read c p 1 with Ok [b] => mret b | _ => undefined "code byte out of range" end.
Definition code_read (off n : Z) : H bytes :=
  if n =? 0 then mret [] else
  c ← getf code;
  match Prelude.mem_read c off n with Ok bs => mret bs | Fatal e => undefined e end.

(** [++R.pc] *)
Definition advance (n : Z) : H unit := p ← getf pc; modf (set_pc (p + n)).

Definition is_ge (r : revision) : H bool := getf (λ f, rev_ge (rev f) r).
Definition static_check : H unit :=
  m ← getf evmcMsg; if is_static m then halt STATIC_MODE_VIOLATION else mret tt.

(** ** Constants *)

Definition GAS_JUMPDEST : Z := 1.
Definition GAS_BASE : Z := 2.
Definition GAS_VERYLOW : Z := 3.
Definition GAS_LOW : Z := 5.
Definition GAS_MID : Z := 8.
Definition GAS_HIGH : Z := 10.
Definition GAS_EXP : Z := 10.
Definition GAS_EXPBYTE : Z := 50.
Definition WARM_ACCESS : Z := 100.
Definition COLD_STORAGE_ACCESS : Z := 2100.
Definition COLD_ACCOUNT_ACCESS : Z := 2600.
Definition COLD_ACCOUNT_ACCESS_AMSTERDAM : Z := 3000.
Definition ACCOUNT_WRITE : Z := 9000.
Definition STORAGE_WRITE : Z := 10000.
Definition CREATE_ACCESS : Z := ACCOUNT_WRITE + COLD_ACCOUNT_ACCESS_AMSTERDAM.
Definition COST_PER_STATE_BYTE : Z := 1530.
Definition NEW_ACCOUNT_STATE_GAS : Z := 120 * COST_PER_STATE_BYTE.
Definition STORAGE_SET_STATE_GAS : Z := 64 * COST_PER_STATE_BYTE.

Definition cold_account_access (r : revision) : Z :=
  if rev_ge r EVMC_AMSTERDAM then COLD_ACCOUNT_ACCESS_AMSTERDAM else COLD_ACCOUNT_ACCESS.
Definition additional_cold_account_access (r : revision) : Z := cold_account_access r - WARM_ACCESS.

(** ** State gas *)

(** [state_gas_charge], on the frame's gas and reservoir; [None] is [false]. *)
Definition state_gas_charge (cost : Z) (f : EvmState) : option EvmState :=
  if cost <=? state_gas_left f then
    Some (set_state_gas (state_gas_left f - cost) (state_gas_spilled f) f)
  else
    let spill := cost - state_gas_left f in
    if evm_gas f <? spill then None else
    Some (set_gas (evm_gas f - spill) (set_state_gas 0 (state_gas_spilled f + spill) f)).

Definition state_gas_refill (cost : Z) (f : EvmState) : EvmState :=
  let to_gas := Z.min cost (state_gas_spilled f) in
  set_gas (evm_gas f + to_gas)
    (set_state_gas (state_gas_left f + (cost - to_gas)) (state_gas_spilled f - to_gas) f).

Definition absorb_child_state_gas (r : Result) (f : EvmState) : EvmState :=
  state_gas_refill (sg_left (state_gas r))
    (set_state_gas 0 (state_gas_spilled f + sg_spilled (state_gas r)) f).

Definition charge_state (cost : Z) : H unit := λ f,
  match state_gas_charge cost f with
  | Some f => mret (Next tt, f)
  | None => mret (Halted, set_status OUT_OF_GAS f)
  end.

(** ** Operands *)

Definition UINT64_MAX : Z := 2 ^ 64 - 1.
Definition INT64_MAX : Z := 2 ^ 63 - 1.
Definition s64 (z : Z) : Z := if u64 z <? 2 ^ 63 then u64 z else u64 z - 2 ^ 64.

Definition mem_arg (v : U256) : Z := if high_zero v then l0 v else UINT64_MAX.
Definition addr_from_slot (v : U256) : Z := be_val (drop 12 (u256_to_be v)).
Definition slot_from_address (a : Z) : U256 :=
  u256_from_be (replicate 12 Byte.x00 ++ be_bytes 20 a).
(** A 32-byte wire value and the slot that holds it. *)
Definition from_wire (z : Z) : U256 := u256_from_be (be_bytes 32 z).
Definition to_wire (v : U256) : Z := be_val (u256_to_be v).
Definition of_u64 (z : Z) : U256 := mkU256 (u64 z) 0 0 0.

Definition num_words (n : Z) : Z := u64 (n + 31) / 32.
Definition copy_cost (n : Z) : Z := num_words n * 3.

(** ** Memory *)

(** The [mem_*] wrappers: the operation takes the frame's gas by value and its
    remaining gas is stored back; an error halts. *)
Definition mem_op {A} (op : Z → EvmMem.EVMMem → res (EvmMem.MemGas * A * EvmMem.EVMMem)) : H A :=
  g ← getf evm_gas;
  '(r, a) ← mem (op g);
  _ ← modf (set_gas (EvmMem.gas r));
  match EvmMem.err r with EvmMem.MemOk => mret a | EvmMem.OutOfGas => halt OUT_OF_GAS end.
Definition no_bytes (r : res (EvmMem.MemGas * EvmMem.EVMMem)) : res (EvmMem.MemGas * unit * EvmMem.EVMMem) :=
  match r with Ok (r, m) => Ok (r, tt, m) | Fatal e => Fatal e end.
Definition mem_expand (addr len : Z) : H unit := mem_op (λ g m, no_bytes (EvmMem.expand addr len g m)).
Definition mem_read (addr len : Z) : H bytes := mem_op (EvmMem.readBytes addr len).
Definition mem_write (addr : Z) (src : bytes) : H unit :=
  mem_op (λ g m, no_bytes (EvmMem.writeBytes addr src g m)).
Definition mem_write_byte (addr : Z) (b : byte) : H unit :=
  mem_op (λ g m, no_bytes (EvmMem.writeByte addr b g m)).

(** [EVMMem::data(addr)]: [n] bytes read through it, bytes stored through it. *)
Definition data (addr n : Z) : H bytes := mem (λ m, bs ← EvmMem.data_read addr n m; Ok (bs, m)).
Definition data_store (addr : Z) (src : bytes) : H unit :=
  mem (λ m, m ← EvmMem.put_bytes addr src m; Ok (tt, m)).
(** The window [[addr, addr + n)], not read when it is empty. *)
Definition window (addr n : Z) : H bytes := if n =? 0 then mret [] else data addr n.


(** ** Control *)

Definition op_stop : H unit := halt SUCCESS.

Definition jump_target (d : U256) : Z := if high_zero d then l0 d else UINT64_MAX.
Definition is_jumpdest (dest : Z) : H bool :=
  r ← getf (λ f, Jumpdest.is_jumpdest (code f) (jumpdestBitset f) dest);
  match r with Ok b => mret b | Fatal e => undefined e end.

(** Landing on a JUMPDEST, its own charge folded in. *)
Definition land_on (dest : Z) : H unit :=
  ok ← is_jumpdest dest;
  if negb ok then halt BAD_JUMP_DESTINATION else
  _ ← charge GAS_JUMPDEST;
  modf (set_pc (dest + 1)).

Definition op_jump : H unit :=
  _ ← charge GAS_MID;
  _ ← need 1;
  d ← slot 0;
  _ ← drops 1;
  land_on (jump_target d).

Definition op_jumpi : H unit :=
  _ ← charge GAS_HIGH;
  _ ← need 2;
  d ← slot 0;
  c ← slot 1;
  _ ← drops 2;
  if negb (u256_is_zero c) then land_on (jump_target d) else advance 1.

Definition op_jumpdest : H unit := charge GAS_JUMPDEST.
Definition op_pop : H unit := _ ← charge GAS_BASE; _ ← need 1; drops 1.
Definition op_pc : H unit :=
  _ ← charge GAS_BASE; _ ← room; p ← getf pc; push (of_u64 p).
Definition op_gas : H unit :=
  _ ← charge GAS_BASE; _ ← room; g ← getf evm_gas; push (of_u64 g).

(** ** Value opcodes: the tier, the operand check, the body of [U256] *)

Definition alu1_gas (o : alu1) : Z := match o with CLZ => GAS_LOW | _ => GAS_VERYLOW end.
Definition alu2_gas (o : alu2) : Z :=
  match o with
  | MUL | DIV | SDIV | MOD | SMOD | SIGNEXTEND => GAS_LOW
  | _ => GAS_VERYLOW
  end.

Definition do_alu1 (o : alu1) : H unit :=
  _ ← charge (alu1_gas o); _ ← need 1; a ← slot 0; set_slot 0 (run_alu1 o a).
Definition do_alu2 (o : alu2) : H unit :=
  _ ← charge (alu2_gas o); _ ← need 2; a ← slot 0; b ← slot 1;
  _ ← set_slot 1 (run_alu2 o a b); drops 1.
Definition do_alu3 (o : alu3) : H unit :=
  _ ← charge GAS_MID; _ ← need 3; a ← slot 0; b ← slot 1; m ← slot 2;
  _ ← set_slot 2 (run_alu3 o a b m); drops 2.
(** EXP checks its operands first, and pays by the exponent's length. *)
Definition do_exp : H unit :=
  _ ← need 2; a ← slot 0; e ← slot 1;
  _ ← charge (GAS_EXP + GAS_EXPBYTE * exp_byte_len e);
  _ ← set_slot 1 (op_exp a e); drops 1.

(** ** PUSH, DUP, SWAP *)

Definition code_size (f : EvmState) : Z := len (code f).

(** The first [n] immediate bytes that are in the code. *)
Definition immediate (n : Z) : H bytes :=
  p ← getf pc;
  size ← getf code_size;
  let pc1 := p + 1 in
  let avail := if pc1 <? size then Z.min n (size - pc1) else 0 in
  code_read pc1 avail.

(** PUSH1..PUSH8: one 8-byte load when it is in bounds, else byte by byte. *)
Definition push_small_value (n : Z) : H Z :=
  p ← getf pc;
  size ← getf code_size;
  let pc1 := p + 1 in
  if pc1 + 8 <=? size then
    be ← code_read pc1 8;
    mret (Z.shiftr (bswap64 (load_u64 be 0)) ((8 - n) * 8))
  else
    imm ← immediate n;
    mret (foldl (λ v b, u64 (Z.lor (Z.shiftl v 8) (b2z b))) 0
            (take (Z.to_nat n) (imm ++ replicate 8 Byte.x00))).
Definition push_small (n : Z) : H unit :=
  _ ← charge GAS_VERYLOW; _ ← room;
  v ← push_small_value n;
  _ ← push (of_u64 v); advance (n + 1).

(** PUSH9..PUSH32: the immediate right-aligned in 32 bytes. *)
Definition push_big_value (n : Z) : H U256 :=
  imm ← immediate n;
  mret (u256_from_be (replicate (Z.to_nat (32 - n)) Byte.x00 ++ imm
                      ++ replicate (Z.to_nat (n - len imm)) Byte.x00)).
Definition push_big (n : Z) : H unit :=
  _ ← charge GAS_VERYLOW; _ ← room;
  v ← push_big_value n;
  _ ← push v; advance (n + 1).
Definition op_push (n : Z) : H unit := if n <=? 8 then push_small n else push_big n.
Definition op_push0 : H unit := _ ← charge GAS_BASE; _ ← room; push zero.

Definition op_dup (n : nat) : H unit :=
  _ ← charge GAS_VERYLOW; _ ← need n; _ ← room; v ← slot (n - 1); push v.

(** Exchange two slots. *)
Definition swap_slots (i j : nat) : H unit :=
  t ← slot i; v ← slot j; _ ← set_slot i v; set_slot j t.
Definition op_swap (n : nat) : H unit :=
  _ ← charge GAS_VERYLOW; _ ← need (n + 1); swap_slots 0 n.

Definition imm_byte : H Z :=
  p ← getf pc;
  size ← getf code_size;
  if p + 1 <? size then b ← code_byte (p + 1); mret (b2z b) else mret 0.
Definition decode_dupn_swapn (imm : Z) : Z :=
  if (0x5b <=? imm) && (imm <=? 0x7f) then 0 else u8 (imm + 0x91).

Definition op_dupn : H unit :=
  _ ← charge GAS_VERYLOW;
  imm ← imm_byte;
  let n := decode_dupn_swapn imm in
  if n =? 0 then halt UNDEFINED_INSTRUCTION else
  _ ← need (Z.to_nat n); _ ← room;
  v ← slot (Z.to_nat (n - 1));
  _ ← push v; advance 2.

Definition op_swapn : H unit :=
  _ ← charge GAS_VERYLOW;
  imm ← imm_byte;
  let n := decode_dupn_swapn imm in
  if n =? 0 then halt UNDEFINED_INSTRUCTION else
  _ ← need (Z.to_nat (n + 1));
  _ ← swap_slots 0 (Z.to_nat n); advance 2.

(** EXCHANGE's immediate: the pair of positions, or none. *)
Definition decode_exchange (imm : Z) : option (Z * Z) :=
  if (0x52 <=? imm) && (imm <=? 0x7f) then None else
  let k := Z.lxor imm 0x8f in
  let q := k / 16 in let r := k mod 16 in
  Some (if q <? r then (q + 1, r + 1) else (r + 1, 29 - q)).
Definition op_exchange : H unit :=
  _ ← charge GAS_VERYLOW;
  imm ← imm_byte;
  match decode_exchange imm with
  | None => halt UNDEFINED_INSTRUCTION
  | Some (n, m) =>
      _ ← need (Z.to_nat (m + 1));
      _ ← swap_slots (Z.to_nat n) (Z.to_nat m); advance 2
  end.

(** ** Memory opcodes *)

(** An offset with a high limb set is beyond any gas. *)
Definition offset (v : U256) : H Z := if high_zero v then mret (l0 v) else halt OUT_OF_GAS.

Definition op_mload : H unit :=
  _ ← charge GAS_VERYLOW; _ ← need 1;
  off ← slot 0;
  addr ← offset off;
  be ← mem_read addr 32;
  set_slot 0 (u256_from_be be).

Definition op_mstore : H unit :=
  _ ← charge GAS_VERYLOW; _ ← need 2;
  off ← slot 0;
  addr ← offset off;
  v ← slot 1;
  _ ← mem_write addr (u256_to_be v);
  drops 2.

Definition op_mstore8 : H unit :=
  _ ← charge GAS_VERYLOW; _ ← need 2;
  off ← slot 0;
  addr ← offset off;
  v ← slot 1;
  _ ← mem_write_byte addr (z2b (Z.land (l0 v) 0xFF));
  drops 2.

Definition op_msize : H unit :=
  _ ← charge GAS_BASE; _ ← room;
  n ← mem (λ m, n ← EvmMem.size m; Ok (n, m));
  push (of_u64 n).

Definition op_mcopy : H unit :=
  _ ← charge GAS_VERYLOW; _ ← need 3;
  a ← slot 0; b ← slot 1; c ← slot 2;
  let dst := mem_arg a in let src := mem_arg b in let size := mem_arg c in
  _ ← mem_expand (if src <? dst then dst else src) size;
  _ ← charge (copy_cost size);
  _ ← (if size =? 0 then mret tt else bs ← data src size; data_store dst bs);
  drops 3.

(** ** Environment *)

Section Ops.

(** keccak, the precompile set, and the host's [call]. *)
Context (keccak256 : bytes → Z).
Context (is_precompile : revision → Z → bool).
Context (host_call : message → M Result).

Abbreviation access_account a := (host (StateDb.access_account is_precompile a)).

Definition push_u64 (v : Z) : H unit := _ ← room; push (of_u64 v).
Definition push_be32 (v : Z) : H unit := _ ← room; push (from_wire v).
Definition push_address (a : Z) : H unit := _ ← room; push (slot_from_address a).

Definition charge_account_access (addr : Z) : H unit :=
  berlin ← is_ge EVMC_BERLIN;
  if negb berlin then mret tt else
  st ← access_account addr;
  match st with
  | ACCESS_COLD => r ← getf rev; charge (additional_cold_account_access r)
  | ACCESS_WARM => mret tt
  end.

(** [copy_into_mem]: the source's bytes, then zeroes. *)
Definition copy_into_mem (dst size : Z) (src : bytes) (srcOff : Z) : H unit :=
  if size =? 0 then mret tt else
  let begin := if srcOff <? len src then srcOff else len src in
  let avail := len src - begin in
  let copy_n := if avail <? size then avail else size in
  _ ← (if 0 <? copy_n then
         match Prelude.mem_read src begin copy_n with
         | Ok bs => data_store dst bs
         | Fatal e => undefined e
         end
       else mret tt);
  if copy_n <? size then data_store (dst + copy_n) (replicate (Z.to_nat (size - copy_n)) Byte.x00)
  else mret tt.

Definition data_copy (src_data : bytes) : H unit :=
  _ ← charge GAS_VERYLOW; _ ← need 3;
  a ← slot 0; b ← slot 1; c ← slot 2;
  let dst := mem_arg a in let src := mem_arg b in let size := mem_arg c in
  _ ← mem_expand dst size;
  _ ← charge (copy_cost size);
  _ ← copy_into_mem dst size src_data src;
  drops 3.

(** The context pushes: two gas, then the value. *)
Definition op_address : H unit := _ ← charge GAS_BASE; m ← getf evmcMsg; push_address (recipient m).
Definition op_caller : H unit := _ ← charge GAS_BASE; m ← getf evmcMsg; push_address (sender m).
Definition op_callvalue : H unit := _ ← charge GAS_BASE; m ← getf evmcMsg; push_be32 (value m).
Definition op_calldatasize : H unit :=
  _ ← charge GAS_BASE; m ← getf evmcMsg; push_u64 (len (input_data m)).
Definition op_codesize : H unit := _ ← charge GAS_BASE; n ← getf code_size; push_u64 n.
Definition op_origin : H unit :=
  _ ← charge GAS_BASE; tx ← host get_tx_context; push_address (tx_origin tx).
Definition op_gasprice : H unit :=
  _ ← charge GAS_BASE; tx ← host get_tx_context; push_be32 (tx_gas_price tx).
Definition op_coinbase : H unit :=
  _ ← charge GAS_BASE; tx ← host get_tx_context; push_address (block_coinbase tx).
Definition op_timestamp : H unit :=
  _ ← charge GAS_BASE; tx ← host get_tx_context; push_u64 (block_timestamp tx).
Definition op_number : H unit :=
  _ ← charge GAS_BASE; tx ← host get_tx_context; push_u64 (block_number tx).
Definition op_prevrandao : H unit :=
  _ ← charge GAS_BASE; tx ← host get_tx_context; push_be32 (block_prev_randao tx).
Definition op_gaslimit : H unit :=
  _ ← charge GAS_BASE; tx ← host get_tx_context; push_u64 (block_gas_limit tx).
Definition op_chainid : H unit :=
  _ ← charge GAS_BASE; tx ← host get_tx_context; push_be32 (chain_id tx).
Definition op_basefee : H unit :=
  _ ← charge GAS_BASE; tx ← host get_tx_context; push_be32 (block_base_fee tx).
Definition op_blobbasefee : H unit :=
  _ ← charge GAS_BASE; tx ← host get_tx_context; push_be32 (blob_base_fee tx).
Definition op_slotnum : H unit :=
  _ ← charge GAS_BASE; tx ← host get_tx_context; push_u64 (block_slot_number tx).

Definition op_selfbalance : H unit :=
  _ ← charge GAS_LOW;
  c ← getf self_balance;
  b ← (match c with
       | Some b => mret b
       | None => m ← getf evmcMsg;
                 b ← host (get_balance (recipient m));
                 _ ← modf (set_self_balance (Some b));
                 mret b
       end);
  push_be32 b.

Definition op_calldataload : H unit :=
  _ ← charge GAS_VERYLOW; _ ← need 1;
  i ← slot 0;
  m ← getf evmcMsg;
  let idx := mem_arg i in
  let input := input_data m in
  let buf := if idx <? len input then take 32 (drop (Z.to_nat idx) input) else [] in
  set_slot 0 (u256_from_be (buf ++ replicate (32 - length buf) Byte.x00)).

Definition op_calldatacopy : H unit := m ← getf evmcMsg; data_copy (input_data m).
Definition op_codecopy : H unit := c ← getf code; data_copy c.

Definition op_balance : H unit :=
  _ ← charge WARM_ACCESS; _ ← need 1;
  i ← slot 0;
  let addr := addr_from_slot i in
  _ ← charge_account_access addr;
  b ← host (get_balance addr);
  set_slot 0 (from_wire b).

Definition extcode_base (f : EvmState) : Z :=
  if rev_ge (rev f) EVMC_AMSTERDAM then 2 * WARM_ACCESS else WARM_ACCESS.

Definition op_extcodesize : H unit :=
  base ← getf extcode_base;
  _ ← charge base; _ ← need 1;
  i ← slot 0;
  let addr := addr_from_slot i in
  _ ← charge_account_access addr;
  n ← host (get_code_size addr);
  set_slot 0 (of_u64 n).

Definition op_extcodehash : H unit :=
  _ ← charge WARM_ACCESS; _ ← need 1;
  i ← slot 0;
  let addr := addr_from_slot i in
  _ ← charge_account_access addr;
  h ← host (get_code_hash addr);
  set_slot 0 (from_wire h).

Definition op_extcodecopy : H unit :=
  base ← getf extcode_base;
  _ ← charge base; _ ← need 4;
  x ← slot 0; a ← slot 1; b ← slot 2; c ← slot 3;
  let addr := addr_from_slot x in
  let dst := mem_arg a in let src := mem_arg b in let size := mem_arg c in
  _ ← mem_expand dst size;
  _ ← charge (copy_cost size);
  _ ← charge_account_access addr;
  _ ← (if size =? 0 then mret tt else
       bs ← host (copy_code addr src size);
       _ ← data_store dst bs;
       if len bs <? size then data_store (dst + len bs) (replicate (Z.to_nat (size - len bs)) Byte.x00)
       else mret tt);
  drops 4.

Definition GAS_BLOCKHASH : Z := 20.
Definition op_blockhash : H unit :=
  _ ← charge GAS_BLOCKHASH; _ ← need 1;
  v ← slot 0;
  tx ← host get_tx_context;
  let upper := block_number tx in
  let lower := if 256 <? upper then upper - 256 else 0 in
  h ← (if high_zero v && (l0 v <? u64 upper) && (lower <=? s64 (l0 v))
       then host (get_block_hash (s64 (l0 v))) else mret 0);
  set_slot 0 (from_wire h).

Definition op_blobhash : H unit :=
  _ ← charge GAS_VERYLOW; _ ← need 1;
  v ← slot 0;
  tx ← host get_tx_context;
  let h := if high_zero v && (l0 v <? Z.of_nat (length (blob_hashes tx)))
           then nth (Z.to_nat (l0 v)) (blob_hashes tx) 0 else 0 in
  set_slot 0 (from_wire h).

(** ** Storage *)

Definition WARM_STORAGE_READ_COST : Z := 100.
Definition COLD_SLOAD_COST : Z := 2100.
Definition SSTORE_SENTRY_GAS : Z := 2300.

Record StorageCostSpec := mkSpec { warm_c : Z; set_c : Z; reset_c : Z; clear_c : Z; cold_c : Z }.

(** From Berlin on every schedule meters net changes ([net_cost] is true). *)
Definition storage_spec (r : revision) : StorageCostSpec :=
  if rev_ge r EVMC_AMSTERDAM then
    let write := WARM_STORAGE_READ_COST + STORAGE_WRITE in
    mkSpec WARM_STORAGE_READ_COST write write ((STORAGE_WRITE + COLD_SLOAD_COST) * 4800 / 5000)
      (COLD_SLOAD_COST - WARM_STORAGE_READ_COST)
  else if rev_ge r EVMC_LONDON then
    mkSpec WARM_STORAGE_READ_COST 20000 (5000 - COLD_SLOAD_COST) 4800 COLD_SLOAD_COST
  else mkSpec WARM_STORAGE_READ_COST 20000 (5000 - COLD_SLOAD_COST) 15000 COLD_SLOAD_COST.

(** (cost, refund) *)
Definition sstore_cost (r : revision) (st : storage_status) : Z * Z :=
  let c := storage_spec r in
  let W := warm_c c in
  match st with
  | STORAGE_ASSIGNED => (W, 0)
  | STORAGE_ADDED => (set_c c, 0)
  | STORAGE_DELETED => (reset_c c, clear_c c)
  | STORAGE_MODIFIED => (reset_c c, 0)
  | STORAGE_DELETED_ADDED => (W, - clear_c c)
  | STORAGE_MODIFIED_DELETED => (W, clear_c c)
  | STORAGE_DELETED_RESTORED => (W, reset_c c - W - clear_c c)
  | STORAGE_ADDED_DELETED => (W, set_c c - W)
  | STORAGE_MODIFIED_RESTORED => (W, reset_c c - W)
  end.

Definition op_sload : H unit :=
  _ ← charge WARM_STORAGE_READ_COST; _ ← need 1;
  k ← slot 0;
  m ← getf evmcMsg;
  let key := to_wire k in
  berlin ← is_ge EVMC_BERLIN;
  _ ← (if negb berlin then mret tt else
       st ← host (access_storage (recipient m) key);
       match st with
       | ACCESS_COLD => charge (COLD_SLOAD_COST - WARM_STORAGE_READ_COST)
       | ACCESS_WARM => mret tt
       end);
  v ← host (get_storage (recipient m) key);
  set_slot 0 (from_wire v).

(** Allocating a slot costs state gas; freeing it in the same transaction gives
    it back. *)
Definition sstore_state_gas (st : storage_status) : H unit :=
  match st with
  | STORAGE_ADDED => charge_state STORAGE_SET_STATE_GAS
  | STORAGE_ADDED_DELETED => modf (state_gas_refill STORAGE_SET_STATE_GAS)
  | _ => mret tt
  end.

Definition op_sstore : H unit :=
  _ ← need 2;
  _ ← static_check;
  g ← getf evm_gas;
  if g <=? SSTORE_SENTRY_GAS then halt OUT_OF_GAS else
  k ← slot 0; v ← slot 1;
  m ← getf evmcMsg;
  r ← getf rev;
  let key := to_wire k in
  cold ← (if negb (rev_ge r EVMC_BERLIN) then mret 0 else
          st ← host (access_storage (recipient m) key);
          mret (match st with ACCESS_COLD => cold_c (storage_spec r) | ACCESS_WARM => 0 end));
  st ← host (set_storage (recipient m) key (to_wire v));
  let '(cost, refund) := sstore_cost r st in
  _ ← charge (cost + cold);
  _ ← (if rev_ge r EVMC_AMSTERDAM then sstore_state_gas st else mret tt);
  _ ← modf (λ f, set_refund (evm_refund f + refund) f);
  drops 2.

Definition op_tload : H unit :=
  _ ← charge WARM_STORAGE_READ_COST; _ ← need 1;
  k ← slot 0;
  m ← getf evmcMsg;
  v ← host (get_transient_storage (recipient m) (to_wire k));
  set_slot 0 (from_wire v).

Definition op_tstore : H unit :=
  _ ← charge WARM_STORAGE_READ_COST;
  _ ← static_check;
  _ ← need 2;
  k ← slot 0; v ← slot 1;
  m ← getf evmcMsg;
  _ ← host (set_transient_storage (recipient m) (to_wire k) (to_wire v));
  drops 2.

(** ** KECCAK256 and LOG *)

Definition GAS_KECCAK256 : Z := 30.
Definition GAS_KECCAK256_WORD : Z := 6.
Definition op_keccak256 : H unit :=
  _ ← charge GAS_KECCAK256; _ ← need 2;
  o ← slot 0; n ← slot 1;
  let off := mem_arg o in let size := mem_arg n in
  _ ← mem_expand off size;
  _ ← charge (num_words size * GAS_KECCAK256_WORD);
  bs ← window off size;
  _ ← set_slot 1 (from_wire (keccak256 bs));
  drops 1.

Definition GAS_LOG : Z := 375.
Definition GAS_LOGDATA : Z := 8.
(** [sp[2 .. 2 + n)] *)
Fixpoint topics_from (k n : nat) : H (list Z) :=
  match n with
  | O => mret []
  | S n => t ← slot k; ts ← topics_from (S k) n; mret (to_wire t :: ts)
  end.
Definition log_impl (n : nat) : H unit :=
  _ ← charge (GAS_LOG * (1 + Z.of_nat n));
  _ ← need (2 + n);
  _ ← static_check;
  o ← slot 0; z ← slot 1;
  let off := mem_arg o in let size := mem_arg z in
  _ ← mem_expand off size;
  _ ← charge (size * GAS_LOGDATA);
  topics ← topics_from 2 n;
  bs ← window off size;
  m ← getf evmcMsg;
  _ ← host (emit_log (recipient m) bs topics);
  _ ← drops (2 + n);
  advance 1.

(** ** Calls *)

Definition CALL_VALUE_COST : Z := 9000.
Definition ACCOUNT_CREATION : Z := 25000.
Definition CALL_STIPEND : Z := 2300.
Definition CALL_VALUE_COST_AMSTERDAM : Z := ACCOUNT_WRITE + CALL_STIPEND.

(** [req_gas]: the gas operand, saturated. *)
Definition call_gas_arg (g : U256) : Z :=
  if negb (high_zero g) || (INT64_MAX <? l0 g) then INT64_MAX else l0 g.

(** The delegate named by a 23-byte designator 0xef0100 || address. *)
Definition delegate_of (desig : bytes) : option Z :=
  match desig with
  | Byte.xef :: Byte.x01 :: Byte.x00 :: a => if (length a =? 20)%nat then Some (be_val a) else None
  | _ => None
  end.

(** EIP-7702: where the callee's code is, charging the delegate's access. *)
Definition resolve_delegate (dst : Z) : H Z :=
  prague ← is_ge EVMC_PRAGUE;
  if negb prague then mret dst else
  desig ← host (copy_code dst 0 23);
  match delegate_of desig with
  | None => mret dst
  | Some code_addr =>
      st ← access_account code_addr;
      r ← getf rev;
      _ ← charge (match st with ACCESS_COLD => cold_account_access r | ACCESS_WARM => WARM_ACCESS end);
      mret code_addr
  end.

(** The new-account charge; returns [new_account_charged]. *)
Definition charge_new_account : H bool :=
  amsterdam ← is_ge EVMC_AMSTERDAM;
  if amsterdam : bool then _ ← charge_state NEW_ACCOUNT_STATE_GAS; mret true
  else _ ← charge ACCOUNT_CREATION; mret false.
Definition refill_new_account (charged : bool) : H unit :=
  if charged then modf (state_gas_refill NEW_ACCOUNT_STATE_GAS) else mret tt.

(** A value-carrying CALL to a missing account pays for it. *)
Definition charge_callee (kind : call_kind) (nonzero_value : bool) (dst : Z) : H bool :=
  match kind with
  | CALL => if nonzero_value then
              e ← host (account_exists dst);
              if negb e then charge_new_account else mret false
            else mret false
  | _ => mret false
  end.

(** The stipend comes with a transferred value; [false] when the caller's balance
    can't cover it. *)
Definition stipend_and_balance (has_value nonzero_value : bool) (v : Z) : H bool :=
  if has_value && nonzero_value then
    _ ← modf (λ f, set_gas (evm_gas f + CALL_STIPEND) f);
    m ← getf evmcMsg;
    bal ← host (get_balance (recipient m));
    mret (negb (bal <? v))
  else mret true.

(** Gas, refund and state gas of a finished child. *)
Definition absorb_result (child_gas : Z) (r : Result) : H unit :=
  _ ← modf (λ f, set_gas (evm_gas f - (child_gas - gas_left r)) f);
  _ ← modf (λ f, set_refund (evm_refund f + gas_refund r) f);
  amsterdam ← is_ge EVMC_AMSTERDAM;
  if amsterdam : bool then modf (absorb_child_state_gas r) else mret tt.

(** The child of a call opcode. *)
Definition child_message (f : EvmState) (kind : call_kind) (has_value static_forced : bool)
    (dst code_addr call_gas v : Z) (input : bytes) : message :=
  let m := evmcMsg f in
  mkMessage kind (if static_forced then true else is_static m) (negb (dst =? code_addr)) (depth m + 1)
    call_gas (state_gas_left f)
    (match kind with CALL => dst | _ => recipient m end)
    (match kind with DELEGATECALL => sender m | _ => recipient m end)
    input
    (match kind with DELEGATECALL => value m | _ => if has_value then v else 0 end)
    code_addr None.

(** Push the outcome in the place of the [nargs] operands. *)
Definition finish (nargs : nat) (v : U256) : H unit := _ ← leave nargs v; advance 1.

(** The operands of a call: in the order of the stack, the value only for CALL
    and CALLCODE. *)
Record call_args := mkArgs {
  req_gas : Z; dst_ : Z; value_ : U256; in_off : Z; in_size : Z; out_off : Z; out_size : Z }.
Definition read_call_args (has_value : bool) : H call_args :=
  let b := if has_value then 3%nat else 2%nat in
  g ← slot 0; d ← slot 1;
  v ← (if has_value then slot 2 else mret zero);
  io ← slot b; isz ← slot (b + 1); oo ← slot (b + 2); osz ← slot (b + 3);
  mret (mkArgs (call_gas_arg g) (addr_from_slot d) v (mem_arg io) (mem_arg isz) (mem_arg oo) (mem_arg osz)).

(** A finished child: its output into the window, its return data, its gas, and
    the flag on the stack. *)
Definition settle_call (nargs : nat) (a : call_args) (charged : bool) (child_gas : Z) (r : Result) : H unit :=
  let copy := Z.min (out_size a) (len (output r)) in
  _ ← (if 0 <? copy then data_store (out_off a) (take (Z.to_nat copy) (output r)) else mret tt);
  _ ← modf (set_returnData (output r));
  _ ← absorb_result child_gas r;
  amsterdam ← is_ge EVMC_AMSTERDAM;
  _ ← (if amsterdam && negb (success r) then refill_new_account charged else mret tt);
  finish nargs (if success r then one else zero).

(** From the end of the charges to the result on the stack. *)
Definition call_child (kind : call_kind) (has_value static_forced : bool) (nargs : nat) (a : call_args)
    (nonzero_value : bool) (code_addr : Z) (charged : bool) : H unit :=
  g ← getf evm_gas;
  let cap := g - g / 64 in
  let call_gas := if cap <? req_gas a then cap else req_gas a in
  input ← window (in_off a) (in_size a);
  msg ← getf (λ f, child_message f kind has_value static_forced (dst_ a) code_addr
                     (if has_value && nonzero_value then call_gas + CALL_STIPEND else call_gas)
                     (to_wire (value_ a)) input);
  funded ← stipend_and_balance has_value nonzero_value (to_wire (value_ a));
  if negb funded then _ ← refill_new_account charged; finish nargs zero else
  m ← getf evmcMsg;
  if kMaxCallDepth <=? depth m then _ ← refill_new_account charged; finish nargs zero else
  r ← host (host_call msg);
  settle_call nargs a charged (gas msg) r.

Definition call_impl (kind : call_kind) (has_value static_forced : bool) : H unit :=
  _ ← modf (set_self_balance None);
  let nargs := if has_value then 7%nat else 6%nat in
  _ ← charge WARM_ACCESS;
  _ ← need nargs;
  a ← read_call_args has_value;
  let nonzero_value := has_value && negb (u256_is_zero (value_ a)) in
  _ ← modf (set_returnData []);
  m ← getf evmcMsg;
  r ← getf rev;
  if match kind with CALL => nonzero_value && is_static m | _ => false end
  then halt STATIC_MODE_VIOLATION else
  _ ← mem_expand (in_off a) (in_size a);
  _ ← mem_expand (out_off a) (out_size a);
  _ ← (if has_value && nonzero_value
       then charge (if rev_ge r EVMC_AMSTERDAM then CALL_VALUE_COST_AMSTERDAM else CALL_VALUE_COST)
       else mret tt);
  _ ← charge_account_access (dst_ a);
  code_addr ← resolve_delegate (dst_ a);
  charged ← charge_callee kind nonzero_value (dst_ a);
  call_child kind has_value static_forced nargs a nonzero_value code_addr charged.

Definition op_call : H unit := call_impl CALL true false.
Definition op_callcode : H unit := call_impl CALLCODE true false.
Definition op_delegatecall : H unit := call_impl DELEGATECALL false false.
Definition op_staticcall : H unit := call_impl CALL false true.

(** ** Creates *)

Definition GAS_CREATE : Z := 32000.
Definition MAX_INITCODE_SIZE : Z := 0xC000.
Definition MAX_INITCODE_SIZE_AMSTERDAM : Z := 0x20000.
Definition INITCODE_WORD_COST : Z := 2.
Definition KECCAK_WORD_COST : Z := 6.

(** EIP-3860: the size cap, and the price of the words. *)
Definition charge_initcode (is2 : bool) (size : Z) : H unit :=
  r ← getf rev;
  let eip3860 := rev_ge r EVMC_SHANGHAI in
  let max_init := if rev_ge r EVMC_AMSTERDAM then MAX_INITCODE_SIZE_AMSTERDAM else MAX_INITCODE_SIZE in
  if eip3860 && (max_init <? size) then halt OUT_OF_GAS else
  let word_cost := (if is2 then KECCAK_WORD_COST else 0) + (if eip3860 then INITCODE_WORD_COST else 0) in
  if word_cost =? 0 then mret tt else charge (num_words size * word_cost).

(** EIP-2929: the new address is warm whatever the outcome. *)
Definition warm_new_address (new_addr : Z) : H unit :=
  berlin ← is_ge EVMC_BERLIN;
  if berlin : bool then _ ← access_account new_addr; mret tt else mret tt.
(** EIP-8037: the state gas of a new account; returns [new_account_charged]. *)
Definition charge_created (new_addr : Z) : H bool :=
  amsterdam ← is_ge EVMC_AMSTERDAM;
  if amsterdam : bool then
    e ← host (account_exists new_addr);
    if negb e then _ ← charge_state NEW_ACCOUNT_STATE_GAS; mret true else mret false
  else mret false.
(** A finished init frame: its gas, its return data, the address or zero. *)
Definition settle_create (charged : bool) (child_gas new_addr : Z) (r : Result) : H U256 :=
  _ ← absorb_result child_gas r;
  amsterdam ← is_ge EVMC_AMSTERDAM;
  _ ← (if amsterdam && negb (success r) then refill_new_account charged else mret tt);
  _ ← modf (set_returnData (output r));
  mret (if success r then slot_from_address new_addr else zero).

Definition create_child (kind : call_kind) (new_addr v : Z) (init : bytes) : H U256 :=
  _ ← warm_new_address new_addr;
  charged ← charge_created new_addr;
  g ← getf evm_gas;
  msg ← getf (λ f, mkMessage kind false false (depth (evmcMsg f) + 1) (g - g / 64) (state_gas_left f)
                     new_addr (recipient (evmcMsg f)) init v 0 None);
  r ← host (host_call msg);
  settle_create charged (gas msg) new_addr r.

Definition create_impl (kind : call_kind) : H unit :=
  _ ← modf (set_self_balance None);
  let is2 := match kind with CREATE2 => true | _ => false end in
  let nargs := if is2 then 4%nat else 3%nat in
  r ← getf rev;
  _ ← charge (if rev_ge r EVMC_AMSTERDAM then CREATE_ACCESS else GAS_CREATE);
  _ ← need nargs;
  _ ← static_check;
  v ← slot 0; o ← slot 1; z ← slot 2;
  salt ← (if is2 then slot 3 else mret zero);
  let off := mem_arg o in let size := mem_arg z in
  _ ← modf (set_returnData []);
  _ ← mem_expand off size;
  _ ← charge_initcode is2 size;
  m ← getf evmcMsg;
  if kMaxCallDepth <=? depth m then finish nargs zero else
  funded ← (if negb (u256_is_zero v) then
              bal ← host (get_balance (recipient m)); mret (negb (bal <? to_wire v))
            else mret true);
  if negb funded then finish nargs zero else
  sender_nonce ← host (get_nonce (recipient m));
  if sender_nonce =? StateDb.UINT64_MAX then finish nargs zero else
  init ← window off size;
  let new_addr := if is2 then CreateAddress.compute_create2_address keccak256 (recipient m) (to_wire salt) init
                  else CreateAddress.compute_create_address keccak256 (recipient m) sender_nonce in
  res ← create_child kind new_addr (to_wire v) init;
  finish nargs res.

Definition op_create : H unit := create_impl CREATE.
Definition op_create2 : H unit := create_impl CREATE2.

(** ** RETURN, REVERT, return data, SELFDESTRUCT *)

Definition return_impl (st : status_code) : H unit :=
  _ ← need 2;
  o ← slot 0; z ← slot 1;
  let off := mem_arg o in let size := mem_arg z in
  _ ← (if 0 <? size then _ ← mem_expand off size; modf (set_output off size)
       else modf (λ f, set_output (output_offset f) 0 f));
  halt st.
Definition op_return : H unit := return_impl SUCCESS.
Definition op_revert : H unit := return_impl REVERT.

Definition op_returndatasize : H unit :=
  _ ← charge GAS_BASE; _ ← room; d ← getf returnData; push (of_u64 (len d)).

Definition op_returndatacopy : H unit :=
  _ ← charge GAS_VERYLOW; _ ← need 3;
  a ← slot 0; b ← slot 1; c ← slot 2;
  let mem_off := mem_arg a in let ret_off := mem_arg b in let size := mem_arg c in
  _ ← mem_expand mem_off size;
  d ← getf returnData;
  let rds := len d in
  if (rds <? ret_off) || (rds - ret_off <? size) then halt INVALID_MEMORY_ACCESS else
  _ ← charge (3 * (u64 (size + 31) / 32));
  _ ← (if 0 <? size then data_store mem_off (take (Z.to_nat size) (drop (Z.to_nat ret_off) d)) else mret tt);
  drops 3.

Definition op_invalid : H unit := halt INVALID_INSTRUCTION.

Definition SELFDESTRUCT_GAS : Z := 5000.
Definition SELFDESTRUCT_REFUND : Z := 24000.
(** The beneficiary's cold access: the full cost, there is no warm base. *)
Definition charge_beneficiary (ben : Z) : H unit :=
  r ← getf rev;
  if negb (rev_ge r EVMC_BERLIN) then mret tt else
  st ← access_account ben;
  match st with ACCESS_COLD => charge (cold_account_access r) | ACCESS_WARM => mret tt end.
(** The surcharge for a beneficiary that does not exist yet. *)
Definition charge_new_beneficiary (bal ben : Z) : H unit :=
  r ← getf rev;
  if negb (bal =? 0) then
    e ← host (account_exists ben);
    if negb e then
      if rev_ge r EVMC_AMSTERDAM then _ ← charge ACCOUNT_WRITE; charge_state NEW_ACCOUNT_STATE_GAS
      else charge ACCOUNT_CREATION
    else mret tt
  else mret tt.
Definition op_selfdestruct : H unit :=
  _ ← charge SELFDESTRUCT_GAS;
  _ ← need 1;
  _ ← static_check;
  b ← slot 0;
  m ← getf evmcMsg;
  let ben := addr_from_slot b in
  _ ← charge_beneficiary ben;
  bal ← host (get_balance (recipient m));
  _ ← charge_new_beneficiary bal ben;
  first ← host (selfdestruct (recipient m) ben);
  r ← getf rev;
  _ ← (if first && negb (rev_ge r EVMC_LONDON)
       then modf (λ f, set_refund (evm_refund f + SELFDESTRUCT_REFUND) f) else mret tt);
  halt SUCCESS.

(** ** Dispatch *)

(** [run_dispatch]: the loop instance of a revision (one per opcode set). *)
Definition loop_revision (r : revision) : revision :=
  match r with
  | EVMC_BERLIN => EVMC_BERLIN
  | EVMC_LONDON | EVMC_PARIS => EVMC_LONDON
  | EVMC_SHANGHAI => EVMC_SHANGHAI
  | EVMC_CANCUN | EVMC_PRAGUE => EVMC_CANCUN
  | EVMC_OSAKA => EVMC_OSAKA
  | EVMC_AMSTERDAM => EVMC_AMSTERDAM
  end.

(** The macros: run the handler; advance pc for the regular ones; an opcode gated
    by a later revision is undefined. *)
Definition OP (h : H unit) : H unit := h.
Definition OPS (h : H unit) : H unit := _ ← h; advance 1.
Definition gate (r : revision) (h : H unit) : H unit :=
  b ← getf (λ f, rev_ge (loop_revision (rev f)) r);
  if b : bool then h else halt UNDEFINED_INSTRUCTION.
Definition OPG (r : revision) (h : H unit) : H unit := gate r (OP h).
Definition OPSG (r : revision) (h : H unit) : H unit := gate r (OPS h).

(** The gates up to Istanbul are open in every revision of the guest. *)
Definition dispatch (op : byte) : H unit :=
  match op with
  | Byte.x00 => OP op_stop
  | Byte.x01 => OPS (do_alu2 ADD)
  | Byte.x02 => OPS (do_alu2 MUL)
  | Byte.x03 => OPS (do_alu2 SUB)
  | Byte.x04 => OPS (do_alu2 DIV)
  | Byte.x05 => OPS (do_alu2 SDIV)
  | Byte.x06 => OPS (do_alu2 MOD)
  | Byte.x07 => OPS (do_alu2 SMOD)
  | Byte.x08 => OPS (do_alu3 ADDMOD)
  | Byte.x09 => OPS (do_alu3 MULMOD)
  | Byte.x0a => OPS do_exp
  | Byte.x0b => OPS (do_alu2 SIGNEXTEND)
  | Byte.x10 => OPS (do_alu2 LT)
  | Byte.x11 => OPS (do_alu2 GT)
  | Byte.x12 => OPS (do_alu2 SLT)
  | Byte.x13 => OPS (do_alu2 SGT)
  | Byte.x14 => OPS (do_alu2 EQ)
  | Byte.x15 => OPS (do_alu1 ISZERO)
  | Byte.x16 => OPS (do_alu2 AND)
  | Byte.x17 => OPS (do_alu2 OR)
  | Byte.x18 => OPS (do_alu2 XOR)
  | Byte.x19 => OPS (do_alu1 NOT)
  | Byte.x1a => OPS (do_alu2 BYTE)
  | Byte.x1b => OPS (do_alu2 SHL)
  | Byte.x1c => OPS (do_alu2 SHR)
  | Byte.x1d => OPS (do_alu2 SAR)
  | Byte.x1e => OPSG EVMC_OSAKA (do_alu1 CLZ)
  | Byte.x20 => OPS op_keccak256
  | Byte.x30 => OPS op_address
  | Byte.x31 => OPS op_balance
  | Byte.x32 => OPS op_origin
  | Byte.x33 => OPS op_caller
  | Byte.x34 => OPS op_callvalue
  | Byte.x35 => OPS op_calldataload
  | Byte.x36 => OPS op_calldatasize
  | Byte.x37 => OPS op_calldatacopy
  | Byte.x38 => OPS op_codesize
  | Byte.x39 => OPS op_codecopy
  | Byte.x3a => OPS op_gasprice
  | Byte.x3b => OPS op_extcodesize
  | Byte.x3c => OPS op_extcodecopy
  | Byte.x3d => OPS op_returndatasize
  | Byte.x3e => OPS op_returndatacopy
  | Byte.x3f => OPS op_extcodehash
  | Byte.x40 => OPS op_blockhash
  | Byte.x41 => OPS op_coinbase
  | Byte.x42 => OPS op_timestamp
  | Byte.x43 => OPS op_number
  | Byte.x44 => OPS op_prevrandao
  | Byte.x45 => OPS op_gaslimit
  | Byte.x46 => OPS op_chainid
  | Byte.x47 => OPS op_selfbalance
  | Byte.x48 => OPSG EVMC_LONDON op_basefee
  | Byte.x49 => OPSG EVMC_CANCUN op_blobhash
  | Byte.x4a => OPSG EVMC_CANCUN op_blobbasefee
  | Byte.x4b => OPSG EVMC_AMSTERDAM op_slotnum
  | Byte.x50 => OPS op_pop
  | Byte.x51 => OPS op_mload
  | Byte.x52 => OPS op_mstore
  | Byte.x53 => OPS op_mstore8
  | Byte.x54 => OPS op_sload
  | Byte.x55 => OPS op_sstore
  | Byte.x56 => OP op_jump
  | Byte.x57 => OP op_jumpi
  | Byte.x58 => OPS op_pc
  | Byte.x59 => OPS op_msize
  | Byte.x5a => OPS op_gas
  | Byte.x5b => OPS op_jumpdest
  | Byte.x5c => OPSG EVMC_CANCUN op_tload
  | Byte.x5d => OPSG EVMC_CANCUN op_tstore
  | Byte.x5e => OPSG EVMC_CANCUN op_mcopy
  | Byte.x5f => OPSG EVMC_SHANGHAI op_push0
  | Byte.x60 => OP (op_push 1)
  | Byte.x61 => OP (op_push 2)
  | Byte.x62 => OP (op_push 3)
  | Byte.x63 => OP (op_push 4)
  | Byte.x64 => OP (op_push 5)
  | Byte.x65 => OP (op_push 6)
  | Byte.x66 => OP (op_push 7)
  | Byte.x67 => OP (op_push 8)
  | Byte.x68 => OP (op_push 9)
  | Byte.x69 => OP (op_push 10)
  | Byte.x6a => OP (op_push 11)
  | Byte.x6b => OP (op_push 12)
  | Byte.x6c => OP (op_push 13)
  | Byte.x6d => OP (op_push 14)
  | Byte.x6e => OP (op_push 15)
  | Byte.x6f => OP (op_push 16)
  | Byte.x70 => OP (op_push 17)
  | Byte.x71 => OP (op_push 18)
  | Byte.x72 => OP (op_push 19)
  | Byte.x73 => OP (op_push 20)
  | Byte.x74 => OP (op_push 21)
  | Byte.x75 => OP (op_push 22)
  | Byte.x76 => OP (op_push 23)
  | Byte.x77 => OP (op_push 24)
  | Byte.x78 => OP (op_push 25)
  | Byte.x79 => OP (op_push 26)
  | Byte.x7a => OP (op_push 27)
  | Byte.x7b => OP (op_push 28)
  | Byte.x7c => OP (op_push 29)
  | Byte.x7d => OP (op_push 30)
  | Byte.x7e => OP (op_push 31)
  | Byte.x7f => OP (op_push 32)
  | Byte.x80 => OPS (op_dup 1)
  | Byte.x81 => OPS (op_dup 2)
  | Byte.x82 => OPS (op_dup 3)
  | Byte.x83 => OPS (op_dup 4)
  | Byte.x84 => OPS (op_dup 5)
  | Byte.x85 => OPS (op_dup 6)
  | Byte.x86 => OPS (op_dup 7)
  | Byte.x87 => OPS (op_dup 8)
  | Byte.x88 => OPS (op_dup 9)
  | Byte.x89 => OPS (op_dup 10)
  | Byte.x8a => OPS (op_dup 11)
  | Byte.x8b => OPS (op_dup 12)
  | Byte.x8c => OPS (op_dup 13)
  | Byte.x8d => OPS (op_dup 14)
  | Byte.x8e => OPS (op_dup 15)
  | Byte.x8f => OPS (op_dup 16)
  | Byte.x90 => OPS (op_swap 1)
  | Byte.x91 => OPS (op_swap 2)
  | Byte.x92 => OPS (op_swap 3)
  | Byte.x93 => OPS (op_swap 4)
  | Byte.x94 => OPS (op_swap 5)
  | Byte.x95 => OPS (op_swap 6)
  | Byte.x96 => OPS (op_swap 7)
  | Byte.x97 => OPS (op_swap 8)
  | Byte.x98 => OPS (op_swap 9)
  | Byte.x99 => OPS (op_swap 10)
  | Byte.x9a => OPS (op_swap 11)
  | Byte.x9b => OPS (op_swap 12)
  | Byte.x9c => OPS (op_swap 13)
  | Byte.x9d => OPS (op_swap 14)
  | Byte.x9e => OPS (op_swap 15)
  | Byte.x9f => OPS (op_swap 16)
  | Byte.xa0 => OP (log_impl 0)
  | Byte.xa1 => OP (log_impl 1)
  | Byte.xa2 => OP (log_impl 2)
  | Byte.xa3 => OP (log_impl 3)
  | Byte.xa4 => OP (log_impl 4)
  | Byte.xe6 => OPG EVMC_AMSTERDAM op_dupn
  | Byte.xe7 => OPG EVMC_AMSTERDAM op_swapn
  | Byte.xe8 => OPG EVMC_AMSTERDAM op_exchange
  | Byte.xf0 => OP op_create
  | Byte.xf1 => OP op_call
  | Byte.xf2 => OP op_callcode
  | Byte.xf3 => OP op_return
  | Byte.xf4 => OP op_delegatecall
  | Byte.xf5 => OP op_create2
  | Byte.xfa => OP op_staticcall
  | Byte.xfd => OP op_revert
  | Byte.xfe => OP op_invalid
  | Byte.xff => OP op_selfdestruct
  | _ => halt UNDEFINED_INSTRUCTION
  end.

(** One round of the loop: past the end of the code it is STOP. *)
Definition fetch : H byte :=
  p ← getf pc;
  size ← getf code_size;
  if p <? size then code_byte p else mret Byte.x00.
Definition step : H unit := op ← fetch; dispatch op.

(** The loop, until a handler halts or the fuel is spent. *)
Inductive loop_result := Done (f : EvmState) | OutOfFuel | Stuck (what : string).
Fixpoint dispatch_loop (fuel : nat) (f : EvmState) : M loop_result :=
  match fuel with
  | O => mret OutOfFuel
  | S fuel =>
      '(r, f) ← step f;
      match r with
      | Next _ => dispatch_loop fuel f
      | Halted => mret (Done f)
      | Undefined e => mret (Stuck e)
      end
  end.

(** The result of a halted frame. *)
Definition failed_state_gas (f : EvmState) : EvmState :=
  if rev_ge (rev f) EVMC_AMSTERDAM && negb (bool_decide (evm_status f = SUCCESS)) then
    set_state_gas (msg_state_gas (evmcMsg f)) 0 (set_gas (evm_gas f + state_gas_spilled f) f)
  else f.
Definition result_of (f : EvmState) (out : bytes) : Result :=
  let f := failed_state_gas f in
  let ok := bool_decide (evm_status f = SUCCESS) in
  mkResult (evm_status f)
    (if ok || bool_decide (evm_status f = REVERT) then evm_gas f else 0)
    (if ok then evm_refund f else 0)
    out (mkStateGas (state_gas_left f) (state_gas_spilled f)).

(** [run]: a fresh memory frame, the loop, the result, the frame's release.  Every
    round but the last consumes gas, so the gas bounds the rounds. *)
Definition run (msg : message) (c : bytes) : M Result :=
  r ← active_revision;
  let f := reset msg c r in
  _ ← (λ s, match EvmMem.createMemory (evm_mem s) with
            | Ok (_, m) => Ok (tt, put_mem m s) | Fatal e => Fatal e end);
  out ← dispatch_loop (S (Z.to_nat (gas msg))) f;
  match out with
  | OutOfFuel => fatal "the loop did not halt"
  | Stuck e => fatal e
  | Done f =>
      bs ← (if output_size f =? 0 then mret [] else λ s,
              match EvmMem.data_read (output_offset f) (output_size f) (evm_mem s) with
              | Ok bs => Ok (bs, s) | Fatal e => Fatal e end);
      _ ← modify (λ s, put_mem (EvmMem.destroyMemory (evm_mem s)) s);
      mret (result_of f bs)
  end.

End Ops.

(** ** The machine: frames run the interpreter, whose calls run frames *)

Section Machine.
Context (keccak256 : bytes → Z).
Context (is_precompile : revision → Z → bool).
Context (call_precompile : revision → message → Result).
Context (ecrecover_address : Z → Z → Z → Z → option Z).
Context (evmone_state_gas_charge : StateGas → Z → Z → option (Z * StateGas)).

Abbreviation call_with vm := (StateDb.call keccak256 is_precompile call_precompile ecrecover_address
  evmone_state_gas_charge COST_PER_STATE_BYTE vm).

(** [levels] bounds the nesting of frames; the depth limit keeps it from running
    out. *)
Fixpoint zevm (levels : nat) (msg : message) (c : bytes) : M Result :=
  match levels with
  | O => fatal "frames nested too deep"
  | S levels => run keccak256 is_precompile (call_with (zevm levels)) msg c
  end.

(** The host's [call] with the interpreter as its VM: frames live at the depths 0
    to 1024. *)
Definition machine_call (msg : message) : M Result :=
  call_with (zevm (Z.to_nat (1025 - depth msg))) msg.

End Machine.
End Zevm.
