(* ===== verification/Sample.v ===== *)
(** A small concrete world to run the machine on: an externally owned account, two
    contracts, two storage slots; a toy hash, no precompiles.  The witnesses of the machine's theorems evaluate it. *)

From stdpp Require Import base numbers list strings gmap.
From S2P Require Import Prelude Fork Rlp Receipt Contracts Chain Bal EvmMem Accounts Storages Transient Journal StateDb U256 Zevm.

Module Sample.
Import Rlp Receipt Fork Journal StateDb U256 Zevm.

Definition toy_keccak (b : bytes) : Z := 1000 + foldl (λ a x, a * 3 + b2z x) 0 b.
Definition no_precompile (r : revision) (a : Z) : bool := false.
Definition failing_precompile (r : revision) (m : message) : Result := no_output FAILURE 0 m.
Definition no_recovery (h r s v : Z) : option Z := None.

(** evmone's [StateGas::charge]: the reservoir first, the rest from the gas. *)
Definition toy_state_gas_charge (sg : StateGas) (g cost : Z) : option (Z * StateGas) :=
  if cost <=? sg_left sg then Some (g, mkStateGas (sg_left sg - cost) (sg_spilled sg)) else
  let spill := cost - sg_left sg in
  if g <? spill then None else Some (g - spill, mkStateGas 0 (sg_spilled sg + spill)).

Definition eoa : Z := 0xa1.
Definition caller : Z := 0xc1.
Definition callee : Z := 0xc2.

(** Stores 7 at slot 1, calls [callee] with its whole gas, returns the flag. *)
Definition caller_code : bytes :=
  [Byte.x60; Byte.x07; Byte.x60; Byte.x01; Byte.x55;                          (* SSTORE(1, 7) *)
   Byte.x60; Byte.x00; Byte.x60; Byte.x00; Byte.x60; Byte.x00; Byte.x60; Byte.x00;
   Byte.x60; Byte.x00; Byte.x60; Byte.xc2; Byte.x5a; Byte.xf1;                (* CALL(GAS, callee, 0, ...) *)
   Byte.x60; Byte.x00; Byte.x52;                                              (* MSTORE(0, flag) *)
   Byte.x60; Byte.x20; Byte.x60; Byte.x00; Byte.xf3].                         (* RETURN(0, 32) *)
(** Stores 9 at its slot 2, then reverts. *)
Definition callee_code : bytes :=
  [Byte.x60; Byte.x09; Byte.x60; Byte.x02; Byte.x55; Byte.x60; Byte.x00; Byte.x60; Byte.x00; Byte.xfd].

Definition sample_accounts : Accounts.Accounts :=
  default Accounts.accounts0
    (match
      ('(_, a) ← Accounts.append eoa 5 1000 EMPTY_CODE_HASH (Accounts.reserve 3 Accounts.accounts0);
       '(_, a) ← Accounts.append caller 1 0 (toy_keccak caller_code) a;
       '(_, a) ← Accounts.append callee 1 0 (toy_keccak callee_code) a;
       Ok a) with Ok a => Some a | Fatal _ => None end).
Definition sample_storages : Storages.Storages :=
  default Storages.storages0
    (match
      ('(_, a) ← Storages.append caller 1 0 (Storages.reserve 2 Storages.storages0);
       '(_, a) ← Storages.append callee 2 0 a;
       Ok a) with Ok a => Some a | Fatal _ => None end).
Definition sample_contracts : Contracts.Contracts :=
  Contracts.mkContracts
    [Contracts.mkContract (toy_keccak caller_code) caller_code false;
     Contracts.mkContract (toy_keccak callee_code) callee_code false]
    {[toy_keccak caller_code := 0%nat; toy_keccak callee_code := 1%nat]} [].
Definition sample_tx : TxContext := mkTxContext 1 eoa 0xfee 100 1700000000 30000000 0 1 1 1 [] 0.

(** The transaction counter starts at 1: everything is cold. *)
Definition sample_db (fork : Z) : StateDB :=
  mkDB (mkWorld sample_accounts sample_storages WarmKeys.warm0 (TransientStorage.mkTransient ∅) ∅)
    [] sample_contracts 1 [mkReceipt Legacy true 0 [] []] false ∅ ∅ kNoBalPending fork sample_tx 100
    (Chain.mkBlocks [] []) EvmMem.initial.

Definition sample_msg (gas value : Z) : message :=
  mkMessage CALL false false 0 gas 0 caller eoa [] value caller None.

Definition sample_call (m : message) : M Result :=
  machine_call toy_keccak no_precompile failing_precompile no_recovery toy_state_gas_charge m.

End Sample.
