(* ===== verification/EvmFrame.v ===== *)
(** What the interpreter relies on from its host and its memory: host callbacks
    leave the EVM memory alone, the memory manager keeps the frames below the
    current one; and a weakest-precondition calculus for opcode handlers. *)

From stdpp Require Import base numbers list strings gmap.
From S2P Require Import Prelude Fork Rlp Receipt Contracts Chain CreateAddress Bal Jumpdest EvmMem Accounts Storages Transient Journal StateDb HostProofs Frames U256 Alu Zevm.

Set Default Goal Selector "!".

Module EvmFrame.
Import Rlp Receipt Fork Journal StateDb HostProofs Frames U256 Zevm.

(** ** Host callbacks do not touch the EVM memory *)

Definition keeps_mem {A} (m : M A) : Prop := ∀ s a s', m s = Ok (a, s') → evm_mem s' = evm_mem s.

Lemma km_ret {A} (a : A) : keeps_mem (mret a).
Proof. by intros s b s' [= _ <-]. Qed.
Lemma km_bind {A B} (m : M A) (k : A → M B) :
  keeps_mem m → (∀ a, keeps_mem (k a)) → keeps_mem (m ≫= k).
Proof.
  intros Hm Hk s b s' H. apply bind_run in H as (a & s1 & H1 & H2).
  rewrite (Hk a _ _ _ H2). by eapply Hm.
Qed.
Lemma km_pure {A} (m : M A) : pure m → keeps_mem m.
Proof. intros Hm s a s' H. by rewrite (Hm _ _ _ H). Qed.
Lemma km_fatal {A} e : keeps_mem (fatal (A := A) e).
Proof. done. Qed.
Lemma km_modify f : (∀ s, evm_mem (f s) = evm_mem s) → keeps_mem (modify f).
Proof. intros Hf s a s' [= _ <-]. apply Hf. Qed.
Lemma km_when b m : keeps_mem m → keeps_mem (when b m).
Proof. destruct b; [done|]. intros _. apply km_ret. Qed.
Lemma km_gets {A} (f : StateDB → A) : keeps_mem (gets f).
Proof. apply km_pure, pure_gets. Qed.
Lemma km_lift {A} (r : res A) : keeps_mem (lift r).
Proof. apply km_pure, pure_lift. Qed.
Lemma km_acc {A} (f : Accounts.Accounts → res A) : keeps_mem (acc f).
Proof. apply km_pure, pure_acc. Qed.
Lemma km_sto {A} (f : Storages.Storages → res A) : keeps_mem (sto f).
Proof. apply km_pure, pure_sto. Qed.
Lemma km_acc_upd f : keeps_mem (acc_upd f).
Proof. by intros s a s' (x & _ & ->)%acc_upd_run. Qed.
Lemma km_sto_upd f : keeps_mem (sto_upd f).
Proof. by intros s a s' (x & _ & ->)%sto_upd_run. Qed.
Lemma km_acc_run {A} (f : Accounts.Accounts → res (A * Accounts.Accounts)) : keeps_mem (acc_run f).
Proof. intros s a s' H. unfold acc_run in H. destruct (f _) as [[x y]|]; [|done]. by injection H as _ <-. Qed.
Lemma km_bal_run {A} (f : Bal.BlockAccessList → res (A * Bal.BlockAccessList)) : keeps_mem (bal_run f).
Proof. intros s a s' H. unfold bal_run in H. repeat case_match; try done. by injection H as _ <-. Qed.
Lemma km_find a k : keeps_mem (storages_find a k).
Proof. intros s i s' H. unfold storages_find in H. case_match. by injection H as _ <-. Qed.
Lemma km_log f : keeps_mem (log f).
Proof. by apply km_modify. Qed.

Create HintDb keeps_mem discriminated.
#[export] Hint Resolve km_ret km_fatal km_gets km_lift km_acc km_sto km_acc_upd km_sto_upd km_acc_run
  km_bal_run km_find km_log : keeps_mem.

(** A host operation is a sequence of such steps. *)
Ltac keep_mem :=
  intros; repeat (cbv zeta; match goal with
  | |- keeps_mem (mbind _ _) => apply km_bind; [|intros ?]
  | |- keeps_mem (when _ _) => apply km_when
  | |- keeps_mem (modify _) => by apply km_modify
  | |- keeps_mem (match ?x with _ => _ end) => destruct x
  | |- keeps_mem _ => solve [auto with keeps_mem nocore]
  end).

Lemma km_commit : keeps_mem bal_commit_pending.
Proof. unfold bal_commit_pending. keep_mem. Qed.
Lemma km_storage_row a k : keeps_mem (storage_row a k).
Proof. unfold storage_row. keep_mem. Qed.
Lemma km_bal_slot i : keeps_mem (bal_slot i).
Proof. unfold bal_slot. keep_mem. Qed.
Lemma km_old_balance i : keeps_mem (log_old_balance i).
Proof. unfold log_old_balance. keep_mem. Qed.
Lemma km_set_balance i v : keeps_mem (set_balance_idx i v).
Proof. unfold set_balance_idx, tx_counter. keep_mem. Qed.
#[export] Hint Resolve km_commit km_storage_row km_bal_slot km_old_balance km_set_balance : keeps_mem.

Lemma km_emit_log a d t : keeps_mem (emit_log a d t).
Proof. unfold emit_log. keep_mem. Qed.
#[export] Hint Resolve km_emit_log : keeps_mem.
Lemma km_transfer_log a b v : keeps_mem (emit_transfer_log a b v).
Proof. unfold emit_transfer_log, is_amsterdam_or_later. keep_mem. Qed.
Lemma km_register_destruct i : keeps_mem (register_destruct i).
Proof. unfold register_destruct. keep_mem. Qed.
Lemma km_read_code_hash a : keeps_mem (read_code_hash a).
Proof. unfold read_code_hash, tx_counter. keep_mem. Qed.
Lemma km_contract h : keeps_mem (contract_by_hash h).
Proof. unfold contract_by_hash. keep_mem. Qed.
#[export] Hint Resolve km_transfer_log km_register_destruct km_read_code_hash km_contract : keeps_mem.

Lemma km_account_exists a : keeps_mem (account_exists a).
Proof. unfold account_exists, account_row. keep_mem. Qed.
#[export] Hint Resolve km_account_exists : keeps_mem.
Lemma km_get_storage a k : keeps_mem (get_storage a k).
Proof. unfold get_storage, bal_on, tx_counter. keep_mem. Qed.
Lemma km_set_storage a k v : keeps_mem (set_storage a k v).
Proof. unfold set_storage, bal_on, tx_counter. keep_mem. Qed.
Lemma km_get_transient a k : keeps_mem (get_transient_storage a k).
Proof. unfold get_transient_storage. keep_mem. Qed.
Lemma km_set_transient a k v : keeps_mem (set_transient_storage a k v).
Proof.
  unfold set_transient_storage. apply km_bind; [apply km_commit|]. intros _.
  apply km_bind; [|keep_mem]. intros s p s' H. case_match. by injection H as _ <-.
Qed.
Lemma km_get_balance a : keeps_mem (get_balance a).
Proof. unfold get_balance, tx_counter. keep_mem. Qed.
Lemma km_get_nonce a : keeps_mem (get_nonce a).
Proof. unfold get_nonce, tx_counter. keep_mem. Qed.
Lemma km_get_code_size a : keeps_mem (get_code_size a).
Proof. unfold get_code_size. keep_mem. Qed.
Lemma km_get_code_hash a : keeps_mem (get_code_hash a).
Proof. unfold get_code_hash. keep_mem. Qed.
Lemma km_copy_code a o n : keeps_mem (copy_code a o n).
Proof. unfold copy_code. keep_mem. Qed.
Lemma km_code_and_entry a : keeps_mem (code_and_entry a).
Proof. unfold code_and_entry. keep_mem. Qed.
Lemma km_tx_context : keeps_mem get_tx_context.
Proof. unfold get_tx_context. keep_mem. Qed.
Lemma km_block_hash n : keeps_mem (get_block_hash n).
Proof. unfold get_block_hash. keep_mem. Qed.
Lemma km_selfdestruct a b : keeps_mem (selfdestruct a b).
Proof. unfold selfdestruct, account_row, is_cancun_or_later, is_amsterdam_or_later. keep_mem. Qed.
Lemma km_access_account p a : keeps_mem (access_account p a).
Proof.
  unfold access_account, active_revision, bal_on, tx_counter, account_row, pending_row, account_row. keep_mem.
Qed.
Lemma km_access_storage a k : keeps_mem (access_storage a k).
Proof. unfold access_storage, tx_counter. keep_mem. Qed.
Lemma km_transfer a b v : keeps_mem (transfer_value a b v).
Proof. unfold transfer_value, account_row. keep_mem. Qed.
Lemma km_bal_load a : keeps_mem (bal_load a).
Proof. unfold bal_load, account_row. keep_mem. Qed.
#[export] Hint Resolve km_get_storage km_set_storage km_get_transient km_set_transient km_get_balance
  km_get_nonce km_get_code_size km_get_code_hash km_copy_code km_code_and_entry km_tx_context
  km_block_hash km_selfdestruct km_access_account km_access_storage km_transfer km_bal_load : keeps_mem.

(** ** The two reads of the block context are journaled *)

Section Logic.
Context (is_precompile : revision → Z → bool).
Abbreviation ext := (HostProofs.ext is_precompile).
Abbreviation spec := (HostProofs.spec is_precompile).
Abbreviation live := (Frames.live is_precompile).
Abbreviation acct_warm := (HostProofs.acct_warm is_precompile).

Lemma journaled_tx_context : journaled is_precompile get_tx_context.
Proof.
  apply journaled_bind; [apply journaled_bal_commit|]. intros _. apply pure_journaled, pure_gets.
Qed.
Lemma journaled_block_hash n : journaled is_precompile (get_block_hash n).
Proof.
  apply journaled_bind; [apply journaled_bal_commit|]. intros _.
  apply journaled_bind; [apply pure_journaled, pure_gets|]. intros c. cbv zeta. case_match; [apply journaled_ret|].
  apply journaled_bind; [apply pure_journaled, pure_gets|]. intros b. case_match; [apply journaled_ret|].
  apply journaled_fatal.
Qed.
Lemma journaled_get_transient a k : journaled is_precompile (get_transient_storage a k).
Proof.
  apply journaled_bind; [apply journaled_bal_commit|]. intros _. apply pure_journaled, pure_gets.
Qed.

(** ** Frames *)

(** The gas a frame may still spend: its own, and what it may get back. *)
Definition budget (f : EvmState) : Z := evm_gas f + state_gas_spilled f.

Record frame_wf (f : EvmState) (s : StateDB) : Prop := {
  fw_gas : 0 ≤ evm_gas f;
  fw_spilled : 0 ≤ state_gas_spilled f;
  fw_left : 0 ≤ state_gas_left f;
  fw_stack : Forall wf (stack f);
  fw_depth : (length (stack f) ≤ kStackLimit)%nat;
  fw_mem : EvmMem.ready (evm_mem s);
  fw_out : EvmMem.covers (output_offset f) (output_size f) (evm_mem s);
  fw_live : live [recipient (evmcMsg f)] s;
  fw_pc : 0 ≤ pc f;
  fw_bits : code_size f ≤ 64 * Z.of_nat (length (jumpdestBitset f)) }.

(** What no handler changes, and the directions of the rest. *)
Record evolves (f : EvmState) (s : StateDB) (f' : EvmState) (s' : StateDB) : Prop := {
  ev_code : code f' = code f;
  ev_bitset : jumpdestBitset f' = jumpdestBitset f;
  ev_msg : evmcMsg f' = evmcMsg f;
  ev_rev : rev f' = rev f;
  ev_mem : EvmMem.mem_le (evm_mem s) (evm_mem s');
  ev_host : ext s s' }.

Lemma evolves_refl f s : evolves f s f s.
Proof. by split. Qed.
Lemma evolves_trans f1 s1 f2 s2 f3 s3 : evolves f1 s1 f2 s2 → evolves f2 s2 f3 s3 → evolves f1 s1 f3 s3.
Proof.
  intros [C1 B1 M1 R1 E1 H1] [C2 B2 M2 R2 E2 H2].
  split; try congruence; by etrans.
Qed.

(** ** Weakest preconditions *)

(** Every run of [m] keeps the frame well formed, evolves it, is free of undefined
    accesses, and when it goes on ends in [Q] with at least [d] of its budget spent
    ([d] is negative for a block that may be credited); a halt, possible only with
    [h] set, gains nothing. *)
Definition wp {A} (h : bool) (d : Z) (m : H A) (Q : A → EvmState → StateDB → Prop) (f : EvmState) (s : StateDB)
    : Prop :=
  ∀ o f' s', m f s = Ok (o, f', s') → evolves f s f' s' ∧ frame_wf f' s' ∧
    match o with
    | Next a => budget f' + d ≤ budget f ∧ Q a f' s'
    | Halted => h = true ∧ budget f' ≤ budget f
    | Undefined _ => False
    end.

Lemma wp_weaken {A} h h' d d' (m : H A) (Q Q' : A → EvmState → StateDB → Prop) f s :
  wp h d m Q f s → (h = true → h' = true) → d' ≤ d → (∀ a f' s', Q a f' s' → Q' a f' s') →
  wp h' d' m Q' f s.
Proof.
  intros Hm Hh Hd HQ o f' s' H. destruct (Hm o f' s' H) as (He & Hw & Ho). split; [done|]. split; [done|].
  destruct o; [| |done]; destruct Ho; split; auto; lia.
Qed.

Lemma wp_bind {A B} h d1 d2 d (m : H A) (k : A → H B) Q f s :
  (h = true → 0 ≤ d1) → d ≤ d1 + d2 →
  wp h d1 m (λ a f1 s1, wp h d2 (k a) Q f1 s1) f s → wp h d (m ≫= k) Q f s.
Proof.
  intros Hd1 Hd Hm o f' s' H. unfold mbind, H_bind in H.
  destruct (m f s) as [[[o1 f1] s1]|] eqn:E1; [|done].
  destruct (Hm _ _ _ E1) as (He1 & Hw1 & Ho1). destruct o1 as [a| |e]; [|by simplify_eq|done].
  destruct Ho1 as [Hs1 Hk]. destruct (Hk _ _ _ H) as (He2 & Hw2 & Ho2).
  split; [by eapply evolves_trans|]. split; [done|]. destruct o as [b'| |e]; [| |done];
    destruct Ho2 as [Hs2 HQ]; (split; [lia || done|]); [done|]. specialize (Hd1 Hs2). lia.
Qed.

(** The two uses: the first part spends, or the rest does. *)
Lemma wp_spend {A B} h d d' (m : H A) (k : A → H B) Q f s :
  (h = true → 0 ≤ d') → wp h d' m (λ a f1 s1, wp h (d - d') (k a) Q f1 s1) f s → wp h d (m ≫= k) Q f s.
Proof. intros Hd. apply wp_bind; [done|lia]. Qed.
Lemma wp_later {A B} h d (m : H A) (k : A → H B) Q f s :
  wp h 0 m (λ a f1 s1, wp h d (k a) Q f1 s1) f s → wp h d (m ≫= k) Q f s.
Proof. apply wp_bind; [done|lia]. Qed.

(** A pure step. *)
Lemma wp_ok {A} h (m : H A) a f s Q :
  m f s = Ok (Next a, f, s) → frame_wf f s → Q a f s → wp h 0 m Q f s.
Proof.
  intros E Hw HQ o f' s' H. rewrite E in H. simplify_eq. split; [apply evolves_refl|]. split; [done|].
  split; [lia|done].
Qed.

Lemma wp_ret {A} h (a : A) Q f s : frame_wf f s → Q a f s → wp h 0 (mret a) Q f s.
Proof. intros. by eapply wp_ok. Qed.
Lemma wp_getf {A} h (g : EvmState → A) Q f s : frame_wf f s → Q (g f) f s → wp h 0 (getf g) Q f s.
Proof. intros. by eapply wp_ok. Qed.

(** A step that changes the frame only. *)
Lemma wp_step {A} h d (m : H A) a f f' s Q :
  m f s = Ok (Next a, f', s) → frame_wf f' s → evolves f s f' s →
  budget f' + d ≤ budget f → Q a f' s → wp h d m Q f s.
Proof. intros E Hw He Hb HQ o f1 s1 H. rewrite E in H. simplify_eq. auto. Qed.

Lemma wf_status st f s : frame_wf f s → frame_wf (set_status st f) s.
Proof. by intros []. Qed.
Lemma wp_halt {A} d st (Q : A → EvmState → StateDB → Prop) f s : frame_wf f s → wp true d (halt st) Q f s.
Proof.
  intros Hw o f' s' [= <- <- <-]. split; [by split|]. split; [by apply wf_status|].
  split; [done|unfold budget; cbn; lia].
Qed.

(** ** Rules for the frame's own steps *)

(** Changes the invariant does not look at. *)
Definition cosmetic (g : EvmState → EvmState) : Prop := ∀ f,
  code (g f) = code f ∧ jumpdestBitset (g f) = jumpdestBitset f ∧ evmcMsg (g f) = evmcMsg f ∧
  rev (g f) = rev f ∧ stack (g f) = stack f ∧ evm_gas (g f) = evm_gas f ∧
  state_gas_left (g f) = state_gas_left f ∧ state_gas_spilled (g f) = state_gas_spilled f ∧
  output_offset (g f) = output_offset f ∧ output_size (g f) = output_size f ∧ pc (g f) = pc f.

Lemma wp_cosmetic h g Q f s :
  cosmetic g → frame_wf f s → (frame_wf (g f) s → Q tt (g f) s) → wp h 0 (modf g) Q f s.
Proof.
  intros Hg Hw HQ. destruct (Hg f) as (Ec & Eb & Em & Er & Es & Eg & El & Ep & Eo & Ez & Epc).
  assert (frame_wf (g f) s) by (destruct Hw; unfold code_size in *; split; unfold code_size; congruence).
  eapply wp_step; [done|done|by split|unfold budget; lia|auto].
Qed.

Lemma wf_gas g f s : frame_wf f s → 0 ≤ g → frame_wf (set_gas g f) s.
Proof. by intros [] ?. Qed.
Lemma wf_stack st f s :
  frame_wf f s → Forall wf st → (length st ≤ kStackLimit)%nat → frame_wf (set_stack st f) s.
Proof. by intros [] ??. Qed.

Lemma wp_charge d c Q f s :
  frame_wf f s → 0 ≤ c → d ≤ c →
  (c ≤ evm_gas f → frame_wf (set_gas (evm_gas f - c) f) s → Q tt (set_gas (evm_gas f - c) f) s) →
  wp true d (charge c) Q f s.
Proof.
  intros Hw Hc Hd HQ. unfold charge. apply wp_later, wp_getf; [done|].
  destruct (Z.ltb_spec (evm_gas f) c); [by apply wp_halt|].
  assert (frame_wf (set_gas (evm_gas f - c) f) s) by (apply wf_gas; [done|lia]).
  eapply wp_step; [done|done|by split|unfold budget; cbn; lia|auto].
Qed.

Lemma wp_need n Q f s :
  frame_wf f s → ((n ≤ length (stack f))%nat → Q tt f s) → wp true 0 (need n) Q f s.
Proof.
  intros Hw HQ. unfold need. apply wp_later, wp_getf; [done|]. unfold depth_lt.
  destruct (Nat.ltb_spec (length (stack f)) n); [by apply wp_halt|]. apply wp_ret; auto.
Qed.

Lemma wp_room Q f s :
  frame_wf f s → ((length (stack f) < kStackLimit)%nat → Q tt f s) → wp true 0 room Q f s.
Proof.
  intros Hw HQ. unfold room. apply wp_later, wp_getf; [done|]. unfold stack_full.
  destruct (Nat.leb_spec kStackLimit (length (stack f))); [by apply wp_halt|]. apply wp_ret; auto.
Qed.

Lemma wp_slot h k Q f s :
  frame_wf f s → (k < length (stack f))%nat → (∀ v, wf v → stack f !! k = Some v → Q v f s) →
  wp h 0 (slot k) Q f s.
Proof.
  intros Hw Hk HQ. unfold slot. apply wp_later, wp_getf; [done|].
  destruct (lookup_lt_is_Some_2 _ _ Hk) as [v Hv]. rewrite Hv. apply wp_ret; [done|].
  apply HQ; [|done]. eapply Forall_lookup_1; [apply Hw|done].
Qed.

Lemma wp_set_stack h st Q f s :
  frame_wf f s → Forall wf st → (length st ≤ kStackLimit)%nat →
  (frame_wf (set_stack st f) s → Q tt (set_stack st f) s) → wp h 0 (modf (set_stack st)) Q f s.
Proof.
  intros Hw Hst Hl HQ. assert (frame_wf (set_stack st f) s) by (by apply wf_stack).
  eapply wp_step; [done|done|by split|unfold budget; cbn; lia|auto].
Qed.

Lemma wp_set_slot h k v Q f s :
  frame_wf f s → (k < length (stack f))%nat → wf v →
  (frame_wf (set_stack (<[k := v]> (stack f)) f) s → Q tt (set_stack (<[k := v]> (stack f)) f) s) →
  wp h 0 (set_slot k v) Q f s.
Proof.
  intros Hw Hk Hv HQ. unfold set_slot. apply wp_later, wp_getf; [done|]. rewrite (proj2 (Nat.ltb_lt _ _) Hk).
  apply wp_set_stack; [done|apply Forall_insert; [apply Hw|done]|rewrite length_insert; apply Hw|done].
Qed.

Lemma wp_drops h n Q f s :
  frame_wf f s → (frame_wf (set_stack (drop n (stack f)) f) s → Q tt (set_stack (drop n (stack f)) f) s) →
  wp h 0 (drops n) Q f s.
Proof.
  intros Hw HQ. unfold drops. apply wp_later, wp_getf; [done|].
  apply wp_set_stack; [done|apply Forall_drop, Hw| |done].
  rewrite length_drop. pose proof (fw_depth _ _ Hw). lia.
Qed.

Lemma wp_push h v Q f s :
  frame_wf f s → (length (stack f) < kStackLimit)%nat → wf v →
  (frame_wf (set_stack (v :: stack f) f) s → Q tt (set_stack (v :: stack f) f) s) →
  wp h 0 (push v) Q f s.
Proof.
  intros Hw Hl Hv HQ. unfold push. apply wp_later, wp_getf; [done|].
  apply wp_set_stack; [done|constructor; [done|apply Hw]|cbn; lia|done].
Qed.

Lemma wp_set_pc h p Q f s :
  frame_wf f s → 0 ≤ p → (frame_wf (set_pc p f) s → Q tt (set_pc p f) s) → wp h 0 (modf (set_pc p)) Q f s.
Proof.
  intros Hw Hp HQ. assert (frame_wf (set_pc p f) s) by (by destruct Hw).
  eapply wp_step; [done|done|by split|unfold budget; cbn; lia|auto].
Qed.
Lemma wp_advance h n Q f s :
  frame_wf f s → 0 ≤ n → (frame_wf (set_pc (pc f + n) f) s → Q tt (set_pc (pc f + n) f) s) →
  wp h 0 (advance n) Q f s.
Proof.
  intros Hw Hn HQ. unfold advance. apply wp_later, wp_getf; [done|]. apply wp_set_pc; [done| |done].
  pose proof (fw_pc _ _ Hw). lia.
Qed.

(** Reads of the code, inside it. *)
Lemma wp_code_byte h p Q f s :
  frame_wf f s → 0 ≤ p < code_size f → (∀ b, Q b f s) → wp h 0 (code_byte p) Q f s.
Proof.
  intros Hw Hp HQ. unfold code_byte, code_size, len in *. apply wp_later, wp_getf; [done|].
  destruct (lookup_lt_is_Some_2 (code f) (Z.to_nat p)) as [b Hb]; [lia|].
  rewrite mem_read_run by lia. rewrite (drop_S _ _ _ Hb). by apply wp_ret.
Qed.
Lemma wp_code_read h off n Q f s :
  frame_wf f s → 0 ≤ off → 0 ≤ n → (n = 0 ∨ off + n ≤ code_size f) → (∀ bs, len bs = n → Q bs f s) →
  wp h 0 (code_read off n) Q f s.
Proof.
  intros Hw Ho Hn Hr HQ. unfold code_read, code_size, len in *.
  destruct (Z.eqb_spec n 0) as [->|Hz]; [by apply wp_ret; [|apply HQ]|]. apply wp_later, wp_getf; [done|].
  rewrite mem_read_run by lia. apply wp_ret; [done|]. apply HQ. rewrite length_take, length_drop. lia.
Qed.
(** A probe of the jump bitset. *)
Lemma wp_is_jumpdest h dest Q f s :
  frame_wf f s → 0 ≤ dest → (∀ b, Q b f s) → wp h 0 (is_jumpdest dest) Q f s.
Proof.
  intros Hw Hd HQ. unfold is_jumpdest. apply wp_later, wp_getf; [done|].
  rewrite Jumpdest.is_jumpdest_run by (done || apply (fw_bits _ _ Hw)). by apply wp_ret.
Qed.

Lemma wp_static Q f s :
  frame_wf f s → (is_static (evmcMsg f) = false → Q tt f s) → wp true 0 static_check Q f s.
Proof.
  intros Hw HQ. unfold static_check. apply wp_later, wp_getf; [done|].
  destruct (is_static (evmcMsg f)); [by apply wp_halt|]. apply wp_ret; auto.
Qed.

(** State gas: a charge moves gas to the spill, a refill moves it back. *)
Lemma wp_charge_state c Q f s :
  frame_wf f s → 0 ≤ c →
  (∀ g l p, frame_wf (set_gas g (set_state_gas l p f)) s → 0 ≤ l → g + p = budget f →
     Q tt (set_gas g (set_state_gas l p f)) s) →
  wp true 0 (charge_state c) Q f s.
Proof.
  intros Hw Hc HQ. pose proof Hw as [Hg Hp Hl Hst Hd Hm Ho Hli Hpc Hbits].
  assert (X : ∀ g l p, 0 ≤ g → 0 ≤ l → 0 ≤ p → g + p = budget f →
    state_gas_charge c f = Some (set_gas g (set_state_gas l p f)) → wp true 0 (charge_state c) Q f s).
  { intros g l p ??? Hb E. assert (frame_wf (set_gas g (set_state_gas l p f)) s) by (by split).
    eapply wp_step; [unfold charge_state; by rewrite E|done|by split|unfold budget in *; cbn; lia|auto]. }
  destruct (state_gas_charge c f) as [f1|] eqn:E; unfold state_gas_charge in E.
  - destruct (Z.leb_spec c (state_gas_left f)).
    { apply (X (evm_gas f) (state_gas_left f - c) (state_gas_spilled f)); try lia; [unfold budget; lia|].
      rewrite <- E. by destruct f. }
    cbv zeta in E. destruct (Z.ltb_spec (evm_gas f) (c - state_gas_left f)); [done|].
    apply (X (evm_gas f - (c - state_gas_left f)) 0 (state_gas_spilled f + (c - state_gas_left f)));
      try lia; [unfold budget; lia|by rewrite <- E].
  - intros o f' s' H. unfold charge_state, state_gas_charge in H. rewrite E in H.
    injection H as <- <- <-. split; [by split|]. split; [by apply wf_status|].
  split; [done|unfold budget; cbn; lia].
Qed.

Lemma refill_spec c f s :
  frame_wf f s → 0 ≤ c →
  frame_wf (state_gas_refill c f) s ∧ budget (state_gas_refill c f) = budget f.
Proof.
  intros [Hg Hp Hl Hst Hd Hm Ho Hli Hpc Hbits] Hc. unfold state_gas_refill, budget. cbn.
  split; [|lia]. split; cbn; try done; lia.
Qed.

Lemma wp_refill h c Q f s :
  frame_wf f s → 0 ≤ c → (frame_wf (state_gas_refill c f) s → Q tt (state_gas_refill c f) s) →
  wp h 0 (modf (state_gas_refill c)) Q f s.
Proof.
  intros Hw Hc HQ. destruct (refill_spec c f s Hw Hc) as [Hw' Hb].
  eapply wp_step; [done|done|by split|lia|auto].
Qed.

(** ** Host calls *)

Lemma frame_wf_host f s s' : frame_wf f s → EvmMem.ready (evm_mem s') →
  EvmMem.mem_le (evm_mem s) (evm_mem s') → ext s s' → frame_wf f s'.
Proof.
  intros [Hg Hp Hl Hst Hd Hm Ho Hli Hpc Hbits] Hr Hle He. split; try done; [by eapply EvmMem.covers_le|].
  by eapply live_ext.
Qed.

Lemma wp_host {A} h (m : M A) (P : StateDB → Prop) R Q f s :
  keeps_mem m → spec P m R → P s → frame_wf f s →
  (∀ a s', evm_mem s' = evm_mem s → ext s s' → R a s' → frame_wf f s' → Q a f s') →
  wp h 0 (host m) Q f s.
Proof.
  intros Hk Hs HP Hw HQ o f' s' H. unfold host in H. destruct (m s) as [[a s1]|] eqn:E; [|done].
  simplify_eq. destruct (Hs _ _ _ HP E) as [He HR]. pose proof (Hk _ _ _ E) as Em.
  assert (frame_wf f' s'). { eapply frame_wf_host; [done|rewrite Em; apply Hw|by rewrite Em|done]. }
  split; [|split; [done|split; [lia|auto]]]. split; try done. by rewrite Em.
Qed.

(** A journaled operation needs nothing. *)
Lemma wp_journaled {A} h (m : M A) Q f s :
  keeps_mem m → journaled is_precompile m → frame_wf f s →
  (∀ a s', evm_mem s' = evm_mem s → ext s s' → frame_wf f s' → Q a f s') →
  wp h 0 (host m) Q f s.
Proof. intros Hk Hj Hw HQ. eapply (wp_host _ m any); eauto. done. Qed.

(** ** Memory *)

Lemma ext_put_mem s m : EvmMem.ready m → ext s (put_mem m s).
Proof. intros [Hi _]. by split. Qed.

Lemma wp_mem {A} h (op : EvmMem.EVMMem → res (A * EvmMem.EVMMem)) (R : A → EvmMem.EVMMem → Prop) Q f s :
  frame_wf f s →
  (∃ a m', op (evm_mem s) = Ok (a, m') ∧ EvmMem.ready m' ∧ EvmMem.mem_le (evm_mem s) m' ∧ R a m') →
  (∀ a m', R a m' → frame_wf f (put_mem m' s) → EvmMem.mem_le (evm_mem s) m' → Q a f (put_mem m' s)) →
  wp h 0 (mem op) Q f s.
Proof.
  intros Hw (a & m' & E & Hr & Hle & HR) HQ o f' s' H. unfold mem in H. rewrite E in H. simplify_eq.
  assert (frame_wf f' (put_mem m' s)) by (eapply frame_wf_host; [done..|by apply ext_put_mem]).
  split; [|split; [done|split; [lia|auto]]]. split; try done. by apply ext_put_mem.
Qed.

Lemma wp_mem_op {A} (op : Z → EvmMem.EVMMem → res (EvmMem.MemGas * A * EvmMem.EVMMem))
    (R : A → EvmMem.EVMMem → Prop) Q f s :
  frame_wf f s →
  (∃ r a m', op (evm_gas f) (evm_mem s) = Ok (r, a, m') ∧ EvmMem.ready m' ∧
     EvmMem.mem_le (evm_mem s) m' ∧ 0 ≤ EvmMem.gas r ≤ evm_gas f ∧ (EvmMem.err r = EvmMem.MemOk → R a m')) →
  (∀ a g m', R a m' → frame_wf (set_gas g f) (put_mem m' s) → EvmMem.mem_le (evm_mem s) m' →
     g ≤ evm_gas f → Q a (set_gas g f) (put_mem m' s)) →
  wp true 0 (mem_op op) Q f s.
Proof.
  intros Hw (r & a & m' & E & Hr & Hle & Hg & HR) HQ. unfold mem_op. apply wp_later, wp_getf; [done|].
  apply wp_later. eapply (wp_mem _ (op (evm_gas f)) (λ x m, x = (r, a) ∧ m = m')); [done| |].
  { eexists _, m'. by split_and!. }
  intros x m1 [-> ->] Hw1 _. apply wp_later.
  assert (Hw2 : frame_wf (set_gas (EvmMem.gas r) f) (put_mem m' s)) by (apply wf_gas; [done|lia]).
  eapply wp_step; [done|done|by split|unfold budget; cbn; lia|].
  destruct (EvmMem.err r); [|by apply wp_halt]. apply wp_ret; [done|]. apply HQ; auto. lia.
Qed.

Lemma wp_expand addr len Q f s :
  frame_wf f s → 0 ≤ addr → 0 ≤ len →
  (∀ g m', EvmMem.covers addr len m' → frame_wf (set_gas g f) (put_mem m' s) →
     EvmMem.mem_le (evm_mem s) m' → g ≤ evm_gas f → Q tt (set_gas g f) (put_mem m' s)) →
  wp true 0 (mem_expand addr len) Q f s.
Proof.
  intros Hw Ha Hl HQ. eapply (wp_mem_op _ (λ _ m, EvmMem.covers addr len m)); [done| |intros []; auto].
  destruct (EvmMem.expand_client addr len (evm_gas f) (evm_mem s)) as (r & m' & E & ? & ? & ? & ?);
    [apply Hw|done|done|apply Hw|]. exists r, tt, m'. unfold no_bytes. by rewrite E.
Qed.

Lemma wp_read addr len Q f s :
  frame_wf f s → 0 ≤ addr → 0 ≤ len →
  (∀ bs g m', EvmMem.blen bs = len → frame_wf (set_gas g f) (put_mem m' s) →
     Q bs (set_gas g f) (put_mem m' s)) →
  wp true 0 (mem_read addr len) Q f s.
Proof.
  intros Hw Ha Hl HQ. eapply (wp_mem_op _ (λ bs _, EvmMem.blen bs = len)); [done| |auto].
  destruct (EvmMem.readBytes_client addr len (evm_gas f) (evm_mem s)) as (r & bs & m' & E & ?);
    [apply Hw|done|done|apply Hw|]. by exists r, bs, m'.
Qed.

Lemma wp_write addr src Q f s :
  frame_wf f s → 0 ≤ addr →
  (∀ g m', frame_wf (set_gas g f) (put_mem m' s) → Q tt (set_gas g f) (put_mem m' s)) →
  wp true 0 (mem_write addr src) Q f s.
Proof.
  intros Hw Ha HQ. eapply (wp_mem_op _ (λ _ _, True)); [done| |intros []; auto].
  destruct (EvmMem.writeBytes_client addr src (evm_gas f) (evm_mem s)) as (r & m' & E & ? & ? & ?);
    [apply Hw|done|apply Hw|]. exists r, tt, m'. unfold no_bytes. by rewrite E.
Qed.

Lemma wp_write_byte addr v Q f s :
  frame_wf f s → 0 ≤ addr →
  (∀ g m', frame_wf (set_gas g f) (put_mem m' s) → Q tt (set_gas g f) (put_mem m' s)) →
  wp true 0 (mem_write_byte addr v) Q f s.
Proof.
  intros Hw Ha HQ. eapply (wp_mem_op _ (λ _ _, True)); [done| |intros []; auto].
  destruct (EvmMem.writeByte_client addr v (evm_gas f) (evm_mem s)) as (r & m' & E & ? & ? & ?);
    [apply Hw|done|apply Hw|]. exists r, tt, m'. unfold no_bytes. by rewrite E.
Qed.

Lemma wp_data h addr n Q f s :
  frame_wf f s → EvmMem.within addr n (evm_mem s) →
  (∀ bs, EvmMem.blen bs = n → frame_wf f (put_mem (evm_mem s) s) → Q bs f (put_mem (evm_mem s) s)) →
  wp h 0 (data addr n) Q f s.
Proof.
  intros Hw Hc HQ. eapply (wp_mem _ _ (λ bs m, EvmMem.blen bs = n ∧ m = evm_mem s)); [done| |].
  - rewrite EvmMem.read_client by (done || apply Hw). eexists _, _. split; [done|]. split; [apply Hw|].
    split; [done|]. split; [|done]. destruct Hc as (? & ? & ?). unfold EvmMem.blen in *.
    rewrite length_take, length_drop. lia.
  - intros bs m [Hb ->] ? _. auto.
Qed.

Lemma wp_data_store h addr src Q f s :
  frame_wf f s → EvmMem.within addr (EvmMem.blen src) (evm_mem s) →
  (∀ m', frame_wf f (put_mem m' s) → EvmMem.mem_le (evm_mem s) m' → Q tt f (put_mem m' s)) →
  wp h 0 (data_store addr src) Q f s.
Proof.
  intros Hw Hc HQ. eapply (wp_mem _ _ (λ _ _, True)); [done| |intros []; auto].
  destruct (EvmMem.put_client addr src (evm_mem s)) as (m' & E & ? & ? & _); [apply Hw|done|].
  rewrite E. by exists tt, m'.
Qed.

Lemma wp_window h addr n Q f s :
  frame_wf f s → EvmMem.covers addr n (evm_mem s) →
  (∀ bs s', evm_mem s' = evm_mem s → ext s s' → frame_wf f s' → Q bs f s') →
  wp h 0 (window addr n) Q f s.
Proof.
  intros Hw Hc HQ. unfold window. destruct (Z.eqb_spec n 0); [apply wp_ret; auto; by apply HQ|].
  apply wp_data; [done|by apply EvmMem.covers_within|]. intros bs _ ?. apply HQ; [done|apply ext_put_mem, Hw|done].
Qed.

(** ** Child frames *)

(** The manager is back where it was: the same frames with the same bytes. *)
Record same_frames (m m' : EvmMem.EVMMem) : Prop := {
  sf_inv : EvmMem.inv m';
  sf_cur : EvmMem.s_cur m' = EvmMem.s_cur m;
  sf_frames : EvmMem.frames m' = EvmMem.frames m }.

Lemma same_frames_ready m m' : EvmMem.ready m → same_frames m m' → EvmMem.ready m'.
Proof. intros [_ H] [Hi Hc _]. split; [done|lia]. Qed.
Lemma same_frames_le m m' : same_frames m m' → EvmMem.mem_le m m'.
Proof. intros [_ Hc Hf]. split; [done| |]; unfold EvmMem.below, EvmMem.top; by rewrite Hf. Qed.

(** The gas a result may hand back. *)
Record result_ok (g : Z) (r : Result) : Prop := {
  ro_left : 0 ≤ gas_left r;
  ro_spilled : 0 ≤ sg_spilled (state_gas r);
  ro_reservoir : 0 ≤ sg_left (state_gas r);
  ro_budget : gas_left r + sg_spilled (state_gas r) ≤ g }.

(** What the caller of a frame knows: the call only extends the journaled host
    state, gives the memory back as it was, and returns at most the gas it got. *)
Definition child_live (msg : message) : list Z :=
  if is_create (kind msg) then [] else [recipient msg; code_address msg].
Class ChildCall (host_call : message → M Result) : Prop :=
  child_call msg s r s' :
    0 ≤ gas msg → 0 ≤ msg_state_gas msg → EvmMem.ready (evm_mem s) → live (child_live msg) s →
    host_call msg s = Ok (r, s') →
    ext s s' ∧ same_frames (evm_mem s) (evm_mem s') ∧ result_ok (gas msg) r.

Lemma wp_call (host_call : message → M Result) `{!ChildCall host_call} h msg Q f s :
  frame_wf f s → 0 ≤ gas msg → 0 ≤ msg_state_gas msg → live (child_live msg) s →
  (∀ r s', same_frames (evm_mem s) (evm_mem s') → ext s s' → result_ok (gas msg) r → frame_wf f s' →
     Q r f s') →
  wp h 0 (host (host_call msg)) Q f s.
Proof.
  intros Hw Hg Hsg Hl HQ o f' s' H. unfold host in H.
  destruct (host_call msg s) as [[r s1]|] eqn:E; [|done]. simplify_eq.
  destruct (child_call msg s r s' Hg Hsg ltac:(apply Hw) Hl E) as (He & Hm & Hr).
  pose proof (same_frames_le _ _ Hm).
  assert (frame_wf f' s') by (eapply frame_wf_host; [done|eapply same_frames_ready; [apply Hw|done]|done..]).
  split; [by split|]. split; [done|]. split; [lia|auto].
Qed.

(** Taking a child's gas back. *)
Lemma wp_absorb h c r Q f s :
  frame_wf f s → result_ok c r → c ≤ evm_gas f →
  (∀ f', stack f' = stack f → frame_wf f' s → Q tt f' s) → wp h 0 (absorb_result c r) Q f s.
Proof.
  intros Hw [R1 R2 R3 R4] Hc HQ. pose proof Hw as [Hg Hp Hl Hst Hd Hm Ho Hli Hpc Hbits].
  set (f1 := set_refund (evm_refund f + gas_refund r) (set_gas (evm_gas f - (c - gas_left r)) f)).
  assert (E : absorb_result c r f s = Ok (Next tt,
    if rev_ge (rev f) EVMC_AMSTERDAM then absorb_child_state_gas r f1 else f1, s)).
  { unfold absorb_result, is_ge, mbind, H_bind, modf, getf. cbn -[rev_ge]. unfold f1. cbn -[rev_ge].
    by destruct (rev_ge (rev f) EVMC_AMSTERDAM). }
  assert (Hw1 : frame_wf f1 s) by (split; cbn; try done; lia).
  destruct (rev_ge (rev f) EVMC_AMSTERDAM).
  - set (f2 := set_state_gas 0 (state_gas_spilled f + sg_spilled (state_gas r)) f1).
    assert (Hw2 : frame_wf f2 s) by (split; cbn; try done; lia).
    destruct (refill_spec (sg_left (state_gas r)) f2 s Hw2 R3) as [Hw3 Hb3].
    change (state_gas_refill (sg_left (state_gas r)) f2) with (absorb_child_state_gas r f1) in *.
    eapply wp_step; [exact E|done|by split| |by apply HQ].
    rewrite Hb3. unfold budget. cbn. lia.
  - eapply wp_step; [exact E|done|by split| |by apply HQ]. unfold budget. cbn. lia.
Qed.

End Logic.
End EvmFrame.
