(* ===== verification/EvmOps.v ===== *)
(** Every opcode keeps the frame well formed, spends gas when the loop goes on,
    touches the stack and the memory within their bounds, and changes the host
    state by journaled operations only. *)

From stdpp Require Import base numbers list strings gmap.
From S2P Require Import Prelude Fork Rlp Receipt Contracts Chain CreateAddress Bal Jumpdest EvmMem Accounts Storages Transient Journal StateDb HostProofs Frames U256 Alu Zevm EvmFrame.

Set Default Goal Selector "!".

Module EvmOps.
Import Rlp Receipt Fork Journal StateDb HostProofs Frames U256 Zevm EvmFrame.

(** ** Words and costs *)

Lemma u64_in_range z : in_u64 (u64 z).
Proof. apply Z.mod_pos_bound. lia. Qed.
Lemma wf_of_u64 z : wf (of_u64 z).
Proof. apply Alu.wf_intro; [apply u64_in_range|apply Alu.in_u64_0..]. Qed.
Lemma wf_from_wire z : wf (from_wire z).
Proof. apply Alu.from_be_spec, length_be_bytes. Qed.
Lemma wf_from_be l : length l = 32%nat → wf (u256_from_be l).
Proof. intros H. by apply Alu.from_be_spec. Qed.
Lemma wf_slot_from_address a : wf (slot_from_address a).
Proof. apply wf_from_be. by rewrite length_app, length_replicate, length_be_bytes. Qed.
Lemma wf_alu1 o a : wf a → wf (run_alu1 o a).
Proof. intros. by apply Alu.run_alu1_spec. Qed.
Lemma wf_alu2 o a b : wf a → wf b → wf (run_alu2 o a b).
Proof. intros. by apply Alu.run_alu2_spec. Qed.
Lemma wf_alu3 o a b m : wf a → wf b → wf m → wf (run_alu3 o a b m).
Proof. intros. by apply Alu.run_alu3_spec. Qed.
Lemma wf_exp a b : wf a → wf b → wf (op_exp a b).
Proof. intros. by apply Alu.op_exp_spec. Qed.

Lemma mem_arg_pos v : wf v → 0 ≤ mem_arg v.
Proof. intros (H & _)%Alu.wf_inv. unfold mem_arg, UINT64_MAX, in_u64 in *. case_match; lia. Qed.
Lemma l0_pos v : wf v → 0 ≤ l0 v.
Proof. intros (H & _)%Alu.wf_inv. apply H. Qed.

Lemma num_words_pos n : 0 ≤ n → 0 ≤ num_words n.
Proof. intros. apply Z.div_pos; [apply u64_in_range|lia]. Qed.
Lemma copy_cost_pos n : 0 ≤ n → 0 ≤ copy_cost n.
Proof. intros H%num_words_pos. unfold copy_cost. lia. Qed.
Lemma word_cost_pos n c : 0 ≤ n → 0 ≤ c → 0 ≤ num_words n * c.
Proof. intros H%num_words_pos ?. nia. Qed.
Lemma alu1_gas_pos o : 0 < alu1_gas o.
Proof. by destruct o. Qed.
Lemma alu2_gas_pos o : 0 < alu2_gas o.
Proof. by destruct o. Qed.
Lemma exp_gas_pos e : 0 < GAS_EXP + GAS_EXPBYTE * exp_byte_len e.
Proof.
  unfold GAS_EXP, GAS_EXPBYTE, exp_byte_len. cbv zeta. destruct (Z.ltb_spec (exp_top e) 0); [lia|].
  pose proof (Z.div_pos (exp_top e) 8). lia.
Qed.
Lemma extcode_base_pos f : 0 < extcode_base f.
Proof. unfold extcode_base. by case_match. Qed.
Lemma cold_access_pos r : 0 ≤ cold_account_access r.
Proof. unfold cold_account_access. by case_match. Qed.
Lemma additional_cold_pos r : 0 ≤ additional_cold_account_access r.
Proof. unfold additional_cold_account_access, cold_account_access. by case_match. Qed.
Lemma sstore_cost_pos r st : 0 < (sstore_cost r st).1.
Proof. by destruct r, st. Qed.
Lemma cold_c_pos r : 0 ≤ cold_c (storage_spec r).
Proof. by destruct r. Qed.

Lemma one_le z : 0 < z → 1 ≤ z.
Proof. lia. Qed.

Create HintDb evm discriminated.
#[export] Hint Constants Opaque : evm.
#[export] Hint Variables Opaque : evm.
#[export] Hint Resolve wf_of_u64 wf_from_wire wf_slot_from_address wf_alu1 wf_alu2 wf_alu3 wf_exp
  Alu.wf_zero Alu.wf_one mem_arg_pos l0_pos copy_cost_pos word_cost_pos alu1_gas_pos alu2_gas_pos
  exp_gas_pos extcode_base_pos cold_access_pos additional_cold_pos : evm.

Section Ops.
Context (keccak256 : bytes → Z).
Context (is_precompile : revision → Z → bool).

Abbreviation ext := (HostProofs.ext is_precompile).
Abbreviation spec := (HostProofs.spec is_precompile).
Abbreviation live := (Frames.live is_precompile).
Abbreviation acct_warm := (HostProofs.acct_warm is_precompile).
Abbreviation wp := (EvmFrame.wp is_precompile true).
Abbreviation wpn := (EvmFrame.wp is_precompile false).
Abbreviation frame_wf := (EvmFrame.frame_wf is_precompile).

(** A handler that goes on has spent gas; a block within one need not have. *)
Definition spends (m : H unit) : Prop := ∀ f s, frame_wf f s → wp 1 m (λ _ _ _, True) f s.

Lemma live_of_warm a f s : frame_wf f s → acct_warm a s → live [a] s.
Proof. intros Hw Ha. destruct (fw_live _ _ _ Hw) as (? & _ & ?). split; [done|]. split; [by constructor|done]. Qed.
Lemma warm_of_live a s : live [a] s → acct_warm a s.
Proof. intros (_ & H & _). by apply Forall_cons in H as [? _]. Qed.
Lemma recipient_warm f s : frame_wf f s → acct_warm (recipient (evmcMsg f)) s.
Proof. intros Hw. apply warm_of_live, Hw. Qed.

(** ** Automation *)

(** Costs: constants by evaluation, the others by their lemma. *)
Ltac cost :=
  first [ done | solve [eauto with evm nocore] | solve [apply Z.lt_le_incl; eauto with evm nocore]
        | solve [apply one_le; eauto with evm nocore] ].
Ltac depth := cbn [stack set_gas set_pc set_stack set_state_gas set_refund set_self_balance set_returnData
                     set_output state_gas_refill] in *;
              rewrite ?length_insert, ?length_drop in *; cbn [length] in *; lia.
Ltac words := solve [eauto with evm nocore].

(** One step of a handler. *)
Ltac wp1 :=
  cbv zeta beta;
  lazymatch goal with
  | |- EvmFrame.wp _ _ 1 (mbind _ (charge _)) _ _ _ => apply (wp_spend _ _ 1 1); [lia|]; change (1 - 1) with 0
  | |- EvmFrame.wp _ _ _ (mbind _ _) _ _ _ => apply wp_later
  | |- EvmFrame.wp _ _ _ (halt _) _ _ _ => by apply wp_halt
  | |- EvmFrame.wp _ _ 0 (mret _) _ _ _ => apply wp_ret; [assumption|]
  | |- EvmFrame.wp _ _ 0 (getf _) _ _ _ => apply wp_getf; [assumption|]
  | |- EvmFrame.wp _ _ _ (charge _) _ _ _ => apply wp_charge; [assumption|cost|cost|intros ? ?]
  | |- EvmFrame.wp _ _ 0 (need _) _ _ _ => apply wp_need; [assumption|intros ?]
  | |- EvmFrame.wp _ _ 0 room _ _ _ => apply wp_room; [assumption|intros ?]
  | |- EvmFrame.wp _ _ 0 static_check _ _ _ => apply wp_static; [assumption|intros ?]
  | |- EvmFrame.wp _ _ 0 (slot _) _ _ _ => apply wp_slot; [assumption|depth|intros ? ? ?]
  | |- EvmFrame.wp _ _ 0 (set_slot _ _) _ _ _ => apply wp_set_slot; [assumption|depth|words|intros ?]
  | |- EvmFrame.wp _ _ 0 (drops _) _ _ _ => apply wp_drops; [assumption|intros ?]
  | |- EvmFrame.wp _ _ 0 (push _) _ _ _ => apply wp_push; [assumption|depth|words|intros ?]
  | |- EvmFrame.wp _ _ 0 (advance _) _ _ _ => apply wp_advance; [assumption|lia|intros ?]
  | |- EvmFrame.wp _ _ 0 (mem_expand _ _) _ _ _ =>
      apply wp_expand; [assumption|words|words|intros ? ? ? ? ? ?]
  | |- EvmFrame.wp _ _ 0 (window _ _) _ _ _ => apply wp_window; [assumption|assumption|intros ? ? ? ? ?]
  | |- EvmFrame.wp _ _ _ (match ?x with _ => _ end) _ _ _ => destruct x eqn:?
  | |- True => exact I
  end.
Ltac wps := repeat wp1.
(** Every revision of the guest is at or after Berlin. *)
Ltac berlin := exfalso; match goal with H : negb (rev_ge ?r EVMC_BERLIN) = true |- _ => by destruct r end.

Lemma spends_stop : spends op_stop.
Proof. intros f s Hw. unfold op_stop. wps. Qed.

Lemma wp_land dest f s : frame_wf f s → 0 ≤ dest → wp 0 (land_on dest) (λ _ _ _, True) f s.
Proof.
  intros Hw Hd. unfold land_on. wp1. apply wp_is_jumpdest; [done|done|]. intros b. wps.
  apply wp_set_pc; [done|lia|done].
Qed.
Lemma jump_target_pos d : wf d → 0 ≤ jump_target d.
Proof. apply mem_arg_pos. Qed.
#[local] Hint Resolve jump_target_pos : evm.
Lemma spends_jump : spends op_jump.
Proof. intros f s Hw. unfold op_jump. wps. apply wp_land; [done|words]. Qed.
Lemma spends_jumpi : spends op_jumpi.
Proof. intros f s Hw. unfold op_jumpi. wps. apply wp_land; [done|words]. Qed.
Lemma spends_jumpdest : spends op_jumpdest.
Proof. intros f s Hw. unfold op_jumpdest. wps. Qed.
Lemma spends_pop : spends op_pop.
Proof. intros f s Hw. unfold op_pop. wps. Qed.
Lemma spends_pc : spends op_pc.
Proof. intros f s Hw. unfold op_pc. wps. Qed.
Lemma spends_gas : spends op_gas.
Proof. intros f s Hw. unfold op_gas. wps. Qed.

Lemma spends_alu1 o : spends (do_alu1 o).
Proof.
  intros f s Hw. unfold do_alu1. wps.
Qed.
Lemma spends_alu2 o : spends (do_alu2 o).
Proof. intros f s Hw. unfold do_alu2. wps. Qed.
Lemma spends_alu3 o : spends (do_alu3 o).
Proof. intros f s Hw. unfold do_alu3. wps. Qed.
Lemma spends_exp : spends do_exp.
Proof. intros f s Hw. unfold do_exp. wps. Qed.

(** *** PUSH, DUP, SWAP *)

(** An immediate: at most the bytes the code has left, all of them inside it. *)
Lemma wp_immediate n Q f s :
  frame_wf f s → 0 ≤ n → (∀ bs, len bs ≤ n → Q bs f s) → wp 0 (immediate n) Q f s.
Proof.
  intros Hw Hn HQ. unfold immediate. pose proof (fw_pc _ _ _ Hw). do 4 wp1. cbv zeta.
  destruct (Z.ltb_spec (pc f + 1) (code_size f)); apply wp_code_read; try done; try lia;
    intros bs Hb; apply HQ; lia.
Qed.
Lemma wp_push_small_value n Q f s :
  frame_wf f s → 0 ≤ n → (∀ v, Q v f s) → wp 0 (push_small_value n) Q f s.
Proof.
  intros Hw Hn HQ. unfold push_small_value. pose proof (fw_pc _ _ _ Hw). do 4 wp1. cbv zeta.
  destruct (Z.leb_spec (pc f + 1 + 8) (code_size f)); wp1.
  - apply wp_code_read; try done; try lia. intros bs _. wps. apply HQ.
  - apply wp_immediate; [done|done|]. intros bs _. wps. apply HQ.
Qed.
Lemma wp_push_big_value n Q f s :
  frame_wf f s → 0 ≤ n ≤ 32 → (∀ v, wf v → Q v f s) → wp 0 (push_big_value n) Q f s.
Proof.
  intros Hw Hn HQ. unfold push_big_value. wp1. apply wp_immediate; [done|lia|]. intros bs Hb. wps.
  apply HQ, wf_from_be. unfold len in *. rewrite !length_app, !length_replicate. lia.
Qed.

Lemma spends_push n : 0 ≤ n ≤ 32 → spends (op_push n).
Proof.
  intros Hn f s Hw. unfold op_push, push_small, push_big. destruct (n <=? 8); wps.
  - apply wp_push_small_value; [done|lia|]. intros v. wps.
  - apply wp_push_big_value; [done|lia|]. intros v Hv. wps.
Qed.
Lemma spends_push0 : spends op_push0.
Proof. intros f s Hw. unfold op_push0. wps. Qed.
Lemma spends_dup n : (0 < n)%nat → spends (op_dup n).
Proof. intros Hn f s Hw. unfold op_dup. wps. Qed.

Lemma wp_swap i j Q f s :
  frame_wf f s → (i < length (stack f))%nat → (j < length (stack f))%nat →
  (∀ st, length st = length (stack f) → frame_wf (set_stack st f) s → Q tt (set_stack st f) s) →
  wp 0 (swap_slots i j) Q f s.
Proof. intros Hw Hi Hj HQ. unfold swap_slots. wps. apply HQ; [depth|assumption]. Qed.
Lemma spends_swap n : spends (op_swap n).
Proof. intros f s Hw. unfold op_swap. wps. apply wp_swap; [done|depth|depth|done]. Qed.

(** The immediates of EIP-8024, over every byte. *)
Definition imm_ok (imm : Z) : bool :=
  let n := decode_dupn_swapn imm in
  ((n =? 0) || ((17 <=? n) && (n <=? 235))) &&
  match decode_exchange imm with
  | Some (n, m) => (1 <=? n) && (n <? m) && (n + m <=? 30)
  | None => true
  end.
Lemma imm_range imm : 0 ≤ imm < 256 → imm_ok imm = true.
Proof.
  intros Hi. assert (A : forallb (λ k, imm_ok (Z.of_nat k)) (seq 0 256) = true) by (vm_compute; reflexivity).
  apply (proj1 (forallb_forall _ _)) with (x := Z.to_nat imm) in A; [by rewrite Z2Nat.id in A by lia|].
  apply in_seq. lia.
Qed.
Lemma dupn_range imm : 0 ≤ imm < 256 → decode_dupn_swapn imm = 0 ∨ 17 ≤ decode_dupn_swapn imm ≤ 235.
Proof.
  intros Hi. pose proof (imm_range _ Hi) as [H _]%andb_true_iff. cbv zeta in H.
  apply orb_true_iff in H as [H%Z.eqb_eq|[? ?]%andb_true_iff]; [by left|right]. lia.
Qed.
Lemma exchange_range imm n m : 0 ≤ imm < 256 → decode_exchange imm = Some (n, m) → 1 ≤ n < m ∧ n + m ≤ 30.
Proof.
  intros Hi E. pose proof (imm_range _ Hi) as [_ H]%andb_true_iff. rewrite E in H.
  apply andb_true_iff in H as [[? ?]%andb_true_iff ?]. lia.
Qed.
Lemma wp_imm_byte Q f s :
  frame_wf f s → (∀ imm, 0 ≤ imm < 256 → Q imm f s) → wp 0 imm_byte Q f s.
Proof.
  intros Hw HQ. unfold imm_byte. pose proof (fw_pc _ _ _ Hw). do 4 wp1.
  destruct (Z.ltb_spec (pc f + 1) (code_size f)); wps; [|apply HQ; lia].
  apply wp_code_byte; [done|lia|]. intros b. wps. apply HQ, b2z_range.
Qed.

Lemma spends_dupn : spends op_dupn.
Proof.
  intros f s Hw. unfold op_dupn. wps. apply wp_imm_byte; [done|]. intros imm Hi.
  pose proof (dupn_range imm Hi). wps.
Qed.
Lemma spends_swapn : spends op_swapn.
Proof.
  intros f s Hw. unfold op_swapn. wps. apply wp_imm_byte; [done|]. intros imm Hi.
  destruct (dupn_range imm Hi) as [E|?]; [rewrite E; by wps|]. wps.
  apply wp_swap; [done|depth|depth|]. intros st _ ?. wps.
Qed.
Lemma spends_exchange : spends op_exchange.
Proof.
  intros f s Hw. unfold op_exchange. wps. apply wp_imm_byte; [done|]. intros imm Hi. wps.
  match goal with H : decode_exchange _ = Some _ |- _ => apply exchange_range in H; [|done] end.
  apply wp_swap; [done|depth|depth|]. intros st _ ?. wps.
Qed.

(** *** Memory *)

Lemma wp_offset v Q f s :
  frame_wf f s → wf v → (∀ z, 0 ≤ z → Q z f s) → wp 0 (offset v) Q f s.
Proof. intros Hw Hv HQ. unfold offset. wps. apply HQ. words. Qed.

Lemma length_to_be v : length (u256_to_be v) = 32%nat.
Proof. unfold u256_to_be, store_u64. by rewrite !length_app, !length_le_bytes. Qed.

Lemma spends_mload : spends op_mload.
Proof.
  intros f s Hw. unfold op_mload. wps. apply wp_offset; [done|done|]. intros z Hz. wps.
  apply wp_read; [done|done|done|]. intros bs g m' Hb ?. unfold EvmMem.blen in Hb.
  apply wp_set_slot; [done|depth|apply wf_from_be; lia|done].
Qed.
Lemma spends_mstore : spends op_mstore.
Proof.
  intros f s Hw. unfold op_mstore. wps. apply wp_offset; [done|done|]. intros z Hz. wps.
  apply wp_write; [done|done|]. intros g m' ?. wps.
Qed.
Lemma spends_mstore8 : spends op_mstore8.
Proof.
  intros f s Hw. unfold op_mstore8. wps. apply wp_offset; [done|done|]. intros z Hz. wps.
  apply wp_write_byte; [done|done|]. intros g m' ?. wps.
Qed.
Lemma spends_msize : spends op_msize.
Proof.
  intros f s Hw. unfold op_msize. wps. eapply (wp_mem _ _ _ (λ _ _, True)); [done| |].
  - rewrite EvmMem.size_client by (by eapply fw_mem). eexists _, _. split; [done|]. split; [by eapply fw_mem|done].
  - intros n m' _ ? ?. wps.
Qed.

(** Both windows of a copy lie under the higher one. *)
Lemma within_lower a hi n m : EvmMem.covers hi n m → n ≠ 0 → 0 ≤ a ≤ hi → EvmMem.within a n m.
Proof. intros [->|Hc] Hn Ha; [done|]. unfold EvmMem.within. lia. Qed.

Lemma wp_move dst src n hi Q f s :
  frame_wf f s → EvmMem.covers hi n (evm_mem s) → 0 ≤ dst ≤ hi → 0 ≤ src ≤ hi →
  (∀ s', frame_wf f s' → Q tt f s') →
  wp 0 (if n =? 0 then mret tt else bs ← data src n; data_store dst bs) Q f s.
Proof.
  intros Hw Hc Hd Hs HQ. destruct (Z.eqb_spec n 0) as [|Hn]; [wps; auto|]. wps.
  apply wp_data; [done|by eapply within_lower|]. intros bs Hb ?.
  apply wp_data_store; [done|rewrite Hb; cbn; by eapply within_lower|]. auto.
Qed.

Lemma spends_mcopy : spends op_mcopy.
Proof.
  intros f s Hw. unfold op_mcopy. wps.
  pose proof (mem_arg_pos v ltac:(done)). pose proof (mem_arg_pos v0 ltac:(done)).
  apply wp_expand; [done|case_match; lia|words|]. intros g m' Hc ? ? ?. do 3 wp1.
  eapply wp_move; [done|exact Hc|destruct (Z.ltb_spec (mem_arg v0) (mem_arg v)); lia
    |destruct (Z.ltb_spec (mem_arg v0) (mem_arg v)); lia|]. intros s' ?. wps.
Qed.

(** *** Environment *)

Section Host.
Context (host_call : message → M Result).

Ltac journal lem := apply wp_journaled; [solve [eauto with keeps_mem nocore]|apply lem|assumption|intros ? ? ? ? ?].

Lemma wp_tx Q f s :
  frame_wf f s → (∀ tx s', evm_mem s' = evm_mem s → ext s s' → frame_wf f s' → Q tx f s') →
  wp 0 (host get_tx_context) Q f s.
Proof. intros Hw HQ. journal journaled_tx_context. auto. Qed.

(** A push of a context value. *)
Ltac pushes := intros f s Hw; unfold push_u64, push_be32, push_address; wps;
  try (apply wp_tx; [assumption|intros ? ? ? ? ?]; wps).

Lemma spends_address : spends op_address. Proof. unfold op_address. pushes. Qed.
Lemma spends_caller : spends op_caller. Proof. unfold op_caller. pushes. Qed.
Lemma spends_callvalue : spends op_callvalue. Proof. unfold op_callvalue. pushes. Qed.
Lemma spends_calldatasize : spends op_calldatasize. Proof. unfold op_calldatasize. pushes. Qed.
Lemma spends_codesize : spends op_codesize. Proof. unfold op_codesize. pushes. Qed.
Lemma spends_origin : spends op_origin. Proof. unfold op_origin. pushes. Qed.
Lemma spends_gasprice : spends op_gasprice. Proof. unfold op_gasprice. pushes. Qed.
Lemma spends_coinbase : spends op_coinbase. Proof. unfold op_coinbase. pushes. Qed.
Lemma spends_timestamp : spends op_timestamp. Proof. unfold op_timestamp. pushes. Qed.
Lemma spends_number : spends op_number. Proof. unfold op_number. pushes. Qed.
Lemma spends_prevrandao : spends op_prevrandao. Proof. unfold op_prevrandao. pushes. Qed.
Lemma spends_gaslimit : spends op_gaslimit. Proof. unfold op_gaslimit. pushes. Qed.
Lemma spends_chainid : spends op_chainid. Proof. unfold op_chainid. pushes. Qed.
Lemma spends_basefee : spends op_basefee. Proof. unfold op_basefee. pushes. Qed.
Lemma spends_blobbasefee : spends op_blobbasefee. Proof. unfold op_blobbasefee. pushes. Qed.
Lemma spends_slotnum : spends op_slotnum. Proof. unfold op_slotnum. pushes. Qed.

Lemma cosmetic_self_balance b : cosmetic (set_self_balance b).
Proof. by intros f. Qed.
Lemma cosmetic_return_data b : cosmetic (set_returnData b).
Proof. by intros f. Qed.
Lemma cosmetic_refund z : cosmetic (λ f, set_refund (evm_refund f + z) f).
Proof. by intros f. Qed.

(** Reading an account that is warm. *)
Lemma wp_balance a Q f s :
  frame_wf f s → acct_warm a s →
  (∀ b s', evm_mem s' = evm_mem s → ext s s' → frame_wf f s' → Q b f s') →
  wp 0 (host (get_balance a)) Q f s.
Proof.
  intros Hw Ha HQ. eapply wp_host; [eauto with keeps_mem nocore|apply get_balance_spec|done|done|].
  intros b s' ? ? _ ?. auto.
Qed.

Lemma spends_selfbalance : spends op_selfbalance.
Proof.
  intros f s Hw. unfold op_selfbalance, push_be32. wps.
  apply wp_balance; [done|by apply (recipient_warm _ _ H1)|]. intros b s' ? ? ?. wps.
  apply wp_cosmetic; [apply cosmetic_self_balance|done|]. intros ?. wps.
Qed.

Lemma spends_calldataload : spends op_calldataload.
Proof.
  intros f s Hw. unfold op_calldataload. wps.
  apply wp_set_slot; [done|depth| |done]. apply wf_from_be. rewrite length_app, length_replicate.
  case_match; [rewrite length_take|cbn]; lia.
Qed.

Lemma wp_copy_into dst size src off Q f s :
  frame_wf f s → EvmMem.covers dst size (evm_mem s) → 0 ≤ off → 0 ≤ size →
  (∀ s', frame_wf f s' → Q tt f s') →
  wp 0 (copy_into_mem dst size src off) Q f s.
Proof.
  intros Hw Hc Ho Hs HQ. unfold copy_into_mem. destruct (Z.eqb_spec size 0) as [|Hn]; [wps; auto|].
  pose proof (EvmMem.covers_within _ _ _ Hc Hn) as Hin. cbv zeta. unfold len in *.
  set (begin := if off <? _ then off else _). set (avail := _ - begin).
  assert (Hb : 0 ≤ begin ≤ Z.of_nat (length src)) by (unfold begin; case_match; lia).
  set (copy_n := if avail <? size then avail else size).
  assert (Hcp : 0 ≤ copy_n ≤ size ∧ copy_n ≤ avail) by (unfold copy_n; case_match; lia).
  apply wp_later. destruct (Z.ltb_spec 0 copy_n).
  - rewrite mem_read_run by lia. apply wp_data_store; [done| |].
    { unfold EvmMem.blen, EvmMem.within in *. rewrite length_take, length_drop. lia. }
    intros m' ? Hle. destruct (Z.ltb_spec copy_n size); [|wps; auto].
    apply wp_data_store; [done| |intros; auto].
    eapply EvmMem.within_le; [exact Hle|]. unfold EvmMem.blen, EvmMem.within in *. rewrite length_replicate. lia.
  - wps; [|auto]. apply wp_data_store; [done| |intros; auto].
    unfold EvmMem.blen, EvmMem.within in *. rewrite length_replicate. lia.
Qed.

Lemma spends_data_copy d : spends (data_copy d).
Proof.
  intros f s Hw. unfold data_copy. wps. apply wp_copy_into; [done|done|words|words|]. intros s' ?. wps.
Qed.
Lemma spends_calldatacopy : spends op_calldatacopy.
Proof. intros f s Hw. unfold op_calldatacopy. do 2 wp1. by apply spends_data_copy. Qed.
Lemma spends_codecopy : spends op_codecopy.
Proof. intros f s Hw. unfold op_codecopy. do 2 wp1. by apply spends_data_copy. Qed.

(** The account access: afterwards the account is warm. *)
Lemma wp_access a Q f s :
  frame_wf f s →
  (∀ st s', evm_mem s' = evm_mem s → ext s s' → acct_warm a s' → frame_wf f s' → Q st f s') →
  wp 0 (host (StateDb.access_account is_precompile a)) Q f s.
Proof.
  intros Hw HQ. eapply (wp_host _ _ _ any); [eauto with keeps_mem nocore|apply host_access_account_spec|done|done|].
  intros st s' ? ? ? ?. auto.
Qed.

Lemma wp_charge_access a Q f s :
  frame_wf f s →
  (∀ g s', evm_mem s' = evm_mem s → ext s s' → acct_warm a s' → frame_wf (set_gas g f) s' → Q tt (set_gas g f) s') →
  wp 0 (charge_account_access is_precompile a) Q f s.
Proof.
  intros Hw HQ. unfold charge_account_access, is_ge. wps; [berlin|].
  apply wp_access; [done|]. intros [] s' ? ? ? ?; wps.
  - auto.
  - specialize (HQ (evm_gas f) s'). replace (set_gas (evm_gas f) f) with f in HQ by (by destruct f). auto.
Qed.

Lemma acct_warm_ext a f s s' : frame_wf f s → ext s s' → acct_warm a s → acct_warm a s'.
Proof. intros Hw He Ha. apply warm_of_live. eapply live_ext; [exact He|]. by eapply live_of_warm. Qed.

Ltac read_host lem := eapply wp_host;
  [solve [eauto with keeps_mem nocore]|apply lem|assumption|assumption|intros ? ? ? ? _ ?].

Lemma spends_balance : spends (op_balance is_precompile).
Proof.
  intros f s Hw. unfold op_balance. wps. apply wp_charge_access; [done|]. intros g s' ? ? ? ?. wps.
  apply wp_balance; [done|done|]. intros. wps.
Qed.
Lemma spends_extcodesize : spends (op_extcodesize is_precompile).
Proof.
  intros f s Hw. unfold op_extcodesize. wps. apply wp_charge_access; [done|]. intros g s' ? ? ? ?. wps.
  read_host get_code_size_spec. wps.
Qed.
Lemma spends_extcodehash : spends (op_extcodehash is_precompile).
Proof.
  intros f s Hw. unfold op_extcodehash. wps. apply wp_charge_access; [done|]. intros g s' ? ? ? ?. wps.
  read_host get_code_hash_spec. wps.
Qed.

Lemma copy_code_length a off n s bs s' :
  0 ≤ off → 0 ≤ n → copy_code a off n s = Ok (bs, s') → EvmMem.blen bs ≤ n.
Proof.
  intros Ho Hn H. unfold copy_code in H. apply bind_run in H as (u & s1 & _ & H).
  apply bind_run in H as (h & s2 & _ & H). case_match; [by injection H as <- <-|].
  apply bind_run in H as (c & s3 & _ & H). cbv zeta in H. unfold EvmMem.blen.
  repeat case_match; injection H as <- <-; cbn; rewrite ?length_take; lia.
Qed.

Lemma wp_copy_code a off n Q f s :
  frame_wf f s → acct_warm a s → 0 ≤ off → 0 ≤ n →
  (∀ bs s', evm_mem s' = evm_mem s → ext s s' → EvmMem.blen bs ≤ n → frame_wf f s' → Q bs f s') →
  wp 0 (host (copy_code a off n)) Q f s.
Proof.
  intros Hw Ha Ho Hn HQ. eapply (wp_host _ _ _ _ (λ bs _, EvmMem.blen bs ≤ n)); [eauto with keeps_mem nocore| |exact Ha|done|auto].
  intros s1 bs s2 Hs H. destruct (copy_code_spec is_precompile a off n s1 bs s2 Hs H) as [He _].
  split; [done|]. exact (copy_code_length a off n s1 bs s2 Ho Hn H).
Qed.

Lemma spends_extcodecopy : spends (op_extcodecopy is_precompile).
Proof.
  intros f s Hw. unfold op_extcodecopy. wps. apply wp_charge_access; [done|]. intros g' s' E1 ? ? ?.
  wp1. destruct (Z.eqb_spec (mem_arg v2) 0) as [|Hn]; [wps|]. wps.
  apply wp_copy_code; [done|done|words|words|]. intros bs s2 E2 ? Hb ?.
  match goal with H : EvmMem.covers _ _ _ |- _ => pose proof (EvmMem.covers_within _ _ _ H Hn) as Hin end.
  cbn in E1. assert (Hin2 : EvmMem.within (mem_arg v0) (mem_arg v2) (evm_mem s2)) by (by rewrite E2, E1).
  assert (0 ≤ EvmMem.blen bs) by (unfold EvmMem.blen; lia). wps.
  apply wp_data_store; [done|unfold EvmMem.within in *; lia|]. intros m2 ? Hle. wps.
  change (len bs) with (EvmMem.blen bs) in *.
  apply wp_data_store; [done| |intros; wps]. eapply EvmMem.within_le; [exact Hle|].
  unfold EvmMem.within, EvmMem.blen in *. rewrite length_replicate. lia.
Qed.

Lemma spends_blockhash : spends op_blockhash.
Proof.
  intros f s Hw. unfold op_blockhash. wps. apply wp_tx; [done|]. intros tx s' ? ? ?. wps.
  journal journaled_block_hash. wps.
Qed.
Lemma spends_blobhash : spends op_blobhash.
Proof. intros f s Hw. unfold op_blobhash. wps. apply wp_tx; [done|]. intros tx s' ? ? ?. wps. Qed.

(** *** Storage *)

Lemma wp_access_slot a k Q f s :
  frame_wf f s →
  (∀ st s', evm_mem s' = evm_mem s → ext s s' → slot_warm a k s' → frame_wf f s' → Q st f s') →
  wp 0 (host (access_storage a k)) Q f s.
Proof.
  intros Hw HQ. eapply (wp_host _ _ _ any); [eauto with keeps_mem nocore|apply access_storage_spec|done|done|].
  intros st s' ? ? ? ?. auto.
Qed.

Lemma spends_sload : spends op_sload.
Proof.
  intros f s Hw. unfold op_sload, is_ge. wps; [berlin|].
  apply wp_access_slot; [done|]. intros [] s' ? ? ? ?; wps; read_host get_storage_spec; wps.
Qed.

Lemma wp_sstore_state_gas st Q f s :
  frame_wf f s → (∀ f', stack f' = stack f → frame_wf f' s → Q tt f' s) →
  wp 0 (sstore_state_gas st) Q f s.
Proof.
  intros Hw HQ. unfold sstore_state_gas. destruct st; wps; auto.
  - apply wp_charge_state; [done|done|]. intros. by apply HQ.
  - apply wp_refill; [done|done|]. intros. by apply HQ.
Qed.

Lemma spends_sstore : spends op_sstore.
Proof.
  intros f s Hw. unfold op_sstore. wps; [berlin|].
  apply wp_access_slot; [done|]. intros st s' ? ? ? ?. wps. journal journaled_set_storage.
  destruct (sstore_cost _ _) as [cost refund] eqn:Ec.
  pose proof (sstore_cost_pos (rev f) a) as Hc. rewrite Ec in Hc. cbn in Hc.
  pose proof (cold_c_pos (rev f)). wp1.
  apply wp_charge; [done|destruct st; lia|destruct st; lia|]. intros ? ?. wps.
  - apply wp_sstore_state_gas; [done|]. intros f' ? ?. wps.
    apply wp_cosmetic; [apply cosmetic_refund|done|]. intros ?. wps.
  - apply wp_cosmetic; [apply cosmetic_refund|done|]. intros ?. wps.
Qed.

Lemma spends_tload : spends op_tload.
Proof. intros f s Hw. unfold op_tload. wps. journal journaled_get_transient. wps. Qed.
Lemma spends_tstore : spends op_tstore.
Proof. intros f s Hw. unfold op_tstore. wps. journal journaled_set_transient. wps. Qed.

(** *** KECCAK256, LOG *)

Lemma keccak_cost_pos n : 0 ≤ n → 0 ≤ num_words n * GAS_KECCAK256_WORD.
Proof. intros. by apply word_cost_pos. Qed.
#[local] Hint Resolve keccak_cost_pos : evm.

Lemma spends_keccak : spends (op_keccak256 keccak256).
Proof.
  intros f s Hw. unfold op_keccak256. wps.
Qed.

Lemma wp_topics k n Q f s :
  frame_wf f s → (k + n ≤ length (stack f))%nat → (∀ ts, Q ts f s) → wp 0 (topics_from k n) Q f s.
Proof.
  revert k Q. induction n as [|n IH]; intros k Q Hw Hk HQ; cbn [topics_from]; [wps; auto|].
  wps. apply IH; [done|lia|]. intros ts. wps. auto.
Qed.

Lemma log_cost_pos n : 0 < GAS_LOG * (1 + Z.of_nat n).
Proof. unfold GAS_LOG. lia. Qed.
Lemma log_data_pos z : 0 ≤ z → 0 ≤ z * GAS_LOGDATA.
Proof. unfold GAS_LOGDATA. lia. Qed.
#[local] Hint Resolve log_cost_pos log_data_pos : evm.

Lemma spends_log n : spends (log_impl n).
Proof.
  intros f s Hw. unfold log_impl. wps. apply wp_topics; [done|depth|]. intros ts. wps.
  journal journaled_emit_log. wps.
Qed.

(** *** RETURN, REVERT, return data *)

Lemma wp_output off n Q f s :
  frame_wf f s → EvmMem.covers off n (evm_mem s) → (∀ f', frame_wf f' s → Q tt f' s) →
  wp 0 (modf (set_output off n)) Q f s.
Proof.
  intros Hw Hc HQ. assert (frame_wf (set_output off n f) s) by (by destruct Hw).
  eapply wp_step; [done|done|by split|unfold budget; cbn; lia|auto].
Qed.

(** RETURN and REVERT halt: there is nothing to spend. *)
Lemma spends_return st : spends (return_impl st).
Proof.
  intros f s Hw. unfold return_impl. wps.
  - apply wp_output; [done|done|]. intros f' ?. wps.
  - eapply (wp_step _ _ _ _ tt _ (set_output (output_offset f) 0 f)); [done| |by split|unfold budget; cbn; lia|].
    { destruct Hw. split; try done. by left. }
    assert (frame_wf (set_output (output_offset f) 0 f) s) by (destruct Hw; split; try done; by left). wps.
Qed.

Lemma spends_returndatasize : spends op_returndatasize.
Proof. intros f s Hw. unfold op_returndatasize. wps. Qed.

Lemma rds_cost_pos n : 0 ≤ n → 0 ≤ 3 * (u64 (n + 31) / 32).
Proof. intros H%num_words_pos. unfold num_words in H. lia. Qed.
#[local] Hint Resolve rds_cost_pos : evm.

Lemma spends_returndatacopy : spends op_returndatacopy.
Proof.
  intros f s Hw. unfold op_returndatacopy. wps.
  apply wp_data_store; [done| |intros; wps].
  match goal with H : EvmMem.covers _ (mem_arg v1) _ |- _ => pose proof (EvmMem.covers_within _ _ _ H ltac:(lia)) as Hin end.
  pose proof (mem_arg_pos v0 ltac:(done)).
  unfold EvmMem.within, EvmMem.blen, len in *. rewrite length_take, length_drop. cbn in *. lia.
Qed.

Lemma spends_invalid : spends op_invalid.
Proof. intros f s Hw. unfold op_invalid. wps. Qed.

Lemma wp_exists a Q f s :
  frame_wf f s → (∀ b s', evm_mem s' = evm_mem s → ext s s' → frame_wf f s' → Q b f s') →
  wp 0 (host (account_exists a)) Q f s.
Proof. intros Hw HQ. journal journaled_account_exists. auto. Qed.

(** A block that may charge: what follows sees the same frame but for the gas
    fields. *)
Definition same_but_gas (f f' : EvmState) : Prop :=
  ∃ g l p, f' = set_gas g (set_state_gas l p f).
Lemma same_refl f : same_but_gas f f.
Proof. exists (evm_gas f), (state_gas_left f), (state_gas_spilled f). by destruct f. Qed.
Lemma same_gas g f : same_but_gas f (set_gas g f).
Proof. exists g, (state_gas_left f), (state_gas_spilled f). by destruct f. Qed.

Definition pays {A} (m : H A) : Prop := ∀ f s Q, frame_wf f s →
  (∀ a f' s', same_but_gas f f' → evm_mem s' = evm_mem s → ext s s' → frame_wf f' s' → Q a f' s') →
  wp 0 m Q f s.

Lemma pays_new_account : pays charge_new_account.
Proof.
  intros f s Q Hw HQ. unfold charge_new_account, is_ge. wps.
  - apply wp_charge_state; [done|done|]. intros. wps. apply HQ; [by eexists _, _, _|done..].
  - apply HQ; [apply same_gas|done..].
Qed.

Lemma pays_beneficiary a : pays (charge_beneficiary is_precompile a).
Proof.
  intros f s Q Hw HQ. unfold charge_beneficiary. wps; [berlin|].
  apply wp_access; [done|]. intros [] s' ? ? ? ?; wps; apply HQ; done || apply same_gas || apply same_refl.
Qed.
Lemma pays_new_beneficiary b a : pays (charge_new_beneficiary b a).
Proof.
  intros f s Q Hw HQ. unfold charge_new_beneficiary. wps; [|by apply HQ; [apply same_refl|..]].
  apply wp_exists; [done|]. intros e s' ? ? ?. wps.
  - apply wp_charge_state; [done|done|]. intros. apply HQ; [|done..]. by eexists _, _, _.
  - apply HQ; [apply same_gas|done..].
  - apply HQ; [apply same_refl|done..].
Qed.

Lemma spends_selfdestruct : spends (op_selfdestruct is_precompile).
Proof.
  intros f s Hw. unfold op_selfdestruct. wps.
  apply pays_beneficiary; [done|]. intros _ f1 s1 (g & l & p & ->) ? ? Hw1. wps.
  apply wp_balance; [done|by apply (recipient_warm _ _ Hw1)|]. intros b s2 ? ? ?. wps.
  apply pays_new_beneficiary; [done|]. intros _ f2 s3 _ ? ? ?. wps.
  journal journaled_selfdestruct. wps.
  apply wp_cosmetic; [apply cosmetic_refund|done|]. intros ?. wps.
Qed.

(** *** Calls *)

Context {HC : ChildCall is_precompile host_call}.

Definition args_ok (a : call_args) : Prop :=
  0 ≤ req_gas a ∧ 0 ≤ in_off a ∧ 0 ≤ in_size a ∧ 0 ≤ out_off a ∧ 0 ≤ out_size a.

Lemma wp_call_args (hv : bool) Q f s :
  frame_wf f s → ((if hv then 7 else 6) ≤ length (stack f))%nat → (∀ a, args_ok a → Q a f s) →
  wp 0 (read_call_args hv) Q f s.
Proof.
  intros Hw Hl HQ. unfold read_call_args.
  assert (G : ∀ v, wf v → 0 ≤ call_gas_arg v).
  { intros v Hv%l0_pos. unfold call_gas_arg, INT64_MAX. destruct (_ || _); [by vm_compute|exact Hv]. }
  destruct hv; wps; apply HQ; unfold args_ok; cbn; split_and!; auto using mem_arg_pos.
Qed.

Lemma wp_resolve dst Q f s :
  frame_wf f s → acct_warm dst s →
  (∀ ca g s', evm_mem s' = evm_mem s → ext s s' → acct_warm ca s' → frame_wf (set_gas g f) s' →
     Q ca (set_gas g f) s') →
  wp 0 (resolve_delegate is_precompile dst) Q f s.
Proof.
  intros Hw Hd HQ. assert (HQ0 : ∀ ca s', evm_mem s' = evm_mem s → ext s s' → acct_warm ca s' → frame_wf f s' →
    Q ca f s').
  { intros ca s'. specialize (HQ ca (evm_gas f) s'). by replace (set_gas (evm_gas f) f) with f in HQ by (by destruct f). }
  unfold resolve_delegate, is_ge. wps; [by apply HQ0|].
  apply wp_copy_code; [done|done|lia|lia|]. intros bs s1 E1 X1 _ Hw1. wps; [|by apply HQ0; eauto using acct_warm_ext].
  apply wp_access; [done|]. intros st s2 E2 X2 Ha Hw2. do 3 wp1.
  apply wp_charge; [done|destruct st; cost|destruct st; cost|]. intros ? ?. wps.
  apply HQ; [congruence|by etrans|done|done].
Qed.

Lemma wpn_refill (c : bool) Q f s :
  frame_wf f s → (∀ f', stack f' = stack f → frame_wf f' s → Q tt f' s) →
  wpn 0 (refill_new_account c) Q f s.
Proof.
  intros Hw HQ. unfold refill_new_account. destruct c; [|wps; auto].
  apply wp_refill; [done|done|]. intros. by apply HQ.
Qed.

(** The end of a call: the operands give way to the result. *)
Lemma wpn_finish n v f s :
  frame_wf f s → (0 < n ≤ length (stack f))%nat → wf v → wpn 0 (finish n v) (λ _ _ _, True) f s.
Proof.
  intros Hw Hn Hv. unfold finish, leave. wps. pose proof (fw_depth _ _ _ Hw).
  apply wp_push; [done|depth|done|]. intros ?. wps.
Qed.

(** A light failure. *)
Ltac light := wp1; apply wpn_refill; [assumption|]; intros ? Est ?; apply wpn_finish;
  [assumption|rewrite Est; depth|words].

(** The credit a call may get. *)
Definition stipend (hv nz : bool) : Z := if hv && nz then CALL_STIPEND else 0.

Lemma stipend_pos hv nz : 0 ≤ stipend hv nz.
Proof. unfold stipend. by destruct (hv && nz). Qed.

Lemma wpn_stipend hv nz v Q f s :
  frame_wf f s →
  (∀ b s', evm_mem s' = evm_mem s → ext s s' → frame_wf (set_gas (evm_gas f + stipend hv nz) f) s' →
     Q b (set_gas (evm_gas f + stipend hv nz) f) s') →
  wpn (- stipend hv nz) (stipend_and_balance hv nz v) Q f s.
Proof.
  intros Hw HQ. unfold stipend_and_balance, stipend in *. destruct (hv && nz).
  - apply (wp_spend _ _ _ (- CALL_STIPEND)); [done|]. replace (- CALL_STIPEND - - CALL_STIPEND) with 0 by lia.
    assert (Hw1 : frame_wf (set_gas (evm_gas f + CALL_STIPEND) f) s).
    { apply wf_gas; [done|]. pose proof (fw_gas _ _ _ Hw). unfold CALL_STIPEND. lia. }
    eapply wp_step; [done|done|by split|unfold budget; cbn; lia|]. wps.
    eapply wp_host; [eauto with keeps_mem nocore|apply get_balance_spec|by apply (recipient_warm _ _ Hw1)|done|].
    intros b s' ? ? _ ?. wps. auto.
  - rewrite Z.add_0_r in HQ. replace (set_gas (evm_gas f) f) with f in HQ by (by destruct f).
    replace (- 0) with 0 by lia. wps. by apply HQ.
Qed.

Lemma child_addresses f k hv sf dst ca g v input :
  is_create k = false →
  child_live (child_message f k hv sf dst ca g v input) =
    [match k with CALL => dst | _ => recipient (evmcMsg f) end; ca].
Proof. by destruct k. Qed.

Lemma wpn_settle n a charged c r f s :
  frame_wf f s → args_ok a → (0 < n ≤ length (stack f))%nat → result_ok c r → c ≤ evm_gas f →
  EvmMem.covers (out_off a) (out_size a) (evm_mem s) →
  wpn 0 (settle_call n a charged c r) (λ _ _ _, True) f s.
Proof.
  intros Hw (_ & _ & _ & Hoo & Hos) Hn Hr Hc Hout. unfold settle_call.
  assert (Hv : wf (if success r then one else zero)) by (case_match; words). cbv zeta. wp1.
  match goal with |- EvmFrame.wp _ _ _ _ ?Q _ _ => assert (Rest : ∀ s4, frame_wf f s4 → Q tt f s4) end.
  { intros s4 Hw4. wp1. apply wp_cosmetic; [apply cosmetic_return_data|done|]. intros Hw5. wp1.
    apply wp_absorb; [done|done|done|]. intros f6 E6 Hw6. cbn in E6. unfold is_ge. do 3 wp1.
    wp1; [apply wpn_refill; [done|]; intros f7 E7 Hw7|wp1]; apply wpn_finish; auto; rewrite ?E7, E6; depth. }
  destruct (Z.ltb_spec 0 (Z.min (out_size a) (len (output r)))); [|wp1; by apply Rest].
  apply wp_data_store; [done| |intros m' Hw4 _; by apply Rest].
  unfold EvmMem.covers, EvmMem.within, EvmMem.blen, len in *. rewrite length_take. lia.
Qed.

Lemma wp_call_child k hv sf n a nz ca charged f s :
  is_create k = false → frame_wf f s → args_ok a → (0 < n ≤ length (stack f))%nat →
  acct_warm (dst_ a) s → acct_warm ca s →
  EvmMem.covers (in_off a) (in_size a) (evm_mem s) → EvmMem.covers (out_off a) (out_size a) (evm_mem s) →
  wpn (- stipend hv nz) (call_child host_call k hv sf n a nz ca charged) (λ _ _ _, True) f s.
Proof.
  intros Hk Hw Ha Hn Hdst Hca Hin Hout. unfold call_child.
  pose proof (fw_gas _ _ _ Hw). pose proof (fw_left _ _ _ Hw).
  assert (0 ≤ evm_gas f / 64 ≤ evm_gas f) by (split; [apply Z.div_pos|apply Z.div_le_upper_bound]; lia).
  do 2 wp1. cbv zeta. set (cg := if _ <? req_gas a then _ else _).
  assert (0 ≤ cg ≤ evm_gas f) by (unfold cg; destruct Ha; case_match; lia). wp1.
  apply wp_window; [done|done|]. intros input s1 E1 X1 Hw1. do 2 wp1.
  pose proof (stipend_pos hv nz) as Hst.
  apply (wp_bind _ _ (- stipend hv nz) 0); [done|lia|]. apply wpn_stipend; [done|].
  intros b s2 E2 X2 Hw2. wp1; [light|]. do 2 wp1. wp1; [light|].
  wp1. set (msg := child_message f k hv sf (dst_ a) ca _ _ input).
  assert (Hg : gas msg = cg + stipend hv nz) by (unfold msg, stipend; cbn; case_match; lia).
  assert (Hl : live (child_live msg) s2).
  { unfold msg. rewrite child_addresses by done. destruct (fw_live _ _ _ Hw2) as (Hacc & Hrec & Hi2).
    assert (A1 : ext s s2) by (by etrans). split; [done|]. split; [|done]. constructor; [|constructor; [|done]].
    - destruct k; first [exact (acct_warm_ext _ f s s2 Hw A1 Hdst)|by apply (recipient_warm _ _ Hw2)].
    - exact (acct_warm_ext _ f s s2 Hw A1 Hca). }
  apply wp_call; [done|done|rewrite Hg; lia|done|done|]. intros r s3 Hm X3 Hr Hw3.
  apply wpn_settle; [done|done|depth|done|rewrite Hg; cbn; lia|].
  eapply EvmMem.covers_le; [by apply same_frames_le|]. by rewrite E2, E1.
Qed.

(** The charge for a transferred value covers the stipend. *)
Lemma wp_value_charge r hv nz Q f s :
  frame_wf f s → (∀ g, frame_wf (set_gas g f) s → Q tt (set_gas g f) s) →
  wp (stipend hv nz) (if hv && nz
    then charge (if rev_ge r EVMC_AMSTERDAM then CALL_VALUE_COST_AMSTERDAM else CALL_VALUE_COST)
    else mret tt) Q f s.
Proof.
  intros Hw HQ. unfold stipend. destruct (hv && nz).
  - apply wp_charge; [done|by case_match|by case_match|]. auto.
  - specialize (HQ (evm_gas f)). replace (set_gas (evm_gas f) f) with f in HQ by (by destruct f). wps. auto.
Qed.

Lemma pays_callee k nz a : pays (charge_callee k nz a).
Proof.
  intros f s Q Hw HQ. unfold charge_callee. wps; try (by apply HQ; [apply same_refl|..]).
  apply wp_exists; [done|]. intros e s' ? ? Hw'. wps; [|by apply HQ; [apply same_refl|..]].
  apply pays_new_account; [done|]. intros c f' s2 ? E ? ?. apply HQ; [done|congruence|by etrans|done].
Qed.

Lemma spends_call k hv sf : is_create k = false → spends (call_impl is_precompile host_call k hv sf).
Proof.
  intros Hk f s Hw. unfold call_impl. wp1. apply wp_cosmetic; [apply cosmetic_self_balance|done|]. intros ?.
  do 5 wp1. apply wp_call_args; [done|by destruct hv|]. intros a Ha. wp1.
  apply wp_cosmetic; [apply cosmetic_return_data|done|]. intros ?. do 4 wp1.
  match goal with |- EvmFrame.wp _ _ _ (if ?c then _ else _) _ _ _ => destruct c; [by apply wp_halt|] end.
  destruct Ha as (Hq & Hio & His & Hoo & Hos). wp1.
  apply wp_expand; [done|done|done|]. intros g1 m1 Hc1 Hw1 Hle1 _. wp1.
  apply wp_expand; [done|done|done|]. intros g2 m2 Hc2 Hw2 Hle2 _. cbn in Hle2.
  pose proof (EvmMem.covers_le _ _ _ _ Hle2 Hc1) as Hc1'.
  set (nz := hv && _).
  pose proof (stipend_pos hv nz).
  apply (wp_spend _ _ _ (stipend hv nz)); [done|]. apply wp_value_charge; [done|]. intros g3 Hw3. wp1.
  apply wp_charge_access; [done|]. intros g4 s4 E4 X4 Hd4 Hw4. wp1.
  apply wp_resolve; [done|done|]. intros ca g5 s5 E5 X5 Hca5 Hw5. wp1.
  apply pays_callee; [done|]. intros charged f6 s6 (g6 & l6 & p6 & ->) E6 X6 Hw6.
  assert (Em : evm_mem s6 = m2) by (by rewrite E6, E5, E4).
  eapply wp_weaken; [apply (wp_call_child k hv sf _ a nz ca charged)|done|lia|done]; try done.
  - destruct hv; depth.
  - eapply (acct_warm_ext _ _ s5); [exact Hw5|done|]. by eapply (acct_warm_ext _ _ s4).
  - by eapply (acct_warm_ext _ _ s5).
  - by rewrite Em.
  - by rewrite Em.
Qed.

(** *** Creates *)

Lemma may_halt {A} d (m : H A) Q f s : wpn d m Q f s → wp d m Q f s.
Proof. intros Hm. by eapply wp_weaken. Qed.

Lemma pays_initcode is2 n : 0 ≤ n → pays (charge_initcode is2 n).
Proof.
  intros Hn f s Q Hw HQ. unfold charge_initcode. wps.
  - apply HQ; [apply same_refl|done..].
  - apply wp_charge; [done|apply word_cost_pos; [done|] |apply word_cost_pos; [done|] |];
      try (destruct is2; by case_match). intros ? ?. apply HQ; [apply same_gas|done..].
Qed.

Lemma pays_warm_new a : pays (warm_new_address is_precompile a).
Proof.
  intros f s Q Hw HQ. unfold warm_new_address, is_ge. wps.
  - apply wp_access; [done|]. intros st s' ? ? ? ?. wps. apply HQ; [apply same_refl|done..].
  - apply HQ; [apply same_refl|done..].
Qed.
Lemma pays_created a : pays (charge_created a).
Proof.
  intros f s Q Hw HQ. unfold charge_created, is_ge. wps; [|by apply HQ; [apply same_refl|..]].
  apply wp_exists; [done|]. intros e s' ? ? ?. wps; [|by apply HQ; [apply same_refl|..]].
  apply wp_charge_state; [done|done|]. intros. wps. apply HQ; [by eexists _, _, _|done..].
Qed.

Lemma wpn_settle_create charged c na r Q f s :
  frame_wf f s → result_ok c r → c ≤ evm_gas f →
  (∀ w f', wf w → stack f' = stack f → frame_wf f' s → Q w f' s) →
  wpn 0 (settle_create charged c na r) Q f s.
Proof.
  intros Hw Hr Hc HQ. unfold settle_create, is_ge. wp1. apply wp_absorb; [done|done|done|].
  intros f1 E1 Hw1. do 3 wp1. assert (Hv : wf (if success r then slot_from_address na else zero)) by (case_match; words).
  wp1; [apply wpn_refill; [done|]; intros f2 E2 Hw2|wp1]; wp1;
    (apply wp_cosmetic; [apply cosmetic_return_data|done|]); intros ?; wp1; apply HQ; try done; cbn; congruence.
Qed.

Lemma wp_create_child k na v init Q f s :
  is_create k = true → frame_wf f s →
  (∀ w f' s', wf w → stack f' = stack f → frame_wf f' s' → Q w f' s') →
  wp 0 (create_child is_precompile host_call k na v init) Q f s.
Proof.
  intros Hk Hw HQ. unfold create_child. wp1.
  apply pays_warm_new; [done|]. intros _ f1 s1 (g1 & l1 & p1 & ->) E1 X1 Hw1. wp1.
  apply pays_created; [done|]. intros c f2 s2 (g2 & l2 & p2 & ->) E2 X2 Hw2. do 4 wp1.
  pose proof (fw_gas _ _ _ Hw2) as Hg. pose proof (fw_left _ _ _ Hw2) as Hl. cbn in Hg, Hl. cbn [evm_gas set_gas] in *.
  assert (0 ≤ g2 / 64 ≤ g2) by (split; [apply Z.div_pos|apply Z.div_le_upper_bound]; lia). wp1.
  apply wp_call; [done|done|cbn; lia|done| |].
  { unfold child_live. cbn. rewrite Hk. pose proof (fw_live _ _ _ Hw2) as (? & _ & ?). by split_and!. }
  intros r s3 Hm X3 Hr Hw3. apply may_halt, wpn_settle_create; [done|done|cbn; lia|].
  intros w f' ? ? ?. by apply HQ.
Qed.

(** The checks before a create: the endowment is there. *)
Lemma wp_funded v Q f s :
  frame_wf f s →
  (∀ b s', evm_mem s' = evm_mem s → ext s s' → frame_wf f s' → Q b f s') →
  wp 0 (if negb (u256_is_zero v) then
          bal ← host (get_balance (recipient (evmcMsg f))); mret (negb (bal <? to_wire v))
        else mret true) Q f s.
Proof.
  intros Hw HQ. wp1; [|wp1; by apply HQ]. wp1.
  apply wp_balance; [done|by apply recipient_warm|]. intros b s' E X Hw'. wp1. by apply HQ.
Qed.

Lemma spends_create k : is_create k = true → spends (create_impl keccak256 is_precompile host_call k).
Proof.
  intros Hk f s Hw. unfold create_impl. wp1. apply wp_cosmetic; [apply cosmetic_self_balance|done|]. intros ?.
  set (is2 := match k with CREATE2 => true | _ => false end).
  set (n := if is2 then 4%nat else 3%nat). assert (Hn : (3 ≤ n)%nat) by (unfold n; destruct is2; lia). do 2 wp1.
  apply (wp_spend _ _ 1 1); [done|]. apply wp_charge; [done|by case_match|by case_match|]. intros ? ?.
  change (1 - 1) with 0. do 10 wp1. wp1.
  match goal with |- EvmFrame.wp _ _ _ _ ?Q ?f0 _ => assert (Rest : ∀ salt, Q salt f0 s) end.
  { intros salt. wp1. apply wp_cosmetic; [apply cosmetic_return_data|done|]. intros ?. do 3 wp1.
    apply pays_initcode; [words|done|]. intros _ f1 s1 (g1 & l1 & p1 & ->) E1 X1 Hw1. do 2 wp1.
    wp1; [apply may_halt, wpn_finish; [done|depth|words]|]. wp1.
    apply wp_funded; [done|]. intros b s2 E2 X2 Hw2. wp1; [apply may_halt, wpn_finish; [done|depth|words]|]. wp1.
    eapply wp_host; [eauto with keeps_mem nocore|apply get_nonce_spec|by apply (recipient_warm _ _ Hw2)|done|].
    intros nonce s3 E3 X3 _ Hw3. wp1; [apply may_halt, wpn_finish; [done|depth|words]|]. wp1.
    apply wp_window; [done|by rewrite E3, E2, E1|]. intros init s4 E4 X4 Hw4. wp1.
    apply wp_create_child; [done|done|]. intros w f5 s5 Hwf Est Hw5.
    apply may_halt, wpn_finish; [done|rewrite Est; depth|done]. }
  destruct is2; unfold n in *; wp1; first [done|apply (Rest zero)|apply Rest].
Qed.

End Host.
End Ops.
End EvmOps.
