(* ===== verification/EvmRun.v ===== *)
(** The interpreter's loop and its frames: every run halts within the gas it was
    given, within bounds, and leaves the host state and the memory manager the way
    its caller relies on; the machine, whose frames call frames, meets the same
    contract at every depth. *)

From stdpp Require Import base numbers list strings gmap.
From S2P Require Import Prelude Fork Rlp Receipt Contracts Chain CreateAddress Bal Jumpdest EvmMem Accounts Storages Transient Journal StateDb HostProofs Frames U256 Alu Zevm EvmFrame EvmOps.

Set Default Goal Selector "!".

Module EvmRun.
Import Rlp Receipt Fork Journal StateDb HostProofs Frames U256 Zevm EvmFrame EvmOps.

Section Run.
Context (keccak256 : bytes → Z).
Context (is_precompile : revision → Z → bool).

Abbreviation ext := (HostProofs.ext is_precompile).
Abbreviation spec := (HostProofs.spec is_precompile).
Abbreviation live := (Frames.live is_precompile).
Abbreviation wp := (EvmFrame.wp is_precompile true).
Abbreviation frame_wf := (EvmFrame.frame_wf is_precompile).
Abbreviation evolves := (EvmFrame.evolves is_precompile).
Abbreviation spends := (EvmOps.spends is_precompile).

Section Loop.
Context (host_call : message → M Result) {HC : ChildCall is_precompile host_call}.
Abbreviation dispatch := (Zevm.dispatch keccak256 is_precompile host_call).
Abbreviation step := (Zevm.step keccak256 is_precompile host_call).
Abbreviation dispatch_loop := (Zevm.dispatch_loop keccak256 is_precompile host_call).
Abbreviation run := (Zevm.run keccak256 is_precompile host_call).

Lemma spends_regular h : spends h → spends (OPS h).
Proof.
  intros Hh f s Hw. unfold OPS. apply (wp_spend _ _ 1 1); [done|]. change (1 - 1) with 0.
  intros o f' s' H. destruct (Hh f s Hw o f' s' H) as (He & Hw' & Ho). split; [done|]. split; [done|].
  destruct o; [|done|done]. split; [apply Ho|]. by apply wp_advance; [|lia|].
Qed.
Lemma spends_halt st : spends (halt st).
Proof. intros f s Hw. by apply wp_halt. Qed.
Lemma spends_gate r h : spends h → spends (gate r h).
Proof.
  intros Hh f s Hw. unfold gate. apply wp_later, wp_getf; [done|]. case_match; [by apply Hh|by apply wp_halt].
Qed.

Create HintDb spends discriminated.
#[local] Hint Constants Opaque : spends.
#[local] Hint Resolve spends_halt spends_stop spends_jump spends_jumpi spends_jumpdest spends_pop spends_pc
  spends_gas spends_alu1 spends_alu2 spends_alu3 spends_exp spends_push0 spends_swap spends_dupn spends_swapn
  spends_exchange spends_mload spends_mstore spends_mstore8 spends_msize spends_mcopy spends_address
  spends_caller spends_callvalue spends_calldatasize spends_codesize spends_origin spends_gasprice
  spends_coinbase spends_timestamp spends_number spends_prevrandao spends_gaslimit spends_chainid
  spends_basefee spends_blobbasefee spends_slotnum spends_selfbalance spends_calldataload
  spends_calldatacopy spends_codecopy spends_balance spends_extcodesize spends_extcodehash
  spends_extcodecopy spends_blockhash spends_blobhash spends_sload spends_sstore spends_tload spends_tstore
  spends_keccak spends_log spends_return spends_returndatasize spends_returndatacopy spends_invalid
  spends_selfdestruct : spends.

Lemma spends_op_call : spends (op_call is_precompile host_call).
Proof. unfold op_call, op_callcode, op_delegatecall, op_staticcall. by apply (spends_call _ _). Qed.
Lemma spends_op_callcode : spends (op_callcode is_precompile host_call).
Proof. unfold op_call, op_callcode, op_delegatecall, op_staticcall. by apply (spends_call _ _). Qed.
Lemma spends_op_delegatecall : spends (op_delegatecall is_precompile host_call).
Proof. unfold op_call, op_callcode, op_delegatecall, op_staticcall. by apply (spends_call _ _). Qed.
Lemma spends_op_staticcall : spends (op_staticcall is_precompile host_call).
Proof. unfold op_call, op_callcode, op_delegatecall, op_staticcall. by apply (spends_call _ _). Qed.
Lemma spends_op_create : spends (op_create keccak256 is_precompile host_call).
Proof. unfold op_create, op_create2. by apply (spends_create _ _ _). Qed.
Lemma spends_op_create2 : spends (op_create2 keccak256 is_precompile host_call).
Proof. unfold op_create, op_create2. by apply (spends_create _ _ _). Qed.
#[local] Hint Resolve spends_op_call spends_op_callcode spends_op_delegatecall spends_op_staticcall
  spends_op_create spends_op_create2 : spends.

(** Every opcode byte, in every revision. *)
Lemma spends_dispatch op : spends (dispatch op).
Proof.
  destruct op; cbn [Zevm.dispatch]; unfold OPG, OPSG, OP, Zevm.op_return, Zevm.op_revert;
    repeat lazymatch goal with
           | |- EvmOps.spends _ (OPS _) => apply spends_regular
           | |- EvmOps.spends _ (gate _ _) => apply spends_gate
           end;
    lazymatch goal with
    | |- EvmOps.spends _ (op_push _) => apply spends_push; lia
    | |- EvmOps.spends _ (op_dup _) => apply spends_dup; lia
    | |- _ => solve [auto with spends nocore]
    end.
Qed.

Lemma spends_step : spends step.
Proof.
  intros f s Hw. unfold Zevm.step, fetch. pose proof (fw_pc _ _ _ Hw).
  apply wp_later, wp_later, wp_getf; [done|]. apply wp_later, wp_getf; [done|].
  destruct (Z.ltb_spec (pc f) (code_size f)).
  - apply wp_code_byte; [done|lia|]. intros op. by apply spends_dispatch.
  - apply wp_ret; [done|]. by apply spends_dispatch.
Qed.

(** Enough fuel for the budget: the loop halts, and stays within bounds. *)
Lemma loop_spec fuel f s r s' :
  frame_wf f s → budget f < Z.of_nat fuel → dispatch_loop fuel f s = Ok (r, s') →
  ∃ f', r = Done f' ∧ evolves f s f' s' ∧ frame_wf f' s' ∧ budget f' ≤ budget f.
Proof.
  revert f s. induction fuel as [|fuel IH]; intros f s Hw Hb H.
  { pose proof (fw_gas _ _ _ Hw). pose proof (fw_spilled _ _ _ Hw). unfold budget in Hb. lia. }
  cbn in H. apply bind_run in H as ([o f1] & s1 & H1 & H).
  destruct (spends_step f s Hw o f1 s1 H1) as (He & Hw1 & Ho). destruct o as [u| |]; [| |done].
  - destruct Ho as [Hs _]. destruct (IH f1 s1 Hw1 ltac:(lia) H) as (f' & -> & E & W & B).
    exists f'. split; [done|]. split; [by eapply evolves_trans|]. split; [done|lia].
  - injection H as <- <-. exists f1. destruct Ho. auto.
Qed.

(** ** A frame *)

Lemma createMemory_room m d m' :
  EvmMem.createMemory m = Ok (d, m') → EvmMem.inv m → EvmMem.s_cur m + 1 < Z.of_nat EvmMem.kMaxMemHandles.
Proof.
  intros H Hi. unfold EvmMem.createMemory in H. destruct (EvmMem.frame_start _ _) as [st|]; [|done].
  cbn in H. unfold EvmMem.set_handle in H. destruct (_ <? 0); [done|].
  destruct (vec_set _ _ _) as [hs|] eqn:E; [|done]. apply vec_set_Ok in E as [E _].
  cbn in E. rewrite (EvmMem.inv_len _ Hi) in E. lia.
Qed.

Lemma reset_wf msg c r s :
  0 ≤ gas msg → 0 ≤ msg_state_gas msg → EvmMem.ready (evm_mem s) → live [recipient msg] s →
  frame_wf (reset msg c r) s.
Proof.
  intros. split; cbn; try done; [lia|by left|]. unfold code_size, len. cbn. pose proof (Jumpdest.bitset_length c). lia.
Qed.

Lemma failed_state_gas_spec f s :
  frame_wf f s → 0 ≤ msg_state_gas (evmcMsg f) →
  0 ≤ evm_gas (failed_state_gas f) ∧ 0 ≤ state_gas_left (failed_state_gas f) ∧
  0 ≤ state_gas_spilled (failed_state_gas f) ∧ budget (failed_state_gas f) = budget f.
Proof.
  intros [] ?. unfold failed_state_gas, budget. destruct (_ && _); cbn; lia.
Qed.
Lemma result_of_ok f s out :
  frame_wf f s → 0 ≤ msg_state_gas (evmcMsg f) → result_ok (budget f) (result_of f out).
Proof.
  intros Hw Hm. destruct (failed_state_gas_spec f s Hw Hm) as (Hg & Hl & Hp & Hb). unfold budget in *.
  unfold result_of. split; cbn; try done; case_match; lia.
Qed.

(** Giving a frame's memory back. *)
Lemma release_frames m m1 m2 d :
  EvmMem.inv m → EvmMem.createMemory m = Ok (d, m1) → EvmMem.ready m2 → EvmMem.mem_le m1 m2 →
  same_frames m (EvmMem.destroyMemory m2).
Proof.
  intros Hi E [Hi2 Hc2] [Hc Hb _].
  destruct (EvmMem.createMemory_spec m Hi (createMemory_room _ _ _ E Hi)) as (m' & E' & _ & Hc1 & Hf).
  rewrite E in E'. simplify_eq. destruct (EvmMem.destroyMemory_spec m2 Hi2 Hc2) as [Hi3 Hf3].
  split; [done|cbn; lia|]. rewrite Hf3. fold (EvmMem.below m2). rewrite Hb. unfold EvmMem.below.
  by rewrite Hf, removelast_last.
Qed.

(** A frame that starts well: the loop halts, and the caller gets back the memory
    it had and at most the gas it gave. *)
Lemma run_spec msg c s r s' :
  0 ≤ gas msg → 0 ≤ msg_state_gas msg → live [recipient msg] s → run msg c s = Ok (r, s') →
  ext s s' ∧ same_frames (evm_mem s) (evm_mem s') ∧ result_ok (gas msg) r.
Proof.
  intros Hg Hsg Hl H. unfold Zevm.run in H. apply bind_run in H as (rv & s0 & [= <- <-] & H). cbv zeta in H.
  apply bind_run in H as (u & s1 & H1 & H). destruct (EvmMem.createMemory (evm_mem s)) as [[d m1]|] eqn:Ec; [|done].
  injection H1 as _ <-. pose proof Hl as (_ & _ & Hi).
  destruct (EvmMem.createMemory_spec _ Hi (createMemory_room _ _ _ Ec Hi)) as (m1' & Ec' & Hi1 & Hc1 & _).
  rewrite Ec in Ec'. simplify_eq. pose proof (EvmMem.inv_cur _ Hi).
  assert (Hr1 : EvmMem.ready m1') by (split; [done|lia]).
  pose proof (ext_put_mem is_precompile s m1' Hr1) as X1.
  apply bind_run in H as (out & s2 & H2 & H).
  eapply loop_spec in H2 as (f2 & -> & [_ _ Em _ Hle X2] & Hw2 & Hb2);
    [|apply reset_wf; [done|done|done|by eapply live_ext]|unfold budget; cbn; lia].
  assert (X3 : ext s2 (put_mem (EvmMem.destroyMemory (evm_mem s2)) s2)).
  { split; try done. intros Hi2. cbn. by apply EvmMem.destroyMemory_spec; [|apply Hw2]. }
  assert (Hf : same_frames (evm_mem s) (EvmMem.destroyMemory (evm_mem s2))).
  { eapply release_frames; [done|exact Ec|apply Hw2|exact Hle]. }
  assert (Hr : ∀ bs, result_ok (gas msg) (result_of f2 bs)).
  { intros bs. destruct (result_of_ok f2 s2 bs Hw2); [by rewrite Em|].
    split; try done. unfold budget in *. cbn in Hb2. lia. }
  apply bind_run in H as (bs & s3 & H3 & [= <- <-]).
  assert (s3 = s2) as -> by (destruct (_ =? 0); [by injection H3|]; destruct (EvmMem.data_read _ _ _); by simplify_eq).
  split; [|split; [done|auto]]. etrans; [exact X1|]. by etrans.
Qed.

End Loop.

(** What the host relies on its VM for. *)
Class FrameVM (vm : message → bytes → M Result) : Prop :=
  frame_vm msg c s r s' :
    0 ≤ gas msg → 0 ≤ msg_state_gas msg → live [recipient msg] s → vm msg c s = Ok (r, s') →
    ext s s' ∧ same_frames (evm_mem s) (evm_mem s') ∧ result_ok (gas msg) r.

#[global] Instance run_vm hc `{!ChildCall is_precompile hc} :
  FrameVM (Zevm.run keccak256 is_precompile hc).
Proof. intros msg c s r s'. by apply run_spec. Qed.

#[global] Instance vm_is_journaled vm `{!FrameVM vm} : JournaledVM is_precompile vm.
Proof. intros msg c Hg Hsg s r s' Hl H. by destruct (frame_vm msg c s r s' Hg Hsg Hl H). Qed.

(** ** The host's side: CALL and CREATE hand frames to the VM *)

Lemma result_no_output st g msg : 0 ≤ g ≤ gas msg → 0 ≤ msg_state_gas msg → result_ok (gas msg) (no_output st g msg).
Proof. intros. split; cbn; lia. Qed.

(** A host action that ends in a frame's result, and what may follow the frame. *)
Definition returns (g : Z) (P : StateDB → Prop) (m : M Result) : Prop :=
  ∀ s r s', live [] s → P s → m s = Ok (r, s') → same_frames (evm_mem s) (evm_mem s') ∧ result_ok g r.

Lemma same_frames_refl m : EvmMem.inv m → same_frames m m.
Proof. by split. Qed.

Lemma returns_bind {A} g P (m : M A) Q (k : A → M Result) :
  spec P m Q → keeps_mem m → (∀ a, returns g (Q a) (k a)) → returns g P (m ≫= k).
Proof.
  intros Hm Hk Hr s r s' Hl HP H. apply bind_run in H as (a & s1 & H1 & H2).
  destruct (Hm _ _ _ HP H1) as [He HQ]. rewrite <- (Hk _ _ _ H1).
  apply (Hr a s1); [by eapply live_ext|done|done].
Qed.
(** Nothing to know about the state before. *)
Lemma returns_any {A} g P (m : M A) (k : A → M Result) :
  journaled is_precompile m → keeps_mem m → (∀ a, returns g any (k a)) → returns g P (m ≫= k).
Proof. intros Hm. apply returns_bind. by apply journaled_spec. Qed.

Lemma returns_ret g P r : result_ok g r → returns g P (mret r).
Proof. intros Hr s r' s' (_ & _ & Hi) _ [= <- <-]. split; [by apply same_frames_refl|done]. Qed.

(** The frame, then a tail that leaves the memory alone. *)
Lemma returns_tail g P (m : M Result) (k : Result → M Result) :
  returns g P m → (∀ r, result_ok g r → keeps_mem (k r) ∧ ∀ s r' s', k r s = Ok (r', s') → result_ok g r') →
  returns g P (m ≫= k).
Proof.
  intros Hm Hk s r s' Hl HP H. apply bind_run in H as (r1 & s1 & H1 & H2).
  destruct (Hm _ _ _ Hl HP H1) as [Hf Hr]. destruct (Hk r1 Hr) as [Hkm Hkr].
  rewrite (Hkm _ _ _ H2). split; [done|by eapply Hkr].
Qed.

Lemma km_rollback cp : keeps_mem (rollback cp).
Proof. intros s a s' H. unfold rollback in H. repeat case_match; simplify_eq; done. Qed.
Lemma km_checkpoint : keeps_mem checkpoint.
Proof. by intros s a s' [= _ <-]. Qed.
Lemma km_nonce i v : keeps_mem (_ ← log_old_nonce i; set_nonce_idx i v).
Proof. unfold log_old_nonce, set_nonce_idx, tx_counter. keep_mem. Qed.
Lemma km_old_nonce i : keeps_mem (log_old_nonce i).
Proof. unfold log_old_nonce. keep_mem. Qed.
Lemma km_set_nonce i v : keeps_mem (set_nonce_idx i v).
Proof. unfold set_nonce_idx, tx_counter. keep_mem. Qed.
Lemma km_old_hash i : keeps_mem (log_old_code_hash i).
Proof. unfold log_old_code_hash. keep_mem. Qed.
Lemma km_set_hash i v : keeps_mem (set_code_hash_idx i v).
Proof. unfold set_code_hash_idx, tx_counter. keep_mem. Qed.
#[local] Hint Resolve km_rollback km_checkpoint km_old_nonce km_set_nonce km_old_hash km_set_hash : keeps_mem.
Lemma km_init_create a msg : keeps_mem (init_create_account a msg).
Proof. unfold init_create_account, account_row, create_collides, address_has_storage, has_block_start_storage. keep_mem. Qed.
Lemma km_register_code a r : keeps_mem (register_deployed_code keccak256 a r).
Proof. unfold register_deployed_code. keep_mem. Qed.
Lemma km_create_bump msg i n : keeps_mem (create_bump msg i n).
Proof. unfold create_bump, account_row, tx_counter. keep_mem. Qed.
#[local] Hint Resolve km_init_create km_register_code km_create_bump : keeps_mem.

Section Host.
Context (call_precompile : revision → message → Result).
Context (ecrecover_address : Z → Z → Z → Z → option Z).
Context (evmone_state_gas_charge : StateGas → Z → Z → option (Z * StateGas)).
Context (cost_per_byte : Z).

(** The precompiles return at most the gas they got, and evmone's charge only
    moves gas from the reservoir or the frame, into the spill. *)
Class HostGas : Prop := {
  precompile_gas rev msg : 0 ≤ gas msg → 0 ≤ msg_state_gas msg → result_ok (gas msg) (call_precompile rev msg);
  charge_gas sg g c g' sg' : 0 ≤ g → 0 ≤ sg_left sg → 0 ≤ sg_spilled sg → 0 ≤ c →
    evmone_state_gas_charge sg g c = Some (g', sg') →
    0 ≤ g' ∧ 0 ≤ sg_left sg' ∧ 0 ≤ sg_spilled sg' ∧ g' + sg_spilled sg' ≤ g + sg_spilled sg;
  cost_pos : 0 ≤ cost_per_byte }.
Context {HG : HostGas}.

Section Vm.
Context (vm : message → bytes → M Result) {HV : FrameVM vm}.
Abbreviation call := (StateDb.call keccak256 is_precompile call_precompile ecrecover_address
  evmone_state_gas_charge cost_per_byte vm).

Lemma precompile_returns msg P :
  0 ≤ gas msg → 0 ≤ msg_state_gas msg →
  returns (gas msg) P (call_precompile_dispatch call_precompile ecrecover_address msg).
Proof.
  intros Hg Hsg. unfold call_precompile_dispatch. case_match.
  - apply returns_ret. unfold ecrecover_precompile. destruct (Z.ltb_spec (gas msg) kEcrecoverGas).
    { apply result_no_output; lia. }
    cbv zeta. assert (0 ≤ gas msg - kEcrecoverGas ≤ gas msg) by (unfold kEcrecoverGas in *; lia).
    repeat case_match; try (by apply result_no_output). split; cbn; lia.
  - apply returns_any; [apply pure_journaled, pure_gets|apply km_gets|]. intros rev.
    by apply returns_ret, precompile_gas.
Qed.

Lemma run_frame_returns msg c addrs :
  0 ≤ gas msg → 0 ≤ msg_state_gas msg → recipient msg ∈ addrs →
  returns (gas msg) (live addrs) (run_frame vm msg c).
Proof.
  intros Hg Hsg Hin. unfold run_frame. apply returns_tail.
  - intros s r s' _ Hl H. destruct (frame_vm msg c s r s') as (_ & ? & ?); try done.
    eapply live_incl; [|done]. set_solver.
  - intros r Hr. split; [keep_mem|]. intros s r' s' H. apply bind_run in H as (u & s1 & _ & H).
    apply bind_run in H as (u' & s2 & _ & [= <- _]). done.
Qed.

Lemma settle_tail g cp r : result_ok g r →
  keeps_mem (settle_frame cp r) ∧ ∀ s r' s', settle_frame cp r s = Ok (r', s') → result_ok g r'.
Proof.
  intros Hr. unfold settle_frame. split; [keep_mem|]. intros s r' s' H.
  apply bind_run in H as (u & s1 & _ & [= <- _]). done.
Qed.

Lemma deposit_ok g r am r' :
  result_ok g r → charge_code_deposit evmone_state_gas_charge cost_per_byte r am = Some r' → result_ok g r'.
Proof.
  intros [H1 H2 H3 H4] H. unfold charge_code_deposit in H.
  assert (Hn : 0 ≤ len (output r)) by (unfold len; lia).
  pose proof (Z.div_pos (len (output r) + 31) 32 ltac:(lia) ltac:(lia)).
  destruct am; cbn [negb] in H.
  - cbv zeta in H. destruct (Z.ltb_spec (gas_left r - 6 * ((len (output r) + 31) / 32)) 0); [done|].
    destruct (evmone_state_gas_charge _ _ _) as [[g' sg']|] eqn:E; [|done]. simplify_eq.
    pose proof cost_pos. apply charge_gas in E as (? & ? & ? & ?); [|lia|done|done|nia]. split; cbn; lia.
  - destruct (Z.ltb_spec (gas_left r) (len (output r) * 200)); [done|]. simplify_eq. split; cbn; lia.
Qed.

(** The result of a CREATE's tail. *)
Lemma finish_create_returns msg a cp r :
  0 ≤ gas msg → 0 ≤ msg_state_gas msg → result_ok (gas msg) r →
  keeps_mem (finish_create keccak256 evmone_state_gas_charge cost_per_byte msg a cp r) ∧
  ∀ s r' s', finish_create keccak256 evmone_state_gas_charge cost_per_byte msg a cp r s = Ok (r', s') →
    result_ok (gas msg) r'.
Proof.
  intros Hg Hsg Hr. unfold finish_create, max_code_size, is_london_or_later, is_amsterdam_or_later.
  split; [keep_mem|]. intros s r' s' H.
  do 3 (apply bind_run in H as (? & ? & _ & H)).
  assert (N : ∀ st, result_ok (gas msg) (no_output st 0 msg)) by (intros; apply result_no_output; lia).
  destruct (_ <? _); [by apply bind_run in H as (? & ? & _ & [= <- _])|].
  destruct (_ && _); [by apply bind_run in H as (? & ? & _ & [= <- _])|].
  destruct (charge_code_deposit _ _ r _) as [r1|] eqn:E; apply bind_run in H as (? & ? & _ & [= <- _]); [|done].
  destruct (deposit_ok _ _ _ _ Hr E). by split.
Qed.

Lemma code_frame_returns msg addrs cp :
  0 ≤ gas msg → 0 ≤ msg_state_gas msg → recipient msg ∈ addrs → code_address msg ∈ addrs →
  returns (gas msg) (live addrs)
    (code ← code_and_entry (code_address msg); r ← run_frame vm msg code; settle_frame cp r).
Proof.
  intros Hg Hsg Hr Hc. eapply returns_bind; [eapply live_warm_op; [exact Hc|apply code_and_entry_spec]|
    auto with keeps_mem|]. intros c. apply returns_tail; [by apply run_frame_returns|]. intros r. apply settle_tail.
Qed.

Lemma journaled_checkpoint : journaled is_precompile checkpoint.
Proof. intros s a s' _ [= <- <-]. split; [apply ext_marked|done]. Qed.

Lemma create_body_returns msg i addrs :
  0 ≤ gas msg → 0 ≤ msg_state_gas msg → recipient msg ∈ addrs →
  returns (gas msg) (live addrs) (create_body keccak256 evmone_state_gas_charge cost_per_byte vm msg i).
Proof.
  intros Hg Hsg Hin. unfold create_body. cbv zeta.
  eapply returns_bind; [apply live_journaled, journaled_checkpoint|apply km_checkpoint|]. intros cp.
  eapply returns_bind; [apply live_journaled, journaled_init_create|apply km_init_create|]. intros fresh. cbn beta.
  destruct fresh; cbn [negb].
  - eapply returns_bind; [apply live_journaled, journaled_quiet, quiet_created|keep_mem|]. intros ?. cbn beta.
    apply returns_tail; [by apply (run_frame_returns (mkMessage _ _ _ _ (gas msg) _ _ _ _ _ _ _))|].
    intros r Hr. destruct (success r); cbn [negb]; [by apply finish_create_returns|].
    split; [keep_mem|]. intros s r' s' H. by apply bind_run in H as (? & ? & _ & [= <- _]).
  - intros s r s' (_ & _ & Hi) _ H. apply bind_run in H as (u & s1 & H1 & [= <- <-]).
    rewrite (km_rollback _ _ _ _ H1). split; [by apply same_frames_refl|]. apply result_no_output; lia.
Qed.

Lemma call_create_returns msg cp :
  0 ≤ gas msg → 0 ≤ msg_state_gas msg →
  returns (gas msg) (live []) (call_create keccak256 evmone_state_gas_charge cost_per_byte vm msg cp).
Proof.
  intros Hg Hsg s r s' Hl _ H. unfold call_create in H. apply bind_run in H as (i & s1 & H1 & H).
  pose proof (pure_acc _ _ _ _ H1) as ->. apply bind_run in H as (n & s2 & H2 & H).
  pose proof (pure_acc _ _ _ _ H2) as ->. unfold acc in H2.
  destruct (Accounts.nonce_at _ _) as [n'|] eqn:Hn; [|done]. injection H2 as ->.
  destruct (n =? StateDb.UINT64_MAX).
  { injection H as <- <-. destruct Hl as (_ & _ & Hi). split; [by apply same_frames_refl|].
    apply result_no_output; lia. }
  refine (returns_bind _ _ _ _ _ (create_bump_spec is_precompile msg i n) _ _ s r s' Hl _ H);
    [auto with keeps_mem| |done]. intros j. apply create_body_returns; [done|done|set_solver].
Qed.

Lemma call_returns msg :
  0 ≤ gas msg → 0 ≤ msg_state_gas msg → returns (gas msg) (live (child_live msg)) (call msg).
Proof.
  intros Hg Hsg. unfold StateDb.call.
  eapply returns_bind; [apply live_journaled, journaled_when, journaled_fatal|keep_mem|]. intros ?. cbn beta.
  eapply returns_bind; [apply live_journaled, journaled_bal_commit|apply km_commit|]. intros ?. cbn beta.
  eapply returns_bind; [apply live_journaled, pure_journaled, pure_gets|apply km_gets|]. intros rev. cbn beta.
  destruct (negb (delegated msg) && _).
  - eapply returns_bind; [apply live_journaled, pure_journaled, pure_gets|apply km_gets|]. intros on. cbn beta.
    eapply returns_bind; [apply live_journaled, journaled_when, journaled_bal_load|apply km_when, km_bal_load|]. intros ?. cbn beta.
    destruct (kind msg); try (by apply precompile_returns). destruct (negb _); [|by apply precompile_returns].
    eapply returns_bind; [apply live_journaled, journaled_checkpoint|apply km_checkpoint|]. intros pcp. cbn beta.
    eapply returns_bind; [apply live_journaled, journaled_transfer_value|apply km_transfer|]. intros ?. cbn beta.
    apply returns_tail; [by apply precompile_returns|]. intros r. apply settle_tail.
  - eapply returns_bind; [apply live_journaled, journaled_checkpoint|apply km_checkpoint|]. intros cp. cbn beta.
    unfold child_live. destruct (kind msg) eqn:Ek; cbn [is_create];
      try (by apply code_frame_returns; [done|done|set_solver|set_solver]); try (by apply call_create_returns).
    eapply returns_bind; [apply live_journaled, journaled_when, journaled_transfer_value|apply km_when, km_transfer|].
    intros ?. by apply code_frame_returns; [done|done|set_solver|set_solver].
Qed.

(** A host with such a VM is what the interpreter relies on. *)
#[global] Instance call_child : ChildCall is_precompile call.
Proof.
  intros msg s r s' Hg Hsg _ Hl H.
  assert (L : live [] s) by (eapply live_incl; [|exact Hl]; set_solver).
  destruct (call_returns msg Hg Hsg s r s' L Hl H) as [Hf Hr]. split; [|done].
  unfold child_live in Hl. destruct (is_create (kind msg)) eqn:Ek.
  - by eapply (create_atomic is_precompile _ _ _ _ _ vm).
  - by eapply (call_atomic is_precompile _ _ _ _ _ vm).
Qed.

End Vm.
End Host.
End Run.
End EvmRun.
