(* ===== verification/Machine.v ===== *)
(** The machine: the host's [call] with the interpreter as its VM, whose calls are
    the host's.  The nesting of frames is bounded by the depth limit; calls and
    creates are atomic; gas is only spent. *)

From stdpp Require Import base numbers list strings gmap.
From S2P Require Import Prelude Fork Rlp Receipt Contracts Chain CreateAddress Bal Jumpdest EvmMem Accounts Storages Transient Journal StateDb HostProofs Frames U256 Alu Zevm Sample EvmFrame EvmOps EvmRun.

Set Default Goal Selector "!".

Module Machine.
Import Rlp Receipt Fork Journal StateDb HostProofs Frames U256 Zevm EvmFrame EvmRun.

(** ** A frame calls at the next depth only *)

(** Two handlers that agree at depth [d], and stay there. *)
Definition same_at {A} (d : Z) (m m' : H A) : Prop := ∀ f s, depth (evmcMsg f) = d →
  m f s = m' f s ∧ ∀ o f' s', m f s = Ok (o, f', s') → depth (evmcMsg f') = d.

Section SameAt.
Context (d : Z).

Lemma same_bind {A B} (m m' : H A) (k k' : A → H B) :
  same_at d m m' → (∀ a, same_at d (k a) (k' a)) → same_at d (m ≫= k) (m' ≫= k').
Proof.
  intros Hm Hk f s Hd. destruct (Hm f s Hd) as [Em Hs]. unfold mbind, H_bind. rewrite <- Em.
  destruct (m f s) as [[[[a| |e] f1] s1]|e] eqn:E; [apply Hk; eauto| | |done];
    (split; [done|]; intros ??? [= <- <- <-]; eauto).
Qed.
(** What is read from the frame is read at depth [d]. *)
Lemma same_read {A B} (g : EvmState → A) (k k' : A → H B) :
  (∀ f, depth (evmcMsg f) = d → same_at d (k (g f)) (k' (g f))) →
  same_at d (getf g ≫= k) (getf g ≫= k').
Proof. intros Hk f s Hd. apply (Hk f Hd f s Hd). Qed.
Lemma same_ret {A} (a : A) : same_at d (mret a) (mret a).
Proof. intros f s Hd. split; [done|]. by intros ??? [= <- <- <-]. Qed.
Lemma same_getf {A} (g : EvmState → A) : same_at d (getf g) (getf g).
Proof. intros f s Hd. split; [done|]. by intros ??? [= <- <- <-]. Qed.
Lemma same_modf g : (∀ f, evmcMsg (g f) = evmcMsg f) → same_at d (modf g) (modf g).
Proof. intros Hg f s Hd. split; [done|]. intros ??? [= <- <- <-]. by rewrite Hg. Qed.
Lemma same_halt {A} st : same_at d (halt (A := A) st) (halt st).
Proof. intros f s Hd. split; [done|]. by intros ??? [= <- <- <-]. Qed.
Lemma same_undefined {A} e : same_at d (undefined (A := A) e) (undefined e).
Proof. intros f s Hd. split; [done|]. by intros ??? [= <- <- <-]. Qed.
Lemma same_host {A} (m m' : M A) : (∀ s, m s = m' s) → same_at d (host m) (host m').
Proof.
  intros Hm f s Hd. unfold host. rewrite <- Hm. split; [done|]. intros o f' s' H.
  destruct (m s) as [[]|]; by simplify_eq.
Qed.
Lemma same_mem {A} (op : EvmMem.EVMMem → res (A * EvmMem.EVMMem)) : same_at d (mem op) (mem op).
Proof.
  intros f s Hd. split; [done|]. intros o f' s' H. unfold mem in H. destruct (op _) as [[]|]; by simplify_eq.
Qed.
Lemma same_charge_state c : same_at d (charge_state c) (charge_state c).
Proof.
  intros f s Hd. split; [done|]. intros o f' s' H. unfold charge_state, state_gas_charge in H. cbv zeta in H.
  destruct (c <=? _); [by injection H as _ <- _|]. destruct (_ <? _); by injection H as _ <- _.
Qed.

End SameAt.

Create HintDb same_at discriminated.
#[export] Hint Resolve same_ret same_getf same_halt same_undefined same_mem same_charge_state : same_at.

Ltac head_of t := lazymatch t with ?f _ => head_of f | _ => t end.
Ltac same_step :=
  cbv zeta beta;
  lazymatch goal with
  | |- same_at _ (mbind _ _) _ => apply same_bind; [|intros ?]
  | |- same_at _ (modf _) _ => apply same_modf; intros; reflexivity
  | |- same_at _ (host _) _ => apply same_host; reflexivity
  | |- same_at _ (match ?x with _ => _ end) _ => destruct x
  | |- same_at _ (mret _) _ => apply same_ret
  | |- same_at _ (getf _) _ => apply same_getf
  | |- same_at _ (halt _) _ => apply same_halt
  | |- same_at _ (undefined _) _ => apply same_undefined
  | |- same_at _ (mem _) _ => apply same_mem
  | |- same_at _ (charge_state _) _ => apply same_charge_state
  | |- same_at _ ?m _ => let h := head_of m in unfold h
  end.
Ltac same := repeat same_step.

Section Depth.
Context (keccak256 : bytes → Z).
Context (is_precompile : revision → Z → bool).
Context (hc hc' : message → M Result) (d : Z).
Context (agree : d < kMaxCallDepth → ∀ msg s, depth msg = d + 1 → hc msg s = hc' msg s).

Lemma same_window o n : same_at d (window o n) (window o n).
Proof. same. Qed.
Lemma same_finish n v : same_at d (finish n v) (finish n v).
Proof. same. Qed.

Lemma same_call_child k hv sf n a nz ca c :
  same_at d (Zevm.call_child hc k hv sf n a nz ca c) (Zevm.call_child hc' k hv sf n a nz ca c).
Proof.
  unfold Zevm.call_child. do 2 (same_step; [same|]). apply same_read. intros f Hf.
  same_step; [same|]. same_step; [same|]. apply same_read. intros f2 Hf2.
  destruct (Z.leb_spec kMaxCallDepth (depth (evmcMsg f2))); [same|].
  same_step; [|same]. apply same_host. intros s. apply agree; [lia|]. cbn. lia.
Qed.

Lemma same_create_child k na v i :
  d < kMaxCallDepth →
  same_at d (create_child is_precompile hc k na v i) (create_child is_precompile hc' k na v i).
Proof.
  intros Hd. unfold create_child. same_step; [same|]. same_step; [same|]. same_step; [same|].
  apply same_read. intros f Hf. same_step; [|same]. apply same_host. intros s. apply agree; [done|]. cbn. lia.
Qed.

Lemma same_call k hv sf :
  same_at d (call_impl is_precompile hc k hv sf) (call_impl is_precompile hc' k hv sf).
Proof.
  unfold call_impl. do 5 (same_step; [same|]). do 2 (same_step; [same|]). same_step; [same|].
  do 6 (same_step; [same|]). apply same_call_child.
Qed.

Lemma same_create k :
  same_at d (create_impl keccak256 is_precompile hc k) (create_impl keccak256 is_precompile hc' k).
Proof.
  unfold create_impl. do 12 (same_step; [same|]). apply same_read. intros f Hf.
  destruct (Z.leb_spec kMaxCallDepth (depth (evmcMsg f))); [same|].
  same_step; [same|]. same_step; [same|]. same_step; [same|]. same_step; [same|]. same_step; [same|].
  same_step; [apply same_create_child; lia|same].
Qed.

Lemma same_dispatch op :
  same_at d (dispatch keccak256 is_precompile hc op) (dispatch keccak256 is_precompile hc' op).
Proof.
  destruct op; cbn [dispatch];
    unfold OP, op_call, op_callcode, op_delegatecall, op_staticcall, op_create, op_create2;
    lazymatch goal with
    | |- same_at _ (call_impl _ _ _ _ _) _ => apply same_call
    | |- same_at _ (create_impl _ _ _ _) _ => apply same_create
    | |- same_at _ (log_impl _) _ => unfold log_impl; cbn [topics_from]; same
    | |- _ => same
    end.
Qed.

Lemma same_loop fuel f s :
  depth (evmcMsg f) = d →
  dispatch_loop keccak256 is_precompile hc fuel f s = dispatch_loop keccak256 is_precompile hc' fuel f s.
Proof.
  revert f s. induction fuel as [|fuel IH]; [done|]. intros f s Hd. cbn [dispatch_loop].
  assert (Hs : same_at d (step keccak256 is_precompile hc) (step keccak256 is_precompile hc')).
  { unfold step. same_step; [same|]. apply same_dispatch. }
  destruct (Hs f s Hd) as [E Hk]. unfold mbind, M_bind. rewrite <- E.
  destruct (step keccak256 is_precompile hc f s) as [[[[a| |e] f1] s1]|e]; [|done..]. apply IH. eauto.
Qed.

(** A frame of depth [d] depends on its host's calls of depth [d + 1] only. *)
Lemma same_run msg c s :
  depth msg = d → run keccak256 is_precompile hc msg c s = run keccak256 is_precompile hc' msg c s.
Proof.
  intros Hd. unfold run, mbind, M_bind. cbn [active_revision gets]. cbv zeta.
  destruct (EvmMem.createMemory _) as [[dd m]|]; [|done]. by rewrite same_loop by done.
Qed.

End Depth.

(** A host call depends on its VM at the message's depth only. *)
Section Host.
Context (keccak256 : bytes → Z).
Context (is_precompile : revision → Z → bool).
Context (call_precompile : revision → message → Result).
Context (ecrecover_address : Z → Z → Z → Z → option Z).
Context (evmone_state_gas_charge : StateGas → Z → Z → option (Z * StateGas)).

Abbreviation call_with vm := (StateDb.call keccak256 is_precompile call_precompile ecrecover_address
  evmone_state_gas_charge COST_PER_STATE_BYTE vm).
Abbreviation zevm := (Zevm.zevm keccak256 is_precompile call_precompile ecrecover_address evmone_state_gas_charge).
Abbreviation machine_call :=
  (Zevm.machine_call keccak256 is_precompile call_precompile ecrecover_address evmone_state_gas_charge).

Lemma bind_same {A B} (m m' : M A) (k k' : A → M B) s :
  m s = m' s → (∀ a s, k a s = k' a s) → (m ≫= k) s = (m' ≫= k') s.
Proof. intros Hm Hk. unfold mbind, M_bind. rewrite Hm. destruct (m' s) as [[a s1]|]; [apply Hk|done]. Qed.

Lemma same_call_with vm vm' msg s :
  depth msg ≤ 1024 →
  (∀ msg' c s, depth msg' = depth msg → vm msg' c s = vm' msg' c s) → call_with vm msg s = call_with vm' msg s.
Proof.
  intros Hd Hv.
  assert (Hr : ∀ msg' c s, depth msg' = depth msg → run_frame vm msg' c s = run_frame vm' msg' c s).
  { intros msg' c s1 E. apply bind_same; [by apply Hv|done]. }
  unfold StateDb.call. apply bind_same; [done|]. intros _ s1. apply bind_same; [done|]. intros _ s2.
  apply bind_same; [done|]. intros rev s3. destruct (negb _ && _); [done|].
  apply bind_same; [done|]. intros cp s4.
  assert (Hc : ∀ s, (code ← code_and_entry (code_address msg); r ← run_frame vm msg code; settle_frame cp r) s
    = (code ← code_and_entry (code_address msg); r ← run_frame vm' msg code; settle_frame cp r) s).
  { intros s5. apply bind_same; [done|]. intros c s6. apply bind_same; [by apply Hr|done]. }
  assert (Hcr : ∀ s, StateDb.call_create keccak256 evmone_state_gas_charge COST_PER_STATE_BYTE vm msg cp s
    = StateDb.call_create keccak256 evmone_state_gas_charge COST_PER_STATE_BYTE vm' msg cp s).
  { intros s5. unfold StateDb.call_create. apply bind_same; [done|]. intros i s6. apply bind_same; [done|].
    intros n s7. destruct (n =? _); [done|]. apply bind_same; [done|]. intros j s8. unfold StateDb.create_body.
    cbv zeta. apply bind_same; [done|]. intros cp' s9. apply bind_same; [done|]. intros fresh s10.
    destruct (negb fresh); [done|]. apply bind_same; [done|]. intros _ s11. apply bind_same; [by apply Hr|done]. }
  destruct (kind msg); [|apply Hc..|apply Hcr|apply Hcr]. apply bind_same; [done|]. intros _ s5. apply Hc.
Qed.

(** The levels of nesting do not run out. *)
Lemma zevm_levels l l' msg c s :
  1024 - depth msg < Z.of_nat l → 1024 - depth msg < Z.of_nat l' → depth msg ≤ 1024 →
  zevm l msg c s = zevm l' msg c s.
Proof.
  revert l' msg c s. induction l as [|l IH]; intros [|l'] msg c s Hl Hl' Hd; try lia. cbn [Zevm.zevm].
  apply (same_run _ _ _ _ (depth msg)); [|done]. unfold kMaxCallDepth. intros Hlt msg' s' Hm.
  apply same_call_with; [lia|]. intros msg'' c'' s'' E. apply IH; lia.
Qed.

(** ** The machine meets its own contract *)

Section Contract.
Context {HG : HostGas call_precompile evmone_state_gas_charge COST_PER_STATE_BYTE}.

#[local] Instance zevm_vm l : FrameVM is_precompile (zevm l).
Proof.
  induction l as [|l IH]; [by intros msg c s r s' ? ? ? H|]. cbn [Zevm.zevm]. apply run_vm. by apply call_child.
Qed.

(** C2.  The interpreter halts, within bounds.  Take a frame of the machine whose
    gas and state gas are nonnegative, whose recipient is warm in a host state that
    meets its invariants ([live]), and whose memory frame was just entered
    ([ready]).  If the host does not abort the guest, the dispatch loop ends within
    [gas + 1] rounds, whatever the code is: it neither runs out of fuel nor ever
    reads or writes outside the operand stack, the frame's memory, the code or its
    jump bitset, where every such access is an error of its own ([Stuck]).  When it
    halts, the frame's gas is nonnegative and together with the state gas it may be
    credited at most the gas given, at most 1024 operands are on the stack, and the
    memories of the frames below are untouched. *)
Theorem interpreter_halts l msg c r s out s' :
  0 ≤ gas msg → 0 ≤ msg_state_gas msg → live is_precompile [recipient msg] s → EvmMem.ready (evm_mem s) →
  dispatch_loop keccak256 is_precompile (call_with (zevm l)) (S (Z.to_nat (gas msg))) (reset msg c r) s
    = Ok (out, s') →
  ∃ f, out = Done f ∧ 0 ≤ evm_gas f ∧ evm_gas f + state_gas_spilled f ≤ gas msg ∧
    0 ≤ state_gas_spilled f ∧ (length (stack f) ≤ kStackLimit)%nat ∧
    EvmMem.below (evm_mem s') = EvmMem.below (evm_mem s).
Proof.
  intros Hg Hsg Hl Hm H.
  eapply loop_spec in H as (f & -> & [_ _ _ _ Hle _] & Hw & Hb);
    [|apply _|by apply reset_wf|unfold budget; cbn; lia].
  unfold budget in Hb. cbn in Hb.
  exists f. split; [done|]. split; [apply Hw|]. split; [lia|]. split; [apply Hw|].
  split; [apply Hw|]. apply Hle.
Qed.

(** C3.  A message call is a transaction of its own.  Run by the host with the
    interpreter as its VM (and so with every nested call and create it makes), a
    CALL, CALLCODE or DELEGATECALL that does not succeed leaves the journaled state
    (accounts, storage, transient storage, warmth, pending destructions), the
    journal, the logs and the transaction counter as it found them; in every case
    the caller gets back the memory frames it had, byte for byte, and at most the
    gas it passed.  The marks of accounts created in the transaction and of wiped
    storage are outside the journal: the call takes none away, and those that
    creates inside it made survive its failure. *)
Theorem call_is_atomic msg s r s' :
  0 ≤ gas msg → 0 ≤ msg_state_gas msg → is_create (kind msg) = false →
  live is_precompile [recipient msg; code_address msg] s → machine_call msg s = Ok (r, s') →
  (success r = false → restored is_precompile s s') ∧
  same_frames (evm_mem s) (evm_mem s') ∧ result_ok (gas msg) r.
Proof.
  intros Hg Hsg Hk Hl H. unfold Zevm.machine_call in H.
  destruct (call_atomic is_precompile keccak256 call_precompile ecrecover_address evmone_state_gas_charge
    COST_PER_STATE_BYTE (zevm (Z.to_nat (1025 - depth msg))) msg Hg Hsg Hk s r s' Hl H) as [_ Hr].
  split; [exact Hr|]. eapply call_returns; [apply _|apply _|done|done|eapply live_incl; [|exact Hl]; set_solver| |exact H].
  unfold child_live. by rewrite Hk.
Qed.


End Contract.

(** C37.  The depth limit bounds the nesting.  A call at depth at most 1024 never
    nests deeper than the frames of the depths up to 1024: any machine with more
    than [1024 - depth] levels gives the same result, the same state and the same
    failures.  The C++ stack and the 1025 memory handles are bounded by it. *)
Theorem nesting_is_bounded l msg s :
  depth msg ≤ 1024 → 1024 - depth msg < Z.of_nat l → call_with (zevm l) msg s = machine_call msg s.
Proof.
  intros Hd Hl. unfold Zevm.machine_call. apply same_call_with; [done|]. intros msg' c s1 E.
  apply zevm_levels; lia.
Qed.

End Host.

(** ** On the sample world *)

Import Sample.

#[local] Instance sample_gas : HostGas failing_precompile toy_state_gas_charge COST_PER_STATE_BYTE.
Proof.
  split; [|unfold toy_state_gas_charge|done].
  - intros. apply result_no_output; lia.
  - intros sg g c g' sg' ? ? ? ? H. destruct (Z.leb_spec c (sg_left sg)); [simplify_eq/=; lia|].
    cbv zeta in H. destruct (Z.ltb_spec g (c - sg_left sg)); simplify_eq/=. lia.
Qed.

(** The state a transaction's first call starts from. *)
Definition warming : M _ := _ ← access_account no_precompile eoa; access_account no_precompile caller.
Definition warmed : StateDB := match warming (sample_db 6) with Ok (_, s) => s | Fatal _ => sample_db 6 end.

Definition index_checked (a : Accounts.Accounts) : bool :=
  forallb (λ '(x, i), match Accounts.rows a !! i with
                      | Some r => Accounts.view_address (Accounts.record r) =? x
                      | None => false
                      end) (map_to_list (Accounts.index_ a)).
Lemma index_checked_ok a : index_checked a = true → Accounts.index_ok a.
Proof.
  intros H x i Hi. unfold index_checked in H. rewrite forallb_forall in H.
  specialize (H (x, i)). cbn in H. destruct (Accounts.rows a !! i) as [r|].
  - exists r. split; [done|]. apply Z.eqb_eq, H, list_elem_of_In. by apply elem_of_map_to_list.
  - discriminate H. apply list_elem_of_In. by apply elem_of_map_to_list.
Qed.
Lemma sample_ok fork : Accounts.acc_ok (accounts (world (sample_db fork))).
Proof. split; [done|]. apply index_checked_ok. by vm_compute. Qed.

Lemma warmed_live : live no_precompile [caller; caller] warmed.
Proof.
  assert (L0 : live no_precompile [] (sample_db 6)).
  { split_and!; [apply sample_ok|done|apply EvmMem.inv_initial]. }
  unfold warmed. destruct (warming (sample_db 6)) as [[st s]|] eqn:E; [|by vm_compute in E].
  apply bind_run in E as (st1 & s1 & E1 & E2).
  destruct (host_access_account_spec no_precompile eoa _ _ _ I E1) as [X1 _].
  destruct (host_access_account_spec no_precompile caller _ _ _ I E2) as [X2 Hw].
  destruct (live_ext no_precompile [] _ _ (transitivity X1 X2) L0) as (Ha & _ & Hi).
  split; [done|]. split; [|done]. apply Forall_cons; split; [done|]. by apply Forall_cons.
Qed.

(** A run known by its verdict: computed, without showing the states. *)
Definition verdict {A} (p : A → bool) (r : res (A * StateDB)) : bool :=
  match r with Ok (a, _) => p a | Fatal _ => false end.
Lemma verdict_run {A} (p : A → bool) r : verdict p r = true → ∃ a s, r = Ok (a, s) ∧ p a = true.
Proof. destruct r as [[a s]|]; [|done]. intros. by exists a, s. Qed.

(** With gas for the store only, the call runs out of gas and its store is gone. *)
Lemma call_is_atomic_witness :
  ∃ r s', sample_call (sample_msg 25000 10) warmed = Ok (r, s') ∧ success r = false ∧
    restored no_precompile warmed s'.
Proof.
  destruct (verdict_run (λ r, negb (success r)) (sample_call (sample_msg 25000 10) warmed))
    as (r & s' & E & Hf%negb_true_iff); [by vm_compute|]. exists r, s'. split; [exact E|]. split; [exact Hf|].
  eapply (call_is_atomic toy_keccak no_precompile failing_precompile no_recovery toy_state_gas_charge
    (sample_msg 25000 10)); [done|done|done|exact warmed_live|exact E|exact Hf].
Defined.

(** A world with an account to create, and a create whose init code logs, then
    reverts. *)
Definition newcomer : Z := 0xd1.
Definition create_accounts : Accounts.Accounts :=
  default Accounts.accounts0
    (match
      ('(_, a) ← Accounts.append eoa 5 1000 EMPTY_CODE_HASH (Accounts.reserve 2 Accounts.accounts0);
       '(_, a) ← Accounts.append newcomer 0 0 EMPTY_CODE_HASH a;
       Ok a) with Ok a => Some a | Fatal _ => None end).
Definition create_db : StateDB :=
  put_world (put_accounts create_accounts (world (sample_db 6))) (sample_db 6).
Definition reverting_init : bytes :=
  [Byte.x60; Byte.x00; Byte.x60; Byte.x00; Byte.xa0; Byte.x60; Byte.x00; Byte.x60; Byte.x00; Byte.xfd].
Definition reverting_create : message := mkMessage CREATE false false 0 50000 0 newcomer eoa reverting_init 10 0 None.
(** The row of the new address is marked, the endowment is back, the creator's nonce
    is bumped. *)
Definition reads (z : Z) (r : res Z) : bool := match r with Ok x => x =? z | Fatal _ => false end.
Definition marked_after (s : StateDB) : bool :=
  match Accounts.index_of newcomer (accounts (world s)), Accounts.index_of eoa (accounts (world s)) with
  | Ok j, Ok i =>
      bool_decide (j ∈ created_this_tx_idx_ s) && reads 0 (Accounts.balance_at j (accounts (world s))) &&
      reads 1000 (Accounts.balance_at i (accounts (world s))) && reads 6 (Accounts.nonce_at i (accounts (world s)))
  | _, _ => false
  end.

(** The mark does survive a failed create: the init frame runs and reverts, the
    endowment returns to the creator, whose nonce stays bumped, and the new account
    is still marked as created in this transaction. *)
Theorem failed_create_keeps_mark :
  created_this_tx_idx_ create_db = ∅ ∧
  ∃ r s', sample_call reverting_create create_db = Ok (r, s') ∧ r_status r = REVERT ∧ marked_after s' = true.
Proof.
  split; [done|].
  assert (V : match sample_call reverting_create create_db with
              | Ok (r, s') => bool_decide (r_status r = REVERT) && marked_after s'
              | Fatal _ => false
              end = true) by (by vm_compute).
  destruct (sample_call _ _) as [[r s']|]; [|done]. apply andb_true_iff in V as [Hr%bool_decide_eq_true Hm].
  by exists r, s'.
Qed.


(** The caller's frame, entered by hand. *)
Definition framed : StateDB :=
  match EvmMem.createMemory (evm_mem warmed) with Ok (_, m) => put_mem m warmed | Fatal _ => warmed end.
Lemma framed_ready : live no_precompile [caller] framed ∧ EvmMem.ready (evm_mem framed).
Proof.
  pose proof warmed_live as Hl. pose proof Hl as (_ & _ & Hi).
  assert (Hc : EvmMem.s_cur (evm_mem warmed) = -1) by (by vm_compute).
  destruct (EvmMem.createMemory_spec (evm_mem warmed)) as (m & E & Hi' & Hc' & _);
    [done|rewrite Hc; unfold EvmMem.kMaxMemHandles; lia|].
  unfold framed. rewrite E. assert (Hm : EvmMem.ready m) by (split; [done|lia]). split; [|exact Hm].
  eapply live_ext; [by apply ext_put_mem|]. eapply live_incl; [|exact Hl].
  intros x ->%list_elem_of_singleton. by left.
Qed.
Lemma interpreter_halts_witness :
  ∃ f s', dispatch_loop toy_keccak no_precompile
      (StateDb.call toy_keccak no_precompile failing_precompile no_recovery toy_state_gas_charge COST_PER_STATE_BYTE
         (zevm toy_keccak no_precompile failing_precompile no_recovery toy_state_gas_charge 3))
      (S (Z.to_nat 60000)) (reset (sample_msg 60000 10) caller_code EVMC_OSAKA) framed = Ok (Done f, s') ∧
    0 ≤ evm_gas f ≤ 60000.
Proof.
  destruct (verdict_run (λ _, true) (dispatch_loop toy_keccak no_precompile
      (StateDb.call toy_keccak no_precompile failing_precompile no_recovery toy_state_gas_charge COST_PER_STATE_BYTE
         (zevm toy_keccak no_precompile failing_precompile no_recovery toy_state_gas_charge 3))
      (S (Z.to_nat 60000)) (reset (sample_msg 60000 10) caller_code EVMC_OSAKA) framed))
    as (out & s' & E & _); [by vm_compute|].
  destruct framed_ready as [Hl Hm].
  destruct (interpreter_halts toy_keccak no_precompile failing_precompile no_recovery toy_state_gas_charge 3
    (sample_msg 60000 10) caller_code EVMC_OSAKA framed out s') as (f & Ho & ? & Hb & ? & _);
    [done|done|exact Hl|exact Hm|exact E|].
  exists f, s'. rewrite Ho in E. split; [exact E|]. split; [done|]. cbn in Hb. lia.
Defined.

Lemma nesting_is_bounded_witness :
  StateDb.call toy_keccak no_precompile failing_precompile no_recovery toy_state_gas_charge COST_PER_STATE_BYTE
    (zevm toy_keccak no_precompile failing_precompile no_recovery toy_state_gas_charge 5000)
    (sample_msg 100000 10) warmed = sample_call (sample_msg 100000 10) warmed.
Proof.
  apply (nesting_is_bounded toy_keccak no_precompile failing_precompile no_recovery toy_state_gas_charge 5000);
    cbn [depth sample_msg]; lia.
Defined.

End Machine.
