(* ===== verification/StateRoot.v ===== *)
(** src/state_root.cpp: the world-state root.  One walk over the witness stream
    builds the account and storage tables and an explicit node array and
    computes the block-start root; a second walk over the node array, against
    the current values, computes the post-block root and rehashes only what
    changed.  This file is the program; its node encodings, its walks and its
    soundness are the subject of the files that follow.

    The node arrays are lists indexed by [Child]; a pointer to a cached result is
    the result it points to.  [garbage n] stands for [n] uninitialised bytes. *)

From stdpp Require Import base numbers list strings gmap.
From S2P Require Import Prelude Rlp Writer Contracts TriePath Accounts Storages.

Set Default Goal Selector "!".

Module StateRoot.
Import Rlp Writer Stream TriePath Node.

Section StateRoot.
Context (keccak256 : bytes → Z) (garbage : nat → bytes).

(** ** Enumerations *)

Inductive ValueSet := Original | Current.
Inductive TreeKind := State | Storage.
Inductive Op := OpEmpty | OpHash | OpExtensionHash | OpLeaf | OpBranch | OpPhantomLeaf.
Definition op_of (v : Z) : option Op :=
  match v with
  | 0 => Some OpEmpty | 1 => Some OpHash | 2 => Some OpExtensionHash
  | 3 => Some OpLeaf | 4 => Some OpBranch | 5 => Some OpPhantomLeaf
  | _ => None
  end.

(** ** The node array *)

Record BranchNode := mkBranch { children : list Child; b_cached : NodeR; tags : Z }.
Record ChainNode := mkChain { ch_child : Child; prefix : PackedPath; ch_cached : NodeR }.

(** What both walks share: the tables, the arrays, the start of the section. *)
Record Nodes := mkNodes {
  accounts : Accounts.Accounts;
  storages : Storages.Storages;
  branch_nodes : list BranchNode;
  aux : list NodeR;
  chains : list ChainNode;
  stream : bytes }.

Definition set_accounts (a : Accounts.Accounts) (n : Nodes) : Nodes :=
  mkNodes a (storages n) (branch_nodes n) (aux n) (chains n) (stream n).
Definition set_storages (s : Storages.Storages) (n : Nodes) : Nodes :=
  mkNodes (accounts n) s (branch_nodes n) (aux n) (chains n) (stream n).
Definition set_branch_nodes (l : list BranchNode) (n : Nodes) : Nodes :=
  mkNodes (accounts n) (storages n) l (aux n) (chains n) (stream n).
Definition set_aux (l : list NodeR) (n : Nodes) : Nodes :=
  mkNodes (accounts n) (storages n) (branch_nodes n) l (chains n) (stream n).
Definition set_chains (l : list ChainNode) (n : Nodes) : Nodes :=
  mkNodes (accounts n) (storages n) (branch_nodes n) (aux n) l (stream n).

Record BuildCtx := mkCtx {
  nodes : Nodes;
  phantom_values : list bytes;
  next_state_idx : nat;
  next_storage_idx : nat;
  node_limit : Z;
  aux_n : Z;
  branch_n : Z;
  chain_n : Z;
  pool_n : Z }.

Definition set_nodes (n : Nodes) (x : BuildCtx) : BuildCtx :=
  mkCtx n (phantom_values x) (next_state_idx x) (next_storage_idx x) (node_limit x)
    (aux_n x) (branch_n x) (chain_n x) (pool_n x).
Definition set_pool_n (p : Z) (x : BuildCtx) : BuildCtx :=
  mkCtx (nodes x) (phantom_values x) (next_state_idx x) (next_storage_idx x) (node_limit x)
    (aux_n x) (branch_n x) (chain_n x) p.

(** ** Reading nibbles *)

Definition read_nibbles (c : cursor) : res (PackedPath * cursor) :=
  '(n, c) ← read_u64_le c;
  _ ← fatal_if (kMaxNibbles <? n) "state_root: nibble run longer than a 64-nibble key";
  _ ← require_bytes ((n + 1) / 2) c;
  out ← assign (path_new (garbage 34)) c 0 n;
  c ← advance_checked (((n + 1) / 2 + 7) / 8 * 8) c;
  Ok (out, c).

(** A fixed-width field: [require_bytes], copy, advance past it and its padding. *)
Definition read_field (n pad : nat) (c : cursor) : res (bytes * cursor) :=
  _ ← require_bytes (Z.of_nat (n + pad)) c;
  Ok (take n c, drop (n + pad) c).

(** ** Node encodings *)

Definition kRlpGap : Z := 48.
Definition kMaxLeafValue : Z := 128.
Definition kRlpBuf : Z := kRlpGap + 2 + kMaxLeafValue + 32.

Definition prepend_bytes (buf : bytes) (start : Z) (src : bytes) : res (bytes * Z) :=
  buf ← mem_write buf (start - len src) src;
  Ok (buf, start - len src).

(** The hex-prefix item, staged in [hp_item[36]]. *)
Definition prepend_hp (buf : bytes) (start : Z) (path : PackedPath) (leaf : bool) : res (bytes * Z) :=
  hp ← hex_prefix path leaf;
  '(hp_item, hp_len) ← write_string (garbage 36) 0 hp;
  src ← mem_read hp_item 0 hp_len;
  prepend_bytes buf start src.

Definition pick {A B} (which : ValueSet) (orig cur : A → B) (x : A) : B :=
  match which with Original => orig x | Current => cur x end.

Definition build_account_leaf_rlp_s (buf : bytes) (path : PackedPath) (a : Accounts.Accounts)
    (account_idx : nat) (storage_root : Z) (which : ValueSet) : res bytes :=
  nonce ← pick which (Accounts.nonce_orig_at account_idx) (Accounts.nonce_at account_idx) a;
  balance ← pick which (Accounts.balance_orig_at account_idx) (Accounts.balance_at account_idx) a;
  code_hash ← pick which (Accounts.code_hash_orig_at account_idx) (Accounts.code_hash_at account_idx) a;
  '(buf, end_) ←
    seq (advance (λ b p, write_u64 b p nonce))
      (seq (advance (λ b p, write_u256 b p balance))
        (seq (advance (λ b p, write_string b p (be_bytes 32 storage_root)))
          (advance (λ b p, write_string b p (be_bytes 32 code_hash))))) (buf, kRlpGap);
  '(buf, start) ← prepend_list buf kRlpGap end_;
  '(buf, start) ← prepend_string buf start end_;
  '(buf, start) ← prepend_hp buf start path true;
  '(buf, start) ← prepend_list buf start end_;
  Ok (slice buf start end_).

Definition build_storage_leaf_rlp_s (buf : bytes) (path : PackedPath) (s : Storages.Storages)
    (storage_idx : nat) (which : ValueSet) : res bytes :=
  raw ← pick which (Storages.value_orig_at storage_idx) (Storages.value_at storage_idx) s;
  '(buf, end_) ← advance (λ b p, write_u256 b p raw) (buf, kRlpGap);
  '(buf, start) ← prepend_string buf kRlpGap end_;
  '(buf, start) ← prepend_hp buf start path true;
  '(buf, start) ← prepend_list buf start end_;
  Ok (slice buf start end_).

Definition build_extension_rlp_s (buf : bytes) (ext : PackedPath) (child_hash : Z) : res bytes :=
  '(buf, end_) ← advance (λ b p, write_string b p (be_bytes 32 child_hash)) (buf, kRlpGap);
  '(buf, start) ← prepend_hp buf kRlpGap ext false;
  '(buf, start) ← prepend_list buf start end_;
  Ok (slice buf start end_).

Definition build_phantom_leaf_rlp_s (buf : bytes) (path : PackedPath) (value_rlp : bytes) : res bytes :=
  '(buf, end_) ← advance (λ b p, write_string b p value_rlp) (buf, kRlpGap);
  '(buf, start) ← prepend_hp buf kRlpGap path true;
  '(buf, start) ← prepend_list buf start end_;
  Ok (slice buf start end_).

Definition rlp_buf : bytes := garbage (Z.to_nat kRlpBuf).

Definition pack_account_leaf (path : PackedPath) (a : Accounts.Accounts) (account_idx : nat)
    (storage_root : Z) (which : ValueSet) : res Z :=
  rlp ← build_account_leaf_rlp_s rlp_buf path a account_idx storage_root which;
  Ok (keccak256 rlp).
Definition pack_storage_leaf (path : PackedPath) (s : Storages.Storages) (storage_idx : nat)
    (which : ValueSet) : res Z :=
  rlp ← build_storage_leaf_rlp_s rlp_buf path s storage_idx which;
  Ok (keccak256 rlp).
Definition pack_extension (ext : PackedPath) (child_hash : Z) : res Z :=
  rlp ← build_extension_rlp_s rlp_buf ext child_hash; Ok (keccak256 rlp).
Definition pack_phantom_leaf (path : PackedPath) (value_rlp : bytes) : res Z :=
  rlp ← build_phantom_leaf_rlp_s rlp_buf path value_rlp; Ok (keccak256 rlp).

(** ** Branch slots *)

Definition kSlotMax : Z := 33.
Definition kRlpHash32Header : byte := Byte.xa0.

Definition emit_hash_slot (h : Z) : writer := seq (put [kRlpHash32Header]) (put (be_bytes 32 h)).

Definition emit_capped_slot (node_rlp : bytes) : writer :=
  if 32 <=? len node_rlp then emit_hash_slot (keccak256 node_rlp) else put node_rlp.

Definition emit_child_slot (r : NodeR) (a : Accounts.Accounts) (s : Storages.Storages)
    (which : ValueSet) : writer :=
  match r with
  | EmptyR => put [Byte.x80]
  | HashR h => emit_hash_slot h
  | PhantomLeafR p v => λ st,
      node_rlp ← build_phantom_leaf_rlp_s rlp_buf p v; emit_capped_slot node_rlp st
  | ExtR p h => λ st,
      node_rlp ← build_extension_rlp_s rlp_buf p h; emit_capped_slot node_rlp st
  | AccountLeafR p i sr => λ st,
      node_rlp ← build_account_leaf_rlp_s rlp_buf p a i sr which; emit_capped_slot node_rlp st
  | StorageLeafR p i => λ st,
      node_rlp ← build_storage_leaf_rlp_s rlp_buf p s i which; emit_capped_slot node_rlp st
  end.

(** ** Results of children *)

Definition result_ptr (c : Child) (n : Nodes) : res NodeR :=
  let idx := Z.to_nat (child_idx c) in
  match child_type c with
  | NT_Empty => Ok EmptyR
  | NT_Branch => b ← vec_get (branch_nodes n) idx; Ok (b_cached b)
  | NT_Chain => ch ← vec_get (chains n) idx; Ok (ch_cached ch)
  | NT_Account => Accounts.cached_at idx (accounts n)
  | NT_Storage => Storages.cached_at idx (storages n)
  | NT_Hash | NT_ExtensionHash | NT_PhantomLeaf => vec_get (aux n) idx
  | NT_PoolHash => Fatal "state_root: invalid node type"
  end.

(** The 32 bytes at word [idx] of the section. *)
Definition pool_hash (stream : bytes) (idx : Z) : res bytes := mem_read stream (idx * 8) 32.

(** ** Branches *)

Definition kHdrGap : Z := 3.
Definition kBranchBuf : Z := kHdrGap + 16 * kSlotMax + 1.

Definition emit_child (n : Nodes) (which : ValueSet) (c : Child) : writer := λ st,
  match child_type c with
  | NT_Empty => put [Byte.x80] st
  | NT_PoolHash =>
      h ← pool_hash (stream n) (child_idx c);
      seq (put [kRlpHash32Header]) (put h) st
  | _ => r ← result_ptr c n; emit_child_slot r (accounts n) (storages n) which st
  end.

Definition branch_header (payload : Z) : bytes :=
  if payload <=? 55 then [z2b (0xc0 + payload)]
  else if payload <=? 0xff then [Byte.xf8; z2b payload]
  else [Byte.xf9; z2b (Z.shiftr payload 8); z2b payload].

Definition pack_branch (children : list Child) (n : Nodes) (which : ValueSet) : res Z :=
  '(buf, e) ← seq (for_each (emit_child n which) children) (put [Byte.x80])
                (garbage (Z.to_nat kBranchBuf), kHdrGap);
  let hdr := branch_header (e - kHdrGap) in
  let start := kHdrGap - len hdr in
  buf ← mem_write buf start hdr;
  Ok (keccak256 (slice buf start e)).

Definition finalize (r : NodeR) (a : Accounts.Accounts) (s : Storages.Storages) (which : ValueSet) : res Z :=
  match r with
  | EmptyR => Ok kEmptyTrieRoot
  | HashR h => Ok h
  | ExtR p h => pack_extension p h
  | AccountLeafR p i sr => pack_account_leaf p a i sr which
  | StorageLeafR p i => pack_storage_leaf p s i which
  | PhantomLeafR p v => pack_phantom_leaf p v
  end.

Definition is_empty_r (r : NodeR) : bool := match r with EmptyR => true | _ => false end.

(** The loop that counts the nonempty children and remembers the last one. *)
Fixpoint count_children (n : Nodes) (k : nat) (cs : list Child) (count : nat) (single : option nat)
    : res (nat * option nat) :=
  match cs with
  | [] => Ok (count, single)
  | c :: cs =>
      nonempty ← match child_type c with
                 | NT_PoolHash => Ok true
                 | NT_Empty => Ok false
                 | _ => r ← result_ptr c n; Ok (negb (is_empty_r r))
                 end;
      if (nonempty : bool) then count_children n (S k) cs (S count) (Some k)
      else count_children n (S k) cs count single
  end.

Definition typed_nonempty (c : Child) : bool := match child_type c with NT_Empty => false | _ => true end.

(** [check_orphan]. *)
Definition check_orphan (children : list Child) (which : ValueSet) : res unit :=
  match which with
  | Original => Ok tt
  | Current =>
      fatal_if (2 <=? length (List.filter typed_nonempty children))%nat
        "state_root: unresolved orphan sibling after branch collapse"
  end.

(** [PackedPath one; one.prepend(nibble)]. *)
Definition one_nibble (nibble : Z) : res PackedPath := path_prepend nibble (path_new (garbage 34)).

Definition reduce_branch (bn : BranchNode) (n : Nodes) (which : ValueSet) : res NodeR :=
  if 2 <=? popcount64 (Z.land (tags bn) 0x55555555) then
    h ← pack_branch (children bn) n which; Ok (HashR h)
  else
  '(count, single) ← count_children n 0 (children bn) 0 None;
  match count, single with
  | O, _ => Ok EmptyR
  | 1%nat, Some k =>
      let nibble := Z.of_nat k in
      oc ← vec_get (children bn) k;
      match child_type oc with
      | NT_PoolHash =>
          _ ← check_orphan (children bn) which;
          h ← pool_hash (stream n) (child_idx oc);
          one ← one_nibble nibble;
          Ok (ExtR one (be_val h))
      | _ =>
          only ← result_ptr oc n;
          match only with
          | AccountLeafR p i sr => p ← path_prepend nibble p; Ok (AccountLeafR p i sr)
          | StorageLeafR p i => p ← path_prepend nibble p; Ok (StorageLeafR p i)
          | PhantomLeafR p v => p ← path_prepend nibble p; Ok (PhantomLeafR p v)
          | HashR h =>
              _ ← match child_type oc with NT_Hash => check_orphan (children bn) which | _ => Ok tt end;
              one ← one_nibble nibble;
              Ok (ExtR one h)
          | ExtR p h => p ← path_prepend nibble p; Ok (ExtR p h)
          | EmptyR => h ← pack_branch (children bn) n which; Ok (HashR h)
          end
      end
  | _, _ => h ← pack_branch (children bn) n which; Ok (HashR h)
  end.

(** ** Chains *)

Definition fold_nibble (nibble : Z) (r : NodeR) : res NodeR :=
  match r with
  | HashR h => one ← one_nibble nibble; Ok (ExtR one h)
  | EmptyR => Ok EmptyR
  | ExtR p h => p ← path_prepend nibble p; Ok (ExtR p h)
  | AccountLeafR p i sr => p ← path_prepend nibble p; Ok (AccountLeafR p i sr)
  | StorageLeafR p i => p ← path_prepend nibble p; Ok (StorageLeafR p i)
  | PhantomLeafR p v => p ← path_prepend nibble p; Ok (PhantomLeafR p v)
  end.

(** [for (i = prefix.size(); i-- > 0;) r = fold_nibble(prefix.at(i), r)]. *)
Fixpoint fold_prefix (i : nat) (p : PackedPath) (r : NodeR) : res NodeR :=
  match i with
  | O => Ok r
  | S i => r ← fold_nibble (at_ p (Z.of_nat i)) r; fold_prefix i p r
  end.

Definition chain_result (ch : ChainNode) (n : Nodes) : res NodeR :=
  r ← match child_type (ch_child ch) with
      | NT_PoolHash => h ← pool_hash (stream n) (child_idx (ch_child ch)); Ok (HashR (be_val h))
      | _ => result_ptr (ch_child ch) n
      end;
  fold_prefix (Z.to_nat (plen (prefix ch))) (prefix ch) r.

(** ** The build walk *)

Definition overflow : string := "state_root: more nodes than declared (numberOfNodes overflow)".
Definition total_n (x : BuildCtx) : Z := branch_n x + aux_n x + chain_n x + pool_n x.

Definition aux_emplace (r : NodeR) (x : BuildCtx) : res (Z * BuildCtx) :=
  _ ← fatal_if (node_limit x <=? total_n x) overflow;
  Ok (u32 (aux_n x),
      mkCtx (set_aux (aux (nodes x) ++ [r]) (nodes x)) (phantom_values x) (next_state_idx x)
        (next_storage_idx x) (node_limit x) (aux_n x + 1) (branch_n x) (chain_n x) (pool_n x)).

Definition build_chain (only : Child) (nibble : Z) (x : BuildCtx) : res (Child * BuildCtx) :=
  let n := nodes x in
  match child_type only with
  | NT_Chain =>
      let i := Z.to_nat (child_idx only) in
      ch ← vec_get (chains n) i;
      p ← path_prepend nibble (prefix ch);
      r ← fold_nibble nibble (ch_cached ch);
      l ← vec_set (chains n) i (mkChain (ch_child ch) p r);
      Ok (only, set_nodes (set_chains l n) x)
  | _ =>
      p ← path_prepend nibble (path_new (garbage 34));
      r ← chain_result (mkChain only p EmptyR) n;
      Ok (mkChild NT_Chain (u32 (chain_n x)),
          mkCtx (set_chains (chains n ++ [mkChain only p r]) n) (phantom_values x) (next_state_idx x)
            (next_storage_idx x) (node_limit x) (aux_n x) (branch_n x) (chain_n x + 1) (pool_n x))
  end.

(** The offset of a cursor in the section, in words. *)
Definition word_of (n : Nodes) (c : cursor) : Z := Z.shiftr (len (stream n) - len c) 3.

Definition check_room (c : cursor) (hashes : Z) : res unit :=
  fatal_if (stream_remaining c <? 32 * hashes) "stream: advance past end of input".

(** [__builtin_ctzll(m)]: the lowest set bit. *)
Fixpoint ctz_from (fuel : nat) (bit m : Z) : Z :=
  match fuel with
  | O => bit
  | S fuel => if Z.testbit m bit then bit else ctz_from fuel (bit + 1) m
  end.
Definition ctz64 (m : Z) : Z := ctz_from 64 0 m.

Abbreviation builder := (cursor → BuildCtx → TreeKind → WalkPath → option Z → res (Child * cursor * BuildCtx)).

(** The loop over the set tag bits; a round clears one of at most 64. *)
Fixpoint build_children (build_node : builder) (rounds : nat) (lo m : Z) (kids : list Child)
    (cur : cursor) (x : BuildCtx) (kind : TreeKind) (walked : WalkPath) (owning : option Z)
    : res (list Child * cursor * BuildCtx) :=
  match rounds with
  | O => Ok (kids, cur, x)
  | S rounds =>
      if m =? 0 then Ok (kids, cur, x) else
      let bit := ctz64 m in
      let k := Z.shiftr bit 1 in
      let m' := Z.land m (m - 1) in
      if Z.testbit lo bit then
        _ ← fatal_if (node_limit x <=? total_n x) overflow;
        let word := word_of (nodes x) cur in
        kids ← vec_set kids (Z.to_nat k) (mkChild NT_PoolHash (u32 word));
        build_children build_node rounds lo m' kids (drop 32 cur) (set_pool_n (pool_n x + 1) x) kind walked owning
      else
        '(c, cur, x) ← build_node cur x kind (walk_push k walked) owning;
        kids ← vec_set kids (Z.to_nat k) c;
        _ ← check_room cur (popcount64 (Z.land lo m));
        build_children build_node rounds lo m' kids cur x kind walked owning
  end.

Definition mask55 : Z := 0x55555555.

Definition build_branch_node (build_node : builder) (c : cursor) (x : BuildCtx) (kind : TreeKind)
    (walked : WalkPath) (owning : option Z) : res (Child * cursor * BuildCtx) :=
  _ ← fatal_if (walk_max <=? Z.of_nat (length walked)) "state_root: trie path deeper than 64 nibbles";
  '(tags, c) ← read_u64_le c;
  let lo := Z.land tags mask55 in
  let hi := Z.land (Z.shiftr tags 1) mask55 in
  _ ← fatal_if (negb (Z.land lo hi =? 0)) "state_root: invalid branch child tag";
  _ ← check_room c (popcount64 lo);
  '(kids, c, x) ← build_children build_node 64 lo (Z.lor lo hi) (replicate 16 child0) c x kind walked owning;
  _ ← fatal_if (node_limit x <=? total_n x) overflow;
  if popcount64 (Z.lor lo hi) =? 1 then
    let k := Z.shiftr (ctz64 (Z.lor lo hi)) 1 in
    only ← vec_get kids (Z.to_nat k);
    '(ch, x) ← build_chain only k x;
    Ok (ch, c, x)
  else
    cached ← reduce_branch (mkBranch kids EmptyR tags) (nodes x) Original;
    let n := nodes x in
    Ok (mkChild NT_Branch (u32 (branch_n x)), c,
        mkCtx (set_branch_nodes (branch_nodes n ++ [mkBranch kids cached tags]) n) (phantom_values x)
          (next_state_idx x) (next_storage_idx x) (node_limit x) (aux_n x) (branch_n x + 1) (chain_n x)
          (pool_n x)).

Definition build_phantom_leaf_node (c : cursor) (x : BuildCtx) : res (Child * cursor * BuildCtx) :=
  '(path, c) ← read_nibbles c;
  '(value_len, c) ← read_u64_le c;
  _ ← fatal_if (kMaxLeafValue <? value_len) "state_root: phantom leaf value exceeds the trie-leaf bound";
  _ ← fatal_if (stream_remaining c <? value_len) "state_root: phantom leaf value past end of input";
  let value := take (Z.to_nat value_len) c in
  let x := mkCtx (nodes x) (phantom_values x ++ [value]) (next_state_idx x) (next_storage_idx x)
             (node_limit x) (aux_n x) (branch_n x) (chain_n x) (pool_n x) in
  c ← advance_checked value_len c;
  c ← align_to_u64 value_len c;
  '(i, x) ← aux_emplace (PhantomLeafR path value) x;
  Ok (mkChild NT_PhantomLeaf i, c, x).

Definition build_account_leaf (build_node : builder) (c : cursor) (x : BuildCtx) (walked : WalkPath)
    (suffix : PackedPath) : res (Child * cursor * BuildCtx) :=
  '(addr, c) ← read_field 20 4 c;
  '(balance, c) ← read_field 32 0 c;
  '(nonce, c) ← read_u64_le c;
  '(code_hash, c) ← read_field 32 0 c;
  '(next_sorted, c) ← read_u64_le c;
  '(first_sorted_storage, c) ← read_u64_le c;
  addr_hash ← pack_key_hash walked suffix;
  _ ← fatal_if (negb (keccak256 addr =? be_val addr_hash)) "state_root: keccak(address) != leaf path hash";
  let idx := next_state_idx x in
  '(a, accts) ← Accounts.append (be_val addr) nonce (be_val balance) (be_val code_hash) (accounts (nodes x));
  _ ← fatal_if (negb (a =? idx)%nat) "state_root: account append index desync";
  accts ← Accounts.set_sorted_links idx next_sorted first_sorted_storage accts;
  let x := mkCtx (set_accounts accts (nodes x)) (phantom_values x) (S idx) (next_storage_idx x)
             (node_limit x) (aux_n x) (branch_n x) (chain_n x) (pool_n x) in
  '(storage_child, c, x) ← build_node c x Storage [] (Some (be_val addr));
  sres ← result_ptr storage_child (nodes x);
  storage_root ← finalize sres (accounts (nodes x)) (storages (nodes x)) Original;
  nib ← path_from_key (garbage 34) addr_hash (Z.of_nat (length walked));
  '(_, accts) ← Accounts.build_value idx nib (be_val addr_hash) storage_child storage_root (accounts (nodes x));
  Ok (mkChild NT_Account (u32 (Z.of_nat idx)), c, set_nodes (set_accounts accts (nodes x)) x).

Definition build_storage_leaf (c : cursor) (x : BuildCtx) (walked : WalkPath) (suffix : PackedPath)
    (owning : option Z) : res (Child * cursor * BuildCtx) :=
  match owning with
  | None => Fatal "state_root: storage leaf outside any account"
  | Some owning_address =>
      '(position, c) ← read_field 32 0 c;
      '(value, c) ← read_field 32 0 c;
      '(next_sorted, c) ← read_u64_le c;
      pos_hash ← pack_key_hash walked suffix;
      _ ← fatal_if (negb (keccak256 position =? be_val pos_hash)) "state_root: keccak(position) != leaf path hash";
      let idx := next_storage_idx x in
      '(a, stor) ← Storages.append owning_address (be_val position) (be_val value) (storages (nodes x));
      _ ← fatal_if (negb (a =? idx)%nat) "state_root: storage append index desync";
      stor ← Storages.set_next_sorted idx next_sorted stor;
      nib ← path_from_key (garbage 34) pos_hash (Z.of_nat (length walked));
      '(_, stor) ← Storages.build_value idx nib (be_val pos_hash) stor;
      Ok (mkChild NT_Storage (u32 (Z.of_nat idx)), c,
          mkCtx (set_storages stor (nodes x)) (phantom_values x) (next_state_idx x) (S idx)
            (node_limit x) (aux_n x) (branch_n x) (chain_n x) (pool_n x))
  end.

Definition build_leaf_node (build_node : builder) (c : cursor) (x : BuildCtx) (kind : TreeKind)
    (walked : WalkPath) (owning : option Z) : res (Child * cursor * BuildCtx) :=
  '(suffix, c) ← read_nibbles c;
  match kind with
  | State => build_account_leaf build_node c x walked suffix
  | Storage => build_storage_leaf c x walked suffix owning
  end.

(** Branch nesting stops at 64 nibbles in the state trie and again in the storage
    trie of an account leaf, which bounds the nesting of the calls. *)
Definition out_of_fuel : string := "state_root: nested deeper than two tries".
Fixpoint build_node (fuel : nat) (c : cursor) (x : BuildCtx) (kind : TreeKind) (walked : WalkPath)
    (owning : option Z) : res (Child * cursor * BuildCtx) :=
  match fuel with
  | O => Fatal out_of_fuel
  | S fuel =>
      '(v, c) ← read_u64_le c;
      match op_of v with
      | Some OpEmpty => Ok (child0, c, x)
      | Some OpHash =>
          '(h, c) ← read_field 32 0 c;
          '(i, x) ← aux_emplace (HashR (be_val h)) x;
          Ok (mkChild NT_Hash i, c, x)
      | Some OpExtensionHash =>
          '(ext, c) ← read_nibbles c;
          '(h, c) ← read_field 32 0 c;
          '(i, x) ← aux_emplace (ExtR ext (be_val h)) x;
          Ok (mkChild NT_ExtensionHash i, c, x)
      | Some OpPhantomLeaf => build_phantom_leaf_node c x
      | Some OpLeaf => build_leaf_node (build_node fuel) c x kind walked owning
      | Some OpBranch => build_branch_node (build_node fuel) c x kind walked owning
      | None => Fatal "state_root: invalid opcode in stream"
      end
  end.

(** ** The evaluation walk *)

(** Children whose result cannot change. *)
Definition fixed_type (t : NodeType) : bool :=
  match t with
  | NT_Empty | NT_Hash | NT_ExtensionHash | NT_PhantomLeaf | NT_PoolHash => true
  | _ => false
  end.

(** The loop over the Node-tagged children of a branch. *)
Fixpoint eval_children (eval_node : Child → Nodes → res (NodeR * bool * Nodes)) (rounds : nat) (m : Z)
    (kids : list Child) (all_ro : bool) (n : Nodes) : res (bool * Nodes) :=
  match rounds with
  | O => Ok (all_ro, n)
  | S rounds =>
      if m =? 0 then Ok (all_ro, n) else
      let m' := Z.land m (m - 1) in
      child ← vec_get kids (Z.to_nat (Z.shiftr (ctz64 m) 1));
      if fixed_type (child_type child) then eval_children eval_node rounds m' kids all_ro n
      else
        '(_, ro, n) ← eval_node child n;
        eval_children eval_node rounds m' kids ((ro : bool) && all_ro) n
  end.

Fixpoint eval_node (fuel : nat) (c : Child) (n : Nodes) (depth : Z) : res (NodeR * bool * Nodes) :=
  match fuel with
  | O => Fatal out_of_fuel
  | S fuel =>
      let idx := Z.to_nat (child_idx c) in
      match child_type c with
      | NT_Empty => Ok (EmptyR, true, n)
      | NT_Hash | NT_ExtensionHash | NT_PhantomLeaf => r ← vec_get (aux n) idx; Ok (r, true, n)
      | NT_PoolHash => Fatal "state_root: invalid node type"
      | NT_Account =>
          sc ← Accounts.storage_root_child_at idx (accounts n);
          '(sres, storage_ro, n) ← eval_node fuel sc n 0;
          storage_root ← finalize sres (accounts n) (storages n) Current;
          ah ← Accounts.addr_hash_at idx (accounts n);
          nib ← path_from_key (garbage 34) (be_bytes 32 ah) depth;
          '(r, a) ← Accounts.update_value idx nib storage_root (accounts n);
          same ← Accounts.fields_unchanged_at idx a;
          Ok (r, same && storage_ro, set_accounts a n)
      | NT_Storage =>
          ph ← Storages.pos_hash_at idx (storages n);
          nib ← path_from_key (garbage 34) (be_bytes 32 ph) depth;
          '(r, s) ← Storages.update_value idx nib (storages n);
          same ← Storages.value_unchanged_at idx s;
          Ok (r, same, set_storages s n)
      | NT_Chain =>
          ch ← vec_get (chains n) idx;
          if fixed_type (child_type (ch_child ch)) then Ok (ch_cached ch, true, n)
          else
            '(_, ro, n) ← eval_node fuel (ch_child ch) n (depth + plen (prefix ch));
            if (ro : bool) then Ok (ch_cached ch, true, n)
            else
              r ← chain_result ch n;
              l ← vec_set (chains n) idx (mkChain (ch_child ch) (prefix ch) r);
              Ok (r, false, set_chains l n)
      | NT_Branch =>
          bn ← vec_get (branch_nodes n) idx;
          '(all_ro, n) ← eval_children (λ c n, eval_node fuel c n (depth + 1)) 64
                           (Z.land (Z.shiftr (tags bn) 1) mask55) (children bn) true n;
          if (all_ro : bool) then Ok (b_cached bn, true, n)
          else
            r ← reduce_branch bn n Current;
            l ← vec_set (branch_nodes n) idx (mkBranch (children bn) r (tags bn));
            Ok (r, false, set_branch_nodes l n)
      end
  end.

(** ** The object *)

Record StateRoot := mkRoot {
  node_limit_ : Z;
  old_root_ : Z;
  arrays : list BranchNode * list NodeR * list ChainNode;
  phantom_values_ : list bytes;
  stream_ : bytes;
  root_ : Child }.

(** Two tries of at most 64 branches over a leaf, and the call that stops. *)
Definition levels : nat := 131.

Definition state_root (c : cursor) (a : Accounts.Accounts) (s : Storages.Storages)
    : res (StateRoot * cursor * Accounts.Accounts * Storages.Storages) :=
  '(num_nodes, c) ← read_u64_le c;
  '(num_accounts, c) ← read_u64_le c;
  '(num_storages, c) ← read_u64_le c;
  '(first_sorted, c) ← read_u64_le c;
  let a := Accounts.set_first_sorted first_sorted (Accounts.reserve num_accounts a) in
  let s := Storages.reserve num_storages s in
  _ ← fatal_if (2 ^ 32 - 1 <? num_nodes) "state_root: numberOfNodes beyond 32-bit node indices";
  _ ← fatal_if (2 ^ 32 - 1 <? stream_remaining c / 8) "state_root: witness beyond 32-bit stream offsets";
  '(root, c', x) ← build_node levels c (mkCtx (mkNodes a s [] [] [] c) [] 0 0 num_nodes 0 0 0 0) State [] None;
  let n := nodes x in
  r ← result_ptr root n;
  old_root ← finalize r (accounts n) (storages n) Original;
  Ok (mkRoot num_nodes old_root (branch_nodes n, aux n, chains n) (phantom_values x) c root,
      c', accounts n, storages n).

Definition calculate_new_state_root (sr : StateRoot) (a : Accounts.Accounts) (s : Storages.Storages)
    : res (Z * StateRoot * Accounts.Accounts * Storages.Storages) :=
  let '(bs, ax, chs) := arrays sr in
  '(root_res, _, n) ← eval_node levels (root_ sr) (mkNodes a s bs ax chs (stream_ sr)) 0;
  r ← finalize root_res (accounts n) (storages n) Current;
  Ok (r, mkRoot (node_limit_ sr) (old_root_ sr) (branch_nodes n, aux n, chains n) (phantom_values_ sr)
           (stream_ sr) (root_ sr), accounts n, storages n).

End StateRoot.
End StateRoot.
