(* ===== verification/RootSpec.v ===== *)
(** What the world-state walks of src/state_root.cpp compute: the meaning of a
    witness.  A witness is a tree that reveals some leaves of a Merkle Patricia
    trie and hides the rest behind hashes.  [old] is the node its block-start
    values reduce to and [new] the node its current values reduce to, both from
    scratch; leaves are read through an interpretation, so that the storage trie
    of an account and the state trie share every definition and lemma. *)

From stdpp Require Import base numbers list strings gmap.
From S2P Require Import Prelude Rlp Writer TriePath Mpt Accounts.

Set Default Goal Selector "!".

Module RootSpec.
Import Rlp TriePath Mpt.

(** Where a leaf's value lives: an account row, a storage row or the witness. *)
Inductive Src := SAccount (idx : nat) | SStorage (idx : nat) | SWitness.

(** A reduced node: nothing, a node known by its hash, an extension of such a
    node, a leaf. *)
Inductive nres :=
| NE
| NH (h : Z)
| NX (ns : list Z) (h : Z)
| NL (ns : list Z) (v : bytes) (src : Src).

Definition is_NE (r : nres) : bool := match r with NE => true | _ => false end.

(** The nibbles of a 32-byte hash. *)
Definition hash_nibbles (h : Z) : list Z := to_nibbles (be_bytes 32 h).

Definition account_rlp (nonce balance storage_root code_hash : Z) : bytes :=
  encode_list [encode_u64 nonce; encode_u256 balance; encode (be_bytes 32 storage_root);
               encode (be_bytes 32 code_hash)].
Definition leaf_rlp (ns : list Z) (v : bytes) : bytes := encode_list [encode (hp_spec ns true); encode v].
Definition ext_rlp (ns : list Z) (h : Z) : bytes :=
  encode_list [encode (hp_spec ns false); encode (be_bytes 32 h)].

(** ** Witness trees *)

Inductive tree (L : Type) :=
| TEmpty
| THash (h : Z)
| TExt (ns : list Z) (h : Z)
| TPhantom (ns : list Z) (v : bytes)
| TKey (l : L)
| TBranch (kids : list (tree L)).
Arguments TEmpty {L}. Arguments THash {L}. Arguments TExt {L}. Arguments TPhantom {L}.
Arguments TKey {L}. Arguments TBranch {L}.

Definition is_TEmpty {L} (t : tree L) : bool := match t with TEmpty => true | _ => false end.
Definition is_THash {L} (t : tree L) : bool := match t with THash _ => true | _ => false end.

Fixpoint tree_all {L} (P : tree L → Prop)
    (HE : P TEmpty) (HH : ∀ h, P (THash h)) (HX : ∀ ns h, P (TExt ns h))
    (HP : ∀ ns v, P (TPhantom ns v)) (HK : ∀ l, P (TKey l))
    (HB : ∀ kids, Forall P kids → P (TBranch kids)) (t : tree L) : P t :=
  match t with
  | TEmpty => HE
  | THash h => HH h
  | TExt ns h => HX ns h
  | TPhantom ns v => HP ns v
  | TKey l => HK l
  | TBranch kids =>
      HB kids ((fix go (l : list (tree L)) : Forall P l :=
        match l with
        | [] => List.Forall_nil P
        | t :: l => List.Forall_cons P t l (tree_all P HE HH HX HP HK HB t) (go l)
        end) kids)
  end.

Section Reduce.
Context (keccak256 : bytes → Z).

(** The bytes of a branch slot, and the root of a reduced trie. *)
Definition slot (r : nres) : bytes :=
  match r with
  | NE => [Byte.x80]
  | NH h => encode (be_bytes 32 h)
  | NX ns h => node_ref keccak256 (ext_rlp ns h)
  | NL ns v _ => node_ref keccak256 (leaf_rlp ns v)
  end.
Definition branch_rlp (rs : list nres) : bytes := encode_list (map slot rs ++ [[Byte.x80]]).

Definition root_of (r : nres) : Z :=
  match r with
  | NE => Node.kEmptyTrieRoot
  | NH h => h
  | NX ns h => keccak256 (ext_rlp ns h)
  | NL ns v _ => keccak256 (leaf_rlp ns v)
  end.

(** The encoding of a reduced node that is not known by its hash alone. *)
Definition own_rlp (r : nres) : list bytes :=
  match r with
  | NE | NH _ => []
  | NX ns h => [ext_rlp ns h]
  | NL ns v _ => [leaf_rlp ns v]
  end.

(** A branch whose only child is [r], at nibble [j]. *)
Definition fold1 (j : Z) (r : nres) : nres :=
  match r with
  | NE => NE
  | NH h => NX [j] h
  | NX ns h => NX (j :: ns) h
  | NL ns v s => NL (j :: ns) v s
  end.

(** The nonempty children with their nibbles. *)
Fixpoint live (j : Z) (rs : list nres) : list (Z * nres) :=
  match rs with
  | [] => []
  | r :: rs => if is_NE r then live (j + 1) rs else (j, r) :: live (j + 1) rs
  end.
Definition reduce (rs : list nres) : nres :=
  match live 0 rs with
  | [] => NE
  | [(j, r)] => fold1 j r
  | _ => NH (keccak256 (branch_rlp rs))
  end.

(** All that is left of a branch the witness showed with several children is a
    child known only by its hash: it may be a leaf, and cannot be folded. *)
Definition orphan {L} (kids : list (tree L)) (rs : list nres) : bool :=
  match live 0 rs with
  | [(j, _)] =>
      default false (is_THash <$> kids !! Z.to_nat j) &&
      (2 <=? length (List.filter (λ t, negb (is_TEmpty t)) kids))%nat
  | _ => false
  end.
Definition orphan_msg : string := "state_root: unresolved orphan sibling after branch collapse".

Fixpoint map_res {A B} (f : A → res B) (l : list A) : res (list B) :=
  match l with
  | [] => Ok []
  | x :: l => y ← f x; ys ← map_res f l; Ok (y :: ys)
  end.

Section Tree.
(** A leaf: its 64-nibble key, its source, its value at block start and now
    ([None] when absent) and whether it was written to. *)
Context {L : Type} (key : L → list Z) (src : L → Src) (vo : L → option bytes)
        (vn : L → res (option bytes)) (ch : L → bool).

Definition leaf_node (d : nat) (l : L) (v : option bytes) : nres :=
  match v with None => NE | Some v => NL (drop d (key l)) v (src l) end.

Fixpoint old (d : nat) (t : tree L) : nres :=
  match t with
  | TEmpty => NE
  | THash h => NH h
  | TExt ns h => NX ns h
  | TPhantom ns v => NL ns v SWitness
  | TKey l => leaf_node d l (vo l)
  | TBranch kids => reduce (map (old (S d)) kids)
  end.

Fixpoint changed (t : tree L) : bool :=
  match t with
  | TKey l => ch l
  | TBranch kids => existsb changed kids
  | _ => false
  end.

Fixpoint new (d : nat) (t : tree L) : res nres :=
  match t with
  | TEmpty => Ok NE
  | THash h => Ok (NH h)
  | TExt ns h => Ok (NX ns h)
  | TPhantom ns v => Ok (NL ns v SWitness)
  | TKey l => v ← vn l; Ok (leaf_node d l v)
  | TBranch kids =>
      rs ← map_res (new (S d)) kids;
      _ ← fatal_if (existsb changed kids && orphan kids rs) orphan_msg;
      Ok (reduce rs)
  end.

(** The encodings of the nodes below the top of a tree at its block-start values:
    for a branch with two children or more its own and theirs, and whatever a
    leaf brings along. *)
Context (lnodes : L → list bytes).
Fixpoint inner_nodes (d : nat) (t : tree L) : list bytes :=
  match t with
  | TKey l => lnodes l
  | TBranch kids =>
      let rs := map (old (S d)) kids in
      match live 0 rs with
      | _ :: _ :: _ => branch_rlp rs :: concat (map own_rlp rs)
      | _ => []
      end ++ concat (map (inner_nodes (S d)) kids)
  | _ => []
  end.

(** A branch with the one child [t] at [j], and a run of such branches. *)
Definition single (j : Z) (t : tree L) : tree L := TBranch (<[Z.to_nat j := t]> (replicate 16 TEmpty)).
Definition nest (ns : list Z) (t : tree L) : tree L := foldr single t ns.

(** The leaves of a tree. *)
Fixpoint leaves (t : tree L) : list L :=
  match t with
  | TKey l => [l]
  | TBranch kids => concat (map leaves kids)
  | _ => []
  end.
End Tree.
End Reduce.
Arguments inner_nodes keccak256 {L}. Arguments old keccak256 {L}. Arguments new keccak256 {L}. Arguments changed {L}.
Arguments single {L}. Arguments nest {L}. Arguments leaves {L}.

(** The table rows of a tree's leaves. *)
Section Ids.
Context {L : Type} (lids : L → list nat).
Fixpoint ids (t : tree L) : list nat :=
  match t with
  | TKey l => lids l
  | TBranch kids => concat (map ids kids)
  | _ => []
  end.
End Ids.

(** ** The leaves of the world state *)

(** An account leaf carries the tree of its storage, a storage leaf its owner. *)
Inductive lf :=
| LAccount (idx : nat) (addr nonce balance code_hash : Z) (st : tree lf)
| LStorage (idx : nat) (owner pos val : Z).

Fixpoint lf_accts (l : lf) : list nat :=
  match l with LAccount i _ _ _ _ st => i :: ids lf_accts st | LStorage _ _ _ _ => [] end.
Fixpoint lf_slots (l : lf) : list nat :=
  match l with LAccount _ _ _ _ _ st => ids lf_slots st | LStorage i _ _ _ => [i] end.

(** The current values, by row. *)
Record valuation := mkVal { cur_account : nat → Z * Z * Z; cur_slot : nat → Z }.

Definition slot_value (v : Z) : option bytes := if v =? 0 then None else Some (encode_u256 v).
Definition account_value (n b sr c : Z) : option bytes :=
  if Node.is_empty_account n b c then None else Some (account_rlp n b sr c).

Section World.
Context (keccak256 : bytes → Z).

Definition lkey (l : lf) : list Z :=
  match l with
  | LAccount _ addr _ _ _ _ => hash_nibbles (keccak256 (be_bytes 20 addr))
  | LStorage _ _ pos _ => hash_nibbles (keccak256 (be_bytes 32 pos))
  end.
Definition lsrc (l : lf) : Src :=
  match l with LAccount i _ _ _ _ _ => SAccount i | LStorage i _ _ _ => SStorage i end.

Fixpoint lvo (l : lf) : option bytes :=
  match l with
  | LAccount _ _ n b c st => account_value n b (root_of keccak256 (old keccak256 lkey lsrc lvo 0 st)) c
  | LStorage _ _ _ v => slot_value v
  end.

Fixpoint lch (V : valuation) (l : lf) : bool :=
  match l with
  | LAccount i _ n b c st =>
      negb (let '(n', b', c') := cur_account V i in (n =? n') && (b =? b') && (c =? c')) || changed (lch V) st
  | LStorage i _ _ v => negb (v =? cur_slot V i)
  end.

Fixpoint lvn (V : valuation) (l : lf) : res (option bytes) :=
  match l with
  | LAccount i _ _ _ _ st =>
      r ← new keccak256 lkey lsrc (lvn V) (lch V) 0 st;
      let '(n, b, c) := cur_account V i in Ok (account_value n b (root_of keccak256 r) c)
  | LStorage i _ _ _ => Ok (slot_value (cur_slot V i))
  end.

Definition w_old : nat → tree lf → nres := old keccak256 lkey lsrc lvo.
Definition w_changed (V : valuation) : tree lf → bool := changed (lch V).
Definition w_new (V : valuation) : nat → tree lf → res nres := new keccak256 lkey lsrc (lvn V) (lch V).

(** The encodings of every node of a witness at its block-start values: of the
    state trie and of the storage tries of the accounts it shows, with the
    [0x80] an empty trie is hashed from. *)
Fixpoint leaf_nodes (l : lf) : list bytes :=
  match l with
  | LAccount _ _ _ _ _ st =>
      [Byte.x80] :: own_rlp (old keccak256 lkey lsrc lvo 0 st) ++ inner_nodes keccak256 lkey lsrc lvo leaf_nodes 0 st
  | LStorage _ _ _ _ => []
  end.
Definition w_inner : nat → tree lf → list bytes := inner_nodes keccak256 lkey lsrc lvo leaf_nodes.
Definition w_nodes (t : tree lf) : list bytes := [Byte.x80] :: own_rlp (w_old 0 t) ++ w_inner 0 t.

(** Well-formed trees, at the nibbles walked to reach them: the state trie holds
    account leaves, the storage trie of [owner] its slots, each under its key. *)
Inductive tkind := InState | InStorage (owner : Z).
Inductive wf : tkind → list Z → tree lf → Prop :=
| wf_empty k w : wf k w TEmpty
| wf_hash k w h : in_u256 h → wf k w (THash h)
| wf_ext k w ns h : Forall is_nibble ns → (length ns ≤ 64)%nat → in_u256 h → wf k w (TExt ns h)
| wf_phantom k w ns v : Forall is_nibble ns → (length ns ≤ 64)%nat → len v ≤ 128 → wf k w (TPhantom ns v)
| wf_account w i addr n b c st :
    0 ≤ addr < 2 ^ 160 → in_u64 n → in_u256 b → in_u256 c → w `prefix_of` lkey (LAccount i addr n b c st) →
    wf (InStorage addr) [] st →
    (Node.is_empty_account n b c = true → root_of keccak256 (w_old 0 st) = Node.kEmptyTrieRoot) →
    wf InState w (TKey (LAccount i addr n b c st))
| wf_slot w i owner pos v :
    in_u256 pos → in_u256 v → w `prefix_of` lkey (LStorage i owner pos v) →
    wf (InStorage owner) w (TKey (LStorage i owner pos v))
| wf_branch k w kids :
    length kids = 16%nat → (length w < 64)%nat →
    (∀ j t, kids !! j = Some t → wf k (w ++ [Z.of_nat j]) t) → wf k w (TBranch kids).
End World.
End RootSpec.
