(* ===== verification/RootEncode.v ===== *)
(** The node encoders of src/state_root.cpp write the Yellow Paper's nodes.  A
    cached result [NodeR] denotes a reduced node of RootSpec; the leaf, extension
    and branch encoders, the branch reduction and the chain folds act on what
    their arguments denote. *)

From stdpp Require Import base numbers list strings gmap.
From S2P Require Import Prelude Rlp Writer Contracts TriePath Mpt Accounts Storages StateRoot RootSpec.

Set Default Goal Selector "!".

Module RootEncode.
Import Rlp Writer Stream TriePath Mpt Node StateRoot RootSpec.

(** ** A buffer with a payload and room in front *)

Definition framed (size : Z) (buf : bytes) (s e : Z) (p : bytes) : Prop :=
  len buf = size ∧ 0 ≤ s ≤ e ∧ e ≤ size ∧ slice buf s e = p.

Lemma framed_len size buf s e p : framed size buf s e p → len p = e - s.
Proof. intros (Hl & Hs & He & <-). unfold len in *. rewrite length_slice by lia. lia. Qed.

Lemma header_small S_ L_ p : 0 ≤ p < 256 → 1 ≤ len (header S_ L_ p) ≤ 2.
Proof.
  intros Hp. destruct (Z_le_gt_dec p 55).
  - rewrite header_short by lia. unfold len. cbn. lia.
  - rewrite header_long by lia. rewrite (be_length_bytes_unique p 0) by (cbn; lia).
    unfold len. cbn [length]. rewrite length_be_bytes. lia.
Qed.
Lemma len_list_small p : len p < 256 → len p + 1 ≤ len (encode_list_payload p) ≤ len p + 2.
Proof.
  intros Hp. pose proof (len_nonneg p). change (encode_list_payload p) with (enc List p).
  rewrite enc_header by (by intros [? _]). rewrite len_app.
  pose proof (header_small (short_base List) (long_base List) (len p) ltac:(lia)). lia.
Qed.
Lemma len_string_small p : len p < 256 → len p ≤ len (encode p) ≤ len p + 2.
Proof.
  intros Hp. pose proof (len_nonneg p). destruct (decide (bare String p)) as [Hb|Hb].
  - change (encode p) with (enc String p). rewrite enc_bare by done. lia.
  - change (encode p) with (enc String p). rewrite enc_header by done. rewrite len_app.
    pose proof (header_small (short_base String) (long_base String) (len p) ltac:(lia)). lia.
Qed.

Lemma bind_step {A B} (m : res A) x (f : A → res B) r : m = Ok x → f x = r → (m ≫= f) = r.
Proof. by intros -> <-. Qed.
Lemma bind_pair {A B C} (m : res (A * B)) x y (f : A → B → res C) r :
  m = Ok (x, y) → f x y = r → ('(x, y) ← m; f x y) = r.
Proof. by intros -> <-. Qed.

Lemma framed_init size w p buf s :
  emits w p → len buf = size → 0 ≤ s → s + len p ≤ size →
  ∃ buf', w (buf, s) = Ok (buf', s + len p) ∧ framed size buf' s (s + len p) p.
Proof.
  intros Hw Hb Hs Hp. pose proof (len_nonneg p). rewrite Hw by lia. unfold put.
  destruct (mem_write_back buf s s p) as (buf' & E & Hl & Hsl); [lia|unfold len in *; lia|].
  exists buf'. rewrite E. cbn. split; [done|]. unfold framed, len in *. rewrite Hl, Hsl.
  unfold slice. rewrite Z.sub_diag. cbn. split_and!; (done || lia).
Qed.
Lemma framed_list size buf s e p :
  framed size buf s e p → len p < 256 → len p + 2 ≤ e →
  ∃ buf' s', prepend_list buf s e = Ok (buf', s') ∧ framed size buf' s' e (encode_list_payload p) .
Proof.
  intros HF Hp He. pose proof (framed_len _ _ _ _ _ HF) as Hl. destruct HF as (Hb & Hs & Hee & Hsl).
  pose proof (len_list_small p Hp).
  destruct (prepend_slice List buf s e) as (buf' & s' & E & Hlb & -> & Hsl');
    [lia|lia|by intros [? _]|rewrite Hsl; change (enc List p) with (encode_list_payload p); lia|lia|].
  rewrite Hsl in *. change (enc List p) with (encode_list_payload p) in *.
  exists buf', (e - len (encode_list_payload p)). split; [done|]. unfold framed, len in *. rewrite Hlb. split_and!; (done || lia).
Qed.
Lemma framed_string size buf s e p :
  framed size buf s e p → len p < 256 → len p + 2 ≤ e →
  ∃ buf' s', prepend_string buf s e = Ok (buf', s') ∧ framed size buf' s' e (encode p).
Proof.
  intros HF Hp He. pose proof (framed_len _ _ _ _ _ HF) as Hl. destruct HF as (Hb & Hs & Hee & Hsl).
  pose proof (len_string_small p Hp).
  destruct (prepend_string_slice buf s e) as (buf' & s' & E & Hlb & -> & Hsl'); [lia|lia|lia|rewrite Hsl; lia|].
  rewrite Hsl in *. exists buf', (e - len (encode p)). split; [done|].
  unfold framed, len in *. rewrite Hlb. split_and!; (done || lia).
Qed.

Section Encode.
Context (keccak256 : bytes → Z) (garbage : nat → bytes).
Context (garbage_len : ∀ n, length (garbage n) = n).

Lemma framed_hp size buf s e p path leaf :
  framed size buf s e p → path_wf path → plen path ≤ 64 → 35 ≤ s →
  ∃ buf' s', prepend_hp garbage buf s path leaf = Ok (buf', s') ∧
    framed size buf' s' e (encode (hp_spec (pnibbles path) leaf) ++ p).
Proof.
  intros HF Hwf Hpl Hs. pose proof (framed_len _ _ _ _ _ HF) as Hl. destruct HF as (Hb & Hse & Hee & Hsl).
  unfold prepend_hp. rewrite hex_prefix_spec by done. cbn [mbind res_bind].
  set (hp := hp_spec (pnibbles path) leaf).
  assert (Hhp : len hp ≤ 33) by (apply len_hp; rewrite length_pnibbles; lia).
  assert (Hen : len (encode hp) ≤ 35) by (pose proof (len_string_small hp); lia).
  assert (Hen' : len (encode hp) ≤ 34 ∨ 34 < len (encode hp)) by lia.
  rewrite write_string_spec by lia.
  assert (H36 : len (encode hp) ≤ 36) by lia.
  rewrite mem_write_ok by (rewrite ?garbage_len; unfold len in *; lia). cbn.
  set (rest := drop _ _).
  change (take (Z.to_nat 0) (garbage 36) ++ encode hp ++ rest) with (encode hp ++ rest).
  assert (mem_read (encode hp ++ rest) 0 (len (encode hp)) = Ok (encode hp)) as ->.
  { unfold mem_read. rewrite !(proj2 (Z.leb_le _ _)) by (rewrite ?length_app; unfold len; lia).
    cbn [andb]. rewrite drop_0. unfold len. by rewrite Nat2Z.id, take_app_length. }
  cbn [mbind res_bind].
  unfold prepend_bytes.
  destruct (mem_write_front buf s e (encode hp)) as (buf' & E & Hlb & Hsl'); [unfold len in *; lia|unfold len in *; lia|].
  fold (len (encode hp)) in E, Hsl'. rewrite E. cbn. exists buf', (s - len (encode hp)). split; [done|].
  pose proof (len_nonneg (encode hp)). unfold framed, len in *. rewrite Hlb, Hsl', Hsl. split_and!; (done || lia).
Qed.

Lemma rlp_buf_len : len (rlp_buf garbage) = 210.
Proof. unfold rlp_buf, len. by rewrite garbage_len. Qed.

(** The last two steps of every encoder: the hex-prefix item and the list header. *)
Lemma framed_node buf s e p path leaf :
  framed 210 buf s e p → path_wf path → plen path ≤ 64 → 35 ≤ s → len p ≤ 130 → len p + 37 ≤ e →
  ∃ buf1 s1 buf2 s2, prepend_hp garbage buf s path leaf = Ok (buf1, s1) ∧
    prepend_list buf1 s1 e = Ok (buf2, s2) ∧
    slice buf2 s2 e = encode_list [encode (hp_spec (pnibbles path) leaf); p].
Proof.
  intros HF Hwf Hpl Hs Hp He.
  destruct (framed_hp _ _ _ _ _ path leaf HF Hwf Hpl Hs) as (buf1 & s1 & E1 & HF1).
  assert (Hhp : len (hp_spec (pnibbles path) leaf) ≤ 33) by (apply len_hp; rewrite length_pnibbles; lia).
  pose proof (len_string_small (hp_spec (pnibbles path) leaf) ltac:(lia)).
  destruct (framed_list _ _ _ _ _ HF1) as (buf2 & s2 & E2 & _ & _ & _ & Hsl); [rewrite len_app; lia|rewrite len_app; lia|].
  exists buf1, s1, buf2, s2. split_and!; [done|done|]. rewrite Hsl, encode_list_spec. cbn. by rewrite app_nil_r.
Qed.

Lemma phantom_rlp path v :
  path_wf path → plen path ≤ 64 → len v ≤ 128 →
  build_phantom_leaf_rlp_s garbage (rlp_buf garbage) path v = Ok (leaf_rlp (pnibbles path) v).
Proof.
  intros Hwf Hpl Hv. unfold build_phantom_leaf_rlp_s. pose proof (len_string_small v ltac:(lia)).
  pose proof (len_nonneg v).
  destruct (framed_init 210 (advance (λ b p, write_string b p v)) (encode v) (rlp_buf garbage) kRlpGap)
    as (b0 & -> & HF); [apply emits_string; lia|apply rlp_buf_len|done|unfold kRlpGap; lia|]. cbn [mbind res_bind].
  destruct (framed_node _ _ _ _ path true HF Hwf Hpl) as (b1 & s1 & b2 & s2 & -> & E2 & Hs); [done|lia|unfold kRlpGap; lia|].
  cbn [mbind res_bind]. rewrite E2. cbn [mbind res_bind]. by rewrite Hs.
Qed.

Lemma extension_rlp path h :
  path_wf path → plen path ≤ 64 →
  build_extension_rlp_s garbage (rlp_buf garbage) path h = Ok (ext_rlp (pnibbles path) h).
Proof.
  intros Hwf Hpl. unfold build_extension_rlp_s.
  assert (Hh : len (be_bytes 32 h) = 32) by apply len_be_bytes.
  pose proof (len_string_small (be_bytes 32 h) ltac:(lia)).
  destruct (framed_init 210 (advance (λ b p, write_string b p (be_bytes 32 h))) (encode (be_bytes 32 h)) (rlp_buf garbage) kRlpGap)
    as (b0 & -> & HF); [apply emits_string; lia|apply rlp_buf_len|done|unfold kRlpGap; lia|]. cbn [mbind res_bind].
  destruct (framed_node _ _ _ _ path false HF Hwf Hpl) as (b1 & s1 & b2 & s2 & -> & E2 & Hs); [done|lia|unfold kRlpGap; lia|].
  cbn [mbind res_bind]. rewrite E2. cbn [mbind res_bind]. by rewrite Hs.
Qed.

Lemma emits_u256 v : in_u256 v → emits (advance (λ buf p, write_u256 buf p v)) (encode_u256 v).
Proof. intros H. apply emits_advance. intros. by apply write_u256_spec. Qed.

Lemma len_encode_u256 v : in_u256 v → 1 ≤ len (encode_u256 v) ≤ 34.
Proof.
  intros Hv. unfold encode_u256. rewrite u256_bytes by done.
  pose proof (trim_len 32 v ltac:(unfold in_u256 in Hv; simpl; lia)).
  pose proof (len_string_small (be_trim v) ltac:(lia)). split; [|lia].
  pose proof (enc_nonempty String (be_trim v)) as Hn. change (enc String) with encode in Hn.
  unfold len. destruct (encode (be_trim v)); [done|]. cbn. lia.
Qed.
Lemma len_encode_u64 v : in_u64 v → len (encode_u64 v) ≤ 10.
Proof.
  intros Hv. unfold encode_u64. rewrite u64_bytes by done.
  pose proof (trim_len 8 v ltac:(unfold in_u64 in Hv; simpl; lia)).
  pose proof (len_string_small (be_trim v) ltac:(lia)). lia.
Qed.

Lemma storage_rlp path s i w v :
  path_wf path → plen path ≤ 64 → in_u256 v →
  pick w (Storages.value_orig_at i) (Storages.value_at i) s = Ok v →
  build_storage_leaf_rlp_s garbage (rlp_buf garbage) path s i w = Ok (leaf_rlp (pnibbles path) (encode_u256 v)).
Proof.
  intros Hwf Hpl Hv Hr. unfold build_storage_leaf_rlp_s. eapply bind_step; [exact Hr|].
  pose proof (len_encode_u256 v Hv) as Hl. assert (HG : kRlpGap = 48) by done.
  pose proof (len_string_small (encode_u256 v) ltac:(lia)).
  destruct (framed_init 210 (advance (λ b p, write_u256 b p v)) (encode_u256 v) (rlp_buf garbage) kRlpGap)
    as (b0 & E0 & HF); [by apply emits_u256|apply rlp_buf_len|done|lia|]. eapply bind_pair; [exact E0|].
  destruct (framed_string _ _ _ _ _ HF) as (b1 & s1 & E1 & HF1); [lia|lia|]. eapply bind_pair; [exact E1|].
  pose proof (framed_len _ _ _ _ _ HF1) as Hl1.
  destruct (framed_node _ _ _ _ path true HF1 Hwf Hpl) as (b2 & s2 & b3 & s3 & E2 & E3 & Hs); [lia|lia|lia|].
  eapply bind_pair; [exact E2|]. eapply bind_pair; [exact E3|]. exact (f_equal Ok Hs).
Qed.

(** The fields of an account row, at block start or now. *)
Definition acct_fields (w : ValueSet) (i : nat) (a : Accounts.Accounts) : res (Z * Z * Z) :=
  n ← pick w (Accounts.nonce_orig_at i) (Accounts.nonce_at i) a;
  b ← pick w (Accounts.balance_orig_at i) (Accounts.balance_at i) a;
  c ← pick w (Accounts.code_hash_orig_at i) (Accounts.code_hash_at i) a;
  Ok (n, b, c).

Lemma len_account_payload n b sr c :
  in_u64 n → in_u256 b →
  len (encode_u64 n ++ encode_u256 b ++ encode (be_bytes 32 sr) ++ encode (be_bytes 32 c)) ≤ 112.
Proof.
  intros Hn Hb. rewrite !len_app. pose proof (len_encode_u64 n Hn). pose proof (len_encode_u256 b Hb).
  pose proof (len_string_small (be_bytes 32 sr) ltac:(rewrite len_be_bytes; lia)).
  pose proof (len_string_small (be_bytes 32 c) ltac:(rewrite len_be_bytes; lia)). rewrite len_be_bytes in *. lia.
Qed.
Lemma account_rlp_payload n b sr c :
  account_rlp n b sr c =
  encode_list_payload (encode_u64 n ++ encode_u256 b ++ encode (be_bytes 32 sr) ++ encode (be_bytes 32 c)).
Proof. unfold account_rlp. rewrite encode_list_spec. cbn [concat]. by rewrite app_nil_r. Qed.
Lemma len_account_rlp n b sr c : in_u64 n → in_u256 b → 1 ≤ len (account_rlp n b sr c) ≤ 114.
Proof.
  intros Hn Hb. rewrite account_rlp_payload. pose proof (len_account_payload n b sr c Hn Hb).
  match goal with |- context [encode_list_payload ?p] => pose proof (len_list_small p ltac:(lia)); pose proof (len_nonneg p) end. lia.
Qed.

Lemma account_leaf_rlp path a i sr w n b c :
  path_wf path → plen path ≤ 64 → in_u64 n → in_u256 b →
  acct_fields w i a = Ok (n, b, c) →
  build_account_leaf_rlp_s garbage (rlp_buf garbage) path a i sr w =
    Ok (leaf_rlp (pnibbles path) (account_rlp n b sr c)).
Proof.
  intros Hwf Hpl Hn Hb Hr. unfold acct_fields in Hr. unfold build_account_leaf_rlp_s.
  apply bind_Ok in Hr as (n' & En & Hr). apply bind_Ok in Hr as (b' & Eb & Hr). apply bind_Ok in Hr as (c' & Ec & Hr).
  injection Hr as -> -> ->. eapply bind_step; [exact En|]. eapply bind_step; [exact Eb|]. eapply bind_step; [exact Ec|].
  set (P := encode_u64 n ++ encode_u256 b ++ encode (be_bytes 32 sr) ++ encode (be_bytes 32 c)).
  pose proof (len_account_payload n b sr c Hn Hb) as HP. fold P in HP. pose proof (len_nonneg P).
  assert (HG : kRlpGap = 48) by done.
  match goal with |- context [Writer.seq ?x ?y] =>
    destruct (framed_init 210 (Writer.seq x y) P (rlp_buf garbage) kRlpGap) as (b0 & E0 & HF) end;
    [|apply rlp_buf_len|done|lia|].
  { subst P. apply emits_seq; [by apply emits_u64|]. apply emits_seq; [by apply emits_u256|].
    apply emits_seq; apply emits_string; rewrite len_be_bytes; lia. }
  eapply bind_pair; [exact E0|].
  destruct (framed_list _ _ _ _ _ HF) as (b1 & s1 & E1 & HF1); [lia|lia|]. eapply bind_pair; [exact E1|].
  pose proof (len_list_small P ltac:(lia)).
  destruct (framed_string _ _ _ _ _ HF1) as (b2 & s2 & E2 & HF2); [lia|lia|]. eapply bind_pair; [exact E2|].
  pose proof (len_string_small (encode_list_payload P) ltac:(lia)).
  pose proof (framed_len _ _ _ _ _ HF2).
  destruct (framed_node _ _ _ _ path true HF2 Hwf Hpl) as (b3 & s3 & b4 & s4 & E3 & E4 & Hs); [lia|lia|lia|].
  eapply bind_pair; [exact E3|]. eapply bind_pair; [exact E4|].
  rewrite account_rlp_payload. exact (f_equal Ok Hs).
Qed.

(** ** What a cached result denotes *)

(** Paths longer than a key can be built but not encoded. *)
Definition fits (ρ : nres) : Prop :=
  match ρ with NX ns _ | NL ns _ _ => (length ns ≤ 64)%nat | _ => True end.

Inductive den (a : Accounts.Accounts) (s : Storages.Storages) (w : ValueSet) : NodeR → nres → Prop :=
| den_empty : den a s w EmptyR NE
| den_hash h : in_u256 h → den a s w (HashR h) (NH h)
| den_ext p h : path_wf p → in_u256 h → den a s w (ExtR p h) (NX (pnibbles p) h)
| den_account p i sr n b c :
    path_wf p → in_u64 n → in_u256 b → acct_fields w i a = Ok (n, b, c) →
    den a s w (AccountLeafR p i sr) (NL (pnibbles p) (account_rlp n b sr c) (SAccount i))
| den_storage p i v :
    path_wf p → in_u256 v → pick w (Storages.value_orig_at i) (Storages.value_at i) s = Ok v →
    den a s w (StorageLeafR p i) (NL (pnibbles p) (encode_u256 v) (SStorage i))
| den_phantom p v : path_wf p → len v ≤ 128 → den a s w (PhantomLeafR p v) (NL (pnibbles p) v SWitness).

Lemma encode_hash32 h : encode (be_bytes 32 h) = Byte.xa0 :: be_bytes 32 h.
Proof.
  unfold encode. rewrite len_be_bytes. change (append_header 0x80 0xb7 [] (Z.of_nat 32)) with [Byte.xa0].
  cbn [Z.eqb andb Z.of_nat Pos.eqb]. reflexivity.
Qed.
Lemma len_hash32 h : len (encode (be_bytes 32 h)) = 33.
Proof. rewrite encode_hash32. change (Byte.xa0 :: be_bytes 32 h) with ([Byte.xa0] ++ be_bytes 32 h). by rewrite len_app, len_be_bytes. Qed.
Lemma emits_hash h : emits (emit_hash_slot h) (encode (be_bytes 32 h)).
Proof.
  rewrite encode_hash32. change (Byte.xa0 :: be_bytes 32 h) with ([Byte.xa0] ++ be_bytes 32 h).
  apply emits_seq; apply emits_put.
Qed.
Lemma emits_capped rlp : emits (emit_capped_slot keccak256 rlp) (node_ref keccak256 rlp).
Proof.
  unfold emit_capped_slot, node_ref. destruct (Z.leb_spec 32 (len rlp)), (Z.ltb_spec (len rlp) 32); try lia.
  - apply emits_hash.
  - apply emits_put.
Qed.
Lemma emits_bind {A} (m : res A) x w out : m = Ok x → emits (w x) out → emits (λ st, y ← m; w y st) out.
Proof. intros -> H. exact H. Qed.

Lemma fits_path p : path_wf p → (length (pnibbles p) ≤ 64)%nat ↔ plen p ≤ 64.
Proof. intros (_ & _ & Hp & _). rewrite length_pnibbles. lia. Qed.

Lemma emits_slot a s w r ρ :
  den a s w r ρ → fits ρ → emits (emit_child_slot keccak256 garbage r a s w) (slot keccak256 ρ).
Proof.
  intros [|h|p h Hp ?|p i sr n b c Hp ? ? ?|p i v Hp ? ?|p v Hp ?]; cbn [emit_child_slot slot fits]; rewrite ?fits_path by done; intros Hl.
  - apply emits_put.
  - apply emits_hash.
  - eapply emits_bind; [by apply extension_rlp|apply emits_capped].
  - eapply emits_bind; [by apply account_leaf_rlp|apply emits_capped].
  - eapply emits_bind; [by apply storage_rlp|apply emits_capped].
  - eapply emits_bind; [by apply phantom_rlp|apply emits_capped].
Qed.

Lemma finalize_den a s w r ρ :
  den a s w r ρ → fits ρ → finalize keccak256 garbage r a s w = Ok (root_of keccak256 ρ).
Proof.
  intros [|h|p h Hp ?|p i sr n b c Hp ? ? ?|p i v Hp ? ?|p v Hp ?]; cbn [finalize root_of fits]; rewrite ?fits_path by done;
    intros Hl; [done|done|..].
  - unfold pack_extension. by rewrite extension_rlp.
  - unfold pack_account_leaf. by erewrite account_leaf_rlp.
  - unfold pack_storage_leaf. by erewrite storage_rlp.
  - unfold pack_phantom_leaf. by rewrite phantom_rlp.
Qed.

(** What was encoded fits. *)
Lemma hp_fits buf st path leaf r : prepend_hp garbage buf st path leaf = Ok r → plen path ≤ 64.
Proof. unfold prepend_hp, hex_prefix, kMaxNibbles. intros H. ok_inv. lia. Qed.
Lemma extension_fits buf path h r : build_extension_rlp_s garbage buf path h = Ok r → plen path ≤ 64.
Proof. unfold build_extension_rlp_s. intros H. ok_inv. by eapply hp_fits. Qed.
Lemma phantom_fits buf path v r : build_phantom_leaf_rlp_s garbage buf path v = Ok r → plen path ≤ 64.
Proof. unfold build_phantom_leaf_rlp_s. intros H. ok_inv. by eapply hp_fits. Qed.
Lemma storage_fits buf path s i w r : build_storage_leaf_rlp_s garbage buf path s i w = Ok r → plen path ≤ 64.
Proof. unfold build_storage_leaf_rlp_s. intros H. ok_inv. by eapply hp_fits. Qed.
Lemma account_fits buf path a i sr w r : build_account_leaf_rlp_s garbage buf path a i sr w = Ok r → plen path ≤ 64.
Proof. unfold build_account_leaf_rlp_s. intros H. ok_inv. by eapply hp_fits. Qed.

Lemma slot_fits a s w r ρ st st' :
  den a s w r ρ → emit_child_slot keccak256 garbage r a s w st = Ok st' → fits ρ.
Proof.
  intros [|h|p h Hp ?|p i sr n b c Hp ? ? ?|p i v Hp ? ?|p v Hp ?]; cbn [emit_child_slot fits]; rewrite ?fits_path by done;
    intros HE; ok_inv; eauto using extension_fits, phantom_fits, storage_fits, account_fits.
Qed.
Lemma finalize_fits a s w r ρ h : den a s w r ρ → finalize keccak256 garbage r a s w = Ok h → fits ρ.
Proof.
  intros [|x|p x Hp ?|p i sr n b c Hp ? ? ?|p i v Hp ? ?|p v Hp ?]; cbn [finalize fits]; rewrite ?fits_path by done; intros HE; [done|done|..].
  - unfold pack_extension in HE. ok_inv. by eapply extension_fits.
  - unfold pack_account_leaf in HE. ok_inv. by eapply account_fits.
  - unfold pack_storage_leaf in HE. ok_inv. by eapply storage_fits.
  - unfold pack_phantom_leaf in HE. ok_inv. by eapply phantom_fits.
Qed.

(** ** Branches *)

(** A child's result; that of a pooled hash is read off the stream. *)
Definition child_result (c : Child) (n : Nodes) : res NodeR :=
  match child_type c with
  | NT_PoolHash => h ← pool_hash (stream n) (child_idx c); Ok (HashR (be_val h))
  | _ => result_ptr c n
  end.
Definition child_den (n : Nodes) (w : ValueSet) (c : Child) (ρ : nres) : Prop :=
  ∃ r, child_result c n = Ok r ∧ den (accounts n) (storages n) w r ρ.

Lemma pool_hash_len st i hb : pool_hash st i = Ok hb → length hb = 32%nat.
Proof.
  unfold pool_hash, mem_read. case_match eqn:E; [|done]. intros <-%Ok_inj.
  rewrite !andb_true_iff, !Z.leb_le in E. rewrite length_take, length_drop. lia.
Qed.

Lemma emits_child n w c ρ : child_den n w c ρ → fits ρ → emits (emit_child keccak256 garbage n w c) (slot keccak256 ρ).
Proof.
  intros (r & E & Hd) Hf. unfold child_result, emit_child in *. pose proof (emits_slot _ _ _ _ _ Hd Hf) as Hs.
  destruct (child_type c) eqn:Et; try (eapply emits_bind; [exact E|exact Hs]).
  - unfold result_ptr in E. rewrite Et in E. apply Ok_inj in E. by subst r.
  - apply bind_Ok in E as (hb & E & <-%Ok_inj). eapply emits_bind; [exact E|]. pose proof (pool_hash_len _ _ _ E) as Hl.
    cbn [emit_child_slot] in Hs. unfold emit_hash_slot in Hs. rewrite <- Hl in Hs. by rewrite be_bytes_be_val in Hs.
Qed.

Lemma node_ref_len b : len (node_ref keccak256 b) ≤ 33.
Proof.
  unfold node_ref. case_match eqn:E; [apply Z.ltb_lt in E; lia|].
  unfold keccak256_bytes32. by rewrite len_hash32.
Qed.
Lemma slot_len ρ : len (slot keccak256 ρ) ≤ 33.
Proof.
  destruct ρ; cbn [slot]; try apply node_ref_len; [done|].
  by rewrite len_hash32.
Qed.

Lemma branch_header_spec p : 0 ≤ p ≤ 0xffff → branch_header p = header 0xc0 0xf7 p.
Proof.
  intros Hp. unfold branch_header. destruct (Z.leb_spec p 55); [by rewrite header_short|].
  rewrite header_long by lia. destruct (Z.leb_spec p 0xff).
  - rewrite (be_length_bytes_unique p 0) by (cbn; lia). done.
  - rewrite (be_length_bytes_unique p 1) by (cbn; lia). cbn [be_bytes app]. do 2 f_equal.
    rewrite Z.shiftr_div_pow2 by lia. done.
Qed.

Lemma branch_payload_len rs : length rs = 16%nat → 17 ≤ len (concat (map (slot keccak256) rs)) + 17 ≤ 545.
Proof.
  intros Hl. assert (H : Forall (λ x, len x ≤ 33) (map (slot keccak256) rs)).
  { apply Forall_fmap, Forall_forall. intros ρ _. apply slot_len. }
  apply len_concat_const in H. rewrite length_map, Hl in H. pose proof (len_nonneg (concat (map (slot keccak256) rs))). lia.
Qed.

Lemma Forall2_emits {A} (f : A → writer) (g : nres → bytes) cs rs :
  Forall2 (λ c ρ, emits (f c) (g ρ)) cs rs → emits (for_each f cs) (concat (map g rs)).
Proof. induction 1; cbn; [apply emits_skip|by apply emits_seq]. Qed.

Lemma pack_branch_spec n w cs rs :
  length cs = 16%nat → Forall2 (child_den n w) cs rs → Forall fits rs →
  pack_branch keccak256 garbage cs n w = Ok (keccak256 (branch_rlp keccak256 rs)).
Proof.
  intros Hl HF Hfit. pose proof (Forall2_length _ _ _ HF) as Hl'. pose proof (branch_payload_len rs ltac:(lia)) as Hp.
  set (P := concat (map (slot keccak256) rs)) in *. unfold pack_branch.
  assert (HP : len (P ++ [Byte.x80]) = len P + 1) by (by rewrite len_app).
  destruct (framed_init 532 (seq (for_each (emit_child keccak256 garbage n w) cs) (put [Byte.x80])) (P ++ [Byte.x80])
    (garbage (Z.to_nat kBranchBuf)) kHdrGap) as (b0 & E0 & HB); [|unfold len; by rewrite garbage_len|done|unfold kHdrGap; lia|].
  { apply emits_seq; [|apply emits_put]. apply Forall2_emits. clear -HF Hfit garbage_len.
    induction HF; constructor; inversion Hfit; subst; [by apply emits_child|auto]. }
  eapply bind_pair; [exact E0|]. destruct HB as (Hb & Hs & He & Hsl). unfold kHdrGap in *.
  replace (3 + len (P ++ [Byte.x80]) - 3) with (len (P ++ [Byte.x80])) in * by lia.
  rewrite branch_header_spec by lia.
  set (h := header 0xc0 0xf7 _). assert (Hh : len h ≤ 3).
  { unfold h. destruct (Z_le_gt_dec (len (P ++ [Byte.x80])) 55); [by rewrite header_short|].
    rewrite header_long by lia. destruct (be_length_bytes_spec (len (P ++ [Byte.x80]))) as (k & -> & Hk & Hk'); [lia|].
    unfold len. cbn [length]. rewrite length_be_bytes.
    destruct k as [|[|k]]; [lia|lia|]. exfalso. assert (256 ^ Z.of_nat 2 ≤ 256 ^ Z.of_nat (S (S k))) by (apply Z.pow_le_mono_r; lia).
    change (256 ^ Z.of_nat 2) with 65536 in *. lia. }
  destruct (mem_write_front b0 3 (3 + len (P ++ [Byte.x80])) h) as (b1 & E1 & _ & Hsl1); [unfold len in *; lia|unfold len in *; lia|].
  eapply bind_step; [exact E1|]. do 2 f_equal. change (Z.of_nat (length h)) with (len h) in Hsl1. rewrite Hsl1, Hsl.
  unfold branch_rlp. rewrite encode_list_spec, concat_app. cbn [concat]. rewrite app_nil_r. fold P.
  change (encode_list_payload (P ++ [Byte.x80])) with (enc List (P ++ [Byte.x80])).
  by rewrite enc_header by (by intros [? _]).
Qed.

Lemma child_fits n w c ρ st st' :
  child_den n w c ρ → emit_child keccak256 garbage n w c st = Ok st' → fits ρ.
Proof.
  intros (r & Er & Hd) E. unfold child_result, emit_child in *.
  destruct (child_type c) eqn:Et; try (rewrite Er in E; by eapply slot_fits).
  - unfold result_ptr in Er. rewrite Et in Er. apply Ok_inj in Er. subst r. by inversion Hd.
  - apply bind_Ok in Er as (hb & _ & <-%Ok_inj). by inversion Hd.
Qed.
Lemma pack_branch_fits n w cs rs h :
  Forall2 (child_den n w) cs rs → pack_branch keccak256 garbage cs n w = Ok h → Forall fits rs.
Proof.
  unfold pack_branch. intros HF H. apply bind_Ok in H as (st & H & _). unfold Writer.seq in H.
  apply bind_Ok in H as (st1 & H & _). revert H.
  match goal with |- for_each _ _ ?st0 = _ → _ => generalize st0 end.
  induction HF as [|c ρ cs rs Hc HF IH]; intros st0 H; constructor; cbn [for_each] in H; unfold Writer.seq in H.
  - apply bind_Ok in H as (st2 & H & _). by eapply child_fits.
  - apply bind_Ok in H as (st2 & _ & H). by eapply IH.
Qed.

(** ** Folding and reducing *)

Definition room (ρ : nres) : Prop :=
  match ρ with NX ns _ | NL ns _ _ => (length ns < 64)%nat | _ => True end.

Lemma one_nibble_spec j : 0 ≤ j < 16 → ∃ p, one_nibble garbage j = Ok p ∧ path_wf p ∧ pnibbles p = [j].
Proof.
  intros Hj. destruct (path_new_wf (garbage 34)) as [Hw Hn]; [apply garbage_len|].
  destruct (prepend_nibbles j _ Hw) as (p & E & Hp & Hpn & _); [done|]. exists p.
  rewrite Hn, Z.mod_small in Hpn by lia. done.
Qed.

Lemma fold_total a s w r ρ j :
  den a s w r ρ → 0 ≤ j < 16 → room ρ → ∃ r', fold_nibble garbage j r = Ok r' ∧ den a s w r' (fold1 j ρ).
Proof.
  intros Hd Hj Hr.
  assert (Hpre : ∀ p, path_wf p → (length (pnibbles p) < 64)%nat →
    ∃ p', path_prepend j p = Ok p' ∧ path_wf p' ∧ pnibbles p' = j :: pnibbles p).
  { intros p Hp Hl. rewrite length_pnibbles in Hl. destruct (prepend_nibbles j p Hp) as (p' & E & Hp' & Hn & _).
    - destruct Hp as (_ & _ & ? & _). lia.
    - exists p'. rewrite Z.mod_small in Hn by lia. done. }
  destruct Hd as [|h|p h Hp ?|p i sr n b c Hp ? ? ?|p i v Hp ? ?|p v Hp ?]; cbn [fold_nibble fold1 room] in *;
    [eexists; split; [done|constructor]| |destruct (Hpre p Hp Hr) as (p' & -> & Hp' & <-)..]; cbn [mbind res_bind].
  - destruct (one_nibble_spec j Hj) as (p & -> & Hp & <-). eexists. split; [done|]. by constructor.
  - eexists. split; [done|]. by constructor.
  - eexists. split; [done|]. by constructor.
  - eexists. split; [done|]. by constructor.
  - eexists. split; [done|]. by constructor.
Qed.
Lemma fold_sim a s w r ρ j r' :
  den a s w r ρ → 0 ≤ j < 16 → fold_nibble garbage j r = Ok r' → den a s w r' (fold1 j ρ).
Proof.
  intros Hd Hj E.
  assert (Hpre : ∀ p p', path_wf p → path_prepend j p = Ok p' → path_wf p' ∧ pnibbles p' = j :: pnibbles p).
  { intros p p' Hp Ep. apply prepend_Ok in Ep as [Hp' Hn]; [|done]. rewrite Z.mod_small in Hn by lia. done. }
  destruct Hd as [|h|p h Hp ?|p i sr n b c Hp ? ? ?|p i v Hp ? ?|p v Hp ?]; cbn [fold_nibble fold1] in *;
    [apply Ok_inj in E as <-; constructor| |apply bind_Ok in E as (p' & Ep & <-%Ok_inj); destruct (Hpre _ _ Hp Ep) as [Hp' <-]; by constructor..].
  destruct (one_nibble_spec j Hj) as (p & Ep & Hp & <-). rewrite Ep in E. apply Ok_inj in E as <-. by constructor.
Qed.

Definition fold_all (js : list Z) (ρ : nres) : nres := foldr fold1 ρ js.

Lemma fold_prefix_sim a s w p k r ρ r' :
  (k ≤ Z.to_nat (plen p))%nat → path_wf p → den a s w r ρ → fold_prefix garbage k p r = Ok r' →
  den a s w r' (fold_all (take k (pnibbles p)) ρ).
Proof.
  intros Hk Hp. revert r ρ. induction k as [|k IH]; intros r ρ Hd E; cbn [fold_prefix] in E.
  { by apply Ok_inj in E as <-. }
  apply bind_Ok in E as (r1 & E1 & E). pose proof (at_range p (Z.of_nat k)) as Ha.
  pose proof (fold_sim a s w r ρ _ r1 Hd Ha E1) as Hd1.
  assert (Hn : pnibbles p !! k = Some (at_ p (Z.of_nat k))).
  { unfold pnibbles. rewrite list_lookup_fmap, lookup_seq_lt by lia. done. }
  rewrite (take_S_r _ _ _ Hn). unfold fold_all. rewrite foldr_app. cbn [foldr]. by apply (IH ltac:(lia) r1).
Qed.

Definition path_len (ρ : nres) : nat := match ρ with NX ns _ | NL ns _ _ => length ns | NH _ => 0 | NE => 0 end.
Lemma room_len ρ : (path_len ρ < 64)%nat → room ρ.
Proof. by destruct ρ. Qed.
Lemma fits_len ρ : (path_len ρ ≤ 64)%nat → fits ρ.
Proof. by destruct ρ. Qed.
Lemma fold1_len j ρ : (path_len (fold1 j ρ) ≤ S (path_len ρ))%nat.
Proof. destruct ρ; cbn; lia. Qed.
Lemma fold_all_len js ρ : (path_len (fold_all js ρ) ≤ length js + path_len ρ)%nat.
Proof. induction js as [|j js IH]; cbn; [lia|]. pose proof (fold1_len j (fold_all js ρ)). unfold fold_all in *. lia. Qed.

Lemma fold_prefix_total a s w p k r ρ :
  (k ≤ Z.to_nat (plen p))%nat → path_wf p → den a s w r ρ → (k + path_len ρ ≤ 64)%nat →
  ∃ r', fold_prefix garbage k p r = Ok r' ∧ den a s w r' (fold_all (take k (pnibbles p)) ρ).
Proof.
  intros Hk Hp. revert r ρ. induction k as [|k IH]; intros r ρ Hd Hl; cbn [fold_prefix]; [by exists r|].
  destruct (fold_total a s w r ρ (at_ p (Z.of_nat k))) as (r1 & -> & Hd1); [done|apply at_range|apply room_len; lia|].
  cbn [mbind res_bind].
  assert (Hn : pnibbles p !! k = Some (at_ p (Z.of_nat k))).
  { unfold pnibbles. rewrite list_lookup_fmap, lookup_seq_lt by lia. done. }
  rewrite (take_S_r _ _ _ Hn). unfold fold_all. rewrite foldr_app. cbn [foldr]. apply IH; [lia|done|].
  pose proof (fold1_len (at_ p (Z.of_nat k)) ρ). lia.
Qed.

Lemma chain_unfold ch n :
  chain_result garbage ch n =
    (r ← child_result (ch_child ch) n; fold_prefix garbage (Z.to_nat (plen (prefix ch))) (prefix ch) r).
Proof. unfold chain_result, child_result. by destruct (child_type (ch_child ch)). Qed.
Lemma take_pnibbles p : take (Z.to_nat (plen p)) (pnibbles p) = pnibbles p.
Proof. apply firstn_all2. by rewrite length_pnibbles. Qed.

(** The children that are known by their hash only. *)
Definition opaque (c : Child) : bool :=
  match child_type c with NT_PoolHash | NT_Hash => true | _ => false end.

Lemma den_NE a s w r ρ : den a s w r ρ → is_empty_r r = is_NE ρ.
Proof. by intros []. Qed.

Lemma count_spec n w cs rs k cnt sg :
  Forall2 (child_den n w) cs rs →
  count_children n k cs cnt sg =
    Ok (cnt + length (live (Z.of_nat k) rs),
        match last (live (Z.of_nat k) rs) with Some (j, _) => Some (Z.to_nat j) | None => sg end)%nat.
Proof.
  intros HF. revert k cnt sg. induction HF as [|c ρ cs rs Hc HF IH]; intros k cnt sg; cbn [count_children live length last].
  { by rewrite Nat.add_0_r. }
  assert (Hne : match child_type c with
    | NT_PoolHash => Ok true | NT_Empty => Ok false
    | _ => r ← result_ptr c n; Ok (negb (is_empty_r r)) end = Ok (negb (is_NE ρ))).
  { destruct Hc as (r & E & Hd). pose proof (den_NE _ _ _ _ _ Hd) as He. unfold child_result in E.
    destruct (child_type c) eqn:Et; try (rewrite E; cbn [mbind res_bind]; by rewrite He).
    - unfold result_ptr in E. rewrite Et in E. apply Ok_inj in E as <-. by rewrite <- He.
    - apply bind_Ok in E as (hb & _ & <-%Ok_inj). by rewrite <- He. }
  rewrite Hne. cbn [mbind res_bind]. replace (Z.of_nat k + 1) with (Z.of_nat (S k)) by lia.
  destruct (is_NE ρ); cbn [negb]; rewrite IH; [done|]. cbn [length]. f_equal. f_equal; [lia|].
  rewrite last_cons. destruct (last (live (Z.of_nat (S k)) rs)) as [[j ?]|]; [done|]. by rewrite Nat2Z.id.
Qed.

Lemma live_elem k rs j ρ :
  (j, ρ) ∈ live k rs → k ≤ j < k + Z.of_nat (length rs) ∧ rs !! Z.to_nat (j - k) = Some ρ ∧ is_NE ρ = false.
Proof.
  revert k. induction rs as [|r rs IH]; intros k; cbn [live length]; [by intros ?%not_elem_of_nil|].
  assert (Hrec : (j, ρ) ∈ live (k + 1) rs →
    k ≤ j < k + Z.of_nat (S (length rs)) ∧ (r :: rs) !! Z.to_nat (j - k) = Some ρ ∧ is_NE ρ = false).
  { intros (H1 & H2 & H3)%IH. split_and!; [lia|lia| |done].
    replace (Z.to_nat (j - k)) with (S (Z.to_nat (j - (k + 1)))) by lia. done. }
  destruct (is_NE r) eqn:E; [done|]. intros [[= -> ->]|H]%elem_of_cons; [|auto].
  rewrite Z.sub_diag. split_and!; [lia|lia|done|done].
Qed.

Lemma reduce_unfold bn n w rs :
  length (children bn) = 16%nat → Forall2 (child_den n w) (children bn) rs →
  (2 ≤ popcount64 (Z.land (tags bn) 0x55555555) → (2 ≤ length (live 0 rs))%nat) →
  reduce_branch keccak256 garbage bn n w =
    match live 0 rs with
    | [] => Ok EmptyR
    | [(j, ρ)] =>
        c ← vec_get (children bn) (Z.to_nat j);
        _ ← (if opaque c && match ρ with NH _ => true | _ => false end then check_orphan (children bn) w else Ok tt);
        r ← child_result c n; fold_nibble garbage j r
    | _ => h ← pack_branch keccak256 garbage (children bn) n w; Ok (HashR h)
    end.
Proof.
  intros Hl HF Htags. unfold reduce_branch. destruct (Z.leb_spec 2 (popcount64 (Z.land (tags bn) 0x55555555))) as [H2|_].
  { specialize (Htags H2). destruct (live 0 rs) as [|[j ρ] [|? ?]]; cbn [length] in Htags; [lia|lia|done]. }
  pose proof (count_spec n w _ _ 0%nat 0%nat None HF) as Hcnt. change (Z.of_nat 0) with 0 in Hcnt. rewrite Hcnt. clear Hcnt.
  cbn [mbind res_bind]. destruct (live 0 rs) as [|[j ρ] [|y l]] eqn:El; cbn [length Nat.add last]; [done| |done].
  destruct (live_elem 0 rs j ρ) as (Hj & Hlk & Hne); [rewrite El; by left|].
  rewrite Z.sub_0_r in Hlk. destruct (Forall2_lookup_r _ _ _ _ _ HF Hlk) as (c & Hc & (r & Er & Hd)).
  unfold vec_get. rewrite Hc. cbn [mbind res_bind]. rewrite Z2Nat.id by lia.
  unfold opaque. unfold child_result in *. destruct (child_type c) eqn:Et;
    try (rewrite Er; destruct Hd; cbn [mbind res_bind andb fold_nibble]; (done || by destruct (check_orphan _ _))).
  apply bind_Ok in Er as (hb & Eh & <-%Ok_inj). rewrite Eh. inversion Hd; subst.
  cbn [mbind res_bind andb fold_nibble]. by destruct (check_orphan _ _).
Qed.

Lemma keccak_den a s w h (Hk : ∀ b, in_u256 (keccak256 b)) b : h = keccak256 b → den a s w (HashR h) (NH (keccak256 b)).
Proof. intros ->. by constructor. Qed.

(** The reduction of a branch denotes the reduction of what its children denote. *)
Lemma reduce_sim bn n w rs r (Hk : ∀ b, in_u256 (keccak256 b)) :
  length (children bn) = 16%nat → Forall2 (child_den n w) (children bn) rs →
  (2 ≤ popcount64 (Z.land (tags bn) 0x55555555) → (2 ≤ length (live 0 rs))%nat) →
  reduce_branch keccak256 garbage bn n w = Ok r →
  den (accounts n) (storages n) w r (reduce keccak256 rs) ∧
  ((2 ≤ length (live 0 rs))%nat → Forall fits rs).
Proof.
  intros Hl HF Ht. rewrite (reduce_unfold _ _ _ _ Hl HF Ht). pose proof (Forall2_length _ _ _ HF) as Hl'.
  unfold reduce. destruct (live 0 rs) as [|[j ρ] [|y l]] eqn:El.
  - intros <-%Ok_inj. split; [constructor|cbn; lia].
  - intros E. split; [|cbn; lia]. destruct (live_elem 0 rs j ρ) as (Hj & Hlk & _); [rewrite El; by left|]. rewrite Z.sub_0_r in Hlk.
    destruct (Forall2_lookup_r _ _ _ _ _ HF Hlk) as (c & Hc & (rc & Er & Hd)).
    apply bind_Ok in E as (c' & Ec & E). apply vec_get_Ok in Ec. rewrite Hc in Ec. simplify_eq.
    apply bind_Ok in E as (_ & _ & E). rewrite Er in E. cbn [mbind res_bind] in E. eapply fold_sim; [done|lia|done].
  - intros E. apply bind_Ok in E as (h & E & <-%Ok_inj). pose proof (pack_branch_fits _ _ _ _ _ HF E) as Hf.
    rewrite (pack_branch_spec _ _ _ _ Hl HF Hf) in E. apply Ok_inj in E. split; [by apply keccak_den|done].
Qed.

Lemma reduce_total bn n w rs (Hk : ∀ b, in_u256 (keccak256 b)) :
  length (children bn) = 16%nat → Forall2 (child_den n w) (children bn) rs →
  (2 ≤ popcount64 (Z.land (tags bn) 0x55555555) → (2 ≤ length (live 0 rs))%nat) →
  Forall (λ ρ, (path_len ρ < 64)%nat) rs →
  let orphaned := match live 0 rs, w with
    | [(j, NH _)], Current =>
        default false (opaque <$> children bn !! Z.to_nat j) && (2 <=? length (List.filter typed_nonempty (children bn)))%nat
    | _, _ => false end in
  if orphaned then reduce_branch keccak256 garbage bn n w = Fatal orphan_msg
  else ∃ r, reduce_branch keccak256 garbage bn n w = Ok r ∧
       den (accounts n) (storages n) w r (reduce keccak256 rs).
Proof.
  intros Hl HF Ht Hp. cbv zeta. rewrite (reduce_unfold _ _ _ _ Hl HF Ht). pose proof (Forall2_length _ _ _ HF) as Hl'.
  unfold reduce. destruct (live 0 rs) as [|[j ρ] [|y l]] eqn:El.
  - eexists. split; [done|constructor].
  - destruct (live_elem 0 rs j ρ) as (Hj & Hlk & _); [rewrite El; by left|]. rewrite Z.sub_0_r in Hlk.
    destruct (Forall2_lookup_r _ _ _ _ _ HF Hlk) as (c & Hc & (rc & Er & Hd)).
    eapply Forall_lookup in Hp as Hpl; [|exact Hlk]. cbn beta in Hpl.
    destruct (fold_total _ _ _ _ _ j Hd) as (r' & Ef & Hd'); [lia|by apply room_len|].
    unfold vec_get. rewrite Hc. cbn [mbind res_bind fmap option_fmap option_map default].
    assert (Hok : ∃ r, (r ← child_result c n; fold_nibble garbage j r) = Ok r ∧ den (accounts n) (storages n) w r (fold1 j ρ)).
    { exists r'. by rewrite Er. }
    unfold check_orphan. destruct ρ; [..|]; rewrite ?andb_false_r; cbn [mbind res_bind]; [exact Hok| |exact Hok|exact Hok].
    destruct w; [by destruct (opaque c)|]. cbn [default]. change (id (opaque c)) with (opaque c).
    destruct (opaque c); cbn [andb]; [|exact Hok].
    destruct (2 <=? _)%nat; cbn [fatal_if mbind res_bind]; [done|exact Hok].
  - assert (Hf : Forall fits rs) by (eapply Forall_impl; [exact Hp|]; cbn beta; intros; apply fits_len; lia).
    rewrite (pack_branch_spec _ _ _ _ Hl HF Hf). cbn [mbind res_bind]. 
    assert (Hg : ∀ b : bool, b = false → if b then (Ok (HashR (keccak256 (branch_rlp keccak256 rs))) : res NodeR) = Fatal orphan_msg
      else ∃ r, Ok (HashR (keccak256 (branch_rlp keccak256 rs))) = Ok r ∧ den (accounts n) (storages n) w r (NH (keccak256 (branch_rlp keccak256 rs)))).
    { intros b ->. eexists. split; [done|]. by apply keccak_den. }
    apply Hg. by destruct ρ.
Qed.

End Encode.
End RootEncode.
