(* ===== verification/RootTags.v ===== *)
(** The tag word of a branch (src/state_root.cpp): two bits per child.  The loops
    over its set bits, [for (m = ...; m != 0; m &= m - 1)], visit the tagged
    children in order; its population counts are the numbers of tagged
    children. *)

From stdpp Require Import base numbers list strings gmap.
From S2P Require Import Prelude StateRoot.

Set Default Goal Selector "!".

Module RootTags.
Import StateRoot.

Definition tag (z : Z) (k : nat) : bool := Z.testbit z (2 * Z.of_nat k).

(** Only even bits below 32. *)
Definition evenbits (z : Z) : Prop := ∀ i, 0 ≤ i → Z.testbit z i = true → ∃ k, (k < 16)%nat ∧ i = 2 * Z.of_nat k.

Lemma mask_even : evenbits mask55.
Proof.
  intros i Hi H. destruct (Z_lt_le_dec i 32) as [Hlt|Hge].
  - assert (Hc : ∃ n : nat, (n < 32)%nat ∧ i = Z.of_nat n) by (exists (Z.to_nat i); lia).
    destruct Hc as (n & Hn & ->).
    do 32 (destruct n as [|n];
      [first [discriminate H|match goal with |- ∃ k, _ ∧ Z.of_nat ?m = _ =>
         exists (Nat.div2 m); split; [cbn; lia|reflexivity] end]|]); lia.
  - rewrite Z.bits_above_log2 in H; [done|done|]. change (Z.log2 mask55) with 30. lia.
Qed.

Lemma even_land z : evenbits (Z.land z mask55).
Proof. intros i Hi H. rewrite Z.land_spec in H. apply andb_true_iff in H as [_ H]. by apply mask_even. Qed.
Lemma even_lor a b : evenbits a → evenbits b → evenbits (Z.lor a b).
Proof. intros Ha Hb i Hi H. rewrite Z.lor_spec in H. apply orb_true_iff in H as [H|H]; auto. Qed.
Lemma even_sub a b : evenbits a → evenbits (Z.land a b).
Proof. intros Ha i Hi H. rewrite Z.land_spec in H. apply andb_true_iff in H as [H _]; auto. Qed.
Lemma tag_mask z k : (k < 16)%nat → tag (Z.land z mask55) k = tag z k.
Proof.
  intros Hk. unfold tag. rewrite Z.land_spec. enough (Z.testbit mask55 (2 * Z.of_nat k) = true) as ->; [apply andb_true_r|].
  do 16 (destruct k as [|k]; [reflexivity|]). lia.
Qed.
Lemma tag_lor a b k : tag (Z.lor a b) k = tag a k || tag b k.
Proof. unfold tag. by rewrite Z.lor_spec. Qed.
Lemma tag_land a b k : tag (Z.land a b) k = tag a k && tag b k.
Proof. unfold tag. by rewrite Z.land_spec. Qed.
Lemma even_ext a b : evenbits a → evenbits b → (∀ k, (k < 16)%nat → tag a k = tag b k) → a = b.
Proof.
  intros Ha Hb H. apply Z.bits_inj'. intros i Hi.
  destruct (Z.testbit a i) eqn:Ea, (Z.testbit b i) eqn:Eb; try done.
  - destruct (Ha i Hi Ea) as (k & Hk & ->). specialize (H k Hk). unfold tag in H. congruence.
  - destruct (Hb i Hi Eb) as (k & Hk & ->). specialize (H k Hk). unfold tag in H. congruence.
Qed.

(** The bits of the children from [k] on. *)
Definition high (M : Z) (k : nat) : Z := Z.shiftl (Z.shiftr M (2 * Z.of_nat k)) (2 * Z.of_nat k).

Lemma high_bit M k i : 0 ≤ i → Z.testbit (high M k) i = (2 * Z.of_nat k <=? i) && Z.testbit M i.
Proof.
  intros Hi. unfold high. rewrite Z.shiftl_spec by done. destruct (Z.leb_spec (2 * Z.of_nat k) i) as [H|H]; cbn [andb].
  - rewrite Z.shiftr_spec by lia. f_equal. lia.
  - apply Z.testbit_neg_r. lia.
Qed.
Lemma high_even M k : evenbits M → evenbits (high M k).
Proof. intros HM i Hi H. rewrite high_bit in H by done. apply andb_true_iff in H as [_ H]. auto. Qed.
Lemma tag_high M k j : tag (high M k) j = (k <=? j)%nat && tag M j.
Proof. unfold tag. rewrite high_bit by lia. f_equal. destruct (Z.leb_spec (2 * Z.of_nat k) (2 * Z.of_nat j)), (Nat.leb_spec k j); lia. Qed.
Lemma high_0 M : high M 0 = M.
Proof. unfold high. cbn. by rewrite Z.shiftr_0_r. Qed.
Lemma high_16 M : evenbits M → high M 16 = 0.
Proof.
  intros HM. apply even_ext; [by apply high_even|intros i ? H; by rewrite Z.bits_0 in H|].
  intros k Hk. rewrite tag_high. destruct (Nat.leb_spec 16 k); [lia|]. unfold tag. by rewrite Z.bits_0.
Qed.
Lemma high_skip M k : evenbits M → tag M k = false → high M k = high M (S k).
Proof.
  intros HM H. apply even_ext; [by apply high_even..|]. intros j Hj. rewrite !tag_high.
  destruct (Nat.leb_spec k j), (Nat.leb_spec (S k) j); try done; try lia.
  assert (j = k) as -> by lia. by rewrite H.
Qed.

(** Finding and clearing the lowest bit. *)
Lemma ctz_from_spec fuel bit m b :
  0 ≤ bit ≤ b → b < bit + Z.of_nat fuel → Z.testbit m b = true → (∀ i, bit ≤ i < b → Z.testbit m i = false) →
  ctz_from fuel bit m = b.
Proof.
  revert bit. induction fuel as [|fuel IH]; intros bit Hb Hf Hm Hl; [lia|]. cbn [ctz_from].
  destruct (decide (bit = b)) as [->|Hne]; [by rewrite Hm|]. rewrite Hl by lia. apply IH; [lia|lia|done|].
  intros i Hi. apply Hl. lia.
Qed.
Lemma clear_low m b :
  0 ≤ b → Z.testbit m b = true → (∀ i, 0 ≤ i < b → Z.testbit m i = false) →
  ∀ i, 0 ≤ i → Z.testbit (Z.land m (m - 1)) i = negb (i =? b) && Z.testbit m i.
Proof.
  intros Hb Hm Hl.
  assert (Hq : ∃ q, m = (2 * q + 1) * 2 ^ b).
  { exists (Z.shiftr m (b + 1)). assert (Hs : m = Z.shiftl (Z.shiftr m b) b).
    { apply Z.bits_inj'. intros i Hi. rewrite Z.shiftl_spec by done. destruct (Z_lt_le_dec i b).
      - rewrite Hl by lia. by rewrite Z.testbit_neg_r by lia.
      - rewrite Z.shiftr_spec by lia. f_equal. lia. }
    rewrite Z.shiftl_mul_pow2 in Hs by done. rewrite Hs at 1. f_equal.
    rewrite <- Z.shiftr_shiftr by lia. rewrite (Z.shiftr_div_pow2 _ 1) by lia. change (2 ^ 1) with 2.
    pose proof (Z.div_mod (Z.shiftr m b) 2 ltac:(lia)) as Hd.
    assert (Hodd : Z.shiftr m b mod 2 = 1).
    { rewrite <- Z.bit0_mod, Z.shiftr_spec, Z.add_0_l, Hm by lia. done. }
    lia. }
  destruct Hq as (q & ->). intros i Hi. rewrite Z.land_spec.
  pose proof (Z.pow_pos_nonneg 2 b ltac:(lia) Hb) as Hp.
  destruct (Z_lt_le_dec i b) as [Hlt|Hge].
  { rewrite !Hl by lia. by rewrite andb_false_r. }
  assert (Hm1 : Z.testbit ((2 * q + 1) * 2 ^ b - 1) i = Z.testbit (2 * q) (i - b)).
  { replace i with (i - b + b) at 1 by lia. rewrite <- Z.shiftr_spec by lia. f_equal.
    rewrite Z.shiftr_div_pow2 by done. symmetry. apply Z.div_unique with (2 ^ b - 1); lia. }
  rewrite Hm1, Z.mul_pow2_bits by done.
  destruct (Z.eqb_spec i b) as [->|Hne]; cbn [negb andb].
  - rewrite Z.sub_diag, Z.testbit_even_0. apply andb_false_r.
  - replace (i - b) with (Z.succ (i - b - 1)) by lia. rewrite Z.testbit_odd_succ, Z.testbit_even_succ by lia. apply andb_diag.
Qed.

Lemma high_step M k :
  evenbits M → (k < 16)%nat → tag M k = true →
  high M k ≠ 0 ∧ ctz64 (high M k) = 2 * Z.of_nat k ∧ Z.land (high M k) (high M k - 1) = high M (S k).
Proof.
  intros HM Hk Ht.
  assert (Hb : Z.testbit (high M k) (2 * Z.of_nat k) = true).
  { rewrite high_bit by lia. rewrite (proj2 (Z.leb_le _ _)) by lia. done. }
  assert (Hlow : ∀ i, 0 ≤ i < 2 * Z.of_nat k → Z.testbit (high M k) i = false).
  { intros i Hi. rewrite high_bit by lia. by rewrite (proj2 (Z.leb_gt _ _)) by lia. }
  split; [|split].
  - intros E. rewrite E, Z.bits_0 in Hb. done.
  - apply ctz_from_spec; [lia|lia|done|]. intros. apply Hlow. lia.
  - apply Z.bits_inj'. intros i Hi. rewrite clear_low with (b := 2 * Z.of_nat k) by (done || lia).
    rewrite !high_bit by done. destruct (Z.eqb_spec i (2 * Z.of_nat k)) as [->|Hne]; cbn [negb andb].
    + by rewrite (proj2 (Z.leb_gt _ _)) by lia.
    + destruct (Z.testbit M i) eqn:E; [|by rewrite !andb_false_r].
      destruct (HM i Hi E) as (j & Hj & ->). rewrite !andb_true_r.
      destruct (Z.leb_spec (2 * Z.of_nat k) (2 * Z.of_nat j)), (Z.leb_spec (2 * Z.of_nat (S k)) (2 * Z.of_nat j)); lia.
Qed.

(** Counting children. *)
Definition count_from (z : Z) (k : nat) : Z := Z.of_nat (length (List.filter (tag z) (seq k (16 - k)))).

Lemma popcount_even z : evenbits z → popcount64 z = count_from z 0.
Proof.
  intros Hz. assert (Hodd : ∀ i, 0 ≤ i → (∀ k : nat, (k < 16)%nat → i ≠ 2 * Z.of_nat k) → Z.testbit z i = false).
  { intros i Hi Hn. destruct (Z.testbit z i) eqn:E; [|done]. destruct (Hz i Hi E) as (k & Hk & ->). by destruct (Hn k Hk). }
  assert (Hlow : ∀ k, (k ≤ 16)%nat → popcount_upto (2 * k) z = Z.of_nat (length (List.filter (tag z) (seq 0 k)))).
  { induction k as [|k IH]; intros Hk; [done|]. replace (2 * S k)%nat with (S (S (2 * k))) by lia. cbn [popcount_upto].
    rewrite IH by lia. rewrite (Hodd (Z.of_nat (S (2 * k)))) by (lia || (intros; lia)).
    rewrite seq_S, List.filter_app, length_app. cbn [List.filter Nat.add]. unfold tag at 3.
    replace (2 * Z.of_nat k) with (Z.of_nat (2 * k)) by lia.
    destruct (Z.testbit z (Z.of_nat (2 * k))); cbn [Z.b2z length]; lia. }
  assert (Hhigh : ∀ k, popcount_upto (k + 32) z = popcount_upto 32 z).
  { induction k as [|k IH]; [done|]. cbn [Nat.add popcount_upto]. rewrite IH, Hodd by (lia || (intros; lia)). cbn. lia. }
  unfold popcount64. change 64%nat with (32 + 32)%nat. rewrite Hhigh. apply (Hlow 16%nat). lia.
Qed.
Lemma count_step z k : (k < 16)%nat → count_from z k = Z.b2z (tag z k) + count_from z (S k).
Proof.
  intros Hk. unfold count_from. replace (16 - k)%nat with (S (16 - S k)) by lia. cbn [seq List.filter].
  destruct (tag z k); cbn [Z.b2z length]; lia.
Qed.
Lemma count_pos z k : 0 ≤ count_from z k.
Proof. unfold count_from. lia. Qed.
Lemma count_end z : count_from z 16 = 0.
Proof. done. Qed.
Lemma count_high lo M k :
  (k ≤ 16)%nat → (∀ j, (j < 16)%nat → tag lo j = true → tag M j = true) →
  count_from (Z.land lo (high M k)) 0 = count_from lo k.
Proof.
  intros Hk Hs. unfold count_from. do 2 f_equal. replace (16 - 0)%nat with (k + (16 - k))%nat by lia.
  rewrite seq_app, List.filter_app, Nat.add_0_l.
  assert (Hnone : List.filter (tag (Z.land lo (high M k))) (seq 0 k) = []).
  { enough (H : ∀ l, (∀ j, j ∈ l → (j < k)%nat) → List.filter (tag (Z.land lo (high M k))) l = []).
    - apply H. intros j Hj. apply elem_of_seq in Hj. lia.
    - intros l. induction l as [|j l IH]; intros Hl; [done|]. cbn [List.filter].
      rewrite tag_land, tag_high.
      rewrite (proj2 (Nat.leb_gt k j)) by (apply Hl; by left). cbn [andb]. rewrite andb_false_r.
      apply IH. intros. apply Hl. by right. }
  rewrite Hnone. cbn [app]. apply List.filter_ext_in. intros j Hj%in_seq. rewrite tag_land, tag_high.
  rewrite (proj2 (Nat.leb_le k j)) by lia. cbn [andb]. destruct (tag lo j) eqn:E; [|done]. by rewrite Hs by (done || lia).
Qed.

End RootTags.
