(* ===== verification/RootShape.v ===== *)
(** How the node arrays of src/state_root.cpp represent a witness tree.  A ghost
    map gives each array slot and each table row the tree it stands for and the
    nibbles that lead to it; each slot is related to its neighbours only, so the
    relation survives appends, and what a cached result has to satisfy is a
    parameter. *)

From stdpp Require Import base numbers list strings gmap.
From S2P Require Import Prelude Rlp Writer Contracts TriePath Mpt Accounts Storages StateRoot RootSpec RootEncode RootTags.

Set Default Goal Selector "!".

Module RootShape.
Import Rlp Stream TriePath Node StateRoot RootSpec RootEncode RootTags.

Record entry := mkEntry { e_kind : tkind; e_walk : list Z; e_tree : tree lf }.
Record ghost := mkGhost {
  g_branch : gmap nat entry;
  g_chain : gmap nat entry;
  g_account : gmap nat entry;
  g_slot : gmap nat entry }.
Definition ghost0 : ghost := mkGhost ∅ ∅ ∅ ∅.

Record grows (G G' : ghost) : Prop := {
  gr_branch : g_branch G ⊆ g_branch G';
  gr_chain : g_chain G ⊆ g_chain G';
  gr_account : g_account G ⊆ g_account G';
  gr_slot : g_slot G ⊆ g_slot G' }.

#[export] Instance grows_preorder : PreOrder grows.
Proof.
  split.
  - by split.
  - intros G1 G2 G3 [] []. split; (etrans; [eassumption|eassumption]).
Qed.

(** Appending to the arrays and tables. *)
Record ext (n n' : Nodes) : Prop := {
  ex_branch : branch_nodes n `prefix_of` branch_nodes n';
  ex_aux : aux n `prefix_of` aux n';
  ex_chain : chains n `prefix_of` chains n';
  ex_account : Accounts.rows (accounts n) `prefix_of` Accounts.rows (accounts n');
  ex_slot : Storages.rows (storages n) `prefix_of` Storages.rows (storages n');
  ex_stream : stream n = stream n' }.

#[export] Instance ext_preorder : PreOrder ext.
Proof.
  split.
  - by split.
  - intros n1 n2 n3 [] []. split; (etrans; [eassumption|eassumption]).
Qed.

(** The child [c], reached by [w], stands for [t]. *)
Definition at_node (n : Nodes) (G : ghost) (k : tkind) (w : list Z) (c : Child) (t : tree lf) : Prop :=
  let i := Z.to_nat (child_idx c) in
  match child_type c with
  | NT_Empty => t = TEmpty
  | NT_Hash => ∃ h, aux n !! i = Some (HashR h) ∧ t = THash h
  | NT_PoolHash => ∃ hb, pool_hash (stream n) (child_idx c) = Ok hb ∧ t = THash (be_val hb)
  | NT_ExtensionHash => ∃ p h, aux n !! i = Some (ExtR p h) ∧ path_wf p ∧ t = TExt (pnibbles p) h
  | NT_PhantomLeaf => ∃ p v, aux n !! i = Some (PhantomLeafR p v) ∧ path_wf p ∧ t = TPhantom (pnibbles p) v
  | NT_Branch => g_branch G !! i = Some (mkEntry k w t)
  | NT_Chain => g_chain G !! i = Some (mkEntry k w t)
  | NT_Account => g_account G !! i = Some (mkEntry k w t)
  | NT_Storage => g_slot G !! i = Some (mkEntry k w t)
  end.

Lemma at_mono n n' G G' k w c t : ext n n' → grows G G' → at_node n G k w c t → at_node n' G' k w c t.
Proof.
  intros [] []. unfold at_node. destruct (child_type c); try done; try (intros; by eapply lookup_weaken).
  - intros (h & E & ->). exists h. split; [by eapply prefix_lookup_Some|done].
  - intros (p & h & E & Hp & ->). exists p, h. split; [by eapply prefix_lookup_Some|done].
  - intros (p & v & E & Hp & ->). exists p, v. split; [by eapply prefix_lookup_Some|done].
  - intros (hb & E & ->). exists hb. by rewrite <- ex_stream0.
Qed.

(** Bit [2k] tags a pooled hash, bit [2k + 1] a node of its own. *)
Definition tags_ok (tags : Z) (cs : list Child) : Prop :=
  ∀ j c, cs !! j = Some c →
    match tag tags j, tag (Z.shiftr tags 1) j with
    | true, _ => child_type c = NT_PoolHash
    | false, false => child_type c = NT_Empty
    | false, true => child_type c ≠ NT_PoolHash
    end.

Section Shape.
Context (keccak256 : bytes → Z).
(** What a cached result satisfies. *)
Context (Q : Nodes → NodeR → list Z → tree lf → Prop).
Context (Q_mono : ∀ n n' r w t, ext n n' → Q n r w t → Q n' r w t).

Definition branch_ok (n : Nodes) (G : ghost) (i : nat) (k : tkind) (w : list Z) (t : tree lf) : Prop :=
  ∃ bn kids, branch_nodes n !! i = Some bn ∧ t = TBranch kids ∧ length (children bn) = 16%nat ∧
    (∀ j c, children bn !! j = Some c → ∃ t', kids !! j = Some t' ∧ at_node n G k (w ++ [Z.of_nat j]) c t') ∧
    tags_ok (tags bn) (children bn) ∧ Q n (b_cached bn) w t.

Definition chain_shape (n : Nodes) (G : ghost) (ch : ChainNode) (k : tkind) (w : list Z) (t : tree lf) : Prop :=
  ∃ t0, path_wf (prefix ch) ∧ pnibbles (prefix ch) ≠ [] ∧ t = nest (pnibbles (prefix ch)) t0 ∧
    child_type (ch_child ch) ≠ NT_Chain ∧
    at_node n G k (w ++ pnibbles (prefix ch)) (ch_child ch) t0 ∧ Q n (ch_cached ch) w t.
Definition chain_ok (n : Nodes) (G : ghost) (i : nat) (k : tkind) (w : list Z) (t : tree lf) : Prop :=
  ∃ ch, chains n !! i = Some ch ∧ chain_shape n G ch k w t.

Definition account_ok (n : Nodes) (G : ghost) (i : nat) (k : tkind) (w : list Z) (t : tree lf) : Prop :=
  ∃ row st, Accounts.rows (accounts n) !! i = Some row ∧
    let r := Accounts.record row in
    let addr := Accounts.view_address r in
    t = TKey (LAccount i addr (Accounts.view_nonce r) (Accounts.view_balance r) (Accounts.view_code_hash r) st) ∧
    Accounts.addr_hash (Accounts.leaf row) = keccak256 (be_bytes 20 addr) ∧
    at_node n G (InStorage addr) [] (Accounts.storage_root (Accounts.leaf row)) st ∧
    child_type (Accounts.storage_root (Accounts.leaf row)) ≠ NT_PoolHash ∧
    Q n (Accounts.cached (Accounts.leaf row)) w t.

Definition slot_ok (n : Nodes) (i : nat) (k : tkind) (w : list Z) (t : tree lf) : Prop :=
  ∃ row, Storages.rows (storages n) !! i = Some row ∧
    let r := Storages.record row in
    t = TKey (LStorage i (Storages.view_address r) (Storages.view_position r) (Storages.view_value r)) ∧
    Storages.pos_hash (Storages.leaf row) = keccak256 (be_bytes 32 (Storages.view_position r)) ∧
    Q n (Storages.cached (Storages.leaf row)) w t.

Definition entry_wf (e : entry) : Prop := wf keccak256 (e_kind e) (e_walk e) (e_tree e).
Definition on_entry (P : tkind → list Z → tree lf → Prop) (e : entry) : Prop :=
  entry_wf e ∧ P (e_kind e) (e_walk e) (e_tree e).

Record ginv (n : Nodes) (G : ghost) : Prop := {
  gi_branch : map_Forall (λ i, on_entry (branch_ok n G i)) (g_branch G);
  gi_chain : map_Forall (λ i, on_entry (chain_ok n G i)) (g_chain G);
  gi_account : map_Forall (λ i, on_entry (account_ok n G i)) (g_account G);
  gi_slot : map_Forall (λ i, on_entry (slot_ok n i)) (g_slot G) }.

Lemma branch_mono n n' G G' i k w t : ext n n' → grows G G' → branch_ok n G i k w t → branch_ok n' G' i k w t.
Proof.
  intros Hn HG (bn & kids & E & -> & Hl & Hk & Ht & HQ). exists bn, kids.
  split_and!; [eapply prefix_lookup_Some; [exact E|apply Hn]|done|done| |done|by eapply Q_mono].
  intros j c Hc. destruct (Hk j c Hc) as (t' & Ht' & Ha). exists t'. split; [done|by eapply at_mono].
Qed.
Lemma chain_shape_mono n n' G G' ch k w t : ext n n' → grows G G' → chain_shape n G ch k w t → chain_shape n' G' ch k w t.
Proof.
  intros Hn HG (t0 & Hp & Hne & -> & Hc & Ha & HQ). exists t0.
  split_and!; [done|done|done|done|by eapply at_mono|by eapply Q_mono].
Qed.
Lemma chain_mono n n' G G' i k w t : ext n n' → grows G G' → chain_ok n G i k w t → chain_ok n' G' i k w t.
Proof.
  intros Hn HG (ch & E & Hs). exists ch. split; [eapply prefix_lookup_Some; [exact E|apply Hn]|by eapply chain_shape_mono].
Qed.
Lemma account_mono n n' G G' i k w t : ext n n' → grows G G' → account_ok n G i k w t → account_ok n' G' i k w t.
Proof.
  intros Hn HG (row & st & E & -> & Hh & Ha & Hp & HQ). exists row, st. cbv zeta in *.
  split_and!; [eapply prefix_lookup_Some; [exact E|apply Hn]|done|done|by eapply at_mono|done|by eapply Q_mono].
Qed.
Lemma slot_mono n n' i k w t : ext n n' → slot_ok n i k w t → slot_ok n' i k w t.
Proof.
  intros Hn (row & E & -> & Hh & HQ). exists row. cbv zeta in *.
  split_and!; [eapply prefix_lookup_Some; [exact E|apply Hn]|done|done|by eapply Q_mono].
Qed.

(** Growing the arrays keeps what is there; a new slot is added with its tree. *)
Definition with_branch (i : nat) (e : entry) (G : ghost) : ghost :=
  mkGhost (<[i := e]> (g_branch G)) (g_chain G) (g_account G) (g_slot G).
Definition with_chain (i : nat) (e : entry) (G : ghost) : ghost :=
  mkGhost (g_branch G) (<[i := e]> (g_chain G)) (g_account G) (g_slot G).
Definition with_account (i : nat) (e : entry) (G : ghost) : ghost :=
  mkGhost (g_branch G) (g_chain G) (<[i := e]> (g_account G)) (g_slot G).
Definition with_slot (i : nat) (e : entry) (G : ghost) : ghost :=
  mkGhost (g_branch G) (g_chain G) (g_account G) (<[i := e]> (g_slot G)).

Lemma map_Forall_grow {P P' : nat → entry → Prop} (m : gmap nat entry) :
  (∀ i e, P i e → P' i e) → map_Forall P m → map_Forall P' m.
Proof. intros H Hm i e E. apply H, Hm, E. Qed.
Lemma on_entry_impl (P P' : tkind → list Z → tree lf → Prop) e :
  (∀ k w t, P k w t → P' k w t) → on_entry P e → on_entry P' e.
Proof. intros H [? ?]. split; auto. Qed.

Lemma ginv_carry n n' G G' : ext n n' → grows G G' → ginv n G →
  map_Forall (λ i, on_entry (branch_ok n' G' i)) (g_branch G) ∧
  map_Forall (λ i, on_entry (chain_ok n' G' i)) (g_chain G) ∧
  map_Forall (λ i, on_entry (account_ok n' G' i)) (g_account G) ∧
  map_Forall (λ i, on_entry (slot_ok n' i)) (g_slot G).
Proof.
  intros Hn HG [Hb Hc Ha Hs].
  split_and!; (eapply map_Forall_grow; [|eassumption]); cbn beta; intros i e; apply on_entry_impl; intros k w t.
  - by apply branch_mono.
  - by apply chain_mono.
  - by apply account_mono.
  - by apply slot_mono.
Qed.
Lemma ginv_ext n n' G : ext n n' → ginv n G → ginv n' G.
Proof. intros Hn HG. destruct (ginv_carry n n' G G Hn ltac:(done) HG) as (? & ? & ? & ?). by split. Qed.

Lemma ginv_branch n n' G i k w t :
  g_branch G !! i = None → ext n n' → ginv n G → wf keccak256 k w t →
  branch_ok n' (with_branch i (mkEntry k w t) G) i k w t →
  ginv n' (with_branch i (mkEntry k w t) G) ∧ grows G (with_branch i (mkEntry k w t) G).
Proof.
  intros Hi Hn HG Hw Hb. assert (Hg : grows G (with_branch i (mkEntry k w t) G)) by (split; cbn; [by apply insert_subseteq|done..]).
  destruct (ginv_carry n n' G _ Hn Hg HG) as (? & ? & ? & ?). split; [|done]. split; [|done..].
  cbn. apply map_Forall_insert_2; [by split|done].
Qed.
Lemma ginv_chain n n' G i k w t :
  g_chain G !! i = None → ext n n' → ginv n G → wf keccak256 k w t →
  chain_ok n' (with_chain i (mkEntry k w t) G) i k w t →
  ginv n' (with_chain i (mkEntry k w t) G) ∧ grows G (with_chain i (mkEntry k w t) G).
Proof.
  intros Hi Hn HG Hw Hb. assert (Hg : grows G (with_chain i (mkEntry k w t) G)) by (split; cbn; [done|by apply insert_subseteq|done..]).
  destruct (ginv_carry n n' G _ Hn Hg HG) as (? & ? & ? & ?). split; [|done]. split; [done| |done..].
  cbn. apply map_Forall_insert_2; [by split|done].
Qed.
Lemma ginv_account n n' G i k w t :
  g_account G !! i = None → ext n n' → ginv n G → wf keccak256 k w t →
  account_ok n' (with_account i (mkEntry k w t) G) i k w t →
  ginv n' (with_account i (mkEntry k w t) G) ∧ grows G (with_account i (mkEntry k w t) G).
Proof.
  intros Hi Hn HG Hw Hb. assert (Hg : grows G (with_account i (mkEntry k w t) G)) by (split; cbn; [done|done|by apply insert_subseteq|done]).
  destruct (ginv_carry n n' G _ Hn Hg HG) as (? & ? & ? & ?). split; [|done]. split; [done|done| |done].
  cbn. apply map_Forall_insert_2; [by split|done].
Qed.
Lemma ginv_slot n n' G i k w t :
  g_slot G !! i = None → ext n n' → ginv n G → wf keccak256 k w t → slot_ok n' i k w t →
  ginv n' (with_slot i (mkEntry k w t) G) ∧ grows G (with_slot i (mkEntry k w t) G).
Proof.
  intros Hi Hn HG Hw Hb. assert (Hg : grows G (with_slot i (mkEntry k w t) G)) by (split; cbn; [done|done|done|by apply insert_subseteq]).
  destruct (ginv_carry n n' G _ Hn Hg HG) as (? & ? & ? & ?). split; [|done]. split; [done|done|done|].
  cbn. apply map_Forall_insert_2; [by split|done].
Qed.

(** Slots past the end have no tree. *)
Lemma fresh_branch n G i : ginv n G → (length (branch_nodes n) ≤ i)%nat → g_branch G !! i = None.
Proof.
  intros HG Hi. destruct (g_branch G !! i) as [e|] eqn:E; [|done]. apply (gi_branch _ _ HG) in E as [_ (bn & ? & E & _)].
  apply lookup_lt_Some in E. lia.
Qed.
Lemma fresh_chain n G i : ginv n G → (length (chains n) ≤ i)%nat → g_chain G !! i = None.
Proof.
  intros HG Hi. destruct (g_chain G !! i) as [e|] eqn:E; [|done]. apply (gi_chain _ _ HG) in E as [_ (ch & E & _)].
  apply lookup_lt_Some in E. lia.
Qed.
Lemma fresh_account n G i : ginv n G → (length (Accounts.rows (accounts n)) ≤ i)%nat → g_account G !! i = None.
Proof.
  intros HG Hi. destruct (g_account G !! i) as [e|] eqn:E; [|done]. apply (gi_account _ _ HG) in E as [_ (row & ? & E & _)].
  apply lookup_lt_Some in E. lia.
Qed.
Lemma fresh_slot n G i : ginv n G → (length (Storages.rows (storages n)) ≤ i)%nat → g_slot G !! i = None.
Proof.
  intros HG Hi. destruct (g_slot G !! i) as [e|] eqn:E; [|done]. apply (gi_slot _ _ HG) in E as [_ (row & E & _)].
  apply lookup_lt_Some in E. lia.
Qed.
End Shape.
End RootShape.
