(* ===== verification/RootBuild.v ===== *)
(** The build walk of src/state_root.cpp.  Whatever stream it accepts, the arrays
    and tables it leaves represent one well-formed witness tree, and every cached
    result denotes what the block-start values of its tree reduce to. *)

From stdpp Require Import base numbers list strings gmap.
From S2P Require Import Prelude Rlp Writer Contracts TriePath Mpt Accounts Storages StateRoot RootSpec RootEncode RootTags RootShape.

Set Default Goal Selector "!".

Module RootBuild.
Import Rlp Stream TriePath Node StateRoot RootSpec RootEncode RootTags RootShape.

(** ** The cursor moves in whole words *)

Definition adv (c c' : cursor) : Prop := ∃ j, c' = drop (8 * j) c ∧ (8 * j ≤ length c)%nat.

#[export] Instance adv_preorder : PreOrder adv.
Proof.
  split.
  - intros c. exists 0%nat. split; [by rewrite drop_0|lia].
  - intros a b c (i & -> & Hi) (j & -> & Hj). exists (i + j)%nat. rewrite length_drop in Hj.
    rewrite drop_drop. split; [f_equal; lia|lia].
Qed.
Lemma adv_len c c' : adv c c' → len c' ≤ len c.
Proof. intros (j & -> & Hj). unfold len. rewrite length_drop. lia. Qed.
Lemma adv_words n c : (8 * n ≤ length c)%nat → adv c (drop (8 * n) c).
Proof. by exists n. Qed.

Lemma read_u64_adv c v c' : read_u64_le c = Ok (v, c') → adv c c' ∧ len c = len c' + 8 ∧ in_u64 v.
Proof.
  unfold read_u64_le, stream_remaining. intros H. apply bind_Ok in H as (? & Hl%fatal_if_Ok & H).
  apply Ok_inj in H. injection H as <- <-. apply Z.ltb_ge in Hl. unfold len in *.
  split; [apply (adv_words 1); lia|]. rewrite length_drop. split; [lia|].
  pose proof (le_val_bound (take 8 c)) as Hb. rewrite length_take in Hb. replace (8 `min` length c)%nat with 8%nat in Hb by lia.
  exact Hb.
Qed.
Lemma read_field_adv k n pad c b c' :
  (n + pad = 8 * k)%nat → read_field n pad c = Ok (b, c') → adv c c' ∧ length b = n.
Proof.
  unfold read_field, require_bytes, stream_remaining. intros Hk H. apply bind_Ok in H as (? & Hl%fatal_if_Ok & H).
  apply Ok_inj in H. injection H as <- <-. apply Z.ltb_ge in Hl. unfold len in *. rewrite Hk.
  split; [apply adv_words; lia|]. rewrite length_take. lia.
Qed.
Lemma advance_adv n c c' : 0 ≤ n → n mod 8 = 0 → advance_checked n c = Ok c' → adv c c'.
Proof.
  unfold advance_checked, stream_remaining. intros Hn Hm H. apply bind_Ok in H as (? & Hl%fatal_if_Ok & H).
  apply Ok_inj in H. subst c'. apply Z.ltb_ge in Hl. unfold len in *.
  exists (Z.to_nat (n / 8)). replace (8 * Z.to_nat (n / 8))%nat with (Z.to_nat n); [split; [done|lia]|].
  pose proof (Z.div_mod n 8 ltac:(lia)). lia.
Qed.

(** A storage trie adds no account rows. *)
Definition gk (kd : TreeKind) (G G' : ghost) : Prop :=
  grows G G' ∧ (kd = Storage → g_account G' = g_account G).
#[export] Instance gk_preorder kd : PreOrder (gk kd).
Proof.
  split.
  - by split.
  - intros a b c [H1 E1] [H2 E2]. split; [by etrans|]. intros Hk. rewrite E2, E1 by done. done.
Qed.

Section Build.
Context (keccak256 : bytes → Z) (garbage : nat → bytes).
Context (garbage_len : ∀ n, length (garbage n) = n) (keccak_range : ∀ b, in_u256 (keccak256 b)).

Lemma read_nibbles_spec c p c' :
  read_nibbles garbage c = Ok (p, c') → adv c c' ∧ path_wf p ∧ off p = 0 ∧ 0 ≤ plen p ≤ 64.
Proof.
  unfold read_nibbles. intros H. apply bind_Ok in H as ([n c1] & H1 & H). apply read_u64_adv in H1 as (A1 & _ & Hn).
  apply bind_Ok in H as (? & Hle%fatal_if_Ok & H). unfold kMaxNibbles in Hle. apply Z.ltb_ge in Hle.
  unfold in_u64 in Hn. apply bind_Ok in H as (? & Hr & H). unfold require_bytes, stream_remaining in Hr.
  apply fatal_if_Ok, Z.ltb_ge in Hr. apply bind_Ok in H as (q & Ea & H).
  destruct (assign_nibbles (path_new (garbage 34)) c1 0 n) as (q' & Ea' & Hw & Hpl & Ho & _);
    [apply garbage_len|lia|lia|unfold len in Hr; rewrite Z.add_0_l; lia|].
  rewrite Ea' in Ea. apply Ok_inj in Ea. subst q'. apply bind_Ok in H as (c2 & H2 & H). apply Ok_inj in H. injection H as <- <-.
  split; [|split_and!; [done|done|lia|lia]]. etrans; [exact A1|]. eapply advance_adv; [| |exact H2].
  - assert (0 ≤ ((n + 1) / 2 + 7) / 8) by (apply Z.div_pos; [|lia]; pose proof (Z.div_pos (n + 1) 2); lia). lia.
  - apply Z.mod_mul. lia.
Qed.

(** ** Block-start results *)

Definition cached_old (n : Nodes) (r : NodeR) (w : list Z) (t : tree lf) : Prop :=
  den (accounts n) (storages n) Original r (w_old keccak256 (length w) t).

Lemma den_ext_mono n n' r ρ :
  ext n n' → den (accounts n) (storages n) Original r ρ → den (accounts n') (storages n') Original r ρ.
Proof.
  intros Hn Hd. destruct Hd as [|h|p h Hp ?|p i sr m b c Hp ? ? Hf|p i v Hp ? Hf|p v Hp ?]; try by constructor.
  - constructor; [done|done|done|]. revert Hf. unfold acct_fields, pick, Accounts.nonce_orig_at, Accounts.balance_orig_at,
      Accounts.code_hash_orig_at, Accounts.row_at, vec_get.
    destruct (Accounts.rows (accounts n) !! i) as [row|] eqn:E; [|done].
    by rewrite (prefix_lookup_Some _ _ _ _ E (ex_account _ _ Hn)).
  - constructor; [done|done|]. revert Hf. unfold pick, Storages.value_orig_at, Storages.row_at, vec_get.
    destruct (Storages.rows (storages n) !! i) as [row|] eqn:E; [|done].
    by rewrite (prefix_lookup_Some _ _ _ _ E (ex_slot _ _ Hn)).
Qed.
Lemma cached_old_mono n n' r w t : ext n n' → cached_old n r w t → cached_old n' r w t.
Proof. intros. by eapply den_ext_mono. Qed.

Abbreviation binv := (ginv keccak256 cached_old).

Lemma at_old n G k w c t :
  binv n G → at_node n G k w c t → wf keccak256 k w t → child_den n Original c (w_old keccak256 (length w) t).
Proof.
  intros HG Ha Hw. unfold at_node in Ha. unfold child_den, child_result, result_ptr.
  destruct (child_type c) eqn:Et.
  - subst t. eexists. split; [done|constructor].
  - apply (gi_branch _ _ _ _ HG) in Ha as [_ (bn & kids & E & _ & _ & _ & _ & HQ)]. exists (b_cached bn).
    unfold vec_get. by rewrite E.
  - apply (gi_account _ _ _ _ HG) in Ha as [_ (row & st & E & _ & _ & _ & _ & HQ)]. exists (Accounts.cached (Accounts.leaf row)).
    unfold Accounts.cached_at, Accounts.row_at, vec_get. by rewrite E.
  - apply (gi_slot _ _ _ _ HG) in Ha as [_ (row & E & _ & _ & HQ)]. exists (Storages.cached (Storages.leaf row)).
    unfold Storages.cached_at, Storages.row_at, vec_get. by rewrite E.
  - destruct Ha as (h & E & ->). inversion Hw; subst. exists (HashR h). unfold vec_get. rewrite E. split; [done|by constructor].
  - destruct Ha as (p & h & E & Hp & ->). inversion Hw; subst. exists (ExtR p h). unfold vec_get. rewrite E. split; [done|by constructor].
  - destruct Ha as (p & v & E & Hp & ->). inversion Hw; subst. exists (PhantomLeafR p v). unfold vec_get. rewrite E. split; [done|by constructor].
  - destruct Ha as (hb & E & ->). rewrite E. inversion Hw; subst. exists (HashR (be_val hb)). split; [done|by constructor].
  - apply (gi_chain _ _ _ _ HG) in Ha as [_ (ch & E & (t0 & _ & _ & _ & _ & _ & HQ))]. exists (ch_cached ch).
    unfold vec_get. by rewrite E.
Qed.

(** ** The counters *)

Record cinv (x : BuildCtx) (c : cursor) : Prop := {
  ci_aux : aux_n x = Z.of_nat (length (aux (nodes x)));
  ci_branch : branch_n x = Z.of_nat (length (branch_nodes (nodes x)));
  ci_chain : chain_n x = Z.of_nat (length (chains (nodes x)));
  ci_account : next_state_idx x = length (Accounts.rows (accounts (nodes x)));
  ci_slot : next_storage_idx x = length (Storages.rows (storages (nodes x)));
  ci_pool : 0 ≤ pool_n x;
  ci_limit : total_n x ≤ node_limit x < 2 ^ 32;
  ci_adv : adv (stream (nodes x)) c;
  ci_stream : len (stream (nodes x)) / 8 < 2 ^ 32;
  ci_rows : 8 * Z.of_nat (next_state_idx x) + 8 * Z.of_nat (next_storage_idx x) + len c ≤ len (stream (nodes x)) }.

Lemma cinv_adv x c c' : cinv x c → adv c c' → cinv x c'.
Proof. intros [] Ha. pose proof (adv_len _ _ Ha). split; try done; [by etrans|lia]. Qed.

Lemma u32_small z : 0 ≤ z < 2 ^ 32 → u32 z = z.
Proof. apply Z.mod_small. Qed.

(** The rows added by a call are the leaves of its tree. *)
Definition covers (n n' : Nodes) (t : tree lf) : Prop :=
  (∀ i, (length (Accounts.rows (accounts n)) ≤ i < length (Accounts.rows (accounts n')))%nat → i ∈ ids lf_accts t) ∧
  (∀ i, (length (Storages.rows (storages n)) ≤ i < length (Storages.rows (storages n')))%nat → i ∈ ids lf_slots t).

Lemma covers_same n n' t : accounts n' = accounts n → storages n' = storages n → covers n n' t.
Proof. intros Ha Hs. split; intros i; [rewrite Ha|rewrite Hs]; lia. Qed.
Lemma ids_branch (f : lf → list nat) (kids : list (tree lf)) i : i ∈ ids f (TBranch kids) ↔ ∃ j t, kids !! j = Some t ∧ i ∈ ids f t.
Proof.
  change (ids f (TBranch kids)) with (concat (map (ids f) kids)). rewrite list_elem_of_In, in_concat. split.
  - intros (x & Hx%in_map_iff & Hl). destruct Hx as (t & <- & Ht). apply list_elem_of_In, list_elem_of_lookup in Ht as [j Hj].
    exists j, t. split; [done|by apply list_elem_of_In].
  - intros (j & t & Hj & Hl). exists (ids f t). split; [|by apply list_elem_of_In]. apply in_map. by eapply list_elem_of_In, list_elem_of_lookup_2.
Qed.
Lemma covers_set n0 n n' u ts t :
  covers n0 n (TBranch ts) → covers n n' t → ts !! u = Some TEmpty → covers n0 n' (TBranch (<[u := t]> ts)).
Proof.
  intros [Ha Hs] [Ha' Hs'] Hu. pose proof (lookup_lt_Some _ _ _ Hu) as Hlt.
  assert (Hold : ∀ f i, i ∈ ids f (TBranch ts) → i ∈ ids f (TBranch (<[u := t]> ts))).
  { intros f i (j & t' & Hj & Hi)%ids_branch. apply ids_branch. destruct (decide (j = u)) as [->|].
    - rewrite Hu in Hj. injection Hj as <-. by apply not_elem_of_nil in Hi.
    - exists j, t'. by rewrite list_lookup_insert_ne. }
  assert (Hnew : ∀ f i, i ∈ ids f t → i ∈ ids f (TBranch (<[u := t]> ts))).
  { intros f i Hi. apply ids_branch. exists u, t. by rewrite list_lookup_insert_eq. }
  split; intros i Hi.
  - destruct (decide (i < length (Accounts.rows (accounts n)))%nat); [apply Hold, Ha; lia|apply Hnew, Ha'; lia].
  - destruct (decide (i < length (Storages.rows (storages n)))%nat); [apply Hold, Hs; lia|apply Hnew, Hs'; lia].
Qed.
Lemma covers_single n n' j t : 0 ≤ j < 16 → covers n n' t → covers n n' (single j t).
Proof.
  intros Hj H. apply (covers_set n n); [by apply covers_same|done|]. apply lookup_replicate_2. lia.
Qed.
Lemma covers_rows n n' n1 n1' t :
  accounts n' = accounts n → storages n' = storages n → accounts n1' = accounts n1 → storages n1' = storages n1 →
  covers n n1 t → covers n' n1' t.
Proof. unfold covers. by intros -> -> -> ->. Qed.

(** What a call returns: the child, sealed in the ghost maps, or a chain that
    still may grow and is therefore not recorded yet. *)
Inductive built (n0 n : Nodes) (G : ghost) (k : tkind) (w : list Z) (c : Child) (t : tree lf) : Prop :=
| built_node : covers n0 n t → child_type c ≠ NT_Chain → ext n0 n → binv n G → at_node n G k w c t → built n0 n G k w c t
| built_chain l ch :
    covers n0 n t → child_type c = NT_Chain → chains n = l ++ [ch] → child_idx c = Z.of_nat (length l) →
    ext n0 (set_chains l n) → binv (set_chains l n) G → chain_shape cached_old (set_chains l n) G ch k w t →
    built n0 n G k w c t.

Lemma set_chains_ext l ch n : chains n = l ++ [ch] → ext (set_chains l n) n.
Proof. intros E. split; try done. cbn. rewrite E. by apply prefix_app_r. Qed.
Lemma built_ext n0 n G k w c t : built n0 n G k w c t → ext n0 n.
Proof. intros [|]; [done|]. etrans; [eassumption|by eapply set_chains_ext]. Qed.

Lemma built_covers n0 n G k w c t : built n0 n G k w c t → covers n0 n t.
Proof. by intros [|]. Qed.

Lemma seal kd n0 n G k w c t :
  built n0 n G k w c t → wf keccak256 k w t → ∃ G', gk kd G G' ∧ binv n G' ∧ at_node n G' k w c t.
Proof.
  intros [_ Hc Hn HG Ha|l ch _ Hc El Hi Hn HG Hs] Hw; [by exists G|].
  pose proof (set_chains_ext _ _ _ El) as He.
  assert (Hf : g_chain G !! length l = None) by (apply (fresh_chain _ _ _ _ _ HG); done).
  set (e := mkEntry k w t).
  destruct (ginv_chain keccak256 cached_old cached_old_mono (set_chains l n) n G (length l) k w t Hf He HG Hw) as [HG' Hg].
  { exists ch. split; [rewrite El; by rewrite lookup_app_r, Nat.sub_diag by lia|].
    eapply chain_shape_mono; [exact cached_old_mono|exact He| |exact Hs].
    split; cbn; [done|by apply insert_subseteq|done|done]. }
  exists (with_chain (length l) e G). split_and!; [by split|done|].
  unfold at_node. rewrite Hc, Hi, Nat2Z.id. cbn. apply lookup_insert_eq.
Qed.

(** ** Single-child branches *)

Lemma live_empty k m : live k (replicate m NE) = [].
Proof. revert k. induction m as [|m IH]; intros k; [done|]. cbn. apply IH. Qed.
Lemma live_single k m i r :
  (i < m)%nat → live k (<[i := r]> (replicate m NE)) = if is_NE r then [] else [(k + Z.of_nat i, r)].
Proof.
  revert k i. induction m as [|m IH]; intros k i Hi; [lia|]. destruct i as [|i]; cbn [replicate insert list_insert live].
  - rewrite live_empty, Z.add_0_r. done.
  - cbn [is_NE]. rewrite IH by lia. destruct (is_NE r); [done|]. do 2 f_equal. lia.
Qed.
Lemma reduce_single j r : 0 ≤ j < 16 → reduce keccak256 (<[Z.to_nat j := r]> (replicate 16 NE)) = fold1 j r.
Proof.
  intros Hj. unfold reduce. rewrite live_single by lia. rewrite Z.add_0_l, Z2Nat.id by lia.
  by destruct r.
Qed.
Lemma old_single d j t : 0 ≤ j < 16 → w_old keccak256 d (single j t) = fold1 j (w_old keccak256 (S d) t).
Proof.
  intros Hj. unfold w_old, single. cbn [old]. rewrite <- (reduce_single j) by done. f_equal.
  change (map ?f ?l) with (f <$> l). by rewrite list_fmap_insert, fmap_replicate.
Qed.

Lemma wf_single k w j t : 0 ≤ j < 16 → (length w < 64)%nat → wf keccak256 k (w ++ [j]) t → wf keccak256 k w (single j t).
Proof.
  intros Hj Hl Hw. constructor; [by rewrite length_insert, length_replicate|done|].
  intros i t'. destruct (decide (i = Z.to_nat j)) as [->|Hne].
  - rewrite list_lookup_insert_eq by (rewrite length_replicate; lia). intros [= <-]. by rewrite Z2Nat.id by lia.
  - rewrite list_lookup_insert_ne by done. intros [-> _]%lookup_replicate. constructor.
Qed.

Lemma chains_back n l : set_chains (chains n) (set_chains l n) = n.
Proof. by destruct n. Qed.
Lemma ext_set_chains n l : chains n `prefix_of` l → ext n (set_chains l n).
Proof. by split. Qed.

Lemma build_chain_type only j x ch x' : build_chain garbage only j x = Ok (ch, x') → child_type ch = NT_Chain.
Proof. unfold build_chain. intros H. destruct (child_type only) eqn:E; ok_inv; done. Qed.
(** A chain's child and prefix, and the result of its nibbles over the child. *)
Lemma build_chain_spec n0 x c0 G k w j only t ch x' :
  cinv x c0 → total_n x < node_limit x → 0 ≤ j < 16 → (length w < 64)%nat →
  built n0 (nodes x) G k (w ++ [j]) only t → wf keccak256 k (w ++ [j]) t →
  build_chain garbage only j x = Ok (ch, x') →
  cinv x' c0 ∧ built n0 (nodes x') G k w ch (single j t).
Proof.
  intros Hc Hlim Hj Hw Hb Hwf E. unfold build_chain in E.
  destruct Hb as [Hcov Hnc Hn HG Ha|l chn Hcov Hct El Hi Hn HG Hs].
  - assert (E' : (p ← path_prepend j (path_new (garbage 34)); r ← chain_result garbage (mkChain only p EmptyR) (nodes x);
      Ok (mkChild NT_Chain (u32 (chain_n x)),
          mkCtx (set_chains (chains (nodes x) ++ [mkChain only p r]) (nodes x)) (phantom_values x) (next_state_idx x)
            (next_storage_idx x) (node_limit x) (aux_n x) (branch_n x) (chain_n x + 1) (pool_n x))) = Ok (ch, x')).
    { destruct (child_type only); done. }
    clear E. change (path_prepend j (path_new (garbage 34))) with (one_nibble garbage j) in E'.
    destruct (one_nibble_spec garbage garbage_len j Hj) as (p & Ep & Hp & Hpn). rewrite Ep in E'. cbn [mbind res_bind] in E'.
    apply bind_Ok in E' as (r & Er & E'). apply Ok_inj in E'. injection E' as <- <-.
    pose proof (ci_chain _ _ Hc) as Hcn. pose proof (ci_limit _ _ Hc) as Hl.
    assert (Htot : 0 ≤ chain_n x < 2 ^ 32).
    { pose proof (ci_pool _ _ Hc). pose proof (ci_aux _ _ Hc). pose proof (ci_branch _ _ Hc). unfold total_n in *. lia. }
    split.
    + destruct Hc. split; cbn; try done; [rewrite length_app; cbn; lia|unfold total_n in *; cbn; lia].
    + apply built_chain with (l := chains (nodes x)) (ch := mkChain only p r); cbn [nodes].
      * by apply covers_single.
      * done.
      * done.
      * cbn. rewrite u32_small by done. lia.
      * by rewrite chains_back.
      * by rewrite chains_back.
      * rewrite chains_back. exists t. cbn [prefix ch_child ch_cached]. rewrite Hpn.
        split_and!; [done|done|done|done|done|].
        unfold cached_old. cbn [nest foldr]. rewrite old_single by done.
        rewrite chain_unfold in Er. cbn [ch_child prefix] in Er.
        destruct (at_old _ _ _ _ _ _ HG Ha Hwf) as (rc & Erc & Hd). rewrite Erc in Er. cbn [mbind res_bind] in Er.
        eapply (fold_prefix_sim garbage garbage_len) in Er; [|lia|done|exact Hd].
        rewrite take_pnibbles, Hpn in Er. cbn [fold_all foldr] in Er. rewrite length_app, Nat.add_1_r in Er. exact Er.
  - rewrite Hct, Hi, Nat2Z.id in E. destruct Hs as (t0 & Hp & Hne & -> & Hct0 & Ha & HQ).
    unfold vec_get in E. rewrite El, lookup_app_r, Nat.sub_diag in E by lia. cbn [lookup list_lookup mbind res_bind] in E.
    apply bind_Ok in E as (p & Ep & E). apply bind_Ok in E as (r & Er & E). apply bind_Ok in E as (l' & E' & E).
    apply Ok_inj in E. injection E as <- <-. apply vec_set_Ok in E' as [_ ->].
    rewrite insert_app_r_alt, Nat.sub_diag by lia. cbn [insert list_insert].
    apply prepend_Ok in Ep as [Hp' Hpn]; [|done]. rewrite Z.mod_small in Hpn by lia.
    split.
    + destruct Hc. split; cbn; try done. rewrite ci_chain0, El, !length_app. done.
    + apply built_chain with (l := l) (ch := mkChain (ch_child chn) p r); cbn [nodes set_nodes].
      * by apply covers_single.
      * done.
      * done.
      * done.
      * done.
      * done.
      * exists t0. cbn [prefix ch_child ch_cached]. rewrite Hpn. split_and!; [done|done|done|done| |].
        -- rewrite <- app_assoc in Ha. exact Ha.
        -- unfold cached_old. cbn [nest foldr]. rewrite old_single by done.
           eapply fold_sim; [exact garbage_len| |done|exact Er]. unfold cached_old in HQ.
           rewrite length_app, Nat.add_1_r in HQ. exact HQ.
Qed.

(** ** Nodes without children *)

Lemma aux_emplace_spec r x c i x' :
  aux_emplace r x = Ok (i, x') → cinv x c →
  cinv x' c ∧ ext (nodes x) (nodes x') ∧ i = Z.of_nat (length (aux (nodes x))) ∧ aux (nodes x') !! Z.to_nat i = Some r.
Proof.
  unfold aux_emplace. intros H Hc. apply bind_Ok in H as (? & Hl%fatal_if_Ok & H). apply Z.leb_gt in Hl.
  apply Ok_inj in H. injection H as <- <-. pose proof (ci_limit _ _ Hc) as Hlim. pose proof (ci_aux _ _ Hc) as Ha.
  assert (Htot : 0 ≤ aux_n x < 2 ^ 32).
  { pose proof (ci_pool _ _ Hc). pose proof (ci_chain _ _ Hc). pose proof (ci_branch _ _ Hc). unfold total_n in *. lia. }
  rewrite u32_small by done. split; [|split; [|split]].
  - destruct Hc. split; cbn; try done; [rewrite length_app; cbn; lia|unfold total_n in *; cbn; lia].
  - split; cbn; try done. by apply prefix_app_r.
  - done.
  - cbn. rewrite Ha, Nat2Z.id, lookup_app_r, Nat.sub_diag by lia. done.
Qed.

Definition build_spec (bn : cursor → BuildCtx → TreeKind → WalkPath → option Z → res (Child * cursor * BuildCtx))
     (kd : TreeKind) (ow : option Z) (k : tkind) (w : WalkPath) : Prop :=
  ∀ c x G ch c' x', bn c x kd w ow = Ok (ch, c', x') → cinv x c → binv (nodes x) G →
  ∃ G' t, cinv x' c' ∧ adv c c' ∧ gk kd G G' ∧ wf keccak256 k w t ∧ child_type ch ≠ NT_PoolHash ∧
    built (nodes x) (nodes x') G' k w ch t.

(** An aux node: everything else is carried over. *)
Lemma build_aux kd r x c0 c i x' G k w ty t :
  aux_emplace r x = Ok (i, x') → cinv x c0 → adv c0 c → binv (nodes x) G → ty ≠ NT_Chain → ty ≠ NT_PoolHash → wf keccak256 k w t →
  (∀ n, aux n !! Z.to_nat i = Some r → at_node n G k w (mkChild ty i) t) →
  ∃ G' t, cinv x' c ∧ adv c0 c ∧ gk kd G G' ∧ wf keccak256 k w t ∧ child_type (mkChild ty i) ≠ NT_PoolHash ∧
    built (nodes x) (nodes x') G' k w (mkChild ty i) t.
Proof.
  intros E Hc Ha HG Hty Hpt Hw Hat.
  assert (Hcov : covers (nodes x) (nodes x') t).
  { unfold aux_emplace in E. apply bind_Ok in E as (? & _ & E). apply Ok_inj in E. injection E as _ <-. by apply covers_same. }
  apply (aux_emplace_spec _ _ c0) in E as (Hc' & Hn & -> & Hlk); [|done].
  exists G, t. split_and!; [by eapply cinv_adv|done|done|done|done|].
  apply built_node; [done|done|done|eapply ginv_ext; [apply cached_old_mono|exact Hn|done]|by apply Hat].
Qed.

Lemma be_val_32 b : length b = 32%nat → in_u256 (be_val b).
Proof. intros H. pose proof (be_val_bound b) as Hb. rewrite H in Hb. exact Hb. Qed.

Lemma pnibbles_short p : path_wf p → 0 ≤ plen p ≤ 64 → Forall is_nibble (pnibbles p) ∧ (length (pnibbles p) ≤ 64)%nat.
Proof. intros Hp Hl. split; [by apply pnibbles_range|]. rewrite length_pnibbles. lia. Qed.

Lemma pad_aligned n : 0 ≤ n → (n + pad_of n) mod 8 = 0.
Proof.
  intros Hn. unfold pad_of. change 7 with (Z.ones 3). rewrite !Z.land_ones by lia. change (2 ^ 3) with 8.
  pose proof (Z.mod_pos_bound n 8 ltac:(lia)). pose proof (Z.div_mod n 8 ltac:(lia)).
  destruct (decide (n mod 8 = 0)) as [E|E].
  - rewrite E. change ((8 - 0) mod 8) with 0. rewrite Z.add_0_r. done.
  - rewrite (Z.mod_small (8 - n mod 8)) by lia. replace (n + (8 - n mod 8)) with ((n / 8 + 1) * 8) by lia. apply Z.mod_mul. lia.
Qed.
Lemma advance_two a b c c1 c2 : 0 ≤ a → 0 ≤ b → advance_checked a c = Ok c1 → advance_checked b c1 = Ok c2 → advance_checked (a + b) c = Ok c2.
Proof.
  intros Ha Hb. unfold advance_checked, stream_remaining. intros H1 H2. apply bind_Ok in H1 as (? & L1%fatal_if_Ok & H1).
  apply bind_Ok in H2 as (? & L2%fatal_if_Ok & H2). apply Ok_inj in H1. apply Ok_inj in H2. subst.
  apply Z.ltb_ge in L1, L2. unfold len in *. rewrite length_drop in L2. rewrite (proj2 (Z.ltb_ge _ _)) by lia. cbn [fatal_if mbind res_bind].
  rewrite drop_drop. do 2 f_equal. lia.
Qed.

Lemma phantom_spec kd k w c0 c x G ch c' x' :
  build_phantom_leaf_node garbage c x = Ok (ch, c', x') → cinv x c0 → adv c0 c → binv (nodes x) G →
  ∃ G' t, cinv x' c' ∧ adv c0 c' ∧ gk kd G G' ∧ wf keccak256 k w t ∧ child_type ch ≠ NT_PoolHash ∧
    built (nodes x) (nodes x') G' k w ch t.
Proof.
  unfold build_phantom_leaf_node. intros H Hc Ha HG.
  apply bind_Ok in H as ([p c1] & Hr & H). apply read_nibbles_spec in Hr as (A1 & Hp & _ & Hpl).
  apply bind_Ok in H as ([vl c2] & Hr & H). apply read_u64_adv in Hr as (A2 & _ & Hvl).
  apply bind_Ok in H as (? & Hmax%fatal_if_Ok & H). apply Z.ltb_ge in Hmax. apply bind_Ok in H as (? & Hrem%fatal_if_Ok & H).
  apply bind_Ok in H as (c3 & H3 & H). apply bind_Ok in H as (c4 & H4 & H). unfold align_to_u64 in H4. unfold in_u64 in Hvl.
  pose proof (pad_of_range vl).
  pose proof (advance_two vl (pad_of vl) _ _ _ ltac:(lia) ltac:(lia) H3 H4) as H34.
  apply advance_adv in H34; [|lia|apply pad_aligned; lia].
  apply bind_Ok in H as ([i x2] & He & H). apply Ok_inj in H. injection H as <- <- <-.
  set (xa := mkCtx _ _ _ _ _ _ _ _ _) in He.
  assert (Hc0 : cinv xa c0) by (destruct Hc; by split). assert (A : adv c0 c4) by (do 3 (etrans; [eassumption|]); done).
  pose proof (pnibbles_short p Hp Hpl) as [Hn Hln].
  destruct (build_aux kd _ _ _ c4 _ _ G k w NT_PhantomLeaf (TPhantom (pnibbles p) (take (Z.to_nat vl) c2)) He Hc0 A) as (G' & t & HH);
    [done|done|done| | |].
  - constructor; [done|done|]. unfold len, kMaxLeafValue in *. rewrite length_take. lia.
  - intros n En. exists p, (take (Z.to_nat vl) c2). done.
  - exists G', t. exact HH.
Qed.

(** ** The children of a branch *)

Lemma pool_child n c :
  adv (stream n) c → len (stream n) / 8 < 2 ^ 32 → 32 ≤ len c →
  pool_hash (stream n) (u32 (word_of n c)) = Ok (take 32 c).
Proof.
  intros (j & -> & Hj) Hs Hl. unfold len in *. rewrite length_drop in Hl.
  assert (Hw : word_of n (drop (8 * j) (stream n)) = Z.of_nat j).
  { unfold word_of, len. rewrite length_drop, Z.shiftr_div_pow2 by lia. change (2 ^ 3) with 8.
    replace (Z.of_nat (length (stream n)) - Z.of_nat (length (stream n) - 8 * j)) with (Z.of_nat j * 8) by lia.
    apply Z.div_mul. lia. }
  rewrite Hw, u32_small.
  - unfold pool_hash, mem_read. rewrite !(proj2 (Z.leb_le _ _)) by lia. cbn [andb]. do 3 f_equal. lia.
  - split; [lia|]. eapply Z.le_lt_trans; [|exact Hs]. apply Z.div_le_lower_bound; lia.
Qed.

Record kids_ok (n : Nodes) (G : ghost) (k : tkind) (w : list Z) (lo hi : Z) (upto : nat)
    (kids : list Child) (ts : list (tree lf)) : Prop := {
  ko_len : length kids = 16%nat;
  ko_tlen : length ts = 16%nat;
  ko_at : ∀ j c, kids !! j = Some c → ∃ t, ts !! j = Some t ∧ at_node n G k (w ++ [Z.of_nat j]) c t ∧
            wf keccak256 k (w ++ [Z.of_nat j]) t;
  ko_tags : ∀ j c, (j < upto)%nat → kids !! j = Some c →
    match tag lo j, tag hi j with
    | true, _ => child_type c = NT_PoolHash
    | false, false => child_type c = NT_Empty
    | false, true => child_type c ≠ NT_PoolHash
    end;
  ko_rest : ∀ j, (upto ≤ j < 16)%nat → kids !! j = Some child0 }.

Lemma kids_start n G k w lo hi : kids_ok n G k w lo hi 0 (replicate 16 child0) (replicate 16 TEmpty).
Proof.
  split; [done|done| |lia|].
  - intros j c [-> Hj]%lookup_replicate. exists TEmpty. rewrite lookup_replicate_2 by done. split_and!; [done|done|constructor].
  - intros j Hj. apply lookup_replicate_2. lia.
Qed.
Lemma kids_mono n n' G G' k w lo hi u kids ts :
  ext n n' → grows G G' → kids_ok n G k w lo hi u kids ts → kids_ok n' G' k w lo hi u kids ts.
Proof.
  intros Hn HG []. split; [done|done| |done|done]. intros j c Hc. destruct (ko_at0 j c Hc) as (t & ? & ? & ?).
  exists t. split_and!; [done|by eapply at_mono|done].
Qed.
Lemma kids_skip n G k w lo hi u kids ts :
  (u < 16)%nat → tag lo u = false → tag hi u = false → kids_ok n G k w lo hi u kids ts → kids_ok n G k w lo hi (S u) kids ts.
Proof.
  intros Hu Hl Hh []. split; [done|done|done| |].
  - intros j c Hj Hc. destruct (decide (j = u)) as [->|]; [|apply ko_tags0; [lia|done]].
    rewrite Hl, Hh. rewrite ko_rest0 in Hc by lia. by simplify_eq.
  - intros j Hj. apply ko_rest0. lia.
Qed.
Lemma kids_set n G k w lo hi u kids ts c t :
  (u < 16)%nat → kids_ok n G k w lo hi u kids ts → at_node n G k (w ++ [Z.of_nat u]) c t →
  wf keccak256 k (w ++ [Z.of_nat u]) t →
  match tag lo u, tag hi u with
  | true, _ => child_type c = NT_PoolHash
  | false, false => child_type c = NT_Empty
  | false, true => child_type c ≠ NT_PoolHash
  end →
  kids_ok n G k w lo hi (S u) (<[u := c]> kids) (<[u := t]> ts).
Proof.
  intros Hu [] Ha Hw Ht. split; [by rewrite length_insert|by rewrite length_insert|..].
  - intros j c'. destruct (decide (j = u)) as [->|].
    + rewrite list_lookup_insert_eq by lia. intros [= <-]. exists t. by rewrite list_lookup_insert_eq by lia.
    + rewrite !list_lookup_insert_ne by done. apply ko_at0.
  - intros j c' Hj. destruct (decide (j = u)) as [->|].
    + rewrite list_lookup_insert_eq by lia. by intros [= <-].
    + rewrite list_lookup_insert_ne by done. apply ko_tags0. lia.
  - intros j Hj. rewrite list_lookup_insert_ne by lia. apply ko_rest0. lia.
Qed.

Section Loop.
Context (rec : cursor → BuildCtx → TreeKind → WalkPath → option Z → res (Child * cursor * BuildCtx)).
Context (kd : TreeKind) (ow : option Z) (k : tkind) (w : WalkPath) (lo hi : Z).
Context (rec_ok : ∀ j, (j < 16)%nat → build_spec rec kd ow k (w ++ [Z.of_nat j])).
Context (lo_even : evenbits lo) (hi_even : evenbits hi).

(** One round, at the next tagged child. *)
Lemma round_unfold rounds u kids cur x :
  (u < 16)%nat → tag (Z.lor lo hi) u = true →
  build_children rec (S rounds) lo (high (Z.lor lo hi) u) kids cur x kd w ow =
    if tag lo u then
      _ ← fatal_if (node_limit x <=? total_n x) overflow;
      kids ← vec_set kids u (mkChild NT_PoolHash (u32 (word_of (nodes x) cur)));
      build_children rec rounds lo (high (Z.lor lo hi) (S u)) kids (drop 32 cur) (set_pool_n (pool_n x + 1) x) kd w ow
    else
      '(c, cur, x) ← rec cur x kd (w ++ [Z.of_nat u]) ow;
      kids ← vec_set kids u c;
      _ ← check_room cur (popcount64 (Z.land lo (high (Z.lor lo hi) u)));
      build_children rec rounds lo (high (Z.lor lo hi) (S u)) kids cur x kd w ow.
Proof.
  intros Hu Ht. destruct (high_step _ _ (even_lor _ _ lo_even hi_even) Hu Ht) as (H0 & Hctz & Hclr).
  cbn [build_children]. rewrite (proj2 (Z.eqb_neq _ 0)) by done. rewrite Hctz, Hclr.
  assert (Hk : Z.shiftr (2 * Z.of_nat u) 1 = Z.of_nat u).
  { rewrite Z.shiftr_div_pow2 by lia. change (2 ^ 1) with 2. rewrite Z.mul_comm. apply Z.div_mul. lia. }
  rewrite Hk, Nat2Z.id. done.
Qed.

Lemma pool_round x cur :
  cinv x cur → (node_limit x <=? total_n x) = false → 32 ≤ len cur →
  cinv (set_pool_n (pool_n x + 1) x) (drop 32 cur) ∧ adv cur (drop 32 cur).
Proof.
  intros Hc Hl%Z.leb_gt H32. assert (Ha : adv cur (drop 32 cur)) by (apply (adv_words 4); unfold len in H32; lia).
  split; [|done]. apply (cinv_adv _ cur); [|done]. destruct Hc. split; cbn; try done; [lia|unfold total_n in *; cbn; lia].
Qed.

Lemma rest_empty n G u kids ts t : kids_ok n G k w lo hi u kids ts → (u < 16)%nat → ts !! u = Some t → t = TEmpty.
Proof.
  intros [] Hu Ht. specialize (ko_rest0 u ltac:(lia)). destruct (ko_at0 u _ ko_rest0) as (t' & Ht' & Ha & _).
  rewrite Ht in Ht'. by injection Ht' as <-.
Qed.
Lemma children_loop n0 m u rounds kids ts cur x G kids' cur' x' :
  (u + m = 16)%nat → (m ≤ rounds)%nat →
  build_children rec rounds lo (high (Z.lor lo hi) u) kids cur x kd w ow = Ok (kids', cur', x') →
  cinv x cur → binv (nodes x) G → kids_ok (nodes x) G k w lo hi u kids ts → 32 * count_from lo u ≤ len cur →
  covers n0 (nodes x) (TBranch ts) →
  ∃ G' ts', covers n0 (nodes x') (TBranch ts') ∧ cinv x' cur' ∧ adv cur cur' ∧ gk kd G G' ∧ ext (nodes x) (nodes x') ∧ binv (nodes x') G' ∧
    kids_ok (nodes x') G' k w lo hi 16 kids' ts'.
Proof.
  revert u rounds kids ts cur x G. induction m as [|m IH]; intros u rounds kids ts cur x G Hu Hr H Hc HG Hk Hroom Hcov.
  { replace u with 16%nat in * by lia. rewrite high_16 in H by (by apply even_lor).
    assert (Ok (kids, cur, x) = Ok (kids', cur', x')) as [= <- <- <-] by (by destruct rounds).
    exists G, ts. by split_and!. }
  destruct (tag (Z.lor lo hi) u) eqn:Et.
  - destruct rounds as [|rounds]; [lia|]. rewrite round_unfold in H by (done || lia).
    rewrite count_step in Hroom by lia. pose proof (count_pos lo (S u)) as Hcp.
    rewrite tag_lor in Et. destruct (tag lo u) eqn:El.
    + apply bind_Ok in H as (? & Hl%fatal_if_Ok & H). apply bind_Ok in H as (kids1 & Hs & H). apply vec_set_Ok in Hs as [_ ->].
      cbn [Z.b2z] in Hroom. destruct (pool_round x cur Hc Hl ltac:(lia)) as [Hc1 Ha1].
      pose proof (pool_child (nodes x) cur (ci_adv _ _ Hc) (ci_stream _ _ Hc) ltac:(lia)) as Hp.
      destruct (lookup_lt_is_Some_2 ts u) as [t0 Ht0]; [rewrite (ko_tlen _ _ _ _ _ _ _ _ _ Hk); lia|].
      pose proof (rest_empty _ _ _ _ _ _ Hk ltac:(lia) Ht0) as ->.
      eapply (IH (S u) rounds _ (<[u := THash (be_val (take 32 cur))]> ts) _ _ G) in H as (G' & ts' & ? & ? & ? & ? & ? & ? & ?);
        [|lia|lia|done|done| | |].
      * exists G', ts'. split_and!; [done|done|by etrans|done|done|done|done].
      * apply kids_set; [lia|done| | |by rewrite El].
        -- unfold at_node. cbn [child_type child_idx]. by exists (take 32 cur).
        -- constructor. apply be_val_32. unfold len in Hroom. rewrite length_take. lia.
      * unfold len in *. rewrite length_drop. lia.
      * by eapply covers_set; [exact Hcov|apply covers_same|].
    + apply bind_Ok in H as ([[c cur1] x1] & Hb & H). apply bind_Ok in H as (kids1 & Hs & H). apply vec_set_Ok in Hs as [_ ->].
      apply bind_Ok in H as (? & Hroom1 & H). unfold check_room, stream_remaining in Hroom1. apply fatal_if_Ok, Z.ltb_ge in Hroom1.
      rewrite popcount_even, count_high, count_step, El in Hroom1; [|lia|lia| |by apply even_sub].
      2:{ intros j Hj Htj. by rewrite tag_lor, Htj. }
      destruct (rec_ok u ltac:(lia) _ _ _ _ _ _ Hb Hc HG) as (G1 & t & Hc1 & A1 & Hg1 & Hw1 & Hpt & Hbuilt).
      destruct (seal kd _ _ _ _ _ _ _ Hbuilt Hw1) as (G2 & Hg2 & HG2 & Hat). pose proof (built_ext _ _ _ _ _ _ _ Hbuilt) as Hn1.
      assert (Hg : gk kd G G2) by (by etrans).
      destruct (lookup_lt_is_Some_2 ts u) as [t0 Ht0]; [rewrite (ko_tlen _ _ _ _ _ _ _ _ _ Hk); lia|].
      pose proof (rest_empty _ _ _ _ _ _ Hk ltac:(lia) Ht0) as ->.
      eapply (IH (S u) rounds _ (<[u := t]> ts) _ _ G2) in H as (G' & ts' & ? & ? & ? & ? & ? & ? & ?); [|lia|lia|done|done| | |].
      * exists G', ts'. split_and!; [done|done|by etrans|by etrans|by etrans|done|done].
      * apply kids_set; [lia|by eapply kids_mono; [done|apply Hg|done]|done|done|]. cbn [orb] in Et. by rewrite El, Et.
      * cbn [Z.b2z] in Hroom1. lia.
      * by eapply covers_set; [exact Hcov|by eapply built_covers|].
  - rewrite high_skip in H by (done || by apply even_lor). rewrite tag_lor in Et. apply orb_false_iff in Et as [El Eh].
    rewrite count_step, El in Hroom by lia. eapply (IH (S u) rounds kids ts cur x G); [lia|lia|exact H|done|done| |cbn [Z.b2z] in Hroom; lia|done].
    apply kids_skip; [lia|done|done|done].
Qed.
End Loop.

(** ** Branches *)

Lemma live_count z k rs :
  (∀ j r, rs !! j = Some r → tag z (k + j) = true → is_NE r = false) →
  (length (List.filter (tag z) (seq k (length rs))) ≤ length (live (Z.of_nat k) rs))%nat.
Proof.
  revert k. induction rs as [|r rs IH]; intros k H; [done|]. cbn [length seq List.filter live].
  specialize (IH (S k)). replace (Z.of_nat k + 1) with (Z.of_nat (S k)) by lia.
  assert (Hrec : (length (List.filter (tag z) (seq (S k) (length rs))) ≤ length (live (Z.of_nat (S k)) rs))%nat).
  { apply IH. intros j r' Hj. specialize (H (S j) r' Hj). by rewrite Nat.add_succ_r in H. }
  specialize (H 0%nat r eq_refl). rewrite Nat.add_0_r in H.
  destruct (tag z k); [rewrite H by done|]; [cbn [length]; lia|]. destruct (is_NE r); cbn [length]; lia.
Qed.

Lemma single_tag M :
  evenbits M → popcount64 M = 1 → ∃ u, (u < 16)%nat ∧ tag M u = true ∧ high M 0 = high M u ∧ high M (S u) = 0.
Proof.
  intros HM Hp. rewrite popcount_even in Hp by done.
  assert (Hfind : ∀ m k, (k + m = 16)%nat → count_from M k = 1 →
    ∃ u, (k ≤ u < 16)%nat ∧ tag M u = true ∧ high M k = high M u ∧ count_from M (S u) = 0).
  { induction m as [|m IH]; intros k Hk Hc.
    - replace k with 16%nat in Hc by lia. by rewrite count_end in Hc.
    - rewrite count_step in Hc by lia. destruct (tag M k) eqn:Et; cbn [Z.b2z] in Hc.
      + exists k. split_and!; [lia|lia|done|done|lia].
      + destruct (IH (S k)) as (u & ? & ? & ? & ?); [lia|lia|]. exists u.
        rewrite high_skip by done. split_and!; [lia|lia|done|done|done]. }
  destruct (Hfind 16%nat 0%nat) as (u & Hu & Ht & Hh & Hc0); [done|done|]. exists u. split_and!; [lia|done|done|].
  apply even_ext; [by apply high_even|intros i ? H; by rewrite Z.bits_0 in H|]. intros j Hj. rewrite tag_high.
  unfold tag at 2. rewrite Z.bits_0. destruct (Nat.leb_spec (S u) j) as [Hle|]; [|done]. cbn [andb].
  destruct (tag M j) eqn:Ej; [|done]. exfalso. unfold count_from in Hc0.
  assert (Hin : In j (List.filter (tag M) (seq (S u) (16 - S u)))) by (apply filter_In; rewrite in_seq; split; [lia|done]).
  destruct (List.filter (tag M) (seq (S u) (16 - S u))); [done|cbn [length] in Hc0; lia].
Qed.

Lemma forall2_children n k w lo hi G kids ts :
  binv n G → kids_ok n G k w lo hi 16 kids ts →
  Forall2 (child_den n Original) kids (map (w_old keccak256 (S (length w))) ts).
Proof.
  intros HG []. apply Forall2_same_length_lookup_2; [by rewrite length_map, ko_len0, ko_tlen0|].
  intros j c ρ Hc Hρ. rewrite list_lookup_fmap in Hρ. destruct (ko_at0 j c Hc) as (t & Ht & Ha & Hw).
  rewrite Ht in Hρ. injection Hρ as <-. pose proof (at_old _ _ _ _ _ _ HG Ha Hw) as Hd.
  by rewrite length_app, Nat.add_1_r in Hd.
Qed.
Lemma pool_live n k w lo hi G kids ts :
  kids_ok n G k w lo hi 16 kids ts →
  (∀ j, (j < 16)%nat → tag lo j = true → ∃ h, ts !! j = Some (THash h)).
Proof.
  intros [] j Hj Ht. destruct (lookup_lt_is_Some_2 kids j) as [c Hc]; [lia|].
  specialize (ko_tags0 j c Hj Hc). rewrite Ht in ko_tags0. destruct (ko_at0 j c Hc) as (t & Hts & Ha & _).
  unfold at_node in Ha. rewrite ko_tags0 in Ha. destruct Ha as (hb & _ & ->). eauto.
Qed.

Lemma ctz_single M u : evenbits M → (u < 16)%nat → tag M u = true → high M 0 = high M u → Z.shiftr (ctz64 M) 1 = Z.of_nat u.
Proof.
  intros HM Hu Ht Hh. destruct (high_step M u HM Hu Ht) as (_ & Hc & _). rewrite <- Hh, high_0 in Hc. rewrite Hc.
  rewrite Z.shiftr_div_pow2 by lia. change (2 ^ 1) with 2. rewrite Z.mul_comm. apply Z.div_mul. lia.
Qed.

Lemma children_zero rec rounds lo kids cur x kd w ow : build_children rec rounds lo 0 kids cur x kd w ow = Ok (kids, cur, x).
Proof. by destruct rounds. Qed.

(** The one child of a single-child branch, not yet sealed. *)
Lemma only_child rec kd ow k w lo hi u cur x G kids cur' x' only :
  (∀ j, (j < 16)%nat → build_spec rec kd ow k (w ++ [Z.of_nat j])) → evenbits lo → evenbits hi →
  (u < 16)%nat → tag (Z.lor lo hi) u = true → high (Z.lor lo hi) 0 = high (Z.lor lo hi) u → high (Z.lor lo hi) (S u) = 0 →
  32 * count_from lo 0 ≤ len cur → cinv x cur → binv (nodes x) G →
  build_children rec 64 lo (Z.lor lo hi) (replicate 16 child0) cur x kd w ow = Ok (kids, cur', x') →
  kids !! u = Some only →
  ∃ G' t, cinv x' cur' ∧ adv cur cur' ∧ gk kd G G' ∧ wf keccak256 k (w ++ [Z.of_nat u]) t ∧
    built (nodes x) (nodes x') G' k (w ++ [Z.of_nat u]) only t.
Proof.
  intros Hrec Hle Hhe Hu Ht Hh0 Hh1 Hroom Hc HG H Hon.
  rewrite <- (high_0 (Z.lor lo hi)), Hh0, round_unfold, Hh1 in H by done. destruct (tag lo u) eqn:El.
  - apply bind_Ok in H as (? & Hl%fatal_if_Ok & H). apply bind_Ok in H as (kids1 & Hs & H). apply vec_set_Ok in Hs as [_ ->].
    rewrite children_zero in H. apply Ok_inj in H. injection H as <- <- <-.
    rewrite list_lookup_insert_eq in Hon by (rewrite ?length_replicate; done). injection Hon as <-.
    assert (H1 : 1 ≤ count_from lo 0).
    { unfold count_from. assert (Hin : In u (List.filter (tag lo) (seq 0 16))) by (apply filter_In; rewrite in_seq; split; [lia|done]).
      change (16 - 0)%nat with 16%nat. destruct (List.filter (tag lo) (seq 0 16)); [done|cbn [length]; lia]. }
    destruct (pool_round x cur Hc Hl ltac:(lia)) as [Hc1 Ha1].
    pose proof (pool_child (nodes x) cur (ci_adv _ _ Hc) (ci_stream _ _ Hc) ltac:(lia)) as Hp.
    exists G, (THash (be_val (take 32 cur))). split_and!; [done|done|done| |].
    + constructor. apply be_val_32. unfold len in *. rewrite length_take. lia.
    + apply built_node; [by apply covers_same|done|done|done|]. unfold at_node. cbn [child_type child_idx]. by exists (take 32 cur).
  - apply bind_Ok in H as ([[c cur1] x1] & Hb & H). apply bind_Ok in H as (kids1 & Hs & H). apply vec_set_Ok in Hs as [_ ->].
    apply bind_Ok in H as (? & _ & H). rewrite children_zero in H. apply Ok_inj in H. injection H as <- <- <-.
    rewrite list_lookup_insert_eq in Hon by (rewrite ?length_replicate; done). injection Hon as <-.
    destruct (Hrec u Hu _ _ _ _ _ _ Hb Hc HG) as (G1 & t & Hc1 & A1 & Hg1 & Hw1 & _ & Hbuilt). exists G1, t. by split_and!.
Qed.

Lemma branch_spec rec kd ow k w :
  (∀ j, (length w < 64)%nat → (j < 16)%nat → build_spec rec kd ow k (w ++ [Z.of_nat j])) →
  build_spec (build_branch_node keccak256 garbage rec) kd ow k w.
Proof.
  intros Hrec c x G ch c' x' H Hc HG. unfold build_branch_node in H.
  apply bind_Ok in H as (? & Hd%fatal_if_Ok & H). unfold walk_max in Hd. apply Z.leb_gt in Hd.
  specialize (λ j, Hrec j ltac:(lia)).
  apply bind_Ok in H as ([tags c1] & Hr & H). apply read_u64_adv in Hr as (A1 & _ & Htags).
  apply bind_Ok in H as (? & Hdis%fatal_if_Ok & H). apply bind_Ok in H as (? & Hroom & H).
  set (lo := Z.land tags mask55) in *. set (hi := Z.land (Z.shiftr tags 1) mask55) in *.
  pose proof (even_land tags : evenbits lo) as Hle. pose proof (even_land (Z.shiftr tags 1) : evenbits hi) as Hhe.
  unfold check_room, stream_remaining in Hroom. apply fatal_if_Ok, Z.ltb_ge in Hroom. rewrite popcount_even in Hroom by done.
  apply bind_Ok in H as ([[kids c2] xk] & Hk & H). apply bind_Ok in H as (? & Hlim%fatal_if_Ok & H). apply Z.leb_gt in Hlim.
  assert (Hc1 : cinv x c1) by (by eapply cinv_adv).
  destruct (Z.eqb_spec (popcount64 (Z.lor lo hi)) 1) as [H1|H1].
  - destruct (single_tag _ (even_lor _ _ Hle Hhe) H1) as (u & Hu & Htu & Hh0 & Hh1).
    rewrite (ctz_single _ u (even_lor _ _ Hle Hhe) Hu Htu Hh0) in H.
    apply bind_Ok in H as (only & Hon%vec_get_Ok & H). rewrite Nat2Z.id in Hon. apply bind_Ok in H as ([ch' xc] & Hch & H).
    apply Ok_inj in H. injection H as <- <- <-.
    destruct (only_child _ _ _ _ _ _ _ u _ _ _ _ _ _ _ Hrec Hle Hhe Hu Htu Hh0 Hh1 Hroom Hc1 HG Hk Hon)
      as (G' & t & Hc2 & A2 & Hg & Hw & Hb).
    destruct (build_chain_spec _ _ c2 _ _ w (Z.of_nat u) only t ch' xc Hc2 ltac:(lia) ltac:(lia) ltac:(lia) Hb Hw Hch) as [Hc3 Hb3].
    exists G', (single (Z.of_nat u) t).
    split_and!; [done|by etrans|done|apply wf_single; [lia|lia|done]| |done].
    by rewrite (build_chain_type _ _ _ _ _ Hch).
  - apply bind_Ok in H as (cached & Hred & H). apply Ok_inj in H. injection H as <- <- <-.
    rewrite <- (high_0 (Z.lor lo hi)) in Hk.
    destruct (children_loop rec kd ow k w lo hi Hrec Hle Hhe (nodes x) 16 0 64 (replicate 16 child0) (replicate 16 TEmpty) c1 x G kids c2 xk)
      as (G1 & ts & Hcov & Hc2 & A2 & Hg & Hn & HG1 & Hko); [lia|lia|exact Hk|done|done|apply kids_start|lia|by apply covers_same|].
    pose proof (forall2_children _ _ _ _ _ _ _ _ HG1 Hko) as HF.
    assert (Hlt : (2 ≤ popcount64 (Z.land tags 0x55555555) → (2 ≤ length (live 0 (map (w_old keccak256 (S (length w))) ts)))%nat)).
    { change (Z.land tags 0x55555555) with lo. rewrite popcount_even by done. intros H2.
      pose proof (live_count lo 0 (map (w_old keccak256 (S (length w))) ts)) as Hlc. rewrite length_map, (ko_tlen _ _ _ _ _ _ _ _ _ Hko) in Hlc.
      unfold count_from in H2. change (16 - 0)%nat with 16%nat in H2. change (Z.of_nat 0) with 0 in Hlc. etrans; [|apply Hlc]; [lia|].
      intros j r Hj Htj. cbn [Nat.add] in Htj. rewrite list_lookup_fmap in Hj.
      assert (Hj16 : (j < 16)%nat).
      { destruct (ts !! j) eqn:E; [|done]. apply lookup_lt_Some in E. by rewrite (ko_tlen _ _ _ _ _ _ _ _ _ Hko) in E. }
      destruct (pool_live _ _ _ _ _ _ _ _ Hko j Hj16 Htj) as (h & Eh). rewrite Eh in Hj. by injection Hj as <-. }
    pose proof (reduce_sim keccak256 garbage garbage_len (mkBranch kids EmptyR tags) _ _ _ _ keccak_range (ko_len _ _ _ _ _ _ _ _ _ Hko) HF Hlt Hred) as [Hden _].
    set (n2 := nodes xk) in *. set (bn := mkBranch kids cached tags).
    set (n3 := set_branch_nodes (branch_nodes n2 ++ [bn]) n2).
    assert (Hn3 : ext n2 n3) by (split; cbn; try done; by apply prefix_app_r).
    pose proof (ci_branch _ _ Hc2) as Hbn. pose proof (ci_limit _ _ Hc2) as Hll.
    assert (Htot : 0 ≤ branch_n xk < 2 ^ 32).
    { pose proof (ci_pool _ _ Hc2). pose proof (ci_chain _ _ Hc2). pose proof (ci_aux _ _ Hc2). unfold total_n in *. lia. }
    set (i := length (branch_nodes n2)). set (t := TBranch ts).
    assert (Hwf : wf keccak256 k w t).
    { constructor; [apply (ko_tlen _ _ _ _ _ _ _ _ _ Hko)|lia|]. intros j t' Hj.
      destruct (lookup_lt_is_Some_2 kids j) as [cj Hcj].
      { rewrite (ko_len _ _ _ _ _ _ _ _ _ Hko), <- (ko_tlen _ _ _ _ _ _ _ _ _ Hko). by eapply lookup_lt_Some. }
      destruct (ko_at _ _ _ _ _ _ _ _ _ Hko j cj Hcj) as (t'' & E & _ & Hw). rewrite Hj in E. by injection E as <-. }
    destruct (ginv_branch keccak256 cached_old cached_old_mono n2 n3 G1 i k w t) as [HG3 Hg3];
      [apply (fresh_branch _ _ _ _ _ HG1); done|done|done|done| |].
    { assert (Hgr : grows G1 (with_branch i (mkEntry k w t) G1)).
      { split; cbn; [|done..]. apply insert_subseteq. by apply (fresh_branch _ _ _ _ _ HG1). }
      exists bn, ts. split_and!.
      - cbn. by rewrite lookup_app_r, Nat.sub_diag by lia.
      - done.
      - apply (ko_len _ _ _ _ _ _ _ _ _ Hko).
      - intros j cj Hcj. destruct (ko_at _ _ _ _ _ _ _ _ _ Hko j cj Hcj) as (t' & E & Ha & _).
        exists t'. split; [done|by eapply at_mono].
      - intros j cj Hcj. assert (Hj : (j < 16)%nat) by (apply lookup_lt_Some in Hcj; by rewrite <- (ko_len _ _ _ _ _ _ _ _ _ Hko)).
        pose proof (ko_tags _ _ _ _ _ _ _ _ _ Hko j cj Hj Hcj) as Htg. unfold lo, hi in Htg. by rewrite !tag_mask in Htg.
      - unfold cached_old. eapply den_ext_mono; [exact Hn3|]. exact Hden. }
    exists (with_branch i (mkEntry k w t) G1), t.
    split_and!; [|by etrans|etrans; [exact Hg|by split]|done|done|].
    + clear -Hc2 Hlim Hll. destruct Hc2. unfold n3, n2. split; cbn; try done; [rewrite length_app; cbn; lia|unfold total_n in *; cbn; lia].
    + apply built_node; [exact Hcov|done|by etrans|done|]. unfold at_node. cbn [child_type child_idx].
      rewrite u32_small, Hbn, Nat2Z.id by done. cbn. apply lookup_insert_eq.
Qed.

(** ** Leaves *)

(** The key a leaf's path spells out is the hash of its plaintext. *)
Lemma leaf_key w suffix key plain :
  Forall is_nibble w → path_wf suffix → off suffix = 0 → pack_key_hash w suffix = Ok key →
  (keccak256 plain =? be_val key) = true →
  length key = 32%nat ∧ (length w ≤ 64)%nat ∧ be_val key = keccak256 plain ∧
  to_nibbles key = hash_nibbles (keccak256 plain) ∧ w `prefix_of` hash_nibbles (keccak256 plain).
Proof.
  intros Hw Hp Ho Hk Hh%Z.eqb_eq.
  assert (Hs : Z.of_nat (length w) + plen suffix = 64).
  { unfold pack_key_hash in Hk. apply bind_Ok in Hk as (? & Hc%fatal_if_Ok & _). apply negb_false_iff, Z.eqb_eq in Hc. done. }
  destruct (pack_key_hash_nibbles w suffix Hp Ho Hs) as (key' & Hk' & Hl & Hn). rewrite Hk in Hk'. injection Hk' as <-.
  assert (Hm : map (λ x, x mod 16) w = w).
  { clear -Hw. induction Hw as [|x w Hx _ IH]; [done|]. cbn. rewrite IH. f_equal. by apply Z.mod_small. }
  assert (Hh' : hash_nibbles (keccak256 plain) = to_nibbles key).
  { unfold hash_nibbles. rewrite Hh, <- Hl, be_bytes_be_val. done. }
  split_and!; [done| |done|done|].
  - destruct Hp as (_ & _ & ? & _). lia.
  - rewrite Hh', Hn, Hm. by apply prefix_app_r.
Qed.

Lemma be_bytes_val n b : length b = n → be_bytes n (be_val b) = b.
Proof. intros <-. apply be_bytes_be_val. Qed.

(** Appending a row and filling in its leaf. *)
Lemma slot_row owner pos v next nib ph s s' node :
  0 ≤ owner < 2 ^ 160 → in_u256 pos → in_u256 v →
  ('(a, s1) ← Storages.append owner pos v s;
   _ ← fatal_if (negb (a =? length (Storages.rows s))%nat) "state_root: storage append index desync";
   s2 ← Storages.set_next_sorted (length (Storages.rows s)) next s1;
   Storages.build_value (length (Storages.rows s)) nib ph s2) = Ok (node, s') →
  ∃ rec, Storages.view_address rec = owner ∧ Storages.view_position rec = pos ∧ Storages.view_value rec = v ∧
    node = (if is_zero_value v then EmptyR else StorageLeafR nib (length (Storages.rows s))) ∧
    Storages.rows s' = Storages.rows s ++ [Storages.mkRow rec Storages.mods0 (Storages.mkLeafCache node ph next)].
Proof.
  intros Ho Hp Hv H. destruct (Storages.slot_record_roundtrip owner pos v Ho Hp Hv) as (rec & Er & Ea & Ep & Ev).
  unfold Storages.append in H. apply bind_Ok in H as ([a s1] & Ha & H). apply bind_Ok in Ha as (? & _ & Ha).
  rewrite Er in Ha. cbn [mbind res_bind] in Ha. apply Ok_inj in Ha. injection Ha as <- <-.
  rewrite Nat.eqb_refl in H. cbn [negb fatal_if mbind res_bind] in H.
  apply bind_Ok in H as (s2 & H2 & H). exists rec. split_and!; [done|done|done|..].
  all: unfold Storages.set_next_sorted, Storages.upd_leaf, Storages.upd_row, Storages.row_at, vec_get in H2; cbn in H2;
    rewrite lookup_app_r, Nat.sub_diag in H2 by lia; cbn in H2; apply Ok_inj in H2; subst s2;
    unfold Storages.build_value, Storages.value_orig_at, Storages.upd_leaf, Storages.upd_row, Storages.row_at, vec_get in H; cbn in H;
    rewrite ?insert_app_r_alt, Nat.sub_diag in H by lia; cbn in H;
    rewrite ?lookup_app_r, Nat.sub_diag in H by lia; cbn in H; apply Ok_inj in H; injection H as <- <-; cbn; rewrite Ev.
  - done.
  - by rewrite insert_app_r_alt, Nat.sub_diag by lia.
Qed.

Lemma slot_leaf_spec k w c0 c x G suffix owner ch c' x' :
  build_storage_leaf keccak256 garbage c x w suffix (Some owner) = Ok (ch, c', x') →
  0 ≤ owner < 2 ^ 160 → k = InStorage owner → Forall is_nibble w → path_wf suffix → off suffix = 0 →
  cinv x c0 → adv c0 c → len c + 8 ≤ len c0 → binv (nodes x) G →
  ∃ G' t, cinv x' c' ∧ adv c0 c' ∧ gk Storage G G' ∧ wf keccak256 k w t ∧ child_type ch ≠ NT_PoolHash ∧
    built (nodes x) (nodes x') G' k w ch t.
Proof.
  intros H Hown -> Hw Hp Ho Hc Ha Hlen HG. cbn [build_storage_leaf] in H.
  apply bind_Ok in H as ([pos c1] & H1 & H). apply (read_field_adv 4) in H1 as [A1 Hpl]; [|done].
  apply bind_Ok in H as ([v c2] & H2 & H). apply (read_field_adv 4) in H2 as [A2 Hvl]; [|done].
  apply bind_Ok in H as ([next c3] & H3 & H). apply read_u64_adv in H3 as (A3 & _ & _).
  apply bind_Ok in H as (key & Hk & H). apply bind_Ok in H as (? & Hh%fatal_if_Ok & H). apply negb_false_iff in Hh.
  destruct (leaf_key _ _ _ _ Hw Hp Ho Hk Hh) as (Hkl & Hwl & Hkv & Hkn & Hpre).
  rewrite (ci_slot _ _ Hc) in H. set (n := nodes x) in *. set (i := length (Storages.rows (storages n))) in *.
  apply bind_Ok in H as ([a s1] & Hap & H). apply bind_Ok in H as (? & Hdes & H). apply bind_Ok in H as (s2 & Hns & H).
  apply bind_Ok in H as (nib & Hnib & H). apply bind_Ok in H as ([node s3] & Hbv & H). apply Ok_inj in H. injection H as <- <- <-.
  destruct (path_from_key_nibbles (garbage 34) key (Z.of_nat (length w))) as (nib' & Hn' & Hnw & _ & Hnn);
    [apply garbage_len|done|lia|]. rewrite Hn' in Hnib. apply Ok_inj in Hnib. subst nib'. rewrite Nat2Z.id, Hkn in Hnn.
  destruct (slot_row owner (be_val pos) (be_val v) next nib (be_val key) (storages n) s3 node) as (rec & Ra & Rp & Rv & Hnode & Hrows);
    [done|by apply be_val_32|by apply be_val_32| |].
  { rewrite Hap. cbn [mbind res_bind]. fold i. rewrite Hdes. cbn [mbind res_bind]. rewrite Hns. exact Hbv. }
  set (n' := set_storages s3 n). assert (Hn : ext n n') by (split; cbn; try done; rewrite Hrows; by apply prefix_app_r).
  set (l := LStorage i owner (be_val pos) (be_val v)).
  assert (Hlk : lkey keccak256 l = hash_nibbles (keccak256 pos)) by (cbn [lkey l]; by rewrite be_bytes_val).
  assert (Hwf : wf keccak256 (InStorage owner) w (TKey l)) by (apply wf_slot; [by apply be_val_32|by apply be_val_32|fold l; by rewrite Hlk]).
  assert (Hlook : Storages.rows (storages n') !! i = Some (Storages.mkRow rec Storages.mods0 (Storages.mkLeafCache node (be_val key) next))).
  { cbn. rewrite Hrows. unfold i. by rewrite lookup_app_r, Nat.sub_diag by lia. }
  destruct (ginv_slot keccak256 cached_old cached_old_mono n n' G i (InStorage owner) w (TKey l)) as [HG' Hg];
    [by apply (fresh_slot _ _ _ _ _ HG)|done|done|done| |].
  { eexists. split; [exact Hlook|]. cbv zeta. cbn [Storages.record Storages.leaf Storages.pos_hash Storages.cached].
    rewrite Ra, Rp, Rv. split_and!; [done|by rewrite be_bytes_val|].
    unfold cached_old, w_old. cbn [old lvo l slot_value leaf_node]. rewrite Hnode. unfold is_zero_value, slot_value.
    destruct (be_val v =? 0); [constructor|]. cbn [leaf_node lsrc l]. fold l. rewrite Hlk, <- Hnn. constructor; [done|by apply be_val_32|].
    cbn [pick]. unfold Storages.value_orig_at, Storages.row_at, vec_get. rewrite Hlook. cbn. by rewrite Rv. }
  assert (A : adv c0 c3) by (do 3 (etrans; [eassumption|]); done). pose proof (adv_len _ _ A1) as L1. pose proof (adv_len _ _ A2) as L2.
  pose proof (adv_len _ _ A3) as L3. pose proof (ci_slot _ _ Hc) as His. pose proof (ci_rows _ _ Hc) as Hrw. pose proof (ci_stream _ _ Hc) as Hst.
  exists (with_slot i (mkEntry (InStorage owner) w (TKey l)) G), (TKey l). split_and!; [|done|by split|done|done|].
  - clear -Hc A His Hrw Hlen Hrows L1 L2 L3. destruct Hc. subst n' i n. split; cbn; try done.
    + rewrite Hrows, length_app. cbn. lia.
    + by etrans.
    + rewrite <- His. lia.
  - apply built_node; [|done|done|done|].
    { split; intros j; cbn; [lia|]. rewrite Hrows, length_app. cbn. intros Hj. apply list_elem_of_singleton. unfold i. lia. }
    unfold at_node. cbn [child_type child_idx].
    rewrite u32_small, Nat2Z.id; [cbn; apply lookup_insert_eq|]. fold n in His, Hrw. rewrite His in Hrw.
    pose proof (len_nonneg c). split; [lia|]. eapply Z.le_lt_trans; [|exact Hst]. apply Z.div_le_lower_bound; [lia|]. fold n. lia.
Qed.

(** Block-start results only depend on the records of the rows. *)
Definition same_records (a a' : Accounts.Accounts) (s s' : Storages.Storages) : Prop :=
  (∀ i, Accounts.record <$> Accounts.rows a !! i = Accounts.record <$> Accounts.rows a' !! i) ∧
  (∀ i, Storages.record <$> Storages.rows s !! i = Storages.record <$> Storages.rows s' !! i).
Lemma den_records a a' s s' r ρ : same_records a a' s s' → den a s Original r ρ → den a' s' Original r ρ.
Proof.
  intros [Ha Hs] Hd. destruct Hd as [|h|p h Hp ?|p i sr m b c Hp ? ? Hf|p i v Hp ? Hf|p v Hp ?]; try by constructor.
  - constructor; [done|done|done|]. revert Hf. unfold acct_fields, pick, Accounts.nonce_orig_at, Accounts.balance_orig_at,
      Accounts.code_hash_orig_at, Accounts.row_at, vec_get. specialize (Ha i).
    destruct (Accounts.rows a !! i) as [row|]; [|done]. destruct (Accounts.rows a' !! i) as [row'|]; [|done].
    cbn in Ha |- *. by injection Ha as ->.
  - constructor; [done|done|]. revert Hf. unfold pick, Storages.value_orig_at, Storages.row_at, vec_get. specialize (Hs i).
    destruct (Storages.rows s !! i) as [row|]; [|done]. destruct (Storages.rows s' !! i) as [row'|]; [|done].
    cbn in Hs |- *. by injection Hs as ->.
Qed.

(** Rewriting the leaf of a row that is not recorded yet. *)
Definition retouch (i : nat) (row : Accounts.Row) (n : Nodes) : Nodes :=
  set_accounts (Accounts.put_rows (<[i := row]> (Accounts.rows (accounts n))) (accounts n)) n.
Lemma binv_retouch n G i row row' :
  g_account G !! i = None → Accounts.rows (accounts n) !! i = Some row → Accounts.record row' = Accounts.record row →
  binv n G → binv (retouch i row' n) G.
Proof.
  intros Hi Hr Hrec HG.
  assert (Hat : ∀ k w c t, at_node n G k w c t → at_node (retouch i row' n) G k w c t) by done.
  assert (HQ : ∀ r w t, cached_old n r w t → cached_old (retouch i row' n) r w t).
  { intros r w t. apply den_records. split; [|done]. intros j. cbn. destruct (decide (j = i)) as [->|].
    - rewrite Hr, list_lookup_insert_eq by (by eapply lookup_lt_Some). cbn. by rewrite Hrec.
    - by rewrite list_lookup_insert_ne. }
  destruct HG as [Hb Hc Ha Hs]. split; intros j e Ej.
  - destruct (Hb j e Ej) as [? (bn & kids & ? & ? & ? & ? & ? & ?)]. split; [done|]. exists bn, kids. split_and!; auto.
  - destruct (Hc j e Ej) as [? (ch & ? & (t0 & ? & ? & ? & ? & ? & ?))]. split; [done|]. exists ch. split; [done|]. exists t0. split_and!; auto.
  - destruct (Ha j e Ej) as [? (row0 & st & Hj & ? & ? & ? & ? & ?)]. split; [done|]. exists row0, st.
    split; [|cbv zeta in *; split_and!; auto]. cbn. rewrite list_lookup_insert_ne; [done|]. intros ->. by rewrite Hi in Ej.
  - destruct (Hs j e Ej) as [? (row0 & Hj & ? & ? & ?)]. split; [done|]. exists row0. split; [done|]. cbv zeta in *. split_and!; auto.
Qed.

Lemma account_row addr nonce bal code next first a a' :
  0 ≤ addr < 2 ^ 160 → in_u64 nonce → in_u256 bal → in_u256 code →
  ('(i, a1) ← Accounts.append addr nonce bal code a;
   _ ← fatal_if (negb (i =? length (Accounts.rows a))%nat) "state_root: account append index desync";
   Accounts.set_sorted_links (length (Accounts.rows a)) next first a1) = Ok a' →
  ∃ row, Accounts.rows a' = Accounts.rows a ++ [row] ∧
    Accounts.view_address (Accounts.record row) = addr ∧ Accounts.view_nonce (Accounts.record row) = nonce ∧
    Accounts.view_balance (Accounts.record row) = bal ∧ Accounts.view_code_hash (Accounts.record row) = code.
Proof.
  intros Ha Hn Hb Hc H. apply bind_Ok in H as ([i a1] & Hap & H). unfold Accounts.append in Hap.
  apply bind_Ok in Hap as (? & _ & Hap). apply bind_Ok in Hap as (rec & Hrec & Hap). apply Ok_inj in Hap. injection Hap as <- <-.
  destruct (Accounts.record_roundtrip _ _ _ _ _ Ha Hn Hb Hc Hrec) as (? & ? & ? & ?).
  rewrite Nat.eqb_refl in H. cbn [negb fatal_if mbind res_bind] in H.
  unfold Accounts.set_sorted_links, Accounts.upd_leaf, Accounts.upd_row, Accounts.row_at, vec_get in H. cbn in H.
  rewrite lookup_app_r, Nat.sub_diag in H by lia. cbn in H. apply Ok_inj in H. subst a'. cbn.
  rewrite insert_app_r_alt, Nat.sub_diag by lia. cbn. eexists. split_and!; [done|done|done|done|done].
Qed.

Lemma build_value_row i nib ah sc sr a node a' row :
  Accounts.build_value i nib ah sc sr a = Ok (node, a') → Accounts.rows a !! i = Some row →
  let r := Accounts.record row in
  let e := is_empty_account (Accounts.view_nonce r) (Accounts.view_balance r) (Accounts.view_code_hash r) in
  (e = true → sr = kEmptyTrieRoot) ∧ node = (if e then EmptyR else AccountLeafR nib i sr) ∧
  ∃ row', a' = Accounts.put_rows (<[i := row']> (Accounts.rows a)) a ∧ Accounts.record row' = r ∧
    Accounts.addr_hash (Accounts.leaf row') = ah ∧ Accounts.storage_root (Accounts.leaf row') = sc ∧
    Accounts.cached (Accounts.leaf row') = node.
Proof.
  intros H Hr. cbv zeta. unfold Accounts.build_value, Accounts.nonce_orig_at, Accounts.balance_orig_at, Accounts.code_hash_orig_at,
    Accounts.upd_leaf, Accounts.upd_row, Accounts.row_at, vec_get in H. rewrite Hr in H. cbn [mbind res_bind] in H.
  apply bind_Ok in H as (nd & Hnd & H). cbn [mbind res_bind] in H. apply Ok_inj in H. injection H as <- <-.
  destruct (is_empty_account _ _ _).
  - destruct (Z.eqb_spec sr kEmptyTrieRoot); [|done]. apply Ok_inj in Hnd. split_and!; [done|done|]. by eexists.
  - apply Ok_inj in Hnd. split_and!; [done|done|]. by eexists.
Qed.

Lemma account_leaf_spec rec w c0 c x G suffix ch c' x' :
  build_account_leaf keccak256 garbage rec c x w suffix = Ok (ch, c', x') →
  (∀ owner, 0 ≤ owner < 2 ^ 160 → build_spec rec Storage (Some owner) (InStorage owner) []) →
  Forall is_nibble w → path_wf suffix → off suffix = 0 →
  cinv x c0 → adv c0 c → len c + 8 ≤ len c0 → binv (nodes x) G →
  ∃ G' t, cinv x' c' ∧ adv c0 c' ∧ gk State G G' ∧ wf keccak256 InState w t ∧ child_type ch ≠ NT_PoolHash ∧
    built (nodes x) (nodes x') G' InState w ch t.
Proof.
  intros H Hrec Hw Hp Ho Hc Ha Hlen HG. unfold build_account_leaf in H.
  apply bind_Ok in H as ([addr c1] & H1 & H). apply (read_field_adv 3) in H1 as [A1 Hal]; [|done].
  apply bind_Ok in H as ([bal c2] & H2 & H). apply (read_field_adv 4) in H2 as [A2 Hbl]; [|done].
  apply bind_Ok in H as ([nonce c3] & H3 & H). apply read_u64_adv in H3 as (A3 & _ & Hno).
  apply bind_Ok in H as ([code c4] & H4 & H). apply (read_field_adv 4) in H4 as [A4 Hcl]; [|done].
  apply bind_Ok in H as ([next c5] & H5 & H). apply read_u64_adv in H5 as (A5 & _ & _).
  apply bind_Ok in H as ([first c6] & H6 & H). apply read_u64_adv in H6 as (A6 & _ & _).
  apply bind_Ok in H as (key & Hk & H). apply bind_Ok in H as (? & Hh%fatal_if_Ok & H). apply negb_false_iff in Hh.
  destruct (leaf_key _ _ _ _ Hw Hp Ho Hk Hh) as (Hkl & Hwl & Hkv & Hkn & Hpre).
  pose proof (ci_account _ _ Hc) as Hia. rewrite Hia in H. set (n := nodes x) in *. set (i := length (Accounts.rows (accounts n))) in *.
  apply bind_Ok in H as ([a accts] & Hap & H). apply bind_Ok in H as (? & Hdes & H). apply bind_Ok in H as (a1 & Hns & H).
  assert (Hav : 0 ≤ be_val addr < 2 ^ 160) by (pose proof (be_val_bound addr) as Hb; rewrite Hal in Hb; exact Hb).
  destruct (account_row (be_val addr) nonce (be_val bal) (be_val code) next first (accounts n) a1) as (row & Hrows & Ra & Rn & Rb & Rc);
    [done|done|by apply be_val_32|by apply be_val_32| |].
  { rewrite Hap. cbn [mbind res_bind]. fold i. rewrite Hdes. exact Hns. }
  set (xa := mkCtx _ _ _ _ _ _ _ _ _) in H. set (n1 := set_accounts a1 n).
  assert (Hn1 : ext n n1) by (split; cbn; try done; rewrite Hrows; by apply prefix_app_r).
  assert (A : adv c0 c6) by (do 6 (etrans; [eassumption|]); done).
  assert (Hl6 : len c6 + 8 ≤ len c0).
  { pose proof (adv_len _ _ A1). pose proof (adv_len _ _ A2). pose proof (adv_len _ _ A3). pose proof (adv_len _ _ A4).
    pose proof (adv_len _ _ A5). pose proof (adv_len _ _ A6). lia. }
  assert (Hc1 : cinv xa c6).
  { clear -Hc A Hl6 Hia Hrows. destruct Hc. subst xa i n. split; cbn; try done.
    - rewrite Hrows, length_app. cbn. lia.
    - by etrans.
    - lia. }
  assert (HG1 : binv (nodes xa) G) by (eapply ginv_ext; [apply cached_old_mono|exact Hn1|exact HG]).
  apply bind_Ok in H as ([[sc c7] xb] & Hb & H).
  destruct (Hrec (be_val addr) Hav _ _ _ _ _ _ Hb Hc1 HG1) as (G2 & st & Hc2 & A7 & [Hg2 Hga] & Hwst & Hpt & Hbuilt).
  specialize (Hga eq_refl). destruct (seal Storage _ _ _ _ _ _ _ Hbuilt Hwst) as (G3 & [Hg3 Hga3] & HG3 & Hat). specialize (Hga3 eq_refl).
  pose proof (built_ext _ _ _ _ _ _ _ Hbuilt) as Hn2. set (n2 := nodes xb) in *.
  assert (Hfresh : g_account G3 !! i = None) by (rewrite Hga3, Hga; by apply (fresh_account _ _ _ _ _ HG)).
  assert (Hlk : Accounts.rows (accounts n2) !! i = Some row).
  { eapply prefix_lookup_Some; [|exact (ex_account _ _ Hn2)]. cbn. rewrite Hrows. unfold i. by rewrite lookup_app_r, Nat.sub_diag by lia. }
  apply bind_Ok in H as (sres & Hsr & H). apply bind_Ok in H as (sroot & Hfin & H).
  destruct (at_old _ _ _ _ _ _ HG3 Hat Hwst) as (sres' & Hsr' & Hden).
  assert (sres' = sres) as ->.
  { unfold child_result in Hsr'. destruct (child_type sc) eqn:Ety; congruence. }
  pose proof (finalize_fits keccak256 garbage _ _ _ _ _ _ Hden Hfin) as Hfits.
  rewrite (finalize_den keccak256 garbage garbage_len _ _ _ _ _ Hden Hfits) in Hfin. apply Ok_inj in Hfin. cbn [length] in Hfin.
  apply bind_Ok in H as (nib & Hnib & H). apply bind_Ok in H as ([node a2] & Hbv & H). apply Ok_inj in H. injection H as <- <- <-.
  destruct (path_from_key_nibbles (garbage 34) key (Z.of_nat (length w))) as (nib' & Hn' & Hnw & _ & Hnn);
    [apply garbage_len|done|lia|]. rewrite Hn' in Hnib. apply Ok_inj in Hnib. subst nib'. rewrite Nat2Z.id, Hkn in Hnn.
  destruct (build_value_row _ _ _ _ _ _ _ _ row Hbv Hlk) as (Hemp & Hnode & row' & -> & Hrec' & Hah & Hsc & Hca). cbv zeta in *.
  rewrite Rn, Rb, Rc in *.
  set (n3 := retouch i row' n2). set (l := LAccount i (be_val addr) nonce (be_val bal) (be_val code) st).
  assert (Hkey : lkey keccak256 l = hash_nibbles (keccak256 addr)) by (cbn [lkey l]; by rewrite be_bytes_val).
  assert (Hwf : wf keccak256 InState w (TKey l)).
  { apply wf_account; [done|done|by apply be_val_32|by apply be_val_32|fold l; by rewrite Hkey|done|].
    intros He. rewrite Hfin. by apply Hemp. }
  assert (Hin : (i < length (Accounts.rows (accounts n2)))%nat) by (by eapply lookup_lt_Some).
  assert (HG3' : binv n3 G3) by (by eapply binv_retouch).
  destruct (ginv_account keccak256 cached_old cached_old_mono n3 n3 G3 i InState w (TKey l)) as [HG4 Hg4]; [done|done|done|done| |].
  { exists row', st. split; [cbn; by rewrite list_lookup_insert_eq|]. cbv zeta. rewrite Hrec', Ra, Rn, Rb, Rc, Hah, Hsc, Hca.
    split_and!; [done|by rewrite be_bytes_val, Hkv| |done|].
    - eapply at_mono; [reflexivity| |exact Hat]. split; cbn; [done|done|by apply insert_subseteq|done].
    - unfold cached_old, w_old. cbn [old lvo l]. rewrite Hnode. unfold account_value.
      destruct (is_empty_account _ _ _); [constructor|]. cbn [leaf_node lsrc]. fold l. rewrite Hkey, <- Hnn.
      change (old keccak256 (lkey keccak256) lsrc (lvo keccak256) 0 st) with (w_old keccak256 0 st). rewrite Hfin.
      constructor; [done|done|by apply be_val_32|]. unfold acct_fields, pick, Accounts.nonce_orig_at, Accounts.balance_orig_at,
        Accounts.code_hash_orig_at, Accounts.row_at, vec_get. cbn. rewrite list_lookup_insert_eq by done. cbn. by rewrite Hrec', Rn, Rb, Rc. }
  assert (Hn3 : ext n n3).
  { assert (Hn02 : ext n n2) by (by etrans). destruct Hn02. split; cbn; try done.
    destruct (ex_account _ _ Hn2) as [rest Er]. cbn in Er. rewrite Er, Hrows, <- app_assoc. cbn.
    rewrite insert_app_r_alt, Nat.sub_diag by (unfold i; lia). by apply prefix_app_r. }
  exists (with_account i (mkEntry InState w (TKey l)) G3), (TKey l). split_and!; [| | |done|done|].
  - apply (cinv_adv _ c7); [|done]. clear -Hc2. destruct Hc2. subst n2. split; cbn; try done. by rewrite length_insert.
  - by etrans.
  - split; [|done]. do 2 (etrans; [eassumption|]). done.
  - apply built_node; [|done|done|done|].
    { destruct (built_covers _ _ _ _ _ _ _ Hbuilt) as [Ca Cs]. split; intros j; cbn; [rewrite length_insert|].
      - intros Hj. destruct (decide (j = i)) as [->|]; [by left|]. right. apply Ca. cbn. rewrite Hrows, length_app. cbn. fold i. lia.
      - intros Hj. by apply Cs. }
    unfold at_node. cbn [child_type child_idx].
    rewrite u32_small, Nat2Z.id; [cbn; apply lookup_insert_eq|].
    pose proof (ci_rows _ _ Hc) as Hrw. pose proof (ci_stream _ _ Hc) as Hst. fold n in Hrw, Hst. rewrite Hia in Hrw. fold i in Hrw.
    pose proof (len_nonneg c6). split; [lia|]. eapply Z.le_lt_trans; [|exact Hst]. apply Z.div_le_lower_bound; lia.
Qed.

(** ** The whole walk *)

(** One node, given the specifications of its leaf and of the nodes below. *)
Lemma node_spec fuel kd ow k w :
  (∀ c0 c x G suffix ch c' x',
    match kd with
    | State => build_account_leaf keccak256 garbage (build_node keccak256 garbage fuel) c x w suffix
    | Storage => build_storage_leaf keccak256 garbage c x w suffix ow
    end = Ok (ch, c', x') →
    path_wf suffix → off suffix = 0 → cinv x c0 → adv c0 c → len c + 8 ≤ len c0 → binv (nodes x) G →
    ∃ G' t, cinv x' c' ∧ adv c0 c' ∧ gk kd G G' ∧ wf keccak256 k w t ∧ child_type ch ≠ NT_PoolHash ∧
      built (nodes x) (nodes x') G' k w ch t) →
  (∀ j, (j < 16)%nat → build_spec (build_node keccak256 garbage fuel) kd ow k (w ++ [Z.of_nat j])) →
  build_spec (build_node keccak256 garbage (S fuel)) kd ow k w.
Proof.
  intros Hleaf Hrec c x G ch c' x' H Hc HG. cbn [build_node] in H.
  apply bind_Ok in H as ([v c1] & Hr & H). apply read_u64_adv in Hr as (A1 & L1 & _).
  destruct (op_of v) as [[]|]; [..|done].
  - apply Ok_inj in H. injection H as <- <- <-. exists G, TEmpty.
    split_and!; [by eapply cinv_adv|done|done|constructor|done|apply built_node; [by apply covers_same|done..]].
  - apply bind_Ok in H as ([h c2] & H2 & H). apply (read_field_adv 4) in H2 as [A2 Hl]; [|done].
    apply bind_Ok in H as ([i xb] & He & H). apply Ok_inj in H. injection H as <- <- <-.
    eapply (build_aux _ _ _ c); [exact He|done|by etrans|done|done|done|apply wf_hash; by apply be_val_32|].
    intros n Hn. unfold at_node. cbn [child_type child_idx]. by exists (be_val h).
  - apply bind_Ok in H as ([p c2] & H2 & H). apply read_nibbles_spec in H2 as (A2 & Hp & _ & Hpl).
    apply bind_Ok in H as ([h c3] & H3 & H). apply (read_field_adv 4) in H3 as [A3 Hl]; [|done].
    apply bind_Ok in H as ([i xb] & He & H). apply Ok_inj in H. injection H as <- <- <-.
    destruct (pnibbles_short p Hp Hpl). eapply (build_aux _ _ _ c);
      [exact He|done|etrans; [exact A1|]; etrans; [exact A2|exact A3]|done|done|done|apply wf_ext; [done|done|by apply be_val_32]|].
    intros n Hn. unfold at_node. cbn [child_type child_idx]. by exists p, (be_val h).
  - unfold build_leaf_node in H. apply bind_Ok in H as ([suffix c2] & H2 & H). apply read_nibbles_spec in H2 as (A2 & Hp & Ho & _).
    pose proof (adv_len _ _ A2). eapply (Hleaf c); [exact H|done|done|done|by etrans|lia|done].
  - destruct (branch_spec (build_node keccak256 garbage fuel) kd ow k w (λ j _, Hrec j) _ _ G _ _ _ H)
      as (G' & t & ? & ? & ? & ? & ? & ?); [by eapply cinv_adv|done|]. exists G', t. split_and!; try done. by etrans.
  - by eapply phantom_spec.
Qed.

Lemma storage_spec owner fuel w :
  0 ≤ owner < 2 ^ 160 → Forall is_nibble w → build_spec (build_node keccak256 garbage fuel) Storage (Some owner) (InStorage owner) w.
Proof.
  intros Ho. revert w. induction fuel as [|fuel IH]; intros w Hw; [by intros ? ? ? ? ? ?|]. apply node_spec.
  - intros. by eapply slot_leaf_spec.
  - intros j Hj. apply IH, Forall_app. split; [done|]. repeat constructor; unfold is_nibble; lia.
Qed.
Lemma state_spec fuel w : Forall is_nibble w → build_spec (build_node keccak256 garbage fuel) State None InState w.
Proof.
  revert w. induction fuel as [|fuel IH]; intros w Hw; [by intros ? ? ? ? ? ?|]. apply node_spec.
  - intros. eapply account_leaf_spec; try done. intros. by apply storage_spec.
  - intros j Hj. apply IH, Forall_app. split; [done|]. repeat constructor; unfold is_nibble; lia.
Qed.

(** The arrays of a finished object beside its tables. *)
Definition view (sr : StateRoot) (a : Accounts.Accounts) (s : Storages.Storages) : Nodes :=
  let '(bs, ax, chs) := arrays sr in mkNodes a s bs ax chs (stream_ sr).

Lemma state_root_spec c a s sr c' a' s' :
  Accounts.rows a = [] → Storages.rows s = [] →
  state_root keccak256 garbage c a s = Ok (sr, c', a', s') →
  ∃ G t, wf keccak256 InState [] t ∧ binv (view sr a' s') G ∧ at_node (view sr a' s') G InState [] (root_ sr) t ∧
    child_type (root_ sr) ≠ NT_PoolHash ∧ fits (w_old keccak256 0 t) ∧
    (∀ i, (i < length (Accounts.rows a'))%nat → i ∈ ids lf_accts t) ∧ (∀ i, (i < length (Storages.rows s'))%nat → i ∈ ids lf_slots t) ∧
    old_root_ sr = root_of keccak256 (w_old keccak256 0 t).
Proof.
  intros Ha Hs H. unfold state_root in H.
  apply bind_Ok in H as ([nn c1] & H1 & H). apply read_u64_adv in H1 as (_ & _ & Hnn). apply bind_Ok in H as ([na c2] & _ & H).
  apply bind_Ok in H as ([ns c3] & _ & H). apply bind_Ok in H as ([fs c4] & _ & H).
  apply bind_Ok in H as (? & Hl1%fatal_if_Ok & H). apply bind_Ok in H as (? & Hl2%fatal_if_Ok & H). apply Z.ltb_ge in Hl1, Hl2.
  apply bind_Ok in H as ([[root c5] xb] & Hb & H). apply bind_Ok in H as (r & Hr & H). apply bind_Ok in H as (oroot & Hf & H).
  apply Ok_inj in H. injection H as <- <- <- <-. unfold stream_remaining, in_u64 in *. pose proof (len_nonneg c4).
  destruct (state_spec levels [] (List.Forall_nil _) _ _ ghost0 _ _ _ Hb) as (G & t & Hc & _ & _ & Hw & Hpt & Hbuilt).
  { split; cbn; try done; [by rewrite Ha|by rewrite Hs|unfold total_n; cbn; lia|lia]. }
  { split; apply map_Forall_empty. }
  destruct (seal State _ _ _ _ _ _ _ Hbuilt Hw) as (G' & _ & HG & Hat).
  assert (Hv : view (mkRoot nn oroot (branch_nodes (nodes xb), aux (nodes xb), chains (nodes xb)) (phantom_values xb) c4 root)
    (accounts (nodes xb)) (storages (nodes xb)) = nodes xb).
  { pose proof (ex_stream _ _ (built_ext _ _ _ _ _ _ _ Hbuilt)) as Hst. cbn in Hst. unfold view. cbn. rewrite Hst. by destruct (nodes xb). }
  rewrite Hv. exists G', t. cbn [root_ old_root_].
  destruct (at_old _ _ _ _ _ _ HG Hat Hw) as (r' & Hr' & Hden). assert (r' = r) as ->.
  { unfold child_result in Hr'. destruct (child_type root) eqn:Ety; congruence. }
  pose proof (finalize_fits keccak256 garbage _ _ _ _ _ _ Hden Hf) as Hfits.
  rewrite (finalize_den keccak256 garbage garbage_len _ _ _ _ _ Hden Hfits) in Hf. apply Ok_inj in Hf.
  destruct (built_covers _ _ _ _ _ _ _ Hbuilt) as [Ca Cs]. cbn in Ca, Cs. rewrite Ha in Ca. rewrite Hs in Cs. cbn in Ca, Cs.
  split_and!; try done; intros i Hi; [apply Ca|apply Cs]; lia.
Qed.

End Build.
End RootBuild.
