(* ===== verification/RootEval.v ===== *)
(** The evaluation walk of src/state_root.cpp.  Against the current values of the
    tables, it returns what evaluating the whole witness tree from scratch
    returns, although it rehashes only the nodes over a value that changed; its
    read-only flag says exactly that nothing below changed, and it stops only on
    the branch collapse the specification rejects. *)

From stdpp Require Import base numbers list strings gmap.
From S2P Require Import Prelude Rlp Writer Contracts TriePath Mpt Accounts Storages StateRoot RootSpec RootEncode RootTags RootShape RootBuild.

Set Default Goal Selector "!".

Module RootEval.
Import Rlp Stream TriePath Node Mpt StateRoot RootSpec RootEncode RootTags RootShape RootBuild.

(** ** Measures of a witness tree *)

Section Measures.
Context {L : Type} (lshort : L → bool) (lheight : L → nat).

(** The paths below depth [d] end within a key of 64 nibbles. *)
Fixpoint short (d : nat) (t : tree L) : bool :=
  match t with
  | TExt ns _ | TPhantom ns _ => (d + length ns <=? 64)%nat
  | TKey l => lshort l
  | TBranch kids => forallb (short (S d)) kids
  | _ => true
  end.
(** The nesting of the walk. *)
Fixpoint height (t : tree L) : nat :=
  match t with
  | TKey l => lheight l
  | TBranch kids => S (max_list (map height kids))
  | _ => 1
  end.
End Measures.
Fixpoint lf_short (l : lf) : bool :=
  match l with LAccount _ _ _ _ _ st => short lf_short 0 st | LStorage _ _ _ _ => true end.
Fixpoint lf_height (l : lf) : nat :=
  match l with LAccount _ _ _ _ _ st => S (height lf_height st) | LStorage _ _ _ _ => 1 end.
Definition w_short : nat → tree lf → bool := short lf_short.
Definition w_height : tree lf → nat := height lf_height.

(** ** The values in the tables *)

Definition row_fields (r : Accounts.Row) : Z * Z * Z :=
  (Accounts.row_nonce r, Accounts.row_balance r, Accounts.row_code_hash r).
Definition table_values (a : Accounts.Accounts) (s : Storages.Storages) : valuation :=
  mkVal (λ i, default (0, 0, 0) (row_fields <$> Accounts.rows a !! i))
        (λ i, default 0 (Storages.row_value <$> Storages.rows s !! i)).

(** The current values are of their machine width. *)
Definition in_range (a : Accounts.Accounts) (s : Storages.Storages) : Prop :=
  (∀ i row, Accounts.rows a !! i = Some row →
     in_u64 (Accounts.row_nonce row) ∧ in_u256 (Accounts.row_balance row) ∧ in_u256 (Accounts.row_code_hash row)) ∧
  (∀ i row, Storages.rows s !! i = Some row → in_u256 (Storages.row_value row)).

Record reads (V : valuation) (a : Accounts.Accounts) (s : Storages.Storages) : Prop := {
  rd_account : ∀ i row, Accounts.rows a !! i = Some row → cur_account V i = row_fields row;
  rd_slot : ∀ i row, Storages.rows s !! i = Some row → cur_slot V i = Storages.row_value row;
  rd_range : in_range a s }.
Lemma reads_table a s : in_range a s → reads (table_values a s) a s.
Proof. intros Hr. split; [|..|done]; intros i row E; cbn; by rewrite E. Qed.

(** Tables that differ in what they cache. *)
Definition acc_part (r : Accounts.Row) : bytes * Accounts.Mods := (Accounts.record r, Accounts.mods r).
Definition slot_part (r : Storages.Row) : bytes * Storages.Mods := (Storages.record r, Storages.mods r).
Record same_rows (n n' : Nodes) : Prop := {
  sm_account : ∀ i, acc_part <$> Accounts.rows (accounts n) !! i = acc_part <$> Accounts.rows (accounts n') !! i;
  sm_slot : ∀ i, slot_part <$> Storages.rows (storages n) !! i = slot_part <$> Storages.rows (storages n') !! i }.
#[export] Instance same_rows_equiv : Equivalence same_rows.
Proof.
  split.
  - by split.
  - intros n1 n2 []. by split.
  - intros n1 n2 n3 [Ha Hs] [Ha' Hs']. split; intros i; [by rewrite Ha|by rewrite Hs].
Qed.

Lemma reads_same V n n' : same_rows n n' → reads V (accounts n) (storages n) → reads V (accounts n') (storages n').
Proof.
  intros [Ha Hs] [Ra Rs [Ga Gs]].
  assert (Fa : ∀ i row, Accounts.rows (accounts n') !! i = Some row →
    ∃ row0, Accounts.rows (accounts n) !! i = Some row0 ∧ acc_part row0 = acc_part row).
  { intros i row E. specialize (Ha i). rewrite E in Ha. destruct (Accounts.rows (accounts n) !! i) as [row0|]; [|done].
    exists row0. split; [done|]. by apply (inj Some) in Ha. }
  assert (Fs : ∀ i row, Storages.rows (storages n') !! i = Some row →
    ∃ row0, Storages.rows (storages n) !! i = Some row0 ∧ slot_part row0 = slot_part row).
  { intros i row E. specialize (Hs i). rewrite E in Hs. destruct (Storages.rows (storages n) !! i) as [row0|]; [|done].
    exists row0. split; [done|]. by apply (inj Some) in Hs. }
  assert (Ea : ∀ r r', acc_part r = acc_part r' → row_fields r = row_fields r').
  { intros r r' [= E1 E2]. unfold row_fields, Accounts.row_nonce, Accounts.row_balance, Accounts.row_code_hash. by rewrite E1, E2. }
  assert (Es : ∀ r r', slot_part r = slot_part r' → Storages.row_value r = Storages.row_value r').
  { intros r r' [= E1 E2]. unfold Storages.row_value. by rewrite E1, E2. }
  split.
  - intros i row (row0 & E & E')%Fa. rewrite (Ra _ _ E). by apply Ea.
  - intros i row (row0 & E & E')%Fs. rewrite (Rs _ _ E). by apply Es.
  - split.
    + intros i row (row0 & E & E')%Fa. destruct (Ga _ _ E) as (? & ? & ?). apply Ea in E'. injection E' as <- <- <-. done.
    + intros i row (row0 & E & E')%Fs. rewrite <- (Es _ _ E'). by eapply Gs.
Qed.

Lemma den_same n n' which r ρ :
  same_rows n n' → den (accounts n) (storages n) which r ρ → den (accounts n') (storages n') which r ρ.
Proof.
  intros [Ha Hs] Hd. destruct Hd as [|h|p h Hp ?|p i sr m b c Hp ? ? Hf|p i v Hp ? Hf|p v Hp ?]; try by constructor.
  - constructor; [done|done|done|]. revert Hf. specialize (Ha i).
    unfold acct_fields, pick, Accounts.nonce_orig_at, Accounts.balance_orig_at, Accounts.code_hash_orig_at,
      Accounts.nonce_at, Accounts.balance_at, Accounts.code_hash_at, Accounts.row_at, vec_get,
      Accounts.row_nonce, Accounts.row_balance, Accounts.row_code_hash.
    destruct (Accounts.rows (accounts n) !! i) as [row|], (Accounts.rows (accounts n') !! i) as [row'|]; [|done|done|by destruct which].
    cbn in Ha. injection Ha as E1 E2. cbn. by rewrite E1, E2.
  - constructor; [done|done|]. revert Hf. specialize (Hs i).
    unfold pick, Storages.value_orig_at, Storages.value_at, Storages.row_at, vec_get, Storages.row_value.
    destruct (Storages.rows (storages n) !! i) as [row|], (Storages.rows (storages n') !! i) as [row'|]; [|done|done|by destruct which].
    cbn in Hs. injection Hs as E1 E2. cbn. by rewrite E1, E2.
Qed.

(** ** Trees in which nothing changed *)

Lemma bind_val {A B} (m : res A) x (f : A → res B) : m = Ok x → (m ≫= f) = f x.
Proof. by intros ->. Qed.
Lemma map_res_all {A B} (f : A → res B) (g : A → B) l : (∀ x, x ∈ l → f x = Ok (g x)) → map_res f l = Ok (map g l).
Proof.
  induction l as [|x l IH]; intros H; [done|]. cbn. rewrite H by (by left). cbn. rewrite IH; [done|].
  intros y Hy. apply H. by right.
Qed.
Lemma map_res_Ok {A B} (f : A → res B) l ys : map_res f l = Ok ys → Forall2 (λ x y, f x = Ok y) l ys.
Proof.
  revert ys. induction l as [|x l IH]; intros ys H; cbn in H; [by apply Ok_inj in H as <-|].
  apply bind_Ok in H as (y & Hy & H). apply bind_Ok in H as (ys' & Hys & H). apply Ok_inj in H as <-. constructor; auto.
Qed.
Lemma map_res_intro {A B} (f : A → res B) l ys : Forall2 (λ x y, f x = Ok y) l ys → map_res f l = Ok ys.
Proof. induction 1 as [|x y l ys H _ IH]; [done|]. cbn. rewrite H. cbn. by rewrite IH. Qed.
Lemma map_res_fatal {A B} (f : A → res B) l m x :
  (∀ y m', y ∈ l → f y = Fatal m' → m' = m) → x ∈ l → f x = Fatal m → map_res f l = Fatal m.
Proof.
  intros Hall Hx Hf. induction l as [|y l IH]; [by apply not_elem_of_nil in Hx|]. cbn.
  destruct (f y) as [v|m'] eqn:E; cbn; [|f_equal; eapply Hall; [by left|done]].
  apply elem_of_cons in Hx as [<-|Hx]; [congruence|]. rewrite IH; [done| |done]. intros z m' Hz. apply Hall. by right.
Qed.

Section World.
Context (keccak256 : bytes → Z) (V : valuation).

Lemma kids_unchanged kids t : w_changed V (TBranch kids) = false → t ∈ kids → w_changed V t = false.
Proof.
  intros H Ht. destruct (w_changed V t) eqn:E; [|done]. rewrite <- H. symmetry. apply existsb_exists.
  exists t. split; [by apply list_elem_of_In|done].
Qed.

Lemma new_branch d kids : w_new keccak256 V d (TBranch kids) =
  (rs ← map_res (w_new keccak256 V (S d)) kids;
   _ ← fatal_if (existsb (w_changed V) kids && orphan kids rs) orphan_msg; Ok (reduce keccak256 rs)).
Proof. done. Qed.

Lemma unchanged_new k w t : wf keccak256 k w t → w_changed V t = false → ∀ d, w_new keccak256 V d t = Ok (w_old keccak256 d t).
Proof.
  intros Hw. induction Hw as [| | | |w i addr n b c st ? ? ? ? ? Hst IH ?|w i ow p v ? ? ?|k w kids Hl Hlw Hk IH]; intros Hc d; try done.
  - unfold w_changed in Hc. cbn [changed lch] in Hc. apply orb_false_iff in Hc as [Hf Hc]. unfold w_new, w_old. cbn [new old lvn lvo].
    specialize (IH Hc 0%nat). unfold w_new, w_old in IH. rewrite IH. cbn [mbind res_bind].
    destruct (cur_account V i) as [[n' b'] c']. apply negb_false_iff in Hf. rewrite !andb_true_iff, !Z.eqb_eq in Hf.
    destruct Hf as [[-> ->] ->]. done.
  - unfold w_changed in Hc. cbn [changed lch] in Hc. apply negb_false_iff, Z.eqb_eq in Hc. subst v. done.
  - rewrite new_branch. rewrite (map_res_all _ (w_old keccak256 (S d))).
    2:{ intros t Ht. apply list_elem_of_lookup in Ht as Hj. destruct Hj as [j Hj]. apply (IH j t Hj). by eapply kids_unchanged. }
    cbn [mbind res_bind]. change (existsb (w_changed V) kids) with (w_changed V (TBranch kids)). by rewrite Hc.
Qed.

Lemma new_fatal k w t m : wf keccak256 k w t → ∀ d, w_new keccak256 V d t = Fatal m → m = orphan_msg.
Proof.
  intros Hw. induction Hw as [| | | |w i addr n b c st ? ? ? ? ? Hst IH ?|w i ow p v ? ? ?|k w kids Hl Hlw Hk IH]; intros d HE; try done.
  - unfold w_new in HE. cbn [new lvn] in HE. change (new _ _ _ (lvn keccak256 V) (lch V) 0 st) with (w_new keccak256 V 0 st) in HE.
    destruct (w_new keccak256 V 0 st) as [r|m'] eqn:E; [by destruct (cur_account V i) as [[? ?] ?]|].
    cbn in HE. injection HE as ->. by eapply IH.
  - rewrite new_branch in HE. destruct (map_res _ kids) as [rs|m'] eqn:E; cbn [mbind res_bind] in HE.
    + destruct (_ && _); [|done]. cbn in HE. by injection HE as <-.
    + injection HE as ->. clear -E IH. assert (IH' : ∀ t, t ∈ kids → w_new keccak256 V (S d) t = Fatal m → m = orphan_msg).
      { intros t Ht. apply list_elem_of_lookup in Ht as [j Hj]. by apply (IH j t Hj). }
      clear IH. induction kids as [|t kids IHk]; [done|]. cbn in E. destruct (w_new keccak256 V (S d) t) as [r|m1] eqn:Et.
      * cbn in E. destruct (map_res _ kids) as [rs|m2]; [done|]. cbn in E. apply IHk; [done|]. intros t' Ht'. apply IH'. by right.
      * cbn in E. injection E as ->. apply (IH' t); [by left|done].
Qed.

(** What a reduced leaf says of the current values, when nothing changed. *)
Definition says (src : Src) (v : bytes) : Prop :=
  match src with
  | SAccount i => ∃ sr, let '(n, b, c) := cur_account V i in v = account_rlp n b sr c
  | SStorage i => v = encode_u256 (cur_slot V i)
  | SWitness => True
  end.

Lemma reduce_leaf rs ns v src : reduce keccak256 rs = NL ns v src → ∃ j ns', rs !! j = Some (NL ns' v src).
Proof.
  unfold reduce. intros H. destruct (live 0 rs) as [|[j r] [|? ?]] eqn:E; [done| |done].
  destruct (live_elem 0 rs j r) as (_ & Hj & _); [rewrite E; by left|]. destruct r; try done. cbn in H.
  injection H as <- <- <-. eauto.
Qed.

Lemma unchanged_says k w t : wf keccak256 k w t → w_changed V t = false →
  ∀ d ns v src, w_old keccak256 d t = NL ns v src → says src v.
Proof.
  intros Hw. induction Hw as [| | | |w i addr n b c st ? ? ? ? ? Hst IH ?|w i ow p v ? ? ?|k w kids Hl Hlw Hk IH];
    intros Hc d ms v' src H'; try done.
  - by injection H' as <- <- <-.
  - unfold w_changed in Hc. cbn [changed lch] in Hc. apply orb_false_iff in Hc as [Hf _]. unfold w_old in H'. cbn [old lvo] in H'.
    unfold account_value in H'. destruct (is_empty_account n b c); [done|]. cbn [leaf_node lsrc] in H'. injection H' as <- <- <-.
    cbn [says]. destruct (cur_account V i) as [[n' b'] c']. apply negb_false_iff in Hf. rewrite !andb_true_iff, !Z.eqb_eq in Hf.
    destruct Hf as [[-> ->] ->]. eauto.
  - unfold w_changed in Hc. cbn [changed lch] in Hc. apply negb_false_iff, Z.eqb_eq in Hc. unfold w_old in H'. cbn [old lvo] in H'.
    unfold slot_value in H'. destruct (v =? 0); [done|]. cbn [leaf_node lsrc] in H'. injection H' as <- <- <-. cbn. by rewrite <- Hc.
  - change (w_old keccak256 d (TBranch kids)) with (reduce keccak256 (map (w_old keccak256 (S d)) kids)) in H'.
    apply reduce_leaf in H' as (j & ns' & Hj). rewrite list_lookup_fmap in Hj. destruct (kids !! j) as [t|] eqn:Et; [|done].
    injection Hj as Hj. eapply (IH j t Et); [|exact Hj]. eapply kids_unchanged; [done|by eapply list_elem_of_lookup_2].
Qed.
End World.

(** ** Cached results *)

Lemma account_items n b sr c :
  Forall is_item [encode_u64 n; encode_u256 b; encode (be_bytes 32 sr); encode (be_bytes 32 c)].
Proof.
  repeat constructor; apply string_item; unfold len; rewrite ?length_drop, ?length_be_bytes; lia.
Qed.
Lemma account_rlp_items n b sr c n' b' sr' c' :
  in_u64 n → in_u256 b → in_u64 n' → in_u256 b' → account_rlp n b sr c = account_rlp n' b' sr' c' →
  [encode_u64 n; encode_u256 b; encode (be_bytes 32 sr); encode (be_bytes 32 c)] =
  [encode_u64 n'; encode_u256 b'; encode (be_bytes 32 sr'); encode (be_bytes 32 c')].
Proof.
  intros Hn Hb Hn' Hb'. apply list_inj; [apply account_items|apply account_items|..]; cbn [concat]; rewrite app_nil_r.
  - pose proof (len_account_payload n b sr c Hn Hb). lia.
  - pose proof (len_account_payload n' b' sr' c' Hn' Hb'). lia.
Qed.

Lemma den_unchanged keccak256 V k w t n r d :
  wf keccak256 k w t → w_changed V t = false → reads V (accounts n) (storages n) →
  den (accounts n) (storages n) Original r (w_old keccak256 d t) → den (accounts n) (storages n) Current r (w_old keccak256 d t).
Proof.
  intros Hw Hc Hr Hd. pose proof (unchanged_says keccak256 V k w t Hw Hc d) as Hs. revert Hs.
  destruct Hd as [|h|p h Hp ?|p i sr m b c Hp Hm Hb Hf|p i v Hp ? Hf|p v Hp ?]; intros Hs; try by constructor.
  - specialize (Hs _ _ _ eq_refl) as [sr0 Hs]. revert Hf. unfold acct_fields, pick, Accounts.nonce_orig_at, Accounts.balance_orig_at,
      Accounts.code_hash_orig_at, Accounts.row_at, vec_get. destruct (Accounts.rows (accounts n) !! i) as [row|] eqn:E; [|done]. intros _.
    rewrite (rd_account _ _ _ Hr _ _ E) in Hs. unfold row_fields in Hs. cbv beta iota zeta in Hs. destruct (proj1 (rd_range _ _ _ Hr) _ _ E) as (Rn & Rb & _).
    rewrite Hs. pose proof Hs as Hi. apply account_rlp_items in Hi; [|done..]. apply (f_equal (λ l, nth 2 l [])) in Hi. cbn [nth] in Hi.
    unfold account_rlp. rewrite <- Hi. apply den_account; [done|done|done|].
    unfold acct_fields, pick, Accounts.nonce_at, Accounts.balance_at, Accounts.code_hash_at, Accounts.row_at, vec_get. by rewrite E.
  - specialize (Hs _ _ _ eq_refl). cbn [says] in Hs. revert Hf. unfold pick, Storages.value_orig_at, Storages.row_at, vec_get.
    destruct (Storages.rows (storages n) !! i) as [row|] eqn:E; [|done]. intros _.
    rewrite Hs, (rd_slot _ _ _ Hr _ _ E). constructor; [done|by apply (proj2 (rd_range _ _ _ Hr) i)|].
    unfold pick, Storages.value_at, Storages.row_at, vec_get. by rewrite E.
Qed.

(** ** Runs of single-child branches *)

Lemma map_res_replicate {A B} (f : A → res B) x y m : f x = Ok y → map_res f (replicate m x) = Ok (replicate m y).
Proof. intros E. induction m as [|m IH]; [done|]. cbn. rewrite E. cbn. by rewrite IH. Qed.
Lemma map_res_single {A B} (f : A → res B) x0 y0 x i m :
  (i < m)%nat → f x0 = Ok y0 →
  map_res f (<[i := x]> (replicate m x0)) = (y ← f x; Ok (<[i := y]> (replicate m y0))).
Proof.
  intros Hi E. revert i Hi. induction m as [|m IH]; intros i Hi; [lia|]. destruct i as [|i]; cbn.
  - destruct (f x) as [y|]; [|done]. cbn. by rewrite (map_res_replicate _ _ _ _ E).
  - rewrite E. cbn. rewrite IH by lia. by destruct (f x).
Qed.
Lemma existsb_single {A} (f : A → bool) x0 x i m :
  (i < m)%nat → f x0 = false → existsb f (<[i := x]> (replicate m x0)) = f x.
Proof.
  intros Hi E. assert (Hr : ∀ k, existsb f (replicate k x0) = false) by (induction k as [|k IH]; cbn; [done|by rewrite E]).
  revert i Hi. induction m as [|m IH]; intros i Hi; [lia|]. destruct i as [|i]; cbn; [by rewrite Hr, orb_false_r|].
  rewrite E. apply IH. lia.
Qed.
Lemma filter_single {A} (f : A → bool) x0 x i m :
  f x0 = false → (length (List.filter f (<[i := x]> (replicate m x0))) ≤ 1)%nat.
Proof.
  intros E. assert (Hr : ∀ k, List.filter f (replicate k x0) = []) by (induction k as [|k IH]; cbn; [done|by rewrite E]).
  revert i. induction m as [|m IH]; intros i; [destruct i; cbn; lia|]. destruct i as [|i]; cbn.
  - rewrite Hr. destruct (f x); cbn; lia.
  - rewrite E. apply IH.
Qed.

Section Runs.
Context (keccak256 : bytes → Z) (V : valuation).

Lemma orphan_single i t rs : orphan (<[i := t]> (replicate 16 (@TEmpty lf))) rs = false.
Proof.
  unfold orphan. destruct (live 0 rs) as [|[j r] [|? ?]]; [done| |done].
  rewrite (proj2 (Nat.leb_gt 2 _)), andb_false_r; [done|]. pose proof (filter_single (λ t, negb (is_TEmpty t)) (@TEmpty lf) t i 16 eq_refl). lia.
Qed.
Lemma new_single d j t : 0 ≤ j < 16 →
  w_new keccak256 V d (single j t) = (r ← w_new keccak256 V (S d) t; Ok (fold1 j r)).
Proof.
  intros Hj. unfold single. rewrite new_branch, (map_res_single _ TEmpty NE) by (done || lia).
  destruct (w_new keccak256 V (S d) t) as [r|]; [|done]. cbn [mbind res_bind].
  rewrite orphan_single, andb_false_r. cbn [fatal_if mbind res_bind]. by rewrite reduce_single.
Qed.
Lemma changed_single j t : 0 ≤ j < 16 → w_changed V (single j t) = w_changed V t.
Proof. intros Hj. unfold single. apply (existsb_single (w_changed V)); [lia|done]. Qed.

Lemma new_nest ns t d : Forall is_nibble ns →
  w_new keccak256 V d (nest ns t) = (r ← w_new keccak256 V (d + length ns) t; Ok (fold_all ns r)).
Proof.
  intros Hns. revert d. induction Hns as [|j ns Hj _ IH]; intros d.
  - cbn [nest foldr length fold_all]. rewrite Nat.add_0_r. by destruct (w_new keccak256 V d t).
  - cbn [nest foldr]. rewrite new_single by done. change (foldr single t ns) with (nest ns t). rewrite IH. cbn [length].
    rewrite <- Nat.add_succ_comm. cbn [Nat.add]. by destruct (w_new keccak256 V (S (d + length ns)) t).
Qed.
Lemma changed_nest ns t : Forall is_nibble ns → w_changed V (nest ns t) = w_changed V t.
Proof. induction 1 as [|j ns Hj _ IH]; [done|]. cbn [nest foldr]. by rewrite changed_single. Qed.

Lemma kid_short d kids t : w_short d (TBranch kids) = true → t ∈ kids → w_short (S d) t = true.
Proof.
  unfold w_short. cbn [short]. intros Hs Ht. apply list_elem_of_In in Ht. by apply (proj1 (forallb_forall _ _) Hs).
Qed.
Lemma kid_height (kids : list (tree lf)) t : t ∈ kids → (S (w_height t) ≤ w_height (TBranch kids))%nat.
Proof.
  intros Ht. unfold w_height. cbn [height]. apply le_n_S. apply Mpt.max_list_in. apply list_elem_of_fmap. by exists t.
Qed.
Lemma single_kid j t : 0 ≤ j < 16 → t ∈ <[Z.to_nat j := t]> (replicate 16 (@TEmpty lf)).
Proof. intros Hj. eapply list_elem_of_lookup_2 with (i := Z.to_nat j). apply list_lookup_insert_eq. rewrite length_replicate. lia. Qed.
Lemma short_nest ns t d : Forall is_nibble ns → w_short d (nest ns t) = true → w_short (d + length ns) t = true.
Proof.
  intros Hns. revert d. induction Hns as [|j ns Hj _ IH]; intros d Hs; [by rewrite Nat.add_0_r|]. cbn [length].
  rewrite <- Nat.add_succ_comm. apply IH. by eapply kid_short; [exact Hs|apply single_kid].
Qed.
Lemma height_nest ns t : Forall is_nibble ns → ns ≠ [] → (S (w_height t) ≤ w_height (nest ns t))%nat.
Proof.
  intros Hns. induction Hns as [|j ns Hj _ IH]; [done|]. intros _.
  pose proof (kid_height (<[Z.to_nat j := nest ns t]> (replicate 16 TEmpty)) (nest ns t) (single_kid j _ Hj)) as Hk.
  change (w_height (nest (j :: ns) t)) with (w_height (TBranch (<[Z.to_nat j := nest ns t]> (replicate 16 TEmpty)))).
  destruct ns; [done|]. specialize (IH ltac:(done)). lia.
Qed.
Lemma wf_nest k ns t w : Forall is_nibble ns → wf keccak256 k w (nest ns t) → wf keccak256 k (w ++ ns) t ∧ (length (w ++ ns) ≤ 64 ∨ ns = [])%nat.
Proof.
  intros Hns. revert w. induction Hns as [|j ns Hj _ IH]; intros w Hw; [rewrite app_nil_r; auto|].
  cbn [nest foldr] in Hw. inversion Hw as [| | | | | |? ? kids Hl Hlw Hk]; subst.
  specialize (Hk (Z.to_nat j) (nest ns t)). rewrite Z2Nat.id in Hk by (unfold is_nibble in Hj; lia).
  destruct (IH (w ++ [j])) as [Hw' Hlen]; [apply Hk; apply list_lookup_insert_eq; cbn; unfold is_nibble in Hj; lia|].
  rewrite <- app_assoc in Hw', Hlen. split; [done|]. left. rewrite length_app. cbn [length]. destruct Hlen as [Hlen| ->]; [|cbn; lia].
  rewrite length_app in Hlen. cbn [length app] in Hlen. lia.
Qed.

Lemma length_lkey l : length (lkey keccak256 l) = 64%nat.
Proof. destruct l; cbn [lkey]; unfold hash_nibbles; by rewrite length_to_nibbles, length_be_bytes. Qed.
(** The path of a reduced node ends within the key. *)
Lemma reduce_len rs d : (d < 64)%nat → Forall (λ ρ, (S d + path_len ρ ≤ 64)%nat) rs → (d + path_len (reduce keccak256 rs) ≤ 64)%nat.
Proof.
  intros Hd Hf. unfold reduce. destruct (live 0 rs) as [|[j r] [|? ?]] eqn:E; [cbn; lia| |cbn; lia].
  destruct (live_elem 0 rs j r) as (_ & Hj & _); [rewrite E; by left|]. eapply Forall_lookup in Hf; [|exact Hj]. cbn beta in Hf.
  pose proof (fold1_len j r). lia.
Qed.
Lemma new_len k w t ρ : wf keccak256 k w t → (length w ≤ 64)%nat → w_short (length w) t = true →
  w_new keccak256 V (length w) t = Ok ρ → (length w + path_len ρ ≤ 64)%nat.
Proof.
  intros Hw. revert ρ. induction Hw as [| | | |w i addr n b c st ? ? ? ? Hp Hst IH ?|w i ow p v ? ? Hp|k w kids Hl Hlw Hk IH]; intros ρ Hd Hs HE.
  - apply Ok_inj in HE as <-. cbn. lia.
  - apply Ok_inj in HE as <-. cbn. lia.
  - apply Ok_inj in HE as <-. apply Nat.leb_le in Hs. cbn. lia.
  - apply Ok_inj in HE as <-. apply Nat.leb_le in Hs. cbn. lia.
  - unfold w_new in HE. cbn [new] in HE. apply bind_Ok in HE as (v & _ & HE). apply Ok_inj in HE as <-.
    destruct v as [v|]; cbn [leaf_node path_len]; [|lia]. apply prefix_length in Hp. rewrite length_drop, length_lkey in *. lia.
  - unfold w_new in HE. cbn [new] in HE. apply bind_Ok in HE as (v' & _ & HE). apply Ok_inj in HE as <-.
    destruct v' as [v'|]; cbn [leaf_node path_len]; [|lia]. apply prefix_length in Hp. rewrite length_drop, length_lkey in *. lia.
  - rewrite new_branch in HE. apply bind_Ok in HE as (rs & Hrs & HE). apply bind_Ok in HE as (? & _ & HE). apply Ok_inj in HE as <-.
    apply reduce_len; [done|]. apply map_res_Ok in Hrs. apply Forall_lookup. intros j r Hj.
    destruct (Forall2_lookup_r _ _ _ _ _ Hrs Hj) as (t & Ht & Et). specialize (IH j t Ht r).
    rewrite length_app, Nat.add_1_r in IH. apply IH; [lia| |done]. eapply kid_short; [exact Hs|by eapply list_elem_of_lookup_2].
Qed.
End Runs.

Section Eval.
Context (keccak256 : bytes → Z) (garbage : nat → bytes).
Context (garbage_len : ∀ n, length (garbage n) = n) (keccak_range : ∀ b, in_u256 (keccak256 b)).
Context (V : valuation) (G : ghost).

(** A cached result that is not up to date belongs to a tree that changed. *)
Definition cached_ok (n : Nodes) (r : NodeR) (w : list Z) (t : tree lf) : Prop :=
  w_changed V t = false → den (accounts n) (storages n) Current r (w_old keccak256 (length w) t).
Record einv (n : Nodes) : Prop := {
  ei_ghost : ginv keccak256 cached_ok n G;
  ei_reads : reads V (accounts n) (storages n) }.

(** The result under a child is the current one. *)
Definition fresh (n : Nodes) (c : Child) (w : list Z) (t : tree lf) : Prop :=
  ∃ ρ, w_new keccak256 V (length w) t = Ok ρ ∧ child_den n Current c ρ.
(** Steps of the walk write caches only, and leave current results current. *)
Record evolve (n n' : Nodes) : Prop := {
  ev_rows : same_rows n n';
  ev_aux : aux n = aux n';
  ev_stream : stream n = stream n';
  ev_fresh : ∀ k w c t, at_node n G k w c t → fresh n c w t → fresh n' c w t }.

Lemma at_evolve n n' k w c t : aux n = aux n' → stream n = stream n' → at_node n G k w c t → at_node n' G k w c t.
Proof. unfold at_node. intros -> ->. done. Qed.
#[export] Instance evolve_preorder : PreOrder evolve.
Proof.
  split.
  - by split.
  - intros n1 n2 n3 H1 H2. split.
    + etrans; [apply H1|apply H2].
    + etrans; [apply H1|apply H2].
    + etrans; [apply H1|apply H2].
    + intros k w c t Ha Hf. eapply H2; [|by eapply H1]. eapply at_evolve; [apply H1|apply H1|done].
Qed.

Lemma cached_same n n' r w t : same_rows n n' → cached_ok n r w t → cached_ok n' r w t.
Proof. intros Hs HQ Hc. eapply den_same; [exact Hs|by apply HQ]. Qed.

(** At the start, every cached result is the block-start one. *)
Lemma einv_start n : ginv keccak256 (cached_old keccak256) n G → reads V (accounts n) (storages n) → einv n.
Proof.
  intros [Hb Hc Ha Hs] Hr. split; [|done].
  assert (HQ : ∀ k r w t, wf keccak256 k w t → cached_old keccak256 n r w t → cached_ok n r w t).
  { intros k r w t Hw Hd Hu. by eapply den_unchanged. }
  split; intros j e Ej.
  - destruct (Hb j e Ej) as [? (bn & kids & ? & ? & ? & ? & ? & ?)]. split; [done|]. exists bn, kids. split_and!; eauto.
  - destruct (Hc j e Ej) as [? (ch & ? & (t0 & ? & ? & ? & ? & ? & ?))]. split; [done|]. exists ch. split; [done|]. exists t0. split_and!; eauto.
  - destruct (Ha j e Ej) as [? (row0 & st & Hj & ? & ? & ? & ? & ?)]. split; [done|]. exists row0, st. cbv zeta in *. split_and!; eauto.
  - destruct (Hs j e Ej) as [? (row0 & Hj & ? & ? & ?)]. split; [done|]. exists row0. cbv zeta in *. split_and!; eauto.
Qed.
(** ** Writing a cached result *)

Section Carry.
Context (n n' : Nodes) (Hrows : same_rows n n') (Haux : aux n = aux n') (Hstr : stream n = stream n').

Lemma carry_branch j k w t : branch_nodes n !! j = branch_nodes n' !! j → branch_ok cached_ok n G j k w t → branch_ok cached_ok n' G j k w t.
Proof.
  intros E (bn & kids & Hj & -> & Hl & Hk & Ht & HQ). exists bn, kids.
  split_and!; [by rewrite <- E|done|done| |done|by eapply cached_same].
  intros i c Hi. destruct (Hk i c Hi) as (t' & ? & ?). exists t'. split; [done|by eapply at_evolve].
Qed.
Lemma carry_chain j k w t : chains n !! j = chains n' !! j → chain_ok cached_ok n G j k w t → chain_ok cached_ok n' G j k w t.
Proof.
  intros E (ch & Hj & (t0 & ? & ? & -> & ? & ? & ?)). exists ch. split; [by rewrite <- E|]. exists t0.
  split_and!; [done|done|done|done|by eapply at_evolve|by eapply cached_same].
Qed.
Lemma carry_account j k w t :
  Accounts.rows (accounts n) !! j = Accounts.rows (accounts n') !! j →
  account_ok keccak256 cached_ok n G j k w t → account_ok keccak256 cached_ok n' G j k w t.
Proof.
  intros E (row & st & Hj & -> & ? & ? & ? & ?). exists row, st. cbv zeta in *.
  split_and!; [by rewrite <- E|done|done|by eapply at_evolve|done|by eapply cached_same].
Qed.
Lemma carry_slot j k w t :
  Storages.rows (storages n) !! j = Storages.rows (storages n') !! j →
  slot_ok keccak256 cached_ok n j k w t → slot_ok keccak256 cached_ok n' j k w t.
Proof.
  intros E (row & Hj & -> & ? & ?). exists row. cbv zeta in *. split_and!; [by rewrite <- E|done|done|by eapply cached_same].
Qed.

(** All but the entries that were written. *)
Lemma einv_carry :
  (∀ j k w t, g_branch G !! j = Some (mkEntry k w t) → branch_nodes n !! j = branch_nodes n' !! j ∨ branch_ok cached_ok n' G j k w t) →
  (∀ j k w t, g_chain G !! j = Some (mkEntry k w t) → chains n !! j = chains n' !! j ∨ chain_ok cached_ok n' G j k w t) →
  (∀ j k w t, g_account G !! j = Some (mkEntry k w t) →
     Accounts.rows (accounts n) !! j = Accounts.rows (accounts n') !! j ∨ account_ok keccak256 cached_ok n' G j k w t) →
  (∀ j k w t, g_slot G !! j = Some (mkEntry k w t) →
     Storages.rows (storages n) !! j = Storages.rows (storages n') !! j ∨ slot_ok keccak256 cached_ok n' j k w t) →
  einv n → einv n'.
Proof.
  intros Hb Hc Ha Hs [[Gb Gc Ga Gs] Hr]. split; [|by eapply reads_same]. split; intros j [k w t] Ej.
  - destruct (Gb j _ Ej) as [Hw Hok]. split; [done|]. destruct (Hb j k w t Ej); [by apply carry_branch|done].
  - destruct (Gc j _ Ej) as [Hw Hok]. split; [done|]. destruct (Hc j k w t Ej); [by apply carry_chain|done].
  - destruct (Ga j _ Ej) as [Hw Hok]. split; [done|]. destruct (Ha j k w t Ej); [by apply carry_account|done].
  - destruct (Gs j _ Ej) as [Hw Hok]. split; [done|]. destruct (Hs j k w t Ej); [by apply carry_slot|done].
Qed.

Lemma child_den_carry c ρ : child_result c n = child_result c n' → child_den n Current c ρ → child_den n' Current c ρ.
Proof. intros E (r & Hr & Hd). exists r. split; [by rewrite <- E|by eapply den_same]. Qed.
End Carry.

Lemma fresh_cached n' r w t ρ :
  w_new keccak256 V (length w) t = Ok ρ → den (accounts n') (storages n') Current r ρ →
  (∃ k, wf keccak256 k w t) → cached_ok n' r w t.
Proof. intros E Hd [k Hw] Hu. rewrite (unchanged_new keccak256 V k w t Hw Hu) in E. by apply Ok_inj in E as ->. Qed.

Lemma lookup_put {A} (l : list A) i j x : j ≠ i → l !! j = <[i := x]> l !! j.
Proof. intros. by rewrite list_lookup_insert_ne. Qed.

#[local] Instance node_type_dec : EqDecision NodeType.
Proof. solve_decision. Defined.

(** One entry is written, with the current result of its tree. *)
Lemma evolve_put n n' (ty : NodeType) i k w t ρ :
  same_rows n n' → aux n = aux n' → stream n = stream n' → w_new keccak256 V (length w) t = Ok ρ →
  (∀ c, child_type c = ty → Z.to_nat (child_idx c) = i → child_den n' Current c ρ) →
  (∀ k' w' c t', at_node n G k' w' c t' → child_type c = ty → Z.to_nat (child_idx c) = i → mkEntry k' w' t' = mkEntry k w t) →
  (∀ c, child_type c ≠ ty ∨ Z.to_nat (child_idx c) ≠ i → child_result c n = child_result c n') →
  evolve n n'.
Proof.
  intros Hrows Haux Hstr Hnew Hself Huniq Hrest. split; [done|done|done|]. intros k' w' c t' Ha (ρ' & E' & Hc').
  destruct (decide (child_type c = ty ∧ Z.to_nat (child_idx c) = i)) as [[Et Ei]|Hne].
  - pose proof (Huniq _ _ _ _ Ha Et Ei) as Hu. injection Hu as -> -> ->. exists ρ. split; [done|by apply Hself].
  - exists ρ'. split; [done|]. apply (child_den_carry n n'); [done| |done]. apply Hrest.
    destruct (decide (child_type c = ty)); [right|by left]. intros Ei. by apply Hne.
Qed.
(** The child is at the entry, and no other child reads it. *)
Ltac put_entry Hg :=
  first [ intros ? ? c ? Ha Et Ei; unfold at_node in Ha; rewrite Et, Ei, Hg in Ha; by injection Ha as <- <- <-
        | intros c Hc; unfold child_result, result_ptr, Accounts.cached_at, Accounts.row_at, Storages.cached_at, Storages.row_at, vec_get;
          destruct (child_type c); try done; destruct Hc as [|Hc]; [done|]; cbn; by rewrite list_lookup_insert_ne ].

Lemma write_branch n i k w kids bn r ρ :
  einv n → g_branch G !! i = Some (mkEntry k w (TBranch kids)) → length (children bn) = 16%nat →
  (∀ j c, children bn !! j = Some c → ∃ t', kids !! j = Some t' ∧ at_node n G k (w ++ [Z.of_nat j]) c t') →
  tags_ok (tags bn) (children bn) → w_new keccak256 V (length w) (TBranch kids) = Ok ρ →
  den (accounts n) (storages n) Current r ρ →
  let n' := set_branch_nodes (<[i := mkBranch (children bn) r (tags bn)]> (branch_nodes n)) n in
  einv n' ∧ evolve n n' ∧ (∀ c, child_type c = NT_Branch → Z.to_nat (child_idx c) = i → child_den n' Current c ρ).
Proof.
  intros Hi Hg Hl Hk Ht Hnew Hd n'. destruct (gi_branch _ _ _ _ (ei_ghost _ Hi) _ _ Hg) as [Hw (bn0 & ? & E0 & _)].
  assert (Hlen : (i < length (branch_nodes n))%nat) by (by eapply lookup_lt_Some).
  assert (Hself : ∀ c, child_type c = NT_Branch → Z.to_nat (child_idx c) = i → child_den n' Current c ρ).
  { intros c Ec Ei. exists r. split; [|done]. unfold child_result, result_ptr, vec_get. rewrite Ec, Ei. cbn.
    by rewrite list_lookup_insert_eq by done. }
  split; [|split; [|done]].
  - apply (einv_carry n n'); try done; try (intros; by left).
    intros j k' w' t' Ej. destruct (decide (j = i)) as [->|]; [right|left; by apply lookup_put].
    rewrite Hg in Ej. injection Ej as <- <- <-. eexists _, kids.
    split_and!; [cbn; by rewrite list_lookup_insert_eq by done|done|done|done|done|].
    eapply fresh_cached; [done|done|by exists k].
  - apply (evolve_put n n' NT_Branch i k w (TBranch kids) ρ); [done|done|done|done|done|put_entry Hg..].
Qed.

Lemma write_chain n i k w t t0 ch r ρ :
  einv n → g_chain G !! i = Some (mkEntry k w t) → path_wf (prefix ch) → pnibbles (prefix ch) ≠ [] →
  t = nest (pnibbles (prefix ch)) t0 → child_type (ch_child ch) ≠ NT_Chain →
  at_node n G k (w ++ pnibbles (prefix ch)) (ch_child ch) t0 → w_new keccak256 V (length w) t = Ok ρ →
  den (accounts n) (storages n) Current r ρ →
  let n' := set_chains (<[i := mkChain (ch_child ch) (prefix ch) r]> (chains n)) n in
  einv n' ∧ evolve n n' ∧ (∀ c, child_type c = NT_Chain → Z.to_nat (child_idx c) = i → child_den n' Current c ρ).
Proof.
  intros Hi Hg Hp Hne Ht Hty Hat Hnew Hd n'. destruct (gi_chain _ _ _ _ (ei_ghost _ Hi) _ _ Hg) as [Hw (ch0 & E0 & _)].
  assert (Hlen : (i < length (chains n))%nat) by (by eapply lookup_lt_Some).
  assert (Hself : ∀ c, child_type c = NT_Chain → Z.to_nat (child_idx c) = i → child_den n' Current c ρ).
  { intros c Ec Ei. exists r. split; [|done]. unfold child_result, result_ptr, vec_get. rewrite Ec, Ei. cbn.
    by rewrite list_lookup_insert_eq by done. }
  split; [|split; [|done]].
  - apply (einv_carry n n'); try done; try (intros; by left).
    intros j k' w' t' Ej. destruct (decide (j = i)) as [->|]; [right|left; by apply lookup_put].
    rewrite Hg in Ej. injection Ej as <- <- <-. eexists. split; [cbn; by rewrite list_lookup_insert_eq by done|]. exists t0.
    split_and!; [done|done|done|done|done|]. eapply fresh_cached; [done|done|by exists k].
  - apply (evolve_put n n' NT_Chain i k w t ρ); [done|done|done|done|done|put_entry Hg..].
Qed.

Definition recached (r : NodeR) (row : Accounts.Row) : Accounts.Row :=
  let lc := Accounts.leaf row in
  Accounts.mkRow (Accounts.record row) (Accounts.mods row)
    (Accounts.mkLeafCache r (Accounts.addr_hash lc) (Accounts.storage_root lc) (Accounts.storage_empty lc)
       (Accounts.next_sorted lc) (Accounts.first_sorted_storage lc)).
Definition recached_slot (r : NodeR) (row : Storages.Row) : Storages.Row :=
  let lc := Storages.leaf row in
  Storages.mkRow (Storages.record row) (Storages.mods row)
    (Storages.mkLeafCache r (Storages.pos_hash lc) (Storages.next_sorted lc)).

Lemma write_account n i k w t row r ρ :
  einv n → g_account G !! i = Some (mkEntry k w t) → Accounts.rows (accounts n) !! i = Some row →
  w_new keccak256 V (length w) t = Ok ρ → den (accounts n) (storages n) Current r ρ →
  let n' := retouch i (recached r row) n in
  einv n' ∧ evolve n n' ∧ (∀ c, child_type c = NT_Account → Z.to_nat (child_idx c) = i → child_den n' Current c ρ).
Proof.
  intros Hi Hg Hrow Hnew Hd n'. destruct (gi_account _ _ _ _ (ei_ghost _ Hi) _ _ Hg) as [Hw (row0 & st & E0 & Ht & Hh & Hst & Hpt & _)].
  rewrite Hrow in E0. injection E0 as <-. cbn [e_kind e_walk e_tree] in *.
  assert (Hlen : (i < length (Accounts.rows (accounts n)))%nat) by (by eapply lookup_lt_Some).
  assert (Hrows : same_rows n n').
  { split; [|done]. intros j. cbn. destruct (decide (j = i)) as [->|]; [|by rewrite list_lookup_insert_ne].
    rewrite Hrow, list_lookup_insert_eq by done. done. }
  assert (Hself : ∀ c, child_type c = NT_Account → Z.to_nat (child_idx c) = i → child_den n' Current c ρ).
  { intros c Ec Ei. exists r. split; [|by eapply den_same]. unfold child_result, result_ptr, Accounts.cached_at, Accounts.row_at, vec_get.
    rewrite Ec, Ei. cbn. by rewrite list_lookup_insert_eq by done. }
  split; [|split; [|done]].
  - apply (einv_carry n n'); try done; try (intros; by left).
    intros j k' w' t' Ej. destruct (decide (j = i)) as [->|]; [right|left; by apply lookup_put].
    rewrite Hg in Ej. injection Ej as <- <- <-. exists (recached r row), st. cbv zeta in *.
    split_and!; [cbn; by rewrite list_lookup_insert_eq by done|done|done|done|done|].
    eapply fresh_cached; [done|by eapply den_same|by exists k].
  - apply (evolve_put n n' NT_Account i k w t ρ); [done|done|done|done|done|put_entry Hg..].
Qed.

Definition retouch_slot (i : nat) (row : Storages.Row) (n : Nodes) : Nodes :=
  set_storages (Storages.put_rows (<[i := row]> (Storages.rows (storages n))) (storages n)) n.
Lemma write_slot n i k w t row r ρ :
  einv n → g_slot G !! i = Some (mkEntry k w t) → Storages.rows (storages n) !! i = Some row →
  w_new keccak256 V (length w) t = Ok ρ → den (accounts n) (storages n) Current r ρ →
  let n' := retouch_slot i (recached_slot r row) n in
  einv n' ∧ evolve n n' ∧ (∀ c, child_type c = NT_Storage → Z.to_nat (child_idx c) = i → child_den n' Current c ρ).
Proof.
  intros Hi Hg Hrow Hnew Hd n'. destruct (gi_slot _ _ _ _ (ei_ghost _ Hi) _ _ Hg) as [Hw (row0 & E0 & Ht & Hh & _)].
  rewrite Hrow in E0. injection E0 as <-. cbn [e_kind e_walk e_tree] in *.
  assert (Hlen : (i < length (Storages.rows (storages n)))%nat) by (by eapply lookup_lt_Some).
  assert (Hrows : same_rows n n').
  { split; [done|]. intros j. cbn. destruct (decide (j = i)) as [->|]; [|by rewrite list_lookup_insert_ne].
    rewrite Hrow, list_lookup_insert_eq by done. done. }
  assert (Hself : ∀ c, child_type c = NT_Storage → Z.to_nat (child_idx c) = i → child_den n' Current c ρ).
  { intros c Ec Ei. exists r. split; [|by eapply den_same]. unfold child_result, result_ptr, Storages.cached_at, Storages.row_at, vec_get.
    rewrite Ec, Ei. cbn. by rewrite list_lookup_insert_eq by done. }
  split; [|split; [|done]].
  - apply (einv_carry n n'); try done; try (intros; by left).
    intros j k' w' t' Ej. destruct (decide (j = i)) as [->|]; [right|left; by apply lookup_put].
    rewrite Hg in Ej. injection Ej as <- <- <-. exists (recached_slot r row). cbv zeta in *.
    split_and!; [cbn; by rewrite list_lookup_insert_eq by done|done|done|].
    eapply fresh_cached; [done|by eapply den_same|by exists k].
  - apply (evolve_put n n' NT_Storage i k w t ρ); [done|done|done|done|done|put_entry Hg..].
Qed.

(** ** One branch, with the current results of its children *)

Lemma fixed_fresh n k w c t :
  at_node n G k w c t → wf keccak256 k w t → fixed_type (child_type c) = true → fresh n c w t ∧ w_changed V t = false.
Proof.
  intros Ha Hw Hf. unfold at_node in Ha. unfold fresh, child_den, child_result, result_ptr, vec_get.
  destruct (child_type c); try done.
  - subst t. split; [|done]. exists NE. split; [done|]. eexists. split; [done|constructor].
  - destruct Ha as (h & E & ->). split; [|done]. exists (NH h). split; [done|]. rewrite E. eexists. split; [done|]. inversion Hw; subst. by constructor.
  - destruct Ha as (p & h & E & Hp & ->). split; [|done]. eexists. split; [done|]. rewrite E. eexists. split; [done|]. inversion Hw; subst. by constructor.
  - destruct Ha as (p & v & E & Hp & ->). split; [|done]. eexists. split; [done|]. rewrite E. eexists. split; [done|]. inversion Hw; subst. by constructor.
  - destruct Ha as (hb & E & ->). split; [|done]. eexists. split; [done|]. rewrite E. eexists. split; [done|]. inversion Hw; subst. by constructor.
Qed.

Lemma at_opaque n k w c t :
  einv n → at_node n G k w c t → opaque c = is_THash t ∧ typed_nonempty c = negb (is_TEmpty t).
Proof.
  intros [HG _] Ha. unfold at_node in Ha. unfold opaque, typed_nonempty. destruct (child_type c) eqn:Et.
  - by subst t.
  - apply (gi_branch _ _ _ _ HG) in Ha as [_ (bn & kids & _ & Ht & _)]. cbn [e_tree] in Ht. by rewrite Ht.
  - apply (gi_account _ _ _ _ HG) in Ha as [_ (row & st & _ & Ht & _)]. cbn [e_tree] in Ht. by rewrite Ht.
  - apply (gi_slot _ _ _ _ HG) in Ha as [_ (row & _ & Ht & _)]. cbn [e_tree] in Ht. by rewrite Ht.
  - by destruct Ha as (h & _ & ->).
  - by destruct Ha as (p & h & _ & _ & ->).
  - by destruct Ha as (p & v & _ & _ & ->).
  - by destruct Ha as (hb & _ & ->).
  - apply (gi_chain _ _ _ _ HG) in Ha as [_ (ch & _ & (t0 & _ & Hne & Ht & _))]. cbn [e_tree] in Ht. rewrite Ht.
    by destruct (pnibbles (prefix ch)).
Qed.

Section Branch.
Context (n : Nodes) (k : tkind) (w : list Z) (bn : BranchNode) (kids : list (tree lf)) (rs : list nres).
Context (Hn : einv n) (Hl : length (children bn) = 16%nat) (Hlk : length kids = 16%nat).
Context (Hat : ∀ j c, children bn !! j = Some c → ∃ t, kids !! j = Some t ∧ at_node n G k (w ++ [Z.of_nat j]) c t).
Context (Htags : tags_ok (tags bn) (children bn)).
Context (Hnew : map_res (w_new keccak256 V (S (length w))) kids = Ok rs).
Context (Hden : Forall2 (child_den n Current) (children bn) rs).

Lemma kid_result j t r : kids !! j = Some t → rs !! j = Some r → w_new keccak256 V (S (length w)) t = Ok r.
Proof.
  intros Ht Hr. apply map_res_Ok in Hnew. destruct (Forall2_lookup_l _ _ _ _ _ Hnew Ht) as (r' & Hr' & E). congruence.
Qed.

Lemma tags_live : 2 ≤ popcount64 (Z.land (tags bn) 0x55555555) → (2 ≤ length (live 0 rs))%nat.
Proof.
  change (Z.land (tags bn) 0x55555555) with (Z.land (tags bn) mask55). rewrite popcount_even by apply even_land.
  intros H2. pose proof (Forall2_length _ _ _ Hden) as Hr.
  pose proof (live_count (Z.land (tags bn) mask55) 0 rs) as Hlc. rewrite <- Hr, Hl in Hlc. unfold count_from in H2.
  change (16 - 0)%nat with 16%nat in H2. change (Z.of_nat 0) with 0 in Hlc. etrans; [|apply Hlc]; [lia|].
  intros j r Hj Ht. cbn [Nat.add] in Ht. destruct (Forall2_lookup_r _ _ _ _ _ Hden Hj) as (c & Hc & _).
  assert (Hj16 : (j < 16)%nat) by (rewrite <- Hl; by eapply lookup_lt_Some).
  rewrite tag_mask in Ht by done. pose proof (Htags j c Hc) as Hty. rewrite Ht in Hty.
  destruct (Hat j c Hc) as (t & Hkt & Ha). unfold at_node in Ha. rewrite Hty in Ha. destruct Ha as (hb & _ & ->).
  pose proof (kid_result _ _ _ Hkt Hj) as E. by apply Ok_inj in E as <-.
Qed.

Lemma filter_pointwise {A B} (f : A → bool) (g : B → bool) l l' :
  Forall2 (λ x y, f x = g y) l l' → length (List.filter f l) = length (List.filter g l').
Proof. induction 1 as [|x y l l' E _ IH]; [done|]. cbn. rewrite E. destruct (g y); cbn; by rewrite IH. Qed.

(** The code's collapse check is the specification's. *)
Lemma orphan_code :
  match live 0 rs with
  | [(j, NH _)] => default false (opaque <$> children bn !! Z.to_nat j) &&
                   (2 <=? length (List.filter typed_nonempty (children bn)))%nat
  | _ => false
  end = orphan kids rs.
Proof.
  assert (HF : Forall2 (λ c t, typed_nonempty c = negb (is_TEmpty t)) (children bn) kids).
  { apply Forall2_same_length_lookup_2; [congruence|]. intros j c t Hc Ht. destruct (Hat j c Hc) as (t' & Ht' & Ha).
    rewrite Ht in Ht'. injection Ht' as <-. by apply at_opaque in Ha as [_ ?]. }
  unfold orphan. rewrite (filter_pointwise _ _ _ _ HF). destruct (live 0 rs) as [|[j r] [|? ?]] eqn:El; [done| |by destruct r].
  destruct (live_elem 0 rs j r) as (Hj & Hr & _); [rewrite El; by left|]. rewrite Z.sub_0_r in Hr.
  destruct (Forall2_lookup_r _ _ _ _ _ Hden Hr) as (c & Hc & _). destruct (Hat _ c Hc) as (t & Ht & Ha).
  rewrite Hc, Ht. cbn [fmap option_fmap option_map default]. apply at_opaque in Ha as [Ho _]; [|done].
  change (id (opaque c)) with (opaque c). change (id (is_THash t)) with (is_THash t). rewrite Ho.
  pose proof (kid_result _ _ _ Ht Hr) as E. by destruct t, r.
Qed.

Lemma reduce_eval :
  match reduce_branch keccak256 garbage bn n Current with
  | Ok r => orphan kids rs = false ∧ den (accounts n) (storages n) Current r (reduce keccak256 rs)
  | Fatal m => Forall (λ ρ, (path_len ρ < 64)%nat) rs → m = orphan_msg ∧ orphan kids rs = true
  end.
Proof.
  destruct (reduce_branch keccak256 garbage bn n Current) as [r|m] eqn:E.
  - destruct (reduce_sim keccak256 garbage garbage_len bn n Current rs r keccak_range Hl Hden tags_live E) as [Hd _].
    split; [|done]. rewrite <- orphan_code. rewrite (reduce_unfold keccak256 garbage bn n Current rs Hl Hden tags_live) in E.
    destruct (live 0 rs) as [|[j [|h|? ?|? ? ?]] [|? ?]]; try done. apply bind_Ok in E as (c & Hc%vec_get_Ok & E). rewrite Hc.
    cbn [fmap option_fmap option_map default]. change (id (opaque c)) with (opaque c). rewrite andb_true_r in E.
    destruct (opaque c); [|done]. apply bind_Ok in E as (? & Hck & _). by apply fatal_if_Ok in Hck.
  - intros Hp. pose proof (reduce_total keccak256 garbage garbage_len bn n Current rs keccak_range Hl Hden tags_live Hp) as Ht. cbv zeta in Ht.
    assert (Ho : match live 0 rs with
      | [(j, NH _)] => default false (opaque <$> children bn !! Z.to_nat j) && (2 <=? length (List.filter typed_nonempty (children bn)))%nat
      | _ => false end = true).
    { destruct (live 0 rs) as [|[j [|h|? ?|? ? ?]] [|? ?]]; try (destruct Ht as (r & Ht & _); congruence).
      destruct (_ && _); [done|]. destruct Ht as (r & Ht & _). congruence. }
    rewrite <- orphan_code. split; [|done]. destruct (live 0 rs) as [|[j [|h|? ?|? ? ?]] [|? ?]]; try done. rewrite Ho in Ht. congruence.
Qed.
End Branch.

(** ** The walk *)

(** What a call returns is the current result of its tree, its flag says whether
    the tree is unchanged, and it stops only where the specification does. *)
Definition evals (e : res (NodeR * bool * Nodes)) (fuel : nat) (n : Nodes) (w : list Z) (c : Child) (t : tree lf) : Prop :=
  match e with
  | Ok (r, ro, n') =>
      einv n' ∧ evolve n n' ∧ ro = negb (w_changed V t) ∧
      ∃ ρ, w_new keccak256 V (length w) t = Ok ρ ∧ den (accounts n') (storages n') Current r ρ ∧ child_den n' Current c ρ
  | Fatal m => w_short (length w) t = true → (w_height t ≤ fuel)%nat → w_new keccak256 V (length w) t = Fatal m
  end.

Section Loop.
Context (rec : Child → Nodes → res (NodeR * bool * Nodes)) (fuel : nat).
Context (k : tkind) (w : list Z) (bn : BranchNode) (kids : list (tree lf)) (nI : Nodes).
Context (Hl : length (children bn) = 16%nat) (Hlk : length kids = 16%nat).
Context (Hat : ∀ j c, children bn !! j = Some c → ∃ t, kids !! j = Some t ∧ at_node nI G k (w ++ [Z.of_nat j]) c t).
Context (Htags : tags_ok (tags bn) (children bn)).
Context (Hwf : ∀ j t, kids !! j = Some t → wf keccak256 k (w ++ [Z.of_nat j]) t).
Context (Hrec : ∀ j c t n, children bn !! j = Some c → kids !! j = Some t → einv n → at_node n G k (w ++ [Z.of_nat j]) c t →
  child_type c ≠ NT_PoolHash → evals (rec c n) fuel n (w ++ [Z.of_nat j]) c t).
Abbreviation hi := (Z.land (Z.shiftr (tags bn) 1) mask55).

Lemma eval_round u rounds ro n c :
  (u < 16)%nat → tag hi u = true → children bn !! u = Some c →
  eval_children rec (S rounds) (high hi u) (children bn) ro n =
    if fixed_type (child_type c) then eval_children rec rounds (high hi (S u)) (children bn) ro n
    else '(_, ro', n') ← rec c n; eval_children rec rounds (high hi (S u)) (children bn) ((ro' : bool) && ro) n'.
Proof.
  intros Hu Ht Hc. destruct (high_step _ _ (even_land (Z.shiftr (tags bn) 1)) Hu Ht) as (H0 & Hctz & Hclr).
  cbn [eval_children]. rewrite (proj2 (Z.eqb_neq _ 0)) by done. rewrite Hctz, Hclr.
  assert (Hk : Z.shiftr (2 * Z.of_nat u) 1 = Z.of_nat u).
  { rewrite Z.shiftr_div_pow2 by lia. change (2 ^ 1) with 2. rewrite Z.mul_comm. apply Z.div_mul. lia. }
  unfold vec_get. rewrite Hk, Nat2Z.id, Hc. done.
Qed.

Lemma eval_loop m : ∀ u rounds ro n, (u + m = 16)%nat → (m ≤ rounds)%nat → einv n → evolve nI n →
  match eval_children rec rounds (high hi u) (children bn) ro n with
  | Ok (ro', n') => einv n' ∧ evolve n n' ∧ ro' = ro && negb (existsb (w_changed V) (drop u kids)) ∧
      (∀ j c t, (u ≤ j)%nat → children bn !! j = Some c → kids !! j = Some t → fresh n' c (w ++ [Z.of_nat j]) t)
  | Fatal msg => w_short (length w) (TBranch kids) = true → (w_height (TBranch kids) ≤ S fuel)%nat →
      ∃ t, t ∈ kids ∧ w_new keccak256 V (S (length w)) t = Fatal msg
  end.
Proof.
  induction m as [|m IH]; intros u rounds ro n Hu Hr Hn He.
  { replace u with 16%nat by lia. rewrite high_16 by apply even_land. replace (eval_children _ _ _ _ _ _) with (Ok (ro, n)) by (by destruct rounds).
    rewrite drop_ge by lia. cbn [existsb negb]. rewrite andb_true_r. split_and!; [done|done|done|].
    intros j c t Hj Hc _. apply lookup_lt_Some in Hc. lia. }
  destruct (lookup_lt_is_Some_2 (children bn) u) as [c Hc]; [lia|]. destruct (Hat u c Hc) as (t & Ht & Ha).
  assert (Hdrop : drop u kids = t :: drop (S u) kids) by (by apply drop_S).
  assert (Ha' : at_node n G k (w ++ [Z.of_nat u]) c t) by (eapply at_evolve; [apply He|apply He|done]).
  pose proof (Hwf u t Ht) as Hwt.
  (* a child whose result cannot change *)
  assert (Hfix : fixed_type (child_type c) = true → ∀ rounds', (m ≤ rounds')%nat →
    match eval_children rec rounds' (high hi (S u)) (children bn) ro n with
    | Ok (ro', n') => einv n' ∧ evolve n n' ∧ ro' = ro && negb (existsb (w_changed V) (drop u kids)) ∧
        (∀ j c t, (u ≤ j)%nat → children bn !! j = Some c → kids !! j = Some t → fresh n' c (w ++ [Z.of_nat j]) t)
    | Fatal msg => w_short (length w) (TBranch kids) = true → (w_height (TBranch kids) ≤ S fuel)%nat →
        ∃ t, t ∈ kids ∧ w_new keccak256 V (S (length w)) t = Fatal msg
    end).
  { intros Hf rounds' Hr'. specialize (IH (S u) rounds' ro n ltac:(lia) Hr' Hn He). destruct (eval_children _ _ _ _ _ _) as [[ro' n']|msg]; [|done].
    destruct IH as (Hn' & He' & -> & Hfr). destruct (fixed_fresh n k _ c t Ha' Hwt Hf) as [Hfc Hu'].
    rewrite Hdrop. cbn [existsb]. rewrite Hu'. split_and!; [done|done|done|]. intros j c' t' Hj Hc' Ht'.
    destruct (decide (j = u)) as [->|]; [|apply Hfr; [lia|done|done]]. simplify_eq. by eapply ev_fresh. }
  destruct (tag hi u) eqn:Et.
  - destruct rounds as [|rounds]; [lia|]. rewrite (eval_round u rounds ro n c) by (done || lia).
    destruct (fixed_type (child_type c)) eqn:Ef; [apply Hfix; [done|lia]|].
    pose proof (Hrec u c t n Hc Ht Hn Ha' ltac:(by destruct (child_type c))) as Hev. unfold evals in Hev.
    destruct (rec c n) as [[[r rc] n1]|msg] eqn:Ec; cbn [mbind res_bind].
    2:{ intros Hs Hh. exists t. split; [by eapply list_elem_of_lookup_2|]. rewrite length_app, Nat.add_1_r in Hev. apply Hev.
        - eapply kid_short; [exact Hs|by eapply list_elem_of_lookup_2].
        - pose proof (kid_height kids t ltac:(by eapply list_elem_of_lookup_2)). lia. }
    destruct Hev as (Hn1 & He1 & -> & ρ & Hw & _ & Hcd). assert (He1' : evolve nI n1) by (by etrans).
    specialize (IH (S u) rounds (negb (w_changed V t) && ro) n1 ltac:(lia) ltac:(lia) Hn1 He1').
    destruct (eval_children _ _ _ _ _ _) as [[ro' n']|msg]; [|done].
    destruct IH as (Hn' & He' & -> & Hfr). rewrite Hdrop. cbn [existsb]. split_and!; [done|by etrans| |].
    + rewrite negb_orb, andb_assoc. by rewrite (andb_comm _ ro).
    + intros j c' t' Hj Hc' Ht'. destruct (decide (j = u)) as [->|]; [|apply Hfr; [lia|done|done]]. simplify_eq.
      eapply ev_fresh; [exact He'| |by exists ρ]. eapply at_evolve; [apply He1'|apply He1'|done].
  - rewrite high_skip by (done || apply even_land). apply Hfix; [|lia]. pose proof (Htags u c Hc) as Hty.
    rewrite tag_mask in Et by lia. rewrite Et in Hty. destruct (tag (tags bn) u); by rewrite Hty.
Qed.
End Loop.

(** A result that is still current: nothing below changed. *)
Lemma unchanged_result n n' k w c t r :
  einv n → evolve n n' → einv n' → at_node n G k w c t → wf keccak256 k w t → w_changed V t = false →
  child_type c = NT_Branch ∨ child_type c = NT_Chain → child_result c n = Ok r →
  ∃ ρ, w_new keccak256 V (length w) t = Ok ρ ∧ den (accounts n') (storages n') Current r ρ ∧ child_den n' Current c ρ.
Proof.
  intros Hn He Hn' Ha Hw Hu Hty Hr. exists (w_old keccak256 (length w) t). rewrite (unchanged_new keccak256 V k w t Hw Hu).
  assert (Hd : ∀ m, einv m → at_node m G k w c t → ∃ r, child_result c m = Ok r ∧ den (accounts m) (storages m) Current r (w_old keccak256 (length w) t)).
  { intros m [HG _] Hm. unfold at_node in Hm. unfold child_result, result_ptr, vec_get. destruct Hty as [Ec|Ec]; rewrite Ec in *.
    - apply (gi_branch _ _ _ _ HG) in Hm as [_ (bn & kids & -> & _ & _ & _ & _ & HQ)]. eexists. split; [done|by apply HQ].
    - apply (gi_chain _ _ _ _ HG) in Hm as [_ (ch & -> & (t0 & _ & _ & _ & _ & _ & HQ))]. eexists. split; [done|by apply HQ]. }
  split_and!; [done| |].
  - destruct (Hd n Hn Ha) as (r' & Hr' & Hden). rewrite Hr in Hr'. injection Hr' as <-. eapply den_same; [apply He|done].
  - destruct (Hd n' Hn') as (r' & Hr' & Hden); [eapply at_evolve; [apply He|apply He|done]|]. by exists r'.
Qed.

Lemma forall2_fresh n w cs (kids : list (tree lf)) :
  length cs = length kids → (∀ j c t, cs !! j = Some c → kids !! j = Some t → fresh n c (w ++ [Z.of_nat j]) t) →
  ∃ rs, map_res (w_new keccak256 V (S (length w))) kids = Ok rs ∧ Forall2 (child_den n Current) cs rs.
Proof.
  intros Hl H.
  assert (H' : ∀ j c t, cs !! j = Some c → kids !! j = Some t → ∃ ρ, w_new keccak256 V (S (length w)) t = Ok ρ ∧ child_den n Current c ρ).
  { intros j c t Hc Ht. destruct (H j c t Hc Ht) as (ρ & E & ?). rewrite length_app, Nat.add_1_r in E. eauto. }
  clear H. revert kids Hl H'. induction cs as [|c cs IH]; intros [|t kids] Hl H; try done; [by exists []|].
  destruct (H 0%nat c t eq_refl eq_refl) as (ρ & E & Hd). destruct (IH kids) as (rs & Er & HF); [by injection Hl| |].
  { intros j. apply (H (S j)). }
  exists (ρ :: rs). cbn. rewrite E. cbn. rewrite Er. split; [done|by constructor].
Qed.

Lemma eval_branch_unfold fuel c n d :
  child_type c = NT_Branch →
  eval_node keccak256 garbage (S fuel) c n d =
    (bn ← vec_get (branch_nodes n) (Z.to_nat (child_idx c));
     '(all_ro, n) ← eval_children (λ c n, eval_node keccak256 garbage fuel c n (d + 1)) 64
                      (Z.land (Z.shiftr (tags bn) 1) mask55) (children bn) true n;
     if (all_ro : bool) then Ok (b_cached bn, true, n)
     else
       r ← reduce_branch keccak256 garbage bn n Current;
       l ← vec_set (branch_nodes n) (Z.to_nat (child_idx c)) (mkBranch (children bn) r (tags bn));
       Ok (r, false, set_branch_nodes l n)).
Proof. intros E. cbn [eval_node]. by rewrite E. Qed.

Lemma eval_branch_spec fuel n k w c t :
  einv n → at_node n G k w c t → wf keccak256 k w t → child_type c = NT_Branch →
  (∀ n k w c t, einv n → at_node n G k w c t → wf keccak256 k w t → (length w ≤ 64)%nat → child_type c ≠ NT_PoolHash →
     evals (eval_node keccak256 garbage fuel c n (Z.of_nat (length w))) fuel n w c t) →
  evals (eval_node keccak256 garbage (S fuel) c n (Z.of_nat (length w))) (S fuel) n w c t.
Proof.
  intros Hn Ha Hw Ec IH. rewrite (eval_branch_unfold _ _ _ _ Ec). pose proof Ha as Hg. unfold at_node in Hg. rewrite Ec in Hg. set (i := Z.to_nat (child_idx c)) in *.
  destruct (gi_branch _ _ _ _ (ei_ghost _ Hn) _ _ Hg) as [_ (bn & kids & Hb & Et & Hl & Hat & Htags & _)]. cbn [e_kind e_walk e_tree] in *. subst t.
  rewrite (bind_val _ bn) by (unfold vec_get; by rewrite Hb). cbv beta. inversion Hw as [| | | | | |? ? ? Hlk Hlw Hwk]; subst.
  pose proof (eval_loop (λ c n, eval_node keccak256 garbage fuel c n (Z.of_nat (length w) + 1)) fuel k w bn kids n Hl Hlk Hat Htags Hwk) as Hloop.
  assert (Hrec : ∀ j c t n, children bn !! j = Some c → kids !! j = Some t → einv n → at_node n G k (w ++ [Z.of_nat j]) c t →
    child_type c ≠ NT_PoolHash → evals (eval_node keccak256 garbage fuel c n (Z.of_nat (length w) + 1)) fuel n (w ++ [Z.of_nat j]) c t).
  { intros j c' t n' Hc Ht Hn' Ha' Hp. replace (Z.of_nat (length w) + 1) with (Z.of_nat (length (w ++ [Z.of_nat j]))) by (rewrite length_app; cbn; lia).
    apply (IH _ k); [done|done|by apply Hwk|rewrite length_app; cbn; lia|done]. }
  specialize (Hloop Hrec 16%nat 0%nat 64%nat true n eq_refl ltac:(lia) Hn ltac:(done)). rewrite high_0 in Hloop by apply even_land.
  destruct (eval_children _ _ _ _ _ _) as [[all_ro n1]|msg]; cbn [mbind res_bind].
  2:{ intros Hs Hh. destruct (Hloop Hs Hh) as (t & Ht & Et). rewrite new_branch. rewrite (map_res_fatal _ kids msg t); [done| |done|done].
      intros t' m' Ht' Em. apply list_elem_of_lookup in Ht' as [j Hj]. rewrite (new_fatal keccak256 V _ _ _ _ (Hwk j t' Hj) _ Em).
      apply list_elem_of_lookup in Ht as [j' Hj']. by rewrite (new_fatal keccak256 V _ _ _ _ (Hwk j' t Hj') _ Et). }
  destruct Hloop as (Hn1 & He1 & -> & Hfr). rewrite drop_0. cbn [andb]. change (existsb (w_changed V) kids) with (w_changed V (TBranch kids)).
  destruct (w_changed V (TBranch kids)) eqn:Eu; cbn [negb].
  2:{ unfold evals. rewrite Eu. split_and!; [done|done|done|]. eapply unchanged_result; [exact Hn|done|done|done|done|done|by left|].
      unfold child_result, result_ptr, vec_get. rewrite Ec. fold i. by rewrite Hb. }
  destruct (forall2_fresh n1 w (children bn) kids) as (rs & Hrs & HF); [congruence|intros; apply Hfr; [lia|done|done]|].
  assert (Hat1 : ∀ j c, children bn !! j = Some c → ∃ t, kids !! j = Some t ∧ at_node n1 G k (w ++ [Z.of_nat j]) c t).
  { intros j c' Hc. destruct (Hat j c' Hc) as (t & Ht & Ha'). exists t. split; [done|]. eapply at_evolve; [apply He1|apply He1|done]. }
  pose proof (reduce_eval n1 k w bn kids rs Hn1 Hl Hlk Hat1 Htags Hrs HF) as Hred.
  assert (Hnew : w_new keccak256 V (length w) (TBranch kids) = (_ ← fatal_if (orphan kids rs) orphan_msg; Ok (reduce keccak256 rs))).
  { rewrite new_branch, Hrs. cbn [mbind res_bind]. change (existsb (w_changed V) kids) with (w_changed V (TBranch kids)). by rewrite Eu. }
  destruct (reduce_branch keccak256 garbage bn n1 Current) as [r|msg]; cbn [mbind res_bind].
  - destruct Hred as [Ho Hd]. rewrite Ho in Hnew. cbn [fatal_if mbind res_bind] in Hnew.
    destruct (gi_branch _ _ _ _ (ei_ghost _ Hn1) _ _ Hg) as [_ (bn' & ? & Hb' & _)].
    unfold vec_set. cbn [e_kind e_walk e_tree] in Hb'. rewrite Hb'. cbn [mbind res_bind].
    destruct (write_branch n1 i k w kids bn r _ Hn1 Hg Hl Hat1 Htags Hnew Hd) as (Hn2 & He2 & Hself).
    unfold evals. rewrite Eu. split_and!; [done|by etrans|done|]. exists (reduce keccak256 rs). split_and!; [done| |by apply Hself]. exact Hd.
  - unfold evals. intros Hs Hh. destruct Hred as [-> Ho]; [|by rewrite Hnew, Ho].
    apply Forall_lookup. intros j r Hj. apply map_res_Ok in Hrs. destruct (Forall2_lookup_r _ _ _ _ _ Hrs Hj) as (t & Ht & Et).
    assert (Hkl : length (w ++ [Z.of_nat j]) = S (length w)) by (rewrite length_app; cbn; lia).
    pose proof (new_len keccak256 V k (w ++ [Z.of_nat j]) t r (Hwk j t Ht)) as Hle. rewrite Hkl in Hle.
    assert (Hks : w_short (S (length w)) t = true) by (eapply kid_short; [exact Hs|by eapply list_elem_of_lookup_2]).
    specialize (Hle ltac:(lia) Hks Et). lia.
Qed.

Lemma eval_chain_unfold fuel c n d :
  child_type c = NT_Chain →
  eval_node keccak256 garbage (S fuel) c n d =
    (ch ← vec_get (chains n) (Z.to_nat (child_idx c));
     if fixed_type (child_type (ch_child ch)) then Ok (ch_cached ch, true, n)
     else
       '(_, ro, n) ← eval_node keccak256 garbage fuel (ch_child ch) n (d + plen (prefix ch));
       if (ro : bool) then Ok (ch_cached ch, true, n)
       else
         r ← chain_result garbage ch n;
         l ← vec_set (chains n) (Z.to_nat (child_idx c)) (mkChain (ch_child ch) (prefix ch) r);
         Ok (r, false, set_chains l n)).
Proof. intros E. cbn [eval_node]. by rewrite E. Qed.

(** The nibbles of a chain over the current result of its child. *)
Lemma chain_eval n ch ρ :
  path_wf (prefix ch) → child_den n Current (ch_child ch) ρ →
  match chain_result garbage ch n with
  | Ok r => den (accounts n) (storages n) Current r (fold_all (pnibbles (prefix ch)) ρ)
  | Fatal _ => (64 < length (pnibbles (prefix ch)) + path_len ρ)%nat
  end.
Proof.
  intros Hp (r & Hr & Hd). rewrite chain_unfold, Hr. cbn [mbind res_bind].
  destruct (fold_prefix garbage _ (prefix ch) r) as [r'|m] eqn:E.
  - eapply (fold_prefix_sim garbage garbage_len) in E; [|done|done|exact Hd]. by rewrite take_pnibbles in E.
  - destruct (decide (length (pnibbles (prefix ch)) + path_len ρ ≤ 64)%nat) as [Hle|]; [|lia].
    destruct (fold_prefix_total garbage garbage_len (accounts n) (storages n) Current (prefix ch) (Z.to_nat (plen (prefix ch))) r ρ) as (r' & E' & _);
      [done|done|exact Hd|by rewrite <- length_pnibbles|congruence].
Qed.

Lemma eval_chain_spec fuel n k w c t :
  einv n → at_node n G k w c t → wf keccak256 k w t → child_type c = NT_Chain →
  (∀ n k w c t, einv n → at_node n G k w c t → wf keccak256 k w t → (length w ≤ 64)%nat → child_type c ≠ NT_PoolHash →
     evals (eval_node keccak256 garbage fuel c n (Z.of_nat (length w))) fuel n w c t) →
  evals (eval_node keccak256 garbage (S fuel) c n (Z.of_nat (length w))) (S fuel) n w c t.
Proof.
  intros Hn Ha Hw Ec IH. rewrite (eval_chain_unfold _ _ _ _ Ec). pose proof Ha as Hg. unfold at_node in Hg. rewrite Ec in Hg. set (i := Z.to_nat (child_idx c)) in *.
  destruct (gi_chain _ _ _ _ (ei_ghost _ Hn) _ _ Hg) as [_ (ch & Hch & (t0 & Hp & Hne & Et & Hty & Hat & _))]. cbn [e_kind e_walk e_tree] in *.
  rewrite (bind_val _ ch) by (unfold vec_get; by rewrite Hch). cbv beta. set (ns := pnibbles (prefix ch)) in *.
  assert (Hns : Forall is_nibble ns) by (by apply pnibbles_range). rewrite Et in Hw. destruct (wf_nest keccak256 k ns t0 w Hns Hw) as [Hw0 [Hl0| ->]]; [|done].
  assert (Hres : child_result c n = Ok (ch_cached ch)) by (unfold child_result, result_ptr, vec_get; rewrite Ec; fold i; by rewrite Hch).
  assert (Hch' : w_changed V t = w_changed V t0) by (rewrite Et; by apply changed_nest).
  assert (Hnew : w_new keccak256 V (length w) t = (r ← w_new keccak256 V (length (w ++ ns)) t0; Ok (fold_all ns r))).
  { rewrite Et, new_nest by done. by rewrite length_app. }
  destruct (fixed_type (child_type (ch_child ch))) eqn:Ef.
  { destruct (fixed_fresh n k _ _ _ Hat Hw0 Ef) as [_ Hu]. unfold evals. rewrite Hch', Hu. split_and!; [done|done|done|].
    eapply unchanged_result; [exact Hn|done|done|exact Ha|by rewrite Et|by rewrite Hch'|by right|done]. }
  assert (Hd : Z.of_nat (length w) + plen (prefix ch) = Z.of_nat (length (w ++ ns))).
  { rewrite length_app. unfold ns. rewrite length_pnibbles. destruct Hp as (_ & _ & ? & _). lia. }
  rewrite Hd. pose proof (IH n k (w ++ ns) (ch_child ch) t0 Hn Hat Hw0 Hl0 ltac:(by destruct (child_type (ch_child ch)))) as Hev. unfold evals in Hev.
  destruct (eval_node keccak256 garbage fuel (ch_child ch) n (Z.of_nat (length (w ++ ns)))) as [[[r0 ro] n1]|msg]; cbn [mbind res_bind].
  2:{ unfold evals. intros Hs Hh. rewrite Hnew, Hev; [done| |].
      - rewrite length_app. apply short_nest; [done|]. by rewrite <- Et.
      - pose proof (height_nest ns t0 Hns Hne). rewrite <- Et in *. lia. }
  destruct Hev as (Hn1 & He1 & -> & ρ & Eρ & _ & Hcd). destruct (w_changed V t0) eqn:Eu; cbn [negb].
  2:{ unfold evals. rewrite Hch'. split_and!; [done|done|done|].
      eapply unchanged_result; [exact Hn|done|done|exact Ha|by rewrite Et|by rewrite Hch'|by right|done]. }
  rewrite Eρ in Hnew. cbn [mbind res_bind] in Hnew. pose proof (chain_eval n1 ch ρ Hp Hcd) as Hce. fold ns in Hce.
  destruct (chain_result garbage ch n1) as [r|msg]; cbn [mbind res_bind].
  - assert (Hat1 : at_node n1 G k (w ++ ns) (ch_child ch) t0) by (eapply at_evolve; [apply He1|apply He1|done]).
    destruct (gi_chain _ _ _ _ (ei_ghost _ Hn1) _ _ Hg) as [_ (ch' & Hc' & _)]. cbn [e_kind e_walk e_tree] in Hc'.
    unfold vec_set. rewrite Hc'. cbn [mbind res_bind].
    destruct (write_chain n1 i k w t t0 ch r _ Hn1 Hg Hp Hne Et Hty Hat1 Hnew Hce) as (Hn2 & He2 & Hself).
    unfold evals. rewrite Hch'. split_and!; [done|by etrans|done|]. exists (fold_all ns ρ). split_and!; [done|exact Hce|by apply Hself].
  - unfold evals. intros Hs Hh. exfalso.
    assert (Hs0 : w_short (length (w ++ ns)) t0 = true) by (rewrite length_app; apply short_nest; [done|]; by rewrite <- Et).
    pose proof (new_len keccak256 V k (w ++ ns) t0 ρ Hw0 Hl0 Hs0 Eρ). rewrite length_app in *. lia.
Qed.

Lemma eval_account_unfold fuel c n d :
  child_type c = NT_Account →
  eval_node keccak256 garbage (S fuel) c n d =
    (let idx := Z.to_nat (child_idx c) in
     sc ← Accounts.storage_root_child_at idx (accounts n);
     '(sres, storage_ro, n) ← eval_node keccak256 garbage fuel sc n 0;
     storage_root ← finalize keccak256 garbage sres (accounts n) (storages n) Current;
     ah ← Accounts.addr_hash_at idx (accounts n);
     nib ← path_from_key (garbage 34) (be_bytes 32 ah) d;
     '(r, a) ← Accounts.update_value idx nib storage_root (accounts n);
     same ← Accounts.fields_unchanged_at idx a;
     Ok (r, same && storage_ro, set_accounts a n)).
Proof. intros E. cbn [eval_node]. by rewrite E. Qed.
Lemma eval_slot_unfold fuel c n d :
  child_type c = NT_Storage →
  eval_node keccak256 garbage (S fuel) c n d =
    (let idx := Z.to_nat (child_idx c) in
     ph ← Storages.pos_hash_at idx (storages n);
     nib ← path_from_key (garbage 34) (be_bytes 32 ph) d;
     '(r, s) ← Storages.update_value idx nib (storages n);
     same ← Storages.value_unchanged_at idx s;
     Ok (r, same, set_storages s n)).
Proof. intros E. cbn [eval_node]. by rewrite E. Qed.

Lemma wf_key k w l : wf keccak256 k w (TKey l) → w `prefix_of` lkey keccak256 l.
Proof. intros H. by inversion H. Qed.

(** The path of a leaf from its key hash. *)
Lemma leaf_path w l h :
  w `prefix_of` lkey keccak256 l → lkey keccak256 l = hash_nibbles h →
  ∃ nib, path_from_key (garbage 34) (be_bytes 32 h) (Z.of_nat (length w)) = Ok nib ∧ path_wf nib ∧
    pnibbles nib = drop (length w) (lkey keccak256 l).
Proof.
  intros Hp E. pose proof (prefix_length _ _ Hp) as Hl. rewrite length_lkey in Hl.
  destruct (path_from_key_nibbles (garbage 34) (be_bytes 32 h) (Z.of_nat (length w))) as (nib & Hn & Hw & _ & Hnn);
    [apply garbage_len|apply length_be_bytes|lia|]. exists nib. rewrite Nat2Z.id in Hnn. by rewrite E.
Qed.

Lemma eval_slot_spec fuel n k w c t :
  einv n → at_node n G k w c t → wf keccak256 k w t → child_type c = NT_Storage →
  evals (eval_node keccak256 garbage (S fuel) c n (Z.of_nat (length w))) (S fuel) n w c t.
Proof.
  intros Hn Ha Hw Ec. rewrite (eval_slot_unfold _ _ _ _ Ec). pose proof Ha as Hg. unfold at_node in Hg. rewrite Ec in Hg.
  set (i := Z.to_nat (child_idx c)) in *. cbv zeta.
  destruct (gi_slot _ _ _ _ (ei_ghost _ Hn) _ _ Hg) as [_ (row & Hrow & Et & Hph & _)]. cbn [e_kind e_walk e_tree] in *. cbv zeta in Et.
  set (l := LStorage i _ _ _) in Et. subst t. pose proof (wf_key _ _ _ Hw) as Hpre.
  unfold Storages.pos_hash_at, Storages.row_at, vec_get. rewrite Hrow. cbn [mbind res_bind].
  destruct (leaf_path w l (Storages.pos_hash (Storages.leaf row)) Hpre) as (nib & -> & Hnw & Hnn); [by rewrite Hph|].
  pose proof (ei_reads _ Hn) as Hr. pose proof (rd_slot _ _ _ Hr _ _ Hrow) as Hv. pose proof (proj2 (rd_range _ _ _ Hr) _ _ Hrow) as Hrange.
  set (v := Storages.row_value row) in *. set (r := if is_zero_value v then EmptyR else StorageLeafR nib i).
  assert (Hup : Storages.update_value i nib (storages n) = Ok (r, Storages.put_rows (<[i := recached_slot r row]> (Storages.rows (storages n))) (storages n))).
  { unfold Storages.update_value, Storages.value_at, Storages.upd_leaf, Storages.upd_row, Storages.row_at, vec_get. by rewrite Hrow. }
  cbn [mbind res_bind]. rewrite Hup. cbn [mbind res_bind].
  assert (Hnew : w_new keccak256 V (length w) (TKey l) = Ok (leaf_node (lkey keccak256) lsrc (length w) l (slot_value v))).
  { unfold w_new. cbn [new lvn l]. by rewrite Hv. }
  assert (Hd : den (accounts n) (storages n) Current r (leaf_node (lkey keccak256) lsrc (length w) l (slot_value v))).
  { unfold r, is_zero_value, slot_value. destruct (v =? 0); [constructor|]. cbn [leaf_node lsrc l]. fold l. rewrite <- Hnn. constructor; [done|done|].
    unfold pick, Storages.value_at, Storages.row_at, vec_get. by rewrite Hrow. }
  destruct (write_slot n i k w (TKey l) row r _ Hn Hg Hrow Hnew Hd) as (Hn' & He' & Hself).
  assert (Hun : Storages.value_unchanged_at i (Storages.put_rows (<[i := recached_slot r row]> (Storages.rows (storages n))) (storages n)) =
    Ok (negb (w_changed V (TKey l)))).
  { unfold Storages.value_unchanged_at, Storages.value_orig_at, Storages.value_at, Storages.row_at, vec_get. cbn.
    rewrite list_lookup_insert_eq by (by eapply lookup_lt_Some). cbn. unfold w_changed. cbn [changed lch l]. by rewrite negb_involutive, Hv. }
  rewrite Hun. cbn [mbind res_bind]. unfold evals. split_and!; [done|done|done|]. eexists. split_and!; [exact Hnew| |by apply Hself].
  eapply den_same; [apply He'|done].
Qed.

(** The leaf is rewritten from the current values and the storage root. *)
Lemma account_written fuel n n1 k w c t i st ρ addr m b code :
  einv n1 → evolve n n1 → at_node n1 G k w c t → wf keccak256 k w t → child_type c = NT_Account → Z.to_nat (child_idx c) = i →
  t = TKey (LAccount i addr m b code st) → w_new keccak256 V 0 st = Ok ρ →
  evals (ah ← Accounts.addr_hash_at i (accounts n1);
         nib ← path_from_key (garbage 34) (be_bytes 32 ah) (Z.of_nat (length w));
         '(r, a) ← Accounts.update_value i nib (root_of keccak256 ρ) (accounts n1);
         same ← Accounts.fields_unchanged_at i a;
         Ok (r, same && negb (w_changed V st), set_accounts a n1)) fuel n w c t.
Proof.
  intros Hn He Ha Hw Ec Ei Et Eρ. pose proof Ha as Hg. unfold at_node in Hg. rewrite Ec, Ei in Hg.
  destruct (gi_account _ _ _ _ (ei_ghost _ Hn) _ _ Hg) as [_ (row & st' & Hrow & Et' & Hah & _)]. cbn [e_kind e_walk e_tree] in *. cbv zeta in Et', Hah.
  rewrite Et in Et'. injection Et' as Eaddr Em Eb Ecode <-. set (l := LAccount i addr m b code st) in Et. subst t.
  pose proof (wf_key _ _ _ Hw) as Hpre.
  rewrite (bind_val _ (Accounts.addr_hash (Accounts.leaf row))) by (unfold Accounts.addr_hash_at, Accounts.row_at, vec_get; by rewrite Hrow).
  destruct (leaf_path w l (Accounts.addr_hash (Accounts.leaf row)) Hpre) as (nib & Hnib & Hnw & Hnn); [by rewrite Hah, <- Eaddr|].
  rewrite (bind_val _ nib) by done.
  pose proof (ei_reads _ Hn) as Hr. pose proof (rd_account _ _ _ Hr _ _ Hrow) as Hv. destruct (proj1 (rd_range _ _ _ Hr) _ _ Hrow) as (Rn & Rb & Rc).
  unfold row_fields in Hv. set (m' := Accounts.row_nonce row) in *. set (b' := Accounts.row_balance row) in *. set (c' := Accounts.row_code_hash row) in *.
  set (r := if is_empty_account m' b' c' then EmptyR else AccountLeafR nib i (root_of keccak256 ρ)).
  set (a' := Accounts.put_rows (<[i := recached r row]> (Accounts.rows (accounts n1))) (accounts n1)).
  rewrite (bind_val _ (r, a')).
  2:{ unfold Accounts.update_value, Accounts.nonce_at, Accounts.balance_at, Accounts.code_hash_at, Accounts.upd_leaf, Accounts.upd_row,
        Accounts.row_at, vec_get. by rewrite Hrow. }
  cbv beta iota.
  assert (Hnew : w_new keccak256 V (length w) (TKey l) =
    Ok (leaf_node (lkey keccak256) lsrc (length w) l (account_value m' b' (root_of keccak256 ρ) c'))).
  { unfold w_new. cbn [new lvn l]. change (new _ _ _ (lvn keccak256 V) (lch V) 0 st) with (w_new keccak256 V 0 st). rewrite Eρ.
    cbn [mbind res_bind]. by rewrite Hv. }
  assert (Hd : den (accounts n1) (storages n1) Current r
    (leaf_node (lkey keccak256) lsrc (length w) l (account_value m' b' (root_of keccak256 ρ) c'))).
  { unfold r, account_value. destruct (is_empty_account m' b' c'); [constructor|]. cbn [leaf_node lsrc l]. fold l. rewrite <- Hnn.
    constructor; [done|done|done|].
    unfold acct_fields, pick, Accounts.nonce_at, Accounts.balance_at, Accounts.code_hash_at, Accounts.row_at, vec_get. by rewrite Hrow. }
  destruct (write_account n1 i k w (TKey l) row r _ Hn Hg Hrow Hnew Hd) as (Hn' & He' & Hself).
  rewrite (bind_val _ ((m =? m') && (b =? b') && (code =? c'))).
  2:{ unfold Accounts.fields_unchanged_at, Accounts.nonce_orig_at, Accounts.balance_orig_at, Accounts.code_hash_orig_at,
        Accounts.nonce_at, Accounts.balance_at, Accounts.code_hash_at, Accounts.row_at, vec_get, a'. cbn [Accounts.rows Accounts.put_rows].
      rewrite list_lookup_insert_eq by (by eapply lookup_lt_Some). rewrite Em, Eb, Ecode. done. }
  unfold evals. split_and!; [done|by etrans| |].
  - unfold w_changed. cbn [changed lch l]. rewrite Hv. by rewrite negb_orb, negb_involutive.
  - eexists. split_and!; [exact Hnew| |by apply Hself]. eapply den_same; [apply He'|done].
Qed.

Lemma eval_account_spec fuel n k w c t :
  einv n → at_node n G k w c t → wf keccak256 k w t → child_type c = NT_Account →
  (∀ n k w c t, einv n → at_node n G k w c t → wf keccak256 k w t → (length w ≤ 64)%nat → child_type c ≠ NT_PoolHash →
     evals (eval_node keccak256 garbage fuel c n (Z.of_nat (length w))) fuel n w c t) →
  evals (eval_node keccak256 garbage (S fuel) c n (Z.of_nat (length w))) (S fuel) n w c t.
Proof.
  intros Hn Ha Hw Ec IH. rewrite (eval_account_unfold _ _ _ _ Ec). pose proof Ha as Hg. unfold at_node in Hg. rewrite Ec in Hg.
  set (i := Z.to_nat (child_idx c)) in *. cbv zeta.
  destruct (gi_account _ _ _ _ (ei_ghost _ Hn) _ _ Hg) as [_ (row & st & Hrow & Et & _ & Hst & Hpt & _)]. cbn [e_kind e_walk e_tree] in *. cbv zeta in Et, Hst.
  set (sc := Accounts.storage_root (Accounts.leaf row)) in *. set (addr := Accounts.view_address (Accounts.record row)) in *.
  rewrite (bind_val _ sc) by (unfold Accounts.storage_root_child_at, Accounts.row_at, vec_get; by rewrite Hrow).
  assert (Hwst : wf keccak256 (InStorage addr) [] st) by (rewrite Et in Hw; by inversion Hw).
  pose proof (IH n _ [] sc st Hn Hst Hwst ltac:(cbn; lia) Hpt) as Hev. change (Z.of_nat (length [])) with 0 in Hev. unfold evals in Hev.
  destruct (eval_node keccak256 garbage fuel sc n 0) as [[[sres sro] n1]|msg]; cbn [mbind res_bind].
  2:{ unfold evals. rewrite Et. intros Hs Hh. specialize (Hev Hs ltac:(cbn in Hh; unfold w_height in *; lia)).
      unfold w_new. cbn [new lvn]. change (new _ _ _ (lvn keccak256 V) (lch V) 0 st) with (w_new keccak256 V 0 st).
      cbn [length] in Hev. by rewrite Hev. }
  destruct Hev as (Hn1 & He1 & -> & ρ & Eρ & Hdρ & _). cbn [length] in Eρ.
  destruct (finalize keccak256 garbage sres (accounts n1) (storages n1) Current) as [sroot|msg] eqn:Efin; cbn [mbind res_bind].
  2:{ unfold evals. rewrite Et. intros Hs Hh. exfalso. pose proof (new_len keccak256 V _ [] st ρ Hwst ltac:(cbn; lia) Hs Eρ) as Hlen.
      rewrite (finalize_den keccak256 garbage garbage_len _ _ _ _ _ Hdρ) in Efin; [done|by apply fits_len]. }
  pose proof (finalize_fits keccak256 garbage _ _ _ _ _ _ Hdρ Efin) as Hfits.
  rewrite (finalize_den keccak256 garbage garbage_len _ _ _ _ _ Hdρ Hfits) in Efin. apply Ok_inj in Efin. subst sroot.
  eapply account_written; [done|done| |done|done|done|exact Et|done]. eapply at_evolve; [apply He1|apply He1|done].
Qed.

Lemma eval_aux_spec fuel n k w c t :
  einv n → at_node n G k w c t → wf keccak256 k w t →
  child_type c = NT_Empty ∨ child_type c = NT_Hash ∨ child_type c = NT_ExtensionHash ∨ child_type c = NT_PhantomLeaf →
  evals (eval_node keccak256 garbage (S fuel) c n (Z.of_nat (length w))) (S fuel) n w c t.
Proof.
  intros Hn Ha Hw Hty. destruct (fixed_fresh n k w c t Ha Hw) as [(ρ & Eρ & (r & Hr & Hd)) Hu].
  { by destruct Hty as [->|[->|[->| ->]]]. }
  assert (E : eval_node keccak256 garbage (S fuel) c n (Z.of_nat (length w)) = Ok (r, true, n)).
  { cbn [eval_node]. unfold child_result, result_ptr in Hr. destruct Hty as [Ec|[Ec|[Ec|Ec]]]; rewrite Ec in *.
    - by apply Ok_inj in Hr as <-.
    - by rewrite Hr.
    - by rewrite Hr.
    - by rewrite Hr. }
  rewrite E. unfold evals. rewrite Hu. split_and!; [done|done|done|]. exists ρ. split_and!; [done|done|by exists r].
Qed.

Lemma height_pos t : (1 ≤ w_height t)%nat.
Proof. unfold w_height. destruct t as [| | | |[]|]; cbn; lia. Qed.

Lemma eval_node_spec fuel : ∀ n k w c t,
  einv n → at_node n G k w c t → wf keccak256 k w t → (length w ≤ 64)%nat → child_type c ≠ NT_PoolHash →
  evals (eval_node keccak256 garbage fuel c n (Z.of_nat (length w))) fuel n w c t.
Proof.
  induction fuel as [|fuel IH]; intros n k w c t Hn Ha Hw Hl Hp.
  { unfold evals. cbn [eval_node]. intros _ Hh. pose proof (height_pos t). lia. }
  destruct (child_type c) eqn:Ec; try done.
  - eapply eval_aux_spec; eauto.
  - by eapply eval_branch_spec.
  - by eapply eval_account_spec.
  - by eapply eval_slot_spec.
  - eapply eval_aux_spec; eauto.
  - eapply eval_aux_spec; eauto.
  - eapply eval_aux_spec; eauto 6.
  - by eapply eval_chain_spec.
Qed.

End Eval.

(** ** The root *)

Lemma max_list_bound l m : Forall (λ x, (x ≤ m)%nat) l → (max_list l ≤ m)%nat.
Proof. induction 1; cbn; lia. Qed.

(** Two tries of at most 64 branches each. *)
Lemma height_slots keccak256 owner w t :
  wf keccak256 (InStorage owner) w t → (length w ≤ 64)%nat → (length w + w_height t ≤ 65)%nat.
Proof.
  intros Hw. remember (InStorage owner) as k eqn:Ek.
  induction Hw as [| | | |w i addr n b c st ? ? ? ? ? Hst IH ?|w i ow p v ? ? ?|k w kids Hl Hlw Hk IH]; intros Hlen; subst; try (cbn; lia); [done|].
  unfold w_height. cbn [height]. assert (Hm : (max_list (map (height lf_height) kids) ≤ 64 - length w)%nat); [|lia].
  apply max_list_bound. apply Forall_fmap, Forall_lookup. intros j t Hj. specialize (IH j t Hj eq_refl). rewrite length_app in IH. cbn in IH.
  unfold w_height in IH. cbn. lia.
Qed.
Lemma height_state keccak256 w t :
  wf keccak256 InState w t → (length w ≤ 64)%nat → (length w + w_height t ≤ 130)%nat.
Proof.
  intros Hw. remember InState as k eqn:Ek.
  induction Hw as [| | | |w i addr n b c st ? ? ? ? ? Hst IH ?|w i ow p v ? ? ?|k w kids Hl Hlw Hk IH]; intros Hlen; subst; try (cbn; lia); try done.
  - pose proof (height_slots _ _ _ _ Hst). unfold w_height in *. cbn in *. lia.
  - unfold w_height. cbn [height]. assert (Hm : (max_list (map (height lf_height) kids) ≤ 129 - length w)%nat); [|lia].
    apply max_list_bound. apply Forall_fmap, Forall_lookup. intros j t Hj. specialize (IH j t Hj eq_refl). rewrite length_app in IH. cbn in IH.
    unfold w_height in IH. cbn. lia.
Qed.

(** Execution changes the current values of rows, and nothing else of the trie. *)
Record executed (a a' : Accounts.Accounts) (s s' : Storages.Storages) : Prop := {
  ex_accounts : Forall2 (λ r r', Accounts.record r = Accounts.record r' ∧ Accounts.leaf r = Accounts.leaf r') (Accounts.rows a) (Accounts.rows a');
  ex_storages : Forall2 (λ r r', Storages.record r = Storages.record r' ∧ Storages.leaf r = Storages.leaf r') (Storages.rows s) (Storages.rows s') }.

Lemma ginv_executed keccak256 sr a a' s s' G :
  executed a a' s s' → ginv keccak256 (cached_old keccak256) (view sr a s) G → ginv keccak256 (cached_old keccak256) (view sr a' s') G.
Proof.
  intros [Ha Hs] HG. unfold view in *. destruct (arrays sr) as [[bs ax] chs].
  set (n := mkNodes a s bs ax chs (stream_ sr)) in *. set (n' := mkNodes a' s' bs ax chs (stream_ sr)).
  assert (HQ : ∀ r w t, cached_old keccak256 n r w t → cached_old keccak256 n' r w t).
  { intros r w t. apply den_records. split; intros i; cbn.
    - destruct (Accounts.rows a !! i) as [row|] eqn:E.
      + destruct (Forall2_lookup_l _ _ _ _ _ Ha E) as (row' & -> & ? & _). cbn. by f_equal.
      + apply lookup_ge_None in E. rewrite (Forall2_length _ _ _ Ha) in E. by rewrite (proj2 (lookup_ge_None _ _) E).
    - destruct (Storages.rows s !! i) as [row|] eqn:E.
      + destruct (Forall2_lookup_l _ _ _ _ _ Hs E) as (row' & -> & ? & _). cbn. by f_equal.
      + apply lookup_ge_None in E. rewrite (Forall2_length _ _ _ Hs) in E. by rewrite (proj2 (lookup_ge_None _ _) E). }
  destruct HG as [Gb Gc Ga Gs]. split; intros j e Ej.
  - destruct (Gb j e Ej) as [? (bn & kids & ? & ? & ? & ? & ? & ?)]. split; [done|]. exists bn, kids. split_and!; auto.
  - destruct (Gc j e Ej) as [? (ch & ? & (t0 & ? & ? & ? & ? & ? & ?))]. split; [done|]. exists ch. split; [done|]. exists t0. split_and!; auto.
  - destruct (Ga j e Ej) as [? (row & st & Hj & Ht & Hh & Hst & Hp & Hq)]. split; [done|].
    destruct (Forall2_lookup_l _ _ _ _ _ Ha Hj) as (row' & Hj' & Er & El). exists row', st. cbv zeta in *. rewrite <- Er, <- El. split_and!; auto.
  - destruct (Gs j e Ej) as [? (row & Hj & Ht & Hh & Hq)]. split; [done|].
    destruct (Forall2_lookup_l _ _ _ _ _ Hs Hj) as (row' & Hj' & Er & El). exists row'. cbv zeta in *. rewrite <- Er, <- El. split_and!; auto.
Qed.

(** Evaluating the root, for any nesting that is enough. *)
Lemma root_eval keccak256 garbage V G n root t fuel (f : Z → Nodes → unit) :
  (∀ n, length (garbage n) = n) → (∀ b, in_u256 (keccak256 b)) → einv keccak256 V G n → at_node n G InState [] root t →
  wf keccak256 InState [] t → child_type root ≠ NT_PoolHash → (130 ≤ fuel)%nat →
  match ('(root_res, _, n) ← eval_node keccak256 garbage fuel root n 0;
         r ← finalize keccak256 garbage root_res (accounts n) (storages n) Current; Ok (r, f r n)) with
  | Ok (r, _) => ∃ ρ, w_new keccak256 V 0 t = Ok ρ ∧ r = root_of keccak256 ρ
  | Fatal m => w_short 0 t = true → m = orphan_msg ∧ w_new keccak256 V 0 t = Fatal m
  end.
Proof.
  intros Hg Hk Hn Hat Hw Hp Hfuel.
  pose proof (eval_node_spec keccak256 garbage Hg Hk V G fuel n InState [] root t Hn Hat Hw ltac:(cbn; lia) Hp) as Hev.
  change (Z.of_nat (length [])) with 0 in Hev. unfold evals in Hev.
  destruct (eval_node keccak256 garbage fuel root n 0) as [[[r ro] n']|m]; cbn [mbind res_bind].
  - destruct Hev as (_ & _ & _ & ρ & Eρ & Hd & _). destruct (finalize keccak256 garbage r (accounts n') (storages n') Current) as [h|m] eqn:Ef; cbn [mbind res_bind].
    + exists ρ. split; [done|]. pose proof (finalize_fits keccak256 garbage _ _ _ _ _ _ Hd Ef) as Hfit.
      rewrite (finalize_den keccak256 garbage Hg _ _ _ _ _ Hd Hfit) in Ef. by apply Ok_inj in Ef.
    + intros Hsh. exfalso. pose proof (new_len keccak256 V _ [] t ρ Hw ltac:(cbn; lia) Hsh Eρ) as Hl.
      rewrite (finalize_den keccak256 garbage Hg _ _ _ _ _ Hd) in Ef; [done|by apply fits_len].
  - intros Hsh. pose proof (height_state _ _ _ Hw ltac:(cbn; lia)) as Hh. cbn [length] in *. specialize (Hev Hsh ltac:(lia)).
    split; [|done]. by eapply new_fatal.
Qed.

(** The new root of a built object, for the tree its arrays hold. *)
Definition new_root_of (keccak256 : bytes → Z) (garbage : nat → bytes) (sr : StateRoot) (a : Accounts.Accounts) (s : Storages.Storages) (t : tree lf) : Prop :=
  match calculate_new_state_root keccak256 garbage sr a s with
  | Ok (r, _, _, _) => ∃ ρ, w_new keccak256 (table_values a s) 0 t = Ok ρ ∧ r = root_of keccak256 ρ
  | Fatal m => w_short 0 t = true → m = orphan_msg ∧ w_new keccak256 (table_values a s) 0 t = Fatal m
  end.
Lemma calculate_spec keccak256 garbage sr a1 s1 a2 s2 G t :
  (∀ n, length (garbage n) = n) → (∀ b, in_u256 (keccak256 b)) → wf keccak256 InState [] t →
  ginv keccak256 (cached_old keccak256) (view sr a1 s1) G → at_node (view sr a1 s1) G InState [] (root_ sr) t → child_type (root_ sr) ≠ NT_PoolHash →
  executed a1 a2 s1 s2 → in_range a2 s2 → new_root_of keccak256 garbage sr a2 s2 t.
Proof.
  intros Hg Hk Hw HG Hat Hp Hex Hr. apply (ginv_executed _ _ _ _ _ _ _ Hex) in HG. unfold new_root_of. set (V := table_values a2 s2).
  unfold calculate_new_state_root. unfold view in HG, Hat. destruct (arrays sr) as [[bs ax] chs]. set (n := mkNodes a2 s2 bs ax chs (stream_ sr)) in *.
  assert (Hn : einv keccak256 V G n) by (apply einv_start; [done|by apply reads_table]).
  assert (Hat' : at_node n G InState [] (root_ sr) t) by exact Hat. assert (Hf : (130 ≤ levels)%nat) by (unfold levels; lia). revert Hf.
  generalize levels. intros fuel Hf.
  pose proof (root_eval keccak256 garbage V G n (root_ sr) t fuel (λ _ _, tt) Hg Hk Hn Hat' Hw Hp Hf) as Hroot.
  destruct (eval_node keccak256 garbage fuel (root_ sr) n 0) as [[[r ro] n']|m]; cbn [mbind res_bind] in *; [|done].
  by destruct (finalize keccak256 garbage r (accounts n') (storages n') Current) as [h|m]; cbn [mbind res_bind] in *.
Qed.

End RootEval.
