(* ===== verification/RootTrie.v ===== *)
(** The Merkle Patricia tries the world state is made of: every path has the same
    length.  [T I] is the root node of a set of pairs, by the Yellow Paper's
    definition; [rep ρ I] says that a reduced node stands for a set, and is
    preserved by the reduction of a branch. *)

From stdpp Require Import base numbers list strings gmap.
From S2P Require Import Prelude Rlp Writer TriePath Mpt Accounts RootSpec RootEncode.

Set Default Goal Selector "!".

Module RootTrie.
Import Rlp TriePath Mpt RootSpec RootEncode.

(** ** Sets of pairs with paths of one length *)

Definition pair_ok (m : nat) (x : list Z * bytes) : Prop :=
  Forall is_nibble x.1 ∧ length x.1 = m ∧ x.2 ≠ [] ∧ len x.2 < 2 ^ 31.
Record content (m : nat) (I : list (list Z * bytes)) : Prop := {
  co_nodup : NoDup (map fst I);
  co_pair : ∀ x, x ∈ I → pair_ok m x;
  co_len : (m ≤ 64)%nat }.

Lemma content_ok m n I : content m I → (m < n)%nat → Forall (kv_ok n) I.
Proof.
  intros [_ Hp Hm] Hn. apply Forall_forall. intros x (? & ? & ? & ?)%Hp. split_and!; try done; lia.
Qed.
Lemma content_below m j I : content (S m) I → content m (below j I).
Proof.
  intros [Hn Hp Hm]. split; [by apply below_nodup| |lia]. intros [p v] Hin%below_in. destruct (Hp _ Hin) as (Hf & Hl & ? & ?). cbn in *.
  apply Forall_cons in Hf as [_ Hf]. split_and!; [done|cbn; lia|done|done].
Qed.
Lemma content_drop m c I :
  content m I → (∀ x, x ∈ I → c `prefix_of` x.1) → I ≠ [] → content (m - length c) (drop_all (length c) I) ∧ (length c ≤ m)%nat.
Proof.
  intros [Hn Hp Hm] Hc Hne. split; [split|].
  - by apply drop_all_nodup.
  - intros [p v] ([q w] & E & Hin)%list_elem_of_fmap. injection E as -> ->. destruct (Hp _ Hin) as (Hf & Hl & ? & ?). cbn in *.
    split_and!; [by apply Forall_drop|cbn; rewrite length_drop; lia|done|done].
  - lia.
  - destruct I as [|x I]; [done|]. destruct (Hp x ltac:(by left)) as (_ & <- & _). apply prefix_length, Hc. by left.
Qed.
Lemma content_many m I : content m I → (2 ≤ length I)%nat → (0 < m)%nat.
Proof.
  intros [Hn Hp _] Hl. destruct m; [|lia]. destruct I as [|x [|y I]]; cbn in Hl; [lia|lia|]. exfalso.
  destruct (Hp x ltac:(by left)) as (_ & Hx & _). destruct (Hp y ltac:(by right; left)) as (_ & Hy & _).
  apply length_zero_iff_nil in Hx, Hy. cbn in Hn. rewrite Hx, Hy in Hn. apply NoDup_cons in Hn as [Hn _]. apply Hn. by left.
Qed.

Lemma lcp_in (I : list (list Z * bytes)) x : x ∈ I → lcp_all (map fst I) `prefix_of` x.1.
Proof. intros Hx. apply lcp_all_prefix, list_elem_of_fmap. by exists x. Qed.

(** Two of the paths part here. *)
Definition fork (I : list (list Z * bytes)) : Prop := ∃ j j', j ≠ j' ∧ below j I ≠ [] ∧ below j' I ≠ [].

Lemma below_elem j (I : list (list Z * bytes)) : below j I ≠ [] → ∃ p v, (j :: p, v) ∈ I.
Proof. destruct (below j I) as [|[p v] B] eqn:E; [done|]. intros _. exists p, v. apply below_in. rewrite E. by left. Qed.
Lemma elem_below j p v (I : list (list Z * bytes)) : (j :: p, v) ∈ I → below j I ≠ [].
Proof. intros H%below_in E. rewrite E in H. by apply not_elem_of_nil in H. Qed.

Lemma fork_many I : fork I → (2 ≤ length I)%nat ∧ lcp_all (map fst I) = [].
Proof.
  intros (j & j' & Hne & (p & v & H)%below_elem & (p' & v' & H')%below_elem). split.
  - destruct I as [|x [|y I]]; [by apply not_elem_of_nil in H| |cbn; lia].
    apply list_elem_of_singleton in H, H'. congruence.
  - pose proof (lcp_in _ _ H) as L. pose proof (lcp_in _ _ H') as L'. cbn in L, L'. destruct (lcp_all _) as [|x c]; [done|].
    apply prefix_cons_inv_1 in L, L'. congruence.
Qed.
Lemma fork_of_lcp m I : content m I → (2 ≤ length I)%nat → lcp_all (map fst I) = [] → fork I.
Proof.
  intros Hc Hl E. pose proof (content_many _ _ Hc Hl) as Hm. destruct I as [|[p v] I0] eqn:EI; [cbn in Hl; lia|]. rewrite <- EI in *.
  assert (Hin : (p, v) ∈ I) by (rewrite EI; by left).
  destruct (co_pair _ _ Hc _ Hin) as (_ & Hp & _). cbn in Hp. destruct p as [|j p]; [cbn in Hp; lia|].
  destruct (decide (Forall (λ x, hd (-1) x.1 = j) I)) as [Hall|Hex].
  - exfalso. assert (Hpre : [j] `prefix_of` lcp_all (map fst I)).
    { apply lcp_all_greatest; [by rewrite EI|]. intros q ([q' w] & -> & Hq)%list_elem_of_fmap. cbn.
      eapply Forall_forall in Hall; [|exact Hq]. destruct (co_pair _ _ Hc _ Hq) as (_ & Hlq & _). cbn in *.
      destruct q' as [|j' q']; [cbn in Hlq; lia|]. cbn in Hall. subst. by apply prefix_cons, prefix_nil. }
    rewrite E in Hpre. by apply prefix_nil_not in Hpre.
  - apply not_Forall_Exists in Hex; [|solve_decision]. apply Exists_exists in Hex as ([q w] & Hq & Hne). cbn in Hne.
    destruct (co_pair _ _ Hc _ Hq) as (_ & Hlq & _). cbn in *. destruct q as [|j' q]; [cbn in Hlq; lia|]. cbn in Hne.
    exists j, j'. split_and!; [done|by eapply elem_below|by eapply elem_below].
Qed.

(** A shared prefix in front of every path. *)
Definition under (c : list Z) (J : list (list Z * bytes)) : list (list Z * bytes) := map (λ '(p, v), (c ++ p, v)) J.
Lemma under_app c c' J : under c (under c' J) = under (c ++ c') J.
Proof. unfold under. rewrite map_map. apply map_ext. intros [p v]. by rewrite app_assoc. Qed.
Lemma elem_under c p v J : (p, v) ∈ under c J ↔ ∃ q, p = c ++ q ∧ (q, v) ∈ J.
Proof.
  unfold under. rewrite list_elem_of_fmap. split.
  - intros ([q w] & [= -> ->] & H). eauto.
  - intros (q & -> & H). by exists (q, v).
Qed.
Lemma drop_under c J : drop_all (length c) (under c J) = J.
Proof.
  unfold drop_all, under. rewrite map_map. etrans; [|apply map_id]. apply map_ext. intros [p v]. by rewrite drop_app_length.
Qed.
Lemma under_drop c (I : list (list Z * bytes)) : (∀ x, x ∈ I → c `prefix_of` x.1) → under c (drop_all (length c) I) = I.
Proof.
  unfold under, drop_all. rewrite map_map. intros H. etrans; [|apply map_id]. apply map_ext_in. intros [p v] Hin%list_elem_of_In.
  by rewrite <- (prefix_drop_eq c p (H _ Hin)).
Qed.
Lemma content_under m c J : content m J → Forall is_nibble c → (length c + m ≤ 64)%nat → content (length c + m) (under c J).
Proof.
  intros [Hn Hp Hm] Hc Hl. split; [| |done].
  - unfold under. rewrite map_map. rewrite (map_ext _ (λ x, c ++ x.1)) by (by intros []). rewrite <- (map_map fst (app c)).
    apply NoDup_fmap_2; [|done]. intros ? ?. apply app_inv_head.
  - intros [p v] (q & -> & Hq)%elem_under. destruct (Hp _ Hq) as (? & ? & ? & ?). cbn in *.
    split_and!; [by apply Forall_app|cbn; rewrite length_app; lia|done|done].
Qed.
Lemma lcp_under c J : J ≠ [] → lcp_all (map fst (under c J)) = c ++ lcp_all (map fst J).
Proof.
  intros Hne. apply lcp_all_unique.
  - by destruct J as [|[]].
  - intros q ([q' w] & -> & (r & -> & Hr)%elem_under)%list_elem_of_fmap. cbn. apply prefix_app. apply (lcp_in J (r, w) Hr).
  - intros k Hk. destruct J as [|[p v] J0] eqn:EJ; [done|]. rewrite <- EJ in *.
    assert (Hp : ∀ r w, (r, w) ∈ J → k `prefix_of` c ++ r).
    { intros r w Hr. apply Hk, list_elem_of_fmap. exists (c ++ r, w). split; [done|]. apply elem_under. eauto. }
    destruct (prefix_weak_total k c (c ++ p)) as [Hkc|[r ->]]; [apply (Hp p v); rewrite EJ; by left|by apply prefix_app_r| |].
    + etrans; [exact Hkc|]. by apply prefix_app_r.
    + apply prefix_app. apply lcp_all_greatest; [by rewrite EJ|]. intros q ([q' w] & -> & Hq)%list_elem_of_fmap.
      specialize (Hp q' w Hq). by apply prefix_app_inv in Hp.
Qed.
Lemma fork_under_below j J : below j (under [j] J) = J.
Proof. induction J as [|[p v] J IH]; [done|]. change (under [j] ((p, v) :: J)) with ((j :: p, v) :: under [j] J). by rewrite below_cons, Z.eqb_refl, IH. Qed.
(** ** The nonempty children *)

Lemma live_mem k rs j r : rs !! Z.to_nat (j - k) = Some r → k ≤ j → is_NE r = false → (j, r) ∈ live k rs.
Proof.
  revert k. induction rs as [|r0 rs IH]; intros k Hr Hj Hne; [done|]. cbn [live].
  destruct (decide (j = k)) as [->|Hk].
  - rewrite Z.sub_diag in Hr. cbn in Hr. injection Hr as ->. rewrite Hne. by left.
  - replace (Z.to_nat (j - k)) with (S (Z.to_nat (j - (k + 1)))) in Hr by lia. cbn in Hr.
    specialize (IH (k + 1) Hr ltac:(lia) Hne). destruct (is_NE r0); [done|by right].
Qed.
Lemma live_ge k rs j r : (j, r) ∈ live k rs → k ≤ j.
Proof. intros (? & _)%live_elem. lia. Qed.
Lemma live_distinct k rs j r j' r' l : live k rs = (j, r) :: (j', r') :: l → j ≠ j'.
Proof.
  revert k. induction rs as [|r0 rs IH]; intros k E; [done|]. cbn [live] in E. destruct (is_NE r0); [by eapply IH|].
  injection E as <- <- E. assert (Hin : (j', r') ∈ live (k + 1) rs) by (rewrite E; by left). apply live_ge in Hin. lia.
Qed.

(** ** The trie of such a set *)

Section Trie.
Context (keccak256 : bytes → Z).
Abbreviation node_ref := (node_ref keccak256).
Abbreviation trie := (trie keccak256).

Lemma ending_content m I : content (S m) I → ending I = [Byte.x80].
Proof.
  intros Hc. apply ending_none, Forall_forall. intros x Hx E. destruct (co_pair _ _ Hc x Hx) as (_ & Hl & _). by rewrite E in Hl.
Qed.

(** The measure that bounds the recursion of [trie] does not matter. *)
Lemma trie_fuel n : ∀ n' m I, content m I → I ≠ [] → (m < n)%nat → (m < n')%nat → trie n I = trie n' I.
Proof.
  induction n as [|n IH]; intros n' m I Hc Hne Hn Hn'; [lia|]. destruct n' as [|n']; [lia|].
  destruct I as [|x [|y I]]; [done|by destruct x|]. rewrite !trie_many. cbv zeta. set (c := lcp_all _).
  pose proof (content_many _ _ Hc ltac:(cbn; lia)) as Hm. destruct (Nat.ltb_spec 0 (length c)) as [Hl|Hl].
  - destruct (content_drop m c _ Hc) as [Hd Hlc]; [apply lcp_in|done|]. do 4 f_equal. apply (IH n' (m - length c)%nat); [done|done|lia|lia].
  - do 2 f_equal. apply map_ext. intros j. destruct m as [|m]; [lia|]. pose proof (content_below m j _ Hc) as Hb.
    unfold child_ref. destruct (below j (x :: y :: I)) as [|b B] eqn:E; [done|]. rewrite <- E in *. f_equal.
    apply (IH n' m); [done|by rewrite E|lia|lia].
Qed.

(** The root node of a set with paths of at most 64 nibbles. *)
Definition T (I : list (list Z * bytes)) : bytes := trie 65 I.
Definition cref (I : list (list Z * bytes)) : bytes := child_ref keccak256 T I.

Lemma T_node m I : content m I → I ≠ [] → is_list_node (T I).
Proof. intros Hc Hne. apply trie_node; [done|apply Hc|]. eapply content_ok; [exact Hc|]. pose proof (co_len _ _ Hc). lia. Qed.
Lemma T_perm m I I' : content m I → I ≡ₚ I' → T I = T I'.
Proof. intros Hc Hp. apply trie_perm; [done|apply Hc]. Qed.
Lemma cref_perm m I I' : content m I → I ≡ₚ I' → cref I = cref I'.
Proof.
  intros Hc Hp. unfold cref, child_ref. destruct I, I'; [done|by apply Permutation_nil_l in Hp|by apply Permutation_nil_r in Hp|].
  f_equal. by eapply T_perm.
Qed.
Lemma content_perm m I I' : content m I → I ≡ₚ I' → content m I'.
Proof. intros [Hn Hp Hm] E. split; [by rewrite <- E|intros x; rewrite <- E; apply Hp|done]. Qed.

Lemma T_leaf p v : T [(p, v)] = leaf_rlp p v.
Proof. done. Qed.
Lemma trie_65 n m I : content m I → I ≠ [] → (m < n)%nat → trie n I = T I.
Proof. intros Hc Hne Hm. apply (trie_fuel n 65 m); [done|done|done|]. pose proof (co_len _ _ Hc). lia. Qed.
Lemma T_ext m c J : content m J → fork J → c ≠ [] → Forall is_nibble c → (length c + m ≤ 64)%nat →
  T (under c J) = encode_list [encode (hp_spec c false); node_ref (T J)].
Proof.
  intros Hc Hf Hne Hn Hl. destruct (fork_many J Hf) as [H2 Hlcp]. assert (HJ : J ≠ []) by (by destruct J; cbn in H2; [lia|]).
  pose proof (content_under m c J Hc Hn Hl) as Hcu. assert (Hpos : (0 < length c)%nat) by (destruct c; [done|cbn; lia]).
  rewrite <- (trie_65 (S (length c + m)) (length c + m) (under c J)); [|done|by destruct J as [|[]]|lia].
  rewrite <- (trie_65 (length c + m) m J); [|done|done|lia]. generalize (length c + m)%nat. intros n.
  assert (Hlu : lcp_all (map fst (under c J)) = c) by (rewrite lcp_under by done; by rewrite Hlcp, app_nil_r).
  pose proof (drop_under c J) as Hdu. assert (H2u : (2 ≤ length (under c J))%nat) by (unfold under; by rewrite length_map).
  revert Hlu Hdu H2u. generalize (under c J). intros [|x [|y U]] Hlu Hdu H2u; [cbn in H2u; lia|cbn in H2u; lia|].
  rewrite trie_many. cbv zeta. rewrite Hlu, Hdu. by rewrite (proj2 (Nat.ltb_lt 0 (length c))).
Qed.
Lemma T_branch m I : content (S m) I → fork I → T I = encode_list (map (λ j, cref (below j I)) (seqZ 0 16) ++ [[Byte.x80]]).
Proof.
  intros Hc Hf. destruct (fork_many I Hf) as [H2 Hlcp]. assert (HI : I ≠ []) by (by destruct I; cbn in H2; [lia|]).
  rewrite <- (trie_65 (S (S m)) (S m) I); [|done|done|lia].
  assert (Hb : ∀ j, child_ref keccak256 (trie (S m)) (below j I) = cref (below j I)).
  { intros j. pose proof (content_below m j _ Hc) as Hb. unfold cref, child_ref. destruct (below j I) as [|b B] eqn:E; [done|].
    rewrite <- E in *. f_equal. apply (trie_65 (S m) m); [done|by rewrite E|lia]. }
  pose proof (ending_content m I Hc) as He. revert Hb He Hlcp. destruct I as [|x [|y I]]; [done|cbn in H2; lia|]. intros Hb He Hlcp.
  rewrite trie_many. cbv zeta. rewrite Hlcp, He. cbn [length Nat.ltb Nat.leb]. do 2 f_equal. by apply map_ext.
Qed.

(** The nodes of such a trie, down from [T I]. *)
Definition nodes (I : list (list Z * bytes)) : list bytes := trie_nodes keccak256 65 I.
Lemma nodes_root I : T I ∈ nodes I.
Proof. apply node_first. lia. Qed.
Lemma nodes_fuel n : ∀ n' m I, content m I → I ≠ [] → (m < n)%nat → (m < n')%nat → trie_nodes keccak256 n I = trie_nodes keccak256 n' I.
Proof.
  induction n as [|n IH]; intros n' m I Hc Hne Hn Hn'; [lia|]. destruct n' as [|n']; [lia|].
  cbn [trie_nodes]. rewrite (trie_fuel (S n) (S n') m I) by done. f_equal.
  destruct I as [|x [|y I]]; [done|done|]. cbv zeta. set (c := lcp_all _).
  pose proof (content_many _ _ Hc ltac:(cbn; lia)) as Hm. destruct (Nat.ltb_spec 0 (length c)) as [Hl|Hl].
  - destruct (content_drop m c _ Hc) as [Hd Hlc]; [apply lcp_in|done|]. apply (IH n' (m - length c)%nat); [done|done|lia|lia].
  - f_equal. apply map_ext. intros j. destruct m as [|m]; [lia|]. pose proof (content_below m j _ Hc) as Hb.
    case_decide; [done|]. apply (IH n' m); [done|done|lia|lia].
Qed.
Lemma nodes_65 n m I : content m I → I ≠ [] → (m < n)%nat → trie_nodes keccak256 n I = nodes I.
Proof. intros Hc Hne Hm. apply (nodes_fuel n 65 m); [done|done|done|]. pose proof (co_len _ _ Hc). lia. Qed.
Lemma nodes_under m c J : content m (under c J) → fork J → nodes J ⊆ nodes (under c J).
Proof.
  intros Hc Hf. destruct (fork_many J Hf) as [H2 Hlcp]. assert (HJ : J ≠ []) by (by destruct J; cbn in H2; [lia|]).
  destruct c as [|x0 c0] eqn:Ec; [change (under [] J) with (map (λ '(p, v), ([] ++ p, v)) J); rewrite (map_ext _ id), map_id by (by intros []); done|].
  rewrite <- Ec in *. assert (Hpos : (0 < length c)%nat) by (rewrite Ec; cbn; lia).
  destruct (content_drop m c (under c J) Hc) as [Hd Hlm]; [intros [p v] (q & -> & _)%elem_under; by apply prefix_app_r|by destruct J as [|[]]|].
  rewrite drop_under in Hd. pose proof (co_len _ _ Hc) as H64.
  rewrite <- (nodes_65 64 (m - length c) J) by (done || lia). unfold nodes.
  assert (Hlu : lcp_all (map fst (under c J)) = c) by (rewrite lcp_under by done; by rewrite Hlcp, app_nil_r).
  pose proof (drop_under c J) as Hdu. assert (H2u : (2 ≤ length (under c J))%nat) by (unfold under; by rewrite length_map).
  revert Hlu Hdu H2u. generalize (under c J). intros [|x [|y U]] Hlu Hdu H2u; [cbn in H2u; lia|cbn in H2u; lia|].
  pose proof (nodes_ext keccak256 64 x y U) as H. cbv zeta in H. rewrite Hlu, Hdu in H. by apply H.
Qed.
Lemma nodes_below m j I : content (S m) I → fork I → 0 ≤ j < 16 → below j I ≠ [] → nodes (below j I) ⊆ nodes I.
Proof.
  intros Hc Hf Hj Hb. destruct (fork_many I Hf) as [H2 Hlcp]. pose proof (content_below m j _ Hc) as Hcb. pose proof (co_len _ _ Hc) as H64.
  rewrite <- (nodes_65 64 m (below j I)) by (done || lia). unfold nodes. revert Hlcp Hb. clear Hc Hf Hcb.
  destruct I as [|x [|y I]]; [cbn in H2; lia|cbn in H2; lia|]. intros Hlcp Hb. apply nodes_branch; [by rewrite Hlcp|done|done].
Qed.

(** The three shapes. *)
Lemma shapes m I : content m I → I ≠ [] →
  (∃ p v, I = [(p, v)]) ∨ (fork I ∧ (0 < m)%nat) ∨
  (∃ c J, c ≠ [] ∧ I = under c J ∧ fork J ∧ (length c ≤ m)%nat ∧ content (m - length c) J).
Proof.
  intros Hc Hne. destruct I as [|[p v] [|y I]]; [done|by left; eauto|right]. set (I' := (p, v) :: y :: I) in *.
  assert (H2 : (2 ≤ length I')%nat) by (cbn; lia). destruct (lcp_all (map fst I')) as [|x c'] eqn:E.
  - left. split; [by eapply fork_of_lcp|by eapply content_many].
  - right. set (c := lcp_all (map fst I')) in *. exists c, (drop_all (length c) I').
    destruct (content_drop m c I' Hc) as [Hd Hlc]; [apply lcp_in|done|].
    assert (Hu : I' = under c (drop_all (length c) I')) by (symmetry; apply under_drop, lcp_in).
    split_and!; [by rewrite E|done| |done|done]. eapply fork_of_lcp; [exact Hd|by unfold drop_all; rewrite length_map|].
    assert (Hl : lcp_all (map fst I') = c) by done. rewrite Hu, lcp_under in Hl by done.
    rewrite <- (app_nil_r c) in Hl at 3. by apply app_inv_head in Hl.
Qed.

(** ** Nodes large enough to be hashed *)

Lemma node_ref_ge b m : m ≤ 33 → m ≤ len b → m ≤ len (node_ref b).
Proof. intros Hm Hb. unfold Mpt.node_ref. case_match; [done|]. unfold keccak256_bytes32. rewrite len_hash32. done. Qed.
Lemma len_list_ge l : len (concat l) + 1 ≤ len (encode_list l).
Proof.
  rewrite encode_list_spec. set (p := concat l). change (encode_list_payload p) with (enc List p). rewrite enc_header by (by intros [? _]). rewrite len_app.
  pose proof (len_nonneg p). assert (1 ≤ len (header (short_base List) (long_base List) (len p))); [|lia].
  destruct (Z_le_gt_dec (len p) 55); [by rewrite header_short by done|]. rewrite header_long by lia. unfold len. cbn [length]. lia.
Qed.
Lemma len_string_ge b : len b ≤ len (encode b) ∧ 1 ≤ len (encode b).
Proof.
  destruct (decide (bare String b)) as [Hb|Hb]; change (encode b) with (enc String b).
  - rewrite enc_bare by done. destruct Hb as (_ & Hb & _). lia.
  - rewrite enc_header by done. rewrite len_app. pose proof (len_nonneg b).
    assert (1 ≤ len (header (short_base String) (long_base String) (len b))); [|lia].
    destruct (Z_le_gt_dec (len b) 55); [by rewrite header_short by done|]. rewrite header_long by lia. unfold len. cbn [length]. lia.
Qed.
Lemma len_string_two b : 2 ≤ len b → len b + 1 ≤ len (encode b).
Proof.
  intros H2. change (encode b) with (enc String b). rewrite enc_header by (intros (_ & Hb & _); lia). rewrite len_app.
  assert (1 ≤ len (header (short_base String) (long_base String) (len b))); [|lia].
  destruct (Z_le_gt_dec (len b) 55); [by rewrite header_short by done|]. rewrite header_long by lia. unfold len. cbn [length]. lia.
Qed.
Lemma len_concat_ge l : Forall (λ x, 1 ≤ len x) l → Z.of_nat (length l) ≤ len (concat l).
Proof. induction 1 as [|x l Hx _ IH]; [done|]. cbn [concat length]. rewrite len_app. lia. Qed.
Lemma len_concat_one k (l : list bytes) i x :
  Forall (λ x, 1 ≤ len x) l → l !! i = Some x → k + 1 ≤ len x → k + Z.of_nat (length l) ≤ len (concat l).
Proof.
  intros Hl. revert i. induction Hl as [|y l Hy Hl IH]; intros i Hi Hx; [done|]. cbn [concat length]. rewrite len_app.
  destruct i as [|i]; cbn in Hi; [injection Hi as ->; pose proof (len_concat_ge l Hl); lia|]. specialize (IH i Hi Hx). lia.
Qed.
Lemma len_concat_two k (l : list bytes) i i' x x' :
  0 ≤ k → Forall (λ x, 1 ≤ len x) l → l !! i = Some x → l !! i' = Some x' → i ≠ i' → k + 1 ≤ len x → k + 1 ≤ len x' →
  2 * k + Z.of_nat (length l) ≤ len (concat l).
Proof.
  intros Hk Hl. revert i i'. induction Hl as [|y l Hy Hl IH]; intros i i' Hi Hi' Hne Hx Hx'; [done|]. cbn [concat length]. rewrite len_app.
  destruct i as [|i], i' as [|i']; cbn in Hi, Hi'; [done| | |].
  - injection Hi as ->. pose proof (len_concat_one k l i' x' Hl Hi' Hx'). lia.
  - injection Hi' as ->. pose proof (len_concat_one k l i x Hl Hi Hx). lia.
  - specialize (IH i i' Hi Hi' ltac:(lia) Hx Hx'). lia.
Qed.

Lemma pack_nibs_length ns : length (pack_nibs ns) = (length ns / 2)%nat.
Proof.
  assert (H : ∀ k ns, (length ns ≤ k)%nat → length (pack_nibs ns) = (length ns / 2)%nat); [|by apply (H (length ns))].
  induction k as [|k IH]; intros [|a [|b l]] Hl; try done; [cbn in Hl; lia|].
  cbn [pack_nibs length]. rewrite IH by (cbn in Hl; lia). change (S (S (length l))) with (2 + length l)%nat.
  replace (2 + length l)%nat with (length l + 1 * 2)%nat by lia. rewrite Nat.div_add by lia. lia.
Qed.
Lemma hp_length ns l : length (hp_spec ns l) = S (length ns / 2)%nat.
Proof.
  unfold hp_spec. destruct (Nat.odd (length ns)) eqn:E; cbn [length]; rewrite pack_nibs_length; [|done].
  destruct ns as [|a ns]; [done|]. cbn [tl length] in *. rewrite Nat.odd_succ in E. apply Nat.even_spec in E as [k ->].
  replace (S (2 * k)) with (1 + k * 2)%nat by lia. rewrite Nat.div_add by lia. rewrite (Nat.mul_comm 2 k), Nat.div_mul by lia. done.
Qed.

Lemma leaf_min p v : (8 ≤ length p)%nat → 8 ≤ len (leaf_rlp p v).
Proof.
  intros Hp. unfold leaf_rlp. etrans; [|apply len_list_ge]. cbn [concat]. rewrite app_nil_r, len_app.
  assert (5 ≤ len (hp_spec p true)).
  { unfold len. rewrite hp_length. pose proof (Nat.Div0.div_le_mono 8 (length p) 2 Hp) as H. change (8 / 2)%nat with 4%nat in H. lia. }
  pose proof (len_string_two (hp_spec p true) ltac:(lia)). pose proof (len_string_ge v). lia.
Qed.
Lemma cref_min m J : content m J → 1 ≤ len (cref J).
Proof.
  intros Hc. unfold cref, child_ref. destruct J as [|x J0] eqn:E; [done|]. rewrite <- E in *. apply node_ref_ge; [lia|].
  destruct (T_node m J Hc ltac:(by rewrite E)) as (p & -> & Hp). destruct (list_head p Hp) as (b & t & -> & _). unfold len. cbn. lia.
Qed.
Lemma crefs_min m I : content (S m) I → Forall (λ x, 1 ≤ len x) (map (λ j, cref (below j I)) (seqZ 0 16)).
Proof. intros Hc. apply Forall_fmap, Forall_forall. intros j _. by apply (cref_min m), content_below. Qed.
Lemma branch_min m I : content m I → fork I → 18 ≤ len (T I).
Proof.
  intros Hc Hf. destruct m as [|m]; [exfalso; pose proof (content_many _ _ Hc (proj1 (fork_many _ Hf))); lia|].
  rewrite (T_branch m) by done. etrans; [|apply len_list_ge]. rewrite concat_app, len_app.
  pose proof (len_concat_ge _ (crefs_min m I Hc)) as H. rewrite length_map, length_seqZ in H. change (len (concat [[Byte.x80]])) with 1. lia.
Qed.
Lemma content_nibbles m c J : content m (under c J) → J ≠ [] → Forall is_nibble c.
Proof.
  intros Hc Hne. destruct J as [|[p v] J]; [done|]. destruct (co_pair _ _ Hc (c ++ p, v) ltac:(by left)) as (H & _).
  cbn in H. by apply Forall_app in H as [? _].
Qed.
Lemma fork_nonempty J : fork J → J ≠ [].
Proof. intros [H _]%fork_many ->. cbn in H. lia. Qed.
Lemma node_min m I : content m I → I ≠ [] → (8 ≤ m)%nat → 8 ≤ len (T I).
Proof.
  intros Hc Hne Hm. destruct (shapes m I Hc Hne) as [(p & v & ->)|[[Hf _]|(c & J & Hcn & -> & Hf & Hl & HcJ)]].
  - rewrite T_leaf. apply leaf_min. destruct (co_pair _ _ Hc (p, v) ltac:(by left)) as (_ & Hp & _). cbn in Hp. lia.
  - pose proof (branch_min m I Hc Hf). lia.
  - rewrite (T_ext (m - length c)); [|done|done|done|by eapply content_nibbles, fork_nonempty|pose proof (co_len _ _ Hc); lia].
    etrans; [|apply len_list_ge]. cbn [concat]. rewrite app_nil_r, len_app. pose proof (branch_min _ J HcJ Hf).
    pose proof (node_ref_ge (T J) 18 ltac:(lia) ltac:(lia)). pose proof (len_string_ge (hp_spec c false)). lia.
Qed.
Lemma fork_big m I : content m I → fork I → (9 ≤ m)%nat → 32 ≤ len (T I).
Proof.
  intros Hc (j & j' & Hne & Hj & Hj') Hm. destruct m as [|m]; [lia|]. rewrite (T_branch m) by (done || by exists j, j').
  assert (Hr : ∀ i, below i I ≠ [] → 0 ≤ i < 16).
  { intros i (p & v & Hin)%below_elem. destruct (co_pair _ _ Hc _ Hin) as (H & _). cbn in H. by apply Forall_cons in H as [? _]. }
  assert (Hlook : ∀ i, below i I ≠ [] → map (λ j, cref (below j I)) (seqZ 0 16) !! Z.to_nat i = Some (cref (below i I)) ∧ 8 ≤ len (cref (below i I))).
  { intros i Hi. pose proof (Hr i Hi). rewrite list_lookup_fmap, lookup_seqZ_lt by lia. cbn [fmap option_fmap option_map].
    replace (0 + Z.of_nat (Z.to_nat i)) with i by lia. split; [done|]. unfold cref, child_ref. pose proof (content_below m i I Hc) as Hb.
    destruct (below i I) as [|x B] eqn:E; [done|]. rewrite <- E in *. apply node_ref_ge; [lia|]. apply (node_min m); [done|by rewrite E|lia]. }
  destruct (Hlook j Hj) as [L1 M1]. destruct (Hlook j' Hj') as [L2 M2].
  etrans; [|apply len_list_ge]. rewrite concat_app, len_app. change (len (concat [[Byte.x80]])) with 1.
  pose proof (len_concat_two 7 _ _ _ _ _ ltac:(lia) (crefs_min m I Hc) L1 L2) as H2. rewrite length_map, length_seqZ in H2.
  pose proof (Hr j Hj). pose proof (Hr j' Hj'). specialize (H2 ltac:(lia) ltac:(lia) ltac:(lia)). lia.
Qed.

(** ** Reduced nodes and the sets they stand for *)

Definition rep (ρ : nres) (I : list (list Z * bytes)) : Prop :=
  match ρ with
  | NE => I = []
  | NL p v _ => I = [(p, v)]
  | NX c h => c ≠ [] ∧ ∃ J, I = under c J ∧ fork J ∧ h = keccak256 (T J) ∧ 32 ≤ len (T J)
  | NH h => I ≠ [] ∧ h = keccak256 (T I) ∧ 32 ≤ len (T I)
  end.
Definition trie_root (I : list (list Z * bytes)) : Z :=
  match I with [] => Node.kEmptyTrieRoot | _ => keccak256 (T I) end.

(** The nodes behind [trie_root]: the empty trie is hashed from [0x80]. *)
Definition root_nodes (I : list (list Z * bytes)) : list bytes :=
  match I with [] => [[Byte.x80]] | _ => nodes I end.
Lemma node_ref_hashed b : 32 ≤ len b → node_ref b = encode (be_bytes 32 (keccak256 b)).
Proof. intros H. unfold Mpt.node_ref. by rewrite (proj2 (Z.ltb_ge _ _)). Qed.
Lemma cref_nonempty I : I ≠ [] → cref I = node_ref (T I).
Proof. by destruct I. Qed.
Lemma root_nodes_nonempty I : I ≠ [] → root_nodes I = nodes I.
Proof. unfold root_nodes. destruct I; [intros H; by destruct H|intros _; cbv iota; reflexivity]. Qed.
Lemma trie_root_nonempty I : I ≠ [] → trie_root I = keccak256 (T I).
Proof. by destruct I. Qed.
Lemma under_nonempty c J : J ≠ [] → under c J ≠ [].
Proof. by destruct J as [|[]]. Qed.

Lemma content_inner m c J : content m (under c J) → J ≠ [] → content (m - length c) J ∧ (length c ≤ m)%nat ∧ Forall is_nibble c.
Proof.
  intros Hc Hne. destruct (content_drop m c (under c J) Hc) as [Hd Hl].
  - intros [p v] (q & -> & _)%elem_under. by apply prefix_app_r.
  - by apply under_nonempty.
  - rewrite drop_under in Hd. split_and!; [done|done|by eapply content_nibbles].
Qed.

(** The node of an extension, and the bytes of a slot. *)
Lemma rep_ext m c h J : content m (under c J) → c ≠ [] → fork J → h = keccak256 (T J) → 32 ≤ len (T J) → T (under c J) = ext_rlp c h.
Proof.
  intros Hc Hcn Hf -> H32. destruct (content_inner m c J Hc (fork_nonempty _ Hf)) as (Hd & Hl & Hn).
  rewrite (T_ext (m - length c)); [|done|done|done|done|pose proof (co_len _ _ Hc); lia]. by rewrite node_ref_hashed.
Qed.
Lemma slot_rep m ρ I : content m I → rep ρ I → slot keccak256 ρ = cref I.
Proof.
  intros Hc Hr. destruct ρ as [|h|c h|p v src]; cbn [rep slot] in *.
  - by subst.
  - destruct Hr as (Hne & -> & H32). by rewrite cref_nonempty, node_ref_hashed.
  - destruct Hr as (Hcn & J & -> & Hf & Eh & H32). rewrite cref_nonempty by (by apply under_nonempty, fork_nonempty). by erewrite rep_ext.
  - by subst.
Qed.
Lemma root_rep m ρ I : content m I → rep ρ I → root_of keccak256 ρ = trie_root I.
Proof.
  intros Hc Hr. destruct ρ as [|h|c h|p v src]; cbn [rep root_of] in *.
  - by subst.
  - destruct Hr as (Hne & -> & H32). by rewrite trie_root_nonempty.
  - destruct Hr as (Hcn & J & -> & Hf & Eh & H32). rewrite trie_root_nonempty by (by apply under_nonempty, fork_nonempty). by erewrite rep_ext.
  - by subst.
Qed.

(** No two keys agree on all but their last eight nibbles: then every branch is
    longer than a hash, as the code takes for granted. *)
Definition spread (m : nat) (I : list (list Z * bytes)) : Prop :=
  ∀ x y, x ∈ I → y ∈ I → take (m - 8) x.1 = take (m - 8) y.1 → x.1 = y.1.
Lemma spread_fork m I : spread m I → fork I → (9 ≤ m)%nat.
Proof.
  intros Hs (j & j' & Hne & (p & v & H)%below_elem & (p' & v' & H')%below_elem).
  destruct (decide (9 ≤ m)%nat) as [|Hm]; [done|]. specialize (Hs _ _ H H'). replace (m - 8)%nat with 0%nat in Hs by lia.
  specialize (Hs eq_refl). cbn in Hs. congruence.
Qed.
Lemma spread_below m j I : spread (S m) I → spread m (below j I).
Proof.
  intros Hs [p v] [p' v'] H%below_in H'%below_in E. cbn in *. specialize (Hs _ _ H H'). cbn [fst] in Hs.
  assert (j :: p = j :: p') as [= ->]; [|done]. apply Hs. destruct (decide (8 ≤ m)%nat) as [Hm|Hm].
  - replace (S m - 8)%nat with (S (m - 8)) by lia. cbn. by rewrite E.
  - by replace (S m - 8)%nat with 0%nat by lia.
Qed.

Lemma below_all j I : (∀ x, x ∈ I → x.1 ≠ []) → (∀ j', j' ≠ j → below j' I = []) → I = under [j] (below j I).
Proof.
  intros Hne Hall. assert (H : ∀ x, x ∈ I → [j] `prefix_of` x.1).
  { intros [[|j' p] v] Hx; [by specialize (Hne _ Hx)|]. cbn. destruct (decide (j' = j)) as [->|Hj]; [by apply prefix_cons, prefix_nil|].
    apply below_in in Hx. rewrite Hall in Hx by done. by apply not_elem_of_nil in Hx. }
  pose proof (under_drop [j] I H) as E. revert E. generalize (drop_all (length [j]) I). intros J <-. by rewrite fork_under_below.
Qed.

Section Reduce.
Context (m : nat) (rs : list nres) (I : list (list Z * bytes)).
Context (Hc : content (S m) I) (Hs : spread (S m) I) (Hl : length rs = 16%nat).
Context (Hrep : ∀ j r, rs !! j = Some r → rep r (below (Z.of_nat j) I)).
Context (Hfold : ∀ j h, rs !! j = Some (NH h) → (∀ j', j' ≠ Z.of_nat j → below j' I = []) → fork (below (Z.of_nat j) I)).

Lemma head_range j : below j I ≠ [] → 0 ≤ j < 16.
Proof. intros (p & v & Hin)%below_elem. destruct (co_pair _ _ Hc _ Hin) as (H & _). cbn in H. by apply Forall_cons in H as [? _]. Qed.
Lemma rep_NE r J : rep r J → is_NE r = false → J ≠ [].
Proof.
  destruct r as [|h|c h|p v src]; cbn [rep is_NE]; intros Hr Hne; [done|by destruct Hr| |by subst].
  destruct Hr as (_ & J' & -> & Hf & _). by apply under_nonempty, fork_nonempty.
Qed.
Lemma rep_empty r J : rep r J → is_NE r = true → J = [].
Proof. by destruct r. Qed.
Lemma path_nonempty x : x ∈ I → x.1 ≠ [].
Proof. intros Hx E. destruct (co_pair _ _ Hc x Hx) as (_ & H & _). by rewrite E in H. Qed.

Lemma live_below j : below j I ≠ [] ↔ ∃ r, (j, r) ∈ live 0 rs.
Proof.
  split.
  - intros Hne. pose proof (head_range j Hne) as Hj. destruct (lookup_lt_is_Some_2 rs (Z.to_nat j)) as [r Hr]; [lia|]. exists r.
    pose proof (Hrep _ _ Hr) as Hrr. rewrite Z2Nat.id in Hrr by lia. apply live_mem; [by rewrite Z.sub_0_r|lia|].
    destruct (is_NE r) eqn:E; [|done]. by apply rep_empty in Hrr.
  - intros (r & (Hj & Hr & Hne)%live_elem). rewrite Z.sub_0_r in Hr. pose proof (Hrep _ _ Hr) as Hrr. rewrite Z2Nat.id in Hrr by lia.
    by eapply rep_NE.
Qed.

Lemma reduce_rep : rep (reduce keccak256 rs) I.
Proof.
  unfold reduce. destruct (live 0 rs) as [|[j r] [|[j' r'] l]] eqn:El.
  - cbn [rep]. apply elem_of_nil_inv. intros [[|j p] v] Hx; [by apply path_nonempty in Hx|].
    apply elem_below, live_below in Hx as (r & Hr). rewrite El in Hr. by apply not_elem_of_nil in Hr.
  - destruct (live_elem 0 rs j r) as (Hj & Hr & Hne); [rewrite El; by left|]. rewrite Z.sub_0_r in Hr.
    pose proof (Hrep _ _ Hr) as Hrr. rewrite Z2Nat.id in Hrr by lia.
    assert (Hothers : ∀ j', j' ≠ j → below j' I = []).
    { intros j' Hj'. destruct (below j' I) eqn:E; [done|]. assert (below j' I ≠ []) as (r' & Hr')%live_below by (by rewrite E).
      rewrite El in Hr'. apply list_elem_of_singleton in Hr'. congruence. }
    pose proof (below_all j I path_nonempty Hothers) as EI.
    destruct r as [|h|c h|p v src]; cbn [fold1 rep] in *; [done| | |].
    + destruct Hrr as (_ & Eh & H32). split; [done|]. exists (below j I). split_and!; [done| |done|done].
      specialize (Hfold _ _ Hr). rewrite Z2Nat.id in Hfold by lia. by apply Hfold.
    + destruct Hrr as (Hcn & J & EJ & Hf & Eh & H32). split; [done|]. exists J. split_and!; [|done|done|done].
      rewrite EI, EJ. apply (under_app [j]).
    + rewrite EI, Hrr. done.
  - assert (Hf : fork I).
    { destruct (live_elem 0 rs j r) as (Hj & Hr & _); [rewrite El; by left|].
      destruct (live_elem 0 rs j' r') as (Hj' & Hr' & _); [rewrite El; by right; left|].
      exists j, j'. split_and!.
      - by apply (live_distinct 0 rs j r j' r' l).
      - apply live_below. exists r. rewrite El. by left.
      - apply live_below. exists r'. rewrite El. by right; left. }
    assert (Hb : branch_rlp keccak256 rs = T I).
    { rewrite (T_branch m) by done. unfold branch_rlp. do 2 f_equal. apply list_eq_same_length with (n := 16%nat).
      - by rewrite length_map, length_seqZ.
      - by rewrite length_map.
      - intros i x y Hi Hx Hy. change (map ?f ?l) with (f <$> l) in Hx, Hy. rewrite list_lookup_fmap in Hx. rewrite list_lookup_fmap, lookup_seqZ_lt in Hy by lia.
        cbn [fmap option_fmap option_map] in Hy. injection Hy as <-.
        destruct (rs !! i) as [ri|] eqn:Er; [|done]. cbn in Hx. injection Hx as <-.
        apply (slot_rep m); [by apply content_below|]. by apply Hrep. }
    cbn [rep]. rewrite Hb. split_and!; [by apply fork_nonempty|done|].
    apply (fork_big (S m)); [done|done|]. by apply spread_fork with (I := I).
Qed.
End Reduce.

End Trie.

End RootTrie.
