(* ===== verification/RootSound.v ===== *)
(** What a witness proves.  [sound d t I] says that the tree [t] shows a part of
    the trie of the set [I] and hides the rest correctly.  A tree whose
    block-start root is the root of [I] is sound for [I], if keccak256 tells the
    nodes of the tree from those of the trie of [I]; and evaluating a sound tree under new values gives the root of
    the set with those values. *)

From stdpp Require Import base numbers list strings gmap.
From S2P Require Import Prelude Rlp Writer TriePath Mpt Accounts StateRoot RootSpec RootEncode RootShape RootBuild RootEval RootTrie.

Set Default Goal Selector "!".

Module RootSound.
Import Rlp Writer TriePath Mpt RootSpec RootEncode RootBuild RootEval RootTrie.

(** No extension with an empty path: the code folds one as if it were its child,
    and encodes it as a node of its own when its branch gets a second child. *)
Section Solid.
Context {L : Type} (lsolid : L → bool).
Fixpoint solid (t : tree L) : bool :=
  match t with
  | TExt ns _ => negb (length ns =? 0)%nat
  | TKey l => lsolid l
  | TBranch kids => forallb solid kids
  | _ => true
  end.
End Solid.
Fixpoint lf_solid (l : lf) : bool :=
  match l with LAccount _ _ _ _ _ st => solid lf_solid st | LStorage _ _ _ _ => true end.
Definition w_solid : tree lf → bool := solid lf_solid.
Lemma kid_solid (kids : list (tree lf)) t : w_solid (TBranch kids) = true → t ∈ kids → w_solid t = true.
Proof. unfold w_solid. cbn [solid]. intros Hs Ht. apply list_elem_of_In in Ht. by apply (proj1 (forallb_forall _ _) Hs). Qed.

Section Sound.
Context (keccak256 : bytes → Z) (keccak_range : ∀ b, in_u256 (keccak256 b)).
Abbreviation collision_free := (collision_free keccak256).
Abbreviation nodes := (nodes keccak256).
Abbreviation T := (T keccak256).
Abbreviation cref := (cref keccak256).
Abbreviation rep := (rep keccak256).
Abbreviation lkey := (lkey keccak256).
Abbreviation lvo := (lvo keccak256).
Abbreviation slot := (slot keccak256).

Inductive sound : nat → tree lf → list (list Z * bytes) → Prop :=
| so_empty d : sound d TEmpty []
| so_hash d h I : I ≠ [] → h = keccak256 (T I) → 32 ≤ len (T I) → sound d (THash h) I
| so_ext d c h I : rep (NX c h) I → sound d (TExt c h) I
| so_phantom d p v : sound d (TPhantom p v) [(p, v)]
| so_key d l I : I = match lvo l with None => [] | Some v => [(drop d (lkey l), v)] end → sound d (TKey l) I
| so_branch d kids I :
    (∀ j t, kids !! j = Some t → sound (S d) t (below (Z.of_nat j) I)) →
    (* a child known by its hash that is alone here is the hash of a branch *)
    (∀ j h, kids !! j = Some (THash h) → (∀ j', j' ≠ Z.of_nat j → below j' I = []) → fork (below (Z.of_nat j) I)) →
    sound d (TBranch kids) I.

(** ** Leaves *)

Lemma leaf_in_branch (kids : list (tree lf)) l : l ∈ leaves (TBranch kids) ↔ ∃ j t, kids !! j = Some t ∧ l ∈ leaves t.
Proof.
  change (leaves (TBranch kids)) with (concat (map leaves kids)). rewrite list_elem_of_In, in_concat. split.
  - intros (x & Hx%in_map_iff & Hl). destruct Hx as (t & <- & Ht). apply list_elem_of_In, list_elem_of_lookup in Ht as [j Hj].
    exists j, t. split; [done|by apply list_elem_of_In].
  - intros (j & t & Hj & Hl). exists (leaves t). split; [|by apply list_elem_of_In]. apply in_map. by eapply list_elem_of_In, list_elem_of_lookup_2.
Qed.
Lemma leaf_prefix k w t l : wf keccak256 k w t → l ∈ leaves t → w `prefix_of` lkey l.
Proof.
  intros Hw. induction Hw as [| | | |w i addr n b c st ? ? ? ? Hp Hst IH ?|w i ow p v ? ? Hp|k w kids Hl Hlw Hk IH]; intros Hin;
    try (by apply not_elem_of_nil in Hin).
  - by apply list_elem_of_singleton in Hin as ->.
  - by apply list_elem_of_singleton in Hin as ->.
  - apply leaf_in_branch in Hin as (j & t & Hj & Hin). specialize (IH j t Hj Hin). etrans; [|exact IH]. by apply prefix_app_r.
Qed.
Lemma drop_key (w : list Z) j (key : list Z) : w ++ [j] `prefix_of` key → drop (length w) key = j :: drop (S (length w)) key.
Proof.
  intros [r ->]. rewrite <- app_assoc, drop_app_length. cbn [app]. f_equal.
  rewrite drop_app_ge by lia. by replace (S (length w) - length w)%nat with 1%nat by lia.
Qed.

Lemma key_content {A B} (k : A) (o : option B) u :
  (k, u) ∈ match o with None => [] | Some v => [(k, v)] end ↔ o = Some u.
Proof. destruct o as [v|]; [rewrite list_elem_of_singleton|rewrite elem_of_nil]; naive_solver. Qed.

(** What a sound tree says of a leaf it shows. *)
Lemma sound_leaf k w t I l :
  wf keccak256 k w t → sound (length w) t I → l ∈ leaves t →
  ∀ v, (drop (length w) (lkey l), v) ∈ I ↔ lvo l = Some v.
Proof.
  intros Hw. revert I. induction Hw as [| | | |w i addr n b c st ? ? ? ? Hp Hst IH ?|w i ow p v0 ? ? Hp|k w kids Hl Hlw Hk IH]; intros I Hs Hin u;
    try (by apply not_elem_of_nil in Hin).
  - apply list_elem_of_singleton in Hin as ->. inversion Hs; subst. apply key_content.
  - apply list_elem_of_singleton in Hin as ->. inversion Hs; subst. apply key_content.
  - apply leaf_in_branch in Hin as (j & t & Hj & Hin). inversion Hs as [| | | | |? ? ? Hkids _]; subst.
    specialize (Hkids j t Hj). rewrite <- Nat.add_1_r in Hkids. change 1%nat with (length [Z.of_nat j]) in Hkids. rewrite <- length_app in Hkids.
    rewrite <- (IH j t Hj _ Hkids Hin u). pose proof (leaf_prefix _ _ _ _ (Hk j t Hj) Hin) as Hpre.
    rewrite below_in, (drop_key w (Z.of_nat j)) by done. by rewrite length_app, Nat.add_1_r.
Qed.
(** ** Sets with the same members *)

Lemma same_perm m I I' : content m I → content m I' → (∀ x, x ∈ I' ↔ x ∈ I) → I ≡ₚ I'.
Proof.
  intros [Hn _ _] [Hn' _ _] H. apply NoDup_Permutation; [by eapply NoDup_fmap_1|by eapply NoDup_fmap_1|]. intros x. by rewrite H.
Qed.
Lemma same_single m I y : content m I → (∀ x, x ∈ I ↔ x = y) → I = [y].
Proof.
  intros Hc H. apply Permutation_singleton_r. apply NoDup_Permutation; [eapply NoDup_fmap_1, Hc|apply NoDup_singleton|].
  intros x. by rewrite H, list_elem_of_singleton.
Qed.
Lemma rep_perm m ρ I I' : content m I → rep ρ I → I ≡ₚ I' → rep ρ I'.
Proof.
  intros Hc Hr Hp. destruct ρ as [|h|c h|p v src]; cbn [RootTrie.rep] in *.
  - subst. by apply Permutation_nil_l in Hp.
  - destruct Hr as (Hne & -> & H32). rewrite <- (T_perm keccak256 m I I') by done. split_and!; [|done|done].
    intros ->. by apply Permutation_nil_r in Hp.
  - destruct Hr as (Hcn & J & -> & Hf & -> & H32). split; [done|].
    assert (Hpre : ∀ x, x ∈ I' → c `prefix_of` x.1).
    { intros [p v]. rewrite <- Hp. intros (q & -> & _)%elem_under. by apply prefix_app_r. }
    assert (HpJ : J ≡ₚ drop_all (length c) I') by (rewrite <- (drop_under c J); by apply Permutation_map).
    destruct (content_inner m c J Hc (fork_nonempty _ Hf)) as (HcJ & _). exists (drop_all (length c) I').
    rewrite <- (T_perm keccak256 _ J _ HcJ HpJ). split_and!; [symmetry; by apply under_drop| |done|done].
    destruct Hf as (j & j' & Hne & Hj & Hj'). exists j, j'. split_and!; [done|..]; intros E.
    + pose proof (below_perm j _ _ HpJ) as Hb. rewrite E in Hb. by apply Permutation_nil_r in Hb.
    + pose proof (below_perm j' _ _ HpJ) as Hb. rewrite E in Hb. by apply Permutation_nil_r in Hb.
  - subst. by apply Permutation_singleton_l in Hp.
Qed.

(** ** New values *)

Section New.
Context (V : valuation).
Abbreviation lvn := (lvn keccak256 V).

(** [I'] has the new values of the leaves of [t], and is [I] elsewhere. *)
Definition upd (d : nat) (t : tree lf) (I I' : list (list Z * bytes)) : Prop :=
  ∀ p v, (p, v) ∈ I' ↔
    (∃ l, l ∈ leaves t ∧ p = drop d (lkey l) ∧ lvn l = Ok (Some v)) ∨
    ((p, v) ∈ I ∧ ∀ l, l ∈ leaves t → p ≠ drop d (lkey l)).

Lemma upd_none d t I I' : leaves t = [] → upd d t I I' → ∀ x, x ∈ I' ↔ x ∈ I.
Proof.
  intros E H [p v]. rewrite (H p v), E. split.
  - intros [(l & Hl & _)|[? _]]; [by apply not_elem_of_nil in Hl|done].
  - intros Hx. right. split; [done|]. intros l Hl. by apply not_elem_of_nil in Hl.
Qed.

Lemma upd_below k w kids I I' j t :
  wf keccak256 k w (TBranch kids) → upd (length w) (TBranch kids) I I' → kids !! j = Some t →
  upd (S (length w)) t (below (Z.of_nat j) I) (below (Z.of_nat j) I').
Proof.
  intros Hw H Hj p v. inversion Hw as [| | | | | |? ? ? Hl Hlw Hk]; subst. rewrite !below_in, (H (Z.of_nat j :: p) v).
  assert (Hd : ∀ i t' l, kids !! i = Some t' → l ∈ leaves t' → drop (length w) (lkey l) = Z.of_nat i :: drop (S (length w)) (lkey l)).
  { intros i t' l Hi Hin. apply drop_key. eapply leaf_prefix; [by apply Hk|done]. }
  split.
  - intros [(l & (i & t' & Hi & Hin)%leaf_in_branch & Ep & Ev)|[Hin Hno]].
    + rewrite (Hd i t' l Hi Hin) in Ep. injection Ep as Eij ->. apply Nat2Z.inj in Eij as <-. rewrite Hj in Hi. injection Hi as <-. left. eauto.
    + right. split; [done|]. intros l Hl' ->. apply (Hno l); [apply leaf_in_branch; eauto|]. by rewrite (Hd j t l Hj Hl').
  - intros [(l & Hin & -> & Ev)|[Hin Hno]].
    + left. exists l. split_and!; [apply leaf_in_branch; eauto|by rewrite (Hd j t l Hj Hin)|done].
    + right. split; [done|]. intros l (i & t' & Hi & Hl')%leaf_in_branch Ep. rewrite (Hd i t' l Hi Hl') in Ep. injection Ep as Eij ->.
      apply Nat2Z.inj in Eij as <-. rewrite Hj in Hi. injection Hi as <-. by apply (Hno l).
Qed.

Lemma leaf_unchanged k w t l : wf keccak256 k w t → w_changed V t = false → l ∈ leaves t → lvn l = Ok (lvo l).
Proof.
  intros Hw. induction Hw as [| | | |w i addr n b c st ? ? ? ? Hp Hst IH ?|w i ow p v ? ? Hp|k w kids Hl Hlw Hk IH]; intros Hu Hin;
    try (by apply not_elem_of_nil in Hin).
  - apply list_elem_of_singleton in Hin as ->. unfold w_changed in Hu. cbn [changed lch] in Hu. apply orb_false_iff in Hu as [Hf Hu].
    pose proof (unchanged_new keccak256 V _ _ st Hst Hu 0) as E. unfold w_new, w_old in E. cbn [RootSpec.lvn RootSpec.lvo]. rewrite E. cbn [mbind res_bind].
    destruct (cur_account V i) as [[n' b'] c']. apply negb_false_iff in Hf. rewrite !andb_true_iff, !Z.eqb_eq in Hf. by destruct Hf as [[-> ->] ->].
  - apply list_elem_of_singleton in Hin as ->. unfold w_changed in Hu. cbn [changed lch] in Hu. apply negb_false_iff, Z.eqb_eq in Hu. by subst v.
  - apply leaf_in_branch in Hin as (j & t & Hj & Hin). apply (IH j t Hj); [|done]. eapply kids_unchanged; [exact Hu|by eapply list_elem_of_lookup_2].
Qed.

Lemma unchanged_upd k w t I I' :
  wf keccak256 k w t → sound (length w) t I → w_changed V t = false → upd (length w) t I I' → ∀ x, x ∈ I' ↔ x ∈ I.
Proof.
  intros Hw Hs Hu H [p v]. rewrite (H p v). split.
  - intros [(l & Hl & -> & Ev)|[? _]]; [|done]. rewrite (leaf_unchanged k w t l Hw Hu Hl) in Ev. apply Ok_inj in Ev.
    by apply (sound_leaf k w t I l Hw Hs Hl).
  - intros Hin. destruct (decide (Exists (λ l, p = drop (length w) (lkey l)) (leaves t))) as [Hex|Hno].
    + apply Exists_exists in Hex as (l & Hl & ->). left. exists l. split_and!; [done|done|].
      rewrite (leaf_unchanged k w t l Hw Hu Hl). f_equal. by apply (sound_leaf k w t I l Hw Hs Hl).
    + right. split; [done|]. intros l Hl ->. apply Hno, Exists_exists. by exists l.
Qed.

Lemma live_one k rs j r :
  rs !! j = Some r → is_NE r = false → (∀ i r', i ≠ j → rs !! i = Some r' → is_NE r' = true) → live k rs = [(k + Z.of_nat j, r)].
Proof.
  revert k j. induction rs as [|r0 rs IH]; intros k j Hj Hne Hrest; [done|]. cbn [live]. destruct j as [|j]; cbn in Hj.
  - injection Hj as ->. rewrite Hne, Z.add_0_r. f_equal. assert (Hl : ∀ i r', rs !! i = Some r' → is_NE r' = true) by (intros i r'; by apply (Hrest (S i))).
    clear -Hl. generalize (k + 1). induction rs as [|r1 rs IH]; intros k'; [done|]. cbn [live]. rewrite (Hl 0%nat r1) by done.
    apply IH. intros i. apply (Hl (S i)).
  - rewrite (Hrest 0%nat r0) by (done || lia). rewrite (IH (k + 1) j Hj Hne).
    + do 2 f_equal. lia.
    + intros i r' Hi. apply (Hrest (S i)). lia.
Qed.
Lemma filter_two {A} (f : A → bool) (l : list A) i j x y :
  i ≠ j → l !! i = Some x → l !! j = Some y → f x = true → f y = true → (2 ≤ length (List.filter f l))%nat.
Proof.
  intros Hne Hi Hj Hx Hy. assert (Hone : ∀ (l : list A) i x, l !! i = Some x → f x = true → (1 ≤ length (List.filter f l))%nat).
  { clear. induction l as [|a l IH]; intros i x Hi Hx; [done|]. cbn. destruct i as [|i]; cbn in Hi; [injection Hi as ->; rewrite Hx; cbn; lia|].
    specialize (IH i x Hi Hx). destruct (f a); cbn; lia. }
  revert i j Hne Hi Hj. induction l as [|a l IH]; intros i j Hne Hi Hj; [done|]. cbn. destruct i as [|i], j as [|j]; cbn in Hi, Hj; [done| | |].
  - injection Hi as ->. rewrite Hx. cbn. specialize (Hone l j y Hj Hy). lia.
  - injection Hj as ->. rewrite Hy. cbn. specialize (Hone l i x Hi Hx). lia.
  - specialize (IH i j ltac:(lia) Hi Hj). destruct (f a); cbn; lia.
Qed.
(** The collapse check: what is alone after the update was alone before. *)
Lemma lone_hash k w kids I I' rs j h m :
  wf keccak256 k w (TBranch kids) → sound (length w) (TBranch kids) I → upd (length w) (TBranch kids) I I' → content (S m) I →
  map_res (w_new keccak256 V (S (length w))) kids = Ok rs → existsb (w_changed V) kids && orphan kids rs = false →
  (∀ i r, rs !! i = Some r → rep r (below (Z.of_nat i) I')) → kids !! j = Some (THash h) →
  (∀ j', j' ≠ Z.of_nat j → below j' I' = []) → ∀ j', j' ≠ Z.of_nat j → below j' I = [].
Proof.
  intros Hw Hs Hup Hc Hrs Hno Hrep Hj Halone j' Hj'. pose proof Hw as Hw'. inversion Hw' as [| | | | | |? ? ? Hl Hlw Hk]; subst.
  inversion Hs as [| | | | |? ? ? Hkids _]; subst. destruct (decide (below j' I = [])) as [|Hne]; [done|].
  pose proof (head_range m I Hc j' Hne) as Hr. destruct (lookup_lt_is_Some_2 kids (Z.to_nat j')) as [t Ht]; [lia|].
  specialize (Hkids _ _ Ht). rewrite Z2Nat.id in Hkids by lia. apply andb_false_iff in Hno as [Hu|Ho].
  - assert (Hsame : ∀ x, x ∈ below j' I' ↔ x ∈ below j' I).
    { pose proof (upd_below k w kids I I' _ t Hw Hup Ht) as Hb. rewrite Z2Nat.id in Hb by lia.
      assert (Hlw' : S (length w) = length (w ++ [j'])) by (rewrite length_app; cbn; lia). rewrite Hlw' in Hb, Hkids.
      eapply unchanged_upd; [|exact Hkids| |exact Hb].
      - specialize (Hk _ _ Ht). rewrite Z2Nat.id in Hk by lia. exact Hk.
      - eapply (kids_unchanged V kids); [exact Hu|by eapply list_elem_of_lookup_2]. }
    apply elem_of_nil_inv. intros x Hx. apply Hsame in Hx. rewrite (Halone j' Hj') in Hx. by apply not_elem_of_nil in Hx.
  - assert (Hjr : rs !! j = Some (NH h)).
    { apply map_res_Ok in Hrs. destruct (Forall2_lookup_l _ _ _ _ _ Hrs Hj) as (r & Hr' & Er). by apply Ok_inj in Er as <-. }
    assert (Hlive : live 0 rs = [(Z.of_nat j, NH h)]).
    { apply (live_one 0); [done|done|]. intros i r Hi Hir. pose proof (Hrep i r Hir) as Hri. rewrite (Halone (Z.of_nat i)) in Hri by lia.
      destruct (is_NE r) eqn:E; [done|]. by apply rep_NE in Hri. }
    unfold orphan in Ho. rewrite Hlive, Nat2Z.id, Hj in Ho. cbn [fmap option_fmap option_map default is_THash] in Ho.
    apply Nat.leb_gt in Ho. destruct (is_TEmpty t) eqn:Et; [destruct t; try done; by inversion Hkids|].
    assert (H2 : (2 ≤ length (List.filter (λ t, negb (is_TEmpty t)) kids))%nat); [|lia].
    apply (filter_two _ kids j (Z.to_nat j') (THash h) t); [lia|done|done|done|by rewrite Et].
Qed.

Lemma reduce_fork rs h m I :
  content (S m) I → length rs = 16%nat → (∀ j r, rs !! j = Some r → rep r (below (Z.of_nat j) I)) → reduce keccak256 rs = NH h → fork I.
Proof.
  intros Hc Hl Hrep E. unfold reduce in E. destruct (live 0 rs) as [|[j r] [|[j' r'] l]] eqn:El; [done|by destruct r|].
  exists j, j'. split_and!.
  - by apply (live_distinct 0 rs j r j' r' l).
  - apply (live_below keccak256 m rs I Hc Hl Hrep). exists r. rewrite El. by left.
  - apply (live_below keccak256 m rs I Hc Hl Hrep). exists r'. rewrite El. by right; left.
Qed.

Lemma key_upd m d l I I' v :
  content m I' → I = match lvo l with None => [] | Some v => [(drop d (lkey l), v)] end →
  upd d (TKey l) I I' → lvn l = Ok v → I' = match v with None => [] | Some v => [(drop d (lkey l), v)] end.
Proof.
  intros Hc EI H Ev.
  assert (Hm : ∀ p u, (p, u) ∈ I' ↔ p = drop d (lkey l) ∧ v = Some u).
  { intros p u. rewrite (H p u). split.
    - intros [(l' & Hl & -> & E')|[Hin Hno]].
      + change (leaves (TKey l)) with [l] in Hl. apply list_elem_of_singleton in Hl as ->. split; [done|]. rewrite Ev in E'. by apply Ok_inj in E'.
      + exfalso. subst I. destruct (lvo l); [|by apply not_elem_of_nil in Hin]. apply list_elem_of_singleton in Hin. injection Hin as -> _.
        apply (Hno l); [|done]. by apply list_elem_of_singleton.
    - intros [-> ->]. left. exists l. split_and!; [by apply list_elem_of_singleton|done|done]. }
  destruct v as [v|].
  - apply (same_single m); [done|]. intros [p u]. rewrite Hm. split; [by intros [-> [= ->]]|by intros [= -> ->]].
  - apply elem_of_nil_inv. intros [p u] [_ ?]%Hm. done.
Qed.

(** Evaluating a sound tree gives the node of the updated set. *)
Lemma new_rep k w t ρ :
  wf keccak256 k w t → (length w ≤ 64)%nat → w_new keccak256 V (length w) t = Ok ρ →
  ∀ I I', sound (length w) t I → content (64 - length w) I → content (64 - length w) I' → spread (64 - length w) I' →
  upd (length w) t I I' → rep ρ I' ∧ (∀ h, ρ = NH h → is_THash t = true ∨ fork I').
Proof.
  intros Hw. revert ρ. induction Hw as [k w|k w h ?|k w c h ? ? ?|k w p v ? ? ?|w i addr n b c st ? ? ? ? Hp Hst IH ?|w i ow p v ? ? Hp|k w kids Hl Hlw Hk IH];
    intros ρ Hlen HE I I' Hs Hc Hc' Hsp Hup.
  - inversion Hs; subst. apply Ok_inj in HE as <-. split; [|done]. apply elem_of_nil_inv. intros x Hx.
    apply (upd_none _ TEmpty _ _ eq_refl Hup) in Hx. by apply not_elem_of_nil in Hx.
  - inversion Hs; subst. apply Ok_inj in HE as <-. split; [|by left]. eapply rep_perm; [exact Hc|by split_and!|].
    eapply same_perm; [done|done|]. eapply upd_none; [|exact Hup]. done.
  - inversion Hs; subst. apply Ok_inj in HE as <-. split; [|done]. eapply rep_perm; [exact Hc|done|].
    eapply same_perm; [done|done|]. eapply upd_none; [|exact Hup]. done.
  - inversion Hs; subst. apply Ok_inj in HE as <-. split; [|done]. eapply rep_perm; [exact Hc|done|].
    eapply same_perm; [done|done|]. eapply upd_none; [|exact Hup]. done.
  - inversion Hs; subst. unfold w_new in HE. cbn [new] in HE. apply bind_Ok in HE as (v & Ev & HE). apply Ok_inj in HE as <-.
    rewrite (key_upd _ _ _ _ _ _ Hc' eq_refl Hup Ev). by destruct v.
  - inversion Hs; subst. unfold w_new in HE. cbn [new] in HE. apply bind_Ok in HE as (u & Ev & HE). apply Ok_inj in HE as <-.
    rewrite (key_upd _ _ _ _ _ _ Hc' eq_refl Hup Ev). by destruct u.
  - assert (Hm : (64 - length w = S (63 - length w))%nat) by lia. rewrite Hm in Hc, Hc', Hsp. rewrite new_branch in HE.
    apply bind_Ok in HE as (rs & Hrs & HE). apply bind_Ok in HE as (? & Hno%fatal_if_Ok & HE). apply Ok_inj in HE as <-.
    assert (Hwb : wf keccak256 k w (TBranch kids)) by (by constructor). pose proof Hs as Hs'. inversion Hs' as [| | | | |? ? ? Hkids Hlone]; subst.
    pose proof (map_res_Ok _ _ _ Hrs) as HF. pose proof (Forall2_length _ _ _ HF) as Hlr.
    assert (Hall : ∀ j r, rs !! j = Some r → ∃ t, kids !! j = Some t ∧ rep r (below (Z.of_nat j) I') ∧
      (∀ h, r = NH h → is_THash t = true ∨ fork (below (Z.of_nat j) I'))).
    { intros j r Hj. destruct (Forall2_lookup_r _ _ _ _ _ HF Hj) as (t & Ht & Er). exists t. split; [done|].
      assert (Hlw' : length (w ++ [Z.of_nat j]) = S (length w)) by (rewrite length_app; cbn; lia).
      assert (Hm' : (64 - S (length w) = 63 - length w)%nat) by lia.
      specialize (IH j t Ht r). rewrite Hlw', Hm' in IH. apply (IH ltac:(lia) Er (below (Z.of_nat j) I)).
      - by apply Hkids.
      - by apply content_below.
      - by apply content_below.
      - by apply spread_below.
      - by eapply upd_below. }
    assert (Hrep : ∀ j r, rs !! j = Some r → rep r (below (Z.of_nat j) I')) by (intros j r Hj; by destruct (Hall j r Hj) as (? & _ & ? & _)).
    split.
    + apply (reduce_rep keccak256 (63 - length w) rs I' Hc' Hsp); [congruence|done|]. intros j h Hj Halone.
      destruct (Hall j _ Hj) as (t & Ht & _ & Hnh). destruct (Hnh h eq_refl) as [Hth|]; [|done].
      destruct t as [|h'| | | |]; try done. assert (h' = h) as ->.
      { destruct (Forall2_lookup_l _ _ _ _ _ HF Ht) as (r & Hr & Er). rewrite Hj in Hr. injection Hr as <-. by apply Ok_inj in Er as [= <-]. }
      assert (Hf : fork (below (Z.of_nat j) I)).
      { eapply Hlone; [exact Ht|]. eapply lone_hash; [exact Hwb|exact Hs|exact Hup|exact Hc|exact Hrs|exact Hno|done|exact Ht|done]. }
      assert (Hp : below (Z.of_nat j) I ≡ₚ below (Z.of_nat j) I').
      { eapply same_perm; [by apply content_below|by apply content_below|]. apply (upd_none (S (length w)) (THash h)); [done|]. by eapply upd_below. }
      destruct Hf as (i & i' & Hne & Hi & Hi'). exists i, i'. split_and!; [done|..]; intros E.
      * pose proof (below_perm i _ _ Hp) as Hb. rewrite E in Hb. by apply Permutation_nil_r in Hb.
      * pose proof (below_perm i' _ _ Hp) as Hb. rewrite E in Hb. by apply Permutation_nil_r in Hb.
    + intros h E. right. eapply reduce_fork; [exact Hc'| |exact Hrep|exact E]. congruence.
Qed.

End New.

(** ** Reading a set off its root *)

(** The bounds of a reduced node [b] nibbles down. *)
Definition node_ok (b : nat) (ρ : nres) : Prop :=
  match ρ with
  | NE => True
  | NH h => in_u256 h
  | NX c h => Forall is_nibble c ∧ (length c + b ≤ 128)%nat ∧ in_u256 h ∧ c ≠ []
  | NL p v _ => Forall is_nibble p ∧ (length p + b ≤ 128)%nat ∧ len v ≤ 128
  end.

Lemma len_hp_128 ns l : (length ns ≤ 128)%nat → len (hp_spec ns l) ≤ 65.
Proof.
  intros H. unfold len. rewrite hp_length. pose proof (Nat.Div0.div_le_mono (length ns) 128 2 H) as Hd. change (128 / 2)%nat with 64%nat in Hd. lia.
Qed.
Lemma two_items a b : len a ≤ 200 → len b ≤ 200 → Forall is_item [encode a; encode b] ∧ len (concat [encode a; encode b]) < 2 ^ 32.
Proof.
  intros Ha Hb. split; [repeat constructor; apply string_item; lia|]. cbn [concat]. rewrite app_nil_r, len_app.
  pose proof (len_encode_le a ltac:(lia)). pose proof (len_encode_le b ltac:(lia)). lia.
Qed.
Lemma leaf_ok p v : (length p ≤ 128)%nat → len v ≤ 128 →
  Forall is_item [encode (hp_spec p true); encode v] ∧ len (concat [encode (hp_spec p true); encode v]) < 2 ^ 32 ∧ is_list_node (leaf_rlp p v).
Proof.
  intros Hp Hv. pose proof (len_hp_128 p true Hp). destruct (two_items (hp_spec p true) v) as [H1 H2]; [lia|lia|].
  split_and!; [done|done|by apply encode_list_node].
Qed.
Lemma ext_ok c h : (length c ≤ 128)%nat →
  Forall is_item [encode (hp_spec c false); encode (be_bytes 32 h)] ∧ len (concat [encode (hp_spec c false); encode (be_bytes 32 h)]) < 2 ^ 32 ∧
  is_list_node (ext_rlp c h).
Proof.
  intros Hp. pose proof (len_hp_128 c false Hp). destruct (two_items (hp_spec c false) (be_bytes 32 h)) as [H1 H2]; [lia|rewrite len_be_bytes; lia|].
  split_and!; [done|done|by apply encode_list_node].
Qed.
Lemma cref_item m J : content m J → is_item (cref J) ∧ len (cref J) ≤ 33.
Proof.
  intros Hc. unfold RootTrie.cref, child_ref. destruct J as [|x J0] eqn:E; [split; [by exists String, []|done]|]. rewrite <- E in *.
  apply node_ref_item, (T_node keccak256 m); [done|by rewrite E].
Qed.
Lemma slot_item b ρ : node_ok b ρ → is_item (slot ρ) ∧ len (slot ρ) ≤ 33.
Proof.
  destruct ρ as [|h|c h|p v src]; cbn [node_ok RootSpec.slot].
  - intros _. split; [by exists String, []|done].
  - intros _. split; [apply string_item; rewrite len_be_bytes; lia|by rewrite len_hash32].
  - intros (_ & Hl & _). apply node_ref_item. apply ext_ok. lia.
  - intros (_ & Hl & Hv). apply node_ref_item. apply leaf_ok; [lia|done].
Qed.

Lemma list_eq_2 {A} (a b c d : A) : [a; b] = [c; d] → a = c ∧ b = d.
Proof. by intros [= -> ->]. Qed.

(** A reference that matches says what it refers to. *)
Lemma match_empty m I : content m I → cref I = [Byte.x80] → I = [].
Proof.
  intros Hc E. destruct I as [|x I0] eqn:EI; [done|]. rewrite <- EI in *. exfalso.
  rewrite cref_nonempty in E by (by rewrite EI). eapply node_ref_not_empty; [|exact E]. apply (T_node keccak256 m); [done|by rewrite EI].
Qed.
Lemma hash_ref b h : is_list_node b → in_u256 h → encode (be_bytes 32 h) = node_ref keccak256 b → h = keccak256 b ∧ 32 ≤ len b.
Proof.
  intros (p & Ep & Hp) Hh E. rewrite encode_hash32 in E. unfold node_ref in E. destruct (Z.ltb_spec (len b) 32) as [Hlt|Hge].
  - exfalso. destruct (list_head p Hp) as (x & t & Eb & Hb). rewrite Ep, Eb in E.
    apply (f_equal (hd Byte.x00)) in E. cbn [hd] in E. subst x. vm_compute in Hb. by apply Hb.
  - unfold keccak256_bytes32 in E. rewrite encode_hash32 in E. apply (f_equal tl) in E. cbn [tl] in E. split; [|done].
    pose proof (keccak_range b) as Hr. apply (f_equal be_val) in E. by rewrite !be_val_be_bytes_small in E by (unfold in_u256 in *; lia).
Qed.
Lemma hash_not_empty h : encode (be_bytes 32 h) ≠ [Byte.x80].
Proof. rewrite encode_hash32. intros E. by apply (f_equal (hd Byte.x00)) in E. Qed.
Lemma match_hash m I h : content m I → in_u256 h → encode (be_bytes 32 h) = cref I → I ≠ [] ∧ h = keccak256 (T I) ∧ 32 ≤ len (T I).
Proof.
  intros Hc Hh E. destruct (decide (I = [])) as [->|Hne]; [by apply hash_not_empty in E|]. split; [done|].
  rewrite cref_nonempty in E by done. apply hash_ref; [|done|done]. by apply (T_node keccak256 m).
Qed.
Lemma match_node m I b : content m I → is_list_node b → (I ≠ [] → keccak256 b = keccak256 (T I) → b = T I) →
  node_ref keccak256 b = cref I → I ≠ [] ∧ b = T I.
Proof.
  intros Hc Hb Hinj E. destruct (decide (I = [])) as [->|Hne]; [by apply node_ref_not_empty in E|]. rewrite cref_nonempty in E by done. split; [done|].
  apply (node_ref_inj keccak256 keccak_range) in E; [done|done|by apply (T_node keccak256 m)|by apply Hinj].
Qed.

Lemma T_items m I : content m I → I ≠ [] → ∃ items, T I = encode_list items ∧ Forall is_item items ∧ len (concat items) < 2 ^ 32 ∧
  ((∃ p v, I = [(p, v)] ∧ items = [encode (hp_spec p true); encode v]) ∨
   (fork I ∧ (0 < m)%nat ∧ items = map (λ j, cref (below j I)) (seqZ 0 16) ++ [[Byte.x80]]) ∨
   (∃ c J, c ≠ [] ∧ I = under c J ∧ fork J ∧ content (m - length c) J ∧ Forall is_nibble c ∧ (length c ≤ 64)%nat ∧
      items = [encode (hp_spec c false); node_ref keccak256 (T J)])).
Proof.
  intros Hc Hne. destruct (shapes m I Hc Hne) as [(p & v & ->)|[[Hf Hm]|(c & J & Hcn & -> & Hf & Hl & HcJ)]].
  - exists [encode (hp_spec p true); encode v]. destruct (co_pair _ _ Hc (p, v) ltac:(by left)) as (_ & Hp & _ & Hv). cbn in Hp, Hv.
    pose proof (co_len _ _ Hc). pose proof (len_hp p true ltac:(lia)). pose proof (len_encode_le (hp_spec p true) ltac:(lia)). pose proof (len_encode_le v ltac:(lia)).
    split_and!; [done|repeat constructor; apply string_item; lia| |by left; eauto]. cbn [concat]. rewrite app_nil_r, len_app. lia.
  - destruct m as [|m]; [lia|]. eexists. split; [by apply (T_branch keccak256 m)|].
    assert (Hi : ∀ j, is_item (cref (below j I)) ∧ len (cref (below j I)) ≤ 33) by (intros j; by apply (cref_item m), content_below).
    split_and!; [| |right; left; split_and!; [done|lia|done]].
    + apply Forall_app. split; [|repeat constructor; by exists String, []]. apply Forall_fmap, Forall_forall. intros j _. apply Hi.
    + rewrite concat_app, len_app. change (len (concat [[Byte.x80]])) with 1.
      assert (H : Forall (λ x, len x ≤ 33) (map (λ j, cref (below j I)) (seqZ 0 16))) by (apply Forall_fmap, Forall_forall; intros j _; apply Hi).
      apply len_concat_const in H. rewrite length_map, length_seqZ in H. lia.
  - pose proof (content_nibbles m c J Hc (fork_nonempty _ Hf)) as Hn. pose proof (co_len _ _ Hc).
    eexists. split; [apply (T_ext keccak256 (m - length c)); [done|done|done|done|lia]|].
    destruct (node_ref_item keccak256 (T J)) as [Hi Hil]; [apply (T_node keccak256 _ J HcJ), (fork_nonempty _ Hf)|].
    pose proof (len_hp c false ltac:(lia)). pose proof (len_encode_le (hp_spec c false) ltac:(lia)).
    split_and!; [repeat constructor; [apply string_item; lia|done]| |right; right; exists c, J; split_and!; try done; lia].
    cbn [concat]. rewrite app_nil_r, len_app. lia.
Qed.

Lemma match_leaf m I p v :
  content m I → Forall is_nibble p → (length p ≤ 128)%nat → len v ≤ 128 →
  (I ≠ [] → keccak256 (leaf_rlp p v) = keccak256 (T I) → leaf_rlp p v = T I) → node_ref keccak256 (leaf_rlp p v) = cref I → I = [(p, v)].
Proof.
  intros Hc Hp Hl Hv Hinj E. destruct (leaf_ok p v Hl Hv) as (Hi & Hlen & Hn).
  destruct (match_node m I _ Hc Hn Hinj E) as [Hne Et].
  destruct (T_items m I Hc Hne) as (items & Ei & Hii & Hil & Hsh). unfold leaf_rlp in Et. rewrite Ei in Et.
  apply list_inj in Et; [|done..]. pose proof (len_hp_128 p true Hl).
  destruct Hsh as [(p' & v' & -> & ->)|[(_ & _ & ->)|(c & J & _ & _ & _ & _ & Hcn & Hcl & ->)]].
  - destruct (co_pair _ _ Hc (p', v') ltac:(by left)) as (Hp' & Hl' & _ & Hv'). cbn in Hp', Hl', Hv'. pose proof (co_len _ _ Hc).
    pose proof (len_hp p' true ltac:(lia)). apply list_eq_2 in Et as [E1 E2].
    apply string_inj in E1; [|lia..]. apply string_inj in E2; [|lia..]. apply hp_spec_inj in E1 as [-> _]; [|done..]. by subst.
  - by apply (f_equal length) in Et; rewrite length_app, length_map, length_seqZ in Et.
  - apply list_eq_2 in Et as [E1 _]. pose proof (len_hp c false Hcl). apply string_inj in E1; [|lia..]. by apply hp_spec_inj in E1 as [_ ?].
Qed.

Lemma match_ext m I c h :
  content m I → Forall is_nibble c → (length c ≤ 128)%nat → in_u256 h →
  (I ≠ [] → keccak256 (ext_rlp c h) = keccak256 (T I) → ext_rlp c h = T I) → node_ref keccak256 (ext_rlp c h) = cref I → rep (NX c h) I.
Proof.
  intros Hc Hcn Hl Hh Hinj E. destruct (ext_ok c h Hl) as (Hi & Hlen & Hn).
  destruct (match_node m I _ Hc Hn Hinj E) as [Hne Et].
  destruct (T_items m I Hc Hne) as (items & Ei & Hii & Hil & Hsh). unfold ext_rlp in Et. rewrite Ei in Et.
  apply list_inj in Et; [|done..]. pose proof (len_hp_128 c false Hl).
  destruct Hsh as [(p' & v' & -> & ->)|[(_ & _ & ->)|(c' & J & Hcn' & -> & Hf & HcJ & Hn' & Hcl & ->)]].
  - destruct (co_pair _ _ Hc (p', v') ltac:(by left)) as (Hp' & Hl' & _). cbn in Hp', Hl'. pose proof (co_len _ _ Hc).
    pose proof (len_hp p' true ltac:(lia)). apply list_eq_2 in Et as [E1 _]. apply string_inj in E1; [|lia..]. by apply hp_spec_inj in E1 as [_ ?].
  - by apply (f_equal length) in Et; rewrite length_app, length_map, length_seqZ in Et.
  - apply list_eq_2 in Et as [E1 E2]. pose proof (len_hp c' false Hcl). apply string_inj in E1; [|lia..]. apply hp_spec_inj in E1 as [-> _]; [|done..].
    apply hash_ref in E2 as [-> H32]; [|by apply (T_node keccak256 _ J HcJ), (fork_nonempty _ Hf)|done].
    split; [done|]. by exists J.
Qed.

(** A reduced node whose slot matches stands for the set. *)
Lemma rep_of_slot m b ρ I :
  content m I → node_ok b ρ → (∀ x, x ∈ own_rlp ρ → I ≠ [] → keccak256 x = keccak256 (T I) → x = T I) → slot ρ = cref I → rep ρ I.
Proof.
  intros Hc Hok Hinj E. destruct ρ as [|h|c h|p v src]; cbn [RootSpec.slot node_ok] in *.
  - symmetry in E. by apply (match_empty m).
  - by apply (match_hash m).
  - destruct Hok as (Hn & Hl & Hh & _). apply (match_ext m); [done|done|lia|done| |done]. apply Hinj. by left.
  - destruct Hok as (Hn & Hl & Hv). apply (match_leaf m); [done|done|lia|done| |done]. apply Hinj. by left.
Qed.

Lemma match_branch m I rs b :
  content m I → length rs = 16%nat → Forall (node_ok b) rs → I ≠ [] → branch_rlp keccak256 rs = T I →
  fork I ∧ ∀ j r, rs !! j = Some r → slot r = cref (below (Z.of_nat j) I).
Proof.
  intros Hc Hl Hok Hne Et.
  destruct (T_items m I Hc Hne) as (items & Ei & Hii & Hil & Hsh). unfold branch_rlp in Et. rewrite Ei in Et.
  assert (Hsl : Forall (λ x, is_item x ∧ len x ≤ 33) (map slot rs)).
  { apply Forall_fmap. eapply Forall_impl; [exact Hok|]. intros r Hr. by eapply slot_item. }
  apply list_inj in Et; [| |done| |done].
  2:{ apply Forall_app. split; [eapply Forall_impl; [exact Hsl|]; by intros ? []|repeat constructor; by exists String, []]. }
  2:{ rewrite concat_app, len_app. change (len (concat [[Byte.x80]])) with 1.
      assert (H : Forall (λ x, len x ≤ 33) (map slot rs)) by (eapply Forall_impl; [exact Hsl|]; by intros ? []).
      apply len_concat_const in H. rewrite length_map, Hl in H. lia. }
  destruct Hsh as [(p' & v' & -> & ->)|[(Hf & _ & ->)|(c' & J & _ & _ & _ & _ & _ & _ & ->)]].
  - by apply (f_equal length) in Et; rewrite length_app, length_map, Hl in Et.
  - split; [done|]. apply app_inj_2 in Et as [Et _]; [|done]. intros j r Hj. apply (f_equal (.!! j)) in Et.
    change (map ?f ?l) with (f <$> l) in Et. rewrite !list_lookup_fmap, Hj in Et.
    assert (j < 16)%nat by (rewrite <- Hl; by eapply lookup_lt_Some). rewrite lookup_seqZ_lt in Et by lia. cbn [fmap option_fmap option_map] in Et.
    injection Et as Et. rewrite Et. do 2 f_equal.
  - by apply (f_equal length) in Et; rewrite length_app, length_map, Hl in Et.
Qed.

(** A folded child: the set is the child's, one nibble up. *)
Lemma match_fold b I j r :
  node_ok (S b) r → is_NE r = false → rep (fold1 j r) I →
  I = under [j] (below j I) ∧ rep r (below j I) ∧ ((∃ h, r = NH h) → fork (below j I)).
Proof.
  intros Hok Hne Hr.
  assert (Hsplit : ∀ J, I = under [j] J → below j I = J) by (intros J ->; apply fork_under_below).
  destruct r as [|h|c h|p v src]; cbn [fold1 RootTrie.rep node_ok] in *; [done| | |].
  - destruct Hr as (_ & J & EI & Hf & Eh & H32). rewrite (Hsplit J EI). split_and!; [done|by apply fork_nonempty|done|done|done].
  - destruct Hok as (_ & _ & _ & Hcn). destruct Hr as (_ & J & EI & Hf & Eh & H32).
    assert (EI' : I = under [j] (under c J)) by (rewrite EI; symmetry; apply (under_app [j])).
    rewrite (Hsplit _ EI'). split_and!; [done|done| |by intros [? ?]]. by exists J.
  - assert (EI' : I = under [j] [(p, v)]) by done. rewrite (Hsplit _ EI'). split_and!; [done|done|by intros [? ?]].
Qed.

Lemma reduce_ok b rs : (b < 64)%nat → length rs = 16%nat → Forall (node_ok (S b)) rs → node_ok b (reduce keccak256 rs).
Proof.
  intros Hb Hl Hf. unfold reduce. destruct (live 0 rs) as [|[j r] [|? ?]] eqn:El; [done| |apply keccak_range].
  destruct (live_elem 0 rs j r) as (Hj & Hr & Hne); [rewrite El; by left|]. rewrite Z.sub_0_r in Hr. rewrite Hl in Hj.
  eapply Forall_lookup in Hf as Hok; [|exact Hr]. assert (Hjn : is_nibble j) by (unfold is_nibble; lia).
  destruct r as [|h|c h|p v src]; cbn [fold1 node_ok] in *; [done| | |].
  - split_and!; [by apply Forall_singleton|cbn; lia|done|done].
  - destruct Hok as (? & ? & ? & ?). split_and!; [by constructor|cbn; lia|done|done].
  - destruct Hok as (? & ? & ?). split_and!; [by constructor|cbn; lia|done].
Qed.
Lemma leaf_node_ok (w : list Z) l o :
  (length w ≤ 64)%nat → (∀ v, o = Some v → len v ≤ 128) → node_ok (length w) (leaf_node lkey lsrc (length w) l o).
Proof.
  intros Hlen Hv. destruct o as [v|]; [|done]. cbn [leaf_node node_ok].
  assert (Hn : Forall is_nibble (lkey l)) by (destruct l; cbn [RootSpec.lkey]; apply to_nibbles_range).
  split_and!; [by apply Forall_drop|rewrite length_drop, length_lkey|by apply Hv]. lia.
Qed.
Lemma lvo_len k w l v : wf keccak256 k w (TKey l) → lvo l = Some v → len v ≤ 128.
Proof.
  intros Hw E. inversion Hw as [| | | |? i addr n b c st ? ? ? ? ? ? ?|? i ow p u ? ? ?|]; subst; cbn [RootSpec.lvo] in E.
  - unfold account_value in E. destruct (Node.is_empty_account n b c); [done|]. injection E as <-.
    match goal with |- len (account_rlp ?n ?b ?sr ?c) ≤ _ => pose proof (len_account_rlp n b sr c) end. 
    match goal with H : _ → _ → _ |- _ => specialize (H ltac:(done) ltac:(done)) end. lia.
  - unfold slot_value in E. destruct (u =? 0); [done|]. injection E as <-. pose proof (len_encode_u256 u ltac:(done)). lia.
Qed.
Lemma old_ok k w t : wf keccak256 k w t → (length w ≤ 64)%nat → w_solid t = true → node_ok (length w) (w_old keccak256 (length w) t).
Proof.
  intros Hw. induction Hw as [k w|k w h ?|k w c h ? ? ?|k w p v ? ? ?|w i addr n b c st ? ? ? ? Hp Hst IH ?|w i ow p v ? ? Hp|k w kids Hl Hlw Hk IH];
    intros Hlen Hs.
  - done.
  - done.
  - unfold w_solid in Hs. cbn in Hs. split_and!; [done|lia|done|by destruct c].
  - cbn. split_and!; [done|lia|done].
  - apply leaf_node_ok; [done|]. intros v. by eapply (lvo_len InState w), wf_account.
  - apply leaf_node_ok; [done|]. intros u. by eapply (lvo_len (InStorage ow) w), wf_slot.
  - change (w_old keccak256 (length w) (TBranch kids)) with (reduce keccak256 (map (w_old keccak256 (S (length w))) kids)).
    apply reduce_ok; [done|by rewrite length_map|]. apply Forall_fmap, Forall_lookup. intros j t Hj. cbn.
    specialize (IH j t Hj). rewrite length_app, Nat.add_1_r in IH. apply IH; [lia|]. eapply kid_solid; [exact Hs|by eapply list_elem_of_lookup_2].
Qed.

Lemma key_rep_sound d l I : rep (w_old keccak256 d (TKey l)) I → sound d (TKey l) I.
Proof.
  change (w_old keccak256 d (TKey l)) with (leaf_node lkey lsrc d l (lvo l)). intros Hr. apply so_key.
  by destruct (lvo l) as [v|]; cbn [leaf_node RootTrie.rep] in Hr.
Qed.

(** ** Two lists of nodes that keccak256 tells apart *)

Section Apart.
Context (A B : list bytes) (Hcf : collision_free A B).

(** [B] has the nodes of the trie of [I], from its first branch down. *)
Definition covers (I : list (list Z * bytes)) : Prop := ∀ c J, I = under c J → fork J → nodes J ⊆ B.
Lemma covers_nodes m I : content m I → nodes I ⊆ B → covers I.
Proof. intros Hc Hs c J -> Hf. etrans; [by eapply nodes_under|done]. Qed.
Lemma covers_fold j I : covers I → I = under [j] (below j I) → covers (below j I).
Proof. intros H E c J EJ Hf. apply (H (j :: c)); [|done]. rewrite E, EJ. apply (under_app [j]). Qed.
Lemma covers_nil : covers [].
Proof. intros c J E Hf. apply fork_nonempty in Hf. by destruct J as [|[]]. Qed.
Lemma covers_fork I : covers I → fork I → nodes I ⊆ B.
Proof. intros H. apply (H [] I). symmetry. unfold under. etrans; [|apply map_id]. apply map_ext. by intros []. Qed.

(** A reduced branch that stands for a set: so do its children. *)
Lemma branch_match m b I rs :
  content (S m) I → length rs = 16%nat → Forall (node_ok (S b)) rs →
  (∀ x y l, live 0 rs = x :: y :: l → branch_rlp keccak256 rs :: concat (map own_rlp rs) ⊆ A) →
  covers I → (∀ h, reduce keccak256 rs = NH h → T I ∈ B) → rep (reduce keccak256 rs) I →
  (∀ j r, rs !! j = Some r → let J := below (Z.of_nat j) I in rep r J ∧ covers J ∧ (∀ h, r = NH h → T J ∈ B)) ∧
  (∀ j h, rs !! j = Some (NH h) → (∀ j', j' ≠ Z.of_nat j → below j' I = []) → fork (below (Z.of_nat j) I)).
Proof.
  intros Hc Hl Hok HA HB HT Hr. cbv zeta. unfold reduce in Hr, HT.
  assert (Hnlive : ∀ j r, rs !! j = Some r → (∀ r', (Z.of_nat j, r') ∉ live 0 rs) → r = NE).
  { intros j r Hj Hno. destruct (is_NE r) eqn:Er; [by destruct r|]. exfalso. apply (Hno r). apply live_mem; [|lia|done].
    by rewrite Z.sub_0_r, Nat2Z.id. }
  destruct (live 0 rs) as [|[j r] [|[j' r'] l]] eqn:El.
  - cbn [RootTrie.rep] in Hr. subst I. split.
    + intros i r Hi. rewrite (Hnlive i r Hi) by (intros r' ?%not_elem_of_nil; done). split_and!; [done|apply covers_nil|done].
    + intros i h Hi _. pose proof (Hnlive i _ Hi ltac:(intros r' ?%not_elem_of_nil; done)). done.
  - destruct (live_elem 0 rs j r) as (Hj & Hrj & Hne); [rewrite El; by left|]. rewrite Z.sub_0_r in Hrj. rewrite Hl in Hj.
    eapply Forall_lookup in Hok as Hokr; [|exact Hrj]. destruct (match_fold b I j r Hokr Hne Hr) as (EI & Hrr & Hf).
    assert (Hother : ∀ i, i ≠ j → below i I = []).
    { intros i Hi. rewrite EI. apply elem_of_nil_inv. intros [p v] (q & Eq & _)%below_in%elem_under. by injection Eq as ->. }
    split.
    + intros i ri Hi. destruct (decide (Z.of_nat i = j)) as [<-|Hij].
      * rewrite Nat2Z.id, Hi in Hrj. injection Hrj as ->. pose proof (covers_fold _ _ HB EI) as HBb. split_and!; [done|done|].
        intros h Eh. apply (covers_fork _ HBb); [apply Hf; eauto|apply nodes_root].
      * rewrite (Hnlive i ri Hi) by (intros r' Hin%list_elem_of_singleton; congruence). rewrite (Hother (Z.of_nat i) Hij).
        split_and!; [done|apply covers_nil|done].
    + intros i h Hi _. destruct (decide (Z.of_nat i = j)) as [<-|Hij].
      * rewrite Nat2Z.id, Hi in Hrj. injection Hrj as <-. apply Hf. eauto.
      * pose proof (Hnlive i _ Hi ltac:(intros r' Hin%list_elem_of_singleton; congruence)). done.
  - specialize (HA _ _ _ eq_refl). destruct Hr as (HneI & Eh & _).
    destruct (match_branch (S m) I rs (S b) Hc Hl Hok HneI) as [Hf Hs]; [apply Hcf; [apply HA; by left|by eapply HT|done]|].
    pose proof (covers_fork _ HB Hf) as HnI. split.
    + intros i r0 Hi. pose proof (lookup_lt_Some _ _ _ Hi) as Hlt. eapply Forall_lookup in Hok as Hokr; [|exact Hi].
      assert (HnJ : below (Z.of_nat i) I ≠ [] → nodes (below (Z.of_nat i) I) ⊆ B).
      { intros Hb. etrans; [eapply (nodes_below keccak256 m); [done|done|lia|done]|done]. }
      split_and!.
      * apply (rep_of_slot m (S b)); [by apply content_below|done| |by apply Hs].
        intros x Hx Hb Ex. apply Hcf; [|apply HnJ; [done|apply nodes_root]|done]. apply HA. right.
        apply list_elem_of_In, in_concat. exists (own_rlp r0). split; [|by apply list_elem_of_In]. by eapply in_map, list_elem_of_In, list_elem_of_lookup_2.
      * destruct (decide (below (Z.of_nat i) I = [])) as [->|Hb]; [apply covers_nil|]. apply (covers_nodes m); [by apply content_below|by apply HnJ].
      * intros h ->. specialize (Hs _ _ Hi). apply (match_hash m) in Hs as [Hb _]; [|by apply content_below|done]. apply HnJ; [done|apply nodes_root].
    + intros i h _ Halone. exfalso. destruct Hf as (a & a' & Hne & Ha & Ha').
      destruct (decide (a = Z.of_nat i)) as [->|]; [apply Ha', Halone; congruence|by apply Ha, Halone].
Qed.

Lemma inner_kid (kids : list (tree lf)) d j t :
  kids !! j = Some t → w_inner keccak256 (S d) t ⊆ w_inner keccak256 d (TBranch kids).
Proof.
  intros Hj x Hx. unfold w_inner. cbn [inner_nodes]. apply elem_of_app. right. apply list_elem_of_In, in_concat.
  exists (w_inner keccak256 (S d) t). split; [|by apply list_elem_of_In]. unfold w_inner.
  by apply (in_map (inner_nodes keccak256 _ _ _ _ (S d))), list_elem_of_In, (list_elem_of_lookup_2 _ j).
Qed.

(** A tree that reduces to a node of a set is sound for it. *)
Lemma old_sound k w t : wf keccak256 k w t → (length w ≤ 64)%nat → w_solid t = true → w_inner keccak256 (length w) t ⊆ A →
  ∀ I, content (64 - length w) I → covers I → (∀ h, w_old keccak256 (length w) t = NH h → T I ∈ B) →
  rep (w_old keccak256 (length w) t) I → sound (length w) t I.
Proof.
  intros Hw. induction Hw as [k w|k w h ?|k w c h ? ? ?|k w p v ? ? ?|w i addr n b c st ? ? ? ? Hp Hst IH ?|w i ow p v ? ? Hp|k w kids Hl Hlw Hk IH];
    intros Hlen Hs HA I Hc HB HT Hr.
  - rewrite Hr. constructor.
  - destruct Hr as (? & ? & ?). by constructor.
  - by constructor.
  - rewrite Hr. constructor.
  - by apply key_rep_sound.
  - by apply key_rep_sound.
  - assert (Hm : (64 - length w = S (63 - length w))%nat) by lia. rewrite Hm in Hc.
    set (rs := map (w_old keccak256 (S (length w))) kids). change (w_old keccak256 (length w) (TBranch kids)) with (reduce keccak256 rs) in Hr, HT.
    assert (Hrs : ∀ j t, kids !! j = Some t → rs !! j = Some (w_old keccak256 (S (length w)) t)) by (intros j t Hj; unfold rs; by rewrite list_lookup_fmap, Hj).
    assert (Hlw' : ∀ j, S (length w) = length (w ++ [Z.of_nat j])) by (intros j; rewrite length_app; cbn; lia).
    assert (Hok : Forall (node_ok (S (length w))) rs).
    { apply Forall_fmap, Forall_lookup. intros j t Hj. cbn. rewrite (Hlw' j). eapply old_ok; [by apply Hk|rewrite length_app; cbn; lia|].
      eapply kid_solid; [exact Hs|by eapply list_elem_of_lookup_2]. }
    assert (Hlr : length rs = 16%nat) by (unfold rs; by rewrite length_map).
    destruct (branch_match (63 - length w) (length w) I rs Hc Hlr Hok) as [Hkids Hlone]; [|done|done|done|].
    { intros x y l El. etrans; [|exact HA]. unfold w_inner. cbn [inner_nodes]. fold (w_old keccak256). fold rs. rewrite El. by apply list_subseteq_app_l. }
    constructor.
    + intros j t Hj. destruct (Hkids j _ (Hrs j t Hj)) as (Hrj & HBj & HTj). specialize (IH j t Hj). rewrite <- (Hlw' j) in IH.
      apply IH; [lia|eapply kid_solid; [exact Hs|by eapply list_elem_of_lookup_2]|etrans; [by eapply inner_kid|done]| |done|done|done].
      replace (64 - S (length w))%nat with (63 - length w)%nat by lia. by apply content_below.
    + intros j h Hj Halone. apply (Hlone j h); [by apply (Hrs j (THash h))|done].
Qed.
End Apart.

End Sound.
End RootSound.
