(* ===== verification/RootWorld.v ===== *)
(** The world behind a witness.  A world is the accounts of the state trie and
    the slots of their storage tries, by the hashes of their addresses and
    positions; its root is by the Yellow Paper's definition.  A witness whose
    block-start root is the root of a world shows rows of that world, and the
    post-block root is the root of the world with the tables' current values
    written into it: the theorems at the end of this file say so of the tables
    [state_root] builds and of the root [calculate_new_state_root] returns. *)

From stdpp Require Import base numbers list strings gmap.
From S2P Require Import Prelude Rlp Writer Contracts TriePath Mpt Accounts Storages StateRoot RootSpec RootEncode RootShape RootBuild RootEval RootTrie RootSound.

Set Default Goal Selector "!".

Module RootWorld.
Import Rlp Writer TriePath Mpt StateRoot RootSpec RootEncode RootShape RootBuild RootEval RootTrie RootSound.

(** ** Worlds *)

Record acct := mkAcct { a_nonce : Z; a_balance : Z; a_code : Z; a_slots : gmap (list Z) Z }.
Definition world := gmap (list Z) acct.

Definition key_ok (k : list Z) : Prop := Forall is_nibble k ∧ length k = 64%nat.
Definition storage_ok (S : gmap (list Z) Z) : Prop := map_Forall (λ k v, key_ok k ∧ 0 < v < 2 ^ 256) S.
Definition acct_ok (a : acct) : Prop :=
  in_u64 (a_nonce a) ∧ in_u256 (a_balance a) ∧ in_u256 (a_code a) ∧ storage_ok (a_slots a).
Definition world_ok (W : world) : Prop := map_Forall (λ k a, key_ok k ∧ acct_ok a) W.
#[export] Instance key_ok_dec k : Decision (key_ok k).
Proof. unfold key_ok, is_nibble. apply _. Defined.
#[export] Instance storage_ok_dec S : Decision (storage_ok S).
Proof. unfold storage_ok. apply _. Defined.
#[export] Instance acct_ok_dec a : Decision (acct_ok a).
Proof. unfold acct_ok, in_u64, in_u256. apply _. Defined.
#[export] Instance world_ok_dec W : Decision (world_ok W).
Proof. unfold world_ok. apply _. Defined.
Definition slots_of (W : world) (k : list Z) : gmap (list Z) Z := default ∅ (a_slots <$> W !! k).

Section World.
Context (keccak256 : bytes → Z).

Definition slot_pairs (S : gmap (list Z) Z) : list (list Z * bytes) := map (λ '(k, v), (k, encode_u256 v)) (map_to_list S).
Definition storage_root (S : gmap (list Z) Z) : Z := trie_root keccak256 (slot_pairs S).
Definition acct_rlp (a : acct) : bytes := account_rlp (a_nonce a) (a_balance a) (storage_root (a_slots a)) (a_code a).
Definition acct_pairs (W : world) : list (list Z * bytes) := map (λ '(k, a), (k, acct_rlp a)) (map_to_list W).
Definition world_root (W : world) : Z := trie_root keccak256 (acct_pairs W).

(** The encodings of every node of the world's tries; an empty one is hashed from [0x80]. *)
Definition world_nodes (W : world) : list bytes :=
  [Byte.x80] :: root_nodes keccak256 (acct_pairs W) ++ concat (map (λ '(_, a), root_nodes keccak256 (slot_pairs (a_slots a))) (map_to_list W)).
Lemma state_nodes W : root_nodes keccak256 (acct_pairs W) ⊆ world_nodes W.
Proof. intros x Hx. right. apply elem_of_app. by left. Qed.
Lemma storage_nodes W k : root_nodes keccak256 (slot_pairs (slots_of W k)) ⊆ world_nodes W.
Proof.
  intros x Hx. unfold slots_of in Hx. destruct (W !! k) as [a|] eqn:E; cbn [fmap option_fmap option_map default] in Hx.
  - right. apply elem_of_app. right. apply list_elem_of_In, in_concat. exists (root_nodes keccak256 (slot_pairs (a_slots a))).
    split; [|by apply list_elem_of_In]. apply in_map_iff. exists (k, a). split; [done|]. by apply list_elem_of_In, elem_of_map_to_list.
  - unfold slot_pairs in Hx. rewrite map_to_list_empty in Hx. cbn in Hx. apply list_elem_of_singleton in Hx as ->. by left.
Qed.

(** No two keys of a trie agree on their first 56 nibbles. *)
Definition world_spread (W : world) : Prop :=
  spread 64 (acct_pairs W) ∧ map_Forall (λ _ a, spread 64 (slot_pairs (a_slots a))) W.

#[export] Instance spread_dec m I : Decision (spread m I).
Proof.
  refine (cast_if (decide (Forall (λ x, Forall (λ y, take (m - 8) x.1 = take (m - 8) y.1 → x.1 = y.1) I) I))).
  - abstract (intros x y Hx Hy; rewrite Forall_forall in f; specialize (f x Hx); rewrite Forall_forall in f; by apply f).
  - abstract (intros H; apply n, Forall_forall; intros x Hx; apply Forall_forall; intros y Hy; by apply H).
Defined.
#[export] Instance world_spread_dec W : Decision (world_spread W).
Proof. unfold world_spread. apply _. Defined.
Lemma slots_of_ok W k : world_ok W → storage_ok (slots_of W k).
Proof. intros HW. unfold slots_of. destruct (W !! k) as [x|] eqn:E; [by destruct (HW _ _ E) as [_ (_ & _ & _ & ?)]|apply map_Forall_empty]. Qed.
Lemma in_slots S k b : (k, b) ∈ slot_pairs S ↔ ∃ v, S !! k = Some v ∧ b = encode_u256 v.
Proof.
  unfold slot_pairs. rewrite list_elem_of_fmap. split.
  - intros ([k' v] & [= -> ->] & H%elem_of_map_to_list). eauto.
  - intros (v & H & ->). exists (k, v). split; [done|by apply elem_of_map_to_list].
Qed.
Lemma in_accts W k b : (k, b) ∈ acct_pairs W ↔ ∃ a, W !! k = Some a ∧ b = acct_rlp a.
Proof.
  unfold acct_pairs. rewrite list_elem_of_fmap. split.
  - intros ([k' v] & [= -> ->] & H%elem_of_map_to_list). eauto.
  - intros (v & H & ->). exists (k, v). split; [done|by apply elem_of_map_to_list].
Qed.
Lemma map_fst_pairs {A B} (f : A → B) (l : list (list Z * A)) : map fst (map (λ '(k, x), (k, f x)) l) = map fst l.
Proof. rewrite map_map. apply map_ext. by intros []. Qed.
Lemma len_nonzero (b : bytes) m : 1 ≤ len b ≤ m → b ≠ [].
Proof. intros H ->. unfold len in H. cbn in H. lia. Qed.
Lemma slots_content S : storage_ok S → content 64 (slot_pairs S).
Proof.
  intros HS. split; [| |lia].
  - unfold slot_pairs. rewrite map_fst_pairs. apply NoDup_fst_map_to_list.
  - intros [k b] (v & Hv & ->)%in_slots. destruct (HS k v Hv) as [[Hn Hl] Hr].
    pose proof (len_encode_u256 v ltac:(unfold in_u256; lia)) as H. unfold pair_ok. cbn [fst snd].
    split_and!; [done|done|by eapply len_nonzero|lia].
Qed.
Lemma accts_content W : world_ok W → content 64 (acct_pairs W).
Proof.
  intros HW. split; [| |lia].
  - unfold acct_pairs. rewrite map_fst_pairs. apply NoDup_fst_map_to_list.
  - intros [k b] (a & Ha & ->)%in_accts. destruct (HW k a Ha) as [[Hn Hl] (Hno & Hba & _)].
    pose proof (len_account_rlp (a_nonce a) (a_balance a) (storage_root (a_slots a)) (a_code a) Hno Hba) as H.
    unfold pair_ok, acct_rlp. cbn [fst snd]. split_and!; [done|done|by eapply len_nonzero|lia].
Qed.

(** ** Roots *)

Context (keccak_range : ∀ b, in_u256 (keccak256 b)) (keccak_empty : keccak256 [Byte.x80] = Node.kEmptyTrieRoot).
Abbreviation collision_free := (collision_free keccak256).
Abbreviation root_nodes := (root_nodes keccak256).
Abbreviation w_nodes := (w_nodes keccak256).
Abbreviation T := (T keccak256).
Abbreviation cref := (cref keccak256).
Abbreviation trie_root := (trie_root keccak256).
Abbreviation sound := (sound keccak256).
Abbreviation lkey := (lkey keccak256).

Lemma root_big I : content 64 I → I ≠ [] → 32 ≤ len (T I).
Proof.
  intros Hc Hne. destruct (shapes 64 I Hc Hne) as [(p & v & ->)|[[Hf _]|(c & J & Hcn & -> & Hf & Hl & HcJ)]].
  - rewrite T_leaf. destruct (co_pair _ _ Hc (p, v) ltac:(by left)) as (_ & Hp & _). cbn in Hp. unfold leaf_rlp.
    etrans; [|apply len_list_ge]. cbn [concat]. rewrite app_nil_r, len_app. pose proof (len_string_ge (hp_spec p true)) as H1.
    pose proof (len_string_ge v). assert (len (hp_spec p true) = 33) by (unfold len; by rewrite hp_length, Hp). lia.
  - by apply (fork_big keccak256 64); [done|done|lia].
  - pose proof (content_nibbles 64 c J Hc (fork_nonempty _ Hf)) as Hn. rewrite (T_ext keccak256 (64 - length c)); [|done|done|done|done|lia].
    etrans; [|apply len_list_ge]. cbn [concat]. rewrite app_nil_r, len_app. pose proof (len_string_ge (hp_spec c false)) as [H1 H1'].
    destruct (decide (9 ≤ 64 - length c)%nat) as [H9|H9].
    + pose proof (fork_big keccak256 _ J HcJ Hf H9). pose proof (node_ref_ge keccak256 (T J) 32 ltac:(lia) ltac:(lia)). lia.
    + pose proof (branch_min keccak256 _ J HcJ Hf). pose proof (node_ref_ge keccak256 (T J) 18 ltac:(lia) ltac:(lia)).
      assert (28 ≤ len (hp_spec c false)); [|lia]. unfold len. rewrite hp_length.
      pose proof (Nat.Div0.div_le_mono 56 (length c) 2 ltac:(lia)) as Hd. change (56 / 2)%nat with 28%nat in Hd. lia.
Qed.

(** At the root of a trie, an unopened hash says nothing. *)
Definition sound_root (t : tree lf) (I : list (list Z * bytes)) : Prop := t = THash (trie_root I) ∨ sound 0 t I.

Lemma list_not_80 b : is_list_node b → (keccak256 b = keccak256 [Byte.x80] → b = [Byte.x80]) → keccak256 b ≠ Node.kEmptyTrieRoot.
Proof. intros Hb Hinj E. apply (list_not_empty_string b); [done|]. apply Hinj. by rewrite keccak_empty. Qed.

Lemma branch_node rs : Forall (λ r, node_ok 1 r) rs → length rs = 16%nat → is_list_node (branch_rlp keccak256 rs).
Proof.
  intros Hok Hl. apply encode_list_node. rewrite concat_app, len_app. change (len (concat [[Byte.x80]])) with 1.
  assert (H : Forall (λ x, len x ≤ 33) (map (slot keccak256) rs)).
  { apply Forall_fmap. eapply Forall_impl; [exact Hok|]. intros r Hr. by eapply slot_item. }
  apply len_concat_const in H. rewrite length_map, Hl in H. lia.
Qed.
Lemma old_kids_ok k kids : wf keccak256 k [] (TBranch kids) → w_solid (TBranch kids) = true →
  Forall (λ r, node_ok 1 r) (map (w_old keccak256 1) kids) ∧ length (map (w_old keccak256 1) kids) = 16%nat.
Proof.
  intros Hw Hs. inversion Hw as [| | | | | |? ? ? Hl Hlw Hk]; subst. split; [|by rewrite length_map].
  apply Forall_fmap, Forall_lookup. intros j t Hj. apply (old_ok keccak256 keccak_range k [Z.of_nat j] t); [by apply Hk|cbn; lia|].
  eapply kid_solid; [exact Hs|by eapply list_elem_of_lookup_2].
Qed.
(** A tree with the root of a set reduces to a node that stands for the set. *)
Lemma old_root_rep k t I :
  wf keccak256 k [] t → w_solid t = true → content 64 I → is_THash t = false → collision_free (w_nodes t) (root_nodes I) →
  root_of keccak256 (w_old keccak256 0 t) = trie_root I → rep keccak256 (w_old keccak256 0 t) I.
Proof.
  intros Hw Hs Hc Et Hcf E. pose proof (old_ok keccak256 keccak_range k [] t Hw ltac:(cbn; lia) Hs) as Hok. cbn [length] in Hok.
  assert (Hown : ∀ x, x ∈ own_rlp (w_old keccak256 0 t) → x ∈ w_nodes t) by (intros x Hx; right; apply elem_of_app; by left).
  destruct (decide (I = [])) as [->|Hne].
  - cbn [RootTrie.trie_root] in E. assert (H80 : ∀ b, is_list_node b → b ∈ w_nodes t → keccak256 b ≠ Node.kEmptyTrieRoot).
    { intros b Hb Hin. apply list_not_80; [done|]. apply Hcf; [done|by left]. }
    destruct (w_old keccak256 0 t) as [|h|c h|p v src] eqn:Eo; cbn [root_of node_ok own_rlp] in *; [done|exfalso..].
    + destruct t as [| | | |l|kids]; try done; [unfold w_old in Eo; cbn [old] in Eo; by destruct (lvo keccak256 l)|].
      change (w_old keccak256 0 (TBranch kids)) with (reduce keccak256 (map (w_old keccak256 1) kids)) in Eo. unfold reduce in Eo.
      destruct (live 0 _) as [|[j r] [|? ?]] eqn:El; [done|by destruct r|]. injection Eo as <-. revert E. apply H80; [by apply branch_node; apply (old_kids_ok k)|].
      right. apply elem_of_app. right. unfold w_inner. cbn [inner_nodes]. fold (w_old keccak256). rewrite El. by left.
    + revert E. apply H80; [apply ext_ok; lia|]. apply Hown. by left.
    + revert E. apply H80; [apply leaf_ok; [lia|apply Hok]|]. apply Hown. by left.
  - rewrite trie_root_nonempty in E by done. pose proof (T_node keccak256 64 I Hc Hne) as Hn.
    assert (HT : T I ∈ root_nodes I) by (rewrite root_nodes_nonempty by exact Hne; apply nodes_root).
    assert (Heq : ∀ b, b ∈ own_rlp (w_old keccak256 0 t) → keccak256 b = keccak256 (T I) → b = T I) by (intros b Hb; apply Hcf; [by apply Hown|done]).
    destruct (w_old keccak256 0 t) as [|h|c h|p v src] eqn:Eo; cbn [root_of node_ok own_rlp] in *.
    + exfalso. apply (list_not_empty_string (T I)); [done|]. symmetry. apply Hcf; [by left|done|]. by rewrite keccak_empty.
    + split_and!; [done|done|by apply root_big].
    + apply (rep_of_slot keccak256 keccak_range 64 0); [done|done|intros x Hx _; exact (Heq x Hx)|].
      cbn [slot]. rewrite cref_nonempty by done. f_equal. apply Heq; [by left|exact E].
    + apply (rep_of_slot keccak256 keccak_range 64 0); [done|done|intros x Hx _; exact (Heq x Hx)|].
      cbn [slot]. rewrite cref_nonempty by done. f_equal. apply Heq; [by left|exact E].
Qed.
Lemma old_root_sound k t I :
  wf keccak256 k [] t → w_solid t = true → content 64 I → collision_free (w_nodes t) (root_nodes I) →
  root_of keccak256 (w_old keccak256 0 t) = trie_root I → sound_root t I.
Proof.
  intros Hw Hs Hc Hcf E. destruct (is_THash t) eqn:Et; [destruct t; try done; left; by f_equal|]. right.
  pose proof (old_root_rep k t I Hw Hs Hc Et Hcf E) as Hr.
  apply (old_sound keccak256 keccak_range _ _ Hcf k [] t Hw); [cbn; lia|done|by apply list_subseteq_cons, list_subseteq_app_r|done| | |done].
  - destruct (decide (I = [])) as [->|Hne]; [apply covers_nil|]. apply (covers_nodes keccak256 _ 64); [exact Hc|]. rewrite root_nodes_nonempty by exact Hne. reflexivity.
  - intros h Eh. cbn [length] in Eh. rewrite Eh in Hr. destruct Hr as [Hne _]. rewrite root_nodes_nonempty by exact Hne. apply nodes_root.
Qed.
Lemma new_root_sound V k t I I' ρ :
  wf keccak256 k [] t → sound_root t I → content 64 I → content 64 I' → spread 64 I' → upd keccak256 V 0 t I I' →
  w_new keccak256 V 0 t = Ok ρ → root_of keccak256 ρ = trie_root I'.
Proof.
  intros Hw Hs Hc Hc' Hsp Hup HE. destruct Hs as [->|Hs].
  - apply Ok_inj in HE as <-. cbn [root_of]. assert (Hp : I ≡ₚ I').
    { eapply same_perm; [done|done|]. eapply upd_none; [|exact Hup]. done. }
    destruct I as [|x I0] eqn:EI; [by apply Permutation_nil_l in Hp as <-|]. rewrite <- EI in *.
    rewrite !trie_root_nonempty; [by rewrite (T_perm keccak256 64 I I')| |by rewrite EI].
    intros ->. rewrite EI in Hp. by apply Permutation_nil_r in Hp.
  - destruct (new_rep keccak256 V k [] t ρ Hw ltac:(cbn; lia) HE I I' Hs Hc Hc' Hsp Hup) as [Hr _]. by apply (root_rep keccak256 64).
Qed.

Lemma root_leaf k t I l v :
  wf keccak256 k [] t → sound_root t I → l ∈ leaves t → (lkey l, v) ∈ I ↔ lvo keccak256 l = Some v.
Proof.
  intros Hw [->|Hs] Hl; [by apply not_elem_of_nil in Hl|]. exact (sound_leaf keccak256 k [] t I l Hw Hs Hl v).
Qed.

(** ** Leaves have keys of their own *)

Lemma leaf_unique k w t l l' : wf keccak256 k w t → l ∈ leaves t → l' ∈ leaves t → lkey l = lkey l' → l = l'.
Proof.
  intros Hw. induction Hw as [| | | |w i addr n b c st ? ? ? ? Hp Hst IH ?|w i ow p v ? ? Hp|k w kids Hl Hlw Hk IH]; intros Hin Hin' E;
    try (by apply not_elem_of_nil in Hin).
  - apply list_elem_of_singleton in Hin, Hin'. congruence.
  - apply list_elem_of_singleton in Hin, Hin'. congruence.
  - apply leaf_in_branch in Hin as (j & t & Hj & Hin), Hin' as (j' & t' & Hj' & Hin').
    pose proof (leaf_prefix keccak256 _ _ _ _ (Hk j t Hj) Hin) as P. pose proof (leaf_prefix keccak256 _ _ _ _ (Hk j' t' Hj') Hin') as P'.
    rewrite <- E in P'. apply drop_key in P, P'. rewrite P in P'. injection P' as Ejj. apply Nat2Z.inj in Ejj as <-.
    rewrite Hj in Hj'. injection Hj' as <-. by eapply IH.
Qed.

Lemma state_leaf w t l : wf keccak256 InState w t → l ∈ leaves t →
  ∃ i addr n b c st, l = LAccount i addr n b c st ∧ wf keccak256 (InStorage addr) [] st ∧ 0 ≤ addr < 2 ^ 160 ∧ in_u64 n ∧ in_u256 b ∧ in_u256 c ∧
    (Node.is_empty_account n b c = true → root_of keccak256 (w_old keccak256 0 st) = Node.kEmptyTrieRoot).
Proof.
  intros Hw. remember InState as k eqn:Ek. induction Hw as [| | | |w i addr n b c st ? ? ? ? Hp Hst IH ?|w i ow p v ? ? Hp|k w kids Hl Hlw Hk IH];
    intros Hin; subst; try (by apply not_elem_of_nil in Hin); [|done|].
  - apply list_elem_of_singleton in Hin as ->. exists i, addr, n, b, c, st. do 6 (split; [done|]). done.
  - apply leaf_in_branch in Hin as (j & t & Hj & Hin). by eapply IH.
Qed.
Lemma slot_leaf owner w t l : wf keccak256 (InStorage owner) w t → l ∈ leaves t →
  ∃ i pos v, l = LStorage i owner pos v ∧ in_u256 pos ∧ in_u256 v.
Proof.
  intros Hw. remember (InStorage owner) as k eqn:Ek.
  induction Hw as [| | | |w i addr n b c st ? ? ? ? Hp Hst IH ?|w i ow p v ? ? Hp|k w kids Hl Hlw Hk IH];
    intros Hin; subst; try (by apply not_elem_of_nil in Hin); [done| |].
  - injection Ek as ->. apply list_elem_of_singleton in Hin as ->. by exists i, p, v.
  - apply leaf_in_branch in Hin as (j & t & Hj & Hin). by eapply IH.
Qed.

Lemma storage_no_accts owner w t : wf keccak256 (InStorage owner) w t → ∀ i, i ∉ ids lf_accts t.
Proof.
  intros Hw. remember (InStorage owner) as k eqn:Ek.
  induction Hw as [| | | |w i addr n b c st ? ? ? ? Hp Hst IH ?|w i ow p v ? ? Hp|k w kids Hl Hlw Hk IH]; intros i' Hin; subst;
    try (by apply not_elem_of_nil in Hin); [done|].
  apply ids_branch in Hin as (j & t & Hj & Hin). by eapply IH.
Qed.
Lemma acct_id_leaf w t i : wf keccak256 InState w t → i ∈ ids lf_accts t → ∃ addr n b c st, LAccount i addr n b c st ∈ leaves t.
Proof.
  intros Hw. remember InState as k eqn:Ek. induction Hw as [| | | |w i0 addr n b c st ? ? ? ? Hp Hst IH ?|w i0 ow p v ? ? Hp|k w kids Hl Hlw Hk IH];
    intros Hin; subst; try (by apply not_elem_of_nil in Hin).
  - change (ids lf_accts (TKey (LAccount i0 addr n b c st))) with (i0 :: ids lf_accts st) in Hin. apply elem_of_cons in Hin as [->|Hin].
    + exists addr, n, b, c, st. by apply list_elem_of_singleton.
    + by apply (storage_no_accts _ _ _ Hst) in Hin.
  - apply ids_branch in Hin as (j & t & Hj & Hin). destruct (IH j t Hj eq_refl Hin) as (addr & n & b & c & st & H).
    exists addr, n, b, c, st. apply leaf_in_branch. eauto.
Qed.
Lemma slot_id_leaf owner w t i : wf keccak256 (InStorage owner) w t → i ∈ ids lf_slots t → ∃ pos v, LStorage i owner pos v ∈ leaves t.
Proof.
  intros Hw. remember (InStorage owner) as k eqn:Ek.
  induction Hw as [| | | |w i0 addr n b c st ? ? ? ? Hp Hst IH ?|w i0 ow p v ? ? Hp|k w kids Hl Hlw Hk IH]; intros Hin; subst;
    try (by apply not_elem_of_nil in Hin); [done| |].
  - injection Ek as ->. change (ids lf_slots (TKey (LStorage i0 owner p v))) with [i0] in Hin. apply list_elem_of_singleton in Hin as ->.
    exists p, v. by apply list_elem_of_singleton.
  - apply ids_branch in Hin as (j & t & Hj & Hin). destruct (IH j t Hj eq_refl Hin) as (pos & v & H).
    exists pos, v. apply leaf_in_branch. eauto.
Qed.
Lemma slot_id_account w t i : wf keccak256 InState w t → i ∈ ids lf_slots t →
  ∃ i0 addr n b c st pos v, LAccount i0 addr n b c st ∈ leaves t ∧ LStorage i addr pos v ∈ leaves st.
Proof.
  intros Hw. remember InState as k eqn:Ek. induction Hw as [| | | |w i0 addr n b c st ? ? ? ? Hp Hst IH ?|w i0 ow p v ? ? Hp|k w kids Hl Hlw Hk IH];
    intros Hin; subst; try (by apply not_elem_of_nil in Hin); [|done|].
  - change (ids lf_slots (TKey (LAccount i0 addr n b c st))) with (ids lf_slots st) in Hin.
    destruct (slot_id_leaf _ _ _ _ Hst Hin) as (pos & v & H'). exists i0, addr, n, b, c, st, pos, v. split; [by apply list_elem_of_singleton|done].
  - apply ids_branch in Hin as (j & t & Hj & Hin). destruct (IH j t Hj eq_refl Hin) as (i0 & addr & n & b & c & st & pos & v & H1 & H2).
    exists i0, addr, n, b, c, st, pos, v. split; [apply leaf_in_branch; eauto|done].
Qed.

(** ** Trees and tables *)

Section All.
Context {L : Type} (P : L → Prop).
Fixpoint tall (t : tree L) : Prop :=
  match t with
  | TKey l => P l
  | TBranch kids => foldr (λ t acc, tall t ∧ acc) True kids
  | _ => True
  end.
Lemma tall_kids kids : tall (TBranch kids) ↔ ∀ j t, kids !! j = Some t → tall t.
Proof.
  change (tall (TBranch kids)) with (foldr (λ t acc, tall t ∧ acc) True kids). induction kids as [|t kids IH]; [by split|]. cbn [foldr]. rewrite IH. split.
  - intros [Ht Hk] [|j] t' E; [by injection E as <-|by eapply Hk].
  - intros H. split; [by apply (H 0%nat)|]. intros j. apply (H (S j)).
Qed.
End All.

(** The leaves are the rows they name. *)
Fixpoint lf_rows (a : Accounts.Accounts) (s : Storages.Storages) (l : lf) : Prop :=
  match l with
  | LAccount i addr n b c st =>
      (∃ row, Accounts.rows a !! i = Some row ∧ let r := Accounts.record row in
         Accounts.view_address r = addr ∧ Accounts.view_nonce r = n ∧ Accounts.view_balance r = b ∧ Accounts.view_code_hash r = c) ∧
      tall (lf_rows a s) st
  | LStorage i owner pos v =>
      ∃ row, Storages.rows s !! i = Some row ∧ let r := Storages.record row in
        Storages.view_address r = owner ∧ Storages.view_position r = pos ∧ Storages.view_value r = v
  end.

Lemma tall_leaf (P : lf → Prop) t l : tall P t → l ∈ leaves t → P l.
Proof.
  induction t as [| | | |l0|kids IH] using (tree_all (L := lf)); intros Ht Hl; try (by apply not_elem_of_nil in Hl).
  - by apply list_elem_of_singleton in Hl as ->.
  - apply leaf_in_branch in Hl as (j & t & Hj & Hl). eapply Forall_lookup in IH; [|exact Hj]. apply IH; [|done]. by eapply tall_kids.
Qed.
Lemma tall_nest (P : lf → Prop) ns t : Forall is_nibble ns → tall P t → tall P (nest ns t).
Proof.
  induction 1 as [|j ns Hj _ IH]; intros Ht; [done|]. cbn [nest foldr]. apply tall_kids. intros i t' Hi.
  apply list_lookup_insert_Some in Hi as [(_ & <- & _)|[_ [-> _]%lookup_replicate]]; [by apply IH|done].
Qed.
Lemma solid_kids (kids : list (tree lf)) : (∀ j t, kids !! j = Some t → w_solid t = true) → w_solid (TBranch kids) = true.
Proof.
  intros H. unfold w_solid. cbn [solid]. apply forallb_forall. intros t Ht%list_elem_of_In. apply list_elem_of_lookup in Ht as [j Hj]. by eapply H.
Qed.
Lemma solid_nest ns t : Forall is_nibble ns → w_solid t = true → w_solid (nest ns t) = true.
Proof.
  induction 1 as [|j ns Hj _ IH]; intros Ht; [done|]. cbn [nest foldr]. apply solid_kids. intros i t' Hi.
  apply list_lookup_insert_Some in Hi as [(_ & <- & _)|[_ [-> _]%lookup_replicate]]; [by apply IH|done].
Qed.

(** No extension of the witness has an empty path. *)
Definition no_empty_ext (l : list Node.NodeR) : Prop :=
  Forall (λ r, match r with Node.ExtR p _ => plen p ≠ 0 | _ => True end) l.

Lemma tree_rows Q n G N : ginv keccak256 Q n G → no_empty_ext (aux n) → ∀ k w c t, (w_height t ≤ N)%nat →
  at_node n G k w c t → w_solid t = true ∧ tall (lf_rows (accounts n) (storages n)) t.
Proof.
  intros HG Hext. induction N as [|N IH]; intros k w c t HN Ha; [pose proof (height_pos t); lia|].
  unfold at_node in Ha. destruct (Node.child_type c) eqn:Ec.
  - by subst.
  - destruct (gi_branch _ _ _ _ HG _ _ Ha) as [Hw (bn & kids & _ & Et & Hl & Hat & _)]. unfold entry_wf in Hw. cbn [e_kind e_walk e_tree] in *. subst t.
    inversion Hw as [| | | | | |? ? ? Hlk _ _]; subst.
    assert (Hkid : ∀ j t, kids !! j = Some t → w_solid t = true ∧ tall (lf_rows (accounts n) (storages n)) t).
    { intros j t Hj. destruct (lookup_lt_is_Some_2 (children bn) j) as [cj Hcj]; [rewrite Hl, <- Hlk; by eapply lookup_lt_Some|].
      destruct (Hat j cj Hcj) as (t' & Ht' & Hat'). rewrite Hj in Ht'. injection Ht' as <-.
      pose proof (kid_height kids t ltac:(by eapply list_elem_of_lookup_2)). eapply IH; [lia|exact Hat']. }
    split; [apply solid_kids|apply tall_kids]; intros j t Hj; by destruct (Hkid j t Hj).
  - destruct (gi_account _ _ _ _ HG _ _ Ha) as [_ (row & st & Hrow & Et & _ & Hst & _)]. cbn [e_kind e_walk e_tree] in *. cbv zeta in *. subst t.
    destruct (IH _ _ _ st ltac:(unfold w_height in *; cbn in HN; lia) Hst) as [Hs Ht]. split; [exact Hs|].
    cbn [tall lf_rows]. split; [by exists row|done].
  - destruct (gi_slot _ _ _ _ HG _ _ Ha) as [_ (row & Hrow & Et & _)]. cbn [e_kind e_walk e_tree] in *. subst t. split; [done|]. cbn [tall lf_rows]. by exists row.
  - by destruct Ha as (h & _ & ->).
  - destruct Ha as (p & h & Hp & Hpw & ->). split; [|done]. unfold w_solid. cbn [solid]. unfold no_empty_ext in Hext. eapply Forall_lookup in Hext; [|exact Hp]. cbn in Hext.
    rewrite length_pnibbles. destruct Hpw as (_ & _ & ? & _). destruct (Nat.eqb_spec (Z.to_nat (plen p)) 0); [lia|done].
  - by destruct Ha as (p & v & _ & _ & ->).
  - by destruct Ha as (hb & _ & ->).
  - destruct (gi_chain _ _ _ _ HG _ _ Ha) as [_ (ch & _ & (t0 & Hp & Hne & Et & _ & Hat & _))]. cbn [e_kind e_walk e_tree] in *. subst t.
    assert (Hns : Forall is_nibble (pnibbles (prefix ch))) by (by apply pnibbles_range). pose proof (height_nest _ t0 Hns Hne).
    destruct (IH _ _ _ t0 ltac:(lia) Hat) as [Hs Ht]. split; [by apply solid_nest|by apply tall_nest].
Qed.

(** The witness tree, read off the arrays and tables. *)
Fixpoint tree_at (N : nat) (n : Nodes) (c : Node.Child) : tree lf :=
  match N with
  | O => TEmpty
  | S N =>
      let i := Z.to_nat (Node.child_idx c) in
      match Node.child_type c with
      | Node.NT_Empty => TEmpty
      | Node.NT_Hash | Node.NT_ExtensionHash | Node.NT_PhantomLeaf =>
          match aux n !! i with
          | Some (Node.HashR h) => THash h
          | Some (Node.ExtR p h) => TExt (pnibbles p) h
          | Some (Node.PhantomLeafR p v) => TPhantom (pnibbles p) v
          | _ => TEmpty
          end
      | Node.NT_PoolHash => match pool_hash (stream n) (Node.child_idx c) with Ok hb => THash (be_val hb) | Fatal _ => TEmpty end
      | Node.NT_Branch => match branch_nodes n !! i with Some bn => TBranch (map (tree_at N n) (children bn)) | None => TEmpty end
      | Node.NT_Chain => match chains n !! i with Some ch => nest (pnibbles (prefix ch)) (tree_at N n (ch_child ch)) | None => TEmpty end
      | Node.NT_Account =>
          match Accounts.rows (accounts n) !! i with
          | Some row =>
              let r := Accounts.record row in
              TKey (LAccount i (Accounts.view_address r) (Accounts.view_nonce r) (Accounts.view_balance r) (Accounts.view_code_hash r)
                (tree_at N n (Accounts.storage_root (Accounts.leaf row))))
          | None => TEmpty
          end
      | Node.NT_Storage =>
          match Storages.rows (storages n) !! i with
          | Some row =>
              let r := Storages.record row in TKey (LStorage i (Storages.view_address r) (Storages.view_position r) (Storages.view_value r))
          | None => TEmpty
          end
      end
  end.
(** Two tries of 64 levels: [height_state]. *)
Definition witness_tree (sr : StateRoot) (a : Accounts.Accounts) (s : Storages.Storages) : tree lf := tree_at 130 (view sr a s) (root_ sr).

Lemma tree_at_node Q n G N : ginv keccak256 Q n G → ∀ k w c t, (w_height t ≤ N)%nat → at_node n G k w c t → tree_at N n c = t.
Proof.
  intros HG. induction N as [|N IH]; intros k w c t HN Ha; [pose proof (height_pos t); lia|].
  unfold at_node in Ha. cbn [tree_at]. cbv zeta. destruct (Node.child_type c) eqn:Ec.
  - by subst.
  - destruct (gi_branch _ _ _ _ HG _ _ Ha) as [Hw (bn & kids & -> & Et & Hl & Hat & _)]. unfold entry_wf in Hw. cbn [e_kind e_walk e_tree] in *. subst t.
    inversion Hw as [| | | | | |? ? ? Hlk _ _]; subst. f_equal. apply list_eq_same_length with (n := 16%nat); [done|by rewrite length_map|].
    intros j t t' Hj Ht Ht'. change (map ?f ?l) with (f <$> l) in Ht. rewrite list_lookup_fmap in Ht. destruct (children bn !! j) as [cj|] eqn:Ecj; [|done].
    injection Ht as <-. destruct (Hat j cj Ecj) as (t0 & Ht0 & Hat0). rewrite Ht' in Ht0. injection Ht0 as <-.
    pose proof (kid_height kids t' ltac:(by eapply list_elem_of_lookup_2)). eapply IH; [lia|exact Hat0].
  - destruct (gi_account _ _ _ _ HG _ _ Ha) as [_ (row & st & -> & Et & _ & Hst & _)]. cbn [e_kind e_walk e_tree] in *. cbv zeta in *. subst t.
    do 2 f_equal. eapply IH; [unfold w_height in *; cbn in HN; lia|exact Hst].
  - destruct (gi_slot _ _ _ _ HG _ _ Ha) as [_ (row & -> & Et & _)]. cbn [e_kind e_walk e_tree] in *. by subst t.
  - by destruct Ha as (h & -> & ->).
  - by destruct Ha as (p & h & -> & _ & ->).
  - by destruct Ha as (p & v & -> & _ & ->).
  - by destruct Ha as (hb & -> & ->).
  - destruct (gi_chain _ _ _ _ HG _ _ Ha) as [_ (ch & -> & (t0 & Hp & Hne & Et & _ & Hat & _))]. cbn [e_kind e_walk e_tree] in *. subst t.
    assert (Hns : Forall is_nibble (pnibbles (prefix ch))) by (by apply pnibbles_range). pose proof (height_nest _ t0 Hns Hne).
    f_equal. eapply IH; [lia|exact Hat].
Qed.

Lemma witness_tree_at Q sr a s G t :
  wf keccak256 InState [] t → ginv keccak256 Q (view sr a s) G → at_node (view sr a s) G InState [] (root_ sr) t → witness_tree sr a s = t.
Proof. intros Hw HG Hat. eapply tree_at_node; [exact HG| |exact Hat]. exact (height_state keccak256 [] t Hw ltac:(cbn; lia)). Qed.

(** ** Reading the fields of an account off its encoding *)

Lemma list_eq_4 {A} (a b c d a' b' c' d' : A) : [a; b; c; d] = [a'; b'; c'; d'] → a = a' ∧ b = b' ∧ c = c' ∧ d = d'.
Proof. by intros [= -> -> -> ->]. Qed.
Lemma account_rlp_inj n b sr c n' b' sr' c' :
  in_u64 n → in_u256 b → in_u256 sr → in_u256 c → in_u64 n' → in_u256 b' → in_u256 sr' → in_u256 c' →
  account_rlp n b sr c = account_rlp n' b' sr' c' → n = n' ∧ b = b' ∧ sr = sr' ∧ c = c'.
Proof.
  intros ? ? ? ? ? ? ? ? E. apply account_rlp_items in E; [|done..].
  apply list_eq_4 in E as (E0 & E1 & E2 & E3).
  split_and!; [by apply encode_u64_inj|by apply encode_u256_inj|by apply encode_hash_inj|by apply encode_hash_inj].
Qed.

Lemma kEmpty_range : in_u256 Node.kEmptyTrieRoot.
Proof. rewrite <- keccak_empty. apply keccak_range. Qed.
Lemma trie_root_range I : in_u256 (trie_root I).
Proof. destruct I; [apply kEmpty_range|apply keccak_range]. Qed.
Lemma old_root_range k t : wf keccak256 k [] t → w_solid t = true → in_u256 (root_of keccak256 (w_old keccak256 0 t)).
Proof.
  intros Hw Hs. pose proof (old_ok keccak256 keccak_range k [] t Hw ltac:(cbn; lia) Hs) as Hok. cbn [length] in Hok.
  destruct (w_old keccak256 0 t); cbn [root_of]; [apply kEmpty_range|done|apply keccak_range|apply keccak_range].
Qed.

(** ** What the witness says of the world *)

Definition leaf_agrees (W : world) (l : lf) : Prop :=
  match l with
  | LAccount _ _ n b c st =>
      match W !! lkey l with
      | None => Node.is_empty_account n b c = true
      | Some a => Node.is_empty_account n b c = false ∧ a_nonce a = n ∧ a_balance a = b ∧ a_code a = c
      end ∧ sound_root st (slot_pairs (slots_of W (lkey l)))
  | _ => False
  end.

Lemma solid_leaf t l : w_solid t = true → l ∈ leaves t → lf_solid l = true.
Proof.
  induction t as [| | | |l0|kids IH] using (tree_all (L := lf)); intros Ht Hl; try (by apply not_elem_of_nil in Hl).
  - by apply list_elem_of_singleton in Hl as ->.
  - apply leaf_in_branch in Hl as (j & t & Hj & Hl). eapply Forall_lookup in IH; [|exact Hj]. apply IH; [|done].
    eapply kid_solid; [exact Ht|by eapply list_elem_of_lookup_2].
Qed.

Lemma leaf_inner d t l : l ∈ leaves t → leaf_nodes keccak256 l ⊆ w_inner keccak256 d t.
Proof.
  revert d. induction t as [| | | |l0|kids IH] using (tree_all (L := lf)); intros d Hl; try (by apply not_elem_of_nil in Hl).
  - by apply list_elem_of_singleton in Hl as ->.
  - apply leaf_in_branch in Hl as (j & t & Hj & Hl). eapply Forall_lookup in IH; [|exact Hj]. etrans; [by apply (IH (S d))|by eapply inner_kid].
Qed.
Lemma leaf_w_nodes t l i addr n b c st : l ∈ leaves t → l = LAccount i addr n b c st → w_nodes st ⊆ w_nodes t.
Proof. intros Hl ->. apply (leaf_inner 0) in Hl. etrans; [exact Hl|by apply list_subseteq_cons, list_subseteq_app_r]. Qed.
Lemma leaf_world t W l :
  wf keccak256 InState [] t → w_solid t = true → world_ok W → collision_free (w_nodes t) (world_nodes W) →
  sound_root t (acct_pairs W) → l ∈ leaves t → leaf_agrees W l.
Proof.
  intros Hw Hs HW Hcf Hsr Hl. destruct (state_leaf [] t l Hw Hl) as (i & addr & n & b & c & st & El & Hwst & _ & Hn & Hb & Hc & He).
  pose proof (solid_leaf t l Hs Hl) as Hsl. rewrite El in Hsl. change (lf_solid (LAccount i addr n b c st)) with (w_solid st) in Hsl.
  pose proof (λ v, root_leaf InState t (acct_pairs W) l v Hw Hsr Hl) as Hv.
  assert (Hlvo : lvo keccak256 l = account_value n b (root_of keccak256 (w_old keccak256 0 st)) c) by (by rewrite El).
  rewrite Hlvo in Hv. unfold account_value in Hv. set (sr := root_of keccak256 (w_old keccak256 0 st)) in *.
  assert (Hsrr : in_u256 sr) by (by eapply old_root_range).
  assert (Hgo : ∀ S, storage_ok S → S = slots_of W (lkey l) → sr = storage_root S →
    match W !! lkey l with
    | None => Node.is_empty_account n b c = true
    | Some a => Node.is_empty_account n b c = false ∧ a_nonce a = n ∧ a_balance a = b ∧ a_code a = c
    end → leaf_agrees W l).
  { intros S HS ES Er Hm.
    assert (Hst : sound_root st (slot_pairs S)).
    { eapply old_root_sound; [exact Hwst|done|by apply slots_content| |done]. eapply collision_free_sub; [exact Hcf|by eapply leaf_w_nodes|].
      rewrite ES. apply storage_nodes. }
    rewrite El in Hm, ES |- *. cbn [leaf_agrees]. split; [exact Hm|]. by rewrite <- ES. }
  destruct (Node.is_empty_account n b c) eqn:Ee.
  - assert (Hno : W !! lkey l = None).
    { destruct (W !! lkey l) as [a|] eqn:Ea; [|done]. assert (Hin : (lkey l, acct_rlp a) ∈ acct_pairs W) by (apply in_accts; eauto).
      by apply Hv in Hin. }
    apply (Hgo ∅); [apply map_Forall_empty|unfold slots_of; by rewrite Hno|by rewrite (He eq_refl)|by rewrite Hno].
  - assert (Hin : (lkey l, account_rlp n b sr c) ∈ acct_pairs W) by (by apply Hv). apply in_accts in Hin as (a & Ea & Erlp).
    destruct (HW _ _ Ea) as [_ (Ha1 & Ha2 & Ha3 & Ha4)]. unfold acct_rlp in Erlp.
    apply account_rlp_inj in Erlp as (E1 & E2 & E3 & E4); [|done|done|done|done|done|done|apply trie_root_range|done].
    apply (Hgo (a_slots a)); [done|unfold slots_of; by rewrite Ea|done|by rewrite Ea, <- E1, <- E2, <- E4].
Qed.

(** Every account and slot the witness shows. *)
Lemma world_sound t W :
  wf keccak256 InState [] t → w_solid t = true → world_ok W → collision_free (w_nodes t) (world_nodes W) →
  root_of keccak256 (w_old keccak256 0 t) = world_root W → sound_root t (acct_pairs W) ∧ ∀ l, l ∈ leaves t → leaf_agrees W l.
Proof.
  intros Hw Hs HW Hcf E. assert (Hsr : sound_root t (acct_pairs W)).
  { eapply old_root_sound; [exact Hw|done|by apply accts_content| |done]. eapply collision_free_sub; [exact Hcf|done|apply state_nodes]. }
  split; [done|]. intros l Hl. by apply (leaf_world t).
Qed.

(** ** The world after the block *)

Section Put.
Context {A B : Type} (key : A → list Z) (val : A → option B).
Definition put_all (l : list A) (M : gmap (list Z) B) : gmap (list Z) B := foldr (λ x M, partial_alter (λ _, val x) (key x) M) M l.
Lemma put_all_other l M k : (∀ x, x ∈ l → key x ≠ k) → put_all l M !! k = M !! k.
Proof.
  induction l as [|x l IH]; intros H; [done|]. cbn. rewrite lookup_partial_alter_ne by (apply H; by left). apply IH. intros y Hy. apply H. by right.
Qed.
Lemma put_all_key l M x : (∀ y, y ∈ l → key y = key x → val y = val x) → x ∈ l → put_all l M !! key x = val x.
Proof.
  induction l as [|y l IH]; intros H Hx; [by apply not_elem_of_nil in Hx|]. cbn. destruct (decide (key y = key x)) as [E|E].
  - rewrite E, lookup_partial_alter_eq. apply H; [by left|done].
  - rewrite lookup_partial_alter_ne by done. apply elem_of_cons in Hx as [->|Hx]; [done|]. apply IH; [|done]. intros z Hz. apply H. by right.
Qed.
Lemma put_all_Forall (P : list Z → B → Prop) l M :
  (∀ x v, x ∈ l → val x = Some v → P (key x) v) → map_Forall P M → map_Forall P (put_all l M).
Proof.
  intros H HM. induction l as [|x l IH]; [done|]. cbn. intros k v E. destruct (decide (key x = k)) as [<-|Hk].
  - rewrite lookup_partial_alter_eq in E. apply H; [by left|done].
  - rewrite lookup_partial_alter_ne in E by done. apply (IH (λ y u Hy, H y u ltac:(by right)) k v E).
Qed.
End Put.

Definition addr_key (addr : Z) : list Z := hash_nibbles (keccak256 (be_bytes 20 addr)).
Definition pos_key (pos : Z) : list Z := hash_nibbles (keccak256 (be_bytes 32 pos)).

(** The slots of [addr] with the current values of its rows. *)
Definition post_slot (r : Storages.Row) : option Z := let v := Storages.row_value r in if v =? 0 then None else Some v.
Definition post_storage (s : Storages.Storages) (addr : Z) (S : gmap (list Z) Z) : gmap (list Z) Z :=
  put_all (λ r, pos_key (Storages.view_position (Storages.record r))) post_slot
    (List.filter (λ r, Storages.view_address (Storages.record r) =? addr) (Storages.rows s)) S.
(** The world with the current values of the account rows: an empty account is absent. *)
Definition post_acct (s : Storages.Storages) (W : world) (r : Accounts.Row) : option acct :=
  let '(n, b, c) := row_fields r in
  let addr := Accounts.view_address (Accounts.record r) in
  if Node.is_empty_account n b c then None else Some (mkAcct n b c (post_storage s addr (slots_of W (addr_key addr)))).
Definition post_world (a : Accounts.Accounts) (s : Storages.Storages) (W : world) : world :=
  put_all (λ r, addr_key (Accounts.view_address (Accounts.record r))) (post_acct s W) (Accounts.rows a) W.

Section Post.
Context (a : Accounts.Accounts) (s : Storages.Storages) (t : tree lf) (W : world).
Context (Hw : wf keccak256 InState [] t) (Hrows : tall (lf_rows a s) t).
Context (Hacc : ∀ i, (i < length (Accounts.rows a))%nat → i ∈ ids lf_accts t).
Context (Hslot : ∀ i, (i < length (Storages.rows s))%nat → i ∈ ids lf_slots t).
Let V := table_values a s.

Lemma acct_row i addr n b c st : LAccount i addr n b c st ∈ leaves t →
  ∃ row, Accounts.rows a !! i = Some row ∧ Accounts.view_address (Accounts.record row) = addr ∧ tall (lf_rows a s) st ∧
    cur_account V i = row_fields row.
Proof.
  intros Hl. destruct (tall_leaf _ t _ Hrows Hl) as [(row & Hrow & <- & _) Hst]. exists row. split_and!; [done|done|done|]. cbn. by rewrite Hrow.
Qed.
Lemma row_acct i row : Accounts.rows a !! i = Some row → ∃ n b c st, LAccount i (Accounts.view_address (Accounts.record row)) n b c st ∈ leaves t.
Proof.
  intros Hrow. destruct (acct_id_leaf [] t i Hw) as (addr & n & b & c & st & Hl); [apply Hacc; by eapply lookup_lt_Some|].
  destruct (acct_row _ _ _ _ _ _ Hl) as (row' & Hrow' & <- & _). rewrite Hrow in Hrow'. injection Hrow' as <-. eauto.
Qed.
Lemma row_slot j row : Storages.rows s !! j = Some row → ∃ i n b c st v,
  LAccount i (Storages.view_address (Storages.record row)) n b c st ∈ leaves t ∧
  LStorage j (Storages.view_address (Storages.record row)) (Storages.view_position (Storages.record row)) v ∈ leaves st.
Proof.
  intros Hrow. destruct (slot_id_account [] t j Hw) as (i & addr & n & b & c & st & pos & v & Hl & Hl'); [apply Hslot; by eapply lookup_lt_Some|].
  destruct (acct_row _ _ _ _ _ _ Hl) as (_ & _ & _ & Hst & _). destruct (tall_leaf _ st _ Hst Hl') as (row' & Hrow' & <- & <- & _).
  rewrite Hrow in Hrow'. injection Hrow' as <-. by exists i, n, b, c, st, v.
Qed.

Lemma acct_leaf_inj i i' addr addr' n n' b b' c c' st st' :
  LAccount i addr n b c st ∈ leaves t → LAccount i' addr' n' b' c' st' ∈ leaves t → addr_key addr = addr_key addr' →
  i = i' ∧ addr = addr' ∧ st = st'.
Proof.
  intros Hl Hl' E. pose proof (leaf_unique InState [] t _ _ Hw Hl Hl' E) as El. injection El as -> -> _ _ _ ->. done.
Qed.

Section Storage.
Context (i : nat) (addr n b c : Z) (st : tree lf) (S : gmap (list Z) Z).
Context (Hl : LAccount i addr n b c st ∈ leaves t) (Hwst : wf keccak256 (InStorage addr) [] st).
Let owned := List.filter (λ r, Storages.view_address (Storages.record r) =? addr) (Storages.rows s).

Lemma owned_leaf row : row ∈ owned → ∃ j v, Storages.rows s !! j = Some row ∧ LStorage j addr (Storages.view_position (Storages.record row)) v ∈ leaves st.
Proof.
  intros Hin%list_elem_of_In. apply filter_In in Hin as [Hin Ho]. apply Z.eqb_eq in Ho.
  apply list_elem_of_In, list_elem_of_lookup in Hin as [j Hj]. destruct (row_slot j row Hj) as (i' & n' & b' & c' & st' & v & Hl1 & Hl2).
  rewrite Ho in Hl1, Hl2. destruct (acct_leaf_inj _ _ _ _ _ _ _ _ _ _ _ _ Hl Hl1 eq_refl) as (_ & _ & <-). by exists j, v.
Qed.
Lemma leaf_owned j pos v : LStorage j addr pos v ∈ leaves st →
  ∃ row, Storages.rows s !! j = Some row ∧ row ∈ owned ∧ Storages.view_position (Storages.record row) = pos ∧ cur_slot V j = Storages.row_value row.
Proof.
  intros Hj. destruct (acct_row _ _ _ _ _ _ Hl) as (_ & _ & _ & Hst & _). destruct (tall_leaf _ st _ Hst Hj) as (row & Hrow & Ho & Hp & _).
  exists row. split_and!; [done| |done|cbn; by rewrite Hrow]. apply list_elem_of_In, filter_In. split; [|by apply Z.eqb_eq].
  by eapply list_elem_of_In, list_elem_of_lookup_2.
Qed.

Lemma storage_key j pos v : LStorage j addr pos v ∈ leaves st →
  post_storage s addr S !! pos_key pos = (if cur_slot V j =? 0 then None else Some (cur_slot V j)).
Proof.
  intros Hj. destruct (leaf_owned j pos v Hj) as (row & Hrow & Hin & <- & Hv). unfold post_storage.
  etrans; [apply (put_all_key (λ r, pos_key (Storages.view_position (Storages.record r))) post_slot owned S row); [|exact Hin]|].
  - intros y (j' & v' & Hrow' & Hj')%owned_leaf E. pose proof (leaf_unique _ _ _ _ _ Hwst Hj' Hj E) as El. injection El as -> _ _. congruence.
  - unfold post_slot. by rewrite Hv.
Qed.
Lemma storage_other p : (∀ l, l ∈ leaves st → p ≠ lkey l) → post_storage s addr S !! p = S !! p.
Proof. intros Hno. apply put_all_other. intros row (j & v & _ & Hj)%owned_leaf E. by apply (Hno _ Hj). Qed.

Lemma storage_upd : upd keccak256 V 0 st (slot_pairs S) (slot_pairs (post_storage s addr S)).
Proof.
  intros p v. rewrite !in_slots. destruct (decide (Exists (λ l, p = lkey l) (leaves st))) as [Hex|Hno].
  - apply Exists_exists in Hex as (l & Hin & ->). destruct (slot_leaf _ _ _ _ Hwst Hin) as (j & pos & v0 & -> & _).
    change (lkey (LStorage j addr pos v0)) with (pos_key pos). rewrite (storage_key j pos v0 Hin).
    assert (Hvn : ∀ l', l' ∈ leaves st → pos_key pos = drop 0 (lkey l') → l' = LStorage j addr pos v0).
    { intros l' Hin' E. symmetry. by eapply (leaf_unique (InStorage addr) []). }
    split.
    + intros (u & Hu & ->). left. exists (LStorage j addr pos v0). split_and!; [done|done|]. cbn [lvn]. unfold slot_value.
      destruct (cur_slot V j =? 0); [done|]. by injection Hu as <-.
    + intros [(l' & Hin' & E & Ev)|[_ Hno]]; [|by destruct (Hno _ Hin)]. rewrite (Hvn l' Hin' E) in Ev. cbn [lvn] in Ev. apply Ok_inj in Ev.
      unfold slot_value in Ev. destruct (cur_slot V j =? 0); [done|]. injection Ev as <-. eauto.
  - assert (Hno' : ∀ l, l ∈ leaves st → p ≠ lkey l) by (intros l Hin ->; apply Hno, Exists_exists; by exists l).
    rewrite (storage_other p Hno'). split.
    + intros (u & Hu & ->). right. split; [eauto|done].
    + intros [(l' & Hin' & E & _)|[H _]]; [by destruct (Hno' _ Hin')|done].
Qed.
End Storage.

(** ** Account rows and the new world *)

Context (HW : world_ok W) (Hrange : in_range a s).

Lemma hash_key_ok h : key_ok (hash_nibbles h).
Proof. split; [apply to_nibbles_range|]. unfold hash_nibbles. by rewrite length_to_nibbles, length_be_bytes. Qed.
Lemma post_storage_ok addr S : storage_ok S → storage_ok (post_storage s addr S).
Proof.
  intros HS. apply put_all_Forall; [|done]. intros row v Hin E. split; [apply hash_key_ok|].
  apply list_elem_of_In, filter_In in Hin as [Hin _]. apply list_elem_of_In, list_elem_of_lookup in Hin as [j Hj].
  pose proof (proj2 Hrange j row Hj) as Hv. unfold post_slot in E. cbv zeta in E. unfold in_u256 in Hv.
  destruct (Z.eqb_spec (Storages.row_value row) 0); [done|]. injection E as <-. lia.
Qed.
Lemma post_world_ok : world_ok (post_world a s W).
Proof.
  apply put_all_Forall; [|done]. intros row v Hin E. split; [apply hash_key_ok|].
  apply list_elem_of_lookup in Hin as [i Hi]. destruct (proj1 Hrange i row Hi) as (Hn & Hb & Hc).
  unfold post_acct, row_fields in E. destruct (Node.is_empty_account _ _ _); [done|]. injection E as <-.
  split_and!; [done|done|done|by apply post_storage_ok, slots_of_ok].
Qed.

Definition new_acct (i : nat) (addr : Z) : option acct :=
  let '(n, b, c) := cur_account V i in
  if Node.is_empty_account n b c then None else Some (mkAcct n b c (post_storage s addr (slots_of W (addr_key addr)))).
Lemma world_key i addr n b c st : LAccount i addr n b c st ∈ leaves t → post_world a s W !! addr_key addr = new_acct i addr.
Proof.
  intros Hl. destruct (acct_row _ _ _ _ _ _ Hl) as (row & Hrow & <- & _ & Hv). unfold post_world.
  etrans; [apply (put_all_key (λ r, addr_key (Accounts.view_address (Accounts.record r))) (post_acct s W) (Accounts.rows a) W row)|].
  - intros y (j & Hj)%list_elem_of_lookup E. destruct (row_acct j y Hj) as (n' & b' & c' & st' & Hl').
    destruct (acct_leaf_inj _ _ _ _ _ _ _ _ _ _ _ _ Hl' Hl E) as (-> & _ & _). congruence.
  - by eapply list_elem_of_lookup_2.
  - unfold post_acct, new_acct. by rewrite Hv.
Qed.
Lemma world_other p : (∀ l, l ∈ leaves t → p ≠ lkey l) → post_world a s W !! p = W !! p.
Proof.
  intros Hno. apply put_all_other. intros row (j & Hj)%list_elem_of_lookup E. destruct (row_acct j row Hj) as (n' & b' & c' & st' & Hl').
  by apply (Hno _ Hl').
Qed.

Lemma new_leaf_ok d t0 ρ l : w_new keccak256 V d t0 = Ok ρ → l ∈ leaves t0 → ∃ v, lvn keccak256 V l = Ok v.
Proof.
  revert d ρ. induction t0 as [| | | |l0|kids IH] using (tree_all (L := lf)); intros d ρ HE Hl; try (by apply not_elem_of_nil in Hl).
  - apply list_elem_of_singleton in Hl as ->. unfold w_new in HE. cbn [new] in HE. apply bind_Ok in HE as (v & ? & _). by exists v.
  - apply leaf_in_branch in Hl as (j & t0 & Hj & Hl). eapply Forall_lookup in IH; [|exact Hj]. rewrite new_branch in HE.
    apply bind_Ok in HE as (rs & Hrs%map_res_Ok & _). destruct (Forall2_lookup_l _ _ _ _ _ Hrs Hj) as (r & _ & Er). by eapply IH.
Qed.

Context (Hag : ∀ l, l ∈ leaves t → leaf_agrees W l) (Hspread : world_spread (post_world a s W)).

(** The value written for an account is the encoding of the new account. *)
Lemma acct_value_new i addr n b c st v : LAccount i addr n b c st ∈ leaves t →
  lvn keccak256 V (LAccount i addr n b c st) = Ok v → v = acct_rlp <$> new_acct i addr.
Proof.
  intros Hl HE. cbn [lvn] in HE. apply bind_Ok in HE as (r & Hr & HE). fold (w_new keccak256 V 0 st) in Hr.
  pose proof (world_key _ _ _ _ _ _ Hl) as Hk. unfold new_acct in *. destruct (cur_account V i) as [[n' b'] c']. apply Ok_inj in HE as <-.
  unfold account_value. destruct (Node.is_empty_account n' b' c') eqn:Ee; [done|]. cbn [fmap option_fmap option_map]. do 2 f_equal.
  unfold acct_rlp, storage_root. cbn [a_slots a_nonce a_balance a_code]. do 3 f_equal.
  destruct (state_leaf [] t _ Hw Hl) as (? & ? & ? & ? & ? & ? & E & Hwst & _). injection E as <- <- <- <- <- <-.
  destruct (Hag _ Hl) as [_ Hst].
  eapply (new_root_sound V (InStorage addr) st (slot_pairs (slots_of W (addr_key addr)))); [exact Hwst|exact Hst| | | | |exact Hr].
  - by apply slots_content, slots_of_ok.
  - by apply slots_content, post_storage_ok, slots_of_ok.
  - exact (proj2 Hspread _ _ Hk).
  - by eapply storage_upd.
Qed.

Lemma acct_upd ρ : w_new keccak256 V 0 t = Ok ρ → upd keccak256 V 0 t (acct_pairs W) (acct_pairs (post_world a s W)).
Proof.
  intros HE p v. rewrite !in_accts. destruct (decide (Exists (λ l, p = lkey l) (leaves t))) as [Hex|Hno].
  - apply Exists_exists in Hex as (l & Hin & ->). destruct (state_leaf _ _ _ Hw Hin) as (i & addr & n & b & c & st & -> & _).
    change (lkey (LAccount i addr n b c st)) with (addr_key addr). rewrite (world_key _ _ _ _ _ _ Hin).
    destruct (new_leaf_ok 0 t ρ _ HE Hin) as (u & Hu). pose proof (acct_value_new _ _ _ _ _ _ _ Hin Hu) as Eu. split.
    + intros (x & Hx & ->). left. exists (LAccount i addr n b c st). split_and!; [done|done|]. by rewrite Hu, Eu, Hx.
    + intros [(l' & Hin' & E & Ev)|[_ Hno]]; [|by destruct (Hno _ Hin)].
      assert (l' = LAccount i addr n b c st) as -> by (symmetry; by eapply (leaf_unique InState [])).
      rewrite Hu, Eu in Ev. apply Ok_inj in Ev. destruct (new_acct i addr) as [x|]; [|done]. injection Ev as <-. eauto.
  - assert (Hno' : ∀ l, l ∈ leaves t → p ≠ lkey l) by (intros l Hin ->; apply Hno, Exists_exists; by exists l).
    rewrite (world_other p Hno'). split.
    + intros (u & Hu & ->). right. split; [eauto|done].
    + intros [(l' & Hin' & E & _)|[H _]]; [by destruct (Hno' _ Hin')|done].
Qed.
Lemma new_world ρ : sound_root t (acct_pairs W) → w_new keccak256 V 0 t = Ok ρ → root_of keccak256 ρ = world_root (post_world a s W).
Proof.
  intros Hs HE. eapply (new_root_sound V InState t (acct_pairs W)); [done|done|by apply accts_content|apply accts_content, post_world_ok| | |exact HE].
  - exact (proj1 Hspread).
  - by eapply acct_upd.
Qed.
End Post.

(** ** Paths of a sound tree end within their keys *)

Lemma sound_short k w t I : wf keccak256 k w t → (length w ≤ 64)%nat → sound (length w) t I → content (64 - length w) I →
  (∀ l, l ∈ leaves t → lf_short l = true) → w_short (length w) t = true.
Proof.
  intros Hw. revert I. induction Hw as [| | | |w i addr n b c st ? ? ? ? Hp Hst IH ?|w i ow p v ? ? Hp|k w kids Hl Hlw Hk IH]; intros I Hd Hs Hc Hleaf.
  - done.
  - done.
  - inversion Hs as [| |? ? ? ? (_ & J & -> & Hf & _)| | |]; subst. destruct (content_inner _ _ _ Hc (fork_nonempty _ Hf)) as (_ & Hlen & _).
    apply Nat.leb_le. lia.
  - inversion Hs; subst. destruct (co_pair _ _ Hc _ ltac:(by left)) as (_ & Hlen & _). cbn [fst] in Hlen. apply Nat.leb_le. lia.
  - apply Hleaf. by apply list_elem_of_singleton.
  - done.
  - inversion Hs as [| | | | |? ? ? Hkid _]; subst. apply forallb_forall. intros t Ht%list_elem_of_In. apply list_elem_of_lookup in Ht as [j Hj].
    specialize (IH j t Hj (below (Z.of_nat j) I)). rewrite length_app, Nat.add_comm in IH. change (length [Z.of_nat j] + length w)%nat with (S (length w)) in IH. apply IH.
    + lia.
    + by apply Hkid.
    + apply content_below. by replace (S (64 - S (length w))) with (64 - length w)%nat by lia.
    + intros l Hin. apply Hleaf, leaf_in_branch. eauto.
Qed.
Lemma root_short k t I : wf keccak256 k [] t → sound_root t I → content 64 I → (∀ l, l ∈ leaves t → lf_short l = true) → w_short 0 t = true.
Proof. intros Hw [->|Hs] Hc Hleaf; [done|]. by apply (sound_short k [] t I); [|cbn; lia|..]. Qed.
Lemma world_short t W : wf keccak256 InState [] t → world_ok W → sound_root t (acct_pairs W) → (∀ l, l ∈ leaves t → leaf_agrees W l) →
  w_short 0 t = true.
Proof.
  intros Hw HW Hs Hag. apply (root_short InState t (acct_pairs W)); [done|done|by apply accts_content|].
  intros l Hl. destruct (state_leaf _ _ _ Hw Hl) as (i & addr & n & b & c & st & -> & Hwst & _). destruct (Hag _ Hl) as [_ Hst].
  apply (root_short (InStorage addr) st _ Hwst Hst); [by apply slots_content, slots_of_ok|].
  intros l' Hl'. by destruct (slot_leaf _ _ _ _ Hwst Hl') as (j & pos & v & -> & _).
Qed.

(** ** The tables and the roots *)

(** The block-start record of an account row, and of a storage row, in [W]. *)
Definition account_shows (W : world) (row : Accounts.Row) : Prop :=
  let r := Accounts.record row in
  match W !! addr_key (Accounts.view_address r) with
  | None => Node.is_empty_account (Accounts.view_nonce r) (Accounts.view_balance r) (Accounts.view_code_hash r) = true
  | Some x => a_nonce x = Accounts.view_nonce r ∧ a_balance x = Accounts.view_balance r ∧ a_code x = Accounts.view_code_hash r
  end.
Definition slot_shows (W : world) (row : Storages.Row) : Prop :=
  let r := Storages.record row in
  Storages.view_value r = default 0 (slots_of W (addr_key (Storages.view_address r)) !! pos_key (Storages.view_position r)).

Lemma executed_refl (x : Accounts.Accounts) (y : Storages.Storages) : executed x x y y.
Proof. split; apply Forall_Forall2_diag, Forall_true; by intros. Qed.

Section Tables.
Context (garbage : nat → bytes) (garbage_len : ∀ n, length (garbage n) = n).
Context (c : bytes) (a0 : Accounts.Accounts) (s0 : Storages.Storages) (Ha0 : Accounts.rows a0 = []) (Hs0 : Storages.rows s0 = []).
Context (sr : StateRoot) (c' : bytes) (a : Accounts.Accounts) (s : Storages.Storages).
Context (Hbuild : state_root keccak256 garbage c a0 s0 = Ok (sr, c', a, s)) (Hext : no_empty_ext (aux (view sr a s))).
Context (W : world) (HW : world_ok W) (Hroot : old_root_ sr = world_root W).
Context (Hcf : collision_free (w_nodes (witness_tree sr a s)) (world_nodes W)).

(** What a witness with the root of [W] establishes, at the tables of any later point of the block. *)
Lemma tables_world a2 s2 : executed a a2 s s2 → let t := witness_tree sr a s in wf keccak256 InState [] t ∧ sound_root t (acct_pairs W) ∧
  (∀ l, l ∈ leaves t → leaf_agrees W l) ∧ (∀ i, (i < length (Accounts.rows a2))%nat → i ∈ ids lf_accts t) ∧
  (∀ i, (i < length (Storages.rows s2))%nat → i ∈ ids lf_slots t) ∧ tall (lf_rows a2 s2) t ∧
  old_root_ sr = root_of keccak256 (w_old keccak256 0 t) ∧ (in_range a2 s2 → new_root_of keccak256 garbage sr a2 s2 t).
Proof.
  intros Hex. cbv zeta. destruct (state_root_spec keccak256 garbage garbage_len keccak_range _ _ _ _ _ _ _ Ha0 Hs0 Hbuild) as (G & t & Hw & HG & Hat & Hp & _ & Hia & His & Hold).
  pose proof (calculate_spec _ _ _ _ _ _ _ _ _ garbage_len keccak_range Hw HG Hat Hp Hex) as Hnew.
  rewrite (witness_tree_at _ _ _ _ _ _ Hw HG Hat) in Hcf |- *. apply (ginv_executed _ _ _ _ _ _ _ Hex) in HG. pose proof (Forall2_length _ _ _ (ex_accounts _ _ _ _ Hex)) as E1. pose proof (Forall2_length _ _ _ (ex_storages _ _ _ _ Hex)) as E2.
  destruct (tree_rows _ (view sr a2 s2) G (w_height t) HG) with (k := InState) (w := @nil Z) (c := root_ sr) (t := t) as [Hsol Htall].
  - unfold view in *. by destruct (arrays sr) as [[bs ax] chs].
  - lia.
  - unfold view in *. by destruct (arrays sr) as [[bs ax] chs].
  - destruct (world_sound t W Hw Hsol HW Hcf) as [Hsr Hag]; [by rewrite <- Hold|]. rewrite <- E1, <- E2. split_and!; try done.
    unfold view in Htall. by destruct (arrays sr) as [[bs ax] chs].
Qed.

(** The root of the tables is the root of the world they make of [W]. *)
Lemma root_world a2 s2 : executed a a2 s s2 → in_range a2 s2 → world_spread (post_world a2 s2 W) →
  match calculate_new_state_root keccak256 garbage sr a2 s2 with
  | Ok (r, _, _, _) => r = world_root (post_world a2 s2 W)
  | Fatal m => m = orphan_msg
  end.
Proof.
  intros Hex Hr Hsp. pose proof (tables_world a2 s2 Hex) as Htw. cbv zeta in Htw. revert Htw. generalize (witness_tree sr a s). intros t (Hw & Hsr & Hag & Hia & His & Hrows & _ & Hnew). specialize (Hnew Hr).
  unfold new_root_of in Hnew. destruct (calculate_new_state_root _ _ _ _ _) as [[[[r ?] ?] ?]|m].
  - destruct Hnew as (ρ & Eρ & ->). by eapply new_world.
  - apply Hnew. by eapply world_short.
Qed.

Lemma rows_world : Forall (account_shows W) (Accounts.rows a) ∧ Forall (slot_shows W) (Storages.rows s).
Proof.
  pose proof (tables_world a s (executed_refl a s)) as Htw. cbv zeta in Htw. revert Htw. generalize (witness_tree sr a s).
  intros t (Hw & Hsr & Hag & Hia & His & Hrows & _). split; apply Forall_lookup.
  - intros i row Hi. destruct (acct_id_leaf [] t i Hw) as (addr & n & b & cc & st & Hl); [apply Hia; by eapply lookup_lt_Some|].
    destruct (tall_leaf _ t _ Hrows Hl) as [(row' & Hi' & <- & <- & <- & <-) _]. rewrite Hi in Hi'. injection Hi' as <-.
    destruct (Hag _ Hl) as [Hm _]. unfold account_shows. cbv zeta. change (lkey (LAccount _ ?ad _ _ _ _)) with (addr_key ad) in Hm.
    destruct (W !! _); [by destruct Hm|done].
  - intros j row Hj. destruct (slot_id_account [] t j Hw) as (i & addr & n & b & cc & st & pos & v & Hl & Hl'); [apply His; by eapply lookup_lt_Some|].
    destruct (tall_leaf _ t _ Hrows Hl) as [_ Hst]. destruct (tall_leaf _ st _ Hst Hl') as (row' & Hj' & <- & <- & <-).
    rewrite Hj in Hj'. injection Hj' as <-. destruct (state_leaf _ _ _ Hw Hl) as (? & ? & ? & ? & ? & ? & E & Hwst & _). injection E as <- <- <- <- <- <-.
    destruct (Hag _ Hl) as [_ Hs]. change (lkey (LAccount _ ?ad _ _ _ _)) with (addr_key ad) in Hs.
    pose proof (λ v, root_leaf _ _ _ _ v Hwst Hs Hl') as Hv. unfold slot_shows. cbv zeta. set (S := slots_of W _) in *.
    change (lkey (LStorage _ _ ?p _)) with (pos_key p) in Hv. cbn [lvo] in Hv. unfold slot_value in Hv.
    destruct (slot_leaf _ _ _ _ Hwst Hl') as (? & ? & ? & E & _ & Hr). injection E as <- <- <-.
    destruct (S !! pos_key _) as [u|] eqn:Eu; cbn [default].
    + destruct (slots_of_ok W _ HW _ _ Eu) as [_ Hu]. assert (Hin : (pos_key (Storages.view_position (Storages.record row)), encode_u256 u) ∈ slot_pairs S) by (apply in_slots; eauto).
      apply Hv in Hin. destruct (_ =? 0); [done|]. injection Hin as Hin. apply encode_u256_inj in Hin; [done|done|unfold in_u256; lia].
    + destruct (Z.eqb_spec (Storages.view_value (Storages.record row)) 0) as [|Hz]; [done|].
      pose proof (proj2 (Hv _) eq_refl) as (u & Hu & _)%in_slots. by rewrite Eu in Hu.
Qed.
End Tables.

End World.
End RootWorld.
