(* ===== verification/WorldRoot.v ===== *)
(** The world-state root: the claims.  The walks of src/state_root.cpp stop; the
    tables they build are rows of a tree whose values they cache; a witness with
    the root of a world shows rows of that world; the post-block root is the root
    of the world the tables make of it.  A witness of two accounts and a storage
    slot, over a toy hash, shows that the hypotheses can hold. *)

From stdpp Require Import base numbers list strings gmap.
From S2P Require Import Prelude Rlp Writer Contracts TriePath Mpt Accounts Storages StateRoot RootSpec RootEncode RootShape RootBuild RootEval RootTrie RootSound RootWorld.

Set Default Goal Selector "!".

Module WorldRoot.
Import Rlp Writer Stream TriePath Mpt Node StateRoot RootSpec RootEncode RootShape RootBuild RootEval RootTrie RootSound RootWorld.

(** ** The building walk stops *)

Section Stops.
Context (keccak256 : bytes → Z) (garbage : nat → bytes).
Abbreviation build_node := (build_node keccak256 garbage).
Abbreviation builder := (cursor → BuildCtx → TreeKind → WalkPath → option Z → res (Child * cursor * BuildCtx)).

(** The calls a node of a trie can nest. *)
Definition nesting (kind : TreeKind) (walked : WalkPath) : nat :=
  match kind with State => 130 - length walked | Storage => 65 - length walked end.

Lemma build_children_ext (b b' : builder) kind walked :
  (∀ c x k own, b c x kind (walk_push k walked) own = b' c x kind (walk_push k walked) own) →
  ∀ rounds lo m kids c x own, build_children b rounds lo m kids c x kind walked own = build_children b' rounds lo m kids c x kind walked own.
Proof.
  intros H rounds. induction rounds as [|rounds IH]; intros lo m kids c x own; [done|]. cbn [build_children].
  destruct (m =? 0); [done|]. cbv zeta. destruct (Z.testbit _ _).
  - apply res_bind_ext. intros _. apply res_bind_ext. intros l. apply IH.
  - rewrite H. apply res_bind_ext. intros [[ch c'] x']. apply res_bind_ext. intros l. apply res_bind_ext. intros _. apply IH.
Qed.
Lemma build_branch_ext (b b' : builder) kind walked :
  ((length walked < 64)%nat → ∀ c x k own, b c x kind (walk_push k walked) own = b' c x kind (walk_push k walked) own) →
  ∀ c x own, build_branch_node keccak256 garbage b c x kind walked own = build_branch_node keccak256 garbage b' c x kind walked own.
Proof.
  intros H c x own. unfold build_branch_node. destruct (walk_max <=? _) eqn:E; [done|]. apply Z.leb_gt in E. unfold walk_max in E.
  cbn [fatal_if mbind res_bind]. apply res_bind_ext. intros [tg c']. cbv zeta. apply res_bind_ext. intros _. apply res_bind_ext. intros _.
  rewrite (build_children_ext b b'); [done|]. apply H. lia.
Qed.

Lemma build_account_ext (b b' : builder) :
  (∀ c x own, b c x Storage [] own = b' c x Storage [] own) →
  ∀ c x walked suffix, build_account_leaf keccak256 garbage b c x walked suffix = build_account_leaf keccak256 garbage b' c x walked suffix.
Proof.
  intros H c x walked suffix. unfold build_account_leaf.
  do 6 (apply res_bind_ext; intros [? ?]). do 2 (apply res_bind_ext; intros ?). apply res_bind_ext; intros [? ?]. do 2 (apply res_bind_ext; intros ?).
  by rewrite H.
Qed.

Lemma build_node_enough fuel fuel' : ∀ kind walked, (length walked ≤ 64)%nat → (nesting kind walked ≤ fuel)%nat → (nesting kind walked ≤ fuel')%nat →
  ∀ c x own, build_node fuel c x kind walked own = build_node fuel' c x kind walked own.
Proof.
  revert fuel'. induction fuel as [|fuel IH]; intros fuel' kind walked Hl Hf Hf' c x own; [destruct kind; cbn in Hf; lia|].
  destruct fuel' as [|fuel']; [destruct kind; cbn in Hf'; lia|]. cbn [StateRoot.build_node]. apply res_bind_ext. intros [v c'].
  destruct (op_of v) as [[]|]; try done.
  - unfold build_leaf_node. apply res_bind_ext. intros [suffix c1]. destruct kind; [|done]. apply build_account_ext. intros c2 x2 own2. apply IH; cbn in *; lia.
  - apply build_branch_ext. intros Hlt c1 x1 k own1. apply IH.
    + unfold walk_push. rewrite length_app. cbn. lia.
    + unfold nesting, walk_push in *. rewrite length_app. destruct kind; cbn; lia.
    + unfold nesting, walk_push in *. rewrite length_app. destruct kind; cbn; lia.
Qed.
End Stops.
(** ** A small witness *)

Ltac by_decide := match goal with |- ?P => exact (bool_decide_eq_true_1 P ltac:(vm_cast_no_check (eq_refl true))) end.

Definition toy_mix : Z := 0x9e3779b97f4a7c15f39cc0605cedc8341082276bf3a27251f86c6a11d0c18e95.
(** A 256-bit hash that sends the encoding of nothing to the root of the empty trie. *)
Definition toy_hash (b : bytes) : Z :=
  if decide (b = [Byte.x80]) then kEmptyTrieRoot else (foldl (λ a x, a * 257 + b2z x + 1) 1 b * toy_mix) mod 2 ^ 256.
Lemma toy_hash_range b : in_u256 (toy_hash b).
Proof. unfold toy_hash, in_u256. destruct (decide _); [by vm_compute|]. apply Z.mod_pos_bound. lia. Qed.
Lemma toy_empty : toy_hash [Byte.x80] = kEmptyTrieRoot.
Proof. by vm_compute. Qed.
Definition zero_fill (n : nat) : bytes := replicate n Byte.x00.
Lemma zero_fill_len n : length (zero_fill n) = n.
Proof. apply length_replicate. Qed.

(** The items of a witness section, as the input generator writes them. *)
Definition put_u64 (n : Z) : bytes := le_bytes 8 n.
Definition put_nibbles (ns : list Z) : bytes :=
  let b := pack_nibs (if Nat.even (length ns) then ns else ns ++ [0]) in
  put_u64 (Z.of_nat (length ns)) ++ b ++ zero_fill (Z.to_nat ((- len b) mod 8)).
Definition put_account (d : nat) (addr n b c : Z) (st : bytes) : bytes :=
  put_u64 3 ++ put_nibbles (drop d (addr_key toy_hash addr)) ++ be_bytes 20 addr ++ zero_fill 4 ++ be_bytes 32 b ++ put_u64 n ++
  be_bytes 32 c ++ put_u64 0 ++ put_u64 0 ++ st.
Definition put_slot (d : nat) (pos v : Z) : bytes :=
  put_u64 3 ++ put_nibbles (drop d (pos_key toy_hash pos)) ++ be_bytes 32 pos ++ be_bytes 32 v ++ put_u64 0.
Definition put_branch (ks : list Z) (items : bytes) : bytes :=
  put_u64 4 ++ put_u64 (foldr (λ k a, Z.lor (2 ^ (2 * k + 1)) a) 0 ks) ++ items.
Definition put_section (accts slots : Z) (body : bytes) : bytes :=
  put_u64 100 ++ put_u64 accts ++ put_u64 slots ++ put_u64 0 ++ body.
Definition run_section (c : bytes) : res (StateRoot * cursor * Accounts.Accounts * Storages.Storages) :=
  state_root toy_hash zero_fill c Accounts.accounts0 Storages.storages0.

(** Account 0 with slot 5 at 7, account 1: their keys start with nibbles 3 and 13. *)
Definition small_world : world :=
  {[ addr_key toy_hash 0 := mkAcct 1 1000 77 {[ pos_key toy_hash 5 := 7 ]};
     addr_key toy_hash 1 := mkAcct 0 50 kEmptyCodeHash ∅ ]}.
Definition small_section : bytes :=
  put_section 2 1 (put_branch [3; 13] (put_account 1 0 1 1000 77 (put_slot 0 5 7) ++ put_account 1 1 0 50 kEmptyCodeHash (put_u64 0))).
Definition from_ok {A} (d : A) (r : res A) : A := match r with Ok x => x | Fatal _ => d end.
Definition no_root : StateRoot := mkRoot 0 0 ([], [], []) [] [] child0.
Definition small : StateRoot * cursor * Accounts.Accounts * Storages.Storages :=
  Eval vm_compute in from_ok (no_root, [], Accounts.accounts0, Storages.storages0) (run_section small_section).
Definition small_root : StateRoot := small.1.1.1.
Definition small_accounts : Accounts.Accounts := small.1.2.
Definition small_storages : Storages.Storages := small.2.

(** Thirty units move from account 1 to account 0, and slot 5 is cleared. *)
Definition moved_accounts : Accounts.Accounts :=
  Eval vm_compute in from_ok small_accounts (a ← Accounts.set_balance 0 1030 1 small_accounts; Accounts.set_balance 1 20 1 a).
Definition moved_storages : Storages.Storages := Eval vm_compute in from_ok small_storages (Storages.set_value 0 5 0 1 small_storages).

Lemma small_roots : old_root_ small_root = world_root toy_hash small_world.
Proof. by vm_compute. Qed.
Lemma small_ext : no_empty_ext (aux (view small_root small_accounts small_storages)).
Proof. vm_compute. repeat constructor; done. Qed.
Lemma small_ok : world_ok small_world.
Proof. by_decide. Qed.
(** The nodes of the witness and those of the world are told apart. *)
Lemma small_apart : collision_free toy_hash (w_nodes toy_hash (witness_tree small_root small_accounts small_storages)) (world_nodes toy_hash small_world).
Proof. by_decide. Qed.
Lemma moved_executed : executed small_accounts moved_accounts small_storages moved_storages.
Proof. split; repeat constructor. Qed.
#[local] Instance in_u64_dec v : Decision (in_u64 v).
Proof. unfold in_u64. apply _. Defined.
#[local] Instance in_u256_dec v : Decision (in_u256 v).
Proof. unfold in_u256. apply _. Defined.
Lemma in_range_check a s :
  Forall (λ r, in_u64 (Accounts.row_nonce r) ∧ in_u256 (Accounts.row_balance r) ∧ in_u256 (Accounts.row_code_hash r)) (Accounts.rows a) →
  Forall (λ r, in_u256 (Storages.row_value r)) (Storages.rows s) → in_range a s.
Proof. intros Ha Hs. split; intros i row Hi; [by eapply Forall_lookup in Ha|by eapply Forall_lookup in Hs]. Qed.
Lemma moved_range : in_range moved_accounts moved_storages.
Proof. apply in_range_check; by_decide. Qed.
Lemma moved_spread : world_spread toy_hash (post_world toy_hash moved_accounts moved_storages small_world).
Proof. by_decide. Qed.
Lemma small_tables : state_root toy_hash zero_fill small_section Accounts.accounts0 Storages.storages0 = Ok (small_root, small.1.1.2, small_accounts, small_storages).
Proof. by vm_compute. Qed.

(** ** Rows that hold their block-start values *)

Definition untouched (a : Accounts.Accounts) (s : Storages.Storages) : Prop :=
  Forall (λ row, let r := Accounts.record row in row_fields row = (Accounts.view_nonce r, Accounts.view_balance r, Accounts.view_code_hash r)) (Accounts.rows a) ∧
  Forall (λ row, Storages.row_value row = Storages.view_value (Storages.record row)) (Storages.rows s).
Section Untouched.
Context (a : Accounts.Accounts) (s : Storages.Storages) (Hun : untouched a s).
Lemma untouched_slot i owner pos v : lf_rows a s (LStorage i owner pos v) → lch (table_values a s) (LStorage i owner pos v) = false.
Proof.
  intros (row & Hrow & _ & _ & <-). cbn [lch cur_slot table_values]. rewrite Hrow. cbn. destruct Hun as [_ Hs]. eapply Forall_lookup in Hs; [|exact Hrow].
  rewrite Hs, Z.eqb_refl. done.
Qed.
Lemma untouched_height N : ∀ t, (w_height t ≤ N)%nat → tall (lf_rows a s) t → w_changed (table_values a s) t = false.
Proof.
  induction N as [|N IH]; intros t HN Ht; [pose proof (height_pos t); lia|]. destruct t as [| | | |[i addr n b c st|i owner pos v]|kids]; try done.
  - destruct Ht as [(row & Hrow & _ & <- & <- & <-) Hst]. unfold w_changed. cbn [changed lch cur_account table_values]. rewrite Hrow. cbn [fmap option_fmap option_map default].
    destruct Hun as [Ha _]. eapply Forall_lookup in Ha; [|exact Hrow]. cbv zeta in Ha. rewrite Ha. unfold id. rewrite !Z.eqb_refl.
    apply (IH st); [unfold w_height in *; cbn in HN; lia|done].
  - by apply untouched_slot.
  - apply not_true_is_false. intros (t & Hin & Hc)%existsb_exists. apply list_elem_of_In in Hin. pose proof (kid_height kids t Hin).
    apply list_elem_of_lookup in Hin as [j Hj]. change (w_changed (table_values a s) t = true) in Hc.
    rewrite IH in Hc; [done|lia|]. by eapply tall_kids.
Qed.
Lemma untouched_tree t : tall (lf_rows a s) t → w_changed (table_values a s) t = false.
Proof. by apply (untouched_height (w_height t)). Qed.
End Untouched.

(** ** The claims *)

(** The building walk of the world-state witness never runs out of
    nesting: past the two tries of 64 nibbles that its depth guard allows, the
    bound on the nesting of its calls does not change its result, whatever the
    stream. *)
Theorem build_walk_stops keccak256 garbage fuel c x own :
  (130 ≤ fuel)%nat → build_node keccak256 garbage fuel c x State [] own = build_node keccak256 garbage levels c x State [] own.
Proof. intros Hf. apply build_node_enough; unfold nesting, levels; cbn; lia. Qed.
Lemma build_walk_stops_witness :
  build_node toy_hash zero_fill 200 (put_u64 0) (mkCtx (mkNodes Accounts.accounts0 Storages.storages0 [] [] [] []) [] 0 0 0 0 0 0 0) State [] None =
  build_node toy_hash zero_fill levels (put_u64 0) (mkCtx (mkNodes Accounts.accounts0 Storages.storages0 [] [] [] []) [] 0 0 0 0 0 0 0) State [] None.
Proof. apply (build_walk_stops toy_hash zero_fill 200). lia. Defined.

(** C15.  The incremental walk computes what reducing the whole witness tree
    from scratch computes.  When [state_root] accepts a witness, the tree its
    arrays and tables hold ([witness_tree]) is well formed, has a leaf for every
    row, and its block-start values reduce to [old_root_].  For any later values
    of the rows, a root that [calculate_new_state_root] returns, by re-evaluating
    the changed parts over its cached results, is the root the current values of
    that tree reduce to.  When it fails and the extension and phantom paths of
    the tree end within their keys ([w_short]), it fails with the unresolved
    orphan on which that reduction fails too; a longer path, which the building
    walk lets through and no witness of a world has, can make it fail where the
    reduction does not ([long_extension_fails]). *)
Theorem incremental_root keccak256 garbage c a0 s0 sr c' a s :
  (∀ n, length (garbage n) = n) → (∀ b, in_u256 (keccak256 b)) → Accounts.rows a0 = [] → Storages.rows s0 = [] →
  state_root keccak256 garbage c a0 s0 = Ok (sr, c', a, s) →
  let t := witness_tree sr a s in
  wf keccak256 InState [] t ∧ old_root_ sr = root_of keccak256 (w_old keccak256 0 t) ∧
    (∀ i, (i < length (Accounts.rows a))%nat → i ∈ ids lf_accts t) ∧ (∀ i, (i < length (Storages.rows s))%nat → i ∈ ids lf_slots t) ∧
    ∀ a2 s2, executed a a2 s s2 → in_range a2 s2 →
      match calculate_new_state_root keccak256 garbage sr a2 s2 with
      | Ok (r, _, _, _) => ∃ ρ, w_new keccak256 (table_values a2 s2) 0 t = Ok ρ ∧ r = root_of keccak256 ρ
      | Fatal m => w_short 0 t = true → m = orphan_msg ∧ w_new keccak256 (table_values a2 s2) 0 t = Fatal m
      end.
Proof.
  intros Hg Hk Ha Hs H. destruct (state_root_spec keccak256 garbage Hg Hk _ _ _ _ _ _ _ Ha Hs H) as (G & t & Hw & HG & Hat & Hp & _ & Hia & His & Hold).
  cbv zeta. rewrite (witness_tree_at keccak256 _ _ _ _ _ _ Hw HG Hat).
  split_and!; [done..|]. intros a2 s2 Hex Hr. exact (calculate_spec _ _ _ _ _ _ _ _ _ Hg Hk Hw HG Hat Hp Hex Hr).
Qed.
Lemma incremental_root_witness :
  let t := witness_tree small_root small_accounts small_storages in
  w_short 0 t = true ∧ old_root_ small_root = root_of toy_hash (w_old toy_hash 0 t) ∧
  match calculate_new_state_root toy_hash zero_fill small_root moved_accounts moved_storages with
  | Ok (r, _, _, _) => ∃ ρ, w_new toy_hash (table_values moved_accounts moved_storages) 0 t = Ok ρ ∧ r = root_of toy_hash ρ
  | Fatal m => w_short 0 t = true → m = orphan_msg ∧ w_new toy_hash (table_values moved_accounts moved_storages) 0 t = Fatal m
  end.
Proof.
  destruct (incremental_root toy_hash zero_fill small_section Accounts.accounts0 Storages.storages0 _ _ _ _ zero_fill_len toy_hash_range eq_refl eq_refl small_tables) as (_ & Ho & _ & _ & H).
  cbv zeta. split; [by vm_compute|]. split; [exact Ho|]. exact (H _ _ moved_executed moved_range).
Defined.

(** C13.  A witness cannot lie about the block-start state.  If the root of the
    witness is the root of a world (accounts and slots by the hashes of their
    addresses and positions, rooted as the Yellow Paper defines), then every
    account row [state_root] puts in the table holds the nonce, balance and code
    hash of that account in the world, empty when the world has none, and every
    storage row holds the value of its slot, zero when it has none.  keccak256 has
    to tell the nodes of this witness from the nodes of this world's tries (two
    finite lists, [w_nodes] and [world_nodes]); and no extension node of the
    witness may have an empty path. *)
Theorem witness_rows_agree keccak256 garbage c a0 s0 sr c' a s W :
  (∀ n, length (garbage n) = n) → (∀ b, in_u256 (keccak256 b)) → keccak256 [Byte.x80] = kEmptyTrieRoot →
  Accounts.rows a0 = [] → Storages.rows s0 = [] →
  state_root keccak256 garbage c a0 s0 = Ok (sr, c', a, s) → no_empty_ext (aux (view sr a s)) →
  world_ok W → old_root_ sr = world_root keccak256 W →
  collision_free keccak256 (w_nodes keccak256 (witness_tree sr a s)) (world_nodes keccak256 W) →
  Forall (account_shows keccak256 W) (Accounts.rows a) ∧ Forall (slot_shows keccak256 W) (Storages.rows s).
Proof. intros Hg Hk He Ha Hs H Hext HW E Hcf. by eapply rows_world. Qed.
Lemma witness_rows_agree_witness :
  (length (Accounts.rows small_accounts) = 2)%nat ∧ (length (Storages.rows small_storages) = 1)%nat ∧
  Forall (account_shows toy_hash small_world) (Accounts.rows small_accounts) ∧ Forall (slot_shows toy_hash small_world) (Storages.rows small_storages).
Proof.
  split; [by vm_compute|]. split; [by vm_compute|].
  exact (witness_rows_agree toy_hash zero_fill small_section Accounts.accounts0 Storages.storages0 _ _ _ _ small_world
    zero_fill_len toy_hash_range toy_empty eq_refl eq_refl small_tables small_ext small_ok small_roots small_apart).
Defined.

(** C6.  The post-block root is the root of the post-block world.  If the root
    of the witness is the root of a world, then for any values execution leaves
    in the rows, the root [calculate_new_state_root] returns is the root of that
    world with the accounts and slots of the rows set to those values (an empty
    account and a zero slot removed, everything the witness hides unchanged).
    keccak256 has to tell the nodes of this witness from the nodes of the
    block-start world's tries; no extension node of the witness may have an empty
    path ([empty_extension_breaks_root] shows why); and no two keys of the new
    tries may agree on their first 56 nibbles, as the code takes for granted when
    it treats every branch as a 32-byte reference. *)
Theorem new_root_of_world keccak256 garbage c a0 s0 sr c' a s W a2 s2 r sr' a3 s3 :
  (∀ n, length (garbage n) = n) → (∀ b, in_u256 (keccak256 b)) → keccak256 [Byte.x80] = kEmptyTrieRoot →
  Accounts.rows a0 = [] → Storages.rows s0 = [] →
  state_root keccak256 garbage c a0 s0 = Ok (sr, c', a, s) → no_empty_ext (aux (view sr a s)) →
  world_ok W → old_root_ sr = world_root keccak256 W →
  collision_free keccak256 (w_nodes keccak256 (witness_tree sr a s)) (world_nodes keccak256 W) →
  executed a a2 s s2 → in_range a2 s2 → world_spread keccak256 (post_world keccak256 a2 s2 W) →
  calculate_new_state_root keccak256 garbage sr a2 s2 = Ok (r, sr', a3, s3) →
  r = world_root keccak256 (post_world keccak256 a2 s2 W).
Proof.
  intros Hg Hk He Ha Hs H Hext HW E Hcf Hex Hr Hsp Hcalc.
  pose proof (root_world keccak256 Hk He garbage Hg c a0 s0 Ha Hs sr c' a s H Hext W HW E Hcf a2 s2 Hex Hr Hsp) as Hw. by rewrite Hcalc in Hw.
Qed.
Definition moved := Eval vm_compute in from_ok (0, no_root, Accounts.accounts0, Storages.storages0) (calculate_new_state_root toy_hash zero_fill small_root moved_accounts moved_storages).
Lemma moved_run : calculate_new_state_root toy_hash zero_fill small_root moved_accounts moved_storages = Ok (moved.1.1.1, moved.1.1.2, moved.1.2, moved.2).
Proof. by vm_compute. Qed.
Lemma new_root_of_world_witness :
  bool_decide (moved.1.1.1 = old_root_ small_root) = false ∧
  moved.1.1.1 = world_root toy_hash (post_world toy_hash moved_accounts moved_storages small_world).
Proof.
  split; [by vm_compute|].
  exact (new_root_of_world toy_hash zero_fill small_section Accounts.accounts0 Storages.storages0 _ _ _ _ small_world moved_accounts moved_storages _ _ _ _
    zero_fill_len toy_hash_range toy_empty eq_refl eq_refl small_tables small_ext small_ok small_roots small_apart moved_executed moved_range moved_spread moved_run).
Defined.

(** C39.  The only failure after the block is a missing sibling.  If the root of
    the witness is the root of a world, [calculate_new_state_root] either
    returns a root or reports an orphan that deletions left alone in a branch
    and that the witness shows only by its hash: the from-scratch reduction of the
    current values meets that orphan too.  No buffer, path or nesting bound of the
    evaluation is ever hit.  keccak256 has to tell the nodes of this witness from
    the nodes of this world's tries, and no extension node of the witness may have
    an empty path. *)
Theorem new_root_fails_only_on_orphan keccak256 garbage c a0 s0 sr c' a s W a2 s2 m :
  (∀ n, length (garbage n) = n) → (∀ b, in_u256 (keccak256 b)) → keccak256 [Byte.x80] = kEmptyTrieRoot →
  Accounts.rows a0 = [] → Storages.rows s0 = [] →
  state_root keccak256 garbage c a0 s0 = Ok (sr, c', a, s) → no_empty_ext (aux (view sr a s)) →
  world_ok W → old_root_ sr = world_root keccak256 W →
  collision_free keccak256 (w_nodes keccak256 (witness_tree sr a s)) (world_nodes keccak256 W) →
  executed a a2 s s2 → in_range a2 s2 → calculate_new_state_root keccak256 garbage sr a2 s2 = Fatal m →
  m = orphan_msg ∧ w_new keccak256 (table_values a2 s2) 0 (witness_tree sr a s) = Fatal orphan_msg.
Proof.
  intros Hg Hk He Ha Hs H Hext HW E Hcf Hex Hr Hcalc.
  pose proof (tables_world keccak256 Hk He garbage Hg c a0 s0 Ha Hs sr c' a s H Hext W HW E Hcf a2 s2 Hex) as Htw. cbv zeta in Htw.
  clear Hcf. revert Htw. generalize (witness_tree sr a s). intros t (Hw & Hsr & Hag & _ & _ & _ & _ & Hnew).
  specialize (Hnew Hr). unfold new_root_of in Hnew. rewrite Hcalc in Hnew. destruct (Hnew (world_short keccak256 t W Hw HW Hsr Hag)) as [-> Hn]. done.
Qed.

(** Account 0 is shown, account 1 only by the hash of its leaf; account 0 is emptied. *)
Definition hidden_world : world :=
  {[ addr_key toy_hash 0 := mkAcct 0 1000 kEmptyCodeHash ∅; addr_key toy_hash 1 := mkAcct 0 50 kEmptyCodeHash ∅ ]}.
Definition hidden_section : bytes :=
  put_section 1 0 (put_branch [3; 13] (put_account 1 0 0 1000 kEmptyCodeHash (put_u64 0) ++
    put_u64 1 ++ be_bytes 32 (toy_hash (T toy_hash (below 13 (acct_pairs toy_hash hidden_world)))))).
Definition hidden := Eval vm_compute in from_ok (no_root, [], Accounts.accounts0, Storages.storages0) (run_section hidden_section).
Definition emptied_accounts : Accounts.Accounts := Eval vm_compute in from_ok hidden.1.2 (Accounts.set_balance 0 0 1 hidden.1.2).
Lemma hidden_tables : state_root toy_hash zero_fill hidden_section Accounts.accounts0 Storages.storages0 = Ok (hidden.1.1.1, hidden.1.1.2, hidden.1.2, hidden.2).
Proof. by vm_compute. Qed.
Lemma hidden_ext : no_empty_ext (aux (view hidden.1.1.1 hidden.1.2 hidden.2)).
Proof. vm_compute. repeat constructor; done. Qed.
Lemma hidden_ok : world_ok hidden_world.
Proof. by_decide. Qed.
Lemma hidden_roots : old_root_ hidden.1.1.1 = world_root toy_hash hidden_world.
Proof. by vm_compute. Qed.
Lemma emptied_executed : executed hidden.1.2 emptied_accounts hidden.2 hidden.2.
Proof. split; repeat constructor. Qed.
Lemma emptied_range : in_range emptied_accounts hidden.2.
Proof. apply in_range_check; by_decide. Qed.
Lemma emptied_run : calculate_new_state_root toy_hash zero_fill hidden.1.1.1 emptied_accounts hidden.2 = Fatal orphan_msg.
Proof. by vm_compute. Qed.
Lemma hidden_apart : collision_free toy_hash (w_nodes toy_hash (witness_tree hidden.1.1.1 hidden.1.2 hidden.2)) (world_nodes toy_hash hidden_world).
Proof. by_decide. Qed.
Lemma new_root_fails_only_on_orphan_witness :
  w_new toy_hash (table_values emptied_accounts hidden.2) 0 (witness_tree hidden.1.1.1 hidden.1.2 hidden.2) = Fatal orphan_msg.
Proof.
  exact (proj2 (new_root_fails_only_on_orphan toy_hash zero_fill hidden_section Accounts.accounts0 Storages.storages0 _ _ _ _ hidden_world emptied_accounts _ _
    zero_fill_len toy_hash_range toy_empty eq_refl eq_refl hidden_tables hidden_ext hidden_ok hidden_roots hidden_apart emptied_executed emptied_range emptied_run)).
Defined.

(** A block that leaves every value as it was leaves the root as it was:
    over rows whose current values are those of their block-start records,
    [calculate_new_state_root] succeeds and returns [old_root_]. *)
Theorem untouched_root keccak256 garbage c a0 s0 sr c' a s W a2 s2 :
  (∀ n, length (garbage n) = n) → (∀ b, in_u256 (keccak256 b)) → keccak256 [Byte.x80] = kEmptyTrieRoot →
  Accounts.rows a0 = [] → Storages.rows s0 = [] →
  state_root keccak256 garbage c a0 s0 = Ok (sr, c', a, s) → no_empty_ext (aux (view sr a s)) →
  world_ok W → old_root_ sr = world_root keccak256 W →
  collision_free keccak256 (w_nodes keccak256 (witness_tree sr a s)) (world_nodes keccak256 W) →
  executed a a2 s s2 → in_range a2 s2 → untouched a2 s2 →
  ∃ sr' a3 s3, calculate_new_state_root keccak256 garbage sr a2 s2 = Ok (old_root_ sr, sr', a3, s3).
Proof.
  intros Hg Hk He Ha Hs H Hext HW E Hcf Hex Hr Hun.
  pose proof (tables_world keccak256 Hk He garbage Hg c a0 s0 Ha Hs sr c' a s H Hext W HW E Hcf a2 s2 Hex) as Htw. cbv zeta in Htw.
  clear Hcf. revert Htw. generalize (witness_tree sr a s). intros t (Hw & Hsr & Hag & _ & _ & Hrows & Hold & Hnew).
  pose proof (unchanged_new keccak256 _ _ _ t Hw (untouched_tree a2 s2 Hun t Hrows) 0) as En.
  specialize (Hnew Hr). unfold new_root_of in Hnew. destruct (calculate_new_state_root _ _ _ _ _) as [[[[r sr'] a3] s3]|m].
  - destruct Hnew as (ρ & Eρ & ->). rewrite En in Eρ. apply Ok_inj in Eρ as <-. rewrite <- Hold. by exists sr', a3, s3.
  - destruct (Hnew (world_short keccak256 t W Hw HW Hsr Hag)) as [_ Hf]. by rewrite En in Hf.
Qed.
Lemma small_range : in_range small_accounts small_storages.
Proof. apply in_range_check; by_decide. Qed.
Lemma small_untouched : untouched small_accounts small_storages.
Proof. split; by_decide. Qed.
Lemma untouched_root_witness :
  ∃ sr' a3 s3, calculate_new_state_root toy_hash zero_fill small_root small_accounts small_storages = Ok (old_root_ small_root, sr', a3, s3).
Proof.
  exact (untouched_root toy_hash zero_fill small_section Accounts.accounts0 Storages.storages0 _ _ _ _ small_world small_accounts small_storages
    zero_fill_len toy_hash_range toy_empty eq_refl eq_refl small_tables small_ext small_ok small_roots small_apart (executed_refl _ _) small_range small_untouched).
Defined.


(** ** An extension with an empty path *)

(** Accounts 0 and 21 share their first nibble, 3.  The witness shows the branch
    above them as an extension with no nibbles, next to the absent account 1. *)
Definition pair_world : world :=
  {[ addr_key toy_hash 0 := mkAcct 1 1000 77 ∅; addr_key toy_hash 21 := mkAcct 0 50 kEmptyCodeHash ∅ ]}.
Definition pair_section : bytes :=
  put_section 1 0 (put_branch [3; 13] (
    put_u64 2 ++ put_nibbles [] ++ be_bytes 32 (toy_hash (T toy_hash (below 3 (acct_pairs toy_hash pair_world)))) ++
    put_account 1 1 0 0 kEmptyCodeHash (put_u64 0))).
Definition pair_run := Eval vm_compute in from_ok (no_root, [], Accounts.accounts0, Storages.storages0) (run_section pair_section).
Definition credited_accounts : Accounts.Accounts := Eval vm_compute in from_ok pair_run.1.2 (Accounts.set_balance 1 20 1 pair_run.1.2).
Definition root_after (sr : StateRoot) (a : Accounts.Accounts) (s : Storages.Storages) : option Z :=
  match calculate_new_state_root toy_hash zero_fill sr a s with Ok (r, _, _, _) => Some r | Fatal _ => None end.
(** The witness is accepted with the root of the world, and crediting account 1
    gives a root that is not that of the resulting world. *)
Theorem empty_extension_breaks_root :
  run_section pair_section = Ok pair_run ∧
  old_root_ pair_run.1.1.1 = world_root toy_hash pair_world ∧
  ∃ r, root_after pair_run.1.1.1 credited_accounts pair_run.2 = Some r ∧
       bool_decide (r = world_root toy_hash (post_world toy_hash credited_accounts pair_run.2 pair_world)) = false.
Proof.
  split; [by vm_compute|]. split; [by vm_compute|].
  eexists. split; [by vm_compute|by vm_compute].
Qed.

(** ** An extension longer than what is left of its key *)

(** Beside account 0, at nibble 13, an extension of 64 nibbles; account 0 is emptied. *)
Definition long_section : bytes :=
  put_section 1 0 (put_branch [3; 13] (put_account 1 0 0 1000 kEmptyCodeHash (put_u64 0) ++
    put_u64 2 ++ put_nibbles (replicate 64 1) ++ be_bytes 32 5)).
Definition long_run := Eval vm_compute in from_ok (no_root, [], Accounts.accounts0, Storages.storages0) (run_section long_section).
Definition long_emptied : Accounts.Accounts := Eval vm_compute in from_ok long_run.1.2 (Accounts.set_balance 0 0 1 long_run.1.2).
(** The building walk accepts the witness; folding the branch makes a path of 65
    nibbles, which the code refuses and the reduction does not. *)
Theorem long_extension_fails :
  run_section long_section = Ok long_run ∧ w_short 0 (witness_tree long_run.1.1.1 long_run.1.2 long_run.2) = false ∧
  calculate_new_state_root toy_hash zero_fill long_run.1.1.1 long_emptied long_run.2 = Fatal "hex_prefix: path longer than 64 nibbles" ∧
  w_new toy_hash (table_values long_emptied long_run.2) 0 (witness_tree long_run.1.1.1 long_run.1.2 long_run.2) = Ok (NX (13 :: replicate 64 1) 5).
Proof. split_and!; by vm_compute. Qed.
End WorldRoot.
