(* ===== verification/Ssz.v ===== *)
(** SSZ Merkleization ([include/zeg/ssz.hpp], [src/ssz.cpp]): the level-by-level
    tree hash over a shrinking in-place buffer, the progressive trees of
    EIP-7916 and EIP-7495 and the roots of basic types and byte sequences.  A
    32-byte chunk is its big-endian value; sha256 is a parameter. *)

From stdpp Require Import base numbers list strings.
From S2P Require Import Prelude Rlp CreateAddress Mpt.

Set Default Goal Selector "!".

Module Ssz.
Import Rlp.

Create HintDb ssz discriminated.
#[local] Strategy 1000 [be_bytes be_val replicate resize].

Abbreviation Chunk := Z.

Section Ssz.
Context (sha256 : bytes → Z).

Definition kMaxDepth : nat := 64.
Definition chunk_count (n_bytes : Z) : Z := (n_bytes + 31) / 32.

(** ceil(log2 n): the loop runs while [d < 64]. *)
Fixpoint depth_from (k d : nat) (n : Z) : nat :=
  match k with
  | O => d
  | S k => if 2 ^ Z.of_nat d <? n then depth_from k (S d) n else d
  end.
Definition depth_for (n : Z) : nat := depth_from kMaxDepth 0 n.

(** The bytes in zero-padded 32-byte chunks. *)
Fixpoint pack_from (n : nat) (b : bytes) : list Chunk :=
  match n with
  | O => []
  | S n => be_val (resize 32 Byte.x00 b) :: pack_from n (drop 32 b)
  end.
Definition pack (b : bytes) : list Chunk := pack_from (Z.to_nat (chunk_count (len b))) b.

Definition hash (a b : Chunk) : Chunk := sha256 (be_bytes 32 a ++ be_bytes 32 b).

Fixpoint zero_hash (depth : nat) : Chunk :=
  match depth with
  | O => 0
  | S d => let z := zero_hash d in hash z z
  end.

(** One level, in place: [level[i] = hash(level[2i], right)] for the next [k]
    values of [i]; the odd tail of [n] nodes pairs with the zero subtree [z]. *)
Fixpoint hash_level (k i n : nat) (z : Chunk) (level : list Chunk) : res (list Chunk) :=
  match k with
  | O => Ok level
  | S k =>
      l ← vec_get level (2 * i);
      r ← (if bool_decide (2 * i + 1 < n)%nat then vec_get level (2 * i + 1) else Ok z);
      level ← vec_set level i (hash l r);
      hash_level k (S i) n z level
  end.
Definition half (n : nat) : nat := Nat.div2 (S n).
Fixpoint hash_levels (k d n : nat) (level : list Chunk) : res (list Chunk) :=
  match k with
  | O => Ok level
  | S k =>
      level ← hash_level (half n) 0 n (zero_hash d) level;
      hash_levels k (S d) (half n) level
  end.

Definition merkleize (chunks : list Chunk) (limit : Z) : res Chunk :=
  _ ← fatal_if (limit <? Z.of_nat (length chunks)) "ssz: merkleize input exceeds limit";
  let depth := depth_for limit in
  match chunks with
  | [] => Ok (zero_hash depth)
  | _ =>
      level ← hash_levels depth 0 (length chunks) chunks;
      vec_get level 0
  end.

(** The subtree roots; every round takes at least one chunk while the 64-bit
    width has not wrapped, so [length chunks] rounds are enough. *)
Fixpoint subtrees (fuel : nat) (width : Z) (chunks : list Chunk) : res (list Chunk) :=
  match chunks, fuel with
  | [], _ => Ok []
  | _, O => Fatal "merkleize_progressive does not terminate"
  | _, S fuel =>
      let n := Z.to_nat (Z.min width (Z.of_nat (length chunks))) in
      root ← merkleize (take n chunks) width;
      rest ← subtrees fuel (u64 (width * 4)) (drop n chunks);
      Ok (root :: rest)
  end.
Definition merkleize_progressive (chunks : list Chunk) : res Chunk :=
  roots ← subtrees (length chunks) 1 chunks;
  Ok (foldr hash 0 roots).

(** ** Basic types *)

Definition uint64_root (v : Z) : Chunk := be_val (le_bytes 8 v ++ replicate 24 Byte.x00).
Definition uint256_root (v : Z) : Chunk := be_val (reverse (be_bytes 32 v)).

Definition mix_in_length (root : Chunk) (length : Z) : Chunk := hash root (uint64_root length).

(** [bits.bytes[i / 8] |= 1 << (i % 8)] for every [i] below [n]. *)
Definition set_bit (bits : bytes) (i : nat) : bytes :=
  alter (λ b, z2b (Z.lor (b2z b) (Z.shiftl 1 (Z.of_nat (i mod 8))))) (i / 8)%nat bits.
Definition active_fields (n : nat) : Chunk := be_val (foldl set_bit (replicate 32 Byte.x00) (seq 0 n)).
Definition mix_in_active_fields (root : Chunk) (n_active : nat) : res Chunk :=
  _ ← fatal_if (bool_decide (n_active = 0 ∨ 256 < n_active)%nat) "ssz: bad active_fields count";
  Ok (hash root (active_fields n_active)).

(** ** Byte sequences *)

Definition byte_vector_root (b : bytes) : res Chunk := merkleize (pack b) (Z.of_nat (length (pack b))).
Definition byte_list_root (b : bytes) (max_bytes : Z) : res Chunk :=
  _ ← fatal_if (max_bytes <? len b) "ssz: byte list exceeds limit";
  r ← merkleize (pack b) (chunk_count max_bytes);
  Ok (mix_in_length r (len b)).
Definition progressive_byte_list_root (b : bytes) : res Chunk :=
  r ← merkleize_progressive (pack b);
  Ok (mix_in_length r (len b)).

(** ** The trees of the specification *)

(** The perfect binary tree of depth [d] whose leaves are [l], then zero
    subtrees of depth [e] (chunks, for [e = 0]). *)
Fixpoint tree_at (e d : nat) (l : list Chunk) : Chunk :=
  match d with
  | O => hd (zero_hash e) l
  | S d => hash (tree_at e d (take (2 ^ d) l)) (tree_at e d (drop (2 ^ d) l))
  end.
Abbreviation tree := (tree_at 0).

(** EIP-7916: a tree of [4 ^ k] leaves, then the rest from [4 ^ (k + 1)] on. *)
Fixpoint progressive (fuel k : nat) (l : list Chunk) : Chunk :=
  match l, fuel with
  | [], _ | _, O => 0
  | _, S fuel => hash (tree (2 * k) (take (4 ^ k) l)) (progressive fuel (S k) (drop (4 ^ k) l))
  end.
Definition progressive_tree (l : list Chunk) : Chunk := progressive (length l) 0 l.

(** ** Levels *)

Fixpoint pairs (z : Chunk) (l : list Chunk) : list Chunk :=
  match l with
  | a :: b :: l => hash a b :: pairs z l
  | [a] => [hash a z]
  | [] => []
  end.

Lemma pairs_ind2 (P : list Chunk → Prop) : P [] → (∀ a, P [a]) → (∀ a b l, P l → P (a :: b :: l)) → ∀ l, P l.
Proof.
  intros H0 H1 H2 l. enough (P l ∧ ∀ a, P (a :: l)) by tauto. induction l as [|b l [IH IH']]; [by split|].
  split; [apply IH'|]. intros a. by apply H2.
Qed.
Lemma length_pairs z l : length (pairs z l) = half (length l).
Proof. induction l as [| |a b l IH] using pairs_ind2; [done..|]. cbn [pairs length]. rewrite IH. done. Qed.
Lemma lookup_pairs z l i : (i < half (length l))%nat →
  pairs z l !! i = (λ a, hash a (if bool_decide (2 * i + 1 < length l)%nat then default z (l !! (2 * i + 1)%nat) else z)) <$> l !! (2 * i)%nat.
Proof.
  revert i. induction l as [|a|a b l IH] using pairs_ind2; intros i Hi; [cbn in Hi; unfold half in Hi; cbn in Hi; lia|..].
  - destruct i; [done|cbn in Hi; unfold half in Hi; cbn in Hi; lia].
  - destruct i as [|i]; [done|]. cbn [pairs length]. rewrite lookup_cons_ne_0 by lia. cbn [Nat.pred].
    replace (2 * S i)%nat with (S (S (2 * i))) by lia. cbn [lookup list_lookup]. 
    change (pairs z l !! i = (λ a0, hash a0 (if bool_decide (S (S (2 * i)) + 1 < S (S (length l)))%nat then default z ((a :: b :: l) !! (S (S (2 * i)) + 1)%nat) else z)) <$> l !! (2 * i)%nat).
    rewrite (IH i) by (cbn in Hi; unfold half in *; cbn in *; lia).
    replace (S (S (2 * i)) + 1)%nat with (S (S (2 * i + 1))) by lia.
    rewrite (bool_decide_ext (S (S (2 * i + 1)) < S (S (length l)))%nat (2 * i + 1 < length l)%nat) by lia. done.
Qed.
Lemma half_bounds n : (n ≤ 2 * half n ≤ S n)%nat.
Proof. unfold half. pose proof (Nat.div2_odd (S n)) as H. set (q := Nat.div2 (S n)) in *. clearbody q. destruct (Nat.odd (S n)); cbn [Nat.b2n] in H; lia. Qed.

(** The in-place loop reads only what it has not yet overwritten. *)
Lemma hash_level_run z l n : (n ≤ length l)%nat → ∀ k i level, (i + k = half n)%nat → length level = length l →
  (∀ j, (j < i)%nat → level !! j = pairs z (take n l) !! j) → (∀ j, (i ≤ j)%nat → level !! j = l !! j) →
  ∃ level', hash_level k i n z level = Ok level' ∧ length level' = length l ∧ ∀ j, (j < half n)%nat → level' !! j = pairs z (take n l) !! j.
Proof.
  intros Hn k. pose proof (half_bounds n) as Hh. induction k as [|k IH]; intros i level Hi Hlen Hdone Htodo; cbn [hash_level].
  { exists level. split_and!; [done|done|]. intros j Hj. apply Hdone. lia. }
  destruct (lookup_lt_is_Some_2 l (2 * i)) as [a Ha]; [lia|]. unfold vec_get. rewrite (Htodo (2 * i)%nat), Ha by lia. cbn.
  assert (Hr : (if bool_decide (2 * i + 1 < n)%nat then vec_get level (2 * i + 1) else Ok z) =
    Ok (if bool_decide (2 * i + 1 < n)%nat then default z (take n l !! (2 * i + 1)%nat) else z)).
  { case_bool_decide; [|done]. unfold vec_get. rewrite lookup_take_lt, (Htodo (2 * i + 1)%nat) by lia.
    by destruct (lookup_lt_is_Some_2 l (2 * i + 1)) as [b ->]; [lia|]. }
  unfold vec_get in Hr. cbn in Hr |- *. rewrite Hr. clear Hr. cbn. unfold vec_set.
  destruct (lookup_lt_is_Some_2 level i) as [x ->]; [lia|]. cbn.
  apply IH; [lia|by rewrite length_insert|..].
  - intros j Hj. destruct (decide (j = i)) as [->|Hne]; [|rewrite list_lookup_insert_ne by done; apply Hdone; lia].
    rewrite list_lookup_insert_eq by lia. rewrite lookup_pairs by (rewrite length_take, Nat.min_l by lia; lia).
    assert (Et : take n l !! (2 * i)%nat = Some a) by (rewrite lookup_take_lt by lia; done).
    rewrite Et, length_take, Nat.min_l by lia. done.
  - intros j Hj. rewrite list_lookup_insert_ne by lia. apply Htodo. lia.
Qed.
Lemma hash_level_pairs z l level n : take n level = l → length l = n →
  ∃ level', hash_level (half n) 0 n z level = Ok level' ∧ take (half n) level' = pairs z l ∧ length level' = length level.
Proof.
  intros <- Hl. rewrite length_take in Hl. pose proof (half_bounds n).
  destruct (hash_level_run z level n ltac:(lia) (half n) 0 level ltac:(lia) eq_refl) as (level' & H1 & H2 & H3); [lia|done|].
  exists level'. split; [done|]. split; [|done]. apply list_eq_same_length with (half n).
  - rewrite length_pairs, length_take. f_equal. lia.
  - rewrite length_take. lia.
  - intros j x y Hj. rewrite lookup_take_lt, H3 by lia. congruence.
Qed.

(** ** Trees by levels *)

Lemma pairs_take z m l : pairs z (take (2 * m) l) = take m (pairs z l).
Proof.
  revert l. induction m as [|m IH]; intros l; [done|]. replace (2 * S m)%nat with (S (S (2 * m))) by lia.
  destruct l as [|a [|b l]]; [done| |]; cbn [take pairs]; [by rewrite take_nil|]. by rewrite IH.
Qed.
Lemma pairs_drop z m l : pairs z (drop (2 * m) l) = drop m (pairs z l).
Proof.
  revert l. induction m as [|m IH]; intros l; [done|]. replace (2 * S m)%nat with (S (S (2 * m))) by lia.
  destruct l as [|a [|b l]]; [done| |]; cbn [drop pairs]; [by rewrite drop_nil|]. by rewrite IH.
Qed.
Lemma tree_pairs e d l : tree_at e (S d) l = tree_at (S e) d (pairs (zero_hash e) l).
Proof.
  revert l. induction d as [|d IH]; intros l.
  - cbn. destruct l as [|a [|b l]]; done.
  - change (tree_at e (S (S d)) l) with (hash (tree_at e (S d) (take (2 ^ S d) l)) (tree_at e (S d) (drop (2 ^ S d) l))).
    rewrite !IH, Nat.pow_succ_r', pairs_take, pairs_drop. done.
Qed.

Lemma hash_levels_tree k : ∀ d l n level, take n level = l → length l = n → l ≠ [] → (n ≤ 2 ^ k)%nat →
  ∃ level', hash_levels k d n level = Ok level' ∧ level' !! 0%nat = Some (tree_at d k l).
Proof.
  induction k as [|k IH]; intros d l n level Ht Hn Hne Hk; cbn [hash_levels].
  - destruct l as [|a [|]]; [done| |cbn in *; lia]. exists level. split; [done|]. cbn. destruct level as [|x level]; [by destruct n|].
    subst n. by injection Ht as ->.
  - destruct (hash_level_pairs (zero_hash d) l level n Ht Hn) as (level1 & -> & H2 & H3). cbn [mbind res_bind].
    rewrite tree_pairs. apply IH; [done|by rewrite length_pairs, Hn| |].
    + intros E%(f_equal length). rewrite length_pairs in E. pose proof (half_bounds (length l)). destruct l; cbn in *; [done|lia].
    + pose proof (half_bounds n). rewrite Nat.pow_succ_r' in Hk. lia.
Qed.
Lemma tree_nil e d : tree_at e d [] = zero_hash (d + e).
Proof. induction d as [|d IH]; [done|]. cbn [tree_at]. rewrite take_nil, drop_nil, IH. done. Qed.

Lemma depth_from_spec k d (n : Z) : n ≤ 2 ^ Z.of_nat (d + k) → let e := depth_from k d n in (d ≤ e ≤ d + k)%nat ∧ n ≤ 2 ^ Z.of_nat e ∧
  ((d < e)%nat → 2 ^ (Z.of_nat e - 1) < n).
Proof.
  revert d. induction k as [|k IH]; intros d Hn; cbn [depth_from].
  - split; [lia|]. rewrite Nat.add_0_r in Hn. split; [lia|lia].
  - destruct (Z.ltb_spec (2 ^ Z.of_nat d) n) as [Hlt|Hge]; [|split; [lia|split; [lia|lia]]].
    destruct (IH (S d)) as (H1 & H2 & H3); [by replace (S d + k)%nat with (d + S k)%nat by lia|]. split; [lia|]. split; [done|].
    intros _. destruct (decide (depth_from k (S d) n = S d)) as [->|]; [|apply H3; lia]. by replace (Z.of_nat (S d) - 1) with (Z.of_nat d) by lia.
Qed.
Lemma depth_for_spec n : n ≤ 2 ^ 64 → n ≤ 2 ^ Z.of_nat (depth_for n) ∧ ((0 < depth_for n)%nat → 2 ^ (Z.of_nat (depth_for n) - 1) < n).
Proof. intros Hn. destruct (depth_from_spec kMaxDepth 0 n) as (_ & H1 & H2); [unfold kMaxDepth; cbn -[Z.pow]; lia|]. by split. Qed.
Lemma merkleize_tree chunks limit : Z.of_nat (length chunks) ≤ limit ≤ 2 ^ 64 → merkleize chunks limit = Ok (tree (depth_for limit) chunks).
Proof.
  intros Hl. unfold merkleize, fatal_if. destruct (Z.ltb_spec limit (Z.of_nat (length chunks))) as [|_]; [lia|]. cbn [mbind res_bind].
  destruct chunks as [|c chunks]; [by rewrite tree_nil, Nat.add_0_r|]. destruct (depth_for_spec limit) as [Hd _]; [lia|].
  destruct (hash_levels_tree (depth_for limit) 0 (c :: chunks) (length (c :: chunks)) (c :: chunks)) as (level & -> & H);
    [by rewrite take_ge|done|done|apply Nat2Z.inj_le; rewrite Nat2Z.inj_pow; lia|]. cbn [mbind res_bind]. unfold vec_get. by rewrite H.
Qed.

Lemma depth_for_pow n : (n ≤ 64)%nat → depth_for (2 ^ Z.of_nat n) = n.
Proof.
  intros Hn. destruct (depth_for_spec (2 ^ Z.of_nat n)) as [H1 H2]; [apply Z.pow_le_mono_r; lia|].
  apply Z.pow_le_mono_r_iff in H1; [|lia..]. destruct (decide (depth_for (2 ^ Z.of_nat n) = 0%nat)) as [|Hne]; [lia|].
  specialize (H2 ltac:(lia)). apply Z.pow_lt_mono_r_iff in H2; lia.
Qed.

Lemma min_width (k n : nat) : Z.to_nat (Z.min (4 ^ Z.of_nat k) (Z.of_nat n)) = Nat.min (4 ^ k) n.
Proof. rewrite <- (Nat2Z.id (4 ^ k)), Nat2Z.inj_pow. lia. Qed.
Lemma subtrees_progressive fuel : ∀ k l, (k ≤ 31)%nat → Z.of_nat (length l) ≤ 4 ^ 31 → (length l ≤ fuel)%nat →
  ∃ roots, subtrees fuel (4 ^ Z.of_nat k) l = Ok roots ∧ foldr hash 0 roots = progressive fuel k l.
Proof.
  induction fuel as [|fuel IH]; intros k l Hk Hl Hf; (destruct l as [|c l]; [by exists []|]); [cbn in Hf; lia|].
  cbn [subtrees progressive]. rewrite min_width. set (n := Nat.min (4 ^ k) (length (c :: l))).
  assert (Hp : (0 < 4 ^ k)%nat) by (apply Nat.neq_0_lt_0, Nat.pow_nonzero; done).
  assert (Hw : 4 ^ Z.of_nat k = 2 ^ Z.of_nat (2 * k)) by (rewrite Nat2Z.inj_mul, Z.pow_mul_r by lia; done).
  rewrite merkleize_tree.
  2:{ split; [rewrite length_take; apply Z.le_trans with (Z.of_nat (4 ^ k)); [|rewrite Nat2Z.inj_pow]; lia|].
      rewrite Hw. apply Z.pow_le_mono_r; lia. }
  cbn [mbind res_bind]. rewrite Hw, depth_for_pow by lia.
  assert (take n (c :: l) = take (4 ^ k) (c :: l) ∧ drop n (c :: l) = drop (4 ^ k) (c :: l)) as [-> ->].
  { unfold n. destruct (Nat.min_spec (4 ^ k) (length (c :: l))) as [[? ->]|[? ->]]; [done|]. by rewrite !take_ge, !drop_ge by lia. }
  destruct (decide (k = 31%nat)) as [->|Hne].
  - rewrite drop_ge. 2:{ apply Nat2Z.inj_le. rewrite Nat2Z.inj_pow. exact Hl. } destruct fuel; (eexists; split; [reflexivity|reflexivity]).
  - assert (Eu : u64 (2 ^ Z.of_nat (2 * k) * 4) = 4 ^ Z.of_nat (S k)).
    { rewrite <- Hw. unfold u64. rewrite Nat2Z.inj_succ, Z.pow_succ_r, Z.mul_comm by lia. apply Z.mod_small.
      rewrite <- Z.pow_succ_r by lia. split; [apply Z.pow_nonneg; lia|]. change (2 ^ 64) with (4 ^ 32). apply Z.pow_lt_mono_r; lia. }
    rewrite Eu. destruct (IH (S k) (drop (4 ^ k) (c :: l))) as (roots & -> & Hr); [lia|rewrite length_drop; lia|rewrite length_drop; cbn [length] in *; lia|].
    eexists. split; [done|]. cbn [foldr]. by rewrite Hr.
Qed.
Lemma merkleize_progressive_tree l : Z.of_nat (length l) ≤ 4 ^ 31 → merkleize_progressive l = Ok (progressive_tree l).
Proof.
  intros Hl. unfold merkleize_progressive, progressive_tree. destruct (subtrees_progressive (length l) 0 l) as (roots & E & Hr); [lia|done|done|].
  change (4 ^ Z.of_nat 0) with 1 in E. rewrite E. cbn [mbind res_bind]. by rewrite Hr.
Qed.
(** ** What is hashed for a root *)

(** The 64 bytes of an inner node. *)
Definition preimage (a b : Chunk) : bytes := be_bytes 32 a ++ be_bytes 32 b.
(** The nodes above the leaves [l] of a tree of depth [d]; zero subtrees have no entry. *)
Fixpoint tree_inputs (d : nat) (l : list Chunk) : list bytes :=
  match d, l with
  | O, _ | _, [] => []
  | S d, _ =>
      preimage (tree d (take (2 ^ d) l)) (tree d (drop (2 ^ d) l)) :: tree_inputs d (take (2 ^ d) l) ++ tree_inputs d (drop (2 ^ d) l)
  end.
Fixpoint progressive_inputs (fuel k : nat) (l : list Chunk) : list bytes :=
  match l, fuel with
  | [], _ | _, O => []
  | _, S fuel =>
      preimage (tree (2 * k) (take (4 ^ k) l)) (progressive fuel (S k) (drop (4 ^ k) l)) ::
      tree_inputs (2 * k) (take (4 ^ k) l) ++ progressive_inputs fuel (S k) (drop (4 ^ k) l)
  end.
Definition merkleize_inputs (l : list Chunk) (limit : Z) : list bytes := tree_inputs (depth_for limit) l.
Definition merkleize_progressive_inputs (l : list Chunk) : list bytes := progressive_inputs (length l) 0 l.
Definition byte_vector_inputs (b : bytes) : list bytes := merkleize_inputs (pack b) (Z.of_nat (length (pack b))).
Definition byte_list_inputs (b : bytes) (max_bytes : Z) : list bytes :=
  preimage (tree (depth_for (chunk_count max_bytes)) (pack b)) (uint64_root (len b)) :: merkleize_inputs (pack b) (chunk_count max_bytes).
Definition progressive_byte_list_inputs (b : bytes) : list bytes :=
  preimage (progressive_tree (pack b)) (uint64_root (len b)) :: merkleize_progressive_inputs (pack b).

(** ** Roots bind, where sha256 is injective on what was hashed *)

Context (sha_range : ∀ b, in_u256 (sha256 b)).
Context (D : list bytes) (Hinj : collision_free sha256 D D).
Ltac split_sub := repeat match goal with
  | H : _ ++ _ ⊆ _ |- _ => apply list_subseteq_app_iff_l in H as [? ?]
  | H : _ :: _ ⊆ _ |- _ => apply list_subseteq_cons_iff in H as [? ?]
  end.

Lemma chunk_pair_inj a b a' b' : in_u256 a → in_u256 b → in_u256 a' → in_u256 b' → preimage a b ∈ D → preimage a' b' ∈ D →
  hash a b = hash a' b' → a = a' ∧ b = b'.
Proof.
  intros Ha Hb Ha' Hb' Hd Hd' E. pose proof (Hinj _ _ Hd Hd' E) as Eq. apply app_inj_1 in Eq as [E1 E2]; [|by rewrite !length_be_bytes].
  split; apply (CreateAddress.be_bytes_inj 32); (exact E1 || exact E2 || (unfold in_u256 in *; lia)).
Qed.
Lemma hash_range a b : in_u256 (hash a b).
Proof. apply sha_range. Qed.
Lemma zero_hash_range d : in_u256 (zero_hash d).
Proof. destruct d; [by split|apply hash_range]. Qed.
Lemma tree_range e d l : Forall in_u256 l → in_u256 (tree_at e d l).
Proof. intros H. destruct d; [|apply hash_range]. destruct H; [apply zero_hash_range|done]. Qed.
Lemma progressive_range fuel k l : in_u256 (progressive fuel k l).
Proof. destruct fuel, l; by apply hash_range || split. Qed.
#[local] Hint Resolve hash_range zero_hash_range tree_range progressive_range Forall_take Forall_drop : ssz.

Lemma tree_inj d : ∀ l l', length l = length l' → (length l ≤ 2 ^ d)%nat → Forall in_u256 l → Forall in_u256 l' →
  tree_inputs d l ⊆ D → tree_inputs d l' ⊆ D → tree d l = tree d l' → l = l'.
Proof.
  induction d as [|d IH]; intros l l' Hlen Hd Hl Hl' Hs Hs' E.
  - destruct l as [|a [|]], l' as [|a' [|]]; try done; cbn in *; [by subst|lia].
  - destruct (decide (l = [])) as [->|Hne]; [by destruct l'|].
    assert (Hcons : ∀ k, k ≠ [] → tree_inputs (S d) k =
      preimage (tree d (take (2 ^ d) k)) (tree d (drop (2 ^ d) k)) :: tree_inputs d (take (2 ^ d) k) ++ tree_inputs d (drop (2 ^ d) k)) by (by intros []).
    rewrite Hcons in Hs, Hs' by (done || by intros ->; destruct l). split_sub.
    cbn [tree_at] in E. rewrite Nat.pow_succ_r' in Hd. apply chunk_pair_inj in E as [E1 E2]; [|auto with ssz..].
    apply IH in E1; [|rewrite !length_take; lia..|auto with ssz|auto with ssz|done|done].
    apply IH in E2; [|rewrite !length_drop; lia..|auto with ssz|auto with ssz|done|done].
    rewrite <- (take_drop (2 ^ d) l), <- (take_drop (2 ^ d) l'). by rewrite E1, E2.
Qed.
Lemma progressive_inj fuel : ∀ k l l', length l = length l' → (length l ≤ fuel)%nat → Forall in_u256 l → Forall in_u256 l' →
  progressive_inputs fuel k l ⊆ D → progressive_inputs fuel k l' ⊆ D → progressive fuel k l = progressive fuel k l' → l = l'.
Proof.
  induction fuel as [|fuel IH]; intros k l l' Hlen Hf Hl Hl' Hs Hs' E; (destruct l as [|c l], l' as [|c' l']; [done|done|done|]); [cbn in Hf; lia|].
  cbn [progressive_inputs] in Hs, Hs'. split_sub.
  cbn [progressive] in E. apply chunk_pair_inj in E as [E1 E2]; [|auto with ssz..].
  assert (Hfour : (4 ^ k = 2 ^ (2 * k))%nat) by (rewrite Nat.pow_mul_r; done). assert (0 < 4 ^ k)%nat by (apply Nat.neq_0_lt_0, Nat.pow_nonzero; done).
  apply tree_inj in E1; [|rewrite !length_take; lia|rewrite length_take, <- Hfour; lia|auto with ssz|auto with ssz|done|done].
  apply IH in E2; [|rewrite !length_drop; lia|rewrite length_drop; cbn [length] in *; lia|auto with ssz|auto with ssz|done|done].
  rewrite <- (take_drop (4 ^ k) (c :: l)), <- (take_drop (4 ^ k) (c' :: l')). by rewrite E1, E2.
Qed.

Lemma merkleize_inj l l' limit r : length l = length l' → limit ≤ 2 ^ 64 → Forall in_u256 l → Forall in_u256 l' →
  merkleize_inputs l limit ⊆ D → merkleize_inputs l' limit ⊆ D → merkleize l limit = Ok r → merkleize l' limit = Ok r → l = l'.
Proof.
  intros Hlen Hlim Hl Hl' Hs Hs' H H'. destruct (Z.le_gt_cases (Z.of_nat (length l)) limit) as [Hle|Hgt].
  - rewrite merkleize_tree in H, H' by lia. injection H as H. injection H' as H'. destruct (depth_for_spec limit Hlim) as [Hd _].
    eapply tree_inj; [done| |done|done|exact Hs|exact Hs'|by rewrite H, H']. apply Nat2Z.inj_le. rewrite Nat2Z.inj_pow. lia.
  - unfold merkleize, fatal_if in H. by destruct (Z.ltb_spec limit (Z.of_nat (length l))); [|lia].
Qed.
Lemma merkleize_range l limit r : limit ≤ 2 ^ 64 → Forall in_u256 l → merkleize l limit = Ok r → in_u256 r.
Proof.
  intros Hlim Hl H. destruct (Z.le_gt_cases (Z.of_nat (length l)) limit) as [Hle|Hgt].
  - rewrite merkleize_tree in H by lia. injection H as <-. by apply tree_range.
  - unfold merkleize, fatal_if in H. by destruct (Z.ltb_spec limit (Z.of_nat (length l))); [|lia].
Qed.
Lemma progressive_root l r : Z.of_nat (length l) ≤ 4 ^ 31 → merkleize_progressive l = Ok r → r = progressive_tree l.
Proof. intros Hl. rewrite merkleize_progressive_tree by done. by intros [= <-]. Qed.
Lemma merkleize_progressive_inj l l' r : length l = length l' → Z.of_nat (length l) ≤ 4 ^ 31 → Forall in_u256 l → Forall in_u256 l' →
  merkleize_progressive_inputs l ⊆ D → merkleize_progressive_inputs l' ⊆ D →
  merkleize_progressive l = Ok r → merkleize_progressive l' = Ok r → l = l'.
Proof.
  unfold merkleize_progressive_inputs. intros Hlen Hl4 Hl Hl' Hs Hs' H H'. rewrite merkleize_progressive_tree in H, H' by lia. injection H as H. injection H' as H'.
  unfold progressive_tree in *. rewrite <- Hlen in H', Hs'. eapply progressive_inj; [done|done|done|done|exact Hs|exact Hs'|by rewrite H, H'].
Qed.
Lemma merkleize_progressive_range l r : merkleize_progressive l = Ok r → in_u256 r.
Proof.
  unfold merkleize_progressive. destruct (subtrees _ _ _) as [roots|]; [|done]. cbn. intros [= <-]. destruct roots; [by split|apply hash_range].
Qed.
(** ** Byte sequences bind *)

Lemma be_val_inj_range n b : length b = n → 0 ≤ be_val b < 256 ^ Z.of_nat n.
Proof. intros <-. apply be_val_bound. Qed.
Lemma length_pack_from n b : length (pack_from n b) = n.
Proof. revert b. induction n as [|n IH]; intros b; [done|]. cbn. by rewrite IH. Qed.
Lemma length_pack b : Z.of_nat (length (pack b)) = chunk_count (len b).
Proof. unfold pack. rewrite length_pack_from, Z2Nat.id; [done|]. unfold chunk_count. apply Z.div_pos; [pose proof (len_nonneg b)|]; lia. Qed.
Lemma pack_from_range n b : Forall in_u256 (pack_from n b).
Proof.
  revert b. induction n as [|n IH]; intros b; [constructor|]. constructor; [|apply IH].
  apply (be_val_inj_range 32). apply length_resize.
Qed.
Lemma pack_range b : Forall in_u256 (pack b).
Proof. apply pack_from_range. Qed.
Lemma pack_from_inj n : ∀ b b', length b = length b' → (length b ≤ 32 * n)%nat → pack_from n b = pack_from n b' → b = b'.
Proof.
  induction n as [|n IH]; intros b b' Hlen Hn E; [destruct b, b'; cbn in *; done || lia|]. cbn [pack_from] in E. injection E as E1 E2.
  apply be_val_inj in E1; [|by rewrite !length_resize]. rewrite !resize_spec in E1. apply app_inj_1 in E1 as [E1 _]; [|rewrite !length_take; lia].
  rewrite <- (take_drop 32 b), <- (take_drop 32 b'), E1. f_equal. apply IH; [rewrite !length_drop; lia|rewrite length_drop; lia|done].
Qed.
Lemma chunk_count_covers n : 0 ≤ n → n ≤ 32 * chunk_count n < n + 32.
Proof. intros Hn. unfold chunk_count. pose proof (Z.div_mod (n + 31) 32 ltac:(lia)). pose proof (Z.mod_pos_bound (n + 31) 32). lia. Qed.
Lemma pack_inj b b' : len b = len b' → pack b = pack b' → b = b'.
Proof.
  intros Hl E. unfold pack in E. rewrite <- Hl in E. pose proof (chunk_count_covers (len b) (len_nonneg b)).
  eapply pack_from_inj; [|  |exact E]; unfold len in *; lia.
Qed.
Lemma pack_same_length b b' : len b = len b' → length (pack b) = length (pack b').
Proof. intros E. apply Nat2Z.inj. by rewrite !length_pack, E. Qed.
#[local] Hint Resolve pack_range merkleize_progressive_range : ssz.

Lemma length_bits l b : length (foldl set_bit b l) = length b.
Proof. revert b. induction l as [|i l IH]; intros b; [done|]. cbn [foldl]. rewrite IH. apply length_alter. Qed.
Lemma active_fields_range n : in_u256 (active_fields n).
Proof. apply (be_val_inj_range 32). rewrite length_bits. apply length_replicate. Qed.
Lemma uint64_root_range v : in_u256 (uint64_root v).
Proof. apply (be_val_inj_range 32). rewrite length_app, length_replicate. unfold le_bytes. by rewrite length_reverse, length_be_bytes. Qed.
Lemma uint64_root_inj v v' : in_u64 v → in_u64 v' → uint64_root v = uint64_root v' → v = v'.
Proof.
  intros Hv Hv' E. unfold uint64_root, le_bytes in E. apply be_val_inj in E; [|by rewrite !length_app, !length_reverse, !length_be_bytes].
  apply app_inv_tail, (inj reverse) in E. apply (CreateAddress.be_bytes_inj 8); [exact Hv|exact Hv'|exact E].
Qed.
Lemma uint256_root_range v : in_u256 (uint256_root v).
Proof. apply (be_val_inj_range 32). by rewrite length_reverse, length_be_bytes. Qed.
Lemma uint256_root_inj v v' : in_u256 v → in_u256 v' → uint256_root v = uint256_root v' → v = v'.
Proof.
  intros Hv Hv' E. unfold uint256_root in E. apply be_val_inj in E; [|by rewrite !length_reverse, !length_be_bytes].
  apply (inj reverse) in E. apply (CreateAddress.be_bytes_inj 32); [exact Hv|exact Hv'|exact E].
Qed.
#[local] Hint Resolve uint64_root_range uint256_root_range : ssz.
Lemma mix_in_length_inj r n r' n' : in_u256 r → in_u256 r' → in_u64 n → in_u64 n' →
  preimage r (uint64_root n) ∈ D → preimage r' (uint64_root n') ∈ D → mix_in_length r n = mix_in_length r' n' → r = r' ∧ n = n'.
Proof.
  intros Hr Hr' Hn Hn' Hd Hd' E. unfold mix_in_length in E.
  apply chunk_pair_inj in E as [-> E]; [|exact Hr|apply uint64_root_range|exact Hr'|apply uint64_root_range|done|done]. split; [done|]. by apply uint64_root_inj.
Qed.

(** Lengths a 64-bit host can hold. *)
Abbreviation fits b := (len b < 2 ^ 63).
Lemma fits_u64 b : fits b → in_u64 (len b).
Proof. intros H. split; [apply len_nonneg|lia]. Qed.
Lemma pack_fits b : fits b → Z.of_nat (length (pack b)) ≤ 4 ^ 31.
Proof. intros H. rewrite length_pack. pose proof (chunk_count_covers (len b) (len_nonneg b)). lia. Qed.

Lemma byte_vector_root_inj b b' r : len b = len b' → fits b → byte_vector_inputs b ⊆ D → byte_vector_inputs b' ⊆ D →
  byte_vector_root b = Ok r → byte_vector_root b' = Ok r → b = b'.
Proof.
  intros Hl Hf Hs Hs' H H'. unfold byte_vector_root, byte_vector_inputs in *. rewrite <- (pack_same_length _ _ Hl) in Hs'. rewrite <- (pack_same_length _ _ Hl) in H'. pose proof (pack_fits b Hf).
  pose proof (merkleize_inj _ _ (Z.of_nat (length (pack b))) _ (pack_same_length _ _ Hl) ltac:(lia) (pack_range b) (pack_range b') Hs Hs' H H') as E.
  by apply pack_inj.
Qed.
Lemma byte_vector_root_range b r : fits b → byte_vector_root b = Ok r → in_u256 r.
Proof. intros Hf H. eapply merkleize_range; [|apply pack_range|exact H]. pose proof (pack_fits b Hf). lia. Qed.
Lemma byte_list_root_inj b b' max r : 0 ≤ max < 2 ^ 63 → byte_list_inputs b max ⊆ D → byte_list_inputs b' max ⊆ D →
  byte_list_root b max = Ok r → byte_list_root b' max = Ok r → b = b'.
Proof.
  unfold byte_list_inputs. intros Hm Hs Hs' H H'. split_sub. unfold byte_list_root in *. apply bind_Ok in H as (? & Hb%fatal_if_Ok%Z.ltb_ge & H), H' as (? & Hb'%fatal_if_Ok%Z.ltb_ge & H').
  apply bind_Ok in H as (m & Em & [= <-]), H' as (m' & Em' & [= E]). pose proof (chunk_count_covers max ltac:(lia)).
  pose proof (len_nonneg b). pose proof (len_nonneg b').
  assert (Ht : ∀ c y, len c ≤ max → merkleize (pack c) (chunk_count max) = Ok y → y = tree (depth_for (chunk_count max)) (pack c)).
  { intros c y Hc. pose proof (chunk_count_covers (len c) (len_nonneg c)). rewrite merkleize_tree by (rewrite length_pack; lia). by intros [= <-]. }
  apply mix_in_length_inj in E as [-> El]; [|eapply merkleize_range; [|apply pack_range|done]; lia..|split; lia|split; lia| |].
  2:{ by rewrite (Ht b' m'). }
  2:{ by rewrite (Ht b m). }
  pose proof (merkleize_inj _ _ (chunk_count max) _ (pack_same_length _ _ (eq_sym El)) ltac:(lia) (pack_range b) (pack_range b') ltac:(done) ltac:(done) Em Em') as Ep.
  by apply pack_inj.
Qed.
Lemma byte_list_root_range b max r : byte_list_root b max = Ok r → in_u256 r.
Proof. unfold byte_list_root. intros H. ok_inv. apply hash_range. Qed.
Lemma progressive_byte_list_root_inj b b' r : fits b → fits b' → progressive_byte_list_inputs b ⊆ D → progressive_byte_list_inputs b' ⊆ D →
  progressive_byte_list_root b = Ok r → progressive_byte_list_root b' = Ok r → b = b'.
Proof.
  unfold progressive_byte_list_inputs. intros Hf Hf' Hs Hs' H H'. split_sub. unfold progressive_byte_list_root in *. apply bind_Ok in H as (m & Em & [= <-]), H' as (m' & Em' & [= E]).
  apply mix_in_length_inj in E as [-> El]; [|by eapply merkleize_progressive_range..|by apply fits_u64|by apply fits_u64| |].
  2:{ by rewrite (progressive_root _ _ (pack_fits b' Hf') Em'). }
  2:{ by rewrite (progressive_root _ _ (pack_fits b Hf) Em). }
  pose proof (merkleize_progressive_inj _ _ _ (pack_same_length _ _ (eq_sym El)) (pack_fits b Hf) (pack_range b) (pack_range b') ltac:(done) ltac:(done) Em Em') as Ep.
  by apply pack_inj.
Qed.
Lemma progressive_byte_list_root_range b r : progressive_byte_list_root b = Ok r → in_u256 r.
Proof. unfold progressive_byte_list_root. intros H. ok_inv. apply hash_range. Qed.
End Ssz.

(** C40.  The Merkleization is that of the SSZ specification.  [merkleize] hashes
    level by level in one shrinking buffer and pads odd tails with precomputed
    zero roots, yet returns the root of the perfect binary tree over the chunks
    and zero chunks, of the least depth that holds [limit] leaves;
    [merkleize_progressive] returns the EIP-7916 chain of trees of 1, 4, 16, ...
    leaves.  Both always return: no index leaves the buffer and the width never
    wraps before the chunks run out. *)
Theorem merkleize_correct sha256 chunks limit :
  Z.of_nat (length chunks) ≤ limit ≤ 2 ^ 64 → Z.of_nat (length chunks) ≤ 4 ^ 31 →
  merkleize sha256 chunks limit = Ok (tree_at sha256 0 (depth_for limit) chunks) ∧
  limit ≤ 2 ^ Z.of_nat (depth_for limit) ∧ ((0 < depth_for limit)%nat → 2 ^ (Z.of_nat (depth_for limit) - 1) < limit) ∧
  merkleize_progressive sha256 chunks = Ok (progressive_tree sha256 chunks).
Proof.
  intros Hl H4. destruct (depth_for_spec limit) as [H1 H2]; [lia|].
  split; [by apply merkleize_tree|]. split; [done|]. split; [done|]. by apply merkleize_progressive_tree.
Qed.
(** Five chunks in a tree of eight leaves, with a hash that keeps its input. *)
Definition toy_sha (b : bytes) : Z := be_val b mod (2 ^ 256 - 189).
Lemma merkleize_correct_witness :
  merkleize toy_sha [1; 2; 3; 4; 5] 6 = Ok (tree_at toy_sha 0 3 [1; 2; 3; 4; 5; 0; 0; 0]) ∧
  merkleize_progressive toy_sha [1; 2; 3; 4; 5; 6] =
    Ok (hash toy_sha 1 (hash toy_sha (hash toy_sha (hash toy_sha 2 3) (hash toy_sha 4 5)) (hash toy_sha (tree_at toy_sha 0 4 [6]) 0))).
Proof.
  destruct (merkleize_correct toy_sha [1; 2; 3; 4; 5] 6) as (H1 & _ & _ & _); [cbn; lia|cbn; lia|].
  destruct (merkleize_correct toy_sha [1; 2; 3; 4; 5; 6] 6) as (_ & _ & _ & H2); [cbn; lia|cbn; lia|].
  split; [rewrite H1; by vm_compute|rewrite H2; by vm_compute].
Defined.
End Ssz.
