(* ===== verification/Transactions.v ===== *)
(** The block's transactions ([include/zeg/transactions.hpp],
    [src/transactions.cpp]): the six envelope types, their strict parsers, the
    signing hash, sender recovery and the constructor that reads them off the
    input and roots them.  An accepted envelope is the canonical encoding of its
    fields, the signing hash binds every signed field, and the root binds the
    whole list.  keccak256 and public-key recovery are parameters. *)

From stdpp Require Import base numbers list strings gmap.
From S2P Require Import Prelude Rlp Writer Receipt Contracts TriePath Mpt.

Set Default Goal Selector "!".

Module Transactions.
Import Rlp Stream Receipt Mpt.

(** ** Data *)

(** [Transactions::View]; [to_] is [None] for a contract creation. *)
Record View := mkView {
  type_ : TxType;
  transaction_hash_ : Z;
  sender_ : Z;
  envelope_ : bytes;
  nonce_ : Z;
  gas_limit_ : Z;
  to_ : option Z;
  value_ : Z;
  data_ : bytes;
  v_or_y_parity_ : Z;
  r_ : Z;
  s_ : Z;
  chain_id_ : Z;
  gas_price_ : Z;
  max_priority_fee_per_gas_ : Z;
  max_fee_per_gas_ : Z;
  access_list_rlp_ : bytes;
  max_fee_per_blob_gas_ : Z;
  blob_versioned_hashes_rlp_ : bytes;
  authorization_list_rlp_ : bytes;
  num_authorizations_ : Z;
  initcodes_rlp_ : bytes }.

(** [View v; v.type_ = t]. *)
Definition view_of (t : TxType) : View := mkView t 0 0 [] 0 0 None 0 [] 0 0 0 0 0 0 0 [] 0 [] [] 0 [].

(** The writes of the constructor after parsing. *)
Definition set_num_authorizations (n : Z) (v : View) : View :=
  mkView (type_ v) (transaction_hash_ v) (sender_ v) (envelope_ v) (nonce_ v) (gas_limit_ v) (to_ v) (value_ v) (data_ v)
    (v_or_y_parity_ v) (r_ v) (s_ v) (chain_id_ v) (gas_price_ v) (max_priority_fee_per_gas_ v) (max_fee_per_gas_ v)
    (access_list_rlp_ v) (max_fee_per_blob_gas_ v) (blob_versioned_hashes_rlp_ v) (authorization_list_rlp_ v) n
    (initcodes_rlp_ v).
Definition set_identity (hash sender : Z) (envelope : bytes) (v : View) : View :=
  mkView (type_ v) hash sender envelope (nonce_ v) (gas_limit_ v) (to_ v) (value_ v) (data_ v)
    (v_or_y_parity_ v) (r_ v) (s_ v) (chain_id_ v) (gas_price_ v) (max_priority_fee_per_gas_ v) (max_fee_per_gas_ v)
    (access_list_rlp_ v) (max_fee_per_blob_gas_ v) (blob_versioned_hashes_rlp_ v) (authorization_list_rlp_ v)
    (num_authorizations_ v) (initcodes_rlp_ v).

(** ** Accessors with type guards *)

Definition has_gas_price (t : TxType) : bool := match t with Legacy | AccessList => true | _ => false end.
Definition gas_price (v : View) : res Z :=
  _ ← fatal_if (negb (has_gas_price (type_ v))) "Transactions::View::gas_price: tx type has no gas_price";
  Ok (gas_price_ v).
Definition max_priority_fee_per_gas (v : View) : res Z :=
  _ ← fatal_if (has_gas_price (type_ v)) "Transactions::View::max_priority_fee_per_gas: wrong tx type";
  Ok (max_priority_fee_per_gas_ v).
Definition max_fee_per_gas (v : View) : res Z :=
  _ ← fatal_if (has_gas_price (type_ v)) "Transactions::View::max_fee_per_gas: wrong tx type";
  Ok (max_fee_per_gas_ v).
Definition max_fee_per_blob_gas (v : View) : res Z :=
  _ ← fatal_if (bool_decide (type_ v ≠ Blob)) "Transactions::View::max_fee_per_blob_gas: not a blob tx";
  Ok (max_fee_per_blob_gas_ v).
Definition blob_versioned_hashes_rlp (v : View) : res bytes :=
  _ ← fatal_if (bool_decide (type_ v ≠ Blob)) "Transactions::View::blob_versioned_hashes_rlp: not a blob tx";
  Ok (blob_versioned_hashes_rlp_ v).
Definition authorization_list_rlp (v : View) : res bytes :=
  _ ← fatal_if (bool_decide (type_ v ≠ SetCode)) "Transactions::View::authorization_list_rlp: not a SetCode tx";
  Ok (authorization_list_rlp_ v).
Definition initcodes_rlp (v : View) : res bytes :=
  _ ← fatal_if (bool_decide (type_ v ≠ Osaka)) "Transactions::View::initcodes_rlp: not an Osaka tx";
  Ok (initcodes_rlp_ v).

(** ** Items to fields *)

Definition as_bytes (it : Item) : res bytes :=
  _ ← fatal_if (bool_decide (kind it ≠ String)) "Transactions: expected RLP string for bytes field";
  Ok (payload it).
Definition as_list_raw (it : Item) : res bytes :=
  _ ← fatal_if (bool_decide (kind it ≠ List)) "Transactions: expected RLP list";
  Ok (raw it).
Definition next_required (it : bytes) : res (Item * bytes) :=
  _ ← fatal_if (negb (has_next it)) "Transactions: tx RLP list shorter than required";
  next it.
Definition require_end (it : bytes) : res unit :=
  fatal_if (has_next it) "Transactions: tx RLP list has trailing fields".
Definition parse_to (it : Item) : res (option Z) :=
  _ ← fatal_if (bool_decide (kind it ≠ String)) "Transactions: `to` is not a string";
  if len (payload it) =? 0 then Ok None
  else if len (payload it) =? 20 then Ok (Some (be_val (payload it)))
  else Fatal "Transactions: `to` length must be 0 or 20".
Definition encode_to (v : View) : bytes :=
  match to_ v with None => encode [] | Some a => encode (be_bytes 20 a) end.

(** [as_x(next_required(it))]: the field and the rest of the list. *)
Definition field {A} (conv : Item → res A) (it : bytes) : res (A * bytes) :=
  '(i, it) ← next_required it;
  x ← conv i;
  Ok (x, it).

(** ** The parsers, one per type *)

Definition parse_legacy (v : View) (it : bytes) : res View :=
  '(nonce, it) ← field as_u64 it;
  '(gas_price, it) ← field as_u256 it;
  '(gas_limit, it) ← field as_u64 it;
  '(to, it) ← field parse_to it;
  '(value, it) ← field as_u256 it;
  '(data, it) ← field as_bytes it;
  '(vv, it) ← field as_u64 it;
  '(r, it) ← field as_u256 it;
  '(s, it) ← field as_u256 it;
  _ ← require_end it;
  let chain_id := if 35 <=? vv then (vv - 35) / 2 else 0 in
  Ok (mkView (type_ v) (transaction_hash_ v) (sender_ v) (envelope_ v) nonce gas_limit to value data vv r s chain_id
        gas_price (max_priority_fee_per_gas_ v) (max_fee_per_gas_ v) (access_list_rlp_ v) (max_fee_per_blob_gas_ v)
        (blob_versioned_hashes_rlp_ v) (authorization_list_rlp_ v) (num_authorizations_ v) (initcodes_rlp_ v)).

Definition parse_access_list (v : View) (it : bytes) : res View :=
  '(chain_id, it) ← field as_u64 it;
  '(nonce, it) ← field as_u64 it;
  '(gas_price, it) ← field as_u256 it;
  '(gas_limit, it) ← field as_u64 it;
  '(to, it) ← field parse_to it;
  '(value, it) ← field as_u256 it;
  '(data, it) ← field as_bytes it;
  '(access_list, it) ← field as_list_raw it;
  '(vv, it) ← field as_u64 it;
  '(r, it) ← field as_u256 it;
  '(s, it) ← field as_u256 it;
  _ ← require_end it;
  Ok (mkView (type_ v) (transaction_hash_ v) (sender_ v) (envelope_ v) nonce gas_limit to value data vv r s chain_id
        gas_price (max_priority_fee_per_gas_ v) (max_fee_per_gas_ v) access_list (max_fee_per_blob_gas_ v)
        (blob_versioned_hashes_rlp_ v) (authorization_list_rlp_ v) (num_authorizations_ v) (initcodes_rlp_ v)).

Definition parse_dynamic_fee (v : View) (it : bytes) : res View :=
  '(chain_id, it) ← field as_u64 it;
  '(nonce, it) ← field as_u64 it;
  '(max_pri, it) ← field as_u256 it;
  '(max_fee, it) ← field as_u256 it;
  '(gas_limit, it) ← field as_u64 it;
  '(to, it) ← field parse_to it;
  '(value, it) ← field as_u256 it;
  '(data, it) ← field as_bytes it;
  '(access_list, it) ← field as_list_raw it;
  '(vv, it) ← field as_u64 it;
  '(r, it) ← field as_u256 it;
  '(s, it) ← field as_u256 it;
  _ ← require_end it;
  Ok (mkView (type_ v) (transaction_hash_ v) (sender_ v) (envelope_ v) nonce gas_limit to value data vv r s chain_id
        (gas_price_ v) max_pri max_fee access_list (max_fee_per_blob_gas_ v)
        (blob_versioned_hashes_rlp_ v) (authorization_list_rlp_ v) (num_authorizations_ v) (initcodes_rlp_ v)).

Definition parse_blob (v : View) (it : bytes) : res View :=
  '(chain_id, it) ← field as_u64 it;
  '(nonce, it) ← field as_u64 it;
  '(max_pri, it) ← field as_u256 it;
  '(max_fee, it) ← field as_u256 it;
  '(gas_limit, it) ← field as_u64 it;
  '(to, it) ← field parse_to it;
  '(value, it) ← field as_u256 it;
  '(data, it) ← field as_bytes it;
  '(access_list, it) ← field as_list_raw it;
  '(max_blob, it) ← field as_u256 it;
  '(blob_hashes, it) ← field as_list_raw it;
  '(vv, it) ← field as_u64 it;
  '(r, it) ← field as_u256 it;
  '(s, it) ← field as_u256 it;
  _ ← require_end it;
  Ok (mkView (type_ v) (transaction_hash_ v) (sender_ v) (envelope_ v) nonce gas_limit to value data vv r s chain_id
        (gas_price_ v) max_pri max_fee access_list max_blob
        blob_hashes (authorization_list_rlp_ v) (num_authorizations_ v) (initcodes_rlp_ v)).

Definition parse_set_code (v : View) (it : bytes) : res View :=
  '(chain_id, it) ← field as_u64 it;
  '(nonce, it) ← field as_u64 it;
  '(max_pri, it) ← field as_u256 it;
  '(max_fee, it) ← field as_u256 it;
  '(gas_limit, it) ← field as_u64 it;
  '(to, it) ← field parse_to it;
  '(value, it) ← field as_u256 it;
  '(data, it) ← field as_bytes it;
  '(access_list, it) ← field as_list_raw it;
  '(auth_list, it) ← field as_list_raw it;
  '(vv, it) ← field as_u64 it;
  '(r, it) ← field as_u256 it;
  '(s, it) ← field as_u256 it;
  _ ← require_end it;
  Ok (mkView (type_ v) (transaction_hash_ v) (sender_ v) (envelope_ v) nonce gas_limit to value data vv r s chain_id
        (gas_price_ v) max_pri max_fee access_list (max_fee_per_blob_gas_ v)
        (blob_versioned_hashes_rlp_ v) auth_list (num_authorizations_ v) (initcodes_rlp_ v)).

Definition parse_osaka (v : View) (it : bytes) : res View :=
  '(chain_id, it) ← field as_u64 it;
  '(nonce, it) ← field as_u64 it;
  '(max_pri, it) ← field as_u256 it;
  '(max_fee, it) ← field as_u256 it;
  '(gas_limit, it) ← field as_u64 it;
  '(to, it) ← field parse_to it;
  '(value, it) ← field as_u256 it;
  '(data, it) ← field as_bytes it;
  '(access_list, it) ← field as_list_raw it;
  '(initcodes, it) ← field as_list_raw it;
  '(vv, it) ← field as_u64 it;
  '(r, it) ← field as_u256 it;
  '(s, it) ← field as_u256 it;
  _ ← require_end it;
  Ok (mkView (type_ v) (transaction_hash_ v) (sender_ v) (envelope_ v) nonce gas_limit to value data vv r s chain_id
        (gas_price_ v) max_pri max_fee access_list (max_fee_per_blob_gas_ v)
        (blob_versioned_hashes_rlp_ v) (authorization_list_rlp_ v) (num_authorizations_ v) initcodes).

Definition parse_fields (v : View) (outer_payload : bytes) : res View :=
  match type_ v with
  | Legacy => parse_legacy v outer_payload
  | AccessList => parse_access_list v outer_payload
  | DynamicFee => parse_dynamic_fee v outer_payload
  | Blob => parse_blob v outer_payload
  | SetCode => parse_set_code v outer_payload
  | Osaka => parse_osaka v outer_payload
  end.
(** ** The nested lists *)

Definition is_string_of (n : Z) (it : Item) : bool := bool_decide (kind it = String) && (len (payload it) =? n).

(** [while (it.has_next()) a = f(a, it.next())]: items are decoded as the loop
    reaches them, and each takes at least one byte. *)
Fixpoint fold_items {A} (f : A → Item → res A) (fuel : nat) (it : bytes) (a : A) : res A :=
  match fuel with
  | O => Ok a
  | S fuel =>
      if has_next it then
        '(i, it) ← next it;
        a ← f a i;
        fold_items f fuel it a
      else Ok a
  end.
Definition for_items {A} (f : A → Item → res A) (payload : bytes) (a : A) : res A := fold_items f (length payload) payload a.

Definition validate_key (_ : unit) (k : Item) : res unit :=
  fatal_if (negb (is_string_of 32 k)) "Transactions: access_list storage key must be 32 bytes".
Definition validate_access_entry (_ : unit) (entry : Item) : res unit :=
  _ ← fatal_if (bool_decide (kind entry ≠ List)) "Transactions: access_list entry is not a list";
  '(addr, eit) ← next_required (payload entry);
  _ ← fatal_if (negb (is_string_of 20 addr)) "Transactions: access_list address must be 20 bytes";
  '(keys, eit) ← next_required eit;
  _ ← fatal_if (bool_decide (kind keys ≠ List)) "Transactions: access_list keys field is not a list";
  _ ← for_items validate_key (payload keys) tt;
  fatal_if (has_next eit) "Transactions: access_list entry has trailing fields".
Definition validate_access_list (access_list_rlp : bytes) : res unit :=
  outer ← decode_item access_list_rlp;
  _ ← fatal_if (bool_decide (kind outer ≠ List)) "Transactions: access_list is not an RLP list";
  for_items validate_access_entry (payload outer) tt.

Definition validate_authorization (tuple : Item) : res unit :=
  _ ← fatal_if (bool_decide (kind tuple ≠ List)) "Transactions: authorization tuple is not a list";
  '(_, tit) ← field as_u256 (payload tuple);
  '(addr, tit) ← next_required tit;
  _ ← fatal_if (negb (is_string_of 20 addr)) "Transactions: authorization address must be 20 bytes";
  '(_, tit) ← field as_u64 tit;
  '(parity, tit) ← next_required tit;
  _ ← fatal_if (bool_decide (kind parity ≠ String) || (1 <? len (payload parity)))
        "Transactions: authorization y_parity must be <=1 byte";
  _ ← as_u64 parity;
  '(_, tit) ← field as_u256 tit;
  '(_, tit) ← field as_u256 tit;
  fatal_if (has_next tit) "Transactions: authorization tuple has trailing fields".
Definition validate_authorization_list (auth_list_rlp : bytes) : res Z :=
  outer ← decode_item auth_list_rlp;
  _ ← fatal_if (bool_decide (kind outer ≠ List)) "Transactions: authorization_list not an RLP list";
  for_items (λ n tuple, _ ← validate_authorization tuple; Ok (n + 1)) (payload outer) 0.

(** ** Signing hash and sender *)

Section Signing.
(** [keccak256_bytes32], and [ecrecover_address]: the signer of a hash under
    [r], [s] and a recovery id, if there is one. *)
Context (keccak256 : bytes → Z) (ecrecover_address : Z → Z → Z → Z → option Z).

Definition signing_preimage (v : View) : res bytes :=
  let nonce_enc := encode_u64 (nonce_ v) in
  let gas_limit_enc := encode_u64 (gas_limit_ v) in
  let value_enc := encode_u256 (value_ v) in
  let data_enc := encode (data_ v) in
  let to_enc := encode_to v in
  let chain_id_enc := encode_u64 (chain_id_ v) in
  match type_ v with
  | Legacy =>
      gas_price_ ← gas_price v;
      if 35 <=? v_or_y_parity_ v then
        Ok (encode_list [nonce_enc; encode_u256 gas_price_; gas_limit_enc; to_enc; value_enc; data_enc;
                         chain_id_enc; encode_u64 0; encode_u64 0])
      else
        Ok (encode_list [nonce_enc; encode_u256 gas_price_; gas_limit_enc; to_enc; value_enc; data_enc])
  | AccessList =>
      gas_price_ ← gas_price v;
      Ok (Byte.x01 :: encode_list [chain_id_enc; nonce_enc; encode_u256 gas_price_; gas_limit_enc; to_enc;
                                   value_enc; data_enc; access_list_rlp_ v])
  | DynamicFee =>
      max_pri ← max_priority_fee_per_gas v;
      max_fee ← max_fee_per_gas v;
      Ok (Byte.x02 :: encode_list [chain_id_enc; nonce_enc; encode_u256 max_pri; encode_u256 max_fee; gas_limit_enc;
                                   to_enc; value_enc; data_enc; access_list_rlp_ v])
  | Blob =>
      max_pri ← max_priority_fee_per_gas v;
      max_fee ← max_fee_per_gas v;
      max_blob ← max_fee_per_blob_gas v;
      hashes ← blob_versioned_hashes_rlp v;
      Ok (Byte.x03 :: encode_list [chain_id_enc; nonce_enc; encode_u256 max_pri; encode_u256 max_fee; gas_limit_enc;
                                   to_enc; value_enc; data_enc; access_list_rlp_ v; encode_u256 max_blob; hashes])
  | SetCode =>
      max_pri ← max_priority_fee_per_gas v;
      max_fee ← max_fee_per_gas v;
      auths ← authorization_list_rlp v;
      Ok (Byte.x04 :: encode_list [chain_id_enc; nonce_enc; encode_u256 max_pri; encode_u256 max_fee; gas_limit_enc;
                                   to_enc; value_enc; data_enc; access_list_rlp_ v; auths])
  | Osaka =>
      max_pri ← max_priority_fee_per_gas v;
      max_fee ← max_fee_per_gas v;
      codes ← initcodes_rlp v;
      Ok (Byte.x05 :: encode_list [chain_id_enc; nonce_enc; encode_u256 max_pri; encode_u256 max_fee; gas_limit_enc;
                                   to_enc; value_enc; data_enc; access_list_rlp_ v; codes])
  end.
Definition compute_signing_hash (v : View) : res Z :=
  preimage ← signing_preimage v;
  Ok (keccak256 preimage).

(** [kSecp256k1NHalf]. *)
Definition kSecp256k1NHalf : Z := 0x7fffffffffffffffffffffffffffffff5d576e7357a4501ddfe92f46681b20a0.
Definition is_canonical_low_s (s : Z) : bool := if kSecp256k1NHalf <? s then false else negb (s =? 0).

Definition recovery_id (v : View) : res Z :=
  let vv := v_or_y_parity_ v in
  match type_ v with
  | Legacy =>
      if (vv =? 27) || (vv =? 28) then Ok (vv - 27)
      else if 35 <=? vv then Ok (Z.land (vv - 35) 1)
      else Fatal "Transactions: invalid legacy signature v"
  | _ =>
      _ ← fatal_if (1 <? vv) "Transactions: invalid y_parity";
      Ok vv
  end.
Definition recover_sender (v : View) : res Z :=
  z ← compute_signing_hash v;
  recid ← recovery_id v;
  _ ← fatal_if (negb (is_canonical_low_s (s_ v))) "Transactions: signature s is not low-s (EIP-2)";
  match ecrecover_address z (r_ v) (s_ v) recid with
  | Some sender => Ok sender
  | None => Fatal "Transactions: sender recovery failed"
  end.

(** ** The constructor *)

Definition type_of_lead (lead : Z) : res TxType :=
  if 0xc0 <=? lead then Ok Legacy
  else if lead =? 1 then Ok AccessList
  else if lead =? 2 then Ok DynamicFee
  else if lead =? 3 then Ok Blob
  else if lead =? 4 then Ok SetCode
  else if lead =? 5 then Ok Osaka
  else Fatal "Transactions: unknown envelope first byte".

(** The body of the loop on one envelope. *)
Definition parse_envelope (env : bytes) : res View :=
  _ ← fatal_if (len env =? 0) "Transactions: empty tx envelope";
  t ← type_of_lead (b2z (hd Byte.x00 env));
  let whole := match t with Legacy => env | _ => drop 1 env end in
  outer ← decode_item whole;
  _ ← fatal_if (bool_decide (kind outer ≠ List)) "Transactions: outer envelope item is not a list";
  _ ← fatal_if (negb (len (raw outer) =? len whole)) "Transactions: trailing bytes after tx envelope";
  v ← parse_fields (view_of t) (payload outer);
  _ ← match t with Legacy => Ok tt | _ => validate_access_list (access_list_rlp_ v) end;
  v ← match t with
      | SetCode => n ← validate_authorization_list (authorization_list_rlp_ v); Ok (set_num_authorizations n v)
      | _ => Ok v
      end;
  sender ← recover_sender v;
  Ok (set_identity (keccak256 env) sender env v).

Record Transactions := mkTransactions {
  views_ : list View;
  transactions_root_ : Z;
  rlp_list_payload_size_ : Z }.

Fixpoint read_transactions (n : nat) (i : Z) (c : cursor) (views : list View) (size : Z) (trie : list (bytes * bytes))
    : res (list View * Z * list (bytes * bytes) * cursor) :=
  match n with
  | O => Ok (views, size, trie, c)
  | S n =>
      '(env_size, c) ← read_u64_le c;
      let env := take (Z.to_nat env_size) c in
      c ← advance_checked env_size c;
      c ← align_to_u64 env_size c;
      v ← parse_envelope env;
      read_transactions n (i + 1) c (views ++ [v])
        (size + match type_ v with Legacy => env_size | _ => item_size env_size end)
        (insert (encode_u64 i) env trie)
  end.
Definition transactions (c : cursor) : res (Transactions * cursor) :=
  '(count, c) ← read_u64_le c;
  _ ← fatal_if (stream_remaining c / 8 <? count) "Transactions: count exceeds input size";
  '(views, size, trie, c) ← read_transactions (Z.to_nat count) 0 c [] 0 [];
  root ← root_hash keccak256 trie;
  Ok (mkTransactions views root size, c).
End Signing.

(** ** The fields of a transaction, as the formats list them *)

Inductive Field :=
| FU64 (v : Z)
| FU256 (v : Z)
| FTo (to : option Z)
| FBytes (b : bytes)
| FList (raw : bytes).
Definition enc_field (f : Field) : bytes :=
  match f with
  | FU64 v => encode_u64 v
  | FU256 v => encode_u256 v
  | FTo None => encode []
  | FTo (Some a) => encode (be_bytes 20 a)
  | FBytes b => encode b
  | FList raw => raw
  end.
(** In range: of its width, and below 4 GiB. *)
Definition field_ok (f : Field) : Prop :=
  match f with
  | FU64 v => in_u64 v
  | FU256 v => in_u256 v
  | FTo None => True
  | FTo (Some a) => 0 ≤ a < 2 ^ 160
  | FBytes b => len b < 2 ^ 32
  | FList raw => ∃ p, raw = enc List p ∧ len p < 2 ^ 32
  end.
Definition same_shape (f f' : Field) : Prop :=
  match f, f' with
  | FU64 _, FU64 _ | FU256 _, FU256 _ | FTo _, FTo _ | FBytes _, FBytes _ | FList _, FList _ => True
  | _, _ => False
  end.

Definition tail_fields (v : View) : list Field := [FU64 (gas_limit_ v); FTo (to_ v); FU256 (value_ v); FBytes (data_ v)].
Definition dynamic_fields (v : View) : list Field :=
  [FU64 (chain_id_ v); FU64 (nonce_ v); FU256 (max_priority_fee_per_gas_ v); FU256 (max_fee_per_gas_ v)] ++ tail_fields v ++
  [FList (access_list_rlp_ v)].
(** The unsigned fields of each type. *)
Definition base_fields (v : View) : list Field :=
  match type_ v with
  | Legacy => [FU64 (nonce_ v); FU256 (gas_price_ v)] ++ tail_fields v
  | AccessList => [FU64 (chain_id_ v); FU64 (nonce_ v); FU256 (gas_price_ v)] ++ tail_fields v ++ [FList (access_list_rlp_ v)]
  | DynamicFee => dynamic_fields v
  | Blob => dynamic_fields v ++ [FU256 (max_fee_per_blob_gas_ v); FList (blob_versioned_hashes_rlp_ v)]
  | SetCode => dynamic_fields v ++ [FList (authorization_list_rlp_ v)]
  | Osaka => dynamic_fields v ++ [FList (initcodes_rlp_ v)]
  end.
(** What is signed: EIP-155 adds the chain id to a legacy transaction. *)
Definition signed_fields (v : View) : list Field :=
  base_fields v ++
  match type_ v with
  | Legacy => if 35 <=? v_or_y_parity_ v then [FU64 (chain_id_ v); FU64 0; FU64 0] else []
  | _ => []
  end.
Definition type_prefix (t : TxType) : bytes := match t with Legacy => [] | t => [z2b (tx_type_byte t)] end.
(** The canonical envelope. *)
Definition encode_envelope (v : View) : bytes :=
  type_prefix (type_ v) ++
  encode_list (map enc_field (base_fields v ++ [FU64 (v_or_y_parity_ v); FU256 (r_ v); FU256 (s_ v)])).

Lemma field_item f : field_ok f → is_item (enc_field f).
Proof.
  destruct f as [v|v|[a|]|b|raw]; cbn [enc_field field_ok]; intros Hf.
  - unfold encode_u64. rewrite u64_bytes by done. apply string_item.
    pose proof (trim_len 8 v ltac:(unfold in_u64 in Hf; simpl; lia)). lia.
  - rewrite u256_item_trim by done. apply string_item. pose proof (trim_len 32 v ltac:(unfold in_u256 in Hf; simpl; lia)). lia.
  - apply string_item. unfold len. rewrite length_be_bytes. lia.
  - by apply string_item.
  - by apply string_item.
  - destruct Hf as (p & -> & Hp). by exists List, p.
Qed.
Lemma enc_field_inj f f' : same_shape f f' → field_ok f → field_ok f' → enc_field f = enc_field f' → f = f'.
Proof.
  assert (Ht : ∀ a, len (be_bytes 20 a) = 20) by (intros a; unfold len; by rewrite length_be_bytes).
  destruct f as [v|v|[a|]|b|raw], f' as [v'|v'|[a'|]|b'|raw']; cbn [enc_field field_ok same_shape]; try done; intros _ Hf Hf' E.
  - f_equal. by apply encode_u64_inj.
  - f_equal. by apply encode_u256_inj.
  - apply string_inj in E; [|rewrite Ht; lia..]. apply (f_equal be_val) in E. rewrite !be_val_be_bytes_small in E by (simpl; lia). by rewrite E.
  - f_equal. by apply string_inj.
  - by f_equal.
Qed.
Lemma enc_fields_inj l l' : Forall2 same_shape l l' → Forall field_ok l → Forall field_ok l' → map enc_field l = map enc_field l' → l = l'.
Proof.
  induction 1 as [|f f' l l' Hs _ IH]; intros Hl Hl' E; [done|]. apply Forall_cons in Hl as [? ?], Hl' as [? ?]. cbn [map] in E.
  pose proof (f_equal (hd []) E) as E1. pose proof (f_equal tl E) as E2. cbn [hd tl] in E1, E2. f_equal; [by apply enc_field_inj|by apply IH].
Qed.

(** ** Parsing reads canonical fields *)

(** A converter reads only the canonical item of the field it returns. *)
Class Reads {A} (conv : Item → res A) (mk : A → Field) : Prop :=
  reads_field : ∀ i x, raw i = enc (kind i) (payload i) → len (payload i) < 2 ^ 32 → conv i = Ok x →
    raw i = enc_field (mk x) ∧ field_ok (mk x).
Lemma kind_string (P : Prop) i m : fatal_if (bool_decide (kind i ≠ String)) m = Ok () → kind i = String.
Proof. unfold fatal_if. destruct (bool_decide _) eqn:E; [done|]. intros _. apply bool_decide_eq_false in E. by apply dec_stable. Qed.
#[export] Instance reads_u64 : Reads as_u64 FU64.
Proof.
  intros i x Hr _ H. pose proof H as [Hv E]%as_u64_canonical. unfold as_u64 in H. apply bind_Ok in H as ([] & Hk%(kind_string True) & _).
  split; [|done]. rewrite Hr, Hk. exact E.
Qed.
#[export] Instance reads_u256 : Reads as_u256 FU256.
Proof.
  intros i x Hr _ H. pose proof H as [Hv E]%as_u256_canonical. unfold as_u256 in H. apply bind_Ok in H as ([] & Hk%(kind_string True) & _).
  split; [|done]. rewrite Hr, Hk. exact E.
Qed.
#[export] Instance reads_to : Reads parse_to FTo.
Proof.
  intros i x Hr _ H. unfold parse_to in H. apply bind_Ok in H as ([] & Hk%(kind_string True) & H). rewrite Hr, Hk.
  destruct (Z.eqb_spec (len (payload i)) 0) as [E0|_].
  - apply Ok_inj in H as <-. by destruct (payload i).
  - destruct (Z.eqb_spec (len (payload i)) 20) as [E|_]; [|done]. apply Ok_inj in H as <-. cbn [enc_field field_ok].
    assert (Hl : length (payload i) = 20%nat) by (unfold len in E; lia). pose proof (be_val_bound (payload i)) as Hb. rewrite Hl in Hb.
    split; [|simpl in Hb; lia]. by rewrite <- Hl, be_bytes_be_val.
Qed.
#[export] Instance reads_bytes : Reads as_bytes FBytes.
Proof. intros i x Hr Hl H. unfold as_bytes in H. apply bind_Ok in H as ([] & Hk%(kind_string True) & <-%Ok_inj). by rewrite Hr, Hk. Qed.
#[export] Instance reads_list : Reads as_list_raw FList.
Proof.
  intros i x Hr Hl H. unfold as_list_raw in H. apply bind_Ok in H as ([] & Hk & <-%Ok_inj). split; [done|]. exists (payload i). split; [|done].
  rewrite Hr. f_equal. unfold fatal_if in Hk. destruct (bool_decide (kind i ≠ List)) eqn:E; [done|]. apply bool_decide_eq_false in E. by apply dec_stable.
Qed.

Lemma field_spec {A} (conv : Item → res A) mk `{!Reads conv mk} it x it' :
  len it < 2 ^ 32 → field conv it = Ok (x, it') → it = enc_field (mk x) ++ it' ∧ field_ok (mk x) ∧ len it' < 2 ^ 32.
Proof.
  intros Hl H. unfold field in H. apply bind_Ok in H as ([i rest] & Hn & H). apply bind_Ok in H as (y & Hy & [= -> ->]%Ok_inj).
  unfold next_required in Hn. apply bind_Ok in Hn as (_ & _ & Hn). unfold next in Hn. destruct (len it =? 0); [done|].
  apply bind_Ok in Hn as (i' & Hd & [= -> <-]%Ok_inj). destruct (decode_item_canonical it i Hl Hd) as [Hr Hit].
  assert (Hlen : len it = len (raw i) + len (drop (length (raw i)) it)) by (rewrite <- len_app; by rewrite <- Hit).
  pose proof (len_enc_ge (kind i) (payload i)) as Hp. rewrite <- Hr in Hp. pose proof (len_nonneg (drop (length (raw i)) it)). pose proof (len_nonneg (raw i)).
  destruct (reads_field i x Hr ltac:(lia) Hy) as [Er Hok]. rewrite <- Er. split_and!; [done|done|lia].
Qed.
Lemma require_end_nil it u : require_end it = Ok u → it = [].
Proof. unfold require_end, fatal_if, has_next. destruct it; [done|]. intros H. by destruct (negb _) eqn:E. Qed.

(** The fields after [l], read off [it]. *)
Definition read_off (it : bytes) (l : list Field) (it' : bytes) : Prop := it = concat (map enc_field l) ++ it' ∧ Forall field_ok l.
Lemma read_off_cons it f it1 l it' : it = enc_field f ++ it1 → field_ok f → read_off it1 l it' → read_off it (f :: l) it'.
Proof. intros -> Hf [-> Hl]. split; [cbn [map concat]; by rewrite <- app_assoc|by constructor]. Qed.

(** Runs the fields of a parser known to have succeeded. *)
Ltac read_fields H Hl :=
  lazymatch type of H with
  | (_ ← field _ _; _) = Ok _ =>
      let x := fresh "x" in let it := fresh "it" in let Hf := fresh "Hf" in let Hl' := fresh "Hl" in
      apply bind_Ok in H as ([x it] & Hf & H); apply (field_spec _ _ _ _ _ Hl) in Hf as (? & ? & Hl'); read_fields H Hl'
  | (_ ← require_end _; _) = Ok ?v =>
      let E := fresh "E" in apply bind_Ok in H as (? & E%require_end_nil & H); apply Ok_inj in H; subst v
  end.
Ltac list_fields :=
  cbn [app tail_fields dynamic_fields gas_limit_ to_ value_ data_ chain_id_ nonce_ max_priority_fee_per_gas_ max_fee_per_gas_ access_list_rlp_
       gas_price_ max_fee_per_blob_gas_ blob_versioned_hashes_rlp_ authorization_list_rlp_ initcodes_rlp_ v_or_y_parity_ r_ s_];
  repeat (eapply read_off_cons; [eassumption|assumption|]); split; [by subst|constructor].

Lemma parse_fields_spec t it v : len it < 2 ^ 32 → parse_fields (view_of t) it = Ok v → type_ v = t ∧
  read_off it (base_fields v ++ [FU64 (v_or_y_parity_ v); FU256 (r_ v); FU256 (s_ v)]) [].
Proof.
  intros Hl H. unfold base_fields. destruct t; cbn [parse_fields type_ view_of] in H.
  - unfold parse_legacy in H. read_fields H Hl. split; [done|]. cbn [type_ view_of]. list_fields.
  - unfold parse_access_list in H. read_fields H Hl. split; [done|]. cbn [type_ view_of]. list_fields.
  - unfold parse_dynamic_fee in H. read_fields H Hl. split; [done|]. cbn [type_ view_of]. list_fields.
  - unfold parse_blob in H. read_fields H Hl. split; [done|]. cbn [type_ view_of]. list_fields.
  - unfold parse_set_code in H. read_fields H Hl. split; [done|]. cbn [type_ view_of]. list_fields.
  - unfold parse_osaka in H. read_fields H Hl. split; [done|]. cbn [type_ view_of]. list_fields.
Qed.
Lemma lead_prefix env t : env ≠ [] → type_of_lead (b2z (hd Byte.x00 env)) = Ok t →
  env = type_prefix t ++ match t with Legacy => env | _ => drop 1 env end.
Proof.
  destruct env as [|b env]; [done|]. intros _ H. cbn [hd] in H. unfold type_of_lead in H. destruct (0xc0 <=? b2z b); [by apply Ok_inj in H as <-|].
  repeat match type of H with (if b2z b =? ?n then _ else _) = _ =>
    destruct (Z.eqb_spec (b2z b) n) as [E|_]; [apply Ok_inj in H as <-; cbn [type_prefix tx_type_byte drop app]; by rewrite <- E, z2b_b2z|] end. done.
Qed.

Section Envelopes.
Context (keccak256 : bytes → Z) (ecrecover_address : Z → Z → Z → Z → option Z).
Abbreviation parse_envelope := (parse_envelope keccak256 ecrecover_address).

Definition all_fields (v : View) : list Field := base_fields v ++ [FU64 (v_or_y_parity_ v); FU256 (r_ v); FU256 (s_ v)].

Lemma parse_envelope_spec env v : len env < 2 ^ 32 → parse_envelope env = Ok v →
  env = encode_envelope v ∧ Forall field_ok (all_fields v) ∧ env ≠ [] ∧ envelope_ v = env ∧ transaction_hash_ v = keccak256 env.
Proof.
  intros Hl H. unfold Transactions.parse_envelope in H. apply bind_Ok in H as (_ & He%fatal_if_Ok & H). apply bind_Ok in H as (t & Ht & H). cbv zeta in H.
  assert (Hne : env ≠ []) by (by intros ->). pose proof (lead_prefix env t Hne Ht) as Epre. set (whole := match t with Legacy => env | _ => drop 1 env end) in *.
  assert (Hw : len whole < 2 ^ 32) by (rewrite Epre, len_app in Hl; pose proof (len_nonneg (type_prefix t)); lia).
  apply bind_Ok in H as (outer & Hd & H). destruct (decode_item_canonical whole outer Hw Hd) as [Hr Hall].
  apply bind_Ok in H as (_ & Hk%fatal_if_Ok & H). apply bool_decide_eq_false, dec_stable in Hk. apply bind_Ok in H as (_ & Hfull%fatal_if_Ok & H).
  apply negb_false_iff, Z.eqb_eq in Hfull. apply bind_Ok in H as (v0 & Hp & H).
  assert (Hwhole : whole = enc List (payload outer)).
  { rewrite <- Hk, <- Hr. rewrite Hall. assert (drop (length (raw outer)) whole = []) as ->; [|by rewrite app_nil_r].
    apply (drop_ge whole). unfold len in Hfull. lia. }
  pose proof (len_enc_ge List (payload outer)) as Hpl. rewrite <- Hwhole in Hpl.
  apply (parse_fields_spec t) in Hp as (Ht0 & Eit & Hok); [|lia]. apply bind_Ok in H as (_ & _ & H). apply bind_Ok in H as (v1 & Hv1 & H).
  apply bind_Ok in H as (sender & Hsend & <-%Ok_inj).
  assert (Hsame : type_ v1 = t ∧ all_fields v1 = all_fields v0).
  { destruct t; try (by apply Ok_inj in Hv1 as <-). apply bind_Ok in Hv1 as (n & _ & <-%Ok_inj). done. }
  destruct Hsame as [Ht1 Hf1].
  assert (Hid : ∀ h s e, all_fields (set_identity h s e v1) = all_fields v0) by (intros h s e; rewrite <- Hf1; by destruct v1).
  split_and!; [|by rewrite Hid|done|done|done].
  unfold encode_envelope. change (base_fields ?x ++ _) with (all_fields x) at 1. rewrite Hid. cbn [type_ set_identity]. rewrite Ht1.
  rewrite app_nil_r in Eit. rewrite encode_list_spec. change (encode_list_payload ?x) with (enc List x). unfold all_fields. rewrite <- Eit, <- Hwhole. exact Epre.
Qed.
End Envelopes.

(** ** What a signature commits to *)

Section Commitment.
Context (keccak256 : bytes → Z) (ecrecover_address : Z → Z → Z → Z → option Z).
Abbreviation parse_envelope := (parse_envelope keccak256 ecrecover_address).

Lemma signing_preimage_spec v : signing_preimage v = Ok (type_prefix (type_ v) ++ encode_list (map enc_field (signed_fields v))).
Proof.
  assert (Hto : encode_to v = enc_field (FTo (to_ v))) by (unfold encode_to; by destruct (to_ v)).
  unfold signing_preimage, signed_fields, base_fields, dynamic_fields, tail_fields, gas_price, max_priority_fee_per_gas, max_fee_per_gas, max_fee_per_blob_gas,
    blob_versioned_hashes_rlp, authorization_list_rlp, initcodes_rlp. rewrite Hto. cbv zeta. generalize (FTo (to_ v)). intros f.
  destruct (type_ v) eqn:Et; cbn [has_gas_price negb fatal_if mbind res_bind type_prefix app map enc_field]; [|done|done| | |].
  - by destruct (35 <=? v_or_y_parity_ v); cbn [app map enc_field].
  - by rewrite bool_decide_eq_false_2 by (intros Hn; by apply Hn).
  - by rewrite bool_decide_eq_false_2 by (intros Hn; by apply Hn).
  - by rewrite bool_decide_eq_false_2 by (intros Hn; by apply Hn).
Qed.

Lemma legacy_chain it v : parse_legacy (view_of Legacy) it = Ok v →
  chain_id_ v = (if 35 <=? v_or_y_parity_ v then (v_or_y_parity_ v - 35) / 2 else 0).
Proof. unfold parse_legacy. intros H. repeat (apply bind_Ok in H as ([? ?] & _ & H)). by apply bind_Ok in H as (_ & _ & <-%Ok_inj). Qed.
Lemma parse_fields_type t it v : parse_fields (view_of t) it = Ok v → type_ v = t.
Proof.
  unfold parse_fields. destruct t; cbn [type_ view_of];
    unfold parse_legacy, parse_access_list, parse_dynamic_fee, parse_blob, parse_set_code, parse_osaka; intros H;
    repeat (apply bind_Ok in H as ([? ?] & _ & H)); by apply bind_Ok in H as (_ & _ & <-%Ok_inj).
Qed.
Lemma envelope_chain env v : parse_envelope env = Ok v → type_ v = Legacy →
  chain_id_ v = (if 35 <=? v_or_y_parity_ v then (v_or_y_parity_ v - 35) / 2 else 0).
Proof.
  intros H Ht. unfold Transactions.parse_envelope in H. apply bind_Ok in H as (_ & _ & H). apply bind_Ok in H as (t & _ & H). cbv zeta in H.
  apply bind_Ok in H as (outer & _ & H). do 2 apply bind_Ok in H as (_ & _ & H). apply bind_Ok in H as (v0 & Hp & H). apply bind_Ok in H as (_ & _ & H).
  apply bind_Ok in H as (v1 & Hv1 & H). apply bind_Ok in H as (sender & _ & <-%Ok_inj). cbn [type_ set_identity] in Ht.
  assert (Hty : type_ v0 = t ∧ type_ v1 = type_ v0).
  { split.
    - by eapply parse_fields_type.
    - destruct t; try (by apply Ok_inj in Hv1 as <-). by apply bind_Ok in Hv1 as (n & _ & <-%Ok_inj). }
  destruct Hty as [Hty0 Hty1]. assert (t = Legacy) as -> by congruence. apply Ok_inj in Hv1 as <-. exact (legacy_chain _ _ Hp).
Qed.

Lemma len_u64_item v : in_u64 v → len (encode_u64 v) ≤ 13.
Proof.
  intros Hv. unfold encode_u64. rewrite u64_bytes by done. pose proof (trim_len 8 v ltac:(unfold in_u64 in Hv; simpl; lia)).
  pose proof (len_encode_le (be_trim v) ltac:(lia)). lia.
Qed.

(** The fields signed by an accepted transaction are in range, and short. *)
Lemma signed_ok env v : len env < 2 ^ 31 → parse_envelope env = Ok v →
  Forall field_ok (signed_fields v) ∧ len (concat (map enc_field (signed_fields v))) < 2 ^ 32.
Proof.
  intros Hl H. pose proof H as (Eenv & Hok & _)%parse_envelope_spec; [|lia]. unfold all_fields in Hok. apply Forall_app in Hok as [Hb Hs].
  assert (Hlen : len (concat (map enc_field (base_fields v))) < 2 ^ 31).
  { rewrite Eenv in Hl. unfold encode_envelope in Hl. rewrite len_app, encode_list_spec in Hl. change (encode_list_payload ?x) with (enc List x) in Hl.
    pose proof (len_enc_ge List (concat (map enc_field (base_fields v ++ [FU64 (v_or_y_parity_ v); FU256 (r_ v); FU256 (s_ v)])))) as Hp.
    rewrite map_app, concat_app, len_app in Hp. pose proof (len_nonneg (type_prefix (type_ v))).
    match type of Hp with context [_ + len ?y ≤ _] => pose proof (len_nonneg y) end. rewrite map_app, concat_app in Hl. lia. }
  unfold signed_fields. destruct (type_ v) eqn:Et; try (rewrite app_nil_r; split; [done|lia]).
  destruct (35 <=? v_or_y_parity_ v) eqn:E35; [|rewrite app_nil_r; split; [done|lia]].
  pose proof (envelope_chain env v H Et) as Hc. rewrite E35 in Hc. apply Z.leb_le in E35.
  apply Forall_cons in Hs as [Hv _]. cbn in Hv.
  assert (Hcr : in_u64 (chain_id_ v)).
  { rewrite Hc. unfold in_u64 in *. split; [apply Z.div_pos; lia|]. apply Z.div_lt_upper_bound; lia. }
  split.
  - apply Forall_app. split; [done|]. assert (in_u64 0) by (unfold in_u64; lia). by repeat (apply Forall_cons; split; [done|]).
  - rewrite map_app, concat_app, len_app. cbn [map concat enc_field]. rewrite !len_app. pose proof (len_u64_item _ Hcr). pose proof (len_u64_item 0 ltac:(unfold in_u64; lia)).
    change (len []) with 0. lia.
Qed.

Lemma list_first_byte l (b : byte) rest : len (concat l) < 2 ^ 32 → b2z b < 0x80 → b :: rest ≠ encode_list l.
Proof.
  intros Hl Hb E. rewrite encode_list_spec in E. pose proof (decode_enc List (concat l) [] Hl) as D. rewrite app_nil_r in D.
  change (enc List (concat l)) with (encode_list_payload (concat l)) in D. rewrite <- E in D. unfold decode_item in D. apply Z.ltb_lt in Hb. rewrite Hb in D. done.
Qed.
Lemma type_prefix_inj t t' l l' :
  len (concat l) < 2 ^ 32 → len (concat l') < 2 ^ 32 → type_prefix t ++ encode_list l = type_prefix t' ++ encode_list l' → t = t'.
Proof.
  intros Hl Hl' E. destruct t, t'; try done; cbn [type_prefix tx_type_byte app] in E;
    first [by injection E|exfalso; symmetry in E; revert E; by apply list_first_byte|exfalso; revert E; by apply list_first_byte].
Qed.
Lemma signed_shape v v' : type_ v = type_ v' → length (signed_fields v) = length (signed_fields v') → Forall2 same_shape (signed_fields v) (signed_fields v').
Proof.
  intros Et. unfold signed_fields, base_fields, dynamic_fields, tail_fields. rewrite <- Et. destruct (type_ v); try (intros _; by repeat constructor).
  destruct (35 <=? v_or_y_parity_ v), (35 <=? v_or_y_parity_ v'); cbn; intros HL; try done; by repeat constructor.
Qed.

Lemma signing_binds env env' v v' : len env < 2 ^ 31 → len env' < 2 ^ 31 → parse_envelope env = Ok v → parse_envelope env' = Ok v' →
  signing_preimage v = signing_preimage v' → type_ v = type_ v' ∧ signed_fields v = signed_fields v'.
Proof.
  intros Hl Hl' H H' E. destruct (signed_ok env v Hl H) as [Hok Hs]. destruct (signed_ok env' v' Hl' H') as [Hok' Hs'].
  rewrite !signing_preimage_spec in E. apply Ok_inj in E. pose proof (type_prefix_inj _ _ _ _ Hs Hs' E) as Et. split; [done|].
  rewrite <- Et in E. apply app_inv_head in E.
  assert (Hit : ∀ l, Forall field_ok l → Forall is_item (map enc_field l)) by (intros l Hf; apply Forall_fmap; eapply Forall_impl; [exact Hf|exact field_item]).
  apply list_inj in E; [|by apply Hit|by apply Hit|done|done]. apply enc_fields_inj; [|done|done|done].
  apply signed_shape; [done|]. apply (f_equal length) in E. by rewrite !length_map in E.
Qed.
End Commitment.

(** ** The transactions root *)

Section Root.
Context (keccak256 : bytes → Z) (keccak_range : ∀ b, in_u256 (keccak256 b)) (ecrecover_address : Z → Z → Z → Z → option Z).
Abbreviation parse_envelope := (parse_envelope keccak256 ecrecover_address).
Abbreviation transactions := (transactions keccak256 ecrecover_address).

(** The leaves: each envelope under the encoding of its index. *)
Definition leaves_from (i : Z) (envs : list bytes) : list (bytes * bytes) := imap (λ k env, (encode_u64 (i + Z.of_nat k), env)) envs.

Lemma advance_len n (c c' : cursor) : advance_checked n c = Ok c' → len c' ≤ len c ∧ n ≤ len c.
Proof.
  unfold advance_checked, stream_remaining. intros H. apply bind_Ok in H as (_ & E%fatal_if_Ok & <-%Ok_inj). apply Z.ltb_ge in E.
  split; [|done]. unfold len. rewrite length_drop. lia.
Qed.
Lemma read_transactions_spec n i c views size trie views' size' trie' c' :
  read_transactions keccak256 ecrecover_address n i c views size trie = Ok (views', size', trie', c') →
  ∃ envs vs, length envs = n ∧ views' = views ++ vs ∧ trie' = trie ++ leaves_from i envs ∧
    Forall2 (λ env v, parse_envelope env = Ok v) envs vs ∧ Forall (λ env, len env ≤ len c) envs.
Proof.
  revert i c views size trie. induction n as [|n IH]; intros i c views size trie H.
  - cbn in H. apply Ok_inj in H. injection H as <- <- <- <-. exists [], []. by rewrite !app_nil_r.
  - cbn [read_transactions] in H. apply bind_Ok in H as ([env_size c1] & H1 & H). cbv zeta in H. apply bind_Ok in H as (c2 & H2%advance_len & H).
    apply bind_Ok in H as (c3 & H3%advance_len & H). apply bind_Ok in H as (v & Hv & H). destruct (IH _ _ _ _ _ H) as (envs & vs & Hn & -> & -> & HF & Hle).
    assert (H1' : len c1 ≤ len c).
    { unfold read_u64_le in H1. apply bind_Ok in H1 as (_ & _ & [= _ <-]%Ok_inj). unfold len. rewrite length_drop. lia. }
    exists (take (Z.to_nat env_size) c1 :: envs), (v :: vs). split_and!.
    + cbn. by rewrite Hn.
    + by rewrite <- app_assoc.
    + unfold insert. rewrite <- app_assoc. unfold leaves_from. cbn [imap app]. rewrite Z.add_0_r. do 2 f_equal. apply imap_ext. intros k env _. cbn. do 2 f_equal. lia.
    + by constructor.
    + constructor.
      * unfold len in *. rewrite length_take. lia.
      * eapply Forall_impl; [exact Hle|]. cbn. intros. lia.
Qed.

Lemma leaf_keys_inj i envs : 0 ≤ i → i + Z.of_nat (length envs) < 2 ^ 64 → NoDup (map fst (leaves_from i envs)).
Proof.
  intros Hi Hl. apply NoDup_alt. intros j k x. unfold leaves_from. rewrite !list_lookup_fmap, !list_lookup_imap.
  destruct (envs !! j) eqn:Ej, (envs !! k) eqn:Ek; cbn; try done. apply lookup_lt_Some in Ej, Ek. intros [= <-] [= E].
  apply encode_u64_inj in E; unfold in_u64; lia.
Qed.
Lemma leaves_ok i envs : 0 ≤ i → i + Z.of_nat (length envs) < 2 ^ 64 → Forall (λ env, env ≠ [] ∧ len env < 2 ^ 31) envs → Forall entry_ok (leaves_from i envs).
Proof.
  intros Hi Hl HF. apply Forall_lookup. intros k [key env]. unfold leaves_from. rewrite list_lookup_imap. destruct (envs !! k) as [e|] eqn:E; [|done]. cbn. intros [= <- <-].
  eapply Forall_lookup in HF as [Hne Hlen]; [|exact E]. apply lookup_lt_Some in E.
  unfold entry_ok. cbn [fst snd]. split_and!; [|done|done]. pose proof (len_u64_item (i + Z.of_nat k) ltac:(unfold in_u64; lia)). unfold len in *. lia.
Qed.
Lemma leaves_perm i envs envs' : 0 ≤ i → i + Z.of_nat (length envs) < 2 ^ 64 → leaves_from i envs ≡ₚ leaves_from i envs' → envs = envs'.
Proof.
  intros Hi Hl Hp. assert (Hlen : length envs = length envs') by (pose proof (Permutation_length Hp) as E; unfold leaves_from in E; by rewrite !length_imap in E).
  apply list_eq_same_length with (n := length envs); [done|done|]. intros k x y Hk Hx Hy.
  assert (Hin : (encode_u64 (i + Z.of_nat k), x) ∈ leaves_from i envs').
  { rewrite <- Hp. apply list_elem_of_lookup. exists k. unfold leaves_from. by rewrite list_lookup_imap, Hx. }
  apply list_elem_of_lookup in Hin as [k' Hk']. unfold leaves_from in Hk'. rewrite list_lookup_imap in Hk'.
  destruct (envs' !! k') as [z|] eqn:Ez; [|done]. cbn in Hk'. injection Hk' as E <-. pose proof (lookup_lt_Some _ _ _ Ez).
  apply encode_u64_inj in E; [|unfold in_u64; lia..]. assert (k' = k) as -> by lia. congruence.
Qed.

(** What the constructor read. *)
Lemma transactions_spec c T c' : len c < 2 ^ 31 → transactions c = Ok (T, c') →
  ∃ envs, envs = map envelope_ (views_ T) ∧ Forall2 (λ env v, parse_envelope env = Ok v) envs (views_ T) ∧ root_hash keccak256 (leaves_from 0 envs) = Ok (transactions_root_ T) ∧
    Z.of_nat (length envs) < 2 ^ 31 ∧ Forall (λ env, env ≠ [] ∧ len env < 2 ^ 31) envs.
Proof.
  intros Hl H. unfold Transactions.transactions in H. apply bind_Ok in H as ([count c1] & H1 & H). apply bind_Ok in H as (_ & Hc%fatal_if_Ok & H). apply Z.ltb_ge in Hc.
  apply bind_Ok in H as ([[[views size] trie] c2] & Hr & H). apply bind_Ok in H as (root & Hroot & [= <- <-]%Ok_inj).
  apply read_transactions_spec in Hr as (envs & vs & Hn & -> & -> & HF & Hle).
  assert (H1' : len c1 ≤ len c).
  { unfold read_u64_le in H1. apply bind_Ok in H1 as (_ & _ & [= _ <-]%Ok_inj). unfold len. rewrite length_drop. lia. }
  exists envs. cbn [views_ transactions_root_ app] in *. split_and!; [|done|done| |].
  - apply list_eq_Forall2, Forall2_fmap_r, Forall2_same_length_lookup. split; [by eapply Forall2_length|]. intros k env v Hk Hv.
    eapply Forall2_lookup_lr in HF as Hp; [|exact Hk|exact Hv]. eapply Forall_lookup in Hle; [|exact Hk]. cbn in Hle.
    destruct (parse_envelope_spec keccak256 ecrecover_address env v ltac:(lia) Hp) as (_ & _ & _ & He & _). exact (eq_sym He).
  - unfold stream_remaining in Hc. pose proof (len_nonneg c1). assert (len c1 / 8 ≤ len c1) by (apply Z.div_le_upper_bound; lia). lia.
  - apply Forall_lookup. intros k env Hk. destruct (Forall2_lookup_l _ _ _ _ _ HF Hk) as (v & _ & Hv). eapply Forall_lookup in Hle; [|exact Hk]. cbn in Hle.
    destruct (parse_envelope_spec keccak256 ecrecover_address env v ltac:(lia) Hv) as (_ & _ & Hne & _). split; [done|lia].
Qed.
Lemma views_unique envs vs vs' :
  Forall2 (λ env v, parse_envelope env = Ok v) envs vs → Forall2 (λ env v, parse_envelope env = Ok v) envs vs' → vs = vs'.
Proof.
  intros H. revert vs'. induction H as [|env v envs vs Hv _ IH]; intros l Hl; [by inversion Hl|].
  apply Forall2_cons_inv_l in Hl as (v' & l' & Hv' & Hl' & ->). rewrite Hv in Hv'. apply Ok_inj in Hv' as <-. f_equal. by apply IH.
Qed.
(** The encodings of the nodes of the transactions trie. *)
Definition transaction_nodes (T : Transactions) : list bytes := entry_nodes keccak256 (leaves_from 0 (map envelope_ (views_ T))).
Lemma transactions_root_binds c1 c2 T1 T2 c1' c2' : len c1 < 2 ^ 31 → len c2 < 2 ^ 31 → transactions c1 = Ok (T1, c1') → transactions c2 = Ok (T2, c2') →
  collision_free keccak256 (transaction_nodes T1) (transaction_nodes T2) →
  transactions_root_ T1 = transactions_root_ T2 → map envelope_ (views_ T1) = map envelope_ (views_ T2) ∧ views_ T1 = views_ T2.
Proof.
  unfold transaction_nodes. intros Hl1 Hl2 H1 H2 Hcf E.
  destruct (transactions_spec _ _ _ Hl1 H1) as (e1 & X1 & HF1 & Hr1 & Hn1 & Hok1). destruct (transactions_spec _ _ _ Hl2 H2) as (e2 & X2 & HF2 & Hr2 & Hn2 & Hok2).
  rewrite <- X1, <- X2 in *. rewrite E in Hr1. pose proof (root_binding keccak256 keccak_range _ _ _ (leaf_keys_inj 0 e1 ltac:(lia) ltac:(lia)) (leaf_keys_inj 0 e2 ltac:(lia) ltac:(lia))
    (leaves_ok 0 e1 ltac:(lia) ltac:(lia) Hok1) (leaves_ok 0 e2 ltac:(lia) ltac:(lia) Hok2) Hcf Hr1 Hr2) as Hp.
  apply leaves_perm in Hp as <-; [|lia|lia]. split; [done|]. by apply (views_unique e1).
Qed.
End Root.

(** ** The claims *)

(** C17.  Only canonical envelopes are accepted.  The envelope of an accepted
    transaction is exactly the encoding of the fields parsed from it, type byte,
    nested lists and signature included, and every field is of its width: no two
    envelopes carry one transaction, and nothing of the envelope is ignored. *)
Theorem envelope_canonical keccak256 ecrecover_address env v :
  len env < 2 ^ 32 → parse_envelope keccak256 ecrecover_address env = Ok v →
  env = encode_envelope v ∧ envelope_ v = env ∧ transaction_hash_ v = keccak256 env ∧
  Forall field_ok (base_fields v ++ [FU64 (v_or_y_parity_ v); FU256 (r_ v); FU256 (s_ v)]).
Proof. intros Hl H. by destruct (parse_envelope_spec _ _ env v Hl H) as (? & ? & _ & ? & ?). Qed.

(** C20.  A signature commits to the whole transaction.  Two accepted
    transactions with the same signing hash have the same type and the same
    signed fields (EIP-155's chain id included), or exhibit a keccak256
    collision: a signature cannot be moved to another type, chain, recipient,
    fee, access list, blob list or authorization list. *)
Theorem signing_hash_binds keccak256 ecrecover_address env env' v v' h :
  len env < 2 ^ 31 → len env' < 2 ^ 31 →
  parse_envelope keccak256 ecrecover_address env = Ok v → parse_envelope keccak256 ecrecover_address env' = Ok v' →
  compute_signing_hash keccak256 v = Ok h → compute_signing_hash keccak256 v' = Ok h →
  collision keccak256 ∨ (type_ v = type_ v' ∧ signed_fields v = signed_fields v').
Proof.
  intros Hl Hl' H H' E E'. unfold compute_signing_hash in E, E'. apply bind_Ok in E as (p & Ep & E), E' as (p' & Ep' & E'). apply Ok_inj in E, E'.
  destruct (decide (p = p')) as [<-|Hd]; [right|left; exists p, p'; split; congruence].
  eapply (signing_binds _ _ env env'); [exact Hl|exact Hl'|exact H|exact H'|congruence].
Qed.

(** C21.  The transactions root binds what is executed.  Two inputs, shorter than
    2 GiB, that the constructor accepts with the same transactions root hold the
    same envelopes in the same order and give the same transactions, senders
    included, provided keccak256 tells the nodes of the two transaction tries apart
    (two finite lists of encodings, [transaction_nodes]). *)
Theorem transactions_root_binding keccak256 ecrecover_address c1 c2 T1 T2 c1' c2' :
  (∀ b, in_u256 (keccak256 b)) → len c1 < 2 ^ 31 → len c2 < 2 ^ 31 →
  transactions keccak256 ecrecover_address c1 = Ok (T1, c1') → transactions keccak256 ecrecover_address c2 = Ok (T2, c2') →
  collision_free keccak256 (transaction_nodes keccak256 T1) (transaction_nodes keccak256 T2) →
  transactions_root_ T1 = transactions_root_ T2 → map envelope_ (views_ T1) = map envelope_ (views_ T2) ∧ views_ T1 = views_ T2.
Proof. intros Hk Hl1 Hl2 H1 H2 Hcf E. exact (transactions_root_binds keccak256 Hk ecrecover_address c1 c2 T1 T2 c1' c2' Hl1 Hl2 H1 H2 Hcf E). Qed.

(** ** Two transactions *)

Definition toy_recover (h r s v : Z) : option Z := Some (h mod 2 ^ 160).
(** A legacy call with EIP-155 protection and a type-2 call with an access list. *)
Definition legacy_env : bytes :=
  encode_list [encode_u64 7; encode_u256 1000; encode_u64 21000; encode (be_bytes 20 0xaa); encode_u256 5; encode (map z2b [1; 2; 3]);
               encode_u64 37; encode_u256 11; encode_u256 12].
(** The same call under another signature. *)
Definition resigned_env : bytes :=
  encode_list [encode_u64 7; encode_u256 1000; encode_u64 21000; encode (be_bytes 20 0xaa); encode_u256 5; encode (map z2b [1; 2; 3]);
               encode_u64 38; encode_u256 13; encode_u256 14].
Definition dynamic_env : bytes :=
  Byte.x02 :: encode_list [encode_u64 1; encode_u64 8; encode_u256 1; encode_u256 1000; encode_u64 50000; encode []; encode_u256 0; encode (map z2b [0x60]);
    encode_list [encode_list [encode (be_bytes 20 0xbb); encode_list [encode (be_bytes 32 3)]]]; encode_u64 1; encode_u256 11; encode_u256 12].
Definition tx_input : bytes :=
  put_u64_le 2 ++ put_u64_le (len legacy_env) ++ put_padded legacy_env ++ put_u64_le (len dynamic_env) ++ put_padded dynamic_env.
Definition no_view : View := view_of Legacy.
Definition get_ok {A} (d : A) (r : res A) : A := match r with Ok x => x | Fatal _ => d end.
Definition legacy_view : View := Eval vm_compute in get_ok no_view (parse_envelope toy_hash toy_recover legacy_env).
Definition resigned_view : View := Eval vm_compute in get_ok no_view (parse_envelope toy_hash toy_recover resigned_env).
(** The same transactions in front of other data, padded with other bytes. *)
Definition tx_input' : bytes :=
  put_u64_le 2 ++ put_u64_le (len legacy_env) ++ legacy_env ++ replicate (Z.to_nat ((- len legacy_env) mod 8)) Byte.xee ++
  put_u64_le (len dynamic_env) ++ put_padded dynamic_env ++ replicate 8 Byte.xff.
Definition two_txs' : Transactions * cursor := Eval vm_compute in get_ok (mkTransactions [] 0 0, []) (transactions toy_hash toy_recover tx_input').
Definition two_txs : Transactions * cursor := Eval vm_compute in get_ok (mkTransactions [] 0 0, []) (transactions toy_hash toy_recover tx_input).
Lemma legacy_parsed : parse_envelope toy_hash toy_recover legacy_env = Ok legacy_view.
Proof. by vm_compute. Qed.
Lemma two_txs_read : transactions toy_hash toy_recover tx_input = Ok two_txs.
Proof. by vm_compute. Qed.
Lemma two_txs_views : length (views_ two_txs.1) = 2%nat ∧ two_txs.2 = [].
Proof. by vm_compute. Qed.

Lemma envelope_canonical_witness : legacy_env = encode_envelope legacy_view ∧ envelope_ legacy_view = legacy_env ∧
  transaction_hash_ legacy_view = toy_hash legacy_env ∧ Forall field_ok (base_fields legacy_view ++ [FU64 37; FU256 11; FU256 12]).
Proof. apply (envelope_canonical toy_hash toy_recover legacy_env legacy_view); [by vm_compute|exact legacy_parsed]. Defined.
Lemma resigned_parsed : parse_envelope toy_hash toy_recover resigned_env = Ok resigned_view.
Proof. by vm_compute. Qed.
Lemma signing_hash_binds_witness :
  bool_decide (envelope_ legacy_view = envelope_ resigned_view) = false ∧
  (collision toy_hash ∨ (type_ legacy_view = type_ resigned_view ∧ signed_fields legacy_view = signed_fields resigned_view)).
Proof.
  split; [by vm_compute|].
  apply (signing_hash_binds toy_hash toy_recover legacy_env resigned_env legacy_view resigned_view (get_ok 0 (compute_signing_hash toy_hash legacy_view)));
    [by vm_compute|by vm_compute|exact legacy_parsed|exact resigned_parsed|by vm_compute|by vm_compute].
Defined.
Lemma two_txs_read' : transactions toy_hash toy_recover tx_input' = Ok two_txs'.
Proof. by vm_compute. Qed.
Lemma two_txs_apart : collision_free toy_hash (transaction_nodes toy_hash two_txs.1) (transaction_nodes toy_hash two_txs'.1).
Proof. apply (bool_decide_unpack (collision_free _ _ _)). by vm_compute. Qed.
(** Two inputs that differ in their padding and in what follows. *)
Lemma transactions_root_binding_witness :
  bool_decide (tx_input = tx_input') = false ∧
  map envelope_ (views_ two_txs.1) = map envelope_ (views_ two_txs'.1) ∧ views_ two_txs.1 = views_ two_txs'.1.
Proof.
  split; [by vm_compute|].
  apply (transactions_root_binding toy_hash toy_recover tx_input tx_input' two_txs.1 two_txs'.1 [] (replicate 8 Byte.xff));
    [exact toy_range|by vm_compute|by vm_compute|exact two_txs_read|exact two_txs_read'|exact two_txs_apart|by vm_compute].
Defined.

End Transactions.
