(* ===== verification/Consensus.v ===== *)
(** The header inputs of the block ([include/zeg/consensus_info.hpp],
    [src/consensus_info.cpp]), the fork schedule ([include/zeg/fork_schedule.hpp]),
    the blob fee curve ([src/fake_exponential.cpp]) and the header checks against
    the parent ([src/run.cpp], steps 3 to 3.9). *)

From stdpp Require Import base numbers list strings gmap.
From S2P Require Import Prelude Fork Rlp Contracts Chain.

Set Default Goal Selector "!".

Module Consensus.
Import Fork Rlp Stream.

(** ** The fork schedule *)

(** The build options: ZEG_FORK_FROM_INPUT and ZEG_CHAIN_SEPOLIA. *)
Record Build := mkBuild { fork_from_input : bool; sepolia : bool }.

Definition kChainId (b : Build) : Z := if sepolia b then 11155111 else 1.
Definition kGasPerBlob : Z := 131072.
Definition kMinBaseFeePerBlobGas : Z := 1.
Definition kBlobBaseFeeUpdateFraction : Z := 11684671.

Record ForkParams := mkParams {
  fork : Z;
  target_blob_gas : Z;
  max_blob_gas : Z;
  p_blob_base_fee_update_fraction : Z }.

(** Newest first: a row applies from its activation on. *)
Definition kForkSchedule (b : Build) : list (Z * ForkParams) :=
  if sepolia b then
    [(1791294816, mkParams fk_Amsterdam (14 * kGasPerBlob) (21 * kGasPerBlob) 11684671);
     (1761607008, mkParams fk_Osaka (14 * kGasPerBlob) (21 * kGasPerBlob) 11684671);
     (1761017184, mkParams fk_Osaka (10 * kGasPerBlob) (15 * kGasPerBlob) 8346193);
     (1760427360, mkParams fk_Osaka (6 * kGasPerBlob) (9 * kGasPerBlob) 5007716);
     (1741159776, mkParams fk_Prague (6 * kGasPerBlob) (9 * kGasPerBlob) 5007716);
     (1706655072, mkParams fk_Cancun (3 * kGasPerBlob) (6 * kGasPerBlob) 3338477)]
  else
    [(1767747671, mkParams fk_Osaka (14 * kGasPerBlob) (21 * kGasPerBlob) 11684671);
     (1765290071, mkParams fk_Osaka (10 * kGasPerBlob) (15 * kGasPerBlob) 8346193);
     (1764798551, mkParams fk_Osaka (6 * kGasPerBlob) (9 * kGasPerBlob) 5007716);
     (1746612311, mkParams fk_Prague (6 * kGasPerBlob) (9 * kGasPerBlob) 5007716);
     (1710338135, mkParams fk_Cancun (3 * kGasPerBlob) (6 * kGasPerBlob) 3338477)].

Definition fork_params_at (b : Build) (timestamp : Z) : ForkParams :=
  match List.find (λ row, row.1 <=? timestamp) (kForkSchedule b) with
  | Some row => row.2
  | None => mkParams fk_Unknown 0 0 0
  end.

(** ** ConsensusInfo *)

Definition kFixedPrefixSize : Z := 376.
Definition kWithdrawalRecordSize : Z := 48.

(** [header_] points at the fixed prefix, a withdrawal at its record. *)
Record ConsensusInfo := mkConsensus { header_ : bytes; withdrawals_ : list bytes }.

Definition u64_at (off : Z) (p : bytes) : Z := le_val (slice p off (off + 8)).
Definition hash_at (off : Z) (p : bytes) : Z := be_val (slice p off (off + 32)).
Definition address_at (off : Z) (p : bytes) : Z := be_val (slice p off (off + 20)).

Definition w_index (w : bytes) : Z := u64_at 0 w.
Definition w_validator_index (w : bytes) : Z := u64_at 8 w.
Definition w_address (w : bytes) : Z := address_at 16 w.
Definition w_amount_gwei (w : bytes) : Z := u64_at 40 w.

Definition parent_hash (c : ConsensusInfo) : Z := hash_at 0 (header_ c).
Definition beneficiary (c : ConsensusInfo) : Z := address_at 32 (header_ c).
Definition number (c : ConsensusInfo) : Z := u64_at 56 (header_ c).
Definition gas_limit (c : ConsensusInfo) : Z := u64_at 64 (header_ c).
Definition timestamp (c : ConsensusInfo) : Z := u64_at 72 (header_ c).
Definition extra_data (c : ConsensusInfo) : bytes := slice (header_ c) 88 (88 + u64_at 80 (header_ c)).
Definition prev_randao (c : ConsensusInfo) : Z := hash_at 120 (header_ c).
Definition parent_beacon_block_root (c : ConsensusInfo) : Z := hash_at 152 (header_ c).
Definition base_fee_per_gas (c : ConsensusInfo) : Z := hash_at 184 (header_ c).
Definition excess_blob_gas (c : ConsensusInfo) : Z := u64_at 224 (header_ c).
Definition requests_hash (c : ConsensusInfo) : Z := hash_at 232 (header_ c).
Definition difficulty (c : ConsensusInfo) : Z := hash_at 264 (header_ c).
Definition nonce (c : ConsensusInfo) : bytes := slice (header_ c) 296 304.
Definition ommers_hash (c : ConsensusInfo) : Z := hash_at 304 (header_ c).

Section Build.
Context (build : Build).

Definition fork_id (c : ConsensusInfo) : Z :=
  if fork_from_input build then
    let f := u64_at 336 (header_ c) in if f =? fk_Unknown then fk_Prague else f
  else fork (fork_params_at build (timestamp c)).
Definition blob_base_fee_update_fraction (c : ConsensusInfo) : Z :=
  if fork_from_input build then
    let v := u64_at 344 (header_ c) in if negb (v =? 0) then v else kBlobBaseFeeUpdateFraction
  else p_blob_base_fee_update_fraction (fork_params_at build (timestamp c)).
Definition target_blob_gas_per_block (c : ConsensusInfo) : Z :=
  if fork_from_input build then u64_at 352 (header_ c) else target_blob_gas (fork_params_at build (timestamp c)).
Definition max_blob_gas_per_block (c : ConsensusInfo) : Z :=
  if fork_from_input build then u64_at 360 (header_ c) else max_blob_gas (fork_params_at build (timestamp c)).
Definition slot_number (c : ConsensusInfo) : Z :=
  if fork_id c <? fk_Amsterdam then 0 else u64_at 368 (header_ c).

Fixpoint read_withdrawals (n : nat) (c : cursor) : res (list bytes * cursor) :=
  match n with
  | O => Ok ([], c)
  | S n =>
      let w := take (Z.to_nat kWithdrawalRecordSize) c in
      c ← advance_checked kWithdrawalRecordSize c;
      '(ws, c) ← read_withdrawals n c;
      Ok (w :: ws, c)
  end.

Definition consensus_info (c : cursor) : res (ConsensusInfo * cursor) :=
  let header := take (Z.to_nat kFixedPrefixSize) c in
  c ← advance_checked kFixedPrefixSize c;
  let info := mkConsensus header [] in
  _ ← fatal_if (32 <? u64_at 80 header) "ConsensusInfo: extra_data_len > 32";
  _ ← fatal_if (fk_Amsterdam <? u64_at 336 header) "ConsensusInfo: unknown fork_id";
  _ ← (if fork_from_input build then Ok tt
       else fatal_if (negb (u64_at 336 header =? fork_id info))
              "ConsensusInfo: fork_id does not match the chain's fork schedule");
  _ ← fatal_if ((fork_id info <? fk_Amsterdam) && negb (u64_at 368 header =? 0))
        "ConsensusInfo: non-zero slot_number before Amsterdam";
  let n := u64_at 216 header in
  _ ← fatal_if (stream_remaining c / kWithdrawalRecordSize <? n) "ConsensusInfo: withdrawals_count exceeds input size";
  '(ws, c) ← read_withdrawals (Z.to_nat n) c;
  Ok (mkConsensus header ws, c).
End Build.

(** ** The blob base fee *)

(** At most [p] rounds of a loop body, stopping when it returns [inr]. *)
Fixpoint loop {S R} (p : positive) (f : S → S + R) (s : S) : S + R :=
  match p with
  | xH => f s
  | xO p => match loop p f s with inl s => loop p f s | inr r => inr r end
  | xI p => match f s with inl s => match loop p f s with inl s => loop p f s | inr r => inr r end | inr r => inr r end
  end.

Record FakeExp := mkFakeExp { fe_output : Z; fe_accum : Z; fe_i : Z }.
Definition fake_step (num denom : Z) (s : FakeExp) : FakeExp + Z :=
  if 0 <? fe_accum s then
    inl (mkFakeExp (u256 (fe_output s + fe_accum s)) (u256 (fe_accum s * num) / u256 (denom * fe_i s)) (u256 (fe_i s + 1)))
  else inr (fe_output s).
(** The loop has no bound of its own; [fake_exponential_total] shows that this
    many rounds always suffice. *)
Definition fake_rounds : positive := 2 ^ 66.
Definition fake_exponential (factor numerator denominator : Z) : res Z :=
  match loop fake_rounds (fake_step numerator denominator) (mkFakeExp 0 (u256 (factor * denominator)) 1) with
  | inr output => Ok (output / denominator)
  | inl _ => Fatal "fake_exponential: out of rounds"
  end.

(** ** The header against its parent *)

Definition kBlobBaseCost : Z := 8192.
Definition kElasticityMultiplier : Z := 2.
Definition kBaseFeeMaxChangeDenominator : Z := 8.
Definition kInitialBaseFee : Z := 1000000000.
Definition kMinGasLimit : Z := 5000.
Definition INT64_MAX : Z := 2 ^ 63 - 1.
Definition kEmptyOmmersHash : Z := 0x1dcc4de8dec75d7aab85b567b6ccd41ad312451b948a7413f0a142fd40d49347.

Section Checks.
Context (build : Build) (c : ConsensusInfo) (parent : Chain.BlockHeader).
Abbreviation fork_id := (fork_id build c).

Definition expected_excess_blob_gas : res Z :=
  let parent_used := Chain.blob_gas_used parent in
  let parent_sum := u64 (Chain.excess_blob_gas parent + parent_used) in
  let target := target_blob_gas_per_block build c in
  if parent_sum <? target then Ok 0
  else if fk_Osaka <=? fork_id then
    parent_blob_base_fee ← fake_exponential kMinBaseFeePerBlobGas (Chain.excess_blob_gas parent)
                             (blob_base_fee_update_fraction build c);
    if u256 (kGasPerBlob * parent_blob_base_fee) <? u256 (kBlobBaseCost * Chain.base_fee_per_gas parent) then
      let max := max_blob_gas_per_block build c in
      let scaled := u256 (parent_used * u64 (max - target)) / max in
      Ok (u64 (Chain.excess_blob_gas parent + u64 scaled))
    else Ok (parent_sum - target)
  else Ok (parent_sum - target).
Definition check_excess_blob_gas : res unit :=
  if fk_Cancun <=? fork_id then
    expected_excess ← expected_excess_blob_gas;
    fatal_if (negb (excess_blob_gas c =? expected_excess)) "excess_blob_gas mismatch"
  else Ok tt.

Definition expected_base_fee : Z :=
  let parent_base_fee := Chain.base_fee_per_gas parent in
  if parent_base_fee =? 0 then kInitialBaseFee else
  let parent_gas_target := Chain.gas_limit parent / kElasticityMultiplier in
  let parent_gas_used := Chain.gas_used parent in
  if parent_gas_used =? parent_gas_target then parent_base_fee
  else if parent_gas_target <? parent_gas_used then
    let delta := u256 (parent_base_fee * (parent_gas_used - parent_gas_target)) / parent_gas_target / kBaseFeeMaxChangeDenominator in
    u256 (parent_base_fee + (if 0 <? delta then delta else 1))
  else
    let delta := u256 (parent_base_fee * (parent_gas_target - parent_gas_used)) / parent_gas_target / kBaseFeeMaxChangeDenominator in
    if delta <? parent_base_fee then parent_base_fee - delta else 0.
Definition check_base_fee : res unit :=
  if fk_London <=? fork_id then
    fatal_if (negb (base_fee_per_gas c =? expected_base_fee)) "base_fee_per_gas mismatch"
  else Ok tt.

Definition check_gas_limit : res unit :=
  _ ← fatal_if (gas_limit c <? kMinGasLimit) "gas_limit below the minimum (5000)";
  fatal_if (INT64_MAX <? gas_limit c) "gas_limit above the maximum (2^63 - 1)".

Definition check_parent_bound : res unit :=
  _ ← fatal_if (negb (number c =? u64 (Chain.number parent + 1))) "block number is not parent number + 1";
  _ ← fatal_if (timestamp c <=? Chain.timestamp parent) "block timestamp is not after the parent's";
  let parent_gas_limit :=
    if (fk_London <=? fork_id) && (Chain.base_fee_per_gas parent =? 0) then u64 (Chain.gas_limit parent * 2)
    else Chain.gas_limit parent in
  let max_delta := parent_gas_limit / 1024 in
  fatal_if ((u64 (parent_gas_limit + max_delta) <=? gas_limit c) || (gas_limit c <=? parent_gas_limit - max_delta))
    "gas_limit differs from the parent's by 1/1024 or more".

Definition check_post_merge : res unit :=
  if fk_Paris <=? fork_id then
    fatal_if (negb (difficulty c =? 0) || existsb (λ b, negb (b2z b =? 0)) (nonce c) || negb (ommers_hash c =? kEmptyOmmersHash))
      "post-Merge header has PoW fields set (difficulty, nonce or ommers)"
  else Ok tt.

(** Steps 3.5 to 3.9, in their order. *)
Definition check_header : res unit :=
  _ ← check_excess_blob_gas;
  _ ← check_base_fee;
  _ ← check_gas_limit;
  _ ← check_parent_bound;
  check_post_merge.
End Checks.
(** ** The fee loop stops *)

Lemma loop_inv {S R} (f : S → S + R) (I : Z → S → Prop) :
  (∀ k s s', I k s → f s = inl s' → I (k + 1) s') →
  ∀ p k s s', I k s → loop p f s = inl s' → I (k + Z.pos p) s'.
Proof.
  intros Hf p. induction p as [p IH|p IH|]; intros k s s' Hk E; cbn [loop] in E.
  - destruct (f s) as [s1|] eqn:E1; [|done]. destruct (loop p f s1) as [s2|] eqn:E2; [|done].
    replace (k + Z.pos p~1) with (k + 1 + Z.pos p + Z.pos p) by lia. eapply IH; [|exact E]. eapply IH; [|exact E2]. by eapply Hf.
  - destruct (loop p f s) as [s1|] eqn:E1; [|done]. replace (k + Z.pos p~0) with (k + Z.pos p + Z.pos p) by lia.
    eapply IH; [|exact E]. by eapply IH.
  - by eapply Hf.
Qed.

Section FakeExponential.
Context (num denom : Z) (Hnum : in_u64 num) (Hdenom : 0 < denom < 2 ^ 64).

(** After [k] rounds.  From 2^64 rounds on the product no longer wraps, from 2^65
    on the accumulator is halved every round. *)
Definition fe_inv (k : Z) (s : FakeExp) : Prop :=
  0 ≤ k ≤ 2 ^ 65 + 200 ∧ fe_i s = k + 1 ∧ 0 ≤ fe_accum s < 2 ^ 256 ∧
  (2 ^ 64 ≤ k → fe_accum s < 2 ^ 192) ∧ (2 ^ 65 ≤ k → fe_accum s * 2 ^ (k - 2 ^ 65) < 2 ^ 192).

Lemma fe_divisor k : 0 ≤ k ≤ 2 ^ 65 + 200 → u256 (denom * (k + 1)) = denom * (k + 1) ∧ k + 1 ≤ denom * (k + 1).
Proof. intros Hk. split; [|nia]. unfold u256. apply Z.mod_small. nia. Qed.
Lemma fe_late k acc : 2 ^ 64 ≤ k + 1 → k ≤ 2 ^ 65 + 200 → u256 acc / u256 (denom * (k + 1)) < 2 ^ 192.
Proof.
  intros Hk Hk'. destruct (fe_divisor k ltac:(lia)) as [-> Hd]. apply Z.div_lt_upper_bound; [lia|].
  pose proof (Z.mod_pos_bound acc (2 ^ 256) ltac:(lia)) as Hb. unfold u256. nia.
Qed.
Lemma fe_halves k acc : 2 ^ 65 ≤ k ≤ 2 ^ 65 + 200 → 0 ≤ acc < 2 ^ 192 → 2 * (u256 (acc * num) / u256 (denom * (k + 1))) ≤ acc.
Proof.
  intros Hk Ha. destruct (fe_divisor k ltac:(lia)) as [-> Hd]. unfold in_u64 in Hnum. unfold u256. rewrite Z.mod_small by nia.
  assert (acc * num / (denom * (k + 1)) ≤ acc / 2); [|pose proof (Z.mul_div_le acc 2 ltac:(lia)); lia].
  apply Z.div_le_lower_bound; [lia|]. etrans; [apply Z.div_mul_le; lia|]. apply Z.div_le_upper_bound; [lia|]. nia.
Qed.

Lemma fe_step k s s' : fe_inv k s → fake_step num denom s = inl s' → fe_inv (k + 1) s'.
Proof.
  intros (Hk & Hi & Ha & H64 & H65) E. unfold fake_step in E. destruct (Z.ltb_spec 0 (fe_accum s)) as [Hpos|]; [|done]. injection E as <-.
  assert (Hlt : k < 2 ^ 65 + 200).
  { destruct (Z.eq_dec k (2 ^ 65 + 200)) as [->|]; [|lia]. specialize (H65 ltac:(lia)). replace (2 ^ 65 + 200 - 2 ^ 65) with 200 in H65 by lia. nia. }
  destruct (fe_divisor k Hk) as [Ed Hd]. unfold fe_inv. cbn [fe_i fe_accum]. rewrite Hi.
  pose proof (Z.mod_pos_bound (fe_accum s * num) (2 ^ 256) ltac:(lia)) as Hb. fold (u256 (fe_accum s * num)) in Hb.
  split_and!.
  - lia.
  - lia.
  - unfold u256 at 1. rewrite Z.mod_small; lia.
  - apply Z.div_pos; [lia|]. rewrite Ed. lia.
  - rewrite Ed. apply Z.div_lt_upper_bound; [lia|]. nia.
  - intros Hge. apply fe_late; lia.
  - intros Hge. destruct (Z.eq_dec (k + 1) (2 ^ 65)) as [Ek|Hne].
    + rewrite Ek, Z.sub_diag, Z.mul_1_r. rewrite <- Ek. apply fe_late; lia.
    + pose proof (fe_halves k (fe_accum s) ltac:(lia) ltac:(lia)) as Hh. specialize (H65 ltac:(lia)).
      replace (k + 1 - 2 ^ 65) with (Z.succ (k - 2 ^ 65)) by lia. rewrite Z.pow_succ_r by lia.
      pose proof (Z.pow_pos_nonneg 2 (k - 2 ^ 65) ltac:(lia) ltac:(lia)). nia.
Qed.
Lemma fake_exponential_stops factor : in_u64 factor → ∃ r, fake_exponential factor num denom = Ok r.
Proof.
  intros Hf. unfold fake_exponential. destruct (loop _ _ _) as [s|output] eqn:E; [exfalso|by eexists].
  apply (loop_inv _ fe_inv fe_step _ 0) in E.
  - destruct E as (Hk & _). unfold fake_rounds in Hk. lia.
  - unfold fe_inv. cbn [fe_i fe_accum]. pose proof (Z.mod_pos_bound (factor * denom) (2 ^ 256) ltac:(lia)). unfold u256. split_and!; lia.
Qed.
End FakeExponential.

(** ** The fee and limit rules *)

(** A parent header whose numbers are those of a real block. *)
Record parent_ok (p : Chain.BlockHeader) : Prop := {
  po_number : 0 ≤ Chain.number p < 2 ^ 64 - 1;
  po_limit : 2 ≤ Chain.gas_limit p < 2 ^ 62;
  po_used : 0 ≤ Chain.gas_used p ≤ Chain.gas_limit p;
  po_fee : 0 ≤ Chain.base_fee_per_gas p < 2 ^ 192;
  po_blob : 0 ≤ Chain.blob_gas_used p ∧ 0 ≤ Chain.excess_blob_gas p ∧ Chain.excess_blob_gas p + Chain.blob_gas_used p < 2 ^ 64 }.

(** The EIP-1559 step: an eighth of the fee, scaled by the distance to the target. *)
Definition fee_delta (p : Chain.BlockHeader) : Z :=
  let target := Chain.gas_limit p / 2 in
  Chain.base_fee_per_gas p * Z.abs (Chain.gas_used p - target) / target / 8.
Definition eip1559_base_fee (p : Chain.BlockHeader) : Z :=
  let fee := Chain.base_fee_per_gas p in
  let target := Chain.gas_limit p / 2 in
  if fee =? 0 then 1000000000
  else match Chain.gas_used p ?= target with
       | Eq => fee
       | Gt => fee + Z.max 1 (fee_delta p)
       | Lt => fee - fee_delta p
       end.

Lemma gas_target_bounds p : parent_ok p → 0 < Chain.gas_limit p / 2 ∧ Z.abs (Chain.gas_used p - Chain.gas_limit p / 2) ≤ Chain.gas_limit p / 2 + 1.
Proof. intros []. pose proof (Z.div_mod (Chain.gas_limit p) 2 ltac:(lia)). pose proof (Z.mod_pos_bound (Chain.gas_limit p) 2 ltac:(lia)). lia. Qed.
Lemma fee_delta_nonneg p : parent_ok p → 0 ≤ fee_delta p.
Proof. intros Hp. destruct (gas_target_bounds p Hp). destruct Hp. apply Z.div_pos; [|lia]. apply Z.div_pos; [|lia]. nia. Qed.
(** Below the target, the step is at most an eighth. *)
Lemma fee_delta_down p : parent_ok p → Chain.gas_used p < Chain.gas_limit p / 2 → fee_delta p ≤ Chain.base_fee_per_gas p / 8.
Proof.
  intros Hp Hlt. destruct (gas_target_bounds p Hp) as [Ht _]. destruct Hp. unfold fee_delta. cbv zeta. apply Z.div_le_mono; [lia|].
  apply Z.div_le_upper_bound; [lia|]. nia.
Qed.
Lemma expected_base_fee_spec p : parent_ok p → expected_base_fee p = eip1559_base_fee p.
Proof.
  intros Hp. pose proof (fee_delta_nonneg p Hp) as Hd. pose proof (fee_delta_down p Hp) as Hdown. destruct (gas_target_bounds p Hp) as [Ht Hb]. destruct Hp as [? ? ? Hfee ?].
  unfold expected_base_fee, eip1559_base_fee, kElasticityMultiplier, kBaseFeeMaxChangeDenominator, kInitialBaseFee. cbv zeta.
  destruct (Z.eqb_spec (Chain.base_fee_per_gas p) 0) as [|Hne]; [done|].
  assert (Hw : ∀ x, 0 ≤ x < 2 ^ 256 → u256 x = x) by (intros x Hx; unfold u256; by apply Z.mod_small).
  assert (Hm : ∀ d, 0 ≤ d < 2 ^ 62 → 0 ≤ Chain.base_fee_per_gas p * d < 2 ^ 256).
  { intros d Hdd. pose proof (Z.mul_le_mono_nonneg (Chain.base_fee_per_gas p) (2 ^ 192) d (2 ^ 62) ltac:(lia) ltac:(lia) ltac:(lia) ltac:(lia)). lia. }
  assert (Hhalf : Chain.gas_limit p / 2 < 2 ^ 61) by (apply Z.div_lt_upper_bound; lia).
  destruct (Z.compare_spec (Chain.gas_used p) (Chain.gas_limit p / 2)) as [->|Hlt|Hgt].
  - by rewrite Z.eqb_refl.
  - rewrite (proj2 (Z.eqb_neq _ _)), (proj2 (Z.ltb_ge _ _)) by lia. specialize (Hdown Hlt).
    rewrite (Hw (_ * _)) by (apply Hm; lia).
    replace (Chain.base_fee_per_gas p * (Chain.gas_limit p / 2 - Chain.gas_used p) / (Chain.gas_limit p / 2) / 8) with (fee_delta p)
      by (unfold fee_delta; cbv zeta; do 3 f_equal; lia).
    assert (Chain.base_fee_per_gas p / 8 < Chain.base_fee_per_gas p) by (apply Z.div_lt; lia).
    by rewrite (proj2 (Z.ltb_lt _ _)) by lia.
  - rewrite (proj2 (Z.eqb_neq _ _)), (proj2 (Z.ltb_lt _ _)) by lia. rewrite (Hw (_ * _)) by (apply Hm; lia).
    replace (Chain.base_fee_per_gas p * (Chain.gas_used p - Chain.gas_limit p / 2) / (Chain.gas_limit p / 2) / 8) with (fee_delta p)
      by (unfold fee_delta; cbv zeta; do 3 f_equal; lia).
    assert (fee_delta p < 2 ^ 255).
    { unfold fee_delta. cbv zeta. apply Z.div_lt_upper_bound; [lia|]. apply Z.div_lt_upper_bound; [lia|].
      specialize (Hm (Z.abs (Chain.gas_used p - Chain.gas_limit p / 2)) ltac:(lia)). lia. }
    rewrite Hw by (destruct (0 <? fee_delta p); lia). f_equal. destruct (Z.ltb_spec 0 (fee_delta p)); lia.
Qed.

(** EIP-4844's excess before the reserve price of Osaka. *)
Definition eip4844_excess (target : Z) (p : Chain.BlockHeader) : Z :=
  Z.max 0 (Chain.excess_blob_gas p + Chain.blob_gas_used p - target).
Lemma expected_excess_spec build c p : parent_ok p → Consensus.fork_id build c < fk_Osaka →
  expected_excess_blob_gas build c p = Ok (eip4844_excess (target_blob_gas_per_block build c) p).
Proof.
  intros [? ? ? ? Hb] Hf. unfold expected_excess_blob_gas, eip4844_excess. cbv zeta.
  assert (u64 (Chain.excess_blob_gas p + Chain.blob_gas_used p) = Chain.excess_blob_gas p + Chain.blob_gas_used p) as -> by (unfold u64; apply Z.mod_small; lia).
  destruct (Z.ltb_spec (Chain.excess_blob_gas p + Chain.blob_gas_used p) (target_blob_gas_per_block build c)); [f_equal; lia|].
  rewrite (proj2 (Z.leb_gt _ _)) by done. f_equal. lia.
Qed.

(** EIP-3675: after the merge the fields of proof of work are those of no work. *)
Lemma post_merge_spec build c : check_post_merge build c = Ok tt →
  fk_Paris ≤ fork_id build c → difficulty c = 0 ∧ Forall (λ b, b = Byte.x00) (nonce c) ∧ ommers_hash c = kEmptyOmmersHash.
Proof.
  intros H Hf. unfold check_post_merge in H. rewrite (proj2 (Z.leb_le _ _)) in H by done.
  apply fatal_if_Ok, orb_false_iff in H as [[Hd Hn]%orb_false_iff Ho]. apply negb_false_iff, Z.eqb_eq in Hd, Ho.
  split; [done|]. split; [|done]. apply Forall_forall. intros b Hb. destruct (Z.eqb_spec (b2z b) 0) as [E|E]; [by rewrite <- (z2b_b2z b), E|].
  apply not_true_iff_false in Hn. exfalso. apply Hn, existsb_exists. exists b.
  split; [by apply list_elem_of_In|]. by apply negb_true_iff, Z.eqb_neq.
Qed.

(** The checks of [run] against the parent. *)
Lemma check_header_spec build c p :
  parent_ok p → check_header build c p = Ok tt →
  number c = Chain.number p + 1 ∧ Chain.timestamp p < timestamp c ∧ 5000 ≤ gas_limit c < 2 ^ 63 ∧
  (let base := if (fk_London <=? fork_id build c) && (Chain.base_fee_per_gas p =? 0) then 2 * Chain.gas_limit p else Chain.gas_limit p in
   Z.abs (gas_limit c - base) < base / 1024) ∧
  (fk_London ≤ fork_id build c → base_fee_per_gas c = eip1559_base_fee p) ∧
  (fk_Cancun ≤ fork_id build c < fk_Osaka → excess_blob_gas c = eip4844_excess (target_blob_gas_per_block build c) p) ∧
  (fk_Paris ≤ fork_id build c → difficulty c = 0 ∧ Forall (λ b, b = Byte.x00) (nonce c) ∧ ommers_hash c = kEmptyOmmersHash).
Proof.
  intros Hp H. unfold check_header in H. apply bind_Ok in H as (? & Hx & H). apply bind_Ok in H as (? & Hf & H). apply bind_Ok in H as (? & Hg & H).
  apply bind_Ok in H as (? & Hb & Hm). unfold check_gas_limit in Hg. apply bind_Ok in Hg as (? & G1%fatal_if_Ok & G2%fatal_if_Ok).
  unfold check_parent_bound in Hb. apply bind_Ok in Hb as (? & B1%fatal_if_Ok & Hb). apply bind_Ok in Hb as (? & B2%fatal_if_Ok & Hb). cbv zeta in Hb.
  apply fatal_if_Ok, orb_false_iff in Hb as [B3 B4]. apply negb_false_iff, Z.eqb_eq in B1. apply Z.leb_gt in B2, B3, B4. apply Z.ltb_ge in G1, G2.
  unfold kMinGasLimit, INT64_MAX in *. pose proof Hp as [Hn Hl ? ? ?].
  assert (Hw : ∀ x, 0 ≤ x < 2 ^ 64 → u64 x = x) by (intros y Hy; unfold u64; by apply Z.mod_small). rewrite Hw in B1 by lia.
  split_and!; [done|lia|lia|lia| | | |by apply post_merge_spec].
  - cbv zeta. set (dbl := (fk_London <=? _) && _) in *. destruct dbl.
    + rewrite (Hw (Chain.gas_limit p * 2)) in B3, B4 by lia. rewrite (Z.mul_comm 2). set (b := Chain.gas_limit p * 2) in *.
      assert (b / 1024 ≤ b) by (apply Z.div_le_upper_bound; lia). assert (0 ≤ b / 1024) by (apply Z.div_pos; lia). rewrite Hw in B3 by lia. lia.
    + set (b := Chain.gas_limit p) in *. assert (b / 1024 ≤ b) by (apply Z.div_le_upper_bound; lia). assert (0 ≤ b / 1024) by (apply Z.div_pos; lia).
      rewrite Hw in B3 by lia. lia.
  - intros Hlon. unfold check_base_fee in Hf. rewrite (proj2 (Z.leb_le _ _)) in Hf by done. apply fatal_if_Ok, negb_false_iff, Z.eqb_eq in Hf.
    by rewrite Hf, expected_base_fee_spec.
  - intros [Hc Ho]. unfold check_excess_blob_gas in Hx. rewrite (proj2 (Z.leb_le _ _)) in Hx by done. rewrite expected_excess_spec in Hx by done.
    cbn [mbind res_bind] in Hx. by apply fatal_if_Ok, negb_false_iff, Z.eqb_eq in Hx.
Qed.

(** C16.  A block the guest accepts follows its parent: its number is the next
    one, its timestamp is later, its gas limit is at least 5000 and within a
    1024th of the parent's (of its double, at the block that activates
    EIP-1559), its base fee is the one EIP-1559 derives, computed without
    overflow, before Osaka its excess blob gas is EIP-4844's, and from the merge on
    its difficulty and nonce are zero and its ommers hash is that of no ommers.  Of the
    parent's header it is assumed ([parent_ok]) that its number is not the last one,
    its gas limit is from 2 to 2^62 and not below its gas used, its base fee is below
    2^192, and its blob gas figures add up in 64 bits. *)
Theorem header_follows_parent build c p :
  parent_ok p → check_header build c p = Ok tt →
  number c = Chain.number p + 1 ∧ Chain.timestamp p < timestamp c ∧ 5000 ≤ gas_limit c < 2 ^ 63 ∧
  (let base := if (fk_London <=? fork_id build c) && (Chain.base_fee_per_gas p =? 0) then 2 * Chain.gas_limit p else Chain.gas_limit p in
   Z.abs (gas_limit c - base) < base / 1024) ∧
  (fk_London ≤ fork_id build c → base_fee_per_gas c = eip1559_base_fee p) ∧
  (fk_Cancun ≤ fork_id build c < fk_Osaka → excess_blob_gas c = eip4844_excess (target_blob_gas_per_block build c) p) ∧
  (fk_Paris ≤ fork_id build c → difficulty c = 0 ∧ Forall (λ b, b = Byte.x00) (nonce c) ∧ ommers_hash c = kEmptyOmmersHash).
Proof. apply check_header_spec. Qed.

(** A Prague block on the main chain, and its parent. *)
Definition mainnet : Build := mkBuild false false.
Definition sample_header (num limit time base_fee excess : Z) : bytes :=
  be_bytes 32 1 ++ be_bytes 20 0xc0 ++ replicate 4 Byte.x00 ++ le_bytes 8 num ++ le_bytes 8 limit ++ le_bytes 8 time ++
  le_bytes 8 0 ++ replicate 32 Byte.x00 ++ be_bytes 32 0 ++ be_bytes 32 2 ++ be_bytes 32 base_fee ++ le_bytes 8 0 ++ le_bytes 8 excess ++
  be_bytes 32 3 ++ be_bytes 32 0 ++ replicate 8 Byte.x00 ++ be_bytes 32 kEmptyOmmersHash ++ le_bytes 8 fk_Prague ++
  le_bytes 8 0 ++ le_bytes 8 0 ++ le_bytes 8 0 ++ le_bytes 8 0.
Definition sample_block : ConsensusInfo := mkConsensus (sample_header 101 30000000 1746612323 1041666666 131072) [].
Definition sample_parent : Chain.BlockHeader :=
  Chain.mkHeader 0 0 0 1 0 0 [] 0 100 30000000 20000000 1746612311 [] 0 [] 1000000000 0 786432 131072 0 0 0 0 fk_Prague.
Lemma sample_parent_ok : parent_ok sample_parent.
Proof. split; cbn; lia. Qed.
Lemma header_follows_parent_witness :
  number sample_block = 101 ∧ Chain.timestamp sample_parent < timestamp sample_block ∧ base_fee_per_gas sample_block = eip1559_base_fee sample_parent ∧
  difficulty sample_block = 0 ∧ ommers_hash sample_block = kEmptyOmmersHash.
Proof.
  destruct (header_follows_parent mainnet sample_block sample_parent sample_parent_ok) as (Hn & Ht & _ & _ & Hf & _ & Hm); [by vm_compute|].
  split; [exact Hn|]. split; [exact Ht|]. split; [apply Hf; by vm_compute|]. destruct Hm as (Hd & _ & Ho); [by vm_compute|]. exact (conj Hd Ho).
Defined.

(** The blob base fee is always found: whatever the 64-bit inputs, and
    although its 256-bit products may wrap, the series loop of
    [fake_exponential] ends. *)
Theorem fake_exponential_total factor numerator denominator :
  in_u64 factor → in_u64 numerator → 0 < denominator < 2 ^ 64 → ∃ r, fake_exponential factor numerator denominator = Ok r.
Proof. intros Hf Hn Hd. by apply fake_exponential_stops. Qed.
Lemma fake_exponential_total_witness : ∃ r, fake_exponential 1 (2 ^ 64 - 1) 1 = Ok r.
Proof. apply (fake_exponential_total 1 (2 ^ 64 - 1) 1); unfold in_u64; lia. Defined.

End Consensus.
