(* ===== verification/Payload.v ===== *)
(** The guest's public output ([src/new_payload_request.cpp]): the SSZ root of the
    Engine API NewPayloadRequest of the block (EIP-8025), and that it binds every
    field of the payload. *)

From stdpp Require Import base numbers list strings gmap.
From S2P Require Import Prelude Fork Rlp Receipt Contracts Chain CreateAddress Mpt Ssz Transactions Consensus.

Set Default Goal Selector "!".

Module Payload.
Import Rlp Receipt Fork Transactions Ssz.

#[local] Strategy 1000 [be_bytes be_val replicate].

(** A loop that pushes one result per element. *)
Fixpoint map_res {A C} (f : A → res C) (l : list A) : res (list C) :=
  match l with
  | [] => Ok []
  | x :: l => y ← f x; ys ← map_res f l; Ok (y :: ys)
  end.

Definition kMaxExtraDataBytes : Z := 32.
Definition kMaxBlobCommitmentsPerBlock : Z := 4096.
Definition kExecutionRequestsFields : nat := 5.

Definition bytes32_root (v : Z) : Chunk := v.
Definition address_root (a : Z) : Chunk := be_val (be_bytes 20 a ++ replicate 12 Byte.x00).

(** Field widths of the request containers, by type. *)
Definition kDepositFields : list nat := [48; 32; 8; 96; 8]%nat.
Definition kWithdrawalFields : list nat := [20; 48; 8]%nat.
Definition kConsolidationFields : list nat := [20; 48; 48]%nat.
Definition kBuilderDepositFields : list nat := [48; 32; 8; 96]%nat.
Definition kBuilderExitFields : list nat := [20; 48]%nat.
Definition kRequestTypes : list (list nat) :=
  [kDepositFields; kWithdrawalFields; kConsolidationFields; kBuilderDepositFields; kBuilderExitFields].

Section Payload.
Context (sha256 : bytes → Z).
Abbreviation merkleize_progressive := (merkleize_progressive sha256).
Abbreviation merkleize := (merkleize sha256).
Abbreviation mix_in_length := (mix_in_length sha256).
Abbreviation byte_vector_root := (byte_vector_root sha256).
Abbreviation progressive_byte_list_root := (progressive_byte_list_root sha256).

Definition progressive_container_root (fields : list Chunk) : res Chunk :=
  r ← merkleize_progressive fields;
  mix_in_active_fields sha256 r (length fields).
Definition progressive_list_root (elements : list Chunk) : res Chunk :=
  r ← merkleize_progressive elements;
  Ok (mix_in_length r (Z.of_nat (length elements))).
Definition container_root (fields : list Chunk) : res Chunk := merkleize fields (Z.of_nat (length fields)).

Definition transactions_root (txs : list View) : res Chunk :=
  roots ← map_res (λ tx, progressive_byte_list_root (envelope_ tx)) txs;
  progressive_list_root roots.

Definition withdrawal_root (w : bytes) : res Chunk :=
  container_root [uint64_root (Consensus.w_index w); uint64_root (Consensus.w_validator_index w);
                  address_root (Consensus.w_address w); uint64_root (Consensus.w_amount_gwei w)].
Definition withdrawals_root (ws : list bytes) : res Chunk :=
  roots ← map_res withdrawal_root ws;
  progressive_list_root roots.

(** The blob versioned hashes of every blob transaction, in block order. *)
Definition push_hash (hs : list Z) (item : Item) : res (list Z) :=
  _ ← fatal_if (negb (is_string_of 32 item)) "blob versioned hash is not 32 bytes";
  Ok (hs ++ [be_val (payload item)]).
Fixpoint versioned_hashes (txs : list View) (hs : list Z) : res (list Z) :=
  match txs with
  | [] => Ok hs
  | tx :: txs =>
      if negb (bool_decide (type_ tx = Blob)) then versioned_hashes txs hs else
      raw ← blob_versioned_hashes_rlp tx;
      outer ← decode_item raw;
      _ ← fatal_if (bool_decide (kind outer ≠ List)) "blob_versioned_hashes is not an RLP list";
      hs ← for_items push_hash (payload outer) hs;
      versioned_hashes txs hs
  end.
Definition versioned_hashes_root (txs : list View) : res Chunk :=
  hs ← versioned_hashes txs [];
  _ ← fatal_if (kMaxBlobCommitmentsPerBlock <? Z.of_nat (length hs)) "too many blob versioned hashes";
  r ← merkleize hs kMaxBlobCommitmentsPerBlock;
  Ok (mix_in_length r (Z.of_nat (length hs))).

(** ** Execution requests *)

(** The fields sliced from the record, in order. *)
Fixpoint field_roots (ws : list nat) (record : bytes) : res (list Chunk) :=
  match ws with
  | [] => Ok []
  | w :: ws => r ← byte_vector_root (take w record); rs ← field_roots ws (drop w record); Ok (r :: rs)
  end.
Definition request_root (fields : list nat) (record : bytes) : res Chunk :=
  fs ← field_roots fields record;
  container_root fs.
Fixpoint record_roots (n : nat) (fields : list nat) (body : bytes) : res (list Chunk) :=
  match n with
  | O => Ok []
  | S n => r ← request_root fields body; rs ← record_roots n fields (drop (sum_list fields) body); Ok (r :: rs)
  end.

Fixpoint request_lists (blobs : list bytes) (last_type : Z) (lists : list Chunk) : res (list Chunk) :=
  match blobs with
  | [] => Ok lists
  | [] :: _ => Fatal "execution requests: empty request blob"
  | (t :: body) :: blobs =>
      let type := b2z t in
      _ ← fatal_if ((Z.of_nat kExecutionRequestsFields <=? type) || (type <=? last_type))
            "execution requests: unknown or out-of-order request type";
      fields ← vec_get kRequestTypes (Z.to_nat type);
      let size := Z.of_nat (sum_list fields) in
      _ ← fatal_if ((len body =? 0) || negb (len body mod size =? 0)) "execution requests: invalid request payload length";
      roots ← record_roots (Z.to_nat (len body / size)) fields body;
      r ← progressive_list_root roots;
      request_lists blobs type (<[Z.to_nat type := r]> lists)
  end.
Definition execution_requests_root (requests : list bytes) : res Chunk :=
  empty ← progressive_list_root [];
  lists ← request_lists requests (-1) (replicate kExecutionRequestsFields empty);
  progressive_container_root lists.

(** ** The request *)

(** What execution hands over: the request blobs and the access list. *)
Record Executed := mkExecuted { requests : list bytes; block_access_list_rlp : bytes }.

Definition execution_payload_root (h : Chain.BlockHeader) (block_hash : Z) (txs : list View) (ws : list bytes) (state : Executed) : res Chunk :=
  logs_bloom ← byte_vector_root (Chain.logs_bloom h);
  extra_data ← byte_list_root sha256 (Chain.extra_data h) kMaxExtraDataBytes;
  transactions ← transactions_root txs;
  withdrawals ← withdrawals_root ws;
  access_list ← progressive_byte_list_root (block_access_list_rlp state);
  progressive_container_root
    [bytes32_root (Chain.parent_hash h); address_root (Chain.coinbase h); bytes32_root (Chain.state_root h);
     bytes32_root (Chain.receipts_root h); logs_bloom; bytes32_root (Chain.prev_randao h); uint64_root (Chain.number h);
     uint64_root (Chain.gas_limit h); uint64_root (Chain.gas_used h); uint64_root (Chain.timestamp h); extra_data;
     uint256_root (Chain.base_fee_per_gas h); bytes32_root block_hash; transactions; withdrawals;
     uint64_root (Chain.blob_gas_used h); uint64_root (Chain.excess_blob_gas h); access_list;
     uint64_root (Chain.slot_number h)].

Definition new_payload_request_root (h : Chain.BlockHeader) (block_hash : Z) (txs : list View) (ws : list bytes) (state : Executed) : res Chunk :=
  payload ← execution_payload_root h block_hash txs ws state;
  hashes ← versioned_hashes_root txs;
  reqs ← execution_requests_root (requests state);
  progressive_container_root [payload; hashes; bytes32_root (Chain.parent_beacon_block_root h); reqs].

(** ** What is hashed for a request *)

Definition results {A} (r : res (list A)) : list A := match r with Ok l => l | Fatal _ => [] end.
Definition progressive_container_inputs (l : list Chunk) : list bytes :=
  preimage (progressive_tree sha256 l) (active_fields (length l)) :: merkleize_progressive_inputs sha256 l.
Definition progressive_list_inputs (l : list Chunk) : list bytes :=
  preimage (progressive_tree sha256 l) (uint64_root (Z.of_nat (length l))) :: merkleize_progressive_inputs sha256 l.
Definition container_inputs (l : list Chunk) : list bytes := merkleize_inputs sha256 l (Z.of_nat (length l)).

Definition transactions_inputs (txs : list View) : list bytes :=
  concat (map (λ tx, progressive_byte_list_inputs sha256 (envelope_ tx)) txs) ++
  progressive_list_inputs (results (map_res (λ tx, progressive_byte_list_root (envelope_ tx)) txs)).
Definition withdrawal_inputs (w : bytes) : list bytes :=
  container_inputs [uint64_root (Consensus.w_index w); uint64_root (Consensus.w_validator_index w);
                    address_root (Consensus.w_address w); uint64_root (Consensus.w_amount_gwei w)].
Definition withdrawals_inputs (ws : list bytes) : list bytes :=
  concat (map withdrawal_inputs ws) ++ progressive_list_inputs (results (map_res withdrawal_root ws)).
Definition versioned_hashes_inputs (txs : list View) : list bytes :=
  let hs := results (versioned_hashes txs []) in
  match merkleize hs kMaxBlobCommitmentsPerBlock with Ok m => [preimage m (uint64_root (Z.of_nat (length hs)))] | Fatal _ => [] end ++
  merkleize_inputs sha256 hs kMaxBlobCommitmentsPerBlock.

Fixpoint field_inputs (ws : list nat) (record : bytes) : list bytes :=
  match ws with [] => [] | w :: ws => byte_vector_inputs sha256 (take w record) ++ field_inputs ws (drop w record) end.
Definition record_inputs (fields : list nat) (record : bytes) : list bytes :=
  field_inputs fields record ++ container_inputs (results (field_roots fields record)).
Fixpoint records_inputs (n : nat) (fields : list nat) (body : bytes) : list bytes :=
  match n with O => [] | S n => record_inputs fields body ++ records_inputs n fields (drop (sum_list fields) body) end.
(** A request blob: its records, and the list of their roots. *)
Definition blob_inputs (blob : bytes) : list bytes :=
  match blob with
  | [] => []
  | t :: body =>
      let fields := default [] (kRequestTypes !! Z.to_nat (b2z t)) in
      let n := Z.to_nat (len body / Z.of_nat (sum_list fields)) in
      records_inputs n fields body ++ progressive_list_inputs (results (record_roots n fields body))
  end.
Definition execution_requests_inputs (rs : list bytes) : list bytes :=
  progressive_list_inputs [] ++ concat (map blob_inputs rs) ++
  progressive_container_inputs (results (empty ← progressive_list_root []; request_lists rs (-1) (replicate kExecutionRequestsFields empty))).

(** ** Lists of roots bind, where sha256 is injective on what was hashed *)

Context (sha_range : ∀ b, in_u256 (sha256 b)).
Section Bind.
Context (D : list bytes) (Hinj : collision_free sha256 D D).
Ltac split_sub := repeat match goal with
  | H : _ ++ _ ⊆ _ |- _ => apply list_subseteq_app_iff_l in H as [? ?]
  | H : _ :: _ ⊆ _ |- _ => apply list_subseteq_cons_iff in H as [? ?]
  end.
Lemma concat_sub {A} (f : A → list bytes) l x : concat (map f l) ⊆ D → x ∈ l → f x ⊆ D.
Proof.
  intros H Hx b Hb. apply H, list_elem_of_In, in_concat. exists (f x). split; [|by apply list_elem_of_In]. by apply in_map, list_elem_of_In.
Qed.

Lemma progressive_container_inj l l' r : length l = length l' → (length l ≤ 256)%nat → Forall in_u256 l → Forall in_u256 l' →
  progressive_container_inputs l ⊆ D → progressive_container_inputs l' ⊆ D →
  progressive_container_root l = Ok r → progressive_container_root l' = Ok r → l = l'.
Proof.
  unfold progressive_container_inputs. intros Hlen H256 Hl Hl' Hs Hs' H H'. split_sub. unfold progressive_container_root, mix_in_active_fields in *. apply bind_Ok in H as (m & Em & H), H' as (m' & Em' & H').
  apply bind_Ok in H as (_ & _ & [= <-]), H' as (_ & _ & [= E]). apply (chunk_pair_inj _ D Hinj) in E as [<- _].
  - eapply (merkleize_progressive_inj _ sha_range D Hinj); [done| |exact Hl|exact Hl'|done|done|exact Em|exact Em']. lia.
  - by eapply merkleize_progressive_range.
  - apply active_fields_range.
  - by eapply merkleize_progressive_range.
  - apply active_fields_range.
  - rewrite (progressive_root _ l' _ ltac:(lia) Em'). done.
  - rewrite (progressive_root _ l _ ltac:(lia) Em). done.
Qed.
Lemma progressive_container_range l r : progressive_container_root l = Ok r → in_u256 r.
Proof. unfold progressive_container_root, mix_in_active_fields. intros H. ok_inv. apply hash_range, sha_range. Qed.

(** List sizes a 64-bit host can hold. *)
Abbreviation small l := (Z.of_nat (length l) ≤ 4 ^ 31).
Lemma small_u64 {A} (l : list A) : small l → in_u64 (Z.of_nat (length l)).
Proof. intros H. split; lia. Qed.
Lemma progressive_list_inj l l' r : small l → small l' → Forall in_u256 l → Forall in_u256 l' →
  progressive_list_inputs l ⊆ D → progressive_list_inputs l' ⊆ D →
  progressive_list_root l = Ok r → progressive_list_root l' = Ok r → l = l'.
Proof.
  unfold progressive_list_inputs. intros Hs Hs' Hl Hl' HD HD' H H'. split_sub. unfold progressive_list_root in *. apply bind_Ok in H as (m & Em & [= <-]), H' as (m' & Em' & [= E]).
  apply (mix_in_length_inj _ D Hinj) in E as [-> El]; [|by eapply merkleize_progressive_range..|by apply small_u64|by apply small_u64| |].
  2:{ rewrite (progressive_root _ l' _ Hs' Em'). done. }
  2:{ rewrite (progressive_root _ l _ Hs Em). done. }
  eapply (merkleize_progressive_inj _ sha_range D Hinj); [|exact Hs|exact Hl|exact Hl'|done|done|exact Em|exact Em']. lia.
Qed.
Lemma progressive_list_range l r : progressive_list_root l = Ok r → in_u256 r.
Proof. unfold progressive_list_root. intros H. ok_inv. apply hash_range, sha_range. Qed.
Lemma container_inj l l' r : length l = length l' → small l → Forall in_u256 l → Forall in_u256 l' →
  container_inputs l ⊆ D → container_inputs l' ⊆ D → container_root l = Ok r → container_root l' = Ok r → l = l'.
Proof.
  intros Hlen Hs Hl Hl' HD HD' H H'. unfold container_root, container_inputs in *. rewrite <- Hlen in H', HD'.
  eapply (merkleize_inj _ sha_range D Hinj); [exact Hlen| |exact Hl|exact Hl'|exact HD|exact HD'|exact H|exact H']. lia.
Qed.
Lemma container_range l r : small l → Forall in_u256 l → container_root l = Ok r → in_u256 r.
Proof. intros Hs Hl H. eapply merkleize_range; [done| |exact Hl|exact H]. lia. Qed.

Lemma map_res_length {A C} (f : A → res C) l rs : map_res f l = Ok rs → length rs = length l.
Proof. revert rs. induction l as [|x l IH]; intros rs H; cbn [map_res] in H; ok_inv; [done|]. cbn. f_equal. by apply IH. Qed.
Lemma map_res_Forall {A C} (f : A → res C) (P : A → Prop) (Q : C → Prop) l rs : (∀ x y, P x → f x = Ok y → Q y) → Forall P l → map_res f l = Ok rs → Forall Q rs.
Proof.
  intros Hf Hl. revert rs. induction Hl as [|x l Hx _ IH]; intros rs H; cbn [map_res] in H; ok_inv; [constructor|].
  constructor; [by eapply Hf|by apply IH].
Qed.
Lemma map_res_inj {A C E} (f : A → res C) (g : A → E) (P : A → Prop) : (∀ x x' r, P x → P x' → f x = Ok r → f x' = Ok r → g x = g x') →
  ∀ l l' rs, Forall P l → Forall P l' → map_res f l = Ok rs → map_res f l' = Ok rs → map g l = map g l'.
Proof.
  intros Hf l. induction l as [|x l IH]; intros l' rs Hl Hl' H H'; cbn [map_res] in H; ok_inv.
  - apply map_res_length in H'. by destruct l'.
  - destruct l' as [|x' l']; cbn [map_res] in H'; [done|]. apply bind_Ok in H' as (y & Hy & H'). apply bind_Ok in H' as (ys & Hys & [= -> ->]).
    inv Hl. inv Hl'. cbn. f_equal; [by eapply Hf|by eapply IH].
Qed.

(** ** The lists of the payload *)

Abbreviation fits b := (len b < 2 ^ 63).

Lemma transactions_root_inj txs txs' r : small txs → small txs' → Forall (λ tx, fits (envelope_ tx)) txs → Forall (λ tx, fits (envelope_ tx)) txs' →
  transactions_inputs txs ⊆ D → transactions_inputs txs' ⊆ D →
  transactions_root txs = Ok r → transactions_root txs' = Ok r → map envelope_ txs = map envelope_ txs'.
Proof.
  unfold transactions_inputs. intros Hs Hs' Hf Hf' HD HD' H H'. unfold transactions_root in *. apply bind_Ok in H as (rs & Er & H), H' as (rs' & Er' & H').
  rewrite Er in HD. rewrite Er' in HD'. cbn [results] in HD, HD'. split_sub.
  assert (Hr : ∀ txs rs, map_res (λ tx, progressive_byte_list_root (envelope_ tx)) txs = Ok rs → Forall in_u256 rs).
  { intros l ys. apply (map_res_Forall _ (λ _, True)); [|by apply Forall_true]. intros x y _. by apply progressive_byte_list_root_range. }
  assert (rs = rs') as <- by (eapply progressive_list_inj;
    [by rewrite (map_res_length _ _ _ Er)|by rewrite (map_res_length _ _ _ Er')|by eapply Hr|by eapply Hr|done|done|exact H|exact H']).
  eapply (map_res_inj _ envelope_ (λ tx, fits (envelope_ tx) ∧ progressive_byte_list_inputs sha256 (envelope_ tx) ⊆ D)); [| | |exact Er|exact Er'].
  - intros x x' y [Hx Hdx] [Hx' Hdx']. by apply (progressive_byte_list_root_inj _ sha_range D Hinj).
  - apply Forall_forall. intros x Hx. split; [by eapply Forall_forall in Hf|]. eapply (concat_sub (λ tx, progressive_byte_list_inputs sha256 (envelope_ tx)) _ x); [|exact Hx]; done.
  - apply Forall_forall. intros x Hx. split; [by eapply Forall_forall in Hf'|]. eapply (concat_sub (λ tx, progressive_byte_list_inputs sha256 (envelope_ tx)) _ x); [|exact Hx]; done.
Qed.

Lemma transactions_root_range txs r : transactions_root txs = Ok r → in_u256 r.
Proof. unfold transactions_root. intros H. apply bind_Ok in H as (rs & _ & H). by eapply progressive_list_range. Qed.
Lemma withdrawals_root_range ws r : withdrawals_root ws = Ok r → in_u256 r.
Proof. unfold withdrawals_root. intros H. apply bind_Ok in H as (rs & _ & H). by eapply progressive_list_range. Qed.

Definition withdrawal_fields (w : bytes) : Z * Z * Z * Z := (Consensus.w_index w, Consensus.w_validator_index w, Consensus.w_address w, Consensus.w_amount_gwei w).
Lemma address_root_range a : in_u256 (address_root a).
Proof. apply (be_val_inj_range 32). by rewrite length_app, length_be_bytes, length_replicate. Qed.
Lemma address_root_inj a a' : 0 ≤ a < 2 ^ 160 → 0 ≤ a' < 2 ^ 160 → address_root a = address_root a' → a = a'.
Proof.
  intros Ha Ha' E. unfold address_root in E. apply be_val_inj in E; [|by rewrite !length_app, !length_be_bytes].
  apply app_inv_tail in E. apply (CreateAddress.be_bytes_inj 20); [exact Ha|exact Ha'|exact E].
Qed.
Lemma le_field_range off w : in_u64 (Consensus.u64_at off w).
Proof.
  unfold Consensus.u64_at. pose proof (le_val_bound (slice w off (off + 8))) as H. split; [lia|]. eapply Z.lt_le_trans; [apply H|].
  change (2 ^ 64) with (256 ^ Z.of_nat 8). apply Z.pow_le_mono_r; [lia|]. unfold slice. rewrite length_take. lia.
Qed.
Lemma address_at_range off w : 0 ≤ Consensus.address_at off w < 2 ^ 160.
Proof.
  unfold Consensus.address_at. pose proof (be_val_bound (slice w off (off + 20))) as H. split; [lia|]. eapply Z.lt_le_trans; [apply H|].
  change (2 ^ 160) with (256 ^ Z.of_nat 20). apply Z.pow_le_mono_r; [lia|]. unfold slice. rewrite length_take. lia.
Qed.
(** Equal lists, element by element. *)
Fixpoint all_eq {A} (l l' : list A) : Prop := match l, l' with x :: l, x' :: l' => x = x' ∧ all_eq l l' | _, _ => True end.
Lemma eq_all {A} (l l' : list A) : l = l' → all_eq l l'.
Proof. intros <-. by induction l. Qed.
Ltac root_range :=
  lazymatch goal with
  | |- in_u256 (uint64_root _) => apply uint64_root_range
  | |- in_u256 (uint256_root _) => apply uint256_root_range
  | |- in_u256 (address_root _) => apply address_root_range
  | |- in_u256 _ => assumption
  | |- in_u64 _ => first [assumption | apply le_field_range]
  end.
Ltac all_roots := repeat first [apply Forall_nil_2 | apply Forall_cons_2; [root_range|]].
Lemma withdrawal_root_range w r : withdrawal_root w = Ok r → in_u256 r.
Proof. apply container_range; [cbn; lia|]. all_roots. Qed.
Lemma withdrawal_root_inj w w' r : withdrawal_inputs w ⊆ D → withdrawal_inputs w' ⊆ D → withdrawal_root w = Ok r → withdrawal_root w' = Ok r →
  withdrawal_fields w = withdrawal_fields w'.
Proof.
  intros HD HD' H H'. unfold withdrawal_root, withdrawal_inputs in *.
  match type of H with container_root ?l = _ => match type of H' with container_root ?l' = _ =>
    pose proof (container_inj l l' r eq_refl ltac:(cbn; lia) ltac:(all_roots) ltac:(all_roots) HD HD' H H') as E end end.
  apply eq_all in E as (E1 & E2 & E3 & E4 & _). unfold withdrawal_fields. f_equal; [f_equal; [f_equal|]|]; [apply uint64_root_inj; [apply le_field_range..|exact E1]|apply uint64_root_inj; [apply le_field_range..|exact E2]|
      apply address_root_inj; [apply address_at_range..|exact E3]|apply uint64_root_inj; [apply le_field_range..|exact E4]].
Qed.
Lemma withdrawals_root_inj ws ws' r : small ws → small ws' → withdrawals_root ws = Ok r → withdrawals_root ws' = Ok r →
  withdrawals_inputs ws ⊆ D → withdrawals_inputs ws' ⊆ D → map withdrawal_fields ws = map withdrawal_fields ws'.
Proof.
  unfold withdrawals_inputs. intros Hs Hs' H H' HD HD'. unfold withdrawals_root in *. apply bind_Ok in H as (rs & Er & H), H' as (rs' & Er' & H').
  rewrite Er in HD. rewrite Er' in HD'. cbn [results] in HD, HD'. split_sub.
  assert (Hr : ∀ ws rs, map_res withdrawal_root ws = Ok rs → Forall in_u256 rs).
  { intros l ys. apply (map_res_Forall _ (λ _, True)); [|by apply Forall_true]. intros x y _. apply withdrawal_root_range. }
  assert (rs = rs') as <- by (eapply progressive_list_inj;
    [by rewrite (map_res_length _ _ _ Er)|by rewrite (map_res_length _ _ _ Er')|by eapply Hr|by eapply Hr|done|done|exact H|exact H']).
  eapply (map_res_inj _ withdrawal_fields (λ w, withdrawal_inputs w ⊆ D)); [intros x x' y; apply withdrawal_root_inj| | |exact Er|exact Er'].
  - apply Forall_forall. intros x. by apply concat_sub.
  - apply Forall_forall. intros x. by apply concat_sub.
Qed.

Lemma fold_items_inv {A} (P : A → Prop) f : (∀ a i a', P a → f a i = Ok a' → P a') → ∀ fuel it a a', P a → fold_items f fuel it a = Ok a' → P a'.
Proof.
  intros Hf fuel. induction fuel as [|fuel IH]; intros it a a' Ha H; cbn [fold_items] in H; [by ok_inv|].
  destruct (has_next it); ok_inv; [|done]. eapply IH; [|eassumption]. by eapply Hf.
Qed.
Lemma versioned_hashes_range txs : ∀ hs hs', Forall in_u256 hs → versioned_hashes txs hs = Ok hs' → Forall in_u256 hs'.
Proof.
  induction txs as [|tx txs IH]; intros hs hs' Hh H; cbn [versioned_hashes] in H; [by ok_inv|].
  destruct (negb _); [by eapply IH|]. ok_inv. eapply IH; [|eassumption]. eapply fold_items_inv; [|exact Hh|eassumption].
  intros a i a' Ha Hi. unfold push_hash in Hi. ok_inv. apply Forall_app. split; [done|]. constructor; [|constructor].
  match goal with E : negb (is_string_of 32 i) = false |- _ => apply negb_false_iff, andb_true_iff in E as [_ E%Z.eqb_eq] end.
  apply (be_val_inj_range 32). unfold len in *. lia.
Qed.
Lemma versioned_hashes_root_inj txs txs' r : versioned_hashes_root txs = Ok r → versioned_hashes_root txs' = Ok r →
  versioned_hashes_inputs txs ⊆ D → versioned_hashes_inputs txs' ⊆ D → versioned_hashes txs [] = versioned_hashes txs' [].
Proof.
  intros H H' HD HD'. unfold versioned_hashes_root, versioned_hashes_inputs, kMaxBlobCommitmentsPerBlock in *.
  apply bind_Ok in H as (hs & Eh & H), H' as (hs' & Eh' & H'). rewrite Eh in HD. rewrite Eh' in HD'. cbn [results] in HD, HD'.
  apply bind_Ok in H as (_ & L%fatal_if_Ok%Z.ltb_ge & H), H' as (_ & L'%fatal_if_Ok%Z.ltb_ge & H').
  apply bind_Ok in H as (m & Em & [= <-]), H' as (m' & Em' & [= E]). rewrite Eh, Eh'. rewrite Em in HD. rewrite Em' in HD'. split_sub.
  pose proof (versioned_hashes_range _ _ _ (Forall_nil_2 _) Eh) as Hr. pose proof (versioned_hashes_range _ _ _ (Forall_nil_2 _) Eh') as Hr'.
  apply (mix_in_length_inj _ D Hinj) in E as [E El]; [| | |split; lia|split; lia|done|done].
  2:{ apply (merkleize_range sha256 sha_range hs' 4096); [lia|done|done]. }
  2:{ apply (merkleize_range sha256 sha_range hs 4096); [lia|done|done]. }
  rewrite E in Em'. f_equal. by apply (merkleize_inj sha256 sha_range D Hinj hs hs' 4096 m); [lia|lia|..].
Qed.
Lemma versioned_hashes_root_range txs r : versioned_hashes_root txs = Ok r → in_u256 r.
Proof. unfold versioned_hashes_root. intros H. ok_inv. apply hash_range, sha_range. Qed.

(** ** The requests *)

(** Widths of fields whose records the roots are taken of. *)
Record widths_ok (ws : list nat) : Prop := { wo_each : Forall (λ w, Z.of_nat w < 2 ^ 20) ws; wo_few : (length ws ≤ 5)%nat; wo_size : (68 ≤ sum_list ws)%nat }.
Lemma request_types_ok i ws : kRequestTypes !! i = Some ws → widths_ok ws.
Proof. intros H. do 5 (destruct i as [|i]; [injection H as <-; split; [repeat constructor|cbn; lia|cbn; lia]|]). done. Qed.

Lemma field_roots_range ws : Forall (λ w, Z.of_nat w < 2 ^ 20) ws → ∀ b rs, field_roots ws b = Ok rs → Forall in_u256 rs ∧ length rs = length ws.
Proof.
  induction 1 as [|w ws Hw _ IH]; intros b rs H; cbn [field_roots] in H; ok_inv; [done|].
  match goal with H : field_roots ws _ = Ok _ |- _ => destruct (IH _ _ H) as [Hr Hl] end. split; [|cbn; by rewrite Hl]. constructor; [|done].
  eapply byte_vector_root_range; [done| |eassumption]. unfold len. rewrite length_take. lia.
Qed.
Lemma take_split {A} n m (l : list A) : take (n + m) l = take n l ++ take m (drop n l).
Proof. revert l. induction n as [|n IH]; intros l; [done|]. destruct l as [|x l]; [by rewrite drop_nil, !take_nil|]. cbn. by rewrite IH. Qed.
Lemma field_roots_inj ws : Forall (λ w, Z.of_nat w < 2 ^ 20) ws → ∀ b b' rs, (sum_list ws ≤ length b)%nat → (sum_list ws ≤ length b')%nat →
  field_inputs ws b ⊆ D → field_inputs ws b' ⊆ D →
  field_roots ws b = Ok rs → field_roots ws b' = Ok rs → take (sum_list ws) b = take (sum_list ws) b'.
Proof.
  induction 1 as [|w ws Hw _ IH]; intros b b' rs Hb Hb' HD HD' H H'; cbn [field_roots field_inputs sum_list_with id] in *; [done|]. split_sub.
  apply bind_Ok in H as (r & Er & H), H' as (r' & Er' & H'). apply bind_Ok in H as (q & Eq & [= <-]), H' as (q' & Eq' & [= -> ->]).
  rewrite !take_split. f_equal.
  - apply (byte_vector_root_inj sha256 sha_range D Hinj (take w b) (take w b') r);
      [unfold len; rewrite !length_take; lia|unfold len; rewrite length_take; lia|done|done|done|done].
  - apply (IH (drop w b) (drop w b') q); [rewrite length_drop; lia|rewrite length_drop; lia|done|done|done|done].
Qed.
Lemma request_root_range ws b r : widths_ok ws → request_root ws b = Ok r → in_u256 r.
Proof.
  intros [H1 H2 _] H. unfold request_root in H. apply bind_Ok in H as (rs & Er & H). destruct (field_roots_range ws H1 _ _ Er) as [Hr Hl].
  eapply container_range; [|exact Hr|exact H]. lia.
Qed.
Lemma request_root_inj ws b b' r : widths_ok ws → (sum_list ws ≤ length b)%nat → (sum_list ws ≤ length b')%nat →
  record_inputs ws b ⊆ D → record_inputs ws b' ⊆ D →
  request_root ws b = Ok r → request_root ws b' = Ok r → take (sum_list ws) b = take (sum_list ws) b'.
Proof.
  unfold record_inputs. intros [H1 H2 _] Hb Hb' HD HD' H H'. unfold request_root in *. apply bind_Ok in H as (rs & Er & H), H' as (rs' & Er' & H').
  rewrite Er in HD. rewrite Er' in HD'. cbn [results] in HD, HD'. split_sub.
  destruct (field_roots_range ws H1 _ _ Er) as [Hr Hl]. destruct (field_roots_range ws H1 _ _ Er') as [Hr' Hl'].
  assert (rs = rs') as <- by (eapply container_inj; [congruence|lia|done|done|done|done|exact H|exact H']). by eapply field_roots_inj.
Qed.
Lemma record_roots_range n ws : widths_ok ws → ∀ b rs, record_roots n ws b = Ok rs → Forall in_u256 rs ∧ length rs = n.
Proof.
  intros Hw. induction n as [|n IH]; intros b rs H; cbn [record_roots] in H; ok_inv; [done|].
  match goal with H : record_roots n _ _ = Ok _ |- _ => destruct (IH _ _ H) as [Hr Hl] end. split; [|cbn; by rewrite Hl].
  constructor; [by eapply request_root_range|done].
Qed.
Lemma record_roots_inj n ws : widths_ok ws → ∀ b b' rs, length b = (n * sum_list ws)%nat → length b' = (n * sum_list ws)%nat →
  records_inputs n ws b ⊆ D → records_inputs n ws b' ⊆ D → record_roots n ws b = Ok rs → record_roots n ws b' = Ok rs → b = b'.
Proof.
  intros Hw. induction n as [|n IH]; intros b b' rs Hb Hb' HD HD' H H'; cbn [record_roots records_inputs] in *; [by destruct b, b'|]. split_sub.
  apply bind_Ok in H as (r & Er & H), H' as (r' & Er' & H'). apply bind_Ok in H as (q & Eq & [= <-]), H' as (q' & Eq' & [= -> ->]).
  rewrite <- (take_drop (sum_list ws) b), <- (take_drop (sum_list ws) b'). f_equal.
  - by apply (request_root_inj ws b b' r Hw); [lia|lia|..].
  - by apply (IH (drop (sum_list ws) b) (drop (sum_list ws) b') q); [rewrite length_drop; lia|rewrite length_drop; lia|..].
Qed.

(** One blob of a successful walk. *)
Record blob_step (t : byte) (body : bytes) (bs : list bytes) (last : Z) (lists ls : list Chunk) (roots : list Chunk) (r : Chunk) : Prop := {
  bs_type : last < b2z t < 5;
  bs_fields : ∃ ws n, kRequestTypes !! Z.to_nat (b2z t) = Some ws ∧ length body = (n * sum_list ws)%nat ∧ (0 < n)%nat ∧ record_roots n ws body = Ok roots ∧
    blob_inputs (t :: body) = records_inputs n ws body ++ progressive_list_inputs roots;
  bs_root : progressive_list_root roots = Ok r;
  bs_rest : request_lists bs (b2z t) (<[Z.to_nat (b2z t) := r]> lists) = Ok ls }.
Lemma request_step t body bs last lists ls : request_lists ((t :: body) :: bs) last lists = Ok ls → ∃ roots r, blob_step t body bs last lists ls roots r.
Proof.
  intros H. cbn [request_lists] in H. apply bind_Ok in H as (_ & Ht%fatal_if_Ok%orb_false_iff & H). destruct Ht as [Ht1%Z.leb_gt Ht2%Z.leb_gt].
  apply bind_Ok in H as (ws & Hw%vec_get_Ok & H). apply bind_Ok in H as (_ & Hb%fatal_if_Ok%orb_false_iff & H).
  destruct Hb as [Hb1%Z.eqb_neq Hb2%negb_false_iff%Z.eqb_eq]. apply bind_Ok in H as (roots & Er & H). apply bind_Ok in H as (r & El & H).
  destruct (request_types_ok _ _ Hw) as [_ _ Hs]. exists roots, r. split; [unfold kExecutionRequestsFields in *; lia| |done|done].
  exists ws, (Z.to_nat (len body / Z.of_nat (sum_list ws))). pose proof (Z.div_mod (len body) (Z.of_nat (sum_list ws)) ltac:(lia)) as Hd.
  pose proof (len_nonneg body). rewrite Hb2 in Hd. 
  split_and!; [done| | |done|]; [set (q := len body / _) in *; unfold len in *; nia..|]. unfold blob_inputs. rewrite Hw. cbv zeta. cbn [default id]. by rewrite Er.
Qed.
Lemma request_lists_kept bs : ∀ last lists ls, request_lists bs last lists = Ok ls → length ls = length lists ∧ ∀ j, Z.of_nat j ≤ last → ls !! j = lists !! j.
Proof.
  induction bs as [|[|t body] bs IH]; intros last lists ls H; [by injection H as <-|done|].
  apply request_step in H as (roots & r & [Ht _ _ H]). destruct (IH _ _ _ H) as [Hl Hk]. rewrite length_insert in Hl. split; [done|].
  intros j Hj. rewrite Hk by lia. rewrite list_lookup_insert_ne by lia. done.
Qed.

(** The walk found every list above [last] empty. *)
Definition empty_above (e : Chunk) (last : Z) (lists : list Chunk) : Prop := length lists = 5%nat ∧ ∀ j, last < Z.of_nat j < 5 → lists !! j = Some e.
Lemma step_seen t body bs last lists ls roots r : -1 ≤ last → length lists = 5%nat → blob_step t body bs last lists ls roots r → ls !! Z.to_nat (b2z t) = Some r.
Proof.
  intros H0 Hlen [Ht _ _ H]. destruct (request_lists_kept _ _ _ _ H) as [_ Hk]. rewrite Hk by lia. apply list_lookup_insert_eq. lia.
Qed.
Lemma blob_small t body bs last lists ls roots r : fits body → blob_step t body bs last lists ls roots r → small roots ∧ Forall in_u256 roots ∧ roots ≠ [].
Proof.
  intros Hf [_ (ws & n & Hw & Hb & Hn & Er & _) _ _]. pose proof (request_types_ok _ _ Hw) as Hok.
  destruct (record_roots_range n ws Hok _ _ Er) as [Hr Hl]. split_and!; [|done|intros ->; cbn in *; lia].
  rewrite Hl. destruct Hok as [_ _ Hs]. assert (n * 68 ≤ n * sum_list ws)%nat by (apply Nat.mul_le_mono_l; lia). unfold len in *. lia.
Qed.

(** A list that was filled is not the empty one. *)
Lemma filled t body bs last lists ls roots r e : fits body → progressive_list_inputs [] ⊆ D → blob_inputs (t :: body) ⊆ D →
  progressive_list_root [] = Ok e → blob_step t body bs last lists ls roots r → r ≠ e.
Proof.
  intros Hf HD HDb He Hs ->. destruct (blob_small _ _ _ _ _ _ _ _ Hf Hs) as (H1 & H2 & H3). apply H3.
  destruct Hs as [_ (ws & n & _ & _ & _ & _ & Ei) Hr _]. rewrite Ei in HDb. split_sub.
  apply (progressive_list_inj roots [] e); [done|cbn; lia|done|apply Forall_nil_2|done|exact HD|exact Hr|exact He].
Qed.
(** The first type of one walk is not above that of another with the same result. *)
Lemma first_type t body bs last lists ls roots r bs' e : -1 ≤ last → empty_above e last lists → fits body → progressive_list_root [] = Ok e →
  progressive_list_inputs [] ⊆ D → blob_inputs (t :: body) ⊆ D →
  blob_step t body bs last lists ls roots r → request_lists bs' last lists = Ok ls →
  ∃ t' body' bs'', bs' = (t' :: body') :: bs'' ∧ b2z t' ≤ b2z t.
Proof.
  intros H0 [Hlen Hem] Hf He HD HDb Hs H'. pose proof (step_seen _ _ _ _ _ _ _ _ H0 Hlen Hs) as Hr. pose proof (bs_type _ _ _ _ _ _ _ _ Hs) as Ht.
  pose proof (filled _ _ _ _ _ _ _ _ e Hf HD HDb He Hs) as Hne.
  destruct bs' as [|[|t' body'] bs'']; [|done|].
  - exfalso. injection H' as <-. rewrite Hem in Hr by lia. congruence.
  - destruct (Z.le_gt_cases (b2z t') (b2z t)) as [|Hgt]; [by eauto|exfalso]. apply request_step in H' as (roots' & r' & [Ht' _ _ H']).
    destruct (request_lists_kept _ _ _ _ H') as [_ Hk]. rewrite Hk, list_lookup_insert_ne, Hem in Hr by lia. congruence.
Qed.

Lemma same_body t body body' bs bs' last lists ls roots r roots' r' : fits body → fits body' → -1 ≤ last → length lists = 5%nat →
  blob_inputs (t :: body) ⊆ D → blob_inputs (t :: body') ⊆ D →
  blob_step t body bs last lists ls roots r → blob_step t body' bs' last lists ls roots' r' → body = body' ∧ r = r'.
Proof.
  intros Hf Hf' H0 Hlen HD HD' Hs Hs'. pose proof (step_seen _ _ _ _ _ _ _ _ H0 Hlen Hs) as E. rewrite (step_seen _ _ _ _ _ _ _ _ H0 Hlen Hs') in E.
  injection E as ->. destruct (blob_small _ _ _ _ _ _ _ _ Hf Hs) as (H1 & H2 & _), (blob_small _ _ _ _ _ _ _ _ Hf' Hs') as (H1' & H2' & _).
  destruct Hs as [_ (ws & n & Hw & Hb & _ & Er & Ei) El _], Hs' as [_ (ws' & n' & Hw' & Hb' & _ & Er' & Ei') El' _]. assert (ws' = ws) as -> by congruence.
  rewrite Ei in HD. rewrite Ei' in HD'. split_sub.
  assert (roots = roots') as <- by (eapply progressive_list_inj; [done|done|done|done|done|done|exact El|exact El']). pose proof (request_types_ok _ _ Hw) as Hok.
  destruct (record_roots_range _ _ Hok _ _ Er) as [_ Hn], (record_roots_range _ _ Hok _ _ Er') as [_ Hn']. assert (n' = n) as -> by congruence.
  split; [|done]. by apply (record_roots_inj n ws Hok body body' roots).
Qed.

Lemma request_lists_inj e : progressive_list_root [] = Ok e → progressive_list_inputs [] ⊆ D → ∀ bs bs' last lists ls, -1 ≤ last → empty_above e last lists →
  Forall (λ b, fits b) bs → Forall (λ b, fits b) bs' → Forall (λ b, blob_inputs b ⊆ D) bs → Forall (λ b, blob_inputs b ⊆ D) bs' →
  request_lists bs last lists = Ok ls → request_lists bs' last lists = Ok ls → bs = bs'.
Proof.
  intros He HDe bs. assert (Hfits : ∀ t (b : bytes), fits (t :: b) → fits b) by (intros t b; unfold len; cbn; lia).
  induction bs as [|[|t body] bs IH]; intros bs' last lists ls H0 Hem Hb Hb' HD HD' H H'; [|done|].
  - destruct bs' as [|[|t' body'] bs']; [done|done|]. apply request_step in H' as (roots & r & Hs).
    by destruct (first_type _ _ _ _ _ _ _ _ [] e H0 Hem (Hfits _ _ (Forall_inv Hb')) He HDe (Forall_inv HD') Hs H) as (? & ? & ? & [=] & _).
  - inv Hb. inv HD. apply Hfits in H3 as Hf. pose proof H as Hall. apply request_step in H as (roots & r & Hs).
    destruct (first_type _ _ _ _ _ _ _ _ bs' e H0 Hem Hf He HDe ltac:(done) Hs H') as (t' & body' & bs'' & -> & Hle).
    pose proof (Hfits _ _ (Forall_inv Hb')) as Hf'. apply request_step in H' as (roots' & r' & Hs').
    destruct (first_type _ _ _ _ _ _ _ _ _ e H0 Hem Hf' He HDe (Forall_inv HD') Hs' Hall) as (? & ? & ? & [= <- <- <-] & Hle').
    assert (t' = t) as -> by (apply byte.unsigned_inj; lia). pose proof Hem as [Hlen Hem'].
    destruct (same_body _ _ _ _ _ _ _ _ _ _ _ _ Hf Hf' H0 Hlen ltac:(done) (Forall_inv HD') Hs Hs') as [-> ->].
    destruct Hs as [Ht _ _ Hr], Hs' as [_ _ _ Hr']. f_equal. inv Hb'. inv HD'.
    eapply (IH bs'' (b2z t) (<[Z.to_nat (b2z t) := r']> lists) ls); [lia| |done|done|done|done|done|done].
    split; [by rewrite length_insert|]. intros j Hj. rewrite list_lookup_insert_ne by lia. apply Hem'. lia.
Qed.
Lemma request_lists_range bs : ∀ last lists ls, Forall in_u256 lists → request_lists bs last lists = Ok ls → Forall in_u256 ls.
Proof.
  induction bs as [|[|t body] bs IH]; intros last lists ls Hl H; [by injection H as <-|done|].
  apply request_step in H as (roots & r & [_ _ Hr H]). eapply IH; [|exact H]. apply Forall_insert; [done|]. by eapply progressive_list_range.
Qed.
Lemma execution_requests_root_inj rs rs' r : Forall (λ b, fits b) rs → Forall (λ b, fits b) rs' →
  execution_requests_inputs rs ⊆ D → execution_requests_inputs rs' ⊆ D →
  execution_requests_root rs = Ok r → execution_requests_root rs' = Ok r → rs = rs'.
Proof.
  unfold execution_requests_inputs. intros Hf Hf' HD HD' H H'. unfold execution_requests_root in *. apply bind_Ok in H as (e & He & H), H' as (e' & He' & H').
  rewrite He in He', HD, HD'. injection He' as <-. cbn [mbind res_bind] in HD, HD'.
  apply bind_Ok in H as (ls & Hl & H), H' as (ls' & Hl' & H'). pose proof (progressive_list_range _ _ He) as Hr.
  rewrite Hl in HD. rewrite Hl' in HD'. cbn [results] in HD, HD'. split_sub.
  assert (Hall : Forall in_u256 (replicate kExecutionRequestsFields e)) by (by apply Forall_replicate).
  destruct (request_lists_kept _ _ _ _ Hl) as [Hn _], (request_lists_kept _ _ _ _ Hl') as [Hn' _]. rewrite length_replicate in Hn, Hn'.
  assert (ls = ls') as <- by (eapply progressive_container_inj;
    [congruence|unfold kExecutionRequestsFields in *; lia|by eapply request_lists_range|by eapply request_lists_range|done|done|exact H|exact H']).
  eapply (request_lists_inj e); [done|done| | |exact Hf|exact Hf'| | |exact Hl|exact Hl'].
  - lia.
  - split; [done|]. intros j Hj. apply lookup_replicate_2. unfold kExecutionRequestsFields. lia.
  - apply Forall_forall. intros b. by apply concat_sub.
  - apply Forall_forall. intros b. by apply concat_sub.
Qed.
Lemma execution_requests_root_range rs r : execution_requests_root rs = Ok r → in_u256 r.
Proof. unfold execution_requests_root. intros H. ok_inv. by eapply progressive_container_range. Qed.

(** ** The payload *)

Record header_ok (h : Chain.BlockHeader) : Prop := {
  ho_parent_hash : in_u256 (Chain.parent_hash h);
  ho_coinbase : 0 ≤ Chain.coinbase h < 2 ^ 160;
  ho_state_root : in_u256 (Chain.state_root h);
  ho_receipts_root : in_u256 (Chain.receipts_root h);
  ho_logs_bloom : len (Chain.logs_bloom h) = 256;
  ho_prev_randao : in_u256 (Chain.prev_randao h);
  ho_number : in_u64 (Chain.number h);
  ho_gas_limit : in_u64 (Chain.gas_limit h);
  ho_gas_used : in_u64 (Chain.gas_used h);
  ho_timestamp : in_u64 (Chain.timestamp h);
  ho_base_fee : in_u256 (Chain.base_fee_per_gas h);
  ho_blob_gas_used : in_u64 (Chain.blob_gas_used h);
  ho_excess_blob_gas : in_u64 (Chain.excess_blob_gas h);
  ho_beacon_root : in_u256 (Chain.parent_beacon_block_root h);
  ho_slot : in_u64 (Chain.slot_number h) }.

(** Everything a request is made of. *)
Record Request := mkRequest { q_header : Chain.BlockHeader; q_block_hash : Z; q_txs : list View; q_withdrawals : list bytes; q_state : Executed }.
Record request_ok (q : Request) : Prop := {
  qo_header : header_ok (q_header q);
  qo_hash : in_u256 (q_block_hash q);
  qo_txs : small (q_txs q) ∧ Forall (λ tx, fits (envelope_ tx)) (q_txs q);
  qo_withdrawals : small (q_withdrawals q);
  qo_requests : Forall (λ b, fits b) (requests (q_state q));
  qo_access_list : fits (block_access_list_rlp (q_state q)) }.
Definition root_of (q : Request) : res Chunk := new_payload_request_root (q_header q) (q_block_hash q) (q_txs q) (q_withdrawals q) (q_state q).

(** The header fields the payload carries. *)
Definition payload_header (h : Chain.BlockHeader) :=
  ((Chain.parent_hash h, Chain.coinbase h, Chain.state_root h, Chain.receipts_root h, Chain.logs_bloom h, Chain.prev_randao h),
   (Chain.number h, Chain.gas_limit h, Chain.gas_used h, Chain.timestamp h, Chain.extra_data h, Chain.base_fee_per_gas h),
   (Chain.blob_gas_used h, Chain.excess_blob_gas h, Chain.slot_number h)).
(** What is hashed for a request: for the roots of its fields, and over them. *)
Definition payload_fields (h : Chain.BlockHeader) (block_hash : Z) (txs : list View) (ws : list bytes) (state : Executed) : res (list Chunk) :=
  logs_bloom ← byte_vector_root (Chain.logs_bloom h);
  extra_data ← byte_list_root sha256 (Chain.extra_data h) kMaxExtraDataBytes;
  transactions ← transactions_root txs;
  withdrawals ← withdrawals_root ws;
  access_list ← progressive_byte_list_root (block_access_list_rlp state);
  Ok [bytes32_root (Chain.parent_hash h); address_root (Chain.coinbase h); bytes32_root (Chain.state_root h);
     bytes32_root (Chain.receipts_root h); logs_bloom; bytes32_root (Chain.prev_randao h); uint64_root (Chain.number h);
     uint64_root (Chain.gas_limit h); uint64_root (Chain.gas_used h); uint64_root (Chain.timestamp h); extra_data;
     uint256_root (Chain.base_fee_per_gas h); bytes32_root block_hash; transactions; withdrawals;
     uint64_root (Chain.blob_gas_used h); uint64_root (Chain.excess_blob_gas h); access_list;
     uint64_root (Chain.slot_number h)].
Definition payload_inputs (q : Request) : list bytes :=
  byte_vector_inputs sha256 (Chain.logs_bloom (q_header q)) ++ byte_list_inputs sha256 (Chain.extra_data (q_header q)) kMaxExtraDataBytes ++
  transactions_inputs (q_txs q) ++ withdrawals_inputs (q_withdrawals q) ++ progressive_byte_list_inputs sha256 (block_access_list_rlp (q_state q)) ++
  progressive_container_inputs (results (payload_fields (q_header q) (q_block_hash q) (q_txs q) (q_withdrawals q) (q_state q))).
Definition request_fields (q : Request) : res (list Chunk) :=
  payload ← execution_payload_root (q_header q) (q_block_hash q) (q_txs q) (q_withdrawals q) (q_state q);
  hashes ← versioned_hashes_root (q_txs q);
  reqs ← execution_requests_root (requests (q_state q));
  Ok [payload; hashes; bytes32_root (Chain.parent_beacon_block_root (q_header q)); reqs].
Definition request_inputs (q : Request) : list bytes :=
  payload_inputs q ++ versioned_hashes_inputs (q_txs q) ++ execution_requests_inputs (requests (q_state q)) ++
  progressive_container_inputs (results (request_fields q)).

Lemma execution_payload_root_inj q q' r : request_ok q → request_ok q' → payload_inputs q ⊆ D → payload_inputs q' ⊆ D →
  execution_payload_root (q_header q) (q_block_hash q) (q_txs q) (q_withdrawals q) (q_state q) = Ok r →
  execution_payload_root (q_header q') (q_block_hash q') (q_txs q') (q_withdrawals q') (q_state q') = Ok r →
  payload_header (q_header q) = payload_header (q_header q') ∧ q_block_hash q = q_block_hash q' ∧ map envelope_ (q_txs q) = map envelope_ (q_txs q') ∧
   map withdrawal_fields (q_withdrawals q) = map withdrawal_fields (q_withdrawals q') ∧ block_access_list_rlp (q_state q) = block_access_list_rlp (q_state q').
Proof.
  unfold payload_inputs, payload_fields.
  intros [Hh Hbh [Ht Hte] Hw _ Ha] [Hh' Hbh' [Ht' Hte'] Hw' _ Ha'] HD HD' H H'. destruct Hh, Hh'. unfold execution_payload_root, bytes32_root in *.
  apply bind_Ok in H as (lb & Elb & H), H' as (lb' & Elb' & H'). apply bind_Ok in H as (ed & Eed & H), H' as (ed' & Eed' & H').
  apply bind_Ok in H as (tx & Etx & H), H' as (tx' & Etx' & H'). apply bind_Ok in H as (wd & Ewd & H), H' as (wd' & Ewd' & H').
  apply bind_Ok in H as (al & Eal & H), H' as (al' & Eal' & H').
  assert (Hroots : in_u256 lb ∧ in_u256 lb' ∧ in_u256 ed ∧ in_u256 ed' ∧ in_u256 tx ∧ in_u256 tx' ∧ in_u256 wd ∧ in_u256 wd' ∧ in_u256 al ∧ in_u256 al').
  { split_and!; [eapply byte_vector_root_range; [done| |exact Elb]; lia|eapply byte_vector_root_range; [done| |exact Elb']; lia|
      exact (byte_list_root_range _ sha_range _ _ _ Eed)|exact (byte_list_root_range _ sha_range _ _ _ Eed')|
      exact (transactions_root_range _ _ Etx)|exact (transactions_root_range _ _ Etx')|exact (withdrawals_root_range _ _ Ewd)|exact (withdrawals_root_range _ _ Ewd')|
      exact (progressive_byte_list_root_range _ sha_range _ _ Eal)|exact (progressive_byte_list_root_range _ sha_range _ _ Eal')]. }
  destruct Hroots as (? & ? & ? & ? & ? & ? & ? & ? & ? & ?).
  rewrite Elb, Eed, Etx, Ewd, Eal in HD. rewrite Elb', Eed', Etx', Ewd', Eal' in HD'. cbn [mbind res_bind results] in HD, HD'.
  apply list_subseteq_app_iff_l in HD as [Dlb HD], HD' as [Dlb' HD']. apply list_subseteq_app_iff_l in HD as [Ded HD], HD' as [Ded' HD'].
  apply list_subseteq_app_iff_l in HD as [Dtx HD], HD' as [Dtx' HD']. apply list_subseteq_app_iff_l in HD as [Dwd HD], HD' as [Dwd' HD'].
  apply list_subseteq_app_iff_l in HD as [Dal HD], HD' as [Dal' HD'].
  match type of H with progressive_container_root ?l = _ => match type of H' with progressive_container_root ?l' = _ =>
    pose proof (progressive_container_inj l l' r eq_refl ltac:(cbn; lia) ltac:(all_roots) ltac:(all_roots) HD HD' H H') as E end end.
  clear H H' HD HD'. apply eq_all in E. cbn [all_eq] in E.
  destruct E as (E1 & E2 & E3 & E4 & E5 & E6 & E7 & E8 & E9 & E10 & E11 & E12 & E13 & E14 & E15 & E16 & E17 & E18 & E19 & _). subst lb' ed' tx' wd' al'.
  apply address_root_inj in E2; [|done..]. apply uint64_root_inj in E7, E8, E9, E10, E16, E17, E19; [|done..]. apply uint256_root_inj in E12; [|done..].
  pose proof (byte_vector_root_inj sha256 sha_range D Hinj (Chain.logs_bloom (q_header q)) (Chain.logs_bloom (q_header q')) _ ltac:(by rewrite ho_logs_bloom0, ho_logs_bloom1) ltac:(lia) Dlb Dlb' Elb Elb') as El.
  pose proof (byte_list_root_inj sha256 sha_range D Hinj _ _ kMaxExtraDataBytes _ ltac:(unfold kMaxExtraDataBytes; lia) Ded Ded' Eed Eed') as Ee.
  pose proof (transactions_root_inj _ _ _ Ht Ht' Hte Hte' Dtx Dtx' Etx Etx') as Et.
  pose proof (withdrawals_root_inj _ _ _ Hw Hw' Ewd Ewd' Dwd Dwd') as Ew.
  pose proof (progressive_byte_list_root_inj sha256 sha_range D Hinj _ _ _ Ha Ha' Dal Dal' Eal Eal') as Ea.
  unfold payload_header. by rewrite E1, E2, E3, E4, E6, E7, E8, E9, E10, E12, E16, E17, E19, El, Ee.
Qed.

Lemma request_root_binds q q' r : request_ok q → request_ok q' → request_inputs q ⊆ D → request_inputs q' ⊆ D →
  root_of q = Ok r → root_of q' = Ok r →
  payload_header (q_header q) = payload_header (q_header q') ∧ q_block_hash q = q_block_hash q' ∧
  map envelope_ (q_txs q) = map envelope_ (q_txs q') ∧ map withdrawal_fields (q_withdrawals q) = map withdrawal_fields (q_withdrawals q') ∧
  block_access_list_rlp (q_state q) = block_access_list_rlp (q_state q') ∧ versioned_hashes (q_txs q) [] = versioned_hashes (q_txs q') [] ∧
  Chain.parent_beacon_block_root (q_header q) = Chain.parent_beacon_block_root (q_header q') ∧ requests (q_state q) = requests (q_state q').
Proof.
  unfold request_inputs, request_fields. intros Hok Hok' HD HD' H H'. unfold root_of, new_payload_request_root, bytes32_root in *.
  apply bind_Ok in H as (p & Ep & H), H' as (p' & Ep' & H'). apply bind_Ok in H as (vh & Ev & H), H' as (vh' & Ev' & H').
  apply bind_Ok in H as (rq & Er & H), H' as (rq' & Er' & H'). rewrite Ep, Ev, Er in HD. rewrite Ep', Ev', Er' in HD'. cbn [mbind res_bind results] in HD, HD'.
  apply list_subseteq_app_iff_l in HD as [Dp HD], HD' as [Dp' HD']. apply list_subseteq_app_iff_l in HD as [Dv HD], HD' as [Dv' HD'].
  apply list_subseteq_app_iff_l in HD as [Dr HD], HD' as [Dr' HD'].
  assert (Hp : in_u256 p ∧ in_u256 p') by (unfold execution_payload_root in *; split; ok_inv; by eapply progressive_container_range). destruct Hp as [Hp Hp'].
  pose proof (versioned_hashes_root_range _ _ Ev) as Hv. pose proof (versioned_hashes_root_range _ _ Ev') as Hv'.
  pose proof (execution_requests_root_range _ _ Er) as Hr. pose proof (execution_requests_root_range _ _ Er') as Hr'.
  pose proof (ho_beacon_root _ (qo_header _ Hok)) as Hb. pose proof (ho_beacon_root _ (qo_header _ Hok')) as Hb'.
  match type of H with progressive_container_root ?l = _ => match type of H' with progressive_container_root ?l' = _ =>
    pose proof (progressive_container_inj l l' r eq_refl ltac:(cbn; lia) ltac:(all_roots) ltac:(all_roots) HD HD' H H') as E end end.
  injection E as <- <- Eb <-. destruct (execution_payload_root_inj q q' p Hok Hok' Dp Dp' Ep Ep') as (E1 & E2 & E3 & E4 & E5).
  pose proof (versioned_hashes_root_inj _ _ _ Ev Ev' Dv Dv') as E6.
  pose proof (execution_requests_root_inj _ _ _ (qo_requests _ Hok) (qo_requests _ Hok') Dr Dr' Er Er') as E7. done.
Qed.
End Bind.

(** C8.  The guest's public output binds the block.  Two NewPayloadRequests with
    the same root have the same payload header fields, block hash, transaction
    envelopes, withdrawals, block access list, blob versioned hashes, parent
    beacon block root and execution requests, in the same order: zero padding,
    absent request types and list lengths cannot be confused.  The fields are of
    their machine widths and the lists of a size a 64-bit host holds
    ([request_ok]), and sha256 has no collision among the blocks hashed for these
    two requests, a finite list ([request_inputs]). *)
Theorem output_binds_block q q' r : request_ok q → request_ok q' →
  collision_free sha256 (request_inputs q ++ request_inputs q') (request_inputs q ++ request_inputs q') →
  root_of q = Ok r → root_of q' = Ok r →
  payload_header (q_header q) = payload_header (q_header q') ∧ q_block_hash q = q_block_hash q' ∧
  map envelope_ (q_txs q) = map envelope_ (q_txs q') ∧ map withdrawal_fields (q_withdrawals q) = map withdrawal_fields (q_withdrawals q') ∧
  block_access_list_rlp (q_state q) = block_access_list_rlp (q_state q') ∧ versioned_hashes (q_txs q) [] = versioned_hashes (q_txs q') [] ∧
  Chain.parent_beacon_block_root (q_header q) = Chain.parent_beacon_block_root (q_header q') ∧ requests (q_state q) = requests (q_state q').
Proof.
  intros Hok Hok' Hinj. apply (request_root_binds _ Hinj q q' r Hok Hok'); [by apply list_subseteq_app_l|by apply list_subseteq_app_r].
Qed.
End Payload.

(** ** A sample request *)

Definition sample_header (difficulty : Z) : Chain.BlockHeader :=
  Chain.mkHeader 1 2 3 4 5 6 (replicate 256 Byte.x01) difficulty 100 30000000 21000 1746612323 [Byte.x0a] 8 [] 1000000000 0 0 131072 9 0 0 0 fk_Prague.
Definition sample_request (difficulty : Z) : Request :=
  mkRequest (sample_header difficulty) 77 [view_of Legacy] [replicate 48 Byte.x05] (mkExecuted [Byte.x01 :: replicate 76 Byte.x02] [Byte.xc0]).
(** A hash to 256 bits that tells the inputs of the sample apart: a square modulo a large number. *)
Definition mixing_modulus : Z := 0x9e3779b97f4a7c15f39cc0605cedc8341082276bf3a27251f86c6a11d0c18e95.
Definition mixing_sha (b : bytes) : Z := let r := (be_val b + 1) mod mixing_modulus in (r * r) mod mixing_modulus.
Lemma mixing_sha_range b : in_u256 (mixing_sha b).
Proof.
  unfold mixing_sha, in_u256. cbv zeta. set (x := _ * _). clearbody x. pose proof (Z.mod_pos_bound x mixing_modulus ltac:(by vm_compute)) as H.
  assert (mixing_modulus < 2 ^ 256) by (by vm_compute). lia.
Qed.
Lemma sample_request_ok d : request_ok (sample_request d).
Proof. split; [split; by vm_compute|by vm_compute|split; [by vm_compute|by repeat constructor]|by vm_compute|by repeat constructor|by vm_compute]. Qed.
(** Requests that differ in what the payload leaves out, the difficulty of the header. *)
Definition sample_inputs : list bytes := request_inputs mixing_sha (sample_request 0) ++ request_inputs mixing_sha (sample_request 1).
Lemma sample_requests_apart : collision_free mixing_sha sample_inputs sample_inputs.
Proof. apply (bool_decide_eq_true_1 (collision_free mixing_sha sample_inputs sample_inputs)). vm_cast_no_check (eq_refl true). Qed.
Lemma output_binds_block_witness :
  bool_decide (Chain.difficulty (q_header (sample_request 0)) = Chain.difficulty (q_header (sample_request 1))) = false ∧
  payload_header (q_header (sample_request 0)) = payload_header (q_header (sample_request 1)) ∧
  requests (q_state (sample_request 0)) = requests (q_state (sample_request 1)).
Proof.
  split; [by vm_compute|].
  assert (E' : root_of mixing_sha (sample_request 1) = root_of mixing_sha (sample_request 0)) by (vm_compute; reflexivity).
  destruct (root_of mixing_sha (sample_request 0)) as [r|] eqn:E.
  - destruct (output_binds_block mixing_sha mixing_sha_range (sample_request 0) (sample_request 1) r) as (H1 & _ & _ & _ & _ & _ & _ & H);
      [apply sample_request_ok|apply sample_request_ok|exact sample_requests_apart|exact E|exact E'|by split].
  - by vm_compute in E.
Defined.
End Payload.
