(* ===== verification/IntrinsicGas.v ===== *)
(** The intrinsic gas of a transaction ([include/zeg/intrinsic_gas.hpp],
    [src/intrinsic_gas.cpp]) and its calldata floor. *)

From stdpp Require Import base numbers list strings gmap.
From S2P Require Import Prelude Fork Rlp Receipt Transactions.

Set Default Goal Selector "!".

Module IntrinsicGas.
Import Fork Rlp Receipt Transactions.

Definition count_nonzero_bytes (data : bytes) : Z := foldl (λ nz b, if b2z b =? 0 then nz else nz + 1) 0 data.

Definition TX_BASE_COST : Z := 12000.
Definition TX_VALUE_COST : Z := 6000.
Definition COLD_ACCOUNT_ACCESS : Z := 3000.
Definition CREATE_ACCESS : Z := 12000.
Definition eip2780_base (tx : View) : Z :=
  match to_ tx with
  | None => TX_BASE_COST + CREATE_ACCESS
  | Some to =>
      if to =? sender_ tx then TX_BASE_COST
      else TX_BASE_COST + COLD_ACCOUNT_ACCESS + (if negb (value_ tx =? 0) then TX_VALUE_COST else 0)
  end.

(** The addresses and keys of the access list. *)
Definition count_entry (n : Z * Z) (entry : Item) : res (Z * Z) :=
  let '(addresses, keys_n) := n in
  _ ← fatal_if (bool_decide (kind entry ≠ List)) "access_list entry is not an RLP list";
  let eit := payload entry in
  _ ← fatal_if (negb (has_next eit)) "access_list entry missing address";
  '(_, eit) ← next eit;
  let addresses := addresses + 1 in
  _ ← fatal_if (negb (has_next eit)) "access_list entry missing keys";
  '(keys, eit) ← next eit;
  _ ← fatal_if (bool_decide (kind keys ≠ List)) "access_list storage-keys field is not an RLP list";
  keys_n ← for_items (λ n _, Ok (n + 1)) (payload keys) keys_n;
  Ok (addresses, keys_n).
Definition count_access_list (tx : View) : res (Z * Z) :=
  match type_ tx with
  | Legacy => Ok (0, 0)
  | _ =>
      outer ← decode_item (access_list_rlp_ tx);
      _ ← fatal_if (bool_decide (kind outer ≠ List)) "access_list is not an RLP list";
      for_items count_entry (payload outer) (0, 0)
  end.

(** The gas and the calldata floor. *)
Definition compute_intrinsic_gas (tx : View) (rev : revision) : res (Z * Z) :=
  let amsterdam := rev_ge rev EVMC_AMSTERDAM in
  let create := match to_ tx with None => true | Some _ => false end in
  let base := if amsterdam then eip2780_base tx else 21000 in
  let gas := if create && negb amsterdam then base + 32000 else base in
  let size := len (data_ tx) in
  let nonzero := count_nonzero_bytes (data_ tx) in
  let gas := gas + (size * 4 + nonzero * 12) in
  let gas := if create && rev_ge rev EVMC_SHANGHAI then gas + (size + 31) / 32 * 2 else gas in
  let al_address_cost := if amsterdam then 2900 + 20 * 64 else 2400 in
  let al_key_cost := if amsterdam then 2000 + 32 * 64 else 1900 in
  '(al_addresses, al_keys) ← count_access_list tx;
  let gas := gas + (al_addresses * al_address_cost + al_keys * al_key_cost) in
  let calldata_floor :=
    if amsterdam then base + 64 * (size + 20 * al_addresses + 32 * al_keys)
    else base + (size + nonzero * 3) * 10 in
  let gas :=
    match type_ tx with
    | SetCode =>
        let per_auth := if amsterdam then 101 * 16 + 3000 + 3000 + 2 * 100 else 25000 in
        gas + per_auth * num_authorizations_ tx
    | _ => gas
    end in
  Ok (gas, calldata_floor).
(** ** Bounds *)

Lemma len_cons (b : Byte.byte) (l : bytes) : len (b :: l) = 1 + len l.
Proof. unfold len. cbn [length]. lia. Qed.
(** An item off a list: at least one byte, and its payload within it. *)
Lemma item_sizes it i : len it < 2 ^ 32 → decode_item it = Ok i →
  len it = len (raw i) + len (drop (length (raw i)) it) ∧ 1 ≤ len (raw i) ∧ len (payload i) ≤ len (raw i).
Proof.
  intros Hl Hd. destruct (decode_item_canonical _ _ Hl Hd) as [Hr Hi]. pose proof (decode_item_raw_nonempty _ _ Hl Hd) as Hne.
  split_and!.
  - rewrite Hi at 1. by rewrite len_app.
  - destruct (raw i); [done|]. rewrite len_cons. pose proof (len_nonneg l). lia.
  - rewrite Hr. apply len_enc_ge.
Qed.
Lemma next_sizes it i it' : len it < 2 ^ 32 → next it = Ok (i, it') →
  len it = len (raw i) + len it' ∧ 1 ≤ len (raw i) ∧ len (payload i) ≤ len (raw i).
Proof. intros Hl. unfold next. case_match; [done|]. intros Hn. ok_inv. by apply item_sizes. Qed.

(** A loop that adds at most an item's size per item adds at most the list's. *)
Lemma fold_items_measure {A} (f : A → Item → res A) (m : A → Z) (ok : A → Prop) :
  (∀ a i a', ok a → len (raw i) < 2 ^ 32 → 1 ≤ len (raw i) → len (payload i) ≤ len (raw i) → f a i = Ok a' → ok a' ∧ m a' ≤ m a + len (raw i)) →
  ∀ fuel it a a', len it < 2 ^ 32 → ok a → fold_items f fuel it a = Ok a' → ok a' ∧ m a' ≤ m a + len it.
Proof.
  intros Hf fuel. induction fuel as [|fuel IH]; intros it a a' Hl Ha H; cbn [fold_items] in H; pose proof (len_nonneg it).
  { ok_inv. split; [done|lia]. }
  destruct (has_next it); [|ok_inv; split; [done|lia]]. ok_inv.
  match goal with H : next it = Ok _ |- _ => destruct (next_sizes _ _ _ Hl H) as (Hs & Hge & Hp) end.
  match goal with H : next it = Ok (_, ?l) |- _ => pose proof (len_nonneg l) end.
  match goal with H : f a _ = Ok _ |- _ => apply Hf in H as [Ho Hm]; [|done|lia|done|done] end.
  match goal with H : fold_items _ _ _ _ = Ok _ |- _ => apply IH in H as [Ho' Hm']; [|lia|done] end. split; [done|lia].
Qed.

Definition counts_ok (n : Z * Z) : Prop := 0 ≤ n.1 ∧ 0 ≤ n.2.
Lemma count_keys_bound l n n' : len l < 2 ^ 32 → 0 ≤ n → for_items (λ n _, Ok (n + 1)) l n = Ok n' → 0 ≤ n' ∧ n' ≤ n + len l.
Proof.
  intros Hl Hn. apply (fold_items_measure (λ n _, Ok (n + 1)) (λ n, n) (λ n, 0 ≤ n)); [|done|done].
  intros a i a' Ha _ H1 _ H. ok_inv. lia.
Qed.
Lemma count_entry_bound n e n' : counts_ok n → len (raw e) < 2 ^ 32 → 1 ≤ len (raw e) → len (payload e) ≤ len (raw e) →
  count_entry n e = Ok n' → counts_ok n' ∧ n'.1 + n'.2 ≤ n.1 + n.2 + len (raw e).
Proof.
  destruct n as [na nk]. intros [Ha Hk] Hl _ Hp H. unfold count_entry in H. ok_inv. cbn [fst snd] in *.
  match goal with H : next (payload e) = Ok (?i, ?l) |- _ => pose proof (len_nonneg l);
    destruct (next_sizes (payload e) i l ltac:(lia) H) as (Hs1 & ? & _); clear H end.
  match goal with H : next ?l = Ok (?i, ?rest) |- _ => pose proof (len_nonneg rest);
    destruct (next_sizes l i rest ltac:(lia) H) as (Hs2 & ? & ?) end.
  match goal with H : for_items _ _ _ = Ok _ |- _ => apply count_keys_bound in H as [? ?]; [|lia|done] end.
  unfold counts_ok. cbn [fst snd]. lia.
Qed.
Lemma count_access_list_bound tx n : len (access_list_rlp_ tx) < 2 ^ 32 → count_access_list tx = Ok n →
  counts_ok n ∧ n.1 + n.2 ≤ len (access_list_rlp_ tx).
Proof.
  intros Hl H. pose proof (len_nonneg (access_list_rlp_ tx)).
  assert (Hz : type_ tx = Legacy → n = (0, 0)) by (intros E; unfold count_access_list in H; rewrite E in H; by ok_inv).
  destruct (decide (type_ tx = Legacy)) as [E|Hne]; [rewrite (Hz E); unfold counts_ok; cbn; lia|].
  assert (Ho : (outer ← decode_item (access_list_rlp_ tx);
      _ ← fatal_if (bool_decide (kind outer ≠ List)) "access_list is not an RLP list";
      for_items count_entry (payload outer) (0, 0)) = Ok n) by (unfold count_access_list in H; by destruct (type_ tx)).
  ok_inv. match goal with H : decode_item _ = Ok ?o |- _ => destruct (item_sizes _ _ Hl H) as (Hs & _ & Hp); pose proof (len_nonneg (drop (length (raw o)) (access_list_rlp_ tx))) end.
  match goal with H : for_items _ _ _ = Ok _ |- _ =>
    apply (fold_items_measure count_entry (λ n, n.1 + n.2) counts_ok) in H as [Hc Hm]; [|by intros; apply count_entry_bound|lia|by split] end.
  split; [done|]. cbn [fst snd] in *. lia.
Qed.

Lemma count_nonzero_bound l : 0 ≤ count_nonzero_bytes l ≤ len l.
Proof.
  unfold count_nonzero_bytes. enough (∀ a, a ≤ foldl (λ nz b, if b2z b =? 0 then nz else nz + 1) a l ≤ a + len l) as H by (specialize (H 0); lia).
  induction l as [|b l IH]; intros a; [cbn; change (len []) with 0; lia|]. cbn [foldl]. rewrite len_cons. specialize (IH (if b2z b =? 0 then a else a + 1)).
  case_match; lia.
Qed.

(** The sizes of a transaction of a block below 4 GiB. *)
Record tx_small (tx : View) : Prop := {
  small_data : len (data_ tx) < 2 ^ 32;
  small_access_list : len (access_list_rlp_ tx) < 2 ^ 32;
  small_auths : 0 ≤ num_authorizations_ tx < 2 ^ 32 }.

(** Intrinsic gas and floor are far from the ends of int64. *)
Lemma intrinsic_bounds tx rev gas floor : tx_small tx → compute_intrinsic_gas tx rev = Ok (gas, floor) →
  12000 ≤ gas < 2 ^ 49 ∧ 12000 ≤ floor < 2 ^ 49.
Proof.
  intros [Hd Ha Hn] H. unfold compute_intrinsic_gas in H. ok_inv.
  match goal with H : count_access_list tx = Ok _ |- _ => destruct (count_access_list_bound _ _ Ha H) as ([? ?] & ?) end.
  pose proof (count_nonzero_bound (data_ tx)). pose proof (len_nonneg (data_ tx)). cbn [fst snd] in *.
  assert (12000 ≤ eip2780_base tx ≤ 24000) by (unfold eip2780_base, TX_BASE_COST, CREATE_ACCESS, COLD_ACCOUNT_ACCESS, TX_VALUE_COST; repeat case_match; lia).
  assert (0 ≤ (len (data_ tx) + 31) / 32 ≤ len (data_ tx) + 31) by (split; [apply Z.div_pos; lia|apply Z.div_le_upper_bound; lia]).
  repeat case_match; lia.
Qed.
End IntrinsicGas.
