(* ===== verification/BalEncode.v ===== *)
(** The encoding of the block access list ([src/block_access_list.cpp],
    [encode]) and its hash ([build_block_access_list_hash],
    [src/zisk_state_db.cpp]): the two-pass encoder writes the RLP list EIP-7928
    defines, and the walk over the input's sorted links visits every row once,
    in increasing order, so the links cannot change what is hashed. *)

From stdpp Require Import base numbers list strings gmap sorting.
From S2P Require Import Prelude Rlp Writer Receipt Contracts Bal Accounts Storages Journal Mpt.

Set Default Goal Selector "!".

Module BalEncode.
Import Rlp Writer Receipt Bal.

(** ** Sizes *)

Definition int_payload (v : Z) : bytes := let b := be_bytes 32 v in drop (Z.to_nat (u256_significant_start b)) b.
Definition int_size (v : Z) : Z :=
  let n := 32 - u256_significant_start (be_bytes 32 v) in
  if (n =? 1) && (v mod 256 <? 0x80) then 1 else 1 + n.
Definition write_int (v : Z) : writer := advance (λ buf p, write_string buf p (int_payload v)).
Definition str_size (s : bytes) : Z := if (len s =? 1) && (b2z (hd Byte.x00 s) <? 0x80) then 1 else item_size (len s).
Definition index_size (i : Z) : Z :=
  if i <? 0x80 then 1 else if i <? 0x100 then 2 else if i <? 0x10000 then 3 else if i <? 0x1000000 then 4 else 5.

(** ** Encoding *)

(** [kind]: 0 for integer values, 1 for code. *)
Inductive ValueKind := IntValue | CodeValue.

Section Encode.
Context (contracts : Contracts.Contracts) (b : BlockAccessList).

Definition code_of (h : Z) : res bytes :=
  if h =? Node.kEmptyCodeHash then Ok [] else
  c ← Contracts.by_hash h contracts;
  Ok (Contracts.code c).
Definition value_size (kind : ValueKind) (v : Z) : res Z :=
  match kind with IntValue => Ok (int_size v) | CodeValue => c ← code_of v; Ok (str_size c) end.

Fixpoint payload_size (kind : ValueKind) (cs : list (Z * Z)) : res Z :=
  match cs with
  | [] => Ok 0
  | (i, v) :: cs =>
      n ← value_size kind v;
      rest ← payload_size kind cs;
      Ok (item_size (index_size i + n) + rest)
  end.
Definition list_payload (l : List_) (kind : ValueKind) : res Z := cs ← changes_of l b; payload_size kind cs.

(** An account of the list: its address, its record and its slots' records. *)
Record Entry := mkEntry { e_address : Z; e_account : Account; e_slots : list Slot }.
Record Sizes := mkSizes { sz_sc : Z; sz_sr : Z; sz_bal : Z; sz_nonce : Z; sz_code : Z; sz_payload : Z }.

Definition is_read (s : Slot) : bool := l_head (s_changes s) =? kNone.
Fixpoint slot_sizes (ss : list Slot) (sc sr : Z) : res (Z * Z) :=
  match ss with
  | [] => Ok (sc, sr)
  | s :: ss =>
      if is_read s then slot_sizes ss sc (sr + int_size (s_key s))
      else
        cl ← list_payload (s_changes s) IntValue;
        slot_sizes ss (sc + item_size (int_size (s_key s) + item_size cl)) sr
  end.
Definition entry_sizes (e : Entry) : res Sizes :=
  '(sc, sr) ← slot_sizes (e_slots e) 0 0;
  bal ← list_payload (a_balance (e_account e)) IntValue;
  nonce ← list_payload (a_nonce (e_account e)) IntValue;
  code ← list_payload (a_code (e_account e)) CodeValue;
  Ok (mkSizes sc sr bal nonce code
        (21 + item_size sc + item_size sr + item_size bal + item_size nonce + item_size code)).
Fixpoint all_sizes (es : list Entry) (total : Z) : res (list Sizes * Z) :=
  match es with
  | [] => Ok ([], total)
  | e :: es =>
      s ← entry_sizes e;
      '(ss, total) ← all_sizes es (total + item_size (sz_payload s));
      Ok (s :: ss, total)
  end.

(** The second pass. *)
Definition from_res {A} (r : res A) (w : A → writer) : writer := λ st, x ← r; w x st.
Definition write_change (kind : ValueKind) (c : Z * Z) : writer :=
  match kind with
  | IntValue =>
      seq (list_header (index_size c.1 + int_size c.2))
        (seq (advance (λ buf p, write_u64 buf p c.1)) (write_int c.2))
  | CodeValue =>
      from_res (code_of c.2) (λ code,
        seq (list_header (index_size c.1 + str_size code))
          (seq (advance (λ buf p, write_u64 buf p c.1)) (advance (λ buf p, write_string buf p code))))
  end.
Definition write_changes (l : List_) (payload : Z) (kind : ValueKind) : writer :=
  seq (list_header payload) (from_res (changes_of l b) (for_each (write_change kind))).
Definition write_changed_slot (s : Slot) : writer :=
  if is_read s then skip else
  from_res (list_payload (s_changes s) IntValue) (λ cl,
    seq (list_header (int_size (s_key s) + item_size cl))
      (seq (write_int (s_key s)) (write_changes (s_changes s) cl IntValue))).
Definition write_read_slot (s : Slot) : writer := if is_read s then write_int (s_key s) else skip.
Definition write_entry (es : Entry * Sizes) : writer :=
  let '(e, s) := es in
  seq (list_header (sz_payload s))
    (seq (advance (λ buf p, write_string buf p (be_bytes 20 (e_address e))))
    (seq (list_header (sz_sc s))
    (seq (for_each write_changed_slot (e_slots e))
    (seq (list_header (sz_sr s))
    (seq (for_each write_read_slot (e_slots e))
    (seq (write_changes (a_balance (e_account e)) (sz_bal s) IntValue)
    (seq (write_changes (a_nonce (e_account e)) (sz_nonce s) IntValue)
         (write_changes (a_code (e_account e)) (sz_code s) CodeValue)))))))).

Definition encode_bal (es : list Entry) : res bytes :=
  '(sizes, total) ← all_sizes es 0;
  '(out, p) ← seq (list_header total) (for_each write_entry (zip es sizes))
                (replicate (Z.to_nat (item_size total)) Byte.x00, 0);
  _ ← fatal_if (negb (p =? len out)) "BAL: encoder size mismatch";
  Ok out.
End Encode.

(** ** The walk over the sorted links *)

Section Hash.
Context (keccak256 : bytes → Z).
Context (contracts : Contracts.Contracts) (accounts : Accounts.Accounts) (storages : Storages.Storages).
Context (gas_limit : Z).

Definition kBalItemCost : Z := 2000.
Definition kNoLink : Z := Accounts.kNoLink.
Abbreviation n_accounts := (length (Accounts.rows accounts)).
Abbreviation n_storages := (length (Storages.rows storages)).

(** The inner loop: [room] more slots may be visited before the count check
    fails; returns the accessed slots' ids and what is room. *)
Fixpoint walk_slots (room : nat) (addr s : Z) (prev_key : option Z) (b : BlockAccessList)
    : res (list Z * nat * BlockAccessList) :=
  if s =? kNoLink then Ok ([], room, b) else
  match room with
  | O => Fatal "BAL: bad storage link"
  | S room =>
      if Z.of_nat n_storages <=? s then Fatal "BAL: bad storage link" else
      a ← Storages.address_at (Z.to_nat s) storages;
      _ ← fatal_if (negb (a =? addr)) "BAL: storage link leaves its account";
      key ← Storages.position_at (Z.to_nat s) storages;
      _ ← fatal_if (match prev_key with Some k => key <=? k | None => false end) "BAL: storage links not strictly increasing";
      id ← Storages.bal_id_at (Z.to_nat s) storages;
      next ← Storages.next_sorted_at (Z.to_nat s) storages;
      accessed ← (if id =? kNone then Ok false else sl ← slot id b; Ok (s_accessed sl));
      if accessed : bool then
        v ← Storages.value_at (Z.to_nat s) storages;
        b ← close_slot id v b;
        '(ids, room, b) ← walk_slots room addr next (Some key) b;
        Ok (id :: ids, room, b)
      else walk_slots room addr next (Some key) b
  end.

(** An entry of the result: the address, the row and the slot ids it points to. *)
Definition entry_ref : Type := Z * nat * list Z.

Fixpoint walk_accounts (room : nat) (slot_room : nat) (row : Z) (prev_addr : option Z) (b : BlockAccessList)
    : res (list entry_ref * nat * nat * BlockAccessList) :=
  if row =? kNoLink then Ok ([], room, slot_room, b) else
  match room with
  | O => Fatal "BAL: bad account link"
  | S room =>
      if Z.of_nat n_accounts <=? row then Fatal "BAL: bad account link" else
      let i := Z.to_nat row in
      addr ← Accounts.address_at i accounts;
      _ ← fatal_if (match prev_addr with Some a => addr <=? a | None => false end) "BAL: account links not strictly increasing";
      first ← Accounts.first_sorted_storage_at i accounts;
      '(ids, slot_room, b) ← walk_slots slot_room addr first None b;
      a ← vec_get (accounts_ b) i;
      next ← Accounts.next_sorted_at i accounts;
      if a_accessed a then
        bal ← Accounts.balance_at i accounts;
        nonce ← Accounts.nonce_at i accounts;
        code_hash ← Accounts.code_hash_at i accounts;
        b ← close_account i bal nonce code_hash b;
        '(es, room, slot_room, b) ← walk_accounts room slot_room next (Some addr) b;
        Ok ((addr, i, ids) :: es, room, slot_room, b)
      else
        _ ← fatal_if (negb (Nat.eqb (length ids) 0)) "BAL: slot accessed without its account";
        walk_accounts room slot_room next (Some addr) b
  end.

(** The pointers of an entry, followed. *)
Definition resolve (b : BlockAccessList) (e : entry_ref) : res Entry :=
  let '(addr, i, ids) := e in
  a ← vec_get (accounts_ b) i;
  ss ← mapM (λ id, slot id b) ids;
  Ok (mkEntry addr a ss).

Definition build_block_access_list_hash (b : BlockAccessList) : res (bytes * Z) :=
  _ ← fatal_if (gas_limit / kBalItemCost <? accessed_accounts_ b + accessed_slots_ b)
        "block access list exceeds the gas limit (BLOCK_ACCESS_LIST_GAS_LIMIT_EXCEEDED)";
  '(es, room, slot_room, b) ← walk_accounts n_accounts n_storages (Accounts.first_sorted_ accounts) None b;
  _ ← fatal_if (negb (Nat.eqb room 0) || negb (Nat.eqb slot_room 0)) "BAL: sorted links don't cover every row";
  _ ← fatal_if (negb (Z.of_nat (length es) =? accessed_accounts_ b)
                || negb (Z.of_nat (length (concat (map snd es))) =? accessed_slots_ b)) "BAL: accessed count mismatch";
  es ← mapM (resolve b) es;
  bal_rlp ← encode_bal contracts b es;
  Ok (bal_rlp, keccak256 bal_rlp).
End Hash.
(** ** The list EIP-7928 defines *)

(** Values as their byte strings: trimmed integers, code. *)
Record AccountChanges := mkAccountChanges {
  ac_address : Z;
  ac_storage_changes : list (Z * list (Z * bytes));
  ac_storage_reads : list Z;
  ac_balance_changes : list (Z * bytes);
  ac_nonce_changes : list (Z * bytes);
  ac_code_changes : list (Z * bytes) }.

Definition spec_change (c : Z * bytes) : bytes := encode_list [encode_u64 c.1; encode c.2].
Definition spec_slot (s : Z * list (Z * bytes)) : bytes := encode_list [encode_u256 s.1; encode_list (map spec_change s.2)].
Definition account_items (a : AccountChanges) : list bytes :=
  [encode (be_bytes 20 (ac_address a)); encode_list (map spec_slot (ac_storage_changes a));
   encode_list (map encode_u256 (ac_storage_reads a)); encode_list (map spec_change (ac_balance_changes a));
   encode_list (map spec_change (ac_nonce_changes a)); encode_list (map spec_change (ac_code_changes a))].
Definition spec_account (a : AccountChanges) : bytes := encode_list (account_items a).
Definition spec_bal (l : list AccountChanges) : bytes := encode_list (map spec_account l).

(** Compared by name before they are unfolded. *)
#[local] Strategy 1000 [be_bytes encode_u256 encode_u64 encode_list encode spec_slot spec_change].

Section Spec.
Context (contracts : Contracts.Contracts) (b : BlockAccessList).

(** What the records of an entry say. *)
Definition value_bytes (kind : ValueKind) (v : Z) : res bytes :=
  match kind with IntValue => Ok (be_trim v) | CodeValue => code_of contracts v end.
Fixpoint resolve_changes (kind : ValueKind) (cs : list (Z * Z)) : res (list (Z * bytes)) :=
  match cs with
  | [] => Ok []
  | (i, v) :: cs => x ← value_bytes kind v; rest ← resolve_changes kind cs; Ok ((i, x) :: rest)
  end.
Definition recorded (kind : ValueKind) (l : List_) : res (list (Z * bytes)) := cs ← changes_of l b; resolve_changes kind cs.
Fixpoint split_slots (ss : list Slot) : res (list (Z * list (Z * bytes)) * list Z) :=
  match ss with
  | [] => Ok ([], [])
  | s :: ss =>
      '(ch, rd) ← split_slots ss;
      if is_read s then Ok (ch, s_key s :: rd)
      else cs ← recorded IntValue (s_changes s); Ok ((s_key s, cs) :: ch, rd)
  end.
Definition entry_changes (e : Entry) : res AccountChanges :=
  '(ch, rd) ← split_slots (e_slots e);
  bal ← recorded IntValue (a_balance (e_account e));
  nonce ← recorded IntValue (a_nonce (e_account e));
  code ← recorded CodeValue (a_code (e_account e));
  Ok (mkAccountChanges (e_address e) ch rd bal nonce code).

(** Indices are 32-bit, values 256-bit. *)
Definition change_ok (c : Z * Z) : Prop := 0 ≤ c.1 < 2 ^ 32 ∧ in_u256 c.2.
Definition log_ok : Prop := Forall (λ c, change_ok (c_index c, c_value c)) (changes_ b).
Definition entry_ok (e : Entry) : Prop := Forall (λ s, in_u256 (s_key s)) (e_slots e).

(** ** The encoder writes it *)

Lemma emits_from_res {A} (r : res A) (w : A → writer) x out : r = Ok x → emits (w x) out → emits (from_res r w) out.
Proof. intros -> Hw. exact Hw. Qed.
Lemma emits_equiv w w' out : (∀ st, w st = w' st) → emits w out → emits w' out.
Proof. intros E H buf p Hp. rewrite <- E. by apply H. Qed.
Lemma emits_for_each2 {A} (f : A → writer) l outs : Forall2 (λ x o, emits (f x) o) l outs → emits (for_each f l) (concat outs).
Proof. induction 1; cbn; [apply emits_skip|]. by apply emits_seq. Qed.

(** A string of at most 55 bytes. *)
Lemma len_encode_short s : len s ≤ 55 → len (encode s) = if (len s =? 1) && (b2z (hd Byte.x00 s) <? 0x80) then 1 else 1 + len s.
Proof.
  intros Hs. rewrite <- item_size_string by lia. case_match; [done|]. unfold item_size, make_header.
  by rewrite (proj2 (Z.leb_le _ _)).
Qed.
Lemma be_bytes_1_hd v : b2z (hd Byte.x00 (be_bytes 1 v)) = v mod 256.
Proof. cbn. apply b2z_z2b. Qed.
Lemma len_encode_trim v w : 0 ≤ v → be_width v = w → (w ≤ 55)%nat →
  len (encode (be_trim v)) = if (Z.of_nat w =? 1) && (v mod 256 <? 0x80) then 1 else 1 + Z.of_nat w.
Proof.
  intros Hv Hw Hle. assert (Hl : len (be_trim v) = Z.of_nat w) by (unfold len, be_trim; by rewrite length_be_bytes, Hw).
  rewrite len_encode_short, Hl by lia. destruct (Z.eqb_spec (Z.of_nat w) 1) as [E|]; [|done].
  unfold be_trim. rewrite Hw. replace w with 1%nat by lia. by rewrite be_bytes_1_hd.
Qed.
Lemma int_size_spec v : in_u256 v → int_size v = len (encode (be_trim v)).
Proof.
  intros Hv. unfold in_u256 in Hv. assert (Hv' : 0 ≤ v < 256 ^ Z.of_nat 32) by (simpl; lia).
  pose proof (be_width_le 32 v Hv'). rewrite (len_encode_trim v (be_width v)) by lia.
  pose proof (u256_significant_start_loop_spec 4 v ltac:(lia) Hv') as Hs. change (32 - 8 * Z.of_nat 4) with 0 in Hs.
  unfold int_size, u256_significant_start. rewrite Hs.
  by replace (32 - (32 - Z.of_nat (be_width v))) with (Z.of_nat (be_width v)) by lia.
Qed.
Lemma index_size_spec i : 0 ≤ i < 2 ^ 32 → index_size i = len (encode_u64 i).
Proof.
  intros Hi. unfold encode_u64. rewrite u64_bytes by (unfold in_u64; lia). unfold index_size.
  assert (Hw : ∀ w : nat, (w < 4)%nat → 256 ^ Z.of_nat w ≤ i < 256 ^ Z.of_nat (S w) → len (encode (be_trim i)) =
    if (Z.of_nat (S w) =? 1) && (i mod 256 <? 0x80) then 1 else 1 + Z.of_nat (S w)).
  { intros w Hw Hb. apply len_encode_trim; [lia| |lia]. by apply be_width_spec. }
  repeat case_match; rewrite ?Z.ltb_lt, ?Z.ltb_ge in *.
  - destruct (decide (i = 0)) as [->|]; [done|]. rewrite (Hw 0%nat) by lia. rewrite Z.mod_small by lia.
    by rewrite (proj2 (Z.ltb_lt _ _)).
  - rewrite (Hw 0%nat) by lia. rewrite Z.mod_small by lia. by rewrite (proj2 (Z.ltb_ge _ _)).
  - by rewrite (Hw 1%nat) by lia.
  - by rewrite (Hw 2%nat) by lia.
  - by rewrite (Hw 3%nat) by lia.
Qed.
(** [sized n w out]: the size pass computes [n], the write pass writes [out]. *)
Definition sized (n : Z) (w : writer) (out : bytes) : Prop := n = len out ∧ emits w out.

Lemma sized_int v : in_u256 v → sized (int_size v) (write_int v) (encode_u256 v).
Proof.
  intros Hv. unfold encode_u256, write_int, int_payload. rewrite u256_bytes by done. split; [by apply int_size_spec|].
  apply emits_string. unfold in_u256 in Hv. pose proof (trim_len 32 v ltac:(simpl; lia)). lia.
Qed.
Lemma sized_string s : len s < 2 ^ 32 → sized (str_size s) (advance (λ buf p, write_string buf p s)) (encode s).
Proof. intros Hs. split; [by apply item_size_string|by apply emits_string]. Qed.
Lemma sized_index i : 0 ≤ i < 2 ^ 32 → sized (index_size i) (advance (λ buf p, write_u64 buf p i)) (encode_u64 i).
Proof. intros Hi. split; [by apply index_size_spec|]. apply emits_u64. unfold in_u64. lia. Qed.
(** A list of two items. *)
Lemma sized_pair n1 n2 w1 w2 o1 o2 :
  sized n1 w1 o1 → sized n2 w2 o2 → len (encode_list [o1; o2]) < 2 ^ 32 →
  sized (item_size (n1 + n2)) (seq (list_header (n1 + n2)) (seq w1 w2)) (encode_list [o1; o2]).
Proof.
  intros [-> H1] [-> H2] Hl. pose proof (len_payload_le [o1; o2]) as Hp. rewrite encode_list_spec in *. cbn [concat] in *.
  rewrite app_nil_r in *. rewrite <- len_app. split; [apply item_size_list; lia|].
  apply emits_list; [by apply emits_seq|done|lia].
Qed.
Lemma sized_list n w items :
  sized n w (concat items) → len (encode_list items) < 2 ^ 32 → sized (item_size n) (seq (list_header n) w) (encode_list items).
Proof.
  intros [-> Hw] Hl. pose proof (len_payload_le items). rewrite encode_list_spec. split; [apply item_size_list; lia|].
  apply emits_list; [done|done|lia].
Qed.
Lemma item_small {x items} : x ∈ items → len (encode_list items) < 2 ^ 32 → len x < 2 ^ 32.
Proof. intros Hx Hl. pose proof (len_item_le x items Hx). lia. Qed.

Lemma change_spec kind c x : change_ok c → value_bytes kind c.2 = Ok x → len (spec_change (c.1, x)) < 2 ^ 32 →
  ∃ n, value_size contracts kind c.2 = Ok n ∧ sized (item_size (index_size c.1 + n)) (write_change contracts kind c) (spec_change (c.1, x)).
Proof.
  intros [Hi Hv] Hx Hl. assert (Hs : len (encode x) < 2 ^ 32) by (eapply item_small; [|exact Hl]; right; left).
  pose proof (len_string_le x). unfold spec_change in *. cbn [fst snd] in *. destruct kind; cbn [value_bytes value_size write_change] in *.
  - apply Ok_inj in Hx as <-. eexists. split; [done|]. rewrite <- Mpt.u256_item_trim in * by done.
    apply sized_pair; [by apply sized_index|by apply sized_int|done].
  - rewrite Hx. eexists. split; [done|].
    apply sized_pair; [by apply sized_index|apply sized_string; lia|done].
Qed.

Lemma changes_spec kind cs : ∀ rs, Forall change_ok cs → resolve_changes kind cs = Ok rs →
  len (concat (map spec_change rs)) < 2 ^ 32 →
  ∃ n, payload_size contracts kind cs = Ok n ∧ sized n (for_each (write_change contracts kind) cs) (concat (map spec_change rs)).
Proof.
  induction cs as [|[i v] cs IH]; intros rs Hok Hr Hl; cbn [resolve_changes payload_size for_each] in Hr |- *.
  { ok_inv. exists 0. split; [done|]. split; [done|apply emits_skip]. }
  apply Forall_cons in Hok as [Hc Hcs]. ok_inv. cbn [map concat] in Hl |- *. rewrite len_app in Hl.
  match goal with H : value_bytes _ _ = Ok ?x, H' : resolve_changes _ _ = Ok ?l |- _ =>
    pose proof (len_nonneg (concat (map spec_change l))); pose proof (len_nonneg (spec_change (i, x)));
    destruct (change_spec kind (i, v) x Hc H ltac:(cbn [fst]; lia)) as (n1 & E1 & [S1 W1]); destruct (IH l Hcs H' ltac:(lia)) as (n2 & E2 & [S2 W2]) end.
  cbn [snd] in E1. rewrite E1, E2. eexists. split; [done|]. split; [rewrite len_app; cbn [fst] in S1; lia|by apply emits_seq].
Qed.

Lemma walk_ok fuel : ∀ id cs, log_ok → walk fuel id (changes_ b) = Ok cs → Forall change_ok cs.
Proof.
  induction fuel as [|fuel IH]; intros id cs Hlog H; cbn in H; case_match; ok_inv; [by constructor..|].
  match goal with H : vec_get _ _ = Ok _ |- _ => apply vec_get_Ok in H as Hc end. constructor; [|by eapply IH].
  exact (Forall_lookup_1 _ _ _ _ Hlog Hc).
Qed.

(** A field's list, both passes. *)
Lemma list_spec kind l rs : log_ok → recorded kind l = Ok rs → len (encode_list (map spec_change rs)) < 2 ^ 32 →
  ∃ n, list_payload contracts b l kind = Ok n ∧ sized (item_size n) (write_changes contracts b l n kind) (encode_list (map spec_change rs)).
Proof.
  intros Hlog H Hl. unfold recorded in H. ok_inv. pose proof (len_payload_le (map spec_change rs)).
  match goal with H : changes_of l b = Ok _ |- _ => pose proof (walk_ok _ _ _ Hlog H) as Hok end.
  edestruct (changes_spec kind) as (n & En & Sn); [exact Hok|done|lia|].
  exists n. unfold list_payload, write_changes. match goal with H : changes_of l b = Ok _ |- _ => rewrite H end. cbn.
  split; [done|]. apply sized_list; [|done]. exact Sn.
Qed.

Lemma emits_skip_then w out : emits w out → emits (seq skip w) out.
Proof. intros Hw. apply (emits_equiv w); [done|done]. Qed.
Lemma spec_slot_eq k rs : spec_slot (k, rs) = encode_list [encode_u256 k; encode_list (map spec_change rs)].
Proof. done. Qed.
Lemma changed_slot_spec s rs : log_ok → in_u256 (s_key s) → is_read s = false → recorded IntValue (s_changes s) = Ok rs →
  len (spec_slot (s_key s, rs)) < 2 ^ 32 →
  ∃ n, list_payload contracts b (s_changes s) IntValue = Ok n ∧
    sized (item_size (int_size (s_key s) + item_size n)) (write_changed_slot contracts b s) (spec_slot (s_key s, rs)).
Proof.
  intros Hlog Hs Hr H Ho. rewrite spec_slot_eq in *.
  edestruct (list_spec IntValue _ _ Hlog H) as (n & En & Sn); [eapply item_small; [|exact Ho]; right; left|].
  exists n. split; [done|]. destruct (sized_pair _ _ _ _ _ _ (sized_int _ Hs) Sn Ho) as [E1 W1].
  split; [done|]. unfold write_changed_slot. rewrite Hr. by eapply emits_from_res.
Qed.

Lemma slots_spec ss : ∀ ch rd sc sr, log_ok → Forall (λ s, in_u256 (s_key s)) ss → split_slots ss = Ok (ch, rd) →
  len (concat (map spec_slot ch)) < 2 ^ 32 →
  slot_sizes contracts b ss sc sr = Ok (sc + len (concat (map spec_slot ch)), sr + len (concat (map encode_u256 rd))) ∧
  emits (for_each (write_changed_slot contracts b) ss) (concat (map spec_slot ch)) ∧
  emits (for_each write_read_slot ss) (concat (map encode_u256 rd)).
Proof.
  induction ss as [|s ss IH]; intros ch rd sc sr Hlog Hk H Hl; cbn [split_slots slot_sizes for_each] in H |- *.
  { ok_inv. cbn [map concat]. change (len []) with 0. rewrite !Z.add_0_r. split; [done|]. split; apply emits_skip. }
  apply Forall_cons in Hk as [Hs Hk]. ok_inv. destruct (is_read s) eqn:Er; ok_inv; cbn [map concat] in Hl |- *.
  - destruct (sized_int _ Hs) as [E1 W1]. edestruct (IH ch l0 sc (sr + int_size (s_key s)) Hlog Hk) as (-> & W2 & W3); [done|done|].
    rewrite len_app, E1, Z.add_assoc. split; [done|]. unfold write_changed_slot at 1, write_read_slot at 1. rewrite Er.
    split; [by apply emits_skip_then|by apply emits_seq].
  - rewrite len_app in Hl. pose proof (len_nonneg (concat (map spec_slot l))).
    match goal with H : recorded _ _ = Ok ?rs |- _ =>
      pose proof (len_nonneg (spec_slot (s_key s, rs)));
      destruct (changed_slot_spec s rs Hlog Hs Er H ltac:(lia)) as (n & En & [E1 W1]) end.
    edestruct (IH l rd (sc + item_size (int_size (s_key s) + item_size n)) sr Hlog Hk) as (E & W2 & W3); [done|lia|].
    rewrite En. cbn [mbind res_bind]. rewrite E, E1, len_app, Z.add_assoc. split; [done|]. unfold write_read_slot at 1. rewrite Er.
    split; [by apply emits_seq|by apply emits_skip_then].
Qed.

Lemma len_address a : sized 21 (advance (λ buf p, write_string buf p (be_bytes 20 a))) (encode (be_bytes 20 a)).
Proof.
  split; [|apply emits_string; by rewrite len_be_bytes]. rewrite len_encode_short by (by rewrite len_be_bytes). by rewrite len_be_bytes.
Qed.
(** The six items of an account, given both passes of each. *)
Lemma account_spec a nsc nsr nb nn nc wa wsc wsr wb wn wc :
  len (spec_account a) < 2 ^ 32 → sized 21 wa (encode (be_bytes 20 (ac_address a))) →
  sized nsc wsc (concat (map spec_slot (ac_storage_changes a))) → sized nsr wsr (concat (map encode_u256 (ac_storage_reads a))) →
  sized (item_size nb) wb (encode_list (map spec_change (ac_balance_changes a))) →
  sized (item_size nn) wn (encode_list (map spec_change (ac_nonce_changes a))) →
  sized (item_size nc) wc (encode_list (map spec_change (ac_code_changes a))) →
  let p := 21 + item_size nsc + item_size nsr + item_size nb + item_size nn + item_size nc in
  sized (item_size p)
    (seq (list_header p) (seq wa (seq (list_header nsc) (seq wsc (seq (list_header nsr) (seq wsr (seq wb (seq wn wc))))))))
    (spec_account a).
Proof.
  intros Hl [Ea Wa] Hsc Hsr [Eb Wb] [En Wn] [Ec Wc] p.
  assert (Hi : ∀ x, x ∈ account_items a → len x < 2 ^ 32) by (intros x Hx; by eapply item_small).
  destruct (sized_list _ _ _ Hsc) as [E1 W1]; [apply Hi; right; left|].
  destruct (sized_list _ _ _ Hsr) as [E2 W2]; [apply Hi; do 2 right; left|].
  apply sized_list; [|done]. unfold account_items. cbn [concat]. rewrite app_nil_r.
  split; [rewrite !len_app; lia|]. apply emits_seq; [done|]. apply emits_assoc, emits_seq; [done|].
  apply emits_assoc, emits_seq; [done|]. by repeat apply emits_seq.
Qed.

Lemma entry_spec e a : log_ok → entry_ok e → entry_changes e = Ok a → len (spec_account a) < 2 ^ 32 →
  ∃ s, entry_sizes contracts b e = Ok s ∧ sized (item_size (sz_payload s)) (write_entry contracts b (e, s)) (spec_account a).
Proof.
  intros Hlog Hk H Hl. unfold entry_changes in H. ok_inv.
  match goal with H : split_slots _ = Ok _ |- _ => rename H into Hs end.
  assert (Hi : ∀ k rs, encode_list (map spec_change rs) ∈ account_items k → len (spec_account k) < 2 ^ 32 →
    len (encode_list (map spec_change rs)) < 2 ^ 32) by (intros k rs Hx; by apply item_small).
  edestruct (list_spec IntValue (a_balance (e_account e))) as (nb & Eb & Sb); [done|done|eapply Hi; [|exact Hl]; do 3 right; left|].
  edestruct (list_spec IntValue (a_nonce (e_account e))) as (nn & En & Sn); [done|done|eapply Hi; [|exact Hl]; do 4 right; left|].
  edestruct (list_spec CodeValue (a_code (e_account e))) as (nc & Ec & Sc); [done|done|eapply Hi; [|exact Hl]; do 5 right; left|].
  edestruct (slots_spec _ _ _ 0 0 Hlog Hk Hs) as (Es & Ws & Wr).
  { pose proof (len_payload_le (map spec_slot l)). enough (len (encode_list (map spec_slot l)) < 2 ^ 32) by lia.
    eapply item_small; [|exact Hl]. right; left. }
  unfold entry_sizes. rewrite Es, Eb, En, Ec. cbn [mbind res_bind]. eexists. split; [done|]. unfold write_entry.
  cbn [sz_payload sz_sc sz_sr sz_bal sz_nonce sz_code]. rewrite !Z.add_0_l.
  apply account_spec; [done|apply len_address|by split|by split|done..].
Qed.

Fixpoint all_changes (es : list Entry) : res (list AccountChanges) :=
  match es with
  | [] => Ok []
  | e :: es => a ← entry_changes e; acs ← all_changes es; Ok (a :: acs)
  end.
Lemma entries_spec es : ∀ acs total, log_ok → Forall entry_ok es → all_changes es = Ok acs →
  len (concat (map spec_account acs)) < 2 ^ 32 →
  ∃ ss, all_sizes contracts b es total = Ok (ss, total + len (concat (map spec_account acs))) ∧
    emits (for_each (write_entry contracts b) (zip es ss)) (concat (map spec_account acs)).
Proof.
  induction es as [|e es IH]; intros acs total Hlog Hk H Hl; cbn [all_changes all_sizes] in H |- *; ok_inv.
  { exists []. cbn [map concat]. change (len []) with 0. rewrite Z.add_0_r. split; [done|apply emits_skip]. }
  apply Forall_cons in Hk as [He Hk]. cbn [map concat] in Hl |- *. rewrite len_app in Hl.
  match goal with H : entry_changes e = Ok ?a, H' : all_changes es = Ok ?acs |- _ =>
    pose proof (len_nonneg (spec_account a)); pose proof (len_nonneg (concat (map spec_account acs)));
    destruct (entry_spec e a Hlog He H ltac:(lia)) as (s & Es & [S1 W1]);
    destruct (IH acs (total + item_size (sz_payload s)) Hlog Hk H' ltac:(lia)) as (ss & Ess & W2) end.
  rewrite Es. cbn [mbind res_bind]. rewrite Ess. exists (s :: ss). rewrite S1, len_app, Z.add_assoc. split; [done|].
  cbn [zip zip_with for_each]. by apply emits_seq.
Qed.

(** C18. The access-list encoder. For entries whose change lists resolve to the
    account changes [acs] (every change with a 32-bit index and a 256-bit value,
    every slot key 256-bit, the code of every code change in the contract table)
    and whose encoding stays below 4 GiB, the two-pass encoder sizes its buffer
    exactly, never runs out of it, never trips its size check and returns the RLP
    of EIP-7928: a list per account of address, changed slots with their
    changes, read slots, and balance, nonce and code changes, the integers
    minimal and each change an index with its value. *)
Theorem encode_bal_correct es acs :
  log_ok → Forall entry_ok es → all_changes es = Ok acs → len (spec_bal acs) < 2 ^ 32 →
  encode_bal contracts b es = Ok (spec_bal acs).
Proof.
  intros Hlog Hk H Hl. unfold spec_bal in *. pose proof (len_payload_le (map spec_account acs)) as Hp.
  destruct (entries_spec es acs 0 Hlog Hk H ltac:(lia)) as (ss & Es & W). rewrite Z.add_0_l in Es.
  destruct (sized_list _ _ _ (conj eq_refl W) Hl) as [S1 W1]. unfold encode_bal. rewrite Es. cbn [mbind res_bind].
  rewrite (emits_exact _ _ _ W1 S1). cbn [mbind res_bind]. by rewrite S1, Z.eqb_refl.
Qed.
End Spec.

(** ** The walk visits every row, in order *)

Section Walk.
Context (keccak256 : bytes → Z) (contracts : Contracts.Contracts).
Context (accounts : Accounts.Accounts) (storages : Storages.Storages).
Abbreviation n_accounts := (length (Accounts.rows accounts)).
Abbreviation n_storages := (length (Storages.rows storages)).

(** The work of the walk on a given order of the rows, without the links. *)
Fixpoint close_slots (ss : list nat) (b : BlockAccessList) : res (list Z * BlockAccessList) :=
  match ss with
  | [] => Ok ([], b)
  | s :: ss =>
      id ← Storages.bal_id_at s storages;
      accessed ← (if id =? kNone then Ok false else sl ← slot id b; Ok (s_accessed sl));
      if accessed : bool then
        v ← Storages.value_at s storages;
        b ← close_slot id v b;
        '(ids, b) ← close_slots ss b;
        Ok (id :: ids, b)
      else close_slots ss b
  end.
Fixpoint close_rows (order : list (nat * list nat)) (b : BlockAccessList) : res (list entry_ref * BlockAccessList) :=
  match order with
  | [] => Ok ([], b)
  | (i, ss) :: order =>
      addr ← Accounts.address_at i accounts;
      '(ids, b) ← close_slots ss b;
      a ← vec_get (accounts_ b) i;
      if a_accessed a then
        bal ← Accounts.balance_at i accounts;
        nonce ← Accounts.nonce_at i accounts;
        code_hash ← Accounts.code_hash_at i accounts;
        b ← close_account i bal nonce code_hash b;
        '(es, b) ← close_rows order b;
        Ok ((addr, i, ids) :: es, b)
      else close_rows order b
  end.

Definition addr_lt (i j : nat) : Prop :=
  match Accounts.address_at i accounts, Accounts.address_at j accounts with Ok a, Ok a' => a < a' | _, _ => False end.
Definition key_lt (i j : nat) : Prop :=
  match Storages.position_at i storages, Storages.position_at j storages with Ok k, Ok k' => k < k' | _, _ => False end.
Definition owns (i s : nat) : Prop :=
  ∃ a, Accounts.address_at i accounts = Ok a ∧ Storages.address_at s storages = Ok a.

(** The canonical order: every account row once, by address; with each, every
    slot row of its address once, by key. *)
Record canonical (order : list (nat * list nat)) : Prop := {
  can_sorted : StronglySorted addr_lt (map fst order);
  can_rows : ∀ i, i ∈ map fst order ↔ (i < n_accounts)%nat;
  can_slots : ∀ i ss, (i, ss) ∈ order → StronglySorted key_lt ss ∧ ∀ s, s ∈ ss ↔ (s < n_storages)%nat ∧ owns i s }.

Definition above (prev : option Z) (k : res Z) : Prop :=
  ∃ x, k = Ok x ∧ match prev with Some p => p < x | None => True end.

(** A run of slots of one account, above [prev]. *)
Record slot_run (addr : Z) (prev : option Z) (ss : list nat) : Prop := {
  sr_sorted : StronglySorted key_lt ss;
  sr_rows : Forall (λ x, (x < n_storages)%nat ∧ Storages.address_at x storages = Ok addr) ss;
  sr_above : Forall (λ x, above prev (Storages.position_at x storages)) ss }.
Lemma slot_run_nil addr prev : slot_run addr prev [].
Proof. split; constructor. Qed.
Lemma slot_run_cons addr prev s key ss :
  Storages.address_at s storages = Ok addr → Storages.position_at s storages = Ok key →
  match prev with Some k => key <=? k | None => false end = false →
  slot_run addr (Some key) ss → slot_run addr prev (s :: ss).
Proof.
  intros Ha Hk Hp [H1 H2 H3].
  assert (Hlt : match prev with Some p => p < key | None => True end) by (destruct prev; [by apply Z.leb_gt|done]).
  split; constructor; [done| |split; [|done]|done|by exists key|].
  - eapply Forall_impl; [exact H3|]. intros j (k & Ek & Hj). unfold key_lt. by rewrite Hk, Ek.
  - unfold Storages.address_at, Storages.row_at in Ha. ok_inv.
    match goal with H : vec_get _ _ = Ok _ |- _ => apply vec_get_Ok in H; by eapply lookup_lt_Some end.
  - eapply Forall_impl; [exact H3|]. intros j (k & Ek & Hj). exists k. split; [done|]. destruct prev; [lia|done].
Qed.

Lemma walk_slots_spec room : ∀ addr s prev b ids room' b',
  walk_slots storages room addr s prev b = Ok (ids, room', b') →
  ∃ ss, close_slots ss b = Ok (ids, b') ∧ room = (room' + length ss)%nat ∧ slot_run addr prev ss.
Proof.
  induction room as [|room IH]; intros addr s prev b ids room' b' H; cbn [walk_slots] in H; destruct (s =? kNoLink); ok_inv;
    [exists []; split_and!; [done|cbn; lia|apply slot_run_nil]..|].
  case_match; [done|]. ok_inv.
  match goal with H : negb (_ =? _) = false |- _ => apply negb_false_iff, Z.eqb_eq in H; subst end.
  match goal with H : context [walk_slots] |- _ => rename H into Hw end.
  match goal with H : Storages.bal_id_at _ _ = Ok ?i, H' : (if _ =? kNone then _ else _) = Ok ?a |- _ =>
    rename H into Hid; rename H' into Hacc; destruct a; ok_inv end;
    match goal with H : walk_slots _ _ _ _ _ _ = Ok _ |- _ => apply IH in H as (ss & E & -> & Hr) end;
    exists (Z.to_nat s :: ss); (split_and!; [cbn [close_slots]; rewrite Hid; cbn [mbind res_bind]; rewrite Hacc; cbn [mbind res_bind]|cbn; lia|by eapply slot_run_cons]).
  - match goal with H : Storages.value_at _ _ = Ok _, H' : close_slot _ _ _ = Ok _ |- _ => rewrite H; cbn [mbind res_bind]; rewrite H'; cbn [mbind res_bind] end.
    by rewrite E.
  - done.
Qed.
(** What the outer walk has visited. *)
Record row_run (prev : option Z) (order : list (nat * list nat)) : Prop := {
  rr_sorted : StronglySorted addr_lt (map fst order);
  rr_above : Forall (λ i, above prev (Accounts.address_at i accounts)) (map fst order);
  rr_rows : Forall (λ i, (i < n_accounts)%nat) (map fst order);
  rr_slots : Forall (λ e, ∃ a, Accounts.address_at e.1 accounts = Ok a ∧ slot_run a None e.2) order }.
Lemma row_run_nil prev : row_run prev [].
Proof. split; constructor. Qed.
Lemma row_run_cons prev i addr ss order :
  Accounts.address_at i accounts = Ok addr →
  match prev with Some a => addr <=? a | None => false end = false →
  slot_run addr None ss → row_run (Some addr) order → row_run prev ((i, ss) :: order).
Proof.
  intros Ha Hp Hs [H1 H2 H3 H4].
  assert (Hlt : match prev with Some p => p < addr | None => True end) by (destruct prev; [by apply Z.leb_gt|done]).
  split; cbn [map fst]; constructor; [done| |by exists addr| | |done|by exists addr|done].
  - eapply Forall_impl; [exact H2|]. intros j (k & Ek & Hj). unfold addr_lt. by rewrite Ha, Ek.
  - eapply Forall_impl; [exact H2|]. intros j (k & Ek & Hj). exists k. split; [done|]. destruct prev; [lia|done].
  - unfold Accounts.address_at, Accounts.row_at in Ha. ok_inv.
    match goal with H : vec_get _ _ = Ok _ |- _ => apply vec_get_Ok in H; by eapply lookup_lt_Some end.
Qed.

Lemma walk_accounts_spec room : ∀ slot_room row prev b es room' slot_room' b',
  walk_accounts accounts storages room slot_room row prev b = Ok (es, room', slot_room', b') →
  ∃ order, close_rows order b = Ok (es, b') ∧ room = (room' + length order)%nat ∧
    slot_room = (slot_room' + length (concat (map snd order)))%nat ∧ row_run prev order.
Proof.
  induction room as [|room IH]; intros slot_room row prev b es room' slot_room' b' H; cbn [walk_accounts] in H;
    destruct (row =? kNoLink); ok_inv; [exists []; split_and!; [done|cbn; lia..|apply row_run_nil]..|].
  case_match; [done|]. ok_inv.
  match goal with H : walk_slots _ _ _ _ _ _ = Ok _ |- _ => apply walk_slots_spec in H as (ss & Ess & -> & Hrun) end.
  match goal with H : Accounts.address_at _ _ = Ok _, H' : vec_get _ _ = Ok ?a |- _ =>
    rename H into Haddr; rename H' into Hacc; destruct (a_accessed a) eqn:Ea; ok_inv end;
    match goal with H : walk_accounts _ _ _ _ _ _ _ = Ok _ |- _ => apply IH in H as (order & E & -> & -> & Hr) end;
    exists ((Z.to_nat row, ss) :: order);
    (split_and!; [cbn [close_rows]; rewrite Haddr; cbn [mbind res_bind]; rewrite Ess; cbn [mbind res_bind]; rewrite Hacc;
                  cbn [mbind res_bind]; rewrite Ea|cbn; lia|cbn [map snd concat]; rewrite length_app; lia|by eapply row_run_cons]).
  - repeat match goal with H : Accounts.balance_at _ _ = Ok _ |- _ => rewrite H; clear H; cbn [mbind res_bind]
      | H : Accounts.nonce_at _ _ = Ok _ |- _ => rewrite H; clear H; cbn [mbind res_bind]
      | H : Accounts.code_hash_at _ _ = Ok _ |- _ => rewrite H; clear H; cbn [mbind res_bind]
      | H : close_account _ _ _ _ _ = Ok _ |- _ => rewrite H; clear H; cbn [mbind res_bind] end.
    by rewrite E.
  - done.
Qed.

Lemma sorted_NoDup {A} (R : A → A → Prop) l : (∀ x, ¬ R x x) → StronglySorted R l → NoDup l.
Proof.
  intros Hirr. induction 1 as [|x l _ IH Hx]; constructor; [|done]. intros Hin.
  exact (Hirr x (proj1 (Forall_forall _ _) Hx x Hin)).
Qed.
Lemma pigeonhole n (l : list nat) : NoDup l → Forall (λ i, (i < n)%nat) l → length l = n → ∀ i, (i < n)%nat → i ∈ l.
Proof.
  intros Hnd Hlt Hlen i Hi. assert (Hs : l ⊆+ List.seq 0 n).
  { apply NoDup_submseteq; [done|]. intros x Hx. rewrite list_elem_of_In, in_seq. pose proof (proj1 (Forall_forall _ _) Hlt x Hx) as Hl. cbn in Hl. lia. }
  apply submseteq_length_Permutation in Hs; [|by rewrite length_seq, Hlen]. rewrite Hs, list_elem_of_In, in_seq. lia.
Qed.
Lemma addr_irr i : ¬ addr_lt i i.
Proof. unfold addr_lt. destruct (Accounts.address_at i accounts); [lia|by intros []]. Qed.
Lemma key_irr i : ¬ key_lt i i.
Proof. unfold key_lt. destruct (Storages.position_at i storages); [lia|by intros []]. Qed.

Lemma elem_slots s (order : list (nat * list nat)) : s ∈ concat (map snd order) → ∃ i ss, (i, ss) ∈ order ∧ s ∈ ss.
Proof.
  rewrite list_elem_of_In, in_concat. intros (ss & Hss & Hin). apply list_elem_of_In, list_elem_of_fmap in Hss as ([i ss'] & -> & He).
  exists i, ss'. split; [done|by apply list_elem_of_In].
Qed.
Lemma run_owner prev order i ss s : row_run prev order → (i, ss) ∈ order → s ∈ ss → (s < n_storages)%nat ∧ owns i s.
Proof.
  intros [_ _ _ H4] He Hs. destruct (proj1 (Forall_forall _ _) H4 _ He) as (a & Ha & [_ Hr _]).
  destruct (proj1 (Forall_forall _ _) Hr _ Hs) as [? ?]. split; [done|]. by exists a.
Qed.
Lemma run_tail prev e order : row_run prev (e :: order) → row_run None order.
Proof.
  intros [H1 H2 H3 H4]. cbn [map] in *. inv H1. apply Forall_cons in H2 as [_ H2], H3 as [_ H3], H4 as [_ H4].
  split; [done| |done|done]. eapply Forall_impl; [exact H2|]. intros i (x & Hx & _). by exists x.
Qed.

Lemma run_slots_NoDup order : ∀ prev, row_run prev order → NoDup (concat (map snd order)).
Proof.
  induction order as [|[i ss] order IH]; intros prev Hr; [constructor|]. cbn [map snd concat].
  pose proof (run_tail _ _ _ Hr) as Ht. apply NoDup_app. split_and!; [| |by eapply IH].
  - pose proof (rr_slots _ _ Hr) as [(a & _ & Hs) _]%Forall_cons. cbn [snd] in Hs. eapply sorted_NoDup; [apply key_irr|apply Hs].
  - intros s Hs (j & ss' & He & Hs')%elem_slots.
    destruct (run_owner _ _ i ss s Hr ltac:(left) Hs) as (_ & a & Ha & Hown).
    destruct (run_owner _ _ j ss' s Ht He Hs') as (_ & a' & Ha' & Hown').
    pose proof (rr_sorted _ _ Hr) as Hsort. cbn [map fst] in Hsort. inv Hsort.
    match goal with H : Forall _ _ |- _ => pose proof (proj1 (Forall_forall _ _) H j) as Hlt end.
    unfold addr_lt in Hlt. rewrite Ha, Ha' in Hlt. specialize (Hlt (list_elem_of_fmap_2 fst _ (j, ss') He)).
    assert (a = a') by congruence. lia.
Qed.

Lemma sorted_addr_inj l i j a : StronglySorted addr_lt l → i ∈ l → j ∈ l →
  Accounts.address_at i accounts = Ok a → Accounts.address_at j accounts = Ok a → i = j.
Proof.
  intros Hs Hi Hj Ei Ej. induction Hs as [|x l _ IH Hx]; [by apply not_elem_of_nil in Hi|].
  assert (Hlt : ∀ k, k ∈ l → addr_lt x k) by (intros k; apply (proj1 (Forall_forall _ _) Hx)). unfold addr_lt in Hlt.
  apply elem_of_cons in Hi as [->|Hi]; apply elem_of_cons in Hj as [->|Hj]; [done|..|by apply IH].
  - specialize (Hlt _ Hj). rewrite Ei, Ej in Hlt. lia.
  - specialize (Hlt _ Hi). rewrite Ei, Ej in Hlt. lia.
Qed.
Lemma keyed_inj {A B} (l : list (A * B)) k v v' : NoDup (map fst l) → (k, v) ∈ l → (k, v') ∈ l → v = v'.
Proof.
  intros Hnd (i & Hi)%list_elem_of_lookup_1 (j & Hj)%list_elem_of_lookup_1.
  assert (i = j) as <-; [|by simplify_eq].
  eapply (NoDup_lookup _ i j k Hnd); rewrite list_lookup_fmap; [by rewrite Hi|by rewrite Hj].
Qed.

Lemma run_canonical order :
  row_run None order → length order = n_accounts → length (concat (map snd order)) = n_storages → canonical order.
Proof.
  intros Hr Hn Hm. pose proof (sorted_NoDup _ _ addr_irr (rr_sorted _ _ Hr)) as Hnd.
  pose proof (run_slots_NoDup _ _ Hr) as Hnd'.
  assert (Hall : ∀ s, (s < n_storages)%nat → s ∈ concat (map snd order)).
  { apply pigeonhole; [done| |done]. apply Forall_forall. intros s (i & ss & He & Hs)%elem_slots. by eapply run_owner. }
  split; [apply Hr| |].
  - intros i. split; [apply (proj1 (Forall_forall _ _) (rr_rows _ _ Hr))|].
    apply pigeonhole; [done|apply Hr|by rewrite length_map].
  - intros i ss He. destruct (proj1 (Forall_forall _ _) (rr_slots _ _ Hr) _ He) as (a & Ha & Hs). cbn [fst snd] in *.
    split; [apply Hs|]. intros s. split; [intros Hin; by eapply run_owner|].
    intros [Hlt (a0 & Ha0 & Hown)]. destruct (elem_slots _ _ (Hall s Hlt)) as (j & ss' & He' & Hs').
    destruct (run_owner _ _ _ _ _ Hr He' Hs') as (_ & a' & Ha' & Hown'). assert (a' = a) as -> by congruence.
    assert (i = j) as <- by (eapply sorted_addr_inj; [apply Hr|by apply (list_elem_of_fmap_2 fst) in He|
      by apply (list_elem_of_fmap_2 fst) in He'|exact Ha|exact Ha']).
    by rewrite (keyed_inj _ _ _ _ Hnd He He').
Qed.

(** The canonical order is unique. *)
#[local] Instance addr_lt_antisymm : AntiSymm eq addr_lt.
Proof. intros i j. unfold addr_lt. destruct (Accounts.address_at i accounts), (Accounts.address_at j accounts); [lia|by intros []..]. Qed.
#[local] Instance key_lt_antisymm : AntiSymm eq key_lt.
Proof. intros i j. unfold key_lt. destruct (Storages.position_at i storages), (Storages.position_at j storages); [lia|by intros []..]. Qed.
Lemma sorted_unique (R : nat → nat → Prop) `{!AntiSymm eq R} l l' :
  (∀ x, ¬ R x x) → StronglySorted R l → StronglySorted R l' → (∀ x, x ∈ l ↔ x ∈ l') → l = l'.
Proof.
  intros Hirr H H' He. apply (StronglySorted_unique R); [done..|]. apply NoDup_Permutation; [by eapply sorted_NoDup..|done].
Qed.
Lemma canonical_unique order order' : canonical order → canonical order' → order = order'.
Proof.
  intros [H1 H2 H3] [H1' H2' H3'].
  assert (Hf : map fst order = map fst order').
  { apply (sorted_unique addr_lt); [apply addr_irr|done|done|]. intros i. by rewrite H2, H2'. }
  assert (Hp : ∀ i ss ss', (i, ss) ∈ order → (i, ss') ∈ order' → ss = ss').
  { intros i ss ss' He He'. destruct (H3 _ _ He) as [Hs Hin], (H3' _ _ He') as [Hs' Hin'].
    apply (sorted_unique key_lt); [apply key_irr|done|done|]. intros s. by rewrite Hin, Hin'. }
  clear - Hf Hp. revert order' Hf Hp. induction order as [|[i ss] order IH]; intros [|[i' ss'] order'] Hf Hp; [done|done|done|].
  injection Hf as -> Hf.
  f_equal; [f_equal; apply (Hp i'); left|]. apply IH; [done|]. intros j s s' Hj Hj'. apply (Hp j); by right.
Qed.

(** What is hashed, from the canonical order alone. *)
Definition bal_of_order (b : BlockAccessList) (order : list (nat * list nat)) : res bytes :=
  '(es, b) ← close_rows order b;
  es ← mapM (resolve b) es;
  encode_bal contracts b es.
Lemma build_canonical gas_limit b rlp h :
  build_block_access_list_hash keccak256 contracts accounts storages gas_limit b = Ok (rlp, h) →
  h = keccak256 rlp ∧ ∃ order, canonical order ∧ bal_of_order b order = Ok rlp.
Proof.
  unfold build_block_access_list_hash. intros H. ok_inv.
  match goal with H : walk_accounts _ _ _ _ _ _ _ = Ok _ |- _ => apply walk_accounts_spec in H as (order & E & Hn & Hm & Hr) end.
  match goal with H : negb (_ =? _)%nat || _ = false |- _ =>
    apply orb_false_iff in H as [Ha%negb_false_iff%Nat.eqb_eq Hb%negb_false_iff%Nat.eqb_eq] end. subst.
  split; [done|]. exists order. split; [apply run_canonical; [done|lia|lia]|]. unfold bal_of_order. rewrite E. cbn [mbind res_bind].
  match goal with H : mapM _ _ = Ok _ |- _ => by rewrite H end.
Qed.


(** C19. The final walk of the block access list. The row order comes from links
    in the input; if the walk accepts them, what is hashed is the encoding of the
    one canonical order (every account row once, by increasing address, and with
    it every slot row of that address once, by increasing key), so a prover's
    links cannot reorder, repeat or hide a row, and the list holds at most one
    item per 2000 gas of the block. *)
Theorem bal_hash_canonical gas_limit b rlp h :
  build_block_access_list_hash keccak256 contracts accounts storages gas_limit b = Ok (rlp, h) →
  h = keccak256 rlp ∧ accessed_accounts_ b + accessed_slots_ b ≤ gas_limit / kBalItemCost ∧
  ∃ order, canonical order ∧ (∀ order', canonical order' → order' = order) ∧ bal_of_order b order = Ok rlp.
Proof.
  intros H. destruct (build_canonical _ _ _ _ H) as (Hh & order & Hc & Ho). split; [done|]. split.
  - unfold build_block_access_list_hash in H. ok_inv. by match goal with H : (_ <? _) = false |- _ => apply Z.ltb_ge in H end.
  - exists order. split; [done|]. split; [|done]. intros order' Hc'. by eapply canonical_unique.
Qed.
End Walk.

(** ** Two accounts, the first with a written and a read slot *)

Definition toy_hash (l : bytes) : Z := be_val l mod (2 ^ 256).
Definition tables_run : res (Accounts.Accounts * Storages.Storages * BlockAccessList) :=
  '(_, a) ← Accounts.append 9 1 100 Node.kEmptyCodeHash (Accounts.reserve 2 Accounts.accounts0);
  '(_, a) ← Accounts.append 5 0 50 Node.kEmptyCodeHash a;
  '(_, s) ← Storages.append 9 7 1 (Storages.reserve 2 Storages.storages0);
  '(_, s) ← Storages.append 9 3 2 s;
  a ← Accounts.set_sorted_links 0 kNoLink 1 a;
  a ← Accounts.set_sorted_links 1 0 kNoLink a;
  s ← Storages.set_next_sorted 1 0 s;
  s ← Storages.set_next_sorted 0 kNoLink s;
  let b := set_index 1 (make 2 2) in
  b ← access_account 0 b;
  b ← access_account 1 b;
  let '(i, b) := witness_slot kNone 7 b in
  s ← Storages.set_bal_id_at 0 i s;
  b ← access_slot i b;
  b ← open_slot i 1 b;
  s ← Storages.set_value_at 0 4 1 s;
  let '(j, b) := witness_slot kNone 3 b in
  s ← Storages.set_bal_id_at 1 j s;
  b ← access_slot j b;
  Ok (Accounts.set_first_sorted 1 a, s, b).
Definition tables : Accounts.Accounts * Storages.Storages * BlockAccessList := Eval vm_compute in
  match tables_run with Ok t => t | Fatal _ => (Accounts.accounts0, Storages.storages0, make 0 0) end.
Definition no_contracts : Contracts.Contracts := Contracts.mkContracts [] ∅ [].
Definition sample_list : bytes := Eval vm_compute in
  match build_block_access_list_hash toy_hash no_contracts tables.1.1 tables.1.2 30000000 tables.2 with
  | Ok (rlp, _) => rlp | Fatal _ => [] end.
Lemma bal_hash_canonical_witness :
  ∃ order, canonical tables.1.1 tables.1.2 order ∧ bal_of_order no_contracts tables.1.1 tables.1.2 tables.2 order = Ok sample_list.
Proof.
  destruct (bal_hash_canonical toy_hash no_contracts tables.1.1 tables.1.2 30000000 tables.2 sample_list (toy_hash sample_list))
    as (_ & _ & order & Hc & _ & Ho); [by vm_compute|]. by exists order.
Defined.

(** The closed records of the sample, in the canonical order. *)
Definition sample_closed : list Entry * BlockAccessList := Eval vm_compute in
  match ('(es, b) ← close_rows tables.1.1 tables.1.2 [(1%nat, []); (0%nat, [1%nat; 0%nat])] tables.2;
         es ← mapM (resolve b) es; Ok (es, b)) with Ok r => r | Fatal _ => ([], make 0 0) end.
Definition sample_changes : list AccountChanges :=
  [mkAccountChanges 5 [] [] [] [] []; mkAccountChanges 9 [(7, [(1, [Byte.x04])])] [3] [] [] []].
Lemma encode_bal_correct_witness :
  encode_bal no_contracts sample_closed.2 sample_closed.1 = Ok (spec_bal sample_changes) ∧ spec_bal sample_changes = sample_list.
Proof.
  split; [|by vm_compute]. apply encode_bal_correct.
  - unfold log_ok, sample_closed. repeat constructor; by vm_compute.
  - unfold entry_ok, sample_closed. repeat constructor; by vm_compute.
  - by vm_compute.
  - by vm_compute.
Defined.
End BalEncode.
