(* ===== verification/Block.v ===== *)
(** The block pipeline ([src/zisk_state_db.cpp], from [execute_block] down to the
    end of the file; [src/eip6110_deposit.cpp]): system calls, pre-warming,
    transaction validation, upfront accounting, EIP-7702 authorizations, the top
    frame, gas settlement, receipts, withdrawals and requests, over the host of
    [StateDb.v].  The VM, keccak256, sha256, the precompiles, signature recovery
    and evmone's state-gas bookkeeping are parameters. *)

From stdpp Require Import base numbers list strings gmap.
From S2P Require Import Prelude Fork Rlp Receipt Contracts Chain CreateAddress Bal Accounts Storages Transient Journal StateDb Mpt Transactions Consensus IntrinsicGas BalEncode.

Set Default Goal Selector "!".

Module Block.
Import Rlp Receipt Bloom Fork Journal StateDb Transactions.

(** ** State *)

(** The host object's fields beyond [StateDB]: the block's running totals and
    the current transaction's gas. *)
Record Block := mkBlock {
  db : StateDB;
  cumulative_gas_used_ : Z;
  block_regular_gas_used_ : Z;
  block_state_gas_used_ : Z;
  block_bloom_filter_ : bytes;
  blob_gas_used_ : Z;
  tx_floor_gas_ : Z;
  tx_state_gas_limit_ : Z;
  requests_ : list bytes;
  bal_tx_count_ : Z }.

Definition put_db (d : StateDB) (b : Block) : Block :=
  mkBlock d (cumulative_gas_used_ b) (block_regular_gas_used_ b) (block_state_gas_used_ b) (block_bloom_filter_ b)
    (blob_gas_used_ b) (tx_floor_gas_ b) (tx_state_gas_limit_ b) (requests_ b) (bal_tx_count_ b).
Definition put_blob_gas (g : Z) (b : Block) : Block :=
  mkBlock (db b) (cumulative_gas_used_ b) (block_regular_gas_used_ b) (block_state_gas_used_ b) (block_bloom_filter_ b)
    g (tx_floor_gas_ b) (tx_state_gas_limit_ b) (requests_ b) (bal_tx_count_ b).
Definition put_floor (g : Z) (b : Block) : Block :=
  mkBlock (db b) (cumulative_gas_used_ b) (block_regular_gas_used_ b) (block_state_gas_used_ b) (block_bloom_filter_ b)
    (blob_gas_used_ b) g (tx_state_gas_limit_ b) (requests_ b) (bal_tx_count_ b).
Definition put_state_gas_limit (g : Z) (b : Block) : Block :=
  mkBlock (db b) (cumulative_gas_used_ b) (block_regular_gas_used_ b) (block_state_gas_used_ b) (block_bloom_filter_ b)
    (blob_gas_used_ b) (tx_floor_gas_ b) g (requests_ b) (bal_tx_count_ b).
Definition put_requests (l : list bytes) (b : Block) : Block :=
  mkBlock (db b) (cumulative_gas_used_ b) (block_regular_gas_used_ b) (block_state_gas_used_ b) (block_bloom_filter_ b)
    (blob_gas_used_ b) (tx_floor_gas_ b) (tx_state_gas_limit_ b) l (bal_tx_count_ b).
Definition put_tx_count (n : Z) (b : Block) : Block :=
  mkBlock (db b) (cumulative_gas_used_ b) (block_regular_gas_used_ b) (block_state_gas_used_ b) (block_bloom_filter_ b)
    (blob_gas_used_ b) (tx_floor_gas_ b) (tx_state_gas_limit_ b) (requests_ b) n.
(** The writes of [finalize_receipt] to the totals. *)
Definition add_gas (gas regular state : Z) (bloom : bytes) (b : Block) : Block :=
  mkBlock (db b) (u64 (cumulative_gas_used_ b + gas)) (u64 (block_regular_gas_used_ b + regular))
    (u64 (block_state_gas_used_ b + state)) bloom
    (blob_gas_used_ b) (tx_floor_gas_ b) (tx_state_gas_limit_ b) (requests_ b) (bal_tx_count_ b).

Definition B (A : Type) : Type := Block → res (A * Block).
#[export] Instance B_ret : MRet B := λ A a b, Ok (a, b).
#[export] Instance B_bind : MBind B := λ A C f m b,
  match m b with Ok (a, b) => f a b | Fatal e => Fatal e end.
Definition host {A} (m : M A) : B A := λ b,
  match m (db b) with Ok (a, d) => Ok (a, put_db d b) | Fatal e => Fatal e end.
Definition getb {A} (f : Block → A) : B A := λ b, Ok (f b, b).
Definition modb (f : Block → Block) : B unit := λ b, Ok (tt, f b).
Definition liftb {A} (r : res A) : B A := λ b, match r with Ok a => Ok (a, b) | Fatal e => Fatal e end.
Definition fatal_when (c : bool) (msg : string) : B unit := λ b, if c then Fatal msg else Ok (tt, b).
Definition whenb (c : bool) (m : B unit) : B unit := if c then m else mret tt.

(** Fields of the host object written only here. *)
Definition put_tx_context (c : TxContext) (s : StateDB) : StateDB :=
  mkDB (world s) (journal_ s) (contracts_ s) (tx_counter_ s) (tx_receipts_ s) (in_system_call_ s)
    (created_this_tx_idx_ s) (storage_wiped_idx_ s) (bal_pending_ s) (fork_id s)
    c (consensus_number s) (previous_blocks_ s) (evm_mem s).
Definition put_tx_counter (t : Z) (s : StateDB) : StateDB :=
  mkDB (world s) (journal_ s) (contracts_ s) t (tx_receipts_ s) (in_system_call_ s)
    (created_this_tx_idx_ s) (storage_wiped_idx_ s) (bal_pending_ s) (fork_id s)
    (tx_context_ s) (consensus_number s) (previous_blocks_ s) (evm_mem s).
Definition put_in_system_call (f : bool) (s : StateDB) : StateDB :=
  mkDB (world s) (journal_ s) (contracts_ s) (tx_counter_ s) (tx_receipts_ s) f
    (created_this_tx_idx_ s) (storage_wiped_idx_ s) (bal_pending_ s) (fork_id s)
    (tx_context_ s) (consensus_number s) (previous_blocks_ s) (evm_mem s).
Definition set_tx_context (c : TxContext) : M unit := modify (put_tx_context c).

(** ** Fork gates *)

Definition rev_at_least (r : revision) : M bool := gets (λ s, rev_ge (fork_to_revision (fork_id s)) r).
Definition is_paris_or_later : M bool := rev_at_least EVMC_PARIS.
Definition is_shanghai_or_later : M bool := rev_at_least EVMC_SHANGHAI.
Definition is_prague_or_later : M bool := rev_at_least EVMC_PRAGUE.
Definition is_osaka_or_later : M bool := rev_at_least EVMC_OSAKA.

(** ** Constants (system_addresses.hpp) *)

Definition kBeaconRootsAddress : Z := 0x000f3df6d732807ef1319fb7b8bb8522d0beac02.
Definition kHistoryStorageAddress : Z := 0x0000f90827f1c53a10cb7a02335b175320002935.
Definition kWithdrawalRequestsAddress : Z := 0x00000961ef480eb55e80d19ad83579a64c007002.
Definition kConsolidationRequestsAddress : Z := 0x0000bbddc7ce488642fb579f8b00f3a590007251.
Definition kBuilderDepositRequestsAddress : Z := 0x0000bff46984e3725691fa540a8c7589300d8282.
Definition kBuilderExitRequestsAddress : Z := 0x000064d678505ad48f8ccb093bc65613800e8282.
Definition kDepositContractAddress (sepolia : bool) : Z :=
  if sepolia then 0x7f02c3e3c98b133055b8b348b2ac625669ed295d else 0x00000000219ab540356cbb839cbe05303d7705fa.
Definition kSystemCallGas : Z := 30000000.
Definition kVersionedHashVersionKzg : Z := 1.
Definition kMaxTxGasLimit : Z := 2 ^ 24.
Definition kMaxTxTotalGasLimit : Z := 0xffffffff.
Definition kMaxBlobsPerTx : Z := 6.
Definition kMaxInitCodeSize : Z := 2 * kMaxCodeSize.
Definition kMaxInitCodeSizeAmsterdam : Z := 2 * kMaxCodeSizeAmsterdam.
Definition max_initcode_size : M Z :=
  a ← is_amsterdam_or_later; mret (if a : bool then kMaxInitCodeSizeAmsterdam else kMaxInitCodeSize).

(** A [ListIter] loop over host calls. *)
Fixpoint each_item (f : Item → M unit) (fuel : nat) (it : bytes) : M unit :=
  match fuel with
  | O => mret tt
  | S fuel =>
      if has_next it then
        '(i, it) ← lift (next it);
        _ ← f i;
        each_item f fuel it
      else mret tt
  end.

(** ** Deposits (EIP-6110) *)

Definition kDepositEventSize : Z := 576.
Definition kDepositFields : list (Z * Z) := [(160, 48); (256, 32); (320, 8); (384, 96); (512, 8)].
Definition abi_word_equals (d : bytes) (off v : Z) : bool := be_val (slice d off (off + 32)) =? v.
Fixpoint check_deposit_fields (d : bytes) (i : Z) (fs : list (Z * Z)) : res unit :=
  match fs with
  | [] => Ok tt
  | (offset, length) :: fs =>
      _ ← fatal_if (negb (abi_word_equals d (32 * i) offset)) "EIP-6110: DepositEvent field has wrong offset";
      _ ← fatal_if (negb (abi_word_equals d offset length)) "EIP-6110: DepositEvent field has wrong size";
      check_deposit_fields d (i + 1) fs
  end.
Definition deposit_body (d : bytes) : bytes :=
  concat (map (λ '(offset, length), slice d (offset + 32) (offset + 32 + length)) kDepositFields).
Definition extract_deposit (deposit_event_topic contract : Z) (out : bytes) (log : LogEntry) : res bytes :=
  if negb (log_address log =? contract) then Ok out else
  match topics log with
  | [] => Ok out
  | t :: _ =>
      if negb (t =? deposit_event_topic) then Ok out else
      _ ← fatal_if (negb (len (data log) =? kDepositEventSize)) "EIP-6110: DepositEvent has wrong size";
      _ ← check_deposit_fields (data log) 0 kDepositFields;
      Ok (out ++ deposit_body (data log))
  end.
Fixpoint fold_res {A C} (f : A → C → res A) (a : A) (l : list C) : res A :=
  match l with
  | [] => Ok a
  | x :: l => a ← f a x; fold_res f a l
  end.
Definition extract_deposit_requests (topic contract : Z) (receipts : list TxReceipt) : res bytes :=
  fold_res (extract_deposit topic contract) [] (concat (map logs receipts)).
(** ** Gas of a transaction *)

(** int64 casts and arithmetic results. *)
Definition i64 (z : Z) : Z := (z + 2 ^ 63) mod 2 ^ 64 - 2 ^ 63.

(** [TxGas]: what the runtime phase still has. *)
Record TxGas := mkTxGas { tg_gas : Z; tg_state_gas : StateGas; runtime_oog : bool }.
Record TxGasUsed := mkTxGasUsed { used_gas : Z; used_regular : Z; used_state : Z }.

(** [AuthCharges]; the [TxGas] it refers to is passed along. *)
Record AuthCharges := mkCharges {
  written : list nat;
  start_delegated : list (nat * bool);
  bytes_charged : list nat }.
Definition has (v : list nat) (idx : nat) : bool := bool_decide (idx ∈ v).

Definition is_delegation (c : bytes) : bool := (len c =? 23) && bool_decide (take 3 c = [Byte.xef; Byte.x01; Byte.x00]).
Definition delegate_of (c : bytes) : Z := be_val (slice c 3 23).

(** The fields of one authorization tuple. *)
Record Authorization := mkAuth { a_chain_id : Z; a_delegate : Z; a_nonce : Z; a_parity : Z; a_r : Z; a_s : Z }.
Definition auth_next (msg : string) (it : bytes) : res (Item * bytes) :=
  _ ← fatal_if (negb (has_next it)) msg;
  next it.
Definition parse_authorization (auth_item : Item) : res Authorization :=
  let fit := payload auth_item in
  '(chain_id_item, fit) ← auth_next "EIP-7702: auth missing chain_id" fit;
  chain_id ← (if bool_decide (Rlp.kind chain_id_item = String) && (8 <? len (payload chain_id_item)) then Ok UINT64_MAX
              else as_u64 chain_id_item);
  '(addr, fit) ← auth_next "EIP-7702: auth missing address" fit;
  _ ← fatal_if (negb (is_string_of 20 addr)) "EIP-7702: auth address not a 20-byte string";
  '(n, fit) ← auth_next "EIP-7702: auth missing nonce" fit;
  nonce ← as_u64 n;
  '(p, fit) ← auth_next "EIP-7702: auth missing y_parity" fit;
  parity ← as_u64 p;
  '(r, fit) ← auth_next "EIP-7702: auth missing r" fit;
  r ← as_u256 r;
  '(s, fit) ← auth_next "EIP-7702: auth missing s" fit;
  s ← as_u256 s;
  Ok (mkAuth chain_id (be_val (payload addr)) nonce parity r s).
Definition auth_preimage (a : Authorization) : bytes :=
  Byte.x05 :: encode_list [encode_u64 (a_chain_id a); encode (be_bytes 20 (a_delegate a)); encode_u64 (a_nonce a)].

Section Pipeline.
Context (keccak256 sha256 : bytes → Z).
Context (is_precompile : revision → Z → bool).
Context (call_precompile : revision → message → Result).
Context (ecrecover_address : Z → Z → Z → Z → option Z).
Context (state_gas_charge : StateGas → Z → Z → option (Z * StateGas)).
Context (state_gas_refill : StateGas → Z → Z → Z * StateGas).
Context (COST_PER_STATE_BYTE NEW_ACCOUNT_STATE_GAS STORAGE_SET_STATE_GAS : Z).
Context (vm : message → bytes → M Result).
Context (build : Consensus.Build) (consensus : Consensus.ConsensusInfo).

Abbreviation run_frame := (run_frame vm).
Abbreviation kChainId := (Consensus.kChainId build).
Abbreviation base_fee := (Consensus.base_fee_per_gas consensus).
Abbreviation compute_create_address := (CreateAddress.compute_create_address keccak256).

(** ** Between transactions *)

Definition reset_tx_arena : M unit :=
  a ← gets (λ s, accounts (world s));
  c ← gets contracts_;
  c ← lift (Contracts.settle_staged (λ row, Accounts.code_hash_at row a) c);
  _ ← modify (put_contracts c);
  _ ← modify (λ s, put_journal (release (journal_ s)) s);
  modify (λ s, put_world (put_transient (TransientStorage.reset (transient (world s))) (world s)) s).

Definition next_tx : M unit := modify (λ s, put_tx_counter (u64 (tx_counter_ s + 1)) s).
Definition bal_set_index (i : Z) : M unit :=
  on ← bal_on;
  when on (bal_run (λ b, Ok (tt, Bal.set_index (u32 i) b))).

(** ** System calls *)

Definition system_context (c : TxContext) : TxContext :=
  mkTxContext (block_base_fee c) kSystemAddress (block_coinbase c) (block_number c) (block_timestamp c)
    (block_gas_limit c) (block_prev_randao c) (StateDb.chain_id c) (block_base_fee c) (blob_base_fee c) []
    (block_slot_number c).

Definition system_call (target : Z) (calldata : bytes) : M Result :=
  _ ← next_tx;
  _ ← reset_tx_arena;
  saved_ctx ← gets tx_context_;
  _ ← set_tx_context (system_context saved_ctx);
  _ ← modify (put_created ∅);
  amsterdam ← is_amsterdam_or_later;
  let msg := mkMessage CALL false false 0 kSystemCallGas (if amsterdam : bool then 16 * STORAGE_SET_STATE_GAS else 0)
               target kSystemAddress calldata 0 target None in
  cp ← checkpoint;
  entry_code ← code_and_entry target;
  _ ← modify (put_in_system_call true);
  result ← run_frame msg entry_code;
  _ ← modify (put_in_system_call false);
  _ ← set_tx_context saved_ctx;
  _ ← when (negb (success result)) (rollback cp);
  mret result.

(** ** Start of the block *)

Definition block_context (prev_randao blob_fee : Z) : TxContext :=
  mkTxContext 0 0 (Consensus.beneficiary consensus) (i64 (Consensus.number consensus)) (i64 (Consensus.timestamp consensus))
    (i64 (Consensus.gas_limit consensus)) prev_randao kChainId base_fee blob_fee [] (Consensus.slot_number build consensus).

Definition start_access_list : M unit :=
  modify (λ s,
    let a := accounts (world s) in
    let b := Bal.set_index 0 (Bal.make (Z.to_nat (Accounts.capacity_ a)) (length (Storages.rows (storages (world s))))) in
    put_world (put_accounts (Accounts.set_block_access_list b a) (world s)) s).

Definition pre_execute_block : M unit :=
  amsterdam ← is_amsterdam_or_later;
  _ ← when amsterdam start_access_list;
  paris ← is_paris_or_later;
  fee ← lift (Consensus.fake_exponential Consensus.kMinBaseFeePerBlobGas (Consensus.excess_blob_gas consensus)
                (Consensus.blob_base_fee_update_fraction build consensus));
  _ ← set_tx_context (block_context (if paris : bool then Consensus.prev_randao consensus else Consensus.difficulty consensus) fee);
  cancun ← is_cancun_or_later;
  _ ← when cancun (_ ← system_call kBeaconRootsAddress (be_bytes 32 (Consensus.parent_beacon_block_root consensus)); mret tt);
  prague ← is_prague_or_later;
  when prague
    (blocks ← gets previous_blocks_;
     h ← lift (vec_get (Chain.hashes_ blocks) 0);
     _ ← system_call kHistoryStorageAddress (be_bytes 32 h); mret tt).

(** ** Pre-warming *)

Definition warm_addr (a : Z) : M unit :=
  rev ← active_revision;
  if is_precompile rev a then mret tt else
  known ← gets (λ s, Accounts.contains a (accounts (world s)));
  t ← tx_counter;
  if known : bool then i ← account_row a; acc_upd (Accounts.mark_touched_at i t)
  else modify (λ s, put_world (put_warm_keys (WarmKeys.set_account a t (warm_keys (world s))) (world s)) s).

Definition warm_key (a : Z) (k : Item) : M unit :=
  _ ← lift (fatal_if (negb (is_string_of 32 k)) "access_list slot key not 32-byte string");
  let slot := be_val (payload k) in
  i ← storages_find a slot;
  t ← tx_counter;
  match i with
  | None => modify (λ s, put_world (put_warm_keys (WarmKeys.set_slot a slot t (warm_keys (world s))) (world s)) s)
  | Some i => sto_upd (Storages.mark_touched_at i t)
  end.

Definition warm_entry (entry : Item) : M unit :=
  _ ← lift (fatal_if (bool_decide (Rlp.kind entry ≠ List)) "access_list entry not a list");
  let eit := payload entry in
  _ ← lift (fatal_if (negb (has_next eit)) "access_list entry missing addr");
  '(addr_item, eit) ← lift (next eit);
  _ ← lift (fatal_if (negb (is_string_of 20 addr_item)) "access_list addr not 20-byte string");
  let a := be_val (payload addr_item) in
  _ ← warm_addr a;
  _ ← lift (fatal_if (negb (has_next eit)) "access_list entry missing keys");
  '(keys_item, eit) ← lift (next eit);
  _ ← lift (fatal_if (bool_decide (Rlp.kind keys_item ≠ List)) "access_list keys not a list");
  each_item (warm_key a) (length (payload keys_item)) (payload keys_item).

Definition pre_warm_for_tx (tx : View) : M unit :=
  _ ← warm_addr (sender_ tx);
  shanghai ← is_shanghai_or_later;
  _ ← when shanghai (warm_addr (Consensus.beneficiary consensus));
  _ ← match to_ tx with Some a => warm_addr a | None => mret tt end;
  if len (access_list_rlp_ tx) =? 0 then mret tt else
  outer ← lift (decode_item (access_list_rlp_ tx));
  _ ← lift (fatal_if (bool_decide (Rlp.kind outer ≠ List)) "access_list_rlp: not a list");
  each_item warm_entry (length (payload outer)) (payload outer).

(** ** The transaction's context *)

Definition blob_hash (hs : list Z) (item : Item) : res (list Z) :=
  _ ← fatal_if (negb (is_string_of 32 item)) "blob_versioned_hashes: expected 32-byte string";
  Ok (hs ++ [be_val (payload item)]).
Definition read_blob_hashes (tx : View) : res (list Z) :=
  raw ← blob_versioned_hashes_rlp tx;
  outer ← decode_item raw;
  _ ← fatal_if (bool_decide (Rlp.kind outer ≠ List)) "blob_versioned_hashes is not an RLP list";
  for_items blob_hash (payload outer) [].

Definition effective_gas_price (tx : View) : res Z :=
  if has_gas_price (type_ tx) then gas_price tx else
  priority ← max_priority_fee_per_gas tx;
  max_fee ← max_fee_per_gas tx;
  Ok (if u256 (base_fee + priority) <? max_fee then u256 (base_fee + priority) else max_fee).

Definition with_tx (price origin : Z) (hashes : list Z) (c : TxContext) : TxContext :=
  mkTxContext price origin (block_coinbase c) (block_number c) (block_timestamp c) (block_gas_limit c)
    (block_prev_randao c) (StateDb.chain_id c) (block_base_fee c) (blob_base_fee c) hashes (block_slot_number c).

Definition blob_gas (n : nat) : Z := u64 (Z.of_nat n * Consensus.kGasPerBlob).
Definition build_per_tx_context (tx : View) : B TxContext :=
  ctx ← host (gets tx_context_);
  price ← liftb (effective_gas_price tx);
  if decide (type_ tx = Blob) then
    hashes ← liftb (read_blob_hashes tx);
    _ ← modb (λ b, put_blob_gas (u64 (blob_gas_used_ b + blob_gas (length hashes))) b);
    mret (with_tx price (sender_ tx) hashes ctx)
  else mret (with_tx price (sender_ tx) [] ctx).

(** ** Validation *)

(** The gates of one fork, as the code's booleans. *)
Definition check_tx_type (tx : View) : B unit :=
  london ← host is_london_or_later;
  cancun ← host is_cancun_or_later;
  prague ← host is_prague_or_later;
  _ ← fatal_when (bool_decide (type_ tx = DynamicFee) && negb london || bool_decide (type_ tx = Blob) && negb cancun
                  || bool_decide (type_ tx = SetCode) && negb prague || bool_decide (type_ tx = Osaka))
        "tx type not active at this fork";
  fatal_when (negb (chain_id_ tx =? kChainId) && negb (bool_decide (type_ tx = Legacy) && (v_or_y_parity_ tx <? 35)))
    "tx chain_id mismatch".

(** [validate_transaction]: the limits of the transaction alone.  Returns the
    intrinsic gas and the state-gas reservoir. *)
Definition validate_transaction (tx : View) : B (Z * Z) :=
  rev ← host active_revision;
  '(intrinsic_gas, floor) ← liftb (IntrinsicGas.compute_intrinsic_gas tx rev);
  _ ← modb (put_floor floor);
  prague ← host is_prague_or_later;
  amsterdam ← host is_amsterdam_or_later;
  osaka ← host is_osaka_or_later;
  shanghai ← host is_shanghai_or_later;
  max_init ← host max_initcode_size;
  let min_gas := if prague : bool then Z.max intrinsic_gas floor else intrinsic_gas in
  let gas_limit := gas_limit_ tx in
  let state_gas_limit := if amsterdam && (kMaxTxGasLimit <? gas_limit) then gas_limit - kMaxTxGasLimit else 0 in
  _ ← fatal_when (gas_limit - state_gas_limit <? u64 min_gas) "tx gas_limit below intrinsic gas";
  _ ← fatal_when (if amsterdam : bool then kMaxTxTotalGasLimit <? gas_limit else osaka && (kMaxTxGasLimit <? gas_limit))
        "tx gas_limit exceeds cap";
  _ ← fatal_when (nonce_ tx =? UINT64_MAX) "tx nonce at maximum";
  _ ← fatal_when (bool_decide (to_ tx = None) && shanghai && (max_init <? len (data_ tx))) "tx init code exceeds size limit";
  mret (intrinsic_gas, state_gas_limit).

(** The block's remaining gas, in u64 arithmetic. *)
Definition check_block_gas (tx : View) : B unit :=
  amsterdam ← host is_amsterdam_or_later;
  cumulative ← getb cumulative_gas_used_;
  regular ← getb block_regular_gas_used_;
  state ← getb block_state_gas_used_;
  let limit := Consensus.gas_limit consensus in
  fatal_when
    (if amsterdam : bool then (u64 (limit - regular) <? Z.min (gas_limit_ tx) kMaxTxGasLimit) || (u64 (limit - state) <? gas_limit_ tx)
     else u64 (limit - cumulative) <? gas_limit_ tx)
    "tx gas_limit exceeds block gas available".

(** The fee cap, and the maximum gas fee (512-bit, so exact). *)
Definition check_fees (tx : View) : B Z :=
  let legacy_fee := has_gas_price (type_ tx) in
  fee_cap ← liftb (if legacy_fee then gas_price tx else max_fee_per_gas tx);
  _ ← (if legacy_fee then mret tt else
       priority ← liftb (max_priority_fee_per_gas tx);
       fatal_when (fee_cap <? priority) "tx max_priority_fee_per_gas above max_fee_per_gas");
  _ ← fatal_when (fee_cap <? base_fee) "tx fee cap below base fee";
  mret (gas_limit_ tx * fee_cap).

Definition check_blobs (tx : View) : B Z :=
  if negb (bool_decide (type_ tx = Blob)) then mret 0 else
  ctx ← host (gets tx_context_);
  osaka ← host is_osaka_or_later;
  let count := Z.of_nat (length (blob_hashes ctx)) in
  _ ← fatal_when (count =? 0) "blob tx without blobs";
  _ ← fatal_when (osaka && (kMaxBlobsPerTx <? count)) "blob tx exceeds blob count limit";
  _ ← fatal_when (existsb (λ h, negb (h / 2 ^ 248 =? kVersionedHashVersionKzg)) (blob_hashes ctx))
        "blob versioned hash has wrong version";
  used ← getb blob_gas_used_;
  _ ← fatal_when (Consensus.max_blob_gas_per_block build consensus <? used) "block blob gas exceeds max";
  blob_fee_cap ← liftb (max_fee_per_blob_gas tx);
  _ ← fatal_when (blob_fee_cap <? blob_base_fee ctx) "tx max_fee_per_blob_gas below blob base fee";
  mret (blob_gas (length (blob_hashes ctx)) * blob_fee_cap).

Definition check_sender (tx : View) (sender_idx : nat) (max_fee : Z) : B unit :=
  n ← host (acc (Accounts.nonce_at sender_idx));
  _ ← fatal_when (negb (nonce_ tx =? n)) "tx nonce mismatch";
  balance ← host (acc (Accounts.balance_at sender_idx));
  _ ← fatal_when (balance <? max_fee + value_ tx) "tx sender balance below upfront cost";
  h ← host (acc (Accounts.code_hash_at sender_idx));
  if h =? EMPTY_CODE_HASH then mret tt else
  c ← host (contract_by_hash h);
  prague ← host is_prague_or_later;
  fatal_when (negb (prague && is_delegation (Contracts.code c))) "tx sender has code".

Definition check_transaction (tx : View) (sender_idx : nat) : B Z :=
  _ ← check_tx_type tx;
  '(intrinsic_gas, state_gas_limit) ← validate_transaction tx;
  _ ← check_block_gas tx;
  _ ← modb (put_state_gas_limit (i64 state_gas_limit));
  gas_fee ← check_fees tx;
  blob_fee ← check_blobs tx;
  _ ← fatal_when (bool_decide (type_ tx = Blob ∨ type_ tx = SetCode) && bool_decide (to_ tx = None))
        "blob / set-code tx cannot create a contract";
  _ ← fatal_when (bool_decide (type_ tx = SetCode) && (num_authorizations_ tx =? 0)) "set-code tx with empty authorization list";
  _ ← check_sender tx sender_idx (gas_fee + blob_fee);
  mret intrinsic_gas.

(** ** Upfront accounting *)

Definition upfront_cost (tx : View) (ctx : TxContext) : Z :=
  let gas_part := u256 (gas_limit_ tx * tx_gas_price ctx) in
  if decide (type_ tx = Blob) then u256 (gas_part + u256 (blob_gas (length (blob_hashes ctx)) * blob_base_fee ctx)) else gas_part.

Definition apply_pre_evm_accounting (tx : View) (sender_idx : nat) : B Z :=
  intrinsic_gas ← check_transaction tx sender_idx;
  n ← host (acc (Accounts.nonce_at sender_idx));
  _ ← host (set_nonce_idx sender_idx (u64 (n + 1)));
  ctx ← host (gets tx_context_);
  bal ← host (acc (Accounts.balance_at sender_idx));
  _ ← host (set_balance_idx sender_idx (u256 (bal - upfront_cost tx ctx)));
  mret intrinsic_gas.

(** ** EIP-7702 authorizations *)

Definition ACCOUNT_WRITE : Z := 9000.
Definition DELEGATION_BYTES_STATE_GAS : Z := 23 * COST_PER_STATE_BYTE.

(** A state-gas charge against [g.gas] and a local reservoir. *)
Definition charge (due : bool) (amount : Z) (g : Z) (sg : StateGas) : option (Z * StateGas) :=
  if due then state_gas_charge sg g amount else Some (g, sg).

(** The Amsterdam charges of a valid authorization; [None] in the first position
    when they cannot be paid.  A failed charge leaves [g.state_gas] as it was. *)
Definition charge_authorization (signer : Z) (signer_idx : nat) (clearing : bool) (ch : AuthCharges) (g : TxGas)
    : M (option AuthCharges * TxGas) :=
  h ← acc (Accounts.code_hash_at signer_idx);
  let delegated_now := negb (h =? EMPTY_CODE_HASH) in
  let delegated_at_start := foldl (λ d e, if bool_decide (e.1 = signer_idx) then e.2 else d) false (start_delegated ch) in
  let oog gas := mkTxGas gas (tg_state_gas g) true in
  exists_ ← account_exists signer;
  match charge (negb exists_) NEW_ACCOUNT_STATE_GAS (tg_gas g) (tg_state_gas g) with
  | None => mret (None, oog (tg_gas g))
  | Some (gas, sg) =>
      let fresh := negb (has (written ch) signer_idx) in
      if fresh && (gas <? ACCOUNT_WRITE) then mret (None, oog gas) else
      let gas := if fresh then gas - ACCOUNT_WRITE else gas in
      let wr := if fresh then written ch ++ [signer_idx] else written ch in
      let bytes_due := negb clearing && negb delegated_now && negb delegated_at_start && negb (has (bytes_charged ch) signer_idx) in
      match charge bytes_due DELEGATION_BYTES_STATE_GAS gas sg with
      | None => mret (None, oog gas)
      | Some (gas, sg) =>
          mret (Some (mkCharges wr (start_delegated ch) (if bytes_due then bytes_charged ch ++ [signer_idx] else bytes_charged ch)),
                mkTxGas gas sg (runtime_oog g))
      end
  end.

(** The checks that skip an authorization without naming its signer. *)
Definition auth_signer (a : Authorization) : option Z :=
  if negb (a_chain_id a =? 0) && negb (a_chain_id a =? kChainId) then None
  else if a_nonce a =? UINT64_MAX then None
  else if negb (is_canonical_low_s (a_s a)) then None
  else if 1 <? a_parity a then None
  else ecrecover_address (keccak256 (auth_preimage a)) (a_r a) (a_s a) (a_parity a).

(** Note whether the authority was delegated when the list first named it. *)
Definition note_start (signer_idx : nat) (h : Z) (ch : AuthCharges) : AuthCharges :=
  if existsb (λ e, bool_decide (e.1 = signer_idx)) (start_delegated ch) then ch
  else mkCharges (written ch) (start_delegated ch ++ [(signer_idx, negb (h =? EMPTY_CODE_HASH))]) (bytes_charged ch).

(** Empty code or a delegation, and the right nonce. *)
Definition auth_applies (a : Authorization) (signer_idx : nat) : M bool :=
  h ← acc (Accounts.code_hash_at signer_idx);
  ok ← (if h =? EMPTY_CODE_HASH then mret true else c ← contract_by_hash h; mret (is_delegation (Contracts.code c)));
  if negb ok then mret false else
  n ← acc (Accounts.nonce_at signer_idx);
  mret (n =? a_nonce a).

(** The writes of a valid authorization; the result says whether the signer's
    account was non-empty before them. *)
Definition delegation_code (delegate : Z) : bytes := [Byte.xef; Byte.x01; Byte.x00] ++ be_bytes 20 delegate.
Definition apply_authorization (a : Authorization) (signer_idx : nat) (journaled : bool) : M bool :=
  n ← acc (Accounts.nonce_at signer_idx);
  h ← acc (Accounts.code_hash_at signer_idx);
  b ← acc (Accounts.balance_at signer_idx);
  let was_non_empty := negb (n =? 0) || negb (h =? EMPTY_CODE_HASH) || negb (b =? 0) in
  _ ← when journaled (_ ← log_old_nonce signer_idx; log_old_code_hash signer_idx);
  _ ← set_nonce_idx signer_idx (a_nonce a + 1);
  _ ← (if a_delegate a =? 0 then set_code_hash_idx signer_idx EMPTY_CODE_HASH
       else
         let code := delegation_code (a_delegate a) in
         _ ← set_code_hash_idx signer_idx (keccak256 code);
         on ← bal_on;
         when on (c ← gets contracts_;
                  c ← lift (Contracts.insert (keccak256 code) code signer_idx c);
                  modify (put_contracts c)));
  mret was_non_empty.

Definition process_single_authorization (auth_item : Item) (charges : option AuthCharges) (g : TxGas)
    : M (Z * option AuthCharges * TxGas) :=
  a ← lift (parse_authorization auth_item);
  match auth_signer a with
  | None => mret (0, charges, g)
  | Some signer =>
      signer_idx ← account_row signer;
      _ ← acc_upd (Accounts.bal_access_at signer_idx);
      h ← acc (Accounts.code_hash_at signer_idx);
      let charges := note_start signer_idx h <$> charges in
      t ← tx_counter;
      _ ← acc_upd (Accounts.mark_touched_at signer_idx t);
      applies ← auth_applies a signer_idx;
      if negb applies then mret (0, charges, g) else
      match charges with
      | None =>
          was_non_empty ← apply_authorization a signer_idx false;
          mret (if was_non_empty : bool then 12500 else 0, None, g)
      | Some ch =>
          '(paid, g) ← charge_authorization signer signer_idx (a_delegate a =? 0) ch g;
          match paid with
          | None => mret (0, Some ch, g)
          | Some ch => _ ← apply_authorization a signer_idx true; mret (0, Some ch, g)
          end
      end
  end.

Fixpoint authorizations (fuel : nat) (it : bytes) (refund : Z) (charges : option AuthCharges) (g : TxGas) : M (Z * TxGas) :=
  match fuel with
  | O => mret (refund, g)
  | S fuel =>
      if has_next it then
        '(item, it) ← lift (next it);
        _ ← lift (fatal_if (bool_decide (Rlp.kind item ≠ List)) "EIP-7702: authorization entry not an RLP list");
        '(r, charges, g) ← process_single_authorization item charges g;
        if runtime_oog g then mret (refund + r, g) else authorizations fuel it (refund + r) charges g
      else mret (refund, g)
  end.

Definition apply_authorization_list (tx : View) (sender_idx : nat) (g : TxGas) : M (Z * TxGas) :=
  if negb (bool_decide (type_ tx = SetCode)) then mret (0, g) else
  amsterdam ← is_amsterdam_or_later;
  charges ←
    (if amsterdam : bool then
       match to_ tx with
       | Some to =>
           if negb (value_ tx =? 0) then i ← account_row to; mret (Some (mkCharges [sender_idx; i] [] []))
           else mret (Some (mkCharges [sender_idx] [] []))
       | None => mret (Some (mkCharges [sender_idx] [] []))
       end
     else mret None);
  l ← lift (authorization_list_rlp tx);
  outer ← lift (decode_item l);
  _ ← lift (fatal_if (bool_decide (Rlp.kind outer ≠ List)) "EIP-7702: authorization_list is not an RLP list");
  authorizations (length (payload outer)) (payload outer) 0 charges g.

(** ** The top frame *)

(** The collision check reads the rows as [StateDb.create_collides] does. *)
Definition top_level_create (tx : View) (sender_idx : nat) (gas state_gas : Z) : M Result :=
  n ← acc (Accounts.nonce_at sender_idx);
  let new_addr := compute_create_address (sender_ tx) (u64 (n - 1)) in
  let msg := mkMessage CREATE false false 0 gas state_gas new_addr (sender_ tx) [] (value_ tx) 0 None in
  new_idx ← account_row new_addr;
  _ ← acc_upd (Accounts.bal_access_at new_idx);
  t ← tx_counter;
  warm ← acc (Accounts.is_warm_at new_idx t);
  _ ← when (negb warm) (l ← acc (Accounts.last_tx_idx_at new_idx); log (log_account_warm new_idx l));
  _ ← acc_upd (Accounts.mark_touched_at new_idx t);
  collides ← create_collides new_addr new_idx;
  if collides : bool then mret (no_output FAILURE 0 msg) else
  _ ← log_old_nonce new_idx;
  _ ← set_nonce_idx new_idx 1;
  _ ← when (negb (value_ tx =? 0)) (transfer_value (sender_ tx) new_addr (value_ tx));
  _ ← modify (λ s, put_created ({[new_idx]} ∪ created_this_tx_idx_ s) s);
  r ← run_frame msg (data_ tx);
  if negb (success r) then mret r else
  limit ← max_code_size;
  london ← is_london_or_later;
  amsterdam ← is_amsterdam_or_later;
  if limit <? len (output r) then mret (no_output OUT_OF_GAS 0 msg)
  else if london && match output r with b :: _ => b2z b =? 0xef | [] => false end then
    mret (no_output CONTRACT_VALIDATION_FAILURE 0 msg)
  else
    match charge_code_deposit state_gas_charge COST_PER_STATE_BYTE r amsterdam with
    | None => mret (no_output OUT_OF_GAS 0 msg)
    | Some r =>
        let deployed_hash := keccak256 (output r) in
        _ ← when (0 <? len (output r))
              (c ← gets contracts_;
               c ← lift (Contracts.insert deployed_hash (output r) new_idx c);
               modify (put_contracts c));
        _ ← log_old_code_hash new_idx;
        _ ← set_code_hash_idx new_idx deployed_hash;
        mret (mkResult (r_status r) (gas_left r) (gas_refund r) [] (StateDb.state_gas r))
    end.

Definition delegates (code : bytes) : bool := (23 <=? len code) && bool_decide (take 3 code = [Byte.xef; Byte.x01; Byte.x00]).

Definition top_level_call (tx : View) (to : Z) (gas state_gas : Z) : M Result :=
  let msg a := mkMessage CALL false false 0 gas state_gas to (sender_ tx) (data_ tx) (value_ tx) a None in
  let transfer := when (negb (value_ tx =? 0)) (transfer_value (sender_ tx) to (value_ tx)) in
  rev ← active_revision;
  if is_precompile rev to then
    on ← bal_on;
    _ ← when on (bal_load to);
    _ ← transfer;
    call_precompile_dispatch call_precompile ecrecover_address (msg to)
  else
  entry_code ← code_and_entry to;
  if delegates entry_code then
    let delegate := delegate_of entry_code in
    entry_code ← code_and_entry delegate;
    _ ← transfer;
    run_frame (msg delegate) entry_code
  else
    _ ← transfer;
    run_frame (msg to) entry_code.

Definition execute_top_level_message (tx : View) (sender_idx : nat) (gas state_gas : Z) : M Result :=
  match to_ tx with
  | None => top_level_create tx sender_idx gas state_gas
  | Some to => top_level_call tx to gas state_gas
  end.

(** The Amsterdam charges of the first frame: what is left and whether a new
    account was paid for; [None] when they cannot be paid. *)
Definition WARM_ACCESS : Z := 100.
Definition COLD_ACCESS_ADD : Z := 3000 - WARM_ACCESS.

Definition charge_new_account (tx : View) (sender_idx : nat) (gas : Z) (sg : StateGas) : M (option (Z * StateGas * bool)) :=
  if bool_decide (to_ tx ≠ None) && (value_ tx =? 0) then mret (Some (gas, sg, false)) else
  n ← acc (Accounts.nonce_at sender_idx);
  let recipient := match to_ tx with Some a => a | None => compute_create_address (sender_ tx) (u64 (n - 1)) end in
  exists_ ← account_exists recipient;
  if exists_ : bool then mret (Some (gas, sg, false)) else
  mret ((λ '(gas, sg), (gas, sg, true)) <$> state_gas_charge sg gas NEW_ACCOUNT_STATE_GAS).

Definition charge_delegation (tx : View) (gas : Z) : M (option Z) :=
  match to_ tx with
  | None => mret (Some gas)
  | Some to =>
      code ← code_and_entry to;
      if negb (is_delegation code) then mret (Some gas) else
      if gas <? WARM_ACCESS then mret None else
      let gas := gas - WARM_ACCESS in
      st ← access_account is_precompile (delegate_of code);
      match st with
      | ACCESS_COLD =>
          if gas <? COLD_ACCESS_ADD then _ ← modify (put_bal_pending kNoBalPending); mret None
          else _ ← bal_commit_pending; mret (Some (gas - COLD_ACCESS_ADD))
      | ACCESS_WARM => _ ← bal_commit_pending; mret (Some gas)
      end
  end.

Definition first_frame_charges (tx : View) (sender_idx : nat) (gas : Z) (sg : StateGas) : M (option (Z * StateGas * bool)) :=
  amsterdam ← is_amsterdam_or_later;
  if negb amsterdam then mret (Some (gas, sg, false)) else
  c ← charge_new_account tx sender_idx gas sg;
  match c with
  | None => mret None
  | Some (gas, sg, charged) =>
      d ← charge_delegation tx gas;
      mret ((λ gas, (gas, sg, charged)) <$> d)
  end.

(** Giving the frame's state gas back, and the new account's when it failed. *)
Definition settle_state_gas (r : Result) (sg : StateGas) (new_account_charged : bool) : Result :=
  if success r then
    mkResult (r_status r) (gas_left r) (gas_refund r) (output r)
      (mkStateGas (sg_left (StateDb.state_gas r)) (sg_spilled (StateDb.state_gas r) + sg_spilled sg))
  else
    let '(refilled, sg) := if new_account_charged then state_gas_refill sg 0 NEW_ACCOUNT_STATE_GAS else (0, sg) in
    let left := if bool_decide (r_status r = REVERT) then gas_left r + refilled else gas_left r in
    mkResult (r_status r) left (gas_refund r) (output r) sg.

Definition execute_top_level_frame (tx : View) (sender_idx : nat) (state_gas_limit : Z) (g : TxGas) : M (Result * bool) :=
  let oog := mkResult OUT_OF_GAS 0 0 [] (mkStateGas state_gas_limit 0) in
  if runtime_oog g then mret (oog, true) else
  c ← first_frame_charges tx sender_idx (tg_gas g) (tg_state_gas g);
  match c with
  | None => mret (oog, true)
  | Some (gas, sg, new_account_charged) =>
      r ← execute_top_level_message tx sender_idx gas (sg_left sg);
      mret (settle_state_gas r sg new_account_charged, false)
  end.

(** ** Settlement *)

(** The gas figures of a finished transaction (int64; C++ division truncates). *)
Definition capped_refund (london : bool) (gas_used_pre refund_pre_cap : Z) : Z :=
  Z.min refund_pre_cap (Z.quot gas_used_pre (if london then 5 else 2)).
Definition tx_gas_used (london prague : bool) (floor gas_limit gas_left refund_pre_cap : Z) : Z :=
  let gas_used := gas_limit - (gas_left + capped_refund london (gas_limit - gas_left) refund_pre_cap) in
  if prague && (gas_used <? floor) then floor else gas_used.
Definition block_gas_used (amsterdam : bool) (floor state_gas_limit gas_used_pre gas_used : Z) (sg : StateGas) : TxGasUsed :=
  if amsterdam then
    let state_used := Z.max 0 (state_gas_limit - sg_left sg + sg_spilled sg) in
    mkTxGasUsed (u64 gas_used) (u64 (Z.max (gas_used_pre - state_used) floor)) (u64 state_used)
  else mkTxGasUsed (u64 gas_used) (u64 gas_used) 0.

Definition credit (idx : nat) (amount : Z) : M unit :=
  b ← acc (Accounts.balance_at idx);
  set_balance_idx idx (u256 (b + amount)).

Definition settle_tx_gas (tx : View) (r : Result) (sender_idx : nat) (auth_refund : Z) : B TxGasUsed :=
  london ← host is_london_or_later;
  prague ← host is_prague_or_later;
  amsterdam ← host is_amsterdam_or_later;
  floor ← getb tx_floor_gas_;
  state_gas_limit ← getb tx_state_gas_limit_;
  let gas_limit := i64 (gas_limit_ tx) in
  let left := gas_left r + sg_left (StateDb.state_gas r) in
  let gas_used := tx_gas_used london prague floor gas_limit left (gas_refund r + auth_refund) in
  let used := block_gas_used amsterdam floor state_gas_limit (gas_limit - left) gas_used (StateDb.state_gas r) in
  ctx ← host (gets tx_context_);
  let price := tx_gas_price ctx in
  _ ← host (credit sender_idx (u256 (u64 (gas_limit - gas_used) * price)));
  let priority := if base_fee <? price then price - base_fee else 0 in
  coinbase_idx ← host (account_row (Consensus.beneficiary consensus));
  _ ← host (credit coinbase_idx (u256 (u64 gas_used * priority)));
  mret used.

(** ** Receipts *)

Definition log_bloom (bloom : bytes) (l : LogEntry) : res bytes :=
  bloom ← bloom_add keccak256 bloom (be_bytes 20 (log_address l));
  fold_res (λ bloom t, bloom_add keccak256 bloom (be_bytes 32 t)) bloom (topics l).

Definition set_last {A} (x : A) (l : list A) : list A := removelast l ++ [x].
Definition finalize_receipt (r : Result) (used : TxGasUsed) : B unit :=
  rs ← host (gets tx_receipts_);
  match last rs with
  | None => liftb (Fatal "back() of an empty receipt list")
  | Some rcpt =>
      bloom ← liftb (fold_res log_bloom (logs_bloom rcpt) (logs rcpt));
      _ ← modb (λ b, add_gas (used_gas used) (used_regular used) (used_state used) (bloom_or_into (block_bloom_filter_ b) bloom) b);
      cumulative ← getb cumulative_gas_used_;
      host (modify (put_receipts (set_last (mkReceipt (tx_type rcpt) (success r) cumulative bloom (logs rcpt)) rs)))
  end.

(** ** The transaction loop *)

Definition fresh_receipt (t : TxType) : TxReceipt := mkReceipt t false 0 (replicate 256 Byte.x00) [].

(** The start of an iteration: counters, per-transaction sets, warmth, receipt. *)
Definition open_tx (i : Z) (tx : View) : M unit :=
  _ ← next_tx;
  _ ← reset_tx_arena;
  _ ← modify (put_created ∅);
  _ ← modify (λ s, put_world (put_pending ∅ (world s)) s);
  _ ← bal_set_index (i + 1);
  _ ← pre_warm_for_tx tx;
  modify (λ s, put_receipts (tx_receipts_ s ++ [fresh_receipt (type_ tx)]) s).

Definition run_tx (tx : View) (sender_idx : nat) (intrinsic_gas : Z) : B (Result * Z) :=
  state_gas_limit ← getb tx_state_gas_limit_;
  let g := mkTxGas (i64 (gas_limit_ tx) - intrinsic_gas - state_gas_limit) (mkStateGas state_gas_limit 0) false in
  cp_runtime ← host checkpoint;
  '(auth_refund, g) ← host (apply_authorization_list tx sender_idx g);
  cp ← host checkpoint;
  '(r, oog) ← host (execute_top_level_frame tx sender_idx state_gas_limit g);
  _ ← (if oog : bool then host (rollback cp_runtime)
       else whenb (negb (success r)) (host (rollback cp)));
  mret (r, auth_refund).

Definition process_transaction (i : Z) (tx : View) : B unit :=
  _ ← host (open_tx i tx);
  ctx ← build_per_tx_context tx;
  _ ← host (set_tx_context ctx);
  sender_idx ← host (account_row (sender_ tx));
  intrinsic_gas ← apply_pre_evm_accounting tx sender_idx;
  '(r, auth_refund) ← run_tx tx sender_idx intrinsic_gas;
  used ← settle_tx_gas tx r sender_idx auth_refund;
  _ ← finalize_receipt r used;
  host apply_pending_destructs.

Fixpoint process_from (i : Z) (txs : list View) : B unit :=
  match txs with
  | [] => mret tt
  | tx :: txs => _ ← process_transaction i tx; process_from (i + 1) txs
  end.
Definition process_transactions (txs : list View) : B unit :=
  _ ← process_from 0 txs;
  modb (put_tx_count (u32 (Z.of_nat (length txs)))).

(** ** End of the block *)

Definition credit_block_reward : M unit :=
  if Consensus.difficulty consensus =? 0 then mret tt else
  coinbase_idx ← account_row (Consensus.beneficiary consensus);
  credit coinbase_idx (2 * 1000000000000000000).

Definition credit_withdrawal (w : bytes) : M unit :=
  idx ← account_row (Consensus.w_address w);
  credit idx (u256 (Consensus.w_amount_gwei w * 1000000000)).
Fixpoint credit_withdrawals (ws : list bytes) : M unit :=
  match ws with
  | [] => mret tt
  | w :: ws => _ ← credit_withdrawal w; credit_withdrawals ws
  end.

Definition push_request (type : Z) (body : bytes) : B unit :=
  if len body =? 0 then mret tt else modb (λ b, put_requests (requests_ b ++ [z2b type :: body]) b).

Definition deposit_event_topic : Z := keccak256 (String.list_byte_of_string "DepositEvent(bytes,bytes,bytes,bytes,bytes)").
Definition collect_deposit_requests : B unit :=
  rs ← host (gets tx_receipts_);
  buf ← liftb (extract_deposit_requests deposit_event_topic (kDepositContractAddress (Consensus.sepolia build)) rs);
  push_request 0 buf.

Definition collect_system_requests (addr type : Z) (empty_msg failed_msg : string) : B unit :=
  size ← host (get_code_size addr);
  _ ← fatal_when (size =? 0) empty_msg;
  r ← host (system_call addr []);
  _ ← fatal_when (negb (success r)) failed_msg;
  push_request type (output r).

Definition post_execute_block : B unit :=
  n ← getb bal_tx_count_;
  _ ← host (bal_set_index (n + 1));
  _ ← host credit_block_reward;
  _ ← host (credit_withdrawals (Consensus.withdrawals_ consensus));
  prague ← host is_prague_or_later;
  amsterdam ← host is_amsterdam_or_later;
  whenb prague
    (_ ← collect_deposit_requests;
     _ ← collect_system_requests kWithdrawalRequestsAddress 1 "EIP-7002: withdrawal system contract empty (invalid block)"
             "EIP-7002: withdrawal system contract call failed (invalid block)";
     _ ← collect_system_requests kConsolidationRequestsAddress 2 "EIP-7251: consolidation system contract empty (invalid block)"
             "EIP-7251: consolidation system contract call failed (invalid block)";
     whenb amsterdam
       (_ ← collect_system_requests kBuilderDepositRequestsAddress 3 "EIP-8282: builder deposit system contract empty (invalid block)"
             "EIP-8282: builder deposit system contract call failed (invalid block)";
        collect_system_requests kBuilderExitRequestsAddress 4 "EIP-8282: builder exit system contract empty (invalid block)"
             "EIP-8282: builder exit system contract call failed (invalid block)")).

(** ** The whole block *)

(** The results [execute_block] leaves in the host object. *)
Record Outcome := mkOutcome {
  bal_rlp_ : bytes;
  bal_hash_ : Z;
  receipts_root_ : Z;
  withdrawals_root_ : Z;
  withdrawals_rlp_list_payload_size_ : Z;
  requests_hash_ : Z }.

Fixpoint receipts_trie (i : Z) (rs : list TxReceipt) (trie : list (bytes * bytes)) : res (list (bytes * bytes)) :=
  match rs with
  | [] => Ok trie
  | r :: rs => enc ← encode_receipt r; receipts_trie (i + 1) rs (Mpt.insert (encode_u64 i) enc trie)
  end.

Definition withdrawal_record (w : bytes) : bytes :=
  encode_list [encode_u64 (Consensus.w_index w); encode_u64 (Consensus.w_validator_index w);
               encode (be_bytes 20 (Consensus.w_address w)); encode_u64 (Consensus.w_amount_gwei w)].
Fixpoint withdrawals_trie (i : Z) (ws : list bytes) (size : Z) (trie : list (bytes * bytes)) : Z * list (bytes * bytes) :=
  match ws with
  | [] => (size, trie)
  | w :: ws => let record := withdrawal_record w in withdrawals_trie (i + 1) ws (size + len record) (Mpt.insert (encode_u64 i) record trie)
  end.

Definition hash_requests (reqs : list bytes) : Z := sha256 (concat (map (λ req, be_bytes 32 (sha256 req)) reqs)).

Definition finish_access_list : B (bytes * Z) :=
  s ← getb db;
  match Accounts.bal_ (accounts (world s)) with
  | None => mret ([], 0)
  | Some b =>
      liftb (BalEncode.build_block_access_list_hash keccak256 (contracts_ s) (accounts (world s)) (storages (world s))
               (Consensus.gas_limit consensus) b)
  end.

Definition execute_block (txs : list View) : B Outcome :=
  _ ← host pre_execute_block;
  _ ← process_transactions txs;
  _ ← post_execute_block;
  '(bal_rlp, bal_hash) ← finish_access_list;
  rs ← host (gets tx_receipts_);
  trie ← liftb (receipts_trie 0 rs []);
  receipts_root ← liftb (Mpt.root_hash keccak256 trie);
  let '(size, trie) := withdrawals_trie 0 (Consensus.withdrawals_ consensus) 0 [] in
  withdrawals_root ← liftb (Mpt.root_hash keccak256 trie);
  reqs ← getb requests_;
  let requests_hash := hash_requests reqs in
  prague ← host is_prague_or_later;
  _ ← fatal_when (prague && negb (requests_hash =? Consensus.requests_hash consensus))
        "requests_hash mismatch (invalid block requests)";
  mret (mkOutcome bal_rlp bal_hash receipts_root withdrawals_root size requests_hash).

(** The header's [gasUsed]. *)
Definition gas_used (b : Block) : Z := Z.max (block_regular_gas_used_ b) (block_state_gas_used_ b).

End Pipeline.
End Block.
