(* ===== verification/BlockSample.v ===== *)
(** A small block to run the pipeline on: a transfer and a dynamic-fee call on the
    world of [Sample.v], with a VM that burns part of the gas.  The witnesses of
    the pipeline's theorems evaluate it. *)

From stdpp Require Import base numbers list strings gmap.
From S2P Require Import Prelude Fork Rlp Receipt Contracts Chain Bal EvmMem Accounts Storages Transient Journal StateDb Sample Transactions Consensus IntrinsicGas Block.

Module BlockSample.
Import Rlp Receipt Fork Journal StateDb Sample Transactions Block.

(** Burns 700 gas, or all it has, and asks for a refund. *)
Definition toy_vm (msg : message) (code : bytes) : M Result :=
  mret (if gas msg <? 700 then no_output OUT_OF_GAS 0 msg
        else mkResult SUCCESS (gas msg - 700) 4800 [] (mkStateGas (msg_state_gas msg) 0)).
Definition toy_refill (sg : StateGas) (used amount : Z) : Z * StateGas := (0, sg).

Definition block_accounts : Accounts.Accounts :=
  default Accounts.accounts0
    (match
      ('(_, a) ← Accounts.append eoa 5 (10 ^ 18) EMPTY_CODE_HASH (Accounts.reserve 3 Accounts.accounts0);
       '(_, a) ← Accounts.append caller 1 0 (toy_keccak caller_code) a;
       '(_, a) ← Accounts.append (Consensus.beneficiary Consensus.sample_block) 0 7 EMPTY_CODE_HASH a;
       Ok a) with Ok a => Some a | Fatal _ => None end).
Definition block_db : StateDB :=
  mkDB (mkWorld block_accounts sample_storages WarmKeys.warm0 (TransientStorage.mkTransient ∅) ∅)
    [] sample_contracts 0 [] false ∅ ∅ kNoBalPending fk_Prague
    (block_context Consensus.mainnet Consensus.sample_block 3 1) 100 (Chain.mkBlocks [] []) EvmMem.initial.
Definition block0 : Block := mkBlock block_db 0 0 0 (replicate 256 Byte.x00) 0 0 0 [] 0.

Definition call_tx (nonce : Z) : View :=
  mkView DynamicFee 0 eoa [] nonce 50000 (Some caller) 5 [Byte.x01] 0 1 1 1 0 (2 * 10 ^ 9) (3 * 10 ^ 9) [Byte.xc0] 0 [] [] 0 [].

Definition run_transactions : list View → B () :=
  process_transactions toy_keccak no_precompile failing_precompile no_recovery toy_state_gas_charge toy_refill 0 0 toy_vm
    Consensus.mainnet Consensus.sample_block.

(** The first transaction's context, before it is accounted for. *)
Definition block1 : Block :=
  put_floor 21040 (put_db (put_tx_context (with_tx (3 * 10 ^ 9) eoa [] (tx_context_ block_db)) block_db) block0).
(** The value of a run that succeeds. *)
Definition outcome {A} (d : A) (r : res (A * Block)) : A * Block := match r with Ok x => x | Fatal _ => (d, block0) end.

End BlockSample.
