(* ===== verification/BlockGas.v ===== *)
(** Gas and ether in the block pipeline: what a transaction is charged up front,
    what it gets back and what the coinbase receives. *)

From stdpp Require Import base numbers list strings gmap.
From S2P Require Import Prelude Fork Rlp Receipt Contracts Chain CreateAddress Bal Accounts Storages Transient Journal StateDb HostProofs Mpt Transactions Consensus IntrinsicGas BalEncode Block Sample BlockSample.

Set Default Goal Selector "!".

Module BlockGas.
Import Rlp Receipt Fork Journal StateDb HostProofs Transactions IntrinsicGas Block Sample BlockSample.

(** ** Runs of the block monad *)

Lemma put_db_same b : put_db (db b) b = b.
Proof. by destruct b. Qed.
Lemma bindb_run {A C} (m : B A) (k : A → B C) b c b' :
  (m ≫= k) b = Ok (c, b') → ∃ a b1, m b = Ok (a, b1) ∧ k a b1 = Ok (c, b').
Proof. unfold mbind, B_bind. destruct (m b) as [[a b1]|]; [eauto|done]. Qed.
Lemma host_run {A} (m : M A) b a b' : host m b = Ok (a, b') → ∃ d, m (db b) = Ok (a, d) ∧ b' = put_db d b.
Proof. unfold host. destruct (m (db b)) as [[x d]|]; [|done]. intros [= -> <-]. by exists d. Qed.
Lemma host_pure_run {A} (m : M A) b a b' : pure m → host m b = Ok (a, b') → m (db b) = Ok (a, db b) ∧ b' = b.
Proof. intros Hm (d & E & ->)%host_run. pose proof (Hm _ _ _ E) as ->. split; [exact E|apply put_db_same]. Qed.
Lemma liftb_run {A} (r : res A) b a b' : liftb r b = Ok (a, b') → r = Ok a ∧ b' = b.
Proof. unfold liftb. destruct r; [|done]. by intros [= -> ->]. Qed.
Lemma getb_run {A} (f : Block → A) b a b' : getb f b = Ok (a, b') → a = f b ∧ b' = b.
Proof. by intros [= <- <-]. Qed.
Lemma modb_run f b u b' : modb f b = Ok (u, b') → b' = f b.
Proof. by intros [= _ <-]. Qed.
Lemma fatal_when_run c msg b u b' : fatal_when c msg b = Ok (u, b') → c = false ∧ b' = b.
Proof. unfold fatal_when. destruct c; [done|]. by intros [= _ <-]. Qed.
Lemma acc_read {A} (f : Accounts.Accounts → res A) d a d' : acc f d = Ok (a, d') → f (accounts (world d)) = Ok a ∧ d' = d.
Proof. unfold acc. destruct (f _); [|done]. by intros [= -> ->]. Qed.

Lemma pure_rev r : pure (rev_at_least r).
Proof. apply pure_gets. Qed.
Lemma pure_amsterdam : pure is_amsterdam_or_later.
Proof. apply pure_gets. Qed.
Lemma pure_london : pure is_london_or_later.
Proof. apply pure_gets. Qed.
Lemma pure_cancun : pure is_cancun_or_later.
Proof. apply pure_gets. Qed.
Lemma pure_revision : pure active_revision.
Proof. apply pure_gets. Qed.
Lemma pure_max_initcode : pure max_initcode_size.
Proof. intros s a s' H. apply bind_run in H as (x & s1 & H1 & [= _ <-]). by apply pure_amsterdam in H1. Qed.
Lemma pure_contract_by_hash h : pure (contract_by_hash h).
Proof. intros s a s' H. apply bind_run in H as (x & s1 & [= <- <-] & H2). by apply pure_lift in H2. Qed.
Create HintDb pure discriminated.
#[export] Hint Resolve pure_gets pure_lift pure_acc pure_sto pure_amsterdam pure_london pure_cancun pure_rev pure_revision
  pure_max_initcode pure_contract_by_hash : pure.
#[export] Hint Extern 1 (pure (is_paris_or_later)) => apply pure_rev : pure.
#[export] Hint Extern 1 (pure (is_shanghai_or_later)) => apply pure_rev : pure.
#[export] Hint Extern 1 (pure (is_prague_or_later)) => apply pure_rev : pure.
#[export] Hint Extern 1 (pure (is_osaka_or_later)) => apply pure_rev : pure.

(** Walks down a run that succeeded. *)
Ltac b_step :=
  match goal with
  | H : (mbind _ _) _ = Ok (_, _) |- _ =>
      let a := fresh "a" in let b := fresh "b" in let E := fresh "E" in
      apply bindb_run in H; destruct H as (a & b & E & H); cbn beta in H
  | H : host ?m _ = Ok (_, _) |- _ =>
      let E := fresh "E" in apply host_pure_run in H; [|solve [auto with pure]]; destruct H as [E ->]
  | H : liftb _ _ = Ok (_, _) |- _ => let E := fresh "E" in apply liftb_run in H; destruct H as [E ->]
  | H : getb _ _ = Ok (_, _) |- _ => apply getb_run in H; destruct H as [-> ->]
  | H : modb _ _ = Ok (_, _) |- _ => apply modb_run in H; subst
  | H : fatal_when _ _ _ = Ok (_, _) |- _ => let E := fresh "E" in apply fatal_when_run in H; destruct H as [E ->]
  | H : mret _ _ = Ok (_, _) |- _ => first [injection H as <- <- | injection H as <-]
  | H : gets _ _ = Ok (_, _) |- _ => injection H as <-
  | H : acc _ _ = Ok (_, _) |- _ => apply acc_read in H as [H _]
  | x : unit |- _ => destruct x
  | x : _ * _ |- _ => destruct x; cbn beta iota in *
  end.
Ltac b_inv := repeat b_step.
Ltac goal_if := match goal with |- context [if ?c then _ else _] => destruct c eqn:? end.
Section Gas.
Context (build : Consensus.Build) (consensus : Consensus.ConsensusInfo).
Abbreviation base_fee := (Consensus.base_fee_per_gas consensus).

(** ** What the checks establish *)

(** The fee cap of a transaction and its priority fee ([gas_price] for the
    first two types). *)
Definition fee_cap (tx : View) : Z := if has_gas_price (type_ tx) then gas_price_ tx else max_fee_per_gas_ tx.
Definition priority_fee (tx : View) : Z := if has_gas_price (type_ tx) then gas_price_ tx else max_priority_fee_per_gas_ tx.

Lemma check_fees_ok tx b fee b' : check_fees consensus tx b = Ok (fee, b') →
  b' = b ∧ fee = gas_limit_ tx * fee_cap tx ∧ base_fee ≤ fee_cap tx ∧ priority_fee tx ≤ fee_cap tx.
Proof.
  unfold check_fees, fee_cap, priority_fee. intros H.
  destruct (has_gas_price (type_ tx)) eqn:Et; b_inv; unfold gas_price, max_fee_per_gas, max_priority_fee_per_gas in *; rewrite Et in *;
    ok_inv; rewrite ?Z.ltb_ge in *; split_and!; done || lia.
Qed.

Lemma check_blobs_ok tx b fee b' : check_blobs build consensus tx b = Ok (fee, b') →
  b' = b ∧ (if decide (type_ tx = Blob) then
      fee = blob_gas (length (blob_hashes (tx_context_ (db b)))) * max_fee_per_blob_gas_ tx ∧
      blob_base_fee (tx_context_ (db b)) ≤ max_fee_per_blob_gas_ tx
    else fee = 0).
Proof.
  unfold check_blobs. intros H. destruct (decide (type_ tx = Blob)) as [Et|Et]; rewrite ?(bool_decide_eq_true_2 _ Et), ?(bool_decide_eq_false_2 _ Et) in H;
    cbn [negb] in H; b_inv; [|done]. split; [done|]. unfold max_fee_per_blob_gas in *. ok_inv.
  rewrite ?Z.ltb_ge in *. done.
Qed.

Lemma check_sender_ok tx idx fee b u b' : check_sender tx idx fee b = Ok (u, b') →
  b' = b ∧ Accounts.nonce_at idx (accounts (world (db b))) = Ok (nonce_ tx) ∧
  ∃ bal, Accounts.balance_at idx (accounts (world (db b))) = Ok bal ∧ fee + value_ tx ≤ bal.
Proof.
  unfold check_sender. intros H. b_inv.
  repeat match goal with H : negb (_ =? _) = false |- _ => apply negb_false_iff, Z.eqb_eq in H; subst
    | H : (_ <? _) = false |- _ => apply Z.ltb_ge in H end.
  destruct (_ =? EMPTY_CODE_HASH); b_inv; (split; [done|]; split; [done|]; eexists; split; [done|lia]).
Qed.

(** The fork gates, as booleans of the state. *)
Definition since (r : revision) (d : StateDB) : bool := rev_ge (fork_to_revision (StateDb.fork_id d)) r.
Definition amsterdam (d : StateDB) : bool := fk_Amsterdam <=? StateDb.fork_id d.

Lemma validate_ok tx b r b' : tx_small tx → validate_transaction tx b = Ok (r, b') →
  ∃ floor, b' = put_floor floor b ∧ 12000 ≤ r.1 ≤ gas_limit_ tx - r.2 ∧ 12000 ≤ floor ∧
    (since EVMC_PRAGUE (db b) = true → floor ≤ gas_limit_ tx - r.2) ∧ 0 ≤ r.2 ∧
    (amsterdam (db b) = false → r.2 = 0) ∧ nonce_ tx ≠ UINT64_MAX.
Proof.
  intros Hs H. unfold validate_transaction in H. b_inv. cbn [fst snd].
  match goal with H : compute_intrinsic_gas _ _ = Ok (?z, ?f) |- _ => destruct (intrinsic_bounds _ _ _ _ Hs H) as [Hz Hf]; exists f; clear H end.
  match goal with H : is_amsterdam_or_later _ = Ok (?a, _) |- _ => injection H as Ha; cbn in Ha end.
  match goal with H : is_prague_or_later _ = Ok (?a, _) |- _ => injection H as Hp; cbn in Hp end.
  match goal with H : (_ <? u64 _) = false |- _ => apply Z.ltb_ge in H; rename H into Hlim end.
  match goal with H : (nonce_ tx =? _) = false |- _ => apply Z.eqb_neq in H; rename H into Hn end.
  unfold since, amsterdam. rewrite Ha, Hp. split; [done|]. unfold u64 in Hlim. rewrite Z.mod_small in Hlim by (goal_if; lia).
  split_and!; [lia|match type of Hlim with (if ?c then _ else _) ≤ _ => destruct c end; lia|lia|intros ->; lia| |by intros ->|done].
  goal_if; [|lia]. match goal with H : _ && _ = true |- _ => apply andb_true_iff in H as [_ Hk%Z.ltb_lt] end. lia.
Qed.

Lemma check_tx_type_ok tx b u b' : check_tx_type build tx b = Ok (u, b') → b' = b.
Proof. unfold check_tx_type. intros H. by b_inv. Qed.

Lemma check_block_gas_ok tx b u b' : check_block_gas consensus tx b = Ok (u, b') →
  b' = b ∧ (amsterdam (db b) = false → gas_limit_ tx ≤ u64 (Consensus.gas_limit consensus - cumulative_gas_used_ b)).
Proof.
  unfold check_block_gas. intros H. b_inv. split; [done|].
  match goal with H : is_amsterdam_or_later _ = Ok (?a, _) |- _ => injection H as Ha; cbn in Ha end.
  unfold amsterdam. rewrite Ha. intros ->. by apply Z.ltb_ge.
Qed.
(** Field ranges of a parsed transaction. *)
Record tx_ok (tx : View) : Prop := {
  ok_small : tx_small tx;
  ok_gas_limit : in_u64 (gas_limit_ tx);
  ok_nonce : in_u64 (nonce_ tx);
  ok_value : 0 ≤ value_ tx;
  ok_cap : 0 ≤ fee_cap tx;
  ok_priority : 0 ≤ priority_fee tx }.

(** The blob part of a cost at a given price per gas. *)
Definition blob_part (tx : View) (ctx : TxContext) (price : Z) : Z :=
  if decide (type_ tx = Blob) then blob_gas (length (blob_hashes ctx)) * price else 0.

Record checked (tx : View) (idx : nat) (b : Block) (ig : Z) (b' : Block) : Prop := {
  ck_state : ∃ floor sgl, b' = put_state_gas_limit sgl (put_floor floor b) ∧ 12000 ≤ floor ∧
    (since EVMC_PRAGUE (db b) = true → floor ≤ gas_limit_ tx) ∧ (amsterdam (db b) = false → sgl = 0);
  ck_gas : 12000 ≤ ig ≤ gas_limit_ tx;
  ck_block : amsterdam (db b) = false → gas_limit_ tx ≤ u64 (Consensus.gas_limit consensus - cumulative_gas_used_ b);
  ck_nonce : Accounts.nonce_at idx (accounts (world (db b))) = Ok (nonce_ tx) ∧ nonce_ tx ≠ UINT64_MAX;
  ck_cap : base_fee ≤ fee_cap tx ∧ priority_fee tx ≤ fee_cap tx;
  ck_blob : type_ tx = Blob → blob_base_fee (tx_context_ (db b)) ≤ max_fee_per_blob_gas_ tx;
  ck_balance : ∃ bal, Accounts.balance_at idx (accounts (world (db b))) = Ok bal ∧
    gas_limit_ tx * fee_cap tx + blob_part tx (tx_context_ (db b)) (max_fee_per_blob_gas_ tx) + value_ tx ≤ bal }.

Lemma check_transaction_ok tx idx b ig b' : tx_ok tx → check_transaction build consensus tx idx b = Ok (ig, b') → checked tx idx b ig b'.
Proof.
  intros Hok H. unfold check_transaction in H. b_inv.
  repeat match goal with
    | H : check_tx_type _ _ _ = Ok _ |- _ => apply check_tx_type_ok in H; subst
    | H : validate_transaction _ _ = Ok _ |- _ => apply validate_ok in H as (floor & -> & Hig & Hfl & Hpr & Hsg & Ham & Hnm); [|apply Hok]
    | H : check_block_gas _ _ _ = Ok _ |- _ => apply check_block_gas_ok in H as [-> Hblk]
    | H : check_fees _ _ _ = Ok _ |- _ => apply check_fees_ok in H as (-> & -> & Hcap & Hpri)
    | H : check_blobs _ _ _ _ = Ok _ |- _ => apply check_blobs_ok in H as (-> & Hblob)
    | H : check_sender _ _ _ _ = Ok _ |- _ => apply check_sender_ok in H as (-> & Hnon & bal & Hbal & Hle) end.
  cbn [fst snd] in *. split.
  - exists floor, (i64 z0). split_and!; [done|done|intros E; specialize (Hpr E); lia|]. intros E. by rewrite (Ham E).
  - lia.
  - exact Hblk.
  - done.
  - done.
  - intros E. rewrite (decide_True _ _ E) in Hblob. apply Hblob.
  - exists bal. split; [done|]. unfold blob_part. destruct (decide (type_ tx = Blob)); [destruct Hblob as [-> _]|rewrite Hblob in Hle]; exact Hle.
Qed.

(** ** Writes to a row *)

(** [d'] is [d] with one row changed: what the other reads see is kept. *)
Record row_set (i : nat) (f : Accounts.Row → Accounts.Row) (d d' : StateDB) : Prop := {
  row_env : tx_context_ d' = tx_context_ d ∧ StateDb.fork_id d' = StateDb.fork_id d ∧ tx_receipts_ d' = tx_receipts_ d
    ∧ tx_counter_ d' = tx_counter_ d ∧ Accounts.index_ (accounts (world d')) = Accounts.index_ (accounts (world d));
  row_old : ∃ r, Accounts.rows (accounts (world d)) !! i = Some r ∧
    Accounts.rows (accounts (world d')) = <[i := f r]> (Accounts.rows (accounts (world d))) }.

Lemma bal_write_rows i a a' : Accounts.bal_write_at i a = Ok a' → Accounts.rows a' = Accounts.rows a ∧ Accounts.index_ a' = Accounts.index_ a.
Proof. unfold Accounts.bal_write_at. intros H. destruct (Accounts.bal_ a); ok_inv; done. Qed.
Lemma upd_row_set (f : Accounts.Row → Accounts.Row) i a a' : (a ← Accounts.bal_write_at i a; Accounts.upd_row f i a) = Ok a' →
  Accounts.index_ a' = Accounts.index_ a ∧ ∃ r, Accounts.rows a !! i = Some r ∧ Accounts.rows a' = <[i := f r]> (Accounts.rows a).
Proof.
  intros H. ok_inv. match goal with H : Accounts.bal_write_at _ _ = Ok _ |- _ => apply bal_write_rows in H as [Hr Hi] end.
  unfold Accounts.upd_row, Accounts.row_at in *. ok_inv.
  match goal with H : vec_get _ _ = Ok _ |- _ => apply vec_get_Ok in H; rewrite Hr in H end.
  cbn. rewrite Hi, Hr. split; [done|]. eauto.
Qed.
Lemma set_balance_set i v d u d' : set_balance_idx i v d = Ok (u, d') → row_set i (Accounts.w_balance v (tx_counter_ d)) d d'.
Proof.
  intros H. apply bind_run in H as (t & s & [= <- <-] & H). apply acc_upd_run in H as (a & H & ->).
  apply upd_row_set in H as [Hi Hr]. split; [by split_and!|exact Hr].
Qed.
Lemma set_nonce_set i v d u d' : set_nonce_idx i v d = Ok (u, d') → row_set i (Accounts.w_nonce v (tx_counter_ d)) d d'.
Proof.
  intros H. apply bind_run in H as (t & s & [= <- <-] & H). apply acc_upd_run in H as (a & H & ->).
  apply upd_row_set in H as [Hi Hr]. split; [by split_and!|exact Hr].
Qed.

(** What is read of a row afterwards. *)
Definition balance_of (d : StateDB) (i : nat) : res Z := Accounts.balance_at i (accounts (world d)).
Definition nonce_of (d : StateDB) (i : nat) : res Z := Accounts.nonce_at i (accounts (world d)).
Lemma read_set {A} (g : Accounts.Row → A) i f d d' j : row_set i f d d' →
  (r ← vec_get (Accounts.rows (accounts (world d'))) j; Ok (g r)) =
  if decide (i = j) then (r ← vec_get (Accounts.rows (accounts (world d))) j; Ok (g (f r)))
  else (r ← vec_get (Accounts.rows (accounts (world d))) j; Ok (g r)).
Proof.
  intros [_ (r & Hr & ->)]. unfold vec_get. destruct (decide (i = j)) as [->|Hne].
  - rewrite list_lookup_insert_eq by (by eapply lookup_lt_Some). by rewrite Hr.
  - by rewrite list_lookup_insert_ne.
Qed.
Lemma balance_set i v t d d' j bal : row_set i (Accounts.w_balance v t) d d' → balance_of d j = Ok bal →
  balance_of d' j = Ok (if decide (i = j) then v else bal).
Proof.
  intros Hs Hb. unfold balance_of, Accounts.balance_at, Accounts.row_at in *. rewrite (read_set _ _ _ _ _ _ Hs).
  destruct (decide (i = j)); [|done]. ok_inv. match goal with H : vec_get _ _ = Ok _ |- _ => by rewrite H end.
Qed.
Lemma nonce_kept i v t d d' j : row_set i (Accounts.w_balance v t) d d' → nonce_of d' j = nonce_of d j.
Proof. intros Hs. unfold nonce_of, Accounts.nonce_at, Accounts.row_at. rewrite (read_set _ _ _ _ _ _ Hs). by case_decide. Qed.
Lemma balance_kept i v t d d' j : row_set i (Accounts.w_nonce v t) d d' → balance_of d' j = balance_of d j.
Proof. intros Hs. unfold balance_of, Accounts.balance_at, Accounts.row_at. rewrite (read_set _ _ _ _ _ _ Hs). by case_decide. Qed.
Lemma nonce_set i v t d d' j n : row_set i (Accounts.w_nonce v t) d d' → nonce_of d j = Ok n →
  nonce_of d' j = Ok (if decide (i = j) then v else n).
Proof.
  intros Hs Hb. unfold nonce_of, Accounts.nonce_at, Accounts.row_at in *. rewrite (read_set _ _ _ _ _ _ Hs).
  destruct (decide (i = j)); [|done]. ok_inv. match goal with H : vec_get _ _ = Ok _ |- _ => by rewrite H end.
Qed.
Lemma other_rows i f d d' j : row_set i f d d' → j ≠ i → balance_of d' j = balance_of d j ∧ nonce_of d' j = nonce_of d j.
Proof.
  intros Hs Hj. unfold balance_of, nonce_of, Accounts.balance_at, Accounts.nonce_at, Accounts.row_at.
  by rewrite !(read_set _ _ _ _ _ _ Hs), !decide_False.
Qed.

(** ** The upfront charge *)

(** The EIP-1559 price, in unbounded integers. *)
Definition spec_price (tx : View) : Z :=
  if has_gas_price (type_ tx) then gas_price_ tx else Z.min (fee_cap tx) (base_fee + priority_fee tx).

Lemma price_exact tx p : 0 ≤ base_fee → tx_ok tx → base_fee ≤ fee_cap tx → priority_fee tx ≤ fee_cap tx → fee_cap tx < 2 ^ 255 →
  effective_gas_price consensus tx = Ok p → p = spec_price tx ∧ base_fee ≤ p ≤ fee_cap tx.
Proof.
  intros H0 Hok Hb Hp Hc H. pose proof (ok_priority _ Hok). unfold effective_gas_price, spec_price, fee_cap, priority_fee, gas_price, max_priority_fee_per_gas, max_fee_per_gas in *.
  destruct (has_gas_price (type_ tx)); ok_inv; [lia|]. unfold u256. rewrite Z.mod_small by lia. destruct (Z.ltb_spec (base_fee + max_priority_fee_per_gas_ tx) (max_fee_per_gas_ tx)); lia.
Qed.

Definition spec_upfront (tx : View) (ctx : TxContext) : Z :=
  gas_limit_ tx * spec_price tx + blob_part tx ctx (blob_base_fee ctx).

Lemma blob_gas_nonneg n : 0 ≤ blob_gas n.
Proof. unfold blob_gas, u64. apply Z.mod_pos_bound. lia. Qed.
Lemma upfront_cost_exact tx ctx bal : tx_ok tx → tx_gas_price ctx = spec_price tx → 0 ≤ spec_price tx ≤ fee_cap tx → 0 ≤ blob_base_fee ctx →
  (type_ tx = Blob → blob_base_fee ctx ≤ max_fee_per_blob_gas_ tx) → bal < 2 ^ 256 →
  gas_limit_ tx * fee_cap tx + blob_part tx ctx (max_fee_per_blob_gas_ tx) + value_ tx ≤ bal →
  upfront_cost tx ctx = spec_upfront tx ctx ∧ 0 ≤ spec_upfront tx ctx ∧ spec_upfront tx ctx + value_ tx ≤ bal.
Proof.
  intros [_ Hg _ Hv _ _] Hp Hcap Hbf Hblob Hmax Hle. unfold upfront_cost, spec_upfront, blob_part in *. rewrite Hp.
  pose proof (blob_gas_nonneg (length (blob_hashes ctx))). unfold in_u64 in Hg.
  assert (0 ≤ gas_limit_ tx * spec_price tx ≤ gas_limit_ tx * fee_cap tx) by nia.
  destruct (decide (type_ tx = Blob)) as [E|]; [specialize (Hblob E)|unfold u256; rewrite Z.mod_small by lia; lia].
  assert (0 ≤ blob_gas (length (blob_hashes ctx)) * blob_base_fee ctx ≤ blob_gas (length (blob_hashes ctx)) * max_fee_per_blob_gas_ tx) by nia.
  unfold u256. rewrite (Z.mod_small (_ * spec_price tx)) by lia. rewrite (Z.mod_small (blob_gas _ * _)) by lia. rewrite Z.mod_small by lia. lia.
Qed.

(** The two writes after the checks. *)
Lemma charge_run tx idx (ig : Z) b r b' : (n ← host (acc (Accounts.nonce_at idx)); _ ← host (set_nonce_idx idx (u64 (n + 1)));
    ctx ← host (gets tx_context_); bal ← host (acc (Accounts.balance_at idx));
    _ ← host (set_balance_idx idx (u256 (bal - upfront_cost tx ctx))); mret ig) b = Ok (r, b') →
  r = ig ∧ ∃ n bal d t t', nonce_of (db b) idx = Ok n ∧ balance_of (db b) idx = Ok bal ∧
    row_set idx (Accounts.w_nonce (u64 (n + 1)) t) (db b) d ∧
    row_set idx (Accounts.w_balance (u256 (bal - upfront_cost tx (tx_context_ (db b)))) t') d (db b').
Proof.
  intros H. apply bindb_run in H as (n & b1 & H1 & H). apply host_pure_run in H1 as [H1 ->]; [|apply pure_acc]. apply acc_read in H1 as [H1 _].
  apply bindb_run in H as (u & b1 & H2 & H). apply host_run in H2 as (d & H2 & ->). apply set_nonce_set in H2.
  apply bindb_run in H as (ctx & b1 & H3 & H). apply host_pure_run in H3 as [[= <-] ->]; [|apply pure_gets].
  apply bindb_run in H as (bal & b1 & H4 & H). apply host_pure_run in H4 as [H4 ->]; [|apply pure_acc]. apply acc_read in H4 as [H4 _].
  apply bindb_run in H as (u' & b1 & H5 & [= <- <-]). apply host_run in H5 as (d' & H5 & ->). apply set_balance_set in H5.
  split; [done|]. exists n, bal, d. do 2 eexists. cbn [db put_db] in *. split_and!; [done| |exact H2|].
  - unfold balance_of in *. rewrite <- H4. symmetry. by eapply balance_kept.
  - destruct (row_env _ _ _ _ H2) as (Hc & _). rewrite Hc in H5. exact H5.
Qed.

(** C12.  The upfront charge of a transaction is exact.  When
    [apply_pre_evm_accounting] accepts a transaction whose effective price was put
    in the context, the price is the EIP-1559 price of unbounded arithmetic (the
    256-bit sum of base and priority fee did not wrap) and at least the base fee;
    the sender is charged exactly gas limit times price plus blob gas times blob
    base fee (no product, sum or subtraction wraps), keeps enough for the value
    it sends, has its nonce increased by one without overflow, no other account
    changes, and the intrinsic gas is covered by the gas limit. *)
Theorem upfront_exact tx idx b ig b' bal n :
  tx_ok tx → 0 ≤ base_fee → 0 ≤ blob_base_fee (tx_context_ (db b)) →
  effective_gas_price consensus tx = Ok (tx_gas_price (tx_context_ (db b))) →
  balance_of (db b) idx = Ok bal → bal < 2 ^ 256 → nonce_of (db b) idx = Ok n →
  apply_pre_evm_accounting build consensus tx idx b = Ok (ig, b') →
  tx_gas_price (tx_context_ (db b)) = spec_price tx ∧ base_fee ≤ spec_price tx ∧
  spec_upfront tx (tx_context_ (db b)) + value_ tx ≤ bal ∧
  balance_of (db b') idx = Ok (bal - spec_upfront tx (tx_context_ (db b))) ∧
  nonce_of (db b') idx = Ok (n + 1) ∧ n + 1 < 2 ^ 64 ∧
  (∀ j, j ≠ idx → balance_of (db b') j = balance_of (db b) j ∧ nonce_of (db b') j = nonce_of (db b) j) ∧
  ig ≤ gas_limit_ tx.
Proof.
  intros Hok H0 H0b Hprice Hbal Hmax Hn H. unfold apply_pre_evm_accounting in H.
  apply bindb_run in H as (ig' & b1 & Hck & H). apply check_transaction_ok in Hck; [|done].
  destruct Hck as [(floor & sgl & -> & _) Hig _ [Hnon Hnm] [Hcap Hpri] Hblob (bal' & Hbal' & Hle)].
  apply charge_run in H as (-> & n0 & bal0 & d & t & t' & Hn0 & Hb0 & Hs1 & Hs2). unfold balance_of, nonce_of in Hn0, Hb0, Hbal, Hn. cbn [db put_state_gas_limit put_floor] in *.
  assert (n0 = n ∧ nonce_ tx = n ∧ bal0 = bal ∧ bal' = bal) as (-> & En & -> & ->) by (split_and!; congruence).
  pose proof (ok_value _ Hok). pose proof (ok_nonce _ Hok) as Hn64. unfold in_u64 in Hn64. pose proof (ok_cap _ Hok).
  assert (0 ≤ blob_part tx (tx_context_ (db b)) (max_fee_per_blob_gas_ tx)).
  { unfold blob_part. case_decide as E; [|lia]. pose proof (blob_gas_nonneg (length (blob_hashes (tx_context_ (db b))))). specialize (Hblob E). nia. }
  destruct (price_exact tx _ H0 Hok Hcap Hpri ltac:(nia) Hprice) as (Ep & Hlo & Hhi). rewrite Ep in *.
  destruct (upfront_cost_exact tx _ bal Hok Ep ltac:(lia) H0b Hblob Hmax Hle) as (Eu & Hu0 & Hub). rewrite Eu in Hs2.
  unfold UINT64_MAX, u64, u256 in *. rewrite En in *. rewrite Z.mod_small in Hs1, Hs2 by lia.
  split_and!; [done|done|done| | |lia| |lia].
  - erewrite balance_set; [|exact Hs2|erewrite balance_kept; [exact Hbal|exact Hs1]]. by rewrite decide_True.
  - erewrite nonce_kept; [|exact Hs2]. erewrite nonce_set; [|exact Hs1|exact Hn]. by rewrite decide_True.
  - intros j Hj. destruct (other_rows _ _ _ _ j Hs2 Hj) as [-> ->]. by apply (other_rows _ _ _ _ j Hs1).
Qed.

(** ** Settlement *)

Lemma gas_used_bounds (london prague : bool) floor gl left refund :
  0 ≤ left ≤ gl → 0 ≤ refund → (prague = true → floor ≤ gl) →
  0 ≤ tx_gas_used london prague floor gl left refund ≤ gl ∧
  (prague = true → floor ≤ tx_gas_used london prague floor gl left refund) ∧
  (tx_gas_used london prague floor gl left refund < gl - left →
   gl - left - tx_gas_used london prague floor gl left refund ≤ (gl - left) / (if london then 5 else 2)).
Proof.
  intros Hl Hr Hf. unfold tx_gas_used, capped_refund. rewrite Z.quot_div_nonneg by (destruct london; lia).
  assert (0 ≤ (gl - left) / (if london then 5 else 2) ≤ gl - left) by (destruct london; (split; [apply Z.div_pos; lia|apply Z.div_le_upper_bound; lia])).
  set (q := (gl - left) / _) in *. clearbody q. destruct prague; cbn [andb]; [specialize (Hf eq_refl)|]; try goal_if; rewrite ?Z.ltb_lt, ?Z.ltb_ge in *; lia.
Qed.

Lemma credit_run i amount d u d' : credit i amount d = Ok (u, d') → ∃ bal t, balance_of d i = Ok bal ∧
  row_set i (Accounts.w_balance (u256 (bal + amount)) t) d d'.
Proof.
  intros H. apply bind_run in H as (bal & s & H1 & H). apply acc_read in H1 as [H1 ->]. apply set_balance_set in H. eauto.
Qed.
Lemma credit_balance i amount d u d' j bal : credit i amount d = Ok (u, d') → balance_of d j = Ok bal →
  (j = i → 0 ≤ bal + amount < 2 ^ 256) → balance_of d' j = Ok (bal + if decide (j = i) then amount else 0).
Proof.
  intros (bal0 & t & Hb & Hs)%credit_run Hj Hlt. rewrite (balance_set _ _ _ _ _ _ _ Hs Hj).
  destruct (decide (j = i)) as [->|Hne]; [rewrite decide_True by done|rewrite decide_False by done; f_equal; lia].
  assert (bal0 = bal) as -> by congruence. unfold u256. by rewrite Z.mod_small by auto.
Qed.

(** The run of the settlement. *)
Lemma settle_run tx r idx auth_refund b used b' : settle_tx_gas consensus tx r idx auth_refund b = Ok (used, b') →
  let gl := i64 (gas_limit_ tx) in
  let left := gas_left r + sg_left (StateDb.state_gas r) in
  let gas_used := tx_gas_used (since EVMC_LONDON (db b)) (since EVMC_PRAGUE (db b)) (tx_floor_gas_ b) gl left (gas_refund r + auth_refund) in
  let price := tx_gas_price (tx_context_ (db b)) in
  used = block_gas_used (amsterdam (db b)) (tx_floor_gas_ b) (tx_state_gas_limit_ b) (gl - left) gas_used (StateDb.state_gas r) ∧
  ∃ d1 d2 ci u u', credit idx (u256 (u64 (gl - gas_used) * price)) (db b) = Ok (u, d1) ∧
    Accounts.index_of (Consensus.beneficiary consensus) (accounts (world (db b))) = Ok ci ∧
    credit ci (u256 (u64 gas_used * (if base_fee <? price then price - base_fee else 0))) d1 = Ok (u', d2) ∧ b' = put_db d2 b.
Proof.
  unfold settle_tx_gas. intros H. cbn beta zeta in H |- *.
  do 5 (apply bindb_run in H as (? & ? & ?E & H)).
  repeat match goal with E : host ?m _ = Ok _ |- _ => apply host_pure_run in E as [?E ->]; [|auto with pure]
    | E : getb _ _ = Ok _ |- _ => apply getb_run in E as [-> ->] end.
  repeat match goal with E : is_amsterdam_or_later _ = Ok _ |- _ => injection E as <-
    | E : is_london_or_later _ = Ok _ |- _ => injection E as <- | E : is_prague_or_later _ = Ok _ |- _ => injection E as <- end.
  apply bindb_run in H as (ctx & b1 & H1 & H). apply host_pure_run in H1 as [[= <-] ->]; [|apply pure_gets].
  apply bindb_run in H as (u & b1 & H1 & H). apply host_run in H1 as (d1 & H1 & ->).
  apply bindb_run in H as (ci & b1 & H2 & H). apply host_pure_run in H2 as [H2 ->]; [|apply pure_acc]. apply acc_read in H2 as [H2 _].
  apply bindb_run in H as (u' & b1 & H3 & [= <- <-]). apply host_run in H3 as (d2 & H3 & ->).
  split; [done|]. exists d1, d2, ci, u, u'. cbn [db put_db] in *. split_and!; [exact H1| |exact H3|done].
  apply credit_run in H1 as (? & ? & _ & [(_ & _ & _ & _ & Hi) _]). unfold Accounts.index_of in *. by rewrite <- Hi.
Qed.
(** The gas figures a settlement can rely on. *)
Record settles (tx : View) (r : Result) (auth_refund : Z) (b : Block) : Prop := {
  st_limit : 0 ≤ gas_limit_ tx < 2 ^ 63;
  st_left : 0 ≤ gas_left r + sg_left (StateDb.state_gas r) ≤ gas_limit_ tx;
  st_refund : 0 ≤ gas_refund r + auth_refund;
  st_floor : since EVMC_PRAGUE (db b) = true → tx_floor_gas_ b ≤ gas_limit_ tx }.

Lemma settle_gas tx r idx auth_refund b used b' : settles tx r auth_refund b → settle_tx_gas consensus tx r idx auth_refund b = Ok (used, b') →
  0 ≤ used_gas used ≤ gas_limit_ tx ∧ (since EVMC_PRAGUE (db b) = true → tx_floor_gas_ b ≤ used_gas used) ∧
  (let spent := gas_limit_ tx - (gas_left r + sg_left (StateDb.state_gas r)) in
   used_gas used < spent → spent - used_gas used ≤ spent / (if since EVMC_LONDON (db b) then 5 else 2)) ∧
  (amsterdam (db b) = false → used = mkTxGasUsed (used_gas used) (used_gas used) 0).
Proof.
  intros [Hl Hle Hr Hf] (-> & _)%settle_run. unfold i64. rewrite Z.mod_small, Z.add_simpl_r by lia.
  destruct (gas_used_bounds (since EVMC_LONDON (db b)) (since EVMC_PRAGUE (db b)) (tx_floor_gas_ b) (gas_limit_ tx)
    (gas_left r + sg_left (StateDb.state_gas r)) (gas_refund r + auth_refund) Hle Hr Hf) as (H1 & H2 & H3).
  set (g := tx_gas_used _ _ _ _ _ _) in *.
  assert (Eu : used_gas (block_gas_used (amsterdam (db b)) (tx_floor_gas_ b) (tx_state_gas_limit_ b)
    (gas_limit_ tx - (gas_left r + sg_left (StateDb.state_gas r))) g (StateDb.state_gas r)) = g).
  { unfold block_gas_used, u64. goal_if; cbn [used_gas]; rewrite Z.mod_small by lia; done. }
  rewrite Eu. split_and!; [lia..|done|done|]. intros E. unfold block_gas_used. rewrite E. unfold u64. by rewrite Z.mod_small by lia.
Qed.

(** C11.  The settlement of a transaction is exact.  With a result that keeps
    within the gas given (gas left and reservoir at most the gas limit, refunds
    not negative) and balances below the wrap-around, the gas charged lies
    between the EIP-7623 floor (from Prague on) and the gas limit, the refund is
    at most a fifth (before London a half) of the gas spent, the sender gets back
    exactly the unused gas at its price, the coinbase exactly the gas used at the
    price above the base fee, and no other balance changes: of what was charged up
    front, gas used times base fee is burned and nothing is created. *)
Theorem settlement_exact tx r idx auth_refund b used b' ci :
  settles tx r auth_refund b → 0 ≤ base_fee ≤ tx_gas_price (tx_context_ (db b)) →
  (∀ j bal, balance_of (db b) j = Ok bal → 0 ≤ bal ∧ bal + gas_limit_ tx * tx_gas_price (tx_context_ (db b)) < 2 ^ 256) →
  Accounts.index_of (Consensus.beneficiary consensus) (accounts (world (db b))) = Ok ci →
  settle_tx_gas consensus tx r idx auth_refund b = Ok (used, b') →
  0 ≤ used_gas used ≤ gas_limit_ tx ∧ (since EVMC_PRAGUE (db b) = true → tx_floor_gas_ b ≤ used_gas used) ∧
  (let spent := gas_limit_ tx - (gas_left r + sg_left (StateDb.state_gas r)) in
   used_gas used < spent → spent - used_gas used ≤ spent / (if since EVMC_LONDON (db b) then 5 else 2)) ∧
  ∀ j bal, balance_of (db b) j = Ok bal →
    balance_of (db b') j =
      Ok (bal + (if decide (j = idx) then (gas_limit_ tx - used_gas used) * tx_gas_price (tx_context_ (db b)) else 0)
              + (if decide (j = ci) then used_gas used * (tx_gas_price (tx_context_ (db b)) - base_fee) else 0)).
Proof.
  intros Hset Hp Hbals Hci H. destruct (settle_gas _ _ _ _ _ _ _ Hset H) as (Hu & Hfl & Href & _).
  split; [done|]. split; [done|]. split; [done|]. intros j bal Hj. destruct Hset as [Hl Hle Hr Hf].
  apply settle_run in H as (Eu & d1 & d2 & ci' & u & u' & H1 & Hci' & H2 & ->). assert (ci' = ci) as -> by congruence.
  assert (Hi64 : i64 (gas_limit_ tx) = gas_limit_ tx) by (unfold i64; rewrite Z.mod_small by lia; lia). rewrite Hi64 in *.
  destruct (gas_used_bounds (since EVMC_LONDON (db b)) (since EVMC_PRAGUE (db b)) (tx_floor_gas_ b) (gas_limit_ tx)
    (gas_left r + sg_left (StateDb.state_gas r)) (gas_refund r + auth_refund) Hle Hr Hf) as (Hg & _).
  set (g := tx_gas_used _ _ _ _ _ _) in *. set (price := tx_gas_price _) in *.
  assert (Eg : used_gas used = g) by (rewrite Eu; unfold block_gas_used, u64; goal_if; cbn [used_gas]; apply Z.mod_small; lia).
  rewrite Eg. destruct (Hbals j bal Hj) as [Hb0 Hb1].
  replace (if base_fee <? price then price - base_fee else 0) with (price - base_fee) in H2 by (destruct (Z.ltb_spec base_fee price); lia).
  assert (0 ≤ (gas_limit_ tx - g) * price ∧ 0 ≤ g * (price - base_fee) ∧ (gas_limit_ tx - g) * price + g * (price - base_fee) ≤ gas_limit_ tx * price)
    as (Hx & Hy & Hxy) by (clearbody price g; nia).
  unfold u64, u256 in H1, H2. rewrite (Z.mod_small (gas_limit_ tx - g)), Z.mod_small in H1 by lia.
  rewrite (Z.mod_small g), Z.mod_small in H2 by lia.
  cbn [db put_db]. rewrite (credit_balance _ _ _ _ _ j _ H2 (credit_balance _ _ _ _ _ j _ H1 Hj ltac:(intros _; lia))); [done|]. intros _. case_decide; lia.
Qed.
End Gas.

(** ** A sample transaction *)

Lemma call_tx_ok n : in_u64 n → tx_ok (call_tx n).
Proof. intros Hn. split; [split| |exact Hn|..]; unfold in_u64, fee_cap, priority_fee, len; cbn -[Z.pow]; lia. Qed.

Abbreviation accounting := (apply_pre_evm_accounting Consensus.mainnet Consensus.sample_block (call_tx 5) 0 block1).
Lemma upfront_exact_witness : balance_of (db (outcome 0 accounting).2) 0 = Ok (10 ^ 18 - 50000 * (3 * 10 ^ 9)) ∧
  nonce_of (db (outcome 0 accounting).2) 0 = Ok 6.
Proof.
  destruct (upfront_exact Consensus.mainnet Consensus.sample_block (call_tx 5) 0 block1 (outcome 0 accounting).1 (outcome 0 accounting).2 (10 ^ 18) 5)
    as (Ep & _ & _ & Hb & Hn & _).
  - by apply call_tx_ok.
  - by vm_compute.
  - by vm_compute.
  - by vm_compute.
  - by vm_compute.
  - by vm_compute.
  - by vm_compute.
  - by vm_compute.
  - split; [rewrite Hb; by vm_compute|exact Hn].
Defined.

Definition sample_result : Result := mkResult SUCCESS 28000 4800 [] (mkStateGas 0 0).
Abbreviation settled := (settle_tx_gas Consensus.sample_block (call_tx 5) sample_result 0 0 block1).
Lemma settlement_exact_witness : (21040 ≤ used_gas (outcome (mkTxGasUsed 0 0 0) settled).1 ≤ 50000) ∧
  balance_of (db (outcome (mkTxGasUsed 0 0 0) settled).2) 2 = Ok (7 + 21040 * (3 * 10 ^ 9 - 1041666666)).
Proof.
  destruct (settlement_exact Consensus.sample_block (call_tx 5) sample_result 0 0 block1 (outcome (mkTxGasUsed 0 0 0) settled).1
    (outcome (mkTxGasUsed 0 0 0) settled).2 2) as (Hu & Hf & _ & Hb).
  - split; by vm_compute.
  - split; by vm_compute.
  - intros [|[|[|j]]] bal H; vm_compute in H; [injection H as <-..|done]; split; by vm_compute.
  - by vm_compute.
  - by vm_compute.
  - split; [split; [by apply Hf|apply Hu]|]. rewrite (Hb 2%nat 7 eq_refl). by vm_compute.
Defined.
End BlockGas.
