(* ===== verification/BlockLimit.v ===== *)
(** The block's gas stays within its limit: the transaction loop preserves the
    invariant of its counters, whatever the transactions do, as long as their frames
    return no more gas than they got and no negative refund counter. *)

From stdpp Require Import base numbers list strings gmap.
From S2P Require Import Prelude Fork Rlp Receipt Contracts Chain CreateAddress Bal EvmMem Accounts Storages Transient Journal StateDb HostProofs U256 Zevm Mpt Transactions Consensus IntrinsicGas BalEncode Block Sample BlockSample BlockGas.

Set Default Goal Selector "!".

Module BlockLimit.
Import Rlp Receipt Bloom Fork Journal StateDb HostProofs Transactions IntrinsicGas Block Sample BlockSample BlockGas.

(** ** The fork is fixed *)

Definition keeps_fork {A} (m : M A) : Prop := ∀ s a s', m s = Ok (a, s') → StateDb.fork_id s' = StateDb.fork_id s.

Lemma kf_bind {A C} (m : M A) (k : A → M C) : keeps_fork m → (∀ a, keeps_fork (k a)) → keeps_fork (m ≫= k).
Proof. intros Hm Hk s c s' H. apply bind_run in H as (a & s1 & H1 & H2). by rewrite (Hk _ _ _ _ H2), (Hm _ _ _ H1). Qed.
Lemma kf_pure {A} (m : M A) : pure m → keeps_fork m.
Proof. intros Hm s a s' H. by rewrite (Hm _ _ _ H). Qed.
Lemma kf_ret {A} (a : A) : keeps_fork (mret a).
Proof. by intros s x s' [= _ <-]. Qed.
Lemma kf_modify f : (∀ s, StateDb.fork_id (f s) = StateDb.fork_id s) → keeps_fork (modify f).
Proof. intros Hf s a s' [= _ <-]. apply Hf. Qed.
Lemma kf_fatal {A} e : keeps_fork (fatal (A := A) e).
Proof. by intros s a s' [=]. Qed.
Lemma kf_acc_upd f : keeps_fork (acc_upd f).
Proof. intros s a s' H. by apply acc_upd_run in H as (x & _ & ->). Qed.
Lemma kf_sto_upd f : keeps_fork (sto_upd f).
Proof. intros s a s' H. by apply sto_upd_run in H as (x & _ & ->). Qed.
Lemma kf_acc_run {A} (f : Accounts.Accounts → res (A * Accounts.Accounts)) : keeps_fork (acc_run f).
Proof. intros s a s' H. unfold acc_run in H. destruct (f _) as [[]|]; by simplify_eq/=. Qed.
Lemma kf_bal_run {A} (f : Bal.BlockAccessList → res (A * Bal.BlockAccessList)) : keeps_fork (bal_run f).
Proof. intros s a s' H. unfold bal_run in H. destruct (Accounts.bal_ _) as [x|]; [|done]. destruct (f x) as [[]|]; by simplify_eq/=. Qed.
Lemma kf_find a k : keeps_fork (storages_find a k).
Proof. intros s x s' H. unfold storages_find in H. destruct (Storages.find _ _ _). by simplify_eq/=. Qed.
Lemma kf_checkpoint : keeps_fork checkpoint.
Proof. intros s x s' H. unfold checkpoint in H. destruct (Journal.checkpoint _). by simplify_eq/=. Qed.
Lemma kf_rollback cp : keeps_fork (rollback cp).
Proof. intros s x s' H. unfold rollback in H. destruct (Journal.rollback _ _ _) as [[]|]; by simplify_eq/=. Qed.
Lemma kf_each_item f : (∀ i, keeps_fork (f i)) → ∀ fuel it, keeps_fork (each_item f fuel it).
Proof.
  intros Hf fuel. induction fuel as [|fuel IH]; intros it; cbn [each_item]; [apply kf_ret|]. destruct (has_next it); [|apply kf_ret].
  apply kf_bind; [apply kf_pure, pure_lift|]. intros [i it']. apply kf_bind; [apply Hf|]. intros _. apply IH.
Qed.
Lemma kf_for_all f l : (∀ i, keeps_fork (f i)) → keeps_fork (for_all f l).
Proof. intros Hf. induction l as [|i l IH]; [apply kf_ret|]. cbn [for_all]. apply kf_bind; [apply Hf|done]. Qed.

Create HintDb keeps_fork discriminated.
#[export] Hint Resolve kf_ret kf_fatal kf_acc_upd kf_sto_upd kf_acc_run kf_bal_run kf_find kf_checkpoint kf_rollback : keeps_fork.
#[export] Hint Extern 1 (keeps_fork (gets _)) => apply kf_pure, pure_gets : keeps_fork.
#[export] Hint Extern 1 (keeps_fork (acc _)) => apply kf_pure, pure_acc : keeps_fork.
#[export] Hint Extern 1 (keeps_fork (sto _)) => apply kf_pure, pure_sto : keeps_fork.
#[export] Hint Extern 1 (keeps_fork (lift _)) => apply kf_pure, pure_lift : keeps_fork.

Ltac head_of t := lazymatch t with ?f _ => head_of f | _ => t end.
Ltac kf_step :=
  cbv beta zeta;
  first [ solve [auto with keeps_fork]
        | lazymatch goal with
          | |- keeps_fork (mbind _ _) => apply kf_bind; [|intros ?]
          | |- keeps_fork (modify _) => apply kf_modify; intros; reflexivity
          | |- keeps_fork (each_item _ _ _) => apply kf_each_item; intros ?
          | |- keeps_fork (for_all _ _) => apply kf_for_all; intros ?
          | |- keeps_fork (match ?x with _ => _ end) => destruct x
          | |- keeps_fork ?m => let h := head_of m in unfold h
          end ].
Ltac kf := repeat kf_step.

Lemma kf_transfer f t v : keeps_fork (transfer_value f t v).
Proof. kf. Qed.
Lemma kf_pending_destructs : keeps_fork apply_pending_destructs.
Proof. kf. Qed.
(** What the loop relies on every VM for: it leaves the fork alone. *)
Class FixedFork (vm : message → bytes → M Result) : Prop := fixed_fork msg c : keeps_fork (vm msg c).

(** ** Results before Amsterdam *)

(** Before Amsterdam, every result of [m] is in [P]. *)
Definition gives {A} (m : M A) (P : A → Prop) : Prop := ∀ s a s', amsterdam s = false → m s = Ok (a, s') → P a.
Lemma gives_bind {A C} (m : M A) (k : A → M C) Q P : keeps_fork m → gives m Q → (∀ a, Q a → gives (k a) P) → gives (m ≫= k) P.
Proof.
  intros Hf Hm Hk s c s' Ha H. apply bind_run in H as (a & s1 & H1 & H2). apply (Hk a (Hm _ _ _ Ha H1) s1 c s'); [|done].
  unfold amsterdam. by rewrite (Hf _ _ _ H1).
Qed.
Lemma gives_skip {A C} (m : M A) (k : A → M C) P : keeps_fork m → (∀ a, gives (k a) P) → gives (m ≫= k) P.
Proof. intros Hf Hk. apply (gives_bind m k (λ _, True)); [done|by intros ????|]. intros a _. apply Hk. Qed.
Lemma gives_ret {A} (a : A) (P : A → Prop) : P a → gives (mret a) P.
Proof. by intros HP s x s' _ [= <- <-]. Qed.
Lemma gives_amsterdam {C} (k : bool → M C) P : gives (k false) P → gives (is_amsterdam_or_later ≫= k) P.
Proof. intros Hk s c s' Ha H. apply bind_run in H as (a & s1 & [= <- <-] & H2). unfold amsterdam in Ha. rewrite Ha in H2. by apply (Hk s c s'). Qed.

Section Limit.
Context (keccak256 : bytes → Z).
Context (is_precompile : revision → Z → bool).
Context (call_precompile : revision → message → Result).
Context (ecrecover_address : Z → Z → Z → Z → option Z).
Context (state_gas_charge : StateGas → Z → Z → option (Z * StateGas)).
Context (state_gas_refill : StateGas → Z → Z → Z * StateGas).
Context (COST_PER_STATE_BYTE NEW_ACCOUNT_STATE_GAS : Z).
Context (vm : message → bytes → M Result) {HF : FixedFork vm}.
Context (build : Consensus.Build) (consensus : Consensus.ConsensusInfo).

Lemma kf_vm msg c : keeps_fork (vm msg c).
Proof. apply HF. Qed.
#[local] Hint Resolve kf_vm : keeps_fork.
Lemma kf_run_frame msg c : keeps_fork (run_frame vm msg c).
Proof. kf. Qed.

Abbreviation top_level_create := (Block.top_level_create keccak256 state_gas_charge COST_PER_STATE_BYTE vm).
Abbreviation top_level_call := (Block.top_level_call is_precompile call_precompile ecrecover_address vm).
Abbreviation execute_top_level_frame := (Block.execute_top_level_frame keccak256 is_precompile call_precompile ecrecover_address
  state_gas_charge state_gas_refill COST_PER_STATE_BYTE NEW_ACCOUNT_STATE_GAS vm).
Abbreviation apply_authorization_list := (Block.apply_authorization_list keccak256 ecrecover_address state_gas_charge
  COST_PER_STATE_BYTE NEW_ACCOUNT_STATE_GAS build).
Abbreviation process_single_authorization := (Block.process_single_authorization keccak256 ecrecover_address state_gas_charge
  COST_PER_STATE_BYTE NEW_ACCOUNT_STATE_GAS build).
Abbreviation authorizations := (Block.authorizations keccak256 ecrecover_address state_gas_charge
  COST_PER_STATE_BYTE NEW_ACCOUNT_STATE_GAS build).

Lemma kf_create tx idx g sg : keeps_fork (top_level_create tx idx g sg).
Proof. kf. Qed.
Lemma kf_call tx to g sg : keeps_fork (top_level_call tx to g sg).
Proof. kf. Qed.
#[local] Hint Resolve kf_create kf_call : keeps_fork.
Lemma kf_frame tx idx sgl g : keeps_fork (execute_top_level_frame tx idx sgl g).
Proof. kf. Qed.

(** Before Amsterdam there is no state-gas reservoir. *)
Definition plain (gas : Z) : TxGas := mkTxGas gas (mkStateGas 0 0) false.

Lemma authorization_plain item g : gives (process_single_authorization item None g) (λ r, 0 ≤ r.1.1 ∧ r.1.2 = None ∧ r.2 = g).
Proof.
  unfold Block.process_single_authorization. apply gives_skip; [kf|]. intros a. destruct (auth_signer _ _ _ a); [|by apply gives_ret].
  do 6 (apply gives_skip; [kf|]; intros ?). cbn [fmap option_fmap option_map]. destruct (negb _); [by apply gives_ret|].
  apply gives_skip; [kf|]. intros w. apply gives_ret. cbn. by destruct w.
Qed.
Lemma kf_authorization item ch g : keeps_fork (process_single_authorization item ch g).
Proof. kf. Qed.
#[local] Hint Resolve kf_authorization : keeps_fork.
Lemma kf_authorizations fuel it refund ch g : keeps_fork (authorizations fuel it refund ch g).
Proof.
  revert it refund ch g. induction fuel as [|fuel IH]; intros it refund ch g; cbn [Block.authorizations]; [apply kf_ret|].
  destruct (has_next it); [|apply kf_ret]. apply kf_bind; [kf|]. intros [item it']. apply kf_bind; [kf|]. intros _.
  apply kf_bind; [kf|]. intros [[r ch'] g']. destruct (runtime_oog g'); [apply kf_ret|apply IH].
Qed.
#[local] Hint Resolve kf_authorizations : keeps_fork.
Lemma kf_authorization_list tx idx g : keeps_fork (apply_authorization_list tx idx g).
Proof. kf. Qed.
Lemma authorizations_plain g : runtime_oog g = false → ∀ fuel it refund, 0 ≤ refund →
  gives (authorizations fuel it refund None g) (λ r, 0 ≤ r.1 ∧ r.2 = g).
Proof.
  intros Ho fuel. induction fuel as [|fuel IH]; intros it refund Hr; cbn [Block.authorizations]; [by apply gives_ret|].
  destruct (has_next it); [|by apply gives_ret]. apply gives_skip; [kf|]. intros [item it']. apply gives_skip; [kf|]. intros _.
  eapply gives_bind; [apply kf_authorization|apply authorization_plain|]. intros [[r ch] g'] (H1 & H2 & H3). cbn [fst snd] in *. subst.
  rewrite Ho. apply IH. lia.
Qed.
Lemma authorization_list_plain tx idx g : runtime_oog g = false → gives (apply_authorization_list tx idx g) (λ r, 0 ≤ r.1 ∧ r.2 = g).
Proof.
  intros Ho. unfold Block.apply_authorization_list. destruct (negb _); [by apply gives_ret|]. apply gives_amsterdam.
  apply (gives_bind _ _ (λ c, c = None)); [kf|by apply gives_ret|]. intros c ->. do 3 (apply gives_skip; [kf|]; intros ?).
  by apply authorizations_plain.
Qed.

(** ** The counters of a block *)

(** Only the host state moved, at the same fork. *)
Definition frozen (b b' : Block) : Prop := ∃ d, b' = put_db d b ∧ StateDb.fork_id d = StateDb.fork_id (db b).
Lemma frozen_trans b1 b2 b3 : frozen b1 b2 → frozen b2 b3 → frozen b1 b3.
Proof. intros (d & -> & Hd) (d' & -> & Hd'). exists d'. split; [done|]. by rewrite Hd'. Qed.
Lemma host_frozen {A} (m : M A) b a b' : keeps_fork m → host m b = Ok (a, b') → frozen b b'.
Proof. intros Hm (d & H & ->)%host_run. exists d. split; [done|]. by apply Hm in H. Qed.
Lemma host_gives {A} (m : M A) P b a b' : keeps_fork m → gives m P → amsterdam (db b) = false → host m b = Ok (a, b') → P a ∧ frozen b b'.
Proof. intros Hm HP Ha H. split; [|by eapply host_frozen]. apply host_run in H as (d & H & _). by eapply HP. Qed.
Lemma frozen_amsterdam b b' : frozen b b' → amsterdam (db b') = amsterdam (db b).
Proof. intros (d & -> & Hd). unfold amsterdam. cbn. by rewrite Hd. Qed.

Abbreviation run_tx := (Block.run_tx keccak256 is_precompile call_precompile ecrecover_address state_gas_charge state_gas_refill
  COST_PER_STATE_BYTE NEW_ACCOUNT_STATE_GAS vm build).
(** Running a transaction: the refund of its authorizations is not negative, and
    nothing but the host state moves. *)
Lemma run_tx_refund tx idx ig b r a b' : tx_state_gas_limit_ b = 0 → amsterdam (db b) = false →
  run_tx tx idx ig b = Ok ((r, a), b') → 0 ≤ a ∧ frozen b b'.
Proof.
  intros Hz Ha H. unfold Block.run_tx in H. apply bindb_run in H as (sgl & b0 & [-> ->]%getb_run & H). cbv zeta in H. rewrite Hz in H.
  apply bindb_run in H as (cp & b1 & F1%host_frozen & H); [|kf].
  apply bindb_run in H as ([ar g] & b2 & H2 & H). rewrite <- (frozen_amsterdam _ _ F1) in Ha.
  apply (host_gives _ _ _ _ _ (kf_authorization_list _ _ _) (authorization_list_plain tx idx (plain _) eq_refl) Ha) in H2 as [[Har Hg] F2]. cbn [fst snd] in *. subst g.
  apply bindb_run in H as (cp' & b3 & F3%host_frozen & H); [|kf]. apply bindb_run in H as ([r' oog] & b4 & H4%host_frozen & H); [|apply kf_frame].
  apply bindb_run in H as (u & b5 & H5 & [= -> -> <-]). split; [exact Har|].
  do 4 (eapply frozen_trans; [eassumption|]). destruct oog; [by apply host_frozen in H5; [|kf]|].
  unfold whenb in H5. destruct (negb _); [by apply host_frozen in H5; [|kf]|]. injection H5 as _ <-. exists (db b4). by rewrite put_db_same.
Qed.

(** The block's totals and the fork. *)
Definition totals (b : Block) : Z * Z * Z * Z :=
  (StateDb.fork_id (db b), cumulative_gas_used_ b, block_regular_gas_used_ b, block_state_gas_used_ b).
Lemma frozen_totals b b' : frozen b b' → totals b' = totals b.
Proof. intros (d & -> & Hd). unfold totals. cbn. by rewrite Hd. Qed.

Lemma context_totals tx b c b' : build_per_tx_context consensus tx b = Ok (c, b') → totals b' = totals b.
Proof. unfold build_per_tx_context. intros H. b_inv. destruct (decide _); b_inv; done. Qed.
Lemma settle_frozen tx r idx auth_refund b used b' : settle_tx_gas consensus tx r idx auth_refund b = Ok (used, b') → frozen b b'.
Proof.
  intros (_ & d1 & d2 & ci & u & u' & H1 & _ & H2 & ->)%settle_run. exists d2. split; [done|].
  apply credit_run in H1 as (? & ? & _ & [(_ & H1 & _) _]). apply credit_run in H2 as (? & ? & _ & [(_ & H2 & _) _]). congruence.
Qed.
Lemma finalize_totals r used b u b' : finalize_receipt keccak256 r used b = Ok (u, b') →
  totals b' = (StateDb.fork_id (db b), u64 (cumulative_gas_used_ b + used_gas used), u64 (block_regular_gas_used_ b + used_regular used),
               u64 (block_state_gas_used_ b + used_state used)).
Proof.
  unfold finalize_receipt. intros H. apply bindb_run in H as (rs & b1 & [[= <-] ->]%host_pure_run & H); [|apply pure_gets].
  destruct (last _); [|done]. apply bindb_run in H as (bloom & b1 & [_ ->]%liftb_run & H). apply bindb_run in H as (? & b1 & ->%modb_run & H).
  apply bindb_run in H as (c & b1 & [-> ->]%getb_run & H). apply host_run in H as (d & [= _ <-] & ->). done.
Qed.

(** What the accounting leaves for the run. *)
Lemma accounting_ok tx idx b ig b' : tx_ok tx → amsterdam (db b) = false → apply_pre_evm_accounting build consensus tx idx b = Ok (ig, b') →
  totals b' = totals b ∧ tx_state_gas_limit_ b' = 0 ∧ 0 ≤ ig ≤ gas_limit_ tx ∧ (since EVMC_PRAGUE (db b') = true → tx_floor_gas_ b' ≤ gas_limit_ tx) ∧
  gas_limit_ tx ≤ u64 (Consensus.gas_limit consensus - cumulative_gas_used_ b).
Proof.
  intros Hok Ha H. unfold apply_pre_evm_accounting in H. apply bindb_run in H as (ig' & b1 & H1 & H). apply check_transaction_ok in H1; [|done].
  destruct H1 as [(floor & sgl & -> & Hf & Hp & Hs) Hig Hb _ _ _ _].
  apply bindb_run in H as (n & b2 & F1%host_frozen & H); [|kf]. apply bindb_run in H as (u1 & b3 & F2%host_frozen & H); [|kf].
  apply bindb_run in H as (ctx & b4 & F3%host_frozen & H); [|kf]. apply bindb_run in H as (bal & b5 & F4%host_frozen & H); [|kf].
  apply bindb_run in H as (u2 & b6 & F5%host_frozen & [= <- <-]); [|kf].
  assert (F : frozen (put_state_gas_limit sgl (put_floor floor b)) b6) by (do 4 (eapply frozen_trans; [eassumption|]); done).
  destruct F as (d & -> & Hd). cbn in Hd. unfold totals, since. cbn. rewrite Hd. split_and!; [done|by apply Hs|lia|lia|exact Hp|by apply Hb].
Qed.
(** The invariant of the transaction loop before Amsterdam. *)
Record within_limit (b : Block) : Prop := {
  wl_fork : amsterdam (db b) = false;
  wl_regular : block_regular_gas_used_ b = cumulative_gas_used_ b;
  wl_state : block_state_gas_used_ b = 0;
  wl_limit : 0 ≤ cumulative_gas_used_ b ≤ Consensus.gas_limit consensus }.
Lemma within_totals b b' : totals b' = totals b → within_limit b → within_limit b'.
Proof. intros [= H1 H2 H3 H4] [W1 W2 W3 W4]. split; [unfold amsterdam; by rewrite H1|congruence..|by rewrite H2]. Qed.

Abbreviation process_transaction := (Block.process_transaction keccak256 is_precompile call_precompile ecrecover_address
  state_gas_charge state_gas_refill COST_PER_STATE_BYTE NEW_ACCOUNT_STATE_GAS vm build consensus).
Abbreviation process_transactions := (Block.process_transactions keccak256 is_precompile call_precompile ecrecover_address
  state_gas_charge state_gas_refill COST_PER_STATE_BYTE NEW_ACCOUNT_STATE_GAS vm build consensus).
Abbreviation process_from := (Block.process_from keccak256 is_precompile call_precompile ecrecover_address
  state_gas_charge state_gas_refill COST_PER_STATE_BYTE NEW_ACCOUNT_STATE_GAS vm build consensus).
Abbreviation limit := (Consensus.gas_limit consensus).

(** The part of [process_transaction] up to the result of the top frame. *)
Definition tx_result (i : Z) (tx : View) : B (Result * Z) :=
  _ ← host (open_tx is_precompile consensus i tx);
  ctx ← build_per_tx_context consensus tx;
  _ ← host (set_tx_context ctx);
  sender_idx ← host (account_row (sender_ tx));
  intrinsic_gas ← apply_pre_evm_accounting build consensus tx sender_idx;
  run_tx tx sender_idx intrinsic_gas.
(** The frame gave back at most the transaction's gas, none of it negative, and its
    refund counter did not end below zero. *)
Definition result_within (tx : View) (r : Result) : bool :=
  (0 <=? gas_left r) && (0 <=? sg_left (StateDb.state_gas r)) &&
  (gas_left r + sg_left (StateDb.state_gas r) <=? gas_limit_ tx) && (0 <=? gas_refund r).
(** So did the frame of every transaction of the loop, from the state it runs in. *)
Fixpoint results_within (i : Z) (txs : list View) (b : Block) : bool :=
  match txs with
  | [] => true
  | tx :: txs =>
      match tx_result i tx b with Ok ((r, _), _) => result_within tx r | Fatal _ => true end &&
      match process_transaction i tx b with Ok (_, b) => results_within (i + 1) txs b | Fatal _ => true end
  end.

(** From the accounted transaction to its receipt. *)
Lemma counted b tx used r u b' : within_limit b → limit < 2 ^ 63 → 0 ≤ used_gas used ≤ gas_limit_ tx → gas_limit_ tx ≤ limit - cumulative_gas_used_ b →
  used = mkTxGasUsed (used_gas used) (used_gas used) 0 → finalize_receipt keccak256 r used b = Ok (u, b') →
  within_limit b' ∧ cumulative_gas_used_ b' = cumulative_gas_used_ b + used_gas used.
Proof.
  intros [W1 W2 W3 W4] Hl Hu Hg -> H%finalize_totals. cbn [used_gas used_regular used_state] in *. unfold totals in H. injection H as H1 H2 H3 H4. rewrite W2 in H3. rewrite W3 in H4.
  unfold u64 in *. rewrite Z.mod_small in H2, H3 by lia. split; [split|]; [unfold amsterdam; by rewrite H1|congruence|by rewrite H4|lia|done].
Qed.

Lemma kf_open i tx : keeps_fork (open_tx is_precompile consensus i tx).
Proof. kf. Qed.

Lemma transaction_limit i tx b u b' : limit < 2 ^ 63 → tx_ok tx → within_limit b →
  (∀ r a b1, tx_result i tx b = Ok ((r, a), b1) → result_within tx r = true) → process_transaction i tx b = Ok (u, b') →
  within_limit b' ∧ cumulative_gas_used_ b ≤ cumulative_gas_used_ b' ≤ cumulative_gas_used_ b + gas_limit_ tx.
Proof.
  intros Hl Hok W Hres H. unfold Block.process_transaction in H. unfold tx_result in Hres.
  apply bindb_run in H as (u0 & b0 & H0 & H). apply bindb_run in H as (ctx & b1 & H1 & H). apply bindb_run in H as (u1 & b2 & H2 & H).
  apply bindb_run in H as (idx & b3 & H3 & H). apply bindb_run in H as (ig & b4 & H4 & H). apply bindb_run in H as ([r ar] & b5 & H5 & H).
  assert (Hr : result_within tx r = true).
  { apply (Hres r ar b5). unfold mbind, B_bind. by rewrite H0, H1, H2, H3, H4. }
  clear Hres. apply andb_true_iff in Hr as [[[G1 G2]%andb_true_iff G3]%andb_true_iff G4]. rewrite Z.leb_le in *.
  apply host_frozen, frozen_totals in H0; [|apply kf_open]. apply context_totals in H1. apply host_frozen, frozen_totals in H2; [|kf].
  apply host_frozen, frozen_totals in H3; [|kf].
  assert (E : totals b3 = totals b) by congruence. pose proof (within_totals _ _ E W) as W'. injection E as _ Ec _ _. clear H0 H1 H2 H3.
  destruct (accounting_ok _ _ _ _ _ Hok (wl_fork _ W') H4) as (E1 & Hz & Hig & Hf & Hlim). clear H4.
  unfold u64 in Hlim. pose proof (wl_limit _ W'). rewrite Z.mod_small in Hlim by lia. pose proof (within_totals _ _ E1 W') as W4. injection E1 as _ E1 _ _.
  destruct (run_tx_refund _ _ _ _ _ _ _ Hz (wl_fork _ W4) H5) as [Har F]. clear H5.
  pose proof (within_totals _ _ (frozen_totals _ _ F) W4) as W5. apply bindb_run in H as (used & b6 & H1 & H).
  assert (Hset : settles tx r ar b5).
  { split; [lia..|]. destruct F as (d & -> & Hd). unfold since in *. cbn. by rewrite Hd. }
  destruct (settle_gas _ _ _ _ _ _ _ _ Hset H1) as (Hu & _ & _ & Hused). specialize (Hused (wl_fork _ W5)).
  pose proof (settle_frozen _ _ _ _ _ _ _ H1) as F6%frozen_totals. pose proof (within_totals _ _ F6 W5) as W6. injection F6 as _ E6 _ _. apply frozen_totals in F. injection F as _ E5 _ _.
  apply bindb_run in H as (u2 & b7 & H2 & H). destruct (counted _ tx _ _ _ _ W6 Hl Hu ltac:(lia) Hused H2) as [W7 E7].
  apply host_frozen, frozen_totals in H; [|apply kf_pending_destructs]. split; [by eapply within_totals|]. injection H as _ E8 _ _. lia.
Qed.

(** The sum of the gas limits. *)
Definition total_limit (txs : list View) : Z := foldr (λ tx n, gas_limit_ tx + n) 0 txs.
Lemma process_limit txs : limit < 2 ^ 63 → Forall tx_ok txs → ∀ i b u b', within_limit b → results_within i txs b = true →
  process_from i txs b = Ok (u, b') →
  within_limit b' ∧ cumulative_gas_used_ b ≤ cumulative_gas_used_ b' ≤ cumulative_gas_used_ b + total_limit txs.
Proof.
  intros Hl Hok. induction Hok as [|tx txs Htx _ IH]; intros i b u b' W Hr H; cbn [Block.process_from total_limit foldr results_within] in *.
  - injection H as _ <-. split; [done|lia].
  - apply andb_true_iff in Hr as [Hr1 Hr2]. apply bindb_run in H as (u1 & b1 & H1 & H). rewrite H1 in Hr2.
    destruct (transaction_limit i tx b u1 b1 Hl Htx W) as [W1 E1]; [intros r a b2 E; by rewrite E in Hr1|exact H1|].
    destruct (IH _ _ _ _ W1 Hr2 H) as [W2 E2]. split; [done|]. unfold total_limit in E2. lia.
Qed.

(** C10.  The gas of a block never passes its limit.  Before Amsterdam, from
    counters within a limit below 2^63, and with transactions whose fields are in
    their ranges, the transaction loop keeps the counters within the limit (a
    transaction that does not fit makes the block invalid), with regular gas equal to
    the cumulative gas, no state gas, and no 64-bit counter wrapping: the block's gas
    used is the cumulative gas, at most the sum of the gas limits.  It is assumed
    that in this run the top frame of every transaction returned at most the gas of
    the transaction, none of it negative, and a refund counter that is not negative
    ([results_within], which runs the loop and looks); nothing is assumed of the
    frames below, whose refunds can be negative, and of the VM only that it does not
    change the fork. *)
Theorem block_gas_within_limit txs b u b' : limit < 2 ^ 63 → Forall tx_ok txs → within_limit b →
  results_within 0 txs b = true → process_transactions txs b = Ok (u, b') →
  within_limit b' ∧ gas_used b' = cumulative_gas_used_ b' ∧ gas_used b' ≤ limit ∧
  cumulative_gas_used_ b ≤ gas_used b' ≤ cumulative_gas_used_ b + total_limit txs.
Proof.
  intros Hl Hok W Hr H. apply bindb_run in H as (u1 & b1 & H1 & ->%modb_run). destruct (process_limit _ Hl Hok _ _ _ _ W Hr H1) as [[W1 W2 W3 W4] E].
  split; [by split|]. unfold gas_used. cbn. rewrite W2, W3. lia.
Qed.
End Limit.


(** ** The interpreter leaves the fork alone *)

Section Interpreter.
Import Zevm.
Context (keccak256 : bytes → Z) (is_precompile : revision → Z → bool).
Context (call_precompile : revision → message → Result).
Context (ecrecover_address : Z → Z → Z → Z → option Z).
Context (evmone_charge : StateGas → Z → Z → option (Z * StateGas)).

Definition op_fork {A} (m : H A) : Prop := ∀ f, keeps_fork (m f).
Lemma of_bind {A C} (m : H A) (k : A → H C) : op_fork m → (∀ a, op_fork (k a)) → op_fork (m ≫= k).
Proof.
  intros Hm Hk f s x s' E. unfold mbind, H_bind in E. destruct (m f s) as [[[[a| |e] f1] s1]|e] eqn:E1; [| | |done]; apply Hm in E1.
  - rewrite <- E1. by eapply Hk.
  - by simplify_eq.
  - by simplify_eq.
Qed.
Lemma of_host {A} (m : M A) : keeps_fork m → op_fork (Zevm.host m).
Proof. intros Hm f s x s' E. unfold Zevm.host in E. destruct (m s) as [[]|] eqn:E1; simplify_eq/=. by eapply Hm. Qed.
Lemma of_mem {A} (op : EvmMem.EVMMem → res (A * EvmMem.EVMMem)) : op_fork (mem op).
Proof. intros f s x s' E. unfold mem in E. destruct (op _) as [[]|]; by simplify_eq/=. Qed.
Lemma of_charge_state c : op_fork (charge_state c).
Proof. intros f s x s' E. unfold charge_state in E. destruct (Zevm.state_gas_charge _ _); by injection E as _ <-. Qed.

Lemma kf_set_transient a k v : keeps_fork (set_transient_storage a k v).
Proof.
  unfold set_transient_storage. apply kf_bind; [kf|]. intros _. apply kf_bind; [|intros ?; kf].
  intros s p s' E. case_match. by injection E as _ <-.
Qed.
#[local] Hint Resolve kf_set_transient : keeps_fork.

Section Opcodes.
Context (host_call : message → M Result) (kf_host_call : ∀ msg, keeps_fork (host_call msg)).
Ltac of_step :=
  cbv zeta beta;
  lazymatch goal with
  | |- op_fork (mbind _ _) => apply of_bind; [|intros ?]
  | |- op_fork (Zevm.host (host_call _)) => apply of_host, kf_host_call
  | |- op_fork (Zevm.host _) => apply of_host; solve [kf]
  | |- op_fork (match ?x with _ => _ end) => destruct x
  | |- op_fork (mret _) => by intros ? ? ? ? [= _ <-]
  | |- op_fork (getf _) => by intros ? ? ? ? [= _ <-]
  | |- op_fork (modf _) => by intros ? ? ? ? [= _ <-]
  | |- op_fork (halt _) => by intros ? ? ? ? [= _ <-]
  | |- op_fork (undefined _) => by intros ? ? ? ? [= _ <-]
  | |- op_fork (mem _) => apply of_mem
  | |- op_fork (charge_state _) => apply of_charge_state
  | |- op_fork ?m => let h := head_of m in unfold h
  end.
Ltac of_op := repeat of_step.

Lemma of_call k hv sf : op_fork (call_impl is_precompile host_call k hv sf).
Proof. of_op. Qed.
Lemma of_create k : op_fork (create_impl keccak256 is_precompile host_call k).
Proof. of_op. Qed.
Lemma of_dispatch op : op_fork (dispatch keccak256 is_precompile host_call op).
Proof.
  destruct op; cbn [dispatch]; unfold OP, op_call, op_callcode, op_delegatecall, op_staticcall, op_create, op_create2;
    lazymatch goal with
    | |- op_fork (call_impl _ _ _ _ _) => apply of_call
    | |- op_fork (create_impl _ _ _ _) => apply of_create
    | |- op_fork (log_impl _) => unfold log_impl; cbn [topics_from]; of_op
    | |- _ => of_op
    end.
Qed.
Lemma of_step_fork : op_fork (step keccak256 is_precompile host_call).
Proof. unfold step. apply of_bind; [of_op|]. apply of_dispatch. Qed.
Lemma kf_loop fuel f : keeps_fork (dispatch_loop keccak256 is_precompile host_call fuel f).
Proof.
  revert f. induction fuel as [|fuel IH]; intros f; cbn [dispatch_loop]; [apply kf_ret|].
  apply kf_bind; [apply of_step_fork|]. intros [[a| |e] f1]; [apply IH|apply kf_ret..].
Qed.
Lemma kf_run msg c : keeps_fork (Zevm.run keccak256 is_precompile host_call msg c).
Proof.
  unfold Zevm.run. apply kf_bind; [kf|]. intros r. cbv zeta. apply kf_bind.
  { intros s x s' E. destruct (EvmMem.createMemory _) as [[]|]; by simplify_eq/=. }
  intros _. apply kf_bind; [apply kf_loop|]. intros [f| |e]; [|kf..]. apply kf_bind; [|intros bs; kf].
  destruct (output_size f =? 0); [kf|]. intros s x s' E. destruct (EvmMem.data_read _ _ _); by simplify_eq/=.
Qed.
End Opcodes.

#[export] Instance zevm_fork levels : FixedFork (zevm keccak256 is_precompile call_precompile ecrecover_address evmone_charge levels).
Proof.
  induction levels as [|levels IH]; intros msg c; cbn [zevm]; [apply kf_fatal|]. apply kf_run. intros m.
  unfold FixedFork in IH. assert (∀ m c, keeps_fork (run_frame (zevm keccak256 is_precompile call_precompile ecrecover_address evmone_charge levels) m c)) by (intros; kf).
  kf.
Qed.
End Interpreter.

(** ** A sample block, run by the interpreter *)

(** A contract whose slot 1 holds 7.  Called with data it clears the slot and calls
    itself without data, which stores 7 again: the inner frame ends with a refund
    counter of -2000, the transaction with 2800. *)
Definition toggle_code : bytes :=
  [Byte.x36; Byte.x60; Byte.x0a; Byte.x57;                                      (* if CALLDATASIZE goto 10 *)
   Byte.x60; Byte.x07; Byte.x60; Byte.x01; Byte.x55; Byte.x00;                  (* SSTORE(1, 7); STOP *)
   Byte.x5b; Byte.x60; Byte.x00; Byte.x60; Byte.x01; Byte.x55;                  (* SSTORE(1, 0) *)
   Byte.x60; Byte.x00; Byte.x60; Byte.x00; Byte.x60; Byte.x00; Byte.x60; Byte.x00; Byte.x60; Byte.x00;
   Byte.x60; Byte.xc1; Byte.x5a; Byte.xf1; Byte.x00].                           (* CALL(GAS, self, 0, ...); STOP *)
Definition toggle_world : World :=
  mkWorld
    (default Accounts.accounts0
      (match
        ('(_, a) ← Accounts.append eoa 5 (10 ^ 18) EMPTY_CODE_HASH (Accounts.reserve 3 Accounts.accounts0);
         '(_, a) ← Accounts.append caller 1 0 (toy_keccak toggle_code) a;
         '(_, a) ← Accounts.append (Consensus.beneficiary Consensus.sample_block) 0 7 EMPTY_CODE_HASH a;
         Ok a) with Ok a => Some a | Fatal _ => None end))
    (default Storages.storages0
      (match Storages.append caller 1 7 (Storages.reserve 1 Storages.storages0) with Ok (_, s) => Some s | Fatal _ => None end))
    WarmKeys.warm0 (TransientStorage.mkTransient ∅) ∅.
Definition toggle_block : Block :=
  put_db (put_contracts
    (Contracts.mkContracts [Contracts.mkContract (toy_keccak toggle_code) toggle_code false] {[toy_keccak toggle_code := 0%nat]} [])
    (put_world toggle_world block_db)) block0.
Definition toggle_vm : message → bytes → M Result :=
  Zevm.zevm toy_keccak no_precompile failing_precompile no_recovery toy_state_gas_charge 3.
Definition run_toggle : list View → B () :=
  process_transactions toy_keccak no_precompile failing_precompile no_recovery toy_state_gas_charge toy_refill 0 0 toggle_vm
    Consensus.mainnet Consensus.sample_block.
Lemma block_gas_within_limit_witness :
  ∃ b', run_toggle [call_tx 5; call_tx 6] toggle_block = Ok ((), b') ∧ gas_used b' = 46958 ∧ gas_used b' ≤ 30000000.
Proof.
  exists (outcome () (run_toggle [call_tx 5; call_tx 6] toggle_block)).2. split; [by vm_compute|]. split; [by vm_compute|].
  destruct (block_gas_within_limit toy_keccak no_precompile failing_precompile no_recovery toy_state_gas_charge toy_refill 0 0 toggle_vm
    Consensus.mainnet Consensus.sample_block [call_tx 5; call_tx 6] toggle_block ()
    (outcome () (run_toggle [call_tx 5; call_tx 6] toggle_block)).2) as (_ & _ & Hl & _).
  - by vm_compute.
  - repeat constructor; by apply call_tx_ok.
  - split; by vm_compute.
  - by vm_compute.
  - by vm_compute.
  - assert (E : Consensus.gas_limit Consensus.sample_block = 30000000) by (by vm_compute). rewrite E in Hl. exact Hl.
Defined.
End BlockLimit.
