(* ===== verification/Keeps.v ===== *)
(** What execution never does to the tables: change a row's witness record or its
    cached trie leaf, change the fork, or put a value out of its width into a row
    or the journal.  A relation between host states that every callback, every
    opcode and every step of the block pipeline keeps. *)

From stdpp Require Import base numbers list strings gmap.
From S2P Require Import Prelude Fork Rlp Receipt Contracts Chain CreateAddress Bal Jumpdest EvmMem Accounts Storages Transient Journal StateDb HostProofs U256 Zevm StateRoot RootEval Transactions Consensus IntrinsicGas BalEncode Block BlockGas BlockLimit.

Set Default Goal Selector "!".

Module Keeps.
Import Rlp Receipt Fork Journal StateDb HostProofs RootEval.

(** ** Rows *)

Definition acc_row_ok (r : Accounts.Row) : Prop :=
  in_u64 (Accounts.row_nonce r) ∧ in_u256 (Accounts.row_balance r) ∧ in_u256 (Accounts.row_code_hash r).
Definition slot_row_ok (r : Storages.Row) : Prop := in_u256 (Storages.row_value r).

(** One table after another: the same records and leaves, values still in range. *)
Record accounts_after (a a' : Accounts.Accounts) : Prop := {
  aa_rows : Forall2 (λ r r', Accounts.record r = Accounts.record r' ∧ Accounts.leaf r = Accounts.leaf r') (Accounts.rows a) (Accounts.rows a');
  aa_range : Forall acc_row_ok (Accounts.rows a) → Forall acc_row_ok (Accounts.rows a') }.
Record storages_after (s s' : Storages.Storages) : Prop := {
  sa_rows : Forall2 (λ r r', Storages.record r = Storages.record r' ∧ Storages.leaf r = Storages.leaf r') (Storages.rows s) (Storages.rows s');
  sa_range : Forall slot_row_ok (Storages.rows s) → Forall slot_row_ok (Storages.rows s') }.

#[global] Instance accounts_after_preorder : PreOrder accounts_after.
Proof.
  split.
  - intros a. split; [|done]. by apply Forall_Forall2_diag, Forall_true.
  - intros a b c [H1 R1] [H2 R2]. split; [|auto]. eapply Forall2_trans; [|exact H1|exact H2]. cbn. intuition congruence.
Qed.
#[global] Instance storages_after_preorder : PreOrder storages_after.
Proof.
  split.
  - intros a. split; [|done]. by apply Forall_Forall2_diag, Forall_true.
  - intros a b c [H1 R1] [H2 R2]. split; [|auto]. eapply Forall2_trans; [|exact H1|exact H2]. cbn. intuition congruence.
Qed.

(** A write of one row. *)
Lemma acc_row_after f i a a' : (∀ r, Accounts.record (f r) = Accounts.record r ∧ Accounts.leaf (f r) = Accounts.leaf r) →
  (∀ r, acc_row_ok r → acc_row_ok (f r)) → Accounts.upd_row f i a = Ok a' → accounts_after a a'.
Proof.
  intros Hf Hr H. unfold Accounts.upd_row, Accounts.row_at in H. apply bind_Ok in H as (r & E & <-%Ok_inj). apply vec_get_Ok in E. split; cbn.
  - apply Forall2_same_length_lookup. rewrite length_insert. split; [done|]. intros j x y Hx Hy. rewrite list_lookup_insert in Hy.
    destruct (decide _) as [[-> _]|]; simplify_eq; [|done]. destruct (Hf r). done.
  - intros HF. apply Forall_insert; [done|]. apply Hr. by eapply Forall_lookup in HF.
Qed.
Lemma slot_row_after f i s s' : (∀ r, Storages.record (f r) = Storages.record r ∧ Storages.leaf (f r) = Storages.leaf r) →
  (∀ r, slot_row_ok r → slot_row_ok (f r)) → Storages.upd_row f i s = Ok s' → storages_after s s'.
Proof.
  intros Hf Hr H. unfold Storages.upd_row, Storages.row_at in H. apply bind_Ok in H as (r & E & <-%Ok_inj). apply vec_get_Ok in E. split; cbn.
  - apply Forall2_same_length_lookup. rewrite length_insert. split; [done|]. intros j x y Hx Hy. rewrite list_lookup_insert in Hy.
    destruct (decide _) as [[-> _]|]; simplify_eq; [|done]. destruct (Hf r). done.
  - intros HF. apply Forall_insert; [done|]. apply Hr. by eapply Forall_lookup in HF.
Qed.
Lemma acc_same_rows a a' : Accounts.rows a' = Accounts.rows a → accounts_after a a'.
Proof. intros E. split; rewrite E; [|done]. by apply Forall_Forall2_diag, Forall_true. Qed.

(** The operations of the account table. *)
Ltac row_cases :=
  intros [rec [] lf]; unfold acc_row_ok, slot_row_ok, Accounts.row_nonce, Accounts.row_balance, Accounts.row_code_hash, Storages.row_value; cbn;
  try (destruct (_ <? _); cbn); tauto.
Lemma touched_after i t a a' : Accounts.mark_touched_at i t a = Ok a' → accounts_after a a'.
Proof. apply acc_row_after; [done|]. row_cases. Qed.
Lemma acc_warm_after i t a a' : Accounts.set_warm_at i t a = Ok a' → accounts_after a a'.
Proof. apply acc_row_after; [done|]. row_cases. Qed.
Lemma bal_access_after i a a' : Accounts.bal_access_at i a = Ok a' → accounts_after a a'.
Proof. unfold Accounts.bal_access_at. intros H. apply acc_same_rows. destruct (Accounts.bal_ a); ok_inv; done. Qed.
Lemma bal_write_after i a a' : Accounts.bal_write_at i a = Ok a' → accounts_after a a'.
Proof. unfold Accounts.bal_write_at. intros H. apply acc_same_rows. destruct (Accounts.bal_ a); ok_inv; done. Qed.
Lemma balance_after i v t a a' : in_u256 v → Accounts.set_balance_at i v t a = Ok a' → accounts_after a a'.
Proof.
  intros Hv H. unfold Accounts.set_balance_at in H. apply bind_Ok in H as (a1 & H1%bal_write_after & H). etrans; [exact H1|].
  revert H. apply acc_row_after; [done|]. row_cases.
Qed.
Lemma nonce_after i v t a a' : in_u64 v → Accounts.set_nonce_at i v t a = Ok a' → accounts_after a a'.
Proof.
  intros Hv H. unfold Accounts.set_nonce_at in H. apply bind_Ok in H as (a1 & H1%bal_write_after & H). etrans; [exact H1|].
  revert H. apply acc_row_after; [done|]. row_cases.
Qed.
Lemma code_hash_after i v t a a' : in_u256 v → Accounts.set_code_hash_at i v t a = Ok a' → accounts_after a a'.
Proof.
  intros Hv H. unfold Accounts.set_code_hash_at in H. apply bind_Ok in H as (a1 & H1%bal_write_after & H). etrans; [exact H1|].
  revert H. apply acc_row_after; [done|]. row_cases.
Qed.
Lemma touch_after addr t a r a' : Accounts.touch addr t a = Ok (r, a') → accounts_after a a'.
Proof.
  unfold Accounts.touch. intros H. apply bind_Ok in H as (i & _ & H). apply bind_Ok in H as (a1 & H1%touched_after & H).
  apply bind_Ok in H as (a2 & H2%bal_access_after & [= _ <-]%Ok_inj). by etrans.
Qed.
Lemma read_after (f : nat → Accounts.Accounts → res Z) addr t a v a' :
  ('(i, a) ← Accounts.touch addr t a; v ← f i a; Ok (v, a)) = Ok (v, a') → accounts_after a a'.
Proof. intros H. apply bind_Ok in H as ([i a1] & H1%touch_after & H). by apply bind_Ok in H as (v' & _ & [= _ <-]%Ok_inj). Qed.

(** The operations of the storage table. *)
Lemma slot_touched_after i t s s' : Storages.mark_touched_at i t s = Ok s' → storages_after s s'.
Proof. apply slot_row_after; [done|]. row_cases. Qed.
Lemma slot_warm_after i t s s' : Storages.set_warm_at i t s = Ok s' → storages_after s s'.
Proof. apply slot_row_after; [done|]. row_cases. Qed.
Lemma bal_id_after i t s s' : Storages.set_bal_id_at i t s = Ok s' → storages_after s s'.
Proof. apply slot_row_after; [done|]. row_cases. Qed.
Lemma value_after i v t s s' : in_u256 v → Storages.set_value_at i v t s = Ok s' → storages_after s s'.
Proof. intros Hv. apply slot_row_after; [done|]. row_cases. Qed.
Lemma find_after addr pos s : storages_after s (Storages.find addr pos s).2.
Proof. unfold Storages.find. destruct (_ && _); [done|]. split; [|done]. by apply Forall_Forall2_diag, Forall_true. Qed.

(** ** Host states *)

Definition entry_ok (e : Entry) : Prop :=
  match e with
  | NonceEntry _ v _ => in_u64 v
  | BalanceEntry _ v _ | CodeHashEntry _ v _ | StorageEntry _ v _ => in_u256 v
  | _ => True
  end.
(** The values of the rows and of the journal are of their widths. *)
Record ranged (s : StateDB) : Prop := {
  rg_accounts : Forall acc_row_ok (Accounts.rows (accounts (world s)));
  rg_storages : Forall slot_row_ok (Storages.rows (storages (world s)));
  rg_journal : Forall entry_ok (journal_ s) }.
Record advances (s s' : StateDB) : Prop := {
  ad_fork : StateDb.fork_id s' = StateDb.fork_id s;
  ad_rows : executed (accounts (world s)) (accounts (world s')) (storages (world s)) (storages (world s'));
  ad_range : ranged s' }.
Definition kept (s s' : StateDB) : Prop := ranged s → advances s s'.
Lemma executed_trans a b c s t u : executed a b s t → executed b c t u → executed a c s u.
Proof. intros [H1 H2] [H3 H4]. split; [eapply Forall2_trans; [|exact H1|exact H3]|eapply Forall2_trans; [|exact H2|exact H4]]; cbn; intuition congruence. Qed.
Lemma advances_refl s : ranged s → advances s s.
Proof. intros Hs. split; [done| |done]. split; by apply Forall_Forall2_diag, Forall_true. Qed.
#[global] Instance kept_preorder : PreOrder kept.
Proof.
  split; [exact advances_refl|].
  intros a b c H1 H2 Ha. destruct (H1 Ha) as [F1 E1 R1]. destruct (H2 R1) as [F2 E2 R2]. split; [congruence|by eapply executed_trans|done].
Qed.

(** A step that replaces the two tables and leaves the fork alone. *)
Lemma kept_world s s' : StateDb.fork_id s' = StateDb.fork_id s →
  (Forall entry_ok (journal_ s) → accounts_after (accounts (world s)) (accounts (world s')) ∧ storages_after (storages (world s)) (storages (world s')) ∧
    Forall entry_ok (journal_ s')) → kept s s'.
Proof. intros F H [R1 R2 R3]. destruct (H R3) as ([A1 A2] & [S1 S2] & J). split; [done|by split|]. split; auto. Qed.
Lemma kept_tables s s' : StateDb.fork_id s' = StateDb.fork_id s → journal_ s' = journal_ s →
  accounts_after (accounts (world s)) (accounts (world s')) → storages_after (storages (world s)) (storages (world s')) → kept s s'.
Proof. intros F J A S. apply kept_world; [done|]. intros Hj. by rewrite J. Qed.

(** ** Steps that keep *)

Definition keeps {A} (m : M A) : Prop := ∀ s a s', m s = Ok (a, s') → kept s s'.

Lemma kp_bind {A C} (m : M A) (k : A → M C) : keeps m → (∀ a, keeps (k a)) → keeps (m ≫= k).
Proof. intros Hm Hk s c s' H. apply bind_run in H as (a & s1 & H1 & H2). etrans; [by eapply Hm|by eapply Hk]. Qed.
Lemma kp_pure {A} (m : M A) : pure m → keeps m.
Proof. intros Hm s a s' H. by rewrite (Hm _ _ _ H). Qed.
Lemma kp_ret {A} (a : A) : keeps (mret a).
Proof. by intros s x s' [= _ <-]. Qed.
Lemma kp_fatal {A} e : keeps (fatal (A := A) e).
Proof. by intros s a s' [=]. Qed.
Lemma kp_modify f : (∀ s, StateDb.fork_id (f s) = StateDb.fork_id s ∧ journal_ (f s) = journal_ s ∧
  accounts (world (f s)) = accounts (world s) ∧ storages (world (f s)) = storages (world s)) → keeps (modify f).
Proof. intros Hf s a s' [= _ <-]. destruct (Hf s) as (F & J & A & S). apply kept_tables; rewrite ?A, ?S; done. Qed.
Lemma kp_put_bal s b : kept s (put_world (put_accounts (Accounts.put_bal b (accounts (world s))) (world s)) s).
Proof. apply kept_tables; cbn; try done. by apply acc_same_rows. Qed.
Lemma kp_acc_upd f : (∀ a a', f a = Ok a' → accounts_after a a') → keeps (acc_upd f).
Proof. intros Hf s a s' H. apply acc_upd_run in H as (x & Hx%Hf & ->). by apply kept_tables. Qed.
Lemma kp_sto_upd f : (∀ a a', f a = Ok a' → storages_after a a') → keeps (sto_upd f).
Proof. intros Hf s a s' H. apply sto_upd_run in H as (x & Hx%Hf & ->). by apply kept_tables. Qed.
Lemma kp_acc_run {A} (f : Accounts.Accounts → res (A * Accounts.Accounts)) : (∀ a x a', f a = Ok (x, a') → accounts_after a a') → keeps (acc_run f).
Proof. intros Hf s a s' H. unfold acc_run in H. destruct (f _) as [[]|] eqn:E; simplify_eq/=. apply Hf in E. by apply kept_tables. Qed.
Lemma kp_bal_run {A} (f : Bal.BlockAccessList → res (A * Bal.BlockAccessList)) : keeps (bal_run f).
Proof. intros s a s' H. unfold bal_run in H. destruct (Accounts.bal_ _) as [x|]; [|done]. destruct (f x) as [[]|]; simplify_eq/=. apply kp_put_bal. Qed.
Lemma kp_find a k : keeps (storages_find a k).
Proof.
  intros s x s' H. unfold storages_find in H. pose proof (find_after a k (storages (world s))) as Hf. destruct (Storages.find _ _ _).
  simplify_eq/=. by apply kept_tables.
Qed.
Lemma kp_log f : (∀ j, Forall entry_ok j → Forall entry_ok (f j)) → keeps (log f).
Proof. intros Hf s a s' [= _ <-]. apply kept_world; [done|]. intros Hj. split_and!; [reflexivity..|]. cbn. auto. Qed.
Lemma kp_checkpoint : keeps checkpoint.
Proof.
  intros s x s' H. unfold checkpoint, Journal.checkpoint in H. cbv zeta in H. simplify_eq/=.
  apply (kp_log (λ j, j ++ [CheckpointMarker])) with (a := tt); [|done]. intros j Hj. apply Forall_app_2; [done|]. by constructor.
Qed.

(** Undoing an entry in range. *)
Lemma undo_after e w w' : entry_ok e → undo e w = Ok w' → accounts_after (accounts w) (accounts w') ∧ storages_after (storages w) (storages w').
Proof.
  intros He H. destruct e; cbn in He, H; try (apply bind_Ok in H as (x & Hx & H)); apply Ok_inj in H as <-; cbn;
    try (destruct (negb _); cbn); (split; [|reflexivity]) || (split; [reflexivity|]);
    eauto using nonce_after, balance_after, code_hash_after, value_after, acc_warm_after, slot_warm_after; reflexivity.
Qed.
Lemma rollback_after fuel : ∀ cp j w j' w', Forall entry_ok j → rollback_loop fuel cp j w = Ok (j', w') →
  Forall entry_ok j' ∧ accounts_after (accounts w) (accounts w') ∧ storages_after (storages w) (storages w').
Proof.
  induction fuel as [|fuel IH]; intros cp j w j' w' Hj H; cbn [rollback_loop] in H.
  - destruct (_ <? _)%nat; [done|]. by simplify_eq.
  - destruct (_ <? _)%nat; [|by simplify_eq]. destruct (last j) as [e|] eqn:El; [|done]. apply bind_Ok in H as (w1 & H1 & H).
    apply last_Some in El as (l & ->). rewrite removelast_last in H. apply Forall_app in Hj as [Hl He]. apply Forall_cons in He as [He _].
    destruct (undo_after _ _ _ He H1). destruct (IH _ _ _ _ _ Hl H) as (? & ? & ?). split; [done|]. split; by etrans.
Qed.
Lemma kp_rollback cp : keeps (rollback cp).
Proof.
  intros s x s' H. unfold rollback in H. destruct (Journal.rollback _ _ _) as [[j w]|] eqn:E; [|done]. simplify_eq/=.
  apply kept_world; [done|]. intros Hj. unfold Journal.rollback in E. destruct (_ !! _) as [[]|]; try done. apply rollback_after in E; [|done]. cbn. tauto.
Qed.
Lemma kp_each_item f : (∀ i, keeps (f i)) → ∀ fuel it, keeps (Block.each_item f fuel it).
Proof.
  intros Hf fuel. induction fuel as [|fuel IH]; intros it; cbn [Block.each_item]; [apply kp_ret|]. destruct (has_next it); [|apply kp_ret].
  apply kp_bind; [apply kp_pure, pure_lift|]. intros [i it']. apply kp_bind; [apply Hf|]. intros _. apply IH.
Qed.
Lemma kp_for_all f l : (∀ i, keeps (f i)) → keeps (for_all f l).
Proof. intros Hf. induction l as [|i l IH]; [apply kp_ret|]. cbn [for_all]. apply kp_bind; [apply Hf|done]. Qed.

(** A value read from the tables is of its width. *)
Lemma kp_read {A C} (f : Accounts.Accounts → res A) (P : A → Prop) (k : A → M C) :
  (∀ a x, Forall acc_row_ok (Accounts.rows a) → f a = Ok x → P x) → (∀ x, P x → keeps (k x)) → keeps (acc f ≫= k).
Proof.
  intros Hf Hk s c s' H Hs. apply bind_run in H as (x & s1 & H1 & H2). unfold acc in H1. destruct (f _) eqn:E; simplify_eq/=.
  refine (Hk _ _ _ _ _ H2 Hs). apply Hf in E; [done|apply Hs].
Qed.
Lemma kp_read_slot {A C} (f : Storages.Storages → res A) (P : A → Prop) (k : A → M C) :
  (∀ a x, Forall slot_row_ok (Storages.rows a) → f a = Ok x → P x) → (∀ x, P x → keeps (k x)) → keeps (sto f ≫= k).
Proof.
  intros Hf Hk s c s' H Hs. apply bind_run in H as (x & s1 & H1 & H2). unfold sto in H1. destruct (f _) eqn:E; simplify_eq/=.
  refine (Hk _ _ _ _ _ H2 Hs). apply Hf in E; [done|apply Hs].
Qed.
Lemma kp_lift {A C} (r : res A) (k : A → M C) : (∀ x, r = Ok x → keeps (k x)) → keeps (lift r ≫= k).
Proof.
  intros Hk s c s' H. apply bind_run in H as (x & s1 & H1 & H2). unfold lift in H1. destruct r eqn:E; [|done]. injection H1 as -> <-. by eapply Hk.
Qed.
Lemma row_ok_at i a r : Forall acc_row_ok (Accounts.rows a) → Accounts.row_at i a = Ok r → acc_row_ok r.
Proof. intros HF E%vec_get_Ok. by eapply Forall_lookup in HF. Qed.
Lemma balance_range i a v : Forall acc_row_ok (Accounts.rows a) → Accounts.balance_at i a = Ok v → in_u256 v.
Proof. intros HF H. unfold Accounts.balance_at in H. apply bind_Ok in H as (r & H & <-%Ok_inj). by eapply row_ok_at in H as (_ & ? & _). Qed.
Lemma nonce_range i a v : Forall acc_row_ok (Accounts.rows a) → Accounts.nonce_at i a = Ok v → in_u64 v.
Proof. intros HF H. unfold Accounts.nonce_at in H. apply bind_Ok in H as (r & H & <-%Ok_inj). by eapply row_ok_at in H as (? & _ & _). Qed.
Lemma code_hash_range i a v : Forall acc_row_ok (Accounts.rows a) → Accounts.code_hash_at i a = Ok v → in_u256 v.
Proof. intros HF H. unfold Accounts.code_hash_at in H. apply bind_Ok in H as (r & H & <-%Ok_inj). by eapply row_ok_at in H as (_ & _ & ?). Qed.
Lemma value_range i s v : Forall slot_row_ok (Storages.rows s) → Storages.value_at i s = Ok v → in_u256 v.
Proof. intros HF H. unfold Storages.value_at in H. apply bind_Ok in H as (r & H%vec_get_Ok & <-%Ok_inj). by eapply Forall_lookup in HF. Qed.

(** ** The callbacks of the host *)

Lemma u256_in x : in_u256 (u256 x).
Proof. unfold in_u256, u256. by apply Z.mod_pos_bound. Qed.
Lemma u64_in x : in_u64 (u64 x).
Proof. unfold in_u64, u64. by apply Z.mod_pos_bound. Qed.
Lemma zero_256 : in_u256 0.
Proof. done. Qed.
Lemma empty_hash_256 : in_u256 EMPTY_CODE_HASH.
Proof. done. Qed.
Lemma zero_64 : in_u64 0.
Proof. done. Qed.
Lemma one_64 : in_u64 1.
Proof. done. Qed.
Create HintDb word_range discriminated.
#[export] Hint Resolve u256_in u64_in zero_64 one_64 zero_256 empty_hash_256 : word_range.

Lemma kp_set_balance i v : in_u256 v → keeps (set_balance_idx i v).
Proof. intros Hv. apply kp_bind; [apply kp_pure, pure_gets|]. intros t. apply kp_acc_upd. eauto using balance_after. Qed.
Lemma kp_set_nonce i v : in_u64 v → keeps (set_nonce_idx i v).
Proof. intros Hv. apply kp_bind; [apply kp_pure, pure_gets|]. intros t. apply kp_acc_upd. eauto using nonce_after. Qed.
Lemma kp_set_code_hash i v : in_u256 v → keeps (set_code_hash_idx i v).
Proof. intros Hv. apply kp_bind; [apply kp_pure, pure_gets|]. intros t. apply kp_acc_upd. eauto using code_hash_after. Qed.
Lemma kp_push e : entry_ok e → keeps (log (λ j, j ++ [e])).
Proof. intros He. apply kp_log. intros j Hj. apply Forall_app_2; [done|]. by constructor. Qed.
Lemma kp_log_balance i : keeps (log_old_balance i).
Proof.
  apply (kp_read _ in_u256); [intros a x; apply balance_range|]. intros x Hx. apply kp_bind; [apply kp_pure, pure_acc|]. intros l. by apply kp_push.
Qed.
Lemma kp_log_nonce i : keeps (log_old_nonce i).
Proof.
  apply (kp_read _ in_u64); [intros a x; apply nonce_range|]. intros x Hx. apply kp_bind; [apply kp_pure, pure_acc|]. intros l. by apply kp_push.
Qed.
Lemma kp_log_code_hash i : keeps (log_old_code_hash i).
Proof.
  apply (kp_read _ in_u256); [intros a x; apply code_hash_range|]. intros x Hx. apply kp_bind; [apply kp_pure, pure_acc|]. intros l. by apply kp_push.
Qed.

Create HintDb keeps discriminated.
#[export] Hint Resolve kp_ret kp_fatal kp_bal_run kp_find kp_checkpoint kp_rollback kp_log_balance kp_log_nonce kp_log_code_hash : keeps.
#[export] Hint Extern 1 (keeps (gets _)) => apply kp_pure, pure_gets : keeps.
#[export] Hint Extern 1 (keeps (acc _)) => apply kp_pure, pure_acc : keeps.
#[export] Hint Extern 1 (keeps (sto _)) => apply kp_pure, pure_sto : keeps.
#[export] Hint Extern 1 (keeps (lift _)) => apply kp_pure, pure_lift : keeps.
#[export] Hint Extern 2 (keeps (acc_upd _)) => apply kp_acc_upd; intros ? ?; first [apply touched_after | apply bal_access_after] : keeps.
#[export] Hint Extern 2 (keeps (sto_upd _)) => apply kp_sto_upd; intros ? ?; first [apply slot_touched_after | apply bal_id_after] : keeps.
#[export] Hint Extern 2 (keeps (acc_run _)) => apply kp_acc_run; intros ? ? ?; apply read_after : keeps.
#[export] Hint Extern 2 (keeps (log _)) => apply kp_push; exact I : keeps.
#[export] Hint Extern 2 (keeps (set_balance_idx _ _)) => apply kp_set_balance; solve [auto with word_range] : keeps.
#[export] Hint Extern 2 (keeps (set_nonce_idx _ _)) => apply kp_set_nonce; solve [auto with word_range] : keeps.
#[export] Hint Extern 2 (keeps (set_code_hash_idx _ _)) => apply kp_set_code_hash; solve [auto with word_range] : keeps.

Ltac head_of t := lazymatch t with ?f _ => head_of f | _ => t end.
Ltac kp_step :=
  cbv beta zeta;
  first [ solve [auto with keeps]
        | lazymatch goal with
          | |- keeps (mbind _ _) => apply kp_bind; [|intros ?]
          | |- keeps (modify _) => apply kp_modify; intros; repeat split; reflexivity
          | |- keeps (Block.each_item _ _ _) => apply kp_each_item; intros ?
          | |- keeps (for_all _ _) => apply kp_for_all; intros ?
          | |- keeps (match ?x with _ => _ end) => destruct x
          | |- keeps ?m => let h := head_of m in unfold h
          end ].
Ltac kp := repeat kp_step.

Lemma kp_set_storage addr key v : in_u256 v → keeps (set_storage addr key v).
Proof.
  intros Hv. unfold set_storage. do 2 (apply kp_bind; [kp|intros ?]). apply kp_bind; [kp|]. intros original.
  apply (kp_read_slot _ in_u256); [intros st x; apply value_range|]. intros cur Hc.
  do 3 (apply kp_bind; [kp|intros ?]). apply kp_bind; [by apply kp_push|]. intros ?. apply kp_bind; [kp|]. intros t.
  apply kp_bind; [|intros ?; kp]. apply kp_sto_upd. eauto using value_after.
Qed.
Lemma kp_set_transient addr key v : keeps (set_transient_storage addr key v).
Proof.
  unfold set_transient_storage. apply kp_bind; [kp|]. intros _. apply kp_bind; [|intros ?; kp].
  intros s a s' H. destruct (TransientStorage.set _ _ _ _). simplify_eq/=. by apply kept_tables.
Qed.
Lemma kp_clear_slot i : keeps (clear_slot i).
Proof.
  unfold clear_slot. apply (kp_read_slot _ in_u256); [intros st x; apply value_range|]. intros cur Hc. destruct (cur =? 0); [kp|].
  do 4 (apply kp_bind; [kp|intros ?]). apply kp_bind; [by apply kp_push|]. intros ?. apply kp_bind; [kp|]. intros t.
  apply kp_sto_upd. intros ? ?. by apply value_after.
Qed.
#[export] Hint Resolve kp_set_transient kp_clear_slot : keeps.
Lemma kp_transfer f t v : keeps (transfer_value f t v).
Proof. kp. Qed.
Lemma kp_pending_destructs : keeps apply_pending_destructs.
Proof. kp. Qed.
Lemma kp_selfdestruct a b : keeps (selfdestruct a b).
Proof. kp. Qed.
#[export] Hint Resolve kp_transfer kp_pending_destructs kp_selfdestruct : keeps.

(** ** Frames *)

Section Frames.
Context (keccak256 : bytes → Z) (keccak_range : ∀ b, in_u256 (keccak256 b)).
Context (is_precompile : revision → Z → bool).
Context (call_precompile : revision → message → Result).
Context (ecrecover_address : Z → Z → Z → Z → option Z).
Context (evmone_charge : StateGas → Z → Z → option (Z * StateGas)) (cost_per_byte : Z).

#[local] Hint Resolve keccak_range : word_range.

Section Vm.
Context (vm : message → bytes → M Result) (kp_vm : ∀ msg c, keeps (vm msg c)).
#[local] Hint Resolve kp_vm : keeps.

Lemma kp_run_frame msg c : keeps (run_frame vm msg c).
Proof. kp. Qed.
#[local] Hint Resolve kp_run_frame : keeps.
Lemma kp_register a r : keeps (register_deployed_code keccak256 a r).
Proof. kp. Qed.
Lemma kp_create_bump msg i n : in_u64 n → in_u64 (n + 1) → keeps (create_bump msg i n).
Proof.
  intros Hn Hn1. unfold create_bump. apply kp_bind; [kp|]. intros l. apply kp_bind; [by apply kp_push|]. intros ?.
  apply kp_bind; [by apply kp_set_nonce|]. intros ?. kp.
Qed.
Lemma kp_call_create msg cp : keeps (call_create keccak256 evmone_charge cost_per_byte vm msg cp).
Proof.
  unfold call_create. apply kp_bind; [kp|]. intros i. apply (kp_read _ in_u64); [intros ? ?; apply nonce_range|]. intros n Hn.
  destruct (Z.eqb_spec n UINT64_MAX) as [|Hne]; [kp|]. apply kp_bind; [|intros j; kp]. apply kp_create_bump; [done|].
  unfold in_u64, UINT64_MAX in *. lia.
Qed.
#[local] Hint Resolve kp_call_create : keeps.
Lemma kp_call msg : keeps (call keccak256 is_precompile call_precompile ecrecover_address evmone_charge cost_per_byte vm msg).
Proof. kp. Qed.
End Vm.

(** ** The interpreter *)

Section Opcodes.
Import Zevm.
Context (host_call : message → M Result) (kp_host_call : ∀ msg, keeps (host_call msg)).

(** A handler keeps, from any frame. *)
Definition op_keeps {A} (m : Zevm.H A) : Prop := ∀ f, keeps (m f).
Lemma ok_bind {A C} (m : Zevm.H A) (k : A → Zevm.H C) : op_keeps m → (∀ a, op_keeps (k a)) → op_keeps (m ≫= k).
Proof.
  intros Hm Hk f s x s' H. unfold mbind, Zevm.H_bind in H. destruct (m f s) as [[[[a| |e] f1] s1]|e] eqn:E; [| | |done]; apply Hm in E.
  - etrans; [exact E|]. by eapply Hk.
  - by simplify_eq.
  - by simplify_eq.
Qed.
Lemma ok_ret {A} (a : A) : op_keeps (mret a).
Proof. intros f. apply kp_ret. Qed.
Lemma ok_getf {A} (g : EvmState → A) : op_keeps (getf g).
Proof. by intros f s x s' [= _ <-]. Qed.
Lemma ok_modf g : op_keeps (modf g).
Proof. by intros f s x s' [= _ <-]. Qed.
Lemma ok_halt {A} st : op_keeps (halt (A := A) st).
Proof. by intros f s x s' [= _ <-]. Qed.
Lemma ok_undefined {A} e : op_keeps (undefined (A := A) e).
Proof. by intros f s x s' [= _ <-]. Qed.
Lemma ok_host {A} (m : M A) : keeps m → op_keeps (Zevm.host m).
Proof. intros Hm f s x s' H. unfold Zevm.host in H. destruct (m s) as [[]|] eqn:E; simplify_eq/=. by eapply Hm. Qed.
Lemma ok_mem {A} (op : EvmMem.EVMMem → res (A * EvmMem.EVMMem)) : op_keeps (mem op).
Proof. intros f s x s' H. unfold mem in H. destruct (op _) as [[]|]; simplify_eq/=; [by apply kept_tables|done]. Qed.
Lemma ok_charge_state c : op_keeps (charge_state c).
Proof. intros f s x s' H. unfold charge_state in H. destruct (Zevm.state_gas_charge _ _); by injection H as _ <-. Qed.
Lemma to_wire_range v : in_u256 (to_wire v).
Proof.
  unfold to_wire, in_u256. pose proof (be_val_bound (U256.u256_to_be v)) as Hb.
  assert (length (U256.u256_to_be v) = 32%nat) as E by (unfold U256.u256_to_be, U256.store_u64; by rewrite !length_app, !length_le_bytes).
  rewrite E in Hb. exact Hb.
Qed.

Ltac ok_step :=
  cbv zeta beta;
  lazymatch goal with
  | |- op_keeps (mbind _ _) => apply ok_bind; [|intros ?]
  | |- op_keeps (modf _) => apply ok_modf
  | |- op_keeps (Zevm.host (set_storage _ _ _)) => apply ok_host, kp_set_storage, to_wire_range
  | |- op_keeps (Zevm.host (host_call _)) => apply ok_host, kp_host_call
  | |- op_keeps (Zevm.host _) => apply ok_host; solve [kp]
  | |- op_keeps (match ?x with _ => _ end) => destruct x
  | |- op_keeps (mret _) => apply ok_ret
  | |- op_keeps (getf _) => apply ok_getf
  | |- op_keeps (halt _) => apply ok_halt
  | |- op_keeps (undefined _) => apply ok_undefined
  | |- op_keeps (mem _) => apply ok_mem
  | |- op_keeps (charge_state _) => apply ok_charge_state
  | |- op_keeps ?m => let h := head_of m in unfold h
  end.
Ltac ok_op := repeat ok_step.

Lemma ok_call k hv sf : op_keeps (call_impl is_precompile host_call k hv sf).
Proof. ok_op. Qed.
Lemma ok_create k : op_keeps (create_impl keccak256 is_precompile host_call k).
Proof. ok_op. Qed.
Lemma ok_dispatch op : op_keeps (dispatch keccak256 is_precompile host_call op).
Proof.
  destruct op; cbn [dispatch];
    unfold OP, op_call, op_callcode, op_delegatecall, op_staticcall, op_create, op_create2;
    lazymatch goal with
    | |- op_keeps (call_impl _ _ _ _ _) => apply ok_call
    | |- op_keeps (create_impl _ _ _ _) => apply ok_create
    | |- op_keeps (log_impl _) => unfold log_impl; cbn [topics_from]; ok_op
    | |- _ => ok_op
    end.
Qed.

Lemma ok_fetch : op_keeps fetch.
Proof. unfold fetch. ok_op. Qed.
Lemma kp_loop fuel f : keeps (dispatch_loop keccak256 is_precompile host_call fuel f).
Proof.
  revert f. induction fuel as [|fuel IH]; intros f; cbn [dispatch_loop]; [apply kp_ret|].
  apply kp_bind; [|intros [[a| |e] f1]; [apply IH|apply kp_ret..]]. unfold step. intros s x s' H.
  refine (ok_bind fetch _ ok_fetch ok_dispatch f s x s' H).
Qed.
Lemma kp_run msg c : keeps (run keccak256 is_precompile host_call msg c).
Proof.
  unfold run. apply kp_bind; [kp|]. intros r. cbv zeta. apply kp_bind.
  { intros s x s' H. destruct (EvmMem.createMemory _) as [[]|]; simplify_eq/=. by apply kept_tables. }
  intros _. apply kp_bind; [apply kp_loop|]. intros [f| |e]; [|kp..]. apply kp_bind; [|intros bs; kp].
  destruct (output_size f =? 0); [kp|]. intros s x s' H. destruct (EvmMem.data_read _ _ _); by simplify_eq/=.
Qed.
End Opcodes.

End Frames.

(** The interpreter, as the VM of the host. *)
Lemma kp_zevm keccak256 (keccak_range : ∀ b, in_u256 (keccak256 b)) is_precompile call_precompile ecrecover_address evmone_charge levels msg c :
  keeps (Zevm.zevm keccak256 is_precompile call_precompile ecrecover_address evmone_charge levels msg c).
Proof.
  revert msg c. induction levels as [|levels IH]; intros msg c; cbn [Zevm.zevm]; [apply kp_fatal|].
  apply (kp_run keccak256 is_precompile). intros msg'. apply (kp_call keccak256 keccak_range). exact IH.
Qed.

(** ** The block pipeline *)

Section Pipeline.
Import Transactions Block BlockGas BlockLimit.
Context (keccak256 sha256 : bytes → Z) (keccak_range : ∀ b, in_u256 (keccak256 b)).
Context (is_precompile : revision → Z → bool).
Context (call_precompile : revision → message → Result).
Context (ecrecover_address : Z → Z → Z → Z → option Z).
Context (state_gas_charge : StateGas → Z → Z → option (Z * StateGas)).
Context (state_gas_refill : StateGas → Z → Z → Z * StateGas).
Context (COST_PER_STATE_BYTE NEW_ACCOUNT_STATE_GAS STORAGE_SET_STATE_GAS : Z).
Context (vm : message → bytes → M Result) (kp_vm : ∀ msg c, keeps (vm msg c)).
Context (build : Consensus.Build) (consensus : Consensus.ConsensusInfo).
#[local] Hint Resolve keccak_range : word_range.
#[local] Hint Resolve kp_vm : keeps.

Lemma kp_release : keeps reset_tx_arena.
Proof.
  unfold reset_tx_arena. do 3 (apply kp_bind; [kp|intros ?]). apply kp_bind; [kp|]. intros _. apply kp_bind; [|intros _; kp].
  intros s x s' [= _ <-]. apply kept_world; [done|]. intros _. split_and!; [reflexivity..|]. cbn. constructor.
Qed.
#[local] Hint Resolve kp_release : keeps.
Lemma kp_system_call target data : keeps (system_call STORAGE_SET_STATE_GAS vm target data).
Proof. kp. Qed.
Lemma kp_start_list : keeps start_access_list.
Proof. intros s x s' [= _ <-]. apply kp_put_bal. Qed.
#[local] Hint Resolve kp_system_call kp_start_list : keeps.
Lemma kp_pre_execute : keeps (pre_execute_block STORAGE_SET_STATE_GAS vm build consensus).
Proof. kp. Qed.

(** The nonce an authorization writes is one more than a nonce below the last. *)
Lemma parse_auth_nonce i a : parse_authorization i = Ok a → in_u64 (a_nonce a).
Proof.
  unfold parse_authorization. intros H. repeat (apply bind_Ok in H as ([? ?] & _ & H) || apply bind_Ok in H as (? & ? & H)).
  apply Ok_inj in H as <-. cbn. match goal with E : as_u64 _ = Ok ?n |- in_u64 ?n => by apply as_u64_canonical in E as [? _] end.
Qed.
Lemma kp_apply_authorization a i j : in_u64 (a_nonce a) → a_nonce a ≠ UINT64_MAX → keeps (apply_authorization keccak256 a i j).
Proof.
  intros Hn Hne. unfold apply_authorization. do 3 (apply kp_bind; [kp|intros ?]). cbv zeta. apply kp_bind; [kp|]. intros ?.
  apply kp_bind; [apply kp_set_nonce; unfold in_u64, UINT64_MAX in *; lia|]. intros ?. kp.
Qed.
Lemma kp_authorization item ch g :
  keeps (process_single_authorization keccak256 ecrecover_address state_gas_charge COST_PER_STATE_BYTE NEW_ACCOUNT_STATE_GAS build item ch g).
Proof.
  unfold process_single_authorization. apply kp_lift. intros a Ea%parse_auth_nonce. unfold auth_signer.
  destruct (negb (a_chain_id a =? 0) && _); [kp|]. destruct (Z.eqb_spec (a_nonce a) UINT64_MAX); [kp|].
  assert (Hap : ∀ i j, keeps (apply_authorization keccak256 a i j)) by (intros; by apply kp_apply_authorization).
  destruct (negb (is_canonical_low_s _)); [kp|]. destruct (1 <? a_parity a); [kp|]. kp.
Qed.
#[local] Hint Resolve kp_authorization : keeps.
Lemma kp_authorizations fuel it refund ch g : keeps (authorizations keccak256 ecrecover_address state_gas_charge COST_PER_STATE_BYTE NEW_ACCOUNT_STATE_GAS build fuel it refund ch g).
Proof. revert it refund ch g. induction fuel as [|fuel IH]; intros it refund ch g; cbn [authorizations]; kp. Qed.
#[local] Hint Resolve kp_authorizations : keeps.
Lemma kp_authorization_list tx idx g : keeps (apply_authorization_list keccak256 ecrecover_address state_gas_charge COST_PER_STATE_BYTE NEW_ACCOUNT_STATE_GAS build tx idx g).
Proof. kp. Qed.
Lemma kp_top_frame tx idx sgl g : keeps (execute_top_level_frame keccak256 is_precompile call_precompile ecrecover_address
  state_gas_charge state_gas_refill COST_PER_STATE_BYTE NEW_ACCOUNT_STATE_GAS vm tx idx sgl g).
Proof. kp. Qed.

(** Steps of the block: the host state of before and after. *)
Definition block_keeps {A} (m : B A) : Prop := ∀ b a b', m b = Ok (a, b') → kept (db b) (db b').
Lemma bk_bind {A C} (m : B A) (k : A → B C) : block_keeps m → (∀ a, block_keeps (k a)) → block_keeps (m ≫= k).
Proof. intros Hm Hk b c b' H. apply bindb_run in H as (a & b1 & H1 & H2). etrans; [by eapply Hm|by eapply Hk]. Qed.
Lemma bk_host {A} (m : M A) : keeps m → block_keeps (host m).
Proof. intros Hm b a b' (d & H & ->)%host_run. by eapply Hm. Qed.
Lemma bk_modb f : (∀ b, db (f b) = db b) → block_keeps (modb f).
Proof. intros Hf b a b' ->%modb_run. by rewrite Hf. Qed.
Lemma bk_ret {A} (a : A) : block_keeps (mret a).
Proof. by intros b x b' [= _ <-]. Qed.
Lemma bk_getb {A} (f : Block → A) : block_keeps (getb f).
Proof. by intros b x b' [_ ->]%getb_run. Qed.
Lemma bk_liftb {A} (r : res A) : block_keeps (liftb r).
Proof. by intros b x b' [_ ->]%liftb_run. Qed.
Lemma bk_fatal_when c e : block_keeps (fatal_when c e).
Proof. by intros b x b' [_ ->]%fatal_when_run. Qed.

Ltac bk_step :=
  cbv beta zeta;
  lazymatch goal with
  | |- block_keeps (mbind _ _) => apply bk_bind; [|intros ?]
  | |- block_keeps (host _) => apply bk_host; solve [kp]
  | |- block_keeps (modb _) => apply bk_modb; intros; reflexivity
  | |- block_keeps (mret _) => apply bk_ret
  | |- block_keeps (getb _) => apply bk_getb
  | |- block_keeps (liftb _) => apply bk_liftb
  | |- block_keeps (fatal_when _ _) => apply bk_fatal_when
  | |- block_keeps (match ?x with _ => _ end) => destruct x
  | |- block_keeps ?m => let h := head_of m in unfold h
  end.
Ltac bk := repeat bk_step.
#[local] Hint Resolve kp_authorization_list kp_top_frame kp_pre_execute : keeps.
Lemma bk_transaction i tx : block_keeps (process_transaction keccak256 is_precompile call_precompile ecrecover_address
  state_gas_charge state_gas_refill COST_PER_STATE_BYTE NEW_ACCOUNT_STATE_GAS vm build consensus i tx).
Proof. bk. Qed.
Lemma bk_from i txs : block_keeps (process_from keccak256 is_precompile call_precompile ecrecover_address
  state_gas_charge state_gas_refill COST_PER_STATE_BYTE NEW_ACCOUNT_STATE_GAS vm build consensus i txs).
Proof. revert i. induction txs as [|tx txs IH]; intros i; cbn [process_from]; [apply bk_ret|]. apply bk_bind; [apply bk_transaction|]. intros _. apply IH. Qed.
Lemma kp_withdrawals ws : keeps (credit_withdrawals ws).
Proof. induction ws as [|w ws IH]; cbn [credit_withdrawals]; [apply kp_ret|]. apply kp_bind; [kp|]. intros _. exact IH. Qed.
#[local] Hint Resolve kp_withdrawals : keeps.
Lemma bk_post : block_keeps (post_execute_block keccak256 STORAGE_SET_STATE_GAS vm build consensus).
Proof. bk. Qed.
(** The whole block keeps. *)
Lemma bk_execute txs : block_keeps (execute_block keccak256 sha256 is_precompile call_precompile ecrecover_address
  state_gas_charge state_gas_refill COST_PER_STATE_BYTE NEW_ACCOUNT_STATE_GAS STORAGE_SET_STATE_GAS vm build consensus txs).
Proof.
  unfold execute_block. apply bk_bind; [apply bk_host; kp|]. intros _. apply bk_bind.
  { unfold process_transactions. apply bk_bind; [apply bk_from|]. intros _. bk. }
  intros _. apply bk_bind; [apply bk_post|]. intros _. bk.
Qed.
End Pipeline.

(** ** The tables of the witness *)

Lemma view_range n (b : bytes) o : 0 ≤ be_val (slice b o (o + Z.of_nat n)) < 256 ^ Z.of_nat n.
Proof.
  pose proof (be_val_bound (slice b o (o + Z.of_nat n))) as H. split; [lia|]. eapply Z.lt_le_trans; [apply H|].
  apply Z.pow_le_mono_r; [lia|]. unfold slice. rewrite length_take. lia.
Qed.
Lemma clean_account rec l : acc_row_ok (Accounts.mkRow rec Accounts.mods0 l).
Proof.
  split_and!; cbn.
  - unfold in_u64, Accounts.view_nonce, Accounts.kNonceOffset. change (56 + 8) with 64. pose proof (le_val_bound (slice rec 56 64)) as H. split; [lia|]. eapply Z.lt_le_trans; [apply H|].
    change (2 ^ 64) with (256 ^ 8). apply Z.pow_le_mono_r; [lia|]. unfold slice. rewrite length_take. lia.
  - exact (view_range 32 rec 24).
  - exact (view_range 32 rec 96).
Qed.
Lemma clean_slot rec l : slot_row_ok (Storages.mkRow rec Storages.mods0 l).
Proof. exact (view_range 32 rec 56). Qed.

Section Witness.
Import StateRoot.
Context (keccak256 : bytes → Z) (garbage : nat → bytes).
Record tables_ok (n : Nodes) : Prop := {
  to_accounts : Forall acc_row_ok (Accounts.rows (StateRoot.accounts n));
  to_storages : Forall slot_row_ok (Storages.rows (StateRoot.storages n)) }.
Definition keeps_tables {A} (x : BuildCtx) (r : res (A * BuildCtx)) : Prop :=
  ∀ a x', r = Ok (a, x') → tables_ok (nodes x) → tables_ok (nodes x').

Lemma leaf_account_ok f i a a' : Accounts.upd_leaf f i a = Ok a' → Forall acc_row_ok (Accounts.rows a) → Forall acc_row_ok (Accounts.rows a').
Proof.
  unfold Accounts.upd_leaf, Accounts.upd_row, Accounts.row_at. intros H HF. apply bind_Ok in H as (r & E%vec_get_Ok & <-%Ok_inj). cbn.
  apply Forall_insert; [done|]. exact (Forall_lookup_1 _ _ _ _ HF E).
Qed.
Lemma leaf_slot_ok f i s s' : Storages.upd_leaf f i s = Ok s' → Forall slot_row_ok (Storages.rows s) → Forall slot_row_ok (Storages.rows s').
Proof.
  unfold Storages.upd_leaf, Storages.upd_row, Storages.row_at. intros H HF. apply bind_Ok in H as (r & E%vec_get_Ok & <-%Ok_inj). cbn.
  apply Forall_insert; [done|]. exact (Forall_lookup_1 _ _ _ _ HF E).
Qed.
Lemma append_account_ok addr n b c a i a' : Accounts.append addr n b c a = Ok (i, a') → Forall acc_row_ok (Accounts.rows a) → Forall acc_row_ok (Accounts.rows a').
Proof.
  unfold Accounts.append. cbv zeta. intros H HF. apply bind_Ok in H as (? & _ & H). apply bind_Ok in H as (rec & _ & [= _ <-]%Ok_inj). cbn.
  apply Forall_app_2; [done|]. constructor; [apply clean_account|done].
Qed.
Lemma append_slot_ok addr p v s i s' : Storages.append addr p v s = Ok (i, s') → Forall slot_row_ok (Storages.rows s) → Forall slot_row_ok (Storages.rows s').
Proof.
  unfold Storages.append. cbv zeta. intros H HF. apply bind_Ok in H as (? & _ & H). apply bind_Ok in H as (rec & _ & [= _ <-]%Ok_inj). cbn.
  apply Forall_app_2; [done|]. constructor; [apply clean_slot|done].
Qed.
Lemma aux_ok r x i x' : aux_emplace r x = Ok (i, x') → tables_ok (nodes x) → tables_ok (nodes x').
Proof. unfold aux_emplace. intros H [? ?]. apply bind_Ok in H as (? & _ & [= _ <-]%Ok_inj). by split. Qed.
Lemma chain_ok o k x c x' : build_chain garbage o k x = Ok (c, x') → tables_ok (nodes x) → tables_ok (nodes x').
Proof.
  unfold build_chain. cbv zeta. intros H [? ?]. destruct (Node.child_type o); ok_inv; by split.
Qed.

Section Builder.
Context (b : bytes → BuildCtx → TreeKind → list Z → option Z → res (Node.Child * bytes * BuildCtx)).
Context (Hb : ∀ c x k w o r c' x', b c x k w o = Ok (r, c', x') → tables_ok (nodes x) → tables_ok (nodes x')).
Lemma children_ok rounds : ∀ lo m kids c x k w o kids' c' x', build_children b rounds lo m kids c x k w o = Ok (kids', c', x') →
  tables_ok (nodes x) → tables_ok (nodes x').
Proof.
  induction rounds as [|rounds IH]; intros lo m kids c x k w o kids' c' x' H Hx; cbn [build_children] in H; [by ok_inv|].
  destruct (m =? 0); [by ok_inv|]. cbv zeta in H. destruct (Z.testbit _ _).
  - apply bind_Ok in H as (? & _ & H). apply bind_Ok in H as (? & _ & H). by eapply IH.
  - apply bind_Ok in H as ([[ch c1] x1] & H1 & H). apply Hb in H1; [|done]. apply bind_Ok in H as (? & _ & H). apply bind_Ok in H as (? & _ & H). by eapply IH.
Qed.
Lemma branch_ok c x k w o r c' x' : build_branch_node keccak256 garbage b c x k w o = Ok (r, c', x') → tables_ok (nodes x) → tables_ok (nodes x').
Proof.
  unfold build_branch_node. cbv zeta. intros H Hx. apply bind_Ok in H as (? & _ & H). apply bind_Ok in H as ([tags c1] & _ & H).
  do 2 (apply bind_Ok in H as (? & _ & H)). apply bind_Ok in H as ([[kids ck] xk] & H2 & H). apply children_ok in H2; [|done].
  apply bind_Ok in H as (? & _ & H). destruct (_ =? 1).
  - apply bind_Ok in H as (only & _ & H). apply bind_Ok in H as ([ch xc] & H3%chain_ok & [= _ _ <-]%Ok_inj); done.
  - apply bind_Ok in H as (cached & _ & [= _ _ <-]%Ok_inj). destruct H2. by split.
Qed.
Lemma account_leaf_ok c x w suffix r c' x' : build_account_leaf keccak256 garbage b c x w suffix = Ok (r, c', x') → tables_ok (nodes x) → tables_ok (nodes x').
Proof.
  unfold build_account_leaf. cbv zeta. intros H Hx. do 6 (apply bind_Ok in H as ([? ?] & _ & H)). do 2 (apply bind_Ok in H as (? & _ & H)).
  apply bind_Ok in H as ([i acc1] & H1%append_account_ok & H); [|apply Hx]. apply bind_Ok in H as (? & _ & H).
  apply bind_Ok in H as (acc2 & H2%leaf_account_ok & H); [|done]. apply bind_Ok in H as ([[st cs] xs] & H3%Hb & H).
  - do 3 (apply bind_Ok in H as (? & _ & H)). apply bind_Ok in H as ([? acc3] & H4 & [= _ _ <-]%Ok_inj). unfold Accounts.build_value in H4.
    do 3 (apply bind_Ok in H4 as (? & _ & H4)). cbv zeta in H4. apply bind_Ok in H4 as (? & _ & H4). apply bind_Ok in H4 as (acc4 & H4%leaf_account_ok & [= _ <-]%Ok_inj); [|apply H3].
    split; cbn; [done|apply H3].
  - split; cbn; [done|apply Hx].
Qed.
Lemma storage_leaf_ok c x w suffix o r c' x' : build_storage_leaf keccak256 garbage c x w suffix o = Ok (r, c', x') → tables_ok (nodes x) → tables_ok (nodes x').
Proof.
  unfold build_storage_leaf. cbv zeta. intros H Hx. destruct o as [owner|]; [|done]. do 3 (apply bind_Ok in H as ([? ?] & _ & H)). do 2 (apply bind_Ok in H as (? & _ & H)).
  apply bind_Ok in H as ([i st1] & H1%append_slot_ok & H); [|apply Hx]. apply bind_Ok in H as (? & _ & H).
  apply bind_Ok in H as (st2 & H2%leaf_slot_ok & H); [|done]. apply bind_Ok in H as (? & _ & H). apply bind_Ok in H as ([? st3] & H4 & [= _ _ <-]%Ok_inj).
  unfold Storages.build_value in H4. apply bind_Ok in H4 as (? & _ & H4). cbv zeta in H4. apply bind_Ok in H4 as (st4 & H4%leaf_slot_ok & [= _ <-]%Ok_inj); [|done].
  split; cbn; [apply Hx|done].
Qed.
End Builder.

Lemma build_node_ok fuel : ∀ c x k w o r c' x', build_node keccak256 garbage fuel c x k w o = Ok (r, c', x') → tables_ok (nodes x) → tables_ok (nodes x').
Proof.
  induction fuel as [|fuel IH]; intros c x k w o r c' x' H Hx; cbn [build_node] in H; [done|].
  apply bind_Ok in H as ([v c1] & _ & H). destruct (op_of v) as [[]|]; [..|done].
  - by ok_inv.
  - apply bind_Ok in H as ([h c2] & _ & H). apply bind_Ok in H as ([i xi] & H2%aux_ok & [= _ _ <-]%Ok_inj); done.
  - apply bind_Ok in H as ([e c2] & _ & H). apply bind_Ok in H as ([h c3] & _ & H). apply bind_Ok in H as ([i xi] & H2%aux_ok & [= _ _ <-]%Ok_inj); done.
  - unfold build_leaf_node in H. apply bind_Ok in H as ([suffix c2] & _ & H). destruct k; [by eapply account_leaf_ok|by eapply storage_leaf_ok].
  - by eapply branch_ok.
  - unfold build_phantom_leaf_node in H. do 2 (apply bind_Ok in H as ([? ?] & _ & H)). do 2 (apply bind_Ok in H as (? & _ & H)). cbv zeta in H.
    do 2 (apply bind_Ok in H as (? & _ & H)). apply bind_Ok in H as ([i xi] & H2%aux_ok & [= _ _ <-]%Ok_inj); done.
Qed.
(** The block-start values are of their widths. *)
Lemma state_root_tables c a0 s0 sr c' a s : Accounts.rows a0 = [] → Storages.rows s0 = [] →
  state_root keccak256 garbage c a0 s0 = Ok (sr, c', a, s) → Forall acc_row_ok (Accounts.rows a) ∧ Forall slot_row_ok (Storages.rows s).
Proof.
  intros Ha Hs H. unfold state_root in H. do 4 (apply bind_Ok in H as ([? ?] & _ & H)). do 2 (apply bind_Ok in H as (? & _ & H)).
  apply bind_Ok in H as ([[root cr] xr] & H1%build_node_ok & H).
  - do 2 (apply bind_Ok in H as (? & _ & H)). apply Ok_inj in H. injection H as _ _ <- <-. by destruct H1.
  - split; cbn; [by rewrite Ha|by rewrite Hs].
Qed.
End Witness.
End Keeps.
