(* ===== verification/Run.v ===== *)
(** The guest's entry point ([src/run.cpp], [zeg::run]): the input prefix, the
    sections in their order, the anchor of the ancestors, the header checks, the
    witness, the block, the new root, the header and the public output.  The debug
    stages and dumps that environment variables select on the host are not
    modelled: the stage is the full one. *)

From stdpp Require Import base numbers list strings gmap.
From S2P Require Import Prelude Fork Rlp Receipt Contracts Chain CreateAddress Mpt Bal EvmMem Accounts Storages Transient Journal StateDb HostProofs Zevm Sample StateRoot RootSpec RootTrie RootBuild RootEval RootSound RootWorld WorldRoot Transactions Consensus IntrinsicGas BalEncode Block BlockSample BlockGas BlockLimit Ssz Payload Keeps.

Set Default Goal Selector "!".

Module Run.
Import Stream Rlp Fork Journal StateDb.

(** ** The prefix *)

Definition kMagic : Z := 0x3047455a.
Definition kVersion : Z := 13.
Definition kMaxRlpBlockSize : Z := 8388608.

(** Magic, version and the 16 bytes of hash seed, which pick the buckets of hash
    tables that are finite maps here. *)
Definition read_prefix (input : bytes) : res cursor :=
  _ ← fatal_if (len input <? 8) "run: input too small for magic";
  _ ← fatal_if (negb (le_val (slice input 0 4) =? kMagic)) "run: bad magic (expected ZEG0)";
  _ ← fatal_if (negb (le_val (slice input 4 8) =? kVersion)) "run: unsupported format version";
  _ ← fatal_if (len input <? 24) "run: input too small for hash seed";
  Ok (drop 24 input).

Section Run.
Context (keccak256 sha256 : bytes → Z) (garbage : nat → bytes).
Context (is_precompile : revision → Z → bool).
Context (call_precompile : revision → message → Result).
Context (ecrecover_address : Z → Z → Z → Z → option Z).
Context (state_gas_charge : StateGas → Z → Z → option (Z * StateGas)).
Context (state_gas_refill : StateGas → Z → Z → Z * StateGas).
Context (COST_PER_STATE_BYTE NEW_ACCOUNT_STATE_GAS STORAGE_SET_STATE_GAS : Z).
Context (vm : message → bytes → M Result).
(** The build: the chain, and whether the block hash is the public output. *)
Context (build : Consensus.Build) (output_block_hash : bool).

(** ** The sections *)

Record Sections := mkSections {
  consensus : Consensus.ConsensusInfo;
  transactions : Transactions.Transactions;
  contracts : Contracts.Contracts;
  previous_blocks : Chain.PreviousBlocks }.
Definition read_sections (c : cursor) : res (Sections * cursor) :=
  '(consensus, c) ← Consensus.consensus_info build c;
  '(transactions, c) ← Transactions.transactions keccak256 ecrecover_address c;
  '(contracts, c) ← Contracts.parse keccak256 c;
  '(blocks, c) ← Chain.previous_blocks keccak256 c;
  Ok (mkSections consensus transactions contracts blocks, c).

(** The parent's header, anchored by its state root, and the checks against it. *)
Definition check_parent (i : Sections) : res Chain.BlockHeader :=
  match Chain.views_ (previous_blocks i) with
  | [] => Fatal "PreviousBlocks: must include at least the parent block"
  | v :: _ =>
      let parent := Chain.header_of_view v in
      _ ← fatal_if (negb (Chain.state_root parent =? Consensus.parent_hash (consensus i)))
            "PreviousBlocks: block[0].state_root != consensus.parent_state_root";
      _ ← Consensus.check_header build (consensus i) parent;
      Ok parent
  end.

(** ** The witness *)

Definition read_witness (i : Sections) (c : cursor) : res (StateRoot.StateRoot * Accounts.Accounts * Storages.Storages) :=
  '(sr, c, a, s) ← StateRoot.state_root keccak256 garbage c Accounts.accounts0 Storages.storages0;
  _ ← fatal_if (negb (len c =? 0)) "run: input has trailing bytes after the final section";
  _ ← fatal_if (negb (StateRoot.old_root_ sr =? Consensus.parent_hash (consensus i))) "pre-execution state root mismatch";
  Ok (sr, a, s).

(** ** The block *)

(** [ZiskStateDB]'s constructor, with the initialisers of its members. *)
Definition zisk_state_db (i : Sections) (a : Accounts.Accounts) (s : Storages.Storages) : Block.Block :=
  Block.mkBlock
    (mkDB (mkWorld a s WarmKeys.warm0 (TransientStorage.mkTransient ∅) ∅) [] (contracts i) 0 [] false ∅ ∅ kNoBalPending
       (Consensus.fork_id build (consensus i)) (mkTxContext 0 0 0 0 0 0 0 0 0 0 [] 0) (Consensus.number (consensus i))
       (previous_blocks i) EvmMem.initial)
    0 0 0 (replicate 256 Byte.x00) 0 0 0 [] 0.
Definition execute_block (i : Sections) : Block.B Block.Outcome :=
  Block.execute_block keccak256 sha256 is_precompile call_precompile ecrecover_address state_gas_charge state_gas_refill
    COST_PER_STATE_BYTE NEW_ACCOUNT_STATE_GAS STORAGE_SET_STATE_GAS vm build (consensus i) (Transactions.views_ (transactions i)).

(** ** The header *)

Definition block_header (i : Sections) (parent_hash new_state_root : Z) (o : Block.Outcome) (b : Block.Block) : Chain.BlockHeader :=
  let c := consensus i in
  Chain.mkHeader parent_hash (Consensus.ommers_hash c) (Consensus.beneficiary c) new_state_root
    (Transactions.transactions_root_ (transactions i)) (Block.receipts_root_ o) (Block.block_bloom_filter_ b)
    (Consensus.difficulty c) (Consensus.number c) (Consensus.gas_limit c) (Block.gas_used b) (Consensus.timestamp c)
    (Consensus.extra_data c) (Consensus.prev_randao c) (Consensus.nonce c) (Consensus.base_fee_per_gas c)
    (Block.withdrawals_root_ o) (Block.blob_gas_used_ b) (Consensus.excess_blob_gas c) (Consensus.parent_beacon_block_root c)
    (Block.requests_hash_ o) (Block.bal_hash_ o) (Consensus.slot_number build c) (Consensus.fork_id build c).

(** EIP-7934: the size of [rlp([header, txs, ommers, withdrawals])]. *)
Definition block_rlp_size (i : Sections) (h : Chain.BlockHeader) (o : Block.Outcome) : Z :=
  Rlp.item_size (len (Chain.encode_block_header_rlp h) + Rlp.item_size (Transactions.rlp_list_payload_size_ (transactions i)) + 1 +
                 Rlp.item_size (Block.withdrawals_rlp_list_payload_size_ o)).
Definition check_block_size (i : Sections) (h : Chain.BlockHeader) (o : Block.Outcome) : res unit :=
  fatal_if ((Fork.fk_Osaka <=? Consensus.fork_id build (consensus i)) && (kMaxRlpBlockSize <? block_rlp_size i h o))
    "block RLP size exceeds limit".

(** The public output. *)
Definition public_output (i : Sections) (h : Chain.BlockHeader) (block_hash : Z) (o : Block.Outcome) (b : Block.Block) : res Z :=
  if output_block_hash then Ok block_hash
  else Payload.new_payload_request_root sha256 h block_hash (Transactions.views_ (transactions i)) (Consensus.withdrawals_ (consensus i))
         (Payload.mkExecuted (Block.requests_ b) (Block.bal_rlp_ o)).

(** The public output and the block hash. *)
Definition run (input : bytes) : res (Z * Z) :=
  c ← read_prefix input;
  '(i, c) ← read_sections c;
  _ ← check_parent i;
  '(sr, a, s) ← read_witness i c;
  '(o, b) ← execute_block i (zisk_state_db i a s);
  let w := world (Block.db b) in
  '(new_state_root, _, _, _) ← StateRoot.calculate_new_state_root keccak256 garbage sr (accounts w) (storages w);
  parent_hash ← vec_get (Chain.hashes_ (previous_blocks i)) 0;
  let h := block_header i parent_hash new_state_root o b in
  let block_hash := Chain.compute_block_header_hash keccak256 h in
  _ ← check_block_size i h o;
  out ← public_output i h block_hash o b;
  Ok (out, block_hash).
End Run.

(** ** What a run that succeeds went through *)

Section Accepted.
Context (keccak256 sha256 : bytes → Z) (garbage : nat → bytes).
Context (is_precompile : revision → Z → bool).
Context (call_precompile : revision → message → Result).
Context (ecrecover_address : Z → Z → Z → Z → option Z).
Context (state_gas_charge : StateGas → Z → Z → option (Z * StateGas)).
Context (state_gas_refill : StateGas → Z → Z → Z * StateGas).
Context (COST_PER_STATE_BYTE NEW_ACCOUNT_STATE_GAS STORAGE_SET_STATE_GAS : Z).
Context (vm : message → bytes → M Result).
Context (build : Consensus.Build) (output_block_hash : bool).
Abbreviation run := (run keccak256 sha256 garbage is_precompile call_precompile ecrecover_address state_gas_charge state_gas_refill
  COST_PER_STATE_BYTE NEW_ACCOUNT_STATE_GAS STORAGE_SET_STATE_GAS vm build output_block_hash).
Abbreviation execute_block := (execute_block keccak256 sha256 is_precompile call_precompile ecrecover_address state_gas_charge state_gas_refill
  COST_PER_STATE_BYTE NEW_ACCOUNT_STATE_GAS STORAGE_SET_STATE_GAS vm build).
Abbreviation header_hash := (Chain.compute_block_header_hash keccak256).

(** The stages of an accepted input: its sections [i], the parent's record [v],
    the witness [sr] with the tables [a] and [s], and the state [b] and outcome [o]
    execution leaves. *)
Record stages (input : bytes) (out hash : Z) (i : Sections) (v : Chain.View) (sr : StateRoot.StateRoot) (a : Accounts.Accounts)
    (s : Storages.Storages) (o : Block.Outcome) (b : Block.Block) (c : bytes) (r : Z) : Prop := {
  st_sections : ∃ c0, read_prefix input = Ok c0 ∧ read_sections keccak256 ecrecover_address build c0 = Ok (i, c);
  st_parent : ∃ vs, Chain.views_ (previous_blocks i) = v :: vs;
  st_anchor : Chain.view_state_root v = Consensus.parent_hash (consensus i);
  st_header : Consensus.check_header build (consensus i) (Chain.header_of_view v) = Ok tt;
  st_witness : StateRoot.state_root keccak256 garbage c Accounts.accounts0 Storages.storages0 = Ok (sr, [], a, s);
  st_old_root : StateRoot.old_root_ sr = Chain.view_state_root v;
  st_block : execute_block i (zisk_state_db build i a s) = Ok (o, b);
  st_new_root : ∃ sr' a' s', StateRoot.calculate_new_state_root keccak256 garbage sr (accounts (world (Block.db b))) (storages (world (Block.db b))) = Ok (r, sr', a', s');
  st_hash : hash = header_hash (block_header build i (header_hash (Chain.header_of_view v)) r o b);
  st_output : public_output sha256 output_block_hash i (block_header build i (header_hash (Chain.header_of_view v)) r o b) hash o b = Ok out }.

Lemma run_stages input out hash : run input = Ok (out, hash) → ∃ i v sr a s o b c r, stages input out hash i v sr a s o b c r.
Proof.
  intros H. unfold Run.run in H. apply bind_Ok in H as (c0 & H0 & H). apply bind_Ok in H as ([i c] & H1 & H).
  apply bind_Ok in H as (p & Hp & H). unfold check_parent in Hp. destruct (Chain.views_ (previous_blocks i)) as [|v vs] eqn:Ev; [done|].
  cbv zeta in Hp. apply bind_Ok in Hp as (? & Ha%fatal_if_Ok & Hp). apply bind_Ok in Hp as ([] & Hh & <-%Ok_inj). apply negb_false_iff, Z.eqb_eq in Ha.
  apply bind_Ok in H as ([[sr a] s] & Hw & H). unfold read_witness in Hw. apply bind_Ok in Hw as ([[[sr' c'] a'] s'] & Hs & Hw).
  apply bind_Ok in Hw as (? & Hc%fatal_if_Ok & Hw). apply bind_Ok in Hw as (? & Ho%fatal_if_Ok & [= <- <- <-]%Ok_inj).
  apply negb_false_iff, Z.eqb_eq in Hc, Ho. assert (c' = []) as -> by (destruct c'; [done|unfold len in Hc; cbn in Hc; lia]).
  apply bind_Ok in H as ([o b] & Hb & H). cbv zeta in H. apply bind_Ok in H as ([[[r sr2] a2] s2] & Hr & H).
  apply bind_Ok in H as (ph & Hph & H). apply bind_Ok in H as (? & _ & H). apply bind_Ok in H as (out' & Hout & [= <- <-]%Ok_inj).
  assert (Hv : Chain.valid_chain keccak256 (previous_blocks i)).
  { unfold read_sections in H1. apply bind_Ok in H1 as ([? ?] & _ & H1). apply bind_Ok in H1 as ([? ?] & _ & H1). apply bind_Ok in H1 as ([? ?] & _ & H1).
    apply bind_Ok in H1 as ([? ?] & H1 & [= <- _]%Ok_inj). cbn. by eapply Chain.previous_blocks_valid. }
  apply vec_get_Ok in Hph. rewrite (Chain.chain_hash _ _ 0 v Hv) in Hph by (by rewrite Ev). injection Hph as <-.
  exists i, v, sr', a', s', o, b, c, r. split; eauto. by rewrite Ho, <- Ha.
Qed.

(** Execution starts from values of their widths and keeps every record. *)
Lemma stages_kept input out hash i v sr a s o b c r :
  (∀ x, in_u256 (keccak256 x)) → (∀ msg code, Keeps.keeps (vm msg code)) → stages input out hash i v sr a s o b c r →
  RootEval.executed a (accounts (world (Block.db b))) s (storages (world (Block.db b))) ∧
  RootEval.in_range (accounts (world (Block.db b))) (storages (world (Block.db b))).
Proof.
  intros Hk Hvm St. pose proof (st_witness _ _ _ _ _ _ _ _ _ _ _ _ St) as Hw. apply Keeps.state_root_tables in Hw as [Ra Rs]; [|done|done].
  pose proof (st_block _ _ _ _ _ _ _ _ _ _ _ _ St) as Hb. unfold Run.execute_block in Hb. apply Keeps.bk_execute in Hb; [|done|done].
  destruct Hb as [_ Hr [R1 R2 _]]; [by split|]. split; [exact Hr|]. split; intros j row Hj; [|exact (Forall_lookup_1 _ _ _ _ R2 Hj)].
  exact (Forall_lookup_1 _ _ _ _ R1 Hj).
Qed.
(** The header checks that need nothing of the parent. *)
Lemma stages_header input out hash i v sr a s o b c r : stages input out hash i v sr a s o b c r →
  Consensus.number (consensus i) = u64 (Chain.view_number v + 1) ∧ Chain.timestamp (Chain.header_of_view v) < Consensus.timestamp (consensus i).
Proof.
  intros St. pose proof (st_header _ _ _ _ _ _ _ _ _ _ _ _ St) as H. unfold Consensus.check_header in H.
  do 3 (apply bind_Ok in H as (? & _ & H)). apply bind_Ok in H as (? & H & _). unfold Consensus.check_parent_bound in H.
  apply bind_Ok in H as (? & H1%fatal_if_Ok & H). apply bind_Ok in H as (? & H2%fatal_if_Ok & _). apply negb_false_iff, Z.eqb_eq in H1. apply Z.leb_gt in H2. done.
Qed.
End Accepted.

(** ** The claims *)

(** C1.  An accepted input proves a state transition.  With the interpreter of
    src/zevm as the VM, when [run] returns, the returned hash is that of a header
    whose parent hash is the hash of the parent's header, with the next number and
    a later timestamp.  If the state root of the parent's header is the root of a
    world, then every account and slot execution started from is that world's,
    execution changed no row's key or block-start value, and the state root of the
    new header is the root of that world with the rows set to the values execution
    left.  The parent's state root is the only thing trusted.  The statements on
    worlds hold when keccak256 tells the nodes of the witness in the input from the
    nodes of the world's tries (two finite lists) and no extension of the witness
    has an empty path, which state_root.cpp does not check; the one on the new
    root also when no two keys of the new tries agree on 56 nibbles. *)
Theorem run_proves_transition keccak256 sha256 garbage is_precompile call_precompile ecrecover_address evmone_charge refill cpsb nasg sssg levels
    build output_block_hash input out hash :
  (∀ n, length (garbage n) = n) → (∀ x, in_u256 (keccak256 x)) → keccak256 [Byte.x80] = Node.kEmptyTrieRoot →
  let vm := Zevm.zevm keccak256 is_precompile call_precompile ecrecover_address evmone_charge levels in
  run keccak256 sha256 garbage is_precompile call_precompile ecrecover_address evmone_charge refill cpsb nasg sssg vm build output_block_hash input = Ok (out, hash) →
  ∃ i v sr a s o b c r,
    stages keccak256 sha256 garbage is_precompile call_precompile ecrecover_address evmone_charge refill cpsb nasg sssg vm build output_block_hash
      input out hash i v sr a s o b c r ∧
    let parent := Chain.header_of_view v in
    let header := block_header build i (keccak256 (Chain.encode_block_header_rlp parent)) r o b in
    let a' := accounts (world (Block.db b)) in let s' := storages (world (Block.db b)) in
    hash = keccak256 (Chain.encode_block_header_rlp header) ∧
    Chain.number header = u64 (Chain.number parent + 1) ∧ Chain.timestamp parent < Chain.timestamp header ∧
    RootEval.executed a a' s s' ∧
    (RootWorld.no_empty_ext (StateRoot.aux (RootBuild.view sr a s)) → ∀ W, RootWorld.world_ok W →
     Chain.state_root parent = RootWorld.world_root keccak256 W →
     collision_free keccak256 (RootSpec.w_nodes keccak256 (RootWorld.witness_tree sr a s)) (RootWorld.world_nodes keccak256 W) →
     Forall (RootWorld.account_shows keccak256 W) (Accounts.rows a) ∧ Forall (RootWorld.slot_shows keccak256 W) (Storages.rows s) ∧
     (RootWorld.world_spread keccak256 (RootWorld.post_world keccak256 a' s' W) →
      Chain.state_root header = RootWorld.world_root keccak256 (RootWorld.post_world keccak256 a' s' W))).
Proof.
  intros Hg Hk He vm H. apply run_stages in H as (i & v & sr & a & s & o & b & c & r & St). exists i, v, sr, a, s, o, b, c, r.
  destruct (stages_kept _ _ _ _ _ _ _ _ _ _ _ _ _ _ _ _ _ _ _ _ _ _ _ _ _ _ Hk (Keeps.kp_zevm _ Hk _ _ _ _ _) St) as [Hex Hr].
  destruct (stages_header _ _ _ _ _ _ _ _ _ _ _ _ _ _ _ _ _ _ _ _ _ _ _ _ _ _ St) as [Hn Ht]. destruct St as [S1 S2 S3 S4 S5 S6 S7 (sr' & a' & s' & S8) S9 S10].
  split; [by split; eauto|]. cbv zeta. split_and!; [exact S9|exact Hn|exact Ht|exact Hex|]. intros Hext W HW E Hcf.
  assert (E' : StateRoot.old_root_ sr = RootWorld.world_root keccak256 W) by (by rewrite S6).
  destruct (RootWorld.rows_world keccak256 Hk He garbage Hg c Accounts.accounts0 Storages.storages0 eq_refl eq_refl sr [] a s S5 Hext W HW E' Hcf) as [Ha Hs].
  split; [exact Ha|]. split; [exact Hs|]. intros Hsp.
  pose proof (RootWorld.root_world keccak256 Hk He garbage Hg c Accounts.accounts0 Storages.storages0 eq_refl eq_refl sr [] a s S5 Hext W HW E' Hcf _ _ Hex Hr Hsp) as Hw.
  by rewrite S8 in Hw.
Qed.

(** C5.  Execution keeps the tables well typed.  Whatever the transactions and the
    code they run do, the block pipeline over the interpreter of src/zevm leaves
    every account and storage row with the record and the cached trie leaf the
    witness gave it, adds and removes none, keeps every nonce in 64 bits and every
    balance, code hash and slot value in 256 bits, in the rows and in the journal
    that may restore them, and never changes the fork. *)
Theorem execution_keeps_types keccak256 sha256 is_precompile call_precompile ecrecover_address evmone_charge refill cpsb nasg sssg levels
    build consensus txs b o b' :
  (∀ x, in_u256 (keccak256 x)) → Keeps.ranged (Block.db b) →
  Block.execute_block keccak256 sha256 is_precompile call_precompile ecrecover_address evmone_charge refill cpsb nasg sssg
    (Zevm.zevm keccak256 is_precompile call_precompile ecrecover_address evmone_charge levels) build consensus txs b = Ok (o, b') →
  Keeps.advances (Block.db b) (Block.db b').
Proof. intros Hk Hr H. apply Keeps.bk_execute in H; [exact (H Hr)|exact Hk|]. intros. by apply Keeps.kp_zevm. Qed.

(** ** A sample input *)

(** A Shanghai block on a world of one account: a transaction of the account to
    itself, to which it is also the coinbase, and a withdrawal of 3 gwei to it. *)
Import Sample.
Definition eest : Consensus.Build := Consensus.mkBuild true false.
Definition account_one (h r s v : Z) : option Z := Some 1.
Definition payer_world : RootWorld.world :=
  {[ RootWorld.addr_key WorldRoot.toy_hash 1 := RootWorld.mkAcct 4 (10 ^ 18) Node.kEmptyCodeHash ∅ ]}.
Definition payer_section : bytes :=
  WorldRoot.put_section 1 0 (WorldRoot.put_account 0 1 4 (10 ^ 18) Node.kEmptyCodeHash (WorldRoot.put_u64 0)).
Definition payer : StateRoot.StateRoot * bytes * Accounts.Accounts * Storages.Storages :=
  Eval vm_compute in WorldRoot.from_ok (WorldRoot.no_root, [], Accounts.accounts0, Storages.storages0) (WorldRoot.run_section payer_section).
Definition payer_root : StateRoot.StateRoot := payer.1.1.1.
Definition payer_accounts : Accounts.Accounts := payer.1.2.
Definition payer_storages : Storages.Storages := payer.2.
Definition sample_root : Z := Eval vm_compute in StateRoot.old_root_ payer_root.
Definition sample_consensus : bytes :=
  be_bytes 32 sample_root ++ be_bytes 20 1 ++ replicate 4 Byte.x00 ++ le_bytes 8 101 ++ le_bytes 8 30000000 ++ le_bytes 8 1700000012 ++
  le_bytes 8 0 ++ replicate 32 Byte.x00 ++ be_bytes 32 0 ++ be_bytes 32 2 ++ be_bytes 32 1000000000 ++ le_bytes 8 1 ++ le_bytes 8 0 ++
  be_bytes 32 0 ++ be_bytes 32 0 ++ replicate 8 Byte.x00 ++ be_bytes 32 Consensus.kEmptyOmmersHash ++ le_bytes 8 fk_Shanghai ++
  le_bytes 8 0 ++ le_bytes 8 0 ++ le_bytes 8 0 ++ le_bytes 8 0.
Definition sample_withdrawal : bytes := le_bytes 8 7 ++ le_bytes 8 9 ++ be_bytes 20 1 ++ replicate 4 Byte.x00 ++ le_bytes 8 3.
Definition sample_tx : bytes :=
  encode_list [encode_u64 4; encode_u256 2000000000; encode_u64 50000; encode (be_bytes 20 1); encode_u256 9; encode [Byte.x01]; encode_u64 27; encode_u256 1; encode_u256 1].
Definition sample_parent : bytes :=
  replicate 84 Byte.x00 ++ le_bytes 4 17 ++ be_bytes 32 sample_root ++ replicate 352 Byte.x00 ++ le_bytes 8 100 ++ le_bytes 8 30000000 ++
  le_bytes 8 15000000 ++ le_bytes 8 1700000000 ++ replicate 80 Byte.x00 ++ be_bytes 32 1000000000 ++ replicate 152 Byte.x00.
Definition sample_input : bytes :=
  le_bytes 4 kMagic ++ le_bytes 4 kVersion ++ replicate 16 Byte.x2a ++ sample_consensus ++ sample_withdrawal ++
  le_bytes 8 1 ++ le_bytes 8 (len sample_tx) ++ put_padded sample_tx ++ le_bytes 8 0 ++ le_bytes 8 1 ++ sample_parent ++ payer_section.
Abbreviation sample_vm := (Zevm.zevm WorldRoot.toy_hash no_precompile failing_precompile account_one toy_state_gas_charge 1025).
Abbreviation sample_run_with vm := (
  run WorldRoot.toy_hash Ssz.toy_sha WorldRoot.zero_fill no_precompile failing_precompile account_one toy_state_gas_charge BlockSample.toy_refill 0 0 0
    vm eest false sample_input).
Abbreviation sample_run := (sample_run_with sample_vm).
Definition sample_output : Z * Z := Eval vm_compute in WorldRoot.from_ok (0, 0) sample_run.
Definition sample_prefix : bytes := Eval vm_compute in WorldRoot.from_ok [] (read_prefix sample_input).
Definition no_sections : Sections :=
  mkSections (Consensus.mkConsensus [] []) (Transactions.mkTransactions [] 0 0) Contracts.contracts0 (Chain.mkBlocks [] []).
Definition sample_sections : Sections :=
  Eval vm_compute in (WorldRoot.from_ok (no_sections, []) (read_sections WorldRoot.toy_hash account_one eest sample_prefix)).1.
Abbreviation sample_start := (zisk_state_db eest sample_sections payer_accounts payer_storages).
Abbreviation sample_execute := (
  execute_block WorldRoot.toy_hash Ssz.toy_sha no_precompile failing_precompile account_one toy_state_gas_charge BlockSample.toy_refill 0 0 0
    sample_vm eest sample_sections).
Definition sample_end : Block.Block :=
  Eval vm_compute in match sample_execute sample_start with Ok (_, b) => b | Fatal _ => sample_start end.
Definition paid_world : RootWorld.world :=
  RootWorld.post_world WorldRoot.toy_hash (accounts (world (Block.db sample_end))) (storages (world (Block.db sample_end))) payer_world.

Lemma sample_accepted : sample_run = Ok (sample_output.1, sample_output.2).
Proof. by vm_compute. Qed.
Lemma sample_read : read_prefix sample_input = Ok sample_prefix ∧
  read_sections WorldRoot.toy_hash account_one eest sample_prefix = Ok (sample_sections, payer_section).
Proof. split; by vm_compute. Qed.
Lemma sample_executed : ∃ o, sample_execute sample_start = Ok (o, sample_end).
Proof. eexists. by vm_compute. Qed.
Lemma payer_tables : StateRoot.state_root WorldRoot.toy_hash WorldRoot.zero_fill payer_section Accounts.accounts0 Storages.storages0 =
  Ok (payer_root, [], payer_accounts, payer_storages).
Proof. by vm_compute. Qed.
Lemma payer_roots : StateRoot.old_root_ payer_root = RootWorld.world_root WorldRoot.toy_hash payer_world.
Proof. by vm_compute. Qed.
Lemma payer_ext : RootWorld.no_empty_ext (StateRoot.aux (RootBuild.view payer_root payer_accounts payer_storages)).
Proof. vm_compute. repeat constructor; done. Qed.

Section Decided.
Import RootWorld.
Lemma payer_ok : world_ok payer_world.
Proof. WorldRoot.by_decide. Qed.
Lemma payer_apart : collision_free WorldRoot.toy_hash (RootSpec.w_nodes WorldRoot.toy_hash (witness_tree payer_root payer_accounts payer_storages)) (world_nodes WorldRoot.toy_hash payer_world).
Proof. WorldRoot.by_decide. Qed.
Lemma sample_spread : world_spread WorldRoot.toy_hash paid_world.
Proof. WorldRoot.by_decide. Qed.
End Decided.

(** The header of the sample commits to the world after the transaction and the
    withdrawal: the nonce is raised, and the account has paid itself back all but
    the burnt base fee. *)
Lemma run_proves_transition_witness :
  sample_run = Ok (sample_output.1, sample_output.2) ∧
  (λ x, (RootWorld.a_nonce x, RootWorld.a_balance x)) <$> paid_world !! RootWorld.addr_key WorldRoot.toy_hash 1 = Some (5, 10 ^ 18 + 3000000000 - 21016 * 1000000000) ∧
  ∃ header, sample_output.2 = WorldRoot.toy_hash (Chain.encode_block_header_rlp header) ∧ Chain.number header = 101 ∧
    Chain.state_root header = RootWorld.world_root WorldRoot.toy_hash paid_world.
Proof.
  split; [exact sample_accepted|]. split; [by vm_compute|].
  destruct (run_proves_transition _ _ _ _ _ _ _ _ _ _ _ _ _ _ _ _ _ WorldRoot.zero_fill_len WorldRoot.toy_hash_range WorldRoot.toy_empty sample_accepted)
    as (i & v & sr & a & s & o & b & c & r & St & Hh & _ & _ & _ & Hw). cbv zeta in *.
  eexists. split; [exact Hh|].
  destruct St as [(c0 & E0 & E1) _ _ _ Ew Eo Eb _ _ _]. destruct sample_read as [R0 R1]. destruct sample_executed as [o' R2].
  rewrite R0 in E0. injection E0 as <-. rewrite R1 in E1. injection E1 as <- <-. rewrite payer_tables in Ew. injection Ew as <- <- <-.
  rewrite R2 in Eb. injection Eb as <- <-.
  split; [cbn [Chain.number block_header]; by vm_compute|]. destruct (Hw payer_ext payer_world payer_ok (eq_trans (eq_sym Eo) payer_roots) payer_apart) as (_ & _ & H). exact (H sample_spread).
Defined.
Lemma sample_pipeline : ∃ o, Block.execute_block WorldRoot.toy_hash Ssz.toy_sha no_precompile failing_precompile account_one toy_state_gas_charge
  BlockSample.toy_refill 0 0 0 sample_vm eest (consensus sample_sections) (Transactions.views_ (transactions sample_sections)) sample_start = Ok (o, sample_end).
Proof. eexists. by vm_compute. Qed.
Lemma payer_ranged : Keeps.ranged (Block.db sample_start).
Proof. pose proof payer_tables as H. apply Keeps.state_root_tables in H as [Ha Hs]; [|done|done]. by split. Qed.
Lemma execution_keeps_types_witness : Keeps.ranged (Block.db sample_start) ∧ Keeps.advances (Block.db sample_start) (Block.db sample_end).
Proof.
  split; [exact payer_ranged|]. destruct sample_pipeline as [o R].
  exact (execution_keeps_types _ _ _ _ _ _ _ _ _ _ _ _ _ _ _ _ _ WorldRoot.toy_hash_range payer_ranged R).
Defined.
End Run.
