(* ===== verification/RunGas.v ===== *)
(** The gas of an accepted block: what the parser accepts meets the pipeline's
    assumptions, the steps around the transaction loop leave the counters alone,
    and so the gas used in the header [run] commits to is within its gas limit. *)

From stdpp Require Import base numbers list strings gmap.
From S2P Require Import Prelude Fork Rlp Receipt Contracts Chain CreateAddress Mpt Bal EvmMem Accounts Storages Transient Journal StateDb HostProofs U256 Zevm Sample StateRoot WorldRoot Transactions Consensus IntrinsicGas BalEncode Block BlockSample BlockGas BlockLimit Ssz Payload Run.

Set Default Goal Selector "!".

Module RunGas.
Import Stream Rlp Fork Journal StateDb Transactions IntrinsicGas Block BlockGas BlockLimit Run.

(** ** Parsed transactions *)

(** What the parser accepts meets the pipeline's assumptions on a transaction. *)
Lemma parse_fields_blank t it v : parse_fields (view_of t) it = Ok v → num_authorizations_ v = 0 ∧ (t = Receipt.Legacy → access_list_rlp_ v = []).
Proof.
  unfold parse_fields. destruct t; cbn [type_ view_of];
    unfold parse_legacy, parse_access_list, parse_dynamic_fee, parse_blob, parse_set_code, parse_osaka; intros H;
    repeat (apply bind_Ok in H as ([? ?] & _ & H)); by apply bind_Ok in H as (_ & _ & <-%Ok_inj).
Qed.
Lemma parsed_ranges v : Forall field_ok (Transactions.all_fields v) →
  in_u64 (gas_limit_ v) ∧ in_u64 (nonce_ v) ∧ 0 ≤ value_ v ∧ len (data_ v) < 2 ^ 32 ∧ 0 ≤ fee_cap v ∧ 0 ≤ priority_fee v.
Proof.
  unfold Transactions.all_fields, base_fields, dynamic_fields, tail_fields, fee_cap, priority_fee, has_gas_price.
  destruct (type_ v); cbn [app]; rewrite !Forall_cons; cbn [field_ok]; unfold in_u64, in_u256; intuition lia.
Qed.
Lemma field_len f l : f ∈ l → len (enc_field f) ≤ len (concat (map enc_field l)).
Proof.
  induction 1 as [f l|f g l _ IH]; cbn [map concat]; rewrite len_app; [pose proof (len_nonneg (concat (map enc_field l)))|pose proof (len_nonneg (enc_field g))]; lia.
Qed.

Section Parsed.
Context (keccak256 : bytes → Z) (ecrecover_address : Z → Z → Z → Z → option Z).
Lemma auth_count l n : len l < 2 ^ 32 → validate_authorization_list l = Ok n → 0 ≤ n < 2 ^ 32.
Proof.
  intros Hl H. unfold validate_authorization_list in H. apply bind_Ok in H as (outer & Hd & H). apply bind_Ok in H as (? & _ & H).
  destruct (item_sizes _ _ Hl Hd) as (Hs & _ & Hp). pose proof (len_nonneg (drop (length (raw outer)) l)).
  apply (fold_items_measure _ (λ n, n) (λ n, 0 ≤ n)) in H as [Hn0 Hn1]; [lia| |lia|lia].
  intros a i a' Ha _ Hi _ H2. apply bind_Ok in H2 as (? & _ & <-%Ok_inj). lia.
Qed.
Lemma parsed_tx_ok env v : len env < 2 ^ 31 → parse_envelope keccak256 ecrecover_address env = Ok v → tx_ok v.
Proof.
  intros Hl H. pose proof H as (_ & Hok & _)%parse_envelope_spec; [|lia]. pose proof H as (_ & Hs)%signed_ok; [|done].
  destruct (parsed_ranges v Hok) as (? & ? & ? & ? & ? & ?). split; try done.
  unfold Transactions.parse_envelope in H. apply bind_Ok in H as (? & _ & H). apply bind_Ok in H as (t & Ht & H). cbv zeta in H.
  apply bind_Ok in H as (outer & _ & H). do 2 (apply bind_Ok in H as (? & _ & H)). apply bind_Ok in H as (v0 & Hv0 & H).
  pose proof (parse_fields_type _ _ _ Hv0) as Ht0. apply parse_fields_blank in Hv0 as [Hn0 Ha0]. apply bind_Ok in H as (? & _ & H). apply bind_Ok in H as (v1 & Hv1 & H).
  apply bind_Ok in H as (sender & _ & <-%Ok_inj). cbn [num_authorizations_ access_list_rlp_ set_identity] in *.
  assert (Hfl : ∀ f, f ∈ signed_fields (set_identity (keccak256 env) sender env v1) → len (enc_field f) < 2 ^ 32).
  { intros f Hf%field_len. lia. }
  unfold signed_fields, base_fields, dynamic_fields, tail_fields in Hfl. cbn in Hfl.
  destruct t; try (apply Ok_inj in Hv1 as <-; rewrite Ht0 in Hfl; cbn in Hfl; split; cbn; [done| |by rewrite Hn0]).
  - by rewrite Ha0.
  - apply (Hfl (FList _)). set_solver.
  - apply (Hfl (FList _)). set_solver.
  - apply (Hfl (FList _)). set_solver.
  - apply bind_Ok in Hv1 as (n & Hn & <-%Ok_inj). cbn in Hfl. rewrite Ht0 in Hfl. cbn in Hfl. split; cbn; [done| |].
    + apply (Hfl (FList _)). set_solver.
    + apply (auth_count (authorization_list_rlp_ v0)); [|done]. apply (Hfl (FList _)). set_solver.
  - apply (Hfl (FList _)). set_solver.
Qed.
Lemma transactions_tx_ok c T c' : len c < 2 ^ 31 → Transactions.transactions keccak256 ecrecover_address c = Ok (T, c') → Forall tx_ok (views_ T).
Proof.
  intros Hl H. destruct (transactions_spec _ _ _ _ _ Hl H) as (envs & _ & HF & _ & _ & Hlen). apply Forall_lookup. intros k v Hv.
  destruct (Forall2_lookup_r _ _ _ _ _ HF Hv) as (env & He & Hp). eapply Forall_lookup in Hlen as [_ Hle]; [|exact He]. by eapply parsed_tx_ok.
Qed.
End Parsed.

(** ** The counters outside the transaction loop *)

Definition counters (b : Block) : Z * Z * Z := (cumulative_gas_used_ b, block_regular_gas_used_ b, block_state_gas_used_ b).
Definition uncounted {A} (m : B A) : Prop := ∀ b a b', m b = Ok (a, b') → counters b' = counters b.
Lemma un_bind {A C} (m : B A) (k : A → B C) : uncounted m → (∀ a, uncounted (k a)) → uncounted (m ≫= k).
Proof. intros Hm Hk b c b' H. apply bindb_run in H as (a & b1 & H1 & H2). by rewrite (Hk _ _ _ _ H2), (Hm _ _ _ H1). Qed.
Lemma un_host {A} (m : M A) : uncounted (host m).
Proof. by intros b a b' (d & H & ->)%host_run. Qed.
Lemma un_modb f : (∀ b, counters (f b) = counters b) → uncounted (modb f).
Proof. intros Hf b a b' ->%modb_run. apply Hf. Qed.
Lemma un_ret {A} (a : A) : uncounted (mret a).
Proof. by intros b x b' [= _ <-]. Qed.
Lemma un_getb {A} (f : Block → A) : uncounted (getb f).
Proof. by intros b x b' [_ ->]%getb_run. Qed.
Lemma un_liftb {A} (r : res A) : uncounted (liftb r).
Proof. by intros b x b' [_ ->]%liftb_run. Qed.
Lemma un_fatal_when c e : uncounted (fatal_when c e).
Proof. by intros b x b' [_ ->]%fatal_when_run. Qed.
Ltac un_step :=
  cbv beta zeta;
  lazymatch goal with
  | |- uncounted (mbind _ _) => apply un_bind; [|intros ?]
  | |- uncounted (host _) => apply un_host
  | |- uncounted (modb _) => apply un_modb; intros; reflexivity
  | |- uncounted (mret _) => apply un_ret
  | |- uncounted (getb _) => apply un_getb
  | |- uncounted (liftb _) => apply un_liftb
  | |- uncounted (fatal_when _ _) => apply un_fatal_when
  | |- uncounted (match ?x with _ => _ end) => destruct x
  | |- uncounted ?m => let h := head_of m in unfold h
  end.

Section Limit.
Context (keccak256 sha256 : bytes → Z).
Context (is_precompile : revision → Z → bool).
Context (call_precompile : revision → message → Result).
Context (ecrecover_address : Z → Z → Z → Z → option Z).
Context (state_gas_charge : StateGas → Z → Z → option (Z * StateGas)).
Context (state_gas_refill : StateGas → Z → Z → Z * StateGas).
Context (COST_PER_STATE_BYTE NEW_ACCOUNT_STATE_GAS STORAGE_SET_STATE_GAS : Z).
Context (vm : message → bytes → M Result) {HF : FixedFork vm}.
Context (build : Consensus.Build) (consensus : Consensus.ConsensusInfo).
#[local] Hint Extern 1 (keeps_fork (vm _ _)) => apply fixed_fork : keeps_fork.

Lemma kf_pre : keeps_fork (pre_execute_block STORAGE_SET_STATE_GAS vm build consensus).
Proof. kf. Qed.
Lemma un_post : uncounted (post_execute_block keccak256 STORAGE_SET_STATE_GAS vm build consensus).
Proof. repeat un_step. Qed.

Abbreviation results_within := (BlockLimit.results_within keccak256 is_precompile call_precompile ecrecover_address state_gas_charge
  state_gas_refill COST_PER_STATE_BYTE NEW_ACCOUNT_STATE_GAS vm build consensus).
(** The transactions' frames, in the states a block's run reaches them in: after the
    system calls of the block's start. *)
Definition block_within (txs : list View) (b : Block) : bool :=
  match host (pre_execute_block STORAGE_SET_STATE_GAS vm build consensus) b with
  | Ok (_, b) => results_within 0 txs b
  | Fatal _ => true
  end.

(** The whole block, from empty counters. *)
Lemma execute_limit txs b o b' : Consensus.gas_limit consensus < 2 ^ 63 → Forall tx_ok txs → within_limit consensus b → block_within txs b = true →
  Block.execute_block keccak256 sha256 is_precompile call_precompile ecrecover_address state_gas_charge state_gas_refill
    COST_PER_STATE_BYTE NEW_ACCOUNT_STATE_GAS STORAGE_SET_STATE_GAS vm build consensus txs b = Ok (o, b') →
  0 ≤ gas_used b' ≤ Consensus.gas_limit consensus ∧ gas_used b' = cumulative_gas_used_ b'.
Proof.
  intros Hl Hok W Hr H. unfold Block.execute_block in H. apply bindb_run in H as (u0 & b0 & H0 & H).
  unfold block_within in Hr. rewrite H0 in Hr. apply host_frozen, frozen_totals in H0 as F0; [|apply kf_pre].
  apply (within_totals consensus) in F0; [|exact W]. apply bindb_run in H as (u1 & b1 & H1 & H).
  apply bindb_run in H1 as (u2 & b2 & H2 & ->%modb_run). eapply process_limit in H2 as [[_ W2 W3 W4] _]; [|done..].
  assert (E : counters b' = counters b2).
  { apply bindb_run in H as (u3 & b3 & E3%un_post & H). etrans; [|exact E3].
    match type of H with ?m _ = _ => assert (Hu : uncounted m) by (repeat un_step) end. exact (Hu _ _ _ H). }
  unfold counters in E. injection E as E1 E2 E3. unfold gas_used. rewrite E1, E2, E3, W2, W3. lia.
Qed.
End Limit.

(** ** The run *)

Lemma withdrawals_len n : ∀ c ws c', Consensus.read_withdrawals n c = Ok (ws, c') → len c' ≤ len c.
Proof.
  induction n as [|n IH]; intros c ws c' H; cbn [Consensus.read_withdrawals] in H; [by injection H as _ <-|]. cbv zeta in H.
  apply bind_Ok in H as (c1 & [H1 _]%advance_len & H). apply bind_Ok in H as ([ws' c2] & H2%IH & [= _ <-]%Ok_inj). lia.
Qed.
Lemma consensus_len build c i c' : Consensus.consensus_info build c = Ok (i, c') → len c' ≤ len c.
Proof.
  unfold Consensus.consensus_info. cbv zeta. intros H. apply bind_Ok in H as (c1 & [H1 _]%advance_len & H). do 5 (apply bind_Ok in H as (? & _ & H)).
  apply bind_Ok in H as ([ws c2] & H2%withdrawals_len & [= _ <-]%Ok_inj). lia.
Qed.
Lemma sections_tx_ok keccak256 ecrecover_address build input c0 i c : len input < 2 ^ 31 → read_prefix input = Ok c0 →
  read_sections keccak256 ecrecover_address build c0 = Ok (i, c) → Forall tx_ok (views_ (Run.transactions i)).
Proof.
  intros Hl H0 H. unfold read_prefix in H0. do 4 (apply bind_Ok in H0 as (? & _ & H0)). apply Ok_inj in H0 as <-.
  assert (len (drop 24 input) ≤ len input) by (unfold len; rewrite length_drop; lia).
  unfold read_sections in H. apply bind_Ok in H as ([ci c1] & H1%consensus_len & H). apply bind_Ok in H as ([T c2] & H2%transactions_tx_ok & H); [|lia].
  apply bind_Ok in H as ([? ?] & _ & H). by apply bind_Ok in H as ([? ?] & _ & [= <- _]%Ok_inj).
Qed.

(** C9.  The header a run commits to respects its gas limit.  For an input below
    2^31 bytes, with the interpreter of src/zevm as the VM, the gas limit of the
    header whose hash [run] returns is that of the input and between 5000 and
    2^63 - 1.  Before Amsterdam its gas used is at most that limit, and is the block's
    cumulative gas, to which the steps around the transactions add nothing; here it
    is assumed that in this run the top frame of every transaction returned at most
    the transaction's gas and a refund counter that is not negative
    ([block_within], which runs the block and looks).  Of the transactions nothing
    is assumed: what the parser accepts is in range. *)
Theorem run_gas_within_limit keccak256 sha256 garbage is_precompile call_precompile ecrecover_address charge refill cpsb nasg sssg levels
    build output_block_hash input out hash :
  len input < 2 ^ 31 →
  let vm := Zevm.zevm keccak256 is_precompile call_precompile ecrecover_address charge levels in
  run keccak256 sha256 garbage is_precompile call_precompile ecrecover_address charge refill cpsb nasg sssg vm build output_block_hash input = Ok (out, hash) →
  ∃ i v sr a s o b c r,
    stages keccak256 sha256 garbage is_precompile call_precompile ecrecover_address charge refill cpsb nasg sssg vm build output_block_hash
      input out hash i v sr a s o b c r ∧
    let header := block_header build i (keccak256 (Chain.encode_block_header_rlp (Chain.header_of_view v))) r o b in
    hash = keccak256 (Chain.encode_block_header_rlp header) ∧ 5000 ≤ Chain.gas_limit header < 2 ^ 63 ∧
    Chain.gas_limit header = Consensus.gas_limit (Run.consensus i) ∧
    (Consensus.fork_id build (Run.consensus i) < fk_Amsterdam →
     block_within keccak256 is_precompile call_precompile ecrecover_address charge refill cpsb nasg sssg vm build (Run.consensus i)
       (views_ (Run.transactions i)) (zisk_state_db build i a s) = true →
     0 ≤ Chain.gas_used header ≤ Chain.gas_limit header ∧ Chain.gas_used header = cumulative_gas_used_ b).
Proof.
  intros Hl vm H. apply run_stages in H as (i & v & sr & a & s & o & b & c & r & St). exists i, v, sr, a, s, o, b, c, r. split; [exact St|].
  destruct St as [(c0 & E0 & E1) _ _ Hh _ _ Hb _ Ehash _].
  assert (Hg : 5000 ≤ Consensus.gas_limit (Run.consensus i) < 2 ^ 63).
  { unfold Consensus.check_header in Hh. do 2 (apply bind_Ok in Hh as (? & _ & Hh)). apply bind_Ok in Hh as (? & Hg & _). unfold Consensus.check_gas_limit in Hg.
    apply bind_Ok in Hg as (? & G1%fatal_if_Ok & G2%fatal_if_Ok). apply Z.ltb_ge in G1, G2. unfold Consensus.kMinGasLimit, Consensus.INT64_MAX in *. lia. }
  cbv zeta. cbn [block_header Chain.gas_limit Chain.gas_used]. split; [exact Ehash|]. split; [exact Hg|]. split; [done|]. intros Hf Hr.
  unfold Run.execute_block in Hb. eapply execute_limit in Hb; [exact Hb|apply _|lia|by eapply sections_tx_ok| |exact Hr]. split; cbn; [|done..|lia]. unfold amsterdam. cbn. by apply Z.leb_gt.
Qed.

Lemma sample_input_small : len sample_input < 2 ^ 31.
Proof. by vm_compute. Qed.
Lemma sample_within : block_within WorldRoot.toy_hash Sample.no_precompile Sample.failing_precompile account_one Sample.toy_state_gas_charge
  BlockSample.toy_refill 0 0 0 sample_vm eest (Run.consensus sample_sections) (views_ (Run.transactions sample_sections)) sample_start = true.
Proof. by vm_compute. Qed.
Lemma run_gas_within_limit_witness :
  sample_run = Ok (sample_output.1, sample_output.2) ∧
  ∃ header, sample_output.2 = WorldRoot.toy_hash (Chain.encode_block_header_rlp header) ∧
    Chain.gas_limit header = 30000000 ∧ 0 ≤ Chain.gas_used header ≤ 30000000.
Proof.
  split; [exact sample_accepted|].
  destruct (run_gas_within_limit WorldRoot.toy_hash Ssz.toy_sha WorldRoot.zero_fill Sample.no_precompile Sample.failing_precompile account_one
    Sample.toy_state_gas_charge BlockSample.toy_refill 0 0 0 1025 eest false sample_input _ _ sample_input_small sample_accepted)
    as (i & v & sr & a & s & o & b & c & r & [(c0 & E0 & E1) _ _ _ Ew _ _ _ _ _] & Hh & _ & Hl & Hu).
  destruct sample_read as [R0 R1]. rewrite R0 in E0. injection E0 as <-. rewrite R1 in E1. injection E1 as <- <-.
  rewrite payer_tables in Ew. injection Ew as <- <- <-.
  assert (E : Consensus.gas_limit (Run.consensus sample_sections) = 30000000) by (by vm_compute). rewrite E in Hl.
  destruct Hu as [Hu _]; [by vm_compute|exact sample_within|]. rewrite Hl in Hu. eexists. exact (conj Hh (conj Hl Hu)).
Defined.
End RunGas.
